(* ===== verification/_CoqProject ===== *)
-Q . S2P
Prelude.v
SortedVec.v
Varint.v
Rng.v
Endian.v
Utf8.v
ProtoCodec.v
RaftTypes.v
RaftStorage.v
RaftLog.v
RaftProgress.v
RaftConf.v
RaftState.v
RaftReplication.v
RaftNode.v
RawNode.v
RaftFrame.v
RaftElection.v
RaftCommit.v
RaftDriver.v
RaftCluster.v
RaftRuns.v
KeyCodec.v
KeyPrefix.v
TxnCodec.v
TxnKey.v
BTree.v
TxnStore.v
Mvcc.v
Percolator.v
PercolatorSpec.v
TxnKv.v
TxnSystem.v
TxnSafety.v
TxnRuns.v
Crc32c.v
DbFormat.v
WriteBatch.v
EngineFs.v
Wal.v
RangeDel.v
Lsm.v
Cursor.v
MergeCursor.v
Levels.v
LevelCursor.v
DbIter.v
Arena.v
SkipList.v
SkipListSteps.v
MemTable.v
Block.v
SstFormat.v
Bloom.v
SstProps.v
TableBuild.v
TableRead.v
TableCache.v
DbRead.v
DbTables.v
Compaction.v
TableWriter.v
PdRecord.v
PdRouting.v
PdMachine.v
PdTable.v
PdDischarge.v
PdTso.v
PdSafepoint.v
