(* ===== verification/Prelude.v ===== *)
(** * Esker: a verification development

    Esker is a distributed transactional key-value store with a SQL front end,
    written in Rust (src/crates).  From the bottom up: [esker-base] has the
    primitives (varints, CRC32C, a seeded generator); [esker-engine] is the
    storage engine, a log-structured merge tree with a write-ahead log;
    [esker-keys] lays out the key space and encodes keys so that byte order is
    key order; [esker-raft] is the consensus core, a pure state machine;
    [esker-txn] holds the rules of Percolator-style transactions as pure
    functions over a snapshot, and [esker-store] runs them as commands on
    replicated regions; [esker-pd] is the placement driver, a Raft group of its
    own that hands out timestamps and ids and knows which region holds which
    key.  A write goes client, store, Raft log, transaction
    rules, engine batch, write-ahead log, memtable, and later through flushes
    and compactions; this library models the parts of that path whose
    correctness is more than plumbing.

    The embedding is shallow.  A [u64] is an [N] whose wrap-around or saturation
    is written out ([wadd], [wsub], [sat_add]), a [usize] is a [nat], a byte
    string is a [list byte], [Result] is [result], and a stateful method takes
    and returns its record.  Traits are classes, and what their documentation
    promises is a second class of laws which the clients are verified against
    and the implementations in the sources are shown to satisfy.

    ** Files, and what they model

    Primitives.  [Prelude], [SortedVec], [Endian] and [Utf8] hold results,
    machine integers, byte strings and what is used of the standard library;
    [ProtoCodec] is the encoder and decoder of esker-proto/src/codec.rs with the
    regions of region.rs;
    [Varint] is esker-base/src/varint.rs, [Rng] is rng.rs and [Crc32c] is
    crc32c.rs.

    Consensus (esker-raft).  [RaftTypes] and [RaftConf] are types.rs and conf.rs;
    [RaftStorage], [RaftLog] and [RaftProgress] are storage.rs, log.rs and
    progress.rs; [RaftState], [RaftReplication], [RaftNode] and [RawNode] have
    one definition per handler of core.rs, election.rs, replication.rs,
    readonly.rs, snapshot.rs, transfer.rs and raw_node.rs, in a small state
    monad.  [RaftFrame], [RaftElection] and [RaftCommit] prove what the handlers
    of one node do.  [RaftDriver] is a cluster of nodes behind disks that take
    time (esker-sim/src/raft/driver.rs), with crashes, restarts and a network
    that loses, delays, repeats and reorders; [RaftCluster] proves election
    safety over its runs and [RaftRuns] holds runs of it and what a lost pre-vote
    does.

    Keys and transactions.  [KeyCodec] and [KeyPrefix] are esker-keys codec.rs
    and prefix.rs.  [TxnCodec], [TxnKey], [TxnStore] and [Percolator] are
    codec.rs, key.rs, mutation.rs with snapshot.rs, and percolator.rs of
    esker-txn; [BTree] is the ordered map under [MemoryStore]; [TxnKv] is
    esker-store/src/txnkv.rs.  [Mvcc] gives the abstract multi-version store and
    the laws the rules rely on, [PercolatorSpec] the behaviour of each rule over
    any store with those laws, [TxnSystem] what the commands stage, [TxnSafety]
    the system of clients that keep the contract of Percolator and its
    invariant, and [TxnRuns] runs of it and what happens outside the contract.

    Storage engine.  [DbFormat] is dbformat.rs, [WriteBatch] is batch.rs,
    [EngineFs] is the file traits of fs/mod.rs with the files of memfs.rs, [Wal]
    is wal/format.rs, writer.rs and reader.rs, [RangeDel] is range_del.rs.
    [Lsm] states what readers are promised.  [Cursor] is the trait of
    iterator.rs with its laws, which [MergeCursor] (db/merge.rs), [LevelCursor]
    (db/level_iter.rs) and the memtable's cursor satisfy and on which [DbIter]
    (db/iter.rs) and [DbRead] (db/read.rs) rest.  [Arena], [SkipList] and
    [MemTable] are memtable/arena.rs, memtable/skiplist.rs and memtable.rs, down
    to the words of a node; [SkipListSteps] interleaves the stores of an insert
    with the loads of a search.  [Levels] is version/mod.rs, the
    level step of version/builder.rs and compaction/picker.rs; [Compaction] is
    compaction/job.rs; [TableWriter] is the output side of db/compact.rs.

    Tables (esker-engine/src/sst).  [Block] is block.rs, [SstFormat] footer.rs
    with the frames, [Bloom] filter.rs over esker-base's hash.rs, [SstProps]
    props.rs, [TableBuild] builder.rs and [TableRead] reader.rs.  [TableCache] is
    db/table_cache.rs, and [DbTables] puts tables that were built and opened
    behind the interfaces that [DbRead] and [LevelCursor] are proved against.

    Placement driver (esker-pd).  [PdRecord] is record.rs and command.rs,
    [PdRouting] keys.rs and routing.rs with the split of esker-store's apply.rs,
    [PdMachine] machine.rs and the applying of committed commands in driver.rs;
    [PdTable] runs logs through the machine and [PdDischarge] compares the two
    ways driver.rs applies a run and takes snapshots across.  [PdTso] is tso.rs,
    alloc.rs and the layout of lib.rs, with the group of members of pd/mod.rs
    that rebuild them on taking office; [PdSafepoint] is safepoint.rs.

    ** What the theorems show

    Consensus: at most one leader per term over every run of the cluster; a
    follower's log after an append is the leader's up to what was sent, and
    what it reports committed never shrinks; a leader commits by counting
    exactly an index that a quorum has matched in its own term; single-server
    changes keep quorums intersecting; the membership tracker equals a replay
    of the log; the log with its unstable tail refines one list of entries.

    Transactions: over every run of clients that keep the contract a transaction
    commits on all of its keys or none, the first of two conflicting writers
    wins, a snapshot read never changes its answer and always has one once locks
    are settled, and a transaction leaves one record per key; each rule is
    characterised on every branch, errors included.  The contract: one primary
    for a transaction's whole life, a commit timestamp drawn after every write
    was acknowledged, other keys committed, rolled back or resolved only on the
    primary's verdict.  The client in the sources breaks it in two ways, when it
    releases its primary and chooses another and when it prewrites a key again
    with another value, and what is lost there is a theorem each.  The system has
    no garbage collector: what is said of a snapshot read is said while nothing
    above it was collected.

    Formats: the tuple encoding preserves order and round-trips; records,
    tombstone blocks, batches and varints decode exactly what was encoded and
    refuse the rest; the table-driven CRC is the bit-serial one and detects
    every burst within 32 bits.

    Engine: a record whose sync was acknowledged survives a crash, the reader
    returns exactly the records written, damage to a fragment of a record ends
    the log at that fragment, and the reader terminates on any bytes; a compaction plan is closed under
    overlap; a compaction returns, writes a sorted partition of what survives,
    and no reader at or above the floor can tell that it ran.

    Reads: a merge of cursors and the cursor of a level cannot be told from a
    cursor over one sorted run, whatever the sequence of seeks and turns; a
    memtable is the sorted run of what was added to it; an arena keeps every
    byte it was given; a search that runs while an insert does answers as of
    one moment of its run and returns if it is scheduled; an iterator without a
    prefix bound visits the newest visible version of every key, both ways,
    under an order in which appending a zero byte gives the next key; a point read answers with
    the newest visible version over every source.

    Tables: a block's cursor and a table's cursor cannot be told from one over
    the list of the entries added, wherever the restarts fall and the blocks
    are cut; a built table opens with the properties and tombstones it was
    given, finds its keys and no others, and serves the read path; its filter
    never denies a key it holds; a damaged frame is refused.  The table cache is
    an exact least-recently-used queue under any interleaving of its locked
    steps, and answers as opening the file would.

    Placement driver: every record and command decodes from exactly the bytes
    it encodes to; every log a leader proposes applies, entry by entry or in
    folded runs, to records that decode, mirrors a restart would load, counters
    that only grow and lookups that answer with a region containing the key, and,
    where the folded runs are independent, with the one the index names; the first region answers for every key, and a
    split whose parent is heard first keeps every key routed; a snapshot
    replaces the state whole; a run folded into one write is the run applied
    entry by entry when no command reads what an earlier one wrote.  No
    timestamp or id is handed out twice, whatever the clocks, the failovers and
    the replaced leaders, and they rise while the leader is asked; the published
    safepoint never passes a reader it has heard of.

    Where the source does something its comments or its callers do not expect,
    that is a theorem too, over every state in which it happens, with a run that
    reaches one as its witness: a rewritten key that keeps its first value, a
    transaction torn by a late resolver, a split's child lost from the index, a
    folded run that forgets the epoch guard, a replaced leader that takes
    timestamps backwards, a refused pre-vote that deposes a leader, tombstones
    that make a table unreadable and a corrupt block that is skipped in silence.

    ** Fuel

    A loop without a structural argument runs on fuel that is proved enough:
    the rejection loop of [Rng.below] by the period of the generator, the
    readers of [Wal] by the bytes left in the file, the batch iterator by the
    bytes of the batch, [l0_closure] by the number of L0 files, each round
    that continues adding one, the searches of the skip
    list by the nodes it has, the loops of the database iterator by the entries
    left to pass and the level cursor by the files of the level; the scans of a
    block by its bytes and the loops of a table cursor by the bytes of its
    index, also when the bytes are damaged; [read_exact_at] by the bytes wanted;
    evictions by the readers open.

    ** Bounds

    The round trip of a table is for entries of at most 64 MiB in all and as
    much of tombstones, so that no block passes the 256 MiB a compressed block
    may have and no offset the 32 GiB a table may have; filters of at most 1024
    bits to a key; names of 64 KiB.  Past the first of these bounds the round
    trip is false, which is a theorem.

    ** Not modelled

    Threads (but for the skip list's one writer and its readers), locks, weak
    memory orders, sockets and the operating system's files; floating-point
    scores of compaction levels; metrics and tracing.  [esker-sql],
    [esker-columnar], [esker-s3], [esker-cli], [esker-client]'s routing and
    [esker-store]'s region management but for the split are outside this
    development; so are, within the store, garbage collection, within the engine, the manifest, and, within the
    placement driver, scheduling, the durable Raft log and the service.  LZ4 is an
    argument of the table format with its round trip and its greatest ratio as
    laws; the block cache is what it answers, required to be truthful. *)

From Stdlib Require Import Strings.Byte.
From stdpp Require Import prelude.
From Stdlib Require Import NArith ZArith Lia.

Declare Scope esker_scope.
Delimit Scope esker_scope with esker.
Create HintDb esker.

(** [lia] with quotients and remainders by constants spelled out. *)
Ltac dlia := zify; Z.to_euclidean_division_equations; lia.

(** ** Results: Rust's [Result<T, E>], with the error first. *)

Inductive result (E A : Type) : Type :=
  | Ok (a : A)
  | Err (e : E).
Arguments Ok {E A} a.
Arguments Err {E A} e.

Definition rbind {E A B} (m : result E A) (k : A -> result E B) : result E B :=
  match m with
  | Ok a => k a
  | Err e => Err e
  end.

Definition rmap {E A B} (f : A -> B) (m : result E A) : result E B :=
  rbind m (fun a => Ok (f a)).

(** [r.map_err(f)]. *)
Definition rmap_err {E F A} (f : E -> F) (m : result E A) : result F A :=
  match m with
  | Ok a => Ok a
  | Err e => Err (f e)
  end.

Definition is_ok {E A} (m : result E A) : bool :=
  match m with Ok _ => true | Err _ => false end.

(** [r.is_ok_and(f)]. *)
Definition is_ok_and {E A} (m : result E A) (f : A -> bool) : bool :=
  match m with Ok a => f a | Err _ => false end.

(** [r.unwrap_or(d)]. *)
Definition unwrap_or {E A} (m : result E A) (d : A) : A :=
  match m with Ok a => a | Err _ => d end.

(** [o.ok_or(e)]. *)
Definition ok_or {E A} (o : option A) (e : E) : result E A :=
  match o with Some a => Ok a | None => Err e end.

Notation "'let?' x ':=' m 'in' k" := (rbind m (fun x => k))
  (at level 10, x pattern, m at level 100, k at level 200,
   format "'[v' 'let?'  x  ':='  m  'in' '//' k ']'") : esker_scope.
Open Scope esker_scope.

Lemma rbind_ok {E A B} (m : result E A) (k : A -> result E B) b :
  rbind m k = Ok b <-> exists a, m = Ok a /\ k a = Ok b.
Proof. destruct m; simpl; split; [eauto | by intros (? & [= <-] & ?) | done | by intros (? & ? & _)]. Qed.

Lemma unwrap_or_ok {E A} (a d : A) : unwrap_or (@Ok E A a) d = a.
Proof. done. Qed.

(** ** Unsigned 64-bit integers.

    A [u64] is an [N]; the operations below write out the wrap-around or the
    saturation the source asks for. *)

Definition two64 : N := 18446744073709551616.
Definition u64_max : N := 18446744073709551615.

(** [a + b] of a release build: the sum modulo [2^64]. *)
Definition wadd (a b : N) : N := ((a + b) mod two64)%N.
(** [a.saturating_add(b)]. *)
Definition sat_add (a b : N) : N := N.min (a + b) u64_max.
(** [a.saturating_sub(b)]; also [a - b] where the source has tested [b <= a]. *)
Definition sat_sub (a b : N) : N := (a - b)%N.
(** [!a] on 64 bits. *)
Definition not64 (a : N) : N := (u64_max - a)%N.

Infix "+%" := wadd (at level 50, left associativity) : esker_scope.

(** [a - b] of a release build: the difference modulo [2^64]. *)
Definition wsub (a b : N) : N := if (b <=? a)%N then (a - b)%N else (a + two64 - b)%N.
Infix "-%" := wsub (at level 50, left associativity) : esker_scope.

Lemma wsub_small a b : (b <= a)%N -> a -% b = (a - b)%N.
Proof. intros H. unfold wsub. by rewrite (proj2 (N.leb_le _ _)). Qed.

Lemma wadd_small a b : (a + b < two64)%N -> a +% b = (a + b)%N.
Proof. apply N.mod_small. Qed.
Lemma wadd_lt a b : (a +% b < two64)%N.
Proof. by apply N.mod_lt. Qed.
Lemma sat_add_le a b : (sat_add a b <= a + b)%N.
Proof. apply N.le_min_l. Qed.
Lemma sat_add_max a b : (sat_add a b <= u64_max)%N.
Proof. apply N.le_min_r. Qed.
Lemma sat_add_small a b : (a + b <= u64_max)%N -> sat_add a b = (a + b)%N.
Proof. apply N.min_l. Qed.
Lemma not64_involutive a : (a < two64)%N -> not64 (not64 a) = a.
Proof. unfold not64, two64, u64_max. lia. Qed.
Lemma not64_lt a : (not64 a < two64)%N.
Proof. unfold not64, two64, u64_max. lia. Qed.
Lemma not64_anti a b : (a < two64 -> b < two64 -> not64 a < not64 b <-> b < a)%N.
Proof. unfold not64, two64, u64_max. lia. Qed.

(** ** Bytes. *)

Abbreviation byte := Byte.byte.
Abbreviation bytes := (list Byte.byte).

Definition b2n (b : byte) : N := Byte.to_N b.
(** [n as u8]: keep the low eight bits. *)
Definition n2b (n : N) : byte := default Byte.x00 (Byte.of_N (n mod 256)%N).

#[export] Instance byte_eq_decision : EqDecision byte := Byte.byte_eq_dec.

Lemma b2n_lt b : (b2n b < 256)%N.
Proof. pose proof (Byte.to_N_bounded b). unfold b2n. lia. Qed.

Lemma n2b_b2n b : n2b (b2n b) = b.
Proof.
  unfold n2b. rewrite N.mod_small by apply b2n_lt.
  unfold b2n. by rewrite Byte.of_to_N.
Qed.

Lemma b2n_n2b n : b2n (n2b n) = (n mod 256)%N.
Proof.
  unfold n2b, b2n. destruct (Byte.of_N (n mod 256)) as [b|] eqn:E; simpl.
  - by apply Byte.to_of_N in E.
  - apply Byte.of_N_None_iff in E. pose proof (N.mod_lt n 256). lia.
Qed.

Lemma b2n_n2b_small n : (n < 256)%N -> b2n (n2b n) = n.
Proof. intros. by rewrite b2n_n2b, N.mod_small. Qed.

Lemma b2n_inj a b : b2n a = b2n b -> a = b.
Proof. intros E. by rewrite <- (n2b_b2n a), E, n2b_b2n. Qed.

(** ** [memcmp] order on byte strings. *)

Fixpoint bytes_cmp (a b : bytes) : comparison :=
  match a, b with
  | [], [] => Eq
  | [], _ :: _ => Lt
  | _ :: _, [] => Gt
  | x :: a', y :: b' =>
      match N.compare (b2n x) (b2n y) with
      | Eq => bytes_cmp a' b'
      | c => c
      end
  end.

Definition bytes_ltb (a b : bytes) : bool := match bytes_cmp a b with Lt => true | _ => false end.
Definition bytes_leb (a b : bytes) : bool := match bytes_cmp a b with Gt => false | _ => true end.

Lemma bytes_cmp_refl a : bytes_cmp a a = Eq.
Proof. induction a as [|x a IH]; simpl; [done|]. by rewrite N.compare_refl. Qed.

Lemma bytes_cmp_eq a b : bytes_cmp a b = Eq <-> a = b.
Proof.
  split; [|intros <-; apply bytes_cmp_refl].
  revert b; induction a as [|x a IH]; intros [|y b]; simpl; try done.
  destruct (N.compare_spec (b2n x) (b2n y)) as [E| |]; try done.
  intros ?%IH. apply b2n_inj in E. by subst.
Qed.

Lemma bytes_cmp_antisym a b : bytes_cmp b a = CompOpp (bytes_cmp a b).
Proof.
  revert b; induction a as [|x a IH]; intros [|y b]; simpl; try done.
  rewrite N.compare_antisym. destruct (N.compare (b2n x) (b2n y)); simpl; auto.
Qed.

Lemma bytes_cmp_cons x y a b :
  bytes_cmp (x :: a) (y :: b) = match N.compare (b2n x) (b2n y) with Eq => bytes_cmp a b | c => c end.
Proof. done. Qed.

Lemma bytes_cmp_lt_trans a b c : bytes_cmp a b = Lt -> bytes_cmp b c = Lt -> bytes_cmp a c = Lt.
Proof.
  revert b c; induction a as [|x a IH]; intros [|y b] [|z c]; simpl; try done.
  destruct (N.compare_spec (b2n x) (b2n y)) as [E1| |];
    destruct (N.compare_spec (b2n y) (b2n z)) as [E2| |]; try done; intros H1 H2.
  - rewrite E1, E2, N.compare_refl. eauto.
  - rewrite (proj2 (N.compare_lt_iff _ _)); [done | lia].
  - rewrite (proj2 (N.compare_lt_iff _ _)); [done | lia].
  - rewrite (proj2 (N.compare_lt_iff _ _)); [done | lia].
Qed.

(** Two strings that share a prefix compare as their rests do. *)
Lemma bytes_cmp_app p a b : bytes_cmp (p ++ a) (p ++ b) = bytes_cmp a b.
Proof. induction p as [|x p IH]; simpl; [done|]. by rewrite N.compare_refl. Qed.

(** Two heads of the same length decide before the tails are looked at. *)
Lemma bytes_cmp_app_same_len a b c d :
  length a = length b ->
  bytes_cmp (a ++ c) (b ++ d) = match bytes_cmp a b with Eq => bytes_cmp c d | o => o end.
Proof.
  revert b; induction a as [|x a IH]; intros [|y b]; simpl; try done.
  intros [= L]. rewrite (IH b L). by destruct (N.compare (b2n x) (b2n y)).
Qed.

(** ** Bit arithmetic on [N]. *)

(** [a | b << k] is a sum when [a] fits below bit [k]. *)
Lemma lor_shiftl_add a b k : (a < 2 ^ k)%N -> N.lor a (N.shiftl b k) = (a + b * 2 ^ k)%N.
Proof.
  intros Ha. rewrite <- N.shiftl_mul_pow2.
  assert (N.land a (N.shiftl b k) = 0%N) as D.
  { apply N.bits_inj_0. intros n. rewrite N.land_spec.
    destruct (N.lt_ge_cases n k) as [L|L].
    - rewrite N.shiftl_spec_low by done. apply andb_false_r.
    - rewrite <- (N.mod_small a (2 ^ k)) by done. by rewrite N.mod_pow2_bits_high. }
  rewrite N.add_nocarry_lxor by done. symmetry. by apply N.lxor_lor.
Qed.

Lemma lor_lt_pow2 a b k : (a < 2 ^ k -> b < 2 ^ k -> N.lor a b < 2 ^ k)%N.
Proof.
  intros Ha Hb.
  assert (N.lor a b = N.lor a b mod 2 ^ k)%N as ->; [|by apply N.mod_lt, N.pow_nonzero].
  rewrite <- N.land_ones, N.land_lor_distr_l, !N.land_ones, !N.mod_small by done. done.
Qed.

Lemma div_pow2_lt a j k : (a < 2 ^ (j + k) -> a / 2 ^ k < 2 ^ j)%N.
Proof.
  intros H. apply N.Div0.div_lt_upper_bound.
  by rewrite <- N.pow_add_r, N.add_comm.
Qed.

(** ** Lists. *)

(** A map without duplicates is injective on the list. *)
Lemma NoDup_fmap_elem {A B} (f : A -> B) (l : list A) x y :
  NoDup (f <$> l) -> x ∈ l -> y ∈ l -> f x = f y -> x = y.
Proof.
  induction l as [|z l IH]; cbn; [by intros _ ?%elem_of_nil|].
  intros [Hn Hd]%NoDup_cons. intros [->|Hx]%elem_of_cons [->|Hy]%elem_of_cons E; [done| | |by apply IH].
  - destruct Hn. rewrite E. by apply list_elem_of_fmap_2.
  - destruct Hn. rewrite <- E. by apply list_elem_of_fmap_2.
Qed.

(** A filter that keeps everything, and one that keeps nothing. *)
Lemma filter_all {A} (P : A -> Prop) `{!forall x, Decision (P x)} (l : list A) : Forall P l -> filter P l = l.
Proof. induction 1; [done|]. rewrite filter_cons_True by done. by f_equal. Qed.
Lemma filter_none {A} (P : A -> Prop) `{!forall x, Decision (P x)} (l : list A) : Forall (fun x => ~ P x) l -> filter P l = [].
Proof. induction 1; [done|]. by rewrite filter_cons_False. Qed.

(** Two duplicate-free lists drawn from fewer elements than they have together meet. *)
Lemma pigeonhole_meet {A} `{EqDecision A} (q q' u : list A) :
  NoDup q -> NoDup q' -> q ⊆ u -> q' ⊆ u -> length u < length q + length q' -> exists x, x ∈ q /\ x ∈ q'.
Proof.
  intros Hq Hq' Su Su' Hlen.
  destruct (decide (Exists (.∈ q') q)) as [E|E]; [by apply Exists_exists in E|].
  assert (NoDup (q ++ q')) as Hn.
  { apply NoDup_app. split; [done|]. split; [|done]. intros x Hx Hx'. apply E, Exists_exists. by exists x. }
  assert (q ++ q' ⊆+ u) as Hs by (apply NoDup_submseteq; [done|]; intros x; rewrite elem_of_app; intros [?|?]; auto).
  apply submseteq_length in Hs. rewrite length_app in Hs. lia.
Qed.

(** ** Loops with binary fuel.

    [loop_pos step p s] runs [step] at most [p] times and stops at the first
    [inr].  The fuel is a [positive], so a bound such as [2^64] costs nothing
    when the loop ends early. *)

Fixpoint loop_pos {S R} (step : S -> S + R) (p : positive) (s : S) : S + R :=
  match p with
  | xH => step s
  | xO p' =>
      match loop_pos step p' s with inl s' => loop_pos step p' s' | inr r => inr r end
  | xI p' =>
      match step s with
      | inl s' => match loop_pos step p' s' with inl s'' => loop_pos step p' s'' | inr r => inr r end
      | inr r => inr r
      end
  end.

(** The same loop with unary fuel, its specification. *)
Fixpoint loop_nat {S R} (step : S -> S + R) (n : nat) (s : S) : S + R :=
  match n with
  | O => inl s
  | S n' => match step s with inl s' => loop_nat step n' s' | inr r => inr r end
  end.

Lemma loop_nat_add {S R} (step : S -> S + R) n m s :
  loop_nat step (n + m) s =
  match loop_nat step n s with inl s' => loop_nat step m s' | inr r => inr r end.
Proof. revert s; induction n as [|n IH]; intros s; simpl; [done|]. by destruct (step s). Qed.

Lemma loop_pos_nat {S R} (step : S -> S + R) p s :
  loop_pos step p s = loop_nat step (Pos.to_nat p) s.
Proof.
  revert s; induction p as [p IH|p IH|]; intros s; simpl loop_pos.
  - rewrite Pos2Nat.inj_xI. replace (2 * Pos.to_nat p)%nat with (Pos.to_nat p + Pos.to_nat p)%nat by lia.
    simpl. destruct (step s) as [s'|]; [|done]. rewrite loop_nat_add, IH. by destruct (loop_nat _ _ s').
  - rewrite Pos2Nat.inj_xO. replace (2 * Pos.to_nat p)%nat with (Pos.to_nat p + Pos.to_nat p)%nat by lia.
    rewrite loop_nat_add, IH. by destruct (loop_nat _ _ s).
  - change (Pos.to_nat 1) with 1%nat. simpl. by destruct (step s).
Qed.

(** A loop ends within [n] rounds if the orbit of its "continue" function
    reaches, in fewer than [n] steps, a state where the body stops. *)
Lemma loop_nat_ends {S R} (step : S -> S + R) (next : S -> S) (n k : nat) s :
  (forall s s', step s = inl s' -> s' = next s) ->
  (k < n)%nat -> (exists r, step (Nat.iter k next s) = inr r) ->
  exists r, loop_nat step n s = inr r.
Proof.
  intros Hnext. revert n s; induction k as [|k IH]; intros [|n] s Hk [r Hr]; try lia; simpl.
  - simpl in Hr. rewrite Hr. eauto.
  - destruct (step s) as [s'|r'] eqn:E; [|eauto]. apply Hnext in E as ->.
    apply IH; [lia|]. exists r. by rewrite <- Nat.iter_succ_r.
Qed.

(** Whatever a loop returns is what its body returned at some reachable state. *)
Lemma loop_nat_inr {S R} (step : S -> S + R) (P : S -> Prop) (Q : R -> Prop) n s r :
  P s -> (forall s s', P s -> step s = inl s' -> P s') -> (forall s r, P s -> step s = inr r -> Q r) ->
  loop_nat step n s = inr r -> Q r.
Proof.
  intros HP Hl Hr. revert s HP; induction n as [|n IH]; intros s HP; simpl; [done|].
  destruct (step s) as [s'|r'] eqn:E; [eauto|]. intros [= <-]. eauto.
Qed.
