(* ===== verification/SortedVec.v ===== *)
(** Sorted vectors of [u64]s, as the Raft core keeps them: what the standard
    library's [sort_unstable], [dedup], [partition_point], [binary_search] and
    [Vec::insert] do to one. *)

From stdpp Require Import prelude sorting.
From Stdlib Require Import NArith ZArith Lia.
From S2P Require Import Prelude.

(** [Vec::sort_unstable], and [Vec::dedup] on its result. *)
Definition sort_u64 (l : list N) : list N := merge_sort N.le l.
Fixpoint dedup (l : list N) : list N :=
  match l with
  | x :: t =>
      match t with
      | y :: _ => if (x =? y)%N then dedup t else x :: dedup t
      | [] => [x]
      end
  | [] => []
  end.

(** [slice::partition_point(|y| y < x)], and [slice::binary_search], whose
    answer is documented for a sorted slice: where the element is, or where it
    would go. *)
Definition partition_point (l : list N) (x : N) : nat := length (filter (fun y => (y < x)%N) l).
Definition binary_search (l : list N) (x : N) : result nat nat :=
  if bool_decide (x ∈ l) then Ok (partition_point l x) else Err (partition_point l x).

(** [Vec::insert]. *)
Definition vec_insert {A} (at_ : nat) (x : A) (l : list A) : list A := take at_ l ++ x :: drop at_ l.

Definition sorted_set (l : list N) : Prop := StronglySorted N.lt l.

Lemma sorted_set_nodup l : sorted_set l -> NoDup l.
Proof.
  induction 1 as [|x l Hs IH Hx]; constructor; [|done].
  intros Hin. rewrite Forall_forall in Hx. specialize (Hx _ Hin). lia.
Qed.

Lemma sorted_set_perm l l' : sorted_set l -> sorted_set l' -> l ≡ₚ l' -> l = l'.
Proof.
  intros H H' P. eapply (StronglySorted_unique_strong N.lt); [|done..]. intros x y _ _ ? ?. lia.
Qed.

Lemma elem_of_dedup l x : x ∈ dedup l <-> x ∈ l.
Proof.
  induction l as [|y l IH]; [done|]. cbn. destruct l as [|z l]; [done|].
  destruct (N.eqb_spec y z) as [->|Hne].
  - rewrite IH, !elem_of_cons. tauto.
  - by rewrite elem_of_cons, IH, <- elem_of_cons.
Qed.

Lemma dedup_sorted l : StronglySorted N.le l -> sorted_set (dedup l).
Proof.
  unfold sorted_set. induction 1 as [|y l Hs IH Hy]; [constructor|]. cbn. destruct l as [|z l]; [repeat constructor|].
  destruct (N.eqb_spec y z) as [->|Hne]; [done|]. constructor; [done|].
  apply Forall_forall. intros x Hx. rewrite elem_of_dedup in Hx.
  inversion Hs as [|? ? Hs' Hz]; subst. inversion Hy as [|? ? Hyz _]; subst.
  apply elem_of_cons in Hx as [->|Hx]; [lia|]. rewrite Forall_forall in Hz. specialize (Hz _ Hx). lia.
Qed.

Lemma sort_u64_sorted l : StronglySorted N.le (sort_u64 l).
Proof. apply (StronglySorted_merge_sort N.le). Qed.
Lemma elem_of_sort_u64 l x : x ∈ sort_u64 l <-> x ∈ l.
Proof. unfold sort_u64. by rewrite (merge_sort_Permutation N.le l). Qed.

Lemma sorted_set_filter (P : N -> Prop) `{!forall x, Decision (P x)} l : sorted_set l -> sorted_set (filter P l).
Proof.
  unfold sorted_set. induction 1 as [|x l Hs IH Hx]; [constructor|]. rewrite filter_cons. case_decide; [|done].
  constructor; [done|]. apply Forall_forall. intros y [_ Hy]%list_elem_of_filter. by eapply Forall_forall in Hx.
Qed.

(** Inserting at the partition point keeps the order and adds the element. *)
Lemma sorted_set_insert l x : sorted_set l -> x ∉ l ->
  sorted_set (vec_insert (partition_point l x) x l).
Proof.
  unfold sorted_set, vec_insert, partition_point. induction 1 as [|y l Hs IH Hy]; intros Hx; [repeat constructor|].
  rewrite elem_of_cons in Hx. rewrite Forall_forall in Hy.
  rewrite filter_cons. case_decide as Hyx; cbn.
  - constructor; [apply IH; tauto|]. apply Forall_forall. intros z.
    rewrite elem_of_app, elem_of_cons. intros [Hz|[->|Hz]]; [|done|].
    + apply Hy. eapply list_elem_of_lookup in Hz as [i Hi]. apply lookup_take_Some in Hi as [Hi _].
      by eapply list_elem_of_lookup_2.
    + apply Hy. eapply list_elem_of_lookup in Hz as [i Hi]. rewrite lookup_drop in Hi. by eapply list_elem_of_lookup_2.
  - assert (filter (fun z => (z < x)%N) l = []) as ->.
    { destruct (filter _ l) as [|z k] eqn:E; [done|]. exfalso.
      assert (z ∈ filter (fun z => (z < x)%N) l) as [Hlt Hz]%list_elem_of_filter by (rewrite E; left).
      specialize (Hy _ Hz). lia. }
    cbn. constructor; [by constructor; [|apply Forall_forall]|].
    constructor; [lia|]. apply Forall_forall. intros z Hz. specialize (Hy _ Hz). lia.
Qed.

Lemma elem_of_vec_insert {A} at_ (x y : A) l : y ∈ vec_insert at_ x l <-> y = x \/ y ∈ l.
Proof.
  unfold vec_insert. rewrite elem_of_app, elem_of_cons. rewrite <- (take_drop at_ l) at 3. rewrite elem_of_app. tauto.
Qed.

(** In a sorted vector the partition point of a member is where it is. *)
Lemma partition_point_lookup l x : sorted_set l -> x ∈ l -> l !! partition_point l x = Some x.
Proof.
  unfold sorted_set, partition_point. induction 1 as [|y l Hs IH Hy]; [by intros ?%elem_of_nil|].
  rewrite Forall_forall in Hy. rewrite filter_cons. intros [->|Hx]%elem_of_cons.
  - rewrite decide_False by lia. destruct (filter _ l) as [|z k] eqn:E; [done|].
    assert (z ∈ filter (fun z => (z < y)%N) l) as [Hlt Hz]%list_elem_of_filter by (rewrite E; left).
    specialize (Hy _ Hz). lia.
  - rewrite decide_True by by apply Hy. cbn. by apply IH.
Qed.
