(* ===== verification/Varint.v ===== *)
(** LEB128 variable-length integers, [esker-base/src/varint.rs]: the encoder,
    the strict decoder and the zigzag mapping, with the round trip, the
    canonicity of what the decoder accepts and the length of an encoding. *)

From stdpp Require Import prelude.
From Stdlib Require Import NArith ZArith Lia.
From S2P Require Import Prelude.

Definition MAX_LEN_U64 : nat := 10.
Definition MAX_LEN_U32 : nat := 5.

Inductive VarintError : Type :=
  | VarintTruncated (read : nat)
  | VarintOverflow (bits : N)
  | VarintNotCanonical (len want : nat).

(** [usize::div_ceil]. *)
Definition div_ceil (a b : nat) : nat := (a + (b - 1)) / b.

(** [u64::BITS - value.leading_zeros()] is [N.size value]. *)
Definition encoded_len_u64 (value : N) : nat :=
  let significant := N.to_nat (N.size value) in
  div_ceil (Nat.max significant 1) 7.

(** The [while rest >= 0x80] loop and the final push.  A [u64] has at most
    nine continuation bytes, so ten rounds of fuel never run out. *)
Fixpoint put_u64_loop (fuel : nat) (rest : N) : bytes :=
  match fuel with
  | O => []
  | S fuel' =>
      if (128 <=? rest)%N
      then n2b (N.lor (rest mod 256) 128) :: put_u64_loop fuel' (N.shiftr rest 7)
      else [n2b rest]
  end.

Definition put_u64 (value : N) (out : bytes) : bytes := out ++ put_u64_loop MAX_LEN_U64 value.

Definition put_u32 (value : N) (out : bytes) : bytes := put_u64 value out.

(** The [for (index, &byte)] loop of [get_u64]; [total] is [buf.len()]. *)
Fixpoint get_u64_loop (total : nat) (buf : bytes) (index : nat) (shift value : N)
    : result VarintError (N * nat) :=
  match buf with
  | [] => Err (VarintTruncated total)
  | b :: rest =>
      if decide (index = MAX_LEN_U64) then Err (VarintOverflow 64) else
      let payload := N.land (b2n b) 127 in
      if ((shift =? 63) && (1 <? payload))%N then Err (VarintOverflow 64) else
      let value := N.lor value (N.shiftl payload shift mod two64) in
      if (N.land (b2n b) 128 =? 0)%N then
        let len := S index in
        let want := encoded_len_u64 value in
        if decide (len = want) then Ok (value, len) else Err (VarintNotCanonical len want)
      else get_u64_loop total rest (S index) (shift + 7) value
  end.

Definition get_u64 (buf : bytes) : result VarintError (N * nat) :=
  get_u64_loop (length buf) buf 0 0 0.

Definition get_u32 (buf : bytes) : result VarintError (N * nat) :=
  let? (value, len) := get_u64 buf in
  if (value <? 4294967296)%N then Ok (value, len) else Err (VarintOverflow 32).

(** [value as u64] and [value as i64] between the two 64-bit readings. *)
Definition i64_as_u64 (z : Z) : N := Z.to_N (z mod 18446744073709551616)%Z.
Definition u64_as_i64 (n : N) : Z :=
  if (n <? 9223372036854775808)%N then Z.of_N n else (Z.of_N n - 18446744073709551616)%Z.
Definition is_i64 (z : Z) : Prop := (-9223372036854775808 <= z < 9223372036854775808)%Z.

(** [((value << 1) ^ (value >> 63)) as u64], the arithmetic shift of an [i64]
    being [0] or [-1]. *)
Definition zigzag_encode (value : Z) : N :=
  N.lxor (i64_as_u64 (Z.shiftl value 1)) (i64_as_u64 (Z.shiftr value 63)).

(** [((value >> 1) as i64) ^ -((value & 1) as i64)]. *)
Definition zigzag_decode (value : N) : Z :=
  Z.lxor (u64_as_i64 (N.shiftr value 1)) (- u64_as_i64 (N.land value 1)).

Definition put_i64 (value : Z) (out : bytes) : bytes := put_u64 (zigzag_encode value) out.

Definition get_i64 (buf : bytes) : result VarintError (Z * nat) :=
  let? (raw, len) := get_u64 buf in Ok (zigzag_decode raw, len).

(** ** Lemmas on one byte of an encoding *)

Lemma low7 n : N.land n 127 = (n mod 128)%N.
Proof. change 127%N with (N.ones 7). apply N.land_ones. Qed.

Lemma cont_byte_payload r : N.land (b2n (n2b (N.lor (r mod 256) 128))) 127 = (r mod 128)%N.
Proof.
  rewrite b2n_n2b. change 256%N with (2 ^ 8)%N. rewrite <- !N.land_ones.
  rewrite <- N.land_assoc, N.land_lor_distr_l. simpl (N.land 128 _). rewrite N.lor_0_r.
  rewrite <- N.land_assoc. by rewrite <- low7.
Qed.

Lemma cont_byte_flag r : N.land (b2n (n2b (N.lor (r mod 256) 128))) 128 <> 0%N.
Proof.
  rewrite b2n_n2b. change 256%N with (2 ^ 8)%N. rewrite <- !N.land_ones. intros E.
  apply (f_equal (fun x => N.testbit x 7)) in E.
  rewrite !N.land_spec, N.lor_spec in E. change (N.testbit 128 7) with true in E.
  rewrite orb_true_r in E. done.
Qed.

Lemma last_byte_payload r : (r < 128)%N -> N.land (b2n (n2b r)) 127 = r.
Proof. intros. rewrite b2n_n2b_small by lia. rewrite low7. by apply N.mod_small. Qed.

Lemma last_byte_flag r : (r < 128)%N -> N.land (b2n (n2b r)) 128 = 0%N.
Proof.
  intros H. rewrite b2n_n2b_small by lia. change 128%N with (N.shiftl 1 7).
  apply N.bits_inj_0. intros n. rewrite N.land_spec.
  destruct (N.lt_ge_cases n 7).
  - by rewrite N.shiftl_spec_low, andb_false_r.
  - rewrite <- (N.mod_small r (2 ^ 7)) by done. by rewrite N.mod_pow2_bits_high.
Qed.

(** ** The decoder undoes the encoder *)

(** One round of the decoder's loop, on a byte whose continuation bit is set. *)
Lemma get_loop_cont total b rest index shift value :
  index <> MAX_LEN_U64 -> N.land (b2n b) 128 <> 0%N -> shift <> 63%N ->
  get_u64_loop total (b :: rest) index shift value =
  get_u64_loop total rest (S index) (shift + 7)
    (N.lor value (N.shiftl (N.land (b2n b) 127) shift mod two64)).
Proof.
  intros Hi Hc Hs. simpl. rewrite decide_False by done.
  rewrite (proj2 (N.eqb_neq shift 63) Hs). simpl.
  by rewrite (proj2 (N.eqb_neq _ 0) Hc).
Qed.

(** The round that ends it. *)
Lemma get_loop_last total b rest index shift value :
  index <> MAX_LEN_U64 -> N.land (b2n b) 128 = 0%N ->
  (shift = 63%N -> (N.land (b2n b) 127 <= 1)%N) ->
  get_u64_loop total (b :: rest) index shift value =
  let value := N.lor value (N.shiftl (N.land (b2n b) 127) shift mod two64) in
  if decide (S index = encoded_len_u64 value) then Ok (value, S index)
  else Err (VarintNotCanonical (S index) (encoded_len_u64 value)).
Proof.
  intros Hi Hc Hs. simpl. rewrite decide_False by done. rewrite Hc. simpl.
  destruct (N.eqb_spec shift 63) as [E|]; simpl; [|done].
  rewrite (proj2 (N.ltb_ge _ _)); [done | auto].
Qed.

(** The accumulator after one round, as a sum. *)
Lemma accumulate value p shift :
  (value < 2 ^ shift -> value + p * 2 ^ shift < two64 ->
   N.lor value (N.shiftl p shift mod two64) = value + p * 2 ^ shift)%N.
Proof.
  intros Hv Hlt. rewrite N.mod_small; [by apply lor_shiftl_add|].
  rewrite N.shiftl_mul_pow2. lia.
Qed.

Lemma encoded_len_step v :
  (128 <= v)%N -> encoded_len_u64 v = S (encoded_len_u64 (N.shiftr v 7)).
Proof.
  intros H. unfold encoded_len_u64, div_ceil.
  assert (7 <= N.log2 v)%N by (change 7%N with (N.log2 128); by apply N.log2_le_mono).
  assert (N.shiftr v 7 <> 0)%N.
  { rewrite N.shiftr_div_pow2. change (2 ^ 7)%N with 128%N.
    pose proof (N.Div0.div_le_mono 128 v 128). rewrite N.div_same in *; lia. }
  rewrite !N.size_log2, N.log2_shiftr by lia.
  replace (N.to_nat (N.succ (N.log2 v))) with (N.to_nat (N.succ (N.log2 v - 7)) + 7)%nat by lia.
  set (k := N.to_nat _). assert (1 <= k)%nat by lia.
  rewrite !Nat.max_l by lia.
  replace (k + 7 + (7 - 1))%nat with (k + (7 - 1) + 1 * 7)%nat by lia.
  rewrite Nat.div_add by done. lia.
Qed.

Lemma encoded_len_small v : (v < 128)%N -> encoded_len_u64 v = 1%nat.
Proof.
  intros H. unfold encoded_len_u64, div_ceil.
  assert (N.size v <= 7)%N.
  { destruct (N.eq_dec v 0) as [->|]; [by vm_compute|]. rewrite N.size_log2 by done.
    assert (N.log2 v < 7)%N; [|lia]. apply N.log2_lt_pow2; [lia|done]. }
  destruct (N.to_nat (N.size v)) as [|n] eqn:E; [done|].
  do 7 (destruct n as [|n]; [done|]). lia.
Qed.

Lemma shiftr7_lt fuel v :
  (v < 2 ^ (7 * N.of_nat (S fuel)) -> N.shiftr v 7 < 2 ^ (7 * N.of_nat fuel))%N.
Proof.
  intros H. rewrite N.shiftr_div_pow2. apply div_pow2_lt.
  by replace (7 * N.of_nat fuel + 7)%N with (7 * N.of_nat (S fuel))%N by lia.
Qed.

Lemma split7 v : v = (v mod 128 + N.shiftr v 7 * 2 ^ 7)%N.
Proof. rewrite N.shiftr_div_pow2. change (2 ^ 7)%N with 128%N. pose proof (N.div_mod v 128). lia. Qed.

Lemma pow7_S index : (2 ^ (7 * N.of_nat (S index)) = 128 * 2 ^ (7 * N.of_nat index))%N.
Proof. replace (7 * N.of_nat (S index))%N with (7 + 7 * N.of_nat index)%N by lia. by rewrite N.pow_add_r. Qed.

Lemma fuel_left fuel v : (v < 2 ^ (7 * N.of_nat (S fuel)))%N -> (128 <= v)%N -> (0 < fuel)%nat.
Proof. intros H Hb. destruct fuel; [simpl in H; lia | lia]. Qed.

(** [put_u64_loop] with enough fuel writes exactly [encoded_len_u64] bytes. *)
Lemma put_loop_length fuel v :
  (v < 2 ^ (7 * N.of_nat fuel))%N -> (0 < fuel)%nat ->
  length (put_u64_loop fuel v) = encoded_len_u64 v.
Proof.
  revert v; induction fuel as [|fuel IH]; intros v Hv Hf; [lia|]. cbn [put_u64_loop].
  destruct (N.leb_spec 128 v) as [Hbig|]; cbn [length].
  - rewrite (encoded_len_step v) by done.
    by rewrite IH by eauto using shiftr7_lt, fuel_left.
  - by rewrite encoded_len_small.
Qed.

(** Reading an encoding back from position [index] of a larger value. *)
Lemma get_put_loop fuel total rest v index value :
  (v < 2 ^ (7 * N.of_nat fuel))%N -> (0 < fuel)%nat -> (index + fuel = MAX_LEN_U64)%nat ->
  (value < 2 ^ (7 * N.of_nat index))%N ->
  (value + v * 2 ^ (7 * N.of_nat index) < two64)%N ->
  encoded_len_u64 (value + v * 2 ^ (7 * N.of_nat index)) = (index + encoded_len_u64 v)%nat ->
  get_u64_loop total (put_u64_loop fuel v ++ rest) index (7 * N.of_nat index) value =
  Ok ((value + v * 2 ^ (7 * N.of_nat index))%N, (index + encoded_len_u64 v)%nat).
Proof.
  revert v index value; induction fuel as [|fuel IH]; intros v index value Hv Hf Hi Hval Hlt Hlen; [lia|].
  assert (index <> MAX_LEN_U64) by lia. cbn [put_u64_loop].
  pose proof (N.mod_lt v 128) as Hm. pose proof (split7 v) as Ev. pose proof (pow7_S index) as Ep.
  destruct (N.leb_spec 128 v) as [Hbig|Hsmall]; rewrite <- app_comm_cons.
  - assert (0 < fuel)%nat by eauto using fuel_left.
    assert (value + v * 2 ^ (7 * N.of_nat index) =
            value + v mod 128 * 2 ^ (7 * N.of_nat index) + N.shiftr v 7 * 2 ^ (7 * N.of_nat (S index)))%N as Esum
      by (rewrite Ep; rewrite Ev at 1; change (2 ^ 7)%N with 128%N; lia).
    rewrite get_loop_cont by (first [done | apply cont_byte_flag | unfold MAX_LEN_U64 in *; lia]).
    rewrite cont_byte_payload, accumulate by (first [done | nia]).
    replace (7 * N.of_nat index + 7)%N with (7 * N.of_nat (S index))%N by lia.
    rewrite Esum in *. rewrite (encoded_len_step v) in * by done.
    rewrite IH; eauto using shiftr7_lt; try lia; try nia.
    f_equal; f_equal; lia.
  - rewrite get_loop_last; [|done|by apply last_byte_flag|].
    + cbv zeta. rewrite last_byte_payload, accumulate by done.
      rewrite (encoded_len_small v) in * by done. rewrite decide_True by lia. by rewrite Nat.add_1_r.
    + intros E. rewrite last_byte_payload by done. rewrite E in Hlt.
      change (2 ^ 63)%N with 9223372036854775808%N in Hlt. unfold two64 in Hlt. lia.
Qed.

(** ** What the decoder accepts is what the encoder writes *)

Lemma byte_split b :
  b2n b = (N.land (b2n b) 127 + if (N.land (b2n b) 128 =? 0) then 0 else 128)%N.
Proof. by destruct b. Qed.

Lemma cont_byte_value r : b2n (n2b (N.lor (r mod 256) 128)) = (r mod 128 + 128)%N.
Proof.
  rewrite byte_split, cont_byte_payload.
  by rewrite (proj2 (N.eqb_neq _ 0) (cont_byte_flag r)).
Qed.

Lemma put_loop_length_le fuel v : (length (put_u64_loop fuel v) <= fuel)%nat.
Proof. revert v; induction fuel as [|fuel IH]; intros v; simpl; [done|]. case_match; simpl; [|lia]. specialize (IH (N.shiftr v 7)). lia. Qed.

Lemma encoded_len_le v k : (v < 2 ^ (7 * N.of_nat k))%N -> (0 < k)%nat -> (encoded_len_u64 v <= k)%nat.
Proof. intros. rewrite <- (put_loop_length k) by done. apply put_loop_length_le. Qed.

(** The loop's accumulator never leaves 64 bits. *)
Lemma accumulate_bound index value p :
  (index < MAX_LEN_U64)%nat -> (value < 2 ^ (7 * N.of_nat index))%N -> (p < 128)%N ->
  ((7 * N.of_nat index =? 63)%N && (1 <? p)%N = false) ->
  (value + p * 2 ^ (7 * N.of_nat index) < two64)%N.
Proof.
  intros Hi Hv Hp Hc. unfold MAX_LEN_U64 in Hi.
  destruct (decide (index = 9%nat)) as [->|].
  - change (7 * N.of_nat 9)%N with 63%N in *. simpl in Hc. apply N.ltb_ge in Hc.
    change (2 ^ 63)%N with 9223372036854775808%N in *. unfold two64. lia.
  - assert (2 ^ (7 * N.of_nat (S index)) <= 2 ^ 63)%N by (apply N.pow_le_mono_r; lia).
    rewrite pow7_S in *. change (2 ^ 63)%N with 9223372036854775808%N in *. unfold two64. nia.
Qed.

Lemma get_loop_canonical total buf index value v n :
  (index <= MAX_LEN_U64)%nat -> (value < 2 ^ (7 * N.of_nat index))%N ->
  get_u64_loop total buf index (7 * N.of_nat index) value = Ok (v, n) ->
  exists r m, v = (value + r * 2 ^ (7 * N.of_nat index))%N /\ n = (index + m)%nat /\ (0 < m)%nat /\
    (v < two64)%N /\ encoded_len_u64 v = n /\
    take m buf = put_u64_loop (MAX_LEN_U64 - index) r.
Proof.
  revert index value; induction buf as [|b buf IH]; intros index value Hi Hval; [done|].
  cbn [get_u64_loop]. case_decide as Hne; [done|].
  destruct (_ && _) eqn:Hov; [done|].
  assert (N.land (b2n b) 127 < 128)%N as Hp by (rewrite low7; by apply N.mod_lt).
  assert (index < MAX_LEN_U64)%nat as Hlt by (unfold MAX_LEN_U64 in *; lia).
  pose proof (accumulate_bound _ _ _ Hlt Hval Hp Hov) as Hacc. pose proof (byte_split b) as Hb.
  rewrite accumulate by done. set (p := N.land (b2n b) 127) in *.
  replace (MAX_LEN_U64 - index)%nat with (S (MAX_LEN_U64 - S index)) by lia. cbn [put_u64_loop].
  destruct (N.eqb_spec (N.land (b2n b) 128) 0) as [Hc|Hc].
  - case_decide as El; [|done]. intros [= <- <-]. exists p, 1%nat.
    rewrite (proj2 (N.leb_gt _ _)) by done. repeat split; try done; try lia.
    simpl. rewrite take_0. f_equal. apply b2n_inj. rewrite b2n_n2b_small; lia.
  - replace (7 * N.of_nat index + 7)%N with (7 * N.of_nat (S index))%N by lia. intros E.
    apply IH in E as (r & m & -> & -> & Hm & Hv & Hlen & Ht); [|lia|rewrite pow7_S; nia].
    assert (r <> 0%N) as Hr.
    { intros ->. assert (encoded_len_u64 (value + p * 2 ^ (7 * N.of_nat index) + 0 * 2 ^ (7 * N.of_nat (S index))) <= S index)%nat; [|lia].
      apply encoded_len_le; [rewrite pow7_S; nia | lia]. }
    assert ((p + r * 128) mod 128 = p)%N as Emod by (rewrite N.Div0.mod_add; by apply N.mod_small).
    assert (N.shiftr (p + r * 128) 7 = r) as Esh
      by (rewrite N.shiftr_div_pow2; change (2 ^ 7)%N with 128%N; rewrite N.div_add, N.div_small by done; lia).
    exists (p + r * 128)%N, (S m). rewrite (proj2 (N.leb_le _ _)) by lia. rewrite Esh, <- Ht, pow7_S in *.
    repeat split; try done; try lia.
    simpl. f_equal. apply b2n_inj. rewrite cont_byte_value, Emod. lia.
Qed.

Lemma u64_fuel v : (v < two64 -> v < 2 ^ (7 * N.of_nat MAX_LEN_U64))%N.
Proof. intros. eapply N.lt_trans; [done|]. by vm_compute. Qed.

Lemma put_u64_app v out : put_u64 v out = out ++ put_u64 v [].
Proof. done. Qed.

Lemma put_u64_length v : (v < two64)%N -> length (put_u64 v []) = encoded_len_u64 v.
Proof. intros. apply put_loop_length; [by apply u64_fuel | unfold MAX_LEN_U64; lia]. Qed.

Lemma put_loop_nonempty fuel v : put_u64_loop (S fuel) v <> [].
Proof. cbn [put_u64_loop]. by case_match. Qed.

Lemma put_u64_nonempty v : put_u64 v [] <> [].
Proof. apply put_loop_nonempty. Qed.

Lemma get_put_u64 v rest :
  (v < two64)%N -> get_u64 (put_u64 v [] ++ rest) = Ok (v, length (put_u64 v [])).
Proof.
  intros H. rewrite put_u64_length by done.
  pose proof (get_put_loop MAX_LEN_U64 (length (put_u64 v [] ++ rest)) rest v 0 0) as G.
  simpl N.mul in G. rewrite N.pow_0_r, N.mul_1_r, N.add_0_l in G.
  apply G; [by apply u64_fuel | unfold MAX_LEN_U64; lia | done | lia | done | done].
Qed.

(** ** Zigzag *)

Lemma lxor_all_ones n : (n < two64)%N -> N.lxor n u64_max = (u64_max - n)%N.
Proof.
  intros H. change u64_max with (N.ones 64).
  destruct (N.eq_dec n 0) as [->|]; [done|].
  rewrite <- N.lnot_sub_low; [done|]. apply N.log2_lt_pow2; [lia|done].
Qed.

(** The closed form the comment gives: [0, -1, 1, -2, 2 ...] to [0, 1, 2, 3, 4 ...]. *)
Lemma zigzag_encode_spec z :
  is_i64 z -> Z.of_N (zigzag_encode z) = (if z <? 0 then - 2 * z - 1 else 2 * z)%Z.
Proof.
  intros [Hl Hu]. unfold zigzag_encode, i64_as_u64.
  rewrite Z.shiftl_mul_pow2, Z.shiftr_div_pow2 by done.
  change (2 ^ 1)%Z with 2%Z. change (2 ^ 63)%Z with 9223372036854775808%Z.
  destruct (Z.ltb_spec z 0).
  - replace (z / 9223372036854775808)%Z with (-1)%Z
      by (apply Z.div_unique with (r := (z + 9223372036854775808)%Z); lia).
    replace ((z * 2) mod 18446744073709551616)%Z with (z * 2 + 18446744073709551616)%Z
      by (apply Z.mod_unique with (q := (-1)%Z); lia).
    change (Z.to_N (-1 mod 18446744073709551616)) with u64_max.
    rewrite lxor_all_ones by (unfold two64; lia). unfold u64_max. lia.
  - rewrite Z.div_small, Z.mod_small by lia. simpl. rewrite N.lxor_0_r. lia.
Qed.

Lemma zigzag_encode_lt z : is_i64 z -> (zigzag_encode z < two64)%N.
Proof.
  intros H. pose proof (zigzag_encode_spec z H). unfold is_i64, two64 in *.
  destruct (Z.ltb_spec z 0); lia.
Qed.

Lemma zigzag_roundtrip z : is_i64 z -> zigzag_decode (zigzag_encode z) = z.
Proof.
  intros H. pose proof (zigzag_encode_spec z H) as E. pose proof (zigzag_encode_lt z H) as L.
  generalize dependent (zigzag_encode z); intros n E L. unfold zigzag_decode, u64_as_i64, is_i64, two64 in *.
  rewrite N.shiftr_div_pow2. change (N.land n 1) with (N.land n (N.ones 1)). rewrite N.land_ones.
  change (2 ^ 1)%N with 2%N.
  rewrite (proj2 (N.ltb_lt (n / 2) _)), (proj2 (N.ltb_lt (n mod 2) _)) by dlia.
  destruct (Z.ltb_spec z 0).
  - replace (n mod 2)%N with 1%N by dlia. change (- Z.of_N 1)%Z with (-1)%Z.
    rewrite Z.lxor_m1_r. unfold Z.lnot. dlia.
  - replace (n mod 2)%N with 0%N by dlia. rewrite Z.lxor_0_r. dlia.
Qed.

(** ** Properties *)

(** Every [u64] written by [put_u64] is read back by [get_u64], which
    consumes exactly the bytes written and leaves what follows untouched. *)
Theorem varint_roundtrip v rest :
  (v < two64)%N -> get_u64 (put_u64 v [] ++ rest) = Ok (v, length (put_u64 v [])).
Proof. apply get_put_u64. Qed.

Lemma get_u64_canonical buf v n : get_u64 buf = Ok (v, n) -> (v < two64)%N /\ take n buf = put_u64 v [].
Proof.
  intros E.
  apply (get_loop_canonical _ buf 0 0) in E as (r & m & -> & -> & _ & Hv & _ & Ht);
    [|unfold MAX_LEN_U64; lia | by rewrite N.mul_0_r].
  rewrite N.mul_0_r, N.pow_0_r, N.mul_1_r, N.add_0_l in *. done.
Qed.

(** Whatever [get_u64] accepts fits in 64 bits and is byte for byte
    the encoding [put_u64] gives that value: an overlong form never decodes. *)
Theorem varint_canonical buf v n :
  get_u64 buf = Ok (v, n) -> (v < two64)%N /\ take n buf = put_u64 v [].
Proof. apply get_u64_canonical. Qed.

(** The signed form round trips as well, over the whole [i64] range. *)
Theorem varint_i64_roundtrip z rest :
  is_i64 z -> get_i64 (put_i64 z [] ++ rest) = Ok (z, length (put_i64 z [])).
Proof.
  intros H. unfold get_i64, put_i64. rewrite get_put_u64 by by apply zigzag_encode_lt.
  simpl. by rewrite zigzag_roundtrip.
Qed.

Lemma varint_roundtrip_witness : get_u64 (put_u64 300 [] ++ [Byte.x07]) = Ok (300%N, 2%nat).
Proof. apply (varint_roundtrip 300 [Byte.x07]). vm_compute. reflexivity. Defined.

Lemma varint_canonical_witness : take 2 [Byte.xac; Byte.x02; Byte.x07] = put_u64 300 [].
Proof.
  refine (proj2 (varint_canonical [Byte.xac; Byte.x02; Byte.x07] 300 2 _)). vm_compute. reflexivity.
Defined.

Lemma varint_i64_roundtrip_witness : get_i64 (put_i64 (-150) [] ++ [Byte.x07]) = Ok ((-150)%Z, 2%nat).
Proof. apply (varint_i64_roundtrip (-150) [Byte.x07]). unfold is_i64. lia. Defined.
