(* ===== verification/Rng.v ===== *)
(** The PCG32 generator of [esker-base/src/rng.rs].

    The rejection loop of [below] has no bound in the source.  It is shown to
    end: the 64-bit congruential generator underneath has full period, so
    within [2^64] draws every state occurs, one of which no threshold rejects. *)

From stdpp Require Import prelude.
From Stdlib Require Import NArith ZArith Lia.
From S2P Require Import Prelude.

Definition MULTIPLIER : N := 6364136223846793005.
Definition two32 : N := 4294967296.

Record Pcg32 : Type := mkPcg32 { rng_state : N; rng_increment : N }.

(** [Pcg32::step]: advance and return the previous state. *)
Definition Pcg32_step (r : Pcg32) : N * Pcg32 :=
  (rng_state r,
   mkPcg32 ((rng_state r * MULTIPLIER mod two64 + rng_increment r) mod two64)%N (rng_increment r)).

Definition Pcg32_new (seed sequence : N) : Pcg32 :=
  let rng := mkPcg32 0 (N.lor (N.shiftl sequence 1 mod two64) 1) in
  let '(_, rng) := Pcg32_step rng in
  let rng := mkPcg32 (wadd (rng_state rng) seed) (rng_increment rng) in
  snd (Pcg32_step rng).

Definition Pcg32_from_seed (seed : N) : Pcg32 := Pcg32_new seed 15726070495360670683.

(** [u32::rotate_right]. *)
Definition rotate_right32 (x r : N) : N :=
  N.lor (N.shiftr x r) (N.shiftl x (32 - r) mod two32)%N.

(** The XSH-RR output function of a state. *)
Definition pcg_output (state : N) : N :=
  let xorshifted := (N.shiftr (N.lxor (N.shiftr state 18) state) 27 mod two32)%N in
  let rotation := N.shiftr state 59 in
  rotate_right32 xorshifted rotation.

Definition next_u32 (r : Pcg32) : N * Pcg32 :=
  let '(state, r) := Pcg32_step r in (pcg_output state, r).

Definition next_u64 (r : Pcg32) : N * Pcg32 :=
  let '(high, r) := next_u32 r in
  let '(low, r) := next_u32 r in
  (N.lor (N.shiftl high 32) low, r).

(** One round of the rejection loop of [below]. *)
Definition below_round (bound threshold : N) (r : Pcg32) : Pcg32 + N * Pcg32 :=
  let '(draw, r) := next_u32 r in
  if (threshold <=? draw)%N then inr ((draw mod bound)%N, r) else inl r.

(** [Pcg32::below].  The fuel is the period of the generator; the [inl] branch
    is unreachable ([below_ends]). *)
Definition below (r : Pcg32) (bound : N) : N * Pcg32 :=
  if (bound <=? 1)%N then (0%N, r) else
  let threshold := ((two32 - bound) mod two32 mod bound)%N in
  match loop_pos (below_round bound threshold) 18446744073709551616 r with
  | inr res => res
  | inl r => (0%N, r)
  end.

Definition range_inclusive (r : Pcg32) (low high : N) : N * Pcg32 :=
  if (high <=? low)%N then (low, r) else
  if (high - low =? u64_max)%N then next_u64 r else
  let count := (high - low + 1)%N in
  if (count <? two32)%N then
    let '(v, r) := below r count in (wadd low v, r)
  else
    let '(v, r) := next_u64 r in (wadd low (v mod count), r).

(** The invariant the source states: the increment is odd, both words fit. *)
Definition rng_ok (r : Pcg32) : Prop :=
  (rng_state r < two64 /\ rng_increment r < two64 /\ N.odd (rng_increment r) = true)%N.

(** ** The generator has full period *)

Section FullPeriod.
Context (a c : Z) (Ha : (a mod 4 = 1)%Z) (Hc : (c mod 2 = 1)%Z).
Local Open Scope Z_scope.

Definition affine (x : Z) : Z := a * x + c.

(** [2^m] rounds are one affine map [A x + C], with [A] congruent to [1]
    modulo [2^(m+2)] and [C] an odd multiple of [2^m]. *)
Lemma affine_pow2 (m : nat) :
  exists k o, forall x,
    Nat.iter (2 ^ m) affine x = (1 + k * 2 ^ (Z.of_nat m + 2)) * x + (2 * o + 1) * 2 ^ Z.of_nat m.
Proof.
  induction m as [|m (k & o & IH)].
  - exists (a / 4), (c / 2). intros x. change (2 ^ 0)%nat with 1%nat. unfold affine; simpl Nat.iter.
    change (2 ^ (Z.of_nat 0 + 2)) with 4. change (2 ^ Z.of_nat 0) with 1.
    pose proof (Z.div_mod a 4). pose proof (Z.div_mod c 2). nia.
  - exists (k + 2 * k * k * 2 ^ Z.of_nat m), (o + (2 * o + 1) * k * 2 ^ Z.of_nat m).
    intros x. replace (2 ^ S m)%nat with (2 ^ m + 2 ^ m)%nat by (simpl; lia).
    rewrite Nat.iter_add, !IH.
    replace (Z.of_nat (S m) + 2) with (Z.of_nat m + 3) by lia.
    replace (Z.of_nat (S m)) with (Z.of_nat m + 1) by lia.
    rewrite !Z.pow_add_r by lia. change (2 ^ 2) with 4. change (2 ^ 3) with 8. change (2 ^ 1) with 2. ring.
Qed.

(** Modulo [2^m] the orbit of any point meets every residue within [2^m] rounds. *)
Lemma affine_reaches (m : nat) x y :
  exists n, (n < 2 ^ m)%nat /\ exists q, Nat.iter n affine x = y + q * 2 ^ Z.of_nat m.
Proof.
  induction m as [|m (n & Hn & q & Hq)].
  - exists 0%nat. split; [simpl; lia|]. exists (x - y). change (2 ^ Z.of_nat 0) with 1. simpl. lia.
  - replace (Z.of_nat (S m)) with (Z.of_nat m + 1) by lia. rewrite Z.pow_add_r by lia. change (2 ^ 1) with 2.
    destruct (Z.Even_or_Odd q) as [[h ->]|[h ->]].
    + exists n. split; [simpl; lia|]. exists h. lia.
    + destruct (affine_pow2 m) as (k & o & E). exists (2 ^ m + n)%nat. split; [simpl; lia|].
      rewrite Nat.iter_add, E, Hq. rewrite Z.pow_add_r by lia. change (2 ^ 2) with 4.
      exists (h + o + 1 + 2 * k * (y + (2 * h + 1) * 2 ^ Z.of_nat m)). lia.
Qed.
End FullPeriod.

Definition advance (r : Pcg32) : Pcg32 := snd (Pcg32_step r).

Lemma advance_ok r : rng_ok r -> rng_ok (advance r).
Proof. intros (_ & Hi & Ho). split; [|done]. by apply N.mod_lt. Qed.

Lemma iter_advance_increment n r : rng_increment (Nat.iter n advance r) = rng_increment r.
Proof. by induction n as [|n IH]. Qed.

Lemma iter_advance_state n r :
  Z.of_N (rng_state r) = (Z.of_N (rng_state r) mod 2 ^ 64)%Z ->
  Z.of_N (rng_state (Nat.iter n advance r)) =
  (Nat.iter n (affine (Z.of_N MULTIPLIER) (Z.of_N (rng_increment r))) (Z.of_N (rng_state r)) mod 2 ^ 64)%Z.
Proof.
  intros H0. induction n as [|n IH]; [done|]. simpl. unfold affine at 1.
  rewrite iter_advance_increment, !N2Z.inj_mod, N2Z.inj_add, N2Z.inj_mod, N2Z.inj_mul, IH.
  change (Z.of_N two64) with (2 ^ 64)%Z.
  rewrite <- (Z.add_mod_idemp_l (_ mod _ * _ mod _)), Z.mod_mod, Z.mul_mod_idemp_l, Z.add_mod_idemp_l by done.
  f_equal. change (Z.of_N MULTIPLIER) with 6364136223846793005%Z. lia.
Qed.

(** Every 64-bit state occurs among the next [2^64] ones. *)
Lemma full_period r y :
  rng_ok r -> (y < two64)%N ->
  exists n, (n < Pos.to_nat 18446744073709551616)%nat /\ rng_state (Nat.iter n advance r) = y.
Proof.
  intros (Hs & Hi & Ho) Hy.
  assert (forall n, (n < two64)%N -> Z.of_N n = (Z.of_N n mod 2 ^ 64)%Z) as Hsmall.
  { intros n Hn. rewrite Z.mod_small; [done|]. change (2 ^ 64)%Z with (Z.of_N two64). lia. }
  destruct (affine_reaches (Z.of_N MULTIPLIER) (Z.of_N (rng_increment r))) with (m := 64%nat)
    (x := Z.of_N (rng_state r)) (y := Z.of_N y) as (n & Hn & q & Hq); [done| |].
  - apply N.odd_spec in Ho as [k ->]. rewrite N2Z.inj_add, N2Z.inj_mul.
    change (Z.of_N 2) with 2%Z. change (Z.of_N 1) with 1%Z. rewrite Z.add_comm, Z.mul_comm. by rewrite Z.mod_add.
  - exists n. split.
    + apply Nat2Z.inj_lt. rewrite positive_nat_Z. apply Nat2Z.inj_lt in Hn.
      rewrite Nat2Z.inj_pow in Hn. exact Hn.
    + apply N2Z.inj. rewrite iter_advance_state, Hq by auto.
      change (Z.of_nat 64) with 64%Z. rewrite Z.mod_add by done. symmetry. auto.
Qed.

(** ** The rejection loop ends *)

Lemma below_round_next bound threshold r r' :
  below_round bound threshold r = inl r' -> r' = advance r.
Proof. unfold below_round, next_u32, advance. destruct (Pcg32_step r). simpl. case_match; congruence. Qed.

(** A state whose output is [u32::MAX], which every threshold admits. *)
Definition full_output_state : N := 576458553280167936.

Lemma below_ends r bound threshold :
  rng_ok r -> (threshold < two32)%N ->
  exists res, loop_pos (below_round bound threshold) 18446744073709551616 r = inr res.
Proof.
  intros Hr Ht. rewrite loop_pos_nat.
  destruct (full_period r full_output_state Hr) as (n & Hn & E); [done|].
  apply loop_nat_ends with (next := advance) (k := n); [apply below_round_next | done |].
  unfold below_round, next_u32, Pcg32_step. rewrite E.
  replace (pcg_output full_output_state) with (two32 - 1)%N by by vm_compute.
  rewrite (proj2 (N.leb_le _ _)); [eauto | lia].
Qed.

Lemma pcg_output_lt s : (pcg_output s < two32)%N.
Proof.
  unfold pcg_output, rotate_right32. apply (lor_lt_pow2 _ _ 32); [|by apply N.mod_lt].
  rewrite N.shiftr_div_pow2. eapply N.le_lt_trans; [apply N.Div0.div_le_upper_bound|by apply N.mod_lt].
  assert (2 ^ N.shiftr s 59 <> 0)%N by by apply N.pow_nonzero.
  rewrite <- (N.mul_1_l (_ mod two32)) at 1. apply N.mul_le_mono_r. lia.
Qed.

Lemma next_u32_spec r : rng_ok r -> (fst (next_u32 r) < two32)%N /\ rng_ok (snd (next_u32 r)).
Proof. intros Hr. split; [apply pcg_output_lt | by apply advance_ok]. Qed.

Lemma next_u64_spec r : rng_ok r -> (fst (next_u64 r) < two64)%N /\ rng_ok (snd (next_u64 r)).
Proof.
  intros Hr. unfold next_u64. destruct (next_u32_spec r Hr) as [Hh Hr'].
  destruct (next_u32 r) as [high r']; cbn [fst snd] in *. destruct (next_u32_spec r' Hr') as [Hl Hr''].
  destruct (next_u32 r') as [low r'']; cbn [fst snd] in *. split; [|exact Hr''].
  rewrite N.lor_comm, lor_shiftl_add by exact Hl. unfold two32, two64 in *. change (2 ^ 32)%N with 4294967296%N. lia.
Qed.

Lemma below_spec r bound :
  rng_ok r -> (0 < bound)%N -> (bound < two32)%N -> (fst (below r bound) < bound)%N /\ rng_ok (snd (below r bound)).
Proof.
  intros Hr Hb Hb2. unfold below. destruct (N.leb_spec bound 1); [by split; [simpl; lia|]|].
  set (threshold := (_ mod bound)%N).
  destruct (below_ends r bound threshold Hr) as [[v r'] E].
  { unfold threshold. pose proof (N.mod_lt ((two32 - bound) mod two32) bound). lia. }
  rewrite E. rewrite loop_pos_nat in E. simpl.
  revert E. apply (loop_nat_inr _ rng_ok (fun res => (fst res < bound)%N /\ rng_ok (snd res)) _ r (v, r')).
  - done.
  - intros s s' Hs ->%below_round_next. by apply advance_ok.
  - intros s [v' s'] Hs. unfold below_round, next_u32. simpl. case_match; [|done]. intros [= <- <-].
    split; [by apply N.mod_lt; lia | by apply advance_ok].
Qed.

Lemma range_inclusive_spec r low high :
  rng_ok r -> (low <= high)%N -> (high < two64)%N ->
  (low <= fst (range_inclusive r low high) <= high)%N /\ rng_ok (snd (range_inclusive r low high)).
Proof.
  intros Hr Hl Hh. unfold range_inclusive.
  destruct (N.leb_spec high low); [by split; [simpl; lia|]|].
  destruct (N.eqb_spec (high - low) u64_max) as [E|].
  - destruct (next_u64_spec r Hr). split; [|done]. unfold two64, u64_max in *. lia.
  - destruct (N.ltb_spec (high - low + 1) two32).
    + destruct (below_spec r (high - low + 1) Hr) as [Hv Hr']; [lia..|].
      destruct (below r _) as [v r']; cbn [fst snd] in *. rewrite wadd_small by lia. split; [lia|done].
    + destruct (next_u64_spec r Hr) as [_ Hr']. destruct (next_u64 r) as [v r']; cbn [fst snd] in *.
      assert (v mod (high - low + 1) < high - low + 1)%N as Hw by (apply N.mod_lt; lia).
      generalize dependent (v mod (high - low + 1))%N. intros w Hw. rewrite wadd_small by lia. split; [lia|done].
Qed.

(** ** Properties *)

(** From any well-formed generator the rejection loop of [below] stops
    within one period of the generator, on a value below the bound. *)
Theorem below_terminates r bound :
  rng_ok r -> (1 < bound < two32)%N ->
  exists v r',
    loop_pos (below_round bound ((two32 - bound) mod two32 mod bound)) 18446744073709551616 r = inr (v, r') /\
    below r bound = (v, r') /\ (v < bound)%N /\ rng_ok r'.
Proof.
  intros Hr Hb. destruct (below_spec r bound Hr) as [Hv Hr']; [lia..|].
  destruct (below_ends r bound ((two32 - bound) mod two32 mod bound) Hr) as [[v r'] E].
  { pose proof (N.mod_lt ((two32 - bound) mod two32) bound). lia. }
  assert (below r bound = (v, r')) as Eb.
  { unfold below. rewrite (proj2 (N.leb_gt _ _)) by lia. by rewrite E. }
  exists v, r'. rewrite Eb in *. done.
Qed.

(** A draw from a non-empty range lies in it, and the generator stays well formed. *)
Theorem range_inclusive_in_range r low high :
  rng_ok r -> (low <= high)%N -> (high < two64)%N ->
  (low <= fst (range_inclusive r low high) <= high)%N /\ rng_ok (snd (range_inclusive r low high)).
Proof. apply range_inclusive_spec. Qed.

Lemma below_terminates_witness :
  exists v r', below (Pcg32_from_seed 42) 6 = (v, r') /\ (v < 6)%N /\ rng_ok r'.
Proof.
  destruct (below_terminates (Pcg32_from_seed 42) 6) as (v & r' & _ & E & Hv & Hr).
  - vm_compute. repeat split.
  - vm_compute. repeat split.
  - exists v, r'. exact (conj E (conj Hv Hr)).
Defined.

Lemma range_inclusive_in_range_witness : (10 <= fst (range_inclusive (Pcg32_from_seed 42) 10 20) <= 20)%N.
Proof.
  refine (proj1 (range_inclusive_in_range (Pcg32_from_seed 42) 10 20 _ _ _)); vm_compute; repeat split; discriminate.
Defined.
