(* ===== verification/Endian.v ===== *)
(** Fixed-width integers as byte strings: [to_be_bytes], [from_be_bytes] and
    their little-endian forms, on which every format of the system rests. *)

From stdpp Require Import prelude.
From Stdlib Require Import NArith ZArith Lia.
From S2P Require Import Prelude.

(** The [k] low bytes of [n], most significant first. *)
Fixpoint be_bytes (k : nat) (n : N) : bytes :=
  match k with
  | O => []
  | S k' => n2b (N.shiftr n (8 * N.of_nat k')) :: be_bytes k' n
  end.

Definition be_value (bs : bytes) : N := foldl (fun acc b => (acc * 256 + b2n b)%N) 0%N bs.

Definition le_bytes (k : nat) (n : N) : bytes := reverse (be_bytes k n).
Definition le_value (bs : bytes) : N := be_value (reverse bs).

Lemma be_bytes_length k n : length (be_bytes k n) = k.
Proof. induction k as [|k IH]; simpl; auto. Qed.

Lemma le_bytes_length k n : length (le_bytes k n) = k.
Proof. unfold le_bytes. by rewrite length_reverse, be_bytes_length. Qed.

Lemma be_value_foldl acc bs :
  foldl (fun acc b => (acc * 256 + b2n b)%N) acc bs = (acc * 256 ^ N.of_nat (length bs) + be_value bs)%N.
Proof.
  unfold be_value. revert acc; induction bs as [|b bs IH]; intros acc; simpl foldl.
  - simpl. lia.
  - rewrite IH, (IH (0 * 256 + b2n b)%N). simpl length. rewrite Nat2N.inj_succ, N.pow_succ_r'. lia.
Qed.

Lemma be_value_cons b bs : be_value (b :: bs) = (b2n b * 256 ^ N.of_nat (length bs) + be_value bs)%N.
Proof. unfold be_value at 1. simpl. rewrite be_value_foldl. lia. Qed.

Lemma be_value_lt bs : (be_value bs < 256 ^ N.of_nat (length bs))%N.
Proof.
  induction bs as [|b bs IH]; [done|]. rewrite be_value_cons. simpl length.
  rewrite Nat2N.inj_succ, N.pow_succ_r'. pose proof (b2n_lt b). nia.
Qed.

Lemma pow256 k : (2 ^ (8 * N.of_nat k) = 256 ^ N.of_nat k)%N.
Proof. by rewrite N.pow_mul_r. Qed.

Lemma be_value_bytes k n : (n < 256 ^ N.of_nat k)%N -> be_value (be_bytes k n) = n.
Proof.
  assert (forall k n, be_value (be_bytes k n) = n mod 256 ^ N.of_nat k)%N as E.
  { clear. intros k n. induction k as [|k IH]; [by rewrite N.mod_1_r|].
    cbn [be_bytes]. rewrite be_value_cons, be_bytes_length, IH, b2n_n2b, N.shiftr_div_pow2, pow256.
    rewrite Nat2N.inj_succ, N.pow_succ_r', (N.mul_comm 256).
    rewrite N.Div0.mod_mul_r. lia. }
  intros. rewrite E. by apply N.mod_small.
Qed.

Lemma be_bytes_value bs : be_bytes (length bs) (be_value bs) = bs.
Proof.
  assert (forall k n m, be_bytes k (n + m * 256 ^ N.of_nat k) = be_bytes k n) as Ehigh.
  { clear. induction k as [|k IH]; intros n m; [done|]. cbn [be_bytes]. f_equal.
    - apply b2n_inj. rewrite !b2n_n2b, !N.shiftr_div_pow2, !pow256, Nat2N.inj_succ, N.pow_succ_r'.
      replace (m * (256 * 256 ^ N.of_nat k))%N with (m * 256 * 256 ^ N.of_nat k)%N by lia.
      rewrite N.div_add by by apply N.pow_nonzero. by rewrite N.Div0.mod_add.
    - rewrite <- (IH n (m * 256)%N). f_equal. rewrite Nat2N.inj_succ, N.pow_succ_r'. lia. }
  induction bs as [|b bs IH]; [done|]. rewrite be_value_cons. cbn [length be_bytes]. f_equal.
  - rewrite N.shiftr_div_pow2, pow256. rewrite N.add_comm, N.div_add by by apply N.pow_nonzero.
    rewrite N.div_small by apply be_value_lt. apply n2b_b2n.
  - by rewrite N.add_comm, Ehigh.
Qed.

(** Big-endian bytes of one width compare as the numbers do. *)
Lemma be_bytes_cmp k a b :
  (a < 256 ^ N.of_nat k)%N -> (b < 256 ^ N.of_nat k)%N ->
  bytes_cmp (be_bytes k a) (be_bytes k b) = N.compare a b.
Proof.
  assert (forall l m, length l = length m -> bytes_cmp l m = N.compare (be_value l) (be_value m)) as E.
  { clear. induction l as [|x l IH]; intros [|y m]; try done. intros [= L]. rewrite !be_value_cons, L. simpl.
    rewrite IH by done. pose proof (be_value_lt l) as Hl. pose proof (be_value_lt m) as Hm. rewrite L in Hl.
    destruct (N.compare_spec (b2n x) (b2n y)) as [Exy|Hlt|Hlt].
    - rewrite Exy. symmetry. destruct (N.compare_spec (be_value l) (be_value m));
        [apply N.compare_eq_iff | apply N.compare_lt_iff | apply N.compare_gt_iff]; lia.
    - symmetry. apply N.compare_lt_iff. nia.
    - symmetry. apply N.compare_gt_iff. nia. }
  intros Ha Hb. rewrite E by by rewrite !be_bytes_length. by rewrite !be_value_bytes.
Qed.

Lemma le_value_bytes k n : (n < 256 ^ N.of_nat k)%N -> le_value (le_bytes k n) = n.
Proof. intros. unfold le_value, le_bytes. rewrite reverse_involutive. by apply be_value_bytes. Qed.

Lemma le_bytes_value bs : le_bytes (length bs) (le_value bs) = bs.
Proof. unfold le_value, le_bytes. rewrite <- (length_reverse bs), be_bytes_value. apply reverse_involutive. Qed.

Lemma le_value_lt bs : (le_value bs < 256 ^ N.of_nat (length bs))%N.
Proof. unfold le_value. rewrite <- (length_reverse bs). apply be_value_lt. Qed.

(** Little-endian forms grow at the far end. *)
Lemma be_bytes_snoc k n : be_bytes (S k) n = be_bytes k (N.shiftr n 8) ++ [n2b n].
Proof.
  induction k as [|k IH]; [cbn; by rewrite N.shiftr_0_r|].
  change (be_bytes (S (S k)) n) with (n2b (N.shiftr n (8 * N.of_nat (S k))) :: be_bytes (S k) n). rewrite IH.
  cbn [be_bytes app]. f_equal. rewrite N.shiftr_shiftr. f_equal. f_equal. lia.
Qed.
Lemma le_bytes_S k n : le_bytes (S k) n = n2b n :: le_bytes k (N.shiftr n 8).
Proof. unfold le_bytes. by rewrite be_bytes_snoc, reverse_app. Qed.
Lemma le_value_cons b bs : le_value (b :: bs) = (b2n b + 256 * le_value bs)%N.
Proof.
  unfold le_value. rewrite reverse_cons. unfold be_value at 1. rewrite foldl_app. cbn. fold (be_value (reverse bs)). lia.
Qed.
