(* ===== verification/Utf8.v ===== *)
(** Rust's UTF-8 check, [str::from_utf8] and [String::from_utf8]: the
    well-formed byte sequences of the Unicode standard. *)

From stdpp Require Import prelude.
From Stdlib Require Import NArith.
From S2P Require Import Prelude.

Definition in_range (low high : N) (b : byte) : bool := (low <=? b2n b)%N && (b2n b <=? high)%N.
(** [String::from_utf8] succeeds: the well-formed byte sequences. *)
Fixpoint valid_utf8 (s : bytes) : bool :=
  match s with
  | [] => true
  | a :: s1 =>
      if in_range 0 0x7F a then valid_utf8 s1 else
      match s1 with
      | [] => false
      | b :: s2 =>
          if in_range 0xC2 0xDF a then in_range 0x80 0xBF b && valid_utf8 s2 else
          match s2 with
          | [] => false
          | c :: s3 =>
              let second := if in_range 0xE0 0xE0 a then in_range 0xA0 0xBF b else if in_range 0xED 0xED a then in_range 0x80 0x9F b else in_range 0x80 0xBF b in
              if in_range 0xE0 0xEF a then second && in_range 0x80 0xBF c && valid_utf8 s3 else
              match s3 with
              | [] => false
              | d :: s4 =>
                  let second := if in_range 0xF0 0xF0 a then in_range 0x90 0xBF b else if in_range 0xF4 0xF4 a then in_range 0x80 0x8F b else in_range 0x80 0xBF b in
                  in_range 0xF0 0xF4 a && second && in_range 0x80 0xBF c && in_range 0x80 0xBF d && valid_utf8 s4
              end
          end
      end
  end.
