(* ===== verification/ProtoCodec.v ===== *)
(** The message primitives of [esker-proto/src/codec.rs] and the routing types
    of [esker-proto/src/region.rs]: the [Encoder] that appends fields, the
    bounds-checked [Decoder] that reads them back, and regions, epochs and
    peers.

    Two predicates carry the proofs of every format built on them: [reads],
    a getter reads back what was put, and [consumed], what a getter accepts is
    exactly what putting its value would have written. *)

From Stdlib Require Import Strings.String Strings.Byte.
From stdpp Require Import prelude.
From Stdlib Require Import NArith ZArith Lia.
From S2P Require Import Prelude Varint Endian Utf8.

Notation "x '|>' f" := (f x) (at level 50, left associativity, only parsing) : esker_scope.

(** ** [codec.rs] *)

(** The prose of [InvalidValue] is not kept. *)
Inductive DecodeError :=
  | DTruncated (field : string) (needed : N) (found : nat)
  | DVarint (field : string)
  | DUtf8 (field : string)
  | DUnknownTag (what : string) (tag : N)
  | DInvalidValue (field : string)
  | DTrailing (remaining : nat).

(** An [Encoder] is the bytes it has written. *)
Definition Encoder : Type := bytes.
Definition put_u8 (value : byte) (out : Encoder) : Encoder := out ++ [value].
Definition put_fixed64 (value : N) (out : Encoder) : Encoder := out ++ le_bytes 8 value.
Definition put_varint (value : N) (out : Encoder) : Encoder := put_u64 value out.
Definition put_bool (value : bool) (out : Encoder) : Encoder := out ++ [if value then x01 else x00].
Definition put_bytes (value : bytes) (out : Encoder) : Encoder := put_varint (N.of_nat (length value)) out ++ value.
Definition put_str (value : bytes) (out : Encoder) : Encoder := put_bytes value out.
Definition put_opt_bytes (value : option bytes) (out : Encoder) : Encoder :=
  match value with
  | Some b => out |> put_bool true |> put_bytes b
  | None => out |> put_bool false
  end.

Record Decoder := mkDecoder { de_bytes : bytes; de_at : nat }.
Definition Decoder_new (bs : bytes) : Decoder := mkDecoder bs 0.
Definition remaining (d : Decoder) : nat := length (de_bytes d) - de_at d.
(** The bytes not read yet, [&self.bytes[self.at..]]. *)
Definition unread (d : Decoder) : bytes := drop (de_at d) (de_bytes d).

(** A count too large for [at + count] to be a [usize] is past the end of any
    body, so the [checked_add] and the comparison are one test. *)
Definition de_take (field : string) (count : N) (d : Decoder) : result DecodeError (bytes * Decoder) :=
  if (N.of_nat (de_at d) + count <=? N.of_nat (length (de_bytes d)))%N
  then Ok (take (N.to_nat count) (unread d), mkDecoder (de_bytes d) (de_at d + N.to_nat count))
  else Err (DTruncated field count (remaining d)).

Definition get_u8 (field : string) (d : Decoder) : result DecodeError (byte * Decoder) :=
  let? (bs, d) := de_take field 1 d in Ok (hd x00 bs, d).
Definition get_fixed64 (field : string) (d : Decoder) : result DecodeError (N * Decoder) :=
  let? (bs, d) := de_take field 8 d in Ok (le_value bs, d).
Definition get_varint (field : string) (d : Decoder) : result DecodeError (N * Decoder) :=
  let? (value, used) := rmap_err (fun _ => DVarint field) (get_u64 (unread d)) in
  Ok (value, mkDecoder (de_bytes d) (de_at d + used)).
Definition get_bool (field : string) (d : Decoder) : result DecodeError (bool * Decoder) :=
  let? (b, d) := get_u8 field d in
  match b with
  | x00 => Ok (false, d)
  | x01 => Ok (true, d)
  | _ => Err (DInvalidValue field)
  end.
(** A [usize] is 64 bits wide, so [usize::try_from] accepts every varint. *)
Definition get_bytes (field : string) (d : Decoder) : result DecodeError (bytes * Decoder) :=
  let? (len, d) := get_varint field d in de_take field len d.
Definition get_str (field : string) (d : Decoder) : result DecodeError (bytes * Decoder) :=
  let? (bs, d) := get_bytes field d in
  if valid_utf8 bs then Ok (bs, d) else Err (DUtf8 field).
Definition get_opt_bytes (field : string) (d : Decoder) : result DecodeError (option bytes * Decoder) :=
  let? (present, d) := get_bool field d in
  if present then let? (bs, d) := get_bytes field d in Ok (Some bs, d) else Ok (None, d).
Definition get_count (field : string) (d : Decoder) : result DecodeError (nat * Decoder) :=
  let? (count, d) := get_varint field d in
  if (N.of_nat (remaining d) <? count)%N then Err (DInvalidValue field) else Ok (N.to_nat count, d).
Definition de_finish (d : Decoder) : result DecodeError unit :=
  if decide (remaining d = 0) then Ok tt else Err (DTrailing (remaining d)).

(** [for _ in 0..count { out.push(get(input)?) }]. *)
Fixpoint get_list {E A} (get : Decoder -> result E (A * Decoder)) (count : nat) (d : Decoder) : result E (list A * Decoder) :=
  match count with
  | O => Ok ([], d)
  | S count' =>
      let? (x, d) := get d in
      let? (xs, d) := get_list get count' d in
      Ok (x :: xs, d)
  end.

(** ** [region.rs] *)

Record Epoch := mkEpoch { ep_conf_ver : N; ep_version : N }.
Definition Epoch_INITIAL : Epoch := mkEpoch 1 1.
Definition is_stale_against (self other : Epoch) : bool :=
  (ep_conf_ver self <? ep_conf_ver other)%N || (ep_version self <? ep_version other)%N.

Inductive PeerRole := Voter | Learner | ColumnarLearner.
Definition role_as_u8 (r : PeerRole) : byte :=
  match r with Voter => x01 | Learner => x02 | ColumnarLearner => x03 end.
Definition role_from_u8 (b : byte) : option PeerRole :=
  match b with x01 => Some Voter | x02 => Some Learner | x03 => Some ColumnarLearner | _ => None end.

Record Peer := mkPeer { pe_store_id : N; pe_peer_id : N; pe_role : PeerRole }.

Record Region := mkRegion {
  rg_id : N;
  rg_start_key : bytes;
  rg_end_key : bytes;
  rg_peers : list Peer;
  rg_epoch : Epoch;
}.
Definition Region_bootstrap (id store_id peer_id : N) : Region :=
  mkRegion id [] [] [mkPeer store_id peer_id Voter] Epoch_INITIAL.
Definition bytes_is_empty (b : bytes) : bool := match b with [] => true | _ => false end.
Definition region_contains (r : Region) (key : bytes) : bool :=
  bytes_leb (rg_start_key r) key && (bytes_is_empty (rg_end_key r) || bytes_ltb key (rg_end_key r)).

#[export] Instance epoch_eq_decision : EqDecision Epoch.
Proof. solve_decision. Defined.
#[export] Instance role_eq_decision : EqDecision PeerRole.
Proof. solve_decision. Defined.
#[export] Instance peer_eq_decision : EqDecision Peer.
Proof. solve_decision. Defined.
#[export] Instance region_eq_decision : EqDecision Region.
Proof. solve_decision. Defined.

(** ** Reading back what was put *)

Create HintDb codec.

(** [get] reads [v] off the bytes [out], wherever they stand. *)
Definition reads {E A} (get : Decoder -> result E (A * Decoder)) (out : bytes) (v : A) : Prop :=
  forall pre rest,
    get (mkDecoder (pre ++ out ++ rest) (length pre)) = Ok (v, mkDecoder (pre ++ out ++ rest) (length pre + length out)).

Lemma unread_at pre bs : unread (mkDecoder (pre ++ bs) (length pre)) = bs.
Proof. apply drop_app_length. Qed.

Lemma reads_bind {E A B} (get : Decoder -> result E (A * Decoder)) (k : A -> Decoder -> result E (B * Decoder)) o1 o2 v w :
  reads get o1 v -> reads (k v) o2 w -> reads (fun d => let? (x, d) := get d in k x d) (o1 ++ o2) w.
Proof.
  intros H1 H2 pre rest. rewrite <- app_assoc, H1. cbn [rbind].
  specialize (H2 (pre ++ o1) rest). rewrite <- !app_assoc, !length_app in H2. rewrite H2.
  by rewrite length_app, Nat.add_assoc.
Qed.

Lemma reads_map_err {E F A} (f : E -> F) (get : Decoder -> result E (A * Decoder)) o v :
  reads get o v -> reads (fun d => rmap_err f (get d)) o v.
Proof. intros H pre rest. by rewrite H. Qed.

Lemma reads_ret {E A} (v : A) : reads (fun d => @Ok E _ (v, d)) [] v.
Proof. intros pre rest. by rewrite Nat.add_0_r. Qed.

Lemma reads_last {E A B} (get : Decoder -> result E (A * Decoder)) (f : A -> B) o v :
  reads get o v -> reads (fun d => let? (x, d) := get d in Ok (f x, d)) o (f v).
Proof.
  intros H. rewrite <- (app_nil_r o). apply (reads_bind get (fun x d => Ok (f x, d)) o [] v); [done|]. apply reads_ret.
Qed.

Lemma reads_take field bs : reads (de_take field (N.of_nat (length bs))) bs bs.
Proof.
  intros pre rest. unfold de_take. cbn [de_at de_bytes]. rewrite !length_app.
  rewrite (proj2 (N.leb_le _ _)) by lia. rewrite Nat2N.id, unread_at, take_app_length. done.
Qed.

Lemma reads_u8 field b : reads (get_u8 field) [b] b.
Proof. intros pre rest. unfold get_u8. by rewrite (reads_take field [b]). Qed.

Lemma reads_fixed64 field v : (v < two64)%N -> reads (get_fixed64 field) (le_bytes 8 v) v.
Proof.
  intros Hv pre rest. unfold get_fixed64. replace 8%N with (N.of_nat (length (le_bytes 8 v))) by (by rewrite le_bytes_length).
  rewrite reads_take. cbn [rbind]. by rewrite le_value_bytes.
Qed.

Lemma reads_varint field v : (v < two64)%N -> reads (get_varint field) (put_u64 v []) v.
Proof.
  intros Hv pre rest. unfold get_varint. rewrite unread_at, get_put_u64 by done. cbn [rmap_err rbind de_bytes de_at].
  by rewrite put_u64_length.
Qed.

Lemma reads_bool field (b : bool) : reads (get_bool field) [if b then x01 else x00] b.
Proof. intros pre rest. unfold get_bool. rewrite reads_u8. by destruct b. Qed.

(** Every list the sources build is shorter than the address space. *)
Definition len64 {A} (l : list A) : Prop := (N.of_nat (length l) < two64)%N.

Definition bytes_enc (bs : bytes) : bytes := put_u64 (N.of_nat (length bs)) [] ++ bs.
Definition opt_enc (o : option bytes) : bytes := match o with Some bs => x01 :: bytes_enc bs | None => [x00] end.

Lemma reads_bytes field bs : len64 bs -> reads (get_bytes field) (bytes_enc bs) bs.
Proof. intros H. apply (reads_bind (get_varint field) (de_take field) _ _ (N.of_nat (length bs))); [by apply reads_varint|apply reads_take]. Qed.

Lemma reads_str field bs : len64 bs -> valid_utf8 bs = true -> reads (get_str field) (bytes_enc bs) bs.
Proof. intros H Hv pre rest. unfold get_str. rewrite reads_bytes by done. cbn [rbind]. by rewrite Hv. Qed.

Lemma reads_opt_bytes field o : from_option len64 True o -> reads (get_opt_bytes field) (opt_enc o) o.
Proof.
  intros H. destruct o as [bs|]; cbn [opt_enc].
  - change (x01 :: bytes_enc bs) with ([x01] ++ bytes_enc bs). eapply (reads_bind (get_bool field)); [apply (reads_bool field true)|].
    cbn beta iota. by apply reads_last, reads_bytes.
  - change [x00] with ([x00] ++ []). eapply (reads_bind (get_bool field)); [apply (reads_bool field false)|apply reads_ret].
Qed.

(** The loop over what a count counts. *)
Lemma reads_list {F A} (get : Decoder -> result F (A * Decoder)) (enc : A -> bytes) (l : list A) :
  (forall x, x ∈ l -> reads get (enc x) x) -> reads (get_list get (length l)) (concat (enc <$> l)) l.
Proof.
  intros Hx. induction l as [|x l IH]; cbn [length get_list fmap list_fmap concat]; [apply reads_ret|].
  eapply (reads_bind get); [by apply Hx; left|]. cbn beta.
  apply (reads_last (get_list get (length l)) (cons x)). apply IH. intros y Hy. apply Hx. by right.
Qed.

Lemma concat_long {A} (enc : A -> bytes) (l : list A) : (forall x, x ∈ l -> enc x <> []) -> length l <= length (concat (enc <$> l)).
Proof.
  intros Hx. induction l as [|x l IH]; cbn; [lia|]. rewrite length_app.
  pose proof (Hx x ltac:(left)) as Hne. specialize (IH (fun y Hy => Hx y ltac:(by right))).
  destruct (enc x); cbn in *; [done|lia].
Qed.

(** A count is accepted when what follows is at least that many bytes. *)
Lemma get_count_at field n pre rest : (N.of_nat n < two64)%N -> n <= length rest ->
  get_count field (mkDecoder (pre ++ put_u64 (N.of_nat n) [] ++ rest) (length pre)) =
  Ok (n, mkDecoder (pre ++ put_u64 (N.of_nat n) [] ++ rest) (length pre + length (put_u64 (N.of_nat n) []))).
Proof.
  intros Hl Hn. unfold get_count. rewrite reads_varint by done. cbn [rbind]. unfold remaining. cbn [de_bytes de_at].
  rewrite (proj2 (N.ltb_ge _ _)) by (rewrite !length_app; lia). by rewrite Nat2N.id.
Qed.

Lemma reads_count {F A} (g : DecodeError -> F) field (get : Decoder -> result F (A * Decoder)) (enc : A -> bytes) (l : list A) :
  len64 l -> (forall x, x ∈ l -> enc x <> [] /\ reads get (enc x) x) ->
  reads (fun d => let? (n, d) := rmap_err g (get_count field d) in get_list get n d)
    (put_u64 (N.of_nat (length l)) [] ++ concat (enc <$> l)) l.
Proof.
  intros Hl Hx pre rest. pose proof (concat_long enc l (fun x H => proj1 (Hx x H))) as Hlen.
  rewrite <- app_assoc, get_count_at by (done || (rewrite length_app; lia)). cbn [rmap_err rbind].
  pose proof (reads_list get enc l (fun x H => proj2 (Hx x H)) (pre ++ put_u64 (N.of_nat (length l)) []) rest) as R.
  rewrite <- !app_assoc, !length_app in R. rewrite R, !length_app. by rewrite Nat.add_assoc.
Qed.

Lemma finish_reads d : unread d = [] -> de_finish d = Ok tt.
Proof.
  intros H. unfold de_finish, remaining. rewrite decide_True; [done|]. rewrite <- length_drop. unfold unread in H. by rewrite H.
Qed.

(** A whole body: read, then finish. *)
Lemma reads_whole {E A} (get : Decoder -> result E (A * Decoder)) out v :
  reads get out v -> exists d, get (Decoder_new out) = Ok (v, d) /\ de_finish d = Ok tt.
Proof.
  intros H. specialize (H [] []). cbn [app length] in H. rewrite app_nil_r in H. eexists. split; [exact H|].
  apply finish_reads. apply drop_ge. cbn. lia.
Qed.

(** ** What a getter accepts *)

(** A step of a decoder: it consumed [out] and left the rest. *)
Definition consumed (d : Decoder) (out : bytes) (d' : Decoder) : Prop := unread d = out ++ unread d'.

Lemma consumed_trans d o d' o' d'' : consumed d o d' -> consumed d' o' d'' -> consumed d (o ++ o') d''.
Proof. unfold consumed. intros -> ->. by rewrite app_assoc. Qed.

Lemma consumed_finish d o d' : consumed d o d' -> de_finish d' = Ok tt -> unread d = o.
Proof.
  unfold consumed, de_finish, remaining. intros ->. case_decide as H; [|done]. intros _. unfold unread at 1.
  rewrite drop_ge by lia. apply app_nil_r.
Qed.

Lemma take_consumed field count d bs d' :
  de_take field count d = Ok (bs, d') -> consumed d bs d' /\ N.of_nat (length bs) = count /\ de_bytes d' = de_bytes d.
Proof.
  unfold de_take. destruct (N.leb_spec (N.of_nat (de_at d) + count) (N.of_nat (length (de_bytes d)))) as [L|]; [|done].
  intros [= <- <-]. unfold consumed, unread. cbn [de_bytes de_at]. rewrite <- drop_drop, take_drop.
  rewrite length_take, length_drop. split; [done|]. split; [lia|done].
Qed.

Lemma u8_consumed field d b d' : get_u8 field d = Ok (b, d') -> consumed d [b] d'.
Proof.
  unfold get_u8. intros ([bs d1] & H & [= <- <-])%rbind_ok. apply take_consumed in H as (H & Hl & _).
  destruct bs as [|b [|]]; cbn in Hl; try lia. done.
Qed.

Lemma fixed64_consumed field d v d' : get_fixed64 field d = Ok (v, d') -> consumed d (le_bytes 8 v) d' /\ (v < two64)%N.
Proof.
  unfold get_fixed64. intros ([bs d1] & H & [= <- <-])%rbind_ok. apply take_consumed in H as (H & Hl & _).
  assert (length bs = 8) as L by lia. rewrite <- L at 1. rewrite le_bytes_value. split; [done|].
  pose proof (le_value_lt bs) as B. by rewrite L in B.
Qed.

Lemma varint_consumed field d v d' : get_varint field d = Ok (v, d') -> consumed d (put_u64 v []) d' /\ (v < two64)%N.
Proof.
  unfold get_varint. intros ([v' n] & H & [= <- <-])%rbind_ok. destruct (get_u64 (unread d)) as [[? ?]|] eqn:G; [|done].
  cbn in H. injection H as [= -> ->]. apply get_u64_canonical in G as [Hv Ht]. split; [|done].
  unfold consumed. rewrite <- Ht. unfold unread. cbn [de_bytes de_at]. by rewrite <- drop_drop, take_drop.
Qed.

Lemma bytes_consumed field d bs d' : get_bytes field d = Ok (bs, d') -> consumed d (bytes_enc bs) d' /\ len64 bs.
Proof.
  unfold get_bytes. intros ([n d1] & H1 & H2)%rbind_ok. apply varint_consumed in H1 as [H1 Hn].
  apply take_consumed in H2 as (H2 & <- & _). split; [|done]. by eapply consumed_trans.
Qed.

Lemma str_consumed field d bs d' :
  get_str field d = Ok (bs, d') -> consumed d (bytes_enc bs) d' /\ len64 bs /\ valid_utf8 bs = true.
Proof.
  unfold get_str. intros ([b d1] & H & G)%rbind_ok. destruct (valid_utf8 b) eqn:V; [|done]. injection G as [= -> ->].
  apply bytes_consumed in H as [? ?]. done.
Qed.

Lemma count_consumed field d n d' :
  get_count field d = Ok (n, d') -> consumed d (put_u64 (N.of_nat n) []) d' /\ (N.of_nat n < two64)%N.
Proof.
  unfold get_count. intros ([v d1] & H & G)%rbind_ok. apply varint_consumed in H as [H Hv].
  destruct (_ <? v)%N; [done|]. injection G as [= <- <-]. by rewrite N2Nat.id.
Qed.

Lemma list_consumed {E A} (get : Decoder -> result E (A * Decoder)) (enc : A -> bytes) (ok : A -> Prop) n d l d' :
  (forall d x d', get d = Ok (x, d') -> consumed d (enc x) d' /\ ok x) ->
  get_list get n d = Ok (l, d') -> consumed d (concat (enc <$> l)) d' /\ Forall ok l /\ length l = n.
Proof.
  intros Hg. revert d l; induction n as [|n IH]; intros d l; cbn [get_list].
  - intros [= <- <-]. done.
  - intros ([x d1] & H1 & ([xs d2] & H2 & [= <- <-])%rbind_ok)%rbind_ok.
    apply Hg in H1 as [H1 Hx]. apply IH in H2 as (H2 & Hxs & <-). cbn. split; [by eapply consumed_trans|]. split; [by constructor|done].
Qed.

Lemma map_err_ok {E F A} (f : E -> F) (m : result E A) a : rmap_err f m = Ok a -> m = Ok a.
Proof. destruct m; naive_solver. Qed.

Lemma role_roundtrip r : role_from_u8 (role_as_u8 r) = Some r.
Proof. by destruct r. Qed.
Lemma role_from_some b r : role_from_u8 b = Some r -> b = role_as_u8 r.
Proof. destruct b; cbn; try done; by intros [= <-]. Qed.

#[export] Hint Resolve reads_u8 reads_fixed64 reads_varint reads_bool reads_bytes reads_str reads_opt_bytes reads_ret reads_map_err : codec.

(** Peel the getters off a decoder that returned, naming what each consumed. *)
Ltac peel :=
  repeat match goal with
  | H : rbind _ _ = Ok _ |- _ => apply rbind_ok in H as ([? ?] & ? & ?)
  | H : rmap_err _ _ = Ok _ |- _ => apply map_err_ok in H
  | H : get_u8 _ _ = Ok _ |- _ => apply u8_consumed in H
  | H : get_varint _ _ = Ok _ |- _ => apply varint_consumed in H as [? ?]
  | H : get_fixed64 _ _ = Ok _ |- _ => apply fixed64_consumed in H as [? ?]
  | H : get_bytes _ _ = Ok _ |- _ => apply bytes_consumed in H as [? ?]
  | H : get_str _ _ = Ok _ |- _ => apply str_consumed in H as (? & ? & ?)
  | H : get_count _ _ = Ok _ |- _ => apply count_consumed in H as [? ?]
  | H : Ok _ = Ok _ |- _ => injection H as [= <- <-]
  end.

(** Chain the pieces a decoder consumed. *)
Ltac chain := repeat first [eassumption | (eapply consumed_trans; [eassumption|])].
(** Step a decoder over the next field. *)
Ltac read_next := eapply reads_bind; [solve [eauto 10 with codec] | cbn beta].
