(* ===== verification/RaftTypes.v ===== *)
(** The values Raft moves around: [esker-raft/src/types.rs], [message.rs],
    [error.rs] and [config.rs].

    Entries, the durable state, memberships and the single-server change that
    moves one, snapshots, messages, errors and a node's configuration.  The
    theorems: the change's payload is a canonical encoding, and a majority of
    a membership meets a majority of any membership one change away. *)

From Stdlib Require Import Strings.Byte.
From stdpp Require Import prelude sorting.
From Stdlib Require Import NArith ZArith Lia.
From S2P Require Import Prelude SortedVec Endian Rng.

(** ** Identities and entries *)

(** [NodeId], [Term] and [Index] are [u64]s. *)
Abbreviation NodeId := N.
Abbreviation Term := N.
Abbreviation Index := N.

(** [offset]: a log offset as a vector index; [usize] is 64 bits wide. *)
Definition offset (delta : Index) : nat := N.to_nat delta.

Inductive EntryKind : Type := Normal | ConfChangeEntry.
#[export] Instance EntryKind_eq_dec : EqDecision EntryKind.
Proof. solve_decision. Defined.

Record Entry : Type := mkEntry {
  entry_term : Term;
  entry_index : Index;
  entry_kind : EntryKind;
  entry_data : bytes }.
#[export] Instance Entry_eq_dec : EqDecision Entry.
Proof. solve_decision. Defined.

Definition Entry_normal (term : Term) (index : Index) (data : bytes) : Entry := mkEntry term index Normal data.
Definition Entry_empty (term : Term) (index : Index) : Entry := Entry_normal term index [].
Definition Entry_cost (e : Entry) : N := 24 +% N.of_nat (length (entry_data e)).

Record HardState : Type := mkHardState {
  hs_term : Term;
  hs_voted_for : option NodeId;
  hs_commit : Index }.
#[export] Instance HardState_eq_dec : EqDecision HardState.
Proof. solve_decision. Defined.
Definition HardState_default : HardState := mkHardState 0 None 0.
Definition differs_from (a b : HardState) : bool := bool_decide (a <> b).

(** ** Memberships *)

Record ConfState : Type := mkConfState { cs_voters : list NodeId; cs_learners : list NodeId }.
#[export] Instance ConfState_eq_dec : EqDecision ConfState.
Proof. solve_decision. Defined.
Definition ConfState_default : ConfState := mkConfState [] [].

Definition normalize (c : ConfState) : ConfState :=
  let voters := dedup (sort_u64 (cs_voters c)) in
  let learners := dedup (sort_u64 (cs_learners c)) in
  mkConfState voters (filter (fun id => is_ok (binary_search voters id) = false) learners).

Definition from_voters (voters : list NodeId) : ConfState := normalize (mkConfState voters []).
Definition conf_is_voter (c : ConfState) (id : NodeId) : bool := is_ok (binary_search (cs_voters c) id).
Definition conf_is_learner (c : ConfState) (id : NodeId) : bool := is_ok (binary_search (cs_learners c) id).
Definition conf_contains (c : ConfState) (id : NodeId) : bool := conf_is_voter c id || conf_is_learner c id.
Definition quorum (c : ConfState) : nat := length (cs_voters c) / 2 + 1.
Definition members (c : ConfState) : list NodeId := cs_voters c ++ cs_learners c.

(** ** Errors *)

(** The texts of [RaftError::InvalidConfig], [CorruptConfChange] and
    [Storage], as what they say. *)
Inductive InvalidReason : Type :=
  | ReservedId
  | ElectionTickRange (low high : N)
  | HeartbeatTickZero
  | ElectionTickLow (low heartbeat : N)
  | NoInflight
  | NoMessageSize
  | LastVoterRemoved.

Inductive CorruptReason : Type := PayloadTooShort (len : nat) | UnknownKind (tag : byte).

Inductive StorageReason : Type :=
  | AppendConflict (conflict commit : Index)
  | StorageFailure (text : bytes).

Inductive RaftError : Type :=
  | Compacted (index : Index)
  | Unavailable (index : Index)
  | SnapshotTemporarilyUnavailable
  | SnapshotOutOfDate (index committed : Index)
  | NotLeader
  | ConfChangePending (index : Index)
  | LeadershipTransferInProgress (target : NodeId)
  | InvalidConfig (why : InvalidReason)
  | CorruptConfChange (why : CorruptReason)
  | Storage (why : StorageReason).

Definition is_compacted (e : RaftError) : bool := match e with Compacted _ => true | _ => false end.

(** ** Single-server membership changes *)

Inductive ConfChangeKind : Type := AddVoter | AddLearner | Remove.
#[export] Instance ConfChangeKind_eq_dec : EqDecision ConfChangeKind.
Proof. solve_decision. Defined.

Definition tag (k : ConfChangeKind) : byte :=
  match k with AddVoter => Byte.x01 | AddLearner => Byte.x02 | Remove => Byte.x03 end.
Definition from_tag (b : byte) : option ConfChangeKind :=
  match b with
  | Byte.x01 => Some AddVoter
  | Byte.x02 => Some AddLearner
  | Byte.x03 => Some Remove
  | _ => None
  end.

Record ConfChange : Type := mkConfChange {
  change_kind : ConfChangeKind;
  change_node : NodeId;
  change_context : bytes }.

Definition HEADER_LEN : nat := 9.
Definition ConfChange_new (kind : ConfChangeKind) (node : NodeId) : ConfChange := mkConfChange kind node [].

Definition ConfChange_encode (c : ConfChange) : bytes :=
  [tag (change_kind c)] ++ le_bytes 8 (change_node c) ++ change_context c.

Definition ConfChange_decode (data : bytes) : result RaftError ConfChange :=
  if (length data <? HEADER_LEN)%nat then Err (CorruptConfChange (PayloadTooShort (length data))) else
  match data with
  | b :: rest =>
      let? kind := ok_or (from_tag b) (CorruptConfChange (UnknownKind b)) in
      Ok (mkConfChange kind (le_value (take 8 rest)) (drop 8 rest))
  | [] => Err (CorruptConfChange (PayloadTooShort 0))
  end.

Definition Entry_conf_change (term : Term) (index : Index) (change : ConfChange) : Entry :=
  mkEntry term index ConfChangeEntry (ConfChange_encode change).

(** [ConfChange::apply_to]: whether the membership moved, and the new one. *)
Definition apply_to (change : ConfChange) (conf : ConfState) : bool * ConfState :=
  let voters := filter (fun id => id <> change_node change) (cs_voters conf) in
  let learners := filter (fun id => id <> change_node change) (cs_learners conf) in
  let next :=
    normalize
      match change_kind change with
      | AddVoter => mkConfState (voters ++ [change_node change]) learners
      | AddLearner => mkConfState voters (learners ++ [change_node change])
      | Remove => mkConfState voters learners
      end in
  (bool_decide (next <> conf), next).

(** ** Snapshots and reads *)

Inductive SnapshotStatus : Type := Finished | Failed.

Record SnapshotMeta : Type := mkSnapshotMeta { meta_index : Index; meta_term : Term; meta_conf : ConfState }.
#[export] Instance SnapshotMeta_eq_dec : EqDecision SnapshotMeta.
Proof. solve_decision. Defined.
Record Snapshot : Type := mkSnapshot { snap_meta : SnapshotMeta; snap_data : bytes }.
#[export] Instance Snapshot_eq_dec : EqDecision Snapshot.
Proof. solve_decision. Defined.
Definition Snapshot_default : Snapshot := mkSnapshot (mkSnapshotMeta 0 0 ConfState_default) [].
Definition Snapshot_is_empty (s : Snapshot) : bool := (meta_index (snap_meta s) =? 0)%N.

Record ReadState : Type := mkReadState { read_state_index : Index; read_state_ctx : bytes }.

Record PeerProgress : Type := mkPeerProgress {
  peer_id : NodeId;
  peer_matched : Index;
  peer_next : Index;
  peer_is_learner : bool;
  peer_recent_active : bool;
  peer_pending_snapshot : Index }.

(** Every counter is monotonic; none is reset by a term or a role change. *)
Record Counters : Type := mkCounters {
  campaigns_pre : N;
  campaigns_real : N;
  vote_requests_sent : N;
  vote_responses_sent : N;
  vote_responses_granted : N;
  vote_responses_ignored : N;
  check_quorum_step_downs : N }.
Definition Counters_default : Counters := mkCounters 0 0 0 0 0 0 0.

(** ** Messages *)

Inductive Message : Type :=
  | RequestVote (from to : NodeId) (term : Term) (last_log_index : Index) (last_log_term : Term) (pre_vote force : bool)
  | RequestVoteResponse (from to : NodeId) (term : Term) (granted pre_vote : bool)
  | AppendEntries (from to : NodeId) (term : Term) (prev_log_index : Index) (prev_log_term : Term)
      (entries : list Entry) (leader_commit : Index) (context : bytes)
  | AppendEntriesResponse (from to : NodeId) (term : Term) (reject : bool) (index : Index) (hint_term : Term) (context : bytes)
  | InstallSnapshot (from to : NodeId) (term : Term) (snapshot : Snapshot)
  | TimeoutNow (from to : NodeId) (term : Term)
  | ReadIndex (from to : NodeId) (term : Term) (ctx : bytes)
  | ReadIndexResponse (from to : NodeId) (term : Term) (index : Index) (ctx : bytes).

Definition sender (m : Message) : NodeId :=
  match m with
  | RequestVote from _ _ _ _ _ _ | RequestVoteResponse from _ _ _ _ | AppendEntries from _ _ _ _ _ _ _
  | AppendEntriesResponse from _ _ _ _ _ _ | InstallSnapshot from _ _ _ | TimeoutNow from _ _
  | ReadIndex from _ _ _ | ReadIndexResponse from _ _ _ _ => from
  end.
Definition recipient (m : Message) : NodeId :=
  match m with
  | RequestVote _ to _ _ _ _ _ | RequestVoteResponse _ to _ _ _ | AppendEntries _ to _ _ _ _ _ _
  | AppendEntriesResponse _ to _ _ _ _ _ | InstallSnapshot _ to _ _ | TimeoutNow _ to _
  | ReadIndex _ to _ _ | ReadIndexResponse _ to _ _ _ => to
  end.
Definition message_term (m : Message) : Term :=
  match m with
  | RequestVote _ _ term _ _ _ _ | RequestVoteResponse _ _ term _ _ | AppendEntries _ _ term _ _ _ _ _
  | AppendEntriesResponse _ _ term _ _ _ _ | InstallSnapshot _ _ term _ | TimeoutNow _ _ term
  | ReadIndex _ _ term _ | ReadIndexResponse _ _ term _ _ => term
  end.
Definition is_pre_vote (m : Message) : bool :=
  match m with
  | RequestVote _ _ _ _ _ pre_vote _ => pre_vote
  | RequestVoteResponse _ _ _ _ pre_vote => pre_vote
  | _ => false
  end.

(** ** Configuration *)

Definition ELECTION_TIMEOUT_MIN_TICKS : N := 10.
Definition ELECTION_TIMEOUT_MAX_TICKS : N := 20.
Definition HEARTBEAT_TICKS : N := 2.
Definition MAX_INFLIGHT_MSGS : nat := 256.
Definition SNAPSHOT_TIMEOUT_TICKS : N := 100.
Definition MAX_SIZE_PER_MSG : N := 1024 * 1024.

Record Config : Type := mkConfig {
  cfg_id : NodeId;
  cfg_voters : list NodeId;
  cfg_learners : list NodeId;
  cfg_election_tick : N * N;
  cfg_heartbeat_tick : N;
  cfg_max_inflight_msgs : nat;
  cfg_max_size_per_msg : N;
  cfg_pre_vote : bool;
  cfg_check_quorum : bool;
  cfg_applied : Index;
  cfg_rng : Pcg32 }.

Definition Config_new (id : NodeId) (voters : list NodeId) (seed : N) : Config :=
  mkConfig id voters [] (ELECTION_TIMEOUT_MIN_TICKS, ELECTION_TIMEOUT_MAX_TICKS) HEARTBEAT_TICKS
    MAX_INFLIGHT_MSGS MAX_SIZE_PER_MSG true true 0 (Pcg32_new seed id).

Definition Config_conf_state (c : Config) : ConfState := normalize (mkConfState (cfg_voters c) (cfg_learners c)).

Definition Config_validate (c : Config) : result RaftError unit :=
  if (cfg_id c =? 0)%N then Err (InvalidConfig ReservedId) else
  let '(low, high) := cfg_election_tick c in
  if (low =? 0)%N || (high <? low)%N then Err (InvalidConfig (ElectionTickRange low high)) else
  if (cfg_heartbeat_tick c =? 0)%N then Err (InvalidConfig HeartbeatTickZero) else
  if (low <=? cfg_heartbeat_tick c)%N then Err (InvalidConfig (ElectionTickLow low (cfg_heartbeat_tick c))) else
  if (cfg_max_inflight_msgs c =? 0)%nat then Err (InvalidConfig NoInflight) else
  if (cfg_max_size_per_msg c =? 0)%N then Err (InvalidConfig NoMessageSize) else
  Ok tt.

(** ** What a normalised membership is *)

Definition conf_ok (c : ConfState) : Prop :=
  sorted_set (cs_voters c) /\ sorted_set (cs_learners c) /\ forall id, id ∈ cs_voters c -> id ∉ cs_learners c.

Lemma binary_search_found l x : is_ok (binary_search l x) = true <-> x ∈ l.
Proof. unfold binary_search. case_bool_decide; split; done. Qed.
Lemma binary_search_missing l x : is_ok (binary_search l x) = false <-> x ∉ l.
Proof. unfold binary_search. case_bool_decide; split; done. Qed.

Lemma conf_is_voter_spec c id : conf_is_voter c id = true <-> id ∈ cs_voters c.
Proof. apply binary_search_found. Qed.

Lemma normalize_voters c id : id ∈ cs_voters (normalize c) <-> id ∈ cs_voters c.
Proof. cbn. by rewrite elem_of_dedup, elem_of_sort_u64. Qed.
Lemma normalize_learners c id : id ∈ cs_learners (normalize c) <-> id ∈ cs_learners c /\ id ∉ cs_voters c.
Proof.
  cbn. rewrite list_elem_of_filter, binary_search_missing, !elem_of_dedup, !elem_of_sort_u64. tauto.
Qed.

Lemma normalize_ok c : conf_ok (normalize c).
Proof.
  split; [apply dedup_sorted, sort_u64_sorted|]. split.
  - cbn. apply sorted_set_filter, dedup_sorted, sort_u64_sorted.
  - intros id Hv Hl. rewrite normalize_voters in Hv. rewrite normalize_learners in Hl. tauto.
Qed.

(** A membership is determined by who is in it. *)
Lemma conf_ok_ext c c' : conf_ok c -> conf_ok c' ->
  (forall id, id ∈ cs_voters c <-> id ∈ cs_voters c') ->
  (forall id, id ∈ cs_learners c <-> id ∈ cs_learners c') -> c = c'.
Proof.
  intros (Hv & Hl & _) (Hv' & Hl' & _) Ev El. destruct c as [v l], c' as [v' l']. cbn in *. f_equal.
  - apply sorted_set_perm; [done..|]. apply NoDup_Permutation; [by apply sorted_set_nodup..|done].
  - apply sorted_set_perm; [done..|]. apply NoDup_Permutation; [by apply sorted_set_nodup..|done].
Qed.

Lemma apply_to_ok change conf : conf_ok (snd (apply_to change conf)).
Proof. apply normalize_ok. Qed.

Lemma apply_to_voters change conf id :
  id ∈ cs_voters (snd (apply_to change conf)) <->
  (id <> change_node change /\ id ∈ cs_voters conf) \/ (id = change_node change /\ change_kind change = AddVoter).
Proof.
  unfold apply_to. cbn [snd]. rewrite normalize_voters. destruct (change_kind change); cbn;
    rewrite ?elem_of_app, ?list_elem_of_singleton, list_elem_of_filter; naive_solver.
Qed.

Lemma apply_to_learners change conf id : conf_ok conf ->
  id ∈ cs_learners (snd (apply_to change conf)) <->
  (id <> change_node change /\ id ∈ cs_learners conf) \/ (id = change_node change /\ change_kind change = AddLearner).
Proof.
  intros (_ & _ & Hd). unfold apply_to. cbn [snd]. rewrite normalize_learners.
  destruct (change_kind change); cbn;
    rewrite ?elem_of_app, ?list_elem_of_singleton, !list_elem_of_filter; naive_solver.
Qed.

Lemma half_bounds n : (2 * (n / 2) <= n <= 2 * (n / 2) + 1)%nat.
Proof. pose proof (Nat.div_mod_eq n 2). pose proof (Nat.mod_upper_bound n 2). lia. Qed.

(** One change moves the voters by at most the node it names. *)
Lemma apply_to_quorums change conf : sorted_set (cs_voters conf) ->
  exists u, cs_voters conf ⊆ u /\ cs_voters (snd (apply_to change conf)) ⊆ u /\
    (length u < quorum conf + quorum (snd (apply_to change conf)))%nat.
Proof.
  intros Hs. set (conf' := snd (apply_to change conf)). unfold quorum.
  assert (NoDup (cs_voters conf)) as Hn by by apply sorted_set_nodup.
  assert (NoDup (cs_voters conf')) as Hn' by (apply sorted_set_nodup; apply (apply_to_ok change conf)).
  pose proof (half_bounds (length (cs_voters conf))). pose proof (half_bounds (length (cs_voters conf'))).
  destruct (decide (change_kind change = AddVoter)) as [Hk|Hk].
  - assert (cs_voters conf ⊆ cs_voters conf') as S.
    { intros id Hid. apply apply_to_voters. destruct (decide (id = change_node change)); auto. }
    assert (cs_voters conf' ⊆+ change_node change :: cs_voters conf) as L%submseteq_length.
    { apply NoDup_submseteq; [done|]. intros id [[_ ?]|[-> _]]%apply_to_voters; [by right|left]. }
    pose proof (submseteq_length _ _ (NoDup_submseteq _ _ Hn S)) as L'. cbn [length] in L.
    exists (cs_voters conf'). split; [done|]. split; [reflexivity|]. lia.
  - assert (cs_voters conf' ⊆ cs_voters conf) as S by (intros id [[_ ?]|[_ ?]]%apply_to_voters; done).
    assert (cs_voters conf ⊆+ change_node change :: cs_voters conf') as L%submseteq_length.
    { apply NoDup_submseteq; [done|]. intros id Hid. destruct (decide (id = change_node change)) as [->|]; [left|right].
      apply apply_to_voters. auto. }
    pose proof (submseteq_length _ _ (NoDup_submseteq _ _ Hn' S)) as L'. cbn [length] in L.
    exists (cs_voters conf). split; [reflexivity|]. split; [done|lia].
Qed.

Lemma list_forall_subset (l u : list N) : bool_decide (Forall (.∈ u) l) -> l ⊆ u.
Proof. intros H%bool_decide_unpack x Hx. by eapply Forall_forall in H. Qed.

(** C30: The rule that makes one change at a time safe.  Any
    majority of a membership and any majority of the membership one
    single-server change away have a voter in common, and applying the change
    again moves nothing. *)
Theorem single_change_quorums_meet change conf q q' :
  conf_ok conf ->
  NoDup q -> q ⊆ cs_voters conf -> (quorum conf <= length q)%nat ->
  NoDup q' -> q' ⊆ cs_voters (snd (apply_to change conf)) -> (quorum (snd (apply_to change conf)) <= length q')%nat ->
  (exists id, id ∈ q /\ id ∈ q') /\
  apply_to change (snd (apply_to change conf)) = (false, snd (apply_to change conf)).
Proof.
  intros Hc Hn Hq Hl Hn' Hq' Hl'. split.
  - destruct (apply_to_quorums change conf (proj1 Hc)) as (u & Hu & Hu' & Hlen).
    apply (pigeonhole_meet q q' u); [done..|set_solver|set_solver|lia].
  - pose proof (apply_to_ok change conf) as Ok'.
    assert (snd (apply_to change (snd (apply_to change conf))) = snd (apply_to change conf)) as E.
    { apply conf_ok_ext; [apply apply_to_ok|done| |]; intros id.
      - rewrite !apply_to_voters. naive_solver.
      - rewrite !apply_to_learners by done. naive_solver. }
    rewrite <- E at 2. rewrite (surjective_pairing (apply_to change _)) at 1. f_equal.
    unfold apply_to at 1. cbn [fst]. apply bool_decide_eq_false. intros Hne. apply Hne. exact E.
Qed.

Lemma single_change_quorums_meet_witness :
  (exists id, id ∈ [1; 2]%N /\ id ∈ [2; 3; 4]%N) /\
  apply_to (ConfChange_new AddVoter 4) (from_voters [1; 2; 3; 4]%N) = (false, from_voters [1; 2; 3; 4]%N).
Proof.
  apply (single_change_quorums_meet (ConfChange_new AddVoter 4) (from_voters [3; 1; 2]%N) [1; 2]%N [2; 3; 4]%N).
  - apply normalize_ok.
  - apply (bool_decide_unpack _). vm_compute. exact I.
  - apply list_forall_subset. vm_compute. exact I.
  - apply Nat.leb_le. reflexivity.
  - apply (bool_decide_unpack _). vm_compute. exact I.
  - apply list_forall_subset. vm_compute. exact I.
  - apply Nat.leb_le. reflexivity.
Defined.

Lemma from_tag_tag k : from_tag (tag k) = Some k.
Proof. by destruct k. Qed.
Lemma tag_from_tag b k : from_tag b = Some k -> b = tag k.
Proof. destruct b; cbn; intros E; by simplify_eq. Qed.

(** The payload of a membership change is read back exactly
    when it was written by [encode], whatever the context carried after the
    nine header bytes; anything shorter or with another kind byte is an
    error. *)
Theorem conf_change_canonical data c :
  ConfChange_decode data = Ok c <-> (change_node c < two64)%N /\ data = ConfChange_encode c.
Proof.
  unfold ConfChange_decode, ConfChange_encode, HEADER_LEN. split.
  - case_match eqn:L; [done|]. apply Nat.ltb_ge in L. destruct data as [|b rest]; [done|]. cbn [length] in L.
    destruct (from_tag b) as [k|] eqn:E; [|done]. cbn [rbind ok_or].
    assert (forall a b, @Ok RaftError ConfChange a = Ok b -> a = b) as inj by congruence.
    intros <-%inj. cbn [change_kind change_node change_context]. apply tag_from_tag in E as ->.
    assert (length (take 8 rest) = 8%nat) as L8 by (rewrite length_take; lia).
    pose proof (le_value_lt (take 8 rest)) as Hlt. rewrite L8 in Hlt. split; [exact Hlt|].
    pose proof (le_bytes_value (take 8 rest)) as Eb. rewrite L8 in Eb.
    by rewrite Eb, take_drop.
  - intros [Hlt ->]. cbn [app length]. rewrite length_app, le_bytes_length.
    rewrite (proj2 (Nat.ltb_ge _ _)) by lia. cbn [ok_or]. rewrite from_tag_tag. cbn [rbind ok_or].
    rewrite take_app_length', drop_app_length' by by rewrite le_bytes_length.
    rewrite le_value_bytes by exact Hlt. by destruct c.
Qed.
