(* ===== verification/RaftStorage.v ===== *)
(** The log the Raft core reads: [esker-raft/src/storage.rs].

    The trait [LogStorage] as a class, its in-memory implementation
    [MemStorage], and the contract between the two: an abstract log (where it
    begins, and the entries after that), the answers the trait promises about
    it, and the theorem that [MemStorage] gives them and that its writes do to
    the abstract log what they say. *)

From Stdlib Require Import Strings.Byte.
From stdpp Require Import prelude.
From Stdlib Require Import NArith ZArith Lia.
From S2P Require Import Prelude RaftTypes.

Record InitialState : Type := mkInitialState { is_hard_state : HardState; is_conf_state : ConfState }.

(** The trait [LogStorage]: read access to the log and the durable state. *)
Class LogStorage (S : Type) : Type := {
  initial_state : S -> result RaftError InitialState;
  store_entries : S -> Index -> Index -> N -> result RaftError (list Entry);
  store_term : S -> Index -> result RaftError Term;
  store_first_index : S -> result RaftError Index;
  store_last_index : S -> result RaftError Index;
  store_snapshot : S -> result RaftError Snapshot }.

(** The loop of [entries] over its window: entries are taken while their total
    cost stays within [max_bytes], and the first is always taken. *)
Fixpoint take_budget (max_bytes budget : N) (out : list Entry) (window : list Entry) : list Entry :=
  match window with
  | [] => out
  | entry :: window =>
      let budget := sat_add budget (Entry_cost entry) in
      if (max_bytes <? budget)%N && negb (bool_decide (out = [])) then out
      else take_budget max_bytes budget (out ++ [entry]) window
  end.

(** ** The in-memory log *)

Record MemStorage : Type := mkMemStorage {
  mem_hard_state : HardState;
  mem_conf_state : ConfState;
  mem_snapshot : Snapshot;
  mem_entries : list Entry }.

Definition MemStorage_new : MemStorage := mkMemStorage HardState_default ConfState_default Snapshot_default [].
Definition with_conf_state (conf : ConfState) : MemStorage :=
  mkMemStorage HardState_default conf Snapshot_default [].

Definition compacted_index (s : MemStorage) : Index := meta_index (snap_meta (mem_snapshot s)).
Definition compacted_term (s : MemStorage) : Term := meta_term (snap_meta (mem_snapshot s)).
Definition mem_last (s : MemStorage) : Index := compacted_index s +% N.of_nat (length (mem_entries s)).

Definition set_entries (s : MemStorage) (entries : list Entry) : MemStorage :=
  mkMemStorage (mem_hard_state s) (mem_conf_state s) (mem_snapshot s) entries.

Definition MemStorage_append (s : MemStorage) (entries : list Entry) : result RaftError unit * MemStorage :=
  match entries with
  | [] => (Ok tt, s)
  | first :: _ =>
      let last := entry_index (List.last entries first) in
      if (last <=? compacted_index s)%N then (Ok tt, s) else
      if (mem_last s +% 1 <? entry_index first)%N then (Err (Unavailable (mem_last s +% 1)), s) else
      let skip :=
        if (entry_index first <=? compacted_index s)%N
        then offset (compacted_index s - entry_index first +% 1) else 0%nat in
      let kept := drop (Nat.min skip (length entries)) entries in
      match kept with
      | [] => (Ok tt, s)
      | first_kept :: _ =>
          let at_ := offset (entry_index first_kept -% compacted_index s -% 1) in
          (Ok tt, set_entries s (take at_ (mem_entries s) ++ kept))
      end
  end.

Definition set_hard_state (s : MemStorage) (hs : HardState) : MemStorage :=
  mkMemStorage hs (mem_conf_state s) (mem_snapshot s) (mem_entries s).
Definition set_conf_state (s : MemStorage) (conf : ConfState) : MemStorage :=
  mkMemStorage (mem_hard_state s) conf (mem_snapshot s) (mem_entries s).
Definition set_snapshot_data (s : MemStorage) (data : bytes) : MemStorage :=
  mkMemStorage (mem_hard_state s) (mem_conf_state s) (mkSnapshot (snap_meta (mem_snapshot s)) data) (mem_entries s).

Definition mem_term (s : MemStorage) (index : Index) : result RaftError Term :=
  if (index =? compacted_index s)%N then Ok (compacted_term s) else
  if (index <? compacted_index s)%N then Err (Compacted (compacted_index s)) else
  if (mem_last s <? index)%N then Err (Unavailable index) else
  ok_or (entry_term <$> mem_entries s !! offset (index - compacted_index s - 1)) (Unavailable index).

Definition apply_snapshot (s : MemStorage) (snapshot : Snapshot) : result RaftError unit * MemStorage :=
  let meta := snap_meta snapshot in
  if (meta_index meta <=? compacted_index s)%N
  then (Err (SnapshotOutOfDate (meta_index meta) (compacted_index s)), s) else
  let keeps_tail := is_ok_and (mem_term s (meta_index meta)) (fun term => (term =? meta_term meta)%N) in
  let entries :=
    if keeps_tail
    then drop (Nat.min (offset (meta_index meta - compacted_index s)) (length (mem_entries s))) (mem_entries s)
    else [] in
  let hs := mem_hard_state s in
  (Ok tt, mkMemStorage
            (mkHardState (hs_term hs) (hs_voted_for hs) (N.max (hs_commit hs) (meta_index meta)))
            (meta_conf meta) snapshot entries).

Definition compact (s : MemStorage) (to_index : Index) : result RaftError unit * MemStorage :=
  if (to_index <=? compacted_index s)%N then (Err (Compacted (compacted_index s)), s) else
  if (mem_last s <? to_index)%N then (Err (Unavailable to_index), s) else
  match mem_term s to_index with
  | Err e => (Err e, s)
  | Ok term =>
      let covered := Nat.min (offset (to_index - compacted_index s)) (length (mem_entries s)) in
      (Ok tt, mkMemStorage (mem_hard_state s) (mem_conf_state s)
                (mkSnapshot (mkSnapshotMeta to_index term (mem_conf_state s)) (snap_data (mem_snapshot s)))
                (drop covered (mem_entries s)))
  end.

Definition mem_range (s : MemStorage) (low high : Index) (max_bytes : N) : result RaftError (list Entry) :=
  if (low <=? compacted_index s)%N then Err (Compacted (compacted_index s)) else
  if (mem_last s +% 1 <? high)%N then Err (Unavailable (sat_sub high 1)) else
  if (high <=? low)%N then Ok [] else
  let start := offset (low - compacted_index s - 1) in
  let end_ := offset (high - compacted_index s - 1) in
  if (end_ <=? length (mem_entries s))%nat
  then Ok (take_budget max_bytes 0 [] (take (end_ - start) (drop start (mem_entries s))))
  else Err (Unavailable (high - 1)).

#[export] Instance MemStorage_log : LogStorage MemStorage := {
  initial_state s := Ok (mkInitialState (mem_hard_state s) (mem_conf_state s));
  store_entries := mem_range;
  store_term := mem_term;
  store_first_index s := Ok (compacted_index s +% 1);
  store_last_index s := Ok (mem_last s);
  store_snapshot s := Ok (mem_snapshot s) }.

(** ** The abstract log *)

(** A log that begins after [al_index], whose entry there had term [al_term]. *)
Record alog : Type := mkAlog { al_index : Index; al_term : Term; al_entries : list Entry }.

Definition al_last (a : alog) : Index := (al_index a + N.of_nat (length (al_entries a)))%N.

(** [numbered first l]: the entries of [l] carry the indices [first], [first + 1], ... *)
Definition numbered (first : Index) (l : list Entry) : Prop :=
  forall i e, l !! i = Some e -> entry_index e = (first + N.of_nat i)%N.

Definition alog_ok (a : alog) : Prop :=
  numbered (al_index a + 1) (al_entries a) /\ (al_last a + 1 < two64)%N.

(** The entry at an index, and the entries of a half-open range. *)
Definition al_entry (a : alog) (i : Index) : option Entry :=
  if (i <=? al_index a)%N then None else al_entries a !! N.to_nat (i - al_index a - 1).
Definition al_range (a : alog) (low high : Index) : list Entry :=
  take (N.to_nat (high - low)) (drop (N.to_nat (low - al_index a - 1)) (al_entries a)).

(** What the trait promises to answer about a log. *)
Definition al_get_term (a : alog) (i : Index) : result RaftError Term :=
  if (i =? al_index a)%N then Ok (al_term a) else
  if (i <? al_index a)%N then Err (Compacted (al_index a)) else
  ok_or (entry_term <$> al_entry a i) (Unavailable i).
Definition al_get_range (a : alog) (low high : Index) (max_bytes : N) : result RaftError (list Entry) :=
  if (low <=? al_index a)%N then Err (Compacted (al_index a)) else
  if (al_last a + 1 <? high)%N then Err (Unavailable (high - 1)) else
  Ok (take_budget max_bytes 0 [] (al_range a low high)).

(** The contract of a [LogStorage]: a well-formed abstract log behind every
    well-formed store, and the trait's answers about it. *)
Class LogStorageLaws (S : Type) `{LogStorage S} : Type := {
  log_ok : S -> Prop;
  log_view : S -> alog;
  log_view_ok s : log_ok s -> alog_ok (log_view s);
  log_first_index s : log_ok s -> store_first_index s = Ok (al_index (log_view s) + 1)%N;
  log_last_index s : log_ok s -> store_last_index s = Ok (al_last (log_view s));
  log_term s i : log_ok s -> store_term s i = al_get_term (log_view s) i;
  log_entries s low high max_bytes : log_ok s ->
    store_entries s low high max_bytes = al_get_range (log_view s) low high max_bytes;
  log_snapshot s snap : log_ok s -> store_snapshot s = Ok snap -> Snapshot_is_empty snap = false ->
    meta_index (snap_meta snap) = al_index (log_view s) /\ meta_term (snap_meta snap) = al_term (log_view s) }.

(** ** Numbered lists *)

Lemma numbered_nil n : numbered n [].
Proof. by intros i e. Qed.
Lemma numbered_app n l l' : numbered n (l ++ l') <-> numbered n l /\ numbered (n + N.of_nat (length l)) l'.
Proof.
  split.
  - intros H. split; intros i e Hi.
    + apply H. by apply lookup_app_l_Some.
    + rewrite <- N.add_assoc, <- Nat2N.inj_add. apply H. rewrite lookup_app_r by lia.
      by replace (length l + i - length l)%nat with i by lia.
  - intros [H H'] i e [Hi|[Hle Hi]]%lookup_app_Some; [by apply H|]. rewrite (H' _ _ Hi). lia.
Qed.
Lemma numbered_cons n e l : numbered n (e :: l) <-> entry_index e = n /\ numbered (n + 1) l.
Proof.
  rewrite (numbered_app n [e] l). split; intros [H1 H2]; (split; [|done]).
  - rewrite (H1 0%nat e eq_refl). lia.
  - intros [|i] e' E; [|done]. injection E as <-. lia.
Qed.
Lemma numbered_drop n l k : numbered n l -> (k <= length l)%nat -> numbered (n + N.of_nat k) (drop k l).
Proof.
  intros H Hk. rewrite <- (take_drop k l) in H. apply numbered_app in H as [_ H]. by rewrite length_take_le in H.
Qed.
Lemma numbered_take n l k : numbered n l -> numbered n (take k l).
Proof. intros H. rewrite <- (take_drop k l) in H. by apply numbered_app in H as [H _]. Qed.
Lemma numbered_last n l e d : l <> [] -> numbered n l -> e = List.last l d ->
  entry_index e = (n + N.of_nat (length l) - 1)%N.
Proof.
  intros Hne H ->. destruct (exists_last Hne) as (k & x & ->). rewrite List.last_last.
  rewrite (H (length k) x) by (rewrite lookup_app_r, Nat.sub_diag by lia; done). rewrite length_app. cbn. lia.
Qed.
#[export] Hint Resolve numbered_nil numbered_take : esker.

(** ** [MemStorage] keeps the contract *)

Definition mem_view (s : MemStorage) : alog := mkAlog (compacted_index s) (compacted_term s) (mem_entries s).
Definition mem_ok (s : MemStorage) : Prop := alog_ok (mem_view s).

Lemma mem_last_ok s : mem_ok s -> mem_last s = al_last (mem_view s).
Proof. intros [_ H]. unfold mem_last, al_last in *. cbn in *. apply wadd_small. lia. Qed.
Lemma mem_last_succ s : mem_ok s -> mem_last s +% 1 = (al_last (mem_view s) + 1)%N.
Proof. intros H. rewrite mem_last_ok by done. destruct H as [_ H]. apply wadd_small. lia. Qed.

Lemma mem_term_spec s i : mem_ok s -> mem_term s i = al_get_term (mem_view s) i.
Proof.
  intros H. unfold mem_term, al_get_term, al_entry. rewrite mem_last_ok by done. cbn [al_index al_term al_entries mem_view].
  destruct (N.eqb_spec i (compacted_index s)); [done|].
  destruct (N.ltb_spec i (compacted_index s)); [done|].
  rewrite (proj2 (N.leb_gt _ _)) by lia.
  destruct (N.ltb_spec (al_last (mem_view s)) i) as [L|L]; [|done].
  rewrite lookup_ge_None_2; [done|]. unfold al_last in L. cbn in L. lia.
Qed.

Lemma mem_range_spec s low high max_bytes : mem_ok s ->
  mem_range s low high max_bytes = al_get_range (mem_view s) low high max_bytes.
Proof.
  intros H. unfold mem_range, al_get_range, al_range. rewrite mem_last_succ by done.
  cbn [al_index al_entries mem_view]. unfold sat_sub.
  destruct (N.leb_spec low (compacted_index s)); [done|].
  destruct (N.ltb_spec (al_last (mem_view s) + 1) high) as [L|L]; [done|].
  destruct (N.leb_spec high low) as [L'|L'].
  - by replace (high - low)%N with 0%N by lia.
  - unfold offset, al_last in *. cbn in L. rewrite (proj2 (Nat.leb_le _ _)) by lia.
    by replace (N.to_nat (high - compacted_index s - 1) - N.to_nat (low - compacted_index s - 1))%nat
      with (N.to_nat (high - low)) by lia.
Qed.

#[export] Instance MemStorage_laws : LogStorageLaws MemStorage.
Proof.
  refine {| log_ok := mem_ok; log_view := mem_view |}; cbn.
  - done.
  - intros s [_ H]. f_equal. apply wadd_small. unfold al_last in H. cbn in H. lia.
  - intros s H. by rewrite mem_last_ok.
  - apply mem_term_spec.
  - apply mem_range_spec.
  - by intros s snap _ [= <-] _.
Defined.

(** ** What the writes do *)

(** [al_splice a first l]: [a] with [l], numbered from [first], written over it;
    what lies at or below the boundary is already in the snapshot. *)
Definition al_splice (a : alog) (first : Index) (l : list Entry) : alog :=
  mkAlog (al_index a) (al_term a)
    (take (N.to_nat (first - al_index a - 1)) (al_entries a) ++ drop (N.to_nat (al_index a + 1 - first)) l).

Lemma al_splice_ok a first l : alog_ok a -> numbered first l ->
  (first <= al_last a + 1)%N -> (al_index a < first + N.of_nat (length l))%N -> (first + N.of_nat (length l) < two64)%N ->
  alog_ok (al_splice a first l) /\ al_last (al_splice a first l) = (first + N.of_nat (length l) - 1)%N.
Proof.
  intros [Hn Hlt] Hl Hfirst Hlast Hmax. unfold al_last in *. unfold alog_ok, al_last, al_splice. cbn.
  rewrite length_app, length_take, length_drop.
  split; [split|].
  - apply numbered_app. split; [by apply numbered_take|]. rewrite length_take.
    replace (al_index a + 1 + N.of_nat (N.to_nat (first - al_index a - 1) `min` length (al_entries a)))%N
      with (first + N.of_nat (N.to_nat (al_index a + 1 - first)))%N by lia.
    apply numbered_drop; [done|lia].
  - lia.
  - lia.
Qed.

Lemma mem_append_spec s first l : mem_ok s -> numbered first l -> l <> [] ->
  (first <= al_last (mem_view s) + 1)%N -> (first + N.of_nat (length l) < two64)%N ->
  MemStorage_append s l =
    (Ok tt, if (first + N.of_nat (length l) - 1 <=? compacted_index s)%N then s
            else set_entries s (al_entries (al_splice (mem_view s) first l))).
Proof.
  intros Hs Hl Hne Hfirst Hmax. destruct l as [|e l]; [done|]. pose proof Hl as Hl'. apply numbered_cons in Hl' as [He _].
  assert (entry_index (List.last (e :: l) e) = first + N.of_nat (length (e :: l)) - 1)%N as Hlast by by eapply numbered_last.
  unfold MemStorage_append. rewrite Hlast, mem_last_succ, He by done. cbn [al_splice al_entries mem_view al_index al_term].
  destruct (N.leb_spec (first + N.of_nat (length (e :: l)) - 1) (compacted_index s)) as [L|L]; [done|].
  rewrite (proj2 (N.ltb_ge _ _)) by done.
  set (c := compacted_index s) in *.
  assert (Nat.min (if (first <=? c)%N then offset (c - first +% 1) else 0%nat) (length (e :: l))
          = N.to_nat (c + 1 - first)) as ->.
  { unfold offset. destruct (N.leb_spec first c); [rewrite wadd_small|]; lia. }
  assert (N.to_nat (c + 1 - first) < length (e :: l))%nat as Hk by (cbn in *; lia).
  destruct (drop (N.to_nat (c + 1 - first)) (e :: l)) as [|e' k] eqn:E.
  { apply (f_equal length) in E. rewrite length_drop in E. cbn in *. lia. }
  assert (numbered (first + N.of_nat (N.to_nat (c + 1 - first))) (e' :: k)) as Hk'.
  { rewrite <- E. apply numbered_drop; [done|lia]. }
  apply numbered_cons in Hk' as [He' _]. rewrite He'. unfold offset.
  rewrite !wsub_small by (rewrite ?wsub_small; lia).
  do 3 f_equal. f_equal. lia.
Qed.

Lemma mem_compact_spec s to_index : mem_ok s -> (compacted_index s < to_index <= al_last (mem_view s))%N ->
  exists s', compact s to_index = (Ok tt, s') /\ mem_ok s' /\
    mem_hard_state s' = mem_hard_state s /\ al_last (mem_view s') = al_last (mem_view s) /\
    (forall i, (to_index <= i)%N -> mem_term s' i = mem_term s i) /\
    (forall low high max_bytes, (to_index < low)%N -> mem_range s' low high max_bytes = mem_range s low high max_bytes) /\
    (forall i, (i < to_index)%N -> mem_term s' i = Err (Compacted to_index)).
Proof.
  intros Hs [Hlo Hhi]. unfold compact. rewrite (proj2 (N.leb_gt _ _)) by done.
  rewrite mem_last_ok, (proj2 (N.ltb_ge _ _)) by done. rewrite mem_term_spec by done.
  unfold al_get_term. cbn [mem_view al_index].
  rewrite (proj2 (N.eqb_neq _ _)), (proj2 (N.ltb_ge _ _)) by lia.
  unfold al_entry. cbn [mem_view al_index al_entries]. rewrite (proj2 (N.leb_gt _ _)) by lia.
  unfold al_last in Hhi. cbn in Hhi.
  destruct (lookup_lt_is_Some_2 (mem_entries s) (N.to_nat (to_index - compacted_index s - 1))) as [e He]; [lia|].
  rewrite He. cbn [fmap option_fmap option_map ok_or].
  set (s' := mkMemStorage _ _ _ _). exists s'.
  assert (mem_view s' = mkAlog to_index (entry_term e) (drop (N.to_nat (to_index - compacted_index s)) (mem_entries s))) as Hv.
  { unfold mem_view, s', compacted_index, compacted_term, offset. cbn. do 2 f_equal. fold (compacted_index s). lia. }
  assert (al_last (mem_view s') = al_last (mem_view s)) as Hlast.
  { rewrite Hv. unfold al_last. cbn. rewrite length_drop. lia. }
  assert (mem_ok s') as Hs'.
  { destruct Hs as [Hn Hm]. split; [|by rewrite Hlast]. rewrite Hv. cbn.
    replace (to_index + 1)%N with (compacted_index s + 1 + N.of_nat (N.to_nat (to_index - compacted_index s)))%N by lia.
    apply numbered_drop; [exact Hn|lia]. }
  split; [done|]. split; [done|]. split; [done|]. split; [done|]. split; [|split].
  - intros i Hi. rewrite !mem_term_spec by done. rewrite Hv. unfold al_get_term, al_entry. cbn [mem_view al_index al_term al_entries].
    rewrite (proj2 (N.eqb_neq i (compacted_index s))), !(proj2 (N.ltb_ge _ _)), (proj2 (N.leb_gt i (compacted_index s))) by lia.
    destruct (N.eqb_spec i to_index) as [->|Hne]; [by rewrite He|].
    rewrite (proj2 (N.leb_gt _ _)) by lia. rewrite lookup_drop. do 3 f_equal. lia.
  - intros low high max_bytes Hlow. rewrite !mem_range_spec by done. unfold al_get_range. rewrite Hlast, Hv.
    cbn [mem_view al_index]. rewrite !(proj2 (N.leb_gt _ _)) by lia. case_match; [done|].
    unfold al_range. cbn [mem_view al_index al_entries]. rewrite drop_drop. do 4 f_equal. lia.
  - intros i Hi. rewrite mem_term_spec by done. rewrite Hv. unfold al_get_term. cbn.
    rewrite (proj2 (N.eqb_neq _ _)), (proj2 (N.ltb_lt _ _)) by lia. done.
Qed.

Lemma al_splice_entry a first l i : (first <= al_last a + 1)%N -> (al_index a < i)%N ->
  al_entry (al_splice a first l) i = if (i <? first)%N then al_entry a i else l !! N.to_nat (i - first).
Proof.
  intros Hf Hi. unfold al_entry, al_splice. cbn [al_index al_entries].
  rewrite (proj2 (N.leb_gt _ _)) by done. unfold al_last in Hf.
  destruct (N.ltb_spec i first) as [L|L].
  - rewrite lookup_app_l by (rewrite length_take; lia). by rewrite lookup_take_lt by lia.
  - rewrite lookup_app_r by (rewrite length_take; lia). rewrite length_take, lookup_drop. f_equal. lia.
Qed.

(** Writing a numbered batch to the in-memory log.  A batch that
    continues or overlaps the log replaces it from the batch's first index on,
    except for what the snapshot already covers, and leaves everything below
    untouched; a batch that would leave a hole is refused and changes
    nothing; a batch the snapshot covers entirely is dropped. *)
Theorem mem_append_contract s first l : mem_ok s -> numbered first l -> l <> [] ->
  (first + N.of_nat (length l) < two64)%N ->
  let last := (first + N.of_nat (length l) - 1)%N in
  if (last <=? compacted_index s)%N then MemStorage_append s l = (Ok tt, s)
  else if (al_last (mem_view s) + 1 <? first)%N
  then MemStorage_append s l = (Err (Unavailable (al_last (mem_view s) + 1)), s)
  else exists s', MemStorage_append s l = (Ok tt, s') /\ mem_ok s' /\
    al_index (mem_view s') = al_index (mem_view s) /\ al_last (mem_view s') = last /\
    forall i, (al_index (mem_view s) < i)%N ->
      al_entry (mem_view s') i = if (i <? first)%N then al_entry (mem_view s) i else l !! N.to_nat (i - first).
Proof.
  intros Hs Hl Hne Hmax last. destruct (N.ltb_spec (al_last (mem_view s) + 1) first) as [H|H].
  - destruct l as [|e l]; [done|]. pose proof Hl as Hl'. apply numbered_cons in Hl' as [He _].
    unfold MemStorage_append. rewrite (numbered_last first (e :: l) _ e Hne Hl eq_refl). fold last.
    case_match; [done|]. rewrite mem_last_succ, He, (proj2 (N.ltb_lt _ _)) by done. done.
  - rewrite (mem_append_spec s first l Hs Hl Hne H Hmax). fold last.
    case_match eqn:L; [done|]. apply N.leb_gt in L. eexists. split; [done|].
    assert (al_index (mem_view s) < first + N.of_nat (length l))%N as L'.
    { unfold mem_view; cbn. destruct l; [done|cbn in *]. lia. }
    destruct (al_splice_ok (mem_view s) first l Hs Hl H L' Hmax) as [Hok Hlast].
    split; [exact Hok|]. split; [done|]. split; [exact Hlast|].
    intros i Hi. exact (al_splice_entry (mem_view s) first l i H Hi).
Qed.

(** Discarding a prefix moves the boundary, remembers the term
    there, and changes no answer about anything above it; the durable state
    stays as it was, and every question below the boundary is answered
    [Compacted]. *)
Theorem mem_compact_contract s to_index : mem_ok s -> (compacted_index s < to_index <= al_last (mem_view s))%N ->
  exists s', compact s to_index = (Ok tt, s') /\ mem_ok s' /\
    mem_hard_state s' = mem_hard_state s /\ al_last (mem_view s') = al_last (mem_view s) /\
    (forall i, (to_index <= i)%N -> mem_term s' i = mem_term s i) /\
    (forall low high max_bytes, (to_index < low)%N -> mem_range s' low high max_bytes = mem_range s low high max_bytes) /\
    (forall i, (i < to_index)%N -> mem_term s' i = Err (Compacted to_index)).
Proof. apply mem_compact_spec. Qed.

(** A log of three entries after a snapshot at index 4. *)
Definition example_log : MemStorage :=
  mkMemStorage (mkHardState 3 (Some 1%N) 5) (from_voters [1; 2; 3]%N)
    (mkSnapshot (mkSnapshotMeta 4 2 (from_voters [1; 2; 3]%N)) [])
    [Entry_empty 2 5; Entry_empty 3 6; Entry_empty 3 7].

Lemma example_log_ok : mem_ok example_log.
Proof. split; [|reflexivity]. intros [|[|[|i]]] e E; [..|done]; by injection E as <-. Qed.

Lemma mem_append_contract_witness :
  exists s', MemStorage_append example_log [Entry_empty 4 6] = (Ok tt, s') /\ mem_ok s' /\
    al_index (mem_view s') = 4%N /\ al_last (mem_view s') = 6%N /\
    forall i, (4 < i)%N ->
      al_entry (mem_view s') i = if (i <? 6)%N then al_entry (mem_view example_log) i else [Entry_empty 4 6] !! N.to_nat (i - 6).
Proof.
  apply (mem_append_contract example_log 6 [Entry_empty 4 6] example_log_ok); [|done|reflexivity].
  intros [|i] e E; [|done]. by injection E as <-.
Defined.

Lemma mem_compact_contract_witness :
  exists s', compact example_log 6 = (Ok tt, s') /\ mem_ok s' /\
    mem_hard_state s' = mem_hard_state example_log /\ al_last (mem_view s') = al_last (mem_view example_log) /\
    (forall i, (6 <= i)%N -> mem_term s' i = mem_term example_log i) /\
    (forall low high max_bytes, (6 < low)%N -> mem_range s' low high max_bytes = mem_range example_log low high max_bytes) /\
    (forall i, (i < 6)%N -> mem_term s' i = Err (Compacted 6)).
Proof. apply (mem_compact_contract example_log 6 example_log_ok). vm_compute. split; [reflexivity|discriminate]. Defined.
