(* ===== verification/RaftLog.v ===== *)
(** The log as the Raft core sees it: [esker-raft/src/log.rs].

    A durable prefix in a [LogStorage] and the tail that is decided but not
    yet written.  The abstraction is one log ([rl_view]); the theorems say that
    every read answers about that log, that a follower's append makes it agree
    with the leader's without touching anything committed, and that handing
    the tail to the driver and taking its word for it changes no answer. *)

From Stdlib Require Import Strings.Byte.
From stdpp Require Import prelude.
From Stdlib Require Import NArith ZArith Lia.
From S2P Require Import Prelude RaftTypes RaftStorage.

Record AppendOutcome : Type := mkAppendOutcome {
  ao_last : Index;
  ao_spliced_from : option Index;
  ao_truncated : bool }.

Record RaftLog (S : Type) : Type := mkRaftLog {
  rl_store : S;
  rl_unstable : list Entry;
  rl_unstable_offset : Index;
  rl_unstable_snapshot : option Snapshot;
  rl_committed : Index;
  rl_applied : Index }.
Arguments mkRaftLog {S} _ _ _ _ _ _.
Arguments rl_store {S} _.
Arguments rl_unstable {S} _.
Arguments rl_unstable_offset {S} _.
Arguments rl_unstable_snapshot {S} _.
Arguments rl_committed {S} _.
Arguments rl_applied {S} _.

Definition rl_set_store {S} (l : RaftLog S) (s : S) : RaftLog S :=
  mkRaftLog s (rl_unstable l) (rl_unstable_offset l) (rl_unstable_snapshot l) (rl_committed l) (rl_applied l).
Definition rl_set_tail {S} (l : RaftLog S) (offset : Index) (tail : list Entry) : RaftLog S :=
  mkRaftLog (rl_store l) tail offset (rl_unstable_snapshot l) (rl_committed l) (rl_applied l).
Definition rl_set_committed {S} (l : RaftLog S) (index : Index) : RaftLog S :=
  mkRaftLog (rl_store l) (rl_unstable l) (rl_unstable_offset l) (rl_unstable_snapshot l) index (rl_applied l).

Section Log.
Context {S : Type} `{LogStorage S}.
Implicit Types l : RaftLog S.

Definition RaftLog_new (store : S) (applied : Index) : result RaftError (RaftLog S) :=
  let? last := store_last_index store in
  let? initial := initial_state store in
  let? first := store_first_index store in
  let applied := N.max applied (sat_sub first 1) in
  Ok (mkRaftLog store [] (last +% 1) None (N.max (hs_commit (is_hard_state initial)) (sat_sub first 1)) applied).

Definition rl_first_index l : result RaftError Index :=
  match rl_unstable_snapshot l with
  | Some snapshot => Ok (meta_index (snap_meta snapshot) +% 1)
  | None => store_first_index (rl_store l)
  end.

Definition rl_last_index l : result RaftError Index :=
  match last (rl_unstable l) with
  | Some e => Ok (entry_index e)
  | None =>
      match rl_unstable_snapshot l with
      | Some snapshot => Ok (meta_index (snap_meta snapshot))
      | None => store_last_index (rl_store l)
      end
  end.

Definition rl_term l (index : Index) : result RaftError Term :=
  if (rl_unstable_offset l <=? index)%N
  then ok_or (entry_term <$> rl_unstable l !! offset (index - rl_unstable_offset l)) (Unavailable index)
  else
    match rl_unstable_snapshot l with
    | Some snapshot =>
        if (index =? meta_index (snap_meta snapshot))%N then Ok (meta_term (snap_meta snapshot)) else
        if (index <? meta_index (snap_meta snapshot))%N then Err (Compacted (meta_index (snap_meta snapshot))) else
        store_term (rl_store l) index
    | None => store_term (rl_store l) index
    end.

Definition last_term l : Term := unwrap_or (rbind (rl_last_index l) (rl_term l)) 0%N.

Definition is_up_to_date l (last_index : Index) (last_log_term : Term) : bool :=
  (last_term l <? last_log_term)%N ||
  ((last_log_term =? last_term l)%N && (unwrap_or (rl_last_index l) 0%N <=? last_index)%N).

Definition rl_matches l (index : Index) (term : Term) : bool :=
  is_ok_and (rl_term l index) (fun own => (own =? term)%N).

Definition truncate_and_append l (entries : list Entry) : RaftLog S :=
  match entries with
  | [] => l
  | e :: _ =>
      let first := entry_index e in
      if (rl_unstable_offset l +% N.of_nat (length (rl_unstable l)) <=? first)%N
      then rl_set_tail l (if bool_decide (rl_unstable l = []) then first else rl_unstable_offset l)
             (rl_unstable l ++ entries)
      else if (first <=? rl_unstable_offset l)%N then rl_set_tail l first entries
      else rl_set_tail l (rl_unstable_offset l)
             (take (offset (first - rl_unstable_offset l)) (rl_unstable l) ++ entries)
  end.

(** [RaftLog::append]: the leader's path. *)
Definition rl_append l (entries : list Entry) : result RaftError Index * RaftLog S :=
  match entries with
  | [] => (rl_last_index l, l)
  | _ => let l := truncate_and_append l entries in (rl_last_index l, l)
  end.

(** The loop of [find_conflict], from position [at_]. *)
Fixpoint find_conflict_loop l (last : Index) (at_ : nat) (entries : list Entry) : option (nat * Index) :=
  match entries with
  | [] => None
  | entry :: entries =>
      if (last <? entry_index entry)%N then Some (at_, entry_index entry) else
      match rl_term l (entry_index entry) with
      | Ok term =>
          if (term =? entry_term entry)%N then find_conflict_loop l last (Datatypes.S at_) entries
          else Some (at_, entry_index entry)
      | Err e =>
          if is_compacted e then find_conflict_loop l last (Datatypes.S at_) entries
          else Some (at_, entry_index entry)
      end
  end.
Definition find_conflict l (entries : list Entry) : result RaftError (option (nat * Index)) :=
  let? last := rl_last_index l in
  Ok (find_conflict_loop l last 0 entries).

Definition rl_commit_to l (index : Index) : result RaftError unit * RaftLog S :=
  if (index <=? rl_committed l)%N then (Ok tt, l) else
  match rl_last_index l with
  | Err e => (Err e, l)
  | Ok last => if (last <? index)%N then (Err (Unavailable index), l) else (Ok tt, rl_set_committed l index)
  end.

Definition maybe_append l (prev_index : Index) (prev_term : Term) (committed : Index) (entries : list Entry)
    : result RaftError (option AppendOutcome) * RaftLog S :=
  if negb (rl_matches l prev_index prev_term) then (Ok None, l) else
  let last_new := from_option entry_index prev_index (last entries) in
  match find_conflict l entries with
  | Err e => (Err e, l)
  | Ok conflict =>
      let finish (l : RaftLog S) (spliced_from : option Index) (truncated : bool) :=
        let '(r, l) := rl_commit_to l (N.min committed last_new) in
        (rmap (fun _ => Some (mkAppendOutcome last_new spliced_from truncated)) r, l) in
      match conflict with
      | None => finish l None false
      | Some (at_, conflict) =>
          if (conflict <=? rl_committed l)%N then (Err (Storage (AppendConflict conflict (rl_committed l))), l) else
          match rl_last_index l with
          | Err e => (Err e, l)
          | Ok own_last =>
              finish (truncate_and_append l (drop at_ entries)) (Some conflict) (conflict <=? own_last)%N
          end
      end
  end.

(** The loop of [slice] over the unstable part, [n] indices from [index]. *)
Fixpoint slice_loop l (max_bytes budget : N) (out : list Entry) (index : Index) (n : nat) : result RaftError (list Entry) :=
  match n with
  | O => Ok out
  | Datatypes.S n =>
      match rl_unstable l !! offset (index - rl_unstable_offset l) with
      | None => Err (Unavailable index)
      | Some entry =>
          let budget := sat_add budget (Entry_cost entry) in
          if (max_bytes <? budget)%N && negb (bool_decide (out = [])) then Ok out
          else slice_loop l max_bytes budget (out ++ [entry]) (index +% 1) n
      end
  end.

Definition total_cost (entries : list Entry) : N := foldl (fun sum e => sum +% Entry_cost e) 0%N entries.

Definition rl_slice l (low high : Index) (max_bytes : N) : result RaftError (list Entry) :=
  if (high <=? low)%N then Ok [] else
  let unstable_low := N.max low (rl_unstable_offset l) in
  let rest budget out := slice_loop l max_bytes budget out unstable_low (N.to_nat (high - unstable_low)) in
  if (low <? rl_unstable_offset l)%N then
    let stable_high := N.min high (rl_unstable_offset l) in
    let? out := store_entries (rl_store l) low stable_high max_bytes in
    if negb (N.of_nat (length out) =? stable_high - low)%N then Ok out
    else rest (total_cost out) out
  else rest 0%N [].

Definition next_committed l (max_bytes : N) : result RaftError (list Entry) :=
  if (rl_committed l <=? rl_applied l)%N then Ok []
  else rl_slice l (rl_applied l +% 1) (rl_committed l +% 1) max_bytes.

Definition stable_to l (index : Index) (term : Term) : RaftLog S :=
  if negb (rl_matches l index term) then l else
  if (index <? rl_unstable_offset l)%N then l else
  let consumed := offset (index +% 1 -% rl_unstable_offset l) in
  if (length (rl_unstable l) <=? consumed)%nat then rl_set_tail l (index +% 1) []
  else rl_set_tail l (index +% 1) (drop consumed (rl_unstable l)).

Definition stable_snapshot_to l (index : Index) : RaftLog S :=
  match rl_unstable_snapshot l with
  | Some snapshot =>
      if (meta_index (snap_meta snapshot) =? index)%N
      then mkRaftLog (rl_store l) (rl_unstable l) (rl_unstable_offset l) None (rl_committed l) (rl_applied l)
      else l
  | None => l
  end.

Definition applied_to l (index : Index) : RaftLog S :=
  mkRaftLog (rl_store l) (rl_unstable l) (rl_unstable_offset l) (rl_unstable_snapshot l) (rl_committed l)
    (N.min (N.max (rl_applied l) index) (rl_committed l)).

Definition should_restore l (snapshot : Snapshot) : bool :=
  if (meta_index (snap_meta snapshot) =? u64_max)%N then false else
  if (meta_index (snap_meta snapshot) <=? rl_committed l)%N then false else
  negb (rl_matches l (meta_index (snap_meta snapshot)) (meta_term (snap_meta snapshot))).

Definition rl_restore l (snapshot : Snapshot) : RaftLog S :=
  let index := meta_index (snap_meta snapshot) in
  mkRaftLog (rl_store l) [] (sat_add index 1) (Some snapshot) index (N.max (rl_applied l) index).

Definition rl_snapshot l : result RaftError Snapshot :=
  match rl_unstable_snapshot l with
  | Some snapshot => Ok snapshot
  | None => store_snapshot (rl_store l)
  end.
End Log.

(** ** The one log behind the two parts *)

Section LogSpec.
Context {S : Type} `{LogStorageLaws S}.
Implicit Types l : RaftLog S.

Definition rl_view l : alog :=
  match rl_unstable_snapshot l with
  | Some snapshot => mkAlog (meta_index (snap_meta snapshot)) (meta_term (snap_meta snapshot)) (rl_unstable l)
  | None =>
      let a := log_view (rl_store l) in
      mkAlog (al_index a) (al_term a)
        (take (N.to_nat (rl_unstable_offset l - al_index a - 1)) (al_entries a) ++ rl_unstable l)
  end.

(** The seam is where it should be: the tail continues what lies below it. *)
Definition tail_ok l : Prop :=
  log_ok (rl_store l) /\ numbered (rl_unstable_offset l) (rl_unstable l) /\
  (rl_unstable_offset l + N.of_nat (length (rl_unstable l)) < two64)%N /\
  match rl_unstable_snapshot l with
  | Some snapshot => rl_unstable_offset l = (meta_index (snap_meta snapshot) + 1)%N
  | None =>
      (al_index (log_view (rl_store l)) < rl_unstable_offset l <= al_last (log_view (rl_store l)) + 1)%N /\
      (rl_unstable l = [] -> rl_unstable_offset l = al_last (log_view (rl_store l)) + 1)%N
  end.

Definition rlog_ok l : Prop :=
  tail_ok l /\ (al_index (rl_view l) <= rl_applied l)%N /\ (rl_applied l <= rl_committed l <= al_last (rl_view l))%N.

Lemma view_last l : tail_ok l -> al_last (rl_view l) = (rl_unstable_offset l + N.of_nat (length (rl_unstable l)) - 1)%N.
Proof.
  intros (_ & _ & _ & Hs). unfold al_last, rl_view in *. destruct (rl_unstable_snapshot l) as [snap|]; cbn.
  - lia.
  - rewrite length_app, length_take. destruct Hs as [Hs _]. lia.
Qed.

Lemma view_index_lt l : tail_ok l -> (al_index (rl_view l) < rl_unstable_offset l)%N.
Proof. intros (_ & _ & _ & Hs). unfold rl_view. destruct (rl_unstable_snapshot l); cbn; lia. Qed.

Lemma view_ok l : tail_ok l -> alog_ok (rl_view l).
Proof.
  intros Ht. pose proof (view_last l Ht) as Hl. pose proof (view_index_lt l Ht) as Hi.
  destruct Ht as (Hs & Hn & Hlt & Hoff). split; [|lia]. clear Hl.
  unfold rl_view in *. destruct (rl_unstable_snapshot l) as [snap|]; cbn in *; [by rewrite <- Hoff|].
  destruct (log_view_ok (rl_store l) Hs) as [Hna _]. apply numbered_app. split; [by apply numbered_take|].
  rewrite length_take. unfold al_last in Hoff.
  replace (_ + 1 + N.of_nat _)%N with (rl_unstable_offset l) by lia. done.
Qed.

Lemma first_index_spec l : tail_ok l -> rl_first_index l = Ok (al_index (rl_view l) + 1)%N.
Proof.
  intros (Hs & _ & Hlt & Hoff). unfold rl_first_index, rl_view.
  destruct (rl_unstable_snapshot l) as [snap|]; cbn.
  - f_equal. apply wadd_small. lia.
  - by apply log_first_index.
Qed.

Lemma last_index_spec l : tail_ok l -> rl_last_index l = Ok (al_last (rl_view l)).
Proof.
  intros Ht. pose proof (view_last l Ht) as Hl. destruct Ht as (Hs & Hn & Hlt & Hoff). unfold rl_last_index.
  destruct (rl_unstable l) as [|e u _] eqn:Eu using rev_ind.
  - cbn in *. destruct (rl_unstable_snapshot l) as [snap|]; [f_equal; lia|].
    rewrite log_last_index by done. f_equal. destruct Hoff as [_ Hoff]. specialize (Hoff eq_refl). lia.
  - rewrite last_snoc. f_equal. rewrite Hl, length_app. cbn.
    rewrite (Hn (length u) e); [lia|]. by rewrite lookup_app_r, Nat.sub_diag by lia.
Qed.

Lemma term_spec l i : tail_ok l -> rl_term l i = al_get_term (rl_view l) i.
Proof.
  intros Ht. pose proof (view_index_lt l Ht) as Hi. destruct Ht as (Hs & Hn & Hlt & Hoff).
  unfold rl_term, al_get_term, al_entry.
  destruct (N.leb_spec (rl_unstable_offset l) i) as [Ho|Ho].
  - rewrite (proj2 (N.eqb_neq _ _)), (proj2 (N.ltb_ge _ _)), (proj2 (N.leb_gt _ _)) by lia.
    do 2 f_equal. unfold rl_view, offset in *. destruct (rl_unstable_snapshot l) as [snap|]; cbn in *.
    + f_equal. lia.
    + destruct Hoff as [Hoff _]. unfold al_last in Hoff.
      rewrite lookup_app_r by (rewrite length_take; lia). rewrite length_take. f_equal. lia.
  - unfold rl_view in *. destruct (rl_unstable_snapshot l) as [snap|]; cbn [al_index al_term al_entries] in *.
    + destruct (N.eqb_spec i (meta_index (snap_meta snap))); [done|].
      rewrite (proj2 (N.ltb_lt _ _)) by lia. done.
    + rewrite log_term by done. unfold al_get_term, al_entry.
      destruct (N.eqb_spec i (al_index (log_view (rl_store l)))); [done|].
      destruct (N.ltb_spec i (al_index (log_view (rl_store l)))); [done|].
      rewrite (proj2 (N.leb_gt _ _)) by lia. do 2 f_equal.
      destruct Hoff as [Hoff _]. unfold al_last in Hoff.
      rewrite lookup_app_l by (rewrite length_take; lia). by rewrite lookup_take_lt by lia.
Qed.

Lemma matches_spec l i t : tail_ok l -> rl_matches l i t = true <-> al_get_term (rl_view l) i = Ok t.
Proof.
  intros Ht. unfold rl_matches. rewrite term_spec by done. destruct (al_get_term (rl_view l) i) as [t'|]; cbn; [|done].
  rewrite N.eqb_eq. split; [by intros ->|by intros [= ->]].
Qed.

Lemma al_get_term_bounds (a : alog) i t : al_get_term a i = Ok t -> (al_index a <= i <= al_last a)%N.
Proof.
  unfold al_get_term, al_entry, al_last. destruct (N.eqb_spec i (al_index a)) as [->|]; [lia|].
  destruct (N.ltb_spec i (al_index a)); [done|]. rewrite (proj2 (N.leb_gt _ _)) by lia.
  destruct (_ !! _) as [e|] eqn:E; [|done]. apply lookup_lt_Some in E. lia.
Qed.

Lemma truncate_and_append_spec l k es : tail_ok l -> numbered k es -> es <> [] ->
  (al_index (rl_view l) < k <= al_last (rl_view l) + 1)%N -> (k + N.of_nat (length es) < two64)%N ->
  tail_ok (truncate_and_append l es) /\ rl_view (truncate_and_append l es) = al_splice (rl_view l) k es.
Proof.
  intros Ht Hn Hne Hk Hmax. pose proof (view_index_lt l Ht) as Hpos. rewrite (view_last l Ht) in Hk.
  assert (al_index (rl_view l) < k <= rl_unstable_offset l + N.of_nat (length (rl_unstable l)))%N as Hk' by lia.
  clear Hk. rename Hk' into Hk. destruct Ht as (Hs & Hu & Hlt & Hoff). unfold truncate_and_append. destruct es as [|e es]; [done|].
  pose proof (proj1 (numbered_cons _ _ _) Hn) as [He _]. rewrite He, wadd_small by done.
  unfold al_splice, tail_ok, rl_view in *.
  destruct (N.leb_spec (rl_unstable_offset l + N.of_nat (length (rl_unstable l))) k) as [L|L].
  - assert (k = rl_unstable_offset l + N.of_nat (length (rl_unstable l)))%N as -> by lia.
    assert ((if bool_decide (rl_unstable l = []) then rl_unstable_offset l + N.of_nat (length (rl_unstable l))
             else rl_unstable_offset l) = rl_unstable_offset l)%N as ->.
    { case_bool_decide as E; [rewrite E; cbn; lia|done]. }
    cbn [rl_set_tail rl_store rl_unstable rl_unstable_offset rl_unstable_snapshot].
    split; [split; [done|]; split; [by apply numbered_app|]; split; [rewrite length_app; lia|]|].
    + destruct (rl_unstable_snapshot l); [done|]. destruct Hoff as [Hoff _]. split; [done|].
      intros E. by apply app_eq_nil in E as [_ ?].
    + destruct (rl_unstable_snapshot l) as [snap|]; cbn [al_index al_term al_entries] in *; f_equal.
      * rewrite take_ge by lia. by replace (N.to_nat _) with 0%nat by lia.
      * destruct Hoff as [Hoff _]. unfold al_last in Hoff.
        rewrite (take_ge (_ ++ _)) by (rewrite length_app, length_take; lia).
        replace (N.to_nat (_ + 1 - _)) with 0%nat by lia. by rewrite app_assoc.
  - destruct (N.leb_spec k (rl_unstable_offset l)) as [L'|L'];
      cbn [rl_set_tail rl_store rl_unstable rl_unstable_offset rl_unstable_snapshot].
    + split; [split; [done|]; split; [done|]; split; [done|]|].
      * destruct (rl_unstable_snapshot l); cbn in *; [lia|]. destruct Hoff as [Hoff _]. split; [lia|done].
      * destruct (rl_unstable_snapshot l) as [snap|]; cbn [al_index al_term al_entries] in *; f_equal.
        -- replace (N.to_nat _) with 0%nat by lia. by replace (N.to_nat _) with 0%nat by lia.
        -- destruct Hoff as [Hoff _]. unfold al_last in Hoff.
           replace (N.to_nat (_ + 1 - _)) with 0%nat by lia.
           rewrite take_app_le by (rewrite length_take; lia). rewrite take_take. do 2 f_equal. lia.
    + split; [split; [done|]; split; [|split]|].
      * apply numbered_app. split; [by apply numbered_take|]. rewrite length_take. unfold offset.
        by replace (_ + N.of_nat _)%N with k by lia.
      * rewrite length_app, length_take. unfold offset. lia.
      * destruct (rl_unstable_snapshot l); cbn in *; [lia|]. destruct Hoff as [Hoff _]. split; [done|].
        intros E. by apply app_eq_nil in E as [_ ?].
      * unfold offset. destruct (rl_unstable_snapshot l) as [snap|]; cbn [al_index al_term al_entries] in *; f_equal.
        -- rewrite Hoff. replace (N.to_nat (_ + 1 - _)) with 0%nat by lia. do 3 f_equal. lia.
        -- destruct Hoff as [Hoff _]. unfold al_last in Hoff.
           replace (N.to_nat (_ + 1 - _)) with 0%nat by lia. cbn [drop].
           rewrite app_assoc. f_equal.
           rewrite take_app_ge by (rewrite length_take; lia). f_equal. rewrite length_take. f_equal. lia.
Qed.

(** ** The follower's append *)

Definition agrees (a : alog) (es : list Entry) : Prop :=
  Forall (fun e => al_get_term a (entry_index e) = Ok (entry_term e)) es.

Lemma find_conflict_loop_spec l es k at_ : tail_ok l -> numbered k es -> (al_index (rl_view l) < k)%N ->
  match find_conflict_loop l (al_last (rl_view l)) at_ es with
  | None => agrees (rl_view l) es
  | Some (p, i) => exists j e, p = (at_ + j)%nat /\ i = (k + N.of_nat j)%N /\ es !! j = Some e /\
      agrees (rl_view l) (take j es) /\ al_get_term (rl_view l) i <> Ok (entry_term e)
  end.
Proof.
  intros Ht. revert k at_; induction es as [|e es IH]; intros k at_ Hn Hk; [constructor|].
  apply numbered_cons in Hn as [He Hn]. cbn [find_conflict_loop]. rewrite He.
  destruct (N.ltb_spec (al_last (rl_view l)) k) as [L|L].
  { exists 0%nat, e. split; [lia|]. split; [lia|]. split; [done|]. split; [constructor|].
    intros E%al_get_term_bounds. lia. }
  rewrite term_spec by done. destruct (al_get_term (rl_view l) k) as [t|err] eqn:Et.
  - destruct (N.eqb_spec t (entry_term e)) as [->|Hne].
    + specialize (IH (k + 1)%N (Datatypes.S at_) Hn). destruct (find_conflict_loop _ _ _ _) as [[p i]|].
      * destruct IH as (j & e' & -> & -> & Hj & Ha & Hd); [lia|]. exists (Datatypes.S j), e'.
        split; [lia|]. split; [lia|]. split; [done|]. split; [|done]. constructor; [by rewrite He|done].
      * constructor; [by rewrite He|]. apply IH. lia.
    + exists 0%nat, e. split; [lia|]. split; [lia|]. split; [done|]. split; [constructor|].
      replace (k + N.of_nat 0)%N with k by lia. rewrite Et. congruence.
  - assert (is_compacted err = false) as ->.
    { unfold al_get_term in Et. rewrite (proj2 (N.eqb_neq _ _)), (proj2 (N.ltb_ge _ _)) in Et by lia.
      destruct (_ <$> _); [done|]. by injection Et as <-. }
    exists 0%nat, e. split; [lia|]. split; [lia|]. split; [done|]. split; [constructor|].
    replace (k + N.of_nat 0)%N with k by lia. by rewrite Et.
Qed.

Lemma find_conflict_spec l es k : tail_ok l -> numbered k es -> (al_index (rl_view l) < k)%N ->
  match find_conflict l es with
  | Ok None => agrees (rl_view l) es
  | Ok (Some (j, i)) => exists e, i = (k + N.of_nat j)%N /\ es !! j = Some e /\
      agrees (rl_view l) (take j es) /\ al_get_term (rl_view l) i <> Ok (entry_term e)
  | Err _ => False
  end.
Proof.
  intros Ht Hn Hk. unfold find_conflict. rewrite last_index_spec by done. cbn [rbind].
  pose proof (find_conflict_loop_spec l es k 0 Ht Hn Hk) as Hf. destruct (find_conflict_loop _ _ _ _) as [[p i]|]; [|done].
  destruct Hf as (j & e & -> & Hf). by exists e.
Qed.

Lemma commit_to_spec l index : tail_ok l -> (rl_committed l <= al_last (rl_view l))%N ->
  rl_commit_to l index =
    if (al_last (rl_view l) <? index)%N then (Err (Unavailable index), l)
    else (Ok tt, rl_set_committed l (N.max (rl_committed l) index)).
Proof.
  intros Ht Hc. unfold rl_commit_to. rewrite last_index_spec by done.
  destruct (N.leb_spec index (rl_committed l)) as [L|L].
  - rewrite (proj2 (N.ltb_ge _ _)), N.max_l by lia. by destruct l.
  - case_match; [done|]. by rewrite N.max_r by lia.
Qed.

Lemma set_committed_ok l c : tail_ok l -> (al_index (rl_view l) <= rl_applied l)%N -> (rl_applied l <= c <= al_last (rl_view l))%N ->
  rlog_ok (rl_set_committed l c) /\ rl_view (rl_set_committed l c) = rl_view l.
Proof. intros Ht Hi Hc. split; [split; [exact Ht|split; [exact Hi|exact Hc]]|done]. Qed.

(** Writing over a log from [k] makes it hold what was written. *)
Lemma al_splice_term (a : alog) k es j e : (al_index a < k <= al_last a + 1)%N -> es !! j = Some e ->
  al_get_term (al_splice a k es) (k + N.of_nat j) = Ok (entry_term e).
Proof.
  intros Hk Hj. unfold al_get_term. cbn [al_splice al_index].
  rewrite (proj2 (N.eqb_neq _ _)), (proj2 (N.ltb_ge _ _)) by lia.
  rewrite (al_splice_entry a k es) by lia. rewrite (proj2 (N.ltb_ge _ _)) by lia.
  replace (N.to_nat _) with j by lia. by rewrite Hj.
Qed.
Lemma al_splice_term_below (a : alog) k es i : (al_index a < k <= al_last a + 1)%N -> (i < k)%N ->
  al_get_term (al_splice a k es) i = al_get_term a i.
Proof.
  intros Hk Hi. unfold al_get_term. cbn [al_splice al_index al_term].
  destruct (N.eqb_spec i (al_index a)); [done|]. destruct (N.ltb_spec i (al_index a)); [done|].
  rewrite (al_splice_entry a k es) by lia. by rewrite (proj2 (N.ltb_lt _ _)) by lia.
Qed.

Lemma last_numbered k es d : numbered (k + 1) es -> d = k -> from_option entry_index d (last es) = (k + N.of_nat (length es))%N.
Proof.
  intros Hn ->. destruct es as [|e es _] using rev_ind; [cbn; lia|]. rewrite last_snoc, length_app. cbn.
  rewrite (Hn (length es) e); [lia|]. by rewrite lookup_app_r, Nat.sub_diag by lia.
Qed.

Lemma agrees_last (a : alog) k es : (al_index a <= k <= al_last a)%N -> numbered (k + 1) es -> agrees a es ->
  (k + N.of_nat (length es) <= al_last a)%N.
Proof.
  intros Hk Hn Ha. destruct es as [|e es _] using rev_ind; [cbn; lia|].
  apply Forall_app in Ha as [_ Ha]. inversion Ha as [|? ? He _]; subst. apply al_get_term_bounds in He.
  rewrite (Hn (length es) e) in He by by rewrite lookup_app_r, Nat.sub_diag by lia. rewrite length_app. cbn. lia.
Qed.

(** What a follower's append promises. *)
Definition append_promise l (prev_index : Index) (leader_commit : Index) (es : list Entry) (out : AppendOutcome) l' : Prop :=
  let last := (prev_index + N.of_nat (length es))%N in
  rlog_ok l' /\ ao_last out = last /\
  rl_committed l' = N.max (rl_committed l) (N.min leader_commit last) /\ rl_applied l' = rl_applied l /\
  rl_store l' = rl_store l /\
  (forall i, (i <= N.max prev_index (rl_committed l))%N -> al_get_term (rl_view l') i = al_get_term (rl_view l) i) /\
  agrees (rl_view l') es /\
  match ao_spliced_from out with
  | None => rl_view l' = rl_view l /\ ao_truncated out = false
  | Some k => (prev_index < k <= last)%N /\ (rl_committed l < k <= al_last (rl_view l) + 1)%N /\
      rl_view l' = al_splice (rl_view l) k (drop (N.to_nat (k - prev_index - 1)) es) /\
      ao_truncated out = (k <=? al_last (rl_view l))%N
  end.

Lemma append_nothing l prev_index leader_commit es : rlog_ok l ->
  (al_index (rl_view l) <= prev_index <= al_last (rl_view l))%N -> numbered (prev_index + 1) es -> agrees (rl_view l) es ->
  exists l', rl_commit_to l (N.min leader_commit (prev_index + N.of_nat (length es))) = (Ok tt, l') /\
    append_promise l prev_index leader_commit es (mkAppendOutcome (prev_index + N.of_nat (length es)) None false) l'.
Proof.
  intros (Ht & Ha & Hc) Hp Hn Hag. pose proof (agrees_last _ _ _ Hp Hn Hag) as Hl.
  rewrite commit_to_spec by (done || lia). rewrite (proj2 (N.ltb_ge _ _)) by lia. eexists. split; [done|].
  destruct (set_committed_ok l (N.max (rl_committed l) (N.min leader_commit (prev_index + N.of_nat (length es)))) Ht)
    as [Hok Hv]; [lia..|].
  unfold append_promise. rewrite Hv. repeat (split; [done|]). done.
Qed.

Lemma append_splices l prev_index leader_commit es j e : rlog_ok l ->
  (al_index (rl_view l) <= prev_index <= al_last (rl_view l))%N -> numbered (prev_index + 1) es ->
  (prev_index + N.of_nat (length es) + 1 < two64)%N ->
  es !! j = Some e -> agrees (rl_view l) (take j es) -> (rl_committed l < prev_index + 1 + N.of_nat j)%N ->
  let k := (prev_index + 1 + N.of_nat j)%N in
  exists l', rl_commit_to (truncate_and_append l (drop j es)) (N.min leader_commit (prev_index + N.of_nat (length es))) = (Ok tt, l') /\
    append_promise l prev_index leader_commit es
      (mkAppendOutcome (prev_index + N.of_nat (length es)) (Some k) (k <=? al_last (rl_view l))%N) l'.
Proof.
  intros (Ht & Ha & Hc) Hp Hn Hmax Hj Hag Hcom k. pose proof (lookup_lt_Some _ _ _ Hj) as Hlt.
  assert (numbered k (drop j es)) as Hnk by (apply numbered_drop; [done|lia]).
  assert (k <= al_last (rl_view l) + 1)%N as Hkl.
  { pose proof (agrees_last _ prev_index _ Hp (numbered_take _ _ _ Hn) Hag) as Hl. rewrite length_take in Hl. lia. }
  assert (drop j es <> []) as Hne by (intros E%(f_equal length); rewrite length_drop in E; cbn in E; lia).
  destruct (truncate_and_append_spec l k (drop j es) Ht Hnk Hne) as [Ht' Hv]; [lia|rewrite length_drop; lia|].
  destruct (al_splice_ok (rl_view l) k (drop j es) (view_ok l Ht) Hnk) as [_ Hlast]; [lia|rewrite length_drop; lia..|].
  rewrite length_drop in Hlast. rewrite <- Hv in Hlast.
  assert (rl_committed (truncate_and_append l (drop j es)) = rl_committed l /\
    rl_applied (truncate_and_append l (drop j es)) = rl_applied l /\
    rl_store (truncate_and_append l (drop j es)) = rl_store l) as (Ec & Ea & Es).
  { unfold truncate_and_append. destruct (drop j es); [done|]. by repeat case_match. }
  assert (al_index (rl_view (truncate_and_append l (drop j es))) = al_index (rl_view l)) as Ei by by rewrite Hv.
  rewrite commit_to_spec; [|done|rewrite Ec; lia]. rewrite (proj2 (N.ltb_ge _ _)) by lia.
  eexists. split; [done|]. rewrite Ec.
  destruct (set_committed_ok (truncate_and_append l (drop j es))
    (N.max (rl_committed l) (N.min leader_commit (prev_index + N.of_nat (length es)))) Ht') as [Hok Hv']; [lia..|].
  unfold append_promise. rewrite Hv', Hv. cbn [ao_last ao_spliced_from ao_truncated].
  split; [done|]. split; [done|]. split; [done|]. split; [done|]. split; [done|].
  split; [intros i Hi; apply al_splice_term_below; lia|]. split; [|split; [lia|]; split; [lia|]; split; [|done]].
  - rewrite <- (take_drop j es) at 2. apply Forall_app. split.
    + apply Forall_lookup. intros i e' Hi. pose proof (proj1 (Forall_lookup _ _) Hag i e' Hi) as He'.
      apply lookup_take_Some in Hi as [Hi Hij]. rewrite al_splice_term_below; [done|lia|]. rewrite (Hn i e' Hi). lia.
    + apply Forall_lookup. intros i e' Hi. rewrite (Hnk i e' Hi). apply (al_splice_term _ k _ i e'); [lia|exact Hi].
  - do 2 f_equal. lia.
Qed.

(** C11: A follower's append.  The consistency check fails exactly
    when this log has no entry with the given index and term, and then nothing
    moves.  Otherwise the log afterwards agrees with the leader's on every
    entry the message carried, keeps everything at or below the previous index
    and everything committed, writes only from the first disagreement on, and
    commits up to what the leader says but never past what it holds.  The only
    refusal is a message that contradicts a committed entry, which leaves the
    log as it was. *)
Theorem maybe_append_correct l prev_index prev_term leader_commit es :
  rlog_ok l -> numbered (prev_index + 1) es -> (prev_index + N.of_nat (length es) + 1 < two64)%N ->
  match maybe_append l prev_index prev_term leader_commit es with
  | (Ok None, l') => l' = l /\ al_get_term (rl_view l) prev_index <> Ok prev_term
  | (Ok (Some out), l') => al_get_term (rl_view l) prev_index = Ok prev_term /\ append_promise l prev_index leader_commit es out l'
  | (Err _, l') => l' = l /\
      exists e, e ∈ es /\ (entry_index e <= rl_committed l)%N /\ al_get_term (rl_view l) (entry_index e) <> Ok (entry_term e)
  end.
Proof.
  intros Hok Hn Hmax. pose proof Hok as (Ht & Ha & Hc). unfold maybe_append.
  pose proof (matches_spec l prev_index prev_term Ht) as Hm.
  destruct (rl_matches l prev_index prev_term); cbn [negb]; [|split; [done|]; intros E; by apply Hm in E].
  destruct Hm as [Hm _]. specialize (Hm eq_refl). pose proof (al_get_term_bounds _ _ _ Hm) as Hp.
  rewrite (last_numbered prev_index es) by done.
  pose proof (find_conflict_spec l es (prev_index + 1) Ht Hn) as Hf.
  destruct (find_conflict l es) as [[[j i]|]|]; [| |destruct Hf; lia].
  - destruct Hf as (e & -> & Hj & Hag & Hd); [lia|]. rewrite last_index_spec by done.
    destruct (N.leb_spec (prev_index + 1 + N.of_nat j) (rl_committed l)) as [L|L].
    + split; [done|]. exists e. rewrite (Hn j e Hj). split; [by eapply list_elem_of_lookup_2|done].
    + destruct (append_splices l prev_index leader_commit es j e Hok Hp Hn Hmax Hj Hag L) as (l' & -> & Hl'). by split.
  - destruct (append_nothing l prev_index leader_commit es Hok Hp Hn) as (l' & -> & Hl'); [by apply Hf; lia|]. by split.
Qed.

(** ** Reading a range *)

Definition cost_sum (b : N) (es : list Entry) : N := foldl (fun sum e => sum + Entry_cost e)%N b es.

Lemma cost_sum_le b es : (b <= cost_sum b es)%N.
Proof.
  revert b; induction es as [|e es IH]; intros b; [done|].
  change (cost_sum b (e :: es)) with (cost_sum (b + Entry_cost e) es). specialize (IH (b + Entry_cost e)%N). lia.
Qed.
Lemma cost_sum_app b es es' : cost_sum b (es ++ es') = cost_sum (cost_sum b es) es'.
Proof. unfold cost_sum. by rewrite foldl_app. Qed.
Lemma total_cost_sum es : (cost_sum 0 es < two64)%N -> total_cost es = cost_sum 0 es.
Proof.
  unfold total_cost. generalize 0%N. induction es as [|e es IH]; intros b; [done|]. intros Hlt.
  change (cost_sum b (e :: es)) with (cost_sum (b + Entry_cost e) es) in *. cbn [foldl].
  pose proof (cost_sum_le (b + Entry_cost e) es) as Hle. rewrite wadd_small by lia. by apply IH.
Qed.

Lemma take_budget_app max b out w w' : (cost_sum b (w ++ w') < two64)%N ->
  take_budget max b out (w ++ w') =
    if decide (length (take_budget max b out w) = length out + length w)%nat
    then take_budget max (cost_sum b w) (out ++ w) w' else take_budget max b out w.
Proof.
  revert b out; induction w as [|e w IH]; intros b out Hlt; cbn [app take_budget].
  - rewrite decide_True by (cbn; lia). cbn. by rewrite app_nil_r.
  - pose proof (cost_sum_le (b + Entry_cost e) (w ++ w')) as Hle. cbn in Hlt, Hle. fold (cost_sum (b + Entry_cost e) (w ++ w')) in Hlt, Hle.
    assert (sat_add b (Entry_cost e) = b + Entry_cost e)%N as E by (apply sat_add_small; unfold two64, u64_max in *; lia).
    rewrite E. case_match.
    + rewrite decide_False by (cbn; lia). done.
    + rewrite IH by done. rewrite length_app. cbn [length].
      replace (length out + 1 + length w)%nat with (length out + Datatypes.S (length w))%nat by lia.
      case_decide; [|done]. by rewrite <- app_assoc.
Qed.

Lemma slice_loop_spec l max b out index n : tail_ok l ->
  (rl_unstable_offset l <= index)%N -> (index + N.of_nat n <= rl_unstable_offset l + N.of_nat (length (rl_unstable l)))%N ->
  slice_loop l max b out index n =
    Ok (take_budget max b out (take n (drop (N.to_nat (index - rl_unstable_offset l)) (rl_unstable l)))).
Proof.
  intros (_ & _ & Hlt & _). revert b out index. induction n as [|n IH]; intros b out index Hlo Hhi; [done|].
  cbn [slice_loop]. unfold offset.
  destruct (lookup_lt_is_Some_2 (rl_unstable l) (N.to_nat (index - rl_unstable_offset l))) as [e He]; [lia|].
  rewrite He, (drop_S _ e) by done. cbn [take take_budget]. case_match; [done|].
  rewrite wadd_small by lia. rewrite IH by lia. do 4 f_equal. lia.
Qed.

(** A budgeted read returns a prefix, never empty unless the range is. *)
Lemma take_budget_prefix max b out w : exists k, take_budget max b out w = out ++ take k w.
Proof.
  revert b out; induction w as [|e w IH]; intros b out; cbn [take_budget].
  - exists 0%nat. by rewrite app_nil_r.
  - case_match; [exists 0%nat; by rewrite app_nil_r|].
    destruct (IH (sat_add b (Entry_cost e)) (out ++ [e])) as [k ->]. exists (Datatypes.S k). by rewrite <- app_assoc.
Qed.
Lemma take_budget_whole max w : length (take_budget max 0 [] w) = length w -> take_budget max 0 [] w = w.
Proof.
  destruct (take_budget_prefix max 0 [] w) as [k ->]. cbn. rewrite length_take. intros Hk. apply take_ge. lia.
Qed.

Lemma view_range_tail l low high : tail_ok l -> (rl_unstable_offset l <= low)%N ->
  al_range (rl_view l) low high = take (N.to_nat (high - low)) (drop (N.to_nat (low - rl_unstable_offset l)) (rl_unstable l)).
Proof.
  intros (_ & _ & _ & Hoff) Hlow. unfold al_range, rl_view, al_last in *.
  destruct (rl_unstable_snapshot l) as [snap|]; cbn [al_index al_entries].
  - do 2 f_equal. lia.
  - destruct Hoff as [Hoff _]. rewrite drop_app_ge by (rewrite length_take; lia). rewrite length_take. do 2 f_equal. lia.
Qed.

Lemma view_range_split l low high : tail_ok l -> rl_unstable_snapshot l = None ->
  (al_index (rl_view l) < low < rl_unstable_offset l)%N ->
  al_range (rl_view l) low high =
    al_range (log_view (rl_store l)) low (N.min high (rl_unstable_offset l)) ++
    take (N.to_nat (high - N.max low (rl_unstable_offset l))) (rl_unstable l).
Proof.
  intros (_ & _ & _ & Hoff) Es Hlow. unfold al_range, rl_view, al_last in *. rewrite Es in *. cbn [al_index al_entries] in *.
  destruct Hoff as [Hoff _]. rewrite drop_app_le by (rewrite length_take; lia).
  rewrite skipn_firstn_comm, take_app, take_take, length_take, length_drop. f_equal; f_equal; lia.
Qed.

Lemma slice_spec l low high max : tail_ok l -> (al_index (rl_view l) < low)%N -> (high <= al_last (rl_view l) + 1)%N ->
  (cost_sum 0 (al_range (rl_view l) low high) < two64)%N ->
  rl_slice l low high max = Ok (take_budget max 0 [] (al_range (rl_view l) low high)).
Proof.
  intros Ht Hlow Hhigh Hcost. pose proof (view_last l Ht) as Hlast. pose proof (view_index_lt l Ht) as Hpos.
  unfold rl_slice. destruct (N.leb_spec high low) as [L|L].
  { unfold al_range. by replace (high - low)%N with 0%N by lia. }
  destruct (N.ltb_spec low (rl_unstable_offset l)) as [Lo|Lo].
  2:{ replace (N.max low (rl_unstable_offset l)) with low by lia.
      rewrite slice_loop_spec by (done || lia). by rewrite view_range_tail. }
  assert (rl_unstable_snapshot l = None) as Es.
  { destruct Ht as (_ & _ & _ & Hoff). unfold rl_view in Hlow. destruct (rl_unstable_snapshot l); [cbn in Hlow; lia|done]. }
  rewrite view_range_split in * by done. pose proof Ht as (Hs & _ & _ & Hoff). rewrite Es in Hoff. destruct Hoff as [Hoff _].
  assert (al_index (rl_view l) = al_index (log_view (rl_store l))) as Ei by (unfold rl_view; by rewrite Es).
  rewrite log_entries by done. unfold al_get_range.
  rewrite (proj2 (N.leb_gt _ _)), (proj2 (N.ltb_ge _ _)) by lia. cbn [rbind].
  set (w := al_range (log_view (rl_store l)) low (N.min high (rl_unstable_offset l))) in *.
  assert (length w = N.to_nat (N.min high (rl_unstable_offset l) - low)) as Hlen.
  { unfold w, al_range, al_last in *. rewrite length_take, length_drop. lia. }
  rewrite take_budget_app by done. cbn [length app Nat.add].
  destruct (N.eqb_spec (N.of_nat (length (take_budget max 0 [] w))) (N.min high (rl_unstable_offset l) - low)) as [E|E];
    cbn [negb]; [|rewrite decide_False by lia; done].
  rewrite decide_True, take_budget_whole by lia.
  rewrite total_cost_sum by (rewrite cost_sum_app in Hcost; pose proof (cost_sum_le (cost_sum 0 w)
    (take (N.to_nat (high - N.max low (rl_unstable_offset l))) (rl_unstable l))); lia).
  rewrite slice_loop_spec by (done || lia). do 2 f_equal. destruct (N.le_ge_cases high (rl_unstable_offset l)).
  - by replace (N.to_nat (high - _)) with 0%nat by lia.
  - by replace (N.to_nat (N.max low (rl_unstable_offset l) - rl_unstable_offset l)) with 0%nat by lia.
Qed.

Lemma cost_sum_start b es : cost_sum b es = (b + cost_sum 0 es)%N.
Proof.
  revert b; induction es as [|e es IH]; intros b; [cbn; lia|].
  change (cost_sum ?b (e :: es)) with (cost_sum (b + Entry_cost e) es). rewrite (IH (0 + _)%N), IH. lia.
Qed.
Lemma cost_sum_range (a : alog) low high : (cost_sum 0 (al_range a low high) <= cost_sum 0 (al_entries a))%N.
Proof.
  unfold al_range. rewrite <- (take_drop (N.to_nat (low - al_index a - 1)) (al_entries a)) at 2.
  set (r := drop _ _). rewrite <- (take_drop (N.to_nat (high - low)) r) at 2.
  rewrite !cost_sum_app, (cost_sum_start (cost_sum _ _)), (cost_sum_start (cost_sum 0 (take _ (al_entries a)))). lia.
Qed.

(** The two parts answer as one log.  The bounds, the term at any
    index, a budgeted range and the committed entries not yet applied are
    those of the abstract log, whether they lie in storage, across the seam,
    in the unwritten tail or behind a snapshot that is not installed yet. *)
Theorem raft_log_reads l low high max_bytes i :
  rlog_ok l -> (cost_sum 0 (al_entries (rl_view l)) < two64)%N ->
  (al_index (rl_view l) < low)%N -> (high <= al_last (rl_view l) + 1)%N ->
  rl_first_index l = Ok (al_index (rl_view l) + 1)%N /\ rl_last_index l = Ok (al_last (rl_view l)) /\
  rl_term l i = al_get_term (rl_view l) i /\
  rl_slice l low high max_bytes = Ok (take_budget max_bytes 0 [] (al_range (rl_view l) low high)) /\
  next_committed l max_bytes =
    Ok (take_budget max_bytes 0 [] (al_range (rl_view l) (rl_applied l + 1) (rl_committed l + 1))).
Proof.
  intros (Ht & Ha & Hc) Hcost Hlow Hhigh.
  assert (forall low high, cost_sum 0 (al_range (rl_view l) low high) < two64)%N as Hr.
  { intros lo hi. pose proof (cost_sum_range (rl_view l) lo hi). lia. }
  split; [by apply first_index_spec|]. split; [by apply last_index_spec|]. split; [by apply term_spec|].
  split; [by apply slice_spec|]. unfold next_committed.
  destruct (view_ok l Ht) as [_ Hmax].
  destruct (N.leb_spec (rl_committed l) (rl_applied l)).
  - unfold al_range. by replace (N.to_nat (_ - _)) with 0%nat by lia.
  - rewrite !wadd_small by lia. apply slice_spec; [done|lia|lia|done].
Qed.

Lemma new_spec store applied initial : log_ok store -> initial_state store = Ok initial ->
  (hs_commit (is_hard_state initial) <= al_last (log_view store))%N -> (applied <= hs_commit (is_hard_state initial))%N ->
  exists l, RaftLog_new store applied = Ok l /\ rlog_ok l /\ rl_view l = log_view store /\ rl_store l = store /\
    rl_committed l = N.max (hs_commit (is_hard_state initial)) (al_index (log_view store)).
Proof.
  intros Hs Hi Hc Ha. unfold RaftLog_new. rewrite log_last_index, Hi, log_first_index by done. cbn [rbind].
  destruct (log_view_ok store Hs) as [Hn Hm]. unfold sat_sub. rewrite wadd_small by lia.
  replace (al_index (log_view store) + 1 - 1)%N with (al_index (log_view store)) by lia.
  eexists. split; [done|].
  assert (al_index (log_view store) <= al_last (log_view store))%N as Hil by (unfold al_last; lia).
  match goal with |- rlog_ok ?l /\ _ => assert (rl_view l = log_view store) as Hv end.
  { unfold rl_view. cbn. rewrite app_nil_r, take_ge by (unfold al_last; lia). by destruct (log_view store). }
  split; [|done]. split; [|rewrite Hv; cbn; lia].
  split; [done|]. split; [apply numbered_nil|]. cbn. split; [lia|]. split; [lia|done].
Qed.

Lemma restore_spec l snapshot : rlog_ok l -> should_restore l snapshot = true -> (meta_index (snap_meta snapshot) < u64_max)%N ->
  rlog_ok (rl_restore l snapshot) /\
  rl_view (rl_restore l snapshot) = mkAlog (meta_index (snap_meta snapshot)) (meta_term (snap_meta snapshot)) [] /\
  (rl_committed l < rl_committed (rl_restore l snapshot))%N.
Proof.
  intros (Ht & Ha & Hc) Hr Hlt. unfold should_restore in Hr. destruct (N.eqb_spec (meta_index (snap_meta snapshot)) u64_max); [lia|].
  destruct (N.leb_spec (meta_index (snap_meta snapshot)) (rl_committed l)) as [|L]; [done|].
  split; [|split; [done|exact L]]. unfold u64_max, two64 in *.
  assert (sat_add (meta_index (snap_meta snapshot)) 1 = meta_index (snap_meta snapshot) + 1)%N as E
    by (apply sat_add_small; unfold u64_max; lia).
  split; [split; [apply Ht|]; split; [apply numbered_nil|]; cbn; rewrite E; split; [unfold two64; lia|done]|].
  unfold al_last. cbn. split; lia.
Qed.

Lemma set_tail_stable l k term : tail_ok l -> rl_matches l k term = true -> (rl_unstable_offset l <= k)%N ->
  k = al_last (rl_view l) -> stable_to l k term = rl_set_tail l (k + 1) [].
Proof.
  intros Ht Hm Hk Hlast. pose proof (view_last l Ht) as Hl. destruct (view_ok l Ht) as [_ Hmax].
  unfold stable_to. rewrite Hm. cbn [negb]. rewrite (proj2 (N.ltb_ge _ _)) by done.
  rewrite wadd_small by lia. rewrite wsub_small by lia. unfold offset.
  rewrite (proj2 (Nat.leb_le _ _)) by lia. done.
Qed.
End LogSpec.

(** ** Handing the tail to the driver *)

(** What a driver over [MemStorage] does with the snapshot and the entries of
    one [Ready], and what [RawNode::advance] then records. *)
Definition persist_tail (s : MemStorage) (snapshot : option Snapshot) (entries : list Entry) : MemStorage :=
  let s := match snapshot with Some snap => snd (apply_snapshot s snap) | None => s end in
  snd (MemStorage_append s entries).
Definition advance_tail (l : RaftLog MemStorage) (snapshot : option Snapshot) (entries : list Entry) : RaftLog MemStorage :=
  let l := match snapshot with Some snap => stable_snapshot_to l (meta_index (snap_meta snap)) | None => l end in
  match last entries with Some e => stable_to l (entry_index e) (entry_term e) | None => l end.
Definition discharge_tail (l : RaftLog MemStorage) : RaftLog MemStorage :=
  advance_tail (rl_set_store l (persist_tail (rl_store l) (rl_unstable_snapshot l) (rl_unstable l)))
    (rl_unstable_snapshot l) (rl_unstable l).

(** The store does not hold the entry the pending snapshot ends at; storage
    then replaces its log as the core did. *)
Definition snapshot_replaces (l : RaftLog MemStorage) : Prop :=
  forall snap, rl_unstable_snapshot l = Some snap ->
    (compacted_index (rl_store l) < meta_index (snap_meta snap))%N /\
    mem_term (rl_store l) (meta_index (snap_meta snap)) <> Ok (meta_term (snap_meta snap)).

Lemma persist_snapshot_view s snap u : mem_ok s -> (compacted_index s < meta_index (snap_meta snap))%N ->
  mem_term s (meta_index (snap_meta snap)) <> Ok (meta_term (snap_meta snap)) ->
  numbered (meta_index (snap_meta snap) + 1) u -> (meta_index (snap_meta snap) + 1 + N.of_nat (length u) < two64)%N ->
  mem_ok (persist_tail s (Some snap) u) /\
  mem_view (persist_tail s (Some snap) u) = mkAlog (meta_index (snap_meta snap)) (meta_term (snap_meta snap)) u.
Proof.
  intros Hs Hlt Hterm Hu Hmax. unfold persist_tail, apply_snapshot.
  rewrite (proj2 (N.leb_gt _ _)) by done.
  assert (is_ok_and (mem_term s (meta_index (snap_meta snap))) (fun term => (term =? meta_term (snap_meta snap))%N) = false) as ->.
  { destruct (mem_term s _) as [t|]; [|done]. cbn. apply N.eqb_neq. congruence. }
  cbn [snd]. set (s1 := mkMemStorage _ _ _ _).
  assert (mem_view s1 = mkAlog (meta_index (snap_meta snap)) (meta_term (snap_meta snap)) []) as Hv1 by done.
  assert (mem_ok s1) as Hs1 by (split; [apply numbered_nil|rewrite Hv1; unfold al_last; cbn; lia]).
  destruct u as [|e u]; [done|]. rewrite (mem_append_spec s1 (meta_index (snap_meta snap) + 1)); [|done..| |done].
  2:{ rewrite Hv1. unfold al_last. cbn. lia. }
  cbn [length] in *. rewrite (proj2 (N.leb_gt _ _)) by (unfold compacted_index; cbn; lia). cbn [snd].
  assert (al_entries (al_splice (mem_view s1) (meta_index (snap_meta snap) + 1) (e :: u)) = e :: u) as ->.
  { rewrite Hv1. unfold al_splice. cbn [al_entries al_index al_term]. rewrite take_nil. by replace (N.to_nat _) with 0%nat by lia. }
  split; [|done]. split; [exact Hu|].
  change (meta_index (snap_meta snap) + N.of_nat (Datatypes.S (length u)) + 1 < two64)%N. lia.
Qed.

Lemma persist_plain_view s off u : mem_ok s -> numbered off u -> (off + N.of_nat (length u) < two64)%N ->
  (compacted_index s < off <= al_last (mem_view s) + 1)%N -> (u = [] -> off = al_last (mem_view s) + 1)%N ->
  mem_ok (persist_tail s None u) /\
  mem_view (persist_tail s None u) =
    mkAlog (compacted_index s) (compacted_term s) (take (N.to_nat (off - compacted_index s - 1)) (mem_entries s) ++ u).
Proof.
  intros Hs Hu Hmax Hoff Hempty. unfold persist_tail. destruct u as [|e u].
  - cbn. split; [done|]. rewrite app_nil_r, take_ge; [done|]. specialize (Hempty eq_refl). unfold al_last in Hempty. cbn in Hempty. lia.
  - rewrite (mem_append_spec s off) by (done || lia). cbn [length] in *.
    rewrite (proj2 (N.leb_gt _ _)) by lia. cbn [snd].
    destruct (al_splice_ok (mem_view s) off (e :: u) Hs Hu) as [Hok _]; [lia|cbn [mem_view al_index length]; lia|exact Hmax|].
    split; [exact Hok|]. unfold mem_view, set_entries, al_splice, compacted_index, compacted_term. cbn. do 2 f_equal.
    by replace (N.to_nat _) with 0%nat by (unfold compacted_index in Hoff; lia).
Qed.

Lemma persist_view (l : RaftLog MemStorage) : tail_ok l -> snapshot_replaces l ->
  let s := persist_tail (rl_store l) (rl_unstable_snapshot l) (rl_unstable l) in
  mem_ok s /\ mem_view s = rl_view l.
Proof.
  intros (Hs & Hu & Hmax & Hoff) Hsnap. unfold rl_view. destruct (rl_unstable_snapshot l) as [snap|] eqn:Es.
  - destruct (Hsnap snap Es) as [Hlt Ht]. rewrite Hoff in Hu, Hmax. by apply persist_snapshot_view.
  - destruct Hoff as [Hoff Hempty]. by apply persist_plain_view.
Qed.

(** Once storage holds the whole log, the tail can go. *)
Lemma drop_tail (s : MemStorage) u off c a (v : alog) : mem_ok s -> mem_view s = v ->
  (al_index v < off)%N -> al_last v = (off + N.of_nat (length u) - 1)%N -> drop (N.to_nat (off - al_index v - 1)) (al_entries v) = u ->
  let l := mkRaftLog s u off None c a in
  let l' := match last u with Some e => stable_to l (entry_index e) (entry_term e) | None => l end in
  tail_ok l' /\ rl_view l' = v /\ rl_unstable l' = [] /\ rl_unstable_snapshot l' = None /\
  rl_store l' = s /\ rl_committed l' = c /\ rl_applied l' = a.
Proof.
  intros Hs Hv Hi Hlast Hu l. pose proof Hs as [Hn Hm]. rewrite Hv in Hn, Hm. unfold al_last in Hlast, Hm.
  assert (numbered off u) as Hnu.
  { rewrite <- Hu. replace off with (al_index v + 1 + N.of_nat (N.to_nat (off - al_index v - 1)))%N at 1 by lia.
    apply numbered_drop; [done|lia]. }
  assert (tail_ok l) as Ht.
  { split; [exact Hs|]. split; [exact Hnu|]. cbn [rl_unstable_offset rl_unstable rl_unstable_snapshot rl_store l log_view MemStorage_laws].
    rewrite Hv. unfold al_last. split; [lia|]. split; [lia|]. intros ->. cbn in Hlast. lia. }
  assert (rl_view l = v) as Hvl.
  { unfold rl_view. cbn [rl_unstable_offset rl_unstable rl_unstable_snapshot rl_store l log_view MemStorage_laws].
    rewrite Hv, <- Hu, take_drop. by destruct v. }
  destruct (last u) as [e|] eqn:El.
  2:{ apply last_None in El as ->. done. }
  apply last_Some in El as [u' ->].
  assert (entry_index e = al_last v) as Hidx.
  { rewrite (Hnu (length u') e) by by rewrite lookup_app_r, Nat.sub_diag by lia. rewrite length_app in Hlast. unfold al_last. cbn in Hlast. lia. }
  assert (off <= entry_index e)%N as Hoff by (rewrite Hidx; unfold al_last; rewrite length_app in Hlast; cbn in Hlast; lia).
  rewrite (set_tail_stable l (entry_index e)); [|done| |done|by rewrite Hvl].
  - cbn [rl_set_tail rl_unstable rl_unstable_snapshot rl_store rl_committed rl_applied l].
    split; [|split; [|done]].
    + split; [exact Hs|]. split; [apply numbered_nil|]. cbn [l rl_set_tail rl_unstable_offset rl_unstable rl_unstable_snapshot rl_store length log_view MemStorage_laws].
      rewrite Hv, Hidx. unfold al_last. split; [lia|]. split; [lia|done].
    + unfold rl_view. cbn [l rl_set_tail rl_unstable_offset rl_unstable rl_unstable_snapshot rl_store log_view MemStorage_laws]. rewrite Hv, Hidx, app_nil_r.
      rewrite take_ge by (unfold al_last; lia). by destruct v.
  - unfold rl_matches, rl_term. cbn [rl_unstable_offset rl_unstable l]. rewrite (proj2 (N.leb_le _ _)) by done.
    replace (offset (entry_index e - off)) with (length u'); [by rewrite lookup_app_r, Nat.sub_diag by lia; cbn; apply N.eqb_refl|].
    rewrite (Hnu (length u') e) by by rewrite lookup_app_r, Nat.sub_diag by lia. unfold offset. lia.
Qed.

Lemma view_tail (l : RaftLog MemStorage) : tail_ok l ->
  drop (N.to_nat (rl_unstable_offset l - al_index (rl_view l) - 1)) (al_entries (rl_view l)) = rl_unstable l.
Proof.
  intros (_ & _ & _ & Hoff). unfold rl_view, al_last in *. destruct (rl_unstable_snapshot l) as [snap|]; cbn [al_index al_entries].
  - by replace (N.to_nat _) with 0%nat by lia.
  - destruct Hoff as [Hoff _]. rewrite drop_app_length'; [done|]. rewrite length_take. lia.
Qed.

(** The seam between the unwritten tail and storage is invisible.
    Writing out the pending snapshot and the tail, and recording that they
    are durable, leaves the log the core sees exactly as it was, with nothing
    left to write and storage holding all of it. *)
Theorem discharge_keeps_the_log (l : RaftLog MemStorage) : rlog_ok l -> snapshot_replaces l ->
  rlog_ok (discharge_tail l) /\ rl_view (discharge_tail l) = rl_view l /\
  mem_view (rl_store (discharge_tail l)) = rl_view l /\
  rl_unstable (discharge_tail l) = [] /\ rl_unstable_snapshot (discharge_tail l) = None /\
  rl_committed (discharge_tail l) = rl_committed l /\ rl_applied (discharge_tail l) = rl_applied l.
Proof.
  intros (Ht & Ha & Hc) Hsnap. destruct (persist_view l Ht Hsnap) as [Hs Hv].
  destruct (drop_tail _ (rl_unstable l) (rl_unstable_offset l) (rl_committed l) (rl_applied l) (rl_view l) Hs Hv)
    as (Ht' & Hv' & Hu & Hn & Hst & Hcm & Hap); [by apply view_index_lt|by apply view_last|by apply view_tail|].
  assert (discharge_tail l =
    match last (rl_unstable l) with
    | Some e => stable_to (mkRaftLog (persist_tail (rl_store l) (rl_unstable_snapshot l) (rl_unstable l)) (rl_unstable l)
        (rl_unstable_offset l) None (rl_committed l) (rl_applied l)) (entry_index e) (entry_term e)
    | None => mkRaftLog (persist_tail (rl_store l) (rl_unstable_snapshot l) (rl_unstable l)) (rl_unstable l)
        (rl_unstable_offset l) None (rl_committed l) (rl_applied l)
    end) as ->.
  { unfold discharge_tail, advance_tail, rl_set_store, stable_snapshot_to.
    destruct (rl_unstable_snapshot l) as [snap|] eqn:Es; cbn [rl_unstable_snapshot]; [by rewrite N.eqb_refl|done]. }
  split; [|by rewrite Hst]. split; [exact Ht'|]. rewrite Hv', Hcm, Hap. done.
Qed.

(** The log of [example_log] with its last entry replaced, not yet written. *)
Definition example_raft_log : RaftLog MemStorage := mkRaftLog example_log [Entry_empty 4 7] 7 None 5 4.

Lemma example_raft_log_ok : rlog_ok example_raft_log.
Proof.
  split; [|vm_compute; repeat split; discriminate].
  split; [apply example_log_ok|]. split; [|vm_compute; repeat split; discriminate].
  intros [|i] e E; [|done]. by injection E as <-.
Qed.

Lemma maybe_append_correct_witness :
  append_promise example_raft_log 6 7 [Entry_empty 4 7; Entry_empty 5 8] (mkAppendOutcome 8 (Some 8%N) false)
    (snd (maybe_append example_raft_log 6 3 7 [Entry_empty 4 7; Entry_empty 5 8])).
Proof.
  refine (proj2 (maybe_append_correct example_raft_log 6 3 7 [Entry_empty 4 7; Entry_empty 5 8] example_raft_log_ok _ _)).
  - intros [|[|i]] e E; [..|done]; by injection E as <-.
  - reflexivity.
Defined.

Lemma raft_log_reads_witness :
  rl_slice example_raft_log 5 8 u64_max = Ok [Entry_empty 2 5; Entry_empty 3 6; Entry_empty 4 7] /\
  next_committed example_raft_log u64_max = Ok [Entry_empty 2 5].
Proof.
  destruct (raft_log_reads example_raft_log 5 8 u64_max 0 example_raft_log_ok) as (_ & _ & _ & E & E');
    [vm_compute; reflexivity|vm_compute; reflexivity|vm_compute; discriminate|].
  rewrite E, E'. vm_compute. split; reflexivity.
Defined.

Lemma discharge_keeps_the_log_witness :
  rl_view (discharge_tail example_raft_log) = rl_view example_raft_log /\
  rl_unstable (discharge_tail example_raft_log) = [].
Proof.
  destruct (discharge_keeps_the_log example_raft_log example_raft_log_ok) as (_ & E & _ & E' & _); [intros snap; discriminate|].
  exact (conj E E').
Defined.
