(* ===== verification/RaftProgress.v ===== *)
(** What a leader believes about each follower: [esker-raft/src/progress.rs].

    The three-state machine of one follower, its in-flight window, and the
    sorted vector that keys them by node. *)

From stdpp Require Import prelude sorting.
From Stdlib Require Import NArith ZArith Lia.
From S2P Require Import Prelude SortedVec RaftTypes.

Inductive ProgressState : Type := Probe | Replicate | InSnapshot.
#[export] Instance ProgressState_eq_dec : EqDecision ProgressState.
Proof. solve_decision. Defined.

Record Inflights : Type := mkInflights { window : list Index; capacity : nat }.

Definition Inflights_new (capacity : nat) : Inflights := mkInflights [] (Nat.max capacity 1).
Definition is_full (i : Inflights) : bool := (capacity i <=? length (window i))%nat.
Definition inflights_add (i : Inflights) (last : Index) : Inflights :=
  if is_full i then i else mkInflights (window i ++ [last]) (capacity i).
Fixpoint free_window (acked : Index) (w : list Index) : list Index :=
  match w with
  | last :: w' => if (last <=? acked)%N then free_window acked w' else w
  | [] => []
  end.
Definition free_to (i : Inflights) (acked : Index) : Inflights := mkInflights (free_window acked (window i)) (capacity i).
Definition inflights_reset (i : Inflights) : Inflights := mkInflights [] (capacity i).

Record Progress : Type := mkProgress {
  pr_matched : Index;
  pr_next : Index;
  pr_state : ProgressState;
  pr_recent_active : bool;
  pr_probe_sent : bool;
  pr_pending_snapshot : Index;
  pr_snapshot_elapsed : N;
  pr_is_learner : bool;
  pr_inflights : Inflights }.

Definition Progress_new (next : Index) (max_inflight : nat) (is_learner : bool) : Progress :=
  mkProgress 0 next Probe false false 0 0 is_learner (Inflights_new max_inflight).

Definition set_matched (p : Progress) (m : Index) : Progress :=
  mkProgress m (pr_next p) (pr_state p) (pr_recent_active p) (pr_probe_sent p) (pr_pending_snapshot p)
    (pr_snapshot_elapsed p) (pr_is_learner p) (pr_inflights p).
Definition set_next (p : Progress) (n : Index) : Progress :=
  mkProgress (pr_matched p) n (pr_state p) (pr_recent_active p) (pr_probe_sent p) (pr_pending_snapshot p)
    (pr_snapshot_elapsed p) (pr_is_learner p) (pr_inflights p).
Definition set_recent_active (p : Progress) (b : bool) : Progress :=
  mkProgress (pr_matched p) (pr_next p) (pr_state p) b (pr_probe_sent p) (pr_pending_snapshot p)
    (pr_snapshot_elapsed p) (pr_is_learner p) (pr_inflights p).
Definition set_probe_sent (p : Progress) (b : bool) : Progress :=
  mkProgress (pr_matched p) (pr_next p) (pr_state p) (pr_recent_active p) b (pr_pending_snapshot p)
    (pr_snapshot_elapsed p) (pr_is_learner p) (pr_inflights p).
Definition set_is_learner (p : Progress) (b : bool) : Progress :=
  mkProgress (pr_matched p) (pr_next p) (pr_state p) (pr_recent_active p) (pr_probe_sent p) (pr_pending_snapshot p)
    (pr_snapshot_elapsed p) b (pr_inflights p).
Definition set_inflights (p : Progress) (i : Inflights) : Progress :=
  mkProgress (pr_matched p) (pr_next p) (pr_state p) (pr_recent_active p) (pr_probe_sent p) (pr_pending_snapshot p)
    (pr_snapshot_elapsed p) (pr_is_learner p) i.
Definition set_pending_snapshot (p : Progress) (i : Index) : Progress :=
  mkProgress (pr_matched p) (pr_next p) (pr_state p) (pr_recent_active p) (pr_probe_sent p) i
    (pr_snapshot_elapsed p) (pr_is_learner p) (pr_inflights p).
Definition set_snapshot_elapsed (p : Progress) (t : N) : Progress :=
  mkProgress (pr_matched p) (pr_next p) (pr_state p) (pr_recent_active p) (pr_probe_sent p) (pr_pending_snapshot p)
    t (pr_is_learner p) (pr_inflights p).

Definition become_probe (p : Progress) : Progress :=
  let next :=
    if bool_decide (pr_state p = InSnapshot)
    then sat_add (N.max (pr_matched p) (pr_pending_snapshot p)) 1
    else sat_add (pr_matched p) 1 in
  mkProgress (pr_matched p) next Probe (pr_recent_active p) false 0 0 (pr_is_learner p) (inflights_reset (pr_inflights p)).

Definition become_replicate (p : Progress) : Progress :=
  mkProgress (pr_matched p) (sat_add (pr_matched p) 1) Replicate (pr_recent_active p) false 0 0 (pr_is_learner p)
    (inflights_reset (pr_inflights p)).

Definition become_snapshot (p : Progress) (index : Index) : Progress :=
  mkProgress (pr_matched p) (pr_next p) InSnapshot (pr_recent_active p) false index 0 (pr_is_learner p)
    (inflights_reset (pr_inflights p)).

Definition abort_snapshot (p : Progress) : Progress := become_probe (set_pending_snapshot p 0).

Definition snapshot_is_moot (p : Progress) : bool :=
  bool_decide (pr_state p = InSnapshot) && (pr_pending_snapshot p <=? pr_matched p)%N.

Definition snapshot_tick (p : Progress) (limit : N) : bool * Progress :=
  if negb (bool_decide (pr_state p = InSnapshot)) then (false, p) else
  let p := set_snapshot_elapsed p (sat_add (pr_snapshot_elapsed p) 1) in
  ((limit <=? pr_snapshot_elapsed p)%N, p).

Definition maybe_update (p : Progress) (acked : Index) : bool * Progress :=
  let advanced := (pr_matched p <? acked)%N in
  let p := if advanced then set_probe_sent (set_matched p acked) false else p in
  let p := set_next p (N.max (pr_next p) (sat_add acked 1)) in
  let p := if snapshot_is_moot p then become_probe p else p in
  (advanced, p).

Definition maybe_decr_to (p : Progress) (probe : Index) : bool * Progress :=
  let candidate := N.max probe (sat_add (pr_matched p) 1) in
  match pr_state p with
  | InSnapshot => (true, become_probe p)
  | Replicate =>
      if (probe <=? pr_matched p)%N then (false, p) else (true, set_next (become_probe p) candidate)
  | Probe =>
      if (pr_next p <=? candidate)%N then (false, p) else (true, set_probe_sent (set_next p candidate) false)
  end.

Definition is_paused (p : Progress) : bool :=
  match pr_state p with
  | Probe => pr_probe_sent p
  | Replicate => is_full (pr_inflights p)
  | InSnapshot => true
  end.

(** ** Every peer's progress, a vector sorted by node *)

Abbreviation ProgressMap := (list (NodeId * Progress)).

Definition index_of (m : ProgressMap) (id : NodeId) : option nat :=
  match binary_search m.*1 id with Ok at_ => Some at_ | Err _ => None end.
Definition pm_get (m : ProgressMap) (id : NodeId) : option Progress :=
  at_ ← index_of m id; snd <$> m !! at_.
(** [get_mut] followed by an assignment through the reference. *)
Definition pm_update (m : ProgressMap) (id : NodeId) (f : Progress -> Progress) : ProgressMap :=
  match index_of m id with Some at_ => alter (fun e => (e.1, f e.2)) at_ m | None => m end.
Definition pm_insert (m : ProgressMap) (id : NodeId) (p : Progress) : ProgressMap :=
  match index_of m id with
  | Some at_ => alter (fun e => (e.1, p)) at_ m
  | None => vec_insert (partition_point m.*1 id) (id, p) m
  end.
Definition pm_remove (m : ProgressMap) (id : NodeId) : ProgressMap :=
  match index_of m id with Some at_ => delete at_ m | None => m end.
Definition pm_contains (m : ProgressMap) (id : NodeId) : bool := bool_decide (is_Some (index_of m id)).
Definition pm_ids (m : ProgressMap) : list NodeId := m.*1.

(** ** The map is a map *)

Definition pm_ok (m : ProgressMap) : Prop := sorted_set m.*1.

Lemma index_of_Some m id at_ : pm_ok m -> index_of m id = Some at_ -> exists p, m !! at_ = Some (id, p).
Proof.
  intros Hm. unfold index_of, binary_search. case_bool_decide as Hin; [|done]. intros [= <-].
  pose proof (partition_point_lookup m.*1 id Hm Hin) as E. rewrite list_lookup_fmap in E.
  apply fmap_Some in E as ([id' p] & Hp & ->). exists p. exact Hp.
Qed.
Lemma index_of_None m id : index_of m id = None <-> id ∉ m.*1.
Proof. unfold index_of, binary_search. case_bool_decide; split; done. Qed.

Lemma pm_get_elem m id p : pm_ok m -> pm_get m id = Some p <-> (id, p) ∈ m.
Proof.
  intros Hm. unfold pm_get. destruct (index_of m id) as [at_|] eqn:E; cbn.
  - destruct (index_of_Some m id at_ Hm E) as [q Hq]. rewrite Hq. cbn. split.
    + intros [= ->]. by eapply list_elem_of_lookup_2.
    + intros Hin. assert ((id, q) = (id, p)) as Heq; [|congruence].
      eapply (NoDup_fmap_elem fst m); [by apply sorted_set_nodup|by eapply list_elem_of_lookup_2|done|done].
  - apply index_of_None in E. split; [done|]. intros Hin. destruct E. apply list_elem_of_fmap. by exists (id, p).
Qed.

Lemma pm_get_is_Some m id : pm_ok m -> is_Some (pm_get m id) <-> id ∈ m.*1.
Proof.
  intros Hm. rewrite list_elem_of_fmap. split.
  - intros [p Hp]. apply pm_get_elem in Hp; [|done]. by exists (id, p).
  - intros ([id' p] & -> & Hin). exists p. by apply pm_get_elem.
Qed.

Lemma alter_keys (f : Progress -> Progress) at_ (m : ProgressMap) : (alter (fun e => (e.1, f e.2)) at_ m).*1 = m.*1.
Proof. revert at_; induction m as [|[id p] m IH]; intros [|at_]; cbn; [done..|]. by rewrite IH. Qed.

Lemma vec_insert_fmap {A B} (f : A -> B) at_ x l : f <$> vec_insert at_ x l = vec_insert at_ (f x) (f <$> l).
Proof. unfold vec_insert. by rewrite fmap_app, fmap_cons, fmap_take, fmap_drop. Qed.

(** [insert], [remove] and writing through [get_mut] keep the vector sorted. *)
Lemma pm_insert_ok m id p : pm_ok m -> pm_ok (pm_insert m id p).
Proof.
  intros Hm. unfold pm_insert, pm_ok. destruct (index_of m id) as [at_|] eqn:E.
  - rewrite (alter_keys (fun _ => p)). done.
  - apply index_of_None in E. rewrite vec_insert_fmap. by apply sorted_set_insert.
Qed.
Lemma pm_update_ok m id f : pm_ok m -> pm_ok (pm_update m id f).
Proof. intros Hm. unfold pm_update, pm_ok. case_match; [|done]. by rewrite alter_keys. Qed.
Lemma sorted_set_delete l at_ : sorted_set l -> sorted_set (delete at_ l).
Proof.
  unfold sorted_set. intros Hs. revert at_; induction Hs as [|x l Hs IH Hx]; intros at_; [constructor|].
  destruct at_ as [|at_]; cbn; [done|]. constructor; [apply IH|]. apply Forall_forall. intros y Hy. rewrite Forall_forall in Hx. apply Hx.
  eapply elem_of_submseteq; [exact Hy|]. apply sublist_submseteq, sublist_delete.
Qed.
Lemma pm_remove_ok m id : pm_ok m -> pm_ok (pm_remove m id).
Proof.
  intros Hm. unfold pm_remove, pm_ok. case_match; [|done].
  rewrite (list_fmap_delete fst). by apply sorted_set_delete.
Qed.

Lemma pm_get_update m id f id' : pm_ok m ->
  pm_get (pm_update m id f) id' = if decide (id = id') then f <$> pm_get m id' else pm_get m id'.
Proof.
  intros Hm. unfold pm_get, pm_update. destruct (index_of m id) as [at_|] eqn:E.
  - assert (index_of (alter (fun e => (e.1, f e.2)) at_ m) id' = index_of m id') as ->
      by (unfold index_of; by rewrite alter_keys).
    case_decide as Hid.
    + subst id'. rewrite E. cbn. rewrite list_lookup_alter_eq. destruct (m !! at_) as [[]|] eqn:Em; rewrite ?Em; done.
    + destruct (index_of m id') as [at'|] eqn:E'; [|done]. cbn. rewrite list_lookup_alter_ne; [done|]. intros ->.
      apply index_of_Some in E as [p Hp]; [|done]. apply index_of_Some in E' as [p' Hp']; [|done]. congruence.
  - case_decide; [|done]. subst. by rewrite E.
Qed.

(** ** The rules of one follower *)

Definition progress_ok (p : Progress) : Prop :=
  (pr_matched p < pr_next p)%N /\
  (length (window (pr_inflights p)) <= capacity (pr_inflights p))%nat /\ (1 <= capacity (pr_inflights p))%nat.

Lemma Progress_new_ok next max_inflight is_learner : (0 < next)%N -> progress_ok (Progress_new next max_inflight is_learner).
Proof. intros Hn. split; [done|]. cbn. lia. Qed.
Lemma inflights_add_ok i last : (length (window i) <= capacity i)%nat -> (length (window (inflights_add i last)) <= capacity i)%nat.
Proof.
  intros Hi. unfold inflights_add, is_full. destruct (Nat.leb_spec (capacity i) (length (window i))); [done|].
  cbn. rewrite length_app. cbn. lia.
Qed.
Lemma free_window_length acked w : (length (free_window acked w) <= length w)%nat.
Proof. induction w as [|x w IH]; cbn; [done|]. case_match; cbn; lia. Qed.

Lemma become_probe_ok p : progress_ok p -> (pr_matched p < u64_max)%N -> (pr_pending_snapshot p < u64_max)%N ->
  progress_ok (become_probe p) /\ pr_matched (become_probe p) = pr_matched p.
Proof.
  intros (Hn & Hw & Hc) Hm Hp. split; [|done]. split; [|cbn; lia]. cbn.
  case_bool_decide; rewrite sat_add_small by lia; lia.
Qed.

(** An acknowledgement moves [matched] up to the acknowledged
    index and never back; a rejection never touches it; and [next] stays
    above it whatever the follower answers, so nothing acknowledged is sent
    again.  While probing, a rejection only ever lowers [next]. *)
Theorem progress_rules p i : progress_ok p -> (i < u64_max)%N -> (pr_matched p < u64_max)%N -> (pr_pending_snapshot p < u64_max)%N ->
  (forall advanced p', maybe_update p i = (advanced, p') ->
     progress_ok p' /\ pr_matched p' = N.max (pr_matched p) i /\ advanced = (pr_matched p <? i)%N) /\
  (forall moved p', maybe_decr_to p i = (moved, p') ->
     progress_ok p' /\ pr_matched p' = pr_matched p /\
     (pr_state p = Probe -> (pr_next p' <= pr_next p)%N /\ moved = (pr_next p' <? pr_next p)%N)) /\
  progress_ok (become_replicate p) /\ (length (window (free_to (pr_inflights p) i)) <= capacity (pr_inflights p))%nat.
Proof.
  intros (Hn & Hw & Hc) Hi Hm Hp. split; [|split; [|split]].
  - intros advanced p'. unfold maybe_update.
    set (q := set_next _ _). intros [= <- <-].
    assert (progress_ok q /\ pr_matched q = N.max (pr_matched p) i /\ pr_pending_snapshot q = pr_pending_snapshot p) as (Hq & Em & Ep).
    { unfold q. destruct (N.ltb_spec (pr_matched p) i); cbn; rewrite sat_add_small by lia; (split; [|split; [lia|done]]);
        (split; [cbn; lia|done]). }
    case_match; [|done]. destruct (become_probe_ok q Hq) as [Hb Eb]; [rewrite Em|rewrite Ep|]; [lia..|]. by rewrite Eb.
  - intros moved p'. unfold maybe_decr_to. destruct (pr_state p) eqn:Es.
    + rewrite sat_add_small by lia. destruct (N.leb_spec (pr_next p) (N.max i (pr_matched p + 1))) as [L|L]; intros [= <- <-].
      * split; [done|]. split; [done|]. intros _. split; [lia|]. symmetry. apply N.ltb_irrefl.
      * split; [split; [cbn; lia|done]|]. split; [done|]. intros _. cbn. split; [lia|]. symmetry. apply N.ltb_lt. lia.
    + rewrite sat_add_small by lia. destruct (N.leb_spec i (pr_matched p)); intros [= <- <-]; [done|].
      split; [|done]. split; cbn; lia.
    + intros [= <- <-]. by destruct (become_probe_ok p (conj Hn (conj Hw Hc)) Hm Hp).
  - split; cbn; [rewrite sat_add_small by lia; lia|lia].
  - pose proof (free_window_length i (window (pr_inflights p))). cbn. lia.
Qed.

Lemma progress_rules_witness :
  progress_ok (snd (maybe_update (Progress_new 5 256 false) 7)) /\ pr_matched (snd (maybe_update (Progress_new 5 256 false) 7)) = 7%N.
Proof.
  destruct (proj1 (progress_rules (Progress_new 5 256 false) 7 (Progress_new_ok 5 256 false eq_refl) eq_refl eq_refl eq_refl) _ _ eq_refl)
    as (Ho & Em & _). exact (conj Ho Em).
Defined.

(** In [Replicate] a stale rejection can raise [next].
    A follower known to match index 60, to which entries up to 69 were sent,
    is moved to index 101 by a rejection whose probe point is 101. *)
Theorem stale_rejection_raises_next :
  maybe_decr_to (mkProgress 60 70 Replicate true false 0 0 false (Inflights_new 256)) 101 =
    (true, mkProgress 60 101 Probe true false 0 0 false (Inflights_new 256)).
Proof. vm_compute. reflexivity. Qed.
