(* ===== verification/RaftConf.v ===== *)
(** The membership in force, and how to undo the part that is not committed:
    [ConfTracker] of [esker-raft/src/conf.rs].

    A configuration takes effect when its entry is appended, so it may have to
    be taken back when the entry is truncated.  The theorem: appending,
    truncating and committing keep the tracker equal to the replay of the
    membership changes that are in the log. *)

From stdpp Require Import prelude sorting.
From Stdlib Require Import NArith ZArith Lia.
From S2P Require Import Prelude SortedVec RaftTypes.

Record ConfTracker : Type := mkConfTracker {
  ct_base : ConfState;
  ct_base_index : Index;
  ct_appended : list (Index * ConfState) }.

Definition ConfTracker_new (base : ConfState) (index : Index) : ConfTracker := mkConfTracker base index [].

Definition current (t : ConfTracker) : ConfState := from_option snd (ct_base t) (last (ct_appended t)).

Definition ct_append (t : ConfTracker) (index : Index) (change : ConfChange) : ConfTracker :=
  let '(_, next) := apply_to change (current t) in
  mkConfTracker (ct_base t) (ct_base_index t) (filter (fun e => (e.1 < index)%N) (ct_appended t) ++ [(index, next)]).

(** [truncate_from]: whether the configuration changed, and the tracker. *)
Definition truncate_from (t : ConfTracker) (index : Index) : bool * ConfTracker :=
  let before := current t in
  let t := mkConfTracker (ct_base t) (ct_base_index t) (filter (fun e => (e.1 < index)%N) (ct_appended t)) in
  (bool_decide (current t <> before), t).

Fixpoint ct_commit_loop (base : ConfState) (base_index : Index) (appended : list (Index * ConfState)) (index : Index) : ConfTracker :=
  match appended with
  | (at_, conf) :: appended' =>
      if (index <? at_)%N then mkConfTracker base base_index appended
      else ct_commit_loop conf at_ appended' index
  | [] => mkConfTracker base base_index []
  end.
Definition ct_commit_to (t : ConfTracker) (index : Index) : ConfTracker :=
  ct_commit_loop (ct_base t) (ct_base_index t) (ct_appended t) index.

Definition pending (t : ConfTracker) : option Index := fst <$> head (ct_appended t).

Definition ct_reset (t : ConfTracker) (conf : ConfState) (index : Index) : ConfTracker := mkConfTracker conf index [].

(** ** The tracker replays the log *)

(** The memberships that result from [changes], each at its index. *)
Fixpoint replay (base : ConfState) (changes : list (Index * ConfChange)) : list (Index * ConfState) :=
  match changes with
  | [] => []
  | (at_, change) :: changes => let next := snd (apply_to change base) in (at_, next) :: replay next changes
  end.
Definition replayed (base : ConfState) (changes : list (Index * ConfChange)) : ConfState :=
  foldl (fun conf c => snd (apply_to c.2 conf)) base changes.

(** [tracks t changes]: above its base, [t] holds exactly [changes], in index order. *)
Definition tracks (t : ConfTracker) (changes : list (Index * ConfChange)) : Prop :=
  ct_appended t = replay (ct_base t) changes /\ sorted_set (ct_base_index t :: changes.*1).

Lemma replay_indices (Q : Index -> Prop) base changes :
  Forall (fun c => Q c.1) changes -> Forall (fun e => Q e.1) (replay base changes).
Proof. intros Hq. revert base; induction Hq as [|[i c] changes ? ? IH]; intros base; cbn; constructor; auto. Qed.
Lemma replay_app base changes changes' : replay base (changes ++ changes') = replay base changes ++ replay (replayed base changes) changes'.
Proof. revert base; induction changes as [|[i c] changes IH]; intros base; cbn; [done|]. by rewrite IH. Qed.
Lemma replayed_app base changes changes' : replayed base (changes ++ changes') = replayed (replayed base changes) changes'.
Proof. unfold replayed. by rewrite foldl_app. Qed.

Lemma last_replay base changes : from_option snd base (last (replay base changes)) = replayed base changes.
Proof.
  destruct changes as [|[i c] changes _] using rev_ind; [done|].
  rewrite replay_app, replayed_app. cbn. by rewrite last_snoc.
Qed.
Lemma current_tracks t changes : tracks t changes -> current t = replayed (ct_base t) changes.
Proof. intros [E _]. unfold current. rewrite E. apply last_replay. Qed.

(** Sorted changes split at any index into those below and the rest. *)
Lemma sorted_split (b : Index) (changes : list (Index * ConfChange)) index : sorted_set (b :: changes.*1) ->
  exists l r, changes = l ++ r /\ Forall (fun c => c.1 < index)%N l /\ Forall (fun c => index <= c.1)%N r.
Proof.
  revert b; induction changes as [|[i c] changes IH]; intros b Hs; [by exists [], []|].
  cbn in Hs. inversion Hs as [|? ? Hs' _]; subst. destruct (IH i Hs') as (l & r & -> & Hl & Hr).
  destruct (decide (i < index)%N) as [L|L].
  - exists ((i, c) :: l), r. split; [done|]. split; [by constructor|done].
  - exists [], ((i, c) :: l ++ r). split; [done|]. split; [constructor|]. constructor; [cbn; lia|].
    inversion Hs' as [|? ? _ Hi]; subst. apply Forall_forall. intros [i' c'] Hin. cbn.
    rewrite Forall_forall in Hi. specialize (Hi i'). cbn in L.
    assert (i < i')%N; [|lia]. apply Hi. apply list_elem_of_fmap. by exists (i', c').
Qed.

Lemma filter_replay base l r index : Forall (fun c => c.1 < index)%N l -> Forall (fun c => index <= c.1)%N r ->
  filter (fun e => (e.1 < index)%N) (replay base (l ++ r)) = replay base l.
Proof.
  intros Hl Hr. rewrite replay_app, filter_app. rewrite filter_all, filter_none; [apply app_nil_r|..].
  - apply (replay_indices (fun i => ~ (i < index)%N)). eapply Forall_impl; [exact Hr|]. cbn. lia.
  - by apply (replay_indices (fun i => i < index)%N).
Qed.

Lemma ct_commit_loop_spec base base_index l r index : Forall (fun c => c.1 <= index)%N l -> Forall (fun c => index < c.1)%N r ->
  ct_commit_loop base base_index (replay base (l ++ r)) index =
    mkConfTracker (replayed base l) (from_option fst base_index (last l)) (replay (replayed base l) r).
Proof.
  intros Hl Hr. revert base base_index; induction l as [|[i c] l IH]; intros base base_index; cbn [app replay ct_commit_loop].
  - destruct r as [|[i c] r]; [done|]. inversion Hr; subst. cbn in *. by rewrite (proj2 (N.ltb_lt _ _)).
  - inversion Hl as [|? ? Hi Hl']; subst. cbn in Hi. rewrite (proj2 (N.ltb_ge _ _)) by done.
    rewrite (IH Hl'). f_equal. destruct l as [|x l]; [done|]. change (last ((i, c) :: x :: l)) with (last (x :: l)).
    destruct (last (x :: l)) eqn:E; [done|by apply last_None in E].
Qed.

Lemma sorted_set_app_l (l r : list Index) : sorted_set (l ++ r) -> sorted_set l.
Proof. apply StronglySorted_app_1_l. Qed.
Lemma sorted_set_app_r (l r : list Index) : sorted_set (l ++ r) -> sorted_set r.
Proof. apply StronglySorted_app_1_r. Qed.
Lemma sorted_set_last (b : Index) (l r : list Index) : sorted_set (b :: l ++ r) -> sorted_set (default b (last l) :: r).
Proof.
  intros Hs. destruct (last l) as [x|] eqn:E; cbn.
  - apply last_Some in E as [l' ->]. rewrite <- app_assoc in Hs. cbn in Hs. by apply (sorted_set_app_r (b :: l')).
  - apply last_None in E as ->. done.
Qed.

(** The configuration in force is always the replay of the
    membership changes in the log.  Appending a change above the others adds
    it, truncating takes back exactly the changes at or above the index, and
    committing folds the settled ones into the base without moving the
    configuration in force. *)
Theorem conf_tracker_replays t changes index : tracks t changes ->
  current t = replayed (ct_base t) changes /\
  (forall change, Forall (fun c => c.1 < index)%N changes -> (ct_base_index t < index)%N ->
     tracks (ct_append t index change) (changes ++ [(index, change)]) /\ ct_base (ct_append t index change) = ct_base t) /\
  (tracks (snd (truncate_from t index)) (filter (fun c => (c.1 < index)%N) changes) /\
   ct_base (snd (truncate_from t index)) = ct_base t /\
   fst (truncate_from t index) = bool_decide (current (snd (truncate_from t index)) <> current t)) /\
  (tracks (ct_commit_to t index) (filter (fun c => (index < c.1)%N) changes) /\
   ct_base (ct_commit_to t index) = replayed (ct_base t) (filter (fun c => (c.1 <= index)%N) changes) /\
   current (ct_commit_to t index) = current t).
Proof.
  intros Ht. pose proof Ht as [E Hs]. split; [by apply current_tracks|]. split; [|split].
  - intros change Hl Hb. unfold ct_append. destruct (apply_to change (current t)) as [moved next] eqn:En.
    split; [|done]. split; cbn [ct_appended ct_base ct_base_index].
    + rewrite E. rewrite <- (app_nil_r changes) at 1. rewrite filter_replay by done.
      rewrite replay_app. cbn [replay]. by rewrite <- (current_tracks t changes Ht), En.
    + rewrite fmap_app. apply (StronglySorted_app_2 _ (_ :: _) [index]); [|done|repeat constructor].
      intros x y [->|(c & -> & Hc)%list_elem_of_fmap]%elem_of_cons ->%list_elem_of_singleton; [done|].
      rewrite Forall_forall in Hl. by apply Hl.
  - destruct (sorted_split _ _ index Hs) as (l & r & -> & Hl & Hr). unfold truncate_from. cbn [snd fst ct_base].
    split; [|done]. rewrite filter_app, (filter_all _ l), (filter_none _ r), app_nil_r;
      [|eapply Forall_impl; [exact Hr|]; cbn; lia|done].
    split; cbn [ct_appended ct_base ct_base_index]; [by rewrite E, filter_replay|].
    rewrite fmap_app in Hs. by apply (sorted_set_app_l (_ :: _)) in Hs.
  - destruct (sorted_split _ _ (index + 1) Hs) as (l & r & -> & Hl & Hr).
    assert (Forall (fun c => c.1 <= index)%N l) as Hl' by (eapply Forall_impl; [exact Hl|]; cbn; lia).
    assert (Forall (fun c => index < c.1)%N r) as Hr' by (eapply Forall_impl; [exact Hr|]; cbn; lia).
    rewrite !filter_app.
    rewrite (filter_none _ l), (filter_all _ r), (filter_all (fun c => (c.1 <= index)%N) l), (filter_none (fun c => (c.1 <= index)%N) r);
      [|eapply Forall_impl; [exact Hr'|]; cbn; lia|done|done|eapply Forall_impl; [exact Hl'|]; cbn; lia].
    rewrite app_nil_r. cbn [app].
    assert (tracks (ct_commit_to t index) r /\ ct_base (ct_commit_to t index) = replayed (ct_base t) l) as [Hc Eb].
    { unfold ct_commit_to. rewrite E, ct_commit_loop_spec by done. split; [|done]. split; [done|]. cbn [ct_base_index].
      rewrite fmap_app in Hs. apply sorted_set_last in Hs. rewrite fmap_last in Hs. by destruct (last l). }
    split; [done|]. split; [done|].
    by rewrite (current_tracks _ _ Hc), Eb, (current_tracks t _ Ht), replayed_app.
Qed.

(** Node 4 added at index 3, voter 1 removed at index 5. *)
Definition example_tracker : ConfTracker :=
  ct_append (ct_append (ConfTracker_new (from_voters [1; 2; 3]%N) 2) 3 (ConfChange_new AddVoter 4)) 5 (ConfChange_new Remove 1).

Lemma conf_tracker_replays_witness :
  current example_tracker = from_voters [2; 3; 4]%N /\
  current (snd (truncate_from example_tracker 5)) = from_voters [1; 2; 3; 4]%N /\
  current (ct_commit_to example_tracker 4) = current example_tracker.
Proof.
  assert (tracks example_tracker [(3%N, ConfChange_new AddVoter 4); (5%N, ConfChange_new Remove 1)]) as Ht.
  { split; [reflexivity|]. repeat constructor. }
  destruct (conf_tracker_replays example_tracker _ 5 Ht) as (E & _ & (T & B & _) & _).
  destruct (conf_tracker_replays example_tracker _ 4 Ht) as (_ & _ & _ & _ & _ & C).
  split; [rewrite E; vm_compute; reflexivity|]. split; [|exact C].
  rewrite (proj1 (conf_tracker_replays _ _ 0 T)), B. vm_compute. reflexivity.
Defined.
