(* ===== verification/RaftState.v ===== *)
(** The state of one Raft node: [Raft] of [esker-raft/src/core.rs] and the
    read-only rounds of [readonly.rs], with the effects its handlers run in.

    A handler is a function of the node's state that answers a value or an
    error and leaves a state behind either way: what was assigned before an
    error stays assigned, as in the source. *)

From Stdlib Require Import Strings.Byte.
From stdpp Require Import prelude.
From Stdlib Require Import NArith ZArith Lia.
From S2P Require Import Prelude SortedVec Rng RaftTypes RaftStorage RaftLog RaftProgress RaftConf.

(** ** Read-index rounds *)

Record ReadIndexRound : Type := mkRound {
  round_index : Index;
  round_ctx : bytes;
  round_acks : list NodeId;
  round_from : option NodeId }.

(** [ReadIndexRound::ack]: the number of distinct confirmations. *)
Definition ack (round : ReadIndexRound) (node : NodeId) : nat * ReadIndexRound :=
  let acks :=
    match binary_search (round_acks round) node with
    | Err at_ => vec_insert at_ node (round_acks round)
    | Ok _ => round_acks round
    end in
  (length acks, mkRound (round_index round) (round_ctx round) acks (round_from round)).

Record ReadOnly : Type := mkReadOnly {
  ro_pending : list ReadIndexRound;
  ro_postponed : list (bytes * option NodeId) }.
Definition ReadOnly_new : ReadOnly := mkReadOnly [] [].

Definition add_request (ro : ReadOnly) (index : Index) (ctx : bytes) (from : option NodeId) (leader : NodeId) : ReadOnly :=
  if existsb (fun round => bool_decide (round_ctx round = ctx)) (ro_pending ro) then ro else
  let '(_, round) := ack (mkRound index ctx [] from) leader in
  mkReadOnly (ro_pending ro ++ [round]) (ro_postponed ro).

(** The first round tagged [ctx] takes the confirmation. *)
Fixpoint ack_in (pending : list ReadIndexRound) (ctx : bytes) (node : NodeId) : option (nat * list ReadIndexRound) :=
  match pending with
  | [] => None
  | round :: rest =>
      if bool_decide (round_ctx round = ctx)
      then let '(n, round) := ack round node in Some (n, round :: rest)
      else '(n, rest) ← ack_in rest ctx node; Some (n, round :: rest)
  end.
Definition record_ack (ro : ReadOnly) (ctx : bytes) (node : NodeId) : option nat * ReadOnly :=
  match ack_in (ro_pending ro) ctx node with
  | Some (n, pending) => (Some n, mkReadOnly pending (ro_postponed ro))
  | None => (None, ro)
  end.

(** [advance]: the rounds up to the one tagged [ctx] leave. *)
Fixpoint split_at_ctx (pending : list ReadIndexRound) (ctx : bytes) : option (list ReadIndexRound * list ReadIndexRound) :=
  match pending with
  | [] => None
  | round :: rest =>
      if bool_decide (round_ctx round = ctx) then Some ([round], rest)
      else '(finished, kept) ← split_at_ctx rest ctx; Some (round :: finished, kept)
  end.
Definition ro_advance (ro : ReadOnly) (ctx : bytes) : list ReadIndexRound * ReadOnly :=
  match split_at_ctx (ro_pending ro) ctx with
  | Some (finished, kept) => (finished, mkReadOnly kept (ro_postponed ro))
  | None => ([], ro)
  end.

Definition last_pending_ctx (ro : ReadOnly) : option bytes := round_ctx <$> last (ro_pending ro).
Definition postpone (ro : ReadOnly) (ctx : bytes) (from : option NodeId) : ReadOnly :=
  if existsb (fun p => bool_decide (p.1 = ctx)) (ro_postponed ro) then ro
  else mkReadOnly (ro_pending ro) (ro_postponed ro ++ [(ctx, from)]).
Definition take_postponed (ro : ReadOnly) : list (bytes * option NodeId) * ReadOnly :=
  (ro_postponed ro, mkReadOnly (ro_pending ro) []).
Definition ro_reset (ro : ReadOnly) : ReadOnly := mkReadOnly [] [].

(** ** The node *)

Inductive Role : Type := Follower | PreCandidate | Candidate | Leader.
#[export] Instance Role_eq_dec : EqDecision Role.
Proof. solve_decision. Defined.

Record Raft (St : Type) : Type := mkRaft {
  r_id : NodeId;
  r_term : Term;
  r_vote : option NodeId;
  r_role : Role;
  r_leader : option NodeId;
  r_log : RaftLog St;
  r_progress : ProgressMap;
  r_conf : ConfTracker;
  r_votes : list (NodeId * bool);
  r_messages : list Message;
  r_read_states : list ReadState;
  r_read_only : ReadOnly;
  r_election_elapsed : N;
  r_heartbeat_elapsed : N;
  r_randomized_election_timeout : N;
  r_counters : Counters;
  r_election_tick : N * N;
  r_heartbeat_tick : N;
  r_max_inflight_msgs : nat;
  r_max_size_per_msg : N;
  r_pre_vote : bool;
  r_check_quorum : bool;
  r_rng : Pcg32;
  r_lead_transferee : option NodeId;
  r_own_term_index : Index }.
Arguments mkRaft {St}.
Arguments r_id {St} _.
Arguments r_term {St} _.
Arguments r_vote {St} _.
Arguments r_role {St} _.
Arguments r_leader {St} _.
Arguments r_log {St} _.
Arguments r_progress {St} _.
Arguments r_conf {St} _.
Arguments r_votes {St} _.
Arguments r_messages {St} _.
Arguments r_read_states {St} _.
Arguments r_read_only {St} _.
Arguments r_election_elapsed {St} _.
Arguments r_heartbeat_elapsed {St} _.
Arguments r_randomized_election_timeout {St} _.
Arguments r_counters {St} _.
Arguments r_election_tick {St} _.
Arguments r_heartbeat_tick {St} _.
Arguments r_max_inflight_msgs {St} _.
Arguments r_max_size_per_msg {St} _.
Arguments r_pre_vote {St} _.
Arguments r_check_quorum {St} _.
Arguments r_rng {St} _.
Arguments r_lead_transferee {St} _.
Arguments r_own_term_index {St} _.

(** Assignments to one field. *)
Section Setters.
Context {St : Type}.
Implicit Types r : Raft St.
Definition set_term r (v : Term) : Raft St :=
  mkRaft (r_id r) v (r_vote r) (r_role r) (r_leader r) (r_log r) (r_progress r) (r_conf r) (r_votes r)
    (r_messages r) (r_read_states r) (r_read_only r) (r_election_elapsed r) (r_heartbeat_elapsed r)
    (r_randomized_election_timeout r) (r_counters r) (r_election_tick r) (r_heartbeat_tick r)
    (r_max_inflight_msgs r) (r_max_size_per_msg r) (r_pre_vote r) (r_check_quorum r) (r_rng r)
    (r_lead_transferee r) (r_own_term_index r).
Definition set_vote r (v : option NodeId) : Raft St :=
  mkRaft (r_id r) (r_term r) v (r_role r) (r_leader r) (r_log r) (r_progress r) (r_conf r) (r_votes r)
    (r_messages r) (r_read_states r) (r_read_only r) (r_election_elapsed r) (r_heartbeat_elapsed r)
    (r_randomized_election_timeout r) (r_counters r) (r_election_tick r) (r_heartbeat_tick r)
    (r_max_inflight_msgs r) (r_max_size_per_msg r) (r_pre_vote r) (r_check_quorum r) (r_rng r)
    (r_lead_transferee r) (r_own_term_index r).
Definition set_role r (v : Role) : Raft St :=
  mkRaft (r_id r) (r_term r) (r_vote r) v (r_leader r) (r_log r) (r_progress r) (r_conf r) (r_votes r)
    (r_messages r) (r_read_states r) (r_read_only r) (r_election_elapsed r) (r_heartbeat_elapsed r)
    (r_randomized_election_timeout r) (r_counters r) (r_election_tick r) (r_heartbeat_tick r)
    (r_max_inflight_msgs r) (r_max_size_per_msg r) (r_pre_vote r) (r_check_quorum r) (r_rng r)
    (r_lead_transferee r) (r_own_term_index r).
Definition set_leader r (v : option NodeId) : Raft St :=
  mkRaft (r_id r) (r_term r) (r_vote r) (r_role r) v (r_log r) (r_progress r) (r_conf r) (r_votes r)
    (r_messages r) (r_read_states r) (r_read_only r) (r_election_elapsed r) (r_heartbeat_elapsed r)
    (r_randomized_election_timeout r) (r_counters r) (r_election_tick r) (r_heartbeat_tick r)
    (r_max_inflight_msgs r) (r_max_size_per_msg r) (r_pre_vote r) (r_check_quorum r) (r_rng r)
    (r_lead_transferee r) (r_own_term_index r).
Definition set_log r (v : RaftLog St) : Raft St :=
  mkRaft (r_id r) (r_term r) (r_vote r) (r_role r) (r_leader r) v (r_progress r) (r_conf r) (r_votes r)
    (r_messages r) (r_read_states r) (r_read_only r) (r_election_elapsed r) (r_heartbeat_elapsed r)
    (r_randomized_election_timeout r) (r_counters r) (r_election_tick r) (r_heartbeat_tick r)
    (r_max_inflight_msgs r) (r_max_size_per_msg r) (r_pre_vote r) (r_check_quorum r) (r_rng r)
    (r_lead_transferee r) (r_own_term_index r).
Definition set_progress r (v : ProgressMap) : Raft St :=
  mkRaft (r_id r) (r_term r) (r_vote r) (r_role r) (r_leader r) (r_log r) v (r_conf r) (r_votes r) (r_messages
    r) (r_read_states r) (r_read_only r) (r_election_elapsed r) (r_heartbeat_elapsed r)
    (r_randomized_election_timeout r) (r_counters r) (r_election_tick r) (r_heartbeat_tick r)
    (r_max_inflight_msgs r) (r_max_size_per_msg r) (r_pre_vote r) (r_check_quorum r) (r_rng r)
    (r_lead_transferee r) (r_own_term_index r).
Definition set_conf r (v : ConfTracker) : Raft St :=
  mkRaft (r_id r) (r_term r) (r_vote r) (r_role r) (r_leader r) (r_log r) (r_progress r) v (r_votes r)
    (r_messages r) (r_read_states r) (r_read_only r) (r_election_elapsed r) (r_heartbeat_elapsed r)
    (r_randomized_election_timeout r) (r_counters r) (r_election_tick r) (r_heartbeat_tick r)
    (r_max_inflight_msgs r) (r_max_size_per_msg r) (r_pre_vote r) (r_check_quorum r) (r_rng r)
    (r_lead_transferee r) (r_own_term_index r).
Definition set_votes r (v : list (NodeId * bool)) : Raft St :=
  mkRaft (r_id r) (r_term r) (r_vote r) (r_role r) (r_leader r) (r_log r) (r_progress r) (r_conf r) v
    (r_messages r) (r_read_states r) (r_read_only r) (r_election_elapsed r) (r_heartbeat_elapsed r)
    (r_randomized_election_timeout r) (r_counters r) (r_election_tick r) (r_heartbeat_tick r)
    (r_max_inflight_msgs r) (r_max_size_per_msg r) (r_pre_vote r) (r_check_quorum r) (r_rng r)
    (r_lead_transferee r) (r_own_term_index r).
Definition set_messages r (v : list Message) : Raft St :=
  mkRaft (r_id r) (r_term r) (r_vote r) (r_role r) (r_leader r) (r_log r) (r_progress r) (r_conf r) (r_votes
    r) v (r_read_states r) (r_read_only r) (r_election_elapsed r) (r_heartbeat_elapsed r)
    (r_randomized_election_timeout r) (r_counters r) (r_election_tick r) (r_heartbeat_tick r)
    (r_max_inflight_msgs r) (r_max_size_per_msg r) (r_pre_vote r) (r_check_quorum r) (r_rng r)
    (r_lead_transferee r) (r_own_term_index r).
Definition set_read_states r (v : list ReadState) : Raft St :=
  mkRaft (r_id r) (r_term r) (r_vote r) (r_role r) (r_leader r) (r_log r) (r_progress r) (r_conf r) (r_votes
    r) (r_messages r) v (r_read_only r) (r_election_elapsed r) (r_heartbeat_elapsed r)
    (r_randomized_election_timeout r) (r_counters r) (r_election_tick r) (r_heartbeat_tick r)
    (r_max_inflight_msgs r) (r_max_size_per_msg r) (r_pre_vote r) (r_check_quorum r) (r_rng r)
    (r_lead_transferee r) (r_own_term_index r).
Definition set_read_only r (v : ReadOnly) : Raft St :=
  mkRaft (r_id r) (r_term r) (r_vote r) (r_role r) (r_leader r) (r_log r) (r_progress r) (r_conf r) (r_votes
    r) (r_messages r) (r_read_states r) v (r_election_elapsed r) (r_heartbeat_elapsed r)
    (r_randomized_election_timeout r) (r_counters r) (r_election_tick r) (r_heartbeat_tick r)
    (r_max_inflight_msgs r) (r_max_size_per_msg r) (r_pre_vote r) (r_check_quorum r) (r_rng r)
    (r_lead_transferee r) (r_own_term_index r).
Definition set_election_elapsed r (v : N) : Raft St :=
  mkRaft (r_id r) (r_term r) (r_vote r) (r_role r) (r_leader r) (r_log r) (r_progress r) (r_conf r) (r_votes
    r) (r_messages r) (r_read_states r) (r_read_only r) v (r_heartbeat_elapsed r)
    (r_randomized_election_timeout r) (r_counters r) (r_election_tick r) (r_heartbeat_tick r)
    (r_max_inflight_msgs r) (r_max_size_per_msg r) (r_pre_vote r) (r_check_quorum r) (r_rng r)
    (r_lead_transferee r) (r_own_term_index r).
Definition set_heartbeat_elapsed r (v : N) : Raft St :=
  mkRaft (r_id r) (r_term r) (r_vote r) (r_role r) (r_leader r) (r_log r) (r_progress r) (r_conf r) (r_votes
    r) (r_messages r) (r_read_states r) (r_read_only r) (r_election_elapsed r) v
    (r_randomized_election_timeout r) (r_counters r) (r_election_tick r) (r_heartbeat_tick r)
    (r_max_inflight_msgs r) (r_max_size_per_msg r) (r_pre_vote r) (r_check_quorum r) (r_rng r)
    (r_lead_transferee r) (r_own_term_index r).
Definition set_randomized_election_timeout r (v : N) : Raft St :=
  mkRaft (r_id r) (r_term r) (r_vote r) (r_role r) (r_leader r) (r_log r) (r_progress r) (r_conf r) (r_votes
    r) (r_messages r) (r_read_states r) (r_read_only r) (r_election_elapsed r) (r_heartbeat_elapsed r) v
    (r_counters r) (r_election_tick r) (r_heartbeat_tick r) (r_max_inflight_msgs r) (r_max_size_per_msg r)
    (r_pre_vote r) (r_check_quorum r) (r_rng r) (r_lead_transferee r) (r_own_term_index r).
Definition set_counters r (v : Counters) : Raft St :=
  mkRaft (r_id r) (r_term r) (r_vote r) (r_role r) (r_leader r) (r_log r) (r_progress r) (r_conf r) (r_votes
    r) (r_messages r) (r_read_states r) (r_read_only r) (r_election_elapsed r) (r_heartbeat_elapsed r)
    (r_randomized_election_timeout r) v (r_election_tick r) (r_heartbeat_tick r) (r_max_inflight_msgs r)
    (r_max_size_per_msg r) (r_pre_vote r) (r_check_quorum r) (r_rng r) (r_lead_transferee r) (r_own_term_index
    r).
Definition set_rng r (v : Pcg32) : Raft St :=
  mkRaft (r_id r) (r_term r) (r_vote r) (r_role r) (r_leader r) (r_log r) (r_progress r) (r_conf r) (r_votes
    r) (r_messages r) (r_read_states r) (r_read_only r) (r_election_elapsed r) (r_heartbeat_elapsed r)
    (r_randomized_election_timeout r) (r_counters r) (r_election_tick r) (r_heartbeat_tick r)
    (r_max_inflight_msgs r) (r_max_size_per_msg r) (r_pre_vote r) (r_check_quorum r) v (r_lead_transferee r)
    (r_own_term_index r).
Definition set_lead_transferee r (v : option NodeId) : Raft St :=
  mkRaft (r_id r) (r_term r) (r_vote r) (r_role r) (r_leader r) (r_log r) (r_progress r) (r_conf r) (r_votes
    r) (r_messages r) (r_read_states r) (r_read_only r) (r_election_elapsed r) (r_heartbeat_elapsed r)
    (r_randomized_election_timeout r) (r_counters r) (r_election_tick r) (r_heartbeat_tick r)
    (r_max_inflight_msgs r) (r_max_size_per_msg r) (r_pre_vote r) (r_check_quorum r) (r_rng r) v
    (r_own_term_index r).
Definition set_own_term_index r (v : Index) : Raft St :=
  mkRaft (r_id r) (r_term r) (r_vote r) (r_role r) (r_leader r) (r_log r) (r_progress r) (r_conf r) (r_votes
    r) (r_messages r) (r_read_states r) (r_read_only r) (r_election_elapsed r) (r_heartbeat_elapsed r)
    (r_randomized_election_timeout r) (r_counters r) (r_election_tick r) (r_heartbeat_tick r)
    (r_max_inflight_msgs r) (r_max_size_per_msg r) (r_pre_vote r) (r_check_quorum r) (r_rng r)
    (r_lead_transferee r) v.
End Setters.


(** ** Effects *)

(** A handler: an answer or an error, and the state it leaves. *)
Definition handler (St A : Type) : Type := Raft St -> result RaftError A * Raft St.

Section Handlers.
Context {St : Type}.

Definition hret {A} (a : A) : handler St A := fun r => (Ok a, r).
Definition hbind {A B} (m : handler St A) (k : A -> handler St B) : handler St B := fun r =>
  match m r with
  | (Ok a, r') => k a r'
  | (Err e, r') => (Err e, r')
  end.
(** A fallible read of the state, [self.f()?]. *)
Definition ask {A} (f : Raft St -> result RaftError A) : handler St A := fun r => (f r, r).
Definition gets {A} (f : Raft St -> A) : handler St A := fun r => (Ok (f r), r).
(** An assignment. *)
Definition modify (f : Raft St -> Raft St) : handler St unit := fun r => (Ok tt, f r).
(** A call on the log, which is written back whatever it answers. *)
Definition on_log {A} (f : RaftLog St -> result RaftError A * RaftLog St) : handler St A := fun r =>
  let '(a, l) := f (r_log r) in (a, set_log r l).
(** [for x in l { f(x)?; }]. *)
Fixpoint for_each {A} (l : list A) (f : A -> handler St unit) : handler St unit :=
  match l with
  | [] => hret tt
  | x :: l => hbind (f x) (fun _ => for_each l f)
  end.
End Handlers.

Notation "'let!' x ':=' m 'in' k" := (hbind m (fun x => k))
  (at level 10, x pattern, m at level 100, k at level 200,
   format "'[v' 'let!'  x  ':='  m  'in' '//' k ']'") : esker_scope.
