(* ===== verification/RaftReplication.v ===== *)
(** Replication, snapshots, reads and membership on one node:
    [esker-raft/src/replication.rs], [snapshot.rs], the handlers of
    [readonly.rs] and [conf.rs], and what [core.rs] shares among them. *)

From Stdlib Require Import Strings.Byte.
From stdpp Require Import prelude sorting.
From Stdlib Require Import NArith ZArith Lia.
From S2P Require Import Prelude SortedVec Rng RaftTypes RaftStorage RaftLog RaftProgress RaftConf RaftState.

Section Replication.
Context {St : Type} `{LogStorage St}.
Implicit Types r : Raft St.

(** ** What every handler uses ([core.rs]) *)

Definition reset_election_timeout r : Raft St :=
  let '(low, high) := r_election_tick r in
  let '(v, rng) := range_inclusive (r_rng r) low high in
  set_rng (set_randomized_election_timeout r v) rng.

Definition hard_state r : HardState := mkHardState (r_term r) (r_vote r) (rl_committed (r_log r)).
Definition is_voter r (id : NodeId) : bool := conf_is_voter (current (r_conf r)) id.
Definition send r (m : Message) : Raft St := set_messages r (r_messages r ++ [m]).

(** The body of [rebuild_progress]'s first loop: one member. *)
Definition rebuild_member (conf : ConfState) (next : Index) (max_inflight : nat) (m : ProgressMap) (id : NodeId) : ProgressMap :=
  let is_learner := conf_is_learner conf id in
  match pm_get m id with
  | Some _ =>
      pm_update m id (fun p =>
        let p := if pr_is_learner p && negb is_learner then set_recent_active p true else p in
        set_is_learner p is_learner)
  | None => pm_insert m id (set_recent_active (Progress_new next max_inflight is_learner) (negb is_learner))
  end.
Definition rebuild_progress : handler St unit :=
  let! last := ask (fun r => rl_last_index (r_log r)) in
  modify (fun r =>
    let next := sat_add last 1 in
    let conf := current (r_conf r) in
    let m := foldl (rebuild_member conf next (r_max_inflight_msgs r)) (r_progress r) (members conf) in
    set_progress r (foldl (fun m id => if conf_contains conf id then m else pm_remove m id) m (pm_ids m))).

Definition reset r (term : Term) : Raft St :=
  let r := if negb (r_term r =? term)%N then set_vote (set_term r term) None else r in
  let r := set_leader r None in
  let r := set_election_elapsed r 0 in
  let r := set_heartbeat_elapsed r 0 in
  let r := reset_election_timeout r in
  let r := set_votes r [] in
  let r := set_read_only r (ro_reset (r_read_only r)) in
  set_lead_transferee r None.

Definition become_follower r (term : Term) (leader : option NodeId) : Raft St :=
  set_leader (set_role (reset r term) Follower) leader.

(** ** Sending ([replication.rs], [snapshot.rs]) *)

Definition send_snapshot (to : NodeId) : handler St unit := fun r =>
  match rl_snapshot (r_log r) with
  | Ok snapshot =>
      if Snapshot_is_empty snapshot then (Ok tt, set_progress r (pm_update (r_progress r) to become_probe)) else
      let index := meta_index (snap_meta snapshot) in
      let r := send r (InstallSnapshot (r_id r) to (r_term r) snapshot) in
      (Ok tt, set_progress r (pm_update (r_progress r) to (fun p => become_snapshot p index)))
  | Err SnapshotTemporarilyUnavailable => (Ok tt, r)
  | Err error => (Err error, r)
  end.

Definition send_append (to : NodeId) : handler St unit := fun r =>
  match pm_get (r_progress r) to with
  | None => (Ok tt, r)
  | Some progress =>
      if is_paused progress then (Ok tt, r) else
      let next := N.max (pr_next progress) 1 in
      let prev_index := (next - 1)%N in
      match rl_last_index (r_log r) with
      | Err e => (Err e, r)
      | Ok own_last =>
          match rl_term (r_log r) prev_index, rl_slice (r_log r) next (sat_add own_last 1) (r_max_size_per_msg r) with
          | Ok prev_term, Ok entries =>
              let last_sent := from_option entry_index prev_index (last entries) in
              let carries_entries := negb (bool_decide (entries = [])) in
              let r := send r (AppendEntries (r_id r) to (r_term r) prev_index prev_term entries (rl_committed (r_log r)) []) in
              (Ok tt, set_progress r (pm_update (r_progress r) to (fun p =>
                match pr_state p with
                | Replicate =>
                    let p := set_next p (last_sent +% 1) in
                    if carries_entries then set_inflights p (inflights_add (pr_inflights p) last_sent) else p
                | Probe => set_probe_sent p true
                | InSnapshot => p
                end)))
          | _, _ => send_snapshot to r
          end
      end
  end.

Definition send_heartbeat (to : NodeId) (context : bytes) : handler St unit := fun r =>
  match pm_get (r_progress r) to with
  | None => (Ok tt, r)
  | Some progress =>
      let anchor := pr_matched progress in
      match rl_term (r_log r) anchor with
      | Err _ =>
          let r := set_progress r (pm_update (r_progress r) to (fun p =>
            if bool_decide (pr_state p = Probe) then set_probe_sent p false else p)) in
          send_append to r
      | Ok anchor_term =>
          let leader_commit := N.min (rl_committed (r_log r)) anchor in
          (Ok tt, send r (AppendEntries (r_id r) to (r_term r) anchor anchor_term [] leader_commit context))
      end
  end.

Definition bcast_append : handler St unit := fun r =>
  for_each (pm_ids (r_progress r)) (fun peer => if (peer =? r_id r)%N then hret tt else send_append peer) r.
Definition bcast_heartbeat (context : bytes) : handler St unit := fun r =>
  for_each (pm_ids (r_progress r)) (fun peer => if (peer =? r_id r)%N then hret tt else send_heartbeat peer context) r.

(** ** Reads ([readonly.rs]) *)

Definition answer_read r (index : Index) (ctx : bytes) (from : option NodeId) : Raft St :=
  match from with
  | None => set_read_states r (r_read_states r ++ [mkReadState index ctx])
  | Some follower => send r (ReadIndexResponse (r_id r) follower (r_term r) index ctx)
  end.

Definition has_committed_in_current_term r : bool :=
  is_ok_and (rl_term (r_log r) (rl_committed (r_log r))) (fun term => (term =? r_term r)%N).

Definition read_index (ctx : bytes) (from : option NodeId) : handler St unit := fun r =>
  if negb (bool_decide (r_role r = Leader)) then
    (Ok tt, match r_leader r with
            | Some leader => send r (ReadIndex (r_id r) leader (r_term r) ctx)
            | None => r
            end)
  else if negb (has_committed_in_current_term r) then (Ok tt, set_read_only r (postpone (r_read_only r) ctx from))
  else
    let index := rl_committed (r_log r) in
    if (quorum (current (r_conf r)) =? 1)%nat && is_voter r (r_id r) then (Ok tt, answer_read r index ctx from)
    else bcast_heartbeat ctx (set_read_only r (add_request (r_read_only r) index ctx from (r_id r))).

Definition record_read_ack r (from : NodeId) (context : bytes) : Raft St :=
  if bool_decide (context = []) || negb (bool_decide (r_role r = Leader)) || negb (is_voter r from) then r else
  let '(acks, ro) := record_ack (r_read_only r) context from in
  let r := set_read_only r ro in
  match acks with
  | None => r
  | Some acks =>
      if (acks <? quorum (current (r_conf r)))%nat then r else
      let '(rounds, ro) := ro_advance (r_read_only r) context in
      foldl (fun r round => answer_read r (round_index round) (round_ctx round) (round_from round)) (set_read_only r ro) rounds
  end.

Definition handle_read_index_response r (index : Index) (ctx : bytes) : Raft St :=
  set_read_states r (r_read_states r ++ [mkReadState index ctx]).

Definition flush_postponed_reads : handler St unit := fun r =>
  if negb (has_committed_in_current_term r) then (Ok tt, r) else
  let '(postponed, ro) := take_postponed (r_read_only r) in
  for_each postponed (fun '(ctx, from) => read_index ctx from) (set_read_only r ro).

(** ** Membership ([conf.rs]) *)

(** The loop of [record_conf_changes]: whether anything moved. *)
Fixpoint record_loop (entries : list Entry) (moved : bool) : handler St bool :=
  match entries with
  | [] => hret moved
  | entry :: entries =>
      if bool_decide (entry_kind entry = ConfChangeEntry) then
        let! change := ask (fun _ => ConfChange_decode (entry_data entry)) in
        let! moved' := (fun r =>
          let before := current (r_conf r) in
          let r := set_conf r (ct_append (r_conf r) (entry_index entry) change) in
          (Ok (bool_decide (current (r_conf r) <> before)), r)) in
        record_loop entries (moved || moved')
      else record_loop entries moved
  end.
Definition record_conf_changes (entries : list Entry) : handler St unit :=
  let! moved := record_loop entries false in
  if moved then rebuild_progress else hret tt.

Definition advance_conf_commit r : Raft St := set_conf r (ct_commit_to (r_conf r) (rl_committed (r_log r))).

Definition replay_conf_changes : handler St unit :=
  let! first := ask (fun r => rl_first_index (r_log r)) in
  let! last := ask (fun r => rl_last_index (r_log r)) in
  if (last <? first)%N then hret tt else
  let! entries := ask (fun r => rl_slice (r_log r) first (sat_add last 1) u64_max) in
  let! _ := record_conf_changes entries in
  modify advance_conf_commit.

Definition revert_conf_to (index : Index) : handler St unit := fun r =>
  let '(changed, conf) := truncate_from (r_conf r) index in
  let r := set_conf r conf in
  if changed then rebuild_progress r else (Ok tt, r).

Definition step_down_if_removed r : Raft St :=
  if bool_decide (r_role r = Leader) && negb (is_voter r (r_id r)) then become_follower r (r_term r) None else r.

(** ** Committing ([replication.rs]) *)

(** The highest index a majority of [voters] has reached: descending, the
    element at [quorum - 1]. *)
Definition majority_index (m : ProgressMap) (voters : list NodeId) : option Index :=
  let matched := (fun id => from_option pr_matched 0%N (pm_get m id)) <$> voters in
  reverse (sort_u64 matched) !! (length voters / 2 + 1 - 1)%nat.

Definition maybe_commit : handler St bool := fun r =>
  let voters := cs_voters (current (r_conf r)) in
  match majority_index (r_progress r) voters with
  | None => (Ok false, r)
  | Some candidate =>
      if (candidate <=? rl_committed (r_log r))%N then (Ok false, r) else
      if negb (rl_matches (r_log r) candidate (r_term r)) then (Ok false, r) else
      (let! _ := on_log (fun l => rl_commit_to l candidate) in
       let! _ := modify advance_conf_commit in
       let! _ := modify step_down_if_removed in
       let! _ := flush_postponed_reads in
       hret true) r
  end.

(** ** Proposing *)

Definition propose_entry (kind : EntryKind) (data : bytes) : handler St Index :=
  let! last := ask (fun r => rl_last_index (r_log r)) in
  let index := sat_add last 1 in
  let! entry := gets (fun r => mkEntry (r_term r) index kind data) in
  let! _ := on_log (fun l => rl_append l [entry]) in
  let! _ := record_conf_changes [entry] in
  let! _ := modify (fun r => set_progress r (pm_update (r_progress r) (r_id r) (fun own => snd (maybe_update own index)))) in
  let! _ := maybe_commit in
  let! _ := bcast_append in
  hret index.

Definition propose_conf_change (change : ConfChange) : handler St Index := fun r =>
  if negb (bool_decide (r_role r = Leader)) then (Err NotLeader, r) else
  match pending (r_conf r) with
  | Some at_ => (Err (ConfChangePending at_), r)
  | None =>
      if (rl_committed (r_log r) <? r_own_term_index r)%N then (Err (ConfChangePending (r_own_term_index r)), r) else
      match r_lead_transferee r with
      | Some target => (Err (LeadershipTransferInProgress target), r)
      | None =>
          let '(_, after) := apply_to change (current (r_conf r)) in
          if bool_decide (cs_voters after = []) then (Err (InvalidConfig LastVoterRemoved), r)
          else propose_entry ConfChangeEntry (ConfChange_encode change) r
      end
  end.
End Replication.
