(* ===== verification/RaftNode.v ===== *)
(** One Raft node: elections, leadership transfer, the rules that apply to
    every message, ticks, and how a node starts
    ([esker-raft/src/election.rs], [transfer.rs], [core.rs], and the message
    handlers of [replication.rs] and [snapshot.rs]). *)

From Stdlib Require Import Strings.Byte.
From stdpp Require Import prelude sorting.
From Stdlib Require Import NArith ZArith Lia.
From S2P Require Import Prelude SortedVec Rng RaftTypes RaftStorage RaftLog RaftProgress RaftConf RaftState RaftReplication.

Inductive CampaignKind : Type := PreElection | Election | Transfer.
#[export] Instance CampaignKind_eq_dec : EqDecision CampaignKind.
Proof. solve_decision. Defined.
Inductive VoteResult : Type := VotePending | Won | Lost.
#[export] Instance VoteResult_eq_dec : EqDecision VoteResult.
Proof. solve_decision. Defined.

(** [self.counters.f += 1]. *)
Definition count_campaign_pre (c : Counters) : Counters :=
  mkCounters (campaigns_pre c +% 1) (campaigns_real c) (vote_requests_sent c) (vote_responses_sent c)
    (vote_responses_granted c) (vote_responses_ignored c) (check_quorum_step_downs c).
Definition count_campaign_real (c : Counters) : Counters :=
  mkCounters (campaigns_pre c) (campaigns_real c +% 1) (vote_requests_sent c) (vote_responses_sent c)
    (vote_responses_granted c) (vote_responses_ignored c) (check_quorum_step_downs c).
Definition count_vote_request (c : Counters) : Counters :=
  mkCounters (campaigns_pre c) (campaigns_real c) (vote_requests_sent c +% 1) (vote_responses_sent c)
    (vote_responses_granted c) (vote_responses_ignored c) (check_quorum_step_downs c).
Definition count_vote_response (c : Counters) (granted : bool) : Counters :=
  mkCounters (campaigns_pre c) (campaigns_real c) (vote_requests_sent c) (vote_responses_sent c +% 1)
    (if granted then vote_responses_granted c +% 1 else vote_responses_granted c) (vote_responses_ignored c)
    (check_quorum_step_downs c).
Definition count_vote_ignored (c : Counters) : Counters :=
  mkCounters (campaigns_pre c) (campaigns_real c) (vote_requests_sent c) (vote_responses_sent c)
    (vote_responses_granted c) (vote_responses_ignored c +% 1) (check_quorum_step_downs c).
Definition count_step_down (c : Counters) : Counters :=
  mkCounters (campaigns_pre c) (campaigns_real c) (vote_requests_sent c) (vote_responses_sent c)
    (vote_responses_granted c) (vote_responses_ignored c) (check_quorum_step_downs c +% 1).

Section Node.
Context {St : Type} `{LogStorage St}.
Implicit Types r : Raft St.

(** ** Elections ([election.rs]) *)

Definition become_pre_candidate r : Raft St :=
  reset_election_timeout (set_votes (set_leader (set_role r PreCandidate) None) []).

Definition become_candidate r : Raft St :=
  let r := reset r (sat_add (r_term r) 1) in
  set_role (set_vote r (Some (r_id r))) Candidate.

Definition become_leader : handler St unit :=
  let! _ := modify (fun r =>
    let r := reset r (r_term r) in
    set_leader (set_role (set_vote r (Some (r_id r))) Leader) (Some (r_id r))) in
  let! last := ask (fun r => rl_last_index (r_log r)) in
  let! _ := modify (fun r =>
    let conf := current (r_conf r) in
    set_progress r (foldl (fun m peer =>
      pm_insert m peer (Progress_new (last +% 1) (r_max_inflight_msgs r) (conf_is_learner conf peer))) (r_progress r) (members conf))) in
  let index := sat_add last 1 in
  let! term := gets r_term in
  let! _ := on_log (fun l => rl_append l [Entry_empty term index]) in
  let! _ := modify (fun r =>
    let r := set_own_term_index r index in
    set_progress r (pm_update (r_progress r) (r_id r) (fun own =>
      set_recent_active (become_replicate (set_matched own index)) true))) in
  let! _ := maybe_commit in
  bcast_append.

(** How many of the recorded votes from voters in force are [granted]. *)
Definition count_votes (conf : ConfState) (votes : list (NodeId * bool)) (granted : bool) : nat :=
  length (filter (fun v => conf_is_voter conf v.1 = true /\ v.2 = granted) votes).

Definition poll r (from : NodeId) (granted : bool) : VoteResult * Raft St :=
  let r :=
    match binary_search (r_votes r).*1 from with
    | Err at_ => set_votes r (vec_insert at_ (from, granted) (r_votes r))
    | Ok _ => r
    end in
  let conf := current (r_conf r) in
  ((if (quorum conf <=? count_votes conf (r_votes r) true)%nat then Won
    else if (quorum conf <=? count_votes conf (r_votes r) false)%nat then Lost
    else VotePending), r).

(** One round of [campaign]; [won] is what a round decided at once goes on to. *)
Definition campaign_round (kind : CampaignKind) (won : handler St unit) : handler St unit := fun r =>
  if bool_decide (r_role r = Leader) then (Ok tt, r) else
  if negb (is_voter r (r_id r)) then (Ok tt, r) else
  let pre_vote := bool_decide (kind = PreElection) in
  let vote_term := sat_add (r_term r) 1 in
  let r :=
    if pre_vote then become_pre_candidate (set_counters r (count_campaign_pre (r_counters r)))
    else become_candidate (set_counters r (count_campaign_real (r_counters r))) in
  let '(result, r) := poll r (r_id r) true in
  if bool_decide (result = Won) then won r else
  match rl_last_index (r_log r) with
  | Err e => (Err e, r)
  | Ok last_log_index =>
      let last_log_term := last_term (r_log r) in
      let force := bool_decide (kind = Transfer) in
      (Ok tt, foldl (fun r peer =>
        if (peer =? r_id r)%N then r
        else send (set_counters r (count_vote_request (r_counters r)))
               (RequestVote (r_id r) peer vote_term last_log_index last_log_term pre_vote force))
        r (cs_voters (current (r_conf r))))
  end.

(** [campaign]: a pre-vote round won at once goes on to the election, an
    election won at once to office. *)
Definition campaign (kind : CampaignKind) : handler St unit :=
  match kind with
  | PreElection => campaign_round PreElection (campaign_round Election become_leader)
  | _ => campaign_round kind become_leader
  end.

Definition handle_vote_request r (from : NodeId) (term : Term) (last_log_index : Index) (last_log_term : Term) (pre_vote : bool) : Raft St :=
  let can_vote :=
    bool_decide (r_vote r = Some from) ||
    (bool_decide (r_vote r = None) && bool_decide (r_leader r = None)) ||
    (pre_vote && (r_term r <? term)%N) in
  let granted := can_vote && is_voter r from && is_up_to_date (r_log r) last_log_index last_log_term in
  let r := if granted && negb pre_vote then set_election_elapsed (set_vote r (Some from)) 0 else r in
  let r := set_counters r (count_vote_response (r_counters r) granted) in
  send r (RequestVoteResponse (r_id r) from (if pre_vote then term else r_term r) granted pre_vote).

Definition handle_vote_response (from : NodeId) (granted pre_vote : bool) : handler St unit := fun r =>
  let ignored := (Ok tt, set_counters r (count_vote_ignored (r_counters r))) in
  let count expected :=
    if negb (Bool.eqb pre_vote expected) then ignored else
    let '(result, r) := poll r from granted in
    match result with
    | VotePending => (Ok tt, r)
    | Won => if bool_decide (r_role r = PreCandidate) then campaign Election r else become_leader r
    | Lost => (Ok tt, become_follower r (r_term r) None)
    end in
  match r_role r with
  | PreCandidate => count true
  | Candidate => count false
  | Follower | Leader => ignored
  end.

(** ** Leadership transfer and check-quorum ([transfer.rs]) *)

Definition nudge_transferee (target : NodeId) : handler St unit := fun r =>
  match rl_last_index (r_log r) with
  | Err e => (Err e, r)
  | Ok last =>
      let caught_up := from_option (fun p => (pr_matched p =? last)%N) false (pm_get (r_progress r) target) in
      if caught_up then (Ok tt, send r (TimeoutNow (r_id r) target (r_term r))) else send_append target r
  end.

Definition transfer_leader (target : NodeId) : handler St unit := fun r =>
  if negb (bool_decide (r_role r = Leader)) then (Ok tt, r) else
  if (target =? r_id r)%N then (Ok tt, r) else
  if negb (is_voter r target) then (Ok tt, r) else
  if bool_decide (r_lead_transferee r = Some target) then (Ok tt, r) else
  nudge_transferee target (set_election_elapsed (set_lead_transferee r (Some target)) 0).

Definition maybe_finish_transfer (from : NodeId) : handler St unit := fun r =>
  if bool_decide (r_lead_transferee r = Some from) then nudge_transferee from r else (Ok tt, r).

Definition abort_transfer r : Raft St := set_lead_transferee r None.

Definition handle_timeout_now (from : NodeId) : handler St unit := fun r =>
  if bool_decide (r_role r = Leader) then (Ok tt, r) else
  if negb (is_voter r (r_id r)) then (Ok tt, r) else
  campaign Transfer r.

Definition check_quorum_active r : bool * Raft St :=
  let conf := current (r_conf r) in
  let active := filter (fun e => conf_is_voter conf e.1 = true /\ (e.1 = r_id r \/ pr_recent_active e.2 = true)) (r_progress r) in
  ((quorum conf <=? length active)%nat,
   set_progress r ((fun e => (e.1, set_recent_active e.2 false)) <$> r_progress r)).

(** ** Snapshots received and waited for ([snapshot.rs]) *)

Definition report_snapshot r (to : NodeId) (status : SnapshotStatus) : Raft St :=
  if negb (bool_decide (r_role r = Leader)) then r else
  match pm_get (r_progress r) to with
  | None => r
  | Some progress =>
      if negb (bool_decide (pr_state progress = InSnapshot)) then r else
      set_progress r (pm_update (r_progress r) to
        match status with Finished => become_probe | Failed => abort_snapshot end)
  end.

Definition expire_pending_snapshots r (limit : N) : Raft St :=
  set_progress r ((fun e =>
    let '(expired, p) := snapshot_tick e.2 limit in
    (e.1, if expired then abort_snapshot p else p)) <$> r_progress r).

Definition restore (snapshot : Snapshot) : handler St unit :=
  let! _ := modify (fun r =>
    set_conf (set_log r (rl_restore (r_log r) snapshot))
      (ct_reset (r_conf r) (meta_conf (snap_meta snapshot)) (meta_index (snap_meta snapshot)))) in
  rebuild_progress.

Definition handle_install_snapshot (from : NodeId) (snapshot : Snapshot) : handler St unit :=
  let! _ := modify (fun r => set_election_elapsed (set_leader r (Some from)) 0) in
  let! worth := gets (fun r => should_restore (r_log r) snapshot) in
  let! acknowledged :=
    if worth then
      (let! _ := restore snapshot in
       ask (fun r => rl_last_index (r_log r)))
    else gets (fun r => rl_committed (r_log r)) in
  modify (fun r => send r (AppendEntriesResponse (r_id r) from (r_term r) false acknowledged 0 [])).

(** ** Appends received and acknowledged ([replication.rs]) *)

(** The loop of [conflict_hint], walking down from [n] to the first index of the conflicting term. *)
Fixpoint hint_loop (l : RaftLog St) (first : Index) (conflict_term : Term) (n : nat) : Index :=
  match n with
  | O => 0%N
  | Datatypes.S n' =>
      if (first <? N.of_nat n)%N && is_ok_and (rl_term l (N.of_nat n')) (fun term => (term =? conflict_term)%N)
      then hint_loop l first conflict_term n' else N.of_nat n
  end.
Definition conflict_hint (l : RaftLog St) (prev_log_index : Index) : result RaftError (Index * Term) :=
  let? last := rl_last_index l in
  if (last <? prev_log_index)%N then Ok (last, last_term l) else
  match rl_term l prev_log_index with
  | Err _ => Ok (last, last_term l)
  | Ok conflict_term =>
      let? first := rl_first_index l in
      Ok (hint_loop l first conflict_term (N.to_nat prev_log_index), conflict_term)
  end.

(** The loop of [find_conflict_by_term], walking down from [n] past every greater term. *)
Fixpoint back_off_loop (l : RaftLog St) (term : Term) (n : nat) : Index :=
  match n with
  | O => 0%N
  | Datatypes.S n' =>
      if is_ok_and (rl_term l (N.of_nat n)) (fun own => (term <? own)%N) then back_off_loop l term n' else N.of_nat n
  end.
Definition find_conflict_by_term (l : RaftLog St) (index : Index) (term : Term) : Index :=
  back_off_loop l term (N.to_nat (N.min index (unwrap_or (rl_last_index l) 0%N))).

Definition handle_append_entries (from : NodeId) (prev_log_index : Index) (prev_log_term : Term) (entries : list Entry)
    (leader_commit : Index) (context : bytes) : handler St unit := fun r =>
  let r := set_election_elapsed (set_leader r (Some from)) 0 in
  let respond r reject index hint_term :=
    send r (AppendEntriesResponse (r_id r) from (r_term r) reject index hint_term context) in
  if (prev_log_index <? rl_committed (r_log r))%N then (Ok tt, respond r false (rl_committed (r_log r)) 0%N) else
  let conf_changes := filter (fun e => entry_kind e = ConfChangeEntry) entries in
  let '(appended, l) := maybe_append (r_log r) prev_log_index prev_log_term leader_commit entries in
  let r := set_log r l in
  match appended with
  | Ok (Some outcome) =>
      (let! _ :=
         match ao_spliced_from outcome with
         | Some from_index =>
             let! _ := if ao_truncated outcome then revert_conf_to from_index else hret tt in
             record_conf_changes (filter (fun e => (from_index <= entry_index e)%N) conf_changes)
         | None => hret tt
         end in
       let! _ := modify advance_conf_commit in
       modify (fun r => respond r false (ao_last outcome) 0%N)) r
  | Ok None | Err _ =>
      match conflict_hint (r_log r) prev_log_index with
      | Err e => (Err e, r)
      | Ok (index, hint_term) => (Ok tt, respond r true index hint_term)
      end
  end.

Definition handle_append_response (from : NodeId) (reject : bool) (index : Index) (hint_term : Term) (context : bytes)
    : handler St unit := fun r =>
  if negb (bool_decide (r_role r = Leader)) || negb (pm_contains (r_progress r) from) then (Ok tt, r) else
  match rl_last_index (r_log r) with
  | Err e => (Err e, r)
  | Ok own_last =>
      let index := N.min index own_last in
      let r := set_progress r (pm_update (r_progress r) from (fun p => set_recent_active p true)) in
      if reject then
        let probe := if (0 <? hint_term)%N then sat_add (find_conflict_by_term (r_log r) index hint_term) 1 else sat_add index 1 in
        let m := pm_update (r_progress r) from (fun p => set_probe_sent (snd (maybe_decr_to p probe)) false) in
        let retry := from_option (fun p => negb (is_paused p)) false (pm_get m from) in
        let r := set_progress r m in
        if retry then send_append from r else (Ok tt, r)
      else
        let advanced := from_option (fun p => fst (maybe_update p index)) false (pm_get (r_progress r) from) in
        let r := set_progress r (pm_update (r_progress r) from (fun p =>
          let p := snd (maybe_update p index) in
          match pr_state p with
          | Probe => become_replicate p
          | Replicate => set_inflights p (free_to (pr_inflights p) index)
          | InSnapshot => become_probe p
          end)) in
        (let! _ := maybe_finish_transfer from in
         let! own_last := ask (fun r => rl_last_index (r_log r)) in
         let! committed := if advanced then maybe_commit else hret false in
         let! _ :=
           if committed : bool then bcast_append
           else
             let! behind := gets (fun r => from_option (fun p => (pr_matched p <? own_last)%N) false (pm_get (r_progress r) from)) in
             if behind then send_append from else hret tt in
         modify (fun r => record_read_ack r from context)) r
  end.

(** ** Every message, and time ([core.rs]) *)

Definition vetoed_by_leader_lease r (message : Message) : bool :=
  match message with
  | RequestVote _ _ _ _ _ _ force =>
      negb force && r_check_quorum r && bool_decide (is_Some (r_leader r)) &&
      (r_election_elapsed r <? r_randomized_election_timeout r)%N
  | _ => false
  end.

Definition step_higher_term r (message : Message) : Raft St :=
  match message with
  | RequestVote _ _ _ _ _ true _ => r
  | RequestVoteResponse _ _ _ true true => r
  | AppendEntries from _ term _ _ _ _ _ => become_follower r term (Some from)
  | InstallSnapshot from _ term _ => become_follower r term (Some from)
  | _ => become_follower r (message_term message) None
  end.

Definition step_lower_term (message : Message) : handler St unit := fun r =>
  match message with
  | AppendEntries from _ _ _ _ _ _ _ | InstallSnapshot from _ _ _ =>
      match rl_last_index (r_log r) with
      | Err e => (Err e, r)
      | Ok index => (Ok tt, send r (AppendEntriesResponse (r_id r) from (r_term r) true index (last_term (r_log r)) []))
      end
  | RequestVote from _ _ _ _ true _ => (Ok tt, send r (RequestVoteResponse (r_id r) from (r_term r) false true))
  | _ => (Ok tt, r)
  end.

(** A candidate that hears from a leader of its own term concedes. *)
Definition concede r (term : Term) (from : NodeId) : Raft St :=
  match r_role r with
  | Candidate | PreCandidate => become_follower r term (Some from)
  | _ => r
  end.

Definition step_current_term (message : Message) : handler St unit := fun r =>
  match message with
  | RequestVote from _ term last_log_index last_log_term pre_vote _ =>
      (Ok tt, handle_vote_request r from term last_log_index last_log_term pre_vote)
  | RequestVoteResponse from _ _ granted pre_vote => handle_vote_response from granted pre_vote r
  | AppendEntries from _ term prev_log_index prev_log_term entries leader_commit context =>
      handle_append_entries from prev_log_index prev_log_term entries leader_commit context (concede r term from)
  | AppendEntriesResponse from _ _ reject index hint_term context => handle_append_response from reject index hint_term context r
  | ReadIndex from _ _ ctx => read_index ctx (Some from) r
  | ReadIndexResponse _ _ _ index ctx => (Ok tt, handle_read_index_response r index ctx)
  | InstallSnapshot from _ term snapshot => handle_install_snapshot from snapshot (concede r term from)
  | TimeoutNow from _ _ => handle_timeout_now from r
  end.

Definition step (message : Message) : handler St unit := fun r =>
  let term := message_term message in
  if (r_term r <? term)%N then
    if vetoed_by_leader_lease r message then (Ok tt, r)
    else step_current_term message (step_higher_term r message)
  else if (term <? r_term r)%N then step_lower_term message r
  else step_current_term message r.

Definition tick_election r : Raft St :=
  let r := set_election_elapsed r (r_election_elapsed r +% 1) in
  if (r_randomized_election_timeout r <=? r_election_elapsed r)%N then
    let r := set_election_elapsed r 0 in
    snd (campaign (if r_pre_vote r then PreElection else Election) r)
  else r.

Definition tick_heartbeat r : Raft St :=
  let r := set_heartbeat_elapsed r (r_heartbeat_elapsed r +% 1) in
  let r := set_election_elapsed r (r_election_elapsed r +% 1) in
  let r := expire_pending_snapshots r SNAPSHOT_TIMEOUT_TICKS in
  let r :=
    if (r_heartbeat_tick r <=? r_heartbeat_elapsed r)%N
    then snd (bcast_heartbeat (default [] (last_pending_ctx (r_read_only r))) (set_heartbeat_elapsed r 0))
    else r in
  if (r_randomized_election_timeout r <=? r_election_elapsed r)%N then
    let r := abort_transfer (set_election_elapsed r 0) in
    if r_check_quorum r then
      let '(active, r) := check_quorum_active r in
      if active then r
      else become_follower (set_counters r (count_step_down (r_counters r))) (r_term r) None
    else r
  else r.

Definition tick r : Raft St :=
  match r_role r with
  | Leader => tick_heartbeat r
  | Follower | PreCandidate | Candidate => tick_election r
  end.

(** [Raft::new]. *)
Definition Raft_new (config : Config) (storage : St) : result RaftError (Raft St) :=
  let? _ := Config_validate config in
  let? initial := initial_state storage in
  let anchor :=
    match store_snapshot storage with
    | Ok snapshot =>
        if (0 <? meta_index (snap_meta snapshot))%N && negb (bool_decide (members (meta_conf (snap_meta snapshot)) = []))
        then Some snapshot else None
    | Err _ => None
    end in
  let? log := RaftLog_new storage (cfg_applied config) in
  let conf_state :=
    if bool_decide (cs_voters (is_conf_state initial) = []) && bool_decide (cs_learners (is_conf_state initial) = [])
    then Config_conf_state config else is_conf_state initial in
  let? based :=
    match anchor with
    | Some snapshot => Ok (meta_conf (snap_meta snapshot), meta_index (snap_meta snapshot))
    | None => let? first := rl_first_index log in Ok (conf_state, sat_sub first 1)
    end in
  let '(conf_state, conf_index) := based in
  let raft :=
    mkRaft (cfg_id config) (hs_term (is_hard_state initial)) (hs_voted_for (is_hard_state initial)) Follower None log []
      (ConfTracker_new conf_state conf_index) [] [] [] ReadOnly_new 0 0 (fst (cfg_election_tick config)) Counters_default
      (cfg_election_tick config) (cfg_heartbeat_tick config) (cfg_max_inflight_msgs config) (cfg_max_size_per_msg config)
      (cfg_pre_vote config) (cfg_check_quorum config) (cfg_rng config) None 0 in
  match replay_conf_changes raft with
  | (Err e, _) => Err e
  | (Ok _, raft) =>
      match rebuild_progress raft with
      | (Err e, _) => Err e
      | (Ok _, raft) => Ok (reset_election_timeout raft)
      end
  end.

Record Status : Type := mkStatus {
  status_id : NodeId;
  status_term : Term;
  status_voted_for : option NodeId;
  status_role : Role;
  status_leader : option NodeId;
  status_commit : Index;
  status_applied : Index;
  status_last_index : Index;
  status_conf : ConfState }.
Definition status r : Status :=
  mkStatus (r_id r) (r_term r) (r_vote r) (r_role r) (r_leader r) (rl_committed (r_log r)) (rl_applied (r_log r))
    (unwrap_or (rl_last_index (r_log r)) 0%N) (current (r_conf r)).
End Node.
