(* ===== verification/RawNode.v ===== *)
(** The handle a driver holds: [esker-raft/src/raw_node.rs].

    [RawNode] wraps the core; [Ready] is the only way an effect leaves it. *)

From Stdlib Require Import Strings.Byte.
From stdpp Require Import prelude sorting.
From Stdlib Require Import NArith ZArith Lia.
From S2P Require Import Prelude SortedVec Rng RaftTypes RaftStorage RaftLog RaftProgress RaftConf RaftState RaftReplication RaftNode.

Record Ready : Type := mkReady {
  rd_hard_state : option HardState;
  rd_entries : list Entry;
  rd_snapshot : option Snapshot;
  rd_messages : list Message;
  rd_committed_entries : list Entry;
  rd_read_states : list ReadState }.

Definition Ready_is_empty (rd : Ready) : bool :=
  bool_decide (rd_hard_state rd = None) && bool_decide (rd_entries rd = []) && bool_decide (rd_snapshot rd = None) &&
  bool_decide (length (rd_messages rd) = 0%nat) && bool_decide (rd_committed_entries rd = []) &&
  bool_decide (length (rd_read_states rd) = 0%nat).

Record RawNode (St : Type) : Type := mkRawNode { rn_raft : Raft St; rn_prev_hard_state : HardState }.
Arguments mkRawNode {St}.
Arguments rn_raft {St} _.
Arguments rn_prev_hard_state {St} _.

Section RawNode.
Context {St : Type} `{LogStorage St}.
Implicit Types n : RawNode St.

Definition RawNode_new (config : Config) (storage : St) : result RaftError (RawNode St) :=
  let? raft := Raft_new config storage in
  Ok (mkRawNode raft (hard_state raft)).

Definition set_raft n (r : Raft St) : RawNode St := mkRawNode r (rn_prev_hard_state n).
(** A handler of the core, run on the node. *)
Definition on_raft {A} (f : handler St A) n : result RaftError A * RawNode St :=
  let '(a, r) := f (rn_raft n) in (a, set_raft n r).

Definition rn_tick n : RawNode St := set_raft n (tick (rn_raft n)).
Definition rn_step (message : Message) : RawNode St -> result RaftError unit * RawNode St := on_raft (step message).

Definition rn_propose (data : bytes) n : result RaftError unit * RawNode St :=
  if negb (bool_decide (r_role (rn_raft n) = Leader)) then (Err NotLeader, n) else
  match r_lead_transferee (rn_raft n) with
  | Some target => (Err (LeadershipTransferInProgress target), n)
  | None => on_raft (let! _ := propose_entry Normal data in hret tt) n
  end.
Definition rn_propose_conf_change (change : ConfChange) n : result RaftError unit * RawNode St :=
  if negb (bool_decide (r_role (rn_raft n) = Leader)) then (Err NotLeader, n)
  else on_raft (let! _ := propose_conf_change change in hret tt) n.
Definition rn_read_index (ctx : bytes) n : RawNode St := snd (on_raft (read_index ctx None) n).
Definition rn_campaign : RawNode St -> result RaftError unit * RawNode St :=
  on_raft (fun r => campaign (if r_pre_vote r then PreElection else Election) r).
Definition rn_transfer_leader (target : NodeId) n : RawNode St := snd (on_raft (transfer_leader target) n).
Definition rn_report_snapshot (to : NodeId) (status : SnapshotStatus) n : RawNode St :=
  set_raft n (report_snapshot (rn_raft n) to status).

Definition has_ready n : bool :=
  negb (bool_decide (length (r_messages (rn_raft n)) = 0%nat)) ||
  negb (bool_decide (length (r_read_states (rn_raft n)) = 0%nat)) ||
  negb (bool_decide (rl_unstable (r_log (rn_raft n)) = [])) ||
  bool_decide (is_Some (rl_unstable_snapshot (r_log (rn_raft n)))) ||
  differs_from (hard_state (rn_raft n)) (rn_prev_hard_state n) ||
  (rl_applied (r_log (rn_raft n)) <? rl_committed (r_log (rn_raft n)))%N.

(** [ready] takes the messages and the answered reads, and offers the rest. *)
Definition ready n : Ready * RawNode St :=
  let r := rn_raft n in
  (mkReady
     (if differs_from (hard_state r) (rn_prev_hard_state n) then Some (hard_state r) else None)
     (rl_unstable (r_log r)) (rl_unstable_snapshot (r_log r)) (r_messages r)
     (unwrap_or (next_committed (r_log r) (r_max_size_per_msg r)) []) (r_read_states r),
   set_raft n (set_read_states (set_messages r []) [])).

Definition advance (rd : Ready) n : RawNode St :=
  let n := match rd_hard_state rd with Some hs => mkRawNode (rn_raft n) hs | None => n end in
  let r := rn_raft n in
  let r :=
    match rd_snapshot rd with
    | Some snapshot => set_log r (stable_snapshot_to (r_log r) (meta_index (snap_meta snapshot)))
    | None => r
    end in
  let r :=
    match last (rd_entries rd) with
    | Some e => set_log r (stable_to (r_log r) (entry_index e) (entry_term e))
    | None => r
    end in
  let r :=
    match last (rd_committed_entries rd) with
    | Some e =>
        let r := set_log r (applied_to (r_log r) (entry_index e)) in
        set_conf r (ct_commit_to (r_conf r) (entry_index e))
    | None => r
    end in
  set_raft n r.

Definition rn_log_entries n (low high : Index) : result RaftError (list Entry) :=
  rl_slice (r_log (rn_raft n)) low high u64_max.
Definition snapshot_boundary n : result RaftError (Index * Term) :=
  let? first := rl_first_index (r_log (rn_raft n)) in
  let index := sat_sub first 1 in
  if (index =? 0)%N then Ok (0%N, 0%N) else
  let? term := rl_term (r_log (rn_raft n)) index in
  Ok (index, term).
(** [progress]: the peers are already in id order, which is the order the sort gives. *)
Definition rn_progress n : list PeerProgress :=
  if negb (bool_decide (r_role (rn_raft n) = Leader)) then [] else
  (fun e => mkPeerProgress e.1 (pr_matched e.2) (pr_next e.2) (pr_is_learner e.2) (pr_recent_active e.2) (pr_pending_snapshot e.2))
    <$> r_progress (rn_raft n).
Definition storage n : St := rl_store (r_log (rn_raft n)).
(** What a driver writes through [storage_mut]. *)
Definition with_storage n (s : St) : RawNode St :=
  set_raft n (set_log (rn_raft n) (rl_set_store (r_log (rn_raft n)) s)).
End RawNode.
