(* ===== verification/RaftFrame.v ===== *)
(** What the handlers of one node may do to its term, its vote, its role and
    its outgoing messages.

    Most handlers are [calm]: they keep the term and the vote, keep the role or
    fall back to follower, and send only messages of the current term that
    cast no vote.  The rest of this file says so, handler by handler, through
    the hint database [calm]. *)

From Stdlib Require Import Strings.Byte.
From stdpp Require Import prelude sorting.
From Stdlib Require Import NArith ZArith Lia.
From S2P Require Import Prelude SortedVec Rng RaftTypes RaftStorage RaftLog RaftProgress RaftConf RaftState RaftReplication RaftNode.

(** A message that commits its sender to a candidate for a term: the grant of
    a real vote, or a candidate's own request. *)
Definition ballot (m : Message) : option (NodeId * Term * NodeId) :=
  match m with
  | RequestVoteResponse from to term true false => Some (from, term, to)
  | RequestVote from _ term _ _ false _ => Some (from, term, from)
  | _ => None
  end.

(** What no handler of the core changes: who the node is, and its storage,
    which only the driver writes. *)
Abbreviation ident r := (r_id r, rl_store (r_log r)).

Section Frame.
Context {St : Type} `{LogStorage St}.
Implicit Types r : Raft St.

Definition plain (r : Raft St) (m : Message) : Prop :=
  sender m = r_id r /\ message_term m = r_term r /\ ballot m = None.

Definition sends (P : Message -> Prop) r r' : Prop :=
  exists new, r_messages r' = r_messages r ++ new /\ Forall P new.

Definition calm r r' : Prop :=
  ident r' = ident r /\ r_term r' = r_term r /\ r_vote r' = r_vote r /\
  (r_role r' = r_role r /\ r_votes r' = r_votes r \/ r_role r' = Follower /\ r_votes r' = []) /\
  sends (plain r) r r'.

#[global] Instance calm_refl : Reflexive calm.
Proof. intros r. repeat (split; [done|]). split; [by left|]. exists []. by rewrite app_nil_r. Qed.
#[global] Instance calm_trans : Transitive calm.
Proof.
  intros r1 r2 r3 (Hi & Ht & Hv & Hr & n & Hn & Hp) (Hi' & Ht' & Hv' & Hr' & n' & Hn' & Hp').
  split; [congruence|]. split; [congruence|]. split; [congruence|]. split.
  - destruct Hr' as [[E E']|[E E']]; [|by right]. destruct Hr as [[F F']|[F F']]; [left|right]; split; congruence.
  - exists (n ++ n'). rewrite Hn', Hn, app_assoc. split; [done|]. apply Forall_app. split; [done|].
    eapply Forall_impl; [exact Hp'|]. intros m (A & B & C). split; [congruence|]. split; [congruence|done].
Qed.

Definition calms {A} (m : handler St A) : Prop := forall r, calm r (snd (m r)).

Lemma calms_ret {A} (a : A) : calms (hret a).
Proof. intros r. reflexivity. Qed.
Lemma calms_ask {A} (f : Raft St -> result RaftError A) : calms (ask f).
Proof. intros r. reflexivity. Qed.
Lemma calms_gets {A} (f : Raft St -> A) : calms (gets f).
Proof. intros r. reflexivity. Qed.
Lemma calms_modify f : (forall r, calm r (f r)) -> calms (modify f).
Proof. intros Hf r. apply Hf. Qed.
Lemma calms_bind {A B} (m : handler St A) (k : A -> handler St B) : calms m -> (forall a, calms (k a)) -> calms (hbind m k).
Proof.
  intros Hm Hk r. unfold hbind. specialize (Hm r). destruct (m r) as [[a|e] r']; [|done]. etransitivity; [exact Hm|]. apply Hk.
Qed.
Lemma calms_on_log {A} (f : RaftLog St -> result RaftError A * RaftLog St) :
  (forall l, rl_store (snd (f l)) = rl_store l) -> calms (on_log f).
Proof.
  intros Hf r. unfold on_log. specialize (Hf (r_log r)). destruct (f (r_log r)) as [a l]. cbn in *.
  split; [cbn; congruence|]. repeat (split; [done|]). split; [by left|]. exists []. by rewrite app_nil_r.
Qed.
Lemma calms_for_each {A} (l : list A) (f : A -> handler St unit) : (forall x, calms (f x)) -> calms (for_each l f).
Proof. intros Hf. induction l as [|x l IH]; cbn; [apply calms_ret|]. by apply calms_bind. Qed.
Lemma calms_if {A} (b : bool) (m m' : handler St A) : calms m -> calms m' -> calms (if b then m else m').
Proof. by destruct b. Qed.

(** Assignments that touch nothing the relation looks at. *)
Lemma calm_same r r' : ident r' = ident r -> r_term r' = r_term r -> r_vote r' = r_vote r ->
  r_role r' = r_role r -> r_votes r' = r_votes r -> r_messages r' = r_messages r -> calm r r'.
Proof. intros. repeat (split; [done|]). split; [by left|]. exists []. by rewrite app_nil_r. Qed.
Lemma calm_send r m : plain r m -> calm r (send r m).
Proof. intros Hm. repeat (split; [done|]). split; [by left|]. exists [m]. split; [done|]. by constructor. Qed.

Lemma reset_election_timeout_calm r : calm r (reset_election_timeout r).
Proof.
  unfold reset_election_timeout. destruct (r_election_tick r) as [low high], (range_inclusive _ _ _) as [v rng].
  by apply calm_same.
Qed.
Lemma become_follower_calm r leader : calm r (become_follower r (r_term r) leader).
Proof.
  unfold become_follower, reset. rewrite N.eqb_refl. cbn [negb].
  match goal with |- context [reset_election_timeout ?x] => pose proof (reset_election_timeout_calm x) as Hc end.
  destruct Hc as (Hi & Ht & Hv & _ & n & Hn & Hp). cbn in *.
  split; [done|]. split; [done|]. split; [done|]. split; [by right|]. exists n. split; [done|].
  eapply Forall_impl; [exact Hp|]. intros m Hm. exact Hm.
Qed.
End Frame.

(** The log's own writes keep the store. *)
Section Stores.
Context {St : Type} `{LogStorage St}.
Implicit Types l : RaftLog St.

Lemma rl_commit_to_store l index : rl_store (snd (rl_commit_to l index)) = rl_store l.
Proof. unfold rl_commit_to. by repeat case_match. Qed.
Lemma truncate_and_append_store l entries : rl_store (truncate_and_append l entries) = rl_store l.
Proof. unfold truncate_and_append. by repeat case_match. Qed.
Lemma rl_append_store l entries : rl_store (snd (rl_append l entries)) = rl_store l.
Proof. unfold rl_append. repeat (case_match; cbn [snd]); try done; apply truncate_and_append_store. Qed.
Lemma maybe_append_store l prev_index prev_term committed entries :
  rl_store (snd (maybe_append l prev_index prev_term committed entries)) = rl_store l.
Proof.
  unfold maybe_append. assert (forall l' index spliced truncated last_new, rl_store l' = rl_store l ->
    rl_store (snd (let '(r, l) := rl_commit_to l' index in
      (rmap (fun _ : unit => Some (mkAppendOutcome last_new spliced truncated)) r, l))) = rl_store l) as Hf.
  { intros l' index ? ? ? <-. pose proof (rl_commit_to_store l' index). by destruct (rl_commit_to l' index). }
  destruct (negb _); [done|]. destruct (find_conflict l entries) as [[[at_ conflict]|]|e]; [|by apply Hf|done].
  destruct (conflict <=? _)%N; [done|]. destruct (rl_last_index l); [|done]. apply Hf, truncate_and_append_store.
Qed.
End Stores.

Create HintDb calm discriminated.
#[export] Hint Resolve calms_ret calms_ask calms_gets calms_modify calms_bind calms_for_each calms_on_log rl_append_store rl_commit_to_store calms_if
  calm_refl calm_send reset_election_timeout_calm become_follower_calm : calm.
#[export] Hint Extern 2 (plain _ _) => split; [reflexivity|split; reflexivity] : calm.
#[export] Hint Extern 3 (calm _ _) => apply calm_same; reflexivity : calm.

(** Run through the branches of a handler, closing what the database closes. *)
Ltac calm_branches := repeat (case_match; cbn [snd]); eauto with calm.

Section Handlers.
Context {St : Type} `{LogStorage St}.
Implicit Types r : Raft St.

Lemma calm_then r r1 r2 : calm r r1 -> ident r2 = ident r1 -> r_term r2 = r_term r1 -> r_vote r2 = r_vote r1 ->
  r_role r2 = r_role r1 -> r_votes r2 = r_votes r1 -> r_messages r2 = r_messages r1 -> calm r r2.
Proof. intros Hc ? ? ? ? ? ?. etransitivity; [exact Hc|]. by apply calm_same. Qed.
Lemma calm_before r r1 r2 : ident r1 = ident r -> r_term r1 = r_term r -> r_vote r1 = r_vote r ->
  r_role r1 = r_role r -> r_votes r1 = r_votes r -> r_messages r1 = r_messages r -> calm r1 r2 -> calm r r2.
Proof. intros ? ? ? ? ? ? Hc. etransitivity; [by apply calm_same|exact Hc]. Qed.

#[local] Hint Extern 4 (calm ?r (set_progress ?r1 _)) => apply (calm_then r r1); [|reflexivity..] : calm.

Lemma send_snapshot_calms to : calms (St := St) (send_snapshot to).
Proof.
  intros r. unfold send_snapshot. calm_branches.
Qed.
Lemma send_append_calms to : calms (St := St) (send_append to).
Proof.
  intros r. unfold send_append. repeat (case_match; cbn [snd]); try apply send_snapshot_calms; eauto with calm.
Qed.
Lemma send_heartbeat_calms to context : calms (St := St) (send_heartbeat to context).
Proof.
  intros r. unfold send_heartbeat. calm_branches.
  eapply calm_before; [..|apply send_append_calms]; reflexivity.
Qed.
#[local] Hint Resolve send_snapshot_calms send_append_calms send_heartbeat_calms : calm.
Lemma bcast_append_calms : calms (St := St) bcast_append.
Proof. intros r. unfold bcast_append. apply calms_for_each. intros x. auto with calm. Qed.
Lemma bcast_heartbeat_calms context : calms (St := St) (bcast_heartbeat context).
Proof. intros r. unfold bcast_heartbeat. apply calms_for_each. intros x. auto with calm. Qed.
#[local] Hint Resolve bcast_append_calms bcast_heartbeat_calms : calm.

Lemma answer_read_calm r index ctx from : calm r (answer_read r index ctx from).
Proof. unfold answer_read. calm_branches. Qed.
Lemma read_index_calms ctx from : calms (St := St) (read_index ctx from).
Proof.
  intros r. unfold read_index. repeat (case_match; cbn [snd]); eauto using answer_read_calm with calm.
  eapply calm_before; [..|apply bcast_heartbeat_calms]; reflexivity.
Qed.
Lemma foldl_calm {A} (f : Raft St -> A -> Raft St) (l : list A) r : (forall r x, calm r (f r x)) -> calm r (foldl f r l).
Proof. intros Hf. revert r; induction l as [|x l IH]; intros r; cbn; [done|]. etransitivity; [apply Hf|apply IH]. Qed.
Lemma record_read_ack_calm r from context : calm r (record_read_ack r from context).
Proof.
  unfold record_read_ack. repeat case_match; auto with calm.
  eapply calm_before; [..|apply foldl_calm; intros; apply answer_read_calm]; reflexivity.
Qed.
Lemma flush_postponed_reads_calms : calms (St := St) flush_postponed_reads.
Proof.
  intros r. unfold flush_postponed_reads. repeat (case_match; cbn [snd]); auto with calm.
  eapply calm_before; [..|apply calms_for_each]; [reflexivity..|]. intros [ctx from]. apply read_index_calms.
Qed.
#[local] Hint Resolve read_index_calms record_read_ack_calm flush_postponed_reads_calms : calm.

Lemma rebuild_progress_calms : calms (St := St) rebuild_progress.
Proof. unfold rebuild_progress. auto with calm. Qed.
Lemma record_loop_calms entries moved : calms (St := St) (record_loop entries moved).
Proof.
  revert moved; induction entries as [|e entries IH]; intros moved; cbn; [auto with calm|]. apply calms_if; [|done].
  apply calms_bind; [auto with calm|]. intros change. apply calms_bind; [|done]. intros r. cbn. auto with calm.
Qed.
#[local] Hint Resolve rebuild_progress_calms record_loop_calms : calm.
Lemma record_conf_changes_calms entries : calms (St := St) (record_conf_changes entries).
Proof. unfold record_conf_changes. apply calms_bind; auto with calm. Qed.
Lemma revert_conf_to_calms index : calms (St := St) (revert_conf_to index).
Proof.
  intros r. unfold revert_conf_to. repeat (case_match; cbn [snd]); auto with calm.
  eapply calm_before; [..|apply rebuild_progress_calms]; reflexivity.
Qed.
Lemma replay_conf_changes_calms : calms (St := St) replay_conf_changes.
Proof.
  unfold replay_conf_changes. apply calms_bind; [auto with calm|]. intros first. apply calms_bind; [auto with calm|].
  intros last. apply calms_if; [auto with calm|]. apply calms_bind; [auto with calm|]. intros es.
  apply calms_bind; [apply record_conf_changes_calms|]. intros _. apply calms_modify. intros r. auto with calm.
Qed.
Lemma step_down_if_removed_calm r : calm r (step_down_if_removed r).
Proof. unfold step_down_if_removed. case_match; auto with calm. Qed.
#[local] Hint Resolve record_conf_changes_calms revert_conf_to_calms step_down_if_removed_calm : calm.

Lemma maybe_commit_calms : calms (St := St) maybe_commit.
Proof.
  intros r. unfold maybe_commit. repeat (case_match; cbn [snd]); auto with calm.
  match goal with |- calm ?r (snd (?m ?r)) => enough (calms m) as Hm by apply Hm end.
  apply calms_bind; [auto with calm|]. intros _. apply calms_bind; [apply calms_modify; intros; auto with calm|].
  intros _. apply calms_bind; [apply calms_modify; intros; auto with calm|]. intros _.
  apply calms_bind; auto with calm.
Qed.
#[local] Hint Resolve maybe_commit_calms : calm.

Lemma propose_entry_calms kind data : calms (St := St) (propose_entry kind data).
Proof.
  unfold propose_entry. apply calms_bind; [auto with calm|]. intros last. apply calms_bind; [auto with calm|]. intros e.
  apply calms_bind; [auto with calm|]. intros _. apply calms_bind; [auto with calm|]. intros _.
  apply calms_bind; [apply calms_modify; auto with calm|]. intros _. apply calms_bind; [auto with calm|]. intros _.
  apply calms_bind; auto with calm.
Qed.
Lemma propose_conf_change_calms change : calms (St := St) (propose_conf_change change).
Proof. intros r. unfold propose_conf_change. repeat (case_match; cbn [snd]); auto with calm. apply propose_entry_calms. Qed.

Lemma nudge_transferee_calms target : calms (St := St) (nudge_transferee target).
Proof. intros r. unfold nudge_transferee. repeat (case_match; cbn [snd]); auto with calm. apply send_append_calms. Qed.
Lemma transfer_leader_calms target : calms (St := St) (transfer_leader target).
Proof.
  intros r. unfold transfer_leader. repeat (case_match; cbn [snd]); auto with calm.
  eapply calm_before; [..|apply nudge_transferee_calms]; reflexivity.
Qed.
Lemma maybe_finish_transfer_calms from : calms (St := St) (maybe_finish_transfer from).
Proof. intros r. unfold maybe_finish_transfer. case_match; [apply nudge_transferee_calms|auto with calm]. Qed.
Lemma report_snapshot_calm r to status : calm r (report_snapshot r to status).
Proof. unfold report_snapshot. repeat case_match; auto with calm. Qed.
Lemma restore_calms snapshot : calms (St := St) (restore snapshot).
Proof. unfold restore. apply calms_bind; [apply calms_modify|]; auto with calm. Qed.
#[local] Hint Resolve restore_calms maybe_finish_transfer_calms : calm.

Lemma handle_install_snapshot_calms from snapshot : calms (St := St) (handle_install_snapshot from snapshot).
Proof.
  unfold handle_install_snapshot. apply calms_bind; [apply calms_modify; auto with calm|]. intros _.
  apply calms_bind; [auto with calm|]. intros worth. apply calms_bind.
  - apply calms_if; [apply calms_bind|]; auto with calm.
  - intros acknowledged. apply calms_modify. auto with calm.
Qed.
Lemma handle_append_entries_calms from prev_log_index prev_log_term entries leader_commit context :
  calms (St := St) (handle_append_entries from prev_log_index prev_log_term entries leader_commit context).
Proof.
  intros r. unfold handle_append_entries.
  eapply (calm_before r (set_election_elapsed (set_leader r (Some from)) 0)); [reflexivity..|].
  set (r0 := set_election_elapsed _ _). case_match; [cbn [snd]; auto with calm|].
  match goal with |- context [maybe_append ?a ?b ?c ?d ?e] => pose proof (maybe_append_store a b c d e) as Hst end.
  destruct (maybe_append _ _ _ _ _) as [appended l]. eapply (calm_before r0 (set_log r0 l)); [cbn in *; congruence|reflexivity..|].
  destruct appended as [[outcome|]|e]; [|repeat (case_match; cbn [snd]); auto with calm..].
  match goal with |- calm ?r (snd (?m ?r)) => enough (calms m) as Hm by apply Hm end.
  apply calms_bind; [|intros _; apply calms_bind; [apply calms_modify; auto with calm|intros _; apply calms_modify; auto with calm]].
  case_match; [|cbn [snd]; auto with calm]. apply calms_bind; auto with calm.
Qed.
Lemma handle_append_response_calms from reject index hint_term context :
  calms (St := St) (handle_append_response from reject index hint_term context).
Proof.
  intros r. unfold handle_append_response. case_match; [cbn [snd]; auto with calm|]. case_match; [|cbn [snd]; auto with calm].
  set (r0 := set_progress r _). eapply (calm_before r r0); [reflexivity..|]. destruct reject.
  - set (r1 := set_progress r0 _). eapply (calm_before r0 r1); [reflexivity..|]. case_match; [apply send_append_calms|cbn [snd]; auto with calm].
  - set (r1 := set_progress r0 _). eapply (calm_before r0 r1); [reflexivity..|].
    match goal with |- calm ?r (snd (?m ?r)) => enough (calms m) as Hm by apply Hm end.
    apply calms_bind; [auto with calm|]. intros _. apply calms_bind; [auto with calm|]. intros own_last.
    apply calms_bind; [apply calms_if; auto with calm|]. intros committed. apply calms_bind.
    + apply calms_if; [auto with calm|]. apply calms_bind; [auto with calm|]. intros behind. apply calms_if; auto with calm.
    + intros _. apply calms_modify. auto with calm.
Qed.
Lemma step_lower_term_calms message : calms (St := St) (step_lower_term message).
Proof. intros r. unfold step_lower_term. repeat (case_match; cbn [snd]); auto with calm. Qed.
Lemma concede_calm r from : calm r (concede r (r_term r) from).
Proof. unfold concede. case_match; auto with calm. Qed.

Lemma tick_heartbeat_calm r : calm r (tick_heartbeat r).
Proof.
  unfold tick_heartbeat. set (r0 := expire_pending_snapshots _ _).
  eapply (calm_before r r0); [reflexivity..|].
  assert (calm r0 (if (r_heartbeat_tick r0 <=? r_heartbeat_elapsed r0)%N
    then snd (bcast_heartbeat (default [] (last_pending_ctx (r_read_only r0))) (set_heartbeat_elapsed r0 0)) else r0)) as Hb.
  { case_match; [|cbn [snd]; auto with calm]. eapply calm_before; [..|apply bcast_heartbeat_calms]; reflexivity. }
  etransitivity; [exact Hb|]. clear Hb.
  match goal with |- calm ?x _ => generalize x; intros r1 end.
  case_match; [|cbn [snd]; auto with calm]. set (r2 := abort_transfer _). eapply (calm_before r1 r2); [reflexivity..|].
  case_match; [|cbn [snd]; auto with calm]. unfold check_quorum_active. set (r3 := set_progress r2 _).
  eapply (calm_before r2 r3); [reflexivity..|]. case_match; [cbn [snd]; auto with calm|].
  generalize r3. intros r4. eapply (calm_before r4 (set_counters r4 (count_step_down (r_counters r4)))); [reflexivity..|].
  exact (become_follower_calm (set_counters r4 (count_step_down (r_counters r4))) None).
Qed.
End Handlers.
