(* ===== verification/RaftElection.v ===== *)
(** Terms, votes and elections on one node.

    [evolve] bounds what any handler may do to the term, the vote and the
    ballots a node sends; [node_inv] says what a candidate's tally and a
    leader's office rest on.  Every entry point of the core preserves both. *)

From Stdlib Require Import Strings.Byte.
From stdpp Require Import prelude sorting.
From Stdlib Require Import NArith ZArith Lia.
From S2P Require Import Prelude SortedVec Rng RaftTypes RaftStorage RaftLog RaftProgress RaftConf RaftState RaftReplication RaftNode RaftFrame.

(** The timeout a node draws is never looked at here. *)
#[local] Opaque range_inclusive.

Section Evolve.
Context {St : Type} `{LogStorage St}.
(** [asked c t]: [c] has asked for votes in term [t]. *)
Context (asked : NodeId -> Term -> Prop).
Implicit Types r : Raft St.

(** ** Terms and votes *)

(** A message a node in state [r] may send: within the bound [B] on terms, and
    casting only the vote recorded in [r], for itself or for a node that asked. *)
Definition msg_ok (B : N) r (m : Message) : Prop :=
  sender m = r_id r /\ (message_term m <= B + 1)%N /\
  forall f t c, ballot m = Some (f, t, c) -> t = r_term r /\ r_vote r = Some c /\ (c = f \/ asked c t).

Definition evolve (B : N) r r' : Prop :=
  ident r' = ident r /\ (r_term r <= r_term r' <= B + 1)%N /\
  (r_term r' = r_term r -> forall v, r_vote r = Some v -> r_vote r' = Some v) /\
  sends (msg_ok B r') r r'.

Lemma calm_evolve B r r' : (r_term r <= B)%N -> calm r r' -> evolve B r r'.
Proof.
  intros HB (Hi & Ht & Hv & _ & n & Hn & Hp). split; [done|]. split; [lia|]. split; [by intros _ v ?; rewrite Hv|].
  exists n. split; [done|]. eapply Forall_impl; [exact Hp|]. intros m (A & C & D). split; [congruence|]. split; [lia|].
  by rewrite D.
Qed.

Lemma evolve_calm B r r1 r2 : evolve B r r1 -> calm r1 r2 -> evolve B r r2.
Proof.
  intros (Hi & Ht & Hv & n & Hn & Hp) (Hi' & Ht' & Hv' & _ & n' & Hn' & Hp').
  split; [congruence|]. split; [lia|]. split.
  { intros E v E'. rewrite Hv'. apply Hv; congruence. }
  exists (n ++ n'). rewrite Hn', Hn, app_assoc. split; [done|]. apply Forall_app. split.
  - eapply Forall_impl; [exact Hp|]. intros m (A & C & D). split; [congruence|]. split; [done|].
    intros f t c E. rewrite Ht', Hv'. by eapply D.
  - eapply Forall_impl; [exact Hp'|]. intros m (A & C & D). split; [congruence|]. split; [lia|]. by rewrite D.
Qed.

(** A change of term or role that sends nothing. *)
Definition adopts r r1 : Prop :=
  ident r1 = ident r /\ (r_term r <= r_term r1)%N /\ (r_term r1 = r_term r -> forall v, r_vote r = Some v -> r_vote r1 = Some v) /\
  r_messages r1 = r_messages r.

Lemma adopts_evolve B r r1 r2 : adopts r r1 -> evolve B r1 r2 -> evolve B r r2.
Proof.
  intros (Hi & Ht & Hv & Hm) (Hi' & Ht' & Hv' & n & Hn & Hp). split; [congruence|]. split; [lia|]. split.
  { intros E v E'. apply Hv'; [lia|]. apply Hv; [lia|done]. }
  exists n. split; [by rewrite Hn, Hm|done].
Qed.
Lemma evolve_here B r r' : (r_term r' <= B + 1)%N -> adopts r r' -> evolve B r r'.
Proof.
  intros HB (Hi & Ht & Hv & Hm). split; [done|]. split; [lia|]. split; [done|]. exists []. by rewrite app_nil_r.
Qed.

(** Redrawing the timeout assigns the timeout and the generator, nothing else. *)
Lemma reset_election_timeout_shape r : exists v g, reset_election_timeout r = set_rng (set_randomized_election_timeout r v) g.
Proof.
  unfold reset_election_timeout. destruct (r_election_tick r) as [low high], (range_inclusive (r_rng r) low high) as [v g].
  by exists v, g.
Qed.

(** The fields [reset] leaves behind. *)
Lemma reset_spec r term :
  ident (reset r term) = ident r /\ r_term (reset r term) = term /\
  r_vote (reset r term) = (if (r_term r =? term)%N then r_vote r else None) /\
  r_votes (reset r term) = [] /\ r_messages (reset r term) = r_messages r /\ r_conf (reset r term) = r_conf r /\
  r_log (reset r term) = r_log r.
Proof.
  unfold reset. set (r1 := if negb _ then _ else _).
  destruct (reset_election_timeout_shape (set_heartbeat_elapsed (set_election_elapsed (set_leader r1 None) 0) 0)) as (v & g & ->).
  unfold r1. destruct (N.eqb_spec (r_term r) term) as [E|E]; cbn [negb]; repeat (split; [done|]); done.
Qed.

Lemma become_follower_spec r term leader : let r' := become_follower r term leader in
  ident r' = ident r /\ r_term r' = term /\ r_vote r' = (if (r_term r =? term)%N then r_vote r else None) /\
  r_votes r' = [] /\ r_messages r' = r_messages r /\ r_conf r' = r_conf r /\ r_role r' = Follower.
Proof.
  unfold become_follower. pose proof (reset_spec r term) as Hr. revert Hr. generalize (reset r term).
  intros r1 (A & B & C & D & E & F & _). cbn. auto 10.
Qed.

Lemma become_follower_adopts r term leader : (r_term r <= term)%N -> adopts r (become_follower r term leader).
Proof.
  intros Hle. destruct (become_follower_spec r term leader) as (A & B & C & _ & E & _).
  split; [done|]. split; [lia|]. split; [|done]. intros Et v Ev. rewrite C. rewrite B in Et. by rewrite (proj2 (N.eqb_eq _ _)).
Qed.

Lemma become_candidate_spec r : (r_term r < u64_max)%N -> let r' := become_candidate r in
  adopts r r' /\ r_id r' = r_id r /\ r_term r' = (r_term r + 1)%N /\ r_vote r' = Some (r_id r) /\ r_role r' = Candidate /\ r_votes r' = [] /\
  r_conf r' = r_conf r /\ r_log r' = r_log r.
Proof.
  intros Hlt. unfold become_candidate. rewrite sat_add_small by lia.
  pose proof (reset_spec r (r_term r + 1)) as Hr. revert Hr. generalize (reset r (r_term r + 1)).
  intros r1 (A & B & C & D & E & F & G). cbn. split; [|injection A as A _; rewrite A; auto 10].
  split; [exact A|]. cbn. rewrite B. split; [lia|]. split; [lia|done].
Qed.

Lemma become_pre_candidate_spec r : let r' := become_pre_candidate r in
  calm r (set_votes (set_role r' (r_role r)) (r_votes r)) /\
  r_id r' = r_id r /\ r_term r' = r_term r /\ r_vote r' = r_vote r /\ r_role r' = PreCandidate /\ r_votes r' = [] /\
  r_messages r' = r_messages r /\ r_conf r' = r_conf r /\ r_log r' = r_log r.
Proof.
  unfold become_pre_candidate.
  destruct (reset_election_timeout_shape (set_votes (set_leader (set_role r PreCandidate) None) [])) as (v & g & ->).
  split; [by apply calm_same|]. repeat (split; [done|]). done.
Qed.
End Evolve.

(** ** Tallies and office *)

Section Office.
Context {St : Type} `{LogStorage St}.
Context (V : list NodeId) (granted_by : NodeId -> Term -> NodeId -> Prop) (asked : NodeId -> Term -> Prop).
#[local] Abbreviation evolve := (evolve asked).
Implicit Types r : Raft St.

(** A majority of [V] stands behind the voter [id] in [term]: itself, or a granted vote. *)
Definition elected (id : NodeId) (term : Term) : Prop :=
  id ∈ V /\ exists q, NoDup q /\ q ⊆ V /\ (length V / 2 + 1 <= length q)%nat /\
    forall v, v ∈ q -> v = id \/ granted_by v term id.

Definition node_inv r : Prop :=
  NoDup (r_votes r).*1 /\
  (r_role r = Candidate -> r_vote r = Some (r_id r) /\ r_id r ∈ V /\
     forall v, (v, true) ∈ r_votes r -> v = r_id r \/ granted_by v (r_term r) (r_id r)) /\
  (r_role r = Leader -> r_vote r = Some (r_id r) /\ elected (r_id r) (r_term r)).

Definition votes_in r : Prop := cs_voters (current (r_conf r)) = V.

Lemma node_inv_calm r r' : node_inv r -> calm r r' -> node_inv r'.
Proof.
  intros (Hn & Hc & Hl) ([= Hi _] & Ht & Hv & Hr & _). unfold node_inv. rewrite Hi, Ht, Hv.
  destruct Hr as [[-> ->]|[-> ->]]; [done|]. split; [constructor|]. done.
Qed.
Lemma node_inv_fields r r' : r_id r' = r_id r -> r_term r' = r_term r -> r_vote r' = r_vote r -> r_role r' = r_role r ->
  r_votes r' = r_votes r -> node_inv r -> node_inv r'.
Proof. intros A T C D E. unfold node_inv. by rewrite A, T, C, D, E. Qed.
Lemma node_inv_follower r : r_votes r = [] -> r_role r = Follower -> node_inv r.
Proof. intros E E'. unfold node_inv. rewrite E, E'. split; [constructor|]. done. Qed.
Lemma node_inv_pre_candidate r : NoDup (r_votes r).*1 -> r_role r = PreCandidate -> node_inv r.
Proof. intros E E'. unfold node_inv. rewrite E'. done. Qed.

Definition good (B : N) r r' : Prop := evolve B r r' /\ node_inv r'.
Definition goods (B : N) {A} (m : handler St A) : Prop := forall r,
  node_inv r -> votes_in r -> (r_term r <= B)%N -> good B r (snd (m r)).

Lemma calm_good B r r' : node_inv r -> (r_term r <= B)%N -> calm r r' -> good B r r'.
Proof. intros Hi HB Hc. split; [by apply calm_evolve|by eapply node_inv_calm]. Qed.
Lemma good_calm B r r1 r2 : good B r r1 -> calm r1 r2 -> good B r r2.
Proof. intros [He Hi] Hc. split; [by eapply evolve_calm|by eapply node_inv_calm]. Qed.
Lemma adopts_good B r r1 r2 : adopts r r1 -> good B r1 r2 -> good B r r2.
Proof. intros Ha [He Hi]. split; [by eapply adopts_evolve|done]. Qed.

(** ** The tally *)

Lemma poll_spec r from granted : exists votes, snd (poll r from granted) = set_votes r votes /\
  (NoDup (r_votes r).*1 -> NoDup votes.*1) /\
  (forall v, (v, true) ∈ votes -> (v, true) ∈ r_votes r \/ v = from /\ granted = true) /\
  (fst (poll r from granted) = Won -> votes_in r -> NoDup votes.*1 ->
     exists q, NoDup q /\ q ⊆ V /\ (length V / 2 + 1 <= length q)%nat /\ forall v, v ∈ q -> (v, true) ∈ votes).
Proof.
  unfold poll. set (r1 := match binary_search _ _ with Ok _ => _ | Err _ => _ end).
  assert (exists votes, r1 = set_votes r votes /\ (NoDup (r_votes r).*1 -> NoDup votes.*1) /\
    (forall v, (v, true) ∈ votes -> (v, true) ∈ r_votes r \/ v = from /\ granted = true)) as (votes & E & Hn & Hv).
  { unfold r1, binary_search. case_bool_decide as Hin.
    - exists (r_votes r). split; [by destruct r|]. split; [done|]. auto.
    - eexists. split; [done|]. split.
      + intros Hnd. rewrite vec_insert_fmap. unfold vec_insert. cbn.
        rewrite <- (Permutation_middle _ _ _), take_drop. by constructor.
      + intros v. rewrite elem_of_vec_insert. intros [[= -> <-]|?]; auto. }
  rewrite E. exists votes. cbn [snd fst]. split; [done|]. split; [done|]. split; [done|].
  intros Hwon Hvin Hnd. cbn [set_votes r_conf r_votes] in Hwon.
  set (conf := current (r_conf r)) in *. unfold votes_in in Hvin. fold conf in Hvin.
  destruct (Nat.leb_spec (quorum conf) (count_votes conf votes true)) as [Hq|]; [|by case_match].
  exists (filter (fun v => conf_is_voter conf v.1 = true /\ v.2 = true) votes).*1.
  unfold count_votes, quorum in Hq. rewrite Hvin in Hq. split; [|split; [|split]].
  - clear -Hnd. induction votes as [|[v g] votes IH]; [constructor|]. cbn in Hnd. apply NoDup_cons in Hnd as [Hv Hnd].
    rewrite filter_cons. case_decide; [|by apply IH]. cbn. constructor; [|by apply IH].
    intros Hin. apply Hv. apply list_elem_of_fmap in Hin as (x & -> & Hx). apply list_elem_of_filter in Hx as [_ Hx].
    by apply list_elem_of_fmap_2.
  - intros v Hin. apply list_elem_of_fmap in Hin as (x & -> & Hx). apply list_elem_of_filter in Hx as [[Hx _] _].
    apply conf_is_voter_spec in Hx. by rewrite <- Hvin.
  - by rewrite length_fmap.
  - intros v Hin. apply list_elem_of_fmap in Hin as ([v' g] & -> & Hx). apply list_elem_of_filter in Hx as [[_ Hg] Hx].
    cbn in Hg. by subst g.
Qed.

(** ** Taking office *)

Lemma become_leader_good B r : (r_term r <= B + 1)%N -> r_vote r = Some (r_id r) -> elected (r_id r) (r_term r) ->
  good B r (snd (become_leader r)).
Proof.
  intros HB Hv He. unfold become_leader, hbind at 1. cbn [modify].
  pose proof (reset_spec r (r_term r)) as Hr. revert Hr. generalize (reset r (r_term r)).
  intros r0 (Ai & T & C & D & E & F & _). rewrite N.eqb_refl, Hv in C. pose proof Ai as [= A _].
  set (r1 := set_leader _ _).
  assert (good B r r1) as Hg.
  { split.
    - apply evolve_here; [cbn; lia|]. split; [done|]. cbn. split; [lia|]. split; [|done]. intros _ v. rewrite Hv, A. auto.
    - unfold node_inv. cbn. rewrite D, T, A. split; [constructor|]. split; [done|]. by split. }
  eapply good_calm; [exact Hg|]. clearbody r1.
  match goal with |- calm ?r (snd (?m ?r)) => enough (calms m) as Hm by apply Hm end.
  apply calms_bind; [auto with calm|]. intros last. apply calms_bind; [apply calms_modify; auto with calm|]. intros _.
  apply calms_bind; [auto with calm|]. intros term. apply calms_bind; [auto with calm|]. intros _.
  apply calms_bind; [apply calms_modify; auto with calm|]. intros _. apply calms_bind; [apply maybe_commit_calms|].
  intros _. apply bcast_append_calms.
Qed.

(** ** Campaigning *)

Definition same_office r r' : Prop :=
  ident r' = ident r /\ r_term r' = r_term r /\ r_vote r' = r_vote r /\ r_role r' = r_role r /\ r_votes r' = r_votes r.

Lemma node_inv_same_office r r' : same_office r r' -> node_inv r -> node_inv r'.
Proof. intros ([= A _] & T & C & D & E). by apply node_inv_fields. Qed.

Lemma requests_spec r vote_term lli llt pre force (voters : list NodeId) :
  let r' := foldl (fun r peer =>
    if (peer =? r_id r)%N then r
    else send (set_counters r (count_vote_request (r_counters r))) (RequestVote (r_id r) peer vote_term lli llt pre force)) r voters in
  same_office r r' /\ sends (fun m => exists to, m = RequestVote (r_id r) to vote_term lli llt pre force) r r'.
Proof.
  revert r; induction voters as [|peer voters IH]; intros r; cbn [foldl].
  - split; [done|]. exists []. by rewrite app_nil_r.
  - destruct (peer =? r_id r)%N; [apply IH|]. set (r1 := send _ _).
    destruct (IH r1) as ((A & B & C & D & E) & n & Hn & Hp). split; [done|].
    exists (RequestVote (r_id r) peer vote_term lli llt pre force :: n). split.
    + rewrite Hn. unfold r1, send. cbn. by rewrite <- app_assoc.
    + constructor; [by eexists|]. exact Hp.
Qed.

Lemma sends_evolve B r r1 r2 vote_term lli llt pre force : adopts r r1 -> (r_term r1 <= B + 1)%N -> same_office r1 r2 ->
  sends (fun m => exists to, m = RequestVote (r_id r1) to vote_term lli llt pre force) r1 r2 ->
  (vote_term <= B + 1)%N -> (pre = false -> vote_term = r_term r1 /\ r_vote r1 = Some (r_id r1)) -> evolve B r r2.
Proof.
  intros (Hi & Ht & Hv & Hm) HB (A & T & C & D & E) (n & Hn & Hp) Hvt Hb.
  split; [congruence|]. split; [lia|]. split; [intros F v G; rewrite C; apply Hv; congruence|].
  exists n. split; [by rewrite Hn, Hm|]. eapply Forall_impl; [exact Hp|]. intros m [to ->].
  split; [cbn; congruence|]. split; [done|]. intros f t c. cbn. destruct pre; [done|]. intros [= <- <- <-].
  destruct (Hb eq_refl) as [-> Ev]. rewrite T, C. auto.
Qed.

Lemma campaign_real_good B kind r : kind <> PreElection -> node_inv r -> votes_in r -> (r_term r <= B)%N -> (r_term r < u64_max)%N ->
  good B r (snd (campaign_round kind become_leader r)).
Proof.
  intros Hk Hi Hvin HB Hlt. unfold campaign_round.
  case_bool_decide; [by apply calm_good|]. destruct (is_voter r (r_id r)) eqn:Hid; [|by apply calm_good].
  apply conf_is_voter_spec in Hid. rewrite Hvin in Hid. cbn [negb]. rewrite (bool_decide_false _ Hk).
  set (r0 := set_counters r _).
  destruct (become_candidate_spec r0 Hlt) as (Ha & A & T & C & D & E & F & _). cbn [r_id r_term r_conf r0 set_counters] in *.
  change (adopts r (become_candidate r0)) in Ha. revert Ha A T C D E F. generalize (become_candidate r0). intros r1 Ha A T C D E F.
  destruct (poll_spec r1 (r_id r1) true) as (votes & Ep & Hn & Hv & Hw).
  destruct (poll r1 (r_id r1) true) as [result r2]. cbn [fst snd] in *. subst r2.
  assert (NoDup votes.*1) as Hnd by (apply Hn; rewrite E; constructor).
  assert (forall v, (v, true) ∈ votes -> v = r_id r1) as Hself.
  { intros v Hin. destruct (Hv v Hin) as [Hin'|[-> _]]; [rewrite E in Hin'; by apply elem_of_nil in Hin'|done]. }
  assert (adopts r (set_votes r1 votes)) as Ha' by exact Ha.
  assert (node_inv (set_votes r1 votes)) as Hi2.
  { split; [done|]. split; [|cbn; congruence]. cbn. intros _. split; [congruence|]. split; [congruence|]. intros v ?. left. by apply Hself. }
  case_bool_decide as Hwon.
  - eapply adopts_good; [exact Ha'|]. apply become_leader_good; [cbn; lia|cbn; congruence|].
    destruct (Hw Hwon) as (q & Q1 & Q2 & Q3 & Q4); [unfold votes_in; by rewrite F|done|].
    split; [cbn; congruence|]. exists q. split; [done|]. split; [done|]. split; [done|]. intros v ?. left. cbn. by apply Hself, Q4.
  - destruct (rl_last_index (r_log (set_votes r1 votes))) as [lli|e].
    + cbn [snd]. rewrite sat_add_small by lia. 
      destruct (requests_spec (set_votes r1 votes) (r_term r + 1) lli (last_term (r_log (set_votes r1 votes))) false
        (bool_decide (kind = Transfer)) (cs_voters (current (r_conf (set_votes r1 votes))))) as [Hs Hsend].
      split; [|by eapply node_inv_same_office].
      eapply (sends_evolve B r (set_votes r1 votes)); [done|cbn; lia|exact Hs|exact Hsend|lia|].
      intros _. cbn. split; congruence.
    + cbn [snd]. split; [|done]. apply evolve_here; [cbn; lia|done].
Qed.

Lemma campaign_good B kind r : node_inv r -> votes_in r -> (r_term r <= B)%N -> (r_term r < u64_max)%N ->
  good B r (snd (campaign kind r)).
Proof.
  intros Hi Hvin HB Hlt. destruct kind; [|by apply campaign_real_good..]. cbn [campaign]. unfold campaign_round at 1.
  case_bool_decide; [by apply calm_good|]. case_match; [by apply calm_good|]. rewrite bool_decide_true by done.
  set (r0 := set_counters r _).
  destruct (become_pre_candidate_spec r0) as (_ & A & T & C & D & E & M & F & L). cbn [r_id r_term r_vote r_messages r_conf r_log r0 set_counters] in *.
  revert A T C D E M F L. generalize (become_pre_candidate r0). intros r1 A T C D E M F L.
  destruct (poll_spec r1 (r_id r1) true) as (votes & Ep & Hn & Hv & Hw).
  destruct (poll r1 (r_id r1) true) as [result r2]. cbn [fst snd] in *. subst r2.
  assert (NoDup votes.*1) as Hnd by (apply Hn; rewrite E; constructor).
  assert (adopts r (set_votes r1 votes)) as Ha.
  { split; [cbn; congruence|]. cbn. split; [lia|]. split; [|done]. intros _ v. by rewrite C. }
  assert (node_inv (set_votes r1 votes)) as Hi2 by by apply node_inv_pre_candidate.
  case_bool_decide.
  - eapply adopts_good; [exact Ha|]. apply campaign_real_good; [done|done|unfold votes_in; cbn; by rewrite F|cbn; lia|cbn; lia].
  - destruct (rl_last_index (r_log (set_votes r1 votes))) as [lli|e].
    + cbn [snd]. rewrite sat_add_small by lia.
      destruct (requests_spec (set_votes r1 votes) (r_term r + 1) lli (last_term (r_log (set_votes r1 votes))) true
        (bool_decide (PreElection = Transfer)) (cs_voters (current (r_conf (set_votes r1 votes))))) as [Hs Hsend].
      split; [|by eapply node_inv_same_office].
      eapply (sends_evolve B r (set_votes r1 votes)); [done|cbn; lia|exact Hs|exact Hsend|lia|done].
    + cbn [snd]. split; [|done]. apply evolve_here; [cbn; lia|done].
Qed.

(** ** Voting *)

Lemma handle_vote_request_good B r from term lli llt pre : node_inv r -> (r_term r <= B)%N -> (term <= B)%N ->
  (pre = false -> asked from (r_term r)) ->
  good B r (handle_vote_request r from term lli llt pre).
Proof.
  intros (Hn & Hc & Hl) HB Ht Hask. unfold handle_vote_request.
  set (granted := _ && _ && is_up_to_date _ _ _).
  assert (granted = true -> pre = false -> r_vote r = Some from \/ r_vote r = None) as Hg.
  { unfold granted. intros G ->. apply andb_prop in G as [[G _]%andb_prop _].
    apply orb_prop in G as [G|G]; [|done]. apply orb_prop in G as [G|[G _]%andb_prop]; apply bool_decide_eq_true in G; auto. }
  clearbody granted. set (r1 := if granted && negb pre then _ else _).
  assert (ident r1 = ident r /\ r_term r1 = r_term r /\ r_role r1 = r_role r /\ r_votes r1 = r_votes r /\ r_messages r1 = r_messages r /\
    (forall v, r_vote r = Some v -> r_vote r1 = Some v) /\ (granted = true -> pre = false -> r_vote r1 = Some from))
    as (Ai & T & D & E & M & Hv & Hvf).
  { unfold r1. destruct granted, pre; cbn; do 5 (split; [done|]); (split; [|congruence]); intros v Hv; try done.
    destruct Hg as [Hg|Hg]; congruence. }
  clearbody r1. pose proof Ai as [= A _]. set (r2 := set_counters r1 _).
  split.
  - split; [done|]. cbn. split; [lia|]. split; [intros _; exact Hv|].
    eexists [_]. split; [exact (f_equal (fun l => l ++ _) M)|]. constructor; [|done]. split; [done|]. split; [cbn; destruct pre; lia|].
    intros f t c. cbn. destruct granted, pre; try done. intros [= <- <- <-]. split; [done|]. split; [by apply Hvf|]. right. rewrite T. by apply Hask.
  - unfold node_inv. cbn. rewrite A, T, D, E. split; [done|]. split.
    + intros Hr. destruct (Hc Hr) as (Hvote & Hin & Hvs). split; [by apply Hv|done].
    + intros Hr. destruct (Hl Hr) as [Hvote He]. split; [by apply Hv|done].
Qed.

Lemma handle_vote_response_good B r from granted pre : node_inv r -> votes_in r -> (r_term r <= B)%N -> (r_term r < u64_max)%N ->
  (granted = true -> pre = false -> granted_by from (r_term r) (r_id r)) ->
  good B r (snd (handle_vote_response from granted pre r)).
Proof.
  intros Hi Hvin HB Hlt Hgr. unfold handle_vote_response.
  assert (good B r (set_counters r (count_vote_ignored (r_counters r)))) as Hign by (apply calm_good; [done..|by apply calm_same]).
  destruct (poll_spec r from granted) as (votes & Ep & Hn & Hv & Hw).
  assert (forall v, (v, true) ∈ votes -> NoDup votes.*1) as _ by (intros; apply Hn, Hi).
  assert (NoDup votes.*1) as Hnd by (apply Hn, Hi).
  assert (adopts r (set_votes r votes)) as Ha by (split; [done|]; split; [done|]; split; auto).
  assert (good B r (become_follower (set_votes r votes) (r_term r) None)) as Hlost.
  { eapply adopts_good; [exact Ha|]. split.
    - apply calm_evolve; [done|]. apply (become_follower_calm (set_votes r votes)).
    - destruct (become_follower_spec (set_votes r votes) (r_term r) None) as (_ & _ & _ & E & _ & _ & F).
      by apply node_inv_follower. }
  destruct (r_role r) eqn:Hr; cbn [snd]; [exact Hign| | |exact Hign].
  - destruct pre; cbn [Bool.eqb negb]; [|exact Hign]. destruct (poll r from granted) as [result r2]. cbn [fst snd] in *. subst r2.
    assert (node_inv (set_votes r votes)) as Hi2 by by apply node_inv_pre_candidate.
    destruct result; cbn [snd]; [|cbn [r_role set_votes]; rewrite Hr, bool_decide_true by done|exact Hlost].
    + split; [|done]. apply evolve_here; [cbn; lia|done].
    + eapply adopts_good; [exact Ha|]. by apply campaign_good.
  - destruct pre; cbn [Bool.eqb negb]; [exact Hign|]. destruct (poll r from granted) as [result r2]. cbn [fst snd] in *. subst r2.
    destruct Hi as (_ & Hc & _). destruct (Hc Hr) as (Hvote & Hid & Hvs).
    assert (forall v, (v, true) ∈ votes -> v = r_id r \/ granted_by v (r_term r) (r_id r)) as Hall.
    { intros v Hin. destruct (Hv v Hin) as [?|[-> ->]]; [by apply Hvs|right; by apply Hgr]. }
    destruct result; cbn [snd]; [|cbn [r_role set_votes]; rewrite Hr, bool_decide_false by done|exact Hlost].
    + split; [apply evolve_here; [cbn; lia|done]|]. split; [done|]. split; [by intros _|]. cbn. congruence.
    + eapply adopts_good; [exact Ha|]. apply become_leader_good; [cbn; lia|done|].
      destruct (Hw eq_refl Hvin Hnd) as (q & Q1 & Q2 & Q3 & Q4). split; [done|]. exists q. split; [done|]. split; [done|]. split; [done|].
      intros v Hin. by apply Hall, Q4.
Qed.

(** ** Every message and every call *)

Definition heard (m : Message) : Prop :=
  match m with
  | RequestVoteResponse f to t true false => granted_by f t to
  | RequestVote f _ t _ _ false _ => asked f t
  | _ => True
  end.

Lemma step_current_term_good B m r : node_inv r -> votes_in r -> (r_term r <= B)%N -> (r_term r < u64_max)%N -> (message_term m <= B)%N ->
  recipient m = r_id r -> heard m -> (message_term m = r_term r \/ is_pre_vote m = true) ->
  good B r (snd (step_current_term m r)).
Proof.
  intros Hi Hvin HB Hlt Hm Hto Hh Ht.
  destruct m; cbn [step_current_term snd recipient message_term is_pre_vote] in *;
    try (destruct Ht as [Ht|Ht]; [|done]; subst term).
  - apply handle_vote_request_good; [done..|]. intros ->. destruct Ht as [<-|]; done.
  - apply handle_vote_response_good; [done..|]. intros -> ->. destruct Ht as [<-|]; [|done]. by rewrite <- Hto.
  - apply calm_good; [done..|]. etransitivity; [apply (concede_calm r)|]. apply handle_append_entries_calms.
  - apply calm_good; [done..|]. apply handle_append_response_calms.
  - apply calm_good; [done..|]. etransitivity; [apply (concede_calm r)|]. apply handle_install_snapshot_calms.
  - unfold handle_timeout_now. case_bool_decide; [by apply calm_good|]. case_match; [by apply calm_good|]. by apply campaign_good.
  - apply calm_good; [done..|]. apply read_index_calms.
  - apply calm_good; [done..|]. by apply calm_same.
Qed.

Lemma step_good B m r : node_inv r -> votes_in r -> (r_term r <= B)%N -> (B < u64_max)%N -> (message_term m <= B)%N ->
  recipient m = r_id r -> heard m -> good B r (snd (step m r)).
Proof.
  intros Hi Hvin HB Hmax Hm Hto Hh. unfold step.
  destruct (N.ltb_spec (r_term r) (message_term m)) as [L|L].
  - case_match; [by apply calm_good|].
    assert (step_higher_term r m = r /\ is_pre_vote m = true \/
      exists leader, step_higher_term r m = become_follower r (message_term m) leader) as [[-> Hp]|[leader ->]].
    { destruct m; cbn; eauto.
      - destruct pre_vote; eauto.
      - destruct granted, pre_vote; eauto. }
    + apply step_current_term_good; auto. lia.
    + destruct (become_follower_spec r (message_term m) leader) as (A & T & _ & E & _ & F & D).
      pose proof (become_follower_adopts r (message_term m) leader ltac:(lia)) as Ha.
      revert A T E F D Ha. generalize (become_follower r (message_term m) leader). intros r1 A T E F D Ha.
      eapply adopts_good; [exact Ha|]. apply step_current_term_good; [by apply node_inv_follower|unfold votes_in; by rewrite F|lia|lia|done|congruence|done|auto].
  - destruct (N.ltb_spec (message_term m) (r_term r)).
    + apply calm_good; [done..|]. apply step_lower_term_calms.
    + apply step_current_term_good; auto; [lia|]. left. lia.
Qed.

Lemma tick_good B r : node_inv r -> votes_in r -> (r_term r <= B)%N -> (B < u64_max)%N -> good B r (tick r).
Proof.
  intros Hi Hvin HB Hmax. unfold tick.
  assert (good B r (tick_election r)) as He.
  { unfold tick_election. set (r0 := set_election_elapsed r _). assert (adopts r r0) as Ha by (split; [done|]; split; [cbn; lia|auto]).
    case_match; [|apply calm_good; [done..|by apply calm_same]].
    eapply adopts_good; [exact Ha|]. set (r1 := set_election_elapsed r0 0).
    eapply (adopts_good B r0 r1); [split; [done|]; split; [cbn; lia|auto]|].
    apply campaign_good; [exact Hi|exact Hvin|exact HB|cbn; lia]. }
  destruct (r_role r); try exact He. apply calm_good; [done..|]. apply tick_heartbeat_calm.
Qed.
End Office.
