(* ===== verification/RaftCommit.v ===== *)
(** What a leader may commit: [maybe_commit] of [esker-raft/src/replication.rs].

    The index at [quorum - 1] of the sorted [matched] column is an order
    statistic; a commit by counting moves to exactly that index, and only when
    the entry there is of the leader's own term. *)

From Stdlib Require Import Strings.Byte.
From stdpp Require Import prelude sorting.
From Stdlib Require Import NArith ZArith Lia.
From S2P Require Import Prelude SortedVec Rng RaftTypes RaftStorage RaftLog RaftProgress RaftConf RaftState RaftReplication RaftNode RaftFrame.

(** ** The order statistic *)

Lemma reverse_sorted_split l k x : reverse (sort_u64 l) !! k = Some x ->
  exists hi lo, hi ++ x :: lo ≡ₚ l /\ length hi = k /\ Forall (fun y => x <= y)%N hi /\ Forall (fun y => y <= x)%N lo.
Proof.
  intros Hk. exists (take k (reverse (sort_u64 l))), (drop (S k) (reverse (sort_u64 l))).
  pose proof (sort_u64_sorted l) as Hs. set (s := sort_u64 l) in *.
  assert (take k (reverse s) ++ x :: drop (S k) (reverse s) = reverse s) as Hsplit by by apply take_drop_middle.
  pose proof (lookup_lt_Some _ _ _ Hk) as Hlt.
  split; [rewrite Hsplit, reverse_Permutation; apply merge_sort_Permutation|]. split; [rewrite length_take; lia|].
  apply (f_equal reverse) in Hsplit. rewrite reverse_involutive, reverse_app, reverse_cons, <- app_assoc in Hsplit.
  rewrite <- Hsplit in Hs. cbn in Hs. split.
  - apply Forall_reverse. apply StronglySorted_app_1_r in Hs. by apply StronglySorted_inv in Hs as [_ Hs].
  - apply Forall_reverse, Forall_forall. intros y Hy. eapply StronglySorted_app_1_elem_of; [exact Hs|exact Hy|left].
Qed.

(** How many of [l] satisfy [P], which a permutation does not change. *)
Lemma filter_length_perm {A} (P : A -> Prop) `{!forall x, Decision (P x)} (l l' : list A) :
  l ≡ₚ l' -> length (filter P l) = length (filter P l').
Proof. by intros ->. Qed.
Lemma filter_fmap_length {A B} (f : A -> B) (P : B -> Prop) `{!forall x, Decision (P x)} (l : list A) :
  length (filter P (f <$> l)) = length (filter (fun x => P (f x)) l).
Proof.
  induction l as [|x l IH]; [done|]. rewrite fmap_cons, !filter_cons. destruct (decide (P (f x))); cbn; lia.
Qed.

Section Majority.
Context (m : ProgressMap).

Definition matched_of (id : NodeId) : Index := from_option pr_matched 0%N (pm_get m id).

(** The voters known to hold the log through [index]. *)
Definition holders (index : Index) (voters : list NodeId) : list NodeId := filter (fun id => (index <= matched_of id)%N) voters.

Lemma majority_index_spec voters candidate : majority_index m voters = Some candidate ->
  (length voters / 2 + 1 <= length (holders candidate voters))%nat /\
  forall index, (candidate < index)%N -> (length (holders index voters) < length voters / 2 + 1)%nat.
Proof.
  unfold majority_index. fold matched_of. intros (hi & lo & Hp & Hlen & Hhi & Hlo)%reverse_sorted_split.
  assert (forall (P : Index -> Prop) `{!forall x, Decision (P x)},
    length (filter (fun id => P (matched_of id)) voters) = length (filter P (hi ++ candidate :: lo))) as Hf.
  { intros P ?. rewrite <- filter_fmap_length. by apply filter_length_perm. }
  split.
  - unfold holders. rewrite (Hf (fun x => candidate <= x)%N), filter_app, length_app, filter_cons_True by lia.
    rewrite filter_all by done. cbn [length]. lia.
  - intros index Hi. unfold holders. rewrite (Hf (fun x => index <= x)%N), filter_app, length_app, filter_cons_False by lia.
    rewrite (filter_none _ lo). 2: { eapply Forall_impl; [exact Hlo|]. cbn. lia. }
    pose proof (length_filter (fun x => (index <= x)%N) hi). cbn [length]. lia.
Qed.

Lemma majority_index_None voters : majority_index m voters = None <-> voters = [].
Proof.
  unfold majority_index. rewrite lookup_ge_None, length_reverse. unfold sort_u64.
  rewrite (merge_sort_Permutation N.le), length_fmap. destruct voters as [|v voters]; [cbn; intuition lia|].
  split; [|done]. intros Hle. pose proof (Nat.div_lt (length (v :: voters)) 2). cbn [length] in *. lia.
Qed.
End Majority.

(** ** What runs after a commit leaves the log alone *)

Section SameLog.
Context {St : Type} `{LogStorage St}.
Implicit Types r : Raft St.

Definition same_log {A} (h : handler St A) : Prop := forall r, r_log (snd (h r)) = r_log r.

Lemma same_log_bind {A B} (h : handler St A) (k : A -> handler St B) : same_log h -> (forall a, same_log (k a)) -> same_log (hbind h k).
Proof. intros Hh Hk r. unfold hbind. specialize (Hh r). destruct (h r) as [[a|e] r']; [|done]. by rewrite Hk. Qed.
Lemma same_log_for_each {A} (l : list A) (f : A -> handler St unit) : (forall x, same_log (f x)) -> same_log (for_each l f).
Proof. intros Hf. induction l as [|x l IH]; cbn; [done|]. by apply same_log_bind. Qed.

Lemma send_snapshot_same_log to : same_log (send_snapshot (St := St) to).
Proof. intros r. unfold send_snapshot. by repeat (case_match; cbn [snd]). Qed.
Lemma send_append_same_log to : same_log (send_append (St := St) to).
Proof. intros r. unfold send_append. repeat (case_match; cbn [snd]); try done; apply send_snapshot_same_log. Qed.
Lemma send_heartbeat_same_log to context : same_log (send_heartbeat (St := St) to context).
Proof. intros r. unfold send_heartbeat. repeat (case_match; cbn [snd]); try done; by rewrite send_append_same_log. Qed.
Lemma read_index_same_log ctx from : same_log (read_index (St := St) ctx from).
Proof.
  intros r. unfold read_index, answer_read. repeat (case_match; cbn [snd]); try done.
  unfold bcast_heartbeat. rewrite same_log_for_each; [done|]. intros x. case_match; [done|]. apply send_heartbeat_same_log.
Qed.
Lemma flush_postponed_reads_same_log : same_log (flush_postponed_reads (St := St)).
Proof.
  intros r. unfold flush_postponed_reads. case_match; [done|]. destruct (take_postponed _) as [postponed ro].
  rewrite same_log_for_each; [done|]. intros [ctx from]. apply read_index_same_log.
Qed.
Lemma step_down_if_removed_log r : r_log (step_down_if_removed r) = r_log r.
Proof.
  unfold step_down_if_removed. case_match; [|done]. unfold become_follower, reset, reset_election_timeout.
  repeat (case_match; cbn [r_log set_rng set_randomized_election_timeout]); done.
Qed.
End SameLog.

(** ** Committing *)

Section Commit.
Context {St : Type} `{LogStorage St}.
Implicit Types r : Raft St.

(** The index [maybe_commit] may move to: held by a majority, no higher index
    is, and the entry there carries the leader's own term. *)
Definition committable r (candidate : Index) : Prop :=
  let voters := cs_voters (current (r_conf r)) in
  (length voters / 2 + 1 <= length (holders (r_progress r) candidate voters))%nat /\
  (forall index, (candidate < index)%N -> (length (holders (r_progress r) index voters) < length voters / 2 + 1)%nat) /\
  rl_term (r_log r) candidate = Ok (r_term r).

Lemma maybe_commit_cases r :
  (snd (maybe_commit r) = r /\ fst (maybe_commit r) = Ok false) \/
  exists candidate, committable r candidate /\ (rl_committed (r_log r) < candidate)%N /\
    r_log (snd (maybe_commit r)) = snd (rl_commit_to (r_log r) candidate).
Proof.
  unfold maybe_commit. set (voters := cs_voters (current (r_conf r))).
  destruct (majority_index (r_progress r) voters) as [candidate|] eqn:Em; [|by left].
  destruct (N.leb_spec candidate (rl_committed (r_log r))) as [|Hlt]; [by left|].
  destruct (rl_matches (r_log r) candidate (r_term r)) eqn:Hmt; [|by left]. right. exists candidate.
  apply majority_index_spec in Em as [Hq Hmax]. split; [|split; [done|]].
  - split; [done|]. split; [done|]. unfold rl_matches, is_ok_and in Hmt. case_match; [|done]. apply N.eqb_eq in Hmt. congruence.
  - cbn [negb]. unfold hbind at 1, on_log. destruct (rl_commit_to (r_log r) candidate) as [[[]|e] l]; [|done]. cbn [fst snd].
    match goal with |- context [snd (?h ?r0)] => assert (same_log h) as Hs end.
    { apply same_log_bind; [done|]. intros _. apply same_log_bind; [intros r0; apply step_down_if_removed_log|]. intros _.
      apply same_log_bind; [apply flush_postponed_reads_same_log|done]. }
    by rewrite Hs.
Qed.

Lemma committable_unique r a b : committable r a -> committable r b -> a = b.
Proof.
  intros (Ha & Ha' & _) (Hb & Hb' & _). destruct (N.lt_trichotomy a b) as [H1|[H1|H1]]; [|done|].
  - specialize (Ha' b H1). lia.
  - specialize (Hb' a H1). lia.
Qed.

(** C14: [maybe_commit] changes nothing of the log but its commit index,
    which never moves back.  It moves only to the highest index a majority of
    the voters in force is known to hold, and only if the entry there is of
    the leader's own term; and when that index is in the log and beyond what is
    committed, it does move there. *)
Theorem commit_by_counting r : let l := r_log r in let l' := r_log (snd (maybe_commit r)) in
  l' = rl_set_committed l (rl_committed l') /\
  (rl_committed l <= rl_committed l')%N /\
  ((rl_committed l < rl_committed l')%N -> committable r (rl_committed l')) /\
  (forall candidate last, committable r candidate -> rl_last_index l = Ok last -> (rl_committed l < candidate <= last)%N ->
     rl_committed l' = candidate).
Proof.
  assert (forall l : RaftLog St, l = rl_set_committed l (rl_committed l)) as Heta by by intros [].
  cbn zeta. destruct (maybe_commit_cases r) as [[Hr Hf]|(candidate & Hc & Hlt & Hl)].
  - rewrite Hr. split; [apply Heta|]. split; [lia|]. split; [lia|]. intros candidate last Hc Hlast Hin. exfalso.
    revert Hf. unfold maybe_commit. set (voters := cs_voters (current (r_conf r))).
    destruct (majority_index (r_progress r) voters) as [c|] eqn:Em.
    2: { apply majority_index_None in Em. destruct Hc as (Hq & _). fold voters in Hq. rewrite Em in Hq. cbn in Hq. lia. }
    apply majority_index_spec in Em as [Hq Hmax]. destruct Hc as (Hq' & Hmax' & Ht). fold voters in Hq', Hmax'.
    assert (c = candidate) as ->.
    { destruct (N.lt_trichotomy c candidate) as [H1|[H1|H1]]; [specialize (Hmax _ H1); lia|done|specialize (Hmax' _ H1); lia]. }
    destruct (N.leb_spec candidate (rl_committed (r_log r))); [lia|]. unfold rl_matches. rewrite Ht. cbn [is_ok_and]. rewrite N.eqb_refl.
    cbn [negb]. unfold hbind, on_log, rl_commit_to. rewrite Hlast.
    destruct (N.leb_spec candidate (rl_committed (r_log r))); [lia|]. destruct (N.ltb_spec last candidate); [lia|]. cbn.
    by destruct (flush_postponed_reads _) as [[]].
  - rewrite Hl. unfold rl_commit_to. destruct (N.leb_spec candidate (rl_committed (r_log r))); [lia|].
    destruct (rl_last_index (r_log r)) as [last|] eqn:El; [|cbn [snd]].
    + destruct (N.ltb_spec last candidate); cbn [snd].
      * split; [apply Heta|]. split; [lia|]. split; [lia|]. intros c last' Hc' [= <-] Hin.
        rewrite (committable_unique r c candidate Hc' Hc) in Hin. lia.
      * cbn. split; [done|]. split; [lia|]. split; [done|]. intros c last' Hc' _ _. symmetry. by eapply committable_unique.
    + split; [apply Heta|]. split; [lia|]. split; [lia|]. by intros.
Qed.
End Commit.
