(* ===== verification/RaftDriver.v ===== *)
(** A cluster of nodes behind their disks: [esker-sim/src/raft/driver.rs] and
    [esker-sim/src/raft/cluster/].

    A node's [Ready] is held by the disk, made durable, and only then are its
    messages handed to the network.  The network may delay, reorder, duplicate
    and lose; a crash leaves exactly what was made durable.  The same order is
    what [esker-store/src/peer.rs] follows in [PeerCore::drive]. *)

From Stdlib Require Import Strings.Byte.
From stdpp Require Import prelude gmap sorting.
From Stdlib Require Import NArith ZArith Lia.
From S2P Require Import Prelude SortedVec Rng RaftTypes RaftStorage RaftLog RaftProgress RaftConf RaftState RaftReplication RaftNode RawNode.

(** ** The disk *)

Record PersistedStorage : Type := mkPersisted {
  ps_durable : MemStorage;
  ps_writes : N;
  ps_entries_written : N;
  ps_compactions : N }.

Definition PersistedStorage_new (conf : ConfState) : PersistedStorage := mkPersisted (with_conf_state conf) 0 0 0.
Definition from_durable (durable : MemStorage) : PersistedStorage := mkPersisted durable 0 0 0.
Definition set_durable (s : PersistedStorage) (d : MemStorage) : PersistedStorage :=
  mkPersisted d (ps_writes s) (ps_entries_written s) (ps_compactions s).

Definition persist_snapshot (rd : Ready) (s : PersistedStorage) : result RaftError unit * PersistedStorage :=
  match rd_snapshot rd with
  | None => (Ok tt, s)
  | Some snapshot => let '(res, d) := apply_snapshot (ps_durable s) snapshot in (res, set_durable s d)
  end.
Definition persist_entries (rd : Ready) (s : PersistedStorage) : result RaftError unit * PersistedStorage :=
  match rd_entries rd with
  | [] => (Ok tt, s)
  | entries =>
      let '(res, d) := MemStorage_append (ps_durable s) entries in
      match res with
      | Err e => (Err e, set_durable s d)
      | Ok _ => (Ok tt, mkPersisted d (ps_writes s) (ps_entries_written s +% N.of_nat (length entries)) (ps_compactions s))
      end
  end.
Definition persist_hard_state (rd : Ready) (s : PersistedStorage) : PersistedStorage :=
  let d := match rd_hard_state rd with Some hs => set_hard_state (ps_durable s) hs | None => ps_durable s end in
  mkPersisted d (ps_writes s +% 1) (ps_entries_written s) (ps_compactions s).
(** [persist]: this call is the fsync. *)
Definition persist (rd : Ready) (s : PersistedStorage) : result RaftError unit * PersistedStorage :=
  match persist_snapshot rd s with
  | (Err e, s) => (Err e, s)
  | (Ok _, s) =>
      match persist_entries rd s with
      | (Err e, s) => (Err e, s)
      | (Ok _, s) => (Ok tt, persist_hard_state rd s)
      end
  end.

Definition ps_compact (s : PersistedStorage) (to_index : Index) : result RaftError unit * PersistedStorage :=
  match compact (ps_durable s) to_index with
  | (Err e, d) => (Err e, set_durable s d)
  | (Ok _, d) => (Ok tt, mkPersisted d (ps_writes s) (ps_entries_written s) (ps_compactions s +% 1))
  end.
Definition ps_set_conf_state (s : PersistedStorage) (conf : ConfState) : PersistedStorage :=
  set_durable s (set_conf_state (ps_durable s) conf).

#[export] Instance PersistedStorage_log : LogStorage PersistedStorage := {
  initial_state s := initial_state (ps_durable s);
  store_entries s := store_entries (ps_durable s);
  store_term s := store_term (ps_durable s);
  store_first_index s := store_first_index (ps_durable s);
  store_last_index s := store_last_index (ps_durable s);
  store_snapshot s := store_snapshot (ps_durable s) }.

(** ** A node and its disk *)

(** The state machine above the core: what it consumed, and up to where. *)
Record Machine : Type := mkMachine { mc_applied : list Entry; mc_applied_index : Index }.
Definition fresh_machine : Machine := mkMachine [] 0.

Definition machine_apply (entries : list Entry) (mc : Machine) : Machine :=
  foldl (fun mc entry =>
    if (entry_index entry <=? mc_applied_index mc)%N then mc
    else mkMachine (mc_applied mc ++ [entry]) (entry_index entry)) mc entries.
Definition install_snapshot (through : Index) (mc : Machine) : Machine :=
  mkMachine (mc_applied mc) (N.max (mc_applied_index mc) through).

(** [NodeSlot]: the core or, while it is dead, its durable bytes; the [Ready]
    the disk is holding; and the state machine. *)
Record NodeSlot : Type := mkSlot {
  slot_node : option (RawNode PersistedStorage);
  slot_durable : option MemStorage;
  slot_pending : option Ready;
  slot_machine : Machine }.

Definition slot_storage (s : NodeSlot) : option MemStorage :=
  match slot_node s, slot_durable s with
  | Some n, _ => Some (ps_durable (storage n))
  | None, d => d
  end.

Definition crash (s : NodeSlot) : NodeSlot :=
  match slot_node s with
  | Some n => mkSlot None (Some (ps_durable (storage n))) None (slot_machine s)
  | None => s
  end.
(** [restart] with [take_durable], [build_node] and [revive]; the configuration
    of the new life is the driver's. *)
Definition restart (config : Config) (s : NodeSlot) : option NodeSlot :=
  match slot_durable s with
  | None => Some s
  | Some d =>
      match RawNode_new config (from_durable d) with
      | Ok n => Some (mkSlot (Some n) None (slot_pending s) (slot_machine s))
      | Err _ => None
      end
  end.

(** A call on the core of a live node. *)
Definition call (f : RawNode PersistedStorage -> RawNode PersistedStorage) (s : NodeSlot) : NodeSlot :=
  match slot_node s with
  | Some n => mkSlot (Some (f n)) (slot_durable s) (slot_pending s) (slot_machine s)
  | None => s
  end.

Definition take_ready (s : NodeSlot) : NodeSlot :=
  match slot_node s with
  | Some n =>
      if negb (has_ready n) then s else
      let '(rd, n) := ready n in mkSlot (Some n) (slot_durable s) (Some rd) (slot_machine s)
  | None => s
  end.

(** What the state machine takes from a [Ready] that is durable. *)
Definition consume (rd : Ready) (mc : Machine) : Machine :=
  machine_apply (rd_committed_entries rd)
    (match rd_snapshot rd with Some snapshot => install_snapshot (meta_index (snap_meta snapshot)) mc | None => mc end).

(** The fsync landed: make it durable, send, apply, advance. *)
Definition complete_write (s : NodeSlot) : option (NodeSlot * list Message) :=
  match slot_node s, slot_pending s with
  | Some n, Some rd =>
      match persist rd (storage n) with
      | (Err _, _) => None
      | (Ok _, st) => Some (mkSlot (Some (advance rd (with_storage n st))) (slot_durable s) None (consume rd (slot_machine s)), rd_messages rd)
      end
  | _, _ => Some (s, [])
  end.

(** [pump_once]: a write that has come due is completed, otherwise a [Ready] is taken. *)
Definition pump_once (s : NodeSlot) : option (NodeSlot * list Message) :=
  match slot_pending s with
  | Some _ => complete_write s
  | None => Some (take_ready s, [])
  end.

(** Housekeeping: the anchor configuration a restart must recover, then the
    log's head folded into the snapshot. *)
Definition housekeep (conf : ConfState) (through : option Index) (n : RawNode PersistedStorage) : RawNode PersistedStorage :=
  let st := ps_set_conf_state (storage n) conf in
  with_storage n (match through with Some index => snd (ps_compact st index) | None => st end).

(** ** The cluster *)

(** [cl_sent] keeps every message ever handed to the network, each under the
    token it was sent with; [cl_led] is a history of who was seen leading which
    term. *)
Record Cluster : Type := mkCluster {
  cl_nodes : gmap NodeId NodeSlot;
  cl_sent : list Message;
  cl_led : list (NodeId * Term) }.

Inductive Event : Type :=
| EvTick
| EvDeliver (token : nat)
| EvPropose (data : bytes)
| EvProposeConf (change : ConfChange)
| EvReadIndex (ctx : bytes)
| EvCampaign
| EvTransfer (target : NodeId)
| EvReportSnapshot (to : NodeId) (status : SnapshotStatus)
| EvPump
| EvHousekeep (conf : ConfState) (through : option Index)
| EvCrash
| EvRestart (config : Config).

(** What an event does to one node; [None] where the driver gives up. *)
Definition act (sent : list Message) (id : NodeId) (ev : Event) (s : NodeSlot) : option (NodeSlot * list Message) :=
  match ev with
  | EvTick => Some (call rn_tick s, [])
  | EvDeliver token =>
      match sent !! token with
      | Some m => if (recipient m =? id)%N then Some (call (fun n => snd (rn_step m n)) s, []) else None
      | None => None
      end
  | EvPropose data => Some (call (fun n => snd (rn_propose data n)) s, [])
  | EvProposeConf change => Some (call (fun n => snd (rn_propose_conf_change change n)) s, [])
  | EvReadIndex ctx => Some (call (rn_read_index ctx) s, [])
  | EvCampaign => Some (call (fun n => snd (rn_campaign n)) s, [])
  | EvTransfer target => Some (call (rn_transfer_leader target) s, [])
  | EvReportSnapshot to status => Some (call (rn_report_snapshot to status) s, [])
  | EvPump => pump_once s
  | EvHousekeep conf through => Some (call (housekeep conf through) s, [])
  | EvCrash => Some (crash s, [])
  | EvRestart config => 
      if (cfg_id config =? id)%N && (cfg_applied config =? mc_applied_index (slot_machine s))%N
      then (fun s => (s, [])) <$> restart config s else None
  end.

Definition leads (s : NodeSlot) : option Term :=
  match slot_node s with
  | Some n => if bool_decide (r_role (rn_raft n) = Leader) then Some (r_term (rn_raft n)) else None
  | None => None
  end.

Definition cluster_step (id : NodeId) (ev : Event) (c : Cluster) : option Cluster :=
  match cl_nodes c !! id with
  | None => None
  | Some s =>
      match act (cl_sent c) id ev s with
      | None => None
      | Some (s', out) =>
          Some (mkCluster (<[id := s']> (cl_nodes c)) (cl_sent c ++ out)
                  (match leads s' with Some t => (id, t) :: cl_led c | None => cl_led c end))
      end
  end.

Definition cluster_run (evs : list (NodeId * Event)) (c : Cluster) : option Cluster :=
  foldl (fun c e => match c with Some c => cluster_step e.1 e.2 c | None => None end) (Some c) evs.
