(* ===== verification/RaftCluster.v ===== *)
(** Election safety of a cluster driven as [RaftDriver] describes.

    Nodes crash and restart from what their disks hold, messages are delayed,
    duplicated, reordered and lost, and no term ever has two leaders. *)

From Stdlib Require Import Strings.Byte.
From stdpp Require Import prelude gmap sorting.
From Stdlib Require Import NArith ZArith Lia.
From S2P Require Import Prelude SortedVec Rng RaftTypes RaftStorage RaftLog RaftProgress RaftConf RaftState RaftReplication RaftNode RawNode RaftFrame RaftElection RaftDriver.

(** ** Terms and votes on three levels *)

(** What a hard state says of the election: the term, and the vote in it. *)
Definition tv (hs : HardState) : Term * option NodeId := (hs_term hs, hs_voted_for hs).

Definition tle (a b : Term * option NodeId) : Prop :=
  (a.1 < b.1)%N \/ a.1 = b.1 /\ forall v, a.2 = Some v -> b.2 = Some v.
Definition covers (a : Term * option NodeId) (t : Term) (c : NodeId) : Prop :=
  (t < a.1)%N \/ t = a.1 /\ a.2 = Some c.

#[export] Instance tle_refl : Reflexive tle.
Proof. intros a. right. auto. Qed.
#[export] Instance tle_trans : Transitive tle.
Proof. intros a b c [H|[H H']] [K|[K K']]; [left; lia..|]. right. split; [congruence|auto]. Qed.
Lemma covers_mono a b t c : tle a b -> covers a t c -> covers b t c.
Proof. intros [H|[H H']] [K|[K K']]; [left; lia..|]. right. split; [congruence|auto]. Qed.
Lemma tle_term a b : tle a b -> (a.1 <= b.1)%N.
Proof. intros [H|[H _]]; lia. Qed.

(** [f] voted for [c] in term [t], by a message of [l]. *)
Definition cast (l : list Message) (f : NodeId) (t : Term) (c : NodeId) : Prop :=
  exists m, m ∈ l /\ ballot m = Some (f, t, c).

Lemma cast_nil f t c : ~ cast [] f t c.
Proof. intros (m & Hm & _). by apply elem_of_nil in Hm. Qed.
Lemma cast_app l l' f t c : cast (l ++ l') f t c <-> cast l f t c \/ cast l' f t c.
Proof.
  split.
  - intros (m & [Hm|Hm]%elem_of_app & E); [left|right]; by exists m.
  - intros [(m & Hm & E)|(m & Hm & E)]; exists m; rewrite elem_of_app; auto.
Qed.
Lemma ballot_sender m f t c : ballot m = Some (f, t, c) -> sender m = f.
Proof. destruct m; cbn; try done; repeat case_match; congruence. Qed.
Lemma cast_from l id f t c : Forall (fun m => sender m = id) l -> cast l f t c -> f = id.
Proof. intros Hl (m & Hm & E). rewrite Forall_forall in Hl. rewrite <- (Hl m Hm). symmetry. by eapply ballot_sender. Qed.

Definition granted_in (sent : list Message) (v : NodeId) (t : Term) (c : NodeId) : Prop :=
  RequestVoteResponse v c t true false ∈ sent.
Definition asked_in (sent : list Message) (c : NodeId) (t : Term) : Prop := cast sent c t c.

Lemma granted_cast sent v t c : granted_in sent v t c -> cast sent v t c.
Proof. intros H. by exists (RequestVoteResponse v c t true false). Qed.
Lemma asked_mono sent out c t : asked_in sent c t -> asked_in (sent ++ out) c t.
Proof. intros H. apply cast_app. by left. Qed.
Lemma heard_sent sent m : m ∈ sent -> heard (granted_in sent) (asked_in sent) m.
Proof. intros H. destruct m; cbn; try done; repeat case_match; try done. by eexists. Qed.

Lemma node_inv_mono {St} V (g g' : NodeId -> Term -> NodeId -> Prop) (r : Raft St) :
  (forall v t c, g v t c -> g' v t c) -> node_inv V g r -> node_inv V g' r.
Proof.
  intros Hg (A & B & C). split; [done|]. split.
  - intros Hr. destruct (B Hr) as (D & E & F). split; [done|]. split; [done|]. intros v Hv. destruct (F v Hv); auto.
  - intros Hr. destruct (C Hr) as (D & E & q & Q1 & Q2 & Q3 & Q4). split; [done|]. split; [done|]. exists q.
    repeat (split; [done|]). intros v Hv. destruct (Q4 v Hv); auto.
Qed.

(** The election state on the disk, on its way there, and in memory. *)
Definition durable_tv (s : NodeSlot) : Term * option NodeId :=
  match slot_storage s with Some d => tv (mem_hard_state d) | None => (0%N, None) end.
Definition pending_tv (s : NodeSlot) : Term * option NodeId :=
  match slot_pending s with
  | Some rd => match rd_hard_state rd with Some hs => tv hs | None => durable_tv s end
  | None => durable_tv s
  end.
Definition memory_tv (s : NodeSlot) : Term * option NodeId :=
  match slot_node s with Some n => (r_term (rn_raft n), r_vote (rn_raft n)) | None => durable_tv s end.
(** Messages waiting for the disk, and messages the core has queued. *)
Definition held (s : NodeSlot) : list Message :=
  match slot_pending s with Some rd => rd_messages rd | None => [] end.
Definition queued (s : NodeSlot) : list Message :=
  match slot_node s with Some n => r_messages (rn_raft n) | None => [] end.

Section Slot.
Context (V : list NodeId).

Definition live_ok (sent : list Message) (id : NodeId) (s : NodeSlot) : Prop :=
  match slot_node s with
  | Some n =>
      slot_durable s = None /\ r_id (rn_raft n) = id /\ node_inv V (granted_in sent) (rn_raft n) /\
      tv (rn_prev_hard_state n) = durable_tv s
  | None => slot_pending s = None /\ is_Some (slot_durable s)
  end.

Record slot_inv (B : N) (sent : list Message) (id : NodeId) (s : NodeSlot) : Prop := {
  si_live : live_ok sent id s;
  si_chain : tle (durable_tv s) (pending_tv s) /\ tle (pending_tv s) (memory_tv s);
  si_term : ((memory_tv s).1 <= B)%N;
  si_from : Forall (fun m => sender m = id /\ (message_term m <= B)%N) (held s ++ queued s);
  si_sent : forall t c, cast sent id t c -> covers (durable_tv s) t c;
  si_held : forall t c, cast (held s) id t c -> covers (pending_tv s) t c;
  si_queued : forall t c, cast (queued s) id t c -> covers (memory_tv s) t c;
  si_once : forall t c c', cast (sent ++ held s ++ queued s) id t c -> cast (sent ++ held s ++ queued s) id t c' -> c = c';
  si_asked : forall t c, cast (sent ++ held s ++ queued s) id t c -> c = id \/ asked_in sent c t }.

(** Every ballot of a node is within what it remembers. *)
Lemma slot_covers B sent id s t c : slot_inv B sent id s -> cast (sent ++ held s ++ queued s) id t c -> covers (memory_tv s) t c.
Proof.
  intros Hs. destruct (si_chain _ _ _ _ Hs) as [H1 H2]. rewrite !cast_app. intros [H|[H|H]].
  - eapply covers_mono; [|by apply (si_sent _ _ _ _ Hs)]. by transitivity (pending_tv s).
  - eapply covers_mono; [exact H2|]. by apply (si_held _ _ _ _ Hs).
  - by apply (si_queued _ _ _ _ Hs).
Qed.

(** A longer history of the other nodes' messages changes nothing. *)
Lemma slot_inv_others B B' sent out id s : (B <= B')%N -> Forall (fun m => sender m <> id) out ->
  slot_inv B sent id s -> slot_inv B' (sent ++ out) id s.
Proof.
  intros HB Ho Hs. assert (forall t c, cast (sent ++ out) id t c -> cast sent id t c) as Hc.
  { intros t c. rewrite cast_app. intros [H|(m & Hm & E)]; [done|]. rewrite Forall_forall in Ho.
    destruct (Ho m Hm). by eapply ballot_sender. }
  assert (forall t c l, cast ((sent ++ out) ++ l) id t c -> cast (sent ++ l) id t c) as Hc'.
  { intros t c l. rewrite !(cast_app _ l). intros [H|H]; auto. }
  destruct Hs as [Hl Hch Hterm Hf Hsn Hhd Hqd Hone Hask]. split; try done; eauto.
  - unfold live_ok in *. case_match; [|done]. destruct Hl as (? & ? & Hi & ?). split; [done|]. split; [done|]. split; [|done].
    eapply node_inv_mono; [|exact Hi]. intros v t c. unfold granted_in. rewrite elem_of_app. auto.
  - lia.
  - eapply Forall_impl; [exact Hf|]. cbn. intros m []. split; [done|lia].
  - intros t c H. destruct (Hask t c (Hc' _ _ _ H)); [auto|]. right. by apply asked_mono.
Qed.

(** A call on the core that is within [good]. *)
Lemma slot_inv_call B sent id n n' d p mc mc' : slot_inv B sent id (mkSlot (Some n) d p mc) ->
  rn_prev_hard_state n' = rn_prev_hard_state n ->
  good V (granted_in sent) (asked_in sent) B (rn_raft n) (rn_raft n') ->
  slot_inv (B + 1) sent id (mkSlot (Some n') d p mc').
Proof.
  intros Hs Hprev [(Hid & Ht & Hv & new & Hnew & Hok) Hi].
  pose proof (fun t c => slot_covers _ _ _ _ t c Hs) as Hcov.
  set (s := mkSlot (Some n) d p mc) in *. set (s' := mkSlot (Some n') d p mc').
  assert (durable_tv s' = durable_tv s) as Hd by (unfold durable_tv; cbn; unfold storage; congruence).
  assert (pending_tv s' = pending_tv s) as Hp by (unfold pending_tv; by rewrite Hd).
  assert (tle (memory_tv s) (memory_tv s')) as Hm.
  { unfold tle; cbn. destruct (decide (r_term (rn_raft n) = r_term (rn_raft n'))); [right|left; lia]. split; [done|auto]. }
  assert (queued s' = queued s ++ new) as Hq by exact Hnew.
  assert (held s' = held s) as Hh by done.
  assert (forall t c, cast new id t c -> (t, Some c) = memory_tv s' /\ (c = id \/ asked_in sent c t)) as Hcast.
  { intros t c (m & Hin & E). rewrite Forall_forall in Hok. destruct (Hok m Hin) as (_ & _ & Hb).
    destruct (Hb _ _ _ E) as (-> & Hvote & Hask). split; [|done]. cbn. by rewrite Hvote. }
  destruct Hs as [(Hnd & Hme & _ & Hpv) [Hc1 Hc2] Hterm Hf Hsn Hhd Hqd Hone Hask]. split.
  - split; [done|]. split; [cbn in *; congruence|]. split; [done|]. congruence.
  - rewrite Hd, Hp. split; [done|]. by transitivity (memory_tv s).
  - cbn in *; lia.
  - rewrite Hh, Hq, app_assoc. apply Forall_app. split; (eapply Forall_impl; [eassumption|]); cbn.
    + intros m []. split; [done|lia].
    + intros m (Hsend & Hmt & _). split; [cbn in *; congruence|lia].
  - by rewrite Hd.
  - by rewrite Hp, Hh.
  - rewrite Hq. intros t c. rewrite cast_app. intros [H|H]; [eapply covers_mono; [exact Hm|by apply Hqd]|].
    destruct (Hcast _ _ H) as [<- _]. by right.
  - rewrite Hh, Hq. intros t c c'. rewrite !app_assoc, !(cast_app _ new), <- !app_assoc.
    intros [H|H] [H'|H']; [by eapply Hone|..];
      repeat match goal with
      | H : cast new _ _ _ |- _ => apply Hcast in H as [H _]
      | H : cast _ _ _ _ |- _ => apply Hcov in H; eapply covers_mono in H; [|exact Hm]
      end; unfold covers in *; [destruct H as [?|[? ?]]|destruct H' as [?|[? ?]]|]; rewrite <- ?H, <- ?H' in *; cbn in *; try lia; congruence.
  - rewrite Hh, Hq. intros t c. rewrite !app_assoc, !(cast_app _ new), <- !app_assoc.
    intros [H|H]; [by apply Hask|by apply Hcast].
Qed.

Lemma slot_inv_grow B B' sent id s : (B <= B')%N -> slot_inv B sent id s -> slot_inv B' sent id s.
Proof. intros HB Hs. rewrite <- (app_nil_r sent). by apply (slot_inv_others B). Qed.

(** A change the relation does not look at. *)
Lemma slot_inv_view B sent id s s' : slot_inv B sent id s -> live_ok sent id s' ->
  durable_tv s' = durable_tv s -> pending_tv s' = pending_tv s -> memory_tv s' = memory_tv s ->
  held s' = held s -> queued s' = queued s -> slot_inv B sent id s'.
Proof.
  intros [_ Hch Hterm Hf Hsn Hhd Hqd Hone Hask] Hl Ed Ep Em Eh Eq.
  split; rewrite ?Ed, ?Ep, ?Em, ?Eh, ?Eq; assumption.
Qed.

(** Taking a [Ready]: the disk is given everything the core remembers. *)
Lemma slot_inv_ready B sent id n d mc : slot_inv B sent id (mkSlot (Some n) d None mc) ->
  slot_inv B sent id (mkSlot (Some (snd (ready n))) d (Some (fst (ready n))) mc).
Proof.
  intros [(Hnd & Hme & Hi & Hpv) [Hc1 Hc2] Hterm Hf Hsn Hhd Hqd Hone Hask].
  set (s := mkSlot (Some n) d None mc) in *. set (s' := mkSlot _ _ _ _).
  assert (durable_tv s' = durable_tv s) as Hd by done.
  assert (memory_tv s' = memory_tv s) as Hm by done.
  assert (pending_tv s' = memory_tv s) as Hp.
  { unfold pending_tv. cbn. unfold differs_from. case_bool_decide as Hne; [done|].
    change (durable_tv s = memory_tv s). rewrite <- Hpv.
    by rewrite <- Hne. }
  assert (held s' = queued s) as Hh by done. assert (queued s' = []) as Hq by done.
  split; rewrite ?Hd, ?Hp, ?Hm, ?Hh, ?Hq, ?app_nil_r; try done.
  by intros t c []%cast_nil.
Qed.

(** Landing one: what was pending is durable, and its messages are sent. *)
Lemma persist_tv rd st st' : persist rd st = (Ok tt, st') ->
  tv (mem_hard_state (ps_durable st')) =
  match rd_hard_state rd with Some hs => tv hs | None => tv (mem_hard_state (ps_durable st)) end.
Proof.
  assert (forall m snap, tv (mem_hard_state (snd (apply_snapshot m snap))) = tv (mem_hard_state m)) as Hs.
  { intros m snap. unfold apply_snapshot. by repeat case_match. }
  assert (forall m es, tv (mem_hard_state (snd (MemStorage_append m es))) = tv (mem_hard_state m)) as Ha.
  { intros m es. unfold MemStorage_append. by repeat case_match. }
  unfold persist. assert (tv (mem_hard_state (ps_durable (snd (persist_snapshot rd st)))) = tv (mem_hard_state (ps_durable st))) as E.
  { unfold persist_snapshot. destruct (rd_snapshot rd) as [snap|]; [|done]. rewrite <- (Hs (ps_durable st) snap). by destruct (apply_snapshot _ snap). }
  destruct (persist_snapshot rd st) as [[[]|e] st1]; [|done]. cbn [snd] in E. rewrite <- E.
  assert (tv (mem_hard_state (ps_durable (snd (persist_entries rd st1)))) = tv (mem_hard_state (ps_durable st1))) as E'.
  { unfold persist_entries. destruct (rd_entries rd) as [|e es]; [done|]. rewrite <- (Ha (ps_durable st1) (e :: es)). by destruct (MemStorage_append _ _) as [[]]. }
  destruct (persist_entries rd st1) as [[[]|e] st2]; [|done]. cbn [snd] in E'. rewrite <- E'.
  intros [= <-]. unfold persist_hard_state. by destruct (rd_hard_state rd).
Qed.

Lemma advance_keeps {St} `{LogStorage St} rd (n : RawNode St) : let r := rn_raft n in let r' := rn_raft (advance rd n) in
  ident r' = ident r /\ r_term r' = r_term r /\ r_vote r' = r_vote r /\ r_role r' = r_role r /\ r_votes r' = r_votes r /\
  r_messages r' = r_messages r /\
  rn_prev_hard_state (advance rd n) = match rd_hard_state rd with Some hs => hs | None => rn_prev_hard_state n end.
Proof.
  assert (forall (l : RaftLog St) i t, rl_store (stable_to l i t) = rl_store l) as H1 by (intros; unfold stable_to; by repeat case_match).
  assert (forall (l : RaftLog St) i, rl_store (stable_snapshot_to l i) = rl_store l) as H2 by (intros; unfold stable_snapshot_to; by repeat case_match).
  unfold advance. destruct (rd_hard_state rd), (rd_snapshot rd), (last (rd_entries rd)), (last (rd_committed_entries rd)); cbn;
    rewrite ?H1, ?H2; cbn; rewrite ?H1, ?H2; repeat (split; [done|]); done.
Qed.

Lemma slot_inv_complete B sent id n d rd st mc mc' : slot_inv B sent id (mkSlot (Some n) d (Some rd) mc) ->
  persist rd (storage n) = (Ok tt, st) ->
  slot_inv B (sent ++ rd_messages rd) id (mkSlot (Some (advance rd (with_storage n st))) d None mc').
Proof.
  intros [(Hnd & Hme & Hi & Hpv) [Hc1 Hc2] Hterm Hf Hsn Hhd Hqd Hone Hask] Hper%persist_tv.
  pose proof (advance_keeps rd (with_storage n st)) as Ha. revert Ha. generalize (advance rd (with_storage n st)).
  intros n' ([= A1 A2] & A3 & A4 & A5 & A6 & A7 & A8).
  set (s := mkSlot (Some n) d (Some rd) mc) in *. set (s' := mkSlot _ _ _ _).
  assert (durable_tv s' = pending_tv s) as Hd.
  { unfold durable_tv, pending_tv, durable_tv. cbn. unfold storage. by rewrite A2. }
  assert (memory_tv s' = memory_tv s) as Hm by (unfold memory_tv; cbn; by rewrite A3, A4).
  assert (pending_tv s' = pending_tv s) as Hp by exact Hd.
  assert (held s' = []) as Hh by done. assert (queued s' = queued s) as Hq by exact A7.
  assert (held s = rd_messages rd) as Hrd by done.
  split; rewrite ?Hd, ?Hp, ?Hm, ?Hh, ?Hq, <- ?Hrd, ?app_nil_l, <- ?app_assoc; try done.
  - split; [done|]. cbn. rewrite A1. split; [done|]. split.
    + eapply node_inv_mono; [|eapply node_inv_fields; [exact A1|exact A3|exact A4|exact A5|exact A6|exact Hi]].
      intros v t c. unfold granted_in. rewrite elem_of_app. auto.
    + change (tv (rn_prev_hard_state n') = durable_tv s'). rewrite A8, Hd. unfold pending_tv. cbn. by destruct (rd_hard_state rd).
  - by apply Forall_app in Hf as [_ Hf].
  - intros t c. rewrite cast_app. intros [H|H]; [eapply covers_mono; [exact Hc1|by apply Hsn]|by apply Hhd].
  - by intros t c []%cast_nil.
  - intros t c H. destruct (Hask t c H); [by left|]. right. by apply asked_mono.
Qed.

(** A crash leaves what the disk holds, and a restart begins from it. *)
Lemma slot_inv_crash B sent id s : slot_inv B sent id s -> slot_inv B sent id (crash s).
Proof.
  unfold crash. destruct (slot_node s) as [n|] eqn:En; [|done]. intros Hs.
  set (s' := mkSlot _ _ _ _). assert (durable_tv s' = durable_tv s) as Hd.
  { unfold durable_tv, slot_storage. cbn. by rewrite En. }
  destruct Hs as [Hl [Hc1 Hc2] Hterm Hf Hsn Hhd Hqd Hone Hask].
  assert (tle (durable_tv s) (memory_tv s)) as Hc by by transitivity (pending_tv s).
  split; change (pending_tv s') with (durable_tv s'); change (memory_tv s') with (durable_tv s'); rewrite ?Hd;
    change (held s') with (@nil Message); change (queued s') with (@nil Message); rewrite ?app_nil_r; try done.
  - pose proof (tle_term _ _ Hc). lia.
  - by intros t c []%cast_nil.
  - by intros t c []%cast_nil.
  - intros t c c' H H'. eapply Hone; apply cast_app; by left.
  - intros t c H. apply Hask, cast_app. by left.
Qed.

Lemma Raft_new_spec {St} `{LogStorage St} config (st : St) r : Raft_new config st = Ok r -> exists initial,
  initial_state st = Ok initial /\ ident r = (cfg_id config, st) /\ (r_term r, r_vote r) = tv (is_hard_state initial) /\
  r_role r = Follower /\ r_votes r = [] /\ Forall (plain r) (r_messages r).
Proof.
  unfold Raft_new. destruct (Config_validate config); [|done]. destruct (initial_state st) as [initial|]; [|done]. cbn [rbind].
  assert (forall applied l, RaftLog_new st applied = Ok l -> rl_store l = st) as Hl.
  { intros applied l. unfold RaftLog_new. destruct (store_last_index st); [|done]. cbn. destruct (initial_state st); [|done]. cbn.
    destruct (store_first_index st); [|done]. cbn. intros [= <-]. done. }
  destruct (RaftLog_new st (cfg_applied config)) as [l|] eqn:El; [|done]. apply Hl in El. cbn [rbind].
  match goal with |- context [rbind ?m _ = _] => destruct m as [[conf index]|]; [|done] end. cbn [rbind].
  set (r0 := mkRaft _ _ _ _ _ _ _ _ _ _ _ _ _ _ _ _ _ _ _ _ _ _ _ _ _).
  pose proof (replay_conf_changes_calms r0) as H1. destruct (replay_conf_changes r0) as [[[]|] r1]; [|done]. cbn [snd] in H1.
  pose proof (rebuild_progress_calms r1) as H2. destruct (rebuild_progress r1) as [[[]|] r2]; [|done]. cbn [snd] in H2.
  pose proof (reset_election_timeout_calm r2) as H3. intros E. assert (reset_election_timeout r2 = r) as E' by (by injection E). rewrite E' in H3.
  assert (calm r0 r) as (A & T & C & D & n & Hn & Hp) by (etransitivity; [exact H1|]; etransitivity; [exact H2|exact H3]).
  exists initial. split; [done|]. split; [rewrite A; cbn; congruence|]. split; [by rewrite T, C|].
  split; [|split]; [by destruct D as [[D _]|[D _]]|by destruct D as [[_ D]|[_ D]]|].
  cbn in Hn. rewrite Hn. eapply Forall_impl; [exact Hp|]. intros m (P1 & P2 & P3). injection A as A _.
  split; [by rewrite P1, A|]. split; [by rewrite P2, T|done].
Qed.

Lemma slot_inv_restart B sent id config s s' : slot_inv B sent id s -> cfg_id config = id -> restart config s = Some s' ->
  slot_inv B sent id s'.
Proof.
  intros Hs Hid. unfold restart. destruct (slot_durable s) as [d|] eqn:Ed; [|by intros [= <-]].
  assert (slot_node s = None) as En.
  { pose proof (si_live _ _ _ _ Hs) as Hl. unfold live_ok in Hl. destruct (slot_node s); [|done]. destruct Hl; congruence. }
  unfold RawNode_new. destruct (Raft_new config (from_durable d)) as [r|] eqn:Er; [|done]. cbn [rbind].
  apply Raft_new_spec in Er as (initial & Ei & [= Hrid Hst] & Htv & Hrole & Hvotes & Hplain).
  cbn in Ei. injection Ei as <-. cbn in Htv. intros E. assert (slot_pending s = None) as Ep.
  { pose proof (si_live _ _ _ _ Hs) as Hl. unfold live_ok in Hl. rewrite En in Hl. apply Hl. }
  rewrite Ep in E. injection E as <-. set (s' := mkSlot _ _ _ _).
  assert (durable_tv s' = durable_tv s) as Hd.
  { unfold durable_tv, slot_storage, storage. cbn. by rewrite Hst, En, Ed. }
  assert (durable_tv s = tv (mem_hard_state d)) as Hd' by (unfold durable_tv, slot_storage; by rewrite En, Ed).
  assert (memory_tv s' = durable_tv s) as Hm by (rewrite Hd'; exact Htv).
  assert (held s' = held s) as Hh by (unfold held; by rewrite Ep).
  assert (forall t c, ~ cast (queued s') id t c) as Hq.
  { intros t c (m & Hin & Hb). rewrite Forall_forall in Hplain. destruct (Hplain m Hin) as (_ & _ & Hn). congruence. }
  assert (forall l t c, cast (l ++ queued s') id t c -> cast (l ++ queued s) id t c) as Hcast.
  { intros l t c. rewrite !cast_app. intros [|[]%Hq]; auto. }
  destruct Hs as [Hl [Hc1 Hc2] Hterm Hf Hsn Hhd Hqd Hone Hask].
  assert (memory_tv s = durable_tv s) as Hms by (unfold memory_tv; by rewrite En).
  split; change (pending_tv s') with (durable_tv s'); rewrite ?Hd, ?Hm, ?Hh; try done.
  - split; [done|]. split; [by rewrite <- Hid|]. split; [by apply node_inv_follower|].
    change (tv (hard_state r) = durable_tv s'). by rewrite Hd, Hd', <- Htv.
  - by rewrite <- Hms.
  - unfold held. rewrite Ep. eapply Forall_impl; [exact Hplain|]. intros m (P1 & P2 & _). rewrite P1, P2. split; [congruence|].
    change (fst (memory_tv s') <= B)%N. by rewrite Hm, <- Hms.
  - unfold held. rewrite Ep. by intros t c []%cast_nil.
  - by intros t c []%Hq.
  - intros t c c'. rewrite !app_assoc. intros H%Hcast H'%Hcast. rewrite <- app_assoc in H, H'. by eapply Hone.
  - intros t c. rewrite !app_assoc. intros H%Hcast. rewrite <- app_assoc in H. by apply Hask.
Qed.

Lemma slot_inv_housekeep B sent id conf through n d p mc : slot_inv B sent id (mkSlot (Some n) d p mc) ->
  slot_inv B sent id (mkSlot (Some (housekeep conf through n)) d p mc).
Proof.
  intros Hs. set (s' := mkSlot _ _ _ _).
  assert (durable_tv s' = durable_tv (mkSlot (Some n) d p mc)) as Hd.
  { unfold durable_tv, slot_storage. cbn. destruct through as [index|]; [|done].
    assert (forall m i, mem_hard_state (snd (compact m i)) = mem_hard_state m) as Hc.
    { intros m i. unfold compact. by repeat case_match. }
    unfold ps_compact. specialize (Hc (ps_durable (ps_set_conf_state (storage n) conf)) index).
    destruct (compact _ _) as [[]]; cbn in *; by rewrite Hc. }
  apply (slot_inv_view _ _ _ _ _ Hs); try done.
  - destruct (si_live _ _ _ _ Hs) as (A & C & D & E). split; [done|]. split; [done|]. split; [done|].
    change (tv (rn_prev_hard_state n) = durable_tv s'). by rewrite Hd.
  - unfold pending_tv. by rewrite Hd.
Qed.

(** ** Every event *)

Lemma on_raft_spec {A} (f : handler PersistedStorage A) n :
  rn_raft (snd (on_raft f n)) = snd (f (rn_raft n)) /\ rn_prev_hard_state (snd (on_raft f n)) = rn_prev_hard_state n.
Proof. unfold on_raft. by destruct (f (rn_raft n)). Qed.

(** The calls a driver makes on a node. *)
Definition calls (sent : list Message) (id : NodeId) (f : RawNode PersistedStorage -> RawNode PersistedStorage) : Prop :=
  forall B n, node_inv V (granted_in sent) (rn_raft n) -> votes_in V (rn_raft n) -> r_id (rn_raft n) = id ->
    (r_term (rn_raft n) <= B)%N -> (B < u64_max)%N -> (forall m, m ∈ sent -> (message_term m <= B)%N) ->
    rn_prev_hard_state (f n) = rn_prev_hard_state n /\
    good V (granted_in sent) (asked_in sent) B (rn_raft n) (rn_raft (f n)).

Lemma calls_calm {A} sent id (h : handler PersistedStorage A) : calms h -> calls sent id (fun n => snd (on_raft h n)).
Proof. intros Hc B n ? ? ? ? ? ?. destruct (on_raft_spec h n) as [-> ->]. split; [done|]. by apply calm_good. Qed.

Lemma slot_inv_calls B sent id f s : slot_inv B sent id s -> calls sent id f -> (B < u64_max)%N ->
  (forall m, m ∈ sent -> (message_term m <= B)%N) -> (forall n, slot_node s = Some n -> votes_in V (rn_raft n)) ->
  slot_inv (B + 1) sent id (call f s).
Proof.
  intros Hs Hf HB Hm Hv. unfold call. destruct s as [[n|] d p mc]; cbn [slot_node]; [|apply (slot_inv_grow B); [lia|done]].
  destruct (si_live _ _ _ _ Hs) as (A & C & D & E).
  destruct (Hf B n) as [Hp Hg]; [done|by apply Hv|done|exact (si_term _ _ _ _ Hs)|done..|].
  by eapply slot_inv_call.
Qed.

Lemma calls_tick sent id : calls sent id rn_tick.
Proof. intros B n ? ? ? ? ? ?. split; [done|]. by apply tick_good. Qed.
Lemma calls_step sent id m : m ∈ sent -> recipient m = id -> calls sent id (fun n => snd (rn_step m n)).
Proof.
  intros Hm Hto B n ? ? Hid ? ? Hb. unfold rn_step. destruct (on_raft_spec (step m) n) as [-> ->]. split; [done|].
  apply step_good; [done..|by apply Hb|congruence|by apply heard_sent].
Qed.
Lemma calls_campaign sent id : calls sent id (fun n => snd (rn_campaign n)).
Proof.
  intros B n ? ? ? ? ? ?. unfold rn_campaign.
  match goal with |- context [on_raft ?f n] => destruct (on_raft_spec f n) as [-> ->] end.
  split; [done|]. apply campaign_good; [done..|lia].
Qed.
Lemma calls_id sent id : calls sent id (fun n => n).
Proof. intros B n ? ? ? ? ? ?. split; [done|]. by apply calm_good. Qed.
Lemma calls_propose sent id data : calls sent id (fun n => snd (rn_propose data n)).
Proof.
  intros B n. unfold rn_propose. destruct (negb _); [apply calls_id|]. destruct (r_lead_transferee _); [apply calls_id|].
  apply calls_calm. apply calms_bind; [apply propose_entry_calms|auto with calm].
Qed.
Lemma calls_propose_conf_change sent id change : calls sent id (fun n => snd (rn_propose_conf_change change n)).
Proof.
  intros B n. unfold rn_propose_conf_change. destruct (negb _); [apply calls_id|].
  apply calls_calm. apply calms_bind; [apply propose_conf_change_calms|auto with calm].
Qed.
Lemma calls_report_snapshot sent id to status : calls sent id (rn_report_snapshot to status).
Proof. intros B n ? ? ? ? ? ?. split; [done|]. apply calm_good; [done..|]. apply report_snapshot_calm. Qed.

Lemma act_ok B sent id ev s s' out : slot_inv B sent id s -> (B < u64_max)%N ->
  (forall m, m ∈ sent -> (message_term m <= B)%N) -> (forall n, slot_node s = Some n -> votes_in V (rn_raft n)) ->
  act sent id ev s = Some (s', out) ->
  slot_inv (B + 1) (sent ++ out) id s' /\ Forall (fun m => sender m = id /\ (message_term m <= B)%N) out.
Proof.
  intros Hs HB Hb Hv.
  assert (forall f, calls sent id f -> Some (call f s, []) = Some (s', out) ->
    slot_inv (B + 1) (sent ++ out) id s' /\ Forall (fun m => sender m = id /\ (message_term m <= B)%N) out) as Hcall.
  { intros f Hf [= <- <-]. rewrite app_nil_r. split; [by eapply slot_inv_calls|done]. }
  assert (forall s1, slot_inv B sent id s1 -> Some (s1, []) = Some (s', out) ->
    slot_inv (B + 1) (sent ++ out) id s' /\ Forall (fun m => sender m = id /\ (message_term m <= B)%N) out) as Hsame.
  { intros s1 Hs1 [= <- <-]. rewrite app_nil_r. split; [apply (slot_inv_grow B); [lia|done]|done]. }
  destruct ev; cbn [act].
  - apply Hcall, calls_tick.
  - destruct (sent !! token) as [m|] eqn:Em; [|done]. destruct (N.eqb_spec (recipient m) id); [|done].
    apply Hcall, calls_step; [by eapply list_elem_of_lookup_2|done].
  - apply Hcall, calls_propose.
  - apply Hcall, calls_propose_conf_change.
  - apply Hcall, calls_calm, read_index_calms.
  - apply Hcall, calls_campaign.
  - apply Hcall, calls_calm, transfer_leader_calms.
  - apply Hcall, calls_report_snapshot.
  - unfold pump_once, complete_write, take_ready. destruct s as [[n|] d [rd|] mc]; cbn [slot_node slot_pending slot_durable].
    + destruct (persist rd (storage n)) as [[[]|] st] eqn:Ep; [|done]. intros [= <- <-]. split.
      * apply (slot_inv_grow B); [lia|]. by eapply slot_inv_complete.
      * pose proof (si_from _ _ _ _ Hs) as Hf. by apply Forall_app in Hf as [Hf _].
    + destruct (negb (has_ready n)); [by apply Hsame|]. pose proof (slot_inv_ready _ _ _ _ _ _ Hs). destruct (ready n). by apply Hsame.
    + by apply Hsame.
    + by apply Hsame.
  - unfold call. destruct s as [[n|] d p mc]; cbn [slot_node]; apply Hsame; [by apply slot_inv_housekeep|done].
  - apply Hsame. by apply slot_inv_crash.
  - destruct (N.eqb_spec (cfg_id config) id); [|done]. cbn [andb]. destruct (_ =? _)%N; [|done]. destruct (restart config s) as [s1|] eqn:Er; [|done]. cbn.
    apply Hsame. by eapply slot_inv_restart.
Qed.
End Slot.

(** ** The cluster *)

Section Cluster.
Context (V : list NodeId).

(** Every live node counts votes over the voters [V]. *)
Definition fixed_voters (c : Cluster) : Prop :=
  forall id s n, cl_nodes c !! id = Some s -> slot_node s = Some n -> votes_in V (rn_raft n).

(** A cluster before its first event: fresh nodes, and spares not yet started. *)
Definition initial (c : Cluster) : Prop :=
  cl_sent c = [] /\ cl_led c = [] /\
  forall id s, cl_nodes c !! id = Some s -> exists conf,
    s = mkSlot None (Some (with_conf_state conf)) None fresh_machine \/
    exists config n, cfg_id config = id /\ RawNode_new config (PersistedStorage_new conf) = Ok n /\ s = mkSlot (Some n) None None fresh_machine.

(** What [k] events can reach while the voters stay [V]; learners may come and go. *)
Inductive reach : nat -> Cluster -> Prop :=
| reach_initial c : initial c -> fixed_voters c -> reach 0 c
| reach_event k c id ev c' : reach k c -> cluster_step id ev c = Some c' -> fixed_voters c' -> reach (S k) c'.

Record cluster_inv (B : N) (c : Cluster) : Prop := {
  ci_slots : forall id s, cl_nodes c !! id = Some s -> slot_inv V B (cl_sent c) id s;
  ci_sent : forall m, m ∈ cl_sent c -> (message_term m <= B)%N /\ is_Some (cl_nodes c !! sender m);
  ci_led : forall id t, (id, t) ∈ cl_led c -> elected V (granted_in (cl_sent c)) id t }.

Lemma elected_mono sent out id t : elected V (granted_in sent) id t -> elected V (granted_in (sent ++ out)) id t.
Proof.
  intros (Hid & q & Q1 & Q2 & Q3 & Q4). split; [done|]. exists q. repeat (split; [done|]). intros v Hv.
  unfold granted_in. rewrite elem_of_app. destruct (Q4 v Hv); auto.
Qed.

Lemma slot_inv_spare id conf : slot_inv V 0 [] id (mkSlot None (Some (with_conf_state conf)) None fresh_machine).
Proof.
  assert (forall t c, ~ cast [] id t c) as Hn by (intros; apply cast_nil).
  split; cbn; try done; try (by intros ? ? []%Hn); by intros ? ? ? []%Hn.
Qed.

Lemma cluster_initial_inv c : initial c -> cluster_inv 0 c.
Proof.
  intros (Hsent & Hled & Hn). split.
  - intros id s Hs. rewrite Hsent. destruct (Hn id s Hs) as [conf [->|(config & n & Hid & Hnew & ->)]]; [apply slot_inv_spare|].
    apply (slot_inv_restart V 0 [] id config _ _ (slot_inv_spare id conf) Hid). unfold restart. cbn [slot_durable].
    unfold PersistedStorage_new in Hnew. unfold from_durable. by rewrite Hnew.
  - rewrite Hsent. by intros m Hm%elem_of_nil.
  - rewrite Hled. by intros id t Hm%elem_of_nil.
Qed.

Lemma cluster_step_inv B id ev c c' : cluster_inv B c -> (B < u64_max)%N -> fixed_voters c ->
  cluster_step id ev c = Some c' -> cluster_inv (B + 1) c'.
Proof.
  intros Hc HB Hv. unfold cluster_step. destruct (cl_nodes c !! id) as [s|] eqn:Es; [|done].
  destruct (act (cl_sent c) id ev s) as [[s' out]|] eqn:Ea; [|done]. intros [= <-].
  assert (slot_inv V (B + 1) (cl_sent c ++ out) id s' /\ Forall (fun m => sender m = id /\ (message_term m <= B)%N) out) as [Hs' Hout].
  { eapply act_ok; [exact (ci_slots _ _ Hc id s Es)|done|intros m Hm; by apply (ci_sent _ _ Hc)|intros n; by apply (Hv id s n)|exact Ea]. }
  split; cbn.
  - intros id' s1. destruct (decide (id' = id)) as [->|Hne]; [rewrite lookup_insert_eq; by intros [= <-]|].
    rewrite lookup_insert_ne by done. intros Hs1. apply (slot_inv_others V B); [lia| |by apply (ci_slots _ _ Hc)].
    eapply Forall_impl; [exact Hout|]. cbn. intros m [-> _]. done.
  - intros m [Hm|Hm]%elem_of_app.
    + destruct (ci_sent _ _ Hc m Hm) as [Ht Hsome]. split; [lia|]. rewrite lookup_insert_is_Some'. auto.
    + rewrite Forall_forall in Hout. destruct (Hout m Hm) as [-> Ht]. split; [lia|]. rewrite lookup_insert_eq. by eexists.
  - assert (forall i t, (i, t) ∈ cl_led c -> elected V (granted_in (cl_sent c ++ out)) i t) as Hold.
    { intros i t Hin. apply elected_mono. by apply (ci_led _ _ Hc). }
    destruct (leads s') as [t'|] eqn:El; [|done]. intros i t [[= -> ->]|Hin]%elem_of_cons; [|by apply Hold].
    unfold leads in El. pose proof (si_live _ _ _ _ _ Hs') as Hl. unfold live_ok in Hl. destruct (slot_node s') as [n|]; [|done].
    case_bool_decide as Hr; [|done]. injection El as <-. destruct Hl as (_ & <- & (_ & _ & Hlead) & _). by apply Hlead.
Qed.

Lemma reach_inv k c : reach k c -> (N.of_nat k <= u64_max)%N -> cluster_inv (N.of_nat k) c /\ fixed_voters c.
Proof.
  induction 1 as [c Hi Hf|k c id ev c' Hr IH Hstep Hf]; intros Hk; [split; [by apply cluster_initial_inv|done]|].
  destruct IH as [Hc Hv]; [lia|]. split; [|done]. replace (N.of_nat (S k)) with (N.of_nat k + 1)%N by lia.
  eapply cluster_step_inv; [done|lia|done..].
Qed.

(** A node's votes in the messages sent so far: one candidate a term, and
    another node only if it asked. *)
Lemma sent_once B c f t a b : cluster_inv B c -> cast (cl_sent c) f t a -> cast (cl_sent c) f t b -> a = b.
Proof.
  intros Hc Ha Hb. assert (is_Some (cl_nodes c !! f)) as [s Hs].
  { destruct Ha as (m & Hm & E). rewrite <- (ballot_sender _ _ _ _ E). by apply (ci_sent _ _ Hc). }
  eapply (si_once _ _ _ _ _ (ci_slots _ _ Hc f s Hs)); apply cast_app; by left.
Qed.
Lemma sent_asked B c f t a : cluster_inv B c -> cast (cl_sent c) f t a -> a = f \/ asked_in (cl_sent c) a t.
Proof.
  intros Hc Ha. assert (is_Some (cl_nodes c !! f)) as [s Hs].
  { destruct Ha as (m & Hm & E). rewrite <- (ballot_sender _ _ _ _ E). by apply (ci_sent _ _ Hc). }
  apply (si_asked _ _ _ _ _ (ci_slots _ _ Hc f s Hs)), cast_app. by left.
Qed.

(** A leader voted for itself: alone in the cluster, or by asking. *)
Lemma leader_self_vote B c a t b : cluster_inv B c -> elected V (granted_in (cl_sent c)) a t -> b ∈ V ->
  cast (cl_sent c) a t b -> a = b.
Proof.
  intros Hc (Ha & q & Q1 & Q2 & Q3 & Q4) Hb Hcast.
  destruct (decide (Exists (fun v => v <> a) q)) as [He|He].
  - apply Exists_exists in He as (v & Hv & Hne). destruct (Q4 v Hv) as [|Hg]; [done|].
    destruct (sent_asked B c v t a Hc (granted_cast _ _ _ _ Hg)) as [|Hask]; [congruence|].
    by apply (sent_once B c a t a b Hc).
  - apply not_Exists_Forall in He; [|solve_decision].
    assert (length q <= 1)%nat as Hq.
    { destruct q as [|x [|y q]]; cbn; try lia. rewrite !Forall_cons in He. destruct He as (Hx & Hy & _).
      apply dec_stable in Hx, Hy. subst. by apply NoDup_cons in Q1 as [[] _]; left. }
    assert (length V <= 1)%nat as HV.
    { pose proof (Nat.div_mod_eq (length V) 2). pose proof (Nat.mod_upper_bound (length V) 2). lia. }
    destruct V as [|x [|y V']]; cbn in HV; [by apply elem_of_nil in Ha| |lia].
    apply list_elem_of_singleton in Ha, Hb. congruence.
Qed.

Lemma elected_unique B c a b t : cluster_inv B c -> elected V (granted_in (cl_sent c)) a t -> elected V (granted_in (cl_sent c)) b t -> a = b.
Proof.
  intros Hc Ha Hb. pose proof Ha as (HaV & q & Q1 & Q2 & Q3 & Q4). pose proof Hb as (HbV & q' & Q1' & Q2' & Q3' & Q4').
  destruct (pigeonhole_meet q q' V) as (v & Hv & Hv'); [done..| |].
  { pose proof (Nat.div_mod_eq (length V) 2). pose proof (Nat.mod_upper_bound (length V) 2). lia. }
  destruct (Q4 v Hv) as [Ea|Ga], (Q4' v Hv') as [Eb|Gb]; [congruence|..].
  - rewrite Ea in Gb. apply (leader_self_vote B c a t b Hc Ha HbV). by apply granted_cast.
  - rewrite Eb in Ga. symmetry. apply (leader_self_vote B c b t a Hc Hb HaV). by apply granted_cast.
  - apply (sent_once B c v t a b Hc); by apply granted_cast.
Qed.

(** C2: In a cluster whose nodes are driven by their disks as the
    simulator and the store drive them, with messages delayed, reordered,
    duplicated and lost and nodes crashing and restarting from what was made
    durable, no term is ever led by two nodes, as long as the voters of the
    configurations in force stay the same and terms have not run out. *)
Theorem election_safety k c a b t : reach k c -> (N.of_nat k <= u64_max)%N ->
  (a, t) ∈ cl_led c -> (b, t) ∈ cl_led c -> a = b.
Proof.
  intros Hr Hk Ha Hb. destruct (reach_inv k c Hr Hk) as [Hc _].
  eapply (elected_unique _ c a b t Hc); by apply (ci_led _ _ Hc).
Qed.
End Cluster.
