(* ===== verification/RaftRuns.v ===== *)
(** Concrete runs of the Raft core: an election with a crash in it, and what a
    few corners of the source do. *)

From Stdlib Require Import Strings.Byte.
From stdpp Require Import prelude gmap sorting.
From Stdlib Require Import NArith ZArith Lia.
From S2P Require Import Prelude SortedVec Rng RaftTypes RaftStorage RaftLog RaftProgress RaftConf RaftState RaftReplication RaftNode RawNode RaftFrame RaftElection RaftDriver RaftCluster.

(** ** A cluster of three *)

Definition three : ConfState := mkConfState [1; 2; 3]%N [].
Definition fresh_slot (id : NodeId) : NodeSlot :=
  match RawNode_new (Config_new id [1; 2; 3]%N 7) (PersistedStorage_new three) with
  | Ok n => mkSlot (Some n) None None fresh_machine
  | Err _ => mkSlot None (Some (with_conf_state three)) None fresh_machine
  end.
Definition three_nodes : Cluster :=
  mkCluster (<[1%N := fresh_slot 1]> (<[2%N := fresh_slot 2]> (<[3%N := fresh_slot 3]> ∅))) [] [].

Definition three_configs : NodeId -> Config := fun id => Config_new id [1; 2; 3]%N 7.

(** Node 1 wins term 1 on node 2's vote, which node 2 gives before it crashes
    and comes back; node 3's vote is still on its disk. *)
Definition an_election : list (NodeId * Event) :=
  [(1%N, EvCampaign); (1%N, EvPump); (1%N, EvPump);
   (2%N, EvDeliver 0); (2%N, EvPump); (2%N, EvPump);
   (1%N, EvDeliver 2); (1%N, EvPump); (1%N, EvPump);
   (2%N, EvDeliver 3); (3%N, EvDeliver 4); (2%N, EvPump); (2%N, EvPump);
   (2%N, EvCrash); (2%N, EvRestart (three_configs 2));
   (1%N, EvDeliver 5); (1%N, EvPump); (1%N, EvPump)].

(** Node 2 takes node 1's entry, restarts, and is asked for a pre-vote by node
    3, whose log is behind; then node 3 hears from its leader again. *)
Definition a_lost_pre_vote : list (NodeId * Event) :=
  [(2%N, EvDeliver 6); (2%N, EvPump); (2%N, EvPump);
   (2%N, EvCrash); (2%N, EvRestart (three_configs 2));
   (3%N, EvPump); (3%N, EvPump);
   (3%N, EvCampaign); (3%N, EvPump); (3%N, EvPump);
   (2%N, EvDeliver 11); (2%N, EvPump); (2%N, EvPump);
   (3%N, EvDeliver 12);
   (3%N, EvDeliver 7); (3%N, EvPump); (3%N, EvPump);
   (1%N, EvDeliver 13)].

(** ** Runs and reachability *)

Definition slot_votes_in (V : list NodeId) (s : NodeSlot) : bool :=
  match slot_node s with
  | Some n => bool_decide (cs_voters (current (r_conf (rn_raft n))) = V)
  | None => true
  end.
Definition fixed_votersb (V : list NodeId) (c : Cluster) : bool :=
  forallb (fun e => slot_votes_in V e.2) (map_to_list (cl_nodes c)).

Lemma fixed_votersb_spec V c : fixed_votersb V c = true -> fixed_voters V c.
Proof.
  unfold fixed_votersb. rewrite forallb_forall. intros Hf id s n Hs Hn. specialize (Hf (id, s)).
  unfold slot_votes_in in Hf. cbn in Hf. rewrite Hn in Hf. apply bool_decide_eq_true in Hf; [done|].
  by apply list_elem_of_In, elem_of_map_to_list.
Qed.

(** A run that checks the voters after every event. *)
Fixpoint fixed_run (V : list NodeId) (evs : list (NodeId * Event)) (c : Cluster) : option Cluster :=
  match evs with
  | [] => Some c
  | (id, ev) :: evs =>
      match cluster_step id ev c with
      | Some c' => if fixed_votersb V c' then fixed_run V evs c' else None
      | None => None
      end
  end.

Lemma fixed_run_reach V evs k c c' : reach V k c -> fixed_run V evs c = Some c' -> reach V (length evs + k) c'.
Proof.
  revert k c; induction evs as [|[id ev] evs IH]; intros k c Hr; cbn; [by intros [= <-]|].
  destruct (cluster_step id ev c) as [c1|] eqn:E; [|done]. destruct (fixed_votersb V c1) eqn:Hf; [|done].
  intros Hrun. rewrite <- Nat.add_succ_r. eapply IH; [|exact Hrun]. eapply reach_event; [done|exact E|by apply fixed_votersb_spec].
Qed.

Lemma three_nodes_initial : initial three_nodes.
Proof.
  split; [done|]. split; [done|]. intros id s Hs. exists three. right. exists (three_configs id).
  assert (forall i, i ∈ [1; 2; 3]%N -> exists n, RawNode_new (three_configs i) (PersistedStorage_new three) = Ok n /\
    fresh_slot i = mkSlot (Some n) None None fresh_machine) as Hnew.
  { intros i. rewrite !elem_of_cons, elem_of_nil. intros [->|[->|[->|[]]]]; (eexists; split; [vm_compute; reflexivity|vm_compute; reflexivity]). }
  assert (id ∈ [1; 2; 3]%N /\ s = fresh_slot id) as [Hin ->].
  { revert Hs. cbn [three_nodes cl_nodes]. rewrite !lookup_insert_Some, lookup_empty, !elem_of_cons. naive_solver. }
  destruct (Hnew id Hin) as (n & En & ->). exists n. split; [|done]. by rewrite !elem_of_cons, elem_of_nil in Hin; destruct Hin as [->|[->|[->|[]]]].
Qed.

Lemma three_nodes_reach evs c : fixed_run [1; 2; 3]%N evs three_nodes = Some c -> reach [1; 2; 3]%N (length evs) c.
Proof.
  intros Hrun. rewrite <- (Nat.add_0_r (length evs)). eapply fixed_run_reach; [|exact Hrun].
  apply reach_initial; [apply three_nodes_initial|]. apply fixed_votersb_spec. by vm_compute.
Qed.

Lemma election_safety_witness : exists c, fixed_run [1; 2; 3]%N an_election three_nodes = Some c /\
  (1%N, 1%N) ∈ cl_led c /\ forall a, (a, 1%N) ∈ cl_led c -> a = 1%N.
Proof.
  destruct (fixed_run [1; 2; 3]%N an_election three_nodes) as [c|] eqn:E; [|vm_compute in E; discriminate].
  assert ((1%N, 1%N) ∈ cl_led c) as Hled.
  { enough (bool_decide ((1%N, 1%N) ∈ from_option cl_led [] (fixed_run [1; 2; 3]%N an_election three_nodes)) = true) as Hb.
    - apply bool_decide_eq_true in Hb. by rewrite E in Hb.
    - by vm_compute. }
  exists c. split; [done|]. split; [exact Hled|]. intros a Ha.
  exact (election_safety [1; 2; 3]%N _ c a 1 1 (three_nodes_reach an_election c E) ltac:(vm_compute; discriminate) Ha Hled).
Defined.

(** ** What a lost pre-vote does *)

Definition office (c : option Cluster) (id : NodeId) : option (Role * Term) :=
  c ← c; s ← cl_nodes c !! id; n ← slot_node s; Some (r_role (rn_raft n), r_term (rn_raft n)).
Definition asked_term (t : Term) (m : Message) : bool :=
  match ballot m with Some (_, t', _) => (t =? t')%N | None => false end.

(** A refused pre-vote is answered in the term it asked about. *)
Lemma pre_vote_refused {St} `{LogStorage St} (r : Raft St) from to term lli llt force :
  let ask := RequestVote from to term lli llt true force in
  (r_term r < term)%N -> vetoed_by_leader_lease r ask = false -> is_voter r from && is_up_to_date (r_log r) lli llt = false ->
  exists r', step ask r = (Ok tt, r') /\ r_messages r' = r_messages r ++ [RequestVoteResponse (r_id r) from term false true] /\
    r_term r' = r_term r /\ r_vote r' = r_vote r.
Proof.
  intros ask Ht Hveto Hno. unfold step. cbn [message_term ask]. rewrite (proj2 (N.ltb_lt _ _) Ht). fold ask. rewrite Hveto.
  cbn [step_higher_term step_current_term ask]. eexists. split; [reflexivity|].
  assert (forall b, b && is_voter r from && is_up_to_date (r_log r) lli llt = false) as Hg by (intros b; by rewrite <- andb_assoc, Hno, andb_false_r).
  unfold handle_vote_request. by rewrite Hg.
Qed.

(** Any message of a higher term but a pre-vote makes its reader a follower there. *)
Lemma refusal_adopted {St} `{LogStorage St} (r : Raft St) from to term : (r_term r < term)%N ->
  exists r', step (RequestVoteResponse from to term false true) r = (Ok tt, r') /\ r_role r' = Follower /\ r_term r' = term /\ r_log r' = r_log r /\ r_id r' = r_id r.
Proof.
  intros Ht. unfold step. cbn [message_term]. rewrite (proj2 (N.ltb_lt _ _) Ht). cbn [vetoed_by_leader_lease step_higher_term step_current_term message_term].
  unfold become_follower. pose proof (reset_spec r term) as Hr. revert Hr. generalize (reset r term). intros r1 ([= A _] & B & _ & _ & _ & _ & L).
  eexists. split; [reflexivity|]. cbn. by rewrite A, B, L.
Qed.
Lemma answer_deposes {St} `{LogStorage St} (r : Raft St) from to term reject index hint context : (r_term r < term)%N ->
  exists r', step (AppendEntriesResponse from to term reject index hint context) r = (Ok tt, r') /\ r_role r' = Follower /\ r_term r' = term.
Proof.
  intros Ht. unfold step. cbn [message_term]. rewrite (proj2 (N.ltb_lt _ _) Ht). cbn [vetoed_by_leader_lease step_higher_term step_current_term message_term].
  unfold become_follower. pose proof (reset_spec r term) as Hr. revert Hr. generalize (reset r term). intros r1 (_ & B & _).
  eexists. split; [reflexivity|]. cbn. by rewrite B.
Qed.

(** C37: a pre-vote that is refused still moves the term and takes the office.  Whenever
    a node at most at term [T] refuses a pre-vote for [T + 1], because the
    prober is no voter or its log is behind, it keeps its own term and answers in
    term [T + 1].  A prober at [T] that hears the answer becomes a follower of
    term [T + 1]; the next append a leader of [T] sends it is answered with that
    term; and the leader that hears this steps down into it.  No node has asked for a vote in
    [T + 1], and whatever the nodes' logs, roles and configurations are, nothing
    on the way stops it. *)
Theorem lost_pre_vote_deposes {St} `{LogStorage St} (voter prober leader : Raft St) T lli llt force last prev_index prev_term entries commit context :
  let ask := RequestVote (r_id prober) (r_id voter) (T + 1) lli llt true force in
  let append := AppendEntries (r_id leader) (r_id prober) T prev_index prev_term entries commit context in
  (r_term voter <= T)%N -> vetoed_by_leader_lease voter ask = false ->
  is_voter voter (r_id prober) && is_up_to_date (r_log voter) lli llt = false ->
  r_term prober = T -> rl_last_index (r_log prober) = Ok last -> r_term leader = T ->
  exists refusal answer voter' prober' prober'' leader',
    step ask voter = (Ok tt, voter') /\ r_messages voter' = r_messages voter ++ [refusal] /\ r_term voter' = r_term voter /\ r_vote voter' = r_vote voter /\
    step refusal prober = (Ok tt, prober') /\ r_role prober' = Follower /\ r_term prober' = (T + 1)%N /\
    step append prober' = (Ok tt, prober'') /\ r_messages prober'' = r_messages prober' ++ [answer] /\
    step answer leader = (Ok tt, leader') /\ r_role leader' = Follower /\ r_term leader' = (T + 1)%N.
Proof.
  intros ask append Hv Hveto Hno Hp Hlast Hl.
  destruct (pre_vote_refused voter (r_id prober) (r_id voter) (T + 1) lli llt force) as (voter' & E1 & M1 & T1 & V1); [lia|done|done|].
  destruct (refusal_adopted prober (r_id voter) (r_id prober) (T + 1)) as (prober' & E2 & R2 & T2 & L2 & _); [lia|].
  destruct (answer_deposes leader (r_id prober') (r_id leader) (T + 1) true last (last_term (r_log prober')) []) as (leader' & E3 & R3 & T3); [lia|].
  do 2 eexists. exists voter', prober'. do 2 eexists. split_and!; [exact E1|exact M1|done|done|exact E2|done|done| | |exact E3|done|done].
  - unfold step, append. cbn [message_term]. rewrite T2, (proj2 (N.ltb_ge _ _)), (proj2 (N.ltb_lt T (T + 1))) by lia.
    cbn [step_lower_term]. rewrite L2, Hlast. reflexivity.
  - cbn. by rewrite T2, L2.
Qed.

(** The three nodes of the run below when node 2 is about to be asked. *)
Definition raft_of (c : option Cluster) (id : NodeId) : option (Raft PersistedStorage) :=
  c ← c; s ← cl_nodes c !! id; n ← slot_node s; Some (rn_raft n).
Definition before_refusal : option Cluster := cluster_run (an_election ++ take 8 a_lost_pre_vote) three_nodes.
Definition refusal_facts (voter prober leader : Raft PersistedStorage) : bool :=
  bool_decide (r_id prober = 3%N) && bool_decide (r_id voter = 2%N) && (r_term voter <=? 1)%N && negb (vetoed_by_leader_lease voter (RequestVote 3 2 2 0 0 true false)) &&
  negb (is_voter voter 3 && is_up_to_date (r_log voter) 0 0) && (r_term prober =? 1)%N && is_ok (rl_last_index (r_log prober)) && (r_term leader =? 1)%N && bool_decide (r_role leader = Leader).
Lemma refusal_here : exists voter prober leader, raft_of before_refusal 2 = Some voter /\ raft_of before_refusal 3 = Some prober /\ raft_of before_refusal 1 = Some leader /\
  refusal_facts voter prober leader = true.
Proof.
  assert (match raft_of before_refusal 2, raft_of before_refusal 3, raft_of before_refusal 1 with
    | Some voter, Some prober, Some leader => refusal_facts voter prober leader = true | _, _, _ => False end) as Hf by by vm_compute.
  destruct (raft_of before_refusal 2) as [voter|]; [|done]. destruct (raft_of before_refusal 3) as [prober|]; [|done].
  destruct (raft_of before_refusal 1) as [leader|]; [|done]. by exists voter, prober, leader.
Qed.
Lemma lost_pre_vote_deposes_witness : exists leader answer leader', raft_of before_refusal 1 = Some leader /\ r_role leader = Leader /\ r_term leader = 1%N /\
  step answer leader = (Ok tt, leader') /\ r_role leader' = Follower /\ r_term leader' = 2%N.
Proof.
  destruct refusal_here as (voter & prober & leader & _ & _ & Hl & Hf). unfold refusal_facts in Hf.
  rewrite !andb_true_iff, !bool_decide_eq_true, !negb_true_iff, N.leb_le, !N.eqb_eq in Hf.
  destruct Hf as ((((((((F1 & F2) & F3) & F4) & F5) & F6) & F7) & F8) & F9).
  destruct (rl_last_index (r_log prober)) as [last|] eqn:Hlast; [|discriminate F7].
  destruct (lost_pre_vote_deposes voter prober leader 1 0 0 false last 0 0 [] 0 []) as (refusal & answer & v1 & p1 & p2 & leader' & Hrest).
  - exact F3.
  - rewrite F1, F2. exact F4.
  - rewrite F1. exact F5.
  - exact F6.
  - exact Hlast.
  - exact F8.
  - exists leader, answer, leader'. destruct Hrest as (_ & _ & _ & _ & _ & _ & _ & _ & _ & E & R & T). split_and!; [exact Hl|exact F9|exact F8|exact E|exact R|exact T].
Defined.

(** The same in a cluster of three: no vote is asked for in term 2, and its leader of term 1 is gone. *)
Example three_lose_their_leader :
  let before := cluster_run an_election three_nodes in
  let after := cluster_run (an_election ++ a_lost_pre_vote) three_nodes in
  (office before 1 = Some (Leader, 1%N) /\ office before 3 = Some (Follower, 1%N)) /\
  (office after 1 = Some (Follower, 2%N) /\ office after 3 = Some (Follower, 2%N)) /\
  option_map (fun c => existsb (asked_term 2) (cl_sent c)) after = Some false.
Proof. vm_compute. done. Qed.

(** At the last term a node can vote twice: a campaign there keeps
    the term, and replaces the vote already given by one for itself. *)
Theorem last_term_votes_twice {St} `{LogStorage St} (r : Raft St) v : r_term r = u64_max -> r_vote r = Some v ->
  r_term (become_candidate r) = u64_max /\ r_vote (become_candidate r) = Some (r_id r).
Proof.
  intros Ht Hv. unfold become_candidate. rewrite Ht. change (sat_add u64_max 1) with u64_max.
  pose proof (reset_spec r u64_max) as Hr. revert Hr. generalize (reset r u64_max). intros r1 ([= A _] & B & _). cbn. by rewrite A, B.
Qed.

Definition pushed_node : Raft PersistedStorage :=
  match RawNode_new (three_configs 1) (PersistedStorage_new three) with
  | Ok n => set_vote (set_term (rn_raft n) u64_max) (Some 2%N)
  | Err _ => mkRaft 1 u64_max (Some 2%N) Follower None (mkRaftLog (PersistedStorage_new three) [] 1 None 0 0) []
      (ConfTracker_new three 0) [] [] [] ReadOnly_new 0 0 0 Counters_default (0, 0)%N 0 0 0 false false (Pcg32_from_seed 0) None 0
  end.
Lemma last_term_votes_twice_witness : r_vote pushed_node = Some 2%N /\ r_vote (become_candidate pushed_node) = Some 1%N.
Proof.
  split; [by vm_compute|]. destruct (last_term_votes_twice pushed_node 2) as [_ E]; [by vm_compute..|]. rewrite E. by vm_compute.
Defined.
