(* ===== verification/KeyCodec.v ===== *)
(** The memcomparable key codec, [esker-keys/src/codec.rs].

    The encodings of [u64], [i64], byte strings, tuples and timestamps, with
    their decoders; the order theorem says that comparing two encodings with
    [memcmp] is comparing the values, whatever follows the encodings, which
    is order preservation and prefix-freeness at once. *)

From Stdlib Require Import Strings.Byte.
From stdpp Require Import prelude.
From Stdlib Require Import NArith ZArith Lia.
From S2P Require Import Prelude Varint Endian.

Definition GROUP_SIZE : nat := 8.
Definition ENCODED_GROUP_SIZE : nat := GROUP_SIZE + 1.
Definition MARKER_FULL : byte := Byte.xff.
Definition FIXED_INT_SIZE : nat := 8.

Inductive CodecError : Type :=
  | CodecTruncated (needed found : nat)
  | BadGroupMarker (marker : byte)
  | DirtyPadding
  | TrailingBytes (count : nat).

Inductive Value : Type :=
  | VU64 (v : N)
  | VI64 (v : Z)
  | VBytes (v : bytes).

Inductive ValueKind : Type := KU64 | KI64 | KBytes.

Definition Value_kind (v : Value) : ValueKind :=
  match v with VU64 _ => KU64 | VI64 _ => KI64 | VBytes _ => KBytes end.

(** [split_fixed]: the first eight bytes and the rest. *)
Definition split_fixed (buf : bytes) : result CodecError (bytes * bytes) :=
  if decide (length buf < FIXED_INT_SIZE)
  then Err (CodecTruncated FIXED_INT_SIZE (length buf))
  else Ok (take FIXED_INT_SIZE buf, drop FIXED_INT_SIZE buf).

Definition encode_u64 (value : N) (out : bytes) : bytes := out ++ be_bytes 8 value.

Definition decode_u64 (buf : bytes) : result CodecError (N * bytes) :=
  let? (head, rest) := split_fixed buf in Ok (be_value head, rest).

(** [(value as u64) ^ (1 << 63)] and its inverse. *)
Definition flip_sign (value : Z) : N := N.lxor (i64_as_u64 value) 9223372036854775808.
Definition unflip_sign (value : N) : Z := u64_as_i64 (N.lxor value 9223372036854775808).

Definition encode_i64 (value : Z) (out : bytes) : bytes := out ++ be_bytes 8 (flip_sign value).

Definition decode_i64 (buf : bytes) : result CodecError (Z * bytes) :=
  let? (head, rest) := split_fixed buf in Ok (unflip_sign (be_value head), rest).

Definition encoded_bytes_len (len : nat) : nat := (len / GROUP_SIZE + 1) * ENCODED_GROUP_SIZE.

(** The last group: the remainder of [chunks_exact], zero padding, marker. *)
Definition final_group (tail : bytes) : bytes :=
  let padding := GROUP_SIZE - length tail in
  tail ++ replicate padding Byte.x00 ++ [n2b (b2n MARKER_FULL - N.of_nat padding)].

(** [chunks_exact(GROUP_SIZE)] is the eight-deep pattern. *)
Fixpoint encode_groups (value : bytes) : bytes :=
  match value with
  | a :: b :: c :: d :: e :: f :: g :: h :: rest =>
      a :: b :: c :: d :: e :: f :: g :: h :: MARKER_FULL :: encode_groups rest
  | tail => final_group tail
  end.

Definition encode_bytes (value out : bytes) : bytes := out ++ encode_groups value.

(** The [loop] of [decode_bytes]; a nine-deep pattern is one encoded group. *)
Fixpoint decode_groups (rest out : bytes) : result CodecError (bytes * bytes) :=
  match rest with
  | a :: b :: c :: d :: e :: f :: g :: h :: marker :: tail =>
      let payload := [a; b; c; d; e; f; g; h] in
      if decide (marker = MARKER_FULL) then decode_groups tail (out ++ payload) else
      let padding := N.to_nat (b2n MARKER_FULL - b2n marker) in
      if decide (GROUP_SIZE < padding) then Err (BadGroupMarker marker) else
      let kept := GROUP_SIZE - padding in
      if existsb (fun byte => negb (bool_decide (byte = Byte.x00))) (drop kept payload)
      then Err DirtyPadding
      else Ok (out ++ take kept payload, tail)
  | short => Err (CodecTruncated ENCODED_GROUP_SIZE (length short))
  end.

Definition decode_bytes (buf : bytes) : result CodecError (bytes * bytes) := decode_groups buf [].

Definition encode_value (value : Value) (out : bytes) : bytes :=
  match value with
  | VU64 v => encode_u64 v out
  | VI64 v => encode_i64 v out
  | VBytes v => encode_bytes v out
  end.

Definition encode_tuple (values : list Value) (out : bytes) : bytes :=
  foldl (fun out value => encode_value value out) out values.

Fixpoint decode_tuple (schema : list ValueKind) (buf : bytes) : result CodecError (list Value * bytes) :=
  match schema with
  | [] => Ok ([], buf)
  | kind :: schema' =>
      let? (value, rest) :=
        match kind with
        | KU64 => let? (v, tail) := decode_u64 buf in Ok (VU64 v, tail)
        | KI64 => let? (v, tail) := decode_i64 buf in Ok (VI64 v, tail)
        | KBytes => let? (v, tail) := decode_bytes buf in Ok (VBytes v, tail)
        end in
      let? (values, rest) := decode_tuple schema' rest in
      Ok (value :: values, rest)
  end.

Definition enc_ts (ts : N) : bytes := be_bytes 8 (not64 ts).

Definition dec_ts (buf : bytes) : result CodecError N :=
  let? (encoded, _) := split_fixed buf in Ok (not64 (be_value encoded)).

(** ** Fixed-width fields *)

Lemma two64_pow256 : two64 = (256 ^ N.of_nat 8)%N.
Proof. done. Qed.

Lemma split_fixed_app head rest : length head = 8%nat -> split_fixed (head ++ rest) = Ok (head, rest).
Proof.
  intros L. unfold split_fixed, FIXED_INT_SIZE. rewrite length_app, decide_False by lia.
  by rewrite take_app_length', drop_app_length'.
Qed.

Lemma split_fixed_ok buf head rest : split_fixed buf = Ok (head, rest) -> buf = head ++ rest /\ length head = 8%nat.
Proof.
  unfold split_fixed, FIXED_INT_SIZE. case_decide; [done|]. intros [= <- <-].
  rewrite take_drop, length_take. split; [done|lia].
Qed.

Lemma decode_encode_u64 v rest : (v < two64)%N -> decode_u64 (encode_u64 v [] ++ rest) = Ok (v, rest).
Proof.
  intros H. unfold decode_u64, encode_u64. rewrite app_nil_l, split_fixed_app by apply be_bytes_length.
  cbn [rbind]. by rewrite be_value_bytes.
Qed.

Lemma dec_enc_ts ts rest : (ts < two64)%N -> dec_ts (enc_ts ts ++ rest) = Ok ts.
Proof.
  intros H. unfold dec_ts, enc_ts. rewrite split_fixed_app by apply be_bytes_length.
  cbn [rbind]. rewrite be_value_bytes by apply not64_lt. by rewrite not64_involutive.
Qed.

Lemma enc_ts_length ts : length (enc_ts ts) = 8%nat.
Proof. apply be_bytes_length. Qed.

(** A newer timestamp sorts first. *)
Lemma enc_ts_cmp a b : (a < two64)%N -> (b < two64)%N -> bytes_cmp (enc_ts a) (enc_ts b) = N.compare b a.
Proof.
  intros Ha Hb. unfold enc_ts. rewrite be_bytes_cmp by apply not64_lt.
  pose proof (not64_anti a b Ha Hb). pose proof (not64_anti b a Hb Ha).
  destruct (N.compare_spec b a) as [->|L|L].
  - apply N.compare_refl.
  - by apply N.compare_lt_iff, H.
  - by apply N.compare_gt_iff, H0.
Qed.

(** The sign flip is an order isomorphism from [i64] to [u64]. *)
Lemma flip_sign_spec z : is_i64 z -> Z.of_N (flip_sign z) = (z + 9223372036854775808)%Z.
Proof.
  intros [Hl Hu]. unfold flip_sign, i64_as_u64.
  assert (forall n, n < 9223372036854775808 -> N.lxor n 9223372036854775808 = n + 9223372036854775808)%N as Elow.
  { intros n Hn. symmetry. apply N.add_nocarry_lxor.
    apply N.bits_inj_0. intros i. rewrite N.land_spec. change 9223372036854775808%N with (2 ^ 63)%N.
    rewrite N.pow2_bits_eqb. destruct (N.eqb_spec 63 i) as [<-|]; [|apply andb_false_r].
    rewrite <- (N.mod_small n (2 ^ 63)) by done. by rewrite N.mod_pow2_bits_high. }
  destruct (Z.lt_ge_cases z 0).
  - replace (z mod 18446744073709551616)%Z with (z + 18446744073709551616)%Z
      by (apply Z.mod_unique with (q := (-1)%Z); lia).
    replace (Z.to_N (z + 18446744073709551616)) with
      (N.lxor (Z.to_N (z + 9223372036854775808)) 9223372036854775808) by (rewrite Elow; lia).
    rewrite N.lxor_assoc, N.lxor_nilpotent, N.lxor_0_r. lia.
  - rewrite Z.mod_small, Elow by lia. lia.
Qed.

Lemma unflip_flip z : is_i64 z -> unflip_sign (flip_sign z) = z.
Proof.
  intros H. unfold unflip_sign, flip_sign. rewrite N.lxor_assoc, N.lxor_nilpotent, N.lxor_0_r.
  destruct H as [Hl Hu]. unfold u64_as_i64, i64_as_u64.
  destruct (Z.lt_ge_cases z 0).
  - replace (z mod 18446744073709551616)%Z with (z + 18446744073709551616)%Z
      by (apply Z.mod_unique with (q := (-1)%Z); lia).
    rewrite (proj2 (N.ltb_ge _ _)); lia.
  - rewrite Z.mod_small by lia. rewrite (proj2 (N.ltb_lt _ _)); lia.
Qed.

Lemma flip_sign_lt z : is_i64 z -> (flip_sign z < two64)%N.
Proof. intros H. pose proof (flip_sign_spec z H). unfold is_i64, two64 in *. lia. Qed.

Lemma flip_sign_cmp a b : is_i64 a -> is_i64 b -> N.compare (flip_sign a) (flip_sign b) = Z.compare a b.
Proof.
  intros Ha Hb. rewrite <- N2Z.inj_compare, !flip_sign_spec by done.
  destruct (Z.compare_spec a b) as [->|L|L];
    [apply Z.compare_refl | apply Z.compare_lt_iff; lia | apply Z.compare_gt_iff; lia].
Qed.

Lemma decode_encode_i64 z rest : is_i64 z -> decode_i64 (encode_i64 z [] ++ rest) = Ok (z, rest).
Proof.
  intros H. unfold decode_i64, encode_i64. rewrite app_nil_l, split_fixed_app by apply be_bytes_length.
  cbn [rbind]. rewrite be_value_bytes by by apply flip_sign_lt. by rewrite unflip_flip.
Qed.

(** ** Byte strings *)

Lemma encode_groups_eq v :
  encode_groups v =
    final_group (take 8 v) ++ (if decide (8 <= length v) then encode_groups (drop 8 v) else []).
Proof.
  do 8 (destruct v as [|? v]; [by rewrite decide_False, app_nil_r by (simpl; lia)|]).
  rewrite decide_True by (simpl; lia). done.
Qed.

Lemma final_group_marker (t : bytes) : length t <= 8 ->
  b2n (n2b (b2n MARKER_FULL - N.of_nat (GROUP_SIZE - length t))) = (247 + N.of_nat (length t))%N.
Proof. intros. rewrite b2n_n2b_small; unfold GROUP_SIZE, MARKER_FULL; change (b2n Byte.xff) with 255%N; lia. Qed.

Lemma encode_groups_length v : length (encode_groups v) = encoded_bytes_len (length v).
Proof.
  induction v as [v IH] using (induction_ltof1 _ length). unfold ltof in IH.
  rewrite encode_groups_eq, length_app. unfold final_group.
  rewrite !length_app, length_replicate, length_take. simpl (length [_]).
  unfold encoded_bytes_len, ENCODED_GROUP_SIZE, GROUP_SIZE in *.
  case_decide as C; cbn [length].
  - rewrite IH by (rewrite length_drop; lia). rewrite length_drop.
    pose proof (Nat.div_add_l 1 8 (length v - 8)) as E. replace (1 * 8 + (length v - 8)) with (length v) in E by lia.
    rewrite E by lia. lia.
  - rewrite Nat.div_small by lia. lia.
Qed.

Lemma pad_nil_cmp n u mt mu s s' :
  length u <= n -> (b2n mt < b2n mu)%N ->
  bytes_cmp (replicate n Byte.x00 ++ mt :: s) (u ++ replicate (n - length u) Byte.x00 ++ mu :: s') = Lt.
Proof.
  intros L Hm. revert u L. induction n as [|n IH]; intros [|y u] L;
    cbn [length app replicate Nat.sub bytes_cmp] in *; try lia.
  - by apply N.compare_lt_iff in Hm as ->.
  - specialize (IH [] ltac:(simpl; lia)). rewrite N.compare_refl. simpl in IH. by rewrite Nat.sub_0_r in IH.
  - destruct (N.compare_spec (b2n Byte.x00) (b2n y)) as [E|E|E]; [|done|].
    + apply IH. lia.
    + change (b2n Byte.x00) with 0%N in E. lia.
Qed.

(** Two zero-padded groups whose markers count their payloads compare as the
    payloads, and a tie is decided by what follows. *)
Lemma pad_cmp n k t u mt mu s s' :
  length t <= n -> length u <= n ->
  b2n mt = (k + N.of_nat (length t))%N -> b2n mu = (k + N.of_nat (length u))%N ->
  bytes_cmp (t ++ replicate (n - length t) Byte.x00 ++ mt :: s) (u ++ replicate (n - length u) Byte.x00 ++ mu :: s')
  = match bytes_cmp t u with Eq => bytes_cmp s s' | c => c end.
Proof.
  revert n k u. induction t as [|x t IH]; intros n k [|y u] Lt Lu Ht Hu.
  - cbn [app length] in *. rewrite bytes_cmp_app, bytes_cmp_cons, Ht, Hu. by rewrite N.compare_refl.
  - simpl (bytes_cmp [] _). rewrite app_nil_l. simpl (length []). rewrite Nat.sub_0_r.
    apply pad_nil_cmp; [done|]. simpl in *. lia.
  - simpl (bytes_cmp _ []). rewrite app_nil_l, bytes_cmp_antisym. simpl (length []). rewrite Nat.sub_0_r.
    rewrite pad_nil_cmp; [done..|]. simpl in *. lia.
  - destruct n as [|n]; [simpl in *; lia|]. cbn [app length Nat.sub bytes_cmp] in *.
    rewrite (IH n (k + 1)%N u) by lia. by destruct (N.compare (b2n x) (b2n y)).
Qed.

Lemma final_group_cmp t u s s' :
  length t <= 8 -> length u <= 8 ->
  bytes_cmp (final_group t ++ s) (final_group u ++ s') = match bytes_cmp t u with Eq => bytes_cmp s s' | c => c end.
Proof.
  intros Lt Lu. unfold final_group. rewrite <- !app_assoc. cbn [app].
  apply (pad_cmp 8 247%N); [done..| |]; by apply final_group_marker.
Qed.

Lemma bytes_cmp_longer p q b : length b < length p -> bytes_cmp (p ++ q) b = bytes_cmp p b.
Proof.
  revert b; induction p as [|x p IH]; intros [|y b] L; simpl in *; try lia; [done|].
  by rewrite IH by lia.
Qed.

Lemma bytes_cmp_longer_ne p b : length b < length p -> bytes_cmp p b <> Eq.
Proof. intros L [=->]%bytes_cmp_eq. lia. Qed.

Lemma encode_groups_cmp a b s t :
  bytes_cmp (encode_groups a ++ s) (encode_groups b ++ t)
  = match bytes_cmp a b with Eq => bytes_cmp s t | c => c end.
Proof.
  revert b. induction a as [a IH] using (induction_ltof1 _ length). unfold ltof in IH. intros b.
  rewrite (encode_groups_eq a), (encode_groups_eq b), <- !app_assoc.
  rewrite final_group_cmp by (rewrite length_take; lia).
  case_decide as Ca; case_decide as Cb.
  - rewrite IH by (rewrite length_drop; lia).
    pose proof (bytes_cmp_app_same_len (take 8 a) (take 8 b) (drop 8 a) (drop 8 b)) as E.
    rewrite !take_drop in E. rewrite E by (rewrite !length_take; lia). by destruct (bytes_cmp (take 8 a) _).
  - rewrite (take_ge b) by lia. assert (length b < length (take 8 a)) as L by (rewrite length_take; lia).
    pose proof (bytes_cmp_longer _ (drop 8 a) _ L) as E. rewrite take_drop in E. rewrite E.
    pose proof (bytes_cmp_longer_ne _ _ L). by destruct (bytes_cmp (take 8 a) b).
  - rewrite (take_ge a) by lia. assert (length a < length (take 8 b)) as L by (rewrite length_take; lia).
    pose proof (bytes_cmp_longer _ (drop 8 b) _ L) as E. rewrite take_drop in E.
    rewrite (bytes_cmp_antisym b a), (bytes_cmp_antisym (take 8 b) a), E.
    pose proof (bytes_cmp_longer_ne _ _ L). by destruct (bytes_cmp (take 8 b) a).
  - rewrite !take_ge by lia. by rewrite !app_nil_l.
Qed.

Lemma decode_groups_full a b c d e f g h s out :
  decode_groups (a :: b :: c :: d :: e :: f :: g :: h :: MARKER_FULL :: s) out
  = decode_groups s (out ++ [a; b; c; d; e; f; g; h]).
Proof. done. Qed.

(** One group that is not full: the padding it declares is zero, and dropped. *)
Lemma decode_groups_final t rest out :
  length t < 8 -> decode_groups (final_group t ++ rest) out = Ok (out ++ t, rest).
Proof. intros L. do 8 (destruct t as [|? t]; [done|]). simpl in L. lia. Qed.

Lemma decode_groups_encode v rest out : decode_groups (encode_groups v ++ rest) out = Ok (out ++ v, rest).
Proof.
  revert out. induction v as [v IH] using (induction_ltof1 _ length). unfold ltof in IH. intros out.
  destruct (decide (length v < 8)) as [L|L].
  - rewrite encode_groups_eq, decide_False, take_ge, app_nil_r by lia. by apply decode_groups_final.
  - do 8 (destruct v as [|? v]; [simpl in L; lia|]).
    cbn [encode_groups app]. rewrite decode_groups_full, IH by (simpl; lia). by rewrite <- app_assoc.
Qed.

(** The other direction: what decodes was written by the encoder. *)
Lemma existsb_nonzero_padding l :
  existsb (fun byte => negb (bool_decide (byte = Byte.x00))) l = false -> l = replicate (length l) Byte.x00.
Proof.
  induction l as [|x l IH]; simpl; [done|]. intros [Hx Hl]%orb_false_iff.
  apply negb_false_iff, bool_decide_eq_true in Hx as ->. by rewrite <- IH.
Qed.

Lemma decode_groups_short (rest out : bytes) : length rest < 9 ->
  decode_groups rest out = Err (CodecTruncated ENCODED_GROUP_SIZE (length rest)).
Proof. intros L. do 9 (destruct rest as [|? rest]; [done|]). simpl in L. lia. Qed.

Lemma decode_groups_group (payload : bytes) marker tail out : length payload = 8 ->
  decode_groups (payload ++ marker :: tail) out =
    if decide (marker = MARKER_FULL) then decode_groups tail (out ++ payload) else
    if decide (8 < N.to_nat (255 - b2n marker)) then Err (BadGroupMarker marker) else
    let kept := 8 - N.to_nat (255 - b2n marker) in
    if existsb (fun byte => negb (bool_decide (byte = Byte.x00))) (drop kept payload)
    then Err DirtyPadding else Ok (out ++ take kept payload, tail).
Proof. intros L. do 8 (destruct payload as [|? payload]; [done|]). by destruct payload. Qed.

Lemma groups_split (rest : bytes) : 9 <= length rest ->
  exists payload marker tail, rest = payload ++ marker :: tail /\ length payload = 8.
Proof.
  intros L. destruct (drop 8 rest) as [|m tail] eqn:E.
  - apply (f_equal length) in E. rewrite length_drop in E. simpl in E. lia.
  - exists (take 8 rest), m, tail. rewrite <- E, take_drop, length_take. split; [done|lia].
Qed.

Lemma decode_groups_canonical rest out v tail :
  decode_groups rest out = Ok (v, tail) ->
  exists v', v = out ++ v' /\ rest = encode_groups v' ++ tail.
Proof.
  revert out. induction rest as [rest IH] using (induction_ltof1 _ length). unfold ltof in IH. intros out.
  destruct (decide (length rest < 9)) as [L|L]; [by rewrite decode_groups_short|].
  destruct (groups_split rest) as (p & m & s & -> & Lp); [lia|]. rewrite decode_groups_group by done.
  case_decide as Hm; [|case_decide as Hp; [done|]].
  - intros (v' & -> & ->)%IH; [|rewrite length_app; simpl; lia].
    exists (p ++ v'). rewrite <- app_assoc. split; [done|]. subst m.
    do 8 (destruct p as [|? p]; [done|]). by destruct p.
  - cbv zeta. destruct (existsb _ _) eqn:Hz; [done|]. intros [= <- <-].
    assert (1 <= N.to_nat (255 - b2n m)) as Hpos.
    { destruct (N.eq_dec (b2n m) 255) as [E|E]; [by apply (b2n_inj m Byte.xff) in E|].
      pose proof (b2n_lt m). lia. }
    revert Hz. set (padding := N.to_nat (255 - b2n m)) in *. intros Hz.
    exists (take (8 - padding) p). split; [done|].
    assert (length (take (8 - padding) p) = 8 - padding) as Lt by (rewrite length_take; lia).
    rewrite encode_groups_eq, decide_False, (take_ge (take _ _)), app_nil_r by lia. unfold final_group.
    rewrite Lt. unfold GROUP_SIZE. replace (8 - (8 - padding)) with padding by lia.
    apply existsb_nonzero_padding in Hz. rewrite length_drop, Lp in Hz.
    replace (8 - (8 - padding)) with padding in Hz by lia.
    rewrite <- Hz, <- !app_assoc, (app_assoc (take _ _)), take_drop. f_equal. cbn [app]. f_equal.
    apply b2n_inj. change (b2n MARKER_FULL) with 255%N. pose proof (b2n_lt m).
    rewrite b2n_n2b_small; unfold padding; lia.
Qed.

(** ** Tuples *)

Definition value_ok (v : Value) : Prop :=
  match v with VU64 n => (n < two64)%N | VI64 z => is_i64 z | VBytes _ => True end.

(** The order a query means: numeric, signed, and byte-lexicographic. *)
Definition value_cmp (v w : Value) : comparison :=
  match v, w with
  | VU64 a, VU64 b => N.compare a b
  | VI64 a, VI64 b => Z.compare a b
  | VBytes a, VBytes b => bytes_cmp a b
  | _, _ => Eq
  end.

Fixpoint tuple_cmp (vs ws : list Value) : comparison :=
  match vs, ws with
  | v :: vs', w :: ws' => match value_cmp v w with Eq => tuple_cmp vs' ws' | c => c end
  | _, _ => Eq
  end.

Lemma encode_value_app v out : encode_value v out = out ++ encode_value v [].
Proof. by destruct v. Qed.

Lemma encode_tuple_app vs out : encode_tuple vs out = out ++ encode_tuple vs [].
Proof.
  unfold encode_tuple. revert out. induction vs as [|v vs IH]; intros out; simpl; [by rewrite app_nil_r|].
  rewrite IH, (IH (encode_value v [])), encode_value_app. by rewrite app_assoc.
Qed.

Lemma encode_tuple_cons v vs : encode_tuple (v :: vs) [] = encode_value v [] ++ encode_tuple vs [].
Proof. exact (encode_tuple_app vs (encode_value v [])). Qed.

Lemma encode_value_cmp v w s t :
  value_ok v -> value_ok w -> Value_kind v = Value_kind w ->
  bytes_cmp (encode_value v [] ++ s) (encode_value w [] ++ t)
  = match value_cmp v w with Eq => bytes_cmp s t | c => c end.
Proof.
  destruct v as [a|a|a], w as [b|b|b]; try done; intros Ha Hb _;
    cbn [encode_value value_cmp]; unfold encode_u64, encode_i64, encode_bytes; rewrite !app_nil_l.
  - rewrite bytes_cmp_app_same_len by by rewrite !be_bytes_length. by rewrite be_bytes_cmp.
  - rewrite bytes_cmp_app_same_len by by rewrite !be_bytes_length.
    rewrite be_bytes_cmp by by apply flip_sign_lt. by rewrite flip_sign_cmp.
  - apply encode_groups_cmp.
Qed.

(** C31: order preservation and prefix-freeness of the key codec.
    Comparing two encoded tuples of one schema byte by byte, with anything
    appended after them, is comparing the tuples field by field, and only
    equal tuples let the appended bytes decide. *)
Theorem tuple_order vs ws s t :
  Forall value_ok vs -> Forall value_ok ws -> Value_kind <$> vs = Value_kind <$> ws ->
  bytes_cmp (encode_tuple vs [] ++ s) (encode_tuple ws [] ++ t)
  = match tuple_cmp vs ws with Eq => bytes_cmp s t | c => c end.
Proof.
  intros Hv. revert ws. induction Hv as [|v vs Ov _ IH]; intros [|w ws] Hw; simpl (fmap _ _); try done.
  intros [= Hk Hks]. apply Forall_cons in Hw as [Ow Hw].
  rewrite !encode_tuple_cons, <- !app_assoc, encode_value_cmp, IH by done. simpl. by destruct (value_cmp v w).
Qed.

Lemma tuple_order_witness :
  bytes_cmp (encode_tuple [VI64 (-1); VBytes [Byte.x00]] [] ++ [Byte.xff]) (encode_tuple [VI64 (-1); VBytes [Byte.x00; Byte.x00]] [] ++ [])
  = match tuple_cmp [VI64 (-1); VBytes [Byte.x00]] [VI64 (-1); VBytes [Byte.x00; Byte.x00]] with
    | Eq => bytes_cmp [Byte.xff] [] | c => c end.
Proof. apply tuple_order; [repeat constructor..|reflexivity]; vm_compute; discriminate. Defined.

Lemma decode_encode_value v rest :
  value_ok v ->
  match Value_kind v with
  | KU64 => let? (v, tail) := decode_u64 (encode_value v [] ++ rest) in Ok (VU64 v, tail)
  | KI64 => let? (v, tail) := decode_i64 (encode_value v [] ++ rest) in Ok (VI64 v, tail)
  | KBytes => let? (v, tail) := decode_bytes (encode_value v [] ++ rest) in Ok (VBytes v, tail)
  end = Ok (v, rest).
Proof.
  destruct v as [n|z|b]; intros H; cbn [Value_kind encode_value].
  - by rewrite decode_encode_u64.
  - by rewrite decode_encode_i64.
  - unfold decode_bytes, encode_bytes. by rewrite app_nil_l, decode_groups_encode.
Qed.

(** A tuple decodes under its own schema to the tuple that
    was encoded, leaving the bytes after it. *)
Theorem tuple_roundtrip vs rest :
  Forall value_ok vs -> decode_tuple (Value_kind <$> vs) (encode_tuple vs [] ++ rest) = Ok (vs, rest).
Proof.
  induction 1 as [|v vs Ov _ IH]; [done|].
  rewrite encode_tuple_cons, <- app_assoc. cbn [fmap list_fmap decode_tuple].
  rewrite decode_encode_value by done. cbn [rbind]. by rewrite IH.
Qed.

Lemma tuple_roundtrip_witness :
  decode_tuple (Value_kind <$> [VU64 7; VI64 (-1); VBytes [Byte.x61]])
    (encode_tuple [VU64 7; VI64 (-1); VBytes [Byte.x61]] [] ++ [Byte.x01])
  = Ok ([VU64 7; VI64 (-1); VBytes [Byte.x61]], [Byte.x01]).
Proof. apply tuple_roundtrip. repeat constructor; vm_compute; discriminate. Defined.

(** The byte-string decoder accepts exactly the encoder's
    output; a bad marker, dirty padding or a missing group is an error. *)
Theorem decode_bytes_canonical buf v rest :
  decode_bytes buf = Ok (v, rest) <-> buf = encode_bytes v [] ++ rest.
Proof.
  unfold decode_bytes, encode_bytes. rewrite app_nil_l. split.
  - by intros (v' & -> & ->)%decode_groups_canonical.
  - intros ->. by rewrite decode_groups_encode.
Qed.
