(* ===== verification/KeyPrefix.v ===== *)
(** The reserved key-space layout, [esker-keys/src/prefix.rs]: one namespace
    byte per user of the key space, the versioned key and the SQL table
    prefixes, with the functions that take them apart. *)

From Stdlib Require Import Strings.Byte.
From stdpp Require Import prelude.
From Stdlib Require Import NArith ZArith Lia.
From S2P Require Import Prelude Endian KeyCodec.

(** [b'r'], [b'x'], [b't'], [b'm'], and the two parts of a table. *)
Definition RAW : byte := Byte.x72.
Definition TXN : byte := Byte.x78.
Definition SQL : byte := Byte.x74.
Definition META : byte := Byte.x6d.
Definition ALL : list byte := [RAW; TXN; SQL; META].
Definition SQL_ROW : byte := Byte.x72.
Definition SQL_INDEX : byte := Byte.x69.
Definition TS_SUFFIX_LEN : nat := FIXED_INT_SIZE.

Definition raw_key (user_key : bytes) : bytes := RAW :: user_key.
Definition txn_key (user_key : bytes) (ts : N) : bytes := [TXN] ++ user_key ++ enc_ts ts.
Definition meta_key (suffix : bytes) : bytes := META :: suffix.

Definition split_ts (key : bytes) : result CodecError (bytes * N) :=
  if decide (length key < TS_SUFFIX_LEN) then Err (CodecTruncated TS_SUFFIX_LEN (length key)) else
  let prefix := take (length key - TS_SUFFIX_LEN) key in
  let suffix := drop (length key - TS_SUFFIX_LEN) key in
  let? ts := dec_ts suffix in Ok (prefix, ts).

Definition table_row_prefix (tenant table_id : N) : bytes :=
  encode_u64 table_id (encode_u64 tenant [SQL]) ++ [SQL_ROW].

Definition table_index_prefix (tenant table_id index_id : N) : bytes :=
  encode_u64 index_id (encode_u64 table_id (encode_u64 tenant [SQL]) ++ [SQL_INDEX]).

Definition row_key_table (key : bytes) : option (N * N) :=
  let HEADER := 1 + 8 + 8 + 1 in
  if decide (length key < HEADER) then None else
  if decide (key !! 0%nat = Some SQL) then
    if decide (key !! (HEADER - 1)%nat = Some SQL_ROW) then
      Some (be_value (take 8 (drop 1 key)), be_value (take 8 (drop 9 key)))
    else None
  else None.

Inductive TablePart : Type := Row | Index.

Definition split_table (key : bytes) : result CodecError (option (N * N * TablePart)) :=
  match key with
  | b :: rest =>
      if decide (b = SQL) then
        if decide (length rest < FIXED_INT_SIZE * 2 + 1) then Ok None else
        let? (tenant, rest) := decode_u64 rest in
        let? (table_id, rest) := decode_u64 rest in
        match rest with
        | p :: _ =>
            if decide (p = SQL_ROW) then Ok (Some (tenant, table_id, Row)) else
            if decide (p = SQL_INDEX) then Ok (Some (tenant, table_id, Index)) else Ok None
        | [] => Ok None
        end
      else Ok None
  | [] => Ok None
  end.

Lemma split_ts_app prefix ts : (ts < two64)%N -> split_ts (prefix ++ enc_ts ts) = Ok (prefix, ts).
Proof.
  intros H. unfold split_ts, TS_SUFFIX_LEN, FIXED_INT_SIZE.
  rewrite length_app, enc_ts_length, decide_False by lia.
  replace (length prefix + 8 - 8) with (length prefix) by lia.
  rewrite take_app_length, drop_app_length. rewrite <- (app_nil_r (enc_ts ts)), dec_enc_ts by done. done.
Qed.

Lemma split_ts_short key : length key < 8 -> split_ts key = Err (CodecTruncated 8 (length key)).
Proof. intros. unfold split_ts, TS_SUFFIX_LEN, FIXED_INT_SIZE. by rewrite decide_True. Qed.

Lemma split_ts_inv key prefix ts : split_ts key = Ok (prefix, ts) -> key = prefix ++ enc_ts ts /\ (ts < two64)%N.
Proof.
  unfold split_ts, TS_SUFFIX_LEN, FIXED_INT_SIZE. case_decide as L; [done|].
  unfold dec_ts, split_fixed, FIXED_INT_SIZE. rewrite decide_False by (rewrite length_drop; lia).
  cbn [rbind]. intros [= <- <-].
  rewrite (take_ge (drop _ _)) by (rewrite length_drop; lia).
  assert (length (drop (length key - 8) key) = 8) as L8 by (rewrite length_drop; lia).
  split; [|apply not64_lt].
  unfold enc_ts. rewrite not64_involutive.
  - pose proof (be_bytes_value (drop (length key - 8) key)) as E. rewrite L8 in E. by rewrite E, take_drop.
  - pose proof (be_value_lt (drop (length key - 8) key)) as E. by rewrite L8 in E.
Qed.

(** A versioned key splits into its prefix and its timestamp, and
    nothing else does: the split succeeds exactly on a prefix followed by an
    eight-byte complemented timestamp. *)
Theorem split_ts_exact key prefix ts :
  split_ts key = Ok (prefix, ts) <-> key = prefix ++ enc_ts ts /\ (ts < two64)%N.
Proof. split; [apply split_ts_inv|]. intros [-> H]. by apply split_ts_app. Qed.

Lemma split_table_head tenant table_id p rest :
  (tenant < two64)%N -> (table_id < two64)%N ->
  split_table (encode_u64 table_id (encode_u64 tenant [SQL]) ++ p :: rest)
  = if decide (p = SQL_ROW) then Ok (Some (tenant, table_id, Row)) else
    if decide (p = SQL_INDEX) then Ok (Some (tenant, table_id, Index)) else Ok None.
Proof.
  intros Ht Hi.
  replace (encode_u64 table_id (encode_u64 tenant [SQL]) ++ p :: rest)
    with (SQL :: encode_u64 tenant [] ++ encode_u64 table_id [] ++ p :: rest)
    by (unfold encode_u64; cbn [app]; by rewrite <- app_assoc).
  cbn [split_table]. rewrite decide_True by done.
  rewrite decide_False by (unfold encode_u64, FIXED_INT_SIZE; rewrite !length_app, !be_bytes_length; simpl; lia).
  rewrite decode_encode_u64 by done. cbn [rbind]. rewrite decode_encode_u64 by done. done.
Qed.

Lemma table_header_part tenant table_id p rest :
  (encode_u64 table_id (encode_u64 tenant [SQL]) ++ p :: rest) !! 17%nat = Some p.
Proof.
  apply list_lookup_middle. unfold encode_u64. by rewrite !length_app, !be_bytes_length.
Qed.

Lemma row_key_table_head tenant table_id p rest :
  (tenant < two64)%N -> (table_id < two64)%N ->
  row_key_table (encode_u64 table_id (encode_u64 tenant [SQL]) ++ p :: rest)
  = if decide (p = SQL_ROW) then Some (tenant, table_id) else None.
Proof.
  intros Ht Hi. unfold row_key_table. rewrite decide_False.
  2:{ unfold encode_u64. rewrite !length_app, !be_bytes_length. simpl. lia. }
  rewrite decide_True by done. cbn [Nat.add Nat.sub]. rewrite table_header_part.
  unfold encode_u64. rewrite <- !app_assoc. cbn [app].
  rewrite skipn_cons, drop_0, take_app_length' by by rewrite be_bytes_length.
  rewrite skipn_cons, drop_app_length', take_app_length' by by rewrite be_bytes_length.
  rewrite !be_value_bytes by done. by repeat case_decide; simplify_eq.
Qed.

(** Every row key and every index key of a table is recognised
    as that table's, with its part, and of the two only the row key answers
    [row_key_table]. *)
Theorem table_key_parts tenant table_id index_id rest :
  (tenant < two64)%N -> (table_id < two64)%N ->
  split_table (table_row_prefix tenant table_id ++ rest) = Ok (Some (tenant, table_id, Row)) /\
  split_table (table_index_prefix tenant table_id index_id ++ rest) = Ok (Some (tenant, table_id, Index)) /\
  row_key_table (table_row_prefix tenant table_id ++ rest) = Some (tenant, table_id) /\
  row_key_table (table_index_prefix tenant table_id index_id ++ rest) = None.
Proof.
  intros Ht Hi.
  assert (table_row_prefix tenant table_id ++ rest
          = encode_u64 table_id (encode_u64 tenant [SQL]) ++ SQL_ROW :: rest) as ->
    by (unfold table_row_prefix; by rewrite <- app_assoc).
  assert (table_index_prefix tenant table_id index_id ++ rest
          = encode_u64 table_id (encode_u64 tenant [SQL]) ++ SQL_INDEX :: be_bytes 8 index_id ++ rest) as ->
    by (unfold table_index_prefix; unfold encode_u64 at 1; by rewrite <- !app_assoc).
  rewrite !split_table_head, !row_key_table_head by done. done.
Qed.

Lemma table_key_parts_witness :
  split_table (table_row_prefix 1 2 ++ [Byte.x00]) = Ok (Some (1%N, 2%N, Row)) /\
  split_table (table_index_prefix 1 2 3 ++ [Byte.x00]) = Ok (Some (1%N, 2%N, Index)) /\
  row_key_table (table_row_prefix 1 2 ++ [Byte.x00]) = Some (1%N, 2%N) /\
  row_key_table (table_index_prefix 1 2 3 ++ [Byte.x00]) = None.
Proof. apply table_key_parts; reflexivity. Defined.
