(* ===== verification/TxnCodec.v ===== *)
(** The lock and write records of the transaction layer,
    [esker-txn/src/codec.rs] and [esker-txn/src/error.rs]: the encoders, the
    strict decoders over the byte cursor [Reader], and the proof that
    encoding is canonical: a decoder accepts the encoder's output and nothing
    else. *)

From Stdlib Require Import Strings.Byte.
From stdpp Require Import prelude strings.
From Stdlib Require Import NArith ZArith Lia.
From S2P Require Import Prelude Varint KeyCodec.

Definition SHORT_VALUE_MAX_LEN : nat := 255.
Definition LOCK_TTL_MS : N := 3000.
Definition SHORT_VALUE_ABSENT : byte := Byte.x00.
Definition SHORT_VALUE_PRESENT : byte := Byte.x01.

Inductive Kind : Type := KPut | KDelete | KRollback | KLock.

#[export] Instance Kind_eq_dec : EqDecision Kind.
Proof. solve_decision. Defined.

(** Which record a [Corrupt] error names, and the message it carries. *)
Inductive What : Type := WhatLock | WhatWrite | WhatKey.

Inductive Field : Type := FieldStartTs | FieldTtlMs | FieldPrimary.

Inductive Detail : Type :=
  | EmptyRecord
  | UnknownKind (tag : byte)
  | BadVarint (field : Field) (error : VarintError)
  | TooShort (field : Field) (wanted : N) (found : nat)
  | NoShortValueMarker
  | CarriesNoValue (kind : Kind)
  | NoShortValueLength
  | ShortValueTooShort (wanted found : nat)
  | BadShortValueMarker (marker : byte)
  | TrailingRecordBytes (found : nat)
  | RollbackIsNotALock
  | LockWithNoPrimary
  | NotInNamespace (engine_key : bytes)
  | BadKey (error : CodecError)
  | BadSuffix (after : nat).

Inductive MisuseReason : Type :=
  | CommitNotAboveStart
  | LockNamesAnotherPrimary
  | TokenNamesAnotherPrimary.

Inductive TxnError : Type :=
  | Corrupt (what : What) (detail : Detail)
  | WriteConflict (start_ts commit_ts : N)
  | KeyIsLocked (lock_info : bytes) (start_ts : N)
  | TxnLockNotFound (start_ts : N)
  | AlreadyRolledBack (start_ts : N)
  | AlreadyCommitted (start_ts commit_ts : N)
  | MissingValue (start_ts : N)
  | Misuse (reason : MisuseReason).

Definition is_resolvable (e : TxnError) : bool :=
  match e with KeyIsLocked _ _ => true | _ => false end.

Definition Kind_as_u8 (k : Kind) : byte :=
  match k with KPut => Byte.x01 | KDelete => Byte.x02 | KRollback => Byte.x03 | KLock => Byte.x04 end.

Definition Kind_from_u8 (tag : byte) : option Kind :=
  match tag with
  | Byte.x01 => Some KPut
  | Byte.x02 => Some KDelete
  | Byte.x03 => Some KRollback
  | Byte.x04 => Some KLock
  | _ => None
  end.

Definition carries_a_value (k : Kind) : bool := match k with KPut => true | _ => false end.
Definition is_a_version (k : Kind) : bool := match k with KPut | KDelete => true | _ => false end.

Record LockRecord : Type := mkLockRecord {
  lock_kind : Kind;
  lock_start_ts : N;
  lock_ttl_ms : N;
  lock_primary : bytes;
  lock_short_value : option bytes
}.

Record WriteRecord : Type := mkWriteRecord {
  write_kind : Kind;
  write_start_ts : N;
  write_short_value : option bytes
}.

Definition LockRecord_new (kind : Kind) (start_ts : N) (primary : bytes) : LockRecord :=
  mkLockRecord kind start_ts LOCK_TTL_MS primary None.
Definition LockRecord_is_primary (l : LockRecord) (user_key : bytes) : bool :=
  bool_decide (lock_primary l = user_key).

Definition WriteRecord_new (kind : Kind) (start_ts : N) : WriteRecord := mkWriteRecord kind start_ts None.
Definition WriteRecord_rollback (start_ts : N) : WriteRecord := WriteRecord_new KRollback start_ts.

(** [u8::try_from(len).unwrap_or(u8::MAX)], then at most
    [SHORT_VALUE_MAX_LEN] bytes. *)
Definition put_short_value (value : option bytes) (out : bytes) : bytes :=
  match value with
  | None => out ++ [SHORT_VALUE_ABSENT]
  | Some value =>
      let len := if decide (length value <= 255) then n2b (N.of_nat (length value)) else Byte.xff in
      out ++ [SHORT_VALUE_PRESENT; len] ++ take (length value `min` SHORT_VALUE_MAX_LEN) value
  end.

Definition LockRecord_encode_to (l : LockRecord) (out : bytes) : bytes :=
  let out := out ++ [Kind_as_u8 (lock_kind l)] in
  let out := put_u64 (lock_start_ts l) out in
  let out := put_u64 (lock_ttl_ms l) out in
  let out := put_u64 (N.of_nat (length (lock_primary l))) out in
  let out := out ++ lock_primary l in
  put_short_value (lock_short_value l) out.
Definition LockRecord_encode (l : LockRecord) : bytes := LockRecord_encode_to l [].

Definition WriteRecord_encode_to (w : WriteRecord) (out : bytes) : bytes :=
  let out := out ++ [Kind_as_u8 (write_kind w)] in
  let out := put_u64 (write_start_ts w) out in
  put_short_value (write_short_value w) out.
Definition WriteRecord_encode (w : WriteRecord) : bytes := WriteRecord_encode_to w [].

(** The cursor: [reader_rest] is [&self.bytes[self.at..]], so advancing
    [self.at] drops from its front. *)
Record Reader : Type := mkReader { reader_what : What; reader_rest : bytes }.

Definition Reader_new (what : What) (bs : bytes) : Reader := mkReader what bs.
Definition advance_at (r : Reader) (n : nat) : Reader := mkReader (reader_what r) (drop n (reader_rest r)).
Definition corrupt {A} (r : Reader) (d : Detail) : result TxnError A := Err (Corrupt (reader_what r) d).

Definition Reader_kind (r : Reader) : result TxnError (Kind * Reader) :=
  match reader_rest r with
  | [] => corrupt r EmptyRecord
  | tag :: _ =>
      match Kind_from_u8 tag with
      | Some k => Ok (k, advance_at r 1)
      | None => corrupt r (UnknownKind tag)
      end
  end.

Definition Reader_varint (r : Reader) (field : Field) : result TxnError (N * Reader) :=
  match get_u64 (reader_rest r) with
  | Ok (value, read) => Ok (value, advance_at r read)
  | Err error => corrupt r (BadVarint field error)
  end.

(** [usize] is 64 bits wide, so [usize::try_from] of a [u64] succeeds. *)
Definition length_prefixed (r : Reader) (field : Field) : result TxnError (bytes * Reader) :=
  let? (len, r) := Reader_varint r field in
  if (N.of_nat (length (reader_rest r)) <? len)%N
  then corrupt r (TooShort field len (length (reader_rest r)))
  else Ok (take (N.to_nat len) (reader_rest r), advance_at r (N.to_nat len)).

Definition Reader_short_value (r : Reader) (kind : Kind) : result TxnError (option bytes * Reader) :=
  match reader_rest r with
  | [] => corrupt r NoShortValueMarker
  | marker :: _ =>
      let r := advance_at r 1 in
      if decide (marker = SHORT_VALUE_ABSENT) then Ok (None, r) else
      if decide (marker = SHORT_VALUE_PRESENT) then
        if negb (carries_a_value kind) then corrupt r (CarriesNoValue kind) else
        match reader_rest r with
        | [] => corrupt r NoShortValueLength
        | len :: _ =>
            let len := N.to_nat (b2n len) in
            let r := advance_at r 1 in
            if decide (length (reader_rest r) < len)
            then corrupt r (ShortValueTooShort len (length (reader_rest r)))
            else Ok (Some (take len (reader_rest r)), advance_at r len)
        end
      else corrupt r (BadShortValueMarker marker)
  end.

Definition Reader_finish (r : Reader) : result TxnError unit :=
  match reader_rest r with
  | [] => Ok tt
  | rest => corrupt r (TrailingRecordBytes (length rest))
  end.

Definition LockRecord_decode (bs : bytes) : result TxnError LockRecord :=
  let? (kind, input) := Reader_kind (Reader_new WhatLock bs) in
  if decide (kind = KRollback) then Err (Corrupt WhatLock RollbackIsNotALock) else
  let? (start_ts, input) := Reader_varint input FieldStartTs in
  let? (ttl_ms, input) := Reader_varint input FieldTtlMs in
  let? (primary, input) := length_prefixed input FieldPrimary in
  if decide (primary = []) then Err (Corrupt WhatLock LockWithNoPrimary) else
  let? (short_value, input) := Reader_short_value input kind in
  let? _ := Reader_finish input in
  Ok (mkLockRecord kind start_ts ttl_ms primary short_value).

Definition WriteRecord_decode (bs : bytes) : result TxnError WriteRecord :=
  let? (kind, input) := Reader_kind (Reader_new WhatWrite bs) in
  let? (start_ts, input) := Reader_varint input FieldStartTs in
  let? (short_value, input) := Reader_short_value input kind in
  let? _ := Reader_finish input in
  Ok (mkWriteRecord kind start_ts short_value).

(** ** The cursor reads back what the encoders append *)

Lemma Kind_from_as_u8 k : Kind_from_u8 (Kind_as_u8 k) = Some k.
Proof. by destruct k. Qed.

Lemma Kind_as_from_u8 tag k : Kind_from_u8 tag = Some k -> Kind_as_u8 k = tag.
Proof. by destruct tag; intros [= <-]. Qed.

Lemma put_u64_length_pos v : 0 < length (put_u64 v []).
Proof. pose proof (put_u64_nonempty v). destruct (put_u64 v []); [done|simpl; lia]. Qed.

Lemma Reader_kind_ok what k rest :
  Reader_kind (mkReader what (Kind_as_u8 k :: rest)) = Ok (k, mkReader what rest).
Proof. unfold Reader_kind. simpl. by rewrite Kind_from_as_u8. Qed.

Lemma Reader_varint_ok what field v rest : (v < two64)%N ->
  Reader_varint (mkReader what (put_u64 v [] ++ rest)) field = Ok (v, mkReader what rest).
Proof.
  intros H. unfold Reader_varint, advance_at. cbn [reader_rest reader_what].
  by rewrite get_put_u64, drop_app_length by done.
Qed.

Lemma length_prefixed_ok what field p rest : (N.of_nat (length p) < two64)%N ->
  length_prefixed (mkReader what (put_u64 (N.of_nat (length p)) [] ++ p ++ rest)) field = Ok (p, mkReader what rest).
Proof.
  intros H. unfold length_prefixed. rewrite Reader_varint_ok by done. cbn [rbind reader_rest].
  rewrite (proj2 (N.ltb_ge _ _)) by (rewrite length_app; lia).
  unfold advance_at. cbn [reader_rest reader_what]. by rewrite Nat2N.id, take_app_length, drop_app_length.
Qed.

Definition short_value_ok (kind : Kind) (value : option bytes) : Prop :=
  match value with None => True | Some v => kind = KPut /\ length v <= SHORT_VALUE_MAX_LEN end.

Lemma Reader_short_value_ok what kind value rest : short_value_ok kind value ->
  Reader_short_value (mkReader what (put_short_value value [] ++ rest)) kind = Ok (value, mkReader what rest).
Proof.
  destruct value as [v|]; [|done]. intros [-> H]. unfold SHORT_VALUE_MAX_LEN in H.
  unfold Reader_short_value, put_short_value, advance_at, SHORT_VALUE_MAX_LEN. cbn [app reader_rest reader_what].
  rewrite decide_False, decide_True by done. cbn [negb carries_a_value].
  rewrite decide_True, (Nat.min_l _ _ H), firstn_all by done. cbn [drop skipn].
  rewrite b2n_n2b_small, Nat2N.id by lia. rewrite !drop_0, decide_False by (rewrite length_app; lia).
  by rewrite take_app_length, drop_app_length.
Qed.

(** ** And accepts nothing else *)

Lemma Reader_kind_inv r k r' : Reader_kind r = Ok (k, r') ->
  reader_rest r = Kind_as_u8 k :: reader_rest r' /\ reader_what r' = reader_what r.
Proof.
  unfold Reader_kind. destruct (reader_rest r) as [|tag rest] eqn:E; [done|].
  destruct (Kind_from_u8 tag) eqn:K; [|done]. intros [= <- <-].
  unfold advance_at. rewrite E. simpl. by rewrite (Kind_as_from_u8 _ _ K).
Qed.

Lemma Reader_varint_inv r field v r' : Reader_varint r field = Ok (v, r') ->
  (v < two64)%N /\ reader_rest r = put_u64 v [] ++ reader_rest r'.
Proof.
  unfold Reader_varint. destruct (get_u64 (reader_rest r)) as [[v' n]|] eqn:E; [|done]. intros [= <- <-].
  apply get_u64_canonical in E as [Hv <-]. split; [done|]. unfold advance_at. cbn [reader_rest]. by rewrite take_drop.
Qed.

Lemma length_prefixed_inv r field p r' : length_prefixed r field = Ok (p, r') ->
  (N.of_nat (length p) < two64)%N /\ reader_rest r = put_u64 (N.of_nat (length p)) [] ++ p ++ reader_rest r'.
Proof.
  unfold length_prefixed. intros ([len r1] & E & H)%rbind_ok. apply Reader_varint_inv in E as [Hl ->].
  destruct (N.ltb_spec (N.of_nat (length (reader_rest r1))) len) as [|L]; [done|]. injection H as <- <-.
  assert (N.of_nat (length (take (N.to_nat len) (reader_rest r1))) = len) as -> by (rewrite length_take; lia).
  split; [done|]. unfold advance_at. cbn [reader_rest]. by rewrite take_drop.
Qed.

Lemma Reader_short_value_inv r kind value r' : Reader_short_value r kind = Ok (value, r') ->
  short_value_ok kind value /\ reader_rest r = put_short_value value [] ++ reader_rest r'.
Proof.
  unfold Reader_short_value. destruct (reader_rest r) as [|m rest] eqn:E; [done|].
  unfold advance_at at 1. rewrite E. cbn [drop skipn reader_rest reader_what].
  case_decide as Hm; [by intros [= <- <-]; subst|]. case_decide as Hp; [|done].
  destruct (carries_a_value kind) eqn:Hk; [|done]. cbn [negb].
  unfold advance_at at 1 2. rewrite E. cbn [drop skipn reader_rest reader_what].
  destruct rest as [|len rest]; [done|]. unfold advance_at. cbn [drop skipn reader_rest reader_what].
  rewrite E. cbn [drop skipn]. rewrite ?drop_0. case_decide as L; [done|]. intros [= <- <-]. destruct kind; try done.
  assert (length (take (N.to_nat (b2n len)) rest) = N.to_nat (b2n len)) as Ll by (rewrite length_take; lia).
  pose proof (b2n_lt len) as Hlen. cbn [reader_rest]. split.
  - split; [done|]. rewrite Ll. unfold SHORT_VALUE_MAX_LEN. lia.
  - unfold put_short_value. rewrite decide_True by lia. rewrite Ll, N2Nat.id, n2b_b2n.
    unfold SHORT_VALUE_MAX_LEN. rewrite (take_ge (take _ _)) by lia. cbn [app]. by rewrite take_drop, Hp.
Qed.

Lemma Reader_finish_inv r u : Reader_finish r = Ok u -> reader_rest r = [].
Proof. unfold Reader_finish. by destruct (reader_rest r). Qed.

(** ** Records *)

Definition lock_record_ok (l : LockRecord) : Prop :=
  lock_kind l <> KRollback /\ (lock_start_ts l < two64)%N /\ (lock_ttl_ms l < two64)%N /\
  lock_primary l <> [] /\ (N.of_nat (length (lock_primary l)) < two64)%N /\
  short_value_ok (lock_kind l) (lock_short_value l).

Definition write_record_ok (w : WriteRecord) : Prop :=
  (write_start_ts w < two64)%N /\ short_value_ok (write_kind w) (write_short_value w).

Lemma put_short_value_app value out : put_short_value value out = out ++ put_short_value value [].
Proof. by destruct value. Qed.

Lemma LockRecord_encode_eq l :
  LockRecord_encode l =
    Kind_as_u8 (lock_kind l) :: put_u64 (lock_start_ts l) [] ++ put_u64 (lock_ttl_ms l) [] ++
    put_u64 (N.of_nat (length (lock_primary l))) [] ++ lock_primary l ++ put_short_value (lock_short_value l) [].
Proof.
  unfold LockRecord_encode, LockRecord_encode_to. cbv zeta. rewrite app_nil_l, put_short_value_app.
  rewrite (put_u64_app (N.of_nat _)), (put_u64_app (lock_ttl_ms l)), (put_u64_app (lock_start_ts l)).
  by rewrite <- !app_assoc.
Qed.

Lemma WriteRecord_encode_eq w :
  WriteRecord_encode w =
    Kind_as_u8 (write_kind w) :: put_u64 (write_start_ts w) [] ++ put_short_value (write_short_value w) [].
Proof.
  unfold WriteRecord_encode, WriteRecord_encode_to. cbv zeta. rewrite app_nil_l, put_short_value_app.
  rewrite (put_u64_app (write_start_ts w)). by rewrite <- !app_assoc.
Qed.

Lemma LockRecord_decode_encode l : lock_record_ok l -> LockRecord_decode (LockRecord_encode l) = Ok l.
Proof.
  intros (Hk & Hs & Ht & Hp & Hl & Hv). rewrite LockRecord_encode_eq.
  unfold LockRecord_decode, Reader_new. rewrite Reader_kind_ok. cbn [rbind]. rewrite decide_False by done.
  rewrite Reader_varint_ok by done. cbn [rbind]. rewrite Reader_varint_ok by done. cbn [rbind].
  rewrite length_prefixed_ok by done. cbn [rbind]. rewrite decide_False by done.
  rewrite <- (app_nil_r (put_short_value _ _)), Reader_short_value_ok by done. by destruct l.
Qed.

Lemma WriteRecord_decode_encode w : write_record_ok w -> WriteRecord_decode (WriteRecord_encode w) = Ok w.
Proof.
  intros (Hs & Hv). rewrite WriteRecord_encode_eq.
  unfold WriteRecord_decode, Reader_new. rewrite Reader_kind_ok. cbn [rbind].
  rewrite Reader_varint_ok by done. cbn [rbind].
  rewrite <- (app_nil_r (put_short_value _ _)), Reader_short_value_ok by done. by destruct w.
Qed.

Lemma LockRecord_decode_inv bs l : LockRecord_decode bs = Ok l -> lock_record_ok l /\ bs = LockRecord_encode l.
Proof.
  unfold LockRecord_decode. intros ([k r1] & E1 & H)%rbind_ok. apply Reader_kind_inv in E1 as [E1 _].
  case_decide as Hk; [done|].
  apply rbind_ok in H as ([s r2] & [Hs E2]%Reader_varint_inv & H).
  apply rbind_ok in H as ([t r3] & [Ht E3]%Reader_varint_inv & H).
  apply rbind_ok in H as ([p r4] & [Hp E4]%length_prefixed_inv & H).
  case_decide as Hne; [done|].
  apply rbind_ok in H as ([v r5] & [Hv E5]%Reader_short_value_inv & H).
  apply rbind_ok in H as (u & E6%Reader_finish_inv & [= <-]).
  split; [by repeat split|]. rewrite LockRecord_encode_eq.
  cbn [lock_kind lock_start_ts lock_ttl_ms lock_primary lock_short_value Reader_new reader_rest] in *.
  by rewrite E1, E2, E3, E4, E5, E6, app_nil_r.
Qed.

Lemma WriteRecord_decode_inv bs w : WriteRecord_decode bs = Ok w -> write_record_ok w /\ bs = WriteRecord_encode w.
Proof.
  unfold WriteRecord_decode. intros ([k r1] & E1 & H)%rbind_ok. apply Reader_kind_inv in E1 as [E1 _].
  apply rbind_ok in H as ([s r2] & [Hs E2]%Reader_varint_inv & H).
  apply rbind_ok in H as ([v r5] & [Hv E5]%Reader_short_value_inv & H).
  apply rbind_ok in H as (u & E6%Reader_finish_inv & [= <-]).
  split; [by split|]. rewrite WriteRecord_encode_eq.
  cbn [write_kind write_start_ts write_short_value Reader_new reader_rest] in *.
  by rewrite E1, E2, E5, E6, app_nil_r.
Qed.

(** The lock and write record decoders accept exactly the
    canonical encodings of well-formed records: an unknown kind, a rollback
    in the lock family, an inline value on a record that has none, an
    overlong varint, an empty primary and a trailing byte are all refused,
    and every well-formed record reads back as itself. *)
Theorem records_strict bs l w :
  (LockRecord_decode bs = Ok l <-> lock_record_ok l /\ bs = LockRecord_encode l) /\
  (WriteRecord_decode bs = Ok w <-> write_record_ok w /\ bs = WriteRecord_encode w).
Proof.
  split; split.
  - apply LockRecord_decode_inv.
  - intros [H ->]. by apply LockRecord_decode_encode.
  - apply WriteRecord_decode_inv.
  - intros [H ->]. by apply WriteRecord_decode_encode.
Qed.
