(* ===== verification/TxnKey.v ===== *)
(** Engine keys of the three Percolator column families,
    [esker-txn/src/key.rs].  A user key is group-encoded before the timestamp
    is appended, so the versions of one key form one contiguous run, newest
    first, and no other key's versions fall inside it. *)

From Stdlib Require Import Strings.Byte.
From stdpp Require Import prelude.
From Stdlib Require Import NArith ZArith Lia.
From S2P Require Import Prelude Endian KeyCodec KeyPrefix TxnCodec.

Definition key_lock (user_key : bytes) : bytes := encode_bytes user_key [TXN].
Definition key_prefix (user_key : bytes) : bytes := key_lock user_key.
Definition versioned (user_key : bytes) (ts : N) : bytes := key_prefix user_key ++ enc_ts ts.
Definition key_write (user_key : bytes) (commit_ts : N) : bytes := versioned user_key commit_ts.
Definition key_value (user_key : bytes) (start_ts : N) : bytes := versioned user_key start_ts.
Definition key_seek_write (user_key : bytes) (ts : N) : bytes := versioned user_key ts.

(** [u8::saturating_add(1)]. *)
Definition byte_succ (b : byte) : byte := n2b (N.min (b2n b + 1) 255).

(** [end.last_mut()] incremented in place. *)
Fixpoint bump_last (l : bytes) : bytes :=
  match l with
  | [] => []
  | [marker] => [byte_succ marker]
  | b :: l' => b :: bump_last l'
  end.

Definition version_range (user_key : bytes) : bytes * bytes :=
  (versioned user_key u64_max, bump_last (key_prefix user_key)).

Definition bad_key (error : CodecError) : TxnError := Corrupt WhatKey (BadKey error).

(** [engine_key.strip_prefix(&[TXN])]. *)
Definition strip_txn (engine_key : bytes) : result TxnError bytes :=
  match engine_key with
  | b :: rest => if decide (b = TXN) then Ok rest else Err (Corrupt WhatKey (NotInNamespace engine_key))
  | [] => Err (Corrupt WhatKey (NotInNamespace engine_key))
  end.

Definition key_split (engine_key : bytes) : result TxnError (bytes * N) :=
  let? rest := strip_txn engine_key in
  let? (user_key, rest) := rmap_err bad_key (decode_bytes rest) in
  if decide (length rest <> TS_SUFFIX_LEN) then Err (Corrupt WhatKey (BadSuffix (length rest))) else
  let? ts := rmap_err bad_key (dec_ts rest) in
  Ok (user_key, ts).

Definition split_lock (engine_key : bytes) : result TxnError bytes :=
  let? rest := strip_txn engine_key in
  let? (user_key, rest) := rmap_err bad_key (decode_bytes rest) in
  match rest with
  | [] => Ok user_key
  | _ => Err (Corrupt WhatKey (BadSuffix (length rest)))
  end.

(** ** Splitting *)

Lemma key_split_versioned k ts : (ts < two64)%N -> key_split (versioned k ts) = Ok (k, ts).
Proof.
  intros H. unfold key_split, versioned, key_prefix, key_lock, encode_bytes. cbn [app strip_txn].
  rewrite decide_True by done. cbn [rbind]. unfold decode_bytes. rewrite decode_groups_encode. cbn [rmap_err rbind app].
  rewrite decide_False by (rewrite enc_ts_length; unfold TS_SUFFIX_LEN, FIXED_INT_SIZE; lia).
  rewrite <- (app_nil_r (enc_ts ts)), dec_enc_ts by done. done.
Qed.

Lemma split_lock_key k : split_lock (key_lock k) = Ok k.
Proof.
  unfold split_lock, key_lock, encode_bytes. cbn [app strip_txn]. rewrite decide_True by done. cbn [rbind].
  unfold decode_bytes. by rewrite <- (app_nil_r (encode_groups k)), decode_groups_encode.
Qed.

(** ** Order *)

Lemma key_prefix_cmp a b s t :
  bytes_cmp (key_prefix a ++ s) (key_prefix b ++ t) = match bytes_cmp a b with Eq => bytes_cmp s t | c => c end.
Proof. unfold key_prefix, key_lock, encode_bytes. cbn [app]. rewrite bytes_cmp_cons, N.compare_refl. apply encode_groups_cmp. Qed.

Lemma versioned_cmp a b t u : (t < two64)%N -> (u < two64)%N ->
  bytes_cmp (versioned a t) (versioned b u) = match bytes_cmp a b with Eq => N.compare u t | c => c end.
Proof. intros Ht Hu. unfold versioned. rewrite key_prefix_cmp. by rewrite enc_ts_cmp. Qed.

Lemma key_lock_cmp a b : bytes_cmp (key_lock a) (key_lock b) = bytes_cmp a b.
Proof.
  pose proof (key_prefix_cmp a b [] []) as E. unfold key_prefix in E. rewrite !app_nil_r in E. rewrite E.
  by destruct (bytes_cmp a b).
Qed.

Lemma key_lock_inj a b : key_lock a = key_lock b -> a = b.
Proof. intros E. apply bytes_cmp_eq. rewrite <- key_lock_cmp, E. apply bytes_cmp_refl. Qed.

Lemma versioned_inj a b t u : (t < two64)%N -> (u < two64)%N -> versioned a t = versioned b u -> a = b /\ t = u.
Proof.
  intros Ht Hu E. pose proof (key_split_versioned a t Ht) as H. rewrite E, key_split_versioned in H by done.
  by injection H as -> ->.
Qed.

(** ** The successor of a prefix *)

Lemma bump_last_snoc q m : bump_last (q ++ [m]) = q ++ [byte_succ m].
Proof. induction q as [|x q IH]; [done|]. cbn [app bump_last]. rewrite IH. by destruct q. Qed.

(** Below the bumped prefix is below the prefix or an extension of it. *)
Lemma below_bumped q m x : (b2n m < 255)%N ->
  bytes_cmp x (q ++ [byte_succ m]) = Lt <-> bytes_cmp x (q ++ [m]) = Lt \/ (q ++ [m]) `prefix_of` x.
Proof.
  intros Hm. assert (b2n (byte_succ m) = b2n m + 1)%N as Es.
  { unfold byte_succ. rewrite N.min_l by lia. apply b2n_n2b_small. lia. }
  revert x. induction q as [|y q IH]; intros [|b x]; cbn [app bytes_cmp].
  - split; [by left|done].
  - rewrite Es. destruct (N.compare_spec (b2n b) (b2n m)) as [E|L|L].
    + rewrite (proj2 (N.compare_lt_iff _ _)) by lia. apply b2n_inj in E as ->.
      split; [|done]. intros _. right. by apply prefix_cons, prefix_nil.
    + rewrite (proj2 (N.compare_lt_iff _ _)) by lia. tauto.
    + split.
      * destruct (N.compare_spec (b2n b) (b2n m + 1)); try done; [by destruct x|lia].
      * intros [|H]; [done|]. apply prefix_cons_inv_1 in H as ->. lia.
  - split; [by left|done].
  - destruct (N.compare_spec (b2n b) (b2n y)) as [E|L|L].
    + apply b2n_inj in E as ->. rewrite IH. split; (intros [|H]; [by left|right]).
      * by apply prefix_cons.
      * by apply prefix_cons_inv_2 in H.
    + tauto.
    + split; [done|]. intros [|H]; [done|]. apply prefix_cons_inv_1 in H as ->. lia.
Qed.

(** The encoding ends in a marker below [0xff], so the bump cannot carry. *)
Lemma encode_groups_last v : exists q m, encode_groups v = q ++ [m] /\ (b2n m < 255)%N.
Proof.
  induction v as [v IH] using (induction_ltof1 _ length). unfold ltof in IH.
  rewrite encode_groups_eq. case_decide as C.
  - destruct (IH (drop 8 v)) as (q & m & -> & Hm); [rewrite length_drop; lia|].
    exists (final_group (take 8 v) ++ q), m. by rewrite app_assoc.
  - rewrite app_nil_r. unfold final_group. rewrite app_assoc. eexists _, _. split; [done|].
    rewrite final_group_marker; rewrite length_take; lia.
Qed.

Lemma version_range_prefix k x :
  bytes_cmp x (snd (version_range k)) = Lt <-> bytes_cmp x (key_prefix k) = Lt \/ key_prefix k `prefix_of` x.
Proof.
  cbn [version_range snd]. destruct (encode_groups_last k) as (q & m & E & Hm).
  unfold key_prefix, key_lock, encode_bytes. rewrite E, app_assoc, bump_last_snoc. by apply below_bumped.
Qed.

Lemma below_prefix_not_above x p s : bytes_cmp x p = Lt -> bytes_cmp x (p ++ s) = Lt.
Proof.
  revert p. induction x as [|a x IH]; intros [|b p]; cbn [app bytes_cmp]; try done.
  destruct (N.compare (b2n a) (b2n b)); auto.
Qed.

(** A seek from [(k, ts)] to the end of [k]'s range meets exactly [k]'s
    versions at or below [ts]. *)
Lemma seek_range_exact k ts b t : (ts < two64)%N -> (t < two64)%N ->
  bytes_leb (versioned k ts) (versioned b t) = true /\ bytes_ltb (versioned b t) (snd (version_range k)) = true
  <-> b = k /\ (t <= ts)%N.
Proof.
  intros Hts Ht. unfold bytes_leb, bytes_ltb. rewrite versioned_cmp by done. split.
  - intros [H1 H2]. destruct (bytes_cmp (versioned b t) _) eqn:E; try done.
    apply version_range_prefix in E as [E|[s E]].
    + apply (below_prefix_not_above _ _ (enc_ts ts)) in E. fold (versioned k ts) in E.
      rewrite bytes_cmp_antisym, versioned_cmp in E by done.
      destruct (bytes_cmp k b); [destruct (N.compare t ts)| |]; done.
    + assert (bytes_cmp k b = Eq) as K.
      { pose proof (key_prefix_cmp k b s (enc_ts t)) as C. fold (versioned b t) in C.
        rewrite E, bytes_cmp_refl in C. destruct (bytes_cmp k b); done. }
      rewrite K in H1. apply bytes_cmp_eq in K as ->. split; [done|].
      destruct (N.compare_spec t ts); [lia..|done].
  - intros [-> Hle]. rewrite bytes_cmp_refl. split.
    + destruct (N.compare_spec t ts); [done..|lia].
    + by rewrite (proj2 (version_range_prefix k _)) by (right; by exists (enc_ts t)).
Qed.

(** The versions of one key form one contiguous run, newest
    first.  Among all versioned keys, the half-open range
    [version_range user_key] holds exactly that user key's versions, starting
    the seek at [ts] cuts it to those at or below [ts], and within the run a
    larger timestamp sorts first. *)
Theorem version_run k ts b t : (ts < two64)%N -> (t < two64)%N ->
  (bytes_leb (key_seek_write k ts) (key_write b t) = true /\
   bytes_ltb (key_write b t) (snd (version_range k)) = true <-> b = k /\ (t <= ts)%N) /\
  (bytes_leb (fst (version_range k)) (key_write b t) = true /\
   bytes_ltb (key_write b t) (snd (version_range k)) = true <-> b = k) /\
  bytes_cmp (key_write k t) (key_write k ts) = N.compare ts t.
Proof.
  intros Hts Ht. split; [by apply seek_range_exact|split].
  - cbn [version_range fst]. unfold key_write. rewrite (seek_range_exact k u64_max) by done.
    unfold two64, u64_max in *. intuition lia.
  - unfold key_write. rewrite versioned_cmp by done. by rewrite bytes_cmp_refl.
Qed.

Lemma version_run_witness :
  bytes_cmp (key_write [Byte.x61] 5) (key_write [Byte.x61] 3) = N.compare 3 5 /\
  (bytes_leb (key_seek_write [Byte.x61] 3) (key_write [Byte.x61; Byte.x62] 5) = true /\
   bytes_ltb (key_write [Byte.x61; Byte.x62] 5) (snd (version_range [Byte.x61])) = true
   <-> [Byte.x61; Byte.x62] = [Byte.x61] /\ (5 <= 3)%N).
Proof.
  split; [apply (version_run [Byte.x61] 3 [Byte.x61] 5) | apply (version_run [Byte.x61] 3 [Byte.x61; Byte.x62] 5)];
    reflexivity.
Defined.
