(* ===== verification/BTree.v ===== *)
(** The standard library's [BTreeMap] with byte-string keys, as the sources
    use it: an association list kept in strictly increasing key order, with
    [get], [insert], [remove] and the half-open [range]. *)

From Stdlib Require Import Strings.Byte.
From stdpp Require Import prelude.
From Stdlib Require Import NArith Lia.
From S2P Require Import Prelude.

Section BTree.
  Context {A : Type}.

Definition btree : Type := list (bytes * A).

Fixpoint bt_get (k : bytes) (m : btree) : option A :=
  match m with
  | [] => None
  | (k', v) :: m' => match bytes_cmp k k' with Lt => None | Eq => Some v | Gt => bt_get k m' end
  end.

Fixpoint bt_insert (k : bytes) (v : A) (m : btree) : btree :=
  match m with
  | [] => [(k, v)]
  | (k', v') :: m' =>
      match bytes_cmp k k' with
      | Lt => (k, v) :: (k', v') :: m'
      | Eq => (k, v) :: m'
      | Gt => (k', v') :: bt_insert k v m'
      end
  end.

Fixpoint bt_remove (k : bytes) (m : btree) : btree :=
  match m with
  | [] => []
  | (k', v') :: m' =>
      match bytes_cmp k k' with
      | Lt => (k', v') :: m'
      | Eq => m'
      | Gt => (k', v') :: bt_remove k m'
      end
  end.

(** [range(start..end)]: the entries with [start <= key < end], in order. *)
Definition bt_range (start stop : bytes) (m : btree) : btree :=
  List.filter (fun e => bytes_leb start e.1 && bytes_ltb e.1 stop) m.

(** Every key of the tail is above the head's. *)
Fixpoint bt_sorted (m : btree) : Prop :=
  match m with
  | [] => True
  | (k, _) :: m' => (forall e, e ∈ m' -> bytes_cmp k e.1 = Lt) /\ bt_sorted m'
  end.

Lemma bt_get_elem k v m : bt_sorted m -> bt_get k m = Some v <-> (k, v) ∈ m.
Proof.
  induction m as [|[k' v'] m IH]; cbn [bt_get bt_sorted]; [by rewrite elem_of_nil|].
  intros [Hk Hs]. specialize (IH Hs). rewrite elem_of_cons. destruct (bytes_cmp k k') eqn:E.
  - apply bytes_cmp_eq in E as ->. split; [by intros [= ->]; left|].
    intros [[= ->]|H]; [done|]. apply Hk in H. cbn in H. by rewrite bytes_cmp_refl in H.
  - split; [done|]. intros [[= -> _]|H]; [by rewrite bytes_cmp_refl in E|].
    apply Hk in H. cbn in H. rewrite bytes_cmp_antisym, E in H. done.
  - rewrite IH. split; [by right|]. intros [[= -> _]|H]; [by rewrite bytes_cmp_refl in E|done].
Qed.

Lemma bt_insert_elem k v m e : bt_sorted m ->
  e ∈ bt_insert k v m <-> e = (k, v) \/ (e.1 <> k /\ e ∈ m).
Proof.
  induction m as [|[k' v'] m IH]; cbn [bt_insert bt_sorted].
  - rewrite list_elem_of_singleton, elem_of_nil. tauto.
  - intros [Hk Hs]. specialize (IH Hs). destruct (bytes_cmp k k') eqn:E; rewrite !elem_of_cons.
    + apply bytes_cmp_eq in E as <-. split.
      * intros [->|H]; [by left|right]. split; [|by right]. intros Ek. apply Hk in H. cbn in H.
        by rewrite Ek, bytes_cmp_refl in H.
      * intros [->|[Hne [->|H]]]; [by left|done|by right].
    + split; [|tauto]. intros [->|[->|H]]; [by left| |]; right.
      * split; [|by left]. cbn. intros ->. by rewrite bytes_cmp_refl in E.
      * split; [|by right]. intros Ek. apply Hk in H. rewrite Ek, bytes_cmp_antisym, E in H. done.
    + rewrite IH. split; [|tauto]. intros [->|[->|[Hne H]]]; [right|by left|right; tauto].
      split; [|by left]. cbn. intros ->. by rewrite bytes_cmp_refl in E.
Qed.

Lemma bt_insert_sorted k v m : bt_sorted m -> bt_sorted (bt_insert k v m).
Proof.
  induction m as [|[k' v'] m IH]; cbn [bt_insert bt_sorted].
  - intros _. split; [|done]. intros e. by rewrite elem_of_nil.
  - intros [Hk Hs]. destruct (bytes_cmp k k') eqn:E; cbn [bt_sorted].
    + apply bytes_cmp_eq in E as ->. done.
    + split; [|done]. intros e [->|H]%elem_of_cons; [done|]. eapply bytes_cmp_lt_trans; [done|]. by apply Hk.
    + split; [|by apply IH]. intros e He. apply bt_insert_elem in He as [->|[_ He]]; [|by apply Hk|done].
      cbn. by rewrite bytes_cmp_antisym, E.
Qed.

Lemma bt_remove_elem k m e : bt_sorted m -> e ∈ bt_remove k m <-> e.1 <> k /\ e ∈ m.
Proof.
  induction m as [|[k' v'] m IH]; cbn [bt_remove bt_sorted]; [rewrite elem_of_nil; tauto|].
  intros [Hk Hs]. specialize (IH Hs). destruct (bytes_cmp k k') eqn:E; rewrite ?elem_of_cons.
  - apply bytes_cmp_eq in E as <-. split.
    + intros H. split; [|by right]. intros Ek. apply Hk in H. by rewrite Ek, bytes_cmp_refl in H.
    + intros [Hne [->|H]]; done.
  - split; [|tauto]. intros [->|H]; (split; [|tauto]); intros Ek.
    + cbn in Ek. by rewrite Ek, bytes_cmp_refl in E.
    + apply Hk in H. rewrite Ek, bytes_cmp_antisym, E in H. done.
  - rewrite IH. split; [|tauto]. intros [->|[Hne H]]; [|tauto]. split; [|by left].
    cbn. intros ->. by rewrite bytes_cmp_refl in E.
Qed.

Lemma bt_remove_sorted k m : bt_sorted m -> bt_sorted (bt_remove k m).
Proof.
  induction m as [|[k' v'] m IH]; cbn [bt_remove bt_sorted]; [done|].
  intros [Hk Hs]. destruct (bytes_cmp k k') eqn:E; cbn [bt_sorted]; [done..|].
  split; [|by apply IH]. intros e He. apply bt_remove_elem in He as [_ He]; [|done]. by apply Hk.
Qed.

Lemma bt_range_elem start stop m e :
  e ∈ bt_range start stop m <-> e ∈ m /\ bytes_leb start e.1 = true /\ bytes_ltb e.1 stop = true.
Proof.
  unfold bt_range. rewrite !list_elem_of_In, List.filter_In, andb_true_iff. done.
Qed.

Lemma bt_range_sorted start stop m : bt_sorted m -> bt_sorted (bt_range start stop m).
Proof.
  induction m as [|[k v] m IH]; cbn [bt_range List.filter bt_sorted]; [done|].
  intros [Hk Hs]. destruct (_ && _); cbn [bt_sorted]; [|by apply IH].
  split; [|by apply IH]. intros e [He _]%bt_range_elem. by apply Hk.
Qed.

Lemma bt_get_insert k v m k' : bt_sorted m ->
  bt_get k' (bt_insert k v m) = if decide (k' = k) then Some v else bt_get k' m.
Proof.
  intros Hs. pose proof (bt_insert_sorted k v m Hs) as Hs'.
  assert (forall w, bt_get k' (bt_insert k v m) = Some w <->
    (if decide (k' = k) then Some v else bt_get k' m) = Some w) as E.
  { intros w. rewrite bt_get_elem, bt_insert_elem by done. case_decide as C; cbn.
    - subst. split; [intros [[= ->]|[? _]]; done|]. intros [= ->]. by left.
    - rewrite bt_get_elem by done. split; [intros [[= -> _]|[_ ?]]; done|]. by right. }
  destruct (bt_get k' _) as [w|]; [by symmetry; apply E|].
  destruct (if decide (k' = k) then Some v else bt_get k' m) as [w|]; [by apply E|done].
Qed.

Lemma bt_get_remove k m k' : bt_sorted m ->
  bt_get k' (bt_remove k m) = if decide (k' = k) then None else bt_get k' m.
Proof.
  intros Hs. pose proof (bt_remove_sorted k m Hs) as Hs'.
  assert (forall w, bt_get k' (bt_remove k m) = Some w <->
    (if decide (k' = k) then None else bt_get k' m) = Some w) as E.
  { intros w. rewrite bt_get_elem, bt_remove_elem by done. case_decide as C; cbn; [naive_solver|].
    rewrite bt_get_elem by done. naive_solver. }
  destruct (bt_get k' _) as [w|]; [by symmetry; apply E|].
  destruct (if decide (k' = k) then None else bt_get k' m) as [w|]; [by apply E|done].
Qed.

(** A map is its lookups. *)
Lemma bt_ext m m' : bt_sorted m -> bt_sorted m' -> (forall k, bt_get k m = bt_get k m') -> m = m'.
Proof.
  revert m'. induction m as [|[k v] m IH]; intros [|[k' v'] m'] Hs Hs' E; [done| | |].
  1, 2: specialize (E ltac:(assumption)); cbn in E; by rewrite bytes_cmp_refl in E.
  assert (k = k') as <-.
  { destruct (bytes_cmp k k') eqn:C; [by apply bytes_cmp_eq in C|..].
    - specialize (E k). cbn in E. by rewrite bytes_cmp_refl, C in E.
    - specialize (E k'). cbn in E. rewrite bytes_cmp_antisym in C. destruct (bytes_cmp k' k) eqn:C'; try done.
      by rewrite bytes_cmp_refl in E. }
  assert (v = v') as <- by (specialize (E k); cbn in E; rewrite bytes_cmp_refl in E; congruence).
  f_equal. apply IH; [apply Hs|apply Hs'|]. intros j.
  destruct (bytes_cmp j k) eqn:C; [| |specialize (E j); cbn in E; by rewrite C in E].
  all: assert (forall n, bt_sorted ((k, v) :: n) -> bt_get j n = None) as Hn; [|by rewrite !Hn].
  all: intros n Hn; destruct (bt_get j n) as [w|] eqn:G; [|done]; apply bt_get_elem in G; [|apply Hn].
  all: destruct Hn as [Hn _]; specialize (Hn _ G); cbn in Hn; rewrite bytes_cmp_antisym, C in Hn; done.
Qed.

End BTree.

Arguments btree A : clear implicits.
#[export] Hint Resolve bt_insert_sorted bt_remove_sorted bt_range_sorted : esker.
