(* ===== verification/TxnStore.v ===== *)
(** What the transaction rules read and write: the mutation lists of
    [esker-txn/src/mutation.rs], the [TxnSnapshot] trait of
    [esker-txn/src/snapshot.rs] and its [MemoryStore] implementation, three
    [BTreeMap]s keyed by encoded engine keys. *)

From Stdlib Require Import Strings.Byte.
From stdpp Require Import prelude.
From Stdlib Require Import NArith ZArith Lia.
From S2P Require Import Prelude BTree KeyCodec KeyPrefix TxnCodec TxnKey.

Inductive Cf : Type := CfLock | CfWrite | CfDefault.

Inductive Mutation : Type :=
  | MPut (cf : Cf) (key value : bytes)
  | MDelete (cf : Cf) (key : bytes).

Definition Mutation_cf (m : Mutation) : Cf := match m with MPut cf _ _ => cf | MDelete cf _ => cf end.
Definition Mutation_key (m : Mutation) : bytes := match m with MPut _ key _ => key | MDelete _ key => key end.

Definition Mutations : Type := list Mutation.

Definition Mutations_new : Mutations := [].
Definition Mutations_is_empty (ms : Mutations) : bool := match ms with [] => true | _ => false end.
Definition Mutations_extend (ms other : Mutations) : Mutations := ms ++ other.
Definition Mutations_put (ms : Mutations) (cf : Cf) (key value : bytes) : Mutations := ms ++ [MPut cf key value].
Definition Mutations_delete (ms : Mutations) (cf : Cf) (key : bytes) : Mutations := ms ++ [MDelete cf key].
Definition put_lock (ms : Mutations) (user_key : bytes) (record : LockRecord) : Mutations :=
  Mutations_put ms CfLock (key_lock user_key) (LockRecord_encode record).
Definition put_lock_record (ms : Mutations) (user_key : bytes) (record : LockRecord) : Mutations :=
  put_lock ms user_key record.
Definition delete_lock (ms : Mutations) (user_key : bytes) : Mutations :=
  Mutations_delete ms CfLock (key_lock user_key).
Definition put_write (ms : Mutations) (user_key : bytes) (commit_ts : N) (record : WriteRecord) : Mutations :=
  Mutations_put ms CfWrite (key_write user_key commit_ts) (WriteRecord_encode record).
Definition put_value (ms : Mutations) (user_key : bytes) (start_ts : N) (value : bytes) : Mutations :=
  Mutations_put ms CfDefault (key_value user_key start_ts) value.
Definition delete_value (ms : Mutations) (user_key : bytes) (start_ts : N) : Mutations :=
  Mutations_delete ms CfDefault (key_value user_key start_ts).

Record Version : Type := mkVersion { commit_ts : N; record : WriteRecord }.

(** The trait. *)
Class TxnSnapshot (S : Type) : Type := {
  get_lock : S -> bytes -> result TxnError (option LockRecord);
  seek_write : S -> bytes -> N -> result TxnError (option Version);
  newest_write_after : S -> bytes -> N -> result TxnError (option Version);
  newest_write_in_range : S -> bytes -> bytes -> N -> result TxnError (option Version);
  foreign_lock_in_range : S -> bytes -> bytes -> N -> result TxnError (option (bytes * LockRecord));
  write_of_txn : S -> bytes -> N -> result TxnError (option Version);
  get_value : S -> bytes -> N -> result TxnError (option bytes)
}.

(** The trait's provided method, for a snapshot without range access. *)
Definition default_newest_write_in_range {S} (_ : S) (start stop : bytes) (ts : N) : result TxnError (option Version) :=
  Ok None.

Record MemoryStore : Type := mkMemoryStore {
  ms_lock : btree bytes;
  ms_write : btree bytes;
  ms_default : btree bytes
}.

Definition MemoryStore_new : MemoryStore := mkMemoryStore [] [] [].

Definition MemoryStore_cf (s : MemoryStore) (cf : Cf) : btree bytes :=
  match cf with CfLock => ms_lock s | CfWrite => ms_write s | CfDefault => ms_default s end.

(** [cf_mut]: the store with one family replaced. *)
Definition set_cf (s : MemoryStore) (cf : Cf) (m : btree bytes) : MemoryStore :=
  match cf with
  | CfLock => mkMemoryStore m (ms_write s) (ms_default s)
  | CfWrite => mkMemoryStore (ms_lock s) m (ms_default s)
  | CfDefault => mkMemoryStore (ms_lock s) (ms_write s) m
  end.

Definition apply_mutation (s : MemoryStore) (m : Mutation) : MemoryStore :=
  match m with
  | MPut cf key value => set_cf s cf (bt_insert key value (MemoryStore_cf s cf))
  | MDelete cf key => set_cf s cf (bt_remove key (MemoryStore_cf s cf))
  end.

Definition MemoryStore_apply (s : MemoryStore) (mutations : Mutations) : MemoryStore :=
  foldl apply_mutation s mutations.

(** One [write] entry as a version. *)
Definition version_of (entry : bytes * bytes) : result TxnError Version :=
  let? (_, commit_ts) := key_split entry.1 in
  let? record := WriteRecord_decode entry.2 in
  Ok (mkVersion commit_ts record).

Definition versions (s : MemoryStore) (user_key : bytes) : list (result TxnError Version) :=
  let '(start, stop) := version_range user_key in
  version_of <$> bt_range start stop (ms_write s).

(** [map(decode).transpose()]. *)
Definition MemoryStore_get_lock (s : MemoryStore) (user_key : bytes) : result TxnError (option LockRecord) :=
  match bt_get (key_lock user_key) (ms_lock s) with
  | None => Ok None
  | Some bs => rmap Some (LockRecord_decode bs)
  end.

Fixpoint foreign_lock_loop (entries : btree bytes) (mine : N) : result TxnError (option (bytes * LockRecord)) :=
  match entries with
  | [] => Ok None
  | (key, value) :: entries' =>
      let? record := LockRecord_decode value in
      if decide (lock_start_ts record <> mine)
      then let? user_key := split_lock key in Ok (Some (user_key, record))
      else foreign_lock_loop entries' mine
  end.

Definition MemoryStore_foreign_lock_in_range (s : MemoryStore) (start stop : bytes) (mine : N)
    : result TxnError (option (bytes * LockRecord)) :=
  if bytes_leb stop start then Ok None
  else foreign_lock_loop (bt_range (key_lock start) (key_lock stop) (ms_lock s)) mine.

Definition MemoryStore_seek_write (s : MemoryStore) (user_key : bytes) (ts : N) : result TxnError (option Version) :=
  let '(_, stop) := version_range user_key in
  let start := key_seek_write user_key ts in
  match bt_range start stop (ms_write s) with
  | [] => Ok None
  | entry :: _ => rmap Some (version_of entry)
  end.

Fixpoint newest_write_after_loop (vs : list (result TxnError Version)) (ts : N) : result TxnError (option Version) :=
  match vs with
  | [] => Ok None
  | v :: vs' =>
      let? version := v in
      if (commit_ts version <=? ts)%N then Ok None else
      match write_kind (record version) with
      | KRollback | KLock => newest_write_after_loop vs' ts
      | _ => Ok (Some version)
      end
  end.

Definition MemoryStore_newest_write_after (s : MemoryStore) (user_key : bytes) (ts : N) : result TxnError (option Version) :=
  newest_write_after_loop (versions s user_key) ts.

Fixpoint write_of_txn_loop (vs : list (result TxnError Version)) (start_ts : N) : result TxnError (option Version) :=
  match vs with
  | [] => Ok None
  | v :: vs' =>
      let? version := v in
      if (commit_ts version <? start_ts)%N then Ok None else
      if decide (write_start_ts (record version) = start_ts) then Ok (Some version)
      else write_of_txn_loop vs' start_ts
  end.

Definition MemoryStore_write_of_txn (s : MemoryStore) (user_key : bytes) (start_ts : N) : result TxnError (option Version) :=
  write_of_txn_loop (versions s user_key) start_ts.

Definition MemoryStore_get_value (s : MemoryStore) (user_key : bytes) (start_ts : N) : result TxnError (option bytes) :=
  Ok (bt_get (key_value user_key start_ts) (ms_default s)).

#[export] Instance MemoryStore_snapshot : TxnSnapshot MemoryStore := {|
  get_lock := MemoryStore_get_lock;
  seek_write := MemoryStore_seek_write;
  newest_write_after := MemoryStore_newest_write_after;
  newest_write_in_range := default_newest_write_in_range;
  foreign_lock_in_range := MemoryStore_foreign_lock_in_range;
  write_of_txn := MemoryStore_write_of_txn;
  get_value := MemoryStore_get_value
|}.
