(* ===== verification/Mvcc.v ===== *)
(** The abstract multi-version store and the interface the protocol is
    verified against.

    [mvcc] is what the three column families mean: a lock per user key, a
    write record per user key and commit timestamp, a value per user key and
    start timestamp.  [TxnStoreLaws] says what a store promises about the
    answers of its [TxnSnapshot] and about applying a mutation list;
    [MemoryStore_laws] discharges it for the byte-level [MemoryStore]. *)

From Stdlib Require Import Strings.Byte.
From stdpp Require Import prelude.
From Stdlib Require Import NArith ZArith Lia.
From S2P Require Import Prelude BTree KeyCodec KeyPrefix TxnCodec TxnKey TxnStore.

Record mvcc : Type := mkMvcc {
  mv_lock : bytes -> option LockRecord;
  mv_write : bytes -> N -> option WriteRecord;
  mv_value : bytes -> N -> option bytes
}.

(** Two views agree when they answer every question alike. *)
#[export] Instance mvcc_equiv : Equiv mvcc := fun m n =>
  (forall k, mv_lock m k = mv_lock n k) /\ (forall k t, mv_write m k t = mv_write n k t) /\
  (forall k t, mv_value m k t = mv_value n k t).

#[export] Instance mvcc_equivalence : Equivalence (≡@{mvcc}).
Proof.
  split.
  - by intros m.
  - intros m n (H1 & H2 & H3). by repeat split; intros; symmetry.
  - intros m n p (H1 & H2 & H3) (G1 & G2 & G3).
    repeat split; intros; [by rewrite H1 | by rewrite H2 | by rewrite H3].
Qed.

(** One entry of a batch, in terms of the records it writes. *)
Inductive mutation_spec : Type :=
  | SPutLock (k : bytes) (l : LockRecord)
  | SDelLock (k : bytes)
  | SPutWrite (k : bytes) (t : N) (r : WriteRecord)
  | SPutValue (k : bytes) (t : N) (v : bytes)
  | SDelValue (k : bytes) (t : N).

Definition spec_mutation (a : mutation_spec) : Mutation :=
  match a with
  | SPutLock k l => MPut CfLock (key_lock k) (LockRecord_encode l)
  | SDelLock k => MDelete CfLock (key_lock k)
  | SPutWrite k t r => MPut CfWrite (key_write k t) (WriteRecord_encode r)
  | SPutValue k t v => MPut CfDefault (key_value k t) v
  | SDelValue k t => MDelete CfDefault (key_value k t)
  end.

Definition spec_ok (a : mutation_spec) : Prop :=
  match a with
  | SPutLock _ l => lock_record_ok l
  | SDelLock _ => True
  | SPutWrite _ t r => (t < two64)%N /\ write_record_ok r
  | SPutValue _ t _ => (t < two64)%N
  | SDelValue _ t => (t < two64)%N
  end.

Definition upd_lock (m : mvcc) (k : bytes) (o : option LockRecord) : mvcc :=
  mkMvcc (fun k' => if decide (k' = k) then o else mv_lock m k') (mv_write m) (mv_value m).
Definition upd_write (m : mvcc) (k : bytes) (t : N) (o : option WriteRecord) : mvcc :=
  mkMvcc (mv_lock m) (fun k' t' => if decide (k' = k /\ t' = t) then o else mv_write m k' t') (mv_value m).
Definition upd_value (m : mvcc) (k : bytes) (t : N) (o : option bytes) : mvcc :=
  mkMvcc (mv_lock m) (mv_write m) (fun k' t' => if decide (k' = k /\ t' = t) then o else mv_value m k' t').

Definition spec_apply (m : mvcc) (a : mutation_spec) : mvcc :=
  match a with
  | SPutLock k l => upd_lock m k (Some l)
  | SDelLock k => upd_lock m k None
  | SPutWrite k t r => upd_write m k t (Some r)
  | SPutValue k t v => upd_value m k t (Some v)
  | SDelValue k t => upd_value m k t None
  end.

#[export] Instance spec_apply_proper : Proper ((≡) ==> (=) ==> (≡)) spec_apply.
Proof.
  intros m n (H1 & H2 & H3) a ? <-.
  destruct a; repeat split; intros; cbn; rewrite ?H1, ?H2, ?H3; try done; by case_decide.
Qed.

#[export] Instance spec_fold_proper : Proper ((≡) ==> (=) ==> (≡)) (foldl spec_apply).
Proof.
  intros m n H l ? <-. revert m n H. induction l as [|a l IH]; intros m n H; [done|].
  cbn [foldl]. apply IH. by rewrite H.
Qed.

(** ** What each question answers *)

(** A record that wrote a version: neither a rollback marker nor a lock. *)
Definition moved_the_key (r : WriteRecord) : Prop :=
  write_kind r <> KRollback /\ write_kind r <> KLock.

(** [o] is the record at [k] with the largest commit timestamp satisfying [P]. *)
Definition newest (m : mvcc) (k : bytes) (P : N -> WriteRecord -> Prop) (o : option Version) : Prop :=
  match o with
  | Some v =>
      mv_write m k (commit_ts v) = Some (record v) /\ P (commit_ts v) (record v) /\
      (forall t r, mv_write m k t = Some r -> P t r -> (t <= commit_ts v)%N)
  | None => forall t r, mv_write m k t = Some r -> ~ P t r
  end.

Lemma newest_unique m k P o o' : newest m k P o -> newest m k P o' -> o = o'.
Proof.
  destruct o as [[c r]|], o' as [[c' r']|]; cbn; [| | |done].
  - intros (W1 & P1 & M1) (W2 & P2 & M2).
    assert (c = c') as -> by (apply N.le_antisymm; [by eapply M2|by eapply M1]). congruence.
  - intros (W1 & P1 & _) M2. by apply M2 in W1.
  - intros M1 (W2 & P2 & _). by apply M1 in W2.
Qed.

(** [o] is the first lock of [[start, stop)] held by somebody else. *)
Definition first_foreign (m : mvcc) (start stop : bytes) (mine : N) (o : option (bytes * LockRecord)) : Prop :=
  let inside k := bytes_leb start k = true /\ bytes_ltb k stop = true in
  match o with
  | Some (k, l) =>
      inside k /\ mv_lock m k = Some l /\ lock_start_ts l <> mine /\
      (forall k' l', inside k' -> mv_lock m k' = Some l' -> lock_start_ts l' <> mine -> bytes_leb k k' = true)
  | None => forall k' l', inside k' -> mv_lock m k' = Some l' -> lock_start_ts l' = mine
  end.

Class TxnStore (S : Type) : Type := {
  store_snapshot :: TxnSnapshot S;
  store_apply : S -> Mutations -> S
}.

Class TxnStoreLaws (S : Type) `{TxnStore S} : Type := {
  store_ok : S -> Prop;
  view : S -> mvcc;
  view_timestamps s k t r : store_ok s -> mv_write (view s) k t = Some r -> (t < two64)%N;
  view_lock_records s k l : store_ok s -> mv_lock (view s) k = Some l -> lock_record_ok l;
  view_write_records s k t r : store_ok s -> mv_write (view s) k t = Some r -> write_record_ok r;
  get_lock_law s k : store_ok s -> get_lock s k = Ok (mv_lock (view s) k);
  seek_write_law s k ts : store_ok s -> (ts < two64)%N ->
    exists o, seek_write s k ts = Ok o /\ newest (view s) k (fun t _ => t <= ts)%N o;
  newest_write_after_law s k ts : store_ok s ->
    exists o, newest_write_after s k ts = Ok o /\
      newest (view s) k (fun t r => (ts < t)%N /\ moved_the_key r) o;
  foreign_lock_law s start stop mine : store_ok s ->
    exists o, foreign_lock_in_range s start stop mine = Ok o /\ first_foreign (view s) start stop mine o;
  write_of_txn_law s k start_ts : store_ok s ->
    exists o, write_of_txn s k start_ts = Ok o /\
      newest (view s) k (fun t r => (start_ts <= t)%N /\ write_start_ts r = start_ts) o;
  get_value_law s k ts : store_ok s -> (ts < two64)%N -> get_value s k ts = Ok (mv_value (view s) k ts);
  apply_law s l : store_ok s -> Forall spec_ok l ->
    store_ok (store_apply s (spec_mutation <$> l)) /\
    view (store_apply s (spec_mutation <$> l)) ≡ foldl spec_apply (view s) l
}.

(** ** [MemoryStore] implements it *)

#[export] Instance MemoryStore_store : TxnStore MemoryStore := {|
  store_snapshot := MemoryStore_snapshot; store_apply := MemoryStore_apply |}.

Record memory_ok (s : MemoryStore) : Prop := {
  lock_sorted : bt_sorted (ms_lock s);
  write_sorted : bt_sorted (ms_write s);
  default_sorted : bt_sorted (ms_default s);
  lock_entries : forall e, e ∈ ms_lock s -> exists k l, lock_record_ok l /\ e = (key_lock k, LockRecord_encode l);
  write_entries : forall e, e ∈ ms_write s ->
    exists k t r, (t < two64)%N /\ write_record_ok r /\ e = (versioned k t, WriteRecord_encode r)
}.

Definition memory_view (s : MemoryStore) : mvcc := mkMvcc
  (fun k => match bt_get (key_lock k) (ms_lock s) with
            | Some bs => match LockRecord_decode bs with Ok l => Some l | Err _ => None end
            | None => None end)
  (fun k t => if (t <? two64)%N then
            match bt_get (versioned k t) (ms_write s) with
            | Some bs => match WriteRecord_decode bs with Ok r => Some r | Err _ => None end
            | None => None end else None)
  (fun k t => if (t <? two64)%N then bt_get (versioned k t) (ms_default s) else None).

Lemma memory_lock_elem s k l : memory_ok s ->
  mv_lock (memory_view s) k = Some l <-> lock_record_ok l /\ (key_lock k, LockRecord_encode l) ∈ ms_lock s.
Proof.
  intros Hs. cbn. split.
  - destruct (bt_get _ _) as [bs|] eqn:E; [|done]. apply bt_get_elem in E; [|apply Hs].
    destruct (LockRecord_decode bs) as [l'|] eqn:D; [|done]. intros [= ->].
    by apply LockRecord_decode_inv in D as [? ->].
  - intros [Hl E]. apply bt_get_elem in E as ->; [|apply Hs]. by rewrite LockRecord_decode_encode.
Qed.

Lemma memory_write_elem s k t r : memory_ok s ->
  mv_write (memory_view s) k t = Some r <->
  (t < two64)%N /\ write_record_ok r /\ (versioned k t, WriteRecord_encode r) ∈ ms_write s.
Proof.
  intros Hs. cbn. destruct (N.ltb_spec t two64) as [Ht|Ht]; [|split; [done|intros [? _]; lia]]. split.
  - destruct (bt_get _ _) as [bs|] eqn:E; [|done]. apply bt_get_elem in E; [|apply Hs].
    destruct (WriteRecord_decode bs) as [r'|] eqn:D; [|done]. intros [= ->].
    by apply WriteRecord_decode_inv in D as [? ->].
  - intros (_ & Hr & E). apply bt_get_elem in E as ->; [|apply Hs]. by rewrite WriteRecord_decode_encode.
Qed.

Lemma memory_get_lock s k : memory_ok s -> MemoryStore_get_lock s k = Ok (mv_lock (memory_view s) k).
Proof.
  intros Hs. unfold MemoryStore_get_lock. cbn. destruct (bt_get _ _) as [bs|] eqn:E; [|done].
  apply bt_get_elem in E; [|apply Hs]. apply (lock_entries _ Hs) in E as (k' & l & Hl & [= _ ->]).
  by rewrite LockRecord_decode_encode.
Qed.

(** Versions in the order the range walks them: newest first. *)
Fixpoint descending (vs : list Version) : Prop :=
  match vs with
  | [] => True
  | v :: vs' => (forall w, w ∈ vs' -> (commit_ts w < commit_ts v)%N) /\ descending vs'
  end.

Lemma version_of_entry k t r : (t < two64)%N -> write_record_ok r ->
  version_of (versioned k t, WriteRecord_encode r) = Ok (mkVersion t r).
Proof.
  intros Ht Hr. unfold version_of. cbn [fst snd]. rewrite key_split_versioned by done. cbn [rbind].
  by rewrite WriteRecord_decode_encode.
Qed.

Definition version_entry (k : bytes) (v : Version) : bytes * bytes :=
  (versioned k (commit_ts v), WriteRecord_encode (record v)).
Definition version_ok (v : Version) : Prop := (commit_ts v < two64)%N /\ write_record_ok (record v).

(** A sorted run of one key's entries is a descending list of versions. *)
Lemma run_versions k (L : btree bytes) : bt_sorted L ->
  (forall e, e ∈ L -> exists v, version_ok v /\ e = version_entry k v) ->
  exists vs, L = version_entry k <$> vs /\ Forall version_ok vs /\ descending vs.
Proof.
  induction L as [|[key val] L IH]; cbn [bt_sorted]; [by exists []|].
  intros [Hk Hs] He. destruct IH as (vs & -> & Hok & Hd); [done|intros; apply He; by right|].
  destruct (He (key, val)) as (v & Hv & Ev); [by left|].
  exists (v :: vs). cbn. rewrite Ev. split; [done|split; [by constructor|split; [|done]]].
  intros w Hw. assert (version_ok w) as [Hw1 _] by by eapply Forall_forall.
  injection Ev as -> ->. specialize (Hk (version_entry k w) (list_elem_of_fmap_2 _ _ _ Hw)).
  unfold version_entry in Hk. cbn [fst] in Hk.
  rewrite versioned_cmp, bytes_cmp_refl in Hk; [|apply Hv|done].
  by apply N.compare_lt_iff.
Qed.

Lemma version_entry_inj k v w : version_ok v -> version_ok w -> version_entry k v = version_entry k w -> v = w.
Proof.
  intros [Hv1 Hv2] [Hw1 Hw2] [E1 E2]%pair_equal_spec. apply versioned_inj in E1 as [_ E1]; [|done..].
  pose proof (WriteRecord_decode_encode _ Hv2) as D. rewrite E2, WriteRecord_decode_encode in D by done.
  injection D as D. destruct v, w; cbn in *; congruence.
Qed.

(** A seek from [ts] sees the key's versions at or below [ts], newest first. *)
Lemma memory_seek_run s k ts : memory_ok s -> (ts < two64)%N ->
  exists vs, version_of <$> bt_range (versioned k ts) (snd (version_range k)) (ms_write s) = Ok <$> vs /\
    descending vs /\
    (forall v, v ∈ vs <-> mv_write (memory_view s) k (commit_ts v) = Some (record v) /\ (commit_ts v <= ts)%N).
Proof.
  intros Hs Hts.
  destruct (run_versions k (bt_range (versioned k ts) (snd (version_range k)) (ms_write s))) as (vs & E & Hok & Hd).
  - apply bt_range_sorted, Hs.
  - intros e (He & H1 & H2)%bt_range_elem. apply (write_entries _ Hs) in He as (k' & t & r & Ht & Hr & ->).
    destruct (proj1 (seek_range_exact k ts k' t Hts Ht) (conj H1 H2)) as [-> _]. by exists (mkVersion t r).
  - exists vs. rewrite E. split; [|split; [done|]].
    + rewrite <- list_fmap_compose. apply list_fmap_ext. intros i v Hi. cbn.
      apply list_elem_of_lookup_2 in Hi. rewrite Forall_forall in Hok. destruct (Hok v Hi).
      unfold version_entry. rewrite version_of_entry by done. by destruct v.
    + intros v. rewrite memory_write_elem by done. rewrite Forall_forall in Hok. split.
      * intros Hv. destruct (Hok v Hv) as [Hv1 Hv2].
        assert (version_entry k v ∈ bt_range (versioned k ts) (snd (version_range k)) (ms_write s)) as Hin
          by (rewrite E; by apply list_elem_of_fmap_2).
        apply bt_range_elem in Hin as (Hin & H1 & H2).
        destruct (proj1 (seek_range_exact k ts k _ Hts Hv1) (conj H1 H2)) as [_ ?]. done.
      * intros ((Ht & Hr & Hin) & Hle).
        assert (version_entry k v ∈ version_entry k <$> vs) as Hv.
        { rewrite <- E. apply bt_range_elem. split; [done|]. by apply seek_range_exact. }
        apply list_elem_of_fmap in Hv as (w & Ew & Hw). by apply version_entry_inj in Ew as ->; [|split|apply Hok].
Qed.

Lemma memory_versions s k : memory_ok s ->
  exists vs, versions s k = Ok <$> vs /\ descending vs /\
    (forall v, v ∈ vs <-> mv_write (memory_view s) k (commit_ts v) = Some (record v)).
Proof.
  intros Hs. destruct (memory_seek_run s k u64_max Hs) as (vs & E & Hd & H); [done|].
  exists vs. split; [done|split; [done|]]. intros v. rewrite H. split; [tauto|]. intros Hv. split; [done|].
  apply memory_write_elem in Hv as (Ht & _); [|done]. unfold two64, u64_max in *. lia.
Qed.

(** ** The loops find the newest version their condition accepts *)

Definition newest_in (vs : list Version) (P : N -> WriteRecord -> Prop) (o : option Version) : Prop :=
  match o with
  | Some v => v ∈ vs /\ P (commit_ts v) (record v) /\
      (forall w, w ∈ vs -> P (commit_ts w) (record w) -> (commit_ts w <= commit_ts v)%N)
  | None => forall w, w ∈ vs -> ~ P (commit_ts w) (record w)
  end.

Lemma newest_in_view m k (Q P : N -> WriteRecord -> Prop) vs o :
  (forall v, v ∈ vs <-> mv_write m k (commit_ts v) = Some (record v) /\ Q (commit_ts v) (record v)) ->
  (forall t r, P t r -> Q t r) -> newest_in vs P o -> newest m k P o.
Proof.
  intros Hm HQ. destruct o as [v|]; cbn.
  - intros (Hv & HP & Hmax). apply Hm in Hv as [Hv _]. split; [done|split; [done|]].
    intros t r Hw HPw. apply (Hmax (mkVersion t r)); [|done]. apply Hm. cbn. auto.
  - intros Hn t r Hw HP. apply (Hn (mkVersion t r)); [|done]. apply Hm. cbn. auto.
Qed.

Lemma newest_in_head v vs (P : N -> WriteRecord -> Prop) :
  descending (v :: vs) -> P (commit_ts v) (record v) -> newest_in (v :: vs) P (Some v).
Proof.
  intros [Hd _] HP. split; [by left|split; [done|]].
  intros w [->|Hw]%elem_of_cons _; [done|]. apply Hd in Hw. lia.
Qed.

Lemma newest_in_skip v vs (P : N -> WriteRecord -> Prop) o :
  ~ P (commit_ts v) (record v) -> newest_in vs P o -> newest_in (v :: vs) P o.
Proof.
  intros HP. destruct o as [w|]; cbn.
  - intros (Hw & HPw & Hmax). split; [by right|split; [done|]]. intros x [->|Hx]%elem_of_cons; [done|by apply Hmax].
  - intros Hn x [->|Hx]%elem_of_cons; [done|by apply Hn].
Qed.

(** Stopping early is right when the condition needs a commit timestamp the
    rest of a descending list cannot reach. *)
Lemma newest_in_stop v vs (P : N -> WriteRecord -> Prop) :
  descending (v :: vs) -> (forall t r, (t <= commit_ts v)%N -> ~ P t r) -> newest_in (v :: vs) P None.
Proof. intros [Hd _] HP w [->|Hw]%elem_of_cons; apply HP; [done|]. apply Hd in Hw. lia. Qed.

Lemma newest_write_after_loop_newest vs ts : descending vs ->
  exists o, newest_write_after_loop (Ok <$> vs) ts = Ok o /\ newest_in vs (fun t r => (ts < t)%N /\ moved_the_key r) o.
Proof.
  induction vs as [|v vs IH]; [exists None; split; [done|]; intros w Hw; by apply elem_of_nil in Hw|].
  intros Hd. cbn [fmap list_fmap newest_write_after_loop rbind].
  destruct (N.leb_spec (commit_ts v) ts) as [L|L].
  { exists None. split; [done|]. apply newest_in_stop; [done|]. intros t r Ht [? _]. lia. }
  destruct (IH (proj2 Hd)) as (o & E & Ho).
  destruct (write_kind (record v)) eqn:K.
  - exists (Some v). split; [done|]. apply newest_in_head; [done|]. unfold moved_the_key. by rewrite K.
  - exists (Some v). split; [done|]. apply newest_in_head; [done|]. unfold moved_the_key. by rewrite K.
  - exists o. split; [done|]. apply newest_in_skip; [|done]. unfold moved_the_key. rewrite K. tauto.
  - exists o. split; [done|]. apply newest_in_skip; [|done]. unfold moved_the_key. rewrite K. tauto.
Qed.

Lemma write_of_txn_loop_newest vs start_ts : descending vs ->
  exists o, write_of_txn_loop (Ok <$> vs) start_ts = Ok o /\
    newest_in vs (fun t r => (start_ts <= t)%N /\ write_start_ts r = start_ts) o.
Proof.
  induction vs as [|v vs IH]; [exists None; split; [done|]; intros w Hw; by apply elem_of_nil in Hw|].
  intros Hd. cbn [fmap list_fmap write_of_txn_loop rbind].
  destruct (N.ltb_spec (commit_ts v) start_ts) as [L|L].
  { exists None. split; [done|]. apply newest_in_stop; [done|]. intros t r Ht [? _]. lia. }
  destruct (IH (proj2 Hd)) as (o & E & Ho). case_decide as C.
  - exists (Some v). split; [done|]. by apply newest_in_head.
  - exists o. split; [done|]. apply newest_in_skip; [|done]. tauto.
Qed.

(** ** Range locks *)

Lemma foreign_lock_loop_first (L : btree bytes) mine : bt_sorted L ->
  (forall e, e ∈ L -> exists k l, lock_record_ok l /\ e = (key_lock k, LockRecord_encode l)) ->
  exists o, foreign_lock_loop L mine = Ok o /\
    match o with
    | Some (k, l) => (key_lock k, LockRecord_encode l) ∈ L /\ lock_record_ok l /\ lock_start_ts l <> mine /\
        (forall k' l', lock_record_ok l' -> (key_lock k', LockRecord_encode l') ∈ L -> lock_start_ts l' <> mine ->
           bytes_leb k k' = true)
    | None => forall k' l', lock_record_ok l' -> (key_lock k', LockRecord_encode l') ∈ L -> lock_start_ts l' = mine
    end.
Proof.
  induction L as [|[key val] L IH]; cbn [bt_sorted].
  { exists None. split; [done|]. intros k' l' Hl' Hin. by apply elem_of_nil in Hin. }
  intros [Hk Hs] He. destruct (He (key, val)) as (k & l & Hl & [= -> ->]); [by left|].
  cbn [foreign_lock_loop]. rewrite LockRecord_decode_encode by done. cbn [rbind].
  assert (forall k' l', lock_record_ok l' -> (key_lock k', LockRecord_encode l') = (key_lock k, LockRecord_encode l) ->
    k' = k /\ l' = l) as Inj.
  { intros k' l' Hl' [E1 E2]%pair_equal_spec. split; [by apply key_lock_inj|].
    pose proof (LockRecord_decode_encode _ Hl') as D. rewrite E2, LockRecord_decode_encode in D by done. congruence. }
  case_decide as C.
  - rewrite split_lock_key. cbn [rbind]. exists (Some (k, l)). split; [done|]. split; [by left|split; [done|split; [done|]]].
    intros k' l' Hl' [E|Hin]%elem_of_cons _; unfold bytes_leb.
    + apply Inj in E as [-> _]; [|done]. by rewrite bytes_cmp_refl.
    + apply Hk in Hin. cbn [fst] in Hin. rewrite key_lock_cmp in Hin. by rewrite Hin.
  - destruct IH as (o & E & Ho); [done|intros; apply He; by right|]. exists o. split; [done|].
    destruct o as [[k1 l1]|].
    + destruct Ho as (H1 & H2 & H3 & H4). split; [by right|split; [done|split; [done|]]].
      intros k' l' Hl' [E'|Hin]%elem_of_cons Hne; [|by eapply H4].
      apply Inj in E' as [-> ->]; [tauto|done].
    + intros k' l' Hl' [E'|Hin]%elem_of_cons; [|by eapply Ho].
      apply Inj in E' as [-> ->]; [|done]. by destruct (decide (lock_start_ts l = mine)).
Qed.

Lemma memory_foreign_lock s start stop mine : memory_ok s ->
  exists o, MemoryStore_foreign_lock_in_range s start stop mine = Ok o /\
    first_foreign (memory_view s) start stop mine o.
Proof.
  intros Hs. unfold MemoryStore_foreign_lock_in_range. destruct (bytes_leb stop start) eqn:Hse.
  - exists None. split; [done|]. intros k' l' [H1 H2] _. exfalso. revert Hse H1 H2. unfold bytes_leb, bytes_ltb.
    rewrite (bytes_cmp_antisym start stop). destruct (bytes_cmp start stop) eqn:E1; try done; intros _.
    + apply bytes_cmp_eq in E1 as ->. rewrite (bytes_cmp_antisym k' stop). by destruct (bytes_cmp k' stop).
    + rewrite (bytes_cmp_antisym k' start). destruct (bytes_cmp k' start) eqn:E2; try done; intros _.
      * apply bytes_cmp_eq in E2 as ->. by rewrite E1.
      * destruct (bytes_cmp k' stop) eqn:E3; try done. intros _.
        pose proof (bytes_cmp_lt_trans start k' stop) as T. rewrite (bytes_cmp_antisym k' start), E2, E3, E1 in T.
        by specialize (T eq_refl eq_refl).
  - set (L := bt_range (key_lock start) (key_lock stop) (ms_lock s)).
    assert (forall k l, lock_record_ok l -> (key_lock k, LockRecord_encode l) ∈ L <->
      (bytes_leb start k = true /\ bytes_ltb k stop = true) /\ mv_lock (memory_view s) k = Some l) as HL.
    { intros k l Hl. unfold L. rewrite bt_range_elem, memory_lock_elem by done. cbn [fst].
      unfold bytes_leb, bytes_ltb. rewrite !key_lock_cmp. tauto. }
    destruct (foreign_lock_loop_first L mine) as (o & E & Ho).
    { apply bt_range_sorted, Hs. }
    { intros e (He & _)%bt_range_elem. by apply (lock_entries _ Hs). }
    exists o. split; [done|]. destruct o as [[k l]|]; cbn.
    + destruct Ho as (H1 & H2 & H3 & H4). apply HL in H1 as [? ?]; [|done].
      split; [done|split; [done|split; [done|]]]. intros k' l' Hin Hl'.
      apply H4; [by apply (memory_lock_elem s k')|]. apply HL; [by apply (memory_lock_elem s k')|done].
    + intros k' l' Hin Hl'. apply (Ho k'); [by apply (memory_lock_elem s k')|].
      apply HL; [by apply (memory_lock_elem s k')|done].
Qed.

(** ** Applying a batch *)

Lemma memory_apply_one s a : memory_ok s -> spec_ok a ->
  memory_ok (apply_mutation s (spec_mutation a)) /\
  memory_view (apply_mutation s (spec_mutation a)) ≡ spec_apply (memory_view s) a.
Proof.
  intros Hs Ha. destruct Hs as [S1 S2 S3 E1 E2].
  destruct a as [k l|k|k t r|k t v|k t]; cbn [spec_mutation apply_mutation set_cf MemoryStore_cf spec_ok] in *;
    unfold key_write, key_value.
  - split.
    + constructor; cbn [ms_lock ms_write ms_default]; auto with esker.
      intros e [->|[_ He]]%bt_insert_elem; [eauto|by apply E1|done].
    + repeat split; try done. intros k'. cbn. rewrite bt_get_insert by done.
      destruct (decide (k' = k)) as [->|N]; [by rewrite decide_True, LockRecord_decode_encode|].
      rewrite decide_False; [done|]. by intros ?%key_lock_inj.
  - split.
    + constructor; cbn [ms_lock ms_write ms_default]; auto with esker.
      intros e [_ He]%bt_remove_elem; [by apply E1|done].
    + repeat split; try done. intros k'. cbn. rewrite bt_get_remove by done.
      destruct (decide (k' = k)) as [->|N]; [by rewrite decide_True|].
      rewrite decide_False; [done|]. by intros ?%key_lock_inj.
  - destruct Ha as [Ht Hr]. split.
    + constructor; cbn [ms_lock ms_write ms_default]; auto with esker.
      intros e [->|[_ He]]%bt_insert_elem; [eauto 6|by apply E2|done].
    + repeat split; try done. intros k' t'. cbn. destruct (N.ltb_spec t' two64) as [L|L].
      * rewrite bt_get_insert by done.
        destruct (decide (k' = k /\ t' = t)) as [[-> ->]|N]; [by rewrite decide_True, WriteRecord_decode_encode|].
        rewrite decide_False; [done|]. by intros ?%versioned_inj.
      * rewrite decide_False; [done|]. intros [_ ->]. lia.
  - split.
    + constructor; cbn [ms_lock ms_write ms_default]; auto with esker.
    + repeat split; try done. intros k' t'. cbn. destruct (N.ltb_spec t' two64) as [L|L].
      * rewrite bt_get_insert by done.
        destruct (decide (k' = k /\ t' = t)) as [[-> ->]|N]; [by rewrite decide_True|].
        rewrite decide_False; [done|]. by intros ?%versioned_inj.
      * rewrite decide_False; [done|]. intros [_ ->]. lia.
  - split.
    + constructor; cbn [ms_lock ms_write ms_default]; auto with esker.
    + repeat split; try done. intros k' t'. cbn. destruct (N.ltb_spec t' two64) as [L|L].
      * rewrite bt_get_remove by done.
        destruct (decide (k' = k /\ t' = t)) as [[-> ->]|N]; [by rewrite decide_True|].
        rewrite decide_False; [done|]. by intros ?%versioned_inj.
      * rewrite decide_False; [done|]. intros [_ ->]. lia.
Qed.

Lemma memory_apply s l : memory_ok s -> Forall spec_ok l ->
  memory_ok (MemoryStore_apply s (spec_mutation <$> l)) /\
  memory_view (MemoryStore_apply s (spec_mutation <$> l)) ≡ foldl spec_apply (memory_view s) l.
Proof.
  intros Hs Hl. unfold MemoryStore_apply. revert s Hs. induction Hl as [|a l Ha _ IH]; intros s Hs; [done|].
  cbn [fmap list_fmap foldl]. destruct (memory_apply_one s a Hs Ha) as [Hs' Hv].
  destruct (IH _ Hs') as [H1 H2]. split; [done|]. by rewrite H2, Hv.
Qed.

#[export, refine] Instance MemoryStore_laws : TxnStoreLaws MemoryStore := {|
  store_ok := memory_ok; view := memory_view |}.
Proof.
  - intros s k t r Hs (? & _)%memory_write_elem; done.
  - intros s k l Hs (? & _)%memory_lock_elem; done.
  - intros s k t r Hs (_ & ? & _)%memory_write_elem; done.
  - intros s k. apply memory_get_lock.
  - intros s k ts Hs Hts. destruct (memory_seek_run s k ts Hs Hts) as (vs & E & Hd & Hm).
    cbn [seek_write store_snapshot MemoryStore_store MemoryStore_snapshot]. unfold MemoryStore_seek_write.
    cbn [version_range snd] in *. unfold key_seek_write. destruct (bt_range _ _ _) as [|e L].
    + apply symmetry, fmap_nil_inv in E as ->. exists None. split; [done|].
      apply (newest_in_view _ _ (fun t _ => t <= ts)%N _ []); [done..|]. intros w Hw. by apply elem_of_nil in Hw.
    + destruct vs as [|v vs]; [done|]. injection E as E _. rewrite E. exists (Some v). split; [done|].
      apply (newest_in_view _ _ (fun t _ => t <= ts)%N _ (v :: vs)); [done..|].
      apply newest_in_head; [done|]. by apply Hm; left.
  - intros s k ts Hs. destruct (memory_versions s k Hs) as (vs & E & Hd & Hm).
    destruct (newest_write_after_loop_newest vs ts Hd) as (o & Eo & Ho). exists o. rewrite <- E in Eo. split; [done|].
    apply (newest_in_view _ _ (fun _ _ => True) _ vs); [|done..]. intros v. rewrite Hm. tauto.
  - intros s start stop mine. apply memory_foreign_lock.
  - intros s k ts Hs. destruct (memory_versions s k Hs) as (vs & E & Hd & Hm).
    destruct (write_of_txn_loop_newest vs ts Hd) as (o & Eo & Ho). exists o. rewrite <- E in Eo. split; [done|].
    apply (newest_in_view _ _ (fun _ _ => True) _ vs); [|done..]. intros v. rewrite Hm. tauto.
  - intros s k ts Hs Hts. cbn. rewrite (proj2 (N.ltb_lt _ _)) by done. done.
  - intros s l. apply memory_apply.
Defined.

Lemma MemoryStore_new_ok : memory_ok MemoryStore_new.
Proof. constructor; try done; intros e He; by apply elem_of_nil in He. Qed.

(** C18: the byte-level [MemoryStore] implements the abstract
    multi-version store.  On every store whose families hold well-formed
    records: a seek answers the newest record at or below the timestamp, the
    conflict question the newest record above it that moved the key, the
    transaction question that transaction's own record, the range question
    the first foreign lock, and applying a batch of well-formed mutations
    changes exactly the records it names. *)
Theorem memory_refines s k ts start stop l : memory_ok s -> (ts < two64)%N -> Forall spec_ok l ->
  get_lock s k = Ok (mv_lock (memory_view s) k) /\
  (exists o, seek_write s k ts = Ok o /\ newest (memory_view s) k (fun t _ => t <= ts)%N o) /\
  (exists o, newest_write_after s k ts = Ok o /\
     newest (memory_view s) k (fun t r => (ts < t)%N /\ moved_the_key r) o) /\
  (exists o, write_of_txn s k ts = Ok o /\
     newest (memory_view s) k (fun t r => (ts <= t)%N /\ write_start_ts r = ts) o) /\
  (exists o, foreign_lock_in_range s start stop ts = Ok o /\ first_foreign (memory_view s) start stop ts o) /\
  memory_ok (MemoryStore_apply s (spec_mutation <$> l)) /\
  memory_view (MemoryStore_apply s (spec_mutation <$> l)) ≡ foldl spec_apply (memory_view s) l.
Proof.
  intros Hs Hts Hl.
  split; [exact (get_lock_law s k Hs)|split; [exact (seek_write_law s k ts Hs Hts)|]].
  split; [exact (newest_write_after_law s k ts Hs)|split; [exact (write_of_txn_law s k ts Hs)|]].
  split; [exact (foreign_lock_law s start stop ts Hs)|exact (apply_law s l Hs Hl)].
Qed.

Definition example_batch : list mutation_spec :=
  [SPutLock [Byte.x61] (LockRecord_new KPut 5 [Byte.x61]); SPutWrite [Byte.x61] 3 (WriteRecord_new KDelete 2)].

Lemma memory_refines_witness :
  memory_ok (MemoryStore_apply MemoryStore_new (spec_mutation <$> example_batch)) /\
  memory_view (MemoryStore_apply MemoryStore_new (spec_mutation <$> example_batch)) ≡
    foldl spec_apply (memory_view MemoryStore_new) example_batch.
Proof.
  refine (proj2 (proj2 (proj2 (proj2 (proj2 (memory_refines MemoryStore_new [] 5 [] [] _ _ _ _)))))).
  - apply MemoryStore_new_ok.
  - reflexivity.
  - repeat constructor; vm_compute; congruence.
Defined.
