(* ===== verification/Percolator.v ===== *)
(** The transaction protocol as pure functions,
    [esker-txn/src/percolator.rs] with [physical_ms] and [is_expired] of
    [esker-txn/src/lib.rs].  Every function reads a [TxnSnapshot] and answers
    a decision with the mutations to apply as one batch. *)

From Stdlib Require Import Strings.Byte.
From stdpp Require Import prelude.
From Stdlib Require Import NArith ZArith Lia.
From S2P Require Import Prelude BTree KeyCodec TxnCodec TxnKey TxnStore Mvcc.

Inductive Op : Type :=
  | OpPut (value : bytes)
  | OpDelete
  | OpCheck.

Definition Op_kind (op : Op) : Kind :=
  match op with OpPut _ => KPut | OpDelete => KDelete | OpCheck => KLock end.

Definition Op_short_value (op : Op) : option bytes :=
  match op with
  | OpPut value => if decide (length value <= SHORT_VALUE_MAX_LEN) then Some value else None
  | _ => None
  end.

Definition Op_long_value (op : Op) : option bytes :=
  match op with
  | OpPut value => if decide (SHORT_VALUE_MAX_LEN < length value) then Some value else None
  | _ => None
  end.

Record Prewrite : Type := mkPrewrite {
  pw_key : bytes;
  pw_primary : bytes;
  pw_start_ts : N;
  pw_read_ts : N;
  pw_ttl_ms : N;
  pw_op : Op
}.

Definition Prewrite_new (key primary : bytes) (start_ts : N) (op : Op) : Prewrite :=
  mkPrewrite key primary start_ts start_ts LOCK_TTL_MS op.
Definition Prewrite_read_at (p : Prewrite) (read_ts : N) : Prewrite :=
  mkPrewrite (pw_key p) (pw_primary p) (pw_start_ts p) read_ts (pw_ttl_ms p) (pw_op p).
Definition Prewrite_is_primary (p : Prewrite) : bool := bool_decide (pw_key p = pw_primary p).

Inductive PrewriteDecision : Type :=
  | DLock (mutations : Mutations)
  | DAlreadyLocked
  | DLocked (lock : LockRecord)
  | DConflict (commit_ts : N)
  | DRolledBack.

Inductive ReadOutcome : Type :=
  | ReadValue (value : bytes)
  | ReadNotFound
  | ReadLocked (lock : LockRecord).

Inductive PrimaryState : Type :=
  | PsCommitted (commit_ts : N)
  | PsRolledBack
  | PsLocked (lock : LockRecord)
  | PsMissing.

Inductive Resolution : Type :=
  | RollForward (commit_ts : N)
  | RollBack
  | Wait.

Record PrimaryCommitted : Type := mkPrimaryCommitted {
  pc_start_ts : N;
  pc_commit_ts : N;
  pc_primary : bytes
}.

Definition on_trust (primary : bytes) (start_ts commit_ts : N) : PrimaryCommitted :=
  mkPrimaryCommitted start_ts commit_ts primary.

Record PrimaryCommit : Type := mkPrimaryCommit {
  plan_mutations : Mutations;
  plan_token : PrimaryCommitted
}.

Definition PrimaryCommit_applied (plan : PrimaryCommit) : PrimaryCommitted := plan_token plan.
Definition into_mutations (plan : PrimaryCommit) : Mutations := plan_mutations plan.

Inductive CommitDecision : Type :=
  | CdCommit (plan : PrimaryCommit)
  | CdAlreadyCommitted (token : PrimaryCommitted).

Inductive Settled : Type :=
  | SCommitted (commit_ts : N)
  | SRolledBack
  | SUndecided.

Definition TSO_LOGICAL_BITS : N := 18.
Definition physical_ms (ts : N) : N := N.shiftr ts TSO_LOGICAL_BITS.
Definition is_expired (start_ts ttl_ms now_ts : N) : bool :=
  (sat_add (physical_ms start_ts) ttl_ms <? physical_ms now_ts)%N.

Section Protocol.
  Context {S : Type} `{TxnSnapshot S}.

Definition settled (snapshot : S) (user_key : bytes) (start_ts : N) : result TxnError Settled :=
  let? o := write_of_txn snapshot user_key start_ts in
  Ok match o with
     | None => SUndecided
     | Some version =>
         match write_kind (record version) with
         | KRollback => SRolledBack
         | _ => SCommitted (commit_ts version)
         end
     end.

(** One round of the loop of [newest_version_at], at the timestamp [at]. *)
Definition newest_version_round (snapshot : S) (user_key : bytes) (at_ts : N)
    : N + result TxnError (option Version) :=
  match seek_write snapshot user_key at_ts with
  | Err e => inr (Err e)
  | Ok None => inr (Ok None)
  | Ok (Some version) =>
      if is_a_version (write_kind (record version)) then inr (Ok (Some version)) else
      if (commit_ts version =? 0)%N then inr (Ok None) else inl (commit_ts version - 1)%N
  end.

(** The loop; [2^64] rounds are more than the strictly decreasing timestamp
    can take. *)
Definition newest_version_at (snapshot : S) (user_key : bytes) (ts : N) : result TxnError (option Version) :=
  match loop_pos (newest_version_round snapshot user_key) 18446744073709551616 ts with
  | inr r => r
  | inl _ => Ok None
  end.

Definition value_of (snapshot : S) (user_key : bytes) (r : WriteRecord) : result TxnError ReadOutcome :=
  match write_kind r with
  | KDelete | KRollback | KLock => Ok ReadNotFound
  | KPut =>
      match write_short_value r with
      | Some value => Ok (ReadValue value)
      | None =>
          let? o := get_value snapshot user_key (write_start_ts r) in
          match o with
          | Some value => Ok (ReadValue value)
          | None => Err (MissingValue (write_start_ts r))
          end
      end
  end.

Definition read (snapshot : S) (user_key : bytes) (ts : N) : result TxnError ReadOutcome :=
  let? o := get_lock snapshot user_key in
  match o with
  | Some lock =>
      if ((lock_start_ts lock <=? ts)%N && negb (bool_decide (lock_kind lock = KLock)))
      then Ok (ReadLocked lock)
      else
        let? v := newest_version_at snapshot user_key ts in
        match v with None => Ok ReadNotFound | Some version => value_of snapshot user_key (record version) end
  | None =>
      let? v := newest_version_at snapshot user_key ts in
      match v with None => Ok ReadNotFound | Some version => value_of snapshot user_key (record version) end
  end.

(** The lock and the staged value of a prewrite. *)
Definition prewrite_mutations (request : Prewrite) : Mutations :=
  let key := pw_key request in
  let lock := mkLockRecord (Op_kind (pw_op request)) (pw_start_ts request) (pw_ttl_ms request)
                (pw_primary request) (Op_short_value (pw_op request)) in
  let mutations := put_lock Mutations_new key lock in
  match Op_long_value (pw_op request) with
  | Some value => put_value mutations key (pw_start_ts request) value
  | None => mutations
  end.

(** Step 3 of [check_prewrite], and the staging after it: anyone's lock, an
    upgrade of our own lock-only record, or a fresh lock. *)
Definition prewrite_against_lock (snapshot : S) (request : Prewrite) : result TxnError PrewriteDecision :=
  let? o := get_lock snapshot (pw_key request) in
  match o with
  | Some lock =>
      if decide (lock_start_ts lock <> pw_start_ts request) then Ok (DLocked lock) else
      if (bool_decide (Op_kind (pw_op request) = KLock) || negb (bool_decide (lock_kind lock = KLock)))
      then Ok DAlreadyLocked
      else Ok (DLock (prewrite_mutations request))
  | None => Ok (DLock (prewrite_mutations request))
  end.

Definition check_prewrite (snapshot : S) (request : Prewrite) : result TxnError PrewriteDecision :=
  let key := pw_key request in
  let? ours := write_of_txn snapshot key (pw_start_ts request) in
  match ours with
  | Some ours =>
      Ok match write_kind (record ours) with KRollback => DRolledBack | _ => DAlreadyLocked end
  | None =>
      let? winner := newest_write_after snapshot key (pw_read_ts request) in
      match winner with
      | Some winner =>
          if decide (write_start_ts (record winner) <> pw_start_ts request)
          then Ok (DConflict (commit_ts winner))
          else prewrite_against_lock snapshot request
      | None => prewrite_against_lock snapshot request
      end
  end.

Definition commit_mutations (user_key : bytes) (commit_ts : N) (lock : LockRecord) : Mutations :=
  let mutations := put_write Mutations_new user_key commit_ts
    (mkWriteRecord (lock_kind lock) (lock_start_ts lock) (lock_short_value lock)) in
  delete_lock mutations user_key.

Definition commit_primary (snapshot : S) (primary : bytes) (start_ts commit_ts : N) : result TxnError CommitDecision :=
  if (commit_ts <=? start_ts)%N then Err (Misuse CommitNotAboveStart) else
  let token := mkPrimaryCommitted start_ts commit_ts primary in
  let by_write_records :=
    let? state := settled snapshot primary start_ts in
    match state with
    | SCommitted at_ts =>
        if decide (at_ts = commit_ts) then Ok (CdAlreadyCommitted token)
        else Err (AlreadyCommitted start_ts at_ts)
    | SRolledBack => Err (AlreadyRolledBack start_ts)
    | SUndecided => Err (TxnLockNotFound start_ts)
    end in
  let? o := get_lock snapshot primary in
  match o with
  | Some lock =>
      if decide (lock_start_ts lock = start_ts) then
        if negb (LockRecord_is_primary lock primary) then Err (Misuse LockNamesAnotherPrimary)
        else Ok (CdCommit (mkPrimaryCommit (commit_mutations primary commit_ts lock) token))
      else by_write_records
  | None => by_write_records
  end.

Definition commit_secondary (snapshot : S) (user_key : bytes) (committed : PrimaryCommitted) : result TxnError Mutations :=
  let start_ts := pc_start_ts committed in
  let by_write_records :=
    let? state := settled snapshot user_key start_ts in
    match state with
    | SCommitted commit_ts =>
        if decide (commit_ts = pc_commit_ts committed) then Ok Mutations_new
        else Err (AlreadyCommitted start_ts commit_ts)
    | SRolledBack => Err (AlreadyRolledBack start_ts)
    | SUndecided => Err (TxnLockNotFound start_ts)
    end in
  let? o := get_lock snapshot user_key in
  match o with
  | Some lock =>
      if decide (lock_start_ts lock = start_ts) then
        if decide (lock_primary lock <> pc_primary committed) then Err (Misuse TokenNamesAnotherPrimary)
        else Ok (commit_mutations user_key (pc_commit_ts committed) lock)
      else by_write_records
  | None => by_write_records
  end.

(** The mutations that take our own lock, and the value staged with it, out. *)
Definition drop_own_lock (mutations : Mutations) (user_key : bytes) (start_ts : N) (lock : LockRecord) : Mutations :=
  let mutations := delete_lock mutations user_key in
  if bool_decide (lock_short_value lock = None) && bool_decide (lock_kind lock = KPut)
  then delete_value mutations user_key start_ts
  else mutations.

Definition rollback (snapshot : S) (user_key : bytes) (start_ts : N) : result TxnError Mutations :=
  let? state := settled snapshot user_key start_ts in
  match state with
  | SCommitted commit_ts => Err (AlreadyCommitted start_ts commit_ts)
  | SRolledBack => Ok Mutations_new
  | SUndecided =>
      let mutations := put_write Mutations_new user_key start_ts (WriteRecord_rollback start_ts) in
      let? o := get_lock snapshot user_key in
      match o with
      | Some lock =>
          if decide (lock_start_ts lock = start_ts)
          then Ok (drop_own_lock mutations user_key start_ts lock)
          else Ok mutations
      | None => Ok mutations
      end
  end.

Definition release (snapshot : S) (user_key : bytes) (start_ts : N) : result TxnError (Mutations * bool) :=
  let? o := get_lock snapshot user_key in
  match o with
  | None => Ok (Mutations_new, false)
  | Some lock =>
      if decide (lock_start_ts lock <> start_ts) then Ok (Mutations_new, false)
      else Ok (drop_own_lock Mutations_new user_key start_ts lock, true)
  end.

Definition primary_state (snapshot : S) (primary : bytes) (start_ts : N) : result TxnError PrimaryState :=
  let? state := settled snapshot primary start_ts in
  match state with
  | SCommitted commit_ts => Ok (PsCommitted commit_ts)
  | SRolledBack => Ok PsRolledBack
  | SUndecided =>
      let? o := get_lock snapshot primary in
      Ok match o with
         | Some lock => if decide (lock_start_ts lock = start_ts) then PsLocked lock else PsMissing
         | None => PsMissing
         end
  end.

Definition resolve (lock : LockRecord) (primary : PrimaryState) (now_ts : N) : Resolution :=
  match primary with
  | PsCommitted commit_ts => RollForward commit_ts
  | PsRolledBack | PsMissing => RollBack
  | PsLocked primary_lock =>
      if is_expired (lock_start_ts primary_lock) (lock_ttl_ms primary_lock) now_ts then RollBack else Wait
  end.

End Protocol.
