(* ===== verification/PercolatorSpec.v ===== *)
(** What the decisions of [Percolator] mean, over any store that keeps
    [TxnStoreLaws]: the functional behaviour of every operation of
    [esker-txn/src/percolator.rs] on every branch. *)

From Stdlib Require Import Strings.Byte.
From stdpp Require Import prelude.
From Stdlib Require Import NArith ZArith Lia.
From S2P Require Import Prelude BTree KeyCodec TxnCodec TxnKey TxnStore Mvcc Percolator.

(** [r], filed at [c], is what the transaction at [start_ts] left on [k]. *)
Definition record_of (m : mvcc) (k : bytes) (start_ts c : N) (r : WriteRecord) : Prop :=
  mv_write m k c = Some r /\ (start_ts <= c)%N /\ write_start_ts r = start_ts.

Definition undecided (m : mvcc) (k : bytes) (start_ts : N) : Prop := forall c r, ~ record_of m k start_ts c r.

Definition committed_at (m : mvcc) (k : bytes) (start_ts c : N) : Prop :=
  exists r, record_of m k start_ts c r /\ write_kind r <> KRollback.

Definition rolled_back (m : mvcc) (k : bytes) (start_ts : N) : Prop :=
  exists c r, record_of m k start_ts c r /\ write_kind r = KRollback.

(** The records each decision stages. *)
Definition prewrite_lock (p : Prewrite) : LockRecord :=
  mkLockRecord (Op_kind (pw_op p)) (pw_start_ts p) (pw_ttl_ms p) (pw_primary p) (Op_short_value (pw_op p)).

Definition prewrite_specs (p : Prewrite) : list mutation_spec :=
  SPutLock (pw_key p) (prewrite_lock p) ::
  match Op_long_value (pw_op p) with Some v => [SPutValue (pw_key p) (pw_start_ts p) v] | None => [] end.

Definition commit_record (l : LockRecord) : WriteRecord :=
  mkWriteRecord (lock_kind l) (lock_start_ts l) (lock_short_value l).

Definition commit_specs (k : bytes) (c : N) (l : LockRecord) : list mutation_spec :=
  [SPutWrite k c (commit_record l); SDelLock k].

Definition drop_specs (k : bytes) (start_ts : N) (l : LockRecord) : list mutation_spec :=
  SDelLock k ::
  if bool_decide (lock_short_value l = None) && bool_decide (lock_kind l = KPut) then [SDelValue k start_ts] else [].

Definition rollback_specs (k : bytes) (start_ts : N) (o : option LockRecord) : list mutation_spec :=
  SPutWrite k start_ts (WriteRecord_rollback start_ts) ::
  match o with
  | Some l => if decide (lock_start_ts l = start_ts) then drop_specs k start_ts l else []
  | None => []
  end.

(** A request the encoders can carry: 64-bit timestamps and a non-empty
    primary whose length fits. *)
Definition prewrite_ok (p : Prewrite) : Prop :=
  (pw_start_ts p < two64)%N /\ (pw_ttl_ms p < two64)%N /\ pw_primary p <> [] /\
  (N.of_nat (length (pw_primary p)) < two64)%N.

Lemma Op_short_value_ok op : short_value_ok (Op_kind op) (Op_short_value op).
Proof. destruct op; try done. cbn. by case_decide. Qed.

Lemma prewrite_lock_ok p : prewrite_ok p -> lock_record_ok (prewrite_lock p).
Proof.
  intros (H1 & H2 & H3 & H4). repeat split; try done; cbn.
  - by destruct (pw_op p).
  - apply Op_short_value_ok.
Qed.

Lemma prewrite_specs_ok p : prewrite_ok p -> Forall spec_ok (prewrite_specs p).
Proof.
  intros Hp. constructor; [by apply prewrite_lock_ok|]. destruct (Op_long_value _); repeat constructor. apply Hp.
Qed.

Lemma commit_specs_ok k c l : (c < two64)%N -> lock_record_ok l -> Forall spec_ok (commit_specs k c l).
Proof.
  intros Hc (H1 & H2 & _ & _ & _ & H6). repeat constructor; done.
Qed.

Lemma drop_specs_ok k start_ts l : (start_ts < two64)%N -> Forall spec_ok (drop_specs k start_ts l).
Proof. intros Hs. constructor; [done|]. case_match; by repeat constructor. Qed.

Lemma rollback_specs_ok k start_ts o : (start_ts < two64)%N -> Forall spec_ok (rollback_specs k start_ts o).
Proof.
  intros Hs. constructor; [by repeat split|]. destruct o as [l|]; [|constructor].
  case_decide; [by apply drop_specs_ok|constructor].
Qed.

Lemma prewrite_mutations_specs p : prewrite_mutations p = spec_mutation <$> prewrite_specs p.
Proof. unfold prewrite_mutations, prewrite_specs. by destruct (Op_long_value _). Qed.

Lemma commit_mutations_specs k c l : commit_mutations k c l = spec_mutation <$> commit_specs k c l.
Proof. done. Qed.

Lemma drop_own_lock_specs specs k start_ts l :
  drop_own_lock (spec_mutation <$> specs) k start_ts l = spec_mutation <$> (specs ++ drop_specs k start_ts l).
Proof.
  unfold drop_own_lock, drop_specs, delete_value, delete_lock, Mutations_delete.
  rewrite fmap_app. case_match; cbn [fmap list_fmap spec_mutation]; [by rewrite <- app_assoc|done].
Qed.

Lemma N2Nat_lt a b : (a < b)%N -> N.to_nat a < N.to_nat b.
Proof. lia. Qed.

Section Specs.
  Context {S : Type} `{TxnStoreLaws S}.
  Implicit Types s : S.

Lemma settled_spec s k start_ts : store_ok s ->
  exists st, settled s k start_ts = Ok st /\
    match st with
    | SCommitted c => committed_at (view s) k start_ts c
    | SRolledBack => rolled_back (view s) k start_ts
    | SUndecided => undecided (view s) k start_ts
    end.
Proof.
  intros Hs. destruct (write_of_txn_law s k start_ts Hs) as (o & E & Ho). unfold settled. rewrite E. cbn [rbind].
  eexists; split; [done|]. destruct o as [[c r]|].
  - destruct Ho as (Hw & [Hle Hst] & _). cbn [commit_ts record] in *.
    destruct (write_kind r) eqn:K; [| |by exists c, r|]; exists r; by rewrite K.
  - intros c r (Hw & Hle & Hst). by apply (Ho c r Hw).
Qed.

(** The loop of [newest_version_at] finds the newest [Put] or [Delete] at or
    below [ts], within its fuel: each round goes strictly below the marker it
    stepped past. *)
Lemma newest_version_at_loop s k ts n : store_ok s -> (ts < two64)%N -> (N.to_nat ts < n) ->
  exists o, loop_nat (newest_version_round s k) n ts = inr (Ok o) /\
    newest (view s) k (fun t r => (t <= ts)%N /\ is_a_version (write_kind r) = true) o.
Proof.
  intros Hs. revert ts. induction n as [|n IH]; intros ts Hts Hn; [lia|]. cbn [loop_nat].
  destruct (seek_write_law s k ts Hs Hts) as (o & E & Ho). unfold newest_version_round at 1. rewrite E.
  destruct o as [[c r]|].
  - destruct Ho as (Hw & Hle & Hmax). cbn [commit_ts record] in *.
    destruct (is_a_version (write_kind r)) eqn:V.
    { exists (Some (mkVersion c r)). split; [done|]. split; [done|split; [done|]].
      intros t r' Hw' [Ht _]. by eapply Hmax. }
    assert (forall t r', mv_write (view s) k t = Some r' -> (t <= ts)%N -> is_a_version (write_kind r') = true -> (t < c)%N) as Hlt.
    { intros t r' Hw' Ht V'. destruct (N.eq_dec t c) as [->|]; [congruence|]. pose proof (Hmax t r' Hw' Ht). lia. }
    destruct (N.eqb_spec c 0) as [->|Hc].
    + exists None. split; [done|]. intros t r' Hw' [Ht V']. pose proof (Hlt t r' Hw' Ht V'). lia.
    + destruct (IH (c - 1)%N) as (o & Eo & Ho); [lia..|]. exists o. split; [done|].
      destruct o as [[c' r']|].
      * destruct Ho as (Hw' & [Hle' V'] & Hmax'). cbn [commit_ts record] in *. split; [done|split; [split; [cbn; lia|done]|]].
        intros t r'' Hw'' [Ht V'']. apply (Hmax' t r'' Hw''). split; [|done]. pose proof (Hlt t r'' Hw'' Ht V''). lia.
      * intros t r'' Hw'' [Ht V'']. apply (Ho t r'' Hw''). split; [|done]. pose proof (Hlt t r'' Hw'' Ht V''). lia.
  - exists None. split; [done|]. intros t r Hw [Ht _]. by apply (Ho t r Hw).
Qed.

Lemma newest_version_at_spec s k ts : store_ok s -> (ts < two64)%N ->
  exists o, newest_version_at s k ts = Ok o /\
    newest (view s) k (fun t r => (t <= ts)%N /\ is_a_version (write_kind r) = true) o.
Proof.
  intros Hs Hts. destruct (newest_version_at_loop s k ts (Pos.to_nat 18446744073709551616) Hs Hts) as (o & E & Ho).
  { rewrite <- positive_N_nat. apply N2Nat_lt. exact Hts. }
  exists o. unfold newest_version_at. rewrite loop_pos_nat, E. exact (conj eq_refl Ho).
Qed.

(** What a reader sees of the newest version. *)
Definition value_in (m : mvcc) (k : bytes) (o : option Version) : result TxnError ReadOutcome :=
  match o with
  | None => Ok ReadNotFound
  | Some v =>
      match write_kind (record v), write_short_value (record v) with
      | KPut, Some x => Ok (ReadValue x)
      | KPut, None =>
          match mv_value m k (write_start_ts (record v)) with
          | Some x => Ok (ReadValue x)
          | None => Err (MissingValue (write_start_ts (record v)))
          end
      | _, _ => Ok ReadNotFound
      end
  end.

(** A lock that makes a reader at [ts] wait. *)
Definition blocks (l : LockRecord) (ts : N) : Prop := (lock_start_ts l <= ts)%N /\ lock_kind l <> KLock.

#[global] Instance blocks_dec l ts : Decision (blocks l ts).
Proof. unfold blocks. apply _. Defined.

Lemma value_of_spec s k v : store_ok s -> write_record_ok (record v) ->
  value_of s k (record v) = value_in (view s) k (Some v).
Proof.
  intros Hs [Ht _]. unfold value_of, value_in. destruct (write_kind (record v)); try done.
  destruct (write_short_value (record v)); [done|]. rewrite get_value_law by done. cbn [rbind]. done.
Qed.

Lemma read_spec s k ts : store_ok s -> (ts < two64)%N ->
  (forall l, mv_lock (view s) k = Some l -> blocks l ts -> read s k ts = Ok (ReadLocked l)) /\
  ((forall l, mv_lock (view s) k = Some l -> ~ blocks l ts) ->
   exists o, newest (view s) k (fun t r => (t <= ts)%N /\ is_a_version (write_kind r) = true) o /\
     read s k ts = value_in (view s) k o).
Proof.
  intros Hs Hts.
  assert (exists o, newest (view s) k (fun t r => (t <= ts)%N /\ is_a_version (write_kind r) = true) o /\
    (let? v := newest_version_at s k ts in
     match v with None => Ok ReadNotFound | Some version => value_of s k (record version) end) = value_in (view s) k o)
    as (o & Ho & E).
  { destruct (newest_version_at_spec s k ts Hs Hts) as (o & -> & Ho). exists o. split; [done|]. cbn [rbind].
    destruct o as [v|]; [|done]. apply value_of_spec; [done|]. destruct Ho as (Hw & _). by eapply view_write_records. }
  unfold read. rewrite get_lock_law by done. cbn [rbind]. split.
  - intros l -> [Hle Hk]. rewrite (proj2 (N.leb_le _ _) Hle), bool_decide_false by done. done.
  - intros Hb. exists o. split; [done|]. destruct (mv_lock (view s) k) as [l|] eqn:El; [|done].
    specialize (Hb l eq_refl). destruct (N.leb_spec (lock_start_ts l) ts) as [L|L]; [|done].
    destruct (decide (lock_kind l = KLock)); [by rewrite bool_decide_true by done|]. by destruct Hb.
Qed.

(** The conflict-checking half of a prewrite let the request through. *)
Definition passes_checks (m : mvcc) (p : Prewrite) : Prop :=
  undecided m (pw_key p) (pw_start_ts p) /\
  (forall t r, mv_write m (pw_key p) t = Some r -> moved_the_key r -> (t <= pw_read_ts p)%N).

Definition prewrite_meaning (m : mvcc) (p : Prewrite) (d : PrewriteDecision) : Prop :=
  match d with
  | DLock ms =>
      ms = spec_mutation <$> prewrite_specs p /\ passes_checks m p /\
      match mv_lock m (pw_key p) with
      | None => True
      | Some l => lock_start_ts l = pw_start_ts p /\ lock_kind l = KLock /\ Op_kind (pw_op p) <> KLock
      end
  | DAlreadyLocked =>
      (exists c, committed_at m (pw_key p) (pw_start_ts p) c) \/
      (passes_checks m p /\ exists l, mv_lock m (pw_key p) = Some l /\ lock_start_ts l = pw_start_ts p /\
        (Op_kind (pw_op p) = KLock \/ lock_kind l <> KLock))
  | DLocked l => passes_checks m p /\ mv_lock m (pw_key p) = Some l /\ lock_start_ts l <> pw_start_ts p
  | DConflict c =>
      undecided m (pw_key p) (pw_start_ts p) /\ (pw_read_ts p < c)%N /\
      exists r, mv_write m (pw_key p) c = Some r /\ moved_the_key r
  | DRolledBack => rolled_back m (pw_key p) (pw_start_ts p)
  end.

(** Records are filed at or above the start of the transaction they belong to. *)
Definition filed_above (m : mvcc) : Prop :=
  forall k t r, mv_write m k t = Some r -> (write_start_ts r <= t)%N.

Lemma prewrite_against_lock_spec s p : store_ok s -> passes_checks (view s) p ->
  exists d, prewrite_against_lock s p = Ok d /\ prewrite_meaning (view s) p d.
Proof.
  intros Hs Hp. unfold prewrite_against_lock. rewrite get_lock_law by done. cbn [rbind].
  destruct (mv_lock (view s) (pw_key p)) as [l|] eqn:El.
  - case_decide as Ho; [by eexists; split; [done|]|].
    assert (lock_start_ts l = pw_start_ts p) by by destruct (decide (lock_start_ts l = pw_start_ts p)).
    destruct (decide (Op_kind (pw_op p) = KLock)) as [Hk|Hk].
    { rewrite bool_decide_true by done. eexists; split; [done|]. right. split; [done|]. exists l. tauto. }
    rewrite bool_decide_false by done. cbn [orb]. destruct (decide (lock_kind l = KLock)) as [Hl|Hl].
    + rewrite bool_decide_true by done. eexists; split; [done|]. cbn.
      rewrite El. by rewrite prewrite_mutations_specs.
    + rewrite bool_decide_false by done. eexists; split; [done|]. right. split; [done|]. exists l. tauto.
  - eexists; split; [done|]. cbn. rewrite El. by rewrite prewrite_mutations_specs.
Qed.

Lemma check_prewrite_spec s p : store_ok s -> filed_above (view s) ->
  exists d, check_prewrite s p = Ok d /\ prewrite_meaning (view s) p d.
Proof.
  intros Hs Hf. unfold check_prewrite.
  destruct (write_of_txn_law s (pw_key p) (pw_start_ts p) Hs) as (o & -> & Ho). cbn [rbind].
  destruct o as [[c r]|].
  - destruct Ho as (Hw & [Hle Hst] & _). cbn [commit_ts record] in *. eexists; split; [done|].
    destruct (write_kind r) eqn:K; [| |by exists c, r|]; (left; exists c, r; by rewrite K).
  - assert (undecided (view s) (pw_key p) (pw_start_ts p)) as Hu.
    { intros c r (Hw & Hle & Hst). by apply (Ho c r Hw). }
    destruct (newest_write_after_law s (pw_key p) (pw_read_ts p) Hs) as (w & -> & Hw). cbn [rbind].
    destruct w as [[c r]|].
    + destruct Hw as (Hwr & [Hlt Hmv] & _). cbn [commit_ts record] in *.
      case_decide as C; [eexists; split; [done|]; cbn; eauto|]. exfalso.
      destruct (decide (write_start_ts r = pw_start_ts p)) as [E|]; [|done]. apply (Hu c r).
      split; [done|split; [|done]]. rewrite <- E. by eapply Hf.
    + apply prewrite_against_lock_spec; [done|]. split; [done|]. intros t r Hwr Hmv.
      destruct (N.le_gt_cases t (pw_read_ts p)); [done|]. exfalso. by apply (Hw t r Hwr).
Qed.

(** A key is either committed through our own lock, or settled already. *)
Lemma commit_primary_spec s k start_ts c : store_ok s ->
  match commit_primary s k start_ts c with
  | Ok (CdCommit plan) =>
      (start_ts < c)%N /\ exists l, mv_lock (view s) k = Some l /\ lock_start_ts l = start_ts /\ lock_primary l = k /\
        into_mutations plan = spec_mutation <$> commit_specs k c l
  | Ok (CdAlreadyCommitted _) => (start_ts < c)%N /\ committed_at (view s) k start_ts c
  | Err (AlreadyCommitted _ c') => committed_at (view s) k start_ts c' /\ c' <> c
  | Err (AlreadyRolledBack _) => rolled_back (view s) k start_ts
  | Err (TxnLockNotFound _) =>
      undecided (view s) k start_ts /\ forall l, mv_lock (view s) k = Some l -> lock_start_ts l <> start_ts
  | Err (Misuse CommitNotAboveStart) => (c <= start_ts)%N
  | Err (Misuse _) => exists l, mv_lock (view s) k = Some l /\ lock_start_ts l = start_ts /\ lock_primary l <> k
  | Err _ => False
  end.
Proof.
  intros Hs. unfold commit_primary. destruct (N.leb_spec c start_ts) as [L|L]; [done|].
  rewrite get_lock_law by done. cbn [rbind].
  destruct (settled_spec s k start_ts Hs) as (st & -> & Hst). cbn [rbind].
  assert ((forall l, mv_lock (view s) k = Some l -> lock_start_ts l <> start_ts) ->
    match match st with
     | SCommitted at_ts => if decide (at_ts = c) then Ok (CdAlreadyCommitted (mkPrimaryCommitted start_ts c k))
                           else Err (AlreadyCommitted start_ts at_ts)
     | SRolledBack => Err (AlreadyRolledBack start_ts)
     | SUndecided => Err (TxnLockNotFound start_ts) end with
    | Ok (CdCommit _) => False
    | Ok (CdAlreadyCommitted _) => (start_ts < c)%N /\ committed_at (view s) k start_ts c
    | Err (AlreadyCommitted _ c') => committed_at (view s) k start_ts c' /\ c' <> c
    | Err (AlreadyRolledBack _) => rolled_back (view s) k start_ts
    | Err (TxnLockNotFound _) =>
        undecided (view s) k start_ts /\ forall l, mv_lock (view s) k = Some l -> lock_start_ts l <> start_ts
    | Err _ => False
    end) as Hw.
  { intros Hl. destruct st; [case_decide; by subst|done|done]. }
  destruct (mv_lock (view s) k) as [l|] eqn:El.
  - case_decide as C.
    + unfold LockRecord_is_primary. case_bool_decide as P; cbn [negb].
      * split; [done|]. exists l. by rewrite commit_mutations_specs.
      * by exists l.
    + specialize (Hw ltac:(by intros ? [= <-])). destruct st; [case_decide|..]; done.
  - specialize (Hw ltac:(done)). destruct st; [case_decide|..]; done.
Qed.

Lemma commit_secondary_spec s k token : store_ok s ->
  let start_ts := pc_start_ts token in
  match commit_secondary s k token with
  | Ok ms =>
      (exists l, mv_lock (view s) k = Some l /\ lock_start_ts l = start_ts /\ lock_primary l = pc_primary token /\
         ms = spec_mutation <$> commit_specs k (pc_commit_ts token) l) \/
      (ms = [] /\ committed_at (view s) k start_ts (pc_commit_ts token))
  | Err (AlreadyCommitted _ c') => committed_at (view s) k start_ts c' /\ c' <> pc_commit_ts token
  | Err (AlreadyRolledBack _) => rolled_back (view s) k start_ts
  | Err (TxnLockNotFound _) =>
      undecided (view s) k start_ts /\ forall l, mv_lock (view s) k = Some l -> lock_start_ts l <> start_ts
  | Err (Misuse _) =>
      exists l, mv_lock (view s) k = Some l /\ lock_start_ts l = start_ts /\ lock_primary l <> pc_primary token
  | Err _ => False
  end.
Proof.
  intros Hs start_ts. unfold commit_secondary. fold start_ts. rewrite get_lock_law by done. cbn [rbind].
  destruct (settled_spec s k start_ts Hs) as (st & -> & Hst). cbn [rbind].
  destruct (mv_lock (view s) k) as [l|] eqn:El.
  - case_decide as C.
    + case_decide as P; [by exists l|]. left. exists l. rewrite commit_mutations_specs.
      by destruct (decide (lock_primary l = pc_primary token)).
    + assert (forall l', Some l = Some l' -> lock_start_ts l' <> start_ts) as Hl by (by intros ? [= <-]).
      destruct st; [case_decide; [right; by subst|done]|done|done].
  - destruct st; [case_decide; [right; by subst|done]|done|done].
Qed.

(** A rollback answers the commit that got there first, or leaves the marker. *)
Lemma rollback_spec s k start_ts : store_ok s ->
  match rollback s k start_ts with
  | Ok ms =>
      (ms = [] /\ rolled_back (view s) k start_ts) \/
      (undecided (view s) k start_ts /\ ms = spec_mutation <$> rollback_specs k start_ts (mv_lock (view s) k))
  | Err (AlreadyCommitted _ c) => committed_at (view s) k start_ts c
  | Err _ => False
  end.
Proof.
  intros Hs. unfold rollback. destruct (settled_spec s k start_ts Hs) as (st & -> & Hst). cbn [rbind].
  destruct st; [done|by left|]. rewrite get_lock_law by done. cbn [rbind].
  destruct (mv_lock (view s) k) as [l|]; [case_decide as C|]; right; (split; [done|]); unfold rollback_specs.
  - rewrite decide_True by done.
    apply (drop_own_lock_specs [SPutWrite k start_ts (WriteRecord_rollback start_ts)] k start_ts l).
  - by rewrite decide_False.
  - done.
Qed.

Lemma release_spec s k start_ts : store_ok s ->
  exists ms gave_back, release s k start_ts = Ok (ms, gave_back) /\
    if gave_back
    then exists l, mv_lock (view s) k = Some l /\ lock_start_ts l = start_ts /\ ms = spec_mutation <$> drop_specs k start_ts l
    else ms = [] /\ forall l, mv_lock (view s) k = Some l -> lock_start_ts l <> start_ts.
Proof.
  intros Hs. unfold release. rewrite get_lock_law by done. cbn [rbind].
  destruct (mv_lock (view s) k) as [l|] eqn:El.
  - case_decide as C; eexists _, _; (split; [done|]).
    + split; [done|]. by intros l' [= <-].
    + exists l. split; [done|]. split; [by destruct (decide (lock_start_ts l = start_ts))|].
      apply (drop_own_lock_specs [] k start_ts l).
  - eexists _, _. split; [done|]. by split.
Qed.

Lemma primary_state_spec s k start_ts : store_ok s ->
  exists ps, primary_state s k start_ts = Ok ps /\
    match ps with
    | PsCommitted c => committed_at (view s) k start_ts c
    | PsRolledBack => rolled_back (view s) k start_ts
    | PsLocked l => undecided (view s) k start_ts /\ mv_lock (view s) k = Some l /\ lock_start_ts l = start_ts
    | PsMissing => undecided (view s) k start_ts /\
        forall l, mv_lock (view s) k = Some l -> lock_start_ts l <> start_ts
    end.
Proof.
  intros Hs. unfold primary_state. destruct (settled_spec s k start_ts Hs) as (st & -> & Hst). cbn [rbind].
  destruct st; [by eexists; split; [done|].. |]. rewrite get_lock_law by done. cbn [rbind]. eexists; split; [done|].
  destruct (mv_lock (view s) k) as [l|] eqn:El; [case_decide as C|]; [done| |done].
  split; [done|]. by intros l' [= <-].
Qed.

(** A read at [ts] never guesses.  A lock that may yet commit at
    or below [ts] is reported; otherwise the answer is the newest [Put] or
    [Delete] filed at or below [ts], rollback markers and lock records
    stepped past, found within the loop's fuel; a value that should be in the
    default family and is not is an error, never an absent key. *)
Theorem read_at s k ts : store_ok s -> (ts < two64)%N ->
  (exists l, mv_lock (view s) k = Some l /\ blocks l ts /\ read s k ts = Ok (ReadLocked l)) \/
  ((forall l, mv_lock (view s) k = Some l -> ~ blocks l ts) /\
   exists o, newest (view s) k (fun t r => (t <= ts)%N /\ is_a_version (write_kind r) = true) o /\
     read s k ts = value_in (view s) k o).
Proof.
  intros Hs Hts. destruct (read_spec s k ts Hs Hts) as [H1 H2].
  destruct (mv_lock (view s) k) as [l|] eqn:El.
  - destruct (decide (blocks l ts)) as [B|B]; [left; eauto 6|right].
    assert (forall l', Some l = Some l' -> ~ blocks l' ts) as Hn by (by intros ? [= <-]). auto.
  - right. split; [done|]. by apply H2.
Qed.

(** Every answer of [check_prewrite] states a fact about
    both column families: a lock is granted only when the transaction is
    undecided on the key, nothing moved the key after the snapshot the value
    was computed from, and nobody else holds it; each refusal names what was
    found. *)
Theorem prewrite_decides s p : store_ok s -> filed_above (view s) ->
  exists d, check_prewrite s p = Ok d /\ prewrite_meaning (view s) p d.
Proof. apply check_prewrite_spec. Qed.

(** A resolver that reads the primary rolls a transaction forward
    exactly when the primary's write record commits it, rolls it back only
    when the primary is rolled back, gone or past its own lease, and
    otherwise waits. *)
Theorem resolve_follows_primary s lock primary start_ts now_ts : store_ok s ->
  exists ps, primary_state s primary start_ts = Ok ps /\
    match resolve lock ps now_ts with
    | RollForward c => committed_at (view s) primary start_ts c
    | RollBack =>
        rolled_back (view s) primary start_ts \/
        (undecided (view s) primary start_ts /\
         forall l, mv_lock (view s) primary = Some l -> lock_start_ts l = start_ts ->
           is_expired (lock_start_ts l) (lock_ttl_ms l) now_ts = true)
    | Wait => undecided (view s) primary start_ts /\
        exists l, mv_lock (view s) primary = Some l /\ lock_start_ts l = start_ts /\
          is_expired (lock_start_ts l) (lock_ttl_ms l) now_ts = false
    end.
Proof.
  intros Hs. destruct (primary_state_spec s primary start_ts Hs) as (ps & E & Hps). exists ps. split; [done|].
  unfold resolve. destruct ps as [c| |l|]; [done|by left| |].
  - destruct Hps as (Hu & Hl & Hst). destruct (is_expired _ _ _) eqn:X.
    + right. split; [done|]. by intros l' [= <-]%(eq_trans (eq_sym Hl)).
    + split; [done|]. by exists l.
  - right. destruct Hps as [Hu Hl]. split; [done|]. intros l El Hst. by apply Hl in El.
Qed.
End Specs.

(** ** A concrete store *)

(** Key [a] was written at 3 by the transaction at 2 and is locked by the one
    at 7; key [b] carries only that transaction's rollback marker. *)
Definition example_batch : list mutation_spec :=
  [SPutWrite [Byte.x61] 3 (mkWriteRecord KPut 2 (Some [Byte.x76]));
   SPutLock [Byte.x61] (LockRecord_new KDelete 7 [Byte.x61]);
   SPutWrite [Byte.x62] 7 (WriteRecord_rollback 7)].
Definition example_store : MemoryStore := MemoryStore_apply MemoryStore_new (spec_mutation <$> example_batch).

Lemma example_store_ok : store_ok example_store.
Proof.
  apply memory_apply; [apply MemoryStore_new_ok|]. repeat constructor; vm_compute; congruence.
Qed.

Lemma example_view : memory_view example_store ≡ foldl spec_apply (memory_view MemoryStore_new) example_batch.
Proof.
  apply memory_apply; [apply MemoryStore_new_ok|]. repeat constructor; vm_compute; congruence.
Qed.

Lemma example_filed_above : filed_above (view example_store).
Proof.
  intros k t r. change (view example_store) with (memory_view example_store). destruct example_view as (_ & -> & _). cbn.
  repeat (case_decide; [destruct_and!; subst; intros [= <-]; cbn; lia|]). by case_match.
Qed.

Lemma read_at_witness :
  (exists l, mv_lock (view example_store) [Byte.x61] = Some l /\ blocks l 5 /\
     read example_store [Byte.x61] 5 = Ok (ReadLocked l)) \/
  ((forall l, mv_lock (view example_store) [Byte.x61] = Some l -> ~ blocks l 5) /\
   exists o, newest (view example_store) [Byte.x61] (fun t r => (t <= 5)%N /\ is_a_version (write_kind r) = true) o /\
     read example_store [Byte.x61] 5 = value_in (view example_store) [Byte.x61] o).
Proof. apply (read_at (S := MemoryStore) example_store [Byte.x61] 5 example_store_ok). reflexivity. Defined.

Lemma prewrite_decides_witness :
  exists d, check_prewrite example_store (Prewrite_new [Byte.x62] [Byte.x61] 7 OpDelete) = Ok d /\
    prewrite_meaning (view example_store) (Prewrite_new [Byte.x62] [Byte.x61] 7 OpDelete) d.
Proof. exact (prewrite_decides (S := MemoryStore) example_store _ example_store_ok example_filed_above). Defined.

Lemma resolve_follows_primary_witness :
  exists ps, primary_state example_store [Byte.x61] 7 = Ok ps /\
    match resolve (LockRecord_new KDelete 7 [Byte.x61]) ps 9 with
    | RollForward c => committed_at (view example_store) [Byte.x61] 7 c
    | RollBack =>
        rolled_back (view example_store) [Byte.x61] 7 \/
        (undecided (view example_store) [Byte.x61] 7 /\
         forall l, mv_lock (view example_store) [Byte.x61] = Some l -> lock_start_ts l = 7%N ->
           is_expired (lock_start_ts l) (lock_ttl_ms l) 9 = true)
    | Wait => undecided (view example_store) [Byte.x61] 7 /\
        exists l, mv_lock (view example_store) [Byte.x61] = Some l /\ lock_start_ts l = 7%N /\
          is_expired (lock_start_ts l) (lock_ttl_ms l) 9 = false
    end.
Proof. exact (resolve_follows_primary (S := MemoryStore) example_store _ _ _ _ example_store_ok). Defined.
