(* ===== verification/TxnKv.v ===== *)
(** The store's transactional handlers, [esker-store/src/txnkv.rs], with the
    request and response types of [esker-proto/src/txn.rs] they use.

    A handler reads one snapshot, decides every key of the request against
    it and stages one batch; here it answers the response together with the
    mutations it stages.  The engine-backed snapshot is the [TxnSnapshot] it
    is given. *)

From Stdlib Require Import Strings.Byte.
From stdpp Require Import prelude.
From Stdlib Require Import NArith ZArith Lia.
From S2P Require Import Prelude TxnCodec TxnStore Mvcc Percolator.

Record LockInfo : Type := mkLockInfo {
  li_key : bytes;
  li_primary : bytes;
  li_start_ts : N;
  li_ttl_ms : N
}.

Inductive TxnStatus : Type :=
  | StOk
  | StConflict (commit_ts : N)
  | StRolledBack
  | StCommitted (commit_ts : N)
  | StLockNotFound
  | StLocked (lock : LockInfo).

Definition TxnStatus_is_ok (st : TxnStatus) : bool := match st with StOk => true | _ => false end.
Definition TxnStatus_is_fatal (st : TxnStatus) : bool := match st with StOk | StLocked _ => false | _ => true end.

Inductive TxnMutation : Type :=
  | TmPut (key value : bytes) (read_ts : option N)
  | TmDelete (key : bytes) (read_ts : option N)
  | TmCheck (key : bytes) (read_ts : option N)
  | TmCheckRange (start stop : bytes).

Definition TxnMutation_key (tm : TxnMutation) : bytes :=
  match tm with
  | TmPut key _ _ | TmDelete key _ | TmCheck key _ => key
  | TmCheckRange start _ => start
  end.

Inductive TxnKvResp : Type :=
  | RespGet (value : option bytes)
  | RespPrewrite (keys : list TxnStatus)
  | RespCommit (status : TxnStatus)
  | RespRollback (status : TxnStatus)
  | RespReleaseLock (released : N)
  | RespResolveLock (resolved : N)
  | RespHeartbeat (ttl_ms : N)
  | RespLatestCommit (newest : option N).

Inductive ProtoError : Type :=
  | PeLocked (lock : LockInfo)
  | PeLockedOpaque (lock_info : bytes)
  | PeCorrupt (error : TxnError)
  | PeInternal (error : TxnError).

Definition lock_info (user_key : bytes) (lock : LockRecord) : LockInfo :=
  mkLockInfo user_key (lock_primary lock) (lock_start_ts lock) (lock_ttl_ms lock).

Definition status_of (error : TxnError) : TxnStatus :=
  match error with
  | WriteConflict _ commit_ts => StConflict commit_ts
  | AlreadyRolledBack _ => StRolledBack
  | AlreadyCommitted _ commit_ts => StCommitted commit_ts
  | TxnLockNotFound _ | Corrupt _ _ | KeyIsLocked _ _ | MissingValue _ | Misuse _ => StLockNotFound
  end.

Definition txn_to_proto (error : TxnError) : ProtoError :=
  match error with
  | Corrupt _ _ => PeCorrupt error
  | KeyIsLocked info _ => PeLockedOpaque info
  | MissingValue _ => PeCorrupt error
  | other => PeInternal other
  end.

Section Handlers.
  Context {S : Type} `{TxnSnapshot S}.

Definition kv_get (snapshot : S) (user_key : bytes) (ts : N) : result ProtoError TxnKvResp :=
  let? outcome := rmap_err txn_to_proto (read snapshot user_key ts) in
  match outcome with
  | ReadValue value => Ok (RespGet (Some value))
  | ReadNotFound => Ok (RespGet None)
  | ReadLocked lock => Err (PeLocked (lock_info user_key lock))
  end.

Definition latest_commit (snapshot : S) (key : bytes) : result ProtoError TxnKvResp :=
  let? newest := rmap_err txn_to_proto (newest_write_after snapshot key 0) in
  Ok (RespLatestCommit (commit_ts <$> newest)).

(** A range is validated, not locked. *)
Definition check_range (snapshot : S) (start_ts : N) (start stop : bytes) : result ProtoError TxnStatus :=
  let? winner := rmap_err txn_to_proto (newest_write_in_range snapshot start stop start_ts) in
  match winner with
  | Some version => Ok (StConflict (commit_ts version))
  | None =>
      let? foreign := rmap_err txn_to_proto (foreign_lock_in_range snapshot start stop start_ts) in
      match foreign with
      | Some (user_key, lock) => Ok (StLocked (lock_info user_key lock))
      | None => Ok StOk
      end
  end.

(** The [Prewrite] request a mutation becomes. *)
Definition prewrite_request (start_ts : N) (primary : bytes) (ttl_ms : N) (mutation : TxnMutation) : Prewrite :=
  mkPrewrite (TxnMutation_key mutation) primary start_ts
    (match mutation with
     | TmPut _ _ read_ts | TmDelete _ read_ts | TmCheck _ read_ts => default start_ts read_ts
     | TmCheckRange _ _ => start_ts
     end)
    ttl_ms
    (match mutation with
     | TmPut _ value _ => OpPut value
     | TmDelete _ _ => OpDelete
     | TmCheck _ _ | TmCheckRange _ _ => OpCheck
     end).

(** The body of the loop of [prewrite]: the status, and what it stages. *)
Definition prewrite_one (snapshot : S) (start_ts : N) (primary : bytes) (ttl_ms : N) (mutation : TxnMutation)
    : result ProtoError (TxnStatus * Mutations) :=
  match mutation with
  | TmCheckRange start stop =>
      let? status := check_range snapshot start_ts start stop in Ok (status, Mutations_new)
  | _ =>
      let request := prewrite_request start_ts primary ttl_ms mutation in
      let? decision := rmap_err txn_to_proto (check_prewrite snapshot request) in
      Ok match decision with
         | DLock mutations => (StOk, mutations)
         | DAlreadyLocked => (StOk, Mutations_new)
         | DLocked lock => (StLocked (lock_info (TxnMutation_key mutation) lock), Mutations_new)
         | DConflict commit_ts => (StConflict commit_ts, Mutations_new)
         | DRolledBack => (StRolledBack, Mutations_new)
         end
  end.

Fixpoint prewrite_loop (snapshot : S) (start_ts : N) (primary : bytes) (ttl_ms : N)
    (mutations : list TxnMutation) (statuses : list TxnStatus) (staged : Mutations) (refused : bool)
    : result ProtoError (list TxnStatus * Mutations * bool) :=
  match mutations with
  | [] => Ok (statuses, staged, refused)
  | mutation :: mutations' =>
      let? (status, ms) := prewrite_one snapshot start_ts primary ttl_ms mutation in
      prewrite_loop snapshot start_ts primary ttl_ms mutations'
        (statuses ++ [status]) (Mutations_extend staged ms) (refused || negb (TxnStatus_is_ok status))
  end.

Definition kv_prewrite (snapshot : S) (start_ts : N) (primary : bytes) (ttl_ms : N) (mutations : list TxnMutation)
    : result ProtoError (TxnKvResp * Mutations) :=
  let? (statuses, staged, refused) := prewrite_loop snapshot start_ts primary ttl_ms mutations [] Mutations_new false in
  Ok (RespPrewrite statuses, if refused then Mutations_new else staged).

(** The token is asserted: the primary may be on another store. *)
Definition secondary (snapshot : S) (user_key : bytes) (start_ts commit_ts : N) : result TxnError Mutations :=
  let? o := get_lock snapshot user_key in
  let primary := match o with None => user_key | Some lock => lock_primary lock end in
  commit_secondary snapshot user_key (on_trust primary start_ts commit_ts).

(** One key of a commit: the outer error is the response channel's, the inner
    one the key's fate. *)
Definition commit_one (snapshot : S) (start_ts commit_ts : N) (user_key : bytes)
    : result ProtoError (result TxnError Mutations) :=
  let? o := rmap_err txn_to_proto (get_lock snapshot user_key) in
  let is_primary := match o with Some lock => LockRecord_is_primary lock user_key | None => true end in
  Ok (if is_primary : bool then
        rmap (fun decision => match decision with
              | CdCommit plan => into_mutations plan
              | CdAlreadyCommitted _ => Mutations_new end)
          (commit_primary snapshot user_key start_ts commit_ts)
      else secondary snapshot user_key start_ts commit_ts).

Fixpoint commit_loop (snapshot : S) (start_ts commit_ts : N) (keys : list bytes) (staged : Mutations)
    : result ProtoError (TxnKvResp * Mutations) :=
  match keys with
  | [] => Ok (RespCommit StOk, staged)
  | user_key :: keys' =>
      let? outcome := commit_one snapshot start_ts commit_ts user_key in
      match outcome with
      | Ok mutations => commit_loop snapshot start_ts commit_ts keys' (Mutations_extend staged mutations)
      | Err error => Ok (RespCommit (status_of error), Mutations_new)
      end
  end.

Definition kv_commit (snapshot : S) (start_ts commit_ts : N) (keys : list bytes) : result ProtoError (TxnKvResp * Mutations) :=
  commit_loop snapshot start_ts commit_ts keys Mutations_new.

Fixpoint rollback_loop (snapshot : S) (start_ts : N) (keys : list bytes) (staged : Mutations)
    : result ProtoError (TxnKvResp * Mutations) :=
  match keys with
  | [] => Ok (RespRollback StOk, staged)
  | user_key :: keys' =>
      match rollback snapshot user_key start_ts with
      | Ok mutations => rollback_loop snapshot start_ts keys' (Mutations_extend staged mutations)
      | Err error => Ok (RespRollback (status_of error), Mutations_new)
      end
  end.

Definition kv_rollback (snapshot : S) (start_ts : N) (keys : list bytes) : result ProtoError (TxnKvResp * Mutations) :=
  rollback_loop snapshot start_ts keys Mutations_new.

Fixpoint release_loop (snapshot : S) (start_ts : N) (keys : list bytes) (staged : Mutations) (released : N)
    : result ProtoError (TxnKvResp * Mutations) :=
  match keys with
  | [] => Ok (RespReleaseLock released, staged)
  | user_key :: keys' =>
      let? (mutations, gave_back) := rmap_err txn_to_proto (release snapshot user_key start_ts) in
      if gave_back : bool
      then release_loop snapshot start_ts keys' (Mutations_extend staged mutations) (released + 1)
      else release_loop snapshot start_ts keys' staged released
  end.

Definition kv_release_lock (snapshot : S) (start_ts : N) (keys : list bytes) : result ProtoError (TxnKvResp * Mutations) :=
  release_loop snapshot start_ts keys Mutations_new 0.

(** One key of a [ResolveLock] this transaction still holds. *)
Definition resolve_one (snapshot : S) (start_ts commit_ts : N) (user_key : bytes) : result TxnError Mutations :=
  if (commit_ts =? 0)%N then rollback snapshot user_key start_ts
  else secondary snapshot user_key start_ts commit_ts.

Fixpoint resolve_loop (snapshot : S) (start_ts commit_ts : N) (keys : list bytes) (staged : Mutations) (resolved : N)
    : result ProtoError (TxnKvResp * Mutations) :=
  match keys with
  | [] => Ok (RespResolveLock resolved, staged)
  | user_key :: keys' =>
      let? o := rmap_err txn_to_proto (get_lock snapshot user_key) in
      let held := match o with Some lock => bool_decide (lock_start_ts lock = start_ts) | None => false end in
      if held : bool then
        match resolve_one snapshot start_ts commit_ts user_key with
        | Ok mutations => resolve_loop snapshot start_ts commit_ts keys' (Mutations_extend staged mutations) (resolved + 1)
        | Err _ => resolve_loop snapshot start_ts commit_ts keys' staged resolved
        end
      else resolve_loop snapshot start_ts commit_ts keys' staged resolved
  end.

Definition kv_resolve_lock (snapshot : S) (start_ts commit_ts : N) (keys : list bytes)
    : result ProtoError (TxnKvResp * Mutations) :=
  resolve_loop snapshot start_ts commit_ts keys Mutations_new 0.

Definition kv_heartbeat (snapshot : S) (start_ts : N) (primary : bytes) (ttl_ms : N)
    : result ProtoError (TxnKvResp * Mutations) :=
  let? o := rmap_err txn_to_proto (get_lock snapshot primary) in
  match o with
  | Some lock =>
      if decide (lock_start_ts lock = start_ts) then
        if (lock_ttl_ms lock <? ttl_ms)%N then
          let lock := mkLockRecord (lock_kind lock) (lock_start_ts lock) ttl_ms (lock_primary lock) (lock_short_value lock) in
          Ok (RespHeartbeat (lock_ttl_ms lock), put_lock_record Mutations_new primary lock)
        else Ok (RespHeartbeat (lock_ttl_ms lock), Mutations_new)
      else Ok (RespHeartbeat 0, Mutations_new)
  | None => Ok (RespHeartbeat 0, Mutations_new)
  end.

End Handlers.
