(* ===== verification/TxnSystem.v ===== *)
(** Transactions as a system: the store's handlers of [TxnKv] driven by
    clients that keep the contract of [esker-client/src/txn.rs], under a
    network that may delay, duplicate and reorder prewrites.

    One store state stands for the whole cluster: every key lives in one
    region, and a region decides its requests one at a time, at apply.  A
    transaction is named by its start timestamp, has one primary key for its
    whole life, and moves from open to committing at a timestamp drawn after
    all its writes were acknowledged, or to aborted.  Evidence a client acts
    on (the primary's fate) is a write record, and no step removes one, so a
    guard asks for the record itself. *)

From Stdlib Require Import Strings.Byte.
From stdpp Require Import prelude.
From Stdlib Require Import NArith ZArith Lia.
From S2P Require Import Prelude BTree TxnCodec TxnStore Mvcc Percolator PercolatorSpec TxnKv.

(** ** One key at a time *)

Definition spec_key (a : mutation_spec) : bytes :=
  match a with
  | SPutLock k _ | SDelLock k | SPutWrite k _ _ | SPutValue k _ _ | SDelValue k _ => k
  end.

Definition same_at (k : bytes) (m m' : mvcc) : Prop :=
  mv_lock m k = mv_lock m' k /\ (forall t, mv_write m k t = mv_write m' k t) /\
  (forall t, mv_value m k t = mv_value m' k t).

Lemma same_at_refl k m : same_at k m m.
Proof. done. Qed.

Lemma same_at_trans k m1 m2 m3 : same_at k m1 m2 -> same_at k m2 m3 -> same_at k m1 m3.
Proof.
  intros (L1 & W1 & V1) (L2 & W2 & V2). repeat split; intros; [by rewrite L1|by rewrite W1|by rewrite V1].
Qed.

Lemma equiv_same_at k m m' : m ≡ m' -> same_at k m m'.
Proof. intros (L & W & V). by repeat split. Qed.

Lemma spec_apply_other k m a : spec_key a <> k -> same_at k m (spec_apply m a).
Proof.
  intros Hk. destruct a; cbn in Hk; repeat split; cbn; intros; try done;
    rewrite ?decide_False; try done; first [by intros -> | by intros [-> _]].
Qed.

Lemma spec_apply_same k m m' a : same_at k m m' -> same_at k (spec_apply m a) (spec_apply m' a).
Proof.
  intros (L & W & V). destruct a; repeat split; cbn; intros; rewrite ?L, ?W, ?V; done.
Qed.

Lemma specs_other k m l : Forall (fun a => spec_key a <> k) l -> same_at k m (foldl spec_apply m l).
Proof.
  intros H. revert m. induction H as [|a l Ha _ IH]; intros m; cbn [foldl]; [done|].
  eapply same_at_trans; [|apply IH]. by apply spec_apply_other.
Qed.

Lemma specs_same k m m' l : same_at k m m' -> same_at k (foldl spec_apply m l) (foldl spec_apply m' l).
Proof.
  revert m m'. induction l as [|a l IH]; intros m m' H; cbn [foldl]; [done|]. by apply IH, spec_apply_same.
Qed.

(** What a request does to one key. *)
Inductive key_action : Type :=
  | APrewrite (p : Prewrite)
  | ACommit (start_ts c : N)
  | ARollback (start_ts : N)
  | ARelease (start_ts : N)
  | AHeartbeat (start_ts ttl_ms : N)
  | ANothing.

Definition action_specs (m : mvcc) (k : bytes) (act : key_action) : list mutation_spec :=
  match act, mv_lock m k with
  | APrewrite p, _ => prewrite_specs p
  | ACommit _ c, Some l => commit_specs k c l
  | ARollback start_ts, o => rollback_specs k start_ts o
  | ARelease start_ts, Some l => drop_specs k start_ts l
  | AHeartbeat _ ttl, Some l =>
      [SPutLock k (mkLockRecord (lock_kind l) (lock_start_ts l) ttl (lock_primary l) (lock_short_value l))]
  | _, _ => []
  end.

(** When the handlers take the action. *)
Definition action_pre (m : mvcc) (k : bytes) (act : key_action) : Prop :=
  match act with
  | APrewrite p =>
      pw_key p = k /\ passes_checks m p /\
      match mv_lock m k with
      | None => True
      | Some l => lock_start_ts l = pw_start_ts p /\ lock_kind l = KLock /\ Op_kind (pw_op p) <> KLock
      end
  | ACommit start_ts c => exists l, mv_lock m k = Some l /\ lock_start_ts l = start_ts
  | ARollback start_ts => undecided m k start_ts
  | ARelease start_ts => exists l, mv_lock m k = Some l /\ lock_start_ts l = start_ts
  | AHeartbeat start_ts ttl => exists l, mv_lock m k = Some l /\ lock_start_ts l = start_ts /\ (lock_ttl_ms l < ttl)%N
  | ANothing => True
  end.

Definition actions_specs (m : mvcc) (acts : list (bytes * key_action)) : list mutation_spec :=
  concat ((fun e => action_specs m e.1 e.2) <$> acts).

Lemma action_specs_key m k act : action_pre m k act -> Forall (fun a => spec_key a = k) (action_specs m k act).
Proof.
  destruct act as [p|T c|T|T|T ttl|]; cbn.
  - intros (<- & _). unfold prewrite_specs. constructor; [done|]. by destruct (Op_long_value _); repeat constructor.
  - intros (l & -> & _). by repeat constructor.
  - intros _. unfold rollback_specs. constructor; [done|]. destruct (mv_lock m k); [|constructor].
    case_decide; [|constructor]. unfold drop_specs. constructor; [done|]. case_match; by repeat constructor.
  - intros (l & -> & _). unfold drop_specs. constructor; [done|]. case_match; by repeat constructor.
  - intros (l & -> & _). by repeat constructor.
  - constructor.
Qed.

(** A batch over distinct keys does to each key its own action and nothing to
    the others. *)
Lemma actions_none m m0 acts k : Forall (fun e => action_pre m e.1 e.2) acts -> k ∉ acts.*1 ->
  same_at k m0 (foldl spec_apply m0 (actions_specs m acts)).
Proof.
  intros Hp Hk. apply specs_other. unfold actions_specs. apply Forall_concat, Forall_fmap.
  apply Forall_forall. intros [k1 a1] Hin. cbn. rewrite Forall_forall in Hp.
  eapply Forall_impl; [by apply action_specs_key, (Hp _ Hin)|]. cbn. intros a -> ->.
  by apply Hk, (list_elem_of_fmap_2 fst _ (k, a1)).
Qed.

Lemma actions_some m m0 acts k act :
  Forall (fun e => action_pre m e.1 e.2) acts -> NoDup acts.*1 -> (k, act) ∈ acts ->
  same_at k (foldl spec_apply m0 (actions_specs m acts)) (foldl spec_apply m0 (action_specs m k act)).
Proof.
  revert m0. induction acts as [|[k1 a1] acts IH]; intros m0 Hp Hd Hin; [by apply elem_of_nil in Hin|].
  cbn [fmap list_fmap fst] in Hd. apply NoDup_cons in Hd as [Hn Hd]. apply Forall_cons in Hp as [Hp1 Hp].
  unfold actions_specs. cbn [fmap list_fmap concat fst snd]. rewrite foldl_app. fold (actions_specs m acts).
  apply elem_of_cons in Hin as [[= <- <-]|Hin].
  - destruct (actions_none m (foldl spec_apply m0 (action_specs m k act)) acts k Hp Hn) as (L & W & V).
    by repeat split.
  - eapply same_at_trans; [by apply IH|]. apply specs_same.
    assert (k1 <> k) as Hne.
    { intros ->. apply Hn. by apply (list_elem_of_fmap_2 fst _ (k, act)). }
    destruct (specs_other k m0 (action_specs m k1 a1)) as (L & W & V); [|by repeat split].
    eapply Forall_impl; [by apply action_specs_key|]. cbn. congruence.
Qed.

(** ** What the handlers stage, key by key *)

Definition stages (m : mvcc) (k : bytes) (act : key_action) (ms : Mutations) : Prop :=
  action_pre m k act /\ ms = spec_mutation <$> action_specs m k act.

(** [staged] is a batch of actions, each satisfying [P]. *)
Definition staged_actions (m : mvcc) (P : bytes -> key_action -> Prop) (keys : list bytes) (staged : Mutations) : Prop :=
  exists acts, acts.*1 = keys /\ staged = spec_mutation <$> actions_specs m acts /\
    Forall (fun e => action_pre m e.1 e.2 /\ P e.1 e.2) acts.

Lemma staged_nil m P : staged_actions m P [] [].
Proof. by exists []. Qed.

Lemma staged_snoc m (P : bytes -> key_action -> Prop) keys staged k act ms :
  staged_actions m P keys staged -> stages m k act ms -> P k act ->
  staged_actions m P (keys ++ [k]) (Mutations_extend staged ms).
Proof.
  intros (acts & <- & -> & Hf) [Hpre ->] HP. exists (acts ++ [(k, act)]). split; [by rewrite fmap_app|]. split.
  - unfold Mutations_extend, actions_specs. rewrite fmap_app, concat_app, fmap_app. cbn. by rewrite app_nil_r.
  - apply Forall_app. split; [done|]. by repeat constructor.
Qed.

Lemma stages_nothing m k : stages m k ANothing [].
Proof. done. Qed.
#[local] Hint Resolve stages_nothing : esker.

Section Staged.
  Context {S : Type} `{TxnStoreLaws S}.
  Implicit Types s : S.

Definition commits (m : mvcc) (T c : N) (k : bytes) (act : key_action) : Prop :=
  act = ACommit T c \/ (act = ANothing /\ committed_at m k T c).

Lemma secondary_stages s k T c : store_ok s ->
  forall ms, secondary s k T c = Ok ms -> exists act, stages (view s) k act ms /\ commits (view s) T c k act.
Proof.
  intros Hs ms. unfold secondary. rewrite get_lock_law by done. cbn [rbind].
  set (primary := match mv_lock (view s) k with None => k | Some l => lock_primary l end).
  pose proof (commit_secondary_spec s k (on_trust primary T c) Hs) as Hc. cbv zeta in Hc.
  destruct (commit_secondary s k _) as [ms'|e]; [|done]. cbn [on_trust pc_start_ts pc_commit_ts] in Hc.
  intros [= <-]. destruct Hc as [(l & El & Hl & _ & ->)|[-> Hc]].
  - exists (ACommit T c). split; [|by left]. split; [by exists l|]. cbn. by rewrite El.
  - exists ANothing. split; [done|]. by right.
Qed.

Lemma commit_one_stages s k T c : store_ok s ->
  forall ms, commit_one s T c k = Ok (Ok ms) -> exists act, stages (view s) k act ms /\ commits (view s) T c k act.
Proof.
  intros Hs ms. unfold commit_one. rewrite get_lock_law by done. cbn [rmap_err rbind].
  destruct (match mv_lock (view s) k with Some l => _ | None => _ end).
  - pose proof (commit_primary_spec s k T c Hs) as Hc. destruct (commit_primary s k T c) as [[plan|tok]|e]; [| |done].
    + destruct Hc as (_ & l & El & Hl & _ & E). intros [= <-]. exists (ACommit T c). split; [|by left].
      split; [by exists l|]. cbn. by rewrite El.
    + destruct Hc as [_ Hc]. intros [= <-]. exists ANothing. split; [done|]. by right.
  - intros [= E]. by apply secondary_stages.
Qed.

Lemma commit_loop_stages s T c keys done_keys staged0 resp staged : store_ok s ->
  staged_actions (view s) (commits (view s) T c) done_keys staged0 ->
  commit_loop s T c keys staged0 = Ok (resp, staged) ->
  (resp = RespCommit StOk /\ staged_actions (view s) (commits (view s) T c) (done_keys ++ keys) staged) \/
  (resp <> RespCommit StOk /\ staged = []).
Proof.
  intros Hs. revert done_keys staged0. induction keys as [|k keys IH]; intros dk st0 Hst; cbn [commit_loop].
  { intros [= <- <-]. left. by rewrite app_nil_r. }
  destruct (commit_one s T c k) as [[ms|e]|] eqn:E; cbn [rbind]; [| |done].
  - apply commit_one_stages in E as (act & Hact & Hc); [|done]. intros E'.
    replace (dk ++ k :: keys) with ((dk ++ [k]) ++ keys) by by rewrite <- app_assoc.
    eapply IH; [|done]. by eapply staged_snoc.
  - intros [= <- <-]. right. split; [|done]. by destruct e.
Qed.

Lemma kv_commit_stages s T c keys resp staged : store_ok s -> kv_commit s T c keys = Ok (resp, staged) ->
  (resp = RespCommit StOk /\ staged_actions (view s) (commits (view s) T c) keys staged) \/
  (resp <> RespCommit StOk /\ staged = []).
Proof. intros Hs. apply (commit_loop_stages s T c keys [] []); [done|apply staged_nil]. Qed.

Definition rolls_back (m : mvcc) (T : N) (k : bytes) (act : key_action) : Prop :=
  act = ARollback T \/ (act = ANothing /\ rolled_back m k T).

Lemma rollback_stages s k T : store_ok s ->
  forall ms, rollback s k T = Ok ms -> exists act, stages (view s) k act ms /\ rolls_back (view s) T k act.
Proof.
  intros Hs ms E. pose proof (rollback_spec s k T Hs) as Hr. rewrite E in Hr. destruct Hr as [[-> Hr]|[Hu ->]].
  - exists ANothing. split; [done|]. by right.
  - exists (ARollback T). split; [|by left]. done.
Qed.

Lemma rollback_loop_stages s T keys done_keys staged0 resp staged : store_ok s ->
  staged_actions (view s) (rolls_back (view s) T) done_keys staged0 ->
  rollback_loop s T keys staged0 = Ok (resp, staged) ->
  (resp = RespRollback StOk /\ staged_actions (view s) (rolls_back (view s) T) (done_keys ++ keys) staged) \/
  (exists k c, k ∈ keys /\ committed_at (view s) k T c /\ resp = RespRollback (StCommitted c) /\ staged = []).
Proof.
  intros Hs. revert done_keys staged0. induction keys as [|k keys IH]; intros dk st0 Hst; cbn [rollback_loop].
  { intros [= <- <-]. left. by rewrite app_nil_r. }
  destruct (rollback s k T) as [ms|e] eqn:E.
  - apply rollback_stages in E as (act & Hact & Hc); [|done]. intros E'.
    destruct (IH (dk ++ [k]) (Mutations_extend st0 ms)) as [[-> Hk]|(k' & c & Hk & Hc' & ?)]; [by eapply staged_snoc|done| |].
    + left. split; [done|]. by rewrite <- app_assoc in Hk.
    + right. exists k', c. split; [by right|done].
  - intros [= <- <-]. right. pose proof (rollback_spec s k T Hs) as Hr. rewrite E in Hr. destruct e; try done.
    exists k, commit_ts. split; [by left|done].
Qed.

Lemma kv_rollback_stages s T keys resp staged : store_ok s -> kv_rollback s T keys = Ok (resp, staged) ->
  (resp = RespRollback StOk /\ staged_actions (view s) (rolls_back (view s) T) keys staged) \/
  (exists k c, k ∈ keys /\ committed_at (view s) k T c /\ resp = RespRollback (StCommitted c) /\ staged = []).
Proof. intros Hs. apply (rollback_loop_stages s T keys [] []); [done|apply staged_nil]. Qed.

Definition releases (T : N) (k : bytes) (act : key_action) : Prop := act = ARelease T \/ act = ANothing.

Lemma release_loop_stages s T keys done_keys staged0 n resp staged : store_ok s ->
  staged_actions (view s) (releases T) done_keys staged0 ->
  release_loop s T keys staged0 n = Ok (resp, staged) ->
  staged_actions (view s) (releases T) (done_keys ++ keys) staged.
Proof.
  intros Hs. revert done_keys staged0 n. induction keys as [|k keys IH]; intros dk st0 n Hst; cbn [release_loop].
  { intros [= <- <-]. by rewrite app_nil_r. }
  destruct (release_spec s k T Hs) as (ms & b & -> & Hb). cbn [rmap_err rbind].
  replace (dk ++ k :: keys) with ((dk ++ [k]) ++ keys) by by rewrite <- app_assoc. destruct b; apply IH.
  - destruct Hb as (l & El & Hl & ->). eapply (staged_snoc _ _ _ _ _ (ARelease T)); [done| |by left].
    split; [by exists l|]. cbn. by rewrite El.
  - replace st0 with (Mutations_extend st0 []) by apply app_nil_r.
    eapply staged_snoc; [done|apply stages_nothing|by right].
Qed.

Lemma kv_release_stages s T keys resp staged : store_ok s -> kv_release_lock s T keys = Ok (resp, staged) ->
  staged_actions (view s) (releases T) keys staged.
Proof. intros Hs. apply (release_loop_stages s T keys [] [] 0); [done|apply staged_nil]. Qed.

Definition resolves (T c : N) (k : bytes) (act : key_action) : Prop :=
  act = ANothing \/ act = (if (c =? 0)%N then ARollback T else ACommit T c).

Lemma resolve_one_stages s T c k ms : store_ok s -> resolve_one s T c k = Ok ms ->
  exists act, stages (view s) k act ms /\ resolves T c k act.
Proof.
  intros Hs. unfold resolve_one, resolves. destruct (N.eqb_spec c 0).
  - intros (act & Hst & [->|[-> _]])%rollback_stages; eauto.
  - intros (act & Hst & [->|[-> _]])%secondary_stages; eauto.
Qed.

Lemma resolve_loop_stages s T c keys done_keys staged0 n resp staged : store_ok s ->
  staged_actions (view s) (resolves T c) done_keys staged0 ->
  resolve_loop s T c keys staged0 n = Ok (resp, staged) ->
  staged_actions (view s) (resolves T c) (done_keys ++ keys) staged.
Proof.
  intros Hs. revert done_keys staged0 n. induction keys as [|k keys IH]; intros dk st0 n Hst; cbn [resolve_loop].
  { intros [= <- <-]. by rewrite app_nil_r. }
  rewrite get_lock_law by done. cbn [rmap_err rbind].
  replace (dk ++ k :: keys) with ((dk ++ [k]) ++ keys) by by rewrite <- app_assoc.
  assert (staged_actions (view s) (resolves T c) (dk ++ [k]) st0) as Hskip.
  { replace st0 with (Mutations_extend st0 []) by apply app_nil_r.
    eapply staged_snoc; [done|apply stages_nothing|by left]. }
  destruct (match mv_lock (view s) k with Some l => _ | None => false end); [|by apply IH].
  destruct (resolve_one s T c k) as [ms|e] eqn:E; [|by apply IH].
  apply resolve_one_stages in E as (act & Hact & Hr); [|done]. apply IH. by eapply staged_snoc.
Qed.

Lemma kv_resolve_stages s T c keys resp staged : store_ok s -> kv_resolve_lock s T c keys = Ok (resp, staged) ->
  staged_actions (view s) (resolves T c) keys staged.
Proof. intros Hs. apply (resolve_loop_stages s T c keys [] [] 0); [done|apply staged_nil]. Qed.

Lemma kv_heartbeat_stages s T k ttl resp staged : store_ok s -> kv_heartbeat s T k ttl = Ok (resp, staged) ->
  staged_actions (view s) (fun _ act => act = AHeartbeat T ttl \/ act = ANothing) [k] staged.
Proof.
  intros Hs. unfold kv_heartbeat. rewrite get_lock_law by done. cbn [rmap_err rbind].
  pose proof (staged_snoc (view s) (fun _ act => act = AHeartbeat T ttl \/ act = ANothing) [] [] k ANothing []
    (staged_nil _ _) (stages_nothing _ _) (or_intror eq_refl)) as Hnop.
  destruct (mv_lock (view s) k) as [l|] eqn:El; [|by intros [= <- <-]].
  case_decide as C; [|by intros [= <- <-]]. destruct (N.ltb_spec (lock_ttl_ms l) ttl) as [L|L]; intros [= <- <-]; [|done].
  apply (staged_snoc _ _ [] [] k (AHeartbeat T ttl)); [apply staged_nil| |by left].
  split; [by exists l|]. cbn. by rewrite El.
Qed.

Definition is_point (tm : TxnMutation) : Prop := match tm with TmCheckRange _ _ => False | _ => True end.
#[global] Instance is_point_dec tm : Decision (is_point tm).
Proof. destruct tm; cbn; apply _. Defined.

Definition point_keys (tms : list TxnMutation) : list bytes := TxnMutation_key <$> filter is_point tms.

(** The key was held for [p] before the request, or is by it. *)
Definition already_held (m : mvcc) (p : Prewrite) : Prop :=
  (exists c, committed_at m (pw_key p) (pw_start_ts p) c) \/
  (exists l, mv_lock m (pw_key p) = Some l /\ lock_start_ts l = pw_start_ts p /\
     (Op_kind (pw_op p) = KLock \/ lock_kind l <> KLock)).

Definition prewrites (m : mvcc) (T : N) (primary : bytes) (ttl : N) (tms : list TxnMutation)
    (k : bytes) (act : key_action) : Prop :=
  exists tm, tm ∈ tms /\ is_point tm /\ TxnMutation_key tm = k /\
    (act = APrewrite (prewrite_request T primary ttl tm) \/
     (act = ANothing /\ already_held m (prewrite_request T primary ttl tm))).

Lemma prewrite_one_stages s T primary ttl tm ms : store_ok s -> filed_above (view s) -> is_point tm ->
  prewrite_one s T primary ttl tm = Ok (StOk, ms) ->
  exists act, stages (view s) (TxnMutation_key tm) act ms /\
    (act = APrewrite (prewrite_request T primary ttl tm) \/
     (act = ANothing /\ already_held (view s) (prewrite_request T primary ttl tm))).
Proof.
  intros Hs Hf Hp E.
  destruct (check_prewrite_spec s (prewrite_request T primary ttl tm) Hs Hf) as (d & Ed & Hd).
  assert (match d with
     | DLock mutations => (StOk, mutations)
     | DAlreadyLocked => (StOk, Mutations_new)
     | DLocked lock => (StLocked (lock_info (TxnMutation_key tm) lock), Mutations_new)
     | DConflict commit_ts => (StConflict commit_ts, Mutations_new)
     | DRolledBack => (StRolledBack, Mutations_new) end = (StOk, ms)) as E'.
  { destruct tm; try done; cbn [prewrite_one] in E; rewrite Ed in E; cbn [rmap_err rbind] in E; by injection E. }
  destruct d; try done; injection E' as <-.
  - destruct Hd as (-> & Hc & Hl). eexists (APrewrite _). split; [|by left]. split; [|done].
    split; [by destruct tm|]. split; [done|]. by replace (TxnMutation_key tm) with (pw_key (prewrite_request T primary ttl tm)).
  - exists ANothing. split; [done|]. right. split; [done|]. destruct Hd as [Hd|[_ Hd]]; [by left|by right].
Qed.

Lemma prewrites_mono m T primary ttl tms tms' k act :
  tms ⊆ tms' -> prewrites m T primary ttl tms k act -> prewrites m T primary ttl tms' k act.
Proof. intros Hsub (tm & Hin & H1). exists tm. split; [by apply Hsub|done]. Qed.

Lemma prewrite_loop_stages s T primary ttl all tms done_keys sts0 staged0 refused0 sts staged :
  store_ok s -> filed_above (view s) -> tms ⊆ all ->
  staged_actions (view s) (prewrites (view s) T primary ttl all) done_keys staged0 ->
  prewrite_loop s T primary ttl tms sts0 staged0 refused0 = Ok (sts, staged, false) ->
  staged_actions (view s) (prewrites (view s) T primary ttl all) (done_keys ++ point_keys tms) staged.
Proof.
  intros Hs Hf. revert done_keys sts0 staged0 refused0.
  induction tms as [|tm tms IH]; intros dk sts0 st0 rf0 Hsub Hst; cbn [prewrite_loop].
  { intros [= <- <- _]. by rewrite app_nil_r. }
  destruct (prewrite_one s T primary ttl tm) as [[st ms]|] eqn:E; cbn [rbind]; [|done]. intros E'.
  assert (st = StOk) as ->.
  { assert (forall tms sts0 st0, prewrite_loop s T primary ttl tms sts0 st0 true = Ok (sts, staged, false) -> False) as Hr.
    { clear. induction tms as [|tm tms IH]; intros sts0 st0; cbn [prewrite_loop]; [done|].
      destruct (prewrite_one s T primary ttl tm) as [[st ms]|]; cbn [rbind]; [|done]. apply IH. }
    destruct st; try done; cbn in E'; rewrite orb_true_r in E'; by apply Hr in E'. }
  assert (tm ∈ all) as Hin by (apply Hsub; by left). assert (tms ⊆ all) as Hsub' by (intros x Hx; apply Hsub; by right).
  destruct (decide (is_point tm)) as [Hp|Hp].
  - destruct (prewrite_one_stages s T primary ttl tm ms Hs Hf Hp E) as (act & Hact & Hw).
    unfold point_keys. rewrite filter_cons_True by done. cbn [fmap list_fmap]. fold (point_keys tms).
    replace (dk ++ TxnMutation_key tm :: point_keys tms) with ((dk ++ [TxnMutation_key tm]) ++ point_keys tms)
      by by rewrite <- app_assoc.
    eapply IH; [done| |done]. eapply staged_snoc; [done..|]. by exists tm.
  - unfold point_keys. rewrite filter_cons_False by done. eapply IH; [done| |done].
    destruct tm as [| | |lo hi]; try by destruct Hp. cbn [prewrite_one] in E.
    destruct (check_range s T lo hi); cbn [rbind] in E; [|done]. injection E as _ <-.
    unfold Mutations_extend. by rewrite app_nil_r.
Qed.

(** The refusal flag says whether some key was refused. *)
Lemma prewrite_loop_refused s T primary ttl tms sts0 staged0 refused0 sts staged refused :
  refused0 = existsb (fun st => negb (TxnStatus_is_ok st)) sts0 ->
  prewrite_loop s T primary ttl tms sts0 staged0 refused0 = Ok (sts, staged, refused) ->
  refused = existsb (fun st => negb (TxnStatus_is_ok st)) sts.
Proof.
  revert sts0 staged0 refused0. induction tms as [|tm tms IH]; intros sts0 st0 rf0 ->; cbn [prewrite_loop].
  { by intros [= <- <- <-]. }
  destruct (prewrite_one s T primary ttl tm) as [[st ms]|]; cbn [rbind]; [|done]. apply IH.
  rewrite existsb_app. cbn. by rewrite orb_false_r.
Qed.

(** A prewrite either takes every key, or stages nothing. *)
Lemma kv_prewrite_stages s T primary ttl tms resp staged : store_ok s -> filed_above (view s) ->
  kv_prewrite s T primary ttl tms = Ok (resp, staged) ->
  exists sts, resp = RespPrewrite sts /\
  if forallb TxnStatus_is_ok sts
  then staged_actions (view s) (prewrites (view s) T primary ttl tms) (point_keys tms) staged
  else staged = [].
Proof.
  intros Hs Hf. unfold kv_prewrite. destruct (prewrite_loop _ _ _ _ _ _ _ _) as [[[sts st] rf]|] eqn:E; cbn [rbind]; [|done].
  intros [= <- <-]. exists sts. split; [done|].
  assert (forallb TxnStatus_is_ok sts = negb rf) as ->.
  { apply prewrite_loop_refused in E as ->; [|done]. clear. induction sts as [|x sts IH]; [done|]. cbn.
    rewrite IH, negb_orb. by rewrite negb_involutive. }
  destruct rf; [done|]. cbn [negb].
  apply (prewrite_loop_stages s T primary ttl tms tms [] [] [] false sts); [done..|apply staged_nil|done].
Qed.

Lemma rollback_files_marker m k T o :
  mv_write (foldl spec_apply m (rollback_specs k T o)) k T = Some (WriteRecord_rollback T).
Proof.
  unfold rollback_specs, drop_specs. destruct o as [l|]; cbn; [|by rewrite decide_True].
  case_decide; [case_match|]; cbn; by rewrite decide_True.
Qed.

(** Settling a primary is the verdict and the act in one batch.
    Rolling one key back answers either [Committed] with the timestamp of the
    commit record that is there, staging nothing, or [Ok], and then the store
    after the batch carries the rollback marker; it never answers anything
    else. *)
Theorem settle_verdict s k T resp staged : store_ok s -> (T < two64)%N ->
  kv_rollback s T [k] = Ok (resp, staged) ->
  (resp = RespRollback StOk /\ store_ok (store_apply s staged) /\ rolled_back (view (store_apply s staged)) k T) \/
  (exists c, resp = RespRollback (StCommitted c) /\ staged = [] /\ committed_at (view s) k T c).
Proof.
  intros Hs HT E. pose proof (rollback_spec s k T Hs) as Hr. unfold kv_rollback in E. cbn [rollback_loop] in E.
  destruct (rollback s k T) as [ms|e]; injection E as <- <-.
  - left. split; [done|]. unfold Mutations_extend, Mutations_new. cbn [app]. destruct Hr as [[-> Hr]|[Hu ->]].
    + destruct (apply_law s [] Hs) as [Hok (_ & W & _)]; [constructor|]. split; [done|].
      destruct Hr as (c & r & (Hw & Hle) & Hk). exists c, r. split; [|done]. split; [by rewrite W|done].
    + destruct (apply_law s (rollback_specs k T (mv_lock (view s) k)) Hs) as [Hok (_ & W & _)]; [by apply rollback_specs_ok|].
      split; [done|]. exists T, (WriteRecord_rollback T). split; [|done]. split; [|by split].
      by rewrite W, rollback_files_marker.
  - right. destruct e; try done. exists commit_ts. done.
Qed.
End Staged.

Lemma settle_verdict_witness :
  (RespRollback StOk = RespRollback StOk /\ store_ok (store_apply example_store (spec_mutation <$> rollback_specs [Byte.x61] 7 (mv_lock (view example_store) [Byte.x61]))) /\
    rolled_back (view (store_apply example_store (spec_mutation <$> rollback_specs [Byte.x61] 7 (mv_lock (view example_store) [Byte.x61])))) [Byte.x61] 7) \/
  (exists c, RespRollback StOk = RespRollback (StCommitted c) /\
    (spec_mutation <$> rollback_specs [Byte.x61] 7 (mv_lock (view example_store) [Byte.x61])) = [] /\
    committed_at (view example_store) [Byte.x61] 7 c).
Proof.
  apply (settle_verdict (S := MemoryStore) example_store [Byte.x61] 7); [apply example_store_ok|reflexivity|].
  vm_compute. reflexivity.
Defined.
