(* ===== verification/TxnSafety.v ===== *)
(** Safety of the transaction system: the invariant of every reachable
    state, and what follows from it: a transaction is committed or rolled
    back as a whole, the first committer of a key wins, and a snapshot read
    never changes its answer.  The system is the server's handlers under the
    client's contract (one primary for a transaction's whole life, commits and
    rollbacks of other keys only on its verdict), and has no collector. *)

From Stdlib Require Import Strings.Byte.
From stdpp Require Import prelude.
From Stdlib Require Import NArith ZArith Lia.
From S2P Require Import Prelude BTree TxnCodec TxnStore Mvcc Percolator PercolatorSpec TxnKv TxnSystem.

(** ** The effect of one action on its key *)

Definition effect_lock (m : mvcc) (k : bytes) (act : key_action) : option LockRecord :=
  match act, mv_lock m k with
  | APrewrite p, _ => Some (prewrite_lock p)
  | ACommit _ _, _ => None
  | ARollback T, Some l => if decide (lock_start_ts l = T) then None else Some l
  | ARelease _, _ => None
  | AHeartbeat _ ttl, Some l =>
      Some (mkLockRecord (lock_kind l) (lock_start_ts l) ttl (lock_primary l) (lock_short_value l))
  | _, o => o
  end.

Definition effect_write (m : mvcc) (k : bytes) (act : key_action) (t : N) : option WriteRecord :=
  match act, mv_lock m k with
  | ACommit _ c, Some l => if decide (t = c) then Some (commit_record l) else mv_write m k t
  | ARollback T, _ => if decide (t = T) then Some (WriteRecord_rollback T) else mv_write m k t
  | _, _ => mv_write m k t
  end.

(** Only the transaction's own value moves, and only while it holds the key
    undecided. *)
Definition value_owner (act : key_action) : option N :=
  match act with
  | APrewrite p => Some (pw_start_ts p)
  | ARollback T | ARelease T => Some T
  | _ => None
  end.

Lemma action_effect m m' k act : action_pre m k act ->
  same_at k m' (foldl spec_apply m (action_specs m k act)) ->
  mv_lock m' k = effect_lock m k act /\ (forall t, mv_write m' k t = effect_write m k act t) /\
  (forall t, value_owner act <> Some t -> mv_value m' k t = mv_value m k t).
Proof.
  intros Hpre (L & W & V). rewrite L. setoid_rewrite W. setoid_rewrite V. clear m' L W V.
  unfold action_specs, effect_lock, effect_write.
  destruct act as [p|T c|T|T|T ttl|]; cbn [action_pre value_owner] in *.
  - destruct Hpre as (<- & _). unfold prewrite_specs.
    destruct (Op_long_value (pw_op p)); cbn; rewrite decide_True by done; (split; [done|split; [done|]]);
      intros t Ht; [|done]. rewrite decide_False; [done|]. intros [_ ->]. done.
  - destruct Hpre as (l & -> & Hl). cbn. rewrite decide_True by done. split; [done|split; [|done]].
    intros t. repeat case_decide; naive_solver.
  - unfold rollback_specs, drop_specs. destruct (mv_lock m k) as [l|] eqn:El; cbn.
    + case_decide as C; [|cbn; rewrite El; split; [done|split; [|done]]; intros t; repeat case_decide; naive_solver].
      case_match; cbn; rewrite decide_True by done; (split; [done|split]).
      * intros t. repeat case_decide; naive_solver.
      * intros t Ht. rewrite decide_False; [done|]. intros [_ ->]. done.
      * intros t. repeat case_decide; naive_solver.
      * done.
    + rewrite El. split; [done|split; [|done]]. intros t. repeat case_decide; naive_solver.
  - destruct Hpre as (l & -> & Hl). unfold drop_specs. case_match; cbn; rewrite decide_True by done;
      (split; [done|split; [done|]]); intros t Ht; [|done]. rewrite decide_False; [done|]. intros [_ ->]. done.
  - destruct Hpre as (l & -> & Hl). cbn. by rewrite decide_True.
  - cbn. split; [by destruct (mv_lock m k)|]. split; [by destruct (mv_lock m k)|done].
Qed.

(** The value a prewrite stages. *)
Lemma prewrite_value m m' p : 
  same_at (pw_key p) m' (foldl spec_apply m (prewrite_specs p)) ->
  forall v, Op_long_value (pw_op p) = Some v -> mv_value m' (pw_key p) (pw_start_ts p) = Some v.
Proof.
  intros (_ & _ & V) v Hv. rewrite V. unfold prewrite_specs. rewrite Hv. cbn. by rewrite decide_True.
Qed.

Lemma same_at_sym k m m' : same_at k m m' -> same_at k m' m.
Proof. intros (L & W & V). by repeat split. Qed.

(** ** The system *)

Inductive phase : Type := Idle | Open | Committing (c : N) | Aborted.

#[global] Instance phase_eq_dec : EqDecision phase.
Proof. solve_decision. Defined.

Section System.
  Context {S : Type} `{TxnStoreLaws S}.
  Context (primary_of : N -> bytes).

Record sys : Type := mkSys {
  st : S;
  clock : N;
  ph : N -> phase;
  net : list (N * N * list TxnMutation);
  acked : list (N * bytes)
}.

Definition set_phase (ph : N -> phase) (T : N) (p : phase) : N -> phase :=
  fun T' => if decide (T' = T) then p else ph T'.

(** A point of a prewrite that was sent. *)
Definition sent (nt : list (N * N * list TxnMutation)) (p : Prewrite) : Prop :=
  exists T ttl tms tm, (T, ttl, tms) ∈ nt /\ tm ∈ tms /\ is_point tm /\
    p = prewrite_request T (primary_of T) ttl tm.

(** The keys a request writes rather than only holds. *)
Definition is_write (tm : TxnMutation) : Prop := match tm with TmPut _ _ _ | TmDelete _ _ => True | _ => False end.
#[global] Instance is_write_dec tm : Decision (is_write tm).
Proof. destruct tm; cbn; apply _. Defined.

Definition acknowledged (T : N) (tms : list TxnMutation) (resp : TxnKvResp) : list (N * bytes) :=
  match resp with
  | RespPrewrite sts =>
      if forallb TxnStatus_is_ok sts then (fun tm => (T, TxnMutation_key tm)) <$> filter is_write tms else []
  | _ => []
  end.

Inductive step : sys -> sys -> Prop :=
  | step_begin σ T :
      (clock σ < T)%N -> (T < two64)%N ->
      step σ (mkSys (st σ) T (set_phase (ph σ) T Open) (net σ) (acked σ))
  | step_send σ T ttl tms :
      ph σ T = Open -> (ttl < two64)%N -> NoDup (point_keys tms) ->
      primary_of T <> [] -> (N.of_nat (length (primary_of T)) < two64)%N ->
      (forall tm, tm ∈ tms -> (pw_read_ts (prewrite_request T (primary_of T) ttl tm) <= clock σ)%N) ->
      step σ (mkSys (st σ) (clock σ) (ph σ) ((T, ttl, tms) :: net σ) (acked σ))
  | step_prewrite σ T ttl tms resp staged :
      (T, ttl, tms) ∈ net σ ->
      kv_prewrite (st σ) T (primary_of T) ttl tms = Ok (resp, staged) ->
      step σ (mkSys (store_apply (st σ) staged) (clock σ) (ph σ) (net σ) (acknowledged T tms resp ++ acked σ))
  | step_start_commit σ T c :
      ph σ T = Open -> (clock σ < c)%N -> (c < two64)%N ->
      (forall p, sent (net σ) p -> pw_start_ts p = T -> Op_kind (pw_op p) <> KLock -> (T, pw_key p) ∈ acked σ) ->
      step σ (mkSys (st σ) c (set_phase (ph σ) T (Committing c)) (net σ) (acked σ))
  | step_abort σ T :
      ph σ T = Open ->
      step σ (mkSys (st σ) (clock σ) (set_phase (ph σ) T Aborted) (net σ) (acked σ))
  | step_commit σ T c keys resp staged :
      ph σ T = Committing c -> NoDup keys ->
      keys = [primary_of T] \/ committed_at (view (st σ)) (primary_of T) T c ->
      kv_commit (st σ) T c keys = Ok (resp, staged) ->
      step σ (mkSys (store_apply (st σ) staged) (clock σ) (ph σ) (net σ) (acked σ))
  | step_rollback σ T keys resp staged :
      ph σ T <> Idle -> NoDup keys ->
      keys = [primary_of T] \/ ph σ T = Aborted \/ rolled_back (view (st σ)) (primary_of T) T ->
      kv_rollback (st σ) T keys = Ok (resp, staged) ->
      step σ (mkSys (store_apply (st σ) staged) (clock σ) (ph σ) (net σ) (acked σ))
  | step_resolve σ T c keys resp staged :
      ph σ T <> Idle -> NoDup keys ->
      (if (c =? 0)%N then rolled_back (view (st σ)) (primary_of T) T
       else committed_at (view (st σ)) (primary_of T) T c) ->
      kv_resolve_lock (st σ) T c keys = Ok (resp, staged) ->
      step σ (mkSys (store_apply (st σ) staged) (clock σ) (ph σ) (net σ) (acked σ))
  | step_release σ T keys resp staged :
      ph σ T = Open -> NoDup keys ->
      kv_release_lock (st σ) T keys = Ok (resp, staged) ->
      step σ (mkSys (store_apply (st σ) staged) (clock σ) (ph σ) (net σ)
                (filter (fun e => ~ (e.1 = T /\ e.2 ∈ keys)) (acked σ)))
  | step_heartbeat σ T ttl resp staged :
      (ttl < two64)%N ->
      kv_heartbeat (st σ) T (primary_of T) ttl = Ok (resp, staged) ->
      step σ (mkSys (store_apply (st σ) staged) (clock σ) (ph σ) (net σ) (acked σ)).

Definition initial (σ : sys) : Prop :=
  store_ok (st σ) /\ (clock σ < two64)%N /\ (forall T, ph σ T = Idle) /\ net σ = [] /\ acked σ = [] /\
  (forall k, mv_lock (view (st σ)) k = None) /\ (forall k t, mv_write (view (st σ)) k t = None).

Inductive reachable : sys -> Prop :=
  | reach_init σ : initial σ -> reachable σ
  | reach_step σ σ' : reachable σ -> step σ σ' -> reachable σ'.

Inductive steps : sys -> sys -> Prop :=
  | steps_refl σ : steps σ σ
  | steps_next σ σ' σ'' : steps σ σ' -> step σ' σ'' -> steps σ σ''.

(** ** The invariant *)

Definition lock_inv (nt : list (N * N * list TxnMutation)) (m : mvcc) (k : bytes) : Prop :=
  forall l, mv_lock m k = Some l ->
    lock_primary l = primary_of (lock_start_ts l) /\ undecided m k (lock_start_ts l) /\
    exists p, sent nt p /\ pw_key p = k /\ pw_start_ts p = lock_start_ts l /\
      Op_kind (pw_op p) = lock_kind l /\ Op_short_value (pw_op p) = lock_short_value l /\
      (lock_kind l <> KLock -> forall t r, mv_write m k t = Some r -> moved_the_key r -> (t <= pw_read_ts p)%N) /\
      (forall v, Op_long_value (pw_op p) = Some v -> mv_value m k (lock_start_ts l) = Some v).

Definition write_inv (phs : N -> phase) (m : mvcc) (k : bytes) : Prop :=
  forall t r, mv_write m k t = Some r ->
    (write_kind r = KRollback ->
       t = write_start_ts r /\ phs t <> Idle /\ (phs t = Aborted \/ rolled_back m (primary_of t) t)) /\
    (write_kind r <> KRollback ->
       phs (write_start_ts r) = Committing t /\
       committed_at m (primary_of (write_start_ts r)) (write_start_ts r) t /\
       (write_kind r = KPut -> write_short_value r = None -> exists v, mv_value m k (write_start_ts r) = Some v)).

(** At most one record of a transaction on a key. *)
Definition unique_inv (m : mvcc) (k : bytes) : Prop :=
  forall T c r c' r', record_of m k T c r -> record_of m k T c' r' -> c = c'.

Definition order_inv (nt : list (N * N * list TxnMutation)) (m : mvcc) (k : bytes) : Prop :=
  forall t1 r1 t2 r2, mv_write m k t1 = Some r1 -> mv_write m k t2 = Some r2 ->
    moved_the_key r1 -> moved_the_key r2 -> (t1 < t2)%N ->
    exists p, sent nt p /\ pw_key p = k /\ pw_start_ts p = write_start_ts r2 /\
      Op_kind (pw_op p) = write_kind r2 /\ (t1 <= pw_read_ts p)%N.

Definition acked_inv (ak : list (N * bytes)) (m : mvcc) (k : bytes) : Prop :=
  forall T, (T, k) ∈ ak ->
    (exists l, mv_lock m k = Some l /\ lock_start_ts l = T /\ lock_kind l <> KLock) \/ ~ undecided m k T.

Definition phase_inv (clk : N) (phs : N -> phase) : Prop :=
  (clk < two64)%N /\
  (forall T, phs T <> Idle -> (T <= clk)%N) /\
  (forall T c, phs T = Committing c -> (T < c)%N /\ (c <= clk)%N /\ phs c = Idle) /\
  (forall T T' c, phs T = Committing c -> phs T' = Committing c -> T = T').

Definition net_inv (σ : sys) : Prop := forall p, sent (net σ) p ->
  prewrite_ok p /\ pw_primary p = primary_of (pw_start_ts p) /\ ph σ (pw_start_ts p) <> Idle /\
  (pw_read_ts p <= clock σ)%N /\
  (forall c, ph σ (pw_start_ts p) = Committing c ->
     (pw_read_ts p < c)%N /\ (Op_kind (pw_op p) <> KLock -> (pw_start_ts p, pw_key p) ∈ acked σ)).

Definition requests_inv (σ : sys) : Prop :=
  forall T ttl tms, (T, ttl, tms) ∈ net σ -> NoDup (point_keys tms).

Record inv (σ : sys) : Prop := {
  inv_store : store_ok (st σ);
  inv_phase : phase_inv (clock σ) (ph σ);
  inv_net : net_inv σ;
  inv_requests : requests_inv σ;
  inv_lock : forall k, lock_inv (net σ) (view (st σ)) k;
  inv_write : forall k, write_inv (ph σ) (view (st σ)) k;
  inv_unique : forall k, unique_inv (view (st σ)) k;
  inv_order : forall k, order_inv (net σ) (view (st σ)) k;
  inv_acked : forall k, acked_inv (acked σ) (view (st σ)) k
}.

(** What a batch may do to a key, given who asked for it. *)
Definition allowed (σ : sys) (k : bytes) (act : key_action) : Prop :=
  match act with
  | APrewrite p => sent (net σ) p
  | ACommit T c =>
      ph σ T = Committing c /\ (k = primary_of T \/ committed_at (view (st σ)) (primary_of T) T c)
  | ARollback T =>
      ph σ T <> Idle /\ (k = primary_of T \/ ph σ T = Aborted \/ rolled_back (view (st σ)) (primary_of T) T)
  | ARelease T => ph σ T = Open
  | AHeartbeat _ ttl => (ttl < two64)%N
  | ANothing => True
  end.

(** The key after a batch: its action's effect. *)
Definition changed (m m' : mvcc) (k : bytes) (act : key_action) : Prop :=
  action_pre m k act /\ same_at k m' (foldl spec_apply m (action_specs m k act)).

Lemma inv_filed_above σ : inv σ -> filed_above (view (st σ)).
Proof.
  intros Hi k t r Hw. destruct (inv_write σ Hi k t r Hw) as [H1 H2].
  destruct (decide (write_kind r = KRollback)) as [E|E].
  - destruct (H1 E) as (-> & _). lia.
  - destruct (H2 E) as (Hp & _). destruct (inv_phase σ Hi) as (_ & _ & Hc & _). apply Hc in Hp. lia.
Qed.

(** A record, once written, stays: a commit files at a timestamp of its own,
    and a marker at a start timestamp no commit shares. *)
Lemma writes_stay σ m' k act t r : inv σ -> allowed σ k act -> changed (view (st σ)) m' k act ->
  mv_write (view (st σ)) k t = Some r -> mv_write m' k t = Some r.
Proof.
  intros Hi Ha [Hpre Hs] Hw. destruct (action_effect _ _ _ _ Hpre Hs) as (_ & -> & _).
  destruct (inv_write σ Hi k t r Hw) as [W1 W2]. destruct (inv_phase σ Hi) as (_ & _ & Hph & Hinj).
  destruct act as [p|T c|T|T|T ttl|]; cbn [effect_write]; try done; try (by destruct (mv_lock _ k)).
  - cbn in Hpre. destruct Hpre as (l & El & Hl). rewrite El. case_decide as C; [|done]. subst t. exfalso.
    destruct Ha as [HT _]. destruct (inv_lock σ Hi k l El) as (_ & Hu & _).
    destruct (decide (write_kind r = KRollback)) as [E|E].
    + destruct (W1 E) as (_ & Hne & _). apply Hph in HT as (_ & _ & HT). done.
    + destruct (W2 E) as (Hp & _). pose proof (Hinj _ _ _ HT Hp) as E2. apply (Hu c r).
      rewrite Hl, E2. split; [done|split; [|done]]. apply Hph in Hp. lia.
  - cbn in Hpre. assert (mv_write (view (st σ)) k T = Some r -> False) as Hn.
    { intros HwT. destruct (inv_write σ Hi k T r HwT) as [V1 V2]. destruct (decide (write_kind r = KRollback)) as [E|E].
      - destruct (V1 E) as (E2 & _). apply (Hpre T r). by split; [|split; [lia|]].
      - destruct (V2 E) as (Hp & _). apply Hph in Hp as (_ & _ & Hp). by destruct Ha as [Ha _]. }
    case_decide as C; [subst t; by destruct Hn|done].
Qed.
(** Where a record of the new state came from. *)
Lemma writes_from m m' k act t r : changed m m' k act -> mv_write m' k t = Some r ->
  mv_write m k t = Some r \/
  (exists T l, act = ACommit T t /\ mv_lock m k = Some l /\ lock_start_ts l = T /\ r = commit_record l) \/
  (act = ARollback t /\ r = WriteRecord_rollback t).
Proof.
  intros [Hpre Hs]. destruct (action_effect _ _ _ _ Hpre Hs) as (_ & -> & _).
  destruct act as [p|T c|T|T|T ttl|]; cbn [effect_write]; try (by left).
  - cbn in Hpre. destruct Hpre as (l & El & Hl). rewrite El. case_decide as C; [|by left].
    intros [= <-]. subst t. right; left. by exists T, l.
  - case_decide as C; [|by left]. intros [= <-]. subst t. right; right. done.
Qed.

(** The whole store after a batch. *)
Definition batch (σ : sys) (m' : mvcc) : Prop :=
  forall k, exists act, allowed σ k act /\ changed (view (st σ)) m' k act.

Lemma record_of_mono σ m' k T c r : inv σ -> batch σ m' ->
  record_of (view (st σ)) k T c r -> record_of m' k T c r.
Proof.
  intros Hi Hb (Hw & Hle & Hst). destruct (Hb k) as (act & Ha & Hc). split; [by eapply writes_stay|done].
Qed.

Lemma committed_mono σ m' k T c : inv σ -> batch σ m' ->
  committed_at (view (st σ)) k T c -> committed_at m' k T c.
Proof. intros Hi Hb (r & Hr & Hk). exists r. split; [by eapply record_of_mono|done]. Qed.

Lemma rolled_back_mono σ m' k T : inv σ -> batch σ m' -> rolled_back (view (st σ)) k T -> rolled_back m' k T.
Proof. intros Hi Hb (c & r & Hr & Hk). exists c, r. split; [by eapply record_of_mono|done]. Qed.

Lemma decided_mono σ m' k T : inv σ -> batch σ m' -> ~ undecided (view (st σ)) k T -> ~ undecided m' k T.
Proof. intros Hi Hb Hd Hu. apply Hd. intros c r Hr. by eapply Hu, record_of_mono. Qed.

(** A transaction that is decided on a key owns no lock there, so no action
    moves its value. *)
Lemma value_stays σ m' k act T c r : inv σ -> changed (view (st σ)) m' k act ->
  record_of (view (st σ)) k T c r -> mv_value m' k T = mv_value (view (st σ)) k T.
Proof.
  intros Hi [Hpre Hs] Hr. destruct (action_effect _ _ _ _ Hpre Hs) as (_ & _ & Hv). apply Hv. intros E.
  destruct act as [p|T' c'|T'|T'|T' ttl|]; cbn in *; simplify_eq.
  - destruct Hpre as (<- & [Hu _] & _). by apply (Hu c r).
  - by apply (Hpre c r).
  - destruct Hpre as (l & El & <-). destruct (inv_lock σ Hi k l El) as (_ & Hu & _). by apply (Hu c r).
Qed.

Lemma commit_moves_value σ k l : inv σ -> mv_lock (view (st σ)) k = Some l ->
  lock_kind l = KPut -> lock_short_value l = None -> exists v, mv_value (view (st σ)) k (lock_start_ts l) = Some v.
Proof.
  intros Hi El Hk Hsv. destruct (inv_lock σ Hi k l El) as (_ & _ & p & _ & _ & _ & Ek & Es & _ & Hv).
  rewrite Hk in Ek. rewrite Hsv in Es. destruct (pw_op p) as [v| |]; try done. cbn in *.
  destruct (decide (length v <= SHORT_VALUE_MAX_LEN)) as [C|C]; [done|]. exists v. apply Hv. apply decide_True. lia.
Qed.

Lemma write_inv_batch σ m' : inv σ -> batch σ m' -> forall k, write_inv (ph σ) m' k.
Proof.
  intros Hi Hb k t r Hw. destruct (Hb k) as (act & Ha & Hc).
  destruct (writes_from _ _ _ _ _ _ Hc Hw) as [Hold|[(T & l & -> & El & Hl & ->)|[-> ->]]].
  - destruct (inv_write σ Hi k t r Hold) as [W1 W2]. split.
    + intros E. destruct (W1 E) as (Et & Hne & [Hab|Hrb]); (split; [done|split; [done|]]); [by left|right].
      by eapply rolled_back_mono.
    + intros E. destruct (W2 E) as (Hp & Hcm & Hv). split; [done|split; [by eapply committed_mono|]].
      intros Ek Es. destruct (Hv Ek Es) as (v & Ev). exists v.
      rewrite (value_stays σ m' k act (write_start_ts r) t r Hi Hc); [done|].
      split; [done|split; [|done]]. by apply (inv_filed_above σ Hi k).
  - split; [intros E; cbn in E; by destruct (view_lock_records (st σ) k l (inv_store σ Hi) El)|].
    intros _. cbn [commit_record write_start_ts write_kind write_short_value]. rewrite Hl.
    destruct Ha as [Hp Hprim]. split; [done|]. split.
    + destruct Hprim as [->|Hprim]; [|by eapply committed_mono].
      exists (commit_record l). split.
      * split; [done|split; [|done]]. destruct (inv_phase σ Hi) as (_ & _ & Hph & _). apply Hph in Hp. lia.
      * by destruct (view_lock_records (st σ) _ l (inv_store σ Hi) El).
    + intros Ek Es. destruct (commit_moves_value σ k l Hi El Ek Es) as (v & Ev). exists v.
      destruct Hc as [Hpre Hs]. destruct (action_effect _ _ _ _ Hpre Hs) as (_ & _ & Hv). by rewrite Hv, <- Hl.
  - split; [|done]. intros _. split; [done|]. destruct Ha as [Hne Hprim]. split; [done|].
    destruct Hprim as [Hk|[Hab|Hrb]]; [right|by left|right; by eapply rolled_back_mono].
    rewrite <- Hk. exists t, (WriteRecord_rollback t). split; [|done]. by split.
Qed.

Lemma unique_inv_batch σ m' : inv σ -> batch σ m' -> forall k, unique_inv m' k.
Proof.
  intros Hi Hb k. destruct (Hb k) as (act & Ha & Hc).
  assert (forall T c r, record_of m' k T c r -> record_of (view (st σ)) k T c r \/
    (undecided (view (st σ)) k T /\ (act = ACommit T c \/ (act = ARollback T /\ c = T)))) as From.
  { intros T c r (Hw & Hle & Hst). destruct (writes_from _ _ _ _ _ _ Hc Hw) as [?|[(T' & l & -> & El & Hl & ->)|[-> ->]]].
    - by left.
    - right. cbn in Hst. destruct (inv_lock σ Hi k l El) as (_ & Hu & _). rewrite Hst in *. subst T'. split; [done|by left].
    - right. cbn in Hst. subst c. destruct Hc as [Hpre _]. split; [done|by right]. }
  intros T c r c' r' R1 R2. destruct (From T c r R1) as [O1|[U1 A1]], (From T c' r' R2) as [O2|[U2 A2]].
  - by eapply (inv_unique σ Hi k).
  - by apply U2 in O1.
  - by apply U1 in O2.
  - destruct A1 as [->|[-> ->]], A2 as [A2|[A2 ->]]; congruence.
Qed.

Lemma sent_primary σ p : inv σ -> sent (net σ) p -> pw_primary p = primary_of (pw_start_ts p).
Proof. intros Hi Hp. by apply (inv_net σ Hi p Hp). Qed.

(** A lock that was there, with its records and value as they were. *)
Lemma lock_kept σ m' k l l0 : inv σ -> mv_lock (view (st σ)) k = Some l0 ->
  lock_start_ts l = lock_start_ts l0 -> lock_primary l = lock_primary l0 -> lock_kind l = lock_kind l0 ->
  lock_short_value l = lock_short_value l0 ->
  (forall c r, record_of m' k (lock_start_ts l) c r -> record_of (view (st σ)) k (lock_start_ts l) c r) ->
  (forall t r, mv_write m' k t = Some r -> moved_the_key r -> mv_write (view (st σ)) k t = Some r) ->
  mv_value m' k (lock_start_ts l) = mv_value (view (st σ)) k (lock_start_ts l) ->
  lock_primary l = primary_of (lock_start_ts l) /\ undecided m' k (lock_start_ts l) /\
  exists p, sent (net σ) p /\ pw_key p = k /\ pw_start_ts p = lock_start_ts l /\
    Op_kind (pw_op p) = lock_kind l /\ Op_short_value (pw_op p) = lock_short_value l /\
    (lock_kind l <> KLock -> forall t r, mv_write m' k t = Some r -> moved_the_key r -> (t <= pw_read_ts p)%N) /\
    (forall v, Op_long_value (pw_op p) = Some v -> mv_value m' k (lock_start_ts l) = Some v).
Proof.
  intros Hi El0 E1 E2 E3 E4 Hrec Hmv Hval. rewrite E2, E3, E4.
  destruct (inv_lock σ Hi k l0 El0) as (Hp & Hu & p & P1 & P2 & P3 & P4 & P5 & P6 & P7).
  rewrite E1 in *. split; [done|split]; [intros c r Hr; by apply (Hu c r), Hrec|].
  exists p. repeat split; try done; [intros Hk t r Hw Hm; apply (P6 Hk t r); auto|].
  intros v Hv. rewrite Hval. by apply P7.
Qed.

Lemma lock_inv_batch σ m' : inv σ -> batch σ m' -> forall k, lock_inv (net σ) m' k.
Proof.
  intros Hi Hb k l Hl'. destruct (Hb k) as (act & Ha & Hc). pose proof Hc as [Hpre Hs].
  destruct (action_effect _ _ _ _ Hpre Hs) as (El & Ew & Ev). rewrite El in Hl'.
  destruct act as [p|T c|T|T|T ttl|]; cbn [effect_lock effect_write value_owner action_pre] in *; try done.
  - destruct Hpre as (Hk & [Hu Hmv] & _). injection Hl' as <-. cbn [prewrite_lock lock_primary lock_start_ts lock_kind lock_short_value].
    split; [by apply (sent_primary σ)|]. split.
    + intros c r (Hw & Hle & Hst). rewrite Ew in Hw. apply (Hu c r). by rewrite Hk.
    + exists p. repeat split; try done.
      * intros _ t r Hw Hm. rewrite Ew in Hw. apply (Hmv t r); [by rewrite Hk|done].
      * subst k. by apply (prewrite_value (view (st σ)) m' p).
  - destruct (mv_lock (view (st σ)) k) as [l0|] eqn:El0; [|done]. case_decide as C; [done|]. injection Hl' as ->.
    apply (lock_kept σ m' k l l); try done.
    + intros c r (Hw & Hle & Hst). rewrite Ew in Hw. case_decide; [|by split]. injection Hw as <-. by destruct C.
    + intros t r Hw Hm. rewrite Ew in Hw. case_decide; [|done]. injection Hw as <-. by destruct Hm.
    + apply Ev. by intros [= ->].
  - destruct (mv_lock (view (st σ)) k) as [l0|] eqn:El0; [|done]. injection Hl' as <-.
    apply (lock_kept σ m' k _ l0); try done; [| |by apply Ev].
    + intros c r (Hw & Hle & Hst). rewrite Ew in Hw. by split.
    + intros t r Hw _. by rewrite Ew in Hw.
  - destruct (mv_lock (view (st σ)) k) as [l0|] eqn:El0; [|done]. injection Hl' as <-.
    apply (lock_kept σ m' k _ l0); try done; [| |by apply Ev].
    + intros c r (Hw & Hle & Hst). rewrite Ew in Hw. by split.
    + intros t r Hw _. by rewrite Ew in Hw.
Qed.

(** A commit that moves a key lands above every earlier one. *)
Lemma commit_is_newest σ k T c l : inv σ -> mv_lock (view (st σ)) k = Some l -> lock_start_ts l = T ->
  ph σ T = Committing c -> lock_kind l <> KLock ->
  exists p, sent (net σ) p /\ pw_key p = k /\ pw_start_ts p = T /\ Op_kind (pw_op p) = lock_kind l /\
    (pw_read_ts p < c)%N /\
    (forall t r, mv_write (view (st σ)) k t = Some r -> moved_the_key r -> (t <= pw_read_ts p)%N).
Proof.
  intros Hi El <- Hp Hk. destruct (inv_lock σ Hi k l El) as (_ & _ & p & P1 & P2 & P3 & P4 & P5 & P6 & _).
  exists p. repeat split; try done; [|by apply P6].
  destruct (inv_net σ Hi p P1) as (_ & _ & _ & _ & Hn). rewrite P3 in Hn. by apply Hn.
Qed.

Lemma order_inv_batch σ m' : inv σ -> batch σ m' -> forall k, order_inv (net σ) m' k.
Proof.
  intros Hi Hb k t1 r1 t2 r2 Hw1 Hw2 Hm1 Hm2 Hlt. destruct (Hb k) as (act & Ha & Hc).
  assert (forall t r, mv_write m' k t = Some r -> moved_the_key r ->
    mv_write (view (st σ)) k t = Some r \/
    (exists T l, act = ACommit T t /\ mv_lock (view (st σ)) k = Some l /\ lock_start_ts l = T /\ r = commit_record l)) as From.
  { intros t r Hw Hm. destruct (writes_from _ _ _ _ _ _ Hc Hw) as [?|[?|[-> ->]]]; [by left|by right|].
    by destruct Hm as [[] _]. }
  destruct (From t1 r1 Hw1 Hm1) as [O1|(T & l & -> & El & Hl & ->)];
    destruct (From t2 r2 Hw2 Hm2) as [O2|(T' & l' & E & El' & Hl' & ->)].
  - by apply (inv_order σ Hi k t1 r1 t2 r2).
  - subst act. destruct Ha as [Hp _].
    destruct (commit_is_newest σ k T' t2 l' Hi El' Hl' Hp) as (p & P1 & P2 & P3 & P4 & P5 & P6); [by destruct Hm2|].
    exists p. repeat split; [done|done|by rewrite P3|done|by eapply P6].
  - destruct Ha as [Hp _]. exfalso.
    destruct (commit_is_newest σ k T t1 l Hi El Hl Hp) as (p & P1 & P2 & P3 & P4 & P5 & P6); [by destruct Hm1|].
    specialize (P6 t2 r2 O2 Hm2). lia.
  - injection E as _ ->. lia.
Qed.

Lemma acked_inv_batch σ m' T k act : inv σ -> batch σ m' -> allowed σ k act -> changed (view (st σ)) m' k act ->
  act <> ARelease T ->
  (exists l, mv_lock (view (st σ)) k = Some l /\ lock_start_ts l = T /\ lock_kind l <> KLock) \/
    ~ undecided (view (st σ)) k T ->
  (exists l, mv_lock m' k = Some l /\ lock_start_ts l = T /\ lock_kind l <> KLock) \/ ~ undecided m' k T.
Proof.
  intros Hi Hb Ha Hc Hnr [(l & El & Hl & Hk)|Hd]; [|right; by eapply decided_mono].
  pose proof Hc as [Hpre Hs]. destruct (action_effect _ _ _ _ Hpre Hs) as (El' & Ew & _).
  assert (forall c r, mv_write m' k c = Some r -> write_start_ts r = T -> (T <= c)%N -> ~ undecided m' k T) as Dec.
  { intros c r Hw Hst Hle Hu. by apply (Hu c r). }
  destruct act as [p|T' c|T'|T'|T' ttl|]; cbn [effect_lock effect_write action_pre] in *; rewrite ?El in *.
  - destruct Hpre as (_ & _ & _ & Hkl & _). done.
  - right. destruct Hpre as (l0 & [= <-] & Hl0). apply (Dec c (commit_record l)); [|done|].
    + by rewrite Ew, decide_True.
    + destruct Ha as [Hp _]. destruct (inv_phase σ Hi) as (_ & _ & Hph & _). apply Hph in Hp. subst. lia.
  - case_decide as C; [right|left; by exists l]. apply (Dec T' (WriteRecord_rollback T')); [|cbn; congruence|cbn; subst; lia].
    by rewrite Ew, decide_True.
  - destruct Hpre as (l0 & [= <-] & Hl0). by rewrite Hl in Hl0; subst.
  - left. eexists. split; [done|]. done.
  - left. by exists l.
Qed.

(** ** From a handler's batch to the next state *)

Lemma action_specs_ok σ k act : inv σ -> allowed σ k act -> action_pre (view (st σ)) k act ->
  Forall spec_ok (action_specs (view (st σ)) k act).
Proof.
  intros Hi Ha Hpre. destruct (inv_phase σ Hi) as (Hclk & Hle & Hph & _).
  assert (forall T, ph σ T <> Idle -> (T < two64)%N) as Hb by (intros T HT; apply Hle in HT; lia).
  destruct act as [p|T c|T|T|T ttl|]; cbn [action_specs allowed action_pre] in *.
  - apply prewrite_specs_ok. by apply (inv_net σ Hi p Ha).
  - destruct Hpre as (l & El & Hl). rewrite El. destruct Ha as [Hp _]. apply Hph in Hp.
    apply commit_specs_ok; [lia|]. by apply (view_lock_records (st σ) k l (inv_store σ Hi)).
  - apply rollback_specs_ok, Hb. by destruct Ha.
  - destruct Hpre as (l & El & Hl). rewrite El. apply drop_specs_ok, Hb. by rewrite Ha.
  - destruct Hpre as (l & El & Hl). rewrite El.
    destruct (view_lock_records (st σ) k l (inv_store σ Hi) El) as (H1 & H2 & H3 & H4 & H5 & H6). repeat constructor; done.
  - constructor.
Qed.

(** The next store is well formed, and every key of it changed by one allowed
    action: the batch's own on its keys, none elsewhere. *)
Lemma staged_batch σ (P : bytes -> key_action -> Prop) keys staged : inv σ -> NoDup keys ->
  (forall k act, k ∈ keys -> P k act -> allowed σ k act) ->
  staged_actions (view (st σ)) P keys staged ->
  store_ok (store_apply (st σ) staged) /\
  (forall k, exists act, allowed σ k act /\ changed (view (st σ)) (view (store_apply (st σ) staged)) k act /\
     ((k ∈ keys /\ P k act) \/ ((k ∉ keys) /\ act = ANothing))).
Proof.
  intros Hi Hd HP (acts & <- & -> & Hf).
  assert (Forall (fun e => action_pre (view (st σ)) e.1 e.2) acts) as Hpre by (eapply Forall_impl; [done|]; by intros ? []).
  assert (forall e, e ∈ acts -> allowed σ e.1 e.2) as Hall.
  { intros e He. apply HP; [by apply list_elem_of_fmap_2|]. rewrite Forall_forall in Hf. by apply Hf. }
  destruct (apply_law (st σ) (actions_specs (view (st σ)) acts) (inv_store σ Hi)) as [Hok Hv].
  { unfold actions_specs. apply Forall_concat, Forall_fmap, Forall_forall. intros e He.
    apply action_specs_ok; [done|by apply Hall|]. rewrite Forall_forall in Hpre. by apply Hpre. }
  split; [done|]. intros k. destruct (decide (k ∈ acts.*1)) as [Hk|Hk].
  - apply list_elem_of_fmap in Hk as ([k' act] & -> & He). cbn [fst]. exists act.
    split; [by apply (Hall _ He)|]. rewrite Forall_forall in Hf. destruct (Hf _ He) as [Hp HPk]. split; [split; [done|]|].
    + eapply same_at_trans; [by apply equiv_same_at|]. by apply actions_some.
    + left. split; [by apply (list_elem_of_fmap_2 fst _ (k', act))|done].
  - exists ANothing. split; [done|]. split; [|by right]. split; [done|].
    eapply same_at_trans; [by apply equiv_same_at|]. apply same_at_sym. by apply actions_none.
Qed.

Lemma inv_after_batch σ s' ak' : inv σ -> store_ok s' -> batch σ (view s') ->
  (forall k, acked_inv ak' (view s') k) ->
  (forall T k c, ph σ T = Committing c -> (T, k) ∈ acked σ -> (T, k) ∈ ak') ->
  inv (mkSys s' (clock σ) (ph σ) (net σ) ak').
Proof.
  intros Hi Hs Hb Hak Hkeep. constructor; cbn [st clock ph net acked]; try done.
  - apply Hi.
  - intros p Hp. destruct (inv_net σ Hi p Hp) as (N1 & N2 & N3 & N4 & N5). do 4 (split; [done|]).
    intros c Hc. destruct (N5 c Hc) as [N6 N7]. split; [done|]. intros Hk. eapply Hkeep; eauto.
  - apply Hi.
  - by apply lock_inv_batch.
  - by apply write_inv_batch.
  - by apply (unique_inv_batch σ).
  - by apply order_inv_batch.
Qed.

(** A batch whose actions release nothing keeps what was acknowledged. *)
Lemma inv_after_staged σ (P : bytes -> key_action -> Prop) keys staged : inv σ -> NoDup keys ->
  (forall k act, k ∈ keys -> P k act -> allowed σ k act /\ forall T, act <> ARelease T) ->
  staged_actions (view (st σ)) P keys staged ->
  inv (mkSys (store_apply (st σ) staged) (clock σ) (ph σ) (net σ) (acked σ)).
Proof.
  intros Hi Hd HP Hst.
  destruct (staged_batch σ P keys staged Hi Hd (fun k act Hk Hp => proj1 (HP k act Hk Hp)) Hst) as [Hok Hch].
  assert (batch σ (view (store_apply (st σ) staged))) as Hb.
  { intros k. destruct (Hch k) as (act & Ha & Hc & _). by exists act. }
  apply inv_after_batch; try done. intros k T Hin. destruct (Hch k) as (act & Ha & Hc & Hw).
  eapply acked_inv_batch; [done..| |by apply (inv_acked σ Hi)].
  destruct Hw as [[Hk Hp]|[_ ->]]; [by apply (HP k act)|done].
Qed.

Lemma apply_nothing σ : inv σ -> inv (mkSys (store_apply (st σ) []) (clock σ) (ph σ) (net σ) (acked σ)).
Proof.
  intros Hi. apply (inv_after_staged σ (fun _ _ => True) []); [done|constructor| |apply staged_nil].
  intros k act Hk. by apply elem_of_nil in Hk.
Qed.

(** Every handler stages allowed actions only. *)

Lemma prewrites_allowed σ T ttl tms k act : (T, ttl, tms) ∈ net σ ->
  prewrites (view (st σ)) T (primary_of T) ttl tms k act -> allowed σ k act /\ forall T', act <> ARelease T'.
Proof. intros Hin (tm & Htm & Hp & _ & [->|[-> _]]); split; try done. by exists T, ttl, tms, tm. Qed.

Lemma commits_allowed σ T c keys k act : ph σ T = Committing c ->
  keys = [primary_of T] \/ committed_at (view (st σ)) (primary_of T) T c ->
  k ∈ keys -> commits (view (st σ)) T c k act -> allowed σ k act /\ forall T', act <> ARelease T'.
Proof.
  intros Hp Hw Hk [->|[-> _]]; [|done]. split; [|done]. split; [done|].
  destruct Hw as [->|Hw]; [left; by apply list_elem_of_singleton|by right].
Qed.

Lemma rolls_back_allowed σ T keys k act : ph σ T <> Idle ->
  keys = [primary_of T] \/ ph σ T = Aborted \/ rolled_back (view (st σ)) (primary_of T) T ->
  k ∈ keys -> rolls_back (view (st σ)) T k act -> allowed σ k act /\ forall T', act <> ARelease T'.
Proof.
  intros Hp Hw Hk [->|[-> _]]; [|done]. split; [|done]. split; [done|].
  destruct Hw as [->|Hw]; [left; by apply list_elem_of_singleton|by right].
Qed.

Lemma committed_phase σ k T c : inv σ -> committed_at (view (st σ)) k T c ->
  ph σ T = Committing c /\ committed_at (view (st σ)) (primary_of T) T c.
Proof.
  intros Hi (r & (Hw & _ & Hst) & Hk). destruct (inv_write σ Hi _ _ _ Hw) as [_ W2].
  destruct (W2 Hk) as (Hp & Hc & _). by rewrite Hst in *.
Qed.

Lemma resolves_allowed σ T c k act : inv σ -> ph σ T <> Idle ->
  (if (c =? 0)%N then rolled_back (view (st σ)) (primary_of T) T
   else committed_at (view (st σ)) (primary_of T) T c) ->
  resolves T c k act -> allowed σ k act /\ forall T', act <> ARelease T'.
Proof.
  intros Hi Hp Hw [->| ->]; [done|]. destruct (N.eqb_spec c 0).
  - split; [|done]. split; [done|]. tauto.
  - split; [|done]. split; [|by right]. by apply (committed_phase σ _ _ _ Hi Hw).
Qed.

Lemma step_prewrite_inv σ T ttl tms resp staged : inv σ -> (T, ttl, tms) ∈ net σ ->
  kv_prewrite (st σ) T (primary_of T) ttl tms = Ok (resp, staged) ->
  inv (mkSys (store_apply (st σ) staged) (clock σ) (ph σ) (net σ) (acknowledged T tms resp ++ acked σ)).
Proof.
  intros Hi Hin E. pose proof (inv_filed_above σ Hi) as Hf.
  destruct (kv_prewrite_stages (st σ) T (primary_of T) ttl tms resp staged (inv_store σ Hi) Hf E) as (sts & -> & Hst).
  cbn [acknowledged]. destruct (forallb TxnStatus_is_ok sts); [|subst staged; by apply apply_nothing].
  pose proof (inv_requests σ Hi T ttl tms Hin) as Hd.
  destruct (staged_batch σ (prewrites (view (st σ)) T (primary_of T) ttl tms) (point_keys tms) staged Hi Hd) as [Hok Hch].
  { intros k act _ Hpw. by eapply prewrites_allowed. }
  { done. }
  assert (batch σ (view (store_apply (st σ) staged))) as Hb.
  { intros k. destruct (Hch k) as (act & Ha & Hc & _). by exists act. }
  apply inv_after_batch; try done; [|intros T' k c _ Hk; apply elem_of_app; by right].
  intros k T' [Hnew|Hold]%elem_of_app; destruct (Hch k) as (act & Ha & Hc & Hw).
  2:{ eapply acked_inv_batch; [done..| |by apply (inv_acked σ Hi)].
      destruct Hw as [[_ (tm & _ & _ & _ & [->|[-> _]])]|[_ ->]]; done. }
  apply list_elem_of_fmap in Hnew as (tm & [= -> ->] & [Hwr Htm]%list_elem_of_filter).
  assert (is_point tm) as Hp by by destruct tm.
  assert (TxnMutation_key tm ∈ point_keys tms) as Hk by (apply list_elem_of_fmap_2, list_elem_of_filter; done).
  destruct Hw as [[_ (tm' & Htm' & Hp' & Ek & Hact)]|[? _]]; [|done].
  assert (tm' = tm) as ->.
  { eapply (NoDup_fmap_elem TxnMutation_key); [done|by apply list_elem_of_filter..|done]. }
  assert (Op_kind (pw_op (prewrite_request T (primary_of T) ttl tm)) <> KLock) as Hkind by by destruct tm.
  assert (pw_key (prewrite_request T (primary_of T) ttl tm) = TxnMutation_key tm) as Hkey by by destruct tm.
  destruct Hact as [->|[-> Hheld]].
  - left. destruct Hc as [Hpre Hs]. destruct (action_effect _ _ _ _ Hpre Hs) as (El & _).
    exists (prewrite_lock (prewrite_request T (primary_of T) ttl tm)). by repeat split.
  - eapply acked_inv_batch; [done..|]. rewrite <- Hkey.
    destruct Hheld as [(c & r & Hr & _)|(l & El & Hl & [Hk1|Hk1])]; [|done|].
    + right. intros Hu. by apply (Hu c r).
    + left. by exists l.
Qed.

Lemma step_release_inv σ T keys resp staged : inv σ -> ph σ T = Open -> NoDup keys ->
  kv_release_lock (st σ) T keys = Ok (resp, staged) ->
  inv (mkSys (store_apply (st σ) staged) (clock σ) (ph σ) (net σ)
         (filter (fun e => ~ (e.1 = T /\ e.2 ∈ keys)) (acked σ))).
Proof.
  intros Hi Hop Hd E. apply kv_release_stages in E; [|apply Hi].
  destruct (staged_batch σ (releases T) keys staged Hi Hd) as [Hok Hch]; [|done|].
  { intros k act _ [->| ->]; done. }
  assert (batch σ (view (store_apply (st σ) staged))) as Hb.
  { intros k. destruct (Hch k) as (act & Ha & Hc & _). by exists act. }
  apply inv_after_batch; try done.
  - intros k T' [Hn Hin]%list_elem_of_filter. destruct (Hch k) as (act & Ha & Hc & Hw).
    eapply acked_inv_batch; [done..| |by apply (inv_acked σ Hi)].
    destruct Hw as [[Hk [->| ->]]|[_ ->]]; try done. intros [= ->]. by apply Hn.
  - intros T' k c Hp Hin. apply list_elem_of_filter. split; [|done]. cbn. intros [-> _]. congruence.
Qed.

Lemma sent_cons T ttl tms nt p : sent ((T, ttl, tms) :: nt) p <->
  (exists tm, tm ∈ tms /\ is_point tm /\ p = prewrite_request T (primary_of T) ttl tm) \/ sent nt p.
Proof.
  split.
  - intros (T' & ttl' & tms' & tm & [[= -> -> ->]|Hin]%elem_of_cons & Htm & Hp & ->); [left; by exists tm|right].
    by exists T', ttl', tms', tm.
  - intros [(tm & Htm & Hp & ->)|(T' & ttl' & tms' & tm & Hin & Htm & Hp & ->)].
    + exists T, ttl, tms, tm. by repeat split; try left.
    + exists T', ttl', tms', tm. split; [by right|done].
Qed.

Lemma sent_mono T ttl tms nt p : sent nt p -> sent ((T, ttl, tms) :: nt) p.
Proof. intros Hp. apply sent_cons. by right. Qed.

Lemma step_send_inv σ T ttl tms : inv σ -> ph σ T = Open -> (ttl < two64)%N -> NoDup (point_keys tms) ->
  primary_of T <> [] -> (N.of_nat (length (primary_of T)) < two64)%N ->
  (forall tm, tm ∈ tms -> (pw_read_ts (prewrite_request T (primary_of T) ttl tm) <= clock σ)%N) ->
  inv (mkSys (st σ) (clock σ) (ph σ) ((T, ttl, tms) :: net σ) (acked σ)).
Proof.
  intros Hi Hop Httl Hd Hp1 Hp2 Hrd. constructor; cbn [st clock ph net acked]; try apply Hi.
  - intros p [(tm & Htm & _ & ->)|Hp]%sent_cons; [|by apply (inv_net σ Hi)].
    destruct (inv_phase σ Hi) as (Hclk & Hle & _ & _).
    assert (T <= clock σ)%N as HT by (apply Hle; by rewrite Hop). cbn [pw_start_ts prewrite_request].
    split; [by repeat split; cbn; try done; lia|]. split; [done|]. cbn [ph clock acked]. rewrite Hop.
    split; [done|]. split; [by apply Hrd|done].
  - intros T' ttl' tms' [[= -> -> ->]|Hin]%elem_of_cons; [done|]. by eapply (inv_requests σ Hi).
  - intros k l El. destruct (inv_lock σ Hi k l El) as (H1 & H2 & p & H3 & H4).
    split; [done|split; [done|]]. exists p. split; [by apply sent_mono|done].
  - intros k t1 r1 t2 r2 W1 W2 M1 M2 L. destruct (inv_order σ Hi k t1 r1 t2 r2 W1 W2 M1 M2 L) as (p & H1 & H2).
    exists p. split; [by apply sent_mono|done].
Qed.

(** Phases only ever move forward, so what the store says of them stays true. *)
Lemma write_inv_phase phs phs' m k :
  (forall T, phs T <> Open -> phs T <> Idle -> phs' T = phs T) -> (forall T, phs T <> Idle -> phs' T <> Idle) ->
  write_inv phs m k -> write_inv phs' m k.
Proof.
  intros Hkeep Hidle Hw t r Hr. destruct (Hw t r Hr) as [W1 W2]. split.
  - intros E. destruct (W1 E) as (-> & Hne & Hd). split; [done|split; [by apply Hidle|]].
    destruct Hd as [Hd|Hd]; [left|by right]. rewrite Hkeep; [done|by rewrite Hd..].
  - intros E. destruct (W2 E) as (Hp & Hc & Hv). split; [|done]. rewrite Hkeep; [done|by rewrite Hp..].
Qed.

Lemma step_phase_inv σ T p clk : inv σ -> (clk < two64)%N -> (clock σ <= clk)%N ->
  (T <= clk)%N -> p <> Idle -> (ph σ T = Idle -> (clock σ < T)%N) -> ph σ T = Idle \/ ph σ T = Open ->
  (forall c, p = Committing c -> ph σ T = Open /\ c = clk /\ (clock σ < c)%N /\
     (forall p, sent (net σ) p -> pw_start_ts p = T -> Op_kind (pw_op p) <> KLock -> (T, pw_key p) ∈ acked σ)) ->
  inv (mkSys (st σ) clk (set_phase (ph σ) T p) (net σ) (acked σ)).
Proof.
  intros Hi Hclk Hmono HT Hne Hidle Hopen Hcom. destruct (inv_phase σ Hi) as (_ & Hle & Hph & Hinj).
  assert (forall T' c, set_phase (ph σ) T p T' = Committing c -> (T' = T /\ p = Committing c) \/ (T' <> T /\ ph σ T' = Committing c)) as Hset.
  { intros T' c. unfold set_phase. case_decide; auto. }
  constructor; cbn [st clock ph net acked]; try apply Hi.
  - split; [done|]. split.
    { intros T'. unfold set_phase. case_decide as C; [by subst|]. intros ?%Hle. lia. }
    split.
    { intros T' c [[-> E]|[Hn E]]%Hset.
      - destruct (Hcom c E) as (Ho & -> & Hlt & _). assert (T <= clock σ)%N by (apply Hle; by rewrite Ho).
        split; [lia|split; [lia|]]. unfold set_phase. rewrite decide_False by lia.
        destruct (decide (ph σ clk = Idle)) as [|Hn]; [done|]. apply Hle in Hn. lia.
      - destruct (Hph T' c E) as (L1 & L2 & L3). split; [done|split; [lia|]]. unfold set_phase. case_decide as C; [|done].
        subst c. apply Hidle in L3. lia. }
    intros T1 T2 c [[-> E1]|[N1 E1]]%Hset [[-> E2]|[N2 E2]]%Hset; [done| | |by eapply Hinj].
    + destruct (Hcom c E1) as (_ & -> & Hlt & _). apply Hph in E2. lia.
    + destruct (Hcom c E2) as (_ & -> & Hlt & _). apply Hph in E1. lia.
  - intros q Hq. destruct (inv_net σ Hi q Hq) as (Q1 & Q2 & Q3 & Q4 & Q5). cbn [ph clock acked net] in *.
    split; [done|split; [done|split]]; [unfold set_phase; by case_decide|split; [lia|]].
    intros c [[Eq E]|[Hn E]]%Hset; [|by apply Q5]. destruct (Hcom c E) as (_ & _ & Hlt & Hak).
    split; [lia|]. intros Hk. rewrite Eq. by apply Hak.
  - intros k. eapply write_inv_phase; [..|by apply (inv_write σ Hi)].
    + intros T' H1 H2. unfold set_phase. case_decide; [subst; tauto|done].
    + intros T' H1. unfold set_phase. by case_decide.
Qed.

Lemma initial_inv σ : initial σ -> inv σ.
Proof.
  intros (Hs & Hclk & Hph & Hnet & Hak & Hl & Hw). constructor; try done.
  - split; [done|]. split; [by intros T; rewrite Hph|]. split; by intros *; rewrite Hph.
  - intros p (T & ttl & tms & tm & Hin & _). rewrite Hnet in Hin. by apply elem_of_nil in Hin.
  - intros T ttl tms Hin. rewrite Hnet in Hin. by apply elem_of_nil in Hin.
  - intros k l. by rewrite Hl.
  - intros k t r. by rewrite Hw.
  - intros k T c r c' r' (Hr & _). by rewrite Hw in Hr.
  - intros k t1 r1 t2 r2. by rewrite Hw.
  - intros k T Hin. rewrite Hak in Hin. by apply elem_of_nil in Hin.
Qed.

Lemma step_inv σ σ' : inv σ -> step σ σ' -> inv σ'.
Proof.
  intros Hi Hstep. destruct (inv_phase σ Hi) as (Hclk & Hle & Hph & Hinj).
  destruct Hstep as [σ T H1 H2|σ T ttl tms H1 H2 H3 H4 H5 H6|σ T ttl tms resp staged H1 H2|σ T c H1 H2 H3 H4
    |σ T H1|σ T c keys resp staged H1 H2 H3 H4|σ T keys resp staged H1 H2 H3 H4|σ T c keys resp staged H1 H2 H3 H4
    |σ T keys resp staged H1 H2 H3|σ T ttl resp staged H1 H2].
  - assert (ph σ T = Idle) as E by (destruct (decide (ph σ T = Idle)) as [|Hn]; [done|]; apply Hle in Hn; lia).
    apply step_phase_inv; try done; [lia|by left].
  - by apply step_send_inv.
  - by eapply step_prewrite_inv.
  - apply step_phase_inv; try done; [lia| |by rewrite H1|by right|by intros ? [= <-]].
    assert (T <= clock σ)%N by (apply Hle; by rewrite H1). lia.
  - apply step_phase_inv; try done; [apply Hle; by rewrite H1|by rewrite H1|by right].
  - destruct (kv_commit_stages (st σ) T c keys resp staged (inv_store σ Hi) H4) as [[_ Hst]|[_ ->]]; [|by apply apply_nothing].
    eapply inv_after_staged; [done..| |done]. intros k act. by apply commits_allowed.
  - destruct (kv_rollback_stages (st σ) T keys resp staged (inv_store σ Hi) H4) as [[_ Hst]|(k & c & _ & _ & _ & ->)]; [|by apply apply_nothing].
    eapply inv_after_staged; [done..| |done]. intros k act. by apply rolls_back_allowed.
  - apply kv_resolve_stages in H4; [|apply Hi].
    eapply inv_after_staged; [done..| |done]. intros k act _. by apply resolves_allowed.
  - by eapply step_release_inv.
  - apply kv_heartbeat_stages in H2; [|apply Hi].
    eapply inv_after_staged; [done|apply NoDup_singleton| |done]. intros k act Hk [->| ->]; done.
Qed.

Lemma reachable_inv σ : reachable σ -> inv σ.
Proof. induction 1; [by apply initial_inv|by eapply step_inv]. Qed.

(** Every step changes each key of the store by one allowed action. *)
Lemma batch_nothing σ : batch σ (view (st σ)).
Proof. intros k. by exists ANothing. Qed.

Lemma batch_staged σ (P : bytes -> key_action -> Prop) keys staged : inv σ -> NoDup keys ->
  (forall k act, k ∈ keys -> P k act -> allowed σ k act) ->
  staged_actions (view (st σ)) P keys staged -> batch σ (view (store_apply (st σ) staged)).
Proof.
  intros Hi Hd HP Hst k. destruct (staged_batch σ P keys staged Hi Hd HP Hst) as [_ Hch].
  destruct (Hch k) as (act & Ha & Hc & _). by exists act.
Qed.

Lemma batch_empty σ : inv σ -> batch σ (view (store_apply (st σ) [])).
Proof.
  intros Hi. apply (batch_staged σ (fun _ _ => True) []); [done|constructor| |apply staged_nil].
  intros k act Hk. by apply elem_of_nil in Hk.
Qed.

Lemma step_batch σ σ' : inv σ -> step σ σ' -> batch σ (view (st σ')).
Proof.
  intros Hi Hstep.
  destruct Hstep as [σ T H1 H2|σ T ttl tms H1 H2 H3 H4 H5 H6|σ T ttl tms resp staged H1 H2|σ T c H1 H2 H3 H4
    |σ T H1|σ T c keys resp staged H1 H2 H3 H4|σ T keys resp staged H1 H2 H3 H4|σ T c keys resp staged H1 H2 H3 H4
    |σ T keys resp staged H1 H2 H3|σ T ttl resp staged H1 H2]; cbn [st]; try apply batch_nothing.
  - destruct (kv_prewrite_stages (st σ) T (primary_of T) ttl tms resp staged (inv_store σ Hi) (inv_filed_above σ Hi) H2)
      as (sts & -> & Hst). destruct (forallb _ sts); [|subst; by apply batch_empty].
    eapply batch_staged; [done|by eapply (inv_requests σ Hi)| |done]. intros k act _ Hpw. by eapply prewrites_allowed.
  - destruct (kv_commit_stages (st σ) T c keys resp staged (inv_store σ Hi) H4) as [[_ Hst]|[_ ->]]; [|by apply batch_empty].
    eapply batch_staged; [done..| |done]. intros k act Hk Hc. by eapply commits_allowed.
  - destruct (kv_rollback_stages (st σ) T keys resp staged (inv_store σ Hi) H4) as [[_ Hst]|(k & c & _ & _ & _ & ->)]; [|by apply batch_empty].
    eapply batch_staged; [done..| |done]. intros k act Hk Hc. by eapply rolls_back_allowed.
  - apply kv_resolve_stages in H4; [|apply Hi]. eapply batch_staged; [done..| |done].
    intros k act _ Hc. by eapply resolves_allowed.
  - apply kv_release_stages in H3; [|apply Hi]. eapply batch_staged; [done..| |done]. by intros k act _ [->| ->].
  - apply kv_heartbeat_stages in H2; [|apply Hi].
    eapply batch_staged; [done|apply NoDup_singleton| |done]. by intros k act _ [->| ->].
Qed.

(** ** Snapshot reads *)

(** Nobody who already drew a commit timestamp at or below [ts] still has a
    write of [k] to commit. *)
Definition quiet (σ : sys) (k : bytes) (ts : N) : Prop :=
  forall T c p, ph σ T = Committing c -> (c <= ts)%N -> sent (net σ) p -> pw_start_ts p = T -> pw_key p = k ->
    Op_kind (pw_op p) <> KLock -> ~ undecided (view (st σ)) k T.

Lemma unblocked_quiet σ k ts : inv σ -> (forall l, mv_lock (view (st σ)) k = Some l -> ~ blocks l ts) -> quiet σ k ts.
Proof.
  intros Hi Hb T c p Hp Hc Hsent HT Hk Hkind.
  destruct (inv_net σ Hi p Hsent) as (_ & _ & _ & _ & Hn). rewrite HT in Hn.
  destruct (Hn c Hp) as [_ Hak]. specialize (Hak Hkind). rewrite Hk in Hak.
  destruct (inv_acked σ Hi k T Hak) as [(l & El & Hl & Hkl)|Hd]; [|done]. exfalso.
  apply (Hb l El). split; [|done]. destruct (inv_phase σ Hi) as (_ & _ & Hph & _). apply Hph in Hp. lia.
Qed.

Lemma step_facts σ σ' : step σ σ' ->
  (clock σ <= clock σ')%N /\
  (forall T c, ph σ' T = Committing c -> ph σ T = Committing c \/ (clock σ < c)%N) /\
  (forall p, sent (net σ') p -> sent (net σ) p \/ ph σ' (pw_start_ts p) = Open).
Proof.
  intros Hstep. destruct Hstep; cbn [clock ph net]; (split; [lia|]); (split; [|try (by left)]); try (by left).
  - intros T' c. unfold set_phase. case_decide; [done|by left].
  - intros p [(tm & Htm & _ & ->)|Hp]%sent_cons; [right|by left]. done.
  - intros T' c'. unfold set_phase. case_decide; [|by left]. intros [= <-]. by right.
  - intros T' c'. unfold set_phase. case_decide; [done|by left].
Qed.

Lemma quiet_step σ σ' k ts : inv σ -> (ts <= clock σ)%N -> quiet σ k ts -> step σ σ' -> quiet σ' k ts.
Proof.
  intros Hi Hts Hq Hstep T c p Hp Hc Hsent HT Hk Hkind.
  destruct (step_facts σ σ' Hstep) as (_ & Fph & Fsent).
  destruct (Fph T c Hp) as [Hp0|]; [|lia]. destruct (Fsent p Hsent) as [Hs0|Ho]; [|rewrite HT in Ho; congruence].
  eapply decided_mono; [done|by eapply step_batch|]. by eapply Hq.
Qed.

(** No step files a new version at or below [ts] on a quiet key. *)
Lemma quiet_versions σ m' k ts t r : inv σ -> batch σ m' -> quiet σ k ts ->
  mv_write m' k t = Some r -> (t <= ts)%N -> is_a_version (write_kind r) = true ->
  mv_write (view (st σ)) k t = Some r.
Proof.
  intros Hi Hb Hq Hw Ht Hv. destruct (Hb k) as (act & Ha & Hc).
  destruct (writes_from _ _ _ _ _ _ Hc Hw) as [?|[(T & l & -> & El & Hl & ->)|[-> ->]]]; [done| |done]. exfalso.
  destruct Ha as [Hp _]. destruct (inv_lock σ Hi k l El) as (_ & Hu & p & P1 & P2 & P3 & P4 & _).
  rewrite Hl in Hu. eapply (Hq T t p); try done; [by rewrite P3|]. rewrite P4. intros E. cbn in Hv. by rewrite E in Hv.
Qed.

Definition version_below (ts t : N) (r : WriteRecord) : Prop := (t <= ts)%N /\ is_a_version (write_kind r) = true.

Lemma quiet_newest σ m' k ts o : inv σ -> batch σ m' -> quiet σ k ts ->
  newest (view (st σ)) k (version_below ts) o ->
  newest m' k (version_below ts) o /\ value_in m' k o = value_in (view (st σ)) k o.
Proof.
  intros Hi Hb Hq Ho. destruct o as [v|].
  - destruct Ho as (Hw & HP & Hmax). destruct (Hb k) as (act & Ha & Hc). split.
    + split; [by eapply writes_stay|split; [done|]]. intros t r Hw' [Ht Hv].
      apply (Hmax t r); [by eapply quiet_versions|done].
    + unfold value_in. destruct (write_kind (record v)) eqn:K; try done. destruct (write_short_value (record v)); [done|].
      rewrite (value_stays σ m' k act (write_start_ts (record v)) (commit_ts v) (record v) Hi Hc); [done|].
      split; [done|split; [|done]]. by apply (inv_filed_above σ Hi k).
  - split; [|done]. intros t r Hw [Ht Hv]. apply (Ho t r); [by eapply quiet_versions|done].
Qed.

Lemma quiet_steps σ σ' k ts o : inv σ -> (ts <= clock σ)%N -> quiet σ k ts -> steps σ σ' ->
  newest (view (st σ)) k (version_below ts) o ->
  inv σ' /\ (ts <= clock σ')%N /\ quiet σ' k ts /\ newest (view (st σ')) k (version_below ts) o /\
  value_in (view (st σ')) k o = value_in (view (st σ)) k o.
Proof.
  intros Hi Hts Hq Hsteps Ho. induction Hsteps as [σ|σ σ' σ'' _ IH Hstep]; [done|].
  destruct (IH Hi Hts Hq Ho) as (Hi' & Hts' & Hq' & Ho' & Ev).
  destruct (quiet_newest σ' (view (st σ'')) k ts o Hi' (step_batch σ' σ'' Hi' Hstep) Hq' Ho') as [Hn Ev'].
  split; [by eapply step_inv|]. split; [pose proof (step_facts σ' σ'' Hstep); lia|].
  split; [by apply (quiet_step σ' σ'')|]. split; [done|]. by rewrite Ev'.
Qed.

(** A version of a reachable state has its value. *)
Lemma value_in_ok σ k ts o : inv σ -> newest (view (st σ)) k (version_below ts) o ->
  exists out, value_in (view (st σ)) k o = Ok out /\ forall l, out <> ReadLocked l.
Proof.
  intros Hi Ho. destruct o as [v|]; [|by exists ReadNotFound]. destruct Ho as (Hw & [_ Hv] & _). unfold value_in.
  destruct (write_kind (record v)) eqn:K; try (by exists ReadNotFound).
  destruct (write_short_value (record v)) as [x|] eqn:Es; [by exists (ReadValue x)|].
  destruct (inv_write σ Hi k _ _ Hw) as [_ W2]. rewrite K in W2. destruct (W2 ltac:(done)) as (_ & _ & Hval).
  destruct (Hval eq_refl Es) as (x & ->). by exists (ReadValue x).
Qed.

(** ** Properties of every reachable state *)

(** C1: a transaction whose clients keep the contract of Percolator commits as a
    whole or not at all.  The contract is the guards of [step]: every request of
    a transaction names one primary, the same for its whole life; its commit
    timestamp is drawn after every write was acknowledged; another key is
    committed only once the primary carries the commit record, and rolled back
    or resolved only on the primary's verdict, or after the transaction was
    aborted without committing.  Then, once any key carries a commit record of
    it, the primary carries one at the same timestamp, every other one is at
    that timestamp too, and no key carries its rollback marker, in whatever
    order prewrites, commits, rollbacks, resolutions, releases and heartbeats
    arrive and are repeated.  A client that releases its primary and then locks
    under another is outside the contract, and there the guarantee is lost:
    [stale_resolver_tears]. *)
Theorem atomic_commit σ k T c : reachable σ -> committed_at (view (st σ)) k T c ->
  committed_at (view (st σ)) (primary_of T) T c /\
  (forall k' c', committed_at (view (st σ)) k' T c' -> c' = c) /\
  (forall k', ~ rolled_back (view (st σ)) k' T).
Proof.
  intros Hi%reachable_inv Hc. destruct (committed_phase σ k T c Hi Hc) as [Hp Hprim]. split; [done|]. split.
  { intros k' c' Hc'. apply (committed_phase σ k' T c' Hi) in Hc' as [Hp' _]. congruence. }
  intros k' (t & r & (Hw & Hle & Hst) & Hk).
  destruct (inv_write σ Hi k' t r Hw) as [W1 _]. destruct (W1 Hk) as (E & _ & Hd). rewrite Hst in E. subst t.
  destruct Hd as [Hd|(t & r' & Hr' & Hk')]; [congruence|]. destruct Hprim as (r0 & Hr0 & Hk0).
  pose proof (inv_unique σ Hi _ _ _ _ _ _ Hr0 Hr') as <-.
  destruct Hr0 as (Hw0 & _), Hr' as (Hw' & _). congruence.
Qed.

(** The question [write_of_txn] asks has at most one answer:
    a transaction leaves at most one record on a key, and while its lock is
    there it has left none. *)
Theorem single_record σ k T : reachable σ ->
  (forall c r c' r', record_of (view (st σ)) k T c r -> record_of (view (st σ)) k T c' r' -> c = c' /\ r = r') /\
  (forall l, mv_lock (view (st σ)) k = Some l -> lock_start_ts l = T -> undecided (view (st σ)) k T).
Proof.
  intros Hi%reachable_inv. split.
  - intros c r c' r' H1 H2. pose proof (inv_unique σ Hi _ _ _ _ _ _ H1 H2) as <-.
    destruct H1 as (W1 & _), H2 as (W2 & _). split; congruence.
  - intros l El <-. by apply (inv_lock σ Hi k l El).
Qed.

(** C10: first committer wins.  Of two transactions that wrote
    the same key, the later to commit computed its value from a snapshot that
    contains the earlier one's commit: some prewrite it sent for the key read
    at or above that commit timestamp.  No update is lost. *)
Theorem first_committer_wins σ k t1 r1 t2 r2 : reachable σ ->
  mv_write (view (st σ)) k t1 = Some r1 -> mv_write (view (st σ)) k t2 = Some r2 ->
  moved_the_key r1 -> moved_the_key r2 -> (t1 < t2)%N ->
  exists p, sent (net σ) p /\ pw_key p = k /\ pw_start_ts p = write_start_ts r2 /\
    Op_kind (pw_op p) = write_kind r2 /\ (t1 <= pw_read_ts p)%N.
Proof. intros Hi%reachable_inv. by apply inv_order. Qed.

(** C12: until garbage is collected above it, a snapshot read is final.  In the
    system of [step], whose clients keep the contract above and which has no
    garbage collector, a read at a timestamp the oracle has already issued that
    met no lock answers the same in every later state, except that it may find
    the key locked and be told to wait.  This is the guarantee of a read at or
    above the collector's safepoint: below it docs/txn-spec.md (section 7)
    withdraws the promise, and nothing is said here. *)
Theorem snapshot_read_stable σ σ' k ts out : reachable σ -> steps σ σ' -> (ts <= clock σ)%N ->
  read (st σ) k ts = Ok out -> (forall l, out <> ReadLocked l) ->
  read (st σ') k ts = Ok out \/ exists l, read (st σ') k ts = Ok (ReadLocked l).
Proof.
  intros Hi%reachable_inv Hsteps Hts Hr Hnl.
  assert (ts < two64)%N as Hts64 by (destruct (inv_phase σ Hi) as (? & _); lia).
  destruct (read_spec (st σ) k ts (inv_store σ Hi) Hts64) as [Hb Hu].
  assert (forall l, mv_lock (view (st σ)) k = Some l -> ~ blocks l ts) as Hunb.
  { intros l El B. rewrite (Hb l El B) in Hr. injection Hr as <-. by apply (Hnl l). }
  destruct (Hu Hunb) as (o & Ho & Er).
  destruct (quiet_steps σ σ' k ts o Hi Hts (unblocked_quiet σ k ts Hi Hunb) Hsteps Ho) as (Hi' & _ & _ & Ho' & Ev).
  destruct (read_spec (st σ') k ts (inv_store σ' Hi') Hts64) as [Hb' Hu'].
  destruct (mv_lock (view (st σ')) k) as [l|] eqn:El; [destruct (decide (blocks l ts)) as [B|B]|].
  - right. exists l. by apply Hb'.
  - left. destruct Hu' as (o' & Hn & E); [by intros ? [= <-]|]. rewrite E.
    replace o' with o by by eapply newest_unique. by rewrite Ev, <- Er.
  - left. destruct Hu' as (o' & Hn & E); [done|]. rewrite E.
    replace o' with o by by eapply newest_unique. by rewrite Ev, <- Er.
Qed.

(** No reachable state makes a read fail.  Every record, lock and
    value a read meets decodes and is present, so the answer is a value, an
    absence or a lock to wait for, never corruption. *)
Theorem snapshot_read_total σ k ts : reachable σ -> (ts < two64)%N -> exists out, read (st σ) k ts = Ok out.
Proof.
  intros Hi%reachable_inv Hts. destruct (read_spec (st σ) k ts (inv_store σ Hi) Hts) as [Hb Hu].
  assert ((forall l, mv_lock (view (st σ)) k = Some l -> ~ blocks l ts) -> exists out, read (st σ) k ts = Ok out) as Hfree.
  { intros Hn. destruct (Hu Hn) as (o & Ho & ->). destruct (value_in_ok σ k ts o Hi Ho) as (out & -> & _). by exists out. }
  destruct (mv_lock (view (st σ)) k) as [l|] eqn:El; [destruct (decide (blocks l ts)) as [B|B]|].
  - exists (ReadLocked l). by apply Hb.
  - apply Hfree. by intros ? [= <-].
  - by apply Hfree.
Qed.
End System.
