(* ===== verification/TxnRuns.v ===== *)
(** Concrete runs of the transaction layer over [MemoryStore]: executions
    that show the hypotheses of [TxnSafety] hold of real states, and runs
    outside the clients' contract that show what the contract is for. *)

From Stdlib Require Import Strings.Byte.
From stdpp Require Import prelude.
From Stdlib Require Import NArith ZArith Lia.
From S2P Require Import Prelude BTree TxnCodec TxnKey TxnStore Mvcc Percolator PercolatorSpec TxnKv TxnSystem TxnSafety.

(** ** Executable steps *)

Section Exec.
  Context (primary_of : N -> bytes).
  Implicit Types σ : sys (S := MemoryStore).

Definition do_begin σ (T : N) := mkSys (st σ) T (set_phase (ph σ) T Open) (net σ) (acked σ).
Definition do_send σ (T ttl : N) (tms : list TxnMutation) :=
  mkSys (st σ) (clock σ) (ph σ) ((T, ttl, tms) :: net σ) (acked σ).
Definition do_start σ (T c : N) := mkSys (st σ) c (set_phase (ph σ) T (Committing c)) (net σ) (acked σ).
Definition with_batch σ (r : result ProtoError (TxnKvResp * Mutations)) (ack : TxnKvResp -> list (N * bytes)) :=
  match r with
  | Ok (resp, staged) => mkSys (store_apply (st σ) staged) (clock σ) (ph σ) (net σ) (ack resp ++ acked σ)
  | Err _ => σ
  end.
Definition do_prewrite σ (T ttl : N) (tms : list TxnMutation) :=
  with_batch σ (kv_prewrite (st σ) T (primary_of T) ttl tms) (acknowledged T tms).
Definition do_commit σ (T c : N) (keys : list bytes) := with_batch σ (kv_commit (st σ) T c keys) (fun _ => []).

Lemma reach_prewrite σ T ttl tms : reachable primary_of σ -> (T, ttl, tms) ∈ net σ ->
  is_ok (kv_prewrite (st σ) T (primary_of T) ttl tms) = true -> reachable primary_of (do_prewrite σ T ttl tms).
Proof.
  intros Hr Hin Hok. unfold do_prewrite, with_batch. destruct (kv_prewrite _ _ _ _ _) as [[resp staged]|] eqn:E; [|done].
  eapply reach_step; [done|]. by eapply step_prewrite.
Qed.

Lemma do_commit_step σ T c keys : ph σ T = Committing c -> NoDup keys ->
  keys = [primary_of T] \/ committed_at (view (st σ)) (primary_of T) T c ->
  is_ok (kv_commit (st σ) T c keys) = true -> step primary_of σ (do_commit σ T c keys).
Proof.
  intros Hp Hd Hw Hok. unfold do_commit, with_batch. destruct (kv_commit _ _ _ _) as [[resp staged]|] eqn:E; [|done].
  by eapply step_commit.
Qed.

Lemma reach_commit σ T c keys : reachable primary_of σ -> ph σ T = Committing c -> NoDup keys ->
  keys = [primary_of T] \/ committed_at (view (st σ)) (primary_of T) T c ->
  is_ok (kv_commit (st σ) T c keys) = true -> reachable primary_of (do_commit σ T c keys).
Proof. intros Hr Hp Hd Hw Hok. eapply reach_step; [done|]. by apply do_commit_step. Qed.
End Exec.

(** The commit guard, over an explicit list of requests. *)
Lemma all_acked primary_of (nt : list (N * N * list TxnMutation)) (ak : list (N * bytes)) T :
  Forall (fun e => e.1.1 = T -> Forall (fun tm => is_write tm -> (T, TxnMutation_key tm) ∈ ak) e.2) nt ->
  forall p, sent primary_of nt p -> pw_start_ts p = T -> Op_kind (pw_op p) <> KLock -> (T, pw_key p) ∈ ak.
Proof.
  intros Hall p (T' & ttl & tms & tm & Hin & Htm & Hp & ->) HT Hk. rewrite Forall_forall in Hall.
  specialize (Hall _ Hin HT). rewrite Forall_forall in Hall. specialize (Hall tm Htm). destruct tm; try done; by apply Hall.
Qed.

(** ** Two transactions over keys [a] and [b], both with primary [a] *)

Definition ka : bytes := [Byte.x61].
Definition kb : bytes := [Byte.x62].
Definition run_primary (T : N) : bytes := ka.

Definition run0 : sys (S := MemoryStore) := mkSys MemoryStore_new 0 (fun _ => Idle) [] [].
Definition run1_muts : list TxnMutation := [TmPut ka [Byte.x31] None; TmPut kb [Byte.x32] None].
Definition run1 := do_start (do_prewrite run_primary (do_send (do_begin run0 1) 1 3000 run1_muts) 1 3000 run1_muts) 1 2.
Definition run2 := do_commit (do_commit run1 1 2 [ka]) 1 2 [kb].
Definition run3_muts : list TxnMutation := [TmDelete ka None].
Definition run3 := do_start (do_prewrite run_primary (do_send (do_begin run2 3) 3 3000 run3_muts) 3 3000 run3_muts) 3 4.
Definition run4 := do_commit run3 3 4 [ka].

Lemma run0_reachable : reachable run_primary run0.
Proof.
  apply reach_init. split; [apply MemoryStore_new_ok|]. repeat split. intros k t. cbn. by case_match.
Qed.

Ltac nodup_by_compute := apply (bool_decide_unpack _); vm_compute; exact I.

Lemma run1_reachable : reachable run_primary run1.
Proof.
  eapply reach_step; [|apply step_start_commit; [reflexivity|reflexivity|reflexivity|]].
  - apply reach_prewrite; [|by left|by vm_compute].
    eapply reach_step; [|apply step_send; [reflexivity|reflexivity|nodup_by_compute|done|reflexivity|]].
    + eapply reach_step; [apply run0_reachable|]. by apply step_begin.
    + intros tm. unfold run1_muts. rewrite !elem_of_cons, elem_of_nil. intros [->|[->|[]]]; cbn; lia.
  - apply all_acked. nodup_by_compute.
Qed.

Lemma run2_reachable : reachable run_primary run2.
Proof.
  apply reach_commit; [apply reach_commit; [apply run1_reachable|reflexivity|nodup_by_compute|by left|by vm_compute]
    |reflexivity|nodup_by_compute| |by vm_compute].
  right. eexists. split; [split; [vm_compute; reflexivity|split; [done|reflexivity]]|done].
Qed.

Lemma run3_reachable : reachable run_primary run3.
Proof.
  eapply reach_step; [|apply step_start_commit; [reflexivity|reflexivity|reflexivity|]].
  - apply reach_prewrite; [|by left|by vm_compute].
    eapply reach_step; [|apply step_send; [reflexivity|reflexivity|nodup_by_compute|done|reflexivity|]].
    + eapply reach_step; [apply run2_reachable|]. by apply step_begin.
    + intros tm. unfold run3_muts. rewrite elem_of_cons, elem_of_nil. intros [->|[]]; cbn; lia.
  - apply all_acked. nodup_by_compute.
Qed.

Lemma run4_reachable : reachable run_primary run4.
Proof. apply reach_commit; [apply run3_reachable|reflexivity|nodup_by_compute|by left|by vm_compute]. Qed.

Lemma atomic_commit_witness :
  committed_at (view (st run2)) ka 1 2 /\ (forall k', ~ rolled_back (view (st run2)) k' 1).
Proof.
  assert (committed_at (view (st run2)) kb 1 2) as Hc.
  { eexists. split; [split; [vm_compute; reflexivity|split; [done|reflexivity]]|done]. }
  split; [exact (proj1 (atomic_commit run_primary run2 kb 1 2 run2_reachable Hc))
         |exact (proj2 (proj2 (atomic_commit run_primary run2 kb 1 2 run2_reachable Hc)))].
Defined.

Lemma single_record_witness :
  record_of (view (st run2)) ka 1 2 (mkWriteRecord KPut 1 (Some [Byte.x31])) /\
  (forall c r, record_of (view (st run2)) ka 1 c r -> c = 2%N) /\
  undecided (view (st run3)) ka 3.
Proof.
  assert (record_of (view (st run2)) ka 1 2 (mkWriteRecord KPut 1 (Some [Byte.x31]))) as Hr.
  { split; [vm_compute; reflexivity|split; [done|reflexivity]]. }
  split; [exact Hr|]. split.
  - intros c r H. exact (proj1 (proj1 (single_record run_primary run2 ka 1 run2_reachable) c r 2%N _ H Hr)).
  - refine (proj2 (single_record run_primary run3 ka 3 run3_reachable) (mkLockRecord KDelete 3 3000 ka None) _ eq_refl).
    vm_compute. reflexivity.
Defined.

Lemma first_committer_wins_witness :
  exists p, sent run_primary (net run4) p /\ pw_key p = ka /\ pw_start_ts p = 3%N /\
    Op_kind (pw_op p) = KDelete /\ (2 <= pw_read_ts p)%N.
Proof.
  refine (first_committer_wins run_primary run4 ka 2 (mkWriteRecord KPut 1 (Some [Byte.x31]))
    4 (mkWriteRecord KDelete 3 None) run4_reachable _ _ _ _ _); by vm_compute.
Defined.

Lemma snapshot_read_stable_witness :
  read (st run4) ka 2 = Ok (ReadValue [Byte.x31]) \/ exists l, read (st run4) ka 2 = Ok (ReadLocked l).
Proof.
  refine (snapshot_read_stable run_primary run3 run4 ka 2 (ReadValue [Byte.x31]) run3_reachable _ _ _ _); try done.
  - eapply steps_next; [apply steps_refl|]. apply do_commit_step; [reflexivity|nodup_by_compute|by left|by vm_compute].
Defined.

Lemma snapshot_read_total_witness : exists out, read (st run4) kb 9 = Ok out.
Proof. exact (snapshot_read_total run_primary run4 kb 9 run4_reachable eq_refl). Defined.

(** ** Outside the contract *)

Definition after (s : MemoryStore) (r : result ProtoError (TxnKvResp * Mutations)) : MemoryStore :=
  match r with Ok (_, staged) => MemoryStore_apply s staged | Err _ => s end.
Definition answer (r : result ProtoError (TxnKvResp * Mutations)) : result ProtoError TxnKvResp := rmap fst r.

(** *** One key at a time *)

Section OneKey.
  Context {S : Type} `{TxnStoreLaws S}.
  Implicit Types s : S.



(** The commit of one key whose lock is there. *)
Lemma commit_own s k T c l : store_ok s -> (T < c)%N -> (c < two64)%N -> mv_lock (view s) k = Some l -> lock_start_ts l = T ->
  kv_commit s T c [k] = Ok (RespCommit StOk, spec_mutation <$> commit_specs k c l) /\
  store_ok (store_apply s (spec_mutation <$> commit_specs k c l)) /\
  view (store_apply s (spec_mutation <$> commit_specs k c l)) ≡ foldl spec_apply (view s) (commit_specs k c l).
Proof.
  intros Hs Hlt Hc Hl Ht. split.
  - unfold kv_commit. cbn [commit_loop]. unfold commit_one. rewrite get_lock_law by done. rewrite Hl. cbn [rmap_err rbind].
    destruct (LockRecord_is_primary l k) eqn:Hp.
    + unfold commit_primary. rewrite (proj2 (N.leb_gt _ _) Hlt), get_lock_law, Hl by done. cbn [rbind].
      rewrite decide_True, Hp by done. cbn [negb rmap into_mutations plan_mutations]. by rewrite commit_mutations_specs.
    + unfold secondary, commit_secondary. rewrite get_lock_law, Hl by done. cbn [rbind on_trust pc_start_ts pc_commit_ts pc_primary].
      rewrite decide_True by done. rewrite decide_False by tauto. by rewrite commit_mutations_specs.
  - apply apply_law; [done|]. apply commit_specs_ok; [done|]. by eapply view_lock_records.
Qed.

Lemma rollback_own s k T : store_ok s -> (T < two64)%N -> undecided (view s) k T ->
  let specs := rollback_specs k T (mv_lock (view s) k) in
  rollback s k T = Ok (spec_mutation <$> specs) /\ store_ok (store_apply s (spec_mutation <$> specs)) /\
  view (store_apply s (spec_mutation <$> specs)) ≡ foldl spec_apply (view s) specs.
Proof.
  intros Hs HT Hu specs. split; [|by apply apply_law, rollback_specs_ok].
  pose proof (rollback_spec s k T Hs) as Hr. destruct (rollback s k T) as [ms|e].
  - destruct Hr as [[_ (c & r & Hr & _)]|[_ ->]]; [by destruct (Hu c r)|done].
  - destruct e; try done. destruct Hr as (r & Hr & _). by destruct (Hu commit_ts r).
Qed.

(** The value behind a lock. *)
Definition lock_holds (m : mvcc) (k : bytes) (l : LockRecord) (v : bytes) : Prop :=
  lock_kind l = KPut /\ (lock_short_value l = Some v \/ lock_short_value l = None /\ mv_value m k (lock_start_ts l) = Some v).

Lemma read_committed s k c l v : store_ok s -> (c < two64)%N -> mv_lock (view s) k = None ->
  mv_write (view s) k c = Some (commit_record l) -> lock_holds (view s) k l v -> read s k c = Ok (ReadValue v).
Proof.
  intros Hs Hc Hl Hw [Hk Hv]. destruct (read_spec s k c Hs Hc) as [_ Hr].
  destruct Hr as (o & Ho & ->); [by rewrite Hl|].
  assert (newest (view s) k (fun t r => (t <= c)%N /\ is_a_version (write_kind r) = true) (Some (mkVersion c (commit_record l)))) as Hn.
  { split; [done|]. split; [cbn; by rewrite Hk|]. by intros t r _ [? _]. }
  rewrite (newest_unique _ _ _ _ _ Ho Hn). cbn. rewrite Hk. by destruct Hv as [->|[-> ->]].
Qed.


End OneKey.



(** C33: a transaction whose primary was released and chosen again can be torn in
    half.  Take any state where a transaction holds [q], as its primary, and [k],
    and another key [p], its primary before a release, carries no record of
    it.  The commit of [q] succeeds.  A resolver that read a lock of it on [k]
    while that lock named [p] settles [p]: it is told the transaction is dead, and
    resolves [k] accordingly.  Then [q] carries the commit record and reads as the
    transaction wrote it, while [k] carries its rollback marker and no commit
    record, and the commit of [k] is refused: the value is lost, although every
    request was answered as it should be. *)
Theorem stale_resolver_tears {S} `{TxnStoreLaws S} (s : S) T c p q k lq lk vq :
  store_ok s -> (T < c)%N -> (c < two64)%N -> p <> q -> p <> k -> q <> k ->
  mv_lock (view s) q = Some lq -> lock_start_ts lq = T -> lock_primary lq = q -> lock_holds (view s) q lq vq ->
  mv_lock (view s) k = Some lk -> lock_start_ts lk = T -> lock_primary lk = q ->
  undecided (view s) k T -> undecided (view s) p T ->
  exists m1 m2 m3, let s1 := store_apply s m1 in let s2 := store_apply s1 m2 in let s3 := store_apply s2 m3 in
    kv_commit s T c [q] = Ok (RespCommit StOk, m1) /\
    kv_rollback s1 T [p] = Ok (RespRollback StOk, m2) /\
    kv_resolve_lock s2 T 0 [k] = Ok (RespResolveLock 1, m3) /\
    kv_commit s3 T c [k] = Ok (RespCommit StRolledBack, []) /\
    committed_at (view s3) q T c /\ read s3 q c = Ok (ReadValue vq) /\
    rolled_back (view s3) k T /\ forall c', ~ committed_at (view s3) k T c'.
Proof.
  intros Hs Hlt Hc Hpq Hpk Hqk Hlq Tq _ Hvq Hlk Tk _ Huk Hup.
  destruct (commit_own s q T c lq Hs Hlt Hc Hlq Tq) as (E1 & Hs1 & Hv1).
  set (m1 := spec_mutation <$> commit_specs q c lq) in *. set (s1 := store_apply s m1) in *.
  assert (forall k', k' <> q -> same_at k' (view s1) (view s)) as Hother1.
  { intros k' Hne. eapply same_at_trans; [by apply equiv_same_at|]. apply same_at_sym, specs_other. repeat constructor; cbn; congruence. }
  destruct (Hother1 p Hpq) as (_ & Wp & _). destruct (rollback_own s1 p T Hs1 ltac:(lia)) as (E2 & Hs2 & Hv2).
  { intros t r [Hw Hr]. rewrite Wp in Hw. by apply (Hup t r). }
  set (specs2 := rollback_specs p T _) in *. set (s2 := store_apply s1 (spec_mutation <$> specs2)) in *.
  assert (forall o k', k' <> p -> Forall (fun a => spec_key a <> k') (rollback_specs p T o)) as Hkeys.
  { intros o k' Hne. unfold rollback_specs, drop_specs. constructor; [done|]. destruct o; [|constructor]. case_decide; [|constructor]. case_match; by repeat constructor. }
  assert (forall k', k' <> p -> same_at k' (view s2) (view s1)) as Hother2.
  { intros k' Hne. eapply same_at_trans; [by apply equiv_same_at|]. apply same_at_sym, specs_other. by apply Hkeys. }
  destruct (same_at_trans k _ _ _ (Hother2 k (not_eq_sym Hpk)) (Hother1 k (not_eq_sym Hqk))) as (Lk & Wk & _).
  destruct (rollback_own s2 k T Hs2 ltac:(lia)) as (E3 & Hs3 & Hv3).
  { intros t r [Hw Hr]. rewrite Wk in Hw. by apply (Huk t r). }
  rewrite Lk, Hlk in E3, Hs3, Hv3. set (specs3 := rollback_specs k T (Some lk)) in *. set (s3 := store_apply s2 (spec_mutation <$> specs3)) in *.
  exists m1, (spec_mutation <$> specs2), (spec_mutation <$> specs3). cbv zeta. fold s1 s2 s3.
  assert (same_at q (view s3) (view s1)) as (Lq & Wq & Vq).
  { eapply same_at_trans; [|apply Hother2; congruence]. eapply same_at_trans; [by apply equiv_same_at|]. apply same_at_sym, specs_other.
    unfold specs3, rollback_specs, drop_specs. constructor; [cbn; congruence|]. case_decide; [|constructor]. case_match; repeat constructor; cbn; congruence. }
  destruct Hv1 as (L1 & W1 & V1). destruct Hv3 as (L3 & W3 & _).
  assert (mv_lock (view s3) k = None) as Lk3.
  { rewrite L3. unfold specs3, rollback_specs, drop_specs. rewrite decide_True by done. case_match; cbn; by rewrite decide_True. }
  assert (forall t, mv_write (view s3) k t = if decide (t = T) then Some (WriteRecord_rollback T) else mv_write (view s) k t) as Wk3.
  { intros t. rewrite W3, <- Wk. unfold specs3, rollback_specs, drop_specs. rewrite decide_True by done. case_match; cbn; repeat case_decide; naive_solver. }
  assert (rolled_back (view s3) k T) as Hrb.
  { exists T, (WriteRecord_rollback T). split; [|done]. split; [|by split]. rewrite Wk3. by rewrite decide_True. }
  assert (forall c', ~ committed_at (view s3) k T c') as Hno.
  { intros c' (r & (Hw & Hr) & Hk). rewrite Wk3 in Hw. case_decide; [by injection Hw as <-|]. by apply (Huk c' r). }
  assert (mv_write (view s3) q c = Some (commit_record lq)) as Wq3 by (rewrite Wq, W1; cbn; by rewrite decide_True).
  split_and!; [exact E1| | | | | |exact Hrb|exact Hno].
  - unfold kv_rollback. cbn [rollback_loop]. by rewrite E2.
  - unfold kv_resolve_lock. cbn [resolve_loop]. rewrite get_lock_law, Lk, Hlk by done. cbn [rmap_err rbind].
    rewrite bool_decide_true by done. unfold resolve_one. cbn [N.eqb]. rewrite E3. done.
  - unfold kv_commit. cbn [commit_loop]. unfold commit_one. rewrite get_lock_law, Lk3 by done. cbn [rmap_err rbind].
    unfold commit_primary. rewrite (proj2 (N.leb_gt _ _) Hlt), get_lock_law, Lk3 by done. cbn [rbind].
    destruct (settled_spec s3 k T Hs3) as (st & -> & Hst). destruct st; [by destruct (Hno commit_ts)|done|].
    destruct Hrb as (t & r & Hr & _). by destruct (Hst t r).
  - exists (commit_record lq). split; [split; [done|split; [lia|done]]|]. destruct Hvq as [Hk _]. cbn. by rewrite Hk.
  - apply (read_committed s3 q c lq); [done|done| |done|].
    + rewrite Lq, L1. cbn. by rewrite decide_True.
    + destruct Hvq as [Hk Hv]. split; [done|]. rewrite Vq, V1. exact Hv.
Qed.

(** The transaction at 5 locks [p] and [k] (primary [p]), releases both at a
    savepoint, then writes [q] and [k] with primary [q]. *)
Definition kp : bytes := [Byte.x70].
Definition kk : bytes := [Byte.x6b].
Definition kq : bytes := [Byte.x71].
Definition stale0 : MemoryStore := after MemoryStore_new (kv_prewrite MemoryStore_new 5 kp 3000 [TmCheck kp None]).
Definition stale1 : MemoryStore := after stale0 (kv_prewrite stale0 5 kp 3000 [TmCheck kk None]).
Definition stale2 : MemoryStore := after stale1 (kv_release_lock stale1 5 [kk]).
Definition stale3 : MemoryStore := after stale2 (kv_release_lock stale2 5 [kp]).
Definition stale4 : MemoryStore := after stale3 (kv_prewrite stale3 5 kq 3000 [TmPut kq [Byte.x31] None]).
Definition stale5 : MemoryStore := after stale4 (kv_prewrite stale4 5 kq 3000 [TmPut kk [Byte.x32] None]).

(** The early lock on [k] named [p], and nothing in between was refused. *)
Lemma stale_run : store_ok stale5 /\ (lock_primary <$> mv_lock (view stale1) kk) = Some kp /\ forall k t, mv_write (view stale5) k t = None.
Proof.
  assert (stale5 = store_apply MemoryStore_new (spec_mutation <$> [SPutLock kq (mkLockRecord KPut 5 3000 kq (Some [Byte.x31])); SPutLock kk (mkLockRecord KPut 5 3000 kq (Some [Byte.x32]))])) as E by by vm_compute.
  destruct (apply_law MemoryStore_new [SPutLock kq (mkLockRecord KPut 5 3000 kq (Some [Byte.x31])); SPutLock kk (mkLockRecord KPut 5 3000 kq (Some [Byte.x32]))]) as [Hok (_ & W & _)];
    [apply MemoryStore_new_ok|repeat constructor; cbn; done || (apply Nat.leb_le; reflexivity)|].
  split; [by rewrite E|]. split; [by vm_compute|]. intros k t. rewrite E, W. cbn. by case_match.
Qed.
Lemma stale_resolver_tears_witness : exists m1 m2 m3, let s3 := store_apply (store_apply (store_apply stale5 m1) m2) m3 in
  kv_commit s3 5 6 [kk] = Ok (RespCommit StRolledBack, []) /\ committed_at (view s3) kq 5 6 /\ rolled_back (view s3) kk 5.
Proof.
  destruct stale_run as (Hok & _ & Hw).
  destruct (stale_resolver_tears stale5 5 6 kp kq kk (mkLockRecord KPut 5 3000 kq (Some [Byte.x31])) (mkLockRecord KPut 5 3000 kq (Some [Byte.x32])) [Byte.x31])
    as (m1 & m2 & m3 & _ & _ & _ & H4 & H5 & _ & H7 & _); [exact Hok|lia|reflexivity|discriminate|discriminate|discriminate|by vm_compute|reflexivity|reflexivity| |by vm_compute|reflexivity|reflexivity| | |].
  - split; [reflexivity|]. by left.
  - intros t r [Hr _]. by rewrite Hw in Hr.
  - intros t r [Hr _]. by rewrite Hw in Hr.
  - exists m1, m2, m3. split; [exact H4|]. split; [exact H5|exact H7].
Defined.

(** A lock that names the empty key as its primary can be
    written and never read back.  The prewrite of the empty key is accepted;
    from then on every operation on that key meets a corrupt lock record, and
    no rollback can remove it. *)
Theorem empty_primary_wedges T ttl value : (T < two64)%N -> (ttl < two64)%N -> length value <= SHORT_VALUE_MAX_LEN ->
  let s := after MemoryStore_new (kv_prewrite MemoryStore_new T [] ttl [TmPut [] value None]) in
  answer (kv_prewrite MemoryStore_new T [] ttl [TmPut [] value None]) = Ok (RespPrewrite [StOk]) /\
  (forall ts, kv_get s [] ts = Err (PeCorrupt (Corrupt WhatLock LockWithNoPrimary))) /\
  kv_commit s T (T + 1) [[]] = Err (PeCorrupt (Corrupt WhatLock LockWithNoPrimary)) /\
  kv_rollback s T [[]] = Ok (RespRollback StLockNotFound, []).
Proof.
  intros HT Httl Hv s.
  set (l := mkLockRecord KPut T ttl [] (Some value)).
  assert (kv_prewrite MemoryStore_new T [] ttl [TmPut [] value None] =
    Ok (RespPrewrite [StOk], [MPut CfLock (key_lock []) (LockRecord_encode l)])) as E.
  { unfold kv_prewrite. cbn [prewrite_loop prewrite_one]. unfold check_prewrite, prewrite_request. cbn.
    unfold prewrite_mutations. cbn. rewrite decide_False by lia. by rewrite decide_True. }
  assert (LockRecord_decode (LockRecord_encode l) = Err (Corrupt WhatLock LockWithNoPrimary)) as D.
  { rewrite LockRecord_encode_eq. unfold LockRecord_decode, Reader_new. rewrite Reader_kind_ok. cbn [rbind].
    rewrite decide_False by done. rewrite Reader_varint_ok by done. cbn [rbind]. rewrite Reader_varint_ok by done. cbn [rbind].
    rewrite length_prefixed_ok by done. done. }
  assert (MemoryStore_get_lock s [] = Err (Corrupt WhatLock LockWithNoPrimary)) as G.
  { unfold s. rewrite E. cbn [after]. unfold MemoryStore_get_lock. cbn [MemoryStore_apply foldl apply_mutation set_cf ms_lock MemoryStore_cf MemoryStore_new bt_insert].
    cbn [bt_get]. rewrite bytes_cmp_refl, D. done. }
  assert (MemoryStore_write_of_txn s [] T = Ok None) as W by (unfold s; by rewrite E).
  split; [by rewrite E|]. split; [|split].
  - intros ts. unfold kv_get, read. cbn [get_lock MemoryStore_snapshot]. by rewrite G.
  - unfold kv_commit. cbn [commit_loop]. unfold commit_one. cbn [get_lock MemoryStore_snapshot]. by rewrite G.
  - unfold kv_rollback. cbn [rollback_loop]. unfold rollback, settled. cbn [write_of_txn get_lock MemoryStore_snapshot].
    rewrite W. cbn [rbind]. by rewrite G.
Qed.

Lemma empty_primary_wedges_witness :
  kv_rollback (after MemoryStore_new (kv_prewrite MemoryStore_new 1 [] 3000 [TmPut [] [Byte.x31] None])) 1 [[]]
  = Ok (RespRollback StLockNotFound, []).
Proof.
  refine (proj2 (proj2 (proj2 (empty_primary_wedges 1 3000 [Byte.x31] _ _ _)))); [reflexivity|reflexivity|by apply Nat.leb_le].
Defined.
