(* ===== verification/Crc32c.v ===== *)
(** CRC32C, the checksum under every on-disk byte (esker-base/src/crc32c.rs):
    the slicing-by-8 implementation against the bit-serial definition, the
    hardware loop against it, and what the checksum is relied on to detect. *)

From stdpp Require Import prelude.
From Stdlib Require Import NArith ZArith Lia.
From S2P Require Import Prelude Endian.
Local Open Scope N_scope.

(** ** The implementation *)

Definition POLYNOMIAL : N := 0x82F63B78.
Definition two32 : N := 4294967296.

(** [!a] on 32 bits. *)
Definition not32 (a : N) : N := N.lxor a 0xFFFFFFFF.

(** One bit of the division, and the eight of one byte. *)
Definition crc_bit (crc : N) : N :=
  if N.land crc 1 =? 1 then N.lxor (N.shiftr crc 1) POLYNOMIAL else N.shiftr crc 1.
Definition crc_byte (byte : N) : N := Nat.iter 8 crc_bit byte.

(** Row [0] divides each byte; row [k] is row [k - 1] moved one byte further. *)
Definition table_row_0 : list N := crc_byte <$> (N.of_nat <$> seq 0 256).
Definition table_row_next (row : list N) : list N :=
  (fun prev => N.lxor (N.shiftr prev 8) (nth (N.to_nat (N.land prev 0xFF)) table_row_0 0)) <$> row.
Definition build_tables : list (list N) := (fun k => Nat.iter k table_row_next table_row_0) <$> seq 0 8.

Definition TABLES (k index : nat) : N := nth index (nth k build_tables []) 0.

(** Byte [index] (0 = least significant) of [word]. *)
Definition byte_of (word index : N) : nat := N.to_nat (N.land (N.shiftr word (index * 8)) 0xFF).

(** One iteration of the eight-byte loop, and of the loop over the remainder. *)
Definition slice_chunk (crc : N) (chunk : bytes) : N :=
  let low := N.lxor (le_value (take 4 chunk)) crc in
  let high := le_value (drop 4 chunk) in
  N.lxor (N.lxor (N.lxor (N.lxor (N.lxor (N.lxor (N.lxor
    (TABLES 7 (byte_of low 0)) (TABLES 6 (byte_of low 1))) (TABLES 5 (byte_of low 2)))
    (TABLES 4 (byte_of low 3))) (TABLES 3 (byte_of high 0))) (TABLES 2 (byte_of high 1)))
    (TABLES 1 (byte_of high 2))) (TABLES 0 (byte_of high 3)).
Definition slice_byte (crc : N) (byte : byte) : N :=
  N.lxor (N.shiftr crc 8) (TABLES 0 (byte_of (N.lxor crc (b2n byte)) 0)).

(** [data.chunks_exact(8)]: the loop consumes eight bytes at a time while it
    can, and hands the rest to the byte loop. *)
Fixpoint chunks_loop (chunk_step : N -> bytes -> N) (byte_step : N -> byte -> N) (fuel : nat) (crc : N) (data : bytes) : N :=
  match fuel with
  | S fuel' =>
      if (8 <=? length data)%nat
      then chunks_loop chunk_step byte_step fuel' (chunk_step crc (take 8 data)) (drop 8 data)
      else foldl byte_step crc data
  | O => foldl byte_step crc data
  end.

Definition update_software (prev : N) (data : bytes) : N :=
  not32 (chunks_loop slice_chunk slice_byte (length data) (not32 prev) data).

(** [update] of a build without the CRC instruction. *)
Definition update (prev : N) (data : bytes) : N := update_software prev data.
Definition checksum (data : bytes) : N := update 0 data.

(** [update_hardware]: the same two loops around the two instructions. *)
Definition update_hardware (crc32cd : N -> N -> N) (crc32cb : N -> N -> N) (prev : N) (data : bytes) : N :=
  not32 (chunks_loop (fun crc chunk => crc32cd crc (le_value chunk)) (fun crc b => crc32cb crc (b2n b))
           (length data) (not32 prev) data).

(** ** The bit-serial reference *)

Definition crc_feed (crc : N) (byte : byte) : N := crc_byte (N.lxor crc (b2n byte)).
Definition crc_serial (prev : N) (data : bytes) : N := not32 (foldl crc_feed (not32 prev) data).

(** ** Exclusive or and shifts *)

Lemma lxor_shuffle a b c d : N.lxor (N.lxor a b) (N.lxor c d) = N.lxor (N.lxor a c) (N.lxor b d).
Proof. rewrite !N.lxor_assoc. f_equal. by rewrite <- !N.lxor_assoc, (N.lxor_comm b c). Qed.

Lemma lxor_cancel_r a b c : N.lxor a c = N.lxor b c -> a = b.
Proof. intros E. rewrite <- (N.lxor_0_r a), <- (N.lxor_0_r b), <- (N.lxor_nilpotent c), <- !N.lxor_assoc. by f_equal. Qed.

Lemma lxor_lt_pow2 a b k : a < 2 ^ k -> b < 2 ^ k -> N.lxor a b < 2 ^ k.
Proof.
  intros Ha Hb.
  assert (N.lxor a b = N.lxor a b mod 2 ^ k) as ->; [|by apply N.mod_lt, N.pow_nonzero].
  symmetry. rewrite <- N.land_ones. apply N.bits_inj. intros n. rewrite N.land_spec, !N.lxor_spec.
  destruct (N.lt_ge_cases n k) as [L|L]; [by rewrite N.ones_spec_low, andb_true_r|].
  rewrite N.ones_spec_high, andb_false_r by done.
  rewrite <- (N.mod_small a (2 ^ k)), <- (N.mod_small b (2 ^ k)) by done. by rewrite !N.mod_pow2_bits_high.
Qed.

Lemma lxor_lt32 a b : a < two32 -> b < two32 -> N.lxor a b < two32.
Proof. apply (lxor_lt_pow2 a b 32). Qed.

Lemma not32_involutive a : not32 (not32 a) = a.
Proof. unfold not32. by rewrite N.lxor_assoc, N.lxor_nilpotent, N.lxor_0_r. Qed.
Lemma not32_lt a : a < two32 -> not32 a < two32.
Proof. intros. by apply lxor_lt32. Qed.
Lemma not32_inj a b : not32 a = not32 b -> a = b.
Proof. apply lxor_cancel_r. Qed.

(** Concatenating bits is an exclusive or with a shift. *)
Lemma add_shift8_lxor b v : b < 256 -> b + 256 * v = N.lxor b (N.shiftl v 8).
Proof.
  intros Hb. rewrite N.lxor_lor.
  - rewrite lor_shiftl_add by done. change (2 ^ 8) with 256. lia.
  - apply N.bits_inj_0. intros n. rewrite N.land_spec. destruct (N.lt_ge_cases n 8) as [L|L].
    + rewrite N.shiftl_spec_low by done. apply andb_false_r.
    + rewrite <- (N.mod_small b (2 ^ 8)) by done. by rewrite N.mod_pow2_bits_high.
Qed.

Lemma split_low8 v : v = N.lxor (N.land v 0xFF) (N.shiftl (N.shiftr v 8) 8).
Proof.
  change 0xFF with (N.ones 8). rewrite N.land_ones, N.shiftr_div_pow2, <- add_shift8_lxor by by apply N.mod_lt.
  rewrite N.add_comm. apply N.div_mod'.
Qed.

(** ** The division is linear *)

Lemma crc_bit_lxor a b : crc_bit (N.lxor a b) = N.lxor (crc_bit a) (crc_bit b).
Proof.
  unfold crc_bit. change 1 with (N.ones 1). rewrite !N.land_ones, !N.shiftr_lxor. change (2 ^ 1) with 2.
  assert (forall n, n mod 2 = N.b2n (N.testbit n 0)) as E by (intros n; by rewrite N.bit0_mod).
  rewrite !E, N.lxor_spec. change (N.ones 1) with 1.
  destruct (N.testbit a 0), (N.testbit b 0); cbn [xorb N.b2n]; cbn [N.eqb Pos.eqb].
  - by rewrite lxor_shuffle, N.lxor_nilpotent, N.lxor_0_r.
  - by rewrite !N.lxor_assoc, (N.lxor_comm (N.shiftr b 1)).
  - by rewrite N.lxor_assoc.
  - done.
Qed.

Lemma crc_bit_double v : crc_bit (N.shiftl v 1) = v.
Proof.
  unfold crc_bit. change 1 with (N.ones 1) at 1 2. rewrite N.land_ones, N.shiftl_mul_pow2, N.Div0.mod_mul. cbn.
  apply N.bits_inj. intros n. rewrite N.shiftr_spec by lia. rewrite N.shiftl_spec_high by lia. f_equal. lia.
Qed.

Lemma iter_bits_lxor n a b : Nat.iter n crc_bit (N.lxor a b) = N.lxor (Nat.iter n crc_bit a) (Nat.iter n crc_bit b).
Proof. induction n as [|n IH]; [done|]. by rewrite !Nat.iter_succ, IH, crc_bit_lxor. Qed.
Lemma iter_bits_shift n v : Nat.iter n crc_bit (N.shiftl v (N.of_nat n)) = v.
Proof.
  revert v; induction n as [|n IH]; intros v; [by rewrite N.shiftl_0_r|].
  replace (N.of_nat (S n)) with (1 + N.of_nat n) by lia. rewrite <- N.shiftl_shiftl.
  by rewrite Nat.iter_succ, IH, crc_bit_double.
Qed.

Lemma crc_byte_lxor a b : crc_byte (N.lxor a b) = N.lxor (crc_byte a) (crc_byte b).
Proof. apply (iter_bits_lxor 8). Qed.
Lemma crc_byte_shift v : crc_byte (N.shiftl v 8) = v.
Proof. apply (iter_bits_shift 8). Qed.

(** [k] bytes of division. *)
Definition crc_bytes (k : nat) (v : N) : N := Nat.iter k crc_byte v.
Lemma crc_bytes_S k v : crc_bytes (S k) v = crc_bytes k (crc_byte v).
Proof. unfold crc_bytes. apply Nat.iter_succ_r. Qed.
Lemma crc_bytes_succ k v : crc_bytes (S k) v = crc_byte (crc_bytes k v).
Proof. done. Qed.
Lemma crc_bytes_add j k v : crc_bytes (j + k) v = crc_bytes j (crc_bytes k v).
Proof. apply Nat.iter_add. Qed.
Lemma crc_bytes_lxor k a b : crc_bytes k (N.lxor a b) = N.lxor (crc_bytes k a) (crc_bytes k b).
Proof. unfold crc_bytes. induction k as [|k IH]; [done|]. by rewrite !Nat.iter_succ, IH, crc_byte_lxor. Qed.
Lemma crc_bytes_0 k : crc_bytes k 0 = 0.
Proof. unfold crc_bytes. induction k as [|k IH]; [done|]. by rewrite Nat.iter_succ, IH. Qed.

Lemma crc_bytes_bits k v : crc_bytes k v = Nat.iter (k * 8) crc_bit v.
Proof. induction k as [|k IH]; [done|]. rewrite crc_bytes_succ, IH. cbn [Nat.mul]. rewrite Nat.iter_add. done. Qed.

(** Feeding bytes one at a time is one division of the whole little-endian string. *)
Lemma feed_bytes crc data : foldl crc_feed crc data = crc_bytes (length data) (N.lxor crc (le_value data)).
Proof.
  revert crc; induction data as [|b data IH]; intros crc; [by rewrite N.lxor_0_r|].
  cbn [foldl length]. rewrite IH, crc_bytes_S, le_value_cons, add_shift8_lxor by apply b2n_lt.
  f_equal. unfold crc_feed. by rewrite <- N.lxor_assoc, (crc_byte_lxor _ (N.shiftl _ _)), crc_byte_shift.
Qed.

(** ** The tables *)

Lemma byte_of_lt w i : (byte_of w i < 256)%nat.
Proof.
  unfold byte_of. change 0xFF with (N.ones 8). rewrite N.land_ones.
  pose proof (N.mod_lt (N.shiftr w (i * 8)) (2 ^ 8) ltac:(done)). change (2 ^ 8) with 256 in *. lia.
Qed.

Lemma table_row_0_lookup i : (i < 256)%nat -> nth i table_row_0 0 = crc_byte (N.of_nat i).
Proof.
  intros Hi. assert (forall l d, (i < length l)%nat -> nth i (crc_byte <$> l) d = crc_byte (nth i l 0)) as E.
  { clear. intros l d. revert i. induction l as [|x l IH]; intros [|i]; cbn [length]; try lia; [done|]. intros. apply IH. lia. }
  unfold table_row_0. rewrite E by by rewrite length_fmap, length_seq.
  f_equal. change 0 with (N.of_nat 0). unfold fmap, list_fmap.
  rewrite (map_nth N.of_nat). by rewrite seq_nth.
Qed.

(** One byte of division by table. *)
Lemma crc_byte_table v : N.lxor (N.shiftr v 8) (nth (N.to_nat (N.land v 0xFF)) table_row_0 0) = crc_byte v.
Proof.
  pose proof (byte_of_lt v 0) as L. unfold byte_of in L. rewrite N.shiftr_0_r in L.
  rewrite table_row_0_lookup by done. rewrite N2Nat.id, N.lxor_comm.
  rewrite (split_low8 v) at 3. by rewrite crc_byte_lxor, crc_byte_shift.
Qed.

Lemma table_rows k : Nat.iter k table_row_next table_row_0 = crc_bytes (S k) <$> (N.of_nat <$> seq 0 256).
Proof.
  induction k as [|k IH]; [done|]. rewrite Nat.iter_succ, IH. unfold table_row_next. rewrite <- list_fmap_compose. apply list_fmap_ext. intros _ x _. cbn [compose].
  apply crc_byte_table.
Qed.

(** Entry [index] of table [k]: what the byte contributes once [k] more follow it. *)
Lemma TABLES_spec k index : (k < 8)%nat -> (index < 256)%nat -> TABLES k index = crc_bytes (S k) (N.of_nat index).
Proof.
  intros Hk Hi. unfold TABLES, build_tables.
  rewrite (nth_lookup_Some _ k [] (Nat.iter k table_row_next table_row_0))
    by (rewrite list_lookup_fmap, lookup_seq_lt by done; done).
  rewrite table_rows. apply nth_lookup_Some. rewrite !list_lookup_fmap, lookup_seq_lt by done. done.
Qed.

(** ** The loops *)

#[local] Opaque crc_bytes TABLES.

Lemma byte_of_shift w i : byte_of (N.shiftr w 8) i = byte_of w (i + 1).
Proof. unfold byte_of. rewrite N.shiftr_shiftr. do 3 f_equal. lia. Qed.

(** A table lookup takes the low byte out of a division. *)
Lemma peel_byte k w : (k < 8)%nat ->
  crc_bytes (S k) w = N.lxor (TABLES k (byte_of w 0)) (crc_bytes k (N.shiftr w 8)).
Proof.
  intros Hk. rewrite TABLES_spec by (done || apply byte_of_lt). unfold byte_of. rewrite N.shiftr_0_r, N2Nat.id.
  rewrite (split_low8 w) at 1. by rewrite crc_bytes_lxor, (crc_bytes_S k (N.shiftl _ _)), crc_byte_shift.
Qed.

Lemma word_tables k w : (k < 5)%nat -> w < two32 ->
  crc_bytes (4 + k) w = N.lxor (N.lxor (N.lxor (TABLES (3 + k) (byte_of w 0)) (TABLES (2 + k) (byte_of w 1)))
    (TABLES (1 + k) (byte_of w 2))) (TABLES k (byte_of w 3)).
Proof.
  intros Hk Hw. cbn [Nat.add]. do 4 rewrite peel_byte by lia. rewrite !byte_of_shift, !N.shiftr_shiftr.
  replace (N.shiftr w _) with 0
    by (symmetry; rewrite N.shiftr_div_pow2; by apply N.div_small).
  by rewrite crc_bytes_0, N.lxor_0_r, !N.lxor_assoc.
Qed.

Lemma le_value_4 bs : length bs = 4%nat -> le_value bs < two32.
Proof. intros E. pose proof (le_value_lt bs) as H. by rewrite E in H. Qed.

Lemma slice_byte_feed crc b : slice_byte crc b = crc_feed crc b.
Proof.
  unfold slice_byte, crc_feed. rewrite TABLES_spec by (lia || apply byte_of_lt).
  unfold byte_of. rewrite N.shiftr_0_r, N2Nat.id.
  rewrite (split_low8 (N.lxor crc (b2n b))) at 2. rewrite crc_byte_lxor, crc_byte_shift, N.lxor_comm. f_equal.
  rewrite N.shiftr_lxor, (N.shiftr_div_pow2 (b2n b)), (N.div_small (b2n b)) by apply b2n_lt. by rewrite N.lxor_0_r.
Qed.

Lemma slice_chunk_feed crc chunk : crc < two32 -> length chunk = 8%nat -> slice_chunk crc chunk = foldl crc_feed crc chunk.
Proof.
  intros Hc HL. rewrite <- (take_drop 4 chunk) at 2. rewrite foldl_app, !feed_bytes.
  rewrite length_take, length_drop, HL. change (4 `min` 8)%nat with 4%nat. change (8 - 4)%nat with 4%nat.
  rewrite (crc_bytes_lxor 4 (crc_bytes 4 _)), <- crc_bytes_add, (N.lxor_comm crc).
  assert (le_value (take 4 chunk) < two32) as H1 by (apply le_value_4; rewrite length_take; lia).
  assert (le_value (drop 4 chunk) < two32) as H2 by (apply le_value_4; rewrite length_drop; lia).
  unfold slice_chunk. cbv zeta. set (low := N.lxor _ crc). set (high := le_value (drop 4 chunk)) in *.
  assert (low < two32) as H3 by by apply lxor_lt32.
  pose proof (word_tables 4 low ltac:(lia) H3) as E1. pose proof (word_tables 0 high ltac:(lia) H2) as E2.
  cbn [Nat.add] in E1, E2 |- *. rewrite E1, E2. by rewrite !N.lxor_assoc.
Qed.

Lemma crc_bit_lt v : v < two32 -> crc_bit v < two32.
Proof.
  intros H. assert (N.shiftr v 1 < two32) by (rewrite N.shiftr_div_pow2; change (2 ^ 1) with 2; dlia).
  unfold crc_bit. destruct (_ =? _); [|done]. by apply lxor_lt32.
Qed.
Lemma crc_byte_lt v : v < two32 -> crc_byte v < two32.
Proof. intros H. unfold crc_byte. do 8 (apply crc_bit_lt). done. Qed.
Lemma crc_feed_lt crc b : crc < two32 -> crc_feed crc b < two32.
Proof.
  intros H. apply crc_byte_lt, lxor_lt32; [done|]. unfold two32. pose proof (b2n_lt b). lia.
Qed.
Lemma feed_lt crc data : crc < two32 -> foldl crc_feed crc data < two32.
Proof. revert crc; induction data as [|b data IH]; intros crc H; [done|]. by apply IH, crc_feed_lt. Qed.

(** Any chunk step that agrees with eight byte steps makes the loop byte-serial. *)
Lemma chunks_loop_feed chunk_step byte_step fuel crc data :
  (forall crc b, crc < two32 -> byte_step crc b = crc_feed crc b) ->
  (forall crc chunk, crc < two32 -> length chunk = 8%nat -> chunk_step crc chunk = foldl crc_feed crc chunk) ->
  crc < two32 -> chunks_loop chunk_step byte_step fuel crc data = foldl crc_feed crc data.
Proof.
  intros Hb Hc. assert (forall data crc, crc < two32 -> foldl byte_step crc data = foldl crc_feed crc data) as Hbs.
  { clear data crc. induction data as [|b data IH]; intros crc H; [done|]. cbn. rewrite Hb by done. by apply IH, crc_feed_lt. }
  revert crc data; induction fuel as [|fuel IH]; intros crc data H; cbn [chunks_loop]; [by apply Hbs|].
  destruct (Nat.leb_spec 8 (length data)); [|by apply Hbs].
  rewrite Hc by (done || rewrite length_take; lia). rewrite IH by by apply feed_lt.
  by rewrite <- foldl_app, take_drop.
Qed.

Lemma update_serial prev data : prev < two32 -> update prev data = crc_serial prev data.
Proof.
  intros H. unfold update, update_software, crc_serial. rewrite chunks_loop_feed; [done| | |by apply not32_lt].
  - intros. apply slice_byte_feed.
  - intros. by apply slice_chunk_feed.
Qed.

Lemma update_lt prev data : prev < two32 -> update prev data < two32.
Proof. intros H. rewrite update_serial by done. by apply not32_lt, feed_lt, not32_lt. Qed.
Lemma checksum_lt data : checksum data < two32.
Proof. by apply update_lt. Qed.

Lemma update_app prev a b : prev < two32 -> update (update prev a) b = update prev (a ++ b).
Proof.
  intros H. rewrite !update_serial by (done || by apply update_lt).
  unfold crc_serial. by rewrite not32_involutive, foldl_app.
Qed.

(** ** Detection *)

Lemma crc_bit_zero v : v < two32 -> crc_bit v = 0 -> v = 0.
Proof.
  intros Hv. unfold crc_bit. change 1 with (N.ones 1). rewrite N.land_ones, N.shiftr_div_pow2.
  change (N.ones 1) with 1. change (2 ^ 1) with 2.
  destruct (N.eqb_spec (v mod 2) 1) as [E|E].
  - intros X%N.lxor_eq. unfold POLYNOMIAL, two32 in *. dlia.
  - intros X. dlia.
Qed.
Lemma crc_bit_inj a b : a < two32 -> b < two32 -> crc_bit a = crc_bit b -> a = b.
Proof.
  intros Ha Hb E. apply N.lxor_eq, crc_bit_zero; [by apply lxor_lt32|].
  by rewrite crc_bit_lxor, E, N.lxor_nilpotent.
Qed.
Lemma crc_byte_inj a b : a < two32 -> b < two32 -> crc_byte a = crc_byte b -> a = b.
Proof.
  intros Ha Hb. unfold crc_byte. cbn -[crc_bit]. intros E.
  do 8 (apply crc_bit_inj in E; [|by repeat apply crc_bit_lt..]). done.
Qed.
Lemma crc_bytes_inj k a b : a < two32 -> b < two32 -> crc_bytes k a = crc_bytes k b -> a = b.
Proof.
  revert a b; induction k as [|k IH]; intros a b Ha Hb; [done|]. rewrite !crc_bytes_S.
  intros E%IH; [by apply crc_byte_inj|by apply crc_byte_lt..].
Qed.

Lemma feed_inj_state data a b : a < two32 -> b < two32 -> foldl crc_feed a data = foldl crc_feed b data -> a = b.
Proof.
  revert a b; induction data as [|x data IH]; intros a b Ha Hb; [done|]. cbn.
  intros E%IH; [|by apply crc_feed_lt..].
  unfold crc_feed in E. apply crc_byte_inj in E; [by apply lxor_cancel_r in E| |];
    (apply lxor_lt32; [done|]; unfold two32; pose proof (b2n_lt x); lia).
Qed.

Lemma le_value_small bs : (length bs <= 4)%nat -> le_value bs < two32.
Proof.
  intros H. eapply N.lt_le_trans; [apply le_value_lt|]. change two32 with (256 ^ 4).
  apply N.pow_le_mono_r; lia.
Qed.

Lemma feed_inj_burst crc x y : crc < two32 -> length x = length y -> (length x <= 4)%nat ->
  foldl crc_feed crc x = foldl crc_feed crc y -> x = y.
Proof.
  intros Hc HL H4. rewrite !feed_bytes, <- HL. intros E.
  apply crc_bytes_inj in E; [|apply lxor_lt32; [done|apply le_value_small; lia]..].
  rewrite !(N.lxor_comm crc) in E. apply lxor_cancel_r in E.
  rewrite <- (le_bytes_value x), <- (le_bytes_value y). by rewrite HL, E.
Qed.

Lemma update_detects prev p x y s : prev < two32 -> length x = length y -> (length x <= 4)%nat -> x <> y ->
  update prev (p ++ x ++ s) <> update prev (p ++ y ++ s).
Proof.
  intros Hp HL H4 Hne. rewrite !update_serial by done. unfold crc_serial. rewrite !foldl_app. intros E%not32_inj.
  assert (foldl crc_feed (not32 prev) p < two32) by by apply feed_lt, not32_lt.
  apply feed_inj_state in E; [|by apply feed_lt..]. by apply feed_inj_burst in E.
Qed.

(** ** Properties *)

(** The slicing-by-8 loop computes the bit-serial CRC-32/ISCSI,
    on any data and any previous value, and a checksum taken in pieces is the
    checksum of the whole. *)
Theorem crc_slicing prev data more : prev < two32 ->
  update prev data = crc_serial prev data /\ update (update prev data) more = update prev (data ++ more).
Proof. intros H. split; [by apply update_serial|by apply update_app]. Qed.

(** The hardware loop agrees with the software one, given
    instructions that divide by the Castagnoli polynomial. *)
Theorem crc_hardware crc32cd crc32cb prev data :
  (forall crc b, crc < two32 -> b < 256 -> crc32cb crc b = Nat.iter 8 crc_bit (N.lxor crc b)) ->
  (forall crc w, crc < two32 -> w < two64 -> crc32cd crc w = Nat.iter 64 crc_bit (N.lxor crc w)) ->
  prev < two32 -> update_hardware crc32cd crc32cb prev data = update_software prev data.
Proof.
  intros Hb Hd Hp. change (update_software prev data) with (update prev data). rewrite update_serial by done.
  unfold update_hardware, crc_serial. rewrite chunks_loop_feed; [done| | |by apply not32_lt].
  - intros crc b H. rewrite Hb by (done || apply b2n_lt). done.
  - intros crc chunk H HL. rewrite feed_bytes, HL. rewrite Hd; [|done|].
    + by rewrite crc_bytes_bits.
    + pose proof (le_value_lt chunk) as X. by rewrite HL in X.
Qed.

(** Replacing any run of at most four bytes by a different run
    of the same length changes the checksum, wherever it stands and whatever
    surrounds it. *)
Theorem crc_detects p x y s : length x = length y -> (length x <= 4)%nat -> x <> y ->
  checksum (p ++ x ++ s) <> checksum (p ++ y ++ s).
Proof. by apply update_detects. Qed.

Lemma crc_slicing_witness : update (update 0 [Byte.x31; Byte.x32; Byte.x33; Byte.x34]) [Byte.x35; Byte.x36; Byte.x37; Byte.x38; Byte.x39] = 0xE3069283.
Proof.
  rewrite (proj2 (crc_slicing 0 [Byte.x31; Byte.x32; Byte.x33; Byte.x34] [Byte.x35; Byte.x36; Byte.x37; Byte.x38; Byte.x39] eq_refl)).
  by vm_compute.
Defined.
Lemma crc_hardware_witness :
  update_hardware (fun crc w => Nat.iter 64 crc_bit (N.lxor crc w)) (fun crc b => Nat.iter 8 crc_bit (N.lxor crc b)) 0 (replicate 32 Byte.x00)
  = 0x8A9136AA.
Proof. rewrite (crc_hardware _ _ 0 _); [by vm_compute|done..]. Defined.
Lemma crc_detects_witness : checksum ([Byte.x61] ++ [Byte.x62] ++ [Byte.x63]) <> checksum ([Byte.x61] ++ [Byte.x78] ++ [Byte.x63]).
Proof. apply crc_detects; [done|cbn; lia|done]. Defined.
