(* ===== verification/DbFormat.v ===== *)
(** Internal keys and their order: [esker-engine/src/dbformat.rs].

    An internal key is a user key with an eight-byte tag, the sequence number
    and the entry kind.  The order is by user key, then by tag with the newest
    first, so that a read at a snapshot is one seek. *)

From Stdlib Require Import Strings.Byte.
From stdpp Require Import prelude.
From Stdlib Require Import NArith ZArith Lia.
From S2P Require Import Prelude Endian.

Abbreviation SeqNo := N.
Definition MAX_SEQNO : SeqNo := 72057594037927935.
Definition TAG_LEN : nat := 8.

Inductive EntryKind : Type := Delete | Put | DeleteRange.
#[export] Instance EntryKind_eq_dec : EqDecision EntryKind.
Proof. solve_decision. Defined.

Definition kind_as_u8 (k : EntryKind) : N := match k with Delete => 0 | Put => 1 | DeleteRange => 2 end.
Definition kind_from_u8 (byte : N) : option EntryKind :=
  match byte with 0%N => Some Delete | 1%N => Some Put | 2%N => Some DeleteRange | _ => None end.
Definition KIND_FOR_SEEK : N := kind_as_u8 DeleteRange.

Definition pack_tag (seqno : SeqNo) (kind : EntryKind) : N :=
  N.lor (N.shiftl (N.land seqno MAX_SEQNO) 8) (kind_as_u8 kind).
Definition tag_seqno (tag : N) : SeqNo := N.shiftr tag 8.
Definition tag_kind (tag : N) : option EntryKind :=
  match le_bytes 8 tag with b :: _ => kind_from_u8 (b2n b) | [] => None end.

Definition append_internal_key (user_key : bytes) (seqno : SeqNo) (kind : EntryKind) (out : bytes) : bytes :=
  out ++ user_key ++ le_bytes 8 (pack_tag seqno kind).
Definition internal_key (user_key : bytes) (seqno : SeqNo) (kind : EntryKind) : bytes :=
  append_internal_key user_key seqno kind [].
Definition lookup_key (user_key : bytes) (snapshot : SeqNo) : bytes :=
  user_key ++ le_bytes 8 (N.lor (N.shiftl (N.land snapshot MAX_SEQNO) 8) KIND_FOR_SEEK).

Definition extract_user_key (internal : bytes) : bytes :=
  if (length internal <? TAG_LEN)%nat then internal else take (length internal - TAG_LEN) internal.
Definition extract_tag (internal : bytes) : option N :=
  if (length internal <? TAG_LEN)%nat then None else Some (le_value (drop (length internal - TAG_LEN) internal)).
Definition split_internal_key (internal : bytes) : option (bytes * SeqNo * EntryKind) :=
  tag ← extract_tag internal; kind ← tag_kind tag; Some (extract_user_key internal, tag_seqno tag, kind).

(** ** Comparators *)

Record Comparator : Type := mkComparator {
  cmp : bytes -> bytes -> comparison;
  find_shortest_separator : bytes -> bytes -> bytes;
  find_short_successor : bytes -> bytes }.

(** What the trait asks of an implementation. *)
Class ComparatorLaws (c : Comparator) : Prop := {
  cmp_refl a : cmp c a a = Eq;
  cmp_antisym a b : cmp c b a = CompOpp (cmp c a b);
  cmp_lt_trans a b d : cmp c a b = Lt -> cmp c b d = Lt -> cmp c a d = Lt;
  cmp_eq_l a b d : cmp c a b = Eq -> cmp c a d = cmp c b d;
  separator_between start limit : cmp c start limit = Lt ->
    cmp c start (find_shortest_separator c start limit) <> Gt /\
    cmp c (find_shortest_separator c start limit) limit = Lt;
  (** With no key in between, [start] is left alone. *)
  separator_idle start limit : cmp c start limit <> Lt -> find_shortest_separator c start limit = start;
  successor_above key : cmp c key (find_short_successor c key) <> Gt }.

Fixpoint common_prefix (a b : bytes) : nat :=
  match a, b with
  | x :: a, y :: b => if Byte.eqb x y then S (common_prefix a b) else 0%nat
  | _, _ => 0%nat
  end.

Definition bytewise_separator (start limit : bytes) : bytes :=
  let common := common_prefix start limit in
  if (length start <=? common)%nat || (length limit <=? common)%nat then start else
  match start !! common, limit !! common with
  | Some byte, Some above =>
      if (b2n byte <? 255)%N && (b2n byte + 1 <? b2n above)%N then take common start ++ [n2b (b2n byte + 1)] else start
  | _, _ => start
  end.
Fixpoint bytewise_successor (key : bytes) : option bytes :=
  match key with
  | [] => None
  | b :: key => if negb (b2n b =? 255)%N then Some [n2b (b2n b + 1)] else (b ::.) <$> bytewise_successor key
  end.

Definition BytewiseComparator : Comparator := mkComparator bytes_cmp bytewise_separator
  (fun key => default key (bytewise_successor key)).

Section Internal.
Context (user : Comparator).

Definition internal_cmp (a b : bytes) : comparison :=
  match extract_tag a, extract_tag b with
  | Some tag_a, Some tag_b =>
      match cmp user (extract_user_key a) (extract_user_key b) with
      | Eq => N.compare tag_b tag_a
      | other => other
      end
  | _, _ => bytes_cmp a b
  end.

Definition seek_tag : bytes := le_bytes 8 (N.lor (N.shiftl MAX_SEQNO 8) KIND_FOR_SEEK).
Definition internal_separator (start limit : bytes) : bytes :=
  let shortened := find_shortest_separator user (extract_user_key start) (extract_user_key limit) in
  if (length shortened <? length (extract_user_key start))%nat &&
     bool_decide (cmp user (extract_user_key start) shortened = Lt)
  then shortened ++ seek_tag else start.
Definition internal_successor (key : bytes) : bytes :=
  let shortened := find_short_successor user (extract_user_key key) in
  if (length shortened <? length (extract_user_key key))%nat &&
     bool_decide (cmp user (extract_user_key key) shortened = Lt)
  then shortened ++ seek_tag else key.

Definition InternalKeyComparator : Comparator := mkComparator internal_cmp internal_separator internal_successor.
End Internal.

(** ** Prefix extractors *)

(** [PrefixExtractor] of options.rs. *)
Record PrefixExtractor := mkExtractor { pe_name : bytes; pe_prefix : bytes -> bytes; pe_in_domain : bytes -> bool }.
(** ["esker.Internal"], followed by the inner name in parentheses. *)
Definition internal_name : bytes :=
  [Byte.x65; Byte.x73; Byte.x6b; Byte.x65; Byte.x72; Byte.x2e; Byte.x49; Byte.x6e; Byte.x74; Byte.x65; Byte.x72; Byte.x6e; Byte.x61; Byte.x6c].
Definition InternalPrefixExtractor (inner : option PrefixExtractor) : PrefixExtractor :=
  mkExtractor (internal_name ++ match inner with Some e => [Byte.x28] ++ pe_name e ++ [Byte.x29] | None => [] end)
    (fun key => let user_key := extract_user_key key in match inner with Some e => pe_prefix e user_key | None => user_key end)
    (fun key => if (length key <? TAG_LEN)%nat then false else match inner with Some e => pe_in_domain e (extract_user_key key) | None => true end).

(** ** Tags *)

Lemma kind_lt k : (kind_as_u8 k < 256)%N.
Proof. by destruct k. Qed.
Lemma kind_roundtrip k : kind_from_u8 (kind_as_u8 k) = Some k.
Proof. by destruct k. Qed.
Lemma kind_from_inv b k : kind_from_u8 b = Some k -> b = kind_as_u8 k.
Proof. destruct b as [|[p|[p|p|]|]]; cbn; intros [= <-]; done. Qed.

Lemma lor_shift8 s k : (k < 256)%N -> N.lor (N.shiftl s 8) k = (s * 256 + k)%N.
Proof. intros Hk. rewrite N.lor_comm, lor_shiftl_add by done. change (2 ^ 8)%N with 256%N. lia. Qed.
Lemma land_max s : (s <= MAX_SEQNO)%N -> N.land s MAX_SEQNO = s.
Proof.
  intros Hs. change MAX_SEQNO with (N.ones 56). rewrite N.land_ones. apply N.mod_small. unfold MAX_SEQNO in Hs. cbn. lia.
Qed.
Lemma pack_tag_eq s k : (s <= MAX_SEQNO)%N -> pack_tag s k = (s * 256 + kind_as_u8 k)%N.
Proof. intros Hs. unfold pack_tag. by rewrite land_max, lor_shift8 by (done || apply kind_lt). Qed.
Lemma pack_tag_lt s k : (s <= MAX_SEQNO)%N -> (pack_tag s k < 256 ^ N.of_nat 8)%N.
Proof. intros Hs. rewrite pack_tag_eq by done. pose proof (kind_lt k). unfold MAX_SEQNO in Hs. cbn. lia. Qed.
Lemma tag_seqno_pack s k : (s <= MAX_SEQNO)%N -> tag_seqno (pack_tag s k) = s.
Proof.
  intros Hs. unfold tag_seqno. rewrite N.shiftr_div_pow2, pack_tag_eq by done. change (2 ^ 8)%N with 256%N.
  pose proof (kind_lt k). symmetry. apply (N.div_unique _ 256 s (kind_as_u8 k)); lia.
Qed.
Lemma tag_kind_pack s k : (s <= MAX_SEQNO)%N -> tag_kind (pack_tag s k) = Some k.
Proof.
  intros Hs. unfold tag_kind. rewrite le_bytes_S, b2n_n2b, pack_tag_eq by done.
  rewrite N.add_comm, N.Div0.mod_add, N.mod_small by apply kind_lt. apply kind_roundtrip.
Qed.
Lemma tag_split tag k : (tag < 256 ^ N.of_nat 8)%N -> tag_kind tag = Some k ->
  tag = pack_tag (tag_seqno tag) k /\ (tag_seqno tag <= MAX_SEQNO)%N.
Proof.
  intros Hlt. unfold tag_kind. rewrite le_bytes_S, b2n_n2b. intros Hk%kind_from_inv.
  assert (tag_seqno tag <= MAX_SEQNO)%N as Hs.
  { unfold tag_seqno. rewrite N.shiftr_div_pow2. change (2 ^ 8)%N with 256%N.
    enough (tag / 256 < 72057594037927936)%N by (unfold MAX_SEQNO; lia). apply N.Div0.div_lt_upper_bound. cbn in Hlt. lia. }
  split; [|done]. rewrite pack_tag_eq by done. unfold tag_seqno. rewrite N.shiftr_div_pow2. change (2 ^ 8)%N with 256%N.
  rewrite <- Hk. rewrite (N.Div0.div_mod tag 256) at 1. lia.
Qed.

(** ** Internal keys *)

Lemma suffix_length (u t : bytes) : length t = 8%nat -> (length (u ++ t) <? TAG_LEN)%nat = false /\ length (u ++ t) - TAG_LEN = length u.
Proof. intros Ht. rewrite length_app, Ht. unfold TAG_LEN. split; [apply Nat.ltb_ge; lia|lia]. Qed.
Lemma extract_user_key_app u t : length t = 8%nat -> extract_user_key (u ++ t) = u.
Proof. intros Ht. unfold extract_user_key. destruct (suffix_length u t Ht) as [-> ->]. by rewrite take_app_length. Qed.
Lemma extract_tag_app u t : length t = 8%nat -> extract_tag (u ++ t) = Some (le_value t).
Proof. intros Ht. unfold extract_tag. destruct (suffix_length u t Ht) as [-> ->]. by rewrite drop_app_length. Qed.

Lemma internal_key_eq u s k : internal_key u s k = u ++ le_bytes 8 (pack_tag s k).
Proof. done. Qed.
Lemma extract_user_internal u s k : extract_user_key (internal_key u s k) = u.
Proof. rewrite internal_key_eq, extract_user_key_app; [done|apply le_bytes_length]. Qed.
Lemma extract_tag_internal u s k : (s <= MAX_SEQNO)%N -> extract_tag (internal_key u s k) = Some (pack_tag s k).
Proof.
  intros Hs. rewrite internal_key_eq, extract_tag_app by apply le_bytes_length. f_equal. apply le_value_bytes, pack_tag_lt, Hs.
Qed.

Lemma split_internal_key_spec key u s k :
  split_internal_key key = Some (u, s, k) <-> key = internal_key u s k /\ (s <= MAX_SEQNO)%N.
Proof.
  split.
  - unfold split_internal_key, extract_tag. destruct (length key <? TAG_LEN)%nat eqn:El; [done|]. apply Nat.ltb_ge in El.
    cbn [mbind option_bind]. set (t := drop (length key - TAG_LEN) key).
    assert (length t = 8%nat) as Ht by (unfold t, TAG_LEN in *; rewrite length_drop; lia).
    destruct (tag_kind (le_value t)) as [k'|] eqn:Ek; [|done]. cbn [mbind option_bind].
    intros E. injection E as E1 E2 E3. subst u s k'.
    pose proof (le_value_lt t) as Hlt. rewrite Ht in Hlt.
    destruct (tag_split _ _ Hlt Ek) as [Etag Hs]. split; [|exact Hs].
    rewrite internal_key_eq, <- Etag, <- Ht, le_bytes_value. unfold extract_user_key.
    rewrite (proj2 (Nat.ltb_ge _ _) El). unfold t. by rewrite take_drop.
  - intros [-> Hs]. unfold split_internal_key. rewrite extract_tag_internal by done. cbn [mbind option_bind].
    rewrite tag_kind_pack by done. cbn [mbind option_bind]. by rewrite extract_user_internal, tag_seqno_pack.
Qed.

(** ** The orders *)

Lemma common_prefix_split a b : let n := common_prefix a b in
  take n a = take n b /\ forall x y, a !! n = Some x -> b !! n = Some y -> x <> y.
Proof.
  cbn zeta. revert b; induction a as [|x a IH]; intros [|y b]; cbn; try done.
  destruct (Byte.eqb x y) eqn:E.
  - apply Byte.byte_dec_bl in E. subst y. cbn. destruct (IH b) as [H1 H2]. split; [by f_equal|done].
  - cbn. split; [done|]. intros ? ? [= <-] [= <-]. intros ->. by rewrite (Byte.byte_dec_lb (eq_refl y)) in E.
Qed.

Lemma bytes_cmp_at p x y a b : bytes_cmp (p ++ x :: a) (p ++ y :: b) = if decide (x = y) then bytes_cmp a b else N.compare (b2n x) (b2n y).
Proof.
  rewrite bytes_cmp_app, bytes_cmp_cons. case_decide as E; [subst; by rewrite N.compare_refl|].
  destruct (N.compare_spec (b2n x) (b2n y)) as [E'| |]; [|done..]. by apply b2n_inj in E'.
Qed.

Lemma bytewise_separator_between start limit : bytes_cmp start limit = Lt ->
  bytes_cmp start (bytewise_separator start limit) <> Gt /\ bytes_cmp (bytewise_separator start limit) limit = Lt.
Proof.
  intros Hlt. unfold bytewise_separator. destruct (common_prefix_split start limit) as [Hp Hne].
  set (n := common_prefix start limit) in *. case_match; [rewrite bytes_cmp_refl; done|].
  destruct (start !! n) as [x|] eqn:Ex; [|rewrite bytes_cmp_refl; done].
  destruct (limit !! n) as [y|] eqn:Ey; [|rewrite bytes_cmp_refl; done].
  destruct (_ && _) eqn:E; [|rewrite bytes_cmp_refl; done]. apply andb_prop in E as [E1%N.ltb_lt E2%N.ltb_lt].
  rewrite <- (take_drop_middle start n x Ex) at 1. rewrite <- (take_drop_middle limit n y Ey) at 1. rewrite Hp.
  assert (b2n (n2b (b2n x + 1)) = (b2n x + 1)%N) as Hb by (apply b2n_n2b_small; lia).
  split; rewrite bytes_cmp_at; (case_decide as Hd; [apply (f_equal b2n) in Hd; rewrite Hb in Hd; lia|]); rewrite Hb.
  - rewrite (proj2 (N.compare_lt_iff _ _)); [done|lia].
  - apply N.compare_lt_iff. lia.
Qed.
Lemma bytewise_separator_idle start limit : bytes_cmp start limit <> Lt -> bytewise_separator start limit = start.
Proof.
  intros Hge. unfold bytewise_separator. destruct (common_prefix_split start limit) as [Hp _].
  set (n := common_prefix start limit) in *. case_match; [done|].
  destruct (start !! n) as [x|] eqn:Ex; [|done]. destruct (limit !! n) as [y|] eqn:Ey; [|done].
  destruct (_ && _) eqn:E; [|done]. apply andb_prop in E as [E1%N.ltb_lt E2%N.ltb_lt]. destruct Hge.
  rewrite <- (take_drop_middle start n x Ex), <- (take_drop_middle limit n y Ey), Hp, bytes_cmp_at.
  case_decide; [subst; lia|]. apply N.compare_lt_iff. lia.
Qed.
Lemma bytewise_successor_above key : bytes_cmp key (default key (bytewise_successor key)) <> Gt.
Proof.
  destruct (bytewise_successor key) as [k|] eqn:E; cbn; [|by rewrite bytes_cmp_refl]. revert k E.
  induction key as [|b key IH]; intros k; cbn [bytewise_successor]; [done|].
  destruct (N.eqb_spec (b2n b) 255) as [Hb|Hb]; cbn [negb].
  - destruct (bytewise_successor key) as [k'|]; [|done]. intros [= <-]. rewrite bytes_cmp_cons, N.compare_refl. by apply IH.
  - intros [= <-]. rewrite bytes_cmp_cons. pose proof (b2n_lt b). rewrite b2n_n2b_small by lia.
    rewrite (proj2 (N.compare_lt_iff _ _)); [done|lia].
Qed.

#[export] Instance BytewiseComparator_laws : ComparatorLaws BytewiseComparator.
Proof.
  split; cbn.
  - apply bytes_cmp_refl.
  - apply bytes_cmp_antisym.
  - apply bytes_cmp_lt_trans.
  - by intros a b d ->%bytes_cmp_eq.
  - apply bytewise_separator_between.
  - apply bytewise_separator_idle.
  - apply bytewise_successor_above.
Qed.

(** ** The order of internal keys *)

Section InternalOrder.
Context (user : Comparator) `{!ComparatorLaws user}.

(** By user key, then newest first, then by kind downwards. *)
Definition version_cmp (u : bytes) (s : SeqNo) (k : EntryKind) (u' : bytes) (s' : SeqNo) (k' : EntryKind) : comparison :=
  match cmp user u u' with
  | Eq => match N.compare s' s with Eq => N.compare (kind_as_u8 k') (kind_as_u8 k) | c => c end
  | c => c
  end.

Lemma tag_compare s k s' k' : (k < 256)%N -> (k' < 256)%N ->
  N.compare (s * 256 + k) (s' * 256 + k') = match N.compare s s' with Eq => N.compare k k' | c => c end.
Proof.
  intros Hk Hk'. destruct (N.compare_spec s s') as [->|H|H].
  - destruct (N.compare_spec k k') as [->|H|H]; [apply N.compare_refl|apply N.compare_lt_iff; lia|apply N.compare_gt_iff; lia].
  - apply N.compare_lt_iff. lia.
  - apply N.compare_gt_iff. lia.
Qed.

Lemma internal_cmp_keys u s k u' s' k' : (s <= MAX_SEQNO)%N -> (s' <= MAX_SEQNO)%N ->
  internal_cmp user (internal_key u s k) (internal_key u' s' k') = version_cmp u s k u' s' k'.
Proof.
  intros Hs Hs'. unfold internal_cmp, version_cmp. rewrite !extract_tag_internal, !extract_user_internal by done.
  rewrite !pack_tag_eq, tag_compare by (done || apply kind_lt). done.
Qed.

Lemma lookup_key_eq u s : lookup_key u s = internal_key u s DeleteRange.
Proof. done. Qed.

(** A seek for the versions visible at [snapshot] passes over exactly the
    smaller user keys and the newer versions of this one. *)
Lemma lookup_key_seek u snapshot u' s k : (snapshot <= MAX_SEQNO)%N -> (s <= MAX_SEQNO)%N ->
  internal_cmp user (lookup_key u snapshot) (internal_key u' s k) <> Gt <->
  cmp user u u' = Lt \/ cmp user u u' = Eq /\ (s <= snapshot)%N.
Proof.
  intros Hsn Hs. rewrite lookup_key_eq, internal_cmp_keys by done. unfold version_cmp.
  destruct (cmp user u u'); [|split; auto..|split; [done|by intros [|[]]]].
  destruct (N.compare_spec s snapshot) as [->|H|H].
  - split; [intros _; right; split; [done|lia]|]. intros _. by destruct k.
  - split; [intros _; right; split; [done|lia]|done].
  - split; [done|]. intros [|[_ H']]; [done|lia].
Qed.

(** On keys this engine wrote, the internal comparator is lawful again. *)
Definition wellformed (key : bytes) : Prop := exists u s k, key = internal_key u s k /\ (s <= MAX_SEQNO)%N.

Lemma seek_tag_key u : u ++ seek_tag = internal_key u MAX_SEQNO DeleteRange.
Proof. done. Qed.

Lemma internal_shorten u s k u1 : (s <= MAX_SEQNO)%N -> cmp user u u1 = Lt ->
  internal_cmp user (internal_key u s k) (u1 ++ seek_tag) = Lt.
Proof. intros Hs Hlt. rewrite seek_tag_key, internal_cmp_keys by done. unfold version_cmp. by rewrite Hlt. Qed.

Lemma internal_separator_between start limit : wellformed start -> wellformed limit ->
  internal_cmp user start limit = Lt ->
  internal_cmp user start (internal_separator user start limit) <> Gt /\
  internal_cmp user (internal_separator user start limit) limit = Lt.
Proof.
  intros (u & s & k & -> & Hs) (u' & s' & k' & -> & Hs') Hlt.
  assert (internal_cmp user (internal_key u s k) (internal_key u s k) = Eq) as Hrefl.
  { rewrite internal_cmp_keys by done. unfold version_cmp. by rewrite cmp_refl, !N.compare_refl. }
  unfold internal_separator. rewrite !extract_user_internal. destruct (_ && _) eqn:E; [|by rewrite Hrefl].
  apply andb_prop in E as [El%Nat.ltb_lt Ec%bool_decide_eq_true].
  rewrite internal_cmp_keys in Hlt by done. unfold version_cmp in Hlt.
  assert (cmp user u u' = Lt) as Hu.
  { destruct (cmp user u u') eqn:Hu; [|done..]. rewrite separator_idle in El by congruence. lia. }
  destruct (separator_between u u' Hu) as [_ Hsep]. split.
  - by rewrite internal_shorten.
  - rewrite seek_tag_key, internal_cmp_keys by done. unfold version_cmp. by rewrite Hsep.
Qed.
End InternalOrder.

(** ** Properties *)

(** An internal key splits exactly into what it was built
    from, keys compare by user key and then newest first, and a seek at a
    snapshot lands past every smaller user key and every version of this one
    newer than the snapshot, and on nothing later than the newest visible one. *)
Theorem internal_key_order user `{!ComparatorLaws user} u s k u' s' k' snapshot key :
  (s <= MAX_SEQNO)%N -> (s' <= MAX_SEQNO)%N -> (snapshot <= MAX_SEQNO)%N ->
  (split_internal_key key = Some (u, s, k) <-> key = internal_key u s k) /\
  internal_cmp user (internal_key u s k) (internal_key u' s' k') = version_cmp user u s k u' s' k' /\
  (internal_cmp user (lookup_key u snapshot) (internal_key u' s' k') <> Gt <->
   cmp user u u' = Lt \/ cmp user u u' = Eq /\ (s' <= snapshot)%N).
Proof.
  intros Hs Hs' Hsn. split; [|split; [by apply internal_cmp_keys|by apply lookup_key_seek]].
  rewrite split_internal_key_spec. tauto.
Qed.

(** An index separator lies in [start, limit) in the internal
    order, however much of the user key was cut away, and the successor of the
    last key is not below it. *)
Theorem separators_bound user `{!ComparatorLaws user} start limit :
  wellformed start -> wellformed limit -> internal_cmp user start limit = Lt ->
  internal_cmp user start (internal_separator user start limit) <> Gt /\
  internal_cmp user (internal_separator user start limit) limit = Lt /\
  internal_cmp user start (internal_successor user start) <> Gt.
Proof.
  intros Hs Hl Hlt. destruct (internal_separator_between user start limit Hs Hl Hlt) as [H1 H2]. split; [done|]. split; [done|].
  destruct Hs as (u & s & k & -> & Hs). unfold internal_successor. rewrite extract_user_internal.
  destruct (_ && _) eqn:E.
  - apply andb_prop in E as [_ E%bool_decide_eq_true]. by rewrite internal_shorten.
  - rewrite internal_cmp_keys by done. unfold version_cmp. by rewrite cmp_refl, !N.compare_refl.
Qed.

(** With a key too short to hold a tag the internal order is
    not an order: three keys, each below the next, with the last below the
    first. *)
Theorem malformed_keys_cycle : let order := cmp (InternalKeyComparator BytewiseComparator) in
  let short := [Byte.x02] in let newer := internal_key [] 2 DeleteRange in let older := internal_key [] 1 Put in
  extract_tag short = None /\ wellformed newer /\ wellformed older /\
  order short newer = Lt /\ order newer older = Lt /\ order older short = Lt.
Proof. split; [done|]. split; [by exists [], 2%N, DeleteRange|]. split; [by exists [], 1%N, Put|]. by vm_compute. Qed.

Lemma internal_key_order_witness :
  internal_cmp BytewiseComparator (internal_key [Byte.x61] 7 Put) (internal_key [Byte.x61] 5 Delete) = Lt /\
  internal_cmp BytewiseComparator (lookup_key [Byte.x61] 6) (internal_key [Byte.x61] 5 Delete) <> Gt.
Proof.
  destruct (internal_key_order BytewiseComparator [Byte.x61] 7 Put [Byte.x61] 5 Delete 6 []) as (_ & E & Hseek);
    [vm_compute; discriminate..|].
  split; [rewrite E; by vm_compute|]. apply Hseek. right. split; [by vm_compute|lia].
Defined.
Lemma separators_bound_witness :
  internal_separator BytewiseComparator (internal_key [Byte.x61; Byte.x62; Byte.x63] 7 Put) (internal_key [Byte.x65] 5 Put)
    = internal_key [Byte.x62] MAX_SEQNO DeleteRange /\
  internal_cmp BytewiseComparator (internal_key [Byte.x62] MAX_SEQNO DeleteRange) (internal_key [Byte.x65] 5 Put) = Lt.
Proof.
  split; [by vm_compute|].
  destruct (separators_bound BytewiseComparator (internal_key [Byte.x61; Byte.x62; Byte.x63] 7 Put) (internal_key [Byte.x65] 5 Put))
    as (_ & E & _); [by eexists _, _, _; split; [reflexivity|vm_compute; discriminate]..|by vm_compute|].
  exact E.
Defined.
