(* ===== verification/WriteBatch.v ===== *)
(** Write batches, the unit of atomicity of the engine
    (esker-engine/src/batch.rs): the builder, the iterator over the serialised
    entries and the validating reader that recovery uses. *)

From stdpp Require Import prelude.
From Stdlib Require Import NArith ZArith Lia.
From S2P Require Import Prelude Endian Varint DbFormat.

(** ** Data *)

Definition HEADER_SIZE : nat := 12.

Record Entry := mkEntry { e_cf : N; e_kind : EntryKind; e_key : bytes; e_value : bytes; e_seqno : N }.

(** A batch is its own serialisation. *)
Record WriteBatch := mkBatch { wb_data : bytes }.

(** The corruption a batch's bytes can show. *)
Inductive SliceError :=
  | BadLength (err : VarintError)
  | LengthOverflows (len : N)
  | LengthPastEnd (len : N) (offset : nat).
Inductive BatchError :=
  | ShorterThanHeader (len : nat)
  | BadColumnFamily (start : nat) (err : VarintError)
  | TruncatedBeforeKind (start : nat)
  | NotAnEntryKind (start : nat) (byte : byte)
  | BadKey (start : nat) (why : SliceError)
  | BadValue (start : nat) (why : SliceError)
  | CountMismatch (count seen : N)
  | TrailingBytes (trailing : nat).

(** ** Building *)

Definition WriteBatch_new : WriteBatch := mkBatch (replicate HEADER_SIZE Byte.x00).

Definition wb_seqno (b : WriteBatch) : N := le_value (take 8 (wb_data b)).
Definition set_seqno (b : WriteBatch) (seqno : N) : WriteBatch := mkBatch (le_bytes 8 seqno ++ drop 8 (wb_data b)).
Definition wb_count (b : WriteBatch) : N := le_value (take 4 (drop 8 (wb_data b))).
Definition set_count (b : WriteBatch) (count : N) : WriteBatch :=
  mkBatch (take 8 (wb_data b) ++ le_bytes 4 count ++ drop 12 (wb_data b)).

(** [a.saturating_add(b)] on [u32]. *)
Definition sat_add32 (a b : N) : N := N.min (a + b) 4294967295.

Definition push (b : WriteBatch) (cf : N) (kind : EntryKind) (key : bytes) (value : option bytes) : WriteBatch :=
  let data := put_u32 cf (wb_data b) in
  let data := data ++ [n2b (kind_as_u8 kind)] in
  let data := put_u64 (N.of_nat (length key)) data ++ key in
  let data := match value with
              | Some value => put_u64 (N.of_nat (length value)) data ++ value
              | None => data
              end in
  set_count (mkBatch data) (sat_add32 (wb_count (mkBatch data)) 1).

Definition wb_put (b : WriteBatch) (cf : N) (key value : bytes) : WriteBatch := push b cf Put key (Some value).
Definition wb_delete (b : WriteBatch) (cf : N) (key : bytes) : WriteBatch := push b cf Delete key None.
Definition wb_delete_range (b : WriteBatch) (cf : N) (from till : bytes) : WriteBatch := push b cf DeleteRange from (Some till).

(** Group commit: the entries of [other] after those of [b]. *)
Definition wb_append (b other : WriteBatch) : WriteBatch :=
  let b' := mkBatch (wb_data b ++ drop HEADER_SIZE (wb_data other)) in
  set_count b' (sat_add32 (wb_count b') (wb_count other)).

(** ** Iterating *)

Record WriteBatchIter := mkIter { it_data : bytes; it_offset : nat; it_remaining : N; it_base : N; it_index : N }.

Definition wb_iter (b : WriteBatch) : WriteBatchIter :=
  mkIter (wb_data b) HEADER_SIZE (wb_count b) (wb_seqno b) 0.

Definition it_at (it : WriteBatchIter) (offset : nat) : WriteBatchIter :=
  mkIter (it_data it) offset (it_remaining it) (it_base it) (it_index it).

(** A malformed entry ends the iteration. *)
Definition it_corrupt (it : WriteBatchIter) (e : BatchError) : option (result BatchError Entry) * WriteBatchIter :=
  (Some (Err e), mkIter (it_data it) (it_offset it) 0 (it_base it) (it_index it)).

(** [take_slice]: a varint length and that many bytes.  The iterator keeps the
    offset it had moved to when it fails. *)
Definition take_slice (it : WriteBatchIter) : result SliceError bytes * WriteBatchIter :=
  match get_u64 (drop (it_offset it) (it_data it)) with
  | Err err => (Err (BadLength err), it)
  | Ok (len, used) =>
      let it := it_at it (it_offset it + used) in
      let last := (N.of_nat (it_offset it) + len)%N in
      if (two64 <=? last)%N then (Err (LengthOverflows len), it) else
      if (N.of_nat (length (it_data it)) <? last)%N then (Err (LengthPastEnd len (it_offset it)), it) else
      (Ok (take (N.to_nat len) (drop (it_offset it) (it_data it))), it_at it (it_offset it + N.to_nat len))
  end.

Definition it_next (it : WriteBatchIter) : option (result BatchError Entry) * WriteBatchIter :=
  if (it_remaining it =? 0)%N then (None, it) else
  let start := it_offset it in
  match get_u32 (drop (it_offset it) (it_data it)) with
  | Err err => it_corrupt it (BadColumnFamily start err)
  | Ok (cf, used) =>
      let it := it_at it (it_offset it + used) in
      match it_data it !! it_offset it with
      | None => it_corrupt it (TruncatedBeforeKind start)
      | Some kind_byte =>
          let it := it_at it (S (it_offset it)) in
          match kind_from_u8 (b2n kind_byte) with
          | None => it_corrupt it (NotAnEntryKind start kind_byte)
          | Some kind =>
              match take_slice it with
              | (Err why, it) => it_corrupt it (BadKey start why)
              | (Ok key, it) =>
                  match (if decide (kind = Delete) then (Ok [], it) else take_slice it) with
                  | (Err why, it) => it_corrupt it (BadValue start why)
                  | (Ok value, it) =>
                      let seqno := it_base it +% it_index it in
                      (Some (Ok (mkEntry cf kind key value seqno)),
                       mkIter (it_data it) (it_offset it) (it_remaining it - 1) (it_base it) (sat_add32 (it_index it) 1))
                  end
              end
          end
      end
  end.

Definition trailing_bytes (it : WriteBatchIter) : option nat :=
  if ((it_remaining it =? 0)%N && (it_offset it <? length (it_data it))%nat) then Some (length (it_data it) - it_offset it)
  else None.

(** The iterator run to its end: every item it yields, and where it stopped. *)
Fixpoint it_run (fuel : nat) (it : WriteBatchIter) : list (result BatchError Entry) * WriteBatchIter :=
  match fuel with
  | O => ([], it)
  | S fuel' =>
      match it_next it with
      | (None, it') => ([], it')
      | (Some item, it') => let (items, last) := it_run fuel' it' in (item :: items, last)
      end
  end.

(** Every entry takes at least one byte, and a malformed one ends the iteration. *)
Definition it_fuel (it : WriteBatchIter) : nat := S (length (it_data it) - it_offset it).
Definition it_collect (it : WriteBatchIter) : list (result BatchError Entry) := (it_run (it_fuel it) it).1.

(** The [for entry in &mut iter] loop of [from_bytes]. *)
Fixpoint validate (fuel : nat) (it : WriteBatchIter) (seen : N) : result BatchError (N * WriteBatchIter) :=
  match fuel with
  | O => Ok (seen, it)
  | S fuel' =>
      match it_next it with
      | (None, it') => Ok (seen, it')
      | (Some (Err e), _) => Err e
      | (Some (Ok _), it') => validate fuel' it' (sat_add32 seen 1)
      end
  end.

Definition from_bytes (bs : bytes) : result BatchError WriteBatch :=
  if (length bs <? HEADER_SIZE)%nat then Err (ShorterThanHeader (length bs)) else
  let batch := mkBatch bs in
  let? (seen, it) := validate (it_fuel (wb_iter batch)) (wb_iter batch) 0 in
  if negb (seen =? wb_count batch)%N then Err (CountMismatch (wb_count batch) seen) else
  match trailing_bytes it with
  | Some trailing => Err (TrailingBytes trailing)
  | None => Ok batch
  end.

(** ** The abstract batch: a list of edits *)

Inductive edit :=
  | EPut (cf : N) (key value : bytes)
  | EDelete (cf : N) (key : bytes)
  | EDeleteRange (cf : N) (from till : bytes).

Definition edit_apply (b : WriteBatch) (e : edit) : WriteBatch :=
  match e with
  | EPut cf key value => wb_put b cf key value
  | EDelete cf key => wb_delete b cf key
  | EDeleteRange cf from till => wb_delete_range b cf from till
  end.

Definition build (base : N) (edits : list edit) : WriteBatch := foldl edit_apply (set_seqno WriteBatch_new base) edits.

Definition edit_entry (seqno : N) (e : edit) : Entry :=
  match e with
  | EPut cf key value => mkEntry cf Put key value seqno
  | EDelete cf key => mkEntry cf Delete key [] seqno
  | EDeleteRange cf from till => mkEntry cf DeleteRange from till seqno
  end.

(** What the machine can hold: a [u32] column family and lengths of [usize]. *)
Definition edit_fits (e : edit) : Prop :=
  match e with
  | EPut cf k v | EDeleteRange cf k v => (cf < 4294967296)%N /\ (N.of_nat (length k + length v) < two64)%N
  | EDelete cf k => (cf < 4294967296)%N /\ (N.of_nat (length k) < two64)%N
  end.

(** ** The bytes of an edit *)

Definition sliced (s : bytes) : bytes := put_u64 (N.of_nat (length s)) [] ++ s.
Definition edit_bytes (e : edit) : bytes :=
  match e with
  | EPut cf k v => put_u32 cf [] ++ n2b (kind_as_u8 Put) :: sliced k ++ sliced v
  | EDelete cf k => put_u32 cf [] ++ n2b (kind_as_u8 Delete) :: sliced k
  | EDeleteRange cf k v => put_u32 cf [] ++ n2b (kind_as_u8 DeleteRange) :: sliced k ++ sliced v
  end.

(** A batch's bytes: base, count, then the entries. *)
Definition batch_bytes (base count : N) (body : bytes) : bytes := le_bytes 8 base ++ le_bytes 4 count ++ body.

Section Header.
Context (base count : N) (body : bytes).
Hypothesis (Hb : (base < two64)%N) (Hc : (count < 4294967296)%N).

Lemma header_count : wb_count (mkBatch (batch_bytes base count body)) = count.
Proof.
  unfold wb_count, batch_bytes. cbn [wb_data]. rewrite drop_app_length' by by rewrite le_bytes_length.
  rewrite take_app_length' by by rewrite le_bytes_length. by apply le_value_bytes.
Qed.
Lemma header_seqno : wb_seqno (mkBatch (batch_bytes base count body)) = base.
Proof.
  unfold wb_seqno, batch_bytes. cbn [wb_data]. rewrite take_app_length' by by rewrite le_bytes_length.
  by apply le_value_bytes.
Qed.
Lemma header_body : drop HEADER_SIZE (batch_bytes base count body) = body.
Proof.
  unfold batch_bytes. rewrite app_assoc. apply drop_app_length'. by rewrite length_app, !le_bytes_length.
Qed.
Lemma header_set_count count' : set_count (mkBatch (batch_bytes base count body)) count' = mkBatch (batch_bytes base count' body).
Proof using. done. Qed.
End Header.

Lemma batch_eta b : mkBatch (wb_data b) = b.
Proof. by destruct b. Qed.

Lemma batch_split b : HEADER_SIZE <= length (wb_data b) ->
  wb_data b = batch_bytes (wb_seqno b) (wb_count b) (drop HEADER_SIZE (wb_data b)).
Proof.
  intros H. unfold batch_bytes, wb_seqno, wb_count, HEADER_SIZE in *. destruct b as [d]. cbn [wb_data] in *.
  pose proof (le_bytes_value (take 8 d)) as E1. rewrite length_take, Nat.min_l in E1 by lia.
  pose proof (le_bytes_value (take 4 (drop 8 d))) as E2. rewrite length_take, length_drop, Nat.min_l in E2 by lia.
  rewrite E1, E2. change 12 with (8 + 4). rewrite <- drop_drop, take_drop, take_drop. done.
Qed.

Lemma push_bytes base count body e : (base < two64)%N -> (count < 4294967296)%N ->
  edit_apply (mkBatch (batch_bytes base count body)) e = mkBatch (batch_bytes base (sat_add32 count 1) (body ++ edit_bytes e)).
Proof.
  intros Hb Hc.
  assert (forall more, batch_bytes base count body ++ more = batch_bytes base count (body ++ more)) as E
    by (intros; unfold batch_bytes; by rewrite <- !app_assoc).
  destruct e as [cf k v|cf k|cf k v]; cbn [edit_apply]; unfold wb_put, wb_delete, wb_delete_range, push; cbn [wb_data];
    unfold put_u32; rewrite ?(put_u64_app _ (_ ++ _)), ?(put_u64_app cf (batch_bytes _ _ _)), <- ?app_assoc, E,
      header_set_count, header_count by done; cbn [edit_bytes app]; unfold sliced; by rewrite <- ?app_assoc.
Qed.

Definition edits_bytes (edits : list edit) : bytes := mjoin (edit_bytes <$> edits).

Lemma edits_bytes_cons e edits : edits_bytes (e :: edits) = edit_bytes e ++ edits_bytes edits.
Proof. done. Qed.

Lemma build_bytes base edits : (base < two64)%N ->
  build base edits = mkBatch (batch_bytes base (N.min (N.of_nat (length edits)) 4294967295) (edits_bytes edits)).
Proof.
  intros Hb. unfold build.
  assert (set_seqno WriteBatch_new base = mkBatch (batch_bytes base 0 [])) as ->.
  { unfold set_seqno, batch_bytes. f_equal. }
  assert (forall count body, (count < 4294967296)%N -> foldl edit_apply (mkBatch (batch_bytes base count body)) edits
    = mkBatch (batch_bytes base (N.min (count + N.of_nat (length edits)) 4294967295) (body ++ edits_bytes edits))) as G.
  { induction edits as [|e edits IH]; intros count body Hc; cbn [foldl length].
    - rewrite app_nil_r. do 2 f_equal. lia.
    - rewrite push_bytes, IH by (done || unfold sat_add32; lia). rewrite edits_bytes_cons, app_assoc. do 2 f_equal. unfold sat_add32. lia. }
  rewrite G by done. done.
Qed.

(** ** Reading back one entry *)

Lemma drop_used {A} o (d p r : list A) : drop o d = p ++ r -> drop (o + length p) d = r.
Proof. intros E. rewrite <- drop_drop, E. apply drop_app_length. Qed.

Lemma drop_length_le {A} o (d p r : list A) : drop o d = p ++ r -> p <> [] -> o + length p + length r = length d.
Proof.
  intros E Hp. apply (f_equal length) in E. rewrite length_drop, length_app in E.
  destruct p; [done|]. cbn [length] in *. lia.
Qed.

Lemma sliced_nonempty s : sliced s <> [].
Proof. unfold sliced. intros [E _]%app_eq_nil. by apply put_u64_nonempty in E. Qed.
Lemma sliced_length s : length s <= length (sliced s).
Proof. unfold sliced. rewrite length_app. lia. Qed.
Lemma edit_bytes_nonempty e : edit_bytes e <> [].
Proof. by destruct e; cbn; intros [_ ?]%app_eq_nil. Qed.

Lemma take_slice_ok it s rest : (N.of_nat (length (it_data it)) < two64)%N ->
  drop (it_offset it) (it_data it) = sliced s ++ rest ->
  take_slice it = (Ok s, it_at it (it_offset it + length (sliced s))).
Proof.
  intros HL E. pose proof (drop_length_le _ _ _ _ E (sliced_nonempty s)) as Hlen. unfold sliced in *. rewrite length_app in Hlen.
  unfold take_slice. rewrite E, <- app_assoc, get_put_u64 by lia.
  cbn [it_at it_data it_offset it_remaining it_base it_index]. rewrite <- app_assoc in E.
  rewrite (proj2 (N.leb_gt _ _)), (proj2 (N.ltb_ge _ _)) by lia.
  rewrite (drop_used _ _ _ _ E), Nat2N.id, take_app_length, length_app. unfold it_at. cbn. do 2 f_equal. lia.
Qed.

Lemma take_slice_inv it s it' : it_offset it <= length (it_data it) ->
  take_slice it = (Ok s, it') ->
  it' = it_at it (it_offset it + length (sliced s)) /\
  drop (it_offset it) (it_data it) = sliced s ++ drop (it_offset it') (it_data it) /\
  it_offset it' <= length (it_data it).
Proof.
  unfold take_slice. intros Ho. destruct (get_u64 _) as [[len used]|] eqn:E; [|done].
  apply get_u64_canonical in E as [Hlen Hput].
  cbn [it_at it_data it_offset it_remaining it_base it_index].
  destruct (N.leb_spec two64 (N.of_nat (it_offset it + used) + len)); [done|].
  destruct (N.ltb_spec (N.of_nat (length (it_data it))) (N.of_nat (it_offset it + used) + len)); [done|].
  intros [= <- <-]. cbn [it_offset].
  set (r := drop (it_offset it + used) (it_data it)).
  assert (drop (it_offset it) (it_data it) = put_u64 len [] ++ r) as E.
  { rewrite <- Hput. unfold r. by rewrite <- drop_drop, take_drop. }
  assert (length (take (N.to_nat len) r) = N.to_nat len) as Es.
  { rewrite length_take. unfold r. rewrite length_drop. lia. }
  assert (length (put_u64 len []) = used) as Eu.
  { rewrite <- Hput, length_take, length_drop. lia. }
  unfold sliced. rewrite Es, N2Nat.id, length_app, Es, Eu. unfold it_at. cbn [it_data it_offset it_remaining it_base it_index].
  split; [by rewrite Nat.add_assoc|]. split; [|lia].
  rewrite E, <- app_assoc. f_equal. unfold r. by rewrite <- (drop_drop _ (N.to_nat len)), take_drop.
Qed.

Lemma get_put_u32 cf rest : (cf < 4294967296)%N -> get_u32 (put_u32 cf [] ++ rest) = Ok (cf, length (put_u32 cf [])).
Proof.
  intros H. unfold get_u32, put_u32. rewrite get_put_u64 by (unfold two64; lia). cbn [rbind].
  by rewrite (proj2 (N.ltb_lt _ _)).
Qed.

Lemma get_u32_canonical buf v n : get_u32 buf = Ok (v, n) -> (v < 4294967296)%N /\ take n buf = put_u32 v [].
Proof.
  unfold get_u32. intros ([v' n'] & E & H)%rbind_ok. apply get_u64_canonical in E as [_ E].
  destruct (N.ltb_spec v' 4294967296); [|done]. by injection H as <- <-.
Qed.

Lemma kind_byte_roundtrip k : kind_from_u8 (b2n (n2b (kind_as_u8 k))) = Some k.
Proof. rewrite b2n_n2b_small by apply kind_lt. apply kind_roundtrip. Qed.

(** The iterator past an entry's column family and kind. *)
Definition it_body (it : WriteBatchIter) (cf : N) : WriteBatchIter := it_at it (it_offset it + length (put_u32 cf []) + 1).

Lemma it_next_kind it cf kind rest : (cf < 4294967296)%N -> it_remaining it <> 0%N ->
  drop (it_offset it) (it_data it) = put_u32 cf [] ++ n2b (kind_as_u8 kind) :: rest ->
  drop (it_offset (it_body it cf)) (it_data it) = rest /\
  it_next it =
    match take_slice (it_body it cf) with
    | (Err why, it') => it_corrupt it' (BadKey (it_offset it) why)
    | (Ok key, it') =>
        match (if decide (kind = Delete) then (Ok [], it') else take_slice it') with
        | (Err why, it'') => it_corrupt it'' (BadValue (it_offset it) why)
        | (Ok value, it'') =>
            (Some (Ok (mkEntry cf kind key value (it_base it'' +% it_index it''))),
             mkIter (it_data it'') (it_offset it'') (it_remaining it'' - 1) (it_base it'') (sat_add32 (it_index it'') 1))
        end
    end.
Proof.
  intros Hcf Hr E. unfold it_next, it_body. rewrite (proj2 (N.eqb_neq _ _)) by done. cbv zeta. rewrite E, get_put_u32 by done.
  cbn [it_at it_data it_offset it_remaining it_base it_index]. apply drop_used in E.
  split; [by rewrite <- drop_drop, E|].
  rewrite <- (Nat.add_0_r (it_offset it + _)) at 1. rewrite <- lookup_drop, E. cbn [lookup list_lookup].
  rewrite kind_byte_roundtrip, Nat.add_1_r. done.
Qed.

(** One step of the iterator over the bytes of an edit. *)
Definition it_after (it : WriteBatchIter) (e : edit) : WriteBatchIter :=
  mkIter (it_data it) (it_offset it + length (edit_bytes e)) (it_remaining it - 1) (it_base it) (sat_add32 (it_index it) 1).

Lemma edit_bytes_length e : length (edit_bytes e) =
  match e with
  | EPut cf k v | EDeleteRange cf k v => length (put_u32 cf []) + 1 + length (sliced k) + length (sliced v)
  | EDelete cf k => length (put_u32 cf []) + 1 + length (sliced k)
  end.
Proof. destruct e; cbn [edit_bytes]; rewrite length_app; cbn [length]; rewrite ?length_app; lia. Qed.

Lemma it_next_edit it e rest : (N.of_nat (length (it_data it)) < two64)%N -> edit_fits e ->
  it_remaining it <> 0%N -> drop (it_offset it) (it_data it) = edit_bytes e ++ rest ->
  it_next it = (Some (Ok (edit_entry (it_base it +% it_index it) e)), it_after it e).
Proof.
  intros HL Hf Hr E. destruct e as [cf k v|cf k|cf k v]; cbn [edit_bytes] in E; rewrite <- app_assoc in E;
    cbn [app] in E; rewrite <- ?app_assoc in E;
    (destruct (it_next_kind it cf _ _ (proj1 Hf) Hr E) as [E1 ->]);
    rewrite (take_slice_ok (it_body it cf) k _ HL E1); cbn [decide decide_rel].
  2: { unfold it_after. by rewrite edit_bytes_length, !Nat.add_assoc. }
  all: apply drop_used in E1.
  all: rewrite (take_slice_ok (it_at (it_body it cf) _) v rest HL E1).
  all: unfold it_after; by rewrite edit_bytes_length, !Nat.add_assoc.
Qed.

Lemma it_next_inv it e it' : (N.of_nat (length (it_data it)) < two64)%N -> it_offset it <= length (it_data it) ->
  it_next it = (Some (Ok e), it') ->
  exists ed, edit_fits ed /\ e = edit_entry (it_base it +% it_index it) ed /\ it' = it_after it ed /\ it_remaining it <> 0%N /\
    drop (it_offset it) (it_data it) = edit_bytes ed ++ drop (it_offset it') (it_data it) /\ it_offset it' <= length (it_data it).
Proof.
  intros HL Ho H. assert (exists cf kind rest, (cf < 4294967296)%N /\ it_remaining it <> 0%N /\
    drop (it_offset it) (it_data it) = put_u32 cf [] ++ n2b (kind_as_u8 kind) :: rest) as (cf & kind & rest & Hcf & Hr & E).
  { unfold it_next in H. destruct (N.eqb_spec (it_remaining it) 0) as [|Hr]; [done|]. cbv zeta in H.
    destruct (get_u32 _) as [[cf used]|] eqn:Eg; [|done]. apply get_u32_canonical in Eg as [Hcf Eg].
    cbn [it_at it_data it_offset] in H. destruct (it_data it !! (it_offset it + used)) as [kb|] eqn:Ek; [|done].
    destruct (kind_from_u8 (b2n kb)) as [kind|] eqn:Ekk; [|done]. apply kind_from_inv in Ekk.
    exists cf, kind, (drop (S (it_offset it + used)) (it_data it)). split; [done|]. split; [done|].
    rewrite <- Eg, <- Ekk, n2b_b2n, <- (drop_S _ _ _ Ek), <- drop_drop, take_drop. done. }
  destruct (it_next_kind it cf kind rest Hcf Hr E) as [E1 E2]. rewrite E2 in H. clear E2.
  assert (length (drop (it_offset it) (it_data it)) = length (it_data it) - it_offset it) as Hlen by apply length_drop.
  rewrite E, length_app in Hlen. cbn [length] in Hlen.
  destruct (take_slice (it_body it cf)) as [[k|] it1] eqn:Ek; [|done].
  apply take_slice_inv in Ek as (-> & Ek & Ho1); [|cbn [it_body it_at it_offset it_data]; lia].
  change (it_data (it_body it cf)) with (it_data it) in *. rewrite Ek in E1. subst rest.
  cbn [it_body it_at it_offset] in *. set (o1 := it_offset it + length (put_u32 cf []) + 1 + length (sliced k)) in *.
  destruct (decide (kind = Delete)) as [->|Hk].
  - injection H as <- <-. exists (EDelete cf k). unfold it_after. rewrite edit_bytes_length.
    cbn [it_at it_body it_data it_offset it_remaining it_base it_index edit_bytes edit_fits] in *. subst o1.
    pose proof (sliced_length k). split; [split; [done|lia]|]. split; [done|]. split; [f_equal; lia|]. split; [done|]. split; [|done].
    rewrite E, <- app_assoc. done.
  - destruct (take_slice _) as [[v|] it2] eqn:Ev in H; [|done]. injection H as <- <-.
    apply take_slice_inv in Ev as (-> & Ev & Ho2); [|done]. cbn [it_at it_body it_data it_offset it_remaining it_base it_index] in *.
    pose proof (f_equal length Ev) as Hlv. rewrite length_drop, length_app in Hlv. rewrite Ev in E.
    pose proof (sliced_length k). pose proof (sliced_length v).
    destruct kind; [done|exists (EPut cf k v)|exists (EDeleteRange cf k v)]; unfold it_after; rewrite edit_bytes_length;
      cbn [it_at it_body it_data it_offset it_remaining it_base it_index edit_bytes edit_fits edit_entry] in *;
      (split; [split; [done|subst o1; lia]|]); (split; [done|]); (split; [subst o1; f_equal; lia|]); (split; [done|]); (split; [|done]);
      by rewrite E, <- app_assoc; cbn [app]; rewrite <- app_assoc.
Qed.

(** ** Reading back a batch *)

Definition it_skip (it : WriteBatchIter) (edits : list edit) : WriteBatchIter := foldl it_after it edits.

Lemma it_skip_data it edits : it_data (it_skip it edits) = it_data it.
Proof. unfold it_skip. revert it; induction edits as [|e edits IH]; intros it; [done|]. cbn. by rewrite IH. Qed.
Lemma it_skip_offset it edits : it_offset (it_skip it edits) = it_offset it + length (edits_bytes edits).
Proof.
  unfold it_skip. revert it; induction edits as [|e edits IH]; intros it; [by cbn; rewrite Nat.add_0_r|].
  cbn [foldl]. rewrite IH. rewrite edits_bytes_cons, length_app. cbn [it_after it_offset]. lia.
Qed.
Lemma it_skip_remaining it edits : it_remaining (it_skip it edits) = (it_remaining it - N.of_nat (length edits))%N.
Proof.
  unfold it_skip. revert it; induction edits as [|e edits IH]; intros it; [by cbn [foldl length]; rewrite N.sub_0_r|].
  cbn [foldl]. rewrite IH. cbn [it_after it_remaining length]. lia.
Qed.

Lemma edits_bytes_length edits : length edits <= length (edits_bytes edits).
Proof.
  induction edits as [|e edits IH]; [done|]. rewrite edits_bytes_cons, length_app. cbn [length]. pose proof (edit_bytes_nonempty e). destruct (edit_bytes e); [done|]. cbn. lia.
Qed.

Section ReadBack.
Context (it : WriteBatchIter) (edits : list edit) (rest : bytes).
Hypothesis (HL : (N.of_nat (length (it_data it)) < two64)%N) (Hf : Forall edit_fits edits).
Hypothesis (Hbody : drop (it_offset it) (it_data it) = edits_bytes edits ++ rest).
Hypothesis (Hr : it_remaining it = N.of_nat (length edits)).
Hypothesis (Hi : (it_index it + N.of_nat (length edits) <= 4294967295)%N).

Lemma it_run_edits fuel : length edits < fuel ->
  it_run fuel it = (imap (fun i e => Ok (edit_entry (it_base it +% (it_index it + N.of_nat i)) e)) edits, it_skip it edits).
Proof using All.
  clear -HL Hf Hbody Hr Hi. revert it edits HL Hf Hbody Hr Hi.
  induction fuel as [|fuel IH]; intros it edits HL Hf Hbody Hr Hi Hfuel; [lia|]. cbn [it_run].
  destruct edits as [|e edits].
  { unfold it_next. by rewrite (proj2 (N.eqb_eq _ _)). }
  apply Forall_cons in Hf as [He Hf]. cbn [length] in *. rewrite edits_bytes_cons, <- app_assoc in Hbody.
  rewrite (it_next_edit it e _ HL He) by (done || lia). cbn [it_skip foldl].
  rewrite (IH (it_after it e) edits HL Hf); [|by apply drop_used in Hbody| | |lia];
    cbn [it_after it_remaining it_index it_base]; [|unfold sat_add32; lia..].
  cbn [imap]. f_equal. f_equal; [by rewrite N.add_0_r|]. apply imap_ext. intros i x _. cbn. do 3 f_equal. unfold sat_add32. lia.
Qed.

Lemma validate_edits fuel seen : length edits < fuel -> (seen + N.of_nat (length edits) <= 4294967295)%N ->
  validate fuel it seen = Ok ((seen + N.of_nat (length edits))%N, it_skip it edits).
Proof using All.
  clear -HL Hf Hbody Hr Hi. revert it edits seen HL Hf Hbody Hr Hi.
  induction fuel as [|fuel IH]; intros it edits seen HL Hf Hbody Hr Hi Hfuel Hseen; [lia|]. cbn [validate].
  destruct edits as [|e edits].
  { unfold it_next. rewrite (proj2 (N.eqb_eq _ _)) by done. cbn. by rewrite N.add_0_r. }
  apply Forall_cons in Hf as [He Hf]. cbn [length] in *. rewrite edits_bytes_cons, <- app_assoc in Hbody.
  rewrite (it_next_edit it e _ HL He) by (done || lia). cbn [it_skip foldl].
  rewrite (IH (it_after it e) edits _ HL Hf); [|by apply drop_used in Hbody|..];
    cbn [it_after it_remaining it_index it_base]; [|unfold sat_add32; lia..].
  do 2 f_equal. unfold sat_add32. lia.
Qed.
End ReadBack.

Lemma validate_inv fuel it seen n it' : (N.of_nat (length (it_data it)) < two64)%N ->
  it_offset it <= length (it_data it) -> length (it_data it) - it_offset it < fuel ->
  validate fuel it seen = Ok (n, it') ->
  exists edits, Forall edit_fits edits /\ it' = it_skip it edits /\ it_remaining it = N.of_nat (length edits) /\
    drop (it_offset it) (it_data it) = edits_bytes edits ++ drop (it_offset it') (it_data it) /\ it_remaining it' = 0%N.
Proof.
  revert it seen. induction fuel as [|fuel IH]; intros it seen HL Ho Hfuel; [lia|]. cbn [validate].
  destruct (it_next it) as [[[e|e]|] it1] eqn:E; [|done|].
  - apply it_next_inv in E as (ed & Hed & _ & -> & Hr & Hd & Ho1); [|done..].
    assert (length (edit_bytes ed) <> 0) by (pose proof (edit_bytes_nonempty ed); by destruct (edit_bytes ed)).
    intros (edits & Hf & -> & Hrem & Hd' & H0)%IH; [|done..|cbn [it_after it_data it_offset] in *; lia].
    exists (ed :: edits). split; [by constructor|]. split; [done|]. split; [cbn [it_after it_remaining length] in *; lia|].
    split; [|done]. rewrite edits_bytes_cons, Hd, <- app_assoc. f_equal. exact Hd'.
  - intros [= <- <-]. assert (it_remaining it = 0%N /\ it1 = it) as [H0 ->].
    { unfold it_next in E. destruct (N.eqb_spec (it_remaining it) 0); [by injection E|]. cbv zeta in E.
      repeat (case_match; try done). }
    exists []. cbn. by rewrite H0.
Qed.

(** ** Properties *)

(** A batch the machine can hold. *)
Definition fits (base : N) (edits : list edit) : Prop :=
  (base < two64)%N /\ Forall edit_fits edits /\ (N.of_nat (length edits) <= 4294967295)%N /\
  (N.of_nat (length (wb_data (build base edits))) < two64)%N.

Section Fits.
Context (base : N) (edits : list edit) (Hfits : fits base edits).

Lemma built_bytes : wb_data (build base edits) = batch_bytes base (N.of_nat (length edits)) (edits_bytes edits).
Proof using Hfits. destruct Hfits as (Hb & _ & Hn & _). rewrite build_bytes by done. cbn [wb_data]. f_equal. lia. Qed.
Lemma built_count : wb_count (build base edits) = N.of_nat (length edits).
Proof using Hfits. destruct Hfits as (Hb & _ & Hn & _). rewrite build_bytes, header_count by (done || lia). lia. Qed.
Lemma built_iter :
  wb_iter (build base edits) = mkIter (wb_data (build base edits)) HEADER_SIZE (N.of_nat (length edits)) base 0.
Proof using Hfits.
  unfold wb_iter. rewrite built_count. f_equal. destruct Hfits as (Hb & _ & Hn & _). by rewrite build_bytes, header_seqno by done.
Qed.
Lemma built_body : drop HEADER_SIZE (wb_data (build base edits)) = edits_bytes edits ++ [].
Proof using Hfits. by rewrite built_bytes, header_body, app_nil_r. Qed.
Lemma built_length : length (wb_data (build base edits)) = HEADER_SIZE + length (edits_bytes edits).
Proof using Hfits. rewrite built_bytes. unfold batch_bytes. by rewrite !length_app, !le_bytes_length. Qed.
Lemma built_fuel : length edits < it_fuel (wb_iter (build base edits)).
Proof using Hfits.
  unfold it_fuel. rewrite built_iter. cbn [it_data it_offset]. rewrite built_length.
  pose proof (edits_bytes_length edits). lia.
Qed.

Lemma built_collects : it_collect (wb_iter (build base edits)) = imap (fun i e => Ok (edit_entry (base +% N.of_nat i) e)) edits.
Proof using Hfits.
  unfold it_collect. pose proof built_fuel as Hfuel. rewrite built_iter in *. destruct Hfits as (Hb & Hf & Hn & HL).
  by erewrite it_run_edits; [..|exact Hfuel]; [|done|done|apply built_body|done|cbn; lia].
Qed.

Lemma built_validates : from_bytes (wb_data (build base edits)) = Ok (build base edits).
Proof using Hfits.
  unfold from_bytes. rewrite (proj2 (Nat.ltb_ge _ _)) by (rewrite built_length; lia).
  rewrite batch_eta.
  pose proof built_fuel as Hfuel. rewrite built_count, built_iter in *. destruct Hfits as (Hb & Hf & Hn & HL).
  erewrite validate_edits; [..|exact Hfuel|]; [|done|done|apply built_body|done|cbn; lia|lia].
  cbn [rbind]. rewrite N.add_0_l, N.eqb_refl. cbn [negb].
  unfold trailing_bytes. rewrite it_skip_data, it_skip_offset. cbn [it_data it_offset]. rewrite built_length, Nat.ltb_irrefl.
  by rewrite andb_false_r.
Qed.
End Fits.

(** Whatever validates was built. *)
Lemma from_bytes_inv bs b : (N.of_nat (length bs) < two64)%N -> from_bytes bs = Ok b ->
  b = mkBatch bs /\ exists base edits, fits base edits /\ b = build base edits.
Proof.
  intros HL. unfold from_bytes. destruct (Nat.ltb_spec (length bs) HEADER_SIZE) as [|Hh]; [done|].
  intros ([seen it] & E & H)%rbind_ok. destruct (negb _); [done|]. destruct (trailing_bytes it) as [|] eqn:Et; [done|].
  injection H as <-. split; [done|].
  apply validate_inv in E as (edits & Hf & -> & Hr & Hd & H0); [|done|done|unfold it_fuel; lia].
  cbn [wb_iter it_data it_offset it_remaining wb_data] in Hr, Hd.
  unfold trailing_bytes in Et. rewrite H0, it_skip_data, it_skip_offset in *. cbn [wb_iter it_data it_offset wb_data N.eqb andb] in *.
  destruct (Nat.ltb_spec (HEADER_SIZE + length (edits_bytes edits)) (length bs)); [done|].
  rewrite (drop_ge bs (HEADER_SIZE + _)), app_nil_r in Hd by done. pose proof (batch_split (mkBatch bs) Hh) as Hsp. cbn [wb_data] in Hsp.
  assert (wb_seqno (mkBatch bs) < two64)%N as Hb.
  { unfold wb_seqno. eapply N.lt_le_trans; [apply le_value_lt|]. change two64 with (256 ^ 8)%N.
    apply N.pow_le_mono_r; [done|]. rewrite length_take. lia. }
  assert (wb_count (mkBatch bs) <= 4294967295)%N as Hc.
  { unfold wb_count. pose proof (le_value_lt (take 4 (drop 8 bs))) as Hlt. cbn [wb_data].
    assert (length (take 4 (drop 8 bs)) = 4) as E by (rewrite length_take, length_drop; unfold HEADER_SIZE in *; lia).
    rewrite E in Hlt. change (256 ^ N.of_nat 4)%N with 4294967296%N in Hlt. lia. }
  assert (mkBatch bs = build (wb_seqno (mkBatch bs)) edits) as Eb.
  { rewrite build_bytes by done. f_equal. rewrite Hsp at 1. rewrite Hd. f_equal. lia. }
  exists (wb_seqno (mkBatch bs)), edits. split; [|done]. split; [done|]. split; [done|]. split; [lia|]. by rewrite <- Eb.
Qed.

(** C27: Reading a batch back accepts exactly the byte strings the
    builder produces, and then yields the edits in the order they were made,
    entry [i] at sequence number [base + i]. *)
Theorem batch_exact bs : (N.of_nat (length bs) < two64)%N ->
  (forall b, from_bytes bs = Ok b <-> exists base edits, fits base edits /\ b = build base edits /\ wb_data b = bs) /\
  (forall base edits, fits base edits -> bs = wb_data (build base edits) ->
     it_collect (wb_iter (mkBatch bs)) = imap (fun i e => Ok (edit_entry (base +% N.of_nat i) e)) edits).
Proof.
  intros HL. split; [intros b; split|].
  - intros (-> & base & edits & Hf & E)%from_bytes_inv; [|done]. eauto.
  - intros (base & edits & Hf & -> & <-). by apply built_validates.
  - intros base edits Hf ->. rewrite batch_eta. by apply built_collects.
Qed.

(** Merging a queue of batches into the leader's gives the batch
    of all their edits in order, numbered from the leader's base. *)
Theorem batch_append base edits base' edits' : (base < two64)%N -> (base' < two64)%N ->
  wb_append (build base edits) (build base' edits') = build base (edits ++ edits').
Proof.
  intros Hb Hb'. rewrite !build_bytes by done. unfold wb_append. cbn [wb_data]. rewrite header_body.
  assert (forall count body more, batch_bytes base count body ++ more = batch_bytes base count (body ++ more)) as E
    by (intros; unfold batch_bytes; by rewrite <- !app_assoc).
  rewrite E, header_set_count, !header_count by (done || lia). f_equal. unfold sat_add32. rewrite length_app.
  unfold edits_bytes. rewrite fmap_app, join_app. f_equal. lia.
Qed.

Definition two_edits : list edit := [EPut 0 [Byte.x6b] [Byte.x31]; EDelete 1 [Byte.x6b]].
Lemma batch_exact_witness :
  from_bytes (wb_data (build 7 two_edits)) = Ok (build 7 two_edits) /\ it_collect (wb_iter (mkBatch (wb_data (build 7 two_edits)))) =
    [Ok (mkEntry 0 Put [Byte.x6b] [Byte.x31] 7); Ok (mkEntry 1 Delete [Byte.x6b] [] 8)].
Proof.
  assert (fits 7 two_edits) as Hf.
  { split; [by vm_compute|]. split; [repeat constructor; by vm_compute|]. split; by vm_compute. }
  destruct (batch_exact (wb_data (build 7 two_edits))) as [Hacc Hit]; [by vm_compute|]. split.
  - apply Hacc. exists 7%N, two_edits. done.
  - rewrite (Hit _ _ Hf eq_refl). by vm_compute.
Defined.
Lemma batch_append_witness :
  wb_append (build 50 [EPut 0 [Byte.x61] [Byte.x31]]) (build 999 [EDelete 1 [Byte.x62]])
  = build 50 [EPut 0 [Byte.x61] [Byte.x31]; EDelete 1 [Byte.x62]].
Proof. by apply batch_append. Defined.
