(* ===== verification/EngineFs.v ===== *)
(** The files the engine writes and reads (esker-engine/src/fs/mod.rs): the
    append-only and positioned-read interfaces with the promises their
    documentation makes, and the in-memory files of esker-engine/src/memfs.rs
    that implement them. *)

From stdpp Require Import prelude.
From Stdlib Require Import NArith ZArith Lia.
From S2P Require Import Prelude.

(** ** [WritableFile]

    [wf_bytes] is what a reader would find and [wf_synced] how much of it a
    power loss cannot take: neither is an operation, both are what the
    operations are specified by. *)

Class WritableFile (E F : Type) := {
  wf_append : F -> bytes -> result E unit * F;
  wf_sync_data : F -> result E unit * F;
  wf_sync_all : F -> result E unit * F;
  wf_bytes : F -> bytes;
  wf_synced : F -> nat;
}.

(** An append that fails may have written some of its bytes; a sync never
    changes them, and a successful one makes all of them durable. *)
Class WritableFileLaws (E F : Type) `{WritableFile E F} := {
  append_ok f data f' : wf_append f data = (Ok tt, f') ->
    wf_bytes f' = wf_bytes f ++ data /\ wf_synced f' = wf_synced f;
  append_err f data e f' : wf_append f data = (Err e, f') ->
    exists n, wf_bytes f' = wf_bytes f ++ take n data /\ wf_synced f' = wf_synced f;
  sync_data_ok f f' : wf_sync_data f = (Ok tt, f') ->
    wf_bytes f' = wf_bytes f /\ wf_synced f' = length (wf_bytes f);
  sync_all_ok f f' : wf_sync_all f = (Ok tt, f') ->
    wf_bytes f' = wf_bytes f /\ wf_synced f' = length (wf_bytes f);
  sync_data_err f e f' : wf_sync_data f = (Err e, f') ->
    wf_bytes f' = wf_bytes f /\ wf_synced f <= wf_synced f' <= length (wf_bytes f);
  sync_all_err f e f' : wf_sync_all f = (Err e, f') ->
    wf_bytes f' = wf_bytes f /\ wf_synced f <= wf_synced f' <= length (wf_bytes f);
}.

(** ** [RandomAccessFile] *)

(** [read_at] fills a buffer of [want] bytes with as many as it returns. *)
Class RandomAccessFile (E F : Type) := {
  raf_read_at : F -> nat -> nat -> result E bytes;
  raf_size : F -> result E N;
  raf_bytes : F -> bytes;
}.

(** A read returns what the file holds there, possibly less than asked for,
    and nothing only at the end of the file. *)
Class RandomAccessFileLaws (E F : Type) `{RandomAccessFile E F} := {
  read_at_prefix f offset want :
    exists got, raf_read_at f offset want = Ok (take got (take want (drop offset (raf_bytes f))));
  size_bytes f : raf_size f = Ok (N.of_nat (length (raf_bytes f)));
  read_at_progress f offset want : 0 < want -> offset < length (raf_bytes f) -> raf_read_at f offset want <> Ok [];
}.

(** [read_exact_at]: [Err None] is the unexpected end of the file.  A read that
    returns something shortens what is wanted, so [want] rounds are enough. *)
Fixpoint read_exact_loop {E F} `{RandomAccessFile E F} (fuel : nat) (file : F) (offset want : nat) (done : bytes) : result (option E) bytes :=
  if (want <=? length done)%nat then Ok done else
  match fuel with
  | O => Err None
  | S fuel =>
      match raf_read_at file (offset + length done) (want - length done) with
      | Err e => Err (Some e)
      | Ok [] => Err None
      | Ok data => read_exact_loop fuel file offset want (done ++ data)
      end
  end.
Definition read_exact_at {E F} `{RandomAccessFile E F} (file : F) (offset want : nat) : result (option E) bytes := read_exact_loop want file offset want [].

Lemma read_exact_spec {E F} `{RandomAccessFileLaws E F} (file : F) offset want : offset + want <= length (raf_bytes file) ->
  read_exact_at file offset want = Ok (take want (drop offset (raf_bytes file))).
Proof.
  intros Hlen. unfold read_exact_at. set (data := drop offset (raf_bytes file)). assert (length data = length (raf_bytes file) - offset) as Hd by apply length_drop.
  enough (forall fuel n, n <= want -> want - n <= fuel -> read_exact_loop fuel file offset want (take n data) = Ok (take want data)) as Hgo by (apply (Hgo want 0); lia).
  induction fuel as [|fuel IH]; intros n Hn Hf; cbn [read_exact_loop]; rewrite length_take, Nat.min_l by lia.
  { replace n with want by lia. by rewrite Nat.leb_refl. }
  destruct (Nat.leb_spec want n) as [|Hlt]; [by replace n with want by lia|]. destruct (read_at_prefix file (offset + n) (want - n)) as [got Hgot].
  pose proof (read_at_progress file (offset + n) (want - n) ltac:(lia) ltac:(lia)) as Hp. rewrite Hgot in Hp |- *. rewrite <- drop_drop in Hp |- *. fold data in Hp |- *. rewrite take_take in Hp |- *. set (m := got `min` (want - n)) in *.
  assert (0 < m) as Hm by (destruct (decide (m = 0)) as [E0|]; [by rewrite E0, take_0 in Hp|lia]). destruct (take m (drop n data)) as [|x l] eqn:Et; [by destruct Hp|]. rewrite <- Et.
  rewrite take_take_drop. apply IH; lia.
Qed.

(** ** memfs *)

Record FileData := mkFileData { fd_bytes : bytes; fd_synced : nat }.

(** [FileData::default()]. *)
Definition FileData_default : FileData := mkFileData [] 0.

Definition Mem_append (f : FileData) (data : bytes) : FileData := mkFileData (fd_bytes f ++ data) (fd_synced f).
Definition Mem_sync_data (f : FileData) : FileData := mkFileData (fd_bytes f) (length (fd_bytes f)).
Definition Mem_sync_all (f : FileData) : FileData := Mem_sync_data f.

Definition Mem_read_at (f : FileData) (offset want : nat) : bytes :=
  if (length (fd_bytes f) <=? offset)%nat then []
  else take (Nat.min want (length (fd_bytes f) - offset)) (drop offset (fd_bytes f)).

(** One file's part of [lose_unsynced]: a power loss. *)
Definition lose_unsynced (f : FileData) : FileData := mkFileData (take (fd_synced f) (fd_bytes f)) (fd_synced f).

(** A poisoned lock is another thread's panic: no operation fails otherwise. *)
#[export] Instance MemWritableFile : WritableFile False FileData := {|
  wf_append f data := (Ok tt, Mem_append f data);
  wf_sync_data f := (Ok tt, Mem_sync_data f);
  wf_sync_all f := (Ok tt, Mem_sync_all f);
  wf_bytes := fd_bytes;
  wf_synced := fd_synced;
|}.
#[export] Instance MemRandomAccessFile : RandomAccessFile False FileData := {|
  raf_read_at f offset want := Ok (Mem_read_at f offset want);
  raf_size f := Ok (N.of_nat (length (fd_bytes f)));
  raf_bytes := fd_bytes;
|}.

#[export] Instance MemWritableFile_laws : WritableFileLaws False FileData.
Proof. split; cbn; intros; simplify_eq; done. Qed.

#[export] Instance MemRandomAccessFile_laws : RandomAccessFileLaws False FileData.
Proof.
  split; [|done|]; cbn; intros f offset want; unfold Mem_read_at.
  - exists want. destruct (Nat.leb_spec (length (fd_bytes f)) offset) as [H|H].
    + by rewrite (drop_ge (fd_bytes f)), !take_nil.
    + f_equal. rewrite take_take, Nat.min_id. destruct (Nat.le_ge_cases want (length (fd_bytes f) - offset)).
      * by rewrite Nat.min_l.
      * rewrite Nat.min_r by done. rewrite !take_ge by (rewrite length_drop; lia). done.
  - intros Hw Ho. rewrite (proj2 (Nat.leb_gt _ _)) by done. intros [= E]. apply (f_equal length) in E.
    rewrite length_take, length_drop in E. cbn in E. lia.
Qed.
