(* ===== verification/Wal.v ===== *)
(** The write-ahead log (esker-engine/src/wal): block-bounded checksummed
    fragments, the writer that lays them down, the reader that tells a torn
    tail from corruption, and the recovery guarantee the two give together. *)

From stdpp Require Import prelude.
From Stdlib Require Import NArith ZArith Lia.
From S2P Require Import Prelude Endian Crc32c EngineFs.

(** ** The physical format (wal/format.rs) *)

Definition BLOCK_SIZE : nat := 32 * 1024.
Definition WAL_HEADER_SIZE : nat := 7.
Definition MAX_FRAGMENT_LEN : nat := BLOCK_SIZE - WAL_HEADER_SIZE.

Inductive RecordType := Full | First | Middle | Last.
#[export] Instance RecordType_eq_dec : EqDecision RecordType.
Proof. solve_decision. Defined.

Definition RecordType_as_u8 (k : RecordType) : byte :=
  match k with Full => Byte.x01 | First => Byte.x02 | Middle => Byte.x03 | Last => Byte.x04 end.
Definition RecordType_from_u8 (b : byte) : option RecordType :=
  match b with
  | Byte.x01 => Some Full | Byte.x02 => Some First | Byte.x03 => Some Middle | Byte.x04 => Some Last
  | _ => None
  end.

Definition fragment_crc (kind : RecordType) (payload : bytes) : N :=
  update (update 0 [RecordType_as_u8 kind]) payload.

(** [u16::try_from(len).unwrap_or(u16::MAX)]. *)
Definition u16_or_max (len : nat) : N := N.min (N.of_nat len) 65535.

Definition encode_header (kind : RecordType) (payload : bytes) : bytes :=
  le_bytes 4 (fragment_crc kind payload) ++ le_bytes 2 (u16_or_max (length payload)) ++ [RecordType_as_u8 kind].

Definition decode_header (header : bytes) : N * nat * byte :=
  (le_value (take 4 header), N.to_nat (le_value (take 2 (drop 4 header))), nth 6 header Byte.x00).

(** ** The writer (wal/writer.rs) *)

Inductive SyncCall := SyncData | SyncAll.

Inductive EngineError (E : Type) :=
  | EngineIo (e : E)
  | Poisoned (e : E).
Arguments EngineIo {E} e.
Arguments Poisoned {E} e.

Record LogWriter (E F : Type) := mkWriter {
  lw_file : F;
  lw_block_offset : nat;
  lw_buf : bytes;
  lw_len : N;
  lw_failed : option E;
  lw_sync_call : SyncCall;
}.
Arguments mkWriter {E F}.
Arguments lw_file {E F}.
Arguments lw_block_offset {E F}.
Arguments lw_buf {E F}.
Arguments lw_len {E F}.
Arguments lw_failed {E F}.
Arguments lw_sync_call {E F}.

Section Writer.
Context {E F : Type} `{WritableFile E F}.

Definition LogWriter_new (file : F) : LogWriter E F := mkWriter file 0 [] 0 None SyncData.

Definition lw_push (w : LogWriter E F) (bs : bytes) : LogWriter E F :=
  mkWriter (lw_file w) (lw_block_offset w) (lw_buf w ++ bs) (lw_len w +% N.of_nat (length bs)) (lw_failed w) (lw_sync_call w).
Definition lw_move (w : LogWriter E F) (offset : nat) : LogWriter E F :=
  mkWriter (lw_file w) offset (lw_buf w) (lw_len w) (lw_failed w) (lw_sync_call w).

(** The head of the loop of [add_record]: leave a tail too short for a header. *)
Definition lw_start_block (w : LogWriter E F) : LogWriter E F :=
  let leftover := BLOCK_SIZE - lw_block_offset w in
  if (leftover <? WAL_HEADER_SIZE)%nat then
    lw_move (if (0 <? leftover)%nat then lw_push w (take leftover (replicate WAL_HEADER_SIZE Byte.x00)) else w) 0
  else w.

Definition fragment_kind (first last : bool) : RecordType :=
  match first, last with
  | true, true => Full
  | true, false => First
  | false, true => Last
  | false, false => Middle
  end.

(** One round of the loop: the fragment's length and whether it was the last. *)
Definition add_fragment (w : LogWriter E F) (rest : bytes) (first : bool) : LogWriter E F * nat * bool :=
  let w := lw_start_block w in
  let available := BLOCK_SIZE - lw_block_offset w - WAL_HEADER_SIZE in
  let n := Nat.min (length rest) available in
  let last := (n =? length rest)%nat in
  let kind := fragment_kind first last in
  let fragment := take n rest in
  let w := lw_push (lw_push w (encode_header kind fragment)) fragment in
  (lw_move w (lw_block_offset w + (WAL_HEADER_SIZE + n)), n, last).

Fixpoint add_fragments (fuel : nat) (w : LogWriter E F) (rest : bytes) (first : bool) : LogWriter E F :=
  match fuel with
  | O => w
  | S fuel' =>
      let '(w, n, last) := add_fragment w rest first in
      if last then w else add_fragments fuel' w (drop n rest) false
  end.

(** Only the first fragment can be empty without being the last. *)
Definition add_record (w : LogWriter E F) (payload : bytes) : LogWriter E F :=
  add_fragments (length payload + 2) w payload true.

Definition lw_flush (w : LogWriter E F) : result (EngineError E) unit * LogWriter E F :=
  match lw_failed w with
  | Some reason => (Err (Poisoned reason), w)
  | None =>
      match lw_buf w with
      | [] => (Ok tt, w)
      | _ =>
          match wf_append (lw_file w) (lw_buf w) with
          | (Ok _, file) => (Ok tt, mkWriter file (lw_block_offset w) [] (lw_len w) None (lw_sync_call w))
          | (Err e, file) => (Err (EngineIo e), mkWriter file (lw_block_offset w) [] (lw_len w) (Some e) (lw_sync_call w))
          end
      end
  end.

Definition lw_sync (w : LogWriter E F) : result (EngineError E) unit * LogWriter E F :=
  match lw_flush w with
  | (Err e, w) => (Err e, w)
  | (Ok _, w) =>
      let (r, file) := match lw_sync_call w with
                       | SyncAll => wf_sync_all (lw_file w)
                       | SyncData => wf_sync_data (lw_file w)
                       end in
      (rmap_err EngineIo r, mkWriter file (lw_block_offset w) (lw_buf w) (lw_len w) (lw_failed w) (lw_sync_call w))
  end.

Definition set_sync_call (w : LogWriter E F) (call : SyncCall) : LogWriter E F :=
  mkWriter (lw_file w) (lw_block_offset w) (lw_buf w) (lw_len w) (lw_failed w) call.
End Writer.

(** ** The reader (wal/reader.rs) *)

Inductive TornAt := EndsInsideRecord | TooFewForHeader (leftover : nat) | RunsPastEnd (len : nat).
Inductive CorruptAt :=
  | FullInsideFragmented | FirstInsideFragmented | MiddleWithoutFirst | LastWithoutFirst
  | NotARecordType (b : byte) | OverrunsBlock (len : nat) | ChecksumMismatch (len : nat).

Inductive ReadOutcome :=
  | Record_ (payload : bytes)
  | Eof
  | Torn (position : nat) (why : TornAt)
  | CorruptLog (position : nat) (why : CorruptAt).
Definition ReadOutcome_is_end (o : ReadOutcome) : bool := match o with Record_ _ => false | _ => true end.

Inductive Fragment :=
  | FData (kind : RecordType) (data : bytes)
  | FEof
  | FTorn (position : nat) (why : TornAt)
  | FCorrupt (position : nat) (why : CorruptAt).

Record LogReader (F : Type) := mkLogReader {
  lr_file : F;
  lr_block : bytes;
  lr_block_start : nat;
  lr_block_len : nat;
  lr_offset : nat;
  lr_started : bool;
}.
Arguments mkLogReader {F}.
Arguments lr_file {F}.
Arguments lr_block {F}.
Arguments lr_block_start {F}.
Arguments lr_block_len {F}.
Arguments lr_offset {F}.
Arguments lr_started {F}.

Section Reader.
Context {E F : Type} `{RandomAccessFile E F}.

Definition LogReader_new (file : F) : LogReader F := mkLogReader file [] 0 0 0 false.
Definition lr_position (r : LogReader F) : nat := lr_block_start r + lr_offset r.

(** [block[got..got + data.len()].copy_from_slice(data)]. *)
Definition copy_at (block : bytes) (got : nat) (data : bytes) : bytes :=
  take got block ++ data ++ drop (got + length data) block.

(** The [while got < BLOCK_SIZE] loop; every round that goes on reads a byte. *)
Fixpoint fill_block (fuel : nat) (file : F) (start : nat) (block : bytes) (got : nat) : result E nat * bytes :=
  match fuel with
  | O => (Ok got, block)
  | S fuel' =>
      if (got <? BLOCK_SIZE)%nat then
        match raf_read_at file (start + got) (BLOCK_SIZE - got) with
        | Err e => (Err e, block)
        | Ok data =>
            if (length data =? 0)%nat then (Ok got, block)
            else fill_block fuel' file start (copy_at block got data) (got + length data)
        end
      else (Ok got, block)
  end.

(** A failed read has overwritten the buffer and nothing else. *)
Definition load_next_block (r : LogReader F) : result E bool * LogReader F :=
  let start := if lr_started r then lr_block_start r + BLOCK_SIZE else 0 in
  match fill_block (S BLOCK_SIZE) (lr_file r) start (replicate BLOCK_SIZE Byte.x00) 0 with
  | (Err e, block) => (Err e, mkLogReader (lr_file r) block (lr_block_start r) (lr_block_len r) (lr_offset r) (lr_started r))
  | (Ok got, block) => (Ok (0 <? got)%nat, mkLogReader (lr_file r) block start got 0 true)
  end.

(** The part of [next_fragment] past the check that a header is there. *)
Definition parse_fragment (r : LogReader F) : Fragment * LogReader F :=
  let leftover := lr_block_len r - lr_offset r in
  let position := lr_position r in
  let header := take WAL_HEADER_SIZE (drop (lr_offset r) (lr_block r)) in
  let '(crc, len, kind_byte) := decode_header header in
  match RecordType_from_u8 kind_byte with
  | None => (FCorrupt position (NotARecordType kind_byte), r)
  | Some kind =>
      if (BLOCK_SIZE - lr_offset r <? WAL_HEADER_SIZE + len)%nat then (FCorrupt position (OverrunsBlock len), r) else
      if (leftover <? WAL_HEADER_SIZE + len)%nat then (FTorn position (RunsPastEnd len), r) else
      let start := lr_offset r + WAL_HEADER_SIZE in
      let payload := take len (drop start (lr_block r)) in
      if negb (fragment_crc kind payload =? crc)%N then (FCorrupt position (ChecksumMismatch len), r) else
      (FData kind payload,
       mkLogReader (lr_file r) (lr_block r) (lr_block_start r) (lr_block_len r) (start + len) (lr_started r))
  end.

Definition all_zero (bs : bytes) : bool := forallb (fun b => bool_decide (b = Byte.x00)) bs.

Fixpoint next_fragment_loop (fuel : nat) (r : LogReader F) : result E Fragment * LogReader F :=
  match fuel with
  | O => (Ok FEof, r)
  | S fuel' =>
      match (if lr_started r then (Ok true, r) else load_next_block r) with
      | (Err e, r) => (Err e, r)
      | (Ok false, r) => (Ok FEof, r)
      | (Ok true, r) =>
          let leftover := lr_block_len r - lr_offset r in
          if (leftover <? WAL_HEADER_SIZE)%nat then
            if (lr_block_len r =? BLOCK_SIZE)%nat then
              match load_next_block r with
              | (Err e, r) => (Err e, r)
              | (Ok false, r) => (Ok FEof, r)
              | (Ok true, r) => next_fragment_loop fuel' r
              end
            else if (leftover =? 0)%nat then (Ok FEof, r)
            else if all_zero (take leftover (drop (lr_offset r) (lr_block r))) then (Ok FEof, r)
            else (Ok (FTorn (lr_position r) (TooFewForHeader leftover)), r)
          else let (f, r) := parse_fragment r in (Ok f, r)
      end
  end.

(** A freshly loaded block has room for a header or is the last one, so the
    second round always returns. *)
Definition next_fragment (r : LogReader F) : result E Fragment * LogReader F := next_fragment_loop 2 r.

Fixpoint read_record_loop (fuel : nat) (r : LogReader F) (payload : bytes) (fragmented : bool)
    : result E ReadOutcome * LogReader F :=
  match fuel with
  | O => (Ok Eof, r)
  | S fuel' =>
      match next_fragment r with
      | (Err e, r) => (Err e, r)
      | (Ok f, r) =>
          let corrupt why := (Ok (CorruptLog (lr_position r) why), r) in
          match f with
          | FData Full data => if fragmented then corrupt FullInsideFragmented else (Ok (Record_ data), r)
          | FData First data => if fragmented then corrupt FirstInsideFragmented else read_record_loop fuel' r data true
          | FData Middle data => if negb fragmented then corrupt MiddleWithoutFirst else read_record_loop fuel' r (payload ++ data) true
          | FData Last data => if negb fragmented then corrupt LastWithoutFirst else (Ok (Record_ (payload ++ data)), r)
          | FEof => (Ok (if fragmented then Torn (lr_position r) EndsInsideRecord else Eof), r)
          | FTorn position why => (Ok (Torn position why), r)
          | FCorrupt position why => (Ok (CorruptLog position why), r)
          end
      end
  end.

(** Every fragment takes a header's worth of the file. *)
Definition read_record (r : LogReader F) : result E ReadOutcome * LogReader F :=
  read_record_loop (S (length (raf_bytes (lr_file r)))) r [] false.

Fixpoint read_all_loop (fuel : nat) (r : LogReader F) (records : list bytes)
    : result E (list bytes * ReadOutcome) * LogReader F :=
  match fuel with
  | O => (Ok (records, Eof), r)
  | S fuel' =>
      match read_record r with
      | (Err e, r) => (Err e, r)
      | (Ok (Record_ record), r) => read_all_loop fuel' r (records ++ [record])
      | (Ok last, r) => (Ok (records, last), r)
      end
  end.
Definition read_all (r : LogReader F) : result E (list bytes * ReadOutcome) * LogReader F :=
  read_all_loop (S (length (raf_bytes (lr_file r)))) r [].
End Reader.

(** ** Blocks *)

Lemma header_lt_block : 0 < WAL_HEADER_SIZE < BLOCK_SIZE.
Proof. split; apply Nat.ltb_lt; by vm_compute. Qed.
Lemma block_lt_u16 : (N.of_nat BLOCK_SIZE < 65535)%N.
Proof. by vm_compute. Qed.
#[local] Opaque BLOCK_SIZE.

Lemma block_mod_lt pos : pos mod BLOCK_SIZE < BLOCK_SIZE.
Proof. pose proof header_lt_block. apply Nat.mod_upper_bound. lia. Qed.
Lemma block_mod_add pos n : pos mod BLOCK_SIZE + n < BLOCK_SIZE -> (pos + n) mod BLOCK_SIZE = pos mod BLOCK_SIZE + n.
Proof.
  intros Hn. rewrite <- Nat.Div0.add_mod_idemp_l. by apply Nat.mod_small.
Qed.
Lemma block_mod_end pos n : pos mod BLOCK_SIZE + n = BLOCK_SIZE -> (pos + n) mod BLOCK_SIZE = 0.
Proof. intros Hn. rewrite <- Nat.Div0.add_mod_idemp_l, Hn. apply Nat.Div0.mod_same. Qed.
Lemma block_mod_mul k n : n < BLOCK_SIZE -> (k * BLOCK_SIZE + n) mod BLOCK_SIZE = n.
Proof. intros Hn. rewrite Nat.add_comm, Nat.Div0.mod_add. by apply Nat.mod_small. Qed.

(** ** Headers *)

Lemma record_type_roundtrip k : RecordType_from_u8 (RecordType_as_u8 k) = Some k.
Proof. by destruct k. Qed.

Lemma fragment_crc_lt kind payload : (fragment_crc kind payload < two32)%N.
Proof. unfold fragment_crc. by do 2 apply update_lt. Qed.

Lemma fragment_crc_detects kind a x y b : length x = length y -> length x <= 4 -> x <> y ->
  fragment_crc kind (a ++ y ++ b) <> fragment_crc kind (a ++ x ++ b).
Proof.
  intros. unfold fragment_crc. apply update_detects; [by apply update_lt|lia|lia|congruence].
Qed.

Lemma encode_header_length kind payload : length (encode_header kind payload) = WAL_HEADER_SIZE.
Proof. unfold encode_header. by rewrite !length_app, !le_bytes_length. Qed.

Lemma decode_encode_header kind payload : (N.of_nat (length payload) < 65536)%N ->
  decode_header (encode_header kind payload) = (fragment_crc kind payload, length payload, RecordType_as_u8 kind).
Proof.
  intros Hl. unfold decode_header, encode_header.
  rewrite take_app_length', drop_app_length', take_app_length' by by rewrite le_bytes_length.
  rewrite !le_value_bytes by (unfold u16_or_max; pose proof (fragment_crc_lt kind payload); (done || (cbn; lia))).
  replace (N.to_nat (u16_or_max (length payload))) with (length payload) by (unfold u16_or_max; lia). done.
Qed.

(** ** The log as a function of the records

    [frags] lays a record down from an absolute position: padding where not
    even a header fits, then fragments that fill blocks. *)

Definition padding (pos : nat) : nat :=
  let leftover := BLOCK_SIZE - pos mod BLOCK_SIZE in if (leftover <? WAL_HEADER_SIZE)%nat then leftover else 0.

Definition fragment_bytes (pos : nat) (kind : RecordType) (data : bytes) : bytes :=
  replicate (padding pos) Byte.x00 ++ encode_header kind data ++ data.

Fixpoint frags (fuel pos : nat) (rest : bytes) (first : bool) : bytes :=
  match fuel with
  | O => []
  | S fuel' =>
      let start := pos + padding pos in
      let n := Nat.min (length rest) (BLOCK_SIZE - start mod BLOCK_SIZE - WAL_HEADER_SIZE) in
      let last := (n =? length rest)%nat in
      let out := fragment_bytes pos (fragment_kind first last) (take n rest) in
      if last then out else out ++ frags fuel' (pos + length out) (drop n rest) false
  end.

Definition record_bytes (pos : nat) (payload : bytes) : bytes := frags (length payload + 2) pos payload true.

Fixpoint log_from (pos : nat) (records : list bytes) : bytes :=
  match records with
  | [] => []
  | p :: records' => let out := record_bytes pos p in out ++ log_from (pos + length out) records'
  end.
Definition log_of (records : list bytes) : bytes := log_from 0 records.

Lemma log_from_app pos rs rs' : log_from pos (rs ++ rs') = log_from pos rs ++ log_from (pos + length (log_from pos rs)) rs'.
Proof.
  revert pos; induction rs as [|p rs IH]; intros pos; cbn [log_from app length]; [by rewrite Nat.add_0_r|].
  rewrite IH, app_assoc, length_app, Nat.add_assoc. done.
Qed.

(** What padding leaves room for. *)
Lemma padding_room pos : (pos + padding pos) mod BLOCK_SIZE + WAL_HEADER_SIZE <= BLOCK_SIZE.
Proof.
  pose proof (block_mod_lt pos) as Hm. pose proof header_lt_block as Hh. unfold padding.
  destruct (Nat.ltb_spec (BLOCK_SIZE - pos mod BLOCK_SIZE) WAL_HEADER_SIZE).
  - rewrite block_mod_end by lia. lia.
  - rewrite Nat.add_0_r. lia.
Qed.

Lemma fragment_bytes_length pos kind data : length (fragment_bytes pos kind data) = padding pos + (WAL_HEADER_SIZE + length data).
Proof. unfold fragment_bytes. by rewrite !length_app, length_replicate, encode_header_length. Qed.

(** ** The writer emits the log *)

(** The writer's offset in the block against the length of what it has emitted. *)
Definition aligned {E F} (w : LogWriter E F) (pos : nat) : Prop :=
  lw_block_offset w <= BLOCK_SIZE /\ (lw_block_offset w = BLOCK_SIZE -> pos mod BLOCK_SIZE = 0) /\
  (lw_block_offset w < BLOCK_SIZE -> pos mod BLOCK_SIZE = lw_block_offset w).

Section Emit.
Context {E F : Type} `{WritableFile E F}.

(** Fields [add_record] does not touch. *)
Definition same_file (w w' : LogWriter E F) : Prop :=
  lw_file w' = lw_file w /\ lw_failed w' = lw_failed w /\ lw_sync_call w' = lw_sync_call w.

Lemma start_block_emits (w : LogWriter E F) pos : aligned w pos ->
  lw_buf (lw_start_block w) = lw_buf w ++ replicate (padding pos) Byte.x00 /\
  lw_block_offset (lw_start_block w) = (pos + padding pos) mod BLOCK_SIZE.
Proof using.
  pose proof header_lt_block as Hh. intros (Hle & Hend & Hin). unfold lw_start_block, padding.
  destruct (Nat.ltb_spec (BLOCK_SIZE - lw_block_offset w) WAL_HEADER_SIZE) as [Hs|Hs].
  - destruct (Nat.eq_dec (lw_block_offset w) BLOCK_SIZE) as [Eb|Nb].
    + rewrite (Hend Eb), Eb, Nat.sub_diag, Nat.sub_0_r. rewrite (proj2 (Nat.ltb_ge BLOCK_SIZE _)) by lia.
      cbn. rewrite app_nil_r, Nat.add_0_r, (Hend Eb). done.
    + rewrite Hin by lia. rewrite (proj2 (Nat.ltb_lt _ _)) by lia. rewrite (proj2 (Nat.ltb_lt _ _)) by lia.
      cbn [lw_move lw_push lw_buf lw_block_offset]. rewrite take_replicate, Nat.min_l by lia.
      rewrite block_mod_end by (rewrite Hin; lia). done.
  - rewrite Hin by lia. rewrite (proj2 (Nat.ltb_ge _ _)) by lia. rewrite Nat.add_0_r, Hin by lia. by rewrite app_nil_r.
Qed.

Lemma same_file_push w bs : same_file w (lw_push w bs).
Proof using. done. Qed.
Lemma same_file_move w o : same_file w (lw_move w o).
Proof using. done. Qed.
Lemma same_file_trans w w' w'' : same_file w w' -> same_file w' w'' -> same_file w w''.
Proof using. unfold same_file. intuition congruence. Qed.
Lemma start_block_same w : same_file w (lw_start_block w).
Proof using. unfold lw_start_block. by repeat case_match. Qed.
Lemma add_fragment_same w rest first w' n last : add_fragment w rest first = (w', n, last) -> same_file w w'.
Proof using.
  unfold add_fragment. intros E'. apply (f_equal (fun x => x.1.1)) in E'. cbn [fst] in E'. rewrite <- E'.
  eapply same_file_trans; [|apply same_file_move]. do 2 (eapply same_file_trans; [|apply same_file_push]). apply start_block_same.
Qed.
Lemma add_fragments_same fuel w rest first : same_file w (add_fragments fuel w rest first).
Proof using.
  revert w rest first; induction fuel as [|fuel IH]; intros w rest first; cbn [add_fragments]; [done|].
  destruct (add_fragment w rest first) as [[w1 n] last] eqn:E'. apply add_fragment_same in E'.
  destruct last; [done|]. eapply same_file_trans; [exact E'|apply IH].
Qed.

Lemma buf_move (w : LogWriter E F) o : lw_buf (lw_move w o) = lw_buf w.
Proof using. done. Qed.
Lemma buf_push (w : LogWriter E F) bs : lw_buf (lw_push w bs) = lw_buf w ++ bs.
Proof using. done. Qed.
Lemma offset_move (w : LogWriter E F) o : lw_block_offset (lw_move w o) = o.
Proof using. done. Qed.
Lemma offset_push (w : LogWriter E F) bs : lw_block_offset (lw_push w bs) = lw_block_offset w.
Proof using. done. Qed.

(** One round, against one round of [frags]. *)
Lemma add_fragment_emits (w : LogWriter E F) pos rest first : aligned w pos ->
  let start := pos + padding pos in
  let n := Nat.min (length rest) (BLOCK_SIZE - start mod BLOCK_SIZE - WAL_HEADER_SIZE) in
  let last := (n =? length rest)%nat in
  let out := fragment_bytes pos (fragment_kind first last) (take n rest) in
  exists w', add_fragment w rest first = (w', n, last) /\ lw_buf w' = lw_buf w ++ out /\ aligned w' (pos + length out).
Proof using.
  intros Hal start n last out. destruct (start_block_emits w pos Hal) as [Eb Eo]. pose proof (padding_room pos) as Hroom.
  unfold add_fragment. rewrite Eo. fold start n. fold last. eexists. split; [reflexivity|].
  rewrite buf_move, !buf_push, Eb, <- !app_assoc. split; [done|].
  assert (n <= length rest /\ n <= BLOCK_SIZE - start mod BLOCK_SIZE - WAL_HEADER_SIZE) as [Hn1 Hn2] by (subst n; lia).
  assert (pos + length out = start + (WAL_HEADER_SIZE + n)) as ->
    by (unfold out, start; rewrite fragment_bytes_length, length_take, Nat.min_l by done; lia). fold start in Hroom.
  unfold aligned. rewrite offset_move, !offset_push, Eo. fold start. split; [lia|].
  split; [apply block_mod_end|apply block_mod_add].
Qed.

Lemma add_fragments_emits fuel (w : LogWriter E F) pos rest first : aligned w pos ->
  lw_buf (add_fragments fuel w rest first) = lw_buf w ++ frags fuel pos rest first /\
  aligned (add_fragments fuel w rest first) (pos + length (frags fuel pos rest first)).
Proof using.
  revert w pos rest first; induction fuel as [|fuel IH]; intros w pos rest first Hal; cbn [add_fragments frags].
  { by rewrite app_nil_r, Nat.add_0_r. }
  destruct (add_fragment_emits w pos rest first Hal) as (w1 & -> & Eb & Hal1).
  destruct (_ =? length rest)%nat; [done|].
  destruct (IH w1 _ (drop (Nat.min (length rest) (BLOCK_SIZE - (pos + padding pos) mod BLOCK_SIZE - WAL_HEADER_SIZE)) rest) false Hal1) as [E1 E2].
  rewrite E1, Eb, <- app_assoc, length_app, Nat.add_assoc. done.
Qed.
End Emit.

(** ** The reader over absolute positions

    [fragment_at] is what the reader finds at a position of the file, and where
    it goes next, without blocks or buffers. *)

Definition available (file : bytes) (pos : nat) : nat := Nat.min (BLOCK_SIZE - pos mod BLOCK_SIZE) (length file - pos).

Definition fragment_here (file : bytes) (pos : nat) : Fragment * nat :=
  let leftover := available file pos in
  if (leftover <? WAL_HEADER_SIZE)%nat then
    if (leftover =? 0)%nat then (FEof, pos)
    else if all_zero (take leftover (drop pos file)) then (FEof, pos)
    else (FTorn pos (TooFewForHeader leftover), pos)
  else
    let '(crc, len, kind_byte) := decode_header (take WAL_HEADER_SIZE (drop pos file)) in
    match RecordType_from_u8 kind_byte with
    | None => (FCorrupt pos (NotARecordType kind_byte), pos)
    | Some kind =>
        if (BLOCK_SIZE - pos mod BLOCK_SIZE <? WAL_HEADER_SIZE + len)%nat then (FCorrupt pos (OverrunsBlock len), pos) else
        if (leftover <? WAL_HEADER_SIZE + len)%nat then (FTorn pos (RunsPastEnd len), pos) else
        let payload := take len (drop (pos + WAL_HEADER_SIZE) file) in
        if negb (fragment_crc kind payload =? crc)%N then (FCorrupt pos (ChecksumMismatch len), pos)
        else (FData kind payload, pos + WAL_HEADER_SIZE + len)
    end.

(** Padding is skipped only in a block the file holds whole. *)
Definition skip_padding (file : bytes) (pos : nat) : nat :=
  if (pos + padding pos <=? length file)%nat then pos + padding pos else pos.
Definition fragment_at (file : bytes) (pos : nat) : Fragment * nat := fragment_here file (skip_padding file pos).

Lemma take_taken {A} n (l : list A) : take (length (take n l)) l = take n l.
Proof. rewrite length_take. destruct (Nat.le_ge_cases n (length l)); [by rewrite Nat.min_l|]. by rewrite Nat.min_r, !take_ge. Qed.

Lemma copy_at_length block got data : got + length data <= length block -> length (copy_at block got data) = length block.
Proof. intros. unfold copy_at. rewrite !length_app, length_take, length_drop. lia. Qed.

Section Refine.
Context {E F : Type} `{RandomAccessFileLaws E F}.

Definition block_view (file : bytes) (start : nat) : bytes := take BLOCK_SIZE (drop start file).

(** A loaded block: the file's bytes, zero-filled. *)
Definition loaded (r : LogReader F) : Prop :=
  lr_started r = true /\ (exists k, lr_block_start r = k * BLOCK_SIZE) /\
  lr_block_len r = length (block_view (raf_bytes (lr_file r)) (lr_block_start r)) /\
  take (lr_block_len r) (lr_block r) = block_view (raf_bytes (lr_file r)) (lr_block_start r) /\
  lr_offset r <= lr_block_len r.

(** The reader stands at absolute position [pos] of [file]. *)
Definition reads (r : LogReader F) (file : bytes) (pos : nat) : Prop :=
  raf_bytes (lr_file r) = file /\
  (lr_started r = false /\ pos = 0 \/ loaded r /\ pos = lr_position r).

Lemma fill_block_spec fuel file start block got :
  length block = BLOCK_SIZE -> got <= BLOCK_SIZE -> BLOCK_SIZE - got < fuel ->
  take got block = take got (drop start (raf_bytes file)) -> got <= length (drop start (raf_bytes file)) ->
  exists block', fill_block fuel file start block got = (Ok (length (block_view (raf_bytes file) start)), block') /\
    take (length (block_view (raf_bytes file) start)) block' = block_view (raf_bytes file) start.
Proof using All.
  revert block got; induction fuel as [|fuel IH]; intros block got Hb Hg Hfuel Ht Hl; [lia|]. cbn [fill_block].
  unfold block_view in *. rewrite length_take in *. set (view := drop start (raf_bytes file)) in *.
  destruct (Nat.ltb_spec got BLOCK_SIZE) as [Hlt|Hge].
  - destruct (read_at_prefix file (start + got) (BLOCK_SIZE - got)) as [k Ek].
    pose proof (read_at_progress file (start + got) (BLOCK_SIZE - got)) as Hprog. rewrite Ek in *.
    rewrite <- drop_drop in *. fold view in Ek, Hprog |- *. set (data := take k _) in *.
    assert (data = take (length data) (drop got view)) as Edata.
    { unfold data. by rewrite take_take, take_taken. }
    assert (length data <= BLOCK_SIZE - got /\ length data <= length view - got) as [L1 L2]
      by (unfold data; rewrite !length_take, length_drop; lia).
    destruct (Nat.eqb_spec (length data) 0) as [Ez|Nz].
    + assert (got = length view) as Eg.
      { destruct (Nat.lt_ge_cases got (length view)); [|lia]. exfalso. apply Hprog; [lia| |by apply length_zero_iff_nil in Ez; rewrite Ez].
        unfold view in *. rewrite length_drop in *. lia. }
      exists block. rewrite Nat.min_r by lia. rewrite <- Eg. split; [done|]. rewrite Ht. by rewrite !take_ge by lia.
    + apply IH; [rewrite copy_at_length; lia|lia|lia| |lia].
      unfold copy_at. rewrite app_assoc, take_app_length' by (rewrite length_app, length_take; lia).
      rewrite Ht. rewrite Edata at 1. apply take_take_drop.
  - exists block. rewrite Nat.min_l by lia. assert (got = BLOCK_SIZE) as -> by lia. done.
Qed.

Lemma view_length file start : length (block_view file start) = Nat.min BLOCK_SIZE (length file - start).
Proof using. unfold block_view. by rewrite length_take, length_drop. Qed.

Lemma load_spec r : (lr_started r = true -> exists k, lr_block_start r = k * BLOCK_SIZE) ->
  let start := if lr_started r then lr_block_start r + BLOCK_SIZE else 0 in
  exists r', load_next_block r = (Ok (0 <? length (block_view (raf_bytes (lr_file r)) start))%nat, r') /\
    loaded r' /\ lr_offset r' = 0 /\ lr_block_start r' = start /\ lr_file r' = lr_file r.
Proof using All.
  intros Hk. unfold load_next_block. set (start := if lr_started r then _ else 0).
  destruct (fill_block_spec (S BLOCK_SIZE) (lr_file r) start (replicate BLOCK_SIZE Byte.x00) 0) as (block & -> & Ht);
    [apply length_replicate|lia|lia|done|lia|].
  eexists. split; [done|]. cbn. split; [|done]. split; [done|]. cbn. split; [|done || (split; [done|split; [done|lia]])].
  subst start. destruct (lr_started r); [|by exists 0]. destruct (Hk eq_refl) as [k ->]. exists (S k). lia.
Qed.

Section Loaded.
Context (r : LogReader F) (Hr : loaded r).
Let file := raf_bytes (lr_file r).

Lemma loaded_bytes x o : lr_offset r <= o -> o + x <= lr_block_len r ->
  take x (drop o (lr_block r)) = take x (drop (lr_block_start r + o) file).
Proof using Hr.
  destruct Hr as (_ & _ & Hlen & Ht & Ho). intros Hle Hx. subst file. unfold block_view in Ht.
  apply (f_equal (fun l => take x (drop o l))) in Ht. rewrite !skipn_firstn_comm, !firstn_firstn in Ht.
  rewrite Hlen, view_length in *.
  rewrite !Nat.min_l in Ht by lia. by rewrite drop_drop in Ht.
Qed.

Lemma loaded_mod : lr_offset r < BLOCK_SIZE -> lr_position r mod BLOCK_SIZE = lr_offset r.
Proof using Hr. destruct Hr as (_ & [k Ek] & _). unfold lr_position. rewrite Ek. apply block_mod_mul. Qed.
Lemma loaded_available : lr_offset r < BLOCK_SIZE -> available file (lr_position r) = lr_block_len r - lr_offset r.
Proof using Hr.
  intros Ho. unfold available. rewrite loaded_mod by done. destruct Hr as (_ & _ & -> & _).
  rewrite view_length. unfold lr_position. fold file. lia.
Qed.

Lemma parse_spec : WAL_HEADER_SIZE <= lr_block_len r - lr_offset r ->
  let (f, r') := parse_fragment r in
  f = (fragment_here file (lr_position r)).1 /\
  (forall k d, f = FData k d -> loaded r' /\ lr_position r' = (fragment_here file (lr_position r)).2 /\ lr_file r' = lr_file r).
Proof using Hr.
  intros Hroom. pose proof header_lt_block as Hh.
  assert (lr_block_len r <= BLOCK_SIZE) as Hbl by (destruct Hr as (_ & _ & -> & _); rewrite view_length; lia).
  unfold fragment_here. rewrite loaded_available, (proj2 (Nat.ltb_ge _ _)) by lia. rewrite loaded_mod by lia.
  unfold parse_fragment. rewrite loaded_bytes by lia.
  fold (lr_position r). destruct (decode_header _) as [[crc len] kb].
  destruct (RecordType_from_u8 kb) as [kind|]; [|done].
  destruct (Nat.ltb_spec (BLOCK_SIZE - lr_offset r) (WAL_HEADER_SIZE + len)); [done|].
  destruct (Nat.ltb_spec (lr_block_len r - lr_offset r) (WAL_HEADER_SIZE + len)); [done|].
  rewrite loaded_bytes, Nat.add_assoc by lia. fold (lr_position r).
  destruct (negb _); [done|]. split; [done|]. intros k d _.
  destruct Hr as (? & ? & ? & ? & ?). unfold loaded, lr_position. cbn. split; [|split; [lia|done]].
  do 4 (split; [done|]). lia.
Qed.
End Loaded.

(** A block that has just been loaded is decided without loading another. *)
Definition decided (r : LogReader F) (file : bytes) (pos : nat) (out : result E Fragment * LogReader F) : Prop :=
  out.1 = Ok (fragment_here file pos).1 /\
  (forall k d, (fragment_here file pos).1 = FData k d -> reads out.2 file (fragment_here file pos).2).

Lemma loop_decides fuel r : loaded r -> lr_offset r < BLOCK_SIZE ->
  WAL_HEADER_SIZE <= lr_block_len r - lr_offset r \/ lr_block_len r <> BLOCK_SIZE ->
  decided r (raf_bytes (lr_file r)) (lr_position r) (next_fragment_loop (S fuel) r).
Proof using All.
  intros Hr Ho Hdec. cbn [next_fragment_loop]. destruct Hr as [Hst Hrest]. rewrite Hst. pose proof (conj Hst Hrest : loaded r) as Hr.
  destruct (Nat.ltb_spec (lr_block_len r - lr_offset r) WAL_HEADER_SIZE) as [Hs|Hs].
  - rewrite (proj2 (Nat.eqb_neq _ _)) by lia. unfold decided, fragment_here.
    rewrite loaded_available, (proj2 (Nat.ltb_lt _ _)) by done. fold (lr_position r).
    destruct (_ =? 0)%nat; [done|]. rewrite loaded_bytes by (done || lia). fold (lr_position r). by destruct (all_zero _).
  - pose proof (parse_spec r Hr Hs) as Hp. destruct (parse_fragment r) as [f r']. destruct Hp as [-> Hp].
    split; [done|]. cbn [fst snd]. intros k d Hd. destruct (Hp k d Hd) as (Hl & <- & Hfile). split; [by rewrite Hfile|]. by right.
Qed.

Lemma skip_padding_loaded r : loaded r ->
  skip_padding (raf_bytes (lr_file r)) (lr_position r) =
  if ((lr_block_len r - lr_offset r <? WAL_HEADER_SIZE) && (lr_block_len r =? BLOCK_SIZE))%nat
  then lr_block_start r + BLOCK_SIZE else lr_position r.
Proof using.
  intros Hr. pose proof header_lt_block as Hh. pose proof Hr as (_ & [k Ek] & Hlen & _ & Ho). rewrite view_length in Hlen.
  unfold skip_padding, padding. destruct (Nat.eq_dec (lr_offset r) BLOCK_SIZE) as [Eo|No].
  - assert (lr_position r = lr_block_start r + BLOCK_SIZE) as Ep by (unfold lr_position; lia).
    assert (lr_position r mod BLOCK_SIZE = 0) as -> by (replace (lr_position r) with (S k * BLOCK_SIZE) by lia; apply Nat.Div0.mod_mul).
    rewrite Nat.sub_0_r, (proj2 (Nat.ltb_ge BLOCK_SIZE _)), Nat.add_0_r by lia.
    rewrite (proj2 (Nat.ltb_lt _ _)), (proj2 (Nat.eqb_eq _ _)) by lia. cbn [andb]. rewrite Ep. by destruct (_ <=? _)%nat.
  - rewrite loaded_mod by (done || lia). destruct (Nat.ltb_spec (BLOCK_SIZE - lr_offset r) WAL_HEADER_SIZE) as [Hs|Hs].
    + rewrite (proj2 (Nat.ltb_lt (lr_block_len r - _) _)) by lia. cbn [andb]. unfold lr_position.
      destruct (Nat.eqb_spec (lr_block_len r) BLOCK_SIZE) as [Ef|Nf].
      * rewrite (proj2 (Nat.leb_le _ _)) by lia. lia.
      * by rewrite (proj2 (Nat.leb_gt _ _)) by lia.
    + rewrite Nat.add_0_r. assert ((_ <? WAL_HEADER_SIZE) && (lr_block_len r =? BLOCK_SIZE) = false)%nat as ->.
      { destruct (Nat.eqb_spec (lr_block_len r) BLOCK_SIZE); [|apply andb_false_r]. rewrite (proj2 (Nat.ltb_ge _ _)); [done|lia]. }
      by destruct (_ <=? _)%nat.
Qed.

Lemma here_past_end file pos : length file <= pos -> fragment_here file pos = (FEof, pos).
Proof using.
  intros Hp. unfold fragment_here, available. replace (length file - pos) with 0 by lia. rewrite Nat.min_0_r.
  pose proof header_lt_block. by rewrite (proj2 (Nat.ltb_lt _ _)) by lia.
Qed.

(** Loading a block decides what stands at its start. *)
Lemma load_decides r : (lr_started r = true -> exists k, lr_block_start r = k * BLOCK_SIZE) ->
  let start := if lr_started r then lr_block_start r + BLOCK_SIZE else 0 in
  forall fuel, decided r (raf_bytes (lr_file r)) start
    (match load_next_block r with
     | (Err e, r) => (Err e, r)
     | (Ok false, r) => (Ok FEof, r)
     | (Ok true, r) => next_fragment_loop (S fuel) r
     end).
Proof using All.
  intros Hk start fuel. destruct (load_spec r Hk) as (r' & -> & Hl & Ho & Es & Ef). fold start in Es |- *.
  pose proof header_lt_block as Hh. pose proof Hl as (_ & _ & Hlen & _). rewrite Ef, Es in Hlen. rewrite <- Hlen.
  destruct (Nat.ltb_spec 0 (lr_block_len r')) as [Hpos|Hz].
  - pose proof (loop_decides fuel r' Hl) as Hd. unfold lr_position in Hd. rewrite Ef, Es, Ho, Nat.add_0_r, Nat.sub_0_r in Hd.
    apply Hd; lia.
  - unfold decided. rewrite here_past_end; [done|]. rewrite view_length in Hlen. lia.
Qed.

(** Two rounds are enough, and more change nothing. *)
Lemma next_fragment_loop_spec n r file pos : reads r file pos ->
  exists r', next_fragment_loop (S (S n)) r = (Ok (fragment_at file pos).1, r') /\
    (forall k d, (fragment_at file pos).1 = FData k d -> reads r' file (fragment_at file pos).2).
Proof using All.
  intros [<- Hat]. pose proof header_lt_block as Hh.
  enough (decided r (raf_bytes (lr_file r)) (skip_padding (raf_bytes (lr_file r)) pos) (next_fragment_loop (S (S n)) r)) as [Hd1 Hd2].
  { destruct (next_fragment_loop (S (S n)) r) as [f r']. exists r'. cbn in Hd1, Hd2. by rewrite Hd1. }
  destruct Hat as [[Hst ->]|[Hl ->]].
  - assert (skip_padding (raf_bytes (lr_file r)) 0 = 0) as ->.
    { unfold skip_padding, padding. rewrite Nat.Div0.mod_0_l, Nat.sub_0_r, (proj2 (Nat.ltb_ge _ _)) by lia. done. }
    pose proof (load_decides r) as Hd. rewrite Hst in Hd. specialize (Hd ltac:(done) (S n)).
    cbn [next_fragment_loop] in Hd |- *. rewrite Hst.
    destruct (load_spec r) as (r' & E' & (Hst' & _) & _); [by rewrite Hst|]. rewrite E' in *.
    destruct (_ <? _)%nat; [|exact Hd]. by rewrite Hst' in Hd.
  - rewrite skip_padding_loaded by done. destruct (_ && _) eqn:E'.
    + apply andb_prop in E' as [Es Ef]. pose proof (load_decides r) as Hd. destruct Hl as (Hst & Hk & _). rewrite Hst in Hd.
      specialize (Hd ltac:(done) n). remember (S n) as n1. cbn [next_fragment_loop] in Hd |- *. subst n1. by rewrite Hst, Es, Ef.
    + pose proof Hl as (_ & _ & Hlen & _ & Ho). rewrite view_length in Hlen.
      assert (WAL_HEADER_SIZE <= lr_block_len r - lr_offset r \/ lr_block_len r <> BLOCK_SIZE) as Hc.
      { destruct (Nat.ltb_spec (lr_block_len r - lr_offset r) WAL_HEADER_SIZE); [|by left]. cbn in E'.
        right. by apply Nat.eqb_neq. }
      apply loop_decides; [done| |done]. lia.
Qed.
Lemma next_fragment_spec r file pos : reads r file pos ->
  exists r', next_fragment r = (Ok (fragment_at file pos).1, r') /\
    (forall k d, (fragment_at file pos).1 = FData k d -> reads r' file (fragment_at file pos).2).
Proof using All. apply next_fragment_loop_spec. Qed.
End Refine.

(** ** Reading what the writer laid down *)

(** An outcome a crash may leave: never corruption. *)
Definition cut_short (o : ReadOutcome) : Prop := match o with Eof | Torn _ _ => True | _ => False end.
Definition fragment_cut_short (f : Fragment) : Prop := match f with FEof | FTorn _ _ => True | _ => False end.

(** A fragment that fits in what is left of its block. *)
Definition fragment_fits (pos : nat) (data : bytes) : Prop :=
  (pos + padding pos) mod BLOCK_SIZE + WAL_HEADER_SIZE + length data <= BLOCK_SIZE.

Lemma drop_app_at {A} (a b : list A) n : n = length a -> drop n (a ++ b) = b.
Proof. intros ->. apply drop_app_length. Qed.
Lemma take_app_at {A} (a b : list A) n : n = length a -> take n (a ++ b) = a.
Proof. intros ->. apply take_app_length. Qed.

Lemma fits_u16 pos data : fragment_fits pos data -> (N.of_nat (length data) < 65536)%N.
Proof. unfold fragment_fits. pose proof block_lt_u16. lia. Qed.

(** What the reader finds at the start of a fragment's header, whatever bytes
    of the fragment and after it the file holds. *)
Lemma here_header file pos kind data stored : fragment_fits pos data -> let start := pos + padding pos in
  drop start file = encode_header kind data ++ stored ->
  fragment_here file start =
    if (length stored <? length data)%nat then (FTorn start (RunsPastEnd (length data)), start)
    else if negb (fragment_crc kind (take (length data) stored) =? fragment_crc kind data)%N
    then (FCorrupt start (ChecksumMismatch (length data)), start)
    else (FData kind (take (length data) stored), start + WAL_HEADER_SIZE + length data).
Proof.
  intros Hfit start Hdrop. unfold fragment_here, available. unfold fragment_fits in Hfit. fold start in Hfit.
  pose proof header_lt_block as Hh.
  assert (length file - start = WAL_HEADER_SIZE + length stored) as Hlen
    by (rewrite <- length_drop, Hdrop, length_app, encode_header_length; done).
  rewrite (proj2 (Nat.ltb_ge _ WAL_HEADER_SIZE)) by lia.
  rewrite Hdrop, take_app_at by by rewrite encode_header_length. rewrite decode_encode_header by by apply (fits_u16 pos).
  rewrite record_type_roundtrip. rewrite (proj2 (Nat.ltb_ge _ (WAL_HEADER_SIZE + _))) by lia.
  assert ((Nat.min (BLOCK_SIZE - start mod BLOCK_SIZE) (length file - start) <? WAL_HEADER_SIZE + length data)%nat
    = (length stored <? length data)%nat) as ->.
  { destruct (Nat.ltb_spec (length stored) (length data)); [apply Nat.ltb_lt|apply Nat.ltb_ge]; lia. }
  destruct (_ <? _)%nat; [done|]. rewrite <- drop_drop, Hdrop, drop_app_at by by rewrite encode_header_length. done.
Qed.

Lemma skip_to_start pre g suf pos kind data : length pre = pos -> g = fragment_bytes pos kind data ->
  skip_padding (pre ++ g ++ suf) pos = pos + padding pos /\
  drop (pos + padding pos) (pre ++ g ++ suf) = encode_header kind data ++ data ++ suf.
Proof.
  intros Hpre ->. unfold skip_padding. rewrite (proj2 (Nat.leb_le _ _)).
  2: { rewrite !length_app, fragment_bytes_length. lia. }
  split; [done|]. rewrite <- drop_drop, drop_app_at by done. unfold fragment_bytes.
  rewrite <- !app_assoc. apply drop_app_at. by rewrite length_replicate.
Qed.

Lemma fragment_read pre suf pos kind data : length pre = pos -> fragment_fits pos data ->
  fragment_at (pre ++ fragment_bytes pos kind data ++ suf) pos
  = (FData kind data, pos + length (fragment_bytes pos kind data)).
Proof.
  intros Hpre Hfit. destruct (skip_to_start pre _ suf pos kind data Hpre eq_refl) as [Hs Hd].
  unfold fragment_at. rewrite Hs, (here_header _ _ kind data (data ++ suf) Hfit Hd).
  rewrite length_app, (proj2 (Nat.ltb_ge _ _)) by lia. rewrite take_app_length, N.eqb_refl. cbn [negb].
  f_equal. rewrite fragment_bytes_length. lia.
Qed.

Lemma all_zero_replicate n : all_zero (replicate n Byte.x00) = true.
Proof. induction n as [|n IH]; [done|]. cbn. by rewrite bool_decide_true. Qed.

Lemma fragment_cut pre pos m kind data : length pre = pos -> fragment_fits pos data ->
  m < length (fragment_bytes pos kind data) ->
  fragment_cut_short (fragment_at (pre ++ take m (fragment_bytes pos kind data)) pos).1.
Proof.
  intros Hpre Hfit Hm. unfold fragment_at, skip_padding. pose proof header_lt_block as Hh. pose proof (block_mod_lt pos) as Hbl.
  rewrite length_app, length_take, (Nat.min_l m) by lia. rewrite fragment_bytes_length in Hm.
  assert (forall p, available (pre ++ take m (fragment_bytes pos kind data)) p = Nat.min (BLOCK_SIZE - p mod BLOCK_SIZE) (pos + m - p)) as Hav.
  { intros p. unfold available. rewrite length_app, length_take, fragment_bytes_length. lia. }
  destruct (Nat.leb_spec (pos + padding pos) (length pre + m)) as [Hp|Hp].
  - assert (drop (pos + padding pos) (pre ++ take m (fragment_bytes pos kind data))
      = take (m - padding pos) (encode_header kind data ++ data)) as Hd.
    { rewrite <- drop_drop, drop_app_at by done. unfold fragment_bytes. rewrite skipn_firstn_comm, drop_app_at; [done|]. by rewrite length_replicate. }
    destruct (Nat.lt_ge_cases (m - padding pos) WAL_HEADER_SIZE) as [Hs|Hs].
    + unfold fragment_here. rewrite Hav. unfold fragment_fits in Hfit. rewrite (proj2 (Nat.ltb_lt _ _)) by lia.
      destruct (_ =? 0)%nat; [done|]. by destruct (all_zero _).
    + rewrite take_app_ge in Hd by by rewrite encode_header_length. rewrite encode_header_length in Hd.
      rewrite (here_header _ _ kind data _ Hfit Hd). rewrite (proj2 (Nat.ltb_lt _ _)); [done|].
      rewrite length_take. lia.
  - unfold fragment_here. rewrite Hav. unfold padding in *. cbv zeta in Hp.
    destruct (Nat.ltb_spec (BLOCK_SIZE - pos mod BLOCK_SIZE) WAL_HEADER_SIZE) as [Hs|Hs]; [|lia].
    rewrite (proj2 (Nat.ltb_lt _ _)) by lia. destruct (_ =? 0)%nat; [done|].
    rewrite drop_app_at by done. unfold fragment_bytes, padding. rewrite (proj2 (Nat.ltb_lt _ _)) by lia.
    rewrite take_take, take_app_le by (rewrite length_replicate; lia). by rewrite take_replicate, all_zero_replicate.
Qed.

(** ** Records *)

(** Rounds enough for the fragments that are left. *)
Definition enough (fuel pos : nat) (rest : bytes) (first : bool) : Prop :=
  length rest + (if first then 2 else 1) <= fuel /\ (first = false -> pos mod BLOCK_SIZE = 0).

(** Where the payloads of a record's fragments lie: the offset and the length
    of each. *)
Fixpoint spans (fuel pos : nat) (rest : bytes) : list (nat * nat) :=
  match fuel with
  | O => []
  | S fuel' =>
      let start := pos + padding pos in
      let n := Nat.min (length rest) (BLOCK_SIZE - start mod BLOCK_SIZE - WAL_HEADER_SIZE) in
      (start + WAL_HEADER_SIZE, n) :: if (n =? length rest)%nat then [] else spans fuel' (start + WAL_HEADER_SIZE + n) (drop n rest)
  end.
Definition record_spans (pos : nat) (payload : bytes) : list (nat * nat) := spans (length payload + 2) pos payload.

Lemma spans_after fuel pos rest at' n : (at', n) ∈ spans fuel pos rest -> pos + WAL_HEADER_SIZE <= at'.
Proof.
  revert pos rest. induction fuel as [|fuel IH]; intros pos rest; cbn [spans]; [by intros ?%elem_of_nil|].
  intros [[= -> _]|Hin]%elem_of_cons; [lia|]. destruct (_ =? _)%nat; [by apply elem_of_nil in Hin|]. apply IH in Hin. lia.
Qed.

(** One round of [frags]. *)
Lemma frags_round_spans fuel pos rest first : enough (S fuel) pos rest first ->
  exists data more, rest = data ++ more /\ fragment_fits pos data /\
    let out := fragment_bytes pos (fragment_kind first (bool_decide (more = []))) data in
    frags (S fuel) pos rest first = out ++ (if bool_decide (more = []) then [] else frags fuel (pos + length out) more false) /\
    (more <> [] -> enough fuel (pos + length out) more false) /\
    spans (S fuel) pos rest = (pos + padding pos + WAL_HEADER_SIZE, length data) :: (if bool_decide (more = []) then [] else spans fuel (pos + length out) more).
Proof.
  intros [Hfuel Hfirst]. cbn [frags spans]. pose proof (padding_room pos) as Hroom. pose proof header_lt_block as Hh.
  set (n := Nat.min (length rest) _).
  assert (n <= length rest /\ n <= BLOCK_SIZE - (pos + padding pos) mod BLOCK_SIZE - WAL_HEADER_SIZE) as [Hn1 Hn2] by (subst n; lia).
  exists (take n rest), (drop n rest). split; [by rewrite take_drop|].
  assert (length (take n rest) = n) as Et by (rewrite length_take; lia).
  split; [unfold fragment_fits; rewrite Et; lia|].
  assert (bool_decide (drop n rest = []) = (n =? length rest)%nat) as ->.
  { destruct (Nat.eqb_spec n (length rest)) as [En|Nn]; [apply bool_decide_true; by rewrite En, drop_all|].
    apply bool_decide_false. intros X%(f_equal length). rewrite length_drop in X. cbn in X. lia. }
  destruct (Nat.eqb_spec n (length rest)) as [En|Nn].
  { split; [by rewrite app_nil_r|]. split; [|by rewrite Et]. intros []. by rewrite En, drop_all. }
  split; [done|]. split; [|by rewrite fragment_bytes_length, Et, !Nat.add_assoc]. intros _. unfold enough. rewrite length_drop, fragment_bytes_length, Et, Nat.add_assoc.
  assert (n = BLOCK_SIZE - (pos + padding pos) mod BLOCK_SIZE - WAL_HEADER_SIZE) as En by (subst n; lia).
  split; [|intros _; apply block_mod_end; lia].
  destruct first; [lia|]. specialize (Hfirst eq_refl).
  assert (padding pos = 0) as Ep by (unfold padding; rewrite Hfirst, Nat.sub_0_r, (proj2 (Nat.ltb_ge _ _)) by lia; done).
  rewrite Ep, Nat.add_0_r, Hfirst in En. lia.
Qed.
Lemma frags_round fuel pos rest first : enough (S fuel) pos rest first ->
  exists data more, rest = data ++ more /\ fragment_fits pos data /\
    let out := fragment_bytes pos (fragment_kind first (bool_decide (more = []))) data in
    frags (S fuel) pos rest first = out ++ (if bool_decide (more = []) then [] else frags fuel (pos + length out) more false) /\
    (more <> [] -> enough fuel (pos + length out) more false).
Proof. intros (data & more & ? & ? & ? & ? & _)%frags_round_spans. by exists data, more. Qed.

Lemma frags_longer fuel pos rest first : enough fuel pos rest first -> WAL_HEADER_SIZE <= length (frags fuel pos rest first).
Proof.
  intros He. destruct fuel as [|fuel]; [destruct He as [He _]; destruct first; lia|].
  destruct (frags_round fuel pos rest first He) as (data & more & _ & _ & -> & _).
  rewrite length_app, fragment_bytes_length. lia.
Qed.
Lemma record_enough pos p : enough (length p + 2) pos p true.
Proof. split; [lia|done]. Qed.
Lemma record_bytes_longer pos p : WAL_HEADER_SIZE <= length (record_bytes pos p).
Proof. apply frags_longer, record_enough. Qed.

Section ReadBack.
Context {E F : Type} `{RandomAccessFileLaws E F}.

Lemma read_record_whole fuel rounds r pre suf pos rest first acc :
  enough fuel pos rest first -> length (frags fuel pos rest first) < rounds -> length pre = pos ->
  reads r (pre ++ frags fuel pos rest first ++ suf) pos ->
  exists r', read_record_loop rounds r acc (negb first) = (Ok (Record_ ((if first then [] else acc) ++ rest)), r') /\
    reads r' (pre ++ frags fuel pos rest first ++ suf) (pos + length (frags fuel pos rest first)).
Proof using All.
  revert rounds r pre pos rest first acc.
  induction fuel as [|fuel IH]; intros rounds r pre pos rest first acc He Hr Hpre Hat;
    [destruct He as [He _]; destruct first; lia|].
  destruct (frags_round fuel pos rest first He) as (data & more & -> & Hfit & Hout & Hmore). cbv zeta in Hout, Hmore.
  set (kind := fragment_kind first (bool_decide (more = []))) in *. set (out := fragment_bytes pos kind data) in *.
  rewrite Hout in *. rewrite length_app in Hr.
  destruct rounds as [|rounds]; [lia|]. cbn [read_record_loop].
  rewrite <- app_assoc in Hat |- *. destruct (next_fragment_spec r _ pos Hat) as (r1 & -> & Hr1).
  pose proof (fun suf => fragment_read pre suf pos kind data Hpre Hfit) as Hf. fold out in Hf.
  rewrite Hf in Hr1 |- *. cbn [fst snd] in Hr1 |- *. specialize (Hr1 _ _ eq_refl).
  pose proof header_lt_block as Hh.
  assert (WAL_HEADER_SIZE <= length out) as Hol by (unfold out; rewrite fragment_bytes_length; lia).
  destruct (decide (more = [])) as [->|Hne].
  - unfold kind. rewrite bool_decide_true in * by done. exists r1. rewrite !app_nil_r. split; [by destruct first|done].
  - unfold kind. rewrite (bool_decide_false (more = [])) in * by done. rewrite length_app, Nat.add_assoc.
    specialize (Hmore Hne).
    assert (reads r1 ((pre ++ out) ++ frags fuel (pos + length out) more false ++ suf) (pos + length out)) as Hat1 by by rewrite <- app_assoc.
    destruct (IH rounds r1 (pre ++ out) (pos + length out) more false (if first then data else acc ++ data) Hmore) as (r2 & E2 & Hr2);
      [lia|rewrite length_app; lia|exact Hat1|].
    exists r2. rewrite <- app_assoc in Hr2. split; [|done]. cbn [negb] in E2. destruct first; cbn [fragment_kind negb]; rewrite E2; [done|by rewrite app_assoc].
Qed.

Lemma read_record_cut fuel rounds r pre pos rest first acc m :
  enough fuel pos rest first -> m < length (frags fuel pos rest first) -> m < rounds -> length pre = pos ->
  reads r (pre ++ take m (frags fuel pos rest first)) pos ->
  exists o r', read_record_loop rounds r acc (negb first) = (Ok o, r') /\ cut_short o.
Proof using All.
  revert rounds r pre pos rest first acc m.
  induction fuel as [|fuel IH]; intros rounds r pre pos rest first acc m He Hm Hrounds Hpre Hat;
    [destruct He as [He _]; destruct first; lia|].
  destruct (frags_round fuel pos rest first He) as (data & more & -> & Hfit & Hout & Hmore). cbv zeta in Hout, Hmore.
  set (kind := fragment_kind first (bool_decide (more = []))) in *. set (out := fragment_bytes pos kind data) in *.
  rewrite Hout in *. rewrite length_app in Hm.
  destruct rounds as [|rounds]; [lia|]. cbn [read_record_loop].
  destruct (next_fragment_spec r _ pos Hat) as (r1 & -> & Hr1).
  destruct (Nat.lt_ge_cases m (length out)) as [Hlt|Hge].
  - rewrite take_app_le in Hat, Hr1 |- * by lia. pose proof (fragment_cut pre pos m kind data Hpre Hfit Hlt) as Hcut.
    fold out in Hcut. destruct (fragment_at _ pos) as [f pos']. cbn [fst] in *.
    destruct f as [? ?| |? ?|? ?]; try done; eexists _, _; (split; [done|]); by destruct first.
  - rewrite take_app_ge in Hat, Hr1 |- * by lia.
    pose proof (fun suf => fragment_read pre suf pos kind data Hpre Hfit) as Hf. fold out in Hf.
  rewrite Hf in Hr1 |- *. cbn [fst snd] in Hr1 |- *. specialize (Hr1 _ _ eq_refl).
    pose proof header_lt_block as Hh.
    assert (WAL_HEADER_SIZE <= length out) as Hol by (unfold out; rewrite fragment_bytes_length; lia).
    destruct (decide (more = [])) as [->|Hne]; [rewrite bool_decide_true in Hm by done; cbn in Hm; lia|].
    unfold kind. rewrite (bool_decide_false (more = [])) in * by done. specialize (Hmore Hne).
    rewrite app_assoc in Hr1.
    destruct (IH rounds r1 (pre ++ out) (pos + length out) more false (if first then data else acc ++ data) (m - length out) Hmore)
      as (o & r2 & E2 & Ho); [lia|lia|rewrite length_app; lia|exact Hr1|].
    exists o, r2. split; [|done]. cbn [negb] in E2. destruct first; cbn [fragment_kind negb]; by rewrite E2.
Qed.

Lemma read_record_end r pre pos : length pre = pos -> reads r pre pos ->
  exists r', read_record r = (Ok Eof, r').
Proof using All.
  intros Hpre Hat. unfold read_record. cbn [read_record_loop]. destruct (next_fragment_spec r _ pos Hat) as (r1 & -> & _).
  unfold fragment_at. rewrite here_past_end; [by eexists|]. unfold skip_padding. destruct (Nat.leb_spec (pos + padding pos) (length pre)); lia.
Qed.

(** The records whose bytes are all there, then a clean or a torn end. *)
Lemma read_all_cut records rounds r pre pos m acc :
  m <= length (log_from pos records) -> m < rounds -> length pre = pos -> reads r (pre ++ take m (log_from pos records)) pos ->
  exists j o r', read_all_loop rounds r acc = (Ok (acc ++ take j records, o), r') /\ cut_short o /\
    j <= length records /\ (forall i, i <= length records -> length (log_from pos (take i records)) <= m <-> i <= j).
Proof using All.
  pose proof header_lt_block as Hh.
  revert rounds r pre pos m acc. induction records as [|p records IH]; intros rounds r pre pos m acc Hm Hrounds Hpre Hat;
    (destruct rounds as [|rounds]; [lia|]); cbn [read_all_loop log_from] in *.
  - rewrite take_nil, app_nil_r in Hat. destruct (read_record_end r pre pos Hpre Hat) as [r' ->].
    exists 0, Eof, r'. rewrite app_nil_r. split; [done|]. split; [done|]. split; [done|]. intros i Hi. cbn in Hi. cbn.
    replace i with 0 by lia. cbn. lia.
  - set (out := record_bytes pos p) in *. rewrite length_app in Hm. pose proof (record_bytes_longer pos p) as Hlong. fold out in Hlong.
    assert (raf_bytes (lr_file r) = pre ++ take m (out ++ log_from (pos + length out) records)) as Hfile by apply Hat.
    assert (length (raf_bytes (lr_file r)) = pos + m) as Hflen by (rewrite Hfile, length_app, length_take, length_app; lia).
    destruct (Nat.lt_ge_cases m (length out)) as [Hlt|Hge].
    + rewrite take_app_le in Hat by lia.
      destruct (read_record_cut (length p + 2) (S (length (raf_bytes (lr_file r)))) r pre pos p true [] m (record_enough pos p))
        as (o & r' & Er & Ho); [exact Hlt|lia|done|exact Hat|].
      unfold read_record. cbn [negb] in Er. rewrite Er. exists 0, o, r'. rewrite app_nil_r. split; [by destruct o|]. split; [done|].
      split; [lia|]. intros [|i] _; cbn [take]; [cbn; lia|]. cbn [log_from]. fold out. rewrite length_app. lia.
    + rewrite take_app_ge in Hat by lia.
      destruct (read_record_whole (length p + 2) (S (length (raf_bytes (lr_file r)))) r pre
        (take (m - length out) (log_from (pos + length out) records)) pos p true [] (record_enough pos p)) as (r' & Er & Hr');
        [fold (record_bytes pos p); fold out; lia|done|exact Hat|].
      fold (record_bytes pos p) in Hr'. fold out in Hr'. unfold read_record. cbn [negb app] in Er. rewrite Er. rewrite app_assoc in Hr'.
      destruct (IH rounds r' (pre ++ out) (pos + length out) (m - length out) (acc ++ [p])) as (j & o & r2 & E2 & Ho & Hj & Hmax);
        [lia|lia|rewrite length_app; lia|exact Hr'|].
      exists (S j), o, r2. rewrite E2, <- app_assoc. split; [done|]. split; [done|]. cbn [length]. split; [lia|].
      intros [|i] Hi; [cbn; lia|]. cbn [take log_from]. fold out. rewrite length_app. rewrite <- Nat.succ_le_mono.
      rewrite <- (Hmax i) by lia. lia.
Qed.

(** Whole records are read one by one, whatever follows them. *)
Lemma read_all_skip records rounds r pre suf pos acc : length pre = pos ->
  reads r (pre ++ log_from pos records ++ suf) pos ->
  exists r', read_all_loop (length records + rounds) r acc = read_all_loop rounds r' (acc ++ records) /\
    reads r' (pre ++ log_from pos records ++ suf) (pos + length (log_from pos records)).
Proof using All.
  revert r pre pos acc. induction records as [|p records IH]; intros r pre pos acc Hpre Hat; cbn [length Nat.add log_from].
  { exists r. by rewrite app_nil_r, Nat.add_0_r. }
  cbn [log_from] in Hat. set (out := record_bytes pos p) in *. cbn [read_all_loop]. unfold read_record.
  rewrite <- app_assoc in Hat |- *. destruct (read_record_whole (length p + 2) (S (length (raf_bytes (lr_file r)))) r pre
    (log_from (pos + length out) records ++ suf) pos p true [] (record_enough pos p)) as (r' & Er & Hr');
    [fold (record_bytes pos p); fold out; destruct Hat as [-> _]; rewrite !length_app; lia|done|exact Hat|].
  fold (record_bytes pos p) in Hr'. fold out in Hr'. cbn [negb app] in Er. rewrite Er. rewrite app_assoc in Hr' |- *.
  destruct (IH r' (pre ++ out) (pos + length out) (acc ++ [p])) as (r2 & E2 & Hr2); [rewrite length_app; lia|exact Hr'|].
  exists r2. rewrite E2, <- app_assoc, length_app, Nat.add_assoc. done.
Qed.

(** ** Termination on any bytes *)

Lemma fragment_advances file pos k d : pos <= length file -> (fragment_at file pos).1 = FData k d ->
  pos + WAL_HEADER_SIZE <= (fragment_at file pos).2 <= length file.
Proof using.
  intros Hpos. unfold fragment_at. set (p := skip_padding file pos).
  assert (pos <= p <= length file) as Hp by (unfold p, skip_padding; destruct (Nat.leb_spec (pos + padding pos) (length file)); lia).
  unfold fragment_here. destruct (Nat.ltb_spec (available file p) WAL_HEADER_SIZE) as [|Hav]; [by repeat case_match|].
  destruct (decode_header _) as [[crc len] kb]. destruct (RecordType_from_u8 kb); [|done].
  destruct (_ <? _)%nat; [done|]. destruct (Nat.ltb_spec (available file p) (WAL_HEADER_SIZE + len)); [done|].
  destruct (negb _); [done|]. intros _. cbn [snd]. unfold available in *. lia.
Qed.

Lemma read_record_ends rounds rounds' r file pos acc fragmented : reads r file pos -> pos <= length file ->
  length file - pos < rounds -> length file - pos < rounds' ->
  exists o r', read_record_loop rounds r acc fragmented = (Ok o, r') /\ read_record_loop rounds' r acc fragmented = (Ok o, r') /\
    (ReadOutcome_is_end o = false -> exists pos', reads r' file pos' /\ pos < pos' <= length file).
Proof using All.
  pose proof header_lt_block as Hh. revert rounds' r pos acc fragmented.
  induction rounds as [|rounds IH]; intros rounds' r pos acc fragmented Hat Hpos Hr Hr'; [lia|].
  destruct rounds' as [|rounds']; [lia|]. cbn [read_record_loop].
  destruct (next_fragment_spec r file pos Hat) as (r1 & -> & Hr1).
  destruct (fragment_at file pos).1 as [kind data| |p why|p why] eqn:Ef;
    [|by eexists _, _; (split; [done|]); (split; [done|]); destruct fragmented..].
  specialize (Hr1 _ _ eq_refl). destruct (fragment_advances file pos kind data Hpos Ef) as [Hadv Hend].
  assert (forall acc', exists o r', read_record_loop rounds r1 acc' true = (Ok o, r') /\ read_record_loop rounds' r1 acc' true = (Ok o, r') /\
    (ReadOutcome_is_end o = false -> exists pos', reads r' file pos' /\ pos < pos' <= length file)) as Hgo.
  { intros acc'. destruct (IH rounds' r1 _ acc' true Hr1) as (o & r' & E1 & E2 & Hnext); [lia..|].
    exists o, r'. split; [done|]. split; [done|]. intros Hend'. destruct (Hnext Hend') as (pos' & ? & ?). exists pos'. split; [done|lia]. }
  assert (exists pos', reads r1 file pos' /\ pos < pos' <= length file) as Hstop by (eexists; split; [exact Hr1|lia]).
  destruct kind, fragmented; cbn [negb]; eauto 10.
Qed.

Lemma read_all_ends rounds rounds' r file pos acc : reads r file pos -> pos <= length file ->
  length file - pos < rounds -> length file - pos < rounds' ->
  exists records o r', read_all_loop rounds r acc = (Ok (records, o), r') /\ read_all_loop rounds' r acc = (Ok (records, o), r') /\
    ReadOutcome_is_end o = true.
Proof using All.
  revert rounds' r pos acc. induction rounds as [|rounds IH]; intros rounds' r pos acc Hat Hpos Hr Hr'; [lia|].
  destruct rounds' as [|rounds']; [lia|]. cbn [read_all_loop]. unfold read_record.
  destruct (read_record_ends (S (length (raf_bytes (lr_file r)))) (S (length (raf_bytes (lr_file r)))) r file pos [] false Hat Hpos)
    as (o & r1 & -> & _ & Hnext); [destruct Hat as [-> _]; lia..|].
  destruct o as [record| | |]; [|by eauto 10..].
  destruct (Hnext eq_refl) as (pos' & Hat' & Hp). apply (IH rounds' r1 pos'); [done|lia..].
Qed.
End ReadBack.

(** ** The writer under faults *)

Inductive WalOp := OpAdd (payload : bytes) | OpFlush | OpSync | OpSetSync (call : SyncCall).

Section Run.
Context {E F : Type} `{WritableFileLaws E F}.

(** The writer, the records handed to it and those of them a successful
    [sync] has covered. *)
Record WalRun := mkRun { run_writer : LogWriter E F; run_added : list bytes; run_acked : list bytes }.

Definition wal_op (s : WalRun) (op : WalOp) : WalRun :=
  match op with
  | OpAdd p => mkRun (add_record (run_writer s) p) (run_added s ++ [p]) (run_acked s)
  | OpFlush => mkRun (lw_flush (run_writer s)).2 (run_added s) (run_acked s)
  | OpSync =>
      match lw_sync (run_writer s) with
      | (Ok _, w) => mkRun w (run_added s) (run_added s)
      | (Err _, w) => mkRun w (run_added s) (run_acked s)
      end
  | OpSetSync call => mkRun (set_sync_call (run_writer s) call) (run_added s) (run_acked s)
  end.
Definition wal_run (file : F) (ops : list WalOp) : WalRun := foldl wal_op (mkRun (LogWriter_new file) [] []) ops.

Definition run_inv (s : WalRun) : Prop :=
  let w := run_writer s in let file := wf_bytes (lw_file w) in
  (exists m, m <= length (log_of (run_added s)) /\ file = take m (log_of (run_added s))) /\
  (lw_failed w = None -> file ++ lw_buf w = log_of (run_added s) /\ aligned w (length (log_of (run_added s)))) /\
  length (log_of (run_acked s)) <= wf_synced (lw_file w) <= length file /\
  run_acked s `prefix_of` run_added s.

Lemma log_snoc records p : log_of (records ++ [p]) = log_of records ++ record_bytes (length (log_of records)) p.
Proof using. unfold log_of. rewrite log_from_app. cbn [log_from]. by rewrite app_nil_r. Qed.

Lemma flush_inv s : run_inv s ->
  run_inv (mkRun (lw_flush (run_writer s)).2 (run_added s) (run_acked s)) /\
  ((lw_flush (run_writer s)).1 = Ok tt -> wf_bytes (lw_file (lw_flush (run_writer s)).2) = log_of (run_added s)).
Proof using All.
  intros (Hcut & Hlive & Hsync & Hpre). unfold lw_flush. destruct (lw_failed (run_writer s)) as [e|] eqn:Efail.
  { split; [|done]. split; [done|]. cbn [run_writer snd]. by rewrite Efail. }
  destruct (Hlive eq_refl) as [Hall Hal]. destruct (lw_buf (run_writer s)) as [|b buf] eqn:Ebuf.
  { rewrite app_nil_r in Hall. split; [|done]. split; [done|]. cbn [run_writer snd run_added run_acked].
    rewrite Efail, Ebuf, app_nil_r. done. }
  destruct (wf_append _ _) as [[[]|e] file] eqn:Ea.
  - apply append_ok in Ea as [Eb Es]. rewrite Hall in Eb. split; [|done].
    unfold run_inv. cbn [run_writer snd run_added run_acked lw_file lw_failed lw_buf]. rewrite Eb, Es, app_nil_r.
    split; [exists (length (log_of (run_added s))); by rewrite take_ge|]. split; [done|]. split; [|done].
    apply (f_equal length) in Hall. rewrite length_app in Hall. lia.
  - apply append_err in Ea as (n & Eb & Es). split; [|done].
    unfold run_inv. cbn [run_writer snd run_added run_acked lw_file lw_failed lw_buf]. rewrite Eb, Es.
    split; [|split; [done|split; [rewrite length_app; lia|done]]].
    exists (length (wf_bytes (lw_file (run_writer s)) ++ take n (b :: buf))). rewrite <- Hall, !length_app, length_take.
    split; [lia|]. rewrite take_app_add' by done. f_equal. by rewrite <- length_take, take_taken.
Qed.

Lemma add_inv s p : run_inv s -> run_inv (wal_op s (OpAdd p)).
Proof using.
  intros ((m & Hm & Hcut) & Hlive & Hsync & Hpre). unfold run_inv. cbn [wal_op run_writer run_added run_acked].
  destruct (add_fragments_same (length p + 2) (run_writer s) p true) as (Ef & Efail & _).
  fold (add_record (run_writer s) p) in Ef, Efail. rewrite Ef, Efail, log_snoc, length_app.
  split; [exists m; rewrite take_app_le by done; split; [lia|done]|].
  split; [|split; [done|by apply prefix_app_r]].
  intros Hnone. destruct (Hlive Hnone) as [Hall Hal].
  destruct (add_fragments_emits (length p + 2) (run_writer s) _ p true Hal) as [Eb Hal'].
  fold (add_record (run_writer s) p) in Eb, Hal'. fold (record_bytes (length (log_of (run_added s))) p) in Eb, Hal'.
  by rewrite Eb, app_assoc, Hall.
Qed.

Lemma sync_inv s : run_inv s -> run_inv (wal_op s OpSync).
Proof using All.
  intros Hs. destruct (flush_inv s Hs) as [Hinv Hflushed]. cbn [wal_op]. unfold lw_sync.
  destruct (lw_flush (run_writer s)) as [[[]|e] w]; cbn [fst snd] in *; [|done].
  specialize (Hflushed eq_refl). destruct Hinv as (Hcut & Hlive & Hsync & Hpre). cbn [run_writer run_added run_acked] in *.
  assert (exists r file, (match lw_sync_call w with SyncAll => wf_sync_all (lw_file w) | SyncData => wf_sync_data (lw_file w) end) = (r, file) /\
    wf_bytes file = wf_bytes (lw_file w) /\ wf_synced (lw_file w) <= wf_synced file <= length (wf_bytes (lw_file w)) /\
    (r = Ok tt -> wf_synced file = length (wf_bytes (lw_file w)))) as (r & file & -> & Eb & Es & Eok).
  { destruct (lw_sync_call w).
    - destruct (wf_sync_data (lw_file w)) as [[[]|e] file] eqn:Esync; eexists _, _; (split; [done|]).
      + apply sync_data_ok in Esync as [-> ->]. split; [done|]. split; [lia|done].
      + apply sync_data_err in Esync as [-> ?]. done.
    - destruct (wf_sync_all (lw_file w)) as [[[]|e] file] eqn:Esync; eexists _, _; (split; [done|]).
      + apply sync_all_ok in Esync as [-> ->]. split; [done|]. split; [lia|done].
      + apply sync_all_err in Esync as [-> ?]. done. }
  destruct r as [[]|e]; cbn [rmap_err]; unfold run_inv; cbn [run_writer run_added run_acked lw_file lw_failed lw_buf]; rewrite Eb;
    (split; [done|]); (split; [done|]).
  - rewrite Eok, Hflushed by done. done.
  - split; [lia|done].
Qed.

Lemma wal_op_inv s op : run_inv s -> run_inv (wal_op s op).
Proof using All. intros Hs. destruct op; [by apply add_inv|by apply flush_inv|by apply sync_inv|exact Hs]. Qed.

Lemma wal_run_inv file ops : wf_bytes file = [] -> wf_synced file = 0 -> run_inv (wal_run file ops).
Proof using All.
  intros Hb Hsy. unfold wal_run.
  assert (run_inv (mkRun (LogWriter_new file) [] [])) as Hinit.
  { unfold run_inv. cbn. rewrite Hb, Hsy. split; [by exists 0|]. split; [|done]. intros _. split; [done|].
    pose proof header_lt_block. unfold aligned. cbn. rewrite Nat.Div0.mod_0_l. lia. }
  revert Hinit. generalize (mkRun (LogWriter_new file) [] []). induction ops as [|op ops IH]; intros s Hs; [done|].
  cbn. by apply IH, wal_op_inv.
Qed.
End Run.
Arguments WalRun : clear implicits.

(** ** Properties *)

Lemma reads_new {E F} `{RandomAccessFile E F} (file : F) : reads (LogReader_new file) (raf_bytes file) 0.
Proof. split; [done|]. by left. Qed.

Lemma log_prefix_length records records' : records `prefix_of` records' -> length (log_of records) <= length (log_of records').
Proof. intros [more ->]. unfold log_of. rewrite log_from_app, length_app. lia. Qed.

Lemma log_longer pos records : length records <= length (log_from pos records).
Proof.
  revert pos. induction records as [|p records IH]; intros pos; cbn [log_from length]; [lia|].
  rewrite length_app. pose proof (record_bytes_longer pos p). pose proof header_lt_block. specialize (IH (pos + length (record_bytes pos p))). lia.
Qed.

(** Reading a segment that starts with whole records comes down to reading what follows them. *)
Lemma read_all_after {E F} `{RandomAccessFileLaws E F} (file : F) records suf : raf_bytes file = log_of records ++ suf ->
  exists n r', read_all (LogReader_new file) = read_all_loop (S n) r' records /\
    reads r' (log_of records ++ suf) (length (log_of records)).
Proof.
  unfold log_of. intros Hfile. pose proof (reads_new file) as Hat. rewrite Hfile in Hat.
  assert (length records <= length (raf_bytes file)) as Hlen by (rewrite Hfile, length_app; pose proof (log_longer 0 records); lia).
  destruct (read_all_skip records (S (length (raf_bytes file) - length records)) (LogReader_new file) [] suf 0 [] eq_refl Hat) as (r' & E1 & Hr').
  exists (length (raf_bytes file) - length records), r'. rewrite !app_nil_l in *. split; [|exact Hr']. rewrite <- E1. unfold read_all.
  cbn [lr_file LogReader_new]. f_equal. lia.
Qed.

(** C7: Whatever appends and syncs fail, and wherever after the
    durable bytes a crash cuts the segment, recovery reads a prefix of the
    records in order, all the acknowledged ones among them, and reports a clean
    or a torn end but never corruption. *)
Theorem wal_durable {E F E' F'} `{WritableFileLaws E F} `{RandomAccessFileLaws E' F'} (file : F) ops n (crashed : F') :
  wf_bytes file = [] -> wf_synced file = 0 ->
  let s := wal_run file ops in
  wf_synced (lw_file (run_writer s)) <= n -> raf_bytes crashed = take n (wf_bytes (lw_file (run_writer s))) ->
  exists j o, (read_all (LogReader_new crashed)).1 = Ok (take j (run_added s), o) /\ cut_short o /\
    run_acked s `prefix_of` take j (run_added s).
Proof.
  intros Hb Hsy s Hn Hcrash. destruct (wal_run_inv file ops Hb Hsy) as ((m & Hm & Hcut) & _ & Hsync & Hpre). fold s in Hm, Hcut, Hsync, Hpre.
  rewrite Hcut, take_take in Hcrash. set (m' := Nat.min n m) in *.
  assert (length (wf_bytes (lw_file (run_writer s))) = m) as Hlen by (rewrite Hcut, length_take; lia).
  pose proof (reads_new crashed) as Hat. rewrite Hcrash in Hat.
  destruct (read_all_cut (run_added s) (S (length (raf_bytes crashed))) (LogReader_new crashed) [] 0 m' [])
    as (j & o & r' & E1 & Ho & Hj & Hmax);
    [fold (log_of (run_added s)); lia|rewrite Hcrash, length_take; fold (log_of (run_added s)); lia|done|exact Hat|].
  exists j, o. unfold read_all. cbn [lr_file LogReader_new]. rewrite E1. split; [done|]. split; [done|].
  destruct Hpre as [more Hpre].
  assert (length (run_acked s) <= j) as Hacked.
  { apply Hmax; [rewrite Hpre, length_app; lia|]. rewrite Hpre, take_app_length. unfold log_of in Hsync. lia. }
  rewrite Hpre, take_app_ge by done. by apply prefix_app_r.
Qed.

(** Once a writer that has seen no failure has nothing left in
    its buffer, the segment reads back as exactly the records it was given,
    empty and multi-block ones included, and then ends cleanly. *)
Theorem wal_roundtrip {E F E' F'} `{WritableFileLaws E F} `{RandomAccessFileLaws E' F'} (new : F) ops (file : F') :
  wf_bytes new = [] -> wf_synced new = 0 -> let s := wal_run new ops in
  lw_failed (run_writer s) = None -> lw_buf (run_writer s) = [] -> raf_bytes file = wf_bytes (lw_file (run_writer s)) ->
  (read_all (LogReader_new file)).1 = Ok (run_added s, Eof).
Proof.
  intros Hb Hsy s Hok Hbuf Hfile. destruct (wal_run_inv new ops Hb Hsy) as (_ & Hlive & _). fold s in Hlive.
  destruct (Hlive Hok) as [Hall _]. rewrite Hbuf, app_nil_r in Hall. rewrite Hall in Hfile. set (records := run_added s) in *.
  destruct (read_all_after file records []) as (n & r' & -> & Hr'); [by rewrite app_nil_r|].
  rewrite app_nil_r in Hr'. destruct (read_record_end r' _ _ eq_refl Hr') as [r2 E2]. cbn [read_all_loop]. by rewrite E2.
Qed.

(** A header over a payload that is not the one it was computed from. *)
Lemma damaged_at pre pos kind data stored suf : length pre = pos -> fragment_fits pos data -> length stored = length data ->
  fragment_crc kind stored <> fragment_crc kind data ->
  (fragment_at (pre ++ (replicate (padding pos) Byte.x00 ++ encode_header kind data) ++ stored ++ suf) pos).1 =
    FCorrupt (pos + padding pos) (ChecksumMismatch (length data)).
Proof.
  intros Hpre Hfit Hl Hcrc. unfold fragment_at, skip_padding. rewrite <- !app_assoc.
  rewrite (proj2 (Nat.leb_le _ _)) by (rewrite !length_app, length_replicate; lia).
  rewrite (here_header _ pos kind data (stored ++ suf) Hfit).
  2: { rewrite <- drop_drop, drop_app_at by done. apply drop_app_at. by rewrite length_replicate. }
  rewrite length_app, <- Hl, (proj2 (Nat.ltb_ge _ _)), take_app_length by lia. by rewrite (proj2 (N.eqb_neq _ _) Hcrc).
Qed.

(** A piece of [head ++ data ++ tail] that lies within [data]. *)
Lemma piece_inside {A} (head data tail u x v : list A) : head ++ data ++ tail = u ++ x ++ v ->
  length head <= length u -> length u + length x <= length head + length data ->
  exists a b, u = head ++ a /\ data = a ++ x ++ b /\ v = b ++ tail.
Proof.
  intros Heq H1 H2.
  assert (forall l l' m m' : list A, l ++ m = l' ++ m' -> length l <= length l' -> exists b, l' = l ++ b /\ m = b ++ m') as Hsplit.
  { intros l l' m m' E Hl. exists (drop (length l) l'). apply (f_equal (take (length l))) in E as Et. rewrite take_app_length, take_app_le in Et by done.
    assert (l' = l ++ drop (length l) l') as El by (rewrite Et at 1; by rewrite take_drop). split; [done|].
    rewrite El, <- app_assoc in E. by apply app_inv_head in E. }
  destruct (Hsplit head u _ _ Heq H1) as (a & -> & Ea). rewrite length_app in H2. rewrite app_assoc in Ea.
  destruct (Hsplit (a ++ x) data v tail) as (b & -> & ->); [done|rewrite length_app; lia|]. exists a, b. by rewrite app_assoc.
Qed.

Lemma read_record_damaged {E F} `{RandomAccessFileLaws E F} fuel rounds (r : LogReader F) pre suf pos rest first acc u x y v at' n :
  enough fuel pos rest first -> length (frags fuel pos rest first) < rounds -> length pre = pos ->
  frags fuel pos rest first = u ++ x ++ v -> (at', n) ∈ spans fuel pos rest ->
  at' <= pos + length u -> pos + length u + length x <= at' + n ->
  length x = length y -> length x <= 4 -> x <> y -> reads r (pre ++ u ++ y ++ v ++ suf) pos ->
  exists r', read_record_loop rounds r acc (negb first) = (Ok (CorruptLog (at' - WAL_HEADER_SIZE) (ChecksumMismatch n)), r').
Proof.
  revert rounds r pre pos rest first acc u.
  induction fuel as [|fuel IH]; intros rounds r pre pos rest first acc u He Hr Hpre Heq Hin Hlo Hhi Hxy H4 Hne Hat;
    [destruct He as [He _]; destruct first; lia|].
  destruct (frags_round_spans fuel pos rest first He) as (data & more & -> & Hfit & Hout & Hmore & Hspans). cbv zeta in Hout, Hmore, Hspans.
  set (kind := fragment_kind first (bool_decide (more = []))) in *. set (out := fragment_bytes pos kind data) in *.
  assert (length out = padding pos + (WAL_HEADER_SIZE + length data)) as Hol by apply fragment_bytes_length.
  rewrite Hout in Hr, Heq. rewrite length_app in Hr. rewrite Hspans in Hin.
  destruct rounds as [|rounds]; [lia|]. cbn [read_record_loop].
  destruct (next_fragment_spec r _ pos Hat) as (r1 & -> & Hr1). apply elem_of_cons in Hin as [[= -> ->]|Hin].
  - set (tail := if bool_decide (more = []) then [] else _) in Heq. unfold out, fragment_bytes in Heq. rewrite (app_assoc (replicate _ _)), <- app_assoc in Heq.
    assert (length (replicate (padding pos) Byte.x00 ++ encode_header kind data) = padding pos + WAL_HEADER_SIZE) as Hh
      by by rewrite length_app, length_replicate, encode_header_length.
    destruct (piece_inside _ _ _ _ _ _ Heq) as (a & b & -> & -> & ->); [lia..|].
    pose proof (damaged_at pre pos kind (a ++ x ++ b) (a ++ y ++ b) (tail ++ suf)
      Hpre Hfit ltac:(rewrite !length_app; lia) (fragment_crc_detects kind a x y b Hxy H4 Hne)) as Hd.
    rewrite <- !app_assoc in Hd |- *. rewrite Hd. eexists. f_equal. f_equal. f_equal. lia.
  - destruct (decide (more = [])) as [->|Hm]; [by apply elem_of_nil in Hin|]. unfold kind in Heq, Hr1 |- *. rewrite (bool_decide_false (more = [])) in * by done.
    pose proof (spans_after _ _ _ _ _ Hin) as Hafter. pose proof header_lt_block as Hb.
    destruct (piece_inside out (frags fuel (pos + length out) more false) [] u x v) as (u' & b & -> & Hu & Ev);
      [by rewrite app_nil_r|lia| |].
    { apply (f_equal length) in Heq. rewrite !length_app in Heq. lia. }
    rewrite app_nil_r in Ev. subst b. pose proof (fragment_read pre (u' ++ y ++ v ++ suf) pos kind data Hpre Hfit) as Hf.
    fold out in Hf. rewrite <- app_assoc in Hat, Hr1 |- *. rewrite Hf in Hr1 |- *. cbn [fst snd] in Hr1 |- *. specialize (Hr1 _ _ eq_refl).
    rewrite app_assoc in Hr1. rewrite length_app in Hlo, Hhi.
    destruct (IH rounds r1 (pre ++ out) (pos + length out) more false (if first then data else acc ++ data) u' (Hmore Hm)) as (r2 & E2);
      [lia|rewrite length_app; lia|done|done|lia..|done|done|done|exact Hr1|].
    exists r2. cbn [negb] in E2. unfold kind. rewrite (bool_decide_false (more = [])) by done. destruct first; cbn [fragment_kind negb]; by rewrite E2.
Qed.

(** C26: damage to a stored payload is reported.  Take any log, any record after
    it, of one fragment or of many, and any stretch of at most four consecutive
    bytes within one fragment's payload: if the stored bytes there are not the
    ones written, the reader returns every record before, then reports a
    checksum mismatch at exactly that fragment, with its length, whatever follows
    in the file. *)
Theorem wal_damage {E F} `{RandomAccessFileLaws E F} (file : F) records payload u x y v suf at' n :
  record_bytes (length (log_of records)) payload = u ++ x ++ v ->
  (at', n) ∈ record_spans (length (log_of records)) payload ->
  at' <= length (log_of records) + length u -> length (log_of records) + length u + length x <= at' + n ->
  length x = length y -> length x <= 4 -> x <> y ->
  raf_bytes file = log_of records ++ u ++ y ++ v ++ suf ->
  (read_all (LogReader_new file)).1 = Ok (records, CorruptLog (at' - WAL_HEADER_SIZE) (ChecksumMismatch n)).
Proof.
  intros Heq Hin Hlo Hhi Hxy H4 Hne Hfile. destruct (read_all_after file records _ Hfile) as (m & r' & -> & Hr').
  cbn [read_all_loop]. unfold read_record.
  destruct (read_record_damaged (length payload + 2) (S (length (raf_bytes (lr_file r')))) r' (log_of records) suf (length (log_of records)) payload true []
    u x y v at' n (record_enough _ _)) as (r2 & E2); [|done..|].
  { destruct Hr' as [-> _]. unfold record_bytes in Heq. rewrite Heq, !length_app. lia. }
  cbn [negb] in E2. by rewrite E2.
Qed.

(** On any bytes at all the reader stops, at a record boundary, a
    torn record or corruption; more rounds than the file has bytes change
    nothing. *)
Theorem wal_reader_stops {E F} `{RandomAccessFileLaws E F} (file : F) rounds : length (raf_bytes file) < rounds ->
  exists records o r', read_all_loop rounds (LogReader_new file) [] = (Ok (records, o), r') /\
    read_all (LogReader_new file) = (Ok (records, o), r') /\ ReadOutcome_is_end o = true.
Proof. intros Hr. apply (read_all_ends _ _ _ _ 0 []  (reads_new file)); cbn; lia. Qed.


(** Corruption that is a fragment out of sequence is reported once;
    the next call carries on with the record after it. *)
Theorem corrupt_then_record : exists first full next, let file := mkFileData (first ++ full ++ next) 0 in
  let (o, r) := read_record (LogReader_new file) in
  (exists position, o = Ok (CorruptLog position FullInsideFragmented)) /\
  (read_record r).1 = Ok (Record_ [Byte.x63]).
Proof.
  exists (encode_header First [Byte.x61] ++ [Byte.x61]), (encode_header Full [Byte.x62] ++ [Byte.x62]),
    (encode_header Full [Byte.x63] ++ [Byte.x63]).
  vm_compute. eauto.
Qed.

Definition two_records : list WalOp := [OpAdd [Byte.x61]; OpSync; OpAdd [Byte.x62; Byte.x63]; OpFlush].
Lemma wal_durable_witness : exists j o,
  (read_all (LogReader_new (mkFileData (take 11 (wf_bytes (lw_file (run_writer (wal_run FileData_default two_records))))) 0))).1
    = Ok (take j [[Byte.x61]; [Byte.x62; Byte.x63]], o) /\ cut_short o /\ [[Byte.x61]] `prefix_of` take j [[Byte.x61]; [Byte.x62; Byte.x63]].
Proof.
  pose proof (wal_durable FileData_default two_records 11
    (mkFileData (take 11 (wf_bytes (lw_file (run_writer (wal_run FileData_default two_records))))) 0)) as Hd.
  assert (run_added (wal_run FileData_default two_records) = [[Byte.x61]; [Byte.x62; Byte.x63]]) as Ea by by vm_compute.
  assert (run_acked (wal_run FileData_default two_records) = [[Byte.x61]]) as Ek by by vm_compute.
  cbv zeta in Hd. rewrite Ea, Ek in Hd. apply Hd; [done|done| |done]. apply Nat.leb_le. by vm_compute.
Defined.
Lemma wal_roundtrip_witness :
  (read_all (LogReader_new (lw_file (run_writer (wal_run FileData_default two_records))))).1
    = Ok (run_added (wal_run FileData_default two_records), Eof) /\
  run_added (wal_run FileData_default two_records) = [[Byte.x61]; [Byte.x62; Byte.x63]].
Proof.
  split; [|by vm_compute].
  refine (wal_roundtrip FileData_default two_records (lw_file (run_writer (wal_run FileData_default two_records))) eq_refl eq_refl _ _ eq_refl); by vm_compute.
Defined.
Definition long_payload : bytes := replicate (BLOCK_SIZE + 100) Byte.x61.
Lemma long_record : exists u v, record_bytes 0 long_payload = u ++ [Byte.x61] ++ v /\ length u = BLOCK_SIZE + WAL_HEADER_SIZE + 3.
Proof.
  exists (take (BLOCK_SIZE + WAL_HEADER_SIZE + 3) (record_bytes 0 long_payload)), (drop (S (BLOCK_SIZE + WAL_HEADER_SIZE + 3)) (record_bytes 0 long_payload)).
  split; [apply (bool_decide_unpack _)|apply Nat.eqb_eq]; by vm_compute.
Qed.
Lemma long_spans : record_spans 0 long_payload = [(WAL_HEADER_SIZE, BLOCK_SIZE - WAL_HEADER_SIZE); (BLOCK_SIZE + WAL_HEADER_SIZE, 107)].
Proof. apply (bool_decide_unpack _). by vm_compute. Qed.
Lemma wal_damage_witness : exists u v, record_bytes 0 long_payload = u ++ [Byte.x61] ++ v /\
  (read_all (LogReader_new (mkFileData (u ++ [Byte.x7a] ++ v) 0))).1 = Ok ([], CorruptLog BLOCK_SIZE (ChecksumMismatch 107)).
Proof.
  destruct long_record as (u & v & Hrec & Hu).
  exists u, v. split; [exact Hrec|]. rewrite <- (Nat.add_sub BLOCK_SIZE WAL_HEADER_SIZE).
  apply (wal_damage (mkFileData (u ++ [Byte.x7a] ++ v) 0) [] long_payload u [Byte.x61] [Byte.x7a] v []).
  - exact Hrec.
  - change (length (log_of [])) with 0. rewrite long_spans. by right; left.
  - change (length (log_of [])) with 0. lia.
  - change (length (log_of [])) with 0. rewrite Hu. cbn [length]. lia.
  - reflexivity.
  - cbn [length]. lia.
  - discriminate.
  - cbn [raf_bytes]. by rewrite app_nil_r.
Defined.
Lemma wal_reader_stops_witness : exists records o r',
  read_all_loop 4 (LogReader_new (mkFileData [Byte.x00; Byte.x01] 0)) [] = (Ok (records, o), r') /\
  read_all (LogReader_new (mkFileData [Byte.x00; Byte.x01] 0)) = (Ok (records, o), r') /\ ReadOutcome_is_end o = true.
Proof. apply wal_reader_stops. cbn. lia. Defined.
