(* ===== verification/RangeDel.v ===== *)
(** Range tombstones (esker-engine/src/range_del.rs): the covering rule, the
    sorted set a memtable or a table keeps, and the canonical block codec. *)

From stdpp Require Import prelude.
From Stdlib Require Import NArith ZArith Lia.
From S2P Require Import Prelude SortedVec Varint DbFormat.

(** ** Data *)

Record RangeTombstone := mkTombstone { rt_begin : bytes; rt_end : bytes; rt_seqno : N }.
#[export] Instance RangeTombstone_eq_dec : EqDecision RangeTombstone.
Proof. solve_decision. Defined.

(** [RangeTombstones { entries }]. *)
Definition RangeTombstones : Type := list RangeTombstone.

(** [v.partition_point(f)] of a vector partitioned by [f]: how many come first. *)
Fixpoint partition_by {A} (f : A -> bool) (l : list A) : nat :=
  match l with
  | x :: l' => if f x then S (partition_by f l') else O
  | [] => O
  end.

(** ** Operations *)

Section Ops.
Context (c : Comparator).

Definition rt_contains (t : RangeTombstone) (key : bytes) : bool :=
  bool_decide (cmp c (rt_begin t) key <> Gt) && bool_decide (cmp c key (rt_end t) = Lt).
Definition rt_hides (t : RangeTombstone) (entry_seqno snapshot : N) : bool :=
  (entry_seqno <? rt_seqno t)%N && (rt_seqno t <=? snapshot)%N.

(** The sort order of the block. *)
Definition rt_order (a b : RangeTombstone) : comparison :=
  match cmp c (rt_begin a) (rt_begin b) with
  | Eq => match N.compare (rt_seqno a) (rt_seqno b) with
          | Eq => cmp c (rt_end a) (rt_end b)
          | o => o
          end
  | o => o
  end.

Definition rts_push (ts : RangeTombstones) (t : RangeTombstone) : RangeTombstones :=
  vec_insert (partition_by (fun existing => bool_decide (rt_order existing t = Lt)) ts) t ts.
Definition rts_extend (ts other : RangeTombstones) : RangeTombstones := foldl rts_push ts other.

Definition rts_hides (ts : RangeTombstones) (key : bytes) (entry_seqno snapshot : N) : bool :=
  existsb (fun t => rt_hides t entry_seqno snapshot && rt_contains t key) ts.

(** [iter.max()] on sequence numbers. *)
Definition max_seqno (l : list N) : option N :=
  match l with [] => None | x :: l => Some (foldl N.max x l) end.
Definition newest_covering (ts : RangeTombstones) (key : bytes) (snapshot : N) : option N :=
  max_seqno (rt_seqno <$> filter (fun t => (rt_seqno t <=? snapshot)%N && rt_contains t key) ts).

Definition bounds_step (bounds : option (bytes * bytes)) (t : RangeTombstone) : option (bytes * bytes) :=
  Some (match bounds with
        | None => (rt_begin t, rt_end t)
        | Some (low, high) =>
            (if decide (cmp c (rt_begin t) low = Lt) then rt_begin t else low,
             if decide (cmp c (rt_end t) high = Gt) then rt_end t else high)
        end).
Definition key_bounds (ts : RangeTombstones) : option (bytes * bytes) := foldl bounds_step None ts.
End Ops.

(** ** The block codec *)

Inductive RtField := RtCount | RtBegin | RtEnd | RtSeqno.
Inductive RtError :=
  | RtVarint (field : RtField) (err : VarintError)
  | RtShort (field : RtField) (len : N) (left : nat)
  | RtCountTooLarge (count : N) (len : nat)
  | RtSeqnoTooLarge (seqno : N)
  | RtCoversNothing
  | RtOutOfOrder (index : nat)
  | RtTrailing (left : nat).

Definition rt_put_bytes (value out : bytes) : bytes := put_u64 (N.of_nat (length value)) out ++ value.
Definition rt_encode (t : RangeTombstone) (out : bytes) : bytes :=
  put_u64 (rt_seqno t) (rt_put_bytes (rt_end t) (rt_put_bytes (rt_begin t) out)).
Definition rts_encode (ts : RangeTombstones) : bytes :=
  foldl (fun out t => rt_encode t out) (put_u64 (N.of_nat (length ts)) []) ts.

Definition MIN_ENCODED_ENTRY : nat := 3.

(** The cursor is the bytes it has left. *)
Definition rt_varint (rest : bytes) (field : RtField) : result RtError (N * bytes) :=
  let? (value, read) := rmap_err (RtVarint field) (get_u64 rest) in
  Ok (value, drop read rest).
Definition rt_bytes (rest : bytes) (field : RtField) : result RtError (bytes * bytes) :=
  let? (len, rest) := rt_varint rest field in
  if (N.of_nat (length rest) <? len)%N then Err (RtShort field len (length rest))
  else Ok (take (N.to_nat len) rest, drop (N.to_nat len) rest).
Definition rt_finish (rest : bytes) : result RtError unit :=
  match rest with [] => Ok tt | _ => Err (RtTrailing (length rest)) end.

Fixpoint decode_entries (c : Comparator) (count index : nat) (rest : bytes) (entries : RangeTombstones)
    : result RtError (RangeTombstones * bytes) :=
  match count with
  | O => Ok (entries, rest)
  | S count' =>
      let? (from, rest) := rt_bytes rest RtBegin in
      let? (till, rest) := rt_bytes rest RtEnd in
      let? (seqno, rest) := rt_varint rest RtSeqno in
      if (MAX_SEQNO <? seqno)%N then Err (RtSeqnoTooLarge seqno) else
      if negb (bool_decide (cmp c from till = Lt)) then Err RtCoversNothing else
      let t := mkTombstone from till seqno in
      if (match last entries with Some previous => negb (bool_decide (rt_order c previous t = Lt)) | None => false end)
      then Err (RtOutOfOrder index)
      else decode_entries c count' (S index) rest (entries ++ [t])
  end.

Definition rts_decode (c : Comparator) (payload : bytes) : result RtError RangeTombstones :=
  let? (count, rest) := rt_varint payload RtCount in
  if (N.of_nat (length payload / MIN_ENCODED_ENTRY) <? count)%N then Err (RtCountTooLarge count (length payload)) else
  let? (entries, rest) := decode_entries c (N.to_nat count) 0 rest [] in
  let? _ := rt_finish rest in
  Ok entries.

(** ** Lemmas *)

Section Lemmas.
Context (c : Comparator) `{!ComparatorLaws c}.

Lemma cmp_gt_lt a b : cmp c a b = Gt <-> cmp c b a = Lt.
Proof using All. rewrite (cmp_antisym a b). by destruct (cmp c a b). Qed.
Lemma cmp_eq_sym a b : cmp c a b = Eq <-> cmp c b a = Eq.
Proof using All. rewrite (cmp_antisym a b). by destruct (cmp c a b). Qed.
Lemma cmp_eq_r a b d : cmp c a b = Eq -> cmp c d a = cmp c d b.
Proof using All. intros E. rewrite (cmp_antisym a d), (cmp_antisym b d). f_equal. by apply cmp_eq_l. Qed.
Lemma cmp_le_trans a b d : cmp c a b <> Gt -> cmp c b d <> Gt -> cmp c a d <> Gt.
Proof using All.
  intros H1 H2. destruct (cmp c a b) eqn:E1; [by rewrite (cmp_eq_l a b d)| |done].
  destruct (cmp c b d) eqn:E2; [by rewrite <- (cmp_eq_r b d a), E1| |done]. by rewrite (cmp_lt_trans a b d).
Qed.
Lemma cmp_le_lt_trans a b d : cmp c a b <> Gt -> cmp c b d = Lt -> cmp c a d = Lt.
Proof using All.
  intros H1 H2. destruct (cmp c a b) eqn:E1; [by rewrite (cmp_eq_l a b d)| |done]. by rewrite (cmp_lt_trans a b d).
Qed.
Lemma cmp_lt_le_trans a b d : cmp c a b = Lt -> cmp c b d <> Gt -> cmp c a d = Lt.
Proof using All.
  intros H1 H2. destruct (cmp c b d) eqn:E2; [by rewrite <- (cmp_eq_r b d a)| |done]. by rewrite (cmp_lt_trans a b d).
Qed.

Lemma rt_order_lt_trans a b d : rt_order c a b = Lt -> rt_order c b d = Lt -> rt_order c a d = Lt.
Proof using All.
  unfold rt_order. destruct (cmp c (rt_begin a) (rt_begin b)) eqn:E1; [|intros _|done].
  - rewrite (cmp_eq_l _ _ (rt_begin d) E1). destruct (cmp c (rt_begin b) (rt_begin d)); [|done|done].
    destruct (N.compare_spec (rt_seqno a) (rt_seqno b)) as [Es|Es|Es]; [|intros _|done].
    + rewrite Es. destruct (N.compare (rt_seqno b) (rt_seqno d)); [apply cmp_lt_trans|done|done].
    + destruct (N.compare_spec (rt_seqno b) (rt_seqno d)) as [Es'|Es'|Es']; [|intros _|done].
      * intros _. by rewrite (proj2 (N.compare_lt_iff _ _)) by lia.
      * by rewrite (proj2 (N.compare_lt_iff _ _)) by lia.
  - destruct (cmp c (rt_begin b) (rt_begin d)) eqn:E2; [|intros _|done].
    + by rewrite <- (cmp_eq_r _ _ (rt_begin a) E2), E1.
    + by rewrite (cmp_lt_trans _ _ _ E1 E2).
Qed.

Lemma contains_congr t key key' : cmp c key key' = Eq -> rt_contains c t key = rt_contains c t key'.
Proof using All. intros E. unfold rt_contains. by rewrite (cmp_eq_r key key'), (cmp_eq_l key key'). Qed.

Lemma rts_hides_spec ts key s snapshot :
  rts_hides c ts key s snapshot = true <->
  exists t, t ∈ ts /\ rt_contains c t key = true /\ (s < rt_seqno t <= snapshot)%N.
Proof using.
  unfold rts_hides, rt_hides. rewrite existsb_exists. setoid_rewrite andb_true_iff. setoid_rewrite andb_true_iff.
  setoid_rewrite N.ltb_lt. setoid_rewrite N.leb_le. setoid_rewrite <- list_elem_of_In. naive_solver.
Qed.

Lemma push_elem ts t t' : t' ∈ rts_push c ts t <-> t' = t \/ t' ∈ ts.
Proof using. apply elem_of_vec_insert. Qed.
Lemma extend_elem ts other t : t ∈ rts_extend c ts other <-> t ∈ ts \/ t ∈ other.
Proof using.
  unfold rts_extend. revert ts; induction other as [|t' other IH]; intros ts; cbn; [rewrite elem_of_nil; tauto|].
  rewrite IH, push_elem, elem_of_cons. tauto.
Qed.

Lemma foldl_max_spec x l y : y = foldl N.max x l -> (y = x \/ y ∈ l) /\ (x <= y)%N /\ Forall (fun z => (z <= y)%N) l.
Proof using.
  revert x; induction l as [|z l IH]; cbn; intros x E; [subst; split; [by left|]; split; [lia|constructor]|].
  apply IH in E as (Hin & Hle & Hall). split; [|split; [lia|constructor; [lia|done]]].
  rewrite elem_of_cons. destruct Hin as [->|]; [|tauto]. destruct (N.max_spec x z) as [[_ ->]|[_ ->]]; tauto.
Qed.

(** Some covering tombstone at or below the snapshot is above the entry. *)
Lemma newest_covering_hides ts key s snapshot :
  (exists m, newest_covering c ts key snapshot = Some m /\ (s < m)%N) <-> rts_hides c ts key s snapshot = true.
Proof using.
  rewrite rts_hides_spec. unfold newest_covering.
  set (l := filter _ ts). assert (forall t, t ∈ l <-> t ∈ ts /\ rt_contains c t key = true /\ (rt_seqno t <= snapshot)%N) as Hl.
  { intros t. unfold l. rewrite list_elem_of_filter. rewrite Is_true_true, andb_true_iff, N.leb_le. tauto. }
  split.
  - intros (m & E & Hs). destruct l as [|t l'] eqn:El; [done|]. cbn in E. injection E as E. symmetry in E.
    apply foldl_max_spec in E as ([->|Hin] & _).
    + destruct (proj1 (Hl t)) as (? & ? & ?); [left|]. eauto.
    + apply list_elem_of_fmap in Hin as (t' & -> & Hin). destruct (proj1 (Hl t')) as (? & ? & ?); [by right|]. eauto.
  - intros (t & Ht & Hc & Hs & Hsn). assert (t ∈ l) as Hin by by apply Hl.
    destruct l as [|t0 l']; [by apply elem_of_nil in Hin|]. cbn.
    eexists. split; [reflexivity|]. destruct (foldl_max_spec (rt_seqno t0) (rt_seqno <$> l') _ eq_refl) as (_ & Hle & Hall).
    apply elem_of_cons in Hin as [->|Hin]; [lia|]. rewrite Forall_forall in Hall.
    specialize (Hall (rt_seqno t) ltac:(by apply list_elem_of_fmap_2)). cbn in Hall. lia.
Qed.

(** The bounds span every tombstone. *)
Lemma key_bounds_spec ts low high t : key_bounds c ts = Some (low, high) -> t ∈ ts ->
  cmp c low (rt_begin t) <> Gt /\ cmp c (rt_end t) high <> Gt.
Proof using All.
  unfold key_bounds.
  assert (forall ts b0, (match foldl (bounds_step c) b0 ts with
    | Some (low, high) => (match b0 with Some (l0, h0) => cmp c low l0 <> Gt /\ cmp c h0 high <> Gt | None => True end) /\
        (forall t, t ∈ ts -> cmp c low (rt_begin t) <> Gt /\ cmp c (rt_end t) high <> Gt)
    | None => b0 = None /\ ts = [] end)) as G.
  { clear -ComparatorLaws0. induction ts as [|t ts IH]; intros b0; cbn [foldl].
    - destruct b0 as [[l0 h0]|]; [|done]. rewrite !cmp_refl. split; [done|]. by intros t ?%elem_of_nil.
    - specialize (IH (bounds_step c b0 t)). destruct (foldl _ _ ts) as [[low high]|]; [|by destruct b0 as [[? ?]|], IH].
      destruct IH as [Hb Hall]. unfold bounds_step in Hb.
      assert ((match b0 with Some (l0, h0) => cmp c low l0 <> Gt /\ cmp c h0 high <> Gt | None => True end) /\
        cmp c low (rt_begin t) <> Gt /\ cmp c (rt_end t) high <> Gt) as [H1 H2].
      { destruct b0 as [[l0 h0]|]; [|done]. destruct Hb as [Hlow Hhigh].
        destruct (decide (cmp c (rt_begin t) l0 = Lt)) as [Elt|Nlt], (decide (cmp c (rt_end t) h0 = Gt)) as [Egt|Ngt].
        all: repeat split; try done.
        all: try (eapply cmp_le_trans; [exact Hlow|]; first [by rewrite Elt|by intros X%cmp_gt_lt]).
        all: try (eapply cmp_le_trans; [|exact Hhigh]; first [by apply cmp_gt_lt in Egt; rewrite Egt|done]). }
      split; [done|]. intros t' [->|Hin]%elem_of_cons; [done|by apply Hall]. }
  intros E Hin. specialize (G ts None). rewrite E in G. by apply G.
Qed.
End Lemmas.

(** ** The codec is exact *)

Section Codec.
Context (c : Comparator).

(** What a block can hold. *)
Definition rt_valid (t : RangeTombstone) : Prop :=
  cmp c (rt_begin t) (rt_end t) = Lt /\ (rt_seqno t <= MAX_SEQNO)%N /\
  (N.of_nat (length (rt_begin t)) < two64)%N /\ (N.of_nat (length (rt_end t)) < two64)%N.
Fixpoint rts_ordered (previous : option RangeTombstone) (ts : RangeTombstones) : Prop :=
  match ts with
  | [] => True
  | t :: ts => match previous with Some p => rt_order c p t = Lt | None => True end /\ rts_ordered (Some t) ts
  end.
Definition rts_valid (ts : RangeTombstones) : Prop :=
  Forall rt_valid ts /\ rts_ordered None ts /\ (N.of_nat (length ts) < two64)%N.

Definition rt_block (t : RangeTombstone) : bytes :=
  put_u64 (N.of_nat (length (rt_begin t))) [] ++ rt_begin t ++ put_u64 (N.of_nat (length (rt_end t))) [] ++ rt_end t ++ put_u64 (rt_seqno t) [].

Lemma rt_encode_app t out : rt_encode t out = out ++ rt_block t.
Proof using.
  unfold rt_encode, rt_put_bytes, rt_block. rewrite !(put_u64_app _ (_ ++ _)), (put_u64_app _ out), <- !app_assoc. done.
Qed.
Lemma rts_encode_blocks ts : rts_encode ts = put_u64 (N.of_nat (length ts)) [] ++ mjoin (rt_block <$> ts).
Proof using.
  unfold rts_encode. generalize (put_u64 (N.of_nat (length ts)) []). induction ts as [|t ts IH]; intros out; cbn; [by rewrite app_nil_r|].
  rewrite IH, rt_encode_app, <- app_assoc. done.
Qed.

Lemma rt_blocks_cons t ts : mjoin (rt_block <$> (t :: ts)) = rt_block t ++ mjoin (rt_block <$> ts).
Proof using. done. Qed.

Lemma rt_varint_ok v rest field : (v < two64)%N -> rt_varint (put_u64 v [] ++ rest) field = Ok (v, rest).
Proof using. intros H. unfold rt_varint. rewrite get_put_u64 by done. cbn. by rewrite drop_app_length. Qed.
Lemma rt_varint_inv rest field v rest' : rt_varint rest field = Ok (v, rest') -> (v < two64)%N /\ rest = put_u64 v [] ++ rest'.
Proof using.
  unfold rt_varint. intros ([v' n] & E & H)%rbind_ok. destruct (get_u64 rest) as [[v0 n0]|] eqn:Eg; [|done].
  injection E as <- <-. injection H as <- <-. apply get_u64_canonical in Eg as [Hv <-]. split; [done|]. by rewrite take_drop.
Qed.
Lemma rt_bytes_ok s rest field : (N.of_nat (length s) < two64)%N ->
  rt_bytes (put_u64 (N.of_nat (length s)) [] ++ s ++ rest) field = Ok (s, rest).
Proof using.
  intros H. unfold rt_bytes. rewrite rt_varint_ok by done. cbn [rbind]. rewrite (proj2 (N.ltb_ge _ _)) by (rewrite length_app; lia).
  by rewrite Nat2N.id, take_app_length, drop_app_length.
Qed.
Lemma rt_bytes_inv rest field s rest' : rt_bytes rest field = Ok (s, rest') ->
  (N.of_nat (length s) < two64)%N /\ rest = put_u64 (N.of_nat (length s)) [] ++ s ++ rest'.
Proof using.
  unfold rt_bytes. intros ([len r] & E & H)%rbind_ok. apply rt_varint_inv in E as [Hl ->].
  destruct (N.ltb_spec (N.of_nat (length r)) len); [done|]. injection H as <- <-.
  assert (N.of_nat (length (take (N.to_nat len) r)) = len) as -> by (rewrite length_take; lia).
  split; [done|]. by rewrite take_drop.
Qed.

Lemma decode_entries_ok ts index rest entries : Forall rt_valid ts -> rts_ordered (last entries) ts ->
  decode_entries c (length ts) index (mjoin (rt_block <$> ts) ++ rest) entries = Ok (entries ++ ts, rest).
Proof using.
  revert index entries. induction ts as [|t ts IH]; intros index entries Hv Ho; cbn [length decode_entries]; [by rewrite app_nil_r|].
  apply Forall_cons in Hv as [(Hlt & Hs & Hb & He) Hv]. destruct Ho as [Hp Ho].
  rewrite rt_blocks_cons. unfold rt_block at 1. rewrite <- !app_assoc.
  rewrite rt_bytes_ok by done. cbn [rbind]. rewrite rt_bytes_ok by done. cbn [rbind].
  rewrite rt_varint_ok by (unfold MAX_SEQNO, two64 in *; lia). cbn [rbind].
  rewrite (proj2 (N.ltb_ge _ _)), bool_decide_true by done. cbn [negb]. destruct t as [b e s]. cbn [rt_begin rt_end rt_seqno] in *.
  assert ((match last entries with Some p => negb (bool_decide (rt_order c p (mkTombstone b e s) = Lt)) | None => false end) = false) as ->.
  { destruct (last entries); [|done]. by rewrite bool_decide_true. }
  rewrite IH; [by rewrite <- app_assoc|done|]. by rewrite last_snoc.
Qed.

Lemma decode_entries_inv count index rest entries out rest' : decode_entries c count index rest entries = Ok (out, rest') ->
  exists ts, out = entries ++ ts /\ length ts = count /\ Forall rt_valid ts /\ rts_ordered (last entries) ts /\
    rest = mjoin (rt_block <$> ts) ++ rest'.
Proof using.
  revert index rest entries. induction count as [|count IH]; intros index rest entries; cbn [decode_entries].
  { intros [= <- <-]. exists []. by rewrite app_nil_r. }
  intros ([b r1] & E1 & H)%rbind_ok. apply rt_bytes_inv in E1 as [Hb ->].
  apply rbind_ok in H as ([e r2] & E2 & H). apply rt_bytes_inv in E2 as [He ->].
  apply rbind_ok in H as ([s r3] & E3 & H). apply rt_varint_inv in E3 as [Hs ->].
  destruct (N.ltb_spec MAX_SEQNO s); [done|]. destruct (bool_decide (cmp c b e = Lt)) eqn:Elt; [|done].
  apply bool_decide_eq_true in Elt. cbn [negb] in H.
  destruct (match last entries with Some p => _ | None => false end) eqn:Eo; [done|].
  apply IH in H as (ts & -> & <- & Hv & Ho & ->). rewrite last_snoc in Ho.
  exists (mkTombstone b e s :: ts). rewrite <- app_assoc. split; [done|]. split; [done|].
  split; [constructor; [|done]; unfold rt_valid; cbn [rt_begin rt_end rt_seqno]; split; [done|]; split; [lia|]; split; done|]. split.
  - split; [|done]. destruct (last entries); [|done]. apply negb_false_iff in Eo. by apply bool_decide_eq_true in Eo.
  - rewrite rt_blocks_cons. unfold rt_block at 2. cbn [rt_begin rt_end rt_seqno]. by rewrite <- !app_assoc.
Qed.

Lemma rt_block_length t : MIN_ENCODED_ENTRY <= length (rt_block t).
Proof using.
  unfold rt_block. rewrite !length_app. pose proof (put_u64_nonempty (N.of_nat (length (rt_begin t)))) as H1.
  pose proof (put_u64_nonempty (N.of_nat (length (rt_end t)))) as H2. pose proof (put_u64_nonempty (rt_seqno t)) as H3.
  destruct (put_u64 (N.of_nat (length (rt_begin t))) []), (put_u64 (N.of_nat (length (rt_end t))) []), (put_u64 (rt_seqno t) []); try done.
  cbn [length]. unfold MIN_ENCODED_ENTRY. lia.
Qed.
Lemma blocks_length ts : length ts <= length (mjoin (rt_block <$> ts)) / MIN_ENCODED_ENTRY.
Proof using.
  apply Nat.div_le_lower_bound; [done|]. induction ts as [|t ts IH]; [done|].
  rewrite rt_blocks_cons, length_app. cbn [length]. pose proof (rt_block_length t). lia.
Qed.

(** Decoding accepts exactly the encodings of valid sets. *)
Lemma rts_codec payload ts : rts_decode c payload = Ok ts <-> rts_valid ts /\ payload = rts_encode ts.
Proof using.
  unfold rts_decode. split.
  - intros ([count rest] & E & H)%rbind_ok. apply rt_varint_inv in E as [Hc ->].
    destruct (N.ltb_spec (N.of_nat (length (put_u64 count [] ++ rest) / MIN_ENCODED_ENTRY)) count); [done|].
    apply rbind_ok in H as ([entries rest'] & E & H). apply decode_entries_inv in E as (ts' & -> & Hl & Hv & Ho & ->).
    apply rbind_ok in H as (u & E & H). destruct rest'; [|done]. injection H as <-. cbn [app] in *.
    assert (count = N.of_nat (length ts')) as -> by lia. split; [by repeat split|]. by rewrite rts_encode_blocks, app_nil_r.
  - intros [(Hv & Ho & Hl) ->]. rewrite rts_encode_blocks, rt_varint_ok by done. cbn [rbind].
    rewrite (proj2 (N.ltb_ge _ _)).
    2: { pose proof (blocks_length ts) as Hb.
      assert (length (mjoin (rt_block <$> ts)) / MIN_ENCODED_ENTRY <= length (put_u64 (N.of_nat (length ts)) [] ++ mjoin (rt_block <$> ts)) / MIN_ENCODED_ENTRY)
        by (apply Nat.Div0.div_le_mono; rewrite length_app; lia). lia. }
    rewrite Nat2N.id, <- (app_nil_r (mjoin _)), decode_entries_ok by done. cbn. done.
Qed.
End Codec.

(** ** Properties *)

(** Pushing keeps the strict order unless the tombstone is already there. *)
Lemma push_ordered c `{!ComparatorLaws c} ts t previous : rts_ordered c previous ts ->
  (forall t', t' ∈ ts -> rt_order c t' t = Lt \/ rt_order c t t' = Lt) ->
  match previous with Some p => rt_order c p t = Lt | None => True end ->
  rts_ordered c previous (rts_push c ts t).
Proof.
  revert previous. induction ts as [|t0 ts IH]; intros previous Ho Hne Hp; [done|].
  unfold rts_push. cbn [partition_by]. destruct Ho as [Hp0 Ho].
  destruct (bool_decide (rt_order c t0 t = Lt)) eqn:E.
  - apply bool_decide_eq_true in E. split; [done|]. apply IH; [done| |done]. intros t' Hin. apply Hne. by right.
  - apply bool_decide_eq_false in E. destruct (Hne t0) as [?|Hlt]; [left|done|]. cbn. done.
Qed.

(** The tombstone block is canonical: decoding accepts
    exactly the encodings of strictly ordered sets of non-empty ranges below
    the sequence ceiling, and returns that set. *)
Theorem tombstone_codec c payload ts : rts_decode c payload = Ok ts <-> rts_valid c ts /\ payload = rts_encode ts.
Proof. apply rts_codec. Qed.
