(* ===== verification/Lsm.v ===== *)
(** What a log-structured store promises its readers: the newest version of a
    key at or below a snapshot, unless a range tombstone hides it; and the
    sorted runs of internal keys in which one seek finds that version.  The
    memtable, the tables and the levels are all read as such runs. *)

From stdpp Require Import prelude sorting.
From Stdlib Require Import NArith ZArith Lia.
From S2P Require Import Prelude DbFormat RangeDel.

(** ** The specification *)

(** An entry of a run: an internal key and its value. *)
Definition entry : Type := bytes * bytes.

(** A version of one key: sequence number, kind, value. *)
Definition version : Type := N * EntryKind * bytes.
Definition ver_seqno (v : version) : N := v.1.1.

Section Spec.
Context (user : Comparator).

Definition version_of (key : bytes) (snapshot : N) (e : entry) : option version :=
  '(u, s, k) ← split_internal_key e.1;
  if bool_decide (cmp user u key = Eq) && (s <=? snapshot)%N then Some (s, k, e.2) else None.

(** The versions of [key] that a reader at [snapshot] may see. *)
Definition versions_of (entries : list entry) (key : bytes) (snapshot : N) : list version :=
  omap (version_of key snapshot) entries.

(** The newest of them. *)
Fixpoint newest (l : list version) : option version :=
  match l with
  | [] => None
  | v :: l =>
      match newest l with
      | Some v' => if (ver_seqno v <? ver_seqno v')%N then Some v' else Some v
      | None => Some v
      end
  end.

(** What the reader gets: a value only if the newest version is one and no
    tombstone written after it and visible at the snapshot covers the key. *)
Definition judge (tombstones : RangeTombstones) (key : bytes) (snapshot : N) (v : option version) : option bytes :=
  match v with
  | Some (s, Put, value) => if rts_hides user tombstones key s snapshot then None else Some value
  | _ => None
  end.
Definition visible_value (entries : list entry) (tombstones : RangeTombstones) (key : bytes) (snapshot : N) : option bytes :=
  judge tombstones key snapshot (newest (versions_of entries key snapshot)).
End Spec.

(** ** The newest version *)


Lemma newest_None l : newest l = None <-> l = [].
Proof. destruct l as [|v l]; [done|]. cbn. split; [|done]. case_match; [case_match|]; done. Qed.

Lemma newest_elem l v : newest l = Some v -> v ∈ l /\ Forall (fun v' => (ver_seqno v' <= ver_seqno v)%N) l.
Proof.
  revert v; induction l as [|v0 l IH]; cbn; [done|]. intros v. destruct (newest l) as [v'|] eqn:E.
  - destruct (IH v' eq_refl) as [Hin Hall]. destruct (N.ltb_spec (ver_seqno v0) (ver_seqno v')); intros [= <-].
    + split; [by right|]. constructor; [lia|done].
    + split; [left|]. constructor; [lia|]. eapply Forall_impl; [exact Hall|]. cbn. lia.
  - intros [= <-]. apply newest_None in E as ->. split; [left|]. by repeat constructor.
Qed.

(** Of two groups of versions the newer one decides, if it has any. *)
Lemma newest_app l l' : (forall v v', v ∈ l -> v' ∈ l' -> (ver_seqno v' <= ver_seqno v)%N) ->
  newest (l ++ l') = match newest l with Some v => Some v | None => newest l' end.
Proof.
  induction l as [|v l IH]; cbn; [done|]. intros Hle. rewrite IH by (intros; apply Hle; [by right|done]).
  destruct (newest l) as [v1|]; [by destruct (_ <? _)%N|]. destruct (newest l') as [v'|] eqn:E; [|done].
  apply newest_elem in E as [Hin _]. rewrite (proj2 (N.ltb_ge _ _)); [done|]. apply Hle; [left|done].
Qed.

(** A list that starts with its newest. *)
Lemma newest_head l : StronglySorted (fun v v' => (ver_seqno v' <= ver_seqno v)%N) l -> newest l = head l.
Proof.
  induction 1 as [|v l Hs IH Hall]; [done|]. cbn. rewrite IH. destruct l as [|v' l]; [done|]. cbn.
  apply Forall_cons in Hall as [Hv _]. by rewrite (proj2 (N.ltb_ge _ _)).
Qed.

(** ** Sorted runs *)

Section Runs.
Context (user : Comparator) `{!ComparatorLaws user}.

(** [seek]: the first entry at or after [target]. *)
Fixpoint run_seek (entries : list entry) (target : bytes) : option entry :=
  match entries with
  | [] => None
  | e :: entries => if bool_decide (internal_cmp user e.1 target = Lt) then run_seek entries target else Some e
  end.

Definition entry_before (a b : entry) : Prop := internal_cmp user a.1 b.1 = Lt.
Definition run_sorted (entries : list entry) : Prop :=
  StronglySorted entry_before entries /\ Forall (fun e => wellformed e.1) entries.

(** A tag the engine wrote, taken apart. *)
Lemma wellformed_split key : wellformed key -> exists u s k, key = internal_key u s k /\ (s <= MAX_SEQNO)%N /\ split_internal_key key = Some (u, s, k).
Proof using. intros (u & s & k & -> & Hs). exists u, s, k. split; [done|]. split; [done|]. by apply split_internal_key_spec. Qed.

Lemma version_of_key key snapshot u s k v : (s <= MAX_SEQNO)%N ->
  version_of user key snapshot (internal_key u s k, v) = if bool_decide (cmp user u key = Eq) && (s <=? snapshot)%N then Some (s, k, v) else None.
Proof using. intros Hs. unfold version_of. cbn [fst snd]. rewrite (proj2 (split_internal_key_spec _ u s k)) by done. done. Qed.

Lemma versions_of_cons e entries key snapshot :
  versions_of user (e :: entries) key snapshot =
  match version_of user key snapshot e with Some v => v :: versions_of user entries key snapshot | None => versions_of user entries key snapshot end.
Proof using. unfold versions_of. cbn. by destruct (version_of _ _ _ e). Qed.
Lemma versions_of_app entries entries' key snapshot :
  versions_of user (entries ++ entries') key snapshot = versions_of user entries key snapshot ++ versions_of user entries' key snapshot.
Proof using. apply omap_app. Qed.

Lemma elem_of_versions_of entries key snapshot v :
  v ∈ versions_of user entries key snapshot <-> exists e, e ∈ entries /\ version_of user key snapshot e = Some v.
Proof using. apply list_elem_of_omap. Qed.

Lemma run_sorted_cons e entries : run_sorted (e :: entries) ->
  run_sorted entries /\ wellformed e.1 /\ Forall (entry_before e) entries.
Proof using. intros [Hs Hw]. apply StronglySorted_inv in Hs as [Hs Hall]. apply Forall_cons in Hw as [Hw Hws]. done. Qed.

Lemma split_user key u s k : split_internal_key key = Some (u, s, k) -> u = extract_user_key key.
Proof using. unfold split_internal_key. intros E. simplify_option_eq. done. Qed.

Lemma internal_cmp_antisym a b : internal_cmp user b a = CompOpp (internal_cmp user a b).
Proof using All.
  unfold internal_cmp. destruct (extract_tag a) as [ta|], (extract_tag b) as [tb|]; try apply bytes_cmp_antisym.
  rewrite (cmp_antisym (extract_user_key a)). destruct (cmp user (extract_user_key a) _); [apply N.compare_antisym|done|done].
Qed.

(** The user keys of a run never decrease. *)
Lemma before_user_le u s k (e : entry) : (s <= MAX_SEQNO)%N -> wellformed e.1 -> internal_cmp user (internal_key u s k) e.1 = Lt ->
  cmp user u (extract_user_key e.1) <> Gt.
Proof using All.
  intros Hs (u' & s' & k' & -> & Hs') Hlt. rewrite extract_user_internal. rewrite internal_cmp_keys in Hlt by done.
  unfold version_cmp in Hlt. by destruct (cmp user u u').
Qed.

Lemma later_keys_none entries key snapshot : Forall (fun e : entry => cmp user key (extract_user_key e.1) = Lt) entries ->
  versions_of user entries key snapshot = [].
Proof using All.
  induction 1 as [|e entries Hlt _ IH]; [done|]. rewrite versions_of_cons, IH. unfold version_of.
  destruct (split_internal_key e.1) as [[[u s] k]|] eqn:E; cbn; [|done].
  apply split_user in E as ->.
  rewrite bool_decide_false; [done|]. rewrite cmp_antisym, Hlt. done.
Qed.

(** Past the first entry at or after the target there is nothing a reader at
    this snapshot could prefer; before it, nothing it may see. *)
Lemma run_seek_head entries key snapshot : run_sorted entries -> (snapshot <= MAX_SEQNO)%N ->
  head (versions_of user entries key snapshot) = e ← run_seek entries (lookup_key key snapshot); version_of user key snapshot e.
Proof using All.
  intros Hr Hsn. induction entries as [|e entries IH]; [done|]. apply run_sorted_cons in Hr as (Hr & Hw & Hall).
  specialize (IH Hr). rewrite versions_of_cons. cbn [run_seek].
  destruct (wellformed_split _ Hw) as (u & s & k & Ek & Hs & _). destruct e as [key0 v]. cbn [fst] in *. subst key0.
  rewrite version_of_key by done. destruct (lookup_key_seek user key snapshot u s k Hsn Hs) as [Hge Hle].
  destruct (bool_decide (internal_cmp user (internal_key u s k) (lookup_key key snapshot) = Lt)) eqn:Elt.
  - apply bool_decide_eq_true in Elt. assert (bool_decide (cmp user u key = Eq) && (s <=? snapshot)%N = false) as ->; [|done].
    apply andb_false_iff. destruct (cmp user u key) eqn:Ec; [|by left..]. right. apply N.leb_gt.
    destruct (N.lt_ge_cases snapshot s) as [|Hge']; [done|]. exfalso.
    assert (internal_cmp user (lookup_key key snapshot) (internal_key u s k) <> Gt) as X.
    { apply Hle. right. split; [by apply cmp_eq_sym|done]. }
    apply X. by rewrite internal_cmp_antisym, Elt.
  - apply bool_decide_eq_false in Elt. cbn [mbind option_bind]. rewrite version_of_key by done.
    destruct (bool_decide (cmp user u key = Eq) && (s <=? snapshot)%N) eqn:Ev; [done|].
    enough (versions_of user entries key snapshot = []) as -> by done.
    assert (cmp user key u = Lt) as Hlater.
    { destruct Hge as [|[Ec Hle']]; [|done|].
      { rewrite (internal_cmp_antisym (internal_key u s k)). by destruct (internal_cmp user (internal_key u s k) _). }
      apply cmp_eq_sym in Ec; [|done]. rewrite bool_decide_true, (proj2 (N.leb_le _ _)) in Ev by done. done. }
    apply later_keys_none. apply Forall_forall. intros e' Hin. rewrite Forall_forall in Hall. specialize (Hall e' Hin).
    apply (cmp_lt_le_trans user key u); [done|]. destruct Hr as [_ Hws]. rewrite Forall_forall in Hws.
    by apply (before_user_le u s k); [|apply Hws|].
Qed.

(** The versions of one key come out newest first. *)
Lemma run_versions_sorted entries key snapshot : run_sorted entries ->
  StronglySorted (fun v v' => (ver_seqno v' <= ver_seqno v)%N) (versions_of user entries key snapshot).
Proof using All.
  induction entries as [|e entries IH]; intros Hr; [constructor|]. apply run_sorted_cons in Hr as (Hr & Hw & Hall).
  rewrite versions_of_cons. destruct (version_of user key snapshot e) as [[[s k] v]|] eqn:E; [|by apply IH].
  constructor; [by apply IH|]. apply Forall_forall. intros [[s' k'] v'] Hin.
  apply elem_of_versions_of in Hin as (e' & Hin & E'). rewrite Forall_forall in Hall. specialize (Hall e' Hin).
  destruct Hr as [_ Hws]. rewrite Forall_forall in Hws. specialize (Hws e' Hin).
  destruct e as [key0 v0], e' as [key1 v1]. cbn [fst snd] in *. unfold entry_before in Hall. cbn [fst] in Hall.
  destruct (wellformed_split _ Hw) as (u & s0 & k0 & -> & Hs & _), (wellformed_split _ Hws) as (u1 & s1 & k1 & -> & Hs1 & _).
  rewrite version_of_key in E, E' by done.
  destruct (bool_decide (cmp user u key = Eq)) eqn:Eu; [|done]. destruct (s0 <=? snapshot)%N; [|done]. injection E as -> -> ->.
  destruct (bool_decide (cmp user u1 key = Eq)) eqn:Eu1; [|done]. destruct (s1 <=? snapshot)%N; [|done]. injection E' as -> -> ->.
  apply bool_decide_eq_true in Eu, Eu1. rewrite internal_cmp_keys in Hall by done. unfold version_cmp in Hall.
  apply cmp_eq_sym in Eu1; [|done]. rewrite (cmp_eq_l u key), Eu1 in Hall by done. unfold ver_seqno. cbn.
  destruct (N.compare_spec s' s); [lia|lia|done].
Qed.

(** One seek decides a sorted run. *)
Lemma run_newest entries key snapshot : run_sorted entries -> (snapshot <= MAX_SEQNO)%N ->
  newest (versions_of user entries key snapshot) = e ← run_seek entries (lookup_key key snapshot); version_of user key snapshot e.
Proof using All. intros Hr Hs. rewrite newest_head by by apply run_versions_sorted. by apply run_seek_head. Qed.
End Runs.

(** A concrete run is sorted. *)
Ltac sorted_run := split; [repeat (constructor; [|repeat (constructor; [by vm_compute|]); constructor]); constructor
                          |repeat (constructor; [eexists _, _, _; split; [reflexivity|by vm_compute]|]); constructor].
