(* ===== verification/Cursor.v ===== *)
(** The cursor every layer of the engine iterates through
    (esker-engine/src/iterator.rs), what its documentation promises, and a
    cursor over a sorted list that keeps the promise. *)

From stdpp Require Import prelude sorting.
From Stdlib Require Import NArith ZArith Lia.
From S2P Require Import Prelude DbFormat RangeDel Lsm.

Inductive Direction := Forward | Reverse.
#[export] Instance Direction_eq_dec : EqDecision Direction.
Proof. solve_decision. Defined.

(** [cur_error] says whether [status] is an error. *)
Class Cursor (C : Type) := {
  cur_valid : C -> bool;
  cur_key : C -> bytes;
  cur_value : C -> bytes;
  cur_seek : bytes -> C -> C;
  cur_seek_for_prev : bytes -> C -> C;
  cur_seek_to_first : C -> C;
  cur_seek_to_last : C -> C;
  cur_next : C -> C;
  cur_prev : C -> C;
  cur_error : C -> bool }.

(** ** Lists split at a bound *)

Section Split.
Lemma split_upward {A} (R : A -> A -> Prop) (P : A -> Prop) `{!forall e, Decision (P e)} l : StronglySorted R l ->
  (forall a b, a ∈ l -> b ∈ l -> R a b -> P a -> P b) ->
  exists l1 l2, l = l1 ++ l2 /\ filter P l = l2 /\ (forall e, e ∈ l1 -> ~ P e) /\ (forall e, e ∈ l2 -> P e).
Proof.
  induction 1 as [|x l Hs IH Hall]; intros HP; [by exists [], []; split_and!; try done; intros e ?%elem_of_nil|].
  rewrite Forall_forall in Hall. destruct (decide (P x)) as [Hx|Hx].
  - exists [], (x :: l). assert (forall e, e ∈ x :: l -> P e) as He. { intros e [->|He]%elem_of_cons; [done|]. apply (HP x e); [left|by right|by apply Hall|done]. }
    split_and!; [done| |by intros e ?%elem_of_nil|done]. by apply filter_all, Forall_forall.
  - destruct IH as (l1 & l2 & -> & Hf & Hn & Hp). { intros a b Ha Hb. apply HP; by right. }
    exists (x :: l1), l2. split_and!; [done| |intros e [->|He]%elem_of_cons; [done|by apply Hn]|done]. by rewrite filter_cons_False.
Qed.
Lemma split_downward {A} (R : A -> A -> Prop) (P : A -> Prop) `{!forall e, Decision (P e)} l : StronglySorted R l ->
  (forall a b, a ∈ l -> b ∈ l -> R a b -> P b -> P a) ->
  exists l1 l2, l = l1 ++ l2 /\ filter P l = l1 /\ (forall e, e ∈ l1 -> P e) /\ (forall e, e ∈ l2 -> ~ P e).
Proof.
  intros Hs HP. destruct (split_upward R (fun e => ~ P e) l Hs) as (l1 & l2 & -> & _ & Hn & Hp).
  { intros a b Ha Hb HR Hna Hpb. by apply Hna, (HP a b). }
  assert (forall e, e ∈ l1 -> P e) as H1 by (intros e He; destruct (decide (P e)); [done|by destruct (Hn e He)]).
  exists l1, l2. split_and!; [done| |done|done]. rewrite filter_app, (filter_all _ l1), (filter_none _ l2), app_nil_r; [done|by apply Forall_forall..].
Qed.
End Split.

(** ** The order of entries *)

Section Order.
Context (user : Comparator) `{!ComparatorLaws user}.

Definition key_le (a b : bytes) : Prop := internal_cmp user a b <> Gt.

Lemma internal_cmp_refl a : internal_cmp user a a = Eq.
Proof using All. pose proof (internal_cmp_antisym user a a) as H. by destruct (internal_cmp user a a). Qed.

Lemma version_le_trans u s k u' s' k' u'' s'' k'' : version_cmp user u s k u' s' k' <> Gt -> version_cmp user u' s' k' u'' s'' k'' <> Gt ->
  version_cmp user u s k u'' s'' k'' <> Gt.
Proof using All.
  unfold version_cmp. destruct (cmp user u u') eqn:E1; [| |done].
  - rewrite (cmp_eq_l u u') by done. destruct (cmp user u' u''); [|done..].
    rewrite <- !tag_compare by apply kind_lt. rewrite !N.compare_le_iff. lia.
  - intros _ H. rewrite (cmp_lt_le_trans user u u' u''); [done|done|]. by destruct (cmp user u' u'').
Qed.

Lemma key_le_trans a b c : wellformed a -> wellformed b -> wellformed c -> key_le a b -> key_le b c -> key_le a c.
Proof using All.
  intros (u & s & k & -> & Hs) (u' & s' & k' & -> & Hs') (u'' & s'' & k'' & -> & Hs''). unfold key_le.
  rewrite !internal_cmp_keys by done. apply version_le_trans.
Qed.
Lemma key_le_total a b : key_le a b \/ key_le b a.
Proof using All. unfold key_le. rewrite (internal_cmp_antisym user a b). by destruct (internal_cmp user a b); [left|left|right]. Qed.
Lemma key_le_refl a : key_le a a.
Proof using All. unfold key_le. by rewrite internal_cmp_refl. Qed.
Lemma key_lt_le_trans a b c : wellformed a -> wellformed b -> wellformed c -> internal_cmp user a b = Lt -> key_le b c -> internal_cmp user a c = Lt.
Proof using All.
  intros Ha Hb Hc Hab Hbc. destruct (internal_cmp user a c) eqn:E; [|done|].
  - exfalso. assert (key_le b a) as X; [apply (key_le_trans b c a); try done; unfold key_le; by rewrite (internal_cmp_antisym user a c), E|].
    apply X. by rewrite internal_cmp_antisym, Hab.
  - exfalso. assert (key_le a c) as X; [apply (key_le_trans a b c); try done; unfold key_le; by rewrite Hab|]. by apply X.
Qed.

Lemma key_le_lt_trans a b c : wellformed a -> wellformed b -> wellformed c -> key_le a b -> internal_cmp user b c = Lt -> internal_cmp user a c = Lt.
Proof using All.
  intros Ha Hb Hc Hab Hbc. destruct (internal_cmp user a c) eqn:E; [exfalso|done|exfalso];
    (assert (key_le c b) as X; [apply (key_le_trans c a b); try done; unfold key_le; by rewrite (internal_cmp_antisym user a c), E|]; apply X; by rewrite internal_cmp_antisym, Hbc).
Qed.

(** An entry comes no later than another in the direction of travel. *)
Definition towards (d : Direction) (a b : entry) : Prop :=
  match d with Forward => key_le a.1 b.1 | Reverse => key_le b.1 a.1 end.
Lemma towards_trans d a b c : wellformed a.1 -> wellformed b.1 -> wellformed c.1 -> towards d a b -> towards d b c -> towards d a c.
Proof using All. intros Ha Hb Hc. destruct d; cbn; [apply key_le_trans; done|intros H1 H2; by apply (key_le_trans c.1 b.1 a.1)]. Qed.

(** No two places of a run hold the same key. *)
Definition uniq (l : list entry) : Prop :=
  forall i j a b, l !! i = Some a -> l !! j = Some b -> internal_cmp user a.1 b.1 = Eq -> i = j.

(** What remains to be visited: the part of the run on the far side of a
    bound, each entry once, in the direction of travel. *)
Definition visits (d : Direction) (P : entry -> Prop) `{!forall e, Decision (P e)} (run rest : list entry) : Prop :=
  StronglySorted (towards d) rest /\ rest ≡ₚ filter P run.
End Order.

(** ** The promise *)

(** [cur_over c run]: a cursor over [run], wherever it stands.  [cur_at d c run
    rest]: it travels in direction [d] and has [rest] still to visit, the entry
    it stands on first.  The last four laws turn it around. *)
Class CursorLaws (user : Comparator) (C : Type) `{!Cursor C} := {
  cur_over : C -> list entry -> Prop;
  cur_at : Direction -> C -> list entry -> list entry -> Prop;
  cur_over_wf c run : cur_over c run -> Forall (fun e : entry => wellformed e.1) run;
  cur_at_over d c run rest : cur_at d c run rest -> cur_over c run;
  cur_at_rest d c run rest : cur_at d c run rest -> rest ⊆ run;
  cur_at_readable d c run rest : cur_at d c run rest -> cur_error c = false;
  cur_at_valid d c run rest : cur_at d c run rest -> cur_valid c = negb (bool_decide (rest = []));
  cur_at_head d c run e rest : cur_at d c run (e :: rest) -> cur_key c = e.1 /\ cur_value c = e.2;
  cur_next_law c run rest : cur_at Forward c run rest -> cur_at Forward (cur_next c) run (tail rest);
  cur_prev_law c run rest : cur_at Reverse c run rest -> cur_at Reverse (cur_prev c) run (tail rest);
  cur_seek_law c run target : cur_over c run -> wellformed target ->
    exists rest, cur_at Forward (cur_seek target c) run rest /\ visits user Forward (fun e => internal_cmp user e.1 target <> Lt) run rest;
  cur_seek_for_prev_law c run target : cur_over c run -> wellformed target ->
    exists rest, cur_at Reverse (cur_seek_for_prev target c) run rest /\ visits user Reverse (fun e => internal_cmp user e.1 target <> Gt) run rest;
  cur_seek_to_first_law c run : cur_over c run -> exists rest, cur_at Forward (cur_seek_to_first c) run rest /\ visits user Forward (fun _ => True) run rest;
  cur_seek_to_last_law c run : cur_over c run -> exists rest, cur_at Reverse (cur_seek_to_last c) run rest /\ visits user Reverse (fun _ => True) run rest;
  cur_next_end c run : cur_at Reverse c run [] -> cur_at Reverse (cur_next c) run [];
  cur_prev_end c run : cur_at Forward c run [] -> cur_at Forward (cur_prev c) run [];
  cur_next_turn c run e rest : cur_at Reverse c run (e :: rest) -> uniq user run ->
    exists rest', cur_at Forward (cur_next c) run rest' /\ visits user Forward (fun x => internal_cmp user x.1 e.1 = Gt) run rest';
  cur_prev_turn c run e rest : cur_at Forward c run (e :: rest) -> uniq user run ->
    exists rest', cur_at Reverse (cur_prev c) run rest' /\ visits user Reverse (fun x => internal_cmp user x.1 e.1 = Lt) run rest' }.

(** ** A cursor over a list *)

Record ListCursor := mkListCursor { lc_entries : list entry; lc_position : option nat }.

Section ListCursor.
Context (user : Comparator).

Definition lc_entry (c : ListCursor) : option entry := p ← lc_position c; lc_entries c !! p.
(** [rposition]: the last place where [f] holds. *)
Fixpoint rposition {A} (f : A -> bool) (l : list A) : option nat :=
  match l with
  | [] => None
  | x :: l => match rposition f l with Some i => Some (S i) | None => if f x then Some 0%nat else None end
  end.

#[local] Instance ListCursorOps : Cursor ListCursor := {
  cur_valid c := bool_decide (is_Some (lc_position c));
  cur_key c := from_option fst [] (lc_entry c);
  cur_value c := from_option snd [] (lc_entry c);
  cur_seek target c := mkListCursor (lc_entries c) (fst <$> list_find (fun e : entry => internal_cmp user e.1 target <> Lt) (lc_entries c));
  cur_seek_for_prev target c := mkListCursor (lc_entries c) (rposition (fun e : entry => bool_decide (internal_cmp user e.1 target <> Gt)) (lc_entries c));
  cur_seek_to_first c := mkListCursor (lc_entries c) (if decide (lc_entries c = []) then None else Some 0%nat);
  cur_seek_to_last c := mkListCursor (lc_entries c) (if decide (lc_entries c = []) then None else Some (length (lc_entries c) - 1)%nat);
  cur_next c := mkListCursor (lc_entries c) (p ← lc_position c; if decide (S p < length (lc_entries c))%nat then Some (S p) else None);
  cur_prev c := mkListCursor (lc_entries c) (p ← lc_position c; match p with O => None | S p => Some p end);
  cur_error _ := false }.

Context `{!ComparatorLaws user}.

Lemma sorted_towards l : run_sorted user l -> StronglySorted (towards user Forward) l.
Proof using. intros [Hs _]. induction Hs as [|e l Hs IH Hall]; constructor; [done|]. eapply Forall_impl; [exact Hall|]. intros b. unfold entry_before. cbn. unfold key_le. by intros ->. Qed.

Lemma StronglySorted_reverse {A} (R : A -> A -> Prop) l : StronglySorted R l -> StronglySorted (flip R) (reverse l).
Proof using.
  induction 1 as [|x l Hs IH Hall]; [constructor|]. rewrite reverse_cons. apply StronglySorted_app. split; [|split; [done|repeat constructor]].
  intros a b Ha ->%list_elem_of_singleton. rewrite elem_of_reverse in Ha. rewrite Forall_forall in Hall. unfold flip. by apply Hall.
Qed.

Lemma sorted_lookup l i j a b : run_sorted user l -> l !! i = Some a -> l !! j = Some b -> (i < j)%nat -> internal_cmp user a.1 b.1 = Lt.
Proof using.
  intros [Hs _] Ha Hb Hij. assert (b ∈ drop (S i) l) as Hin by (apply list_elem_of_lookup; exists (j - S i)%nat; rewrite lookup_drop; by replace (S i + (j - S i))%nat with j by lia).
  rewrite <- (take_drop_middle l i a Ha) in Hs. apply StronglySorted_app_1_r, StronglySorted_inv in Hs as [_ Hs]. rewrite Forall_forall in Hs. by apply Hs.
Qed.

(** A predicate that holds from a place on picks the list from there. *)
Lemma filter_from (P : entry -> Prop) `{!forall e, Decision (P e)} l i :
  (forall j e, l !! j = Some e -> P e <-> (i <= j)%nat) -> filter P l = drop i l.
Proof using.
  intros HP. rewrite <- (take_drop i l) at 1. rewrite filter_app. rewrite (filter_none _ (take i l)), (filter_all _ (drop i l)); [done| |].
  - apply Forall_forall. intros e (j & Hj)%list_elem_of_lookup. rewrite lookup_drop in Hj. apply (HP _ _ Hj). lia.
  - apply Forall_forall. intros e (j & Hj)%list_elem_of_lookup. apply lookup_take_Some in Hj as [Hj Hlt]. rewrite (HP _ _ Hj). lia.
Qed.
Lemma filter_upto (P : entry -> Prop) `{!forall e, Decision (P e)} l i :
  (forall j e, l !! j = Some e -> P e <-> (j < i)%nat) -> filter P l = take i l.
Proof using.
  intros HP. rewrite <- (take_drop i l) at 1. rewrite filter_app. rewrite (filter_all _ (take i l)), (filter_none _ (drop i l)); [by rewrite app_nil_r| |].
  - apply Forall_forall. intros e (j & Hj)%list_elem_of_lookup. rewrite lookup_drop in Hj. rewrite (HP _ _ Hj). lia.
  - apply Forall_forall. intros e (j & Hj)%list_elem_of_lookup. apply lookup_take_Some in Hj as [Hj Hlt]. by apply (HP _ _ Hj).
Qed.

Definition lc_over (c : ListCursor) (run : list entry) : Prop := run_sorted user run /\ lc_entries c = run.
(** A position lies in the list, and what remains is counted from it. *)
Definition lc_at (d : Direction) (c : ListCursor) (run rest : list entry) : Prop :=
  lc_over c run /\
  match lc_position c with
  | None => rest = []
  | Some p => (p < length run)%nat /\ rest = match d with Forward => drop p run | Reverse => reverse (take (S p) run) end
  end.

(** Everything from, or up to, a place of a sorted list. *)
Lemma visits_from (P : entry -> Prop) `{!forall e, Decision (P e)} run i : run_sorted user run ->
  (forall j e, run !! j = Some e -> P e <-> (i <= j)%nat) -> visits user Forward P run (drop i run).
Proof using.
  intros Hr HP. split; [|by rewrite (filter_from P run i)]. apply sorted_towards in Hr. rewrite <- (take_drop i run) in Hr. by apply StronglySorted_app_1_r in Hr.
Qed.
Lemma visits_upto (P : entry -> Prop) `{!forall e, Decision (P e)} run i : run_sorted user run ->
  (forall j e, run !! j = Some e -> P e <-> (j < i)%nat) -> visits user Reverse P run (reverse (take i run)).
Proof using.
  intros Hr HP. split; [|by rewrite (filter_upto P run i), reverse_Permutation]. apply sorted_towards in Hr. rewrite <- (take_drop i run) in Hr.
  apply StronglySorted_app_1_l, StronglySorted_reverse in Hr. done.
Qed.

Lemma not_lt_le a b : internal_cmp user a b <> Lt <-> key_le user b a.
Proof using All. unfold key_le. rewrite (internal_cmp_antisym user a b). by destruct (internal_cmp user a b). Qed.

Lemma rposition_spec {A} (f : A -> bool) l :
  match rposition f l with
  | Some i => (exists x, l !! i = Some x /\ f x = true) /\ forall j x, l !! j = Some x -> (i < j)%nat -> f x = false
  | None => forall j x, l !! j = Some x -> f x = false
  end.
Proof using.
  induction l as [|y l IH]; cbn; [done|]. destruct (rposition f l) as [i|].
  - destruct IH as [Hx Hall]. split; [done|]. intros [|j] x; [lia|]. cbn. intros. apply (Hall j); [done|lia].
  - destruct (f y) eqn:Ey.
    + split; [by exists y|]. intros [|j] x; [lia|]. cbn. intros Hj _. by apply (IH j).
    + intros [|j] x; cbn; [by intros [= <-]|apply IH].
Qed.

Lemma lookup_le run i j a b : run_sorted user run -> run !! i = Some a -> run !! j = Some b -> (i <= j)%nat -> key_le user a.1 b.1.
Proof using All.
  intros Hr Ha Hb Hij. destruct (decide (i = j)) as [->|]; [simplify_eq; by apply key_le_refl|]. unfold key_le. rewrite (sorted_lookup run i j a b) by (done || lia). done.
Qed.
Lemma lookup_wf run i a : run_sorted user run -> run !! i = Some a -> wellformed a.1.
Proof using. intros [_ Hw] Ha. rewrite Forall_lookup in Hw. by apply (Hw i). Qed.

Lemma lc_seek run target : run_sorted user run -> wellformed target ->
  let i := from_option fst (length run) (list_find (fun e : entry => internal_cmp user e.1 target <> Lt) run) in
  forall j e, run !! j = Some e -> internal_cmp user e.1 target <> Lt <-> (i <= j)%nat.
Proof using All.
  intros Hr Ht. destruct (list_find _ run) as [[i x]|] eqn:E; cbn; intros j e Hj.
  - apply list_find_Some in E as (Hi & Hx & Hbefore). split.
    + intros He. apply Nat.le_ngt. intros Hlt. by apply (Hbefore j e Hj Hlt).
    + intros Hle. apply not_lt_le. apply not_lt_le in Hx. apply (key_le_trans user target x.1 e.1); try done; [by eapply lookup_wf..|by eapply lookup_le].
  - apply list_find_None in E. rewrite Forall_lookup in E. specialize (E j e Hj). apply lookup_lt_Some in Hj. split; [done|].
    intros Hge. exfalso. exact (Nat.lt_irrefl _ (Nat.lt_le_trans _ _ _ Hj Hge)).
Qed.
Lemma lc_seek_back run target : run_sorted user run -> wellformed target ->
  let i := from_option S 0%nat (rposition (fun e : entry => bool_decide (internal_cmp user e.1 target <> Gt)) run) in
  forall j e, run !! j = Some e -> internal_cmp user e.1 target <> Gt <-> (j < i)%nat.
Proof using All.
  intros Hr Ht. pose proof (rposition_spec (fun e : entry => bool_decide (internal_cmp user e.1 target <> Gt)) run) as E.
  destruct (rposition _ run) as [i|]; cbn; intros j e Hj.
  - destruct E as [(x & Hi & Hx) Hall]. apply bool_decide_eq_true in Hx. split.
    + intros He. apply Nat.lt_succ_r, Nat.le_ngt. intros Hlt. specialize (Hall j e Hj Hlt). by apply bool_decide_eq_false in Hall.
    + intros Hle. apply (key_le_trans user e.1 x.1 target); try done; [by eapply lookup_wf..|]. eapply lookup_le; [done..|lia].
  - specialize (E j e Hj). apply bool_decide_eq_false in E. split; [done|intros Hge; exfalso; lia].
Qed.

Lemma take_S_reverse {A} (l : list A) p x : l !! p = Some x -> reverse (take (S p) l) = x :: reverse (take p l).
Proof using. intros Hp. by rewrite (take_S_r _ _ _ Hp), reverse_snoc. Qed.

#[local] Program Instance ListCursorLaws : CursorLaws user ListCursor := { cur_over := lc_over; cur_at := lc_at }.
Next Obligation. by intros c run [[_ Hw] _]. Qed.
Next Obligation. by intros d c run rest [Ho _]. Qed.
Next Obligation.
  intros d c run rest [_ Hp]. destruct (lc_position c) as [p|]; [|subst; set_solver]. destruct Hp as [_ ->]. intros e. destruct d.
  - intros (i & Hi)%list_elem_of_lookup. rewrite lookup_drop in Hi. by eapply list_elem_of_lookup_2.
  - rewrite elem_of_reverse. intros (i & Hi)%list_elem_of_lookup. apply lookup_take_Some in Hi as [Hi _]. by eapply list_elem_of_lookup_2.
Qed.
Next Obligation. done. Qed.
Next Obligation.
  intros d c run rest [_ Hp]. cbn. destruct (lc_position c) as [p|]; [|by subst]. destruct Hp as [Hlt ->].
  destruct (lookup_lt_is_Some_2 run p Hlt) as [x Hx]. rewrite bool_decide_true by eauto. destruct d; [by rewrite (drop_S _ _ _ Hx)|by rewrite (take_S_reverse _ _ _ Hx)].
Qed.
Next Obligation.
  intros d c run e rest [[_ Hl] Hp]. cbn. unfold lc_entry. destruct (lc_position c) as [p|]; [|done]. destruct Hp as [Hlt Hrest]. rewrite Hl. cbn.
  destruct (lookup_lt_is_Some_2 run p Hlt) as [x Hx]. rewrite Hx. destruct d; [rewrite (drop_S _ _ _ Hx) in Hrest|rewrite (take_S_reverse _ _ _ Hx) in Hrest]; by simplify_eq.
Qed.
Next Obligation.
  intros c run rest [Ho Hp]. split; [by destruct Ho|]. cbn. destruct Ho as [Hr ->]. destruct (lc_position c) as [p|]; cbn; [|by subst].
  destruct Hp as [Hlt ->]. destruct (lookup_lt_is_Some_2 run p Hlt) as [x Hx]. rewrite (drop_S _ _ _ Hx). cbn.
  destruct (decide _); [done|]. rewrite drop_ge by lia. done.
Qed.
Next Obligation.
  intros c run rest [Ho Hp]. split; [by destruct Ho|]. cbn. destruct Ho as [Hr Hl]. destruct (lc_position c) as [p|]; cbn; [|by subst].
  destruct Hp as [Hlt ->]. destruct (lookup_lt_is_Some_2 run p Hlt) as [x Hx]. rewrite (take_S_reverse _ _ _ Hx). destruct p as [|p]; cbn; [done|]. split; [lia|done].
Qed.
Next Obligation.
  intros c run target [Hr Hl] Ht. pose proof (lc_seek run target Hr Ht) as Hs. cbn zeta in Hs. eexists. split; [|by apply visits_from, Hs].
  split; [done|]. cbn. rewrite Hl. destruct (list_find _ run) as [[i x]|] eqn:E; cbn; [|apply drop_all].
  apply list_find_Some in E as (Hi & _). split; [by eapply lookup_lt_Some|done].
Qed.
Next Obligation.
  intros c run target [Hr Hl] Ht. pose proof (lc_seek_back run target Hr Ht) as Hs. cbn zeta in Hs. eexists. split; [|by apply visits_upto, Hs].
  split; [done|]. cbn. rewrite Hl. pose proof (rposition_spec (fun e : entry => bool_decide (internal_cmp user e.1 target <> Gt)) run) as E.
  destruct (rposition _ run) as [i|]; cbn; [|done]. destruct E as [(x & Hi & _) _]. split; [by eapply lookup_lt_Some|done].
Qed.
Next Obligation.
  intros c run [Hr Hl]. exists (drop 0 run). split; [|apply visits_from; [done|]; intros; split; [lia|done]]. split; [done|]. cbn. rewrite Hl.
  destruct (decide (run = [])) as [->|Hne]; [done|]. split; [destruct run; [done|cbn; lia]|done].
Qed.
Next Obligation.
  intros c run [Hr Hl]. exists (reverse (take (length run) run)). split; [|apply visits_upto; [done|]; intros j e Hj; apply lookup_lt_Some in Hj; done].
  split; [done|]. cbn. rewrite Hl. destruct (decide (run = [])) as [->|Hne]; [done|]. assert (0 < length run)%nat by (destruct run; [done|cbn; lia]).
  split; [lia|]. by replace (S (length run - 1)) with (length run) by lia.
Qed.
Next Obligation.
  intros c run [Ho Hp]. split; [by destruct Ho|]. cbn. destruct (lc_position c) as [p|]; [|done]. destruct Hp as [Hlt Hrest].
  destruct (lookup_lt_is_Some_2 run p Hlt) as [x Hx]. by rewrite (take_S_reverse _ _ _ Hx) in Hrest.
Qed.
Next Obligation.
  intros c run [Ho Hp]. split; [by destruct Ho|]. cbn. destruct (lc_position c) as [p|]; [|done]. destruct Hp as [Hlt Hrest].
  destruct (lookup_lt_is_Some_2 run p Hlt) as [x Hx]. by rewrite (drop_S _ _ _ Hx) in Hrest.
Qed.
Next Obligation.
  intros c run e rest [Ho Hp] _. destruct (lc_position c) as [p|] eqn:Ep; [|done]. destruct Hp as [Hlt Hrest]. destruct Ho as [Hr Hl].
  destruct (lookup_lt_is_Some_2 run p Hlt) as [x Hx]. rewrite (take_S_reverse _ _ _ Hx) in Hrest. injection Hrest as -> _.
  exists (drop (S p) run). split.
  - split; [done|]. cbn. rewrite Ep, Hl. cbn. destruct (decide _); [done|]. apply drop_ge. lia.
  - apply visits_from; [done|]. intros j b Hj. destruct (Nat.lt_trichotomy j p) as [H|[->|H]].
    + rewrite (sorted_lookup run j p b x) by done. split; [done|lia].
    + simplify_eq. rewrite internal_cmp_refl by done. split; [done|lia].
    + rewrite internal_cmp_antisym, (sorted_lookup run p j x b) by done. split; [lia|done].
Qed.
Next Obligation.
  intros c run e rest [Ho Hp] _. destruct (lc_position c) as [p|] eqn:Ep; [|done]. destruct Hp as [Hlt Hrest]. destruct Ho as [Hr Hl].
  destruct (lookup_lt_is_Some_2 run p Hlt) as [x Hx]. rewrite (drop_S _ _ _ Hx) in Hrest. injection Hrest as -> _.
  exists (reverse (take p run)). split.
  - split; [done|]. cbn. rewrite Ep. cbn. destruct p as [|p]; [done|]. split; [lia|done].
  - apply visits_upto; [done|]. intros j b Hj. destruct (Nat.lt_trichotomy j p) as [H|[->|H]].
    + rewrite (sorted_lookup run j p b x) by done. split; [lia|done].
    + simplify_eq. rewrite internal_cmp_refl by done. split; [done|lia].
    + rewrite internal_cmp_antisym, (sorted_lookup run p j x b) by done. split; [done|lia].
Qed.
End ListCursor.

(** ** Cursors that move as a cursor over a list does *)

Section Follow.
Context (user : Comparator) `{!ComparatorLaws user} {C : Type} `{Hops : !Cursor C} (follows : C -> ListCursor -> Prop).
#[local] Existing Instance ListCursorOps.
#[local] Existing Instance ListCursorLaws.

Record Follows : Prop := {
  fo_sorted c l : follows c l -> run_sorted user (lc_entries l);
  fo_readable c l : follows c l -> cur_error c = false;
  fo_valid c l : follows c l -> cur_valid c = bool_decide (is_Some (lc_position l));
  fo_entry c l e : follows c l -> lc_entry l = Some e -> cur_key c = e.1 /\ cur_value c = e.2;
  fo_next c l : follows c l -> follows (cur_next c) (cur_next (Cursor := ListCursorOps user) l);
  fo_prev c l : follows c l -> follows (cur_prev c) (cur_prev (Cursor := ListCursorOps user) l);
  fo_seek c l target : follows c l -> wellformed target -> follows (cur_seek target c) (cur_seek (Cursor := ListCursorOps user) target l);
  fo_seek_for_prev c l target : follows c l -> wellformed target -> follows (cur_seek_for_prev target c) (cur_seek_for_prev (Cursor := ListCursorOps user) target l);
  fo_first c l : follows c l -> follows (cur_seek_to_first c) (cur_seek_to_first (Cursor := ListCursorOps user) l);
  fo_last c l : follows c l -> follows (cur_seek_to_last c) (cur_seek_to_last (Cursor := ListCursorOps user) l) }.

Context (Hf : Follows).
Definition fo_over (c : C) (run : list entry) : Prop := exists l, follows c l /\ lc_over user l run.
Definition fo_at (d : Direction) (c : C) (run rest : list entry) : Prop := exists l, follows c l /\ lc_at user d l run rest.

#[local] Program Instance FollowLaws : CursorLaws user C := { cur_over := fo_over; cur_at := fo_at }.
Next Obligation. intros c run (l & _ & [_ Hw] & _). done. Qed.
Next Obligation. intros d c run rest (l & Hl & Ho & _). by exists l. Qed.
Next Obligation. intros d c run rest (l & Hl & Ha). exact (cur_at_rest (CursorLaws := ListCursorLaws user) d l run rest Ha). Qed.
Next Obligation. intros d c run rest (l & Hl & Ha). by eapply fo_readable. Qed.
Next Obligation. intros d c run rest (l & Hl & Ha). rewrite (fo_valid Hf c l Hl). exact (cur_at_valid (CursorLaws := ListCursorLaws user) d l run rest Ha). Qed.
Next Obligation.
  intros d c run e rest (l & Hl & Ha). destruct (cur_at_head (CursorLaws := ListCursorLaws user) d l run e rest Ha) as [Hk Hv]. pose proof (cur_at_valid (CursorLaws := ListCursorLaws user) d l run (e :: rest) Ha) as Hval. cbn in Hk, Hv, Hval. unfold lc_at in Ha. unfold lc_entry in *.
  destruct (lc_position l) as [p|] eqn:Ep; [|destruct Ha as [_ ?]; done]. destruct Ha as [[_ Hent] [Hlt _]]. cbn in Hk, Hv. destruct (lookup_lt_is_Some_2 run p Hlt) as [x Hx]. rewrite Hent, Hx in Hk, Hv. cbn in Hk, Hv.
  rewrite <- Hk, <- Hv. apply (fo_entry Hf c l x Hl). unfold lc_entry. by rewrite Ep, Hent.
Qed.
Next Obligation. intros c run rest (l & Hl & Ha). exists (cur_next (Cursor := ListCursorOps user) l). split; [by apply (fo_next Hf)|by apply (cur_next_law (CursorLaws := ListCursorLaws user) l)]. Qed.
Next Obligation. intros c run rest (l & Hl & Ha). exists (cur_prev (Cursor := ListCursorOps user) l). split; [by apply (fo_prev Hf)|by apply (cur_prev_law (CursorLaws := ListCursorLaws user) l)]. Qed.
Next Obligation. intros c run target (l & Hl & Ho) Ht. destruct (cur_seek_law (CursorLaws := ListCursorLaws user) l run target Ho Ht) as (rest & Ha & Hv). exists rest. split; [|done]. eexists. split; [by apply (fo_seek Hf)|done]. Qed.
Next Obligation. intros c run target (l & Hl & Ho) Ht. destruct (cur_seek_for_prev_law (CursorLaws := ListCursorLaws user) l run target Ho Ht) as (rest & Ha & Hv). exists rest. split; [|done]. eexists. split; [by apply (fo_seek_for_prev Hf)|done]. Qed.
Next Obligation. intros c run (l & Hl & Ho). destruct (cur_seek_to_first_law (CursorLaws := ListCursorLaws user) l run Ho) as (rest & Ha & Hv). exists rest. split; [|done]. eexists. split; [by apply (fo_first Hf)|done]. Qed.
Next Obligation. intros c run (l & Hl & Ho). destruct (cur_seek_to_last_law (CursorLaws := ListCursorLaws user) l run Ho) as (rest & Ha & Hv). exists rest. split; [|done]. eexists. split; [by apply (fo_last Hf)|done]. Qed.
Next Obligation. intros c run (l & Hl & Ha). eexists. split; [by apply (fo_next Hf)|by apply (cur_next_end (CursorLaws := ListCursorLaws user) l)]. Qed.
Next Obligation. intros c run (l & Hl & Ha). eexists. split; [by apply (fo_prev Hf)|by apply (cur_prev_end (CursorLaws := ListCursorLaws user) l)]. Qed.
Next Obligation. intros c run e rest (l & Hl & Ha) Hu. destruct (cur_next_turn (CursorLaws := ListCursorLaws user) l run e rest Ha Hu) as (rest' & Ha' & Hv). exists rest'. split; [|done]. eexists. split; [by apply (fo_next Hf)|done]. Qed.
Next Obligation. intros c run e rest (l & Hl & Ha) Hu. destruct (cur_prev_turn (CursorLaws := ListCursorLaws user) l run e rest Ha Hu) as (rest' & Ha' & Hv). exists rest'. split; [|done]. eexists. split; [by apply (fo_prev Hf)|done]. Qed.
End Follow.

(** ** Cursors over the same entries cannot be told apart *)

Inductive CursorOp := OpSeek (target : bytes) | OpSeekForPrev (target : bytes) | OpSeekToFirst | OpSeekToLast | OpNext | OpPrev.
Definition positions (op : CursorOp) : bool := match op with OpNext | OpPrev => false | _ => true end.
Definition op_target (op : CursorOp) : option bytes := match op with OpSeek t | OpSeekForPrev t => Some t | _ => None end.

Section Run.
Context {C : Type} `{!Cursor C}.
Definition cur_op (op : CursorOp) (c : C) : C :=
  match op with
  | OpSeek t => cur_seek t c
  | OpSeekForPrev t => cur_seek_for_prev t c
  | OpSeekToFirst => cur_seek_to_first c
  | OpSeekToLast => cur_seek_to_last c
  | OpNext => cur_next c
  | OpPrev => cur_prev c
  end.
(** What a caller sees: the entry under the cursor, if any. *)
Definition observe (c : C) : option entry := if cur_valid c then Some (cur_key c, cur_value c) else None.
Fixpoint observations (ops : list CursorOp) (c : C) : list (option entry) :=
  match ops with [] => [] | op :: ops => let c := cur_op op c in observe c :: observations ops c end.
End Run.

Section Simulation.
Context (user : Comparator) `{!ComparatorLaws user}.

(** [uniq] does not depend on the order of the list. *)
Definition distinct (a b : entry) : Prop := internal_cmp user a.1 b.1 <> Eq.
Lemma distinct_sym a b : distinct a b -> distinct b a.
Proof using All. unfold distinct. rewrite (internal_cmp_antisym user a.1 b.1). by destruct (internal_cmp user a.1 b.1). Qed.
Lemma uniq_distinct l : uniq user l <-> StronglySorted distinct l.
Proof using All.
  split.
  - induction l as [|e l IH]; intros Hu; constructor.
    + apply IH. intros i j a b Ha Hb E. specialize (Hu (S i) (S j) a b Ha Hb E). lia.
    + apply Forall_forall. intros x (j & Hj)%list_elem_of_lookup E. by specialize (Hu 0%nat (S j) e x eq_refl Hj E).
  - induction 1 as [|e l Hs IH Hall]; intros i j a b Ha Hb E; [done|]. rewrite Forall_forall in Hall. destruct i as [|i], j as [|j]; cbn in *; simplify_eq; try done.
    + exfalso. apply (Hall b); [by eapply list_elem_of_lookup_2|done].
    + exfalso. apply (distinct_sym b a); [apply Hall; by eapply list_elem_of_lookup_2|done].
    + f_equal. by eapply IH.
Qed.
Lemma distinct_perm l l' : l ≡ₚ l' -> StronglySorted distinct l -> StronglySorted distinct l'.
Proof using All.
  induction 1 as [|x l l' Hp IH|x y l|l1 l2 l3 _ IH1 _ IH2]; [done| | |by auto].
  - intros [Hs Hall]%StronglySorted_inv. constructor; [by apply IH|]. by rewrite <- Hp.
  - intros [[Hs Hx]%StronglySorted_inv Hy]%StronglySorted_inv. apply Forall_cons in Hy as [Hyx Hy]. constructor; [by constructor|]. constructor; [by apply distinct_sym|done].
Qed.
Lemma uniq_perm l l' : l ≡ₚ l' -> uniq user l -> uniq user l'.
Proof using All. rewrite !uniq_distinct. apply distinct_perm. Qed.
Lemma sorted_uniq l : run_sorted user l -> uniq user l.
Proof using All. intros [Hs _]. apply uniq_distinct. induction Hs as [|e l Hs IH Hall]; constructor; [done|]. eapply Forall_impl; [exact Hall|]. intros b. unfold entry_before, distinct. by intros ->. Qed.

(** Entries in order, without repetition, are determined by what they are. *)
Lemma towards_antisym d a b : towards user d a b -> towards user d b a -> internal_cmp user a.1 b.1 = Eq.
Proof using All. destruct d; cbn; unfold key_le; rewrite (internal_cmp_antisym user a.1 b.1); by destruct (internal_cmp user a.1 b.1). Qed.
Lemma in_order_unique d l l' : StronglySorted distinct l -> StronglySorted (towards user d) l -> StronglySorted (towards user d) l' -> l ≡ₚ l' -> l = l'.
Proof using All.
  intros Hu Hs. revert l' Hu. induction Hs as [|e l Hs IH Hall]; intros l' Hu Hs' Hp; [by apply Permutation_nil_l in Hp|].
  destruct Hs' as [|e' l' Hs' Hall']; [by apply Permutation_nil_r in Hp|]. apply StronglySorted_inv in Hu as [Hu Hdis].
  assert (e = e') as <-.
  { assert (e' ∈ e :: l) as He' by (rewrite Hp; left). assert (e ∈ e' :: l') as He by (rewrite <- Hp; left).
    apply elem_of_cons in He' as [->|He']; [done|]. apply elem_of_cons in He as [->|He]; [done|].
    rewrite Forall_forall in Hall, Hall', Hdis. exfalso. apply (Hdis e' He'). apply (towards_antisym d); [by apply Hall|by apply Hall']. }
  f_equal. apply IH; [done|done|]. by apply Permutation_cons_inv in Hp.
Qed.
Lemma sorted_filter {A} (R : A -> A -> Prop) (P : A -> Prop) `{!forall e, Decision (P e)} l : StronglySorted R l -> StronglySorted R (filter P l).
Proof using.
  induction 1 as [|e l Hs IH Hall]; [constructor|]. rewrite filter_cons. destruct (decide (P e)); [|done]. constructor; [done|].
  apply Forall_forall. intros x [_ Hx]%list_elem_of_filter. rewrite Forall_forall in Hall. by apply Hall.
Qed.
Lemma visits_unique d (P : entry -> Prop) `{!forall e, Decision (P e)} run run' rest rest' : uniq user run -> run ≡ₚ run' ->
  visits user d P run rest -> visits user d P run' rest' -> rest = rest'.
Proof using All.
  intros Hu Hr [Hs Hp] [Hs' Hp']. apply (in_order_unique d); [|done|done|by rewrite Hp, Hp', Hr].
  eapply distinct_perm; [symmetry; exact Hp|]. by apply sorted_filter, uniq_distinct.
Qed.

(** Over a sorted run there is one way to visit what lies past a bound. *)
Definition along (d : Direction) (P : entry -> Prop) `{!forall e, Decision (P e)} (run : list entry) : list entry :=
  match d with Forward => filter P run | Reverse => reverse (filter P run) end.
Lemma visits_along d (P : entry -> Prop) `{!forall e, Decision (P e)} run : run_sorted user run -> visits user d P run (along d P run).
Proof using.
  intros Hr%sorted_towards%(sorted_filter _ P). split; [|by destruct d; cbn; [|rewrite reverse_Permutation]]. destruct d; cbn; [done|]. by apply StronglySorted_reverse in Hr.
Qed.
Lemma visits_exact d (P : entry -> Prop) `{!forall e, Decision (P e)} run rest : run_sorted user run -> visits user d P run rest -> rest = along d P run.
Proof using All. intros Hr Hv. eapply visits_unique; [by apply sorted_uniq|done|exact Hv|by apply visits_along]. Qed.

Context {C C' : Type} `{!Cursor C} `{!Cursor C'} `{!CursorLaws user C} `{!CursorLaws user C'}.

(** Two cursors, each over its run, that have the same entries to visit. *)
Definition together (run run' : list entry) (c : C) (c' : C') : Prop :=
  exists d rest, cur_at d c run rest /\ cur_at d c' run' rest.

Lemma together_observe run run' (c : C) (c' : C') : together run run' c c' -> observe c = observe c'.
Proof using All.
  intros (d & rest & Hc & Hc'). unfold observe. rewrite (cur_at_valid _ _ _ _ Hc), (cur_at_valid _ _ _ _ Hc').
  destruct rest as [|e rest]; [done|]. by destruct (cur_at_head _ _ _ _ _ Hc) as [-> ->], (cur_at_head _ _ _ _ _ Hc') as [-> ->].
Qed.

Lemma together_position run run' op (c : C) (c' : C') : uniq user run -> run ≡ₚ run' -> from_option wellformed True (op_target op) -> positions op = true ->
  cur_over c run -> cur_over c' run' -> together run run' (cur_op op c) (cur_op op c').
Proof using All.
  intros Hu Hp Ht Hop Ho Ho'. destruct op as [t|t| | | |]; try done; cbn in *.
  - destruct (cur_seek_law c run t Ho Ht) as (r & Ha & Hv), (cur_seek_law c' run' t Ho' Ht) as (r' & Ha' & Hv').
    pose proof (visits_unique _ _ _ _ _ _ Hu Hp Hv Hv') as ->. by exists Forward, r'.
  - destruct (cur_seek_for_prev_law c run t Ho Ht) as (r & Ha & Hv), (cur_seek_for_prev_law c' run' t Ho' Ht) as (r' & Ha' & Hv').
    pose proof (visits_unique _ _ _ _ _ _ Hu Hp Hv Hv') as ->. by exists Reverse, r'.
  - destruct (cur_seek_to_first_law c run Ho) as (r & Ha & Hv), (cur_seek_to_first_law c' run' Ho') as (r' & Ha' & Hv').
    pose proof (visits_unique _ _ _ _ _ _ Hu Hp Hv Hv') as ->. by exists Forward, r'.
  - destruct (cur_seek_to_last_law c run Ho) as (r & Ha & Hv), (cur_seek_to_last_law c' run' Ho') as (r' & Ha' & Hv').
    pose proof (visits_unique _ _ _ _ _ _ Hu Hp Hv Hv') as ->. by exists Reverse, r'.
Qed.

Lemma together_move run run' op (c : C) (c' : C') : uniq user run -> run ≡ₚ run' -> positions op = false ->
  together run run' c c' -> together run run' (cur_op op c) (cur_op op c').
Proof using All.
  intros Hu Hp Hop (d & rest & Hc & Hc'). pose proof (uniq_perm _ _ Hp Hu) as Hu'. destruct op; try done; cbn; destruct d.
  - exists Forward, (tail rest). split; by apply cur_next_law.
  - destruct rest as [|e rest]; [exists Reverse, []; split; by apply cur_next_end|].
    destruct (cur_next_turn _ _ _ _ Hc Hu) as (r & Ha & Hv), (cur_next_turn _ _ _ _ Hc' Hu') as (r' & Ha' & Hv').
    pose proof (visits_unique _ _ _ _ _ _ Hu Hp Hv Hv') as ->. by exists Forward, r'.
  - destruct rest as [|e rest]; [exists Forward, []; split; by apply cur_prev_end|].
    destruct (cur_prev_turn _ _ _ _ Hc Hu) as (r & Ha & Hv), (cur_prev_turn _ _ _ _ Hc' Hu') as (r' & Ha' & Hv').
    pose proof (visits_unique _ _ _ _ _ _ Hu Hp Hv Hv') as ->. by exists Reverse, r'.
  - exists Reverse, (tail rest). split; by apply cur_prev_law.
Qed.

Lemma together_run run run' ops (c : C) (c' : C') : uniq user run -> run ≡ₚ run' -> Forall (fun op => from_option wellformed True (op_target op)) ops ->
  together run run' c c' -> observations ops c = observations ops c'.
Proof using All.
  intros Hu Hp Hops. revert c c'. induction Hops as [|op ops Hop _ IH]; intros c c' Ht; cbn; [done|].
  assert (together run run' (cur_op op c) (cur_op op c')) as Ht'.
  { destruct (positions op) eqn:E; [|by apply together_move]. destruct Ht as (d & rest & Hc & Hc'). apply together_position; try done; by eapply cur_at_over. }
  f_equal; [by eapply together_observe|by apply IH].
Qed.

(** Two cursors over the same entries, once positioned, answer alike. *)
Lemma cursor_simulation run run' op ops (c : C) (c' : C') : uniq user run -> run ≡ₚ run' -> positions op = true ->
  Forall (fun op => from_option wellformed True (op_target op)) (op :: ops) -> cur_over c run -> cur_over c' run' ->
  observations (op :: ops) c = observations (op :: ops) c'.
Proof using All.
  intros Hu Hp Hop [Ht Hops]%Forall_cons Ho Ho'. pose proof (together_position run run' op c c' Hu Hp Ht Hop Ho Ho') as Htog. cbn.
  f_equal; [by eapply together_observe|by eapply together_run].
Qed.
End Simulation.

(** ** Two runs of an example *)

Definition newer_run : list entry := [(internal_key [Byte.x61] 7 Put, [Byte.x07]); (internal_key [Byte.x62] 6 Delete, [])].
Definition older_run : list entry :=
  [(internal_key [Byte.x61] 4 Put, [Byte.x04]); (internal_key [Byte.x62] 2 Put, [Byte.x02]); (internal_key [Byte.x63] 3 Put, [Byte.x03])].
Definition both_runs : list entry :=
  [(internal_key [Byte.x61] 7 Put, [Byte.x07]); (internal_key [Byte.x61] 4 Put, [Byte.x04]); (internal_key [Byte.x62] 6 Delete, []);
   (internal_key [Byte.x62] 2 Put, [Byte.x02]); (internal_key [Byte.x63] 3 Put, [Byte.x03])].
Lemma newer_sorted : run_sorted BytewiseComparator newer_run.
Proof. sorted_run. Qed.
Lemma older_sorted : run_sorted BytewiseComparator older_run.
Proof. sorted_run. Qed.
Lemma both_sorted : run_sorted BytewiseComparator both_runs.
Proof. sorted_run. Qed.
