(* ===== verification/MergeCursor.v ===== *)
(** One cursor over several sorted ones (esker-engine/src/db/merge.rs): it visits
    what they visit, in order, and may be turned around. *)

From stdpp Require Import prelude sorting.
From Stdlib Require Import NArith ZArith Lia.
From S2P Require Import Prelude DbFormat RangeDel Lsm Cursor.

(** ** The cursor *)

Record MergeCursor (C : Type) := mkMerge {
  mg_children : list C;
  mg_current : option nat;
  mg_direction : Direction;
}.
Arguments mkMerge {C} _ _ _.
Arguments mg_children {C} _.
Arguments mg_current {C} _.
Arguments mg_direction {C} _.

Section Merge.
Context (user : Comparator) {C : Type} `{!Cursor C}.

Definition MergeCursor_new (children : list C) : MergeCursor C := mkMerge children None Forward.
Definition child_count (mc : MergeCursor C) : nat := length (mg_children mc).

(** One round of the search: a valid child that beats the best so far. *)
Definition better (wanted : comparison) (best : option (nat * C)) (candidate : nat * C) : option (nat * C) :=
  if negb (cur_valid candidate.2) then best else
  match best with
  | None => Some candidate
  | Some current => if decide (internal_cmp user (cur_key candidate.2) (cur_key current.2) = wanted) then Some candidate else best
  end.
Definition find_smallest (mc : MergeCursor C) : MergeCursor C :=
  mkMerge (mg_children mc) (fst <$> foldl (better Lt) None (imap pair (mg_children mc))) (mg_direction mc).
Definition find_largest (mc : MergeCursor C) : MergeCursor C :=
  mkMerge (mg_children mc) (fst <$> foldl (better Gt) None (reverse (imap pair (mg_children mc)))) (mg_direction mc).

Definition mg_child (mc : MergeCursor C) : option C := index ← mg_current mc; mg_children mc !! index.
Definition mg_valid (mc : MergeCursor C) : bool := bool_decide (is_Some (mg_current mc)).
Definition mg_key (mc : MergeCursor C) : bytes := from_option cur_key [] (mg_child mc).
Definition mg_value (mc : MergeCursor C) : bytes := from_option cur_value [] (mg_child mc).

(** Every child but the current one moves past the current key. *)
Definition face_forward (mc : MergeCursor C) : MergeCursor C :=
  match mg_current mc with
  | None => mc
  | Some current =>
      let key := mg_key mc in
      let face index child :=
        if decide (index = current) then child else
        let child := cur_seek key child in
        if cur_valid child && bool_decide (internal_cmp user (cur_key child) key = Eq) then cur_next child else child in
      mkMerge (imap face (mg_children mc)) (Some current) Forward
  end.
Definition face_backward (mc : MergeCursor C) : MergeCursor C :=
  match mg_current mc with
  | None => mc
  | Some current =>
      let key := mg_key mc in
      let face index child :=
        if decide (index = current) then child else
        let child := cur_seek_for_prev key child in
        if cur_valid child && bool_decide (internal_cmp user (cur_key child) key = Eq) then cur_prev child else child in
      mkMerge (imap face (mg_children mc)) (Some current) Reverse
  end.

Definition mg_seek (target : bytes) (mc : MergeCursor C) : MergeCursor C :=
  find_smallest (mkMerge (cur_seek target <$> mg_children mc) (mg_current mc) Forward).
Definition mg_seek_for_prev (target : bytes) (mc : MergeCursor C) : MergeCursor C :=
  find_largest (mkMerge (cur_seek_for_prev target <$> mg_children mc) (mg_current mc) Reverse).
Definition mg_seek_to_first (mc : MergeCursor C) : MergeCursor C :=
  find_smallest (mkMerge (cur_seek_to_first <$> mg_children mc) (mg_current mc) Forward).
Definition mg_seek_to_last (mc : MergeCursor C) : MergeCursor C :=
  find_largest (mkMerge (cur_seek_to_last <$> mg_children mc) (mg_current mc) Reverse).

Definition alter_current (f : C -> C) (mc : MergeCursor C) : MergeCursor C :=
  match mg_current mc with
  | Some index => mkMerge (alter f index (mg_children mc)) (mg_current mc) (mg_direction mc)
  | None => mc
  end.
Definition mg_next (mc : MergeCursor C) : MergeCursor C :=
  let mc := if decide (mg_direction mc = Forward) then mc else face_forward mc in
  find_smallest (alter_current cur_next mc).
Definition mg_prev (mc : MergeCursor C) : MergeCursor C :=
  let mc := if decide (mg_direction mc = Reverse) then mc else face_backward mc in
  find_largest (alter_current cur_prev mc).
Definition mg_error (mc : MergeCursor C) : bool := existsb cur_error (mg_children mc).

#[export] Instance MergeCursorOps : Cursor (MergeCursor C) := {
  cur_valid := mg_valid; cur_key := mg_key; cur_value := mg_value;
  cur_seek := mg_seek; cur_seek_for_prev := mg_seek_for_prev; cur_seek_to_first := mg_seek_to_first; cur_seek_to_last := mg_seek_to_last;
  cur_next := mg_next; cur_prev := mg_prev; cur_error := mg_error }.
End Merge.

(** ** Merging lists *)

Section MergeLists.
Context (user : Comparator) `{!ComparatorLaws user}.

Definition wanted (d : Direction) : comparison := match d with Forward => Lt | Reverse => Gt end.
Definition in_order {A} (d : Direction) (l : list A) : list A := match d with Forward => l | Reverse => reverse l end.

(** The search of [find_smallest] and [find_largest], on what the children
    have still to visit. *)
Definition pick_step (d : Direction) (best : option (nat * entry)) (candidate : nat * list entry) : option (nat * entry) :=
  match candidate.2 with
  | [] => best
  | e :: _ =>
      match best with
      | None => Some (candidate.1, e)
      | Some current => if decide (internal_cmp user e.1 current.2.1 = wanted d) then Some (candidate.1, e) else best
      end
  end.
Definition pick (d : Direction) (rests : list (list entry)) : option (nat * entry) :=
  foldl (pick_step d) None (in_order d (imap pair rests)).

Fixpoint merge_lists (d : Direction) (fuel : nat) (rests : list (list entry)) : list entry :=
  match fuel with
  | O => []
  | S fuel => match pick d rests with None => [] | Some (i, e) => e :: merge_lists d fuel (alter tail i rests) end
  end.
Definition merged (d : Direction) (rests : list (list entry)) : list entry := merge_lists d (length (mjoin rests)) rests.

Lemma towards_refl d e : towards user d e e.
Proof using All. destruct d; by apply key_le_refl. Qed.
Lemma not_wanted d (a b : entry) : internal_cmp user a.1 b.1 <> wanted d -> towards user d b a.
Proof using All. destruct d; cbn; [by rewrite not_lt_le by done|done]. Qed.
Lemma is_wanted d (a b : entry) : internal_cmp user a.1 b.1 = wanted d -> towards user d a b.
Proof using All. destruct d; cbn; unfold key_le; [by intros ->|]. rewrite (internal_cmp_antisym user a.1 b.1). by intros ->. Qed.

(** The best of the candidates seen so far. *)
Lemma pick_fold d (cands : list (nat * list entry)) best :
  Forall (fun c => Forall (fun e : entry => wellformed e.1) c.2) cands -> match best with Some (_, e) => wellformed e.1 | None => True end ->
  match foldl (pick_step d) best cands with
  | None => best = None /\ Forall (fun c => c.2 = []) cands
  | Some (i, e) => wellformed e.1 /\ (best = Some (i, e) \/ exists r, (i, e :: r) ∈ cands) /\
      (forall j e' r, (j, e' :: r) ∈ cands -> towards user d e e') /\ match best with Some (_, e') => towards user d e e' | None => True end
  end.
Proof using All.
  revert best; induction cands as [|[i r] cands IH]; intros best Hw Hb; cbn [foldl].
  { destruct best as [[i e]|]; [|by split]. split_and!; [done|by left|by intros ??? ?%not_elem_of_nil|apply towards_refl]. }
  apply Forall_cons in Hw as [Hr Hw]. cbn in Hr. destruct r as [|x r].
  { specialize (IH best Hw Hb). change (pick_step d best (i, [])) with best. destruct (foldl (pick_step d) best cands) as [[k e]|].
    - destruct IH as (? & Hor & Hall & ?). split_and!; [done| | |done].
      + destruct Hor as [|[r ?]]; [by left|right; exists r; by right].
      + intros j e' r' [[=]|Hin]%elem_of_cons. by eapply Hall.
    - destruct IH as [-> ?]. split; [done|by constructor]. }
  apply Forall_cons in Hr as [Hx _].
  assert (exists k y, pick_step d best (i, x :: r) = Some (k, y) /\ wellformed y.1 /\ towards user d y x /\
    (k = i /\ y = x \/ best = Some (k, y)) /\ match best with Some (_, e') => towards user d y e' | None => True end) as (k & y & -> & Hy & Hyx & Hor & Hyb).
  { destruct best as [[k y]|]; cbn.
    - destruct (decide _) as [E|E]; [exists i, x|exists k, y]; (split; [done|]); split_and!; try done; try (by apply towards_refl);
        [by left|by apply is_wanted|by apply not_wanted|by right].
    - exists i, x. split_and!; try done; [apply towards_refl|by left]. }
  specialize (IH (Some (k, y)) Hw Hy). destruct (foldl (pick_step d) (Some (k, y)) cands) as [[k' e]|]; [|by destruct IH].
  destruct IH as (He & Hor' & Hall & Hey). split_and!; [done| | |].
  - destruct Hor' as [[= <- <-]|[r' ?]]; [|right; exists r'; by right]. destruct Hor as [[-> ->]|]; [right; exists r; left|by left].
  - intros j e' r' [[= -> -> ->]|Hin]%elem_of_cons; [|by eapply Hall]. by apply (towards_trans user d e y x).
  - destruct best as [[kb eb]|]; [|done]. by apply (towards_trans user d e y eb).
Qed.

Lemma pick_spec d rests : Forall (Forall (fun e : entry => wellformed e.1)) rests ->
  match pick d rests with
  | None => Forall (fun r => r = []) rests
  | Some (i, e) => (exists r, rests !! i = Some (e :: r)) /\ forall j e' r, rests !! j = Some (e' :: r) -> towards user d e e'
  end.
Proof using All.
  intros Hw. unfold pick. assert (forall c, c ∈ in_order d (imap pair rests) <-> rests !! c.1 = Some c.2) as Hin.
  { intros [i r]. assert ((i, r) ∈ imap pair rests <-> rests !! i = Some r) as <-.
    { rewrite elem_of_lookup_imap. split; [intros (? & ? & [= -> ->] & ?); done|eauto]. }
    destruct d; cbn; [done|apply elem_of_reverse]. }
  pose proof (pick_fold d (in_order d (imap pair rests)) None) as Hf.
  destruct (foldl _ None (in_order d (imap pair rests))) as [[i e]|].
  - destruct Hf as (_ & Hor & Hall & _); [|done|].
    { apply Forall_forall. intros c Hc%Hin. rewrite Forall_forall in Hw. apply Hw. by eapply list_elem_of_lookup_2. }
    destruct Hor as [|[r Hr%Hin]]; [done|]. split; [by exists r|]. intros j e' r' Hj. apply (Hall j e' r'). by apply Hin.
  - destruct Hf as [_ Hall]; [|done|].
    { apply Forall_forall. intros c Hc%Hin. rewrite Forall_forall in Hw. apply Hw. by eapply list_elem_of_lookup_2. }
    apply Forall_lookup. intros i r Hr. rewrite Forall_forall in Hall. apply (Hall (i, r)). by apply Hin.
Qed.

Lemma join_alter_tail rests i (e : entry) r : rests !! i = Some (e :: r) -> mjoin rests ≡ₚ e :: mjoin (alter tail i rests).
Proof using.
  revert i; induction rests as [|r0 rests IH]; intros [|i]; cbn; try done; [by intros [= ->]|]. intros Hi. rewrite (IH _ Hi). symmetry. apply Permutation_middle.
Qed.

(** The merge visits everything once and in order. *)
Lemma merge_lists_spec d fuel rests : Forall (Forall (fun e : entry => wellformed e.1)) rests -> Forall (StronglySorted (towards user d)) rests ->
  (length (mjoin rests) <= fuel)%nat ->
  StronglySorted (towards user d) (merge_lists d fuel rests) /\ merge_lists d fuel rests ≡ₚ mjoin rests.
Proof using All.
  revert rests; induction fuel as [|fuel IH]; intros rests Hw Hs Hf; cbn.
  { destruct (mjoin rests); [split; [constructor|done]|cbn in Hf; lia]. }
  pose proof (pick_spec d rests Hw) as Hp. destruct (pick d rests) as [[i e]|].
  2:{ split; [constructor|]. assert (mjoin rests = []) as ->; [|done]. induction Hp as [|r rests -> Hp IHp]; [done|].
      inversion Hw; inversion Hs; subst. by apply IHp. }
  destruct Hp as [[r Hi] Hmin]. pose proof (join_alter_tail rests i e r Hi) as Hj.
  destruct (IH (alter tail i rests)) as [Hs' Hp'].
  - apply Forall_alter; [done|]. intros x Hx Hwx. destruct x; [done|]. by apply Forall_cons in Hwx as [_ ?].
  - apply Forall_alter; [done|]. intros x Hx Hsx. destruct x; [done|]. by apply StronglySorted_inv in Hsx as [? _].
  - apply Permutation_length in Hj. cbn in Hj. lia.
  - split; [|by rewrite Hj, Hp']. constructor; [done|]. rewrite Hp'. apply Forall_forall. intros x Hx.
    assert (x ∈ mjoin rests) as Hin by (rewrite Hj; by right). apply list_elem_of_join in Hin as (l & Hxl & Hl).
    apply list_elem_of_lookup in Hl as [j Hj']. destruct l as [|y l]; [by apply not_elem_of_nil in Hxl|].
    specialize (Hmin j y l Hj'). rewrite Forall_lookup in Hw, Hs. specialize (Hw _ _ Hj') as Hwl. specialize (Hs _ _ Hj'). specialize (Hw _ _ Hi).
    apply Forall_cons in Hw as [We _]. apply Forall_cons in Hwl as [Wy Hwl]. apply StronglySorted_inv in Hs as [_ Hs].
    apply elem_of_cons in Hxl as [->|Hxl]; [done|]. rewrite Forall_forall in Hwl, Hs. apply (towards_trans user d e y x); [done|done|by apply Hwl|done|by apply Hs].
Qed.
End MergeLists.

(** ** The merge keeps the promise *)

Section MergeLaws.
Context (user : Comparator) `{!ComparatorLaws user} {C : Type} `{Hops : !Cursor C} `{Hcur : !CursorLaws user C}.

(** Each child over its run, with what it has still to visit. *)
Definition child_at (d : Direction) (c : C) (pr : list entry * list entry) : Prop :=
  cur_at d c pr.1 pr.2 /\ StronglySorted (towards user d) pr.2.

Definition mg_over (mc : MergeCursor C) (run : list entry) : Prop :=
  exists runs, Forall2 cur_over (mg_children mc) runs /\ run = mjoin runs.
Definition mg_at (d : Direction) (mc : MergeCursor C) (run rest : list entry) : Prop :=
  exists prs, Forall2 (child_at d) (mg_children mc) prs /\ mg_direction mc = d /\
    mg_current mc = fst <$> pick user d (prs.*2) /\ run = mjoin (prs.*1) /\ rest = merged user d (prs.*2).

Lemma children_wf d cs prs : Forall2 (child_at d) cs prs -> Forall (Forall (fun e : entry => wellformed e.1)) (prs.*2).
Proof using All.
  intros Hc. induction Hc as [|c pr cs prs [Hat _] _ IH]; [constructor|]. cbn. constructor; [|done].
  pose proof (cur_at_rest _ _ _ _ Hat) as Hsub. apply cur_at_over, cur_over_wf in Hat. rewrite Forall_forall in Hat |- *. set_solver.
Qed.
Lemma children_sorted d cs prs : Forall2 (child_at d) cs prs -> Forall (StronglySorted (towards user d)) (prs.*2).
Proof using. intros Hc. induction Hc as [|c pr cs prs [_ Hs] _ IH]; [constructor|]. cbn. by constructor. Qed.
Lemma children_over d cs prs : Forall2 (child_at d) cs prs -> Forall2 cur_over cs (prs.*1).
Proof using. intros Hc. induction Hc as [|c pr cs prs [Hat _] _ IH]; [constructor|]. cbn. constructor; [by eapply cur_at_over|done]. Qed.

Lemma merged_pick d rests : Forall (Forall (fun e : entry => wellformed e.1)) rests ->
  merged user d rests = match pick user d rests with None => [] | Some (i, e) => e :: merged user d (alter tail i rests) end.
Proof using All.
  intros Hw. unfold merged. pose proof (pick_spec user d rests Hw) as Hp. destruct (pick user d rests) as [[i e]|] eqn:E.
  - destruct Hp as [[r Hi] _]. pose proof (Permutation_length (join_alter_tail rests i e r Hi)) as Hlen. cbn in Hlen. rewrite Hlen. cbn. by rewrite E.
  - destruct (length (mjoin rests)); [done|]. cbn. by rewrite E.
Qed.
Lemma merged_spec d rests : Forall (Forall (fun e : entry => wellformed e.1)) rests -> Forall (StronglySorted (towards user d)) rests ->
  StronglySorted (towards user d) (merged user d rests) /\ merged user d rests ≡ₚ mjoin rests.
Proof using All. intros Hw Hs. by apply merge_lists_spec. Qed.

(** The search over the children is the search over what they stand on. *)
Definition same_best (best : option (nat * C)) (best' : option (nat * entry)) : Prop :=
  match best, best' with
  | None, None => True
  | Some (i, c), Some (j, e) => i = j /\ cur_key c = e.1
  | _, _ => False
  end.
Lemma better_pick d cands cands' best best' : same_best best best' ->
  Forall2 (fun (c : nat * C) c' => c.1 = c'.1 /\ exists run, cur_at d c.2 run c'.2) cands cands' ->
  same_best (foldl (better user (wanted d)) best cands) (foldl (pick_step user d) best' cands').
Proof using All.
  intros Hb Hc. revert best best' Hb. induction Hc as [|[i c] [j r] cands cands' [Hij [run Hat]] _ IH]; intros best best' Hb; [done|].
  cbn in Hij. subst j. cbn [foldl]. apply IH. unfold better, pick_step. cbn [fst snd] in *. rewrite (cur_at_valid _ _ _ _ Hat).
  destruct r as [|e r]; [done|]. rewrite bool_decide_false by done. cbn. destruct (cur_at_head _ _ _ _ _ Hat) as [Ek _].
  destruct best as [[k b]|], best' as [[k' b']|]; try done. destruct Hb as [-> Eb]. cbn. rewrite Ek, Eb. by destruct (decide _).
Qed.
Lemma find_pick d cs prs : Forall2 (child_at d) cs prs ->
  fst <$> foldl (better user (wanted d)) None (in_order d (imap pair cs)) = fst <$> pick user d (prs.*2).
Proof using All.
  intros Hc. assert (Forall2 (fun (c : nat * C) c' => c.1 = c'.1 /\ exists run, cur_at d c.2 run c'.2) (imap pair cs) (imap pair (prs.*2))) as Hf.
  { apply Forall2_same_length_lookup_2; [by rewrite !length_imap, length_fmap, (Forall2_length _ _ _ Hc)|].
    intros i [j c] [j' r] H1 H2. apply list_lookup_imap_Some in H1 as (c0 & E1 & [= -> ->]), H2 as (r0 & E2 & [= -> ->]).
    apply list_lookup_fmap_Some in E2 as (pr & -> & E2). split; [done|].
    destruct (Forall2_lookup_lr _ _ _ _ _ _ Hc E1 E2) as [Hat _]. by exists pr.1. }
  assert (same_best (foldl (better user (wanted d)) None (in_order d (imap pair cs))) (pick user d (prs.*2))) as Hb.
  { apply better_pick; [done|]. destruct d; cbn; [done|by apply Forall2_reverse]. }
  destruct (foldl _ None _) as [[i c]|], (pick user d (prs.*2)) as [[j e]|]; try done. by destruct Hb as [-> _].
Qed.

Lemma find_at d cs prs current : Forall2 (child_at d) cs prs ->
  mg_at d (match d with Forward => find_smallest user (mkMerge cs current d) | Reverse => find_largest user (mkMerge cs current d) end)
    (mjoin (prs.*1)) (merged user d (prs.*2)).
Proof using All. intros Hc. exists prs. destruct d; (split_and!; [done|done| |done|done]); by apply (find_pick _ _ _ Hc). Qed.

(** Moving every child. *)
Lemma move_children (P : C -> list entry -> Prop) (Q : C -> list entry * list entry -> Prop) f cs runs :
  Forall2 P cs runs -> (forall c run, P c run -> exists rest, Q (f c) (run, rest)) ->
  exists prs, Forall2 Q (f <$> cs) prs /\ (prs.*1) = runs.
Proof using.
  intros Hc Hf. induction Hc as [|c run cs runs Hp _ (prs & Hq & Hr)]; [exists []; by split|].
  destruct (Hf c run Hp) as [rest Hq']. exists ((run, rest) :: prs). cbn. rewrite Hr. split; [by constructor|done].
Qed.
Lemma join_filter (P : entry -> Prop) `{!forall e, Decision (P e)} (prs : list (list entry * list entry)) :
  Forall (fun pr => pr.2 ≡ₚ filter P pr.1) prs -> mjoin (prs.*2) ≡ₚ filter P (mjoin (prs.*1)).
Proof using. induction 1 as [|pr prs Hp _ IH]; [done|]. cbn. by rewrite filter_app, Hp, IH. Qed.

(** The children moved to one side of a bound, the merge is there too. *)
Lemma find_visits d (P : entry -> Prop) `{!forall e, Decision (P e)} cs prs current :
  Forall2 (fun c pr => cur_at d c pr.1 pr.2 /\ visits user d P pr.1 pr.2) cs prs ->
  exists rest, mg_at d (match d with Forward => find_smallest user (mkMerge cs current d) | Reverse => find_largest user (mkMerge cs current d) end) (mjoin (prs.*1)) rest /\
    visits user d P (mjoin (prs.*1)) rest.
Proof using All.
  intros Hc. assert (Forall2 (child_at d) cs prs) as Hat by (eapply Forall2_impl; [exact Hc|]; intros c pr [? [? _]]; by split).
  exists (merged user d (prs.*2)). split; [by apply find_at|]. destruct (merged_spec d (prs.*2)) as [Hs Hp]; [by eapply children_wf|by eapply children_sorted|].
  split; [done|]. rewrite Hp. apply join_filter. clear -Hc. induction Hc as [|c pr cs prs [_ [_ Hp]] _ IH]; by constructor.
Qed.

Definition find_best (d : Direction) (mc : MergeCursor C) : MergeCursor C :=
  match d with Forward => find_smallest user mc | Reverse => find_largest user mc end.

Lemma alter_fst i (prs : list (list entry * list entry)) : (alter (fun pr => (pr.1, tail pr.2)) i prs).*1 = prs.*1.
Proof using.
  apply list_eq. intros k. rewrite !list_lookup_fmap. destruct (decide (i = k)) as [->|]; [rewrite list_lookup_alter_eq; by destruct (prs !! k)|by rewrite list_lookup_alter_ne].
Qed.
Lemma alter_snd i (prs : list (list entry * list entry)) : (alter (fun pr => (pr.1, tail pr.2)) i prs).*2 = alter tail i (prs.*2).
Proof using.
  apply list_eq. intros k. rewrite list_lookup_fmap. destruct (decide (i = k)) as [->|].
  - rewrite !list_lookup_alter_eq, list_lookup_fmap. by destruct (prs !! k).
  - by rewrite !list_lookup_alter_ne, list_lookup_fmap.
Qed.

(** One step of the child the merge stands on is one step of the merge. *)
Lemma step_at d f mc run rest : (forall c run rest, cur_at d c run rest -> cur_at d (f c) run (tail rest)) ->
  mg_at d mc run rest -> mg_at d (find_best d (alter_current f mc)) run (tail rest).
Proof using All.
  intros Hf (prs & Hc & Hd & Hcur' & -> & ->). destruct mc as [cs current d0]. cbn in *. subst d0.
  rewrite (merged_pick d (prs.*2)) by by eapply children_wf. unfold alter_current. cbn.
  destruct (pick user d (prs.*2)) as [[i e]|] eqn:Ep; cbn in Hcur'; subst current; cbn.
  - assert (Forall2 (child_at d) (alter f i cs) (alter (fun pr => (pr.1, tail pr.2)) i prs)) as Hc'.
    { apply Forall2_alter; [done|]. intros c pr _ _ [Hat Hs]. split; [by apply Hf|]. cbn. destruct pr.2; [done|]. by apply StronglySorted_inv in Hs as [? _]. }
    rewrite <- (alter_fst i prs), <- (alter_snd i prs).
    pose proof (find_at d _ _ (Some i) Hc') as Hm. by destruct d.
  - pose proof (find_at d _ _ None Hc) as Hm. rewrite (merged_pick d (prs.*2)), Ep in Hm by by eapply children_wf. by destruct d.
Qed.

(** Where the entries of one child are in the whole. *)
Lemma join_cons {A} (l : list A) runs : mjoin (l :: runs) = l ++ mjoin runs.
Proof using. done. Qed.
Lemma join_lookup {A} (runs : list (list A)) k l j x : runs !! k = Some l -> l !! j = Some x -> mjoin runs !! (length (mjoin (take k runs)) + j)%nat = Some x.
Proof using.
  revert k; induction runs as [|l0 runs IH]; intros [|k]; try done; rewrite join_cons.
  - intros [= ->] Hj. by rewrite lookup_app_l by by eapply lookup_lt_Some.
  - intros Hk Hj. rewrite firstn_cons, join_cons, length_app, lookup_app_r, <- Nat.add_assoc, Nat.add_comm, Nat.add_sub by lia. by apply IH.
Qed.
Lemma join_offset {A} (runs : list (list A)) k k' l : (k < k')%nat -> runs !! k = Some l -> (length (mjoin (take k runs)) + length l <= length (mjoin (take k' runs)))%nat.
Proof using.
  revert k k'; induction runs as [|l0 runs IH]; intros [|k] [|k'] Hlt; try done; try lia; rewrite !firstn_cons, ?join_cons, ?length_app.
  - intros [= ->]. cbn. lia.
  - intros Hk. specialize (IH k k' ltac:(lia) Hk). lia.
Qed.
Lemma uniq_child (runs : list (list entry)) k l : uniq user (mjoin runs) -> runs !! k = Some l -> uniq user l.
Proof using.
  intros Hu Hk i j a b Ha Hb E. pose proof (Hu _ _ _ _ (join_lookup _ _ _ _ _ Hk Ha) (join_lookup _ _ _ _ _ Hk Hb) E). lia.
Qed.
Lemma uniq_apart (runs : list (list entry)) k k' l l' (a b : entry) : uniq user (mjoin runs) -> runs !! k = Some l -> runs !! k' = Some l' -> k <> k' -> a ∈ l -> b ∈ l' ->
  internal_cmp user a.1 b.1 <> Eq.
Proof using.
  intros Hu Hk Hk' Hne (i & Ha)%list_elem_of_lookup (j & Hb)%list_elem_of_lookup E.
  pose proof (Hu _ _ _ _ (join_lookup _ _ _ _ _ Hk Ha) (join_lookup _ _ _ _ _ Hk' Hb) E) as Heq.
  apply lookup_lt_Some in Ha, Hb. destruct (Nat.lt_total k k') as [H|[H|H]]; [|done|].
  - pose proof (join_offset runs k k' l H Hk). lia.
  - pose proof (join_offset runs k' k l' H Hk'). lia.
Qed.

Lemma filter_elem_iff {A} (P Q : A -> Prop) `{!forall e, Decision (P e)} `{!forall e, Decision (Q e)} (l : list A) :
  (forall e, e ∈ l -> P e <-> Q e) -> filter P l = filter Q l.
Proof using.
  induction l as [|x l IH]; [done|]. intros HPQ. rewrite !filter_cons, IH by (intros; apply HPQ; by right).
  destruct (decide (P x)) as [Hp|Hp], (decide (Q x)) as [Hq|Hq]; try done; exfalso; apply Hp || apply Hq; apply HPQ; [left|done|left|done].
Qed.
(** A child that does not hold the current key is past it once it has sought it. *)
Lemma visits_ext d (P Q : entry -> Prop) `{!forall e, Decision (P e)} `{!forall e, Decision (Q e)} run rest :
  (forall e, e ∈ run -> P e <-> Q e) -> visits user d P run rest -> visits user d Q run rest.
Proof using. intros HPQ [Hs Hp]. split; [done|]. rewrite Hp. by rewrite (filter_elem_iff P Q run). Qed.

(** Turning around: every other child seeks the current key, which it does not
    hold, and the current child is stepped. *)
Definition faced (d : Direction) (key : bytes) (c : C) : C :=
  let c := match d with Forward => cur_seek key c | Reverse => cur_seek_for_prev key c end in
  if cur_valid c && bool_decide (internal_cmp user (cur_key c) key = Eq) then match d with Forward => cur_next c | Reverse => cur_prev c end else c.
Definition opposite (d : Direction) : Direction := match d with Forward => Reverse | Reverse => Forward end.
Definition past (d : Direction) (e x : entry) : Prop := internal_cmp user x.1 e.1 = wanted (opposite d).
#[local] Instance past_dec d e x : Decision (past d e x).
Proof. unfold past. apply _. Defined.

Lemma faced_visits d c run e : cur_over c run -> wellformed e.1 -> (forall x, x ∈ run -> internal_cmp user x.1 e.1 <> Eq) ->
  exists rest, cur_at d (faced d e.1 c) run rest /\ visits user d (past d e) run rest.
Proof using All.
  intros Ho He Hne. set (c' := match d with Forward => cur_seek e.1 c | Reverse => cur_seek_for_prev e.1 c end).
  assert (exists rest, cur_at d c' run rest /\ visits user d (past d e) run rest) as (rest & Hat & Hv).
  { subst c'. destruct d.
    - destruct (cur_seek_law c run e.1 Ho He) as (rest & Hat & Hv). exists rest. split; [done|]. eapply visits_ext; [|exact Hv].
      intros x Hx. specialize (Hne x Hx). unfold past. cbn. by destruct (internal_cmp user x.1 e.1).
    - destruct (cur_seek_for_prev_law c run e.1 Ho He) as (rest & Hat & Hv). exists rest. split; [done|]. eapply visits_ext; [|exact Hv].
      intros x Hx. specialize (Hne x Hx). unfold past. cbn. by destruct (internal_cmp user x.1 e.1). }
  exists rest. split; [|done]. unfold faced. fold c'. cbn zeta. destruct (cur_valid c') eqn:Ev; [|done]. cbn.
  rewrite bool_decide_false; [done|]. rewrite (cur_at_valid _ _ _ _ Hat) in Ev. destruct rest as [|x rest]; [done|].
  destruct (cur_at_head _ _ _ _ _ Hat) as [-> _]. apply Hne, (cur_at_rest _ _ _ _ Hat). left.
Qed.

Lemma choose_rests (Q : C -> list entry * list entry -> Prop) cs runs : Forall2 (fun c run => exists rest, Q c (run, rest)) cs runs ->
  exists prs, Forall2 Q cs prs /\ (prs.*1) = runs.
Proof using. intros Hc. destruct (move_children _ Q id cs runs Hc) as (prs & Hq & Hr); [done|]. rewrite list_fmap_id in Hq. by exists prs. Qed.

(** The child a merge stands on. *)
Lemma at_current d mc run e rest : mg_at d mc run (e :: rest) ->
  exists prs i c r, Forall2 (child_at d) (mg_children mc) prs /\ run = mjoin (prs.*1) /\ mg_current mc = Some i /\ mg_children mc !! i = Some c /\
    prs !! i = Some (r, e :: tail (default [] ((prs.*2) !! i))) /\ cur_at d c r (e :: tail (default [] ((prs.*2) !! i))).
Proof using All.
  intros (prs & Hc & Hd & Hcur' & -> & Hrest). rewrite merged_pick in Hrest by by eapply children_wf.
  pose proof (pick_spec user d (prs.*2) ltac:(by eapply children_wf)) as Hp. destruct (pick user d (prs.*2)) as [[i e0]|]; [|done].
  injection Hrest as <- _. destruct Hp as [[l Hi] _]. apply list_lookup_fmap_Some in Hi as Hi'. destruct Hi' as ([r l'] & El & Hpr). cbn in El. subst l'.
  destruct (Forall2_lookup_r _ _ _ _ _ Hc Hpr) as (c & Hci & [Hat _]). exists prs, i, c, r. rewrite Hi. cbn. by split_and!.
Qed.

Lemma turn_at d step mc run e rest i :
  (forall c run e rest, cur_at (opposite d) c run (e :: rest) -> uniq user run -> exists rest', cur_at d (step c) run rest' /\ visits user d (past d e) run rest') ->
  mg_at (opposite d) mc run (e :: rest) -> uniq user run -> mg_current mc = Some i ->
  mg_key mc = e.1 /\
  exists rest', mg_at d (find_best d (alter_current step (mkMerge (imap (fun index c => if decide (index = i) then c else faced d e.1 c) (mg_children mc)) (Some i) d))) run rest' /\
    visits user d (past d e) run rest'.
Proof using All.
  intros Hstep Hat Hu Hi. destruct (at_current _ _ _ _ _ Hat) as (prs & i' & c & r & Hc & -> & Hi' & Hci & Hpr & Hcat). rewrite Hi in Hi'. injection Hi' as <-.
  split. { unfold mg_key, mg_child. rewrite Hi. cbn. rewrite Hci. cbn. by apply (cur_at_head _ _ _ _ _ Hcat). }
  assert ((prs.*1) !! i = Some r) as Hri by by rewrite list_lookup_fmap, Hpr.
  assert (e ∈ r) as Her by (apply (cur_at_rest _ _ _ _ Hcat); left).
  assert (wellformed e.1) as He by (apply cur_at_over, cur_over_wf in Hcat; rewrite Forall_forall in Hcat; by apply Hcat).
  unfold alter_current. cbn. set (cs' := alter step i _).
  destruct (choose_rests (fun c pr => cur_at d c pr.1 pr.2 /\ visits user d (past d e) pr.1 pr.2) cs' (prs.*1)) as (prs' & Hc' & Hruns).
  { apply Forall2_same_length_lookup_2; [unfold cs'; by rewrite length_alter, length_imap, length_fmap, (Forall2_length _ _ _ Hc)|].
    intros k c0 run0 Hk Hrun. unfold cs' in Hk. destruct (decide (k = i)) as [->|Hne].
    - rewrite list_lookup_alter_eq, list_lookup_imap, Hci in Hk. cbn in Hk. rewrite decide_True in Hk by done. injection Hk as <-.
      rewrite Hri in Hrun. injection Hrun as <-. cbn [fst snd]. eapply Hstep; [exact Hcat|]. by eapply uniq_child.
    - rewrite list_lookup_alter_ne, list_lookup_imap in Hk by done. destruct (mg_children mc !! k) as [ck|] eqn:Eck; [|done]. cbn in Hk.
      rewrite decide_False in Hk by done. injection Hk as <-. cbn [fst snd]. apply faced_visits; [|done|].
      + apply children_over in Hc. by eapply Forall2_lookup_lr.
      + intros x Hx. by eapply (uniq_apart _ k i). }
  rewrite <- Hruns. destruct (find_visits d (past d e) cs' prs' (Some i) Hc') as (rest' & Hm & Hv). exists rest'. split; [|done]. by destruct d.
Qed.

Lemma face_forward_eq mc i : mg_current mc = Some i ->
  face_forward user mc = mkMerge (imap (fun index c => if decide (index = i) then c else faced Forward (mg_key mc) c) (mg_children mc)) (Some i) Forward.
Proof using. intros Hi. unfold face_forward. by rewrite Hi. Qed.
Lemma face_backward_eq mc i : mg_current mc = Some i ->
  face_backward user mc = mkMerge (imap (fun index c => if decide (index = i) then c else faced Reverse (mg_key mc) c) (mg_children mc)) (Some i) Reverse.
Proof using. intros Hi. unfold face_backward. by rewrite Hi. Qed.

Lemma at_end d mc run : mg_at d mc run [] -> mg_current mc = None /\ mg_direction mc = d /\ mg_at d (find_best d mc) run [].
Proof using All.
  intros (prs & Hc & Hd & Hcur' & -> & Hrest). pose proof Hrest as Hr. rewrite merged_pick in Hr by by eapply children_wf.
  destruct (pick user d (prs.*2)) as [[i e]|] eqn:Ep; [done|]. split_and!; [done|done|]. rewrite Hrest.
  pose proof (find_at d _ _ (mg_current mc) Hc) as Hm. destruct mc; cbn in *; subst. by destruct d.
Qed.

(** A search at the end finds nothing, in either direction. *)
Lemma find_none d d' mc run : mg_at d mc run [] -> mg_current (find_best d' mc) = None.
Proof using All.
  intros (prs & Hc & _ & _ & -> & Hrest). rewrite merged_pick in Hrest by by eapply children_wf.
  pose proof (pick_spec user d (prs.*2) ltac:(by eapply children_wf)) as Hp. destruct (pick user d (prs.*2)) as [[i e]|]; [done|]. clear Hrest.
  assert (Forall (fun c => cur_valid c = false) (mg_children mc)) as Hinv.
  { clear -Hc Hp. induction Hc as [|c pr cs prs [Hat _] _ IH]; [constructor|]. cbn in Hp. apply Forall_cons in Hp as [Hr Hp].
    constructor; [|by apply IH]. rewrite (cur_at_valid _ _ _ _ Hat), Hr. done. }
  assert (forall w (cands : list (nat * C)), Forall (fun c => cur_valid c.2 = false) cands -> foldl (better user w) None cands = None) as Hfold.
  { intros w cands. induction 1 as [|c cands Hv _ IH]; [done|]. cbn. unfold better at 2. by rewrite Hv. }
  assert (Forall (fun c : nat * C => cur_valid c.2 = false) (imap pair (mg_children mc))) as Hi.
  { apply Forall_forall. intros c (i & c0 & -> & Hl)%elem_of_lookup_imap. rewrite Forall_lookup in Hinv. by apply (Hinv i). }
  destruct d'; cbn; rewrite Hfold; try done. by apply Forall_reverse.
Qed.

#[export] Program Instance MergeCursorLaws : CursorLaws (Cursor0 := MergeCursorOps user) user (MergeCursor C) := { cur_over := mg_over; cur_at := mg_at }.
Next Obligation.
  intros mc run (runs & Hc & ->). induction Hc as [|c r cs runs Ho _ IH]; [constructor|]. rewrite join_cons. apply Forall_app. split; [by eapply cur_over_wf|done].
Qed.
Next Obligation. intros d mc run rest (prs & Hc & _ & _ & -> & _). exists (prs.*1). split; [by eapply children_over|done]. Qed.
Next Obligation.
  intros d mc run rest (prs & Hc & _ & _ & -> & ->) e He. destruct (merged_spec d (prs.*2)) as [_ Hp]; [by eapply children_wf|by eapply children_sorted|].
  rewrite Hp in He. clear Hp. induction Hc as [|c pr cs prs [Hat _] _ IH]; [done|]. cbn [fmap list_fmap] in *. rewrite join_cons in *.
  apply elem_of_app in He as [He|He]; apply elem_of_app; [left; by eapply cur_at_rest|right; by apply IH].
Qed.
Next Obligation.
  intros d mc run rest (prs & Hc & _). cbn. unfold mg_error. induction Hc as [|c pr cs prs [Hat _] _ IH]; [done|]. cbn. by rewrite (cur_at_readable _ _ _ _ Hat).
Qed.
Next Obligation.
  intros d mc run rest (prs & Hc & _ & Hi & _ & ->). cbn. unfold mg_valid. rewrite Hi, merged_pick by by eapply children_wf. by destruct (pick user d (prs.*2)) as [[i e]|].
Qed.
Next Obligation.
  intros d mc run e rest Hat. destruct (at_current _ _ _ _ _ Hat) as (prs & i & c & r & _ & _ & Hi & Hci & _ & Hcat).
  cbn. unfold mg_key, mg_value, mg_child. rewrite Hi. cbn. rewrite Hci. cbn. by apply (cur_at_head _ _ _ _ _ Hcat).
Qed.
Next Obligation.
  intros mc run rest Hat. pose proof Hat as (_ & _ & Hd & _). cbn. unfold mg_next. rewrite decide_True by done. apply (step_at Forward cur_next); [|done]. intros. by apply cur_next_law.
Qed.
Next Obligation.
  intros mc run rest Hat. pose proof Hat as (_ & _ & Hd & _). cbn. unfold mg_prev. rewrite decide_True by done. apply (step_at Reverse cur_prev); [|done]. intros. by apply cur_prev_law.
Qed.
Next Obligation.
  intros mc run target (runs & Hc & ->) Ht. cbn. unfold mg_seek.
  destruct (move_children _ (fun c pr => cur_at Forward c pr.1 pr.2 /\ visits user Forward (fun e => internal_cmp user e.1 target <> Lt) pr.1 pr.2) (cur_seek target) _ _ Hc) as (prs & Hp & <-).
  { intros c r Ho. cbn [fst snd]. by apply cur_seek_law. }
  by apply (find_visits Forward).
Qed.
Next Obligation.
  intros mc run target (runs & Hc & ->) Ht. cbn. unfold mg_seek_for_prev.
  destruct (move_children _ (fun c pr => cur_at Reverse c pr.1 pr.2 /\ visits user Reverse (fun e => internal_cmp user e.1 target <> Gt) pr.1 pr.2) (cur_seek_for_prev target) _ _ Hc) as (prs & Hp & <-).
  { intros c r Ho. cbn [fst snd]. by apply cur_seek_for_prev_law. }
  by apply (find_visits Reverse).
Qed.
Next Obligation.
  intros mc run (runs & Hc & ->). cbn. unfold mg_seek_to_first.
  destruct (move_children _ (fun c pr => cur_at Forward c pr.1 pr.2 /\ visits user Forward (fun _ => True) pr.1 pr.2) cur_seek_to_first _ _ Hc) as (prs & Hp & <-).
  { intros c r Ho. cbn [fst snd]. by apply cur_seek_to_first_law. }
  by apply (find_visits Forward).
Qed.
Next Obligation.
  intros mc run (runs & Hc & ->). cbn. unfold mg_seek_to_last.
  destruct (move_children _ (fun c pr => cur_at Reverse c pr.1 pr.2 /\ visits user Reverse (fun _ => True) pr.1 pr.2) cur_seek_to_last _ _ Hc) as (prs & Hp & <-).
  { intros c r Ho. cbn [fst snd]. by apply cur_seek_to_last_law. }
  by apply (find_visits Reverse).
Qed.
Next Obligation.
  intros mc run Hat. destruct (at_end _ _ _ Hat) as (Hi & Hd & Hm). cbn. unfold mg_next. rewrite decide_False by by rewrite Hd.
  unfold face_forward. rewrite Hi. unfold alter_current. rewrite Hi. pose proof (find_none _ Forward _ _ Hat) as Hn.
  destruct Hat as (prs & Hc & _ & Hcur' & -> & Hrest). exists prs. rewrite Hi in Hcur'. by split_and!; [|cbn|rewrite <- Hcur'| |].
Qed.
Next Obligation.
  intros mc run Hat. destruct (at_end _ _ _ Hat) as (Hi & Hd & Hm). cbn. unfold mg_prev. rewrite decide_False by by rewrite Hd.
  unfold face_backward. rewrite Hi. unfold alter_current. rewrite Hi. pose proof (find_none _ Reverse _ _ Hat) as Hn.
  destruct Hat as (prs & Hc & _ & Hcur' & -> & Hrest). exists prs. rewrite Hi in Hcur'. by split_and!; [|cbn|rewrite <- Hcur'| |].
Qed.
Next Obligation.
  intros mc run e rest Hat Hu. destruct (at_current _ _ _ _ _ Hat) as (prs & i & c & r & _ & _ & Hi & _).
  destruct (turn_at Forward cur_next mc run e rest i) as [Hkey Hturn]; [|done..|]; [intros; by eapply cur_next_turn|].
  cbn. unfold mg_next. destruct Hat as (_ & _ & Hd & _). rewrite decide_False by by rewrite Hd. by rewrite (face_forward_eq _ _ Hi), Hkey.
Qed.
Next Obligation.
  intros mc run e rest Hat Hu. destruct (at_current _ _ _ _ _ Hat) as (prs & i & c & r & _ & _ & Hi & _).
  destruct (turn_at Reverse cur_prev mc run e rest i) as [Hkey Hturn]; [|done..|]; [intros; by eapply cur_prev_turn|].
  cbn. unfold mg_prev. destruct Hat as (_ & _ & Hd & _). rewrite decide_False by by rewrite Hd. by rewrite (face_backward_eq _ _ Hi), Hkey.
Qed.
End MergeLaws.

(** C19: a [MergeCursor] over children that each read a run is
    indistinguishable from one cursor over the sorted union of the runs: for
    every positioning call followed by any interleaving of seeks, [next] and
    [prev] (turning around included), the entry it stands on after each call is
    the one the reference cursor stands on. *)
Theorem merge_cursor_refines (user : Comparator) `{!ComparatorLaws user} {C : Type} `{!Cursor C} `{!CursorLaws user C}
    (children : list C) (runs : list (list entry)) (union : list entry) (op : CursorOp) (ops : list CursorOp) :
  Forall2 cur_over children runs -> run_sorted user union -> union ≡ₚ mjoin runs ->
  positions op = true -> Forall (fun op => from_option wellformed True (op_target op)) (op :: ops) ->
  observations (Cursor0 := MergeCursorOps user) (op :: ops) (MergeCursor_new children) =
  observations (Cursor0 := ListCursorOps user) (op :: ops) (mkListCursor union None).
Proof.
  intros Hc Hs Hp Hop Hops.
  apply (cursor_simulation user (CursorLaws0 := MergeCursorLaws user) (CursorLaws1 := ListCursorLaws user) (mjoin runs) union); try done.
  - apply (uniq_perm user _ _ Hp). by apply sorted_uniq.
  - by exists runs.
Qed.

Definition two_children : list ListCursor := [mkListCursor newer_run None; mkListCursor older_run None].
Lemma two_children_over : Forall2 (cur_over (Cursor0 := ListCursorOps BytewiseComparator) (CursorLaws := ListCursorLaws BytewiseComparator)) two_children [newer_run; older_run].
Proof. constructor; [split; [apply newer_sorted|done]|]. constructor; [split; [apply older_sorted|done]|constructor]. Qed.

Lemma merge_cursor_refines_witness :
  observations (Cursor0 := MergeCursorOps (Cursor0 := ListCursorOps BytewiseComparator) BytewiseComparator)
    [OpSeek (internal_key [Byte.x61] 5 Put); OpNext; OpPrev; OpPrev; OpPrev] (MergeCursor_new two_children) =
  [Some (internal_key [Byte.x61] 4 Put, [Byte.x04]); Some (internal_key [Byte.x62] 6 Delete, []); Some (internal_key [Byte.x61] 4 Put, [Byte.x04]);
   Some (internal_key [Byte.x61] 7 Put, [Byte.x07]); None].
Proof.
  rewrite (merge_cursor_refines BytewiseComparator (CursorLaws0 := ListCursorLaws BytewiseComparator) two_children [newer_run; older_run] both_runs).
  - vm_compute. reflexivity.
  - apply two_children_over.
  - apply both_sorted.
  - apply perm_skip, perm_swap.
  - reflexivity.
  - constructor; [by exists [Byte.x61], 5%N, Put|]. repeat constructor.
Defined.
