(* ===== verification/Levels.v ===== *)
(** The files of a column family, level by level, and the choice of what to
    compact (esker-engine/src/version/mod.rs, version/builder.rs and
    compaction/picker.rs). *)

From stdpp Require Import prelude sorting gmap.
From Stdlib Require Import NArith ZArith Lia.
From S2P Require Import Prelude DbFormat RangeDel.

(** ** Versions *)

Inductive FileLocation := Local | Tiered.
#[export] Instance FileLocation_eq_dec : EqDecision FileLocation.
Proof. solve_decision. Defined.

Record FileMeta := mkFile {
  fm_number : N;
  fm_size : N;
  fm_smallest : bytes;
  fm_largest : bytes;
  fm_smallest_seqno : N;
  fm_largest_seqno : N;
  fm_location : FileLocation;
}.
#[export] Instance FileMeta_eq_dec : EqDecision FileMeta.
Proof. solve_decision. Defined.

(** [CfVersion { levels }]: L0 newest first, the others in key order. *)
Definition CfVersion : Type := list (list FileMeta).

Definition CfVersion_empty (num_levels : nat) : CfVersion := replicate num_levels [].
Definition num_levels (v : CfVersion) : nat := length v.
Definition cf_files (v : CfVersion) (level : nat) : list FileMeta := default [] (v !! level).
Definition level_bytes (v : CfVersion) (level : nat) : N := foldr N.add 0%N (fm_size <$> cf_files v level).

(** [Picker::max_bytes_for_level], in saturating u64 arithmetic. *)
Definition sat_mul (a b : N) : N := N.min (a * b) (two64 - 1).
Definition max_bytes_for_level (base multiplier : N) (level : nat) : N :=
  Nat.iter (level - 1) (fun bytes => sat_mul bytes multiplier) base.

Section Picker.
Context (user : Comparator).

(** The file's user-key range meets [begin, end]; [None] is unbounded. *)
Definition file_overlaps (begin_ end_ : option bytes) (file : FileMeta) : bool :=
  let smallest := extract_user_key (fm_smallest file) in
  let largest := extract_user_key (fm_largest file) in
  (match begin_ with None => true | Some b => bool_decide (cmp user largest b <> Lt) end) &&
  (match end_ with None => true | Some e => bool_decide (cmp user smallest e <> Gt) end).
Definition overlapping (v : CfVersion) (level : nat) (begin_ end_ : option bytes) : list FileMeta :=
  filter (file_overlaps begin_ end_) (cf_files v level).

Definition range_step (bounds : option (bytes * bytes)) (file : FileMeta) : option (bytes * bytes) :=
  let smallest := extract_user_key (fm_smallest file) in
  let largest := extract_user_key (fm_largest file) in
  Some (match bounds with
        | None => (smallest, largest)
        | Some (low, high) =>
            (if decide (cmp user smallest low = Lt) then smallest else low,
             if decide (cmp user largest high = Gt) then largest else high)
        end).
Definition range_of (files : list FileMeta) : option (bytes * bytes) := foldl range_step None files.

(** ** Compactions *)

Record Compaction := mkCompaction {
  cp_level : nat;
  cp_inputs : list FileMeta;
  cp_outputs_overlapped : list FileMeta;
  cp_discharge : list (nat * FileMeta);
  cp_output_level : nat;
}.

Definition all_inputs (cp : Compaction) : list FileMeta :=
  cp_inputs cp ++ cp_outputs_overlapped cp ++ (snd <$> cp_discharge cp).
Definition is_discharge (cp : Compaction) : bool :=
  negb (bool_decide (cp_discharge cp = [])) || (cp_level cp + 1 <? cp_output_level cp)%nat.
Definition is_trivial_move (cp : Compaction) : bool :=
  (length (cp_inputs cp) =? 1)%nat && bool_decide (cp_outputs_overlapped cp = []) && negb (is_discharge cp).

(** [l0_closure]: grow the set to every L0 file that meets its range, until it
    stops growing; each round that goes on adds a file. *)
Fixpoint l0_closure_loop (fuel : nat) (v : CfVersion) (files : list FileMeta) : list FileMeta :=
  match fuel with
  | O => files
  | S fuel' =>
      match range_of files with
      | None => files
      | Some (low, high) =>
          let grown := overlapping v 0 (Some low) (Some high) in
          if (length grown =? length files)%nat then grown else l0_closure_loop fuel' v grown
      end
  end.
Definition l0_closure (v : CfVersion) (files : list FileMeta) : list FileMeta :=
  l0_closure_loop (S (length (cf_files v 0))) v files.

Definition overlapping_range (v : CfVersion) (level : nat) (files : list FileMeta) : list FileMeta :=
  match range_of files with
  | Some (low, high) => overlapping v level (Some low) (Some high)
  | None => []
  end.

(** [assemble]: the seed, closed at L0, with what it overlaps one level down;
    then any other file that fits inside that range for free. *)
Definition assemble (v : CfVersion) (level : nat) (seed : list FileMeta) : Compaction :=
  let inputs := if (level =? 0)%nat then l0_closure v seed else seed in
  let overlapped := overlapping_range v (level + 1) inputs in
  let unexpanded := (inputs, overlapped) in
  let '(inputs, overlapped) :=
    match overlapped with
    | [] => unexpanded
    | _ =>
        match range_of overlapped with
        | None => unexpanded
        | Some (low, high) =>
            let expanded := overlapping v level (Some low) (Some high) in
            let expanded := if (level =? 0)%nat then l0_closure v expanded else expanded in
            if (length inputs <? length expanded)%nat then
              match range_of expanded with
              | None => unexpanded
              | Some (low, high) =>
                  let still := overlapping v (level + 1) (Some low) (Some high) in
                  if (length still =? length overlapped)%nat then (expanded, still) else unexpanded
              end
            else unexpanded
        end
    end in
  mkCompaction level inputs overlapped [] (level + 1).

(** [pick] once the level to compact has been chosen: start past the pointer. *)
Definition pick_at (v : CfVersion) (level : nat) (pointer : option bytes) : option Compaction :=
  match cf_files v level with
  | [] => None
  | first :: _ as files =>
      let start :=
        match pointer with
        | None => None
        | Some pointer => list_find (fun file => cmp user (extract_user_key (fm_largest file)) pointer = Gt) files
        end in
      Some (assemble v level [match start with Some (_, file) => file | None => first end])
  end.

Definition pick_range (v : CfVersion) (level : nat) (begin_ end_ : option bytes) : option Compaction :=
  if (num_levels v <=? level + 1)%nat then None else
  match overlapping v level begin_ end_ with
  | [] => None
  | inputs => Some (assemble v level inputs)
  end.

(** One file of one level, in the sweep of [discharge]. *)
Definition discharge_file (level : nat) (st : Compaction * nat) (file : FileMeta) : Compaction * nat :=
  let '(cp, deepest) := st in
  let held := cp_outputs_overlapped cp ++ (snd <$> cp_discharge cp) in
  if existsb (fun h => (fm_number h =? fm_number file)%N) held then st else
  let cp :=
    if (level =? cp_level cp + 1)%nat
    then mkCompaction (cp_level cp) (cp_inputs cp) (cp_outputs_overlapped cp ++ [file]) (cp_discharge cp) (cp_output_level cp)
    else mkCompaction (cp_level cp) (cp_inputs cp) (cp_outputs_overlapped cp) (cp_discharge cp ++ [(level, file)]) (cp_output_level cp) in
  (cp, Nat.max deepest level).

(** The range of the sweep: the tombstones' and the inputs', the latter taken
    through [extract_user_key] once more. *)
Definition discharge_range (cp : Compaction) (tombstones : RangeTombstones) : option (bytes * bytes) :=
  match key_bounds user tombstones with
  | None => None
  | Some (low, high) =>
      Some (match range_of (all_inputs cp) with
            | None => (low, high)
            | Some (input_low, input_high) =>
                let input_low := extract_user_key input_low in
                let input_high := extract_user_key input_high in
                (if decide (cmp user input_low low = Lt) then input_low else low,
                 if decide (cmp user input_high high = Gt) then input_high else high)
            end)
  end.

Definition discharge (v : CfVersion) (cp : Compaction) (tombstones : RangeTombstones) : Compaction :=
  match discharge_range cp tombstones with
  | None => cp
  | Some (low, high) =>
      let '(cp', deepest) :=
        foldl (fun st level => foldl (discharge_file level) st (overlapping v level (Some low) (Some high)))
          (cp, cp_output_level cp) (seq (cp_level cp + 1) (num_levels v - (cp_level cp + 1))) in
      mkCompaction (cp_level cp') (cp_inputs cp') (cp_outputs_overlapped cp') (cp_discharge cp') deepest
  end.

Definition can_discharge (tombstones : RangeTombstones) (floor : N) : bool :=
  forallb (fun t => (rt_seqno t <=? floor)%N) tombstones.

(** No level below [level + 1] holds anything in the range. *)
Definition nothing_below (v : CfVersion) (level : nat) (start end_ : bytes) : bool :=
  forallb (fun below => bool_decide (overlapping v below (Some start) (Some end_) = [])) (seq (level + 2) (num_levels v - (level + 2))).
Definition is_bottom_level_for_key (v : CfVersion) (level : nat) (key : bytes) : bool := nothing_below v level key key.

(** ** Building the next version *)

Inductive BuildError := DeletedMissing (level : nat) (count : nat) | FilesOverlap (level : nat) (a b : N).

(** [sort_level]: L0 newest first, every other level in key order. *)
Definition l0_before (a b : FileMeta) : bool :=
  match N.compare (fm_largest_seqno b) (fm_largest_seqno a) with
  | Lt => true
  | Eq => (fm_number b <=? fm_number a)%N
  | Gt => false
  end.
Definition key_before (a b : FileMeta) : bool :=
  match internal_cmp user (fm_smallest a) (fm_smallest b) with
  | Lt => true
  | Eq => (fm_number a <=? fm_number b)%N
  | Gt => false
  end.
Definition sort_level (level : nat) (files : list FileMeta) : list FileMeta :=
  if (level =? 0)%nat then merge_sort l0_before files else merge_sort key_before files.

Fixpoint check_disjoint (level : nat) (files : list FileMeta) : result BuildError unit :=
  match files with
  | a :: (b :: _) as rest =>
      if bool_decide (internal_cmp user (fm_largest a) (fm_smallest b) = Lt) then check_disjoint level rest
      else Err (FilesOverlap level (fm_number a) (fm_number b))
  | _ => Ok tt
  end.

(** The body of [build] for one level: what is deleted must be there, and what
    is left must not overlap below L0. *)
Definition build_level (level : nat) (old : list FileMeta) (deleted : list N) (added : list FileMeta)
    (moved : N -> option FileLocation) : result BuildError (list FileMeta) :=
  let kept := filter (fun file => fm_number file ∉ deleted) old in
  let carried_over := length old - length kept in
  let files := kept ++ filter (fun file => fm_number file ∉ deleted) added in
  let accounted := carried_over + length (filter (fun file => fm_number file ∈ deleted) added) in
  if (accounted <? length deleted)%nat then Err (DeletedMissing level (length deleted - accounted)) else
  let files := (fun file => match moved (fm_number file) with
                            | Some location => mkFile (fm_number file) (fm_size file) (fm_smallest file) (fm_largest file)
                                                 (fm_smallest_seqno file) (fm_largest_seqno file) location
                            | None => file
                            end) <$> files in
  let files := sort_level level files in
  let? _ := if (0 <? level)%nat then check_disjoint level files else Ok tt in
  Ok files.
End Picker.

(** ** Ranges *)

Section Lemmas.
Context (user : Comparator) `{!ComparatorLaws user}.

Definition low_of (file : FileMeta) : bytes := extract_user_key (fm_smallest file).
Definition high_of (file : FileMeta) : bytes := extract_user_key (fm_largest file).
Definition file_ok (file : FileMeta) : Prop := cmp user (low_of file) (high_of file) <> Gt.

Lemma file_overlaps_spec low high file :
  file_overlaps user (Some low) (Some high) file = true <-> cmp user low (high_of file) <> Gt /\ cmp user (low_of file) high <> Gt.
Proof using All.
  unfold file_overlaps. rewrite andb_true_iff, !bool_decide_eq_true. fold (low_of file) (high_of file).
  rewrite (cmp_antisym low). destruct (cmp user low (high_of file)); cbn; intuition congruence.
Qed.

(** The range of a set of files: bounds that some of them reach and none passes. *)
Definition is_range (files : list FileMeta) (low high : bytes) : Prop :=
  (exists f, f ∈ files /\ low_of f = low) /\ (exists f, f ∈ files /\ high_of f = high) /\
  (forall f, f ∈ files -> cmp user low (low_of f) <> Gt /\ cmp user (high_of f) high <> Gt).

Lemma range_step_foldl files low high low' high' : foldl (range_step user) (Some (low, high)) files = Some (low', high') ->
  (low' = low \/ exists f, f ∈ files /\ low_of f = low') /\ (high' = high \/ exists f, f ∈ files /\ high_of f = high') /\
  cmp user low' low <> Gt /\ cmp user high high' <> Gt /\
  (forall f, f ∈ files -> cmp user low' (low_of f) <> Gt /\ cmp user (high_of f) high' <> Gt).
Proof using All.
  revert low high; induction files as [|f files IH]; intros low high; cbn [foldl].
  { intros [= -> ->]. rewrite !cmp_refl. repeat split; [by left|by left|done|done|set_solver..]. }
  cbn [range_step]. fold (low_of f) (high_of f). intros E. apply IH in E as (Hl & Hh & Hll & Hhh & Hall).
  assert (cmp user (if decide (cmp user (low_of f) low = Lt) then low_of f else low) low <> Gt /\
          cmp user (if decide (cmp user (low_of f) low = Lt) then low_of f else low) (low_of f) <> Gt) as [Hlow Hlf].
  { destruct (decide (cmp user (low_of f) low = Lt)) as [H|H]; rewrite ?cmp_refl; [by rewrite H|]. split; [done|]. rewrite (cmp_antisym (low_of f)). by destruct (cmp user (low_of f) low). }
  assert (cmp user high (if decide (cmp user (high_of f) high = Gt) then high_of f else high) <> Gt /\
          cmp user (high_of f) (if decide (cmp user (high_of f) high = Gt) then high_of f else high) <> Gt) as [Hhigh Hhf].
  { destruct (decide (cmp user (high_of f) high = Gt)) as [H|H]; rewrite ?cmp_refl; [|done]. split; [|done]. by rewrite cmp_antisym, H. }
  split_and!.
  - destruct Hl as [->|(g & ? & <-)]; [|right; exists g; split; [by right|done]]. destruct (decide _); [right; exists f; split; [left|done]|by left].
  - destruct Hh as [->|(g & ? & <-)]; [|right; exists g; split; [by right|done]]. destruct (decide _); [right; exists f; split; [left|done]|by left].
  - by eapply cmp_le_trans.
  - by eapply cmp_le_trans.
  - intros g [->|Hg]%elem_of_cons; [|by apply Hall]. split; by eapply cmp_le_trans.
Qed.

Lemma range_of_spec files low high : range_of user files = Some (low, high) -> is_range files low high.
Proof using All.
  unfold range_of. destruct files as [|f files]; [done|]. cbn [foldl range_step]. fold (low_of f) (high_of f). intros E.
  apply range_step_foldl in E as (Hl & Hh & Hll & Hhh & Hall). split_and!.
  - destruct Hl as [->|(g & ? & <-)]; [exists f|exists g]; split; set_solver.
  - destruct Hh as [->|(g & ? & <-)]; [exists f|exists g]; split; set_solver.
  - intros g [->|Hg]%elem_of_cons; [done|by apply Hall].
Qed.

Lemma range_of_Some files : files <> [] -> exists low high, range_of user files = Some (low, high).
Proof using.
  unfold range_of. destruct files as [|f files]; [done|]. intros _. cbn [foldl].
  destruct (range_step user None f) as [[low high]|] eqn:E; [clear E|done]. revert low high.
  induction files as [|g files IH]; intros low high; [by exists low, high|apply IH].
Qed.
Lemma range_of_None files : range_of user files = None -> files = [].
Proof using. intros E. destruct (decide (files = [])) as [|Hne]; [done|]. apply range_of_Some in Hne as (?&?&Hne). congruence. Qed.

(** A subset's range lies inside the set's. *)
Lemma is_range_mono files files' low high low' high' : is_range files low high -> is_range files' low' high' -> files ⊆ files' ->
  cmp user low' low <> Gt /\ cmp user high high' <> Gt.
Proof using. intros ((f & Hf & <-) & (g & Hg & <-) & _) (_ & _ & Hall) Hsub. split; apply Hall; by apply Hsub. Qed.

Lemma elem_of_overlapping v level low high file :
  file ∈ overlapping user v level (Some low) (Some high) <-> file ∈ cf_files v level /\ cmp user low (high_of file) <> Gt /\ cmp user (low_of file) high <> Gt.
Proof using All. unfold overlapping. rewrite list_elem_of_filter, Is_true_true, file_overlaps_spec. tauto. Qed.

(** Every file of a set meets the set's own range. *)
Lemma files_overlap_own_range files low high f : Forall file_ok files -> is_range files low high -> f ∈ files ->
  cmp user low (high_of f) <> Gt /\ cmp user (low_of f) high <> Gt.
Proof using All.
  intros Hok (_ & _ & Hall) Hf. destruct (Hall f Hf). rewrite Forall_forall in Hok. specialize (Hok f Hf). split; by eapply cmp_le_trans.
Qed.

(** ** The L0 closure *)

(** One round only ever adds files. *)
Lemma overlapping_grows v files low high : Forall file_ok (cf_files v 0) -> files ⊆ cf_files v 0 -> range_of user files = Some (low, high) ->
  files ⊆ overlapping user v 0 (Some low) (Some high).
Proof using All.
  intros Hok Hsub Hr f Hf. apply elem_of_overlapping. split; [by apply Hsub|].
  eapply files_overlap_own_range; [|by apply range_of_spec|done]. rewrite Forall_forall in *. set_solver.
Qed.
Lemma overlapping_sub v level low high : overlapping user v level low high ⊆ cf_files v level.
Proof using. intros f Hf. by apply list_elem_of_filter in Hf as [_ ?]. Qed.
Lemma overlapping_NoDup v level low high : NoDup (cf_files v level) -> NoDup (overlapping user v level low high).
Proof using. apply NoDup_filter. Qed.

Lemma sub_length {A} (l l' : list A) : NoDup l -> l ⊆ l' -> length l <= length l'.
Proof using. intros Hnd Hsub. by apply submseteq_length, NoDup_submseteq. Qed.
Lemma sub_same_length {A} (l l' : list A) : NoDup l -> l ⊆ l' -> length l' <= length l -> l' ⊆ l.
Proof using. intros Hnd Hsub Hlen x Hx. rewrite (submseteq_length_Permutation l l'); [done|by apply NoDup_submseteq|done]. Qed.

(** A set of files that holds every L0 file meeting its range. *)
Definition l0_closed (v : CfVersion) (files : list FileMeta) : Prop :=
  forall low high f, is_range files low high -> f ∈ cf_files v 0 ->
    cmp user low (high_of f) <> Gt -> cmp user (low_of f) high <> Gt -> f ∈ files.

Lemma l0_closure_loop_spec fuel v files : Forall file_ok (cf_files v 0) -> NoDup (cf_files v 0) -> NoDup files -> files ⊆ cf_files v 0 ->
  length (cf_files v 0) < fuel + length files ->
  let out := l0_closure_loop user fuel v files in
  files ⊆ out /\ out ⊆ cf_files v 0 /\ NoDup out /\ l0_closed v out.
Proof using All.
  intros Hok Hnd. revert files; induction fuel as [|fuel IH]; intros files Hndf Hsub Hfuel; cbn.
  { apply sub_length in Hsub; [lia|done]. }
  destruct (range_of user files) as [[low high]|] eqn:Hr.
  2:{ apply range_of_None in Hr as ->. split_and!; try done. intros low high f ((? & H & _) & _). by apply not_elem_of_nil in H. }
  pose proof (overlapping_grows v files low high Hok Hsub Hr) as Hgrow.
  pose proof (overlapping_sub v 0 (Some low) (Some high)) as Hin.
  pose proof (overlapping_NoDup v 0 (Some low) (Some high) Hnd) as Hndo.
  destruct (Nat.eqb_spec (length (overlapping user v 0 (Some low) (Some high))) (length files)) as [Hlen|Hlen].
  - split_and!; try done. intros low' high' f Hr' Hf Hfl Hfh. apply elem_of_overlapping. split; [done|].
    apply range_of_spec in Hr. pose proof (sub_same_length _ _ Hndf Hgrow ltac:(lia)) as Hback.
    destruct (is_range_mono _ _ _ _ _ _ Hr' Hr Hback). split; by eapply cmp_le_trans.
  - pose proof (sub_length _ _ Hndf Hgrow). destruct (IH (overlapping user v 0 (Some low) (Some high)) Hndo Hin) as (Hs & ? & ? & ?); [lia|].
    split_and!; try done. by etrans.
Qed.

Lemma l0_closure_spec v files : Forall file_ok (cf_files v 0) -> NoDup (cf_files v 0) -> NoDup files -> files ⊆ cf_files v 0 ->
  let out := l0_closure user v files in
  files ⊆ out /\ out ⊆ cf_files v 0 /\ NoDup out /\ l0_closed v out.
Proof using All. intros. apply l0_closure_loop_spec; try done. lia. Qed.

(** ** The plan *)

Lemma not_nil_exists {A} (l : list A) : l <> [] -> exists x, x ∈ l.
Proof using. destruct l as [|x l]; [done|]. exists x. left. Qed.

Definition level_ok (v : CfVersion) (level : nat) : Prop := Forall file_ok (cf_files v level) /\ NoDup (cf_files v level).

(** What [assemble] promises of its inputs, whichever way it went. *)
Definition inputs_ok (v : CfVersion) (level : nat) (inputs : list FileMeta) : Prop :=
  inputs ⊆ cf_files v level /\ NoDup inputs /\ inputs <> [] /\ (level = 0%nat -> l0_closed v inputs).

Lemma close_inputs_ok v level seed : level_ok v level -> NoDup seed -> seed ⊆ cf_files v level -> seed <> [] ->
  let inputs := if (level =? 0)%nat then l0_closure user v seed else seed in inputs_ok v level inputs /\ seed ⊆ inputs.
Proof using All.
  intros [Hok Hnd] Hnds Hsub Hne. unfold inputs_ok. destruct (Nat.eqb_spec level 0) as [->|Hl]; cbn; [|by split_and!].
  destruct (l0_closure_spec v seed Hok Hnd Hnds Hsub) as (? & ? & ? & ?). split_and!; try done.
  intros E. destruct seed as [|f ?]; [done|]. eapply (not_elem_of_nil f). rewrite <- E. set_solver.
Qed.

Lemma expanded_ok v level low high f : level_ok v level -> f ∈ overlapping user v level (Some low) (Some high) ->
  let expanded := overlapping user v level (Some low) (Some high) in
  inputs_ok v level (if (level =? 0)%nat then l0_closure user v expanded else expanded).
Proof using All.
  intros Hok Hf expanded. apply close_inputs_ok; [done|..].
  - apply overlapping_NoDup, Hok.
  - apply overlapping_sub.
  - intros E. unfold expanded in E. rewrite E in Hf. by apply not_elem_of_nil in Hf.
Qed.

Lemma assemble_ok v level seed : level_ok v level -> NoDup seed -> seed ⊆ cf_files v level -> seed <> [] ->
  let cp := assemble user v level seed in
  cp_level cp = level /\ cp_output_level cp = (level + 1)%nat /\ cp_discharge cp = [] /\
  inputs_ok v level (cp_inputs cp) /\ cp_outputs_overlapped cp = overlapping_range user v (level + 1) (cp_inputs cp).
Proof using All.
  intros Hok Hnd Hsub Hne. unfold assemble. destruct (close_inputs_ok v level seed Hok Hnd Hsub Hne) as [Hin _]. cbn zeta in Hin.
  set (inputs := if (level =? 0)%nat then _ else seed) in *.
  destruct (overlapping_range user v (level + 1) inputs) as [|g gs] eqn:Eo; [cbn; rewrite Eo; done|].
  destruct (range_of user (g :: gs)) as [[low high]|] eqn:Er; [|cbn; rewrite Eo; done].
  set (over := overlapping user v level (Some low) (Some high)).
  destruct (Nat.ltb_spec (length inputs) (length (if (level =? 0)%nat then l0_closure user v over else over))) as [Hlt|]; [|cbn; rewrite Eo; done].
  destruct (range_of user (if (level =? 0)%nat then _ else over)) as [[low' high']|] eqn:Er'; [|cbn; rewrite Eo; done].
  destruct (length _ =? length _)%nat; [|cbn; rewrite Eo; done]. cbn [cp_level cp_output_level cp_discharge cp_inputs cp_outputs_overlapped].
  split_and!; [done..| |unfold overlapping_range; by rewrite Er'].
  destruct (decide (over = [])) as [E|[f Hf]%not_nil_exists]; [|by apply expanded_ok with (f := f)].
  rewrite E in Hlt. destruct (level =? 0)%nat; cbn in Hlt; lia.
Qed.

(** A file left out of a closed set shares no key with any of its files. *)
Definition apart (f g : FileMeta) : Prop := cmp user (high_of f) (low_of g) = Lt \/ cmp user (high_of g) (low_of f) = Lt.
Lemma closed_apart v inputs f g : l0_closed v inputs -> f ∈ cf_files v 0 -> f ∉ inputs -> g ∈ inputs -> apart f g.
Proof using All.
  intros Hcl Hf Hnf Hg. destruct (range_of_Some inputs) as (low & high & Hr); [intros ->; by apply not_elem_of_nil in Hg|].
  apply range_of_spec in Hr. pose proof Hr as (_ & _ & Hall). destruct (Hall g Hg) as [Hgl Hgh]. unfold apart.
  destruct (cmp user low (high_of f)) eqn:E1; [| |left; apply (cmp_lt_le_trans user _ low); [by rewrite cmp_antisym, E1|done]].
  all: destruct (cmp user (low_of f) high) eqn:E2; [| |right; apply (cmp_le_lt_trans user _ high); [done|by rewrite cmp_antisym, E2]].
  all: exfalso; apply Hnf; apply (Hcl low high); rewrite ?E1, ?E2; done.
Qed.
End Lemmas.

(** ** The claims *)

(** C24: what a compaction plan takes.  Grown from any non-empty selection of a
    level's files, its inputs are files of that level, each once; its overlapped
    files are every file of the next level whose key range meets the inputs';
    it writes to that level and carries no discharge; and at L0, where files
    overlap, no file left behind shares a key with one that is taken. *)
Theorem compaction_plan user `{!ComparatorLaws user} v level seed : level_ok user v level -> NoDup seed -> seed ⊆ cf_files v level -> seed <> [] ->
  let cp := assemble user v level seed in
  cp_level cp = level /\ cp_output_level cp = (level + 1)%nat /\ cp_discharge cp = [] /\
  cp_inputs cp ⊆ cf_files v level /\ NoDup (cp_inputs cp) /\ cp_inputs cp <> [] /\
  (exists low high, is_range user (cp_inputs cp) low high /\
    forall f, f ∈ cp_outputs_overlapped cp <-> f ∈ cf_files v (level + 1) /\ cmp user low (high_of f) <> Gt /\ cmp user (low_of f) high <> Gt) /\
  (level = 0%nat -> forall f g, f ∈ cf_files v 0 -> f ∉ cp_inputs cp -> g ∈ cp_inputs cp -> apart user f g).
Proof.
  intros Hok Hnd Hsub Hne cp. pose proof (assemble_ok user v level seed Hok Hnd Hsub Hne) as H. cbn zeta in H. fold cp in H.
  destruct H as (? & ? & ? & (? & ? & Hnil & Hcl) & Ho).
  split_and!; [done..| |intros Hl f g; by apply closed_apart, Hcl].
  destruct (range_of_Some user _ Hnil) as (low & high & Hr). exists low, high. split; [by apply range_of_spec|].
  intros f. rewrite Ho. unfold overlapping_range. rewrite Hr. by apply elem_of_overlapping.
Qed.

(** Three L0 files chained by overlap, and two files of L1. *)
Definition file_of (number : N) (low high : byte) : FileMeta :=
  mkFile number 1 (internal_key [low] number Put) (internal_key [high] number Put) number number Local.
Definition chained : CfVersion :=
  [[file_of 3 Byte.x05 Byte.x07; file_of 2 Byte.x03 Byte.x05; file_of 1 Byte.x01 Byte.x03]; [file_of 4 Byte.x02 Byte.x04; file_of 5 Byte.x08 Byte.x09]; []].

Lemma compaction_plan_witness :
  let cp := assemble BytewiseComparator chained 0 [file_of 3 Byte.x05 Byte.x07] in
  fm_number <$> cp_inputs cp = [3; 2; 1]%N /\ fm_number <$> cp_outputs_overlapped cp = [4]%N /\ cp_inputs cp ⊆ cf_files chained 0.
Proof.
  intros cp. destruct (compaction_plan BytewiseComparator chained 0 [file_of 3 Byte.x05 Byte.x07]) as (_ & _ & _ & Hsub & _).
  - split; [repeat (apply Forall_cons; split; [by vm_compute|]); apply Forall_nil_2|apply (bool_decide_unpack _); by vm_compute].
  - apply NoDup_singleton.
  - intros f ->%list_elem_of_singleton. left.
  - done.
  - split; [by vm_compute|]. split; [by vm_compute|exact Hsub].
Defined.
