(* ===== verification/LevelCursor.v ===== *)
(** One cursor over a whole level below L0
    (esker-engine/src/db/level_iter.rs): it holds the cursor of the one file it
    has reached.  Opening a table is a parameter, what the cursor inside it does
    is the interface of [Cursor]; over files that partition the key space the
    level is again a lawful cursor. *)

From stdpp Require Import prelude sorting.
From Stdlib Require Import NArith Lia.
From S2P Require Import Prelude DbFormat RangeDel Lsm Levels Cursor.

(** [lv_status] says whether a read failed; the error itself is only reported. *)
Record LevelCursor (C : Type) := mkLevel {
  lv_files : list FileMeta;
  lv_current : option (nat * C);
  lv_status : bool;
}.
Arguments mkLevel {C}.
Arguments lv_files {C}.
Arguments lv_current {C}.
Arguments lv_status {C}.

Section Level.
(** [table_iter]: the cursor of the table with that number, from the table
    cache, or nothing when it will not open. *)
Context (user : Comparator) {C : Type} `{!Cursor C} (table_iter : N -> option C).

Definition LevelCursor_new (files : list FileMeta) : LevelCursor C := mkLevel files None false.
Definition lv_put (lc : LevelCursor C) (current : option (nat * C)) : LevelCursor C := mkLevel (lv_files lc) current (lv_status lc).
(** [status.get_or_insert(error)] and nothing open. *)
Definition lv_fail (lc : LevelCursor C) : LevelCursor C := mkLevel (lv_files lc) None true.

Definition lv_open (lc : LevelCursor C) (index : nat) (position : C -> C) : LevelCursor C * bool :=
  match lv_files lc !! index with
  | None => (lv_put lc None, false)
  | Some file =>
      match table_iter (fm_number file) with
      | None => (lv_fail lc, false)
      | Some iter =>
          let iter := position iter in
          if cur_error iter then (lv_fail lc, false) else (lv_put lc (Some (index, iter)), cur_valid iter)
      end
  end.

(** [open_forward_from]; [n] files remain from [index] on. *)
Fixpoint lv_forward_loop (n : nat) (lc : LevelCursor C) (index : nat) : LevelCursor C :=
  match n with
  | O => lv_put lc None
  | S n =>
      let '(lc, found) := lv_open lc index cur_seek_to_first in
      if found then lc else if lv_status lc then lc else lv_forward_loop n lc (S index)
  end.
Definition open_forward_from (lc : LevelCursor C) (index : nat) : LevelCursor C :=
  lv_forward_loop (length (lv_files lc) - index) lc index.

Fixpoint open_backward_from (lc : LevelCursor C) (at_ : nat) : LevelCursor C :=
  let '(lc, found) := lv_open lc at_ cur_seek_to_last in
  if found then lc else
  match at_ with
  | O => lv_put lc None
  | S at_' => if lv_status lc then lv_put lc None else open_backward_from lc at_'
  end.

Definition file_at_or_after (lc : LevelCursor C) (target : bytes) : nat :=
  partition_by (fun file => bool_decide (internal_cmp user (fm_largest file) target = Lt)) (lv_files lc).
Definition file_at_or_before (lc : LevelCursor C) (target : bytes) : option nat :=
  let after := partition_by (fun file => bool_decide (internal_cmp user (fm_smallest file) target <> Gt)) (lv_files lc) in
  match after with O => None | S i => Some i end.

Definition lv_seek (target : bytes) (lc : LevelCursor C) : LevelCursor C :=
  let index := file_at_or_after lc target in
  let '(lc, found) := lv_open lc index (cur_seek target) in
  if found then lc else if lv_status lc then lc else open_forward_from lc (index + 1).
Definition lv_seek_for_prev (target : bytes) (lc : LevelCursor C) : LevelCursor C :=
  match file_at_or_before lc target with
  | None => lv_put lc None
  | Some index =>
      let '(lc, found) := lv_open lc index (cur_seek_for_prev target) in
      if found then lc else
      if lv_status lc || (index =? 0)%nat then lv_put lc None else open_backward_from lc (index - 1)
  end.
Definition lv_seek_to_first (lc : LevelCursor C) : LevelCursor C := open_forward_from lc 0.
Definition lv_seek_to_last (lc : LevelCursor C) : LevelCursor C :=
  match length (lv_files lc) with O => lv_put lc None | S last => open_backward_from lc last end.

Definition lv_next (lc : LevelCursor C) : LevelCursor C :=
  match lv_current lc with
  | None => lc
  | Some (index, iter) =>
      let iter := cur_next iter in
      let lc := lv_put lc (Some (index, iter)) in
      if cur_valid iter then lc else
      if cur_error iter then lv_fail lc else open_forward_from lc (index + 1)
  end.
Definition lv_prev (lc : LevelCursor C) : LevelCursor C :=
  match lv_current lc with
  | None => lc
  | Some (index, iter) =>
      let iter := cur_prev iter in
      let lc := lv_put lc (Some (index, iter)) in
      if cur_valid iter then lc else
      if cur_error iter then lv_fail lc else
      match index with O => lv_put lc None | S previous => open_backward_from lc previous end
  end.

#[export] Instance LevelCursorOps : Cursor (LevelCursor C) := {
  cur_valid lc := from_option (fun c => cur_valid c.2) false (lv_current lc);
  cur_key lc := from_option (fun c => cur_key c.2) [] (lv_current lc);
  cur_value lc := from_option (fun c => cur_value c.2) [] (lv_current lc);
  cur_seek := lv_seek;
  cur_seek_for_prev := lv_seek_for_prev;
  cur_seek_to_first := lv_seek_to_first;
  cur_seek_to_last := lv_seek_to_last;
  cur_next := lv_next;
  cur_prev := lv_prev;
  cur_error lc := lv_status lc || from_option (fun c => cur_error c.2) false (lv_current lc) }.
End Level.

(** ** The level as one sorted run *)

Section LevelLaws.
Context (user : Comparator) `{!ComparatorLaws user} {C : Type} `{Hops : !Cursor C} `{Hcur : !CursorLaws user C} (table_iter : N -> option C).

(** A table of the level opens, and its bounds are bounds of its run. *)
Record file_run (file : FileMeta) (run : list entry) : Prop := {
  fr_open : exists iter, table_iter (fm_number file) = Some iter /\ cur_over iter run;
  fr_sorted : run_sorted user run;
  fr_smallest : wellformed (fm_smallest file);
  fr_largest : wellformed (fm_largest file);
  fr_bounds : Forall (fun e : entry => key_le user (fm_smallest file) e.1 /\ key_le user e.1 (fm_largest file)) run;
  fr_order : key_le user (fm_smallest file) (fm_largest file) }.
Definition files_apart : list FileMeta -> Prop := StronglySorted (fun a b => internal_cmp user (fm_largest a) (fm_smallest b) = Lt).
Definition level_runs (files : list FileMeta) (runs : list (list entry)) : Prop := Forall2 file_run files runs /\ files_apart files.

(** What the manifest checks of a level is that it partitions the key space. *)
Lemma check_disjoint_apart level files : Forall (fun f => wellformed (fm_smallest f) /\ wellformed (fm_largest f) /\ key_le user (fm_smallest f) (fm_largest f)) files ->
  check_disjoint user level files = Ok () -> files_apart files.
Proof using All.
  induction 1 as [|a files Ha Hwf IH]; intros Hc; [constructor|]. destruct files as [|b files]; [repeat constructor|].
  cbn in Hc. case_bool_decide as Hab; [|done]. specialize (IH Hc). constructor; [done|]. constructor; [done|].
  apply StronglySorted_inv in IH as [_ Hb]. apply Forall_cons in Hwf as [Hwb Hwf]. rewrite Forall_forall in Hb, Hwf. apply Forall_forall. intros f Hf.
  destruct (Hwf f Hf) as (Hf1 & Hf2 & _). destruct Ha as (Ha1 & Ha2 & _), Hwb as (Hb1 & Hb2 & Hb3).
  apply (key_lt_le_trans user _ (fm_smallest b)); try done. apply (key_le_trans user _ (fm_largest b)); try done. unfold key_le. by rewrite (Hb f Hf).
Qed.

(** Everything of one run lies before everything of a later one. *)
Lemma runs_apart f g r r' a b : file_run f r -> file_run g r' -> internal_cmp user (fm_largest f) (fm_smallest g) = Lt -> a ∈ r -> b ∈ r' ->
  internal_cmp user a.1 b.1 = Lt.
Proof using All.
  intros Hf Hg Hlt Ha Hb. destruct (fr_sorted _ _ Hf) as [_ Hw], (fr_sorted _ _ Hg) as [_ Hw']. pose proof (fr_bounds _ _ Hf) as HB. pose proof (fr_bounds _ _ Hg) as HB'.
  rewrite Forall_forall in Hw, Hw', HB, HB'. destruct (HB a Ha) as [_ H1], (HB' b Hb) as [H2 _].
  apply (key_le_lt_trans user _ (fm_largest f)); [by apply Hw|by apply Hf|by apply Hw'|done|].
  apply (key_lt_le_trans user _ (fm_smallest g)); [by apply Hf|by apply Hg|by apply Hw'|done|done].
Qed.

Lemma level_runs_inv f files r runs : level_runs (f :: files) (r :: runs) -> file_run f r /\ level_runs files runs /\
  forall g, g ∈ files -> internal_cmp user (fm_largest f) (fm_smallest g) = Lt.
Proof using. intros [[Hf Hr]%Forall2_cons [Ha Hall]%StronglySorted_inv]. rewrite Forall_forall in Hall. done. Qed.

Lemma level_sorted files runs : level_runs files runs -> run_sorted user (mjoin runs).
Proof using All.
  revert runs. induction files as [|f files IH]; intros runs Hl; [destruct Hl as [->%Forall2_nil_inv_l _]; split; constructor|].
  destruct Hl as [Hr Ha]. destruct runs as [|r runs]; [by apply Forall2_nil_inv_r in Hr|]. destruct (level_runs_inv f files r runs) as (Hf & Hl & Hg); [done|].
  destruct (IH runs Hl) as [Hs Hw], (fr_sorted _ _ Hf) as [Hs' Hw']. cbn. split; [|by apply Forall_app]. apply StronglySorted_app. split_and!; [|done..].
  intros a b Ha' (r' & Hb & Hr')%list_elem_of_join. apply list_elem_of_lookup in Hr' as (i & Hi). destruct Hl as [Hl _].
  destruct (Forall2_lookup_r _ _ _ _ _ Hl Hi) as (g & Hgi & Hgr). eapply (runs_apart f g r r'); [done..|apply Hg; by eapply list_elem_of_lookup_2|done|done].
Qed.

(** *** Where the cursor stands *)

(** The files still to come after the one at [i]. *)
Definition remaining (d : Direction) (i : nat) (runs : list (list entry)) : list entry :=
  match d with Forward => mjoin (drop (S i) runs) | Reverse => reverse (mjoin (take i runs)) end.
Definition lv_over (lc : LevelCursor C) (run : list entry) : Prop :=
  exists runs, level_runs (lv_files lc) runs /\ run = mjoin runs /\ lv_status lc = false.
Definition lv_at (d : Direction) (lc : LevelCursor C) (run rest : list entry) : Prop :=
  exists runs, level_runs (lv_files lc) runs /\ run = mjoin runs /\ lv_status lc = false /\
  match lv_current lc with
  | None => rest = []
  | Some (i, iter) => exists r here, runs !! i = Some r /\ cur_at d iter r here /\ here <> [] /\ rest = here ++ remaining d i runs
  end.

(** One file opened: what it has to visit, found or not. *)
Lemma open_found lc runs i r d position (P : entry -> Prop) `{!forall e, Decision (P e)} : level_runs (lv_files lc) runs -> lv_status lc = false -> runs !! i = Some r ->
  (forall iter, cur_over iter r -> exists here, cur_at d (position iter) r here /\ visits user d P r here) ->
  exists iter, lv_open table_iter lc i position = (lv_put lc (Some (i, iter)), negb (bool_decide (along d P r = []))) /\ cur_at d iter r (along d P r).
Proof using All.
  intros [Hl _] Hst Hr Hpos. destruct (Forall2_lookup_r _ _ _ _ _ Hl Hr) as (f & Hf & Hfr). destruct (fr_open _ _ Hfr) as (it & Hit & Hover).
  destruct (Hpos it Hover) as (here & Hat & Hv). apply (visits_exact user d P r here (fr_sorted _ _ Hfr)) in Hv as ->. exists (position it). split; [|done].
  unfold lv_open. rewrite Hf, Hit. cbn. by rewrite (cur_at_readable _ _ _ _ Hat), (cur_at_valid _ _ _ _ Hat).
Qed.

(** Standing on a file that has something to visit. *)
Lemma stand d lc runs i r iter here : level_runs (lv_files lc) runs -> lv_status lc = false -> runs !! i = Some r -> cur_at d iter r here -> here <> [] ->
  lv_at d (lv_put lc (Some (i, iter))) (mjoin runs) (here ++ remaining d i runs).
Proof using. intros Hl Hst Hr Hat Hne. exists runs. cbn. split_and!; [done..|]. by exists r, here. Qed.

Lemma along_all d run : along d (fun _ => True) run = match d with Forward => run | Reverse => reverse run end.
Proof using. destruct d; cbn; by rewrite filter_all by by apply Forall_forall. Qed.

Lemma open_forward_spec lc runs index : level_runs (lv_files lc) runs -> lv_status lc = false ->
  lv_at Forward (open_forward_from table_iter lc index) (mjoin runs) (mjoin (drop index runs)).
Proof using All.
  intros Hl Hst. unfold open_forward_from. remember (length (lv_files lc) - index)%nat as n eqn:En. revert lc index En Hl Hst.
  induction n as [|n IH]; intros lc index En Hl Hst; pose proof (Forall2_length _ _ _ (proj1 Hl)) as Hlen; cbn [lv_forward_loop].
  - exists runs. cbn. split_and!; try done. by rewrite drop_ge by lia.
  - destruct (lookup_lt_is_Some_2 runs index ltac:(lia)) as [r Hr].
    destruct (open_found lc runs index r Forward cur_seek_to_first (fun _ => True) Hl Hst Hr) as (iter & -> & Hat); [intros; by apply cur_seek_to_first_law|].
    rewrite along_all in *. rewrite (drop_S _ _ _ Hr). cbn [mjoin list_join]. case_bool_decide as Hr0; cbn [negb].
    + cbn. rewrite Hst. subst r. apply IH; cbn; [lia|done..].
    + by apply (stand Forward lc runs index r).
Qed.
Lemma take_join_reverse runs i r : runs !! i = Some r -> reverse (mjoin (take (S i) runs)) = reverse r ++ remaining Reverse i runs.
Proof using. intros Hr. rewrite (take_S_r _ _ _ Hr), join_app, reverse_app. cbn [mjoin list_join]. by rewrite app_nil_r. Qed.
Lemma open_backward_spec lc runs index : level_runs (lv_files lc) runs -> lv_status lc = false -> (index < length runs)%nat ->
  lv_at Reverse (open_backward_from table_iter lc index) (mjoin runs) (reverse (mjoin (take (S index) runs))).
Proof using All.
  revert lc. induction index as [|index IH]; intros lc Hl Hst Hlt; cbn [open_backward_from];
    destruct (lookup_lt_is_Some_2 runs _ Hlt) as [r Hr];
    destruct (open_found lc runs _ r Reverse cur_seek_to_last (fun _ => True) Hl Hst Hr) as (iter & -> & Hat); try (intros; by apply cur_seek_to_last_law);
    rewrite along_all in *; rewrite (take_join_reverse _ _ _ Hr); (case_bool_decide as Hr0; cbn [negb]; [|by eapply (stand Reverse lc runs _ r)]).
  - exists runs. cbn. split_and!; try done. by rewrite Hr0.
  - cbn [lv_put lv_status]. rewrite Hst, Hr0. apply IH; cbn; [done..|lia].
Qed.

(** *** What lies past a bound, file by file *)

Lemma along_app d (P : entry -> Prop) `{!forall e, Decision (P e)} l l' :
  along d P (l ++ l') = match d with Forward => along d P l ++ along d P l' | Reverse => along d P l' ++ along d P l end.
Proof using. destruct d; cbn; rewrite filter_app; [done|apply reverse_app]. Qed.
Lemma along_none d (P : entry -> Prop) `{!forall e, Decision (P e)} l : (forall e, e ∈ l -> ~ P e) -> along d P l = [].
Proof using. intros Hn. destruct d; cbn; by rewrite filter_none by by apply Forall_forall. Qed.
Lemma along_every d (P : entry -> Prop) `{!forall e, Decision (P e)} l : (forall e, e ∈ l -> P e) -> along d P l = match d with Forward => l | Reverse => reverse l end.
Proof using. intros Hn. destruct d; cbn; by rewrite filter_all by by apply Forall_forall. Qed.

Lemma elem_of_join_take {A} i (runs : list (list A)) e : e ∈ mjoin (take i runs) -> exists j r, (j < i)%nat /\ runs !! j = Some r /\ e ∈ r.
Proof using. intros (r & He & (j & Hj)%list_elem_of_lookup)%list_elem_of_join. apply lookup_take_Some in Hj as [Hj Hlt]. eauto. Qed.
Lemma elem_of_join_drop {A} i (runs : list (list A)) e : e ∈ mjoin (drop i runs) -> exists j r, (i <= j)%nat /\ runs !! j = Some r /\ e ∈ r.
Proof using. intros (r & He & (j & Hj)%list_elem_of_lookup)%list_elem_of_join. rewrite lookup_drop in Hj. exists (i + j)%nat, r. split; [lia|done]. Qed.

Lemma along_split d (P : entry -> Prop) `{!forall e, Decision (P e)} runs i r : runs !! i = Some r ->
  (forall j r' e, (j < i)%nat -> runs !! j = Some r' -> e ∈ r' -> P e <-> d = Reverse) ->
  (forall j r' e, (i < j)%nat -> runs !! j = Some r' -> e ∈ r' -> P e <-> d = Forward) ->
  along d P (mjoin runs) = along d P r ++ remaining d i runs.
Proof using.
  intros Hr Hlo Hhi. rewrite <- (take_drop_middle _ _ _ Hr) at 1. rewrite join_app. cbn [mjoin list_join]. rewrite !along_app.
  assert (forall e, e ∈ mjoin (take i runs) -> P e <-> d = Reverse) as H1 by (intros e (j & r' & ? & ? & ?)%elem_of_join_take; by eapply Hlo).
  assert (forall e, e ∈ mjoin (drop (S i) runs) -> P e <-> d = Forward) as H2 by (intros e (j & r' & ? & ? & ?)%elem_of_join_drop; by eapply Hhi).
  destruct d.
  - rewrite (along_none _ _ (mjoin (take i runs))), (along_every _ _ (mjoin (drop _ _))); [done| |]; intros e He; [by apply H2|by rewrite H1].
  - rewrite (along_every _ _ (mjoin (take i runs))), (along_none _ _ (mjoin (drop _ _))); [done| |]; intros e He; [by rewrite H2|by apply H1].
Qed.

Lemma partition_by_lt {A} (f : A -> bool) l j x : l !! j = Some x -> (j < partition_by f l)%nat -> f x = true.
Proof using. revert j. induction l as [|y l IH]; intros j; [done|]. cbn. destruct (f y) eqn:E; [|lia]. destruct j as [|j]; cbn; [by intros [= <-]|]. intros. apply (IH j); [done|lia]. Qed.
Lemma partition_by_at {A} (f : A -> bool) l x : l !! partition_by f l = Some x -> f x = false.
Proof using. induction l as [|y l IH]; [done|]. cbn. destruct (f y) eqn:E; [done|]. by intros [= <-]. Qed.

Lemma partition_by_bound {A} (f : A -> bool) l i : partition_by f l = S i -> (i < length l)%nat.
Proof using. revert i. induction l as [|x l IH]; intros i; cbn; [done|]. destruct (f x); [|done]. intros [= E]. destruct i as [|i]; [lia|]. specialize (IH i E). lia. Qed.

Lemma files_lookup files i j f g : files_apart files -> files !! i = Some f -> files !! j = Some g -> (i < j)%nat ->
  internal_cmp user (fm_largest f) (fm_smallest g) = Lt.
Proof using.
  intros Hs Hf Hg Hij. revert i j Hf Hg Hij. induction Hs as [|h files Hs IH Hall]; intros i j Hf Hg Hij; [done|]. destruct j as [|j]; [lia|].
  destruct i as [|i]; cbn in *; [|by apply (IH i j); [..|lia]]. simplify_eq. rewrite Forall_forall in Hall. apply Hall. by eapply list_elem_of_lookup_2.
Qed.

(** A run's entries against the bounds of its own file. *)
Lemma run_bounds files runs j r e : level_runs files runs -> runs !! j = Some r -> e ∈ r ->
  exists f, files !! j = Some f /\ file_run f r /\ wellformed e.1 /\ key_le user (fm_smallest f) e.1 /\ key_le user e.1 (fm_largest f).
Proof using.
  intros [Hl _] Hr He. destruct (Forall2_lookup_r _ _ _ _ _ Hl Hr) as (f & Hf & Hfr). exists f. split; [done|]. split; [done|].
  destruct (fr_sorted _ _ Hfr) as [_ Hw]. pose proof (fr_bounds _ _ Hfr) as HB. rewrite Forall_forall in Hw, HB. split; [by apply Hw|by apply HB].
Qed.

(** Entries of files before the first that reaches [target] lie before it, of
    files after that one past it. *)
Lemma before_target files runs target j r e : level_runs files runs -> wellformed target -> runs !! j = Some r -> e ∈ r ->
  (j < partition_by (fun file => bool_decide (internal_cmp user (fm_largest file) target = Lt)) files)%nat -> internal_cmp user e.1 target = Lt.
Proof using All.
  intros Hl Ht Hr He Hj. destruct (run_bounds _ _ _ _ _ Hl Hr He) as (f & Hf & Hfr & Hw & _ & Hle). apply (partition_by_lt _ _ _ _ Hf), bool_decide_eq_true in Hj.
  apply (key_le_lt_trans user _ (fm_largest f)); try done. apply Hfr.
Qed.
Lemma after_target files runs target j r e : level_runs files runs -> wellformed target -> runs !! j = Some r -> e ∈ r ->
  (partition_by (fun file => bool_decide (internal_cmp user (fm_largest file) target = Lt)) files < j)%nat -> internal_cmp user e.1 target <> Lt.
Proof using All.
  intros Hl Ht Hr He Hj. set (i := partition_by _ _) in *. destruct (run_bounds _ _ _ _ _ Hl Hr He) as (f & Hf & Hfr & Hw & Hle & _).
  destruct (lookup_lt_is_Some_2 files i) as [g Hg]; [apply lookup_lt_Some in Hf; lia|]. pose proof (partition_by_at _ _ _ Hg) as Hn. apply bool_decide_eq_false in Hn.
  destruct (Forall2_lookup_l _ _ _ _ _ (proj1 Hl) Hg) as (r' & _ & Hgr). apply not_lt_le in Hn; [|done]. apply not_lt_le; [done|].
  apply (key_le_trans user _ (fm_largest g)); try done; [apply Hgr|]. unfold key_le.
  rewrite (key_lt_le_trans user _ (fm_smallest f)); [done|apply Hgr|apply Hfr|done|eapply (files_lookup files i j); [apply Hl|done..]|done].
Qed.
(** The same for the last file that starts at or before [target]. *)
Lemma upto_target files runs target i j r e : level_runs files runs -> wellformed target -> runs !! j = Some r -> e ∈ r ->
  partition_by (fun file => bool_decide (internal_cmp user (fm_smallest file) target <> Gt)) files = S i -> (j < i)%nat -> internal_cmp user e.1 target <> Gt.
Proof using All.
  intros Hl Ht Hr He Ei Hj. destruct (run_bounds _ _ _ _ _ Hl Hr He) as (f & Hf & Hfr & Hw & _ & Hle).
  destruct (lookup_lt_is_Some_2 files i (partition_by_bound _ _ _ Ei)) as [g Hg]. destruct (Forall2_lookup_l _ _ _ _ _ (proj1 Hl) Hg) as (r' & _ & Hgr).
  pose proof (partition_by_lt _ _ i g Hg ltac:(rewrite Ei; lia)) as Hn. apply bool_decide_eq_true in Hn.
  apply (key_le_trans user _ (fm_smallest g)); try done; [apply Hgr|]. unfold key_le.
  rewrite (key_le_lt_trans user _ (fm_largest f)); [done|done|apply Hfr|apply Hgr|done|eapply (files_lookup files j i); [apply Hl|done..]].
Qed.
Lemma past_target files runs target j r e : level_runs files runs -> wellformed target -> runs !! j = Some r -> e ∈ r ->
  (partition_by (fun file => bool_decide (internal_cmp user (fm_smallest file) target <> Gt)) files <= j)%nat -> internal_cmp user e.1 target = Gt.
Proof using All.
  intros Hl Ht Hr He Hj. set (i := partition_by _ _) in *. destruct (run_bounds _ _ _ _ _ Hl Hr He) as (f & Hf & Hfr & Hw & Hle & _).
  destruct (lookup_lt_is_Some_2 files i) as [g Hg]; [apply lookup_lt_Some in Hf; lia|]. pose proof (partition_by_at _ _ _ Hg) as Hn. apply bool_decide_eq_false in Hn.
  destruct (Forall2_lookup_l _ _ _ _ _ (proj1 Hl) Hg) as (r' & _ & Hgr).
  assert (internal_cmp user target (fm_smallest g) = Lt) as Hlt by (rewrite internal_cmp_antisym; destruct (internal_cmp user (fm_smallest g) target); try done; exfalso; by apply Hn).
  rewrite (internal_cmp_antisym user target). rewrite (key_lt_le_trans user target (fm_smallest g)); [done|done|apply Hgr|done|done|].
  destruct (decide (i = j)) as [->|]; [by simplify_eq|]. apply (key_le_trans user _ (fm_largest g)); try done; [apply Hgr..|].
  unfold key_le. rewrite (key_lt_le_trans user _ (fm_smallest f)); [done|apply Hgr|apply Hfr|done|eapply (files_lookup files i j); [apply Hl|done|done|lia]|done].
Qed.

(** *** The laws *)

(** Positioned inside file [i], then on to the files after it. *)
Lemma settle_forward lc runs i r iter (P : entry -> Prop) `{!forall e, Decision (P e)} : level_runs (lv_files lc) runs -> lv_status lc = false -> runs !! i = Some r ->
  cur_at Forward iter r (along Forward P r) ->
  lv_at Forward (if negb (bool_decide (along Forward P r = [])) then lv_put lc (Some (i, iter)) else open_forward_from table_iter (lv_put lc (Some (i, iter))) (i + 1))
    (mjoin runs) (along Forward P r ++ remaining Forward i runs).
Proof using All.
  intros Hl Hst Hr Hat. case_bool_decide as Hn; cbn [negb]; [|by apply (stand Forward lc runs i r)]. rewrite Hn, Nat.add_1_r. by apply open_forward_spec.
Qed.
Lemma settle_backward lc runs i r iter (P : entry -> Prop) `{!forall e, Decision (P e)} : level_runs (lv_files lc) runs -> lv_status lc = false -> runs !! i = Some r ->
  cur_at Reverse iter r (along Reverse P r) ->
  lv_at Reverse (if negb (bool_decide (along Reverse P r = [])) then lv_put lc (Some (i, iter)) else
      match i with O => lv_put lc None | S i' => open_backward_from table_iter (lv_put lc (Some (i, iter))) i' end)
    (mjoin runs) (along Reverse P r ++ remaining Reverse i runs).
Proof using All.
  intros Hl Hst Hr Hat. case_bool_decide as Hn; cbn [negb]; [|by apply (stand Reverse lc runs i r)]. rewrite Hn. destruct i as [|i].
  - exists runs. cbn. split_and!; done.
  - apply open_backward_spec; [done..|]. apply lookup_lt_Some in Hr. lia.
Qed.

Lemma lv_seek_spec lc runs target : level_runs (lv_files lc) runs -> lv_status lc = false -> wellformed target ->
  lv_at Forward (lv_seek user table_iter target lc) (mjoin runs) (along Forward (fun e => internal_cmp user e.1 target <> Lt) (mjoin runs)).
Proof using All.
  intros Hl Hst Ht. unfold lv_seek. set (i := file_at_or_after user lc target).
  assert (forall j r e, (j < i)%nat -> runs !! j = Some r -> e ∈ r -> internal_cmp user e.1 target = Lt) as Hlo by (intros; by eapply before_target).
  destruct (runs !! i) as [r|] eqn:Hr.
  - destruct (open_found lc runs i r Forward (cur_seek target) (fun e => internal_cmp user e.1 target <> Lt) Hl Hst Hr) as (iter & -> & Hat); [intros; by apply cur_seek_law|].
    rewrite (along_split Forward _ runs i r Hr).
    + cbn [lv_put lv_status]. rewrite Hst. by apply settle_forward.
    + intros j r' e Hj Hr' He. split; [|done]. intros Hn. by destruct (Hn (Hlo j r' e Hj Hr' He)).
    + intros j r' e Hj Hr' He. split; [done|]. intros _. by eapply (after_target _ _ _ j).
  - pose proof (Forall2_length _ _ _ (proj1 Hl)) as Hlen. apply lookup_ge_None in Hr. unfold lv_open. rewrite (proj2 (lookup_ge_None _ _)) by (rewrite Hlen; done).
    cbn [lv_put lv_status]. rewrite Hst. pose proof (open_forward_spec (lv_put lc None) runs (i + 1) Hl Hst) as Hat. rewrite drop_ge in Hat by lia.
    rewrite along_none; [done|]. intros e (r & He & (j & Hj)%list_elem_of_lookup)%list_elem_of_join Hn. apply Hn. apply (Hlo j r e); [|done..]. apply lookup_lt_Some in Hj. lia.
Qed.

Lemma lv_seek_for_prev_spec lc runs target : level_runs (lv_files lc) runs -> lv_status lc = false -> wellformed target ->
  lv_at Reverse (lv_seek_for_prev user table_iter target lc) (mjoin runs) (along Reverse (fun e => internal_cmp user e.1 target <> Gt) (mjoin runs)).
Proof using All.
  intros Hl Hst Ht. unfold lv_seek_for_prev, file_at_or_before. destruct (partition_by _ (lv_files lc)) as [|i] eqn:Ei.
  - exists runs. cbn [lv_put lv_files lv_status lv_current]. split_and!; try done. apply along_none.
    intros e (r & He & (j & Hj)%list_elem_of_lookup)%list_elem_of_join Hn. apply Hn. eapply (past_target _ _ _ j); [done..|]. rewrite Ei. lia.
  - assert (i < length runs)%nat as Hi. { rewrite <- (Forall2_length _ _ _ (proj1 Hl)). by apply partition_by_bound in Ei. }
    destruct (lookup_lt_is_Some_2 runs i Hi) as [r Hr].
    destruct (open_found lc runs i r Reverse (cur_seek_for_prev target) (fun e => internal_cmp user e.1 target <> Gt) Hl Hst Hr) as (iter & -> & Hat); [intros; by apply cur_seek_for_prev_law|].
    rewrite (along_split Reverse _ runs i r Hr).
    + pose proof (settle_backward lc runs i r iter _ Hl Hst Hr Hat) as Hs. destruct (negb _); [done|]. cbn [lv_put lv_status]. rewrite Hst. cbn [orb].
      destruct i as [|i]; [done|]. by replace (S i - 1)%nat with i by lia.
    + intros j r' e Hj Hr' He. split; [done|]. intros _. by eapply (upto_target _ _ _ i j).
    + intros j r' e Hj Hr' He. split; [|done]. intros Hn. destruct Hn. eapply (past_target _ _ _ j); [done..|]. rewrite Ei. lia.
Qed.

Lemma lv_next_spec lc runs i iter r here : level_runs (lv_files lc) runs -> lv_status lc = false -> lv_current lc = Some (i, iter) -> runs !! i = Some r ->
  cur_at Forward (cur_next iter) r here -> lv_at Forward (lv_next table_iter lc) (mjoin runs) (here ++ remaining Forward i runs).
Proof using All.
  intros Hl Hst Hc Hr Hat. unfold lv_next. rewrite Hc, (cur_at_valid _ _ _ _ Hat), (cur_at_readable _ _ _ _ Hat). case_bool_decide as Hn; cbn [negb]; [|by apply (stand Forward lc runs i r)].
  rewrite Hn, Nat.add_1_r. by apply open_forward_spec.
Qed.
Lemma lv_prev_spec lc runs i iter r here : level_runs (lv_files lc) runs -> lv_status lc = false -> lv_current lc = Some (i, iter) -> runs !! i = Some r ->
  cur_at Reverse (cur_prev iter) r here -> lv_at Reverse (lv_prev table_iter lc) (mjoin runs) (here ++ remaining Reverse i runs).
Proof using All.
  intros Hl Hst Hc Hr Hat. unfold lv_prev. rewrite Hc, (cur_at_valid _ _ _ _ Hat), (cur_at_readable _ _ _ _ Hat). case_bool_decide as Hn; cbn [negb]; [|by apply (stand Reverse lc runs i r)].
  rewrite Hn. destruct i as [|i]; [by exists runs|]. apply open_backward_spec; [done..|]. apply lookup_lt_Some in Hr. lia.
Qed.

(** Entries of other files against one of file [i]. *)
Lemma other_runs files runs i j r r' a b : level_runs files runs -> runs !! i = Some r -> runs !! j = Some r' -> a ∈ r -> b ∈ r' -> (i < j)%nat -> internal_cmp user a.1 b.1 = Lt.
Proof using All.
  intros Hl Hr Hr' Ha Hb Hij. destruct (Forall2_lookup_r _ _ _ _ _ (proj1 Hl) Hr) as (f & Hf & Hfr), (Forall2_lookup_r _ _ _ _ _ (proj1 Hl) Hr') as (g & Hg & Hgr).
  eapply (runs_apart f g r r'); [done..|eapply (files_lookup files i j); [apply Hl|done..]|done|done].
Qed.

Lemma sorted_part d lc run rest : lv_at d lc run rest -> run_sorted user run.
Proof using All. intros (runs & Hl & -> & _). by eapply level_sorted. Qed.
Lemma along_past runs files i r (e : entry) : level_runs files runs -> runs !! i = Some r -> e ∈ r ->
  along Forward (fun x => internal_cmp user x.1 e.1 = Gt) (mjoin runs) = along Forward (fun x => internal_cmp user x.1 e.1 = Gt) r ++ remaining Forward i runs /\
  along Reverse (fun x => internal_cmp user x.1 e.1 = Lt) (mjoin runs) = along Reverse (fun x => internal_cmp user x.1 e.1 = Lt) r ++ remaining Reverse i runs.
Proof using All.
  intros Hl Hr He. split; apply along_split; try done; intros j r' x Hj Hr' Hx.
  - rewrite (other_runs files runs j i r' r x e) by done. done.
  - rewrite (internal_cmp_antisym user e.1), (other_runs files runs i j r r' e x) by done. done.
  - rewrite (other_runs files runs j i r' r x e) by done. done.
  - rewrite (internal_cmp_antisym user e.1), (other_runs files runs i j r r' e x) by done. done.
Qed.

Lemma here_sub d iter r here runs i : runs !! i = Some r -> cur_at d iter r here -> here ++ remaining d i runs ⊆ mjoin runs.
Proof using All.
  intros Hr Hat e He. rewrite <- (take_drop_middle _ _ _ Hr). rewrite join_app. cbn [mjoin list_join]. apply elem_of_app in He as [He|He].
  - apply (cur_at_rest _ _ _ _ Hat) in He. set_solver.
  - destruct d; cbn in He; [|rewrite elem_of_reverse in He]; set_solver.
Qed.

Lemma cons_app_inv {A} (e : A) rest here tl : e :: rest = here ++ tl -> here <> [] -> exists here', here = e :: here' /\ rest = here' ++ tl.
Proof using. destruct here as [|x here]; [done|]. cbn. intros [= -> ->] _. eauto. Qed.

#[export] Program Instance LevelCursorLaws : CursorLaws (Cursor0 := LevelCursorOps user table_iter) user (LevelCursor C) := { cur_over := lv_over; cur_at := lv_at }.
Next Obligation. intros lc run (runs & Hl & -> & _). by destruct (level_sorted _ _ Hl). Qed.
Next Obligation. intros d lc run rest (runs & Hl & -> & Hst & _). by exists runs. Qed.
Next Obligation.
  intros d lc run rest (runs & Hl & -> & Hst & Hc). destruct (lv_current lc) as [[i iter]|]; [|subst; set_solver].
  destruct Hc as (r & here & Hr & Hat & _ & ->). by eapply here_sub.
Qed.
Next Obligation.
  intros d lc run rest (runs & Hl & -> & Hst & Hc). cbn. rewrite Hst. destruct (lv_current lc) as [[i iter]|]; [|done].
  destruct Hc as (r & here & Hr & Hat & _). cbn. by rewrite (cur_at_readable _ _ _ _ Hat).
Qed.
Next Obligation.
  intros d lc run rest (runs & Hl & -> & Hst & Hc). cbn. destruct (lv_current lc) as [[i iter]|]; [|by subst].
  destruct Hc as (r & here & Hr & Hat & Hne & ->). cbn. rewrite (cur_at_valid _ _ _ _ Hat). by destruct here.
Qed.
Next Obligation.
  intros d lc run e rest (runs & Hl & -> & Hst & Hc). cbn. destruct (lv_current lc) as [[i iter]|]; [|done].
  destruct Hc as (r & here & Hr & Hat & Hne & E). apply cons_app_inv in E as (here' & -> & _); [|done]. cbn. by apply (cur_at_head _ _ _ _ _ Hat).
Qed.
Next Obligation.
  intros lc run rest (runs & Hl & -> & Hst & Hc). cbn. destruct (lv_current lc) as [[i iter]|] eqn:Ec; [|unfold lv_next; rewrite Ec; exists runs; rewrite Ec; by subst].
  destruct Hc as (r & [|e here] & Hr & Hat & Hne & ->); [done|]. cbn. eapply (lv_next_spec lc runs i iter r here); try done. by apply (cur_next_law _ _ _ Hat).
Qed.
Next Obligation.
  intros lc run rest (runs & Hl & -> & Hst & Hc). cbn. destruct (lv_current lc) as [[i iter]|] eqn:Ec; [|unfold lv_prev; rewrite Ec; exists runs; rewrite Ec; by subst].
  destruct Hc as (r & [|e here] & Hr & Hat & Hne & ->); [done|]. cbn. eapply (lv_prev_spec lc runs i iter r here); try done. by apply (cur_prev_law _ _ _ Hat).
Qed.
Next Obligation.
  intros lc run target (runs & Hl & -> & Hst) Ht. eexists. split; [by apply lv_seek_spec|]. apply visits_along. by eapply level_sorted.
Qed.
Next Obligation.
  intros lc run target (runs & Hl & -> & Hst) Ht. eexists. split; [by apply lv_seek_for_prev_spec|]. apply visits_along. by eapply level_sorted.
Qed.
Next Obligation.
  intros lc run (runs & Hl & -> & Hst). exists (along Forward (fun _ => True) (mjoin runs)). split; [|apply visits_along; by eapply level_sorted].
  rewrite along_all. by apply (open_forward_spec lc runs 0).
Qed.
Next Obligation.
  intros lc run (runs & Hl & -> & Hst). exists (along Reverse (fun _ => True) (mjoin runs)). split; [|apply visits_along; by eapply level_sorted].
  rewrite along_all. cbn. unfold lv_seek_to_last. pose proof (Forall2_length _ _ _ (proj1 Hl)) as Hlen. destruct (length (lv_files lc)) as [|last].
  - exists runs. cbn. destruct runs; [|done]. done.
  - rewrite <- (take_ge runs (S last)) at 2 by lia. apply open_backward_spec; [done..|lia].
Qed.
Next Obligation.
  intros lc run (runs & Hl & -> & Hst & Hc). cbn. unfold lv_next. destruct (lv_current lc) as [[i iter]|] eqn:Ec; [|exists runs; by rewrite Ec].
  destruct Hc as (r & [|e here] & Hr & Hat & Hne & E); done.
Qed.
Next Obligation.
  intros lc run (runs & Hl & -> & Hst & Hc). cbn. unfold lv_prev. destruct (lv_current lc) as [[i iter]|] eqn:Ec; [|exists runs; by rewrite Ec].
  destruct Hc as (r & [|e here] & Hr & Hat & Hne & E); done.
Qed.
Next Obligation.
  intros lc run e rest Hlv _. pose proof (sorted_part _ _ _ _ Hlv) as Hsort. destruct Hlv as (runs & Hl & -> & Hst & Hc). destruct (lv_current lc) as [[i iter]|] eqn:Ec; [|done].
  destruct Hc as (r & here & Hr & Hat & Hne & E). apply cons_app_inv in E as (here' & -> & _); [|done].
  assert (run_sorted user r) as Hrs by (destruct (Forall2_lookup_r _ _ _ _ _ (proj1 Hl) Hr) as (f & _ & Hfr); apply Hfr).
  assert (e ∈ r) as He by (apply (cur_at_rest _ _ _ _ Hat); left). destruct (cur_next_turn _ _ _ _ Hat (sorted_uniq _ _ Hrs)) as (here2 & Hat2 & Hv2).
  apply (visits_exact user Forward _ r here2 Hrs) in Hv2 as ->. exists (along Forward (fun x => internal_cmp user x.1 e.1 = Gt) (mjoin runs)).
  split; [|by apply visits_along]. rewrite (proj1 (along_past runs (lv_files lc) i r e Hl Hr He)). by apply (lv_next_spec lc runs i iter r).
Qed.
Next Obligation.
  intros lc run e rest Hlv _. pose proof (sorted_part _ _ _ _ Hlv) as Hsort. destruct Hlv as (runs & Hl & -> & Hst & Hc). destruct (lv_current lc) as [[i iter]|] eqn:Ec; [|done].
  destruct Hc as (r & here & Hr & Hat & Hne & E). apply cons_app_inv in E as (here' & -> & _); [|done].
  assert (run_sorted user r) as Hrs by (destruct (Forall2_lookup_r _ _ _ _ _ (proj1 Hl) Hr) as (f & _ & Hfr); apply Hfr).
  assert (e ∈ r) as He by (apply (cur_at_rest _ _ _ _ Hat); left). destruct (cur_prev_turn _ _ _ _ Hat (sorted_uniq _ _ Hrs)) as (here2 & Hat2 & Hv2).
  apply (visits_exact user Reverse _ r here2 Hrs) in Hv2 as ->. exists (along Reverse (fun x => internal_cmp user x.1 e.1 = Lt) (mjoin runs)).
  split; [|by apply visits_along]. rewrite (proj2 (along_past runs (lv_files lc) i r e Hl Hr He)). by apply (lv_prev_spec lc runs i iter r).
Qed.
End LevelLaws.

(** C20: a level's cursor over files that partition the key space is
    indistinguishable from one cursor over the concatenation of their runs,
    although it has one file open at a time: after any positioning call and any
    interleaving of seeks, [next] and [prev], both stand on the same entry. *)
Theorem level_cursor_refines (user : Comparator) `{!ComparatorLaws user} {C : Type} `{!Cursor C} `{!CursorLaws user C} (table_iter : N -> option C)
    (files : list FileMeta) (runs : list (list entry)) (op : CursorOp) (ops : list CursorOp) :
  level_runs user table_iter files runs -> positions op = true -> Forall (fun op => from_option wellformed True (op_target op)) (op :: ops) ->
  observations (Cursor0 := LevelCursorOps user table_iter) (op :: ops) (LevelCursor_new files) =
  observations (Cursor0 := ListCursorOps user) (op :: ops) (mkListCursor (mjoin runs) None).
Proof.
  intros Hl Hop Hops. pose proof (level_sorted user table_iter files runs Hl) as Hs.
  apply (cursor_simulation user (CursorLaws0 := LevelCursorLaws user table_iter) (CursorLaws1 := ListCursorLaws user) (mjoin runs) (mjoin runs)); try done.
  - by apply sorted_uniq.
  - by exists runs.
Qed.

(** Two tables of one level. *)
Definition low_run : list entry := take 2 both_runs.
Definition high_run : list entry := drop 2 both_runs.
Definition level_file (number : N) (run : list entry) : FileMeta :=
  mkFile number 1 (from_option fst [] (head run)) (from_option fst [] (last run)) 1 7 Local.
Definition two_tables (number : N) : option ListCursor :=
  if (number =? 1)%N then Some (mkListCursor low_run None) else if (number =? 2)%N then Some (mkListCursor high_run None) else None.
Lemma two_tables_runs :
  level_runs (Hops := ListCursorOps BytewiseComparator) (Hcur := ListCursorLaws BytewiseComparator) BytewiseComparator two_tables [level_file 1 low_run; level_file 2 high_run] [low_run; high_run].
Proof.
  split; [|repeat constructor].
  constructor; [|constructor; [|constructor]]; split; try (eexists; split; [reflexivity|]; split; [sorted_run|reflexivity]); try sorted_run; try (by eexists _, _, _; split; [reflexivity|by vm_compute]); try by vm_compute.
  all: repeat (constructor; [split; by vm_compute|]); constructor.
Qed.

Lemma level_cursor_refines_witness :
  observations (Cursor0 := LevelCursorOps (Cursor0 := ListCursorOps BytewiseComparator) BytewiseComparator two_tables)
    [OpSeek (internal_key [Byte.x61] 4 Put); OpNext; OpPrev; OpSeekToLast; OpNext] (LevelCursor_new [level_file 1 low_run; level_file 2 high_run]) =
  [Some (internal_key [Byte.x61] 4 Put, [Byte.x04]); Some (internal_key [Byte.x62] 6 Delete, []); Some (internal_key [Byte.x61] 4 Put, [Byte.x04]);
   Some (internal_key [Byte.x63] 3 Put, [Byte.x03]); None].
Proof.
  rewrite (level_cursor_refines BytewiseComparator (CursorLaws0 := ListCursorLaws BytewiseComparator) two_tables _ [low_run; high_run]).
  - vm_compute. reflexivity.
  - apply two_tables_runs.
  - reflexivity.
  - constructor; [by exists [Byte.x61], 4%N, Put|]. repeat constructor.
Defined.
