(* ===== verification/DbIter.v ===== *)
(** The iterator a caller scans a column family with
    (esker-engine/src/db/iter.rs): it turns a merged run of internal keys, every
    version and tombstone included, into one entry per visible user key, in both
    directions.  The merged cursor underneath is the interface of [Cursor]. *)

From stdpp Require Import prelude sorting.
From Stdlib Require Import NArith Lia.
From S2P Require Import Prelude DbFormat RangeDel Lsm Cursor MergeCursor.

(** The counters and the handles that pin files and the snapshot are left out;
    [it_status] says whether an error was recorded. *)
Record DbIterator (M : Type) := mkIter {
  it_merger : M;
  it_snapshot : N;
  it_direction : Direction;
  it_current : option (bytes * bytes);
  it_tombstones : RangeTombstones;
  it_prefix : option bytes;
  it_extractor : option PrefixExtractor;
  it_status : bool;
}.
Arguments mkIter {M}.
Arguments it_merger {M}.
Arguments it_snapshot {M}.
Arguments it_direction {M}.
Arguments it_current {M}.
Arguments it_tombstones {M}.
Arguments it_prefix {M}.
Arguments it_extractor {M}.
Arguments it_status {M}.

Definition SEQUENTIAL_SKIPS_BEFORE_SEEK : nat := 8.
Definition past_user_key (user : bytes) : bytes := user ++ [Byte.x00].

Section DbIter.
Context (user : Comparator) {M : Type} `{!Cursor M}.

Definition DbIterator_new (merger : M) (snapshot : N) (tombstones : RangeTombstones) (extractor : option PrefixExtractor) : DbIterator M :=
  mkIter merger snapshot Forward None tombstones None extractor false.

Definition with_merger (it : DbIterator M) (m : M) : DbIterator M :=
  mkIter m (it_snapshot it) (it_direction it) (it_current it) (it_tombstones it) (it_prefix it) (it_extractor it) (it_status it).
Definition with_current (it : DbIterator M) (current : option (bytes * bytes)) : DbIterator M :=
  mkIter (it_merger it) (it_snapshot it) (it_direction it) current (it_tombstones it) (it_prefix it) (it_extractor it) (it_status it).
Definition with_direction (it : DbIterator M) (d : Direction) : DbIterator M :=
  mkIter (it_merger it) (it_snapshot it) d (it_current it) (it_tombstones it) (it_prefix it) (it_extractor it) (it_status it).
Definition with_prefix (it : DbIterator M) (prefix : option bytes) : DbIterator M :=
  mkIter (it_merger it) (it_snapshot it) (it_direction it) (it_current it) (it_tombstones it) prefix (it_extractor it) (it_status it).

Definition it_fail (it : DbIterator M) : DbIterator M :=
  mkIter (it_merger it) (it_snapshot it) (it_direction it) None (it_tombstones it) (it_prefix it) (it_extractor it) true.

Definition it_valid (it : DbIterator M) : bool := bool_decide (is_Some (it_current it)).
Definition it_key (it : DbIterator M) : bytes := from_option fst [] (it_current it).
Definition it_value (it : DbIterator M) : bytes := from_option snd [] (it_current it).
Definition it_error (it : DbIterator M) : bool := it_status it || cur_error (it_merger it).

Definition set_prefix (it : DbIterator M) (target : bytes) : DbIterator M :=
  with_prefix it ((fun ex => if pe_in_domain ex target then pe_prefix ex target else target) <$> it_extractor it).
Definition in_prefix (it : DbIterator M) (key : bytes) : bool :=
  match it_prefix it, it_extractor it with
  | Some prefix, Some ex => pe_in_domain ex key && bool_decide (pe_prefix ex key = prefix)
  | _, _ => true
  end.
Definition it_hidden (it : DbIterator M) (key : bytes) (seqno : N) : bool :=
  negb (bool_decide (it_tombstones it = [])) && rts_hides user (it_tombstones it) key seqno (it_snapshot it).

(** At or below the key already decided. *)
Definition decided (skipping : option bytes) (key : bytes) : bool :=
  match skipping with Some k => bool_decide (cmp user key k <> Gt) | None => false end.

(** [None] when [fuel] steps were not enough. *)
Fixpoint find_next_loop (fuel : nat) (it : DbIterator M) (skipping : option bytes) (skipped : nat) : option (DbIterator M) :=
  match fuel with
  | O => None
  | S fuel =>
      let m := it_merger it in
      if negb (cur_valid m) then Some (with_current it None) else
      match split_internal_key (cur_key m) with
      | None => Some (it_fail it)
      | Some (key, seqno, kind) =>
          if (seqno <=? it_snapshot it)%N then
            if decided skipping key then
              if (SEQUENTIAL_SKIPS_BEFORE_SEEK <=? skipped + 1)%nat
              then find_next_loop fuel (with_merger it (cur_seek (lookup_key (past_user_key key) MAX_SEQNO) m)) skipping 0
              else find_next_loop fuel (with_merger it (cur_next m)) skipping (skipped + 1)
            else if negb (in_prefix it key) then Some (with_current it None) else
            match kind with
            | Put =>
                if negb (it_hidden it key seqno) then Some (with_current it (Some (key, cur_value m)))
                else find_next_loop fuel (with_merger it (cur_next m)) (Some key) 0
            | Delete | DeleteRange => find_next_loop fuel (with_merger it (cur_next m)) (Some key) 0
            end
          else find_next_loop fuel (with_merger it (cur_next m)) skipping skipped
      end
  end.
Definition find_next (fuel : nat) (it : DbIterator M) (skipping : option bytes) : option (DbIterator M) := find_next_loop fuel it skipping 0.

Definition settle_found (it : DbIterator M) (found : option (bytes * bytes)) : DbIterator M :=
  with_current it (kv ← found; if in_prefix it kv.1 then Some kv else None).
Fixpoint find_prev_loop (fuel : nat) (it : DbIterator M) (found : option (bytes * bytes)) : option (DbIterator M) :=
  match fuel with
  | O => None
  | S fuel =>
      let m := it_merger it in
      if negb (cur_valid m) then Some (settle_found it found) else
      match split_internal_key (cur_key m) with
      | None => Some (it_fail it)
      | Some (key, seqno, kind) =>
          if (seqno <=? it_snapshot it)%N then
            if from_option (fun kv : bytes * bytes => bool_decide (cmp user key kv.1 = Lt)) false found then Some (settle_found it found) else
            find_prev_loop fuel (with_merger it (cur_prev m))
              (match kind with
               | Put => if negb (it_hidden it key seqno) then Some (key, cur_value m) else None
               | Delete | DeleteRange => None
               end)
          else find_prev_loop fuel (with_merger it (cur_prev m)) found
      end
  end.
Definition find_prev (fuel : nat) (it : DbIterator M) : option (DbIterator M) := find_prev_loop fuel it None.

Definition step_forward_past (it : DbIterator M) (key : bytes) : DbIterator M :=
  with_merger it (cur_seek (internal_key key 0 Delete) (it_merger it)).
Fixpoint step_back_loop (fuel : nat) (it : DbIterator M) (key : bytes) : option (DbIterator M) :=
  match fuel with
  | O => None
  | S fuel =>
      let m := it_merger it in
      if negb (cur_valid m) then Some it else
      if bool_decide (cmp user (extract_user_key (cur_key m)) key = Lt) then Some it
      else step_back_loop fuel (with_merger it (cur_prev m)) key
  end.
Definition step_back_past (fuel : nat) (it : DbIterator M) (key : bytes) : option (DbIterator M) :=
  step_back_loop fuel (with_merger it (cur_seek_for_prev (lookup_key key MAX_SEQNO) (it_merger it))) key.

Definition it_seek_to_first (fuel : nat) (it : DbIterator M) : option (DbIterator M) :=
  let it := with_prefix it None in
  find_next fuel (with_direction (with_merger it (cur_seek_to_first (it_merger it))) Forward) None.
Definition it_seek_to_last (fuel : nat) (it : DbIterator M) : option (DbIterator M) :=
  let it := with_prefix it None in
  find_prev fuel (with_direction (with_merger it (cur_seek_to_last (it_merger it))) Reverse).
Definition it_seek (fuel : nat) (it : DbIterator M) (target : bytes) : option (DbIterator M) :=
  let it := set_prefix it target in
  find_next fuel (with_direction (with_merger it (cur_seek (lookup_key target MAX_SEQNO) (it_merger it))) Forward) None.
Definition it_seek_for_prev (fuel : nat) (it : DbIterator M) (target : bytes) : option (DbIterator M) :=
  let it := set_prefix it target in
  find_prev fuel (with_direction (with_merger it (cur_seek_for_prev (internal_key target 0 Delete) (it_merger it))) Reverse).

Definition it_next (fuel : nat) (it : DbIterator M) : option (DbIterator M) :=
  match it_current it with
  | None => Some it
  | Some (key, _) =>
      let it := match it_direction it with
        | Reverse => with_direction (step_forward_past it key) Forward
        | Forward => with_merger it (cur_next (it_merger it))
        end in
      find_next fuel it (Some key)
  end.
Definition it_prev (fuel : nat) (it : DbIterator M) : option (DbIterator M) :=
  match it_current it with
  | None => Some it
  | Some (key, _) =>
      it ← match it_direction it with
        | Forward => (fun it => with_direction it Reverse) <$> step_back_past fuel it key
        | Reverse => Some it
        end;
      find_prev fuel it
  end.
Definition it_op (fuel : nat) (op : CursorOp) (it : DbIterator M) : option (DbIterator M) :=
  match op with
  | OpSeek t => it_seek fuel it t
  | OpSeekForPrev t => it_seek_for_prev fuel it t
  | OpSeekToFirst => it_seek_to_first fuel it
  | OpSeekToLast => it_seek_to_last fuel it
  | OpNext => it_next fuel it
  | OpPrev => it_prev fuel it
  end.
(** What the caller sees after each call. *)
Fixpoint it_observations (fuel : nat) (ops : list CursorOp) (it : DbIterator M) : option (list (option (bytes * bytes))) :=
  match ops with
  | [] => Some []
  | op :: ops => it ← it_op fuel op it; seen ← it_observations fuel ops it; Some (it_current it :: seen)
  end.
End DbIter.

(** ** The scan it stands for *)

Section Scan.
Context (user : Comparator) (tombstones : RangeTombstones) (snapshot : N).

(** One pair for each key whose newest version at the snapshot is a value no
    range tombstone covers. *)
Fixpoint scan (skipping : option bytes) (entries : list entry) : list (bytes * bytes) :=
  match entries with
  | [] => []
  | e :: entries =>
      match split_internal_key e.1 with
      | None => scan skipping entries
      | Some (key, seqno, kind) =>
          if (seqno <=? snapshot)%N && negb (decided user skipping key) then
            if bool_decide (kind = Put) && negb (rts_hides user tombstones key seqno snapshot) then (key, e.2) :: scan (Some key) entries
            else scan (Some key) entries
          else scan skipping entries
      end
  end.
End Scan.

(** A cursor over the pairs themselves. *)
Section Pairs.
Context (user : Comparator).
Definition pair_op (op : CursorOp) (pairs : list (bytes * bytes)) (p : option nat) : option nat :=
  match op with
  | OpSeek t => fst <$> list_find (fun kv : bytes * bytes => cmp user kv.1 t <> Lt) pairs
  | OpSeekForPrev t => rposition (fun kv : bytes * bytes => bool_decide (cmp user kv.1 t <> Gt)) pairs
  | OpSeekToFirst => if decide (pairs = []) then None else Some 0%nat
  | OpSeekToLast => if decide (pairs = []) then None else Some (length pairs - 1)%nat
  | OpNext => p ← p; if decide (S p < length pairs)%nat then Some (S p) else None
  | OpPrev => p ← p; match p with O => None | S p => Some p end
  end.
Fixpoint pair_observations (ops : list CursorOp) (pairs : list (bytes * bytes)) (p : option nat) : list (option (bytes * bytes)) :=
  match ops with [] => [] | op :: ops => let p := pair_op op pairs p in (p ← p; pairs !! p) :: pair_observations ops pairs p end.
End Pairs.

Section ScanLemmas.
Context (user : Comparator) `{!ComparatorLaws user} (tombstones : RangeTombstones) (snapshot : N).
Abbreviation scan := (scan user tombstones snapshot).

(** An entry the snapshot sees. *)
Definition seen (e : entry) : Prop := exists s k, split_internal_key e.1 = Some (extract_user_key e.1, s, k) /\ (s <= snapshot)%N.

Lemma decided_spec w key : decided user (Some w) key = true <-> cmp user key w <> Gt.
Proof using. unfold decided. by rewrite bool_decide_eq_true. Qed.
Lemma skip_decided_mono w w' key : cmp user w w' <> Gt -> decided user (Some w) key = true -> decided user (Some w') key = true.
Proof using All. rewrite !decided_spec. intros Hw Hk. by apply (cmp_le_trans user key w w'). Qed.

(** The step of [scan] on an entry it looks at, and on one it does not. *)
Lemma scan_cons skip e l : scan skip (e :: l) =
  match split_internal_key e.1 with
  | Some (key, seqno, kind) =>
      if (seqno <=? snapshot)%N && negb (decided user skip key) then
        (if bool_decide (kind = Put) && negb (rts_hides user tombstones key seqno snapshot) then [(key, e.2)] else []) ++ scan (Some key) l
      else scan skip l
  | None => scan skip l
  end.
Proof using. cbn. destruct (split_internal_key e.1) as [[[key s] k]|]; [|done]. destruct (_ && negb (decided _ _ _)); [|done]. by destruct (_ && _). Qed.

Lemma scan_from skip l kv : kv ∈ scan skip l -> exists e, e ∈ l /\ seen e /\ extract_user_key e.1 = kv.1 /\ decided user skip kv.1 = false.
Proof using All.
  revert skip. induction l as [|e l IH]; intros skip; [by intros ?%elem_of_nil|]. rewrite scan_cons.
  destruct (split_internal_key e.1) as [[[key s] k]|] eqn:E; [|intros (e' & ? & ? & ? & ?)%IH; exists e'; split_and!; [by right|done..]].
  pose proof (split_user _ _ _ _ E) as Hkey. destruct (N.leb_spec s snapshot) as [Hs|Hs]; cbn [andb]; [|intros (e' & ? & ? & ? & ?)%IH; exists e'; split_and!; [by right|done..]].
  destruct (decided user skip key) eqn:Hd; cbn [negb]; [intros (e' & ? & ? & ? & ?)%IH; exists e'; split_and!; [by right|done..]|].
  intros [Hkv|(e' & ? & ? & ? & Hd')%IH]%elem_of_app.
  - destruct (_ && _); [|by apply elem_of_nil in Hkv]. apply list_elem_of_singleton in Hkv as ->. exists e. split; [left|]. split; [exists s, k; by rewrite <- Hkey|]. by rewrite <- Hkey.
  - exists e'. split_and!; [by right|done..|]. destruct skip as [w|]; [|done]. destruct (decided user (Some w) kv.1) eqn:Hd2; [|done].
    rewrite <- Hd'. symmetry. apply decided_spec. apply decided_spec in Hd2. apply (cmp_le_trans user _ w); [done|].
    unfold decided in Hd. apply bool_decide_eq_false in Hd. rewrite cmp_antisym. by destruct (cmp user key w); [destruct Hd|destruct Hd|].
Qed.

Lemma scan_above w l : Forall (fun kv => cmp user kv.1 w = Gt) (scan (Some w) l).
Proof using All.
  apply Forall_forall. intros kv (e & _ & _ & _ & Hd)%scan_from. unfold decided in Hd. apply bool_decide_eq_false in Hd. destruct (cmp user kv.1 w); [by destruct Hd|by destruct Hd|done].
Qed.

Lemma scan_sorted skip l : StronglySorted (fun a b => cmp user a.1 b.1 = Lt) (scan skip l).
Proof using All.
  revert skip. induction l as [|e l IH]; intros skip; [constructor|]. rewrite scan_cons. destruct (split_internal_key e.1) as [[[key s] k]|]; [|done].
  destruct (_ && negb _); [|done]. destruct (_ && _); [|apply IH]. constructor; [apply IH|]. eapply Forall_impl; [apply scan_above|]. intros kv. cbn. rewrite cmp_antisym. by destruct (cmp user key kv.1).
Qed.

(** Skipping drops the keys at or below the bound, and nothing else. *)
Lemma scan_skip skip w l : from_option (fun k => cmp user k w <> Gt) True skip -> scan (Some w) l = filter (fun kv => cmp user kv.1 w = Gt) (scan skip l).
Proof using All.
  revert skip. induction l as [|e l IH]; intros skip Hskip; [done|]. rewrite !scan_cons. destruct (split_internal_key e.1) as [[[key s] k]|]; [|by apply IH].
  destruct (s <=? snapshot)%N; cbn [andb]; [|by apply IH]. destruct (decided user (Some w) key) eqn:Hw; cbn [negb].
  - apply decided_spec in Hw. destruct (decided user skip key); cbn [negb]; [by apply IH|]. rewrite filter_app, (IH (Some key)) by done.
    destruct (_ && _); [|done]. by rewrite filter_cons_False by done.
  - assert (cmp user key w = Gt) as Hgt by (unfold decided in Hw; apply bool_decide_eq_false in Hw; by destruct (cmp user key w); [destruct Hw|destruct Hw|]).
    assert (decided user skip key = false) as ->. { destruct skip as [k'|]; [|done]. destruct (decided user (Some k') key) eqn:Hd; [|done]. cbn in Hskip. rewrite (skip_decided_mono k' w key Hskip Hd) in Hw. done. }
    cbn [negb]. rewrite filter_app. f_equal; [destruct (_ && _); [by rewrite filter_cons_True|done]|]. symmetry. apply filter_all.
    eapply Forall_impl; [apply scan_above|]. intros kv Hkv. cbn in Hkv. rewrite cmp_antisym in Hkv |- *. apply CompOpp_iff in Hkv. cbn in Hkv. apply CompOpp_iff. cbn.
    apply (cmp_lt_trans _ key); [|done]. rewrite cmp_antisym, Hgt. done.
Qed.

Lemma scan_decided skip l l' : (forall e, e ∈ l -> seen e -> decided user skip (extract_user_key e.1) = true) -> scan skip (l ++ l') = scan skip l'.
Proof using.
  induction l as [|e l IH]; intros Hl; [done|]. change ((e :: l) ++ l') with (e :: (l ++ l')). rewrite scan_cons, IH by (intros; apply Hl; [by right|done]).
  destruct (split_internal_key e.1) as [[[key s] k]|] eqn:E; [|done]. destruct (N.leb_spec s snapshot) as [Hs|Hs]; [|done]. cbn [andb].
  pose proof (split_user _ _ _ _ E) as ->. rewrite Hl; [done|left|by exists s, k].
Qed.

(** Two runs that share no visible key scan one after the other. *)
Definition boundary (l l' : list entry) : Prop :=
  forall a b, a ∈ l -> b ∈ l' -> seen a -> seen b -> cmp user (extract_user_key a.1) (extract_user_key b.1) = Lt.
Lemma scan_app skip l l' : boundary l l' -> (forall w b, skip = Some w -> b ∈ l' -> seen b -> cmp user w (extract_user_key b.1) = Lt) ->
  scan skip (l ++ l') = scan skip l ++ scan None l'.
Proof using All.
  revert skip. induction l as [|e l IH]; intros skip Hb Hskip.
  - cbn [app scan]. destruct skip as [w|]; [|done]. rewrite (scan_skip None) by done. apply filter_all, Forall_forall. intros kv (e & He & Hs & <- & _)%scan_from.
    apply cmp_gt_lt; [done|]. by apply Hskip.
  - change ((e :: l) ++ l') with (e :: (l ++ l')). rewrite !scan_cons. assert (boundary l l') as Hb' by (intros a b Ha; apply Hb; by right).
    destruct (split_internal_key e.1) as [[[key s] k]|] eqn:E; [|by apply IH]. destruct (N.leb_spec s snapshot) as [Hs|Hs]; cbn [andb]; [|by apply IH].
    destruct (decided user skip key); cbn [negb]; [by apply IH|]. rewrite IH, app_assoc; [done|done|]. intros w b [= <-] Hin Hsb.
    pose proof (split_user _ _ _ _ E) as ->. apply Hb; [left|done| |done]. by exists s, k.
Qed.

(** *** What it computes *)

Definition pair_get (pairs : list (bytes * bytes)) (key : bytes) : option bytes :=
  (fun x : nat * (bytes * bytes) => x.2.2) <$> list_find (fun kv : bytes * bytes => cmp user kv.1 key = Eq) pairs.
Lemma pair_get_cons kv pairs key : pair_get (kv :: pairs) key = if decide (cmp user kv.1 key = Eq) then Some kv.2 else pair_get pairs key.
Proof using. unfold pair_get. cbn. destruct (decide _); [done|]. by destruct (list_find _ pairs) as [[? ?]|]. Qed.
Lemma pair_get_none pairs key : (forall kv, kv ∈ pairs -> cmp user kv.1 key <> Eq) -> pair_get pairs key = None.
Proof using. intros Hn. unfold pair_get. rewrite (proj2 (list_find_None _ _)); [done|]. by apply Forall_forall. Qed.
Lemma pair_get_filter w pairs key : cmp user w key = Lt -> pair_get (filter (fun kv => cmp user kv.1 w = Gt) pairs) key = pair_get pairs key.
Proof using All.
  intros Hw. induction pairs as [|kv pairs IH]; [done|]. rewrite filter_cons, pair_get_cons. destruct (decide (cmp user kv.1 w = Gt)) as [Hg|Hg]; [by rewrite pair_get_cons, IH|].
  rewrite IH. destruct (decide (cmp user kv.1 key = Eq)) as [He|]; [|done]. exfalso. apply Hg. apply cmp_gt_lt; [done|]. by rewrite (cmp_eq_r user _ key _ He).
Qed.

Lemma sorted_seqnos l key : StronglySorted (towards user Forward) l -> Forall (fun e : entry => wellformed e.1) l ->
  StronglySorted (fun v v' => (ver_seqno v' <= ver_seqno v)%N) (versions_of user l key snapshot).
Proof using All.
  induction 1 as [|e l Hs IH Hall]; intros Hw; [constructor|]. apply Forall_cons in Hw as [Hwe Hw]. rewrite versions_of_cons. destruct (version_of user key snapshot e) as [v|] eqn:Ev; [|by apply IH].
  constructor; [by apply IH|]. apply Forall_forall. intros v' (e' & He' & Ev')%elem_of_versions_of. rewrite Forall_forall in Hall, Hw. specialize (Hall e' He').
  destruct Hwe as (u & sq & k & Ee & Hsq), (Hw e' He') as (u' & sq' & k' & Ee' & Hsq'). destruct e as [ek ev], e' as [ek' ev']. cbn [fst] in Ee, Ee'. subst ek ek'.
  rewrite version_of_key in Ev, Ev' by done. cbn [towards fst] in Hall. unfold key_le in Hall. rewrite internal_cmp_keys in Hall by done. unfold version_cmp in Hall.
  do 2 (case_bool_decide; [|done]). assert (cmp user u u' = Eq) as Euu by (by rewrite (cmp_eq_r user u' key u)). rewrite Euu in Hall. cbn in Ev, Ev'. destruct (sq <=? snapshot)%N; [|done]. destruct (sq' <=? snapshot)%N; [|done]. simplify_eq. cbn.
  destruct (N.compare_spec sq' sq); [lia|lia|done].
Qed.

Lemma rts_hides_key u key sq : cmp user u key = Eq -> rts_hides user tombstones u sq snapshot = rts_hides user tombstones key sq snapshot.
Proof using All.
  intros E. apply eq_true_iff_eq. rewrite !rts_hides_spec. by setoid_rewrite (contains_congr user _ _ _ E).
Qed.

(** A key the scan passed, one it meets and one it has not reached. *)
Lemma scan_visible l key : StronglySorted (towards user Forward) l -> Forall (fun e : entry => wellformed e.1) l ->
  visible_value user l tombstones key snapshot = pair_get (scan None l) key.
Proof using All.
  intros Hs Hw. unfold visible_value. rewrite newest_head by by apply sorted_seqnos. revert Hw. induction Hs as [|e l Hs IH Hall]; intros Hw; [done|].
  apply Forall_cons in Hw as [(u & sq & k & Ee & Hsq) Hw]. destruct e as [ek ev]. cbn [fst] in Ee. subst ek. specialize (IH Hw).
  rewrite versions_of_cons, version_of_key, scan_cons by done. cbn [fst snd]. rewrite (proj2 (split_internal_key_spec _ u sq k)) by done.
  destruct (N.leb_spec sq snapshot) as [Hle|Hgt]; cbn [andb decided negb]; [|by rewrite andb_false_r].
  rewrite andb_true_r. case_bool_decide as Hu.
  - cbn [head judge]. assert (pair_get (scan (Some u) l) key = None) as Hn. { apply pair_get_none. intros kv Hkv. pose proof (scan_above u l) as Ha. rewrite Forall_forall in Ha. specialize (Ha kv Hkv). apply cmp_eq_r with (d := kv.1) in Hu; [|done]. rewrite <- Hu, Ha. done. }
    rewrite (rts_hides_key u key sq Hu). destruct k; try (rewrite bool_decide_false by done; cbn [andb app]; by rewrite Hn). rewrite bool_decide_true by done.
    destruct (rts_hides _ _ _ _ _); cbn [andb negb app]; [by rewrite Hn|]. by rewrite pair_get_cons, decide_True by done.
  - rewrite IH. assert (pair_get (scan (Some u) l) key = pair_get (scan None l) key) as <-.
    { destruct (cmp user u key) eqn:E; [done|by rewrite (scan_skip None u l), pair_get_filter by done|]. rewrite !pair_get_none; [done| |]; intros kv (e' & He' & _ & <- & _)%scan_from Heq.
      all: rewrite Forall_forall in Hall, Hw; specialize (Hall e' He'); destruct (Hw e' He') as (u' & sq' & k' & Ee' & Hsq'); cbn [towards fst] in Hall; rewrite Ee' in Hall, Heq; rewrite extract_user_internal in Heq.
      all: unfold key_le in Hall; rewrite internal_cmp_keys in Hall by done; unfold version_cmp in Hall; rewrite (cmp_eq_r user _ _ u Heq), E in Hall; done. }
    destruct (_ && _); [|done]. cbn [app]. rewrite pair_get_cons. by rewrite decide_False.
Qed.
End ScanLemmas.

(** What [past_user_key] needs of the comparator: appending a zero byte gives
    the next key. *)
Class ByteSuccessor (user : Comparator) : Prop := {
  past_above key : cmp user key (past_user_key key) = Lt;
  past_least key key' : cmp user key key' = Lt -> cmp user (past_user_key key) key' <> Gt }.

#[export] Instance bytewise_successor_law : ByteSuccessor BytewiseComparator.
Proof.
  split; unfold past_user_key; cbn [cmp BytewiseComparator].
  - intros key. induction key as [|b key IH]; [done|]. cbn. by rewrite N.compare_refl.
  - intros key. induction key as [|b key IH]; intros [|b' key']; cbn [bytes_cmp app]; try done.
    + intros _. destruct (N.compare_spec (b2n Byte.x00) (b2n b')) as [E|E|E]; [by destruct key'|done|]. change (b2n Byte.x00) with 0%N in E. lia.
    + destruct (N.compare (b2n b) (b2n b')); [apply IH|done|done].
Qed.

Lemma not_lt_cmp (user : Comparator) `{!ComparatorLaws user} a b : cmp user a b <> Gt <-> cmp user b a <> Lt.
Proof. rewrite (cmp_antisym a b). by destruct (cmp user a b). Qed.

(** ** The iterator is a cursor over the visible pairs *)

Section IterSpec.
Context (user : Comparator) `{!ComparatorLaws user} `{!ByteSuccessor user} {M : Type} `{!Cursor M} `{!CursorLaws user M}.
Context (tombstones : RangeTombstones) (snapshot : N) (run srt : list entry).
Context (Hperm : srt ≡ₚ run) (Hsrt : StronglySorted (towards user Forward) srt) (Hwf : Forall (fun e : entry => wellformed e.1) srt).
Context (Hcons : forall a b : entry, a ∈ srt -> b ∈ srt -> internal_cmp user a.1 b.1 = Eq -> a = b).
Abbreviation scan := (scan user tombstones snapshot).
Abbreviation seen := (seen snapshot).
Abbreviation key_of := (fun e : entry => extract_user_key e.1).

Lemma visits_srt d (P : entry -> Prop) `{!forall e, Decision (P e)} rest : visits user d P run rest -> rest = along d P srt.
Proof using All.
  intros [Hs Hp]. eapply (StronglySorted_unique_strong (towards user d)); [|exact Hs| |].
  - intros a b Ha Hb H1 H2. apply Hcons; [..|by eapply towards_antisym].
    + rewrite Hp in Ha. apply list_elem_of_filter in Ha as [_ Ha]. by rewrite Hperm.
    + destruct d; cbn in Hb; [|rewrite elem_of_reverse in Hb]; by apply list_elem_of_filter in Hb as [_ Hb].
  - pose proof (sorted_filter _ P _ Hsrt) as Hf. destruct d; cbn; [done|]. by apply StronglySorted_reverse in Hf.
  - rewrite Hp. destruct d; cbn; [|rewrite reverse_Permutation]; by rewrite Hperm.
Qed.

Lemma srt_keys l a m b r : srt = l ++ a :: m ++ b :: r -> cmp user (key_of a) (key_of b) <> Gt.
Proof using All.
  intros ->. apply StronglySorted_app_1_r, StronglySorted_inv in Hsrt as [_ Hall]. rewrite Forall_forall in Hall, Hwf.
  assert (towards user Forward a b) as Hle by (apply Hall; set_solver). cbn in Hle. unfold key_le in Hle.
  destruct (Hwf a ltac:(set_solver)) as (u & s & k & Ea & Hs), (Hwf b ltac:(set_solver)) as (u' & s' & k' & Eb & Hs'). rewrite Ea, Eb in *. rewrite !extract_user_internal.
  rewrite internal_cmp_keys in Hle by done. unfold version_cmp in Hle. by destruct (cmp user u u').
Qed.

(** *** Where the four seeks land *)

Lemma wf_split e : e ∈ srt -> exists s k, e.1 = internal_key (key_of e) s k /\ (s <= MAX_SEQNO)%N /\ split_internal_key e.1 = Some (key_of e, s, k).
Proof using All.
  intros He. rewrite Forall_forall in Hwf. destruct (Hwf e He) as (u & s & k & E & Hs). exists s, k. rewrite E, extract_user_internal. split_and!; [done..|]. by apply split_internal_key_spec.
Qed.
Lemma towards_bound a b t : a ∈ srt -> b ∈ srt -> wellformed t -> towards user Forward a b ->
  (internal_cmp user a.1 t <> Lt -> internal_cmp user b.1 t <> Lt) /\ (internal_cmp user b.1 t <> Gt -> internal_cmp user a.1 t <> Gt).
Proof using All.
  intros Ha Hb Ht Hab. rewrite Forall_forall in Hwf. cbn in Hab. split; [rewrite !not_lt_le by done|]; intros H; [apply (key_le_trans user _ a.1)|apply (key_le_trans user _ b.1)]; auto.
Qed.

Lemma seek_split m t : cur_over m run -> wellformed t -> exists l1 l2, srt = l1 ++ l2 /\ cur_at Forward (cur_seek t m) run l2 /\
  (forall e, e ∈ l1 -> internal_cmp user e.1 t = Lt) /\ (forall e, e ∈ l2 -> internal_cmp user e.1 t <> Lt).
Proof using All.
  intros Ho Ht. destruct (cur_seek_law m run t Ho Ht) as (rest & Hat & Hv%visits_srt).
  destruct (split_upward (towards user Forward) (fun e : entry => internal_cmp user e.1 t <> Lt) srt Hsrt) as (l1 & l2 & E & Hf & H1 & H2).
  { intros a b Ha Hb Hab. by apply (towards_bound a b t). }
  exists l1, l2. cbn in Hv. rewrite Hf in Hv. subst rest. split_and!; try done. intros e He. specialize (H1 e He). by destruct (internal_cmp user e.1 t); [destruct H1| |destruct H1].
Qed.
Lemma seek_back_split m t : cur_over m run -> wellformed t -> exists l1 l2, srt = l1 ++ l2 /\ cur_at Reverse (cur_seek_for_prev t m) run (reverse l1) /\
  (forall e, e ∈ l1 -> internal_cmp user e.1 t <> Gt) /\ (forall e, e ∈ l2 -> internal_cmp user e.1 t = Gt).
Proof using All.
  intros Ho Ht. destruct (cur_seek_for_prev_law m run t Ho Ht) as (rest & Hat & Hv%visits_srt).
  destruct (split_downward (towards user Forward) (fun e : entry => internal_cmp user e.1 t <> Gt) srt Hsrt) as (l1 & l2 & E & Hf & H1 & H2).
  { intros a b Ha Hb Hab. by apply (towards_bound a b t). }
  exists l1, l2. cbn in Hv. rewrite Hf in Hv. subst rest. split_and!; try done. intros e He. specialize (H2 e He). by destruct (internal_cmp user e.1 t); [destruct H2|destruct H2|].
Qed.

Lemma lookup_wellformed t : wellformed (lookup_key t MAX_SEQNO).
Proof using. exists t, MAX_SEQNO, DeleteRange. by rewrite lookup_key_eq. Qed.
Lemma oldest_wellformed t : wellformed (internal_key t 0 Delete).
Proof using. exists t, 0%N, Delete. by split. Qed.

(** Against the newest conceivable version of a key, and against the oldest. *)
Lemma cmp_lookup e t : e ∈ srt -> internal_cmp user e.1 (lookup_key t MAX_SEQNO) <> Lt <-> cmp user (key_of e) t <> Lt.
Proof using All.
  intros (s & k & E & Hs & _)%wf_split. rewrite E at 1. rewrite not_lt_le by done. unfold key_le. rewrite lookup_key_seek by done. rewrite (cmp_antisym t).
  destruct (cmp user t (key_of e)); cbn; split; try done; [by right|by left|intros [|[]]; done].
Qed.
Lemma cmp_oldest e t : e ∈ srt -> internal_cmp user e.1 (internal_key t 0 Delete) <> Gt <-> cmp user (key_of e) t <> Gt.
Proof using All.
  intros (s & k & E & Hs & _)%wf_split. rewrite E at 1. rewrite internal_cmp_keys by done. unfold version_cmp. destruct (cmp user (key_of e) t); [|done|done].
  destruct (N.compare_spec 0 s); [by destruct k|done|lia].
Qed.

(** *** The loops *)

(** What no call of the iterator changes; no prefix is asked for. *)
Definition fixed (it : DbIterator M) : Prop :=
  it_snapshot it = snapshot /\ it_tombstones it = tombstones /\ it_extractor it = None /\ it_status it = false.
Lemma fixed_prefix it key : fixed it -> in_prefix it key = true.
Proof using. intros (_ & _ & He & _). unfold in_prefix. rewrite He. by destruct (it_prefix it). Qed.
Lemma fixed_hidden it key s : fixed it -> it_hidden user it key s = rts_hides user tombstones key s snapshot.
Proof using. intros (Hsn & Ht & _). unfold it_hidden. rewrite Hsn, Ht. by destruct tombstones. Qed.

(** Found going forward: [l] is what the scan still has to give. *)
Definition forward_at (it : DbIterator M) (l : list (bytes * bytes)) : Prop :=
  fixed it /\ it_direction it = Forward /\ cur_over (it_merger it) run /\ it_current it = head l /\
  forall kv, head l = Some kv -> exists l1 e l2, srt = l1 ++ e :: l2 /\ cur_at Forward (it_merger it) run (e :: l2) /\ scan (Some kv.1) l2 = tail l.

Lemma past_skips l1 e l2 m skip : srt = l1 ++ e :: l2 -> cur_over m run -> decided user skip (key_of e) = true ->
  exists l1' l2', srt = l1' ++ l2' /\ cur_at Forward (cur_seek (lookup_key (past_user_key (key_of e)) MAX_SEQNO) m) run l2' /\
    scan skip (e :: l2) = scan skip l2' /\ (length l2' <= length l2)%nat.
Proof using All.
  intros E Ho Hd. destruct (seek_split m _ Ho (lookup_wellformed (past_user_key (key_of e)))) as (l1' & l2' & E' & Hat & H1 & H2).
  assert (forall x, x ∈ l1' -> cmp user (key_of x) (key_of e) <> Gt) as Hlow.
  { intros x Hx Hgt. apply cmp_gt_lt in Hgt; [|done]. apply past_least in Hgt. rewrite not_lt_cmp in Hgt by done.
    apply cmp_lookup in Hgt; [by rewrite H1 in Hgt|]. rewrite E'. set_solver. }
  assert (length l1 < length l1')%nat as Hlen.
  { apply Nat.nle_gt. intros Hle. assert (e ∈ l2') as He. { assert (e ∈ drop (length l1') srt) as He by (rewrite E, drop_app_le by done; apply elem_of_app; right; left). by rewrite E', drop_app_length in He. }
    specialize (H2 e He). apply cmp_lookup in H2; [|rewrite E'; set_solver]. apply H2, past_above. }
  assert (l2' = drop (length l1' - length l1) (e :: l2)) as Hl2.
  { rewrite <- (drop_app_length l1' l2'), <- E', E, drop_app_ge by lia. done. }
  exists l1', l2'. split_and!; [done..| |rewrite Hl2; destruct (length l1' - length l1)%nat eqn:?; [lia|cbn; rewrite length_drop; lia]].
  rewrite <- (take_drop (length l1' - length l1) (e :: l2)). rewrite <- Hl2. apply scan_decided. intros x Hx _.
  destruct skip as [w|]; [|done]. apply decided_spec. apply decided_spec in Hd. apply (cmp_le_trans user _ (key_of e)); [|done]. apply Hlow.
  assert (x ∈ take (length l1') srt) as Hx'; [|by rewrite E', take_app_length in Hx']. rewrite E, take_app_ge by lia. apply elem_of_app. by right.
Qed.

Lemma find_next_spec fuel it skip skipped l1 l2 : fixed it -> it_direction it = Forward -> srt = l1 ++ l2 -> cur_at Forward (it_merger it) run l2 -> (length l2 < fuel)%nat ->
  exists it', find_next_loop user fuel it skip skipped = Some it' /\ forward_at it' (scan skip l2).
Proof using All.
  revert it skip skipped l1 l2. induction fuel as [|fuel IH]; intros it skip skipped l1 l2 Hf Hdir E Hat Hfuel; [lia|]. cbn [find_next_loop].
  rewrite (cur_at_valid _ _ _ _ Hat). destruct l2 as [|e l2]; cbn [bool_decide negb].
  { rewrite bool_decide_true by done. eexists. split; [done|]. split_and!; [done..|by eapply cur_at_over|done|done]. }
  rewrite bool_decide_false by done. cbn [negb]. destruct (cur_at_head _ _ _ _ _ Hat) as [-> Hval].
  destruct (wf_split e) as (s & k & Ee & Hs & Hsplit); [rewrite E; set_solver|]. rewrite Hsplit, scan_cons, Hsplit.
  destruct Hf as (Hsn & Hrest). rewrite Hsn. pose proof (cur_next_law _ _ _ Hat) as Hnext. cbn [tail] in Hnext.
  assert (forall skip' skipped', exists it', find_next_loop user fuel (with_merger it (cur_next (it_merger it))) skip' skipped' = Some it' /\ forward_at it' (scan skip' l2)) as Hstep.
  { intros skip' skipped'. apply (IH _ skip' skipped' (l1 ++ [e]) l2); [done|done|by rewrite <- app_assoc|done|cbn in Hfuel; lia]. }
  destruct (s <=? snapshot)%N eqn:Hseen; cbn [andb]; [|apply Hstep]. destruct (decided user skip (key_of e)) eqn:Hd; cbn [negb].
  - destruct (_ <=? skipped + 1)%nat; [|apply Hstep]. destruct (past_skips l1 e l2 (it_merger it) skip E) as (l1' & l2' & E' & Hat' & Hscan & Hlen); [by eapply cur_at_over|done|].
    rewrite scan_cons, Hsplit, Hseen, Hd in Hscan. cbn [andb negb] in Hscan. rewrite Hscan. apply (IH _ skip 0%nat l1' l2'); [done..|cbn in Hfuel; lia].
  - rewrite (fixed_prefix it) by done. cbn [negb]. rewrite (fixed_hidden it) by done.
    destruct k; try (rewrite (bool_decide_false (_ = Put)) by done; apply Hstep). rewrite (bool_decide_true (Put = Put)) by done.
    destruct (rts_hides _ _ _ _ _); cbn [andb negb app]; [apply Hstep|]. eexists. split; [done|]. split_and!; [done..|by eapply cur_at_over|cbn; by rewrite Hval|].
    intros kv [= <-]. by exists l1, e, l2.
Qed.

(** Found going backward: the last pair of [l], and a place between two keys
    that has the rest of [l] before it. *)
Definition backward_at (it : DbIterator M) (l : list (bytes * bytes)) : Prop :=
  fixed it /\ it_direction it = Reverse /\ cur_over (it_merger it) run /\ it_current it = last l /\
  forall pre kv, l = pre ++ [kv] -> exists l1 l2, srt = l1 ++ l2 /\ boundary user snapshot l1 l2 /\ cur_at Reverse (it_merger it) run (reverse l1) /\ scan None l1 = pre.

Lemma settle_found_fixed it found : fixed it -> settle_found it found = with_current it found.
Proof using. intros Hf. unfold settle_found. destruct found as [kv|]; [|done]. cbn. by rewrite fixed_prefix. Qed.

Lemma prefix_keys l1 e l2 a : srt = l1 ++ e :: l2 -> a ∈ l1 ++ [e] -> cmp user (key_of a) (key_of e) <> Gt.
Proof using All.
  intros E [Ha|Ha]%elem_of_app; [|apply list_elem_of_singleton in Ha as ->; by rewrite cmp_refl]. apply list_elem_of_split in Ha as (x1 & x2 & ->). apply (srt_keys x1 a x2 e l2). by rewrite E, <- app_assoc.
Qed.
(** The loop stops: at the first entry of a smaller key, or at the end. *)
Lemma backward_done it found l1 seg l2 : fixed it -> it_direction it = Reverse -> srt = l1 ++ seg ++ l2 -> boundary user snapshot (l1 ++ seg) l2 ->
  cur_at Reverse (it_merger it) run (reverse l1) -> scan None seg = option_list found -> boundary user snapshot l1 seg -> (l1 = [] \/ is_Some found) ->
  backward_at (with_current it found) (scan None (l1 ++ seg)).
Proof using All.
  intros Hf Hdir E Hb Hat Hseg Hbs Hend. rewrite (scan_app user tombstones snapshot None l1 seg) by done. rewrite Hseg. split_and!; [done..|by eapply cur_at_over| |].
  - cbn. destruct found as [kv|]; cbn; [by rewrite last_snoc|]. by destruct Hend as [->|[? ?]].
  - intros pre kv Hpre. exists l1, (seg ++ l2). split_and!; [done| |done|].
    + intros a b Ha [Hb'|Hb']%elem_of_app; [by apply Hbs|]. apply Hb; [set_solver|done].
    + destruct found as [kv'|]; cbn in Hpre; [by apply app_inj_tail in Hpre as [-> _]|]. destruct Hend as [->|[? ?]]; [|done]. cbn in Hpre. by destruct pre.
Qed.

Lemma find_prev_spec fuel it found l1 seg l2 : fixed it -> it_direction it = Reverse -> srt = l1 ++ seg ++ l2 -> boundary user snapshot (l1 ++ seg) l2 ->
  cur_at Reverse (it_merger it) run (reverse l1) -> (length l1 < fuel)%nat -> scan None seg = option_list found ->
  (forall kv e, found = Some kv -> e ∈ seg -> seen e -> cmp user kv.1 (key_of e) <> Gt) ->
  exists it', find_prev_loop user fuel it found = Some it' /\ backward_at it' (scan None (l1 ++ seg)).
Proof using All.
  revert it found l1 seg. induction fuel as [|fuel IH]; intros it found l1 seg Hf Hdir E Hb Hat Hfuel Hseg Hge; [lia|]. cbn [find_prev_loop].
  rewrite (cur_at_valid _ _ _ _ Hat), !settle_found_fixed by done. destruct l1 as [|e l1 _] using rev_ind.
  { rewrite bool_decide_true by done. eexists. split; [done|]. apply (backward_done it found [] seg l2); try done; [|by left]. by intros a b ?%elem_of_nil. }
  rewrite reverse_snoc in *. rewrite bool_decide_false by done. cbn [negb]. destruct (cur_at_head _ _ _ _ _ Hat) as [Hkey Hval]. rewrite Hkey, Hval.
  rewrite <- app_assoc in E. destruct (wf_split e) as (s & k & Ee & Hs & Hsplit); [rewrite E; set_solver|]. rewrite Hsplit.
  destruct Hf as (Hsn & Hrest). rewrite Hsn. pose proof (cur_prev_law _ _ _ Hat) as Hprev. cbn [tail] in Hprev. rewrite length_app in Hfuel. cbn in Hfuel.
  assert (forall found', scan None (e :: seg) = option_list found' -> (forall kv x, found' = Some kv -> x ∈ e :: seg -> seen x -> cmp user kv.1 (key_of x) <> Gt) ->
    exists it', find_prev_loop user fuel (with_merger it (cur_prev (it_merger it))) found' = Some it' /\ backward_at it' (scan None ((l1 ++ [e]) ++ seg))) as Hstep.
  { intros found' Hseg' Hge'. rewrite <- app_assoc. apply (IH _ found' l1 (e :: seg)); try done; [|lia]. by rewrite <- app_assoc in Hb. }
  destruct (s <=? snapshot)%N eqn:Hseen.
  2: { apply Hstep; [by rewrite scan_cons, Hsplit, Hseen|]. intros kv x Hkv [->|Hx]%elem_of_cons Hsx; [|by apply Hge]. exfalso. destruct Hsx as (s' & k' & Hsx & Hle). simplify_eq. apply N.leb_gt in Hseen. lia. }
  assert (seen e) as Hse by (exists s, k; split; [done|by apply N.leb_le]).
  destruct (from_option _ false found) eqn:Hbreak.
  - destruct found as [kv|]; [|done]. cbn in Hbreak. apply bool_decide_eq_true in Hbreak. eexists. split; [done|].
    apply (backward_done it (Some kv) (l1 ++ [e]) seg l2); try done; [by rewrite <- app_assoc|by rewrite reverse_snoc| |by right].
    intros a b Ha Hb' Hsa Hsb. apply (cmp_lt_le_trans user _ kv.1); [|by apply Hge]. apply (cmp_le_lt_trans user _ (key_of e)); [|done]. by eapply (prefix_keys l1 e (seg ++ l2)).
  - apply Hstep.
    + rewrite scan_cons, Hsplit, Hseen. cbn [andb decided negb]. rewrite (scan_skip user tombstones snapshot None) by done. rewrite Hseg.
      assert (filter (fun kv => cmp user kv.1 (key_of e) = Gt) (option_list found) = []) as ->.
      { destruct found as [kv|]; [|done]. cbn in Hbreak |- *. apply bool_decide_eq_false in Hbreak. rewrite decide_False; [done|]. intros Hgt. apply Hbreak. by apply cmp_gt_lt. }
      rewrite fixed_hidden by done. destruct k; cbn; [done|by destruct (rts_hides _ _ _ _ _)|done].
    + intros kv x Hkv Hx Hsx. assert (kv.1 = key_of e) as -> by (destruct k; [done|destruct (negb _); by simplify_eq|done]).
      apply elem_of_cons in Hx as [->|Hx]; [by rewrite cmp_refl|]. apply list_elem_of_split in Hx as (x1 & x2 & ->). eapply (srt_keys l1 e x1 x (x2 ++ l2)). rewrite E. cbn. by rewrite <- app_assoc.
Qed.

Lemma step_back_spec fuel it t l1 l2 : fixed it -> srt = l1 ++ l2 -> cur_at Reverse (it_merger it) run (reverse l1) -> (length l1 < fuel)%nat ->
  (forall e, e ∈ l2 -> cmp user (key_of e) t <> Lt) ->
  exists it' l1' l2', step_back_loop user fuel it t = Some it' /\ fixed it' /\ srt = l1' ++ l2' /\ cur_at Reverse (it_merger it') run (reverse l1') /\
    (forall e, e ∈ l1' -> cmp user (key_of e) t = Lt) /\ (forall e, e ∈ l2' -> cmp user (key_of e) t <> Lt).
Proof using All.
  revert it l1 l2. induction fuel as [|fuel IH]; intros it l1 l2 Hf E Hat Hfuel Hge; [lia|]. cbn [step_back_loop]. rewrite (cur_at_valid _ _ _ _ Hat).
  destruct l1 as [|e l1 _] using rev_ind.
  { rewrite bool_decide_true by done. exists it, [], l2. split_and!; try done. by intros e ?%elem_of_nil. }
  rewrite reverse_snoc in *. rewrite (bool_decide_false (_ = [])) by done. cbn [negb]. destruct (cur_at_head _ _ _ _ _ Hat) as [-> _]. rewrite <- app_assoc in E. case_bool_decide as Hlt.
  - exists it, (l1 ++ [e]), l2. split_and!; try done; [by rewrite <- app_assoc|by rewrite reverse_snoc|]. intros x Hx. apply (cmp_le_lt_trans user _ (key_of e)); [|done]. by eapply prefix_keys.
  - rewrite length_app in Hfuel. cbn in Hfuel. apply (IH (with_merger it (cur_prev (it_merger it))) l1 (e :: l2)); [done|done|by apply (cur_prev_law _ _ _ Hat)|lia|].
    intros x [->|Hx]%elem_of_cons; [done|by apply Hge].
Qed.

(** *** Against the pairs *)

Abbreviation pairs := (scan None srt).
Definition it_at (it : DbIterator M) (p : option nat) : Prop :=
  match p with
  | None => fixed it /\ cur_over (it_merger it) run /\ it_current it = None
  | Some p => (p < length pairs)%nat /\ match it_direction it with Forward => forward_at it (drop p pairs) | Reverse => backward_at it (take (S p) pairs) end
  end.

Lemma forward_it_at it p : forward_at it (drop p pairs) -> it_at it (if decide (p < length pairs)%nat then Some p else None).
Proof using. intros Hat. destruct (decide _) as [Hlt|Hge]; pose proof Hat as (Hf & Hdir & Ho & Hc & _); cbn [it_at]; [by rewrite Hdir|]. split_and!; [done..|]. by rewrite Hc, drop_ge by lia. Qed.
Lemma backward_it_at it p : (p <= length pairs)%nat -> backward_at it (take p pairs) -> it_at it (match p with O => None | S p => Some p end).
Proof using. intros Hp Hat. destruct p as [|p]; pose proof Hat as (Hf & Hdir & Ho & Hc & _); cbn [it_at]; [done|]. by rewrite Hdir. Qed.

Lemma it_at_over it p : it_at it p -> fixed it /\ cur_over (it_merger it) run.
Proof using. destruct p as [p|]; cbn [it_at]; [|by intros (? & ? & _)]. intros [_ Hat]. by destruct (it_direction it); destruct Hat as (? & _ & ? & _). Qed.
Lemma it_at_current it p : it_at it p -> it_current it = p ← p; pairs !! p.
Proof using.
  destruct p as [p|]; cbn [it_at]; [|by intros (_ & _ & ?)]. intros [Hlt Hat]. destruct (lookup_lt_is_Some_2 _ _ Hlt) as [kv Hkv]. cbn. destruct (it_direction it); destruct Hat as (_ & _ & _ & -> & _).
  - by rewrite (drop_S _ _ _ Hkv).
  - by rewrite (take_S_r _ _ _ Hkv), last_snoc.
Qed.

(** Pairs below and above a key. *)
Lemma scan_keys l (P : bytes -> Prop) : (forall e, e ∈ l -> P (key_of e)) -> forall kv, kv ∈ scan None l -> P kv.1.
Proof using All. intros HP kv (e & He & _ & <- & _)%scan_from; [|done]. by apply HP. Qed.
Lemma pairs_lookup i j a b : pairs !! i = Some a -> pairs !! j = Some b -> (i < j)%nat -> cmp user a.1 b.1 = Lt.
Proof using All.
  intros Ha Hb Hij. pose proof (scan_sorted user tombstones snapshot None srt) as Hs. assert (b ∈ drop (S i) pairs) as Hin by (apply list_elem_of_lookup; exists (j - S i)%nat; rewrite lookup_drop; by replace (S i + (j - S i))%nat with j by lia).
  rewrite <- (take_drop_middle pairs i a Ha) in Hs. apply StronglySorted_app_1_r, StronglySorted_inv in Hs as [_ Hs]. rewrite Forall_forall in Hs. by apply Hs.
Qed.
Lemma pairs_above p kv : pairs !! p = Some kv -> scan (Some kv.1) srt = drop (S p) pairs.
Proof using All.
  intros Hp. rewrite (scan_skip user tombstones snapshot None) by done. rewrite <- (take_drop (S p) pairs) at 1. rewrite filter_app, (filter_none _ (take _ _)), (filter_all _ (drop _ _)); [done| |].
  - apply Forall_forall. intros x (j & Hj)%list_elem_of_lookup. rewrite lookup_drop in Hj. apply cmp_gt_lt; [done|]. apply (pairs_lookup p (S p + j)); [done..|lia].
  - apply Forall_forall. intros x (j & Hj)%list_elem_of_lookup. apply lookup_take_Some in Hj as [Hj Hlt]. destruct (decide (j = p)) as [->|]; [simplify_eq; by rewrite cmp_refl|].
    rewrite (pairs_lookup j p x kv); [done..|lia].
Qed.
Lemma pairs_below l1 l2 p kv : srt = l1 ++ l2 -> (forall e, e ∈ l1 -> cmp user (key_of e) kv.1 = Lt) -> (forall e, e ∈ l2 -> cmp user (key_of e) kv.1 <> Lt) ->
  pairs !! p = Some kv -> boundary user snapshot l1 l2 /\ scan None l1 = take p pairs.
Proof using All.
  intros E H1 H2 Hp. assert (boundary user snapshot l1 l2) as Hb. { intros a b Ha Hb _ _. apply (cmp_lt_le_trans user _ kv.1); [by apply H1|]. apply not_lt_cmp; [done|]. by apply H2. }
  split; [done|]. pose proof (scan_app user tombstones snapshot None l1 l2 Hb ltac:(done)) as Hs. rewrite <- E in Hs. destruct (Nat.lt_trichotomy p (length (scan None l1))) as [Hlt|[->|Hgt]].
  - rewrite Hs, lookup_app_l in Hp by done. apply list_elem_of_lookup_2 in Hp. apply (scan_keys _ (fun k => cmp user k kv.1 = Lt) H1) in Hp. by rewrite cmp_refl in Hp.
  - by rewrite Hs, take_app_length.
  - assert (is_Some (pairs !! length (scan None l1))) as [x Hx] by (apply lookup_lt_is_Some_2; apply lookup_lt_Some in Hp; lia).
    pose proof (pairs_lookup _ _ _ _ Hx Hp Hgt) as Hlt. rewrite Hs, lookup_app_r, Nat.sub_diag in Hx by done. apply list_elem_of_lookup_2 in Hx. by apply (scan_keys _ (fun k => cmp user k kv.1 <> Lt) H2) in Hx.
Qed.

Lemma find_first {A} (P : A -> Prop) `{!forall x, Decision (P x)} l l' : (forall x, x ∈ l -> ~ P x) -> (forall x, x ∈ l' -> P x) ->
  fst <$> list_find P (l ++ l') = if decide (length l < length (l ++ l'))%nat then Some (length l) else None.
Proof using.
  intros Hl Hl'. induction l as [|x l IH]; cbn.
  - destruct l' as [|y l']; [done|]. cbn. by rewrite decide_True by (apply Hl'; left).
  - rewrite decide_False by (apply Hl; left). specialize (IH ltac:(intros; apply Hl; by right)). destruct (list_find P (l ++ l')) as [[j y]|]; cbn in *; destruct (decide _), (decide _); simplify_eq; try done; lia.
Qed.
Lemma find_last {A} (f : A -> bool) l l' : (forall x, x ∈ l -> f x = true) -> (forall x, x ∈ l' -> f x = false) ->
  rposition f (l ++ l') = match length l with O => None | S p => Some p end.
Proof using.
  intros Hl Hl'. pose proof (rposition_spec f (l ++ l')) as Hr. destruct (rposition f (l ++ l')) as [i|].
  - destruct Hr as [(x & Hx & Hfx) Hafter]. destruct (Nat.lt_ge_cases i (length l)) as [Hi|Hi].
    2: { rewrite lookup_app_r in Hx by done. apply list_elem_of_lookup_2 in Hx. by rewrite Hl' in Hfx. }
    destruct (length l) as [|n] eqn:En; [lia|]. f_equal. destruct (decide (i = n)) as [|Hne]; [done|]. destruct (lookup_lt_is_Some_2 l n ltac:(lia)) as [y Hy].
    assert (f y = false) as Hf by (apply (Hafter n); [by apply lookup_app_l_Some|lia]). rewrite Hl in Hf; [done|by eapply list_elem_of_lookup_2].
  - destruct l as [|x l]; [done|]. specialize (Hr 0%nat x eq_refl). rewrite Hl in Hr; [done|left].
Qed.

Lemma found_forward fuel it skip l1 l2 p : fixed it -> it_direction it = Forward -> srt = l1 ++ l2 -> cur_at Forward (it_merger it) run l2 -> (length srt < fuel)%nat ->
  scan skip l2 = drop p pairs -> exists it', find_next user fuel it skip = Some it' /\ it_at it' (if decide (p < length pairs)%nat then Some p else None).
Proof using All.
  intros Hf Hdir E Hat Hfuel Hp. destruct (find_next_spec fuel it skip 0 l1 l2) as (it' & Hit & Hfw); [done..|rewrite E, length_app in Hfuel; lia|]. exists it'. split; [done|].
  apply forward_it_at. by rewrite <- Hp.
Qed.
Lemma found_backward fuel it l1 l2 p : fixed it -> it_direction it = Reverse -> srt = l1 ++ l2 -> boundary user snapshot l1 l2 -> cur_at Reverse (it_merger it) run (reverse l1) ->
  (length srt < fuel)%nat -> scan None l1 = take p pairs -> (p <= length pairs)%nat ->
  exists it', find_prev user fuel it = Some it' /\ it_at it' (match p with O => None | S p => Some p end).
Proof using All.
  intros Hf Hdir E Hb Hat Hfuel Hp Hle. destruct (find_prev_spec fuel it None l1 [] l2) as (it' & Hit & Hbw); try done; [by rewrite app_nil_r|rewrite E, length_app in Hfuel; lia|].
  exists it'. split; [done|]. rewrite app_nil_r, Hp in Hbw. by apply backward_it_at.
Qed.

Lemma op_seek fuel it t : fixed it -> cur_over (it_merger it) run -> (length srt < fuel)%nat -> exists it', it_seek user fuel it t = Some it' /\ it_at it' (pair_op user (OpSeek t) pairs None).
Proof using All.
  intros Hf Ho Hfuel. destruct (seek_split (it_merger it) _ Ho (lookup_wellformed t)) as (l1 & l2 & E & Hat & H1 & H2).
  assert (forall e, e ∈ l2 -> cmp user (key_of e) t <> Lt) as Hge by (intros e He; apply cmp_lookup; [rewrite E; set_solver|by apply H2]).
  assert (forall e, e ∈ l1 -> cmp user (key_of e) t = Lt) as Hlt. { intros e He. destruct (decide (cmp user (key_of e) t = Lt)) as [|Hn]; [done|]. apply cmp_lookup in Hn; [by rewrite H1 in Hn|rewrite E; set_solver]. }
  assert (pairs = scan None l1 ++ scan None l2) as Ep. { rewrite E. apply scan_app; [done| |done]. intros a b Ha Hb _ _. apply (cmp_lt_le_trans user _ t); [by apply Hlt|]. apply not_lt_cmp; [done|by apply Hge]. }
  assert (pair_op user (OpSeek t) pairs None = if decide (length (scan None l1) < length pairs)%nat then Some (length (scan None l1)) else None) as ->.
  { rewrite Ep. apply find_first; [intros kv Hkv; rewrite (scan_keys l1 (fun k => cmp user k t = Lt) Hlt kv Hkv); auto|by apply (scan_keys l2 (fun k => cmp user k t <> Lt))]. }
  apply (found_forward fuel _ None l1 l2); try done. by rewrite Ep, drop_app_length.
Qed.
Lemma op_seek_for_prev fuel it t : fixed it -> cur_over (it_merger it) run -> (length srt < fuel)%nat ->
  exists it', it_seek_for_prev user fuel it t = Some it' /\ it_at it' (pair_op user (OpSeekForPrev t) pairs None).
Proof using All.
  intros Hf Ho Hfuel. destruct (seek_back_split (it_merger it) _ Ho (oldest_wellformed t)) as (l1 & l2 & E & Hat & H1 & H2).
  assert (forall e, e ∈ l1 -> cmp user (key_of e) t <> Gt) as Hle by (intros e He; apply cmp_oldest; [rewrite E; set_solver|by apply H1]).
  assert (forall e, e ∈ l2 -> cmp user (key_of e) t = Gt) as Hgt. { intros e He. destruct (decide (cmp user (key_of e) t = Gt)) as [|Hn]; [done|]. apply cmp_oldest in Hn; [by rewrite H2 in Hn|rewrite E; set_solver]. }
  assert (boundary user snapshot l1 l2) as Hb. { intros a b Ha Hb _ _. apply (cmp_le_lt_trans user _ t); [by apply Hle|]. apply cmp_gt_lt; [done|by apply Hgt]. }
  assert (pairs = scan None l1 ++ scan None l2) as Ep by (rewrite E; by apply scan_app).
  assert (pair_op user (OpSeekForPrev t) pairs None = match length (scan None l1) with O => None | S p => Some p end) as ->.
  { rewrite Ep. apply find_last; intros kv Hkv; [apply bool_decide_eq_true; by apply (scan_keys l1 (fun k => cmp user k t <> Gt))|].
    apply bool_decide_eq_false. rewrite (scan_keys l2 (fun k => cmp user k t = Gt) Hgt kv Hkv). auto. }
  apply (found_backward fuel _ l1 l2); try done; [by rewrite Ep, take_app_length|rewrite Ep, length_app; lia].
Qed.

Lemma op_first fuel it : fixed it -> cur_over (it_merger it) run -> (length srt < fuel)%nat -> exists it', it_seek_to_first user fuel it = Some it' /\ it_at it' (pair_op user OpSeekToFirst pairs None).
Proof using All.
  intros Hf Ho Hfuel. destruct (cur_seek_to_first_law _ _ Ho) as (rest & Hat & Hv%visits_srt). cbn in Hv. rewrite filter_all in Hv by by apply Forall_forall. subst rest.
  assert (pair_op user OpSeekToFirst pairs None = if decide (0 < length pairs)%nat then Some 0%nat else None) as -> by (cbn [pair_op]; destruct pairs; done).
  by apply (found_forward fuel _ None [] srt).
Qed.
Lemma op_last fuel it : fixed it -> cur_over (it_merger it) run -> (length srt < fuel)%nat -> exists it', it_seek_to_last user fuel it = Some it' /\ it_at it' (pair_op user OpSeekToLast pairs None).
Proof using All.
  intros Hf Ho Hfuel. destruct (cur_seek_to_last_law _ _ Ho) as (rest & Hat & Hv%visits_srt). cbn in Hv. rewrite filter_all in Hv by by apply Forall_forall. subst rest.
  assert (pair_op user OpSeekToLast pairs None = match length pairs with O => None | S p => Some p end) as ->.
  { cbn [pair_op]. destruct pairs as [|x l] eqn:E; [done|]. rewrite decide_False by done. cbn. by rewrite Nat.sub_0_r. }
  apply (found_backward fuel _ srt []); try done; [by rewrite app_nil_r|by intros a b _ ?%elem_of_nil|by rewrite take_ge by done].
Qed.

Lemma op_next fuel it p : it_at it p -> (length srt < fuel)%nat -> exists it', it_next user fuel it = Some it' /\ it_at it' (pair_op user OpNext pairs p).
Proof using All.
  intros Hat Hfuel. pose proof (it_at_over _ _ Hat) as [Hf Ho]. pose proof (it_at_current _ _ Hat) as Hc. unfold it_next. rewrite Hc. destruct p as [p|]; [|by exists it].
  destruct Hat as [Hlt Hat]. destruct (lookup_lt_is_Some_2 _ _ Hlt) as [kv Hkv]. cbn [mbind option_bind] in *. rewrite Hkv in *. destruct kv as [key v]. destruct (it_direction it) eqn:Hdir.
  - destruct Hat as (_ & _ & _ & _ & Hat). rewrite (drop_S _ _ _ Hkv) in Hat. destruct (Hat _ eq_refl) as (l1 & e & l2 & E & Hm & Hs). cbn [fst tail] in Hs.
    apply (found_forward fuel _ _ (l1 ++ [e]) l2); try done; [by rewrite <- app_assoc|by apply (cur_next_law _ _ _ Hm)].
  - destruct (seek_split (it_merger it) _ Ho (oldest_wellformed key)) as (l1 & l2 & E & Hm & H1 & _). apply (found_forward fuel _ _ l1 l2); try done.
    rewrite <- (pairs_above p (key, v) Hkv). rewrite E. cbn [fst]. symmetry. apply scan_decided. intros e He _. apply decided_spec. apply cmp_oldest; [rewrite E; set_solver|]. by rewrite H1.
Qed.

Lemma op_prev fuel it p : it_at it p -> (length srt < fuel)%nat -> exists it', it_prev user fuel it = Some it' /\ it_at it' (pair_op user OpPrev pairs p).
Proof using All.
  intros Hat Hfuel. pose proof (it_at_over _ _ Hat) as [Hf Ho]. pose proof (it_at_current _ _ Hat) as Hc. unfold it_prev. rewrite Hc. destruct p as [p|]; [|by exists it].
  destruct Hat as [Hlt Hat]. destruct (lookup_lt_is_Some_2 _ _ Hlt) as [kv Hkv]. cbn [mbind option_bind] in *. rewrite Hkv in *. destruct kv as [key v]. destruct (it_direction it) eqn:Hdir.
  - destruct (seek_back_split (it_merger it) _ Ho (lookup_wellformed key)) as (l1 & l2 & E & Hm & _ & H2). unfold step_back_past.
    destruct (step_back_spec fuel (with_merger it (cur_seek_for_prev (lookup_key key MAX_SEQNO) (it_merger it))) key l1 l2) as (it' & l1' & l2' & -> & Hf' & E' & Hm' & H1' & H2'); try done.
    { rewrite E, length_app in Hfuel. lia. }
    { intros e He. apply cmp_lookup; [rewrite E; set_solver|]. by rewrite H2. }
    destruct (pairs_below l1' l2' p (key, v) E' H1' H2' Hkv) as [Hb Hs]. cbn. apply (found_backward fuel (with_direction it' Reverse) l1' l2'); try done. lia.
  - destruct Hat as (_ & _ & _ & _ & Hat). destruct (Hat (take p pairs) (key, v) (take_S_r _ _ _ Hkv)) as (l1 & l2 & E & Hb & Hm & Hs). cbn.
    apply (found_backward fuel it l1 l2); try done. lia.
Qed.

Lemma op_any fuel it p op : it_at it p -> (length srt < fuel)%nat -> exists it', it_op user fuel op it = Some it' /\ it_at it' (pair_op user op pairs p).
Proof using All.
  intros Hat Hfuel. destruct (it_at_over _ _ Hat) as [Hf Ho]. destruct op; cbn [it_op]; [by apply op_seek|by apply op_seek_for_prev|by apply op_first|by apply op_last|by apply op_next|by apply op_prev].
Qed.
Lemma ops_any fuel it p ops : it_at it p -> (length srt < fuel)%nat -> it_observations user fuel ops it = Some (pair_observations user ops pairs p).
Proof using All.
  intros Hat Hfuel. revert it p Hat. induction ops as [|op ops IH]; intros it p Hat; [done|]. cbn [it_observations pair_observations].
  destruct (op_any fuel it p op Hat Hfuel) as (it' & -> & Hat'). cbn [mbind option_bind]. rewrite (IH it' _ Hat'). cbn. by rewrite (it_at_current _ _ Hat').
Qed.
End IterSpec.

(** ** The iterator over any lawful cursor *)

Section Theorems.
Context (user : Comparator) `{!ComparatorLaws user}.

(** No two entries are the same version of the same key. *)
Definition one_version (run : list entry) : Prop :=
  forall a b u s k u' k', a ∈ run -> b ∈ run -> split_internal_key a.1 = Some (u, s, k) -> split_internal_key b.1 = Some (u', s, k') -> cmp user u u' = Eq -> a = b.

Lemma newest_perm l l' : l ≡ₚ l' -> (forall v v', v ∈ l -> v' ∈ l -> ver_seqno v = ver_seqno v' -> v = v') -> newest l = newest l'.
Proof using.
  intros Hp Hu. destruct (newest l) as [v|] eqn:E, (newest l') as [v'|] eqn:E'.
  - apply newest_elem in E as [Hv Hall], E' as [Hv' Hall']. rewrite Forall_forall in Hall, Hall'. rewrite <- Hp in Hv'. f_equal. apply Hu; [done..|].
    apply N.le_antisymm; [apply Hall'; by rewrite <- Hp|by apply Hall].
  - apply newest_None in E'. subst l'. apply Permutation_nil_r in Hp. by subst l.
  - apply newest_None in E. subst l. apply Permutation_nil_l in Hp. by subst l'.
  - done.
Qed.
Lemma visible_perm l l' tombstones key snapshot : l ≡ₚ l' -> one_version l -> visible_value user l tombstones key snapshot = visible_value user l' tombstones key snapshot.
Proof using All.
  intros Hp Hone. unfold visible_value. f_equal. apply newest_perm; [unfold versions_of; by rewrite Hp|].
  intros v v' (e & He & Hv)%elem_of_versions_of (e' & He' & Hv')%elem_of_versions_of Heq. enough (e = e') as -> by by rewrite Hv in Hv'; simplify_eq.
  unfold version_of in Hv, Hv'. destruct (split_internal_key e.1) as [[[u s] k]|] eqn:Es; [|done]. destruct (split_internal_key e'.1) as [[[u' s'] k']|] eqn:Es'; [|done]. cbn in Hv, Hv'.
  case_bool_decide as H1; [|done]. case_bool_decide as H2; [|done]. cbn in Hv, Hv'. destruct (s <=? snapshot)%N; [|done]. destruct (s' <=? snapshot)%N; [|done]. simplify_eq. cbn in Heq. subst s'.
  apply (Hone e e' u s k u' k'); try done. by rewrite (cmp_eq_r user u' key u).
Qed.

Lemma one_version_cons run (a b : entry) : one_version run -> Forall (fun e : entry => wellformed e.1) run -> a ∈ run -> b ∈ run -> internal_cmp user a.1 b.1 = Eq -> a = b.
Proof using All.
  intros Hone Hw Ha Hb Heq. rewrite Forall_forall in Hw. destruct (Hw a Ha) as (u & s & k & Ea & Hs), (Hw b Hb) as (u' & s' & k' & Eb & Hs').
  rewrite Ea, Eb, internal_cmp_keys in Heq by done. unfold version_cmp in Heq. destruct (cmp user u u') eqn:Eu; [|done|done]. destruct (N.compare_spec s' s) as [->|H|H]; [|done|done].
  apply (Hone a b u s k u' k'); try done; by apply split_internal_key_spec.
Qed.
End Theorems.

(** C4: an iterator [Db::iter] hands out without a prefix bound is a cursor over
    exactly the pairs visible at its snapshot, when no two stored entries are of
    one user key and one sequence number and the user comparator puts a key with
    a zero byte appended right after the key ([ByteSuccessor], which holds of the
    bytewise order).  [past_user_key] relies on that last law, which the
    [Comparator] trait does not ask for; without it a call may never return, as
    [reverse_scan_hangs] shows.  Under these conditions, over any merged cursor
    that keeps the cursor contract, in any sequence of seeks, [next] and [prev]
    in either direction, the iterator stands after each call where a cursor over
    the visible pairs in key order would stand, however many superseded versions
    and tombstones it had to pass, and every call returns within one step per
    stored entry. *)
Theorem iterator_scans (user : Comparator) `{!ComparatorLaws user} `{!ByteSuccessor user} {M : Type} `{!Cursor M} `{!CursorLaws user M}
    (m : M) (run : list entry) (tombstones : RangeTombstones) (snapshot : N) (fuel : nat) :
  cur_over m run -> one_version user run -> (length run < fuel)%nat ->
  exists pairs, StronglySorted (fun a b => cmp user a.1 b.1 = Lt) pairs /\
    (forall key, pair_get user pairs key = visible_value user run tombstones key snapshot) /\
    forall ops, it_observations user fuel ops (DbIterator_new m snapshot tombstones None) = Some (pair_observations user ops pairs None).
Proof.
  intros Ho Hone Hfuel. pose proof (cur_over_wf _ _ Ho) as Hw. destruct (cur_seek_to_first_law m run Ho) as (srt & _ & Hs & Hp). rewrite filter_all in Hp by by apply Forall_forall.
  assert (Forall (fun e : entry => wellformed e.1) srt) as Hws by by rewrite Hp. exists (scan user tombstones snapshot None srt). split_and!.
  - by apply scan_sorted.
  - intros key. rewrite <- scan_visible by done. symmetry. by apply visible_perm.
  - intros ops. apply (ops_any user tombstones snapshot run srt Hp Hs Hws).
    + intros a b Ha Hb. rewrite Hp in Ha, Hb. by apply (one_version_cons user run).
    + done.
    + by rewrite Hp.
Qed.

Lemma iterator_scans_witness :
  exists pairs, pairs = [([Byte.x61], [Byte.x07]); ([Byte.x63], [Byte.x03])] /\
    forall ops, it_observations BytewiseComparator (Cursor0 := MergeCursorOps (Cursor0 := ListCursorOps BytewiseComparator) BytewiseComparator) 6 ops
      (DbIterator_new (MergeCursor_new two_children) 20 [] None) = Some (pair_observations BytewiseComparator ops pairs None).
Proof.
  destruct (iterator_scans BytewiseComparator (CursorLaws0 := MergeCursorLaws (Hcur := ListCursorLaws BytewiseComparator) BytewiseComparator)
    (MergeCursor_new two_children) (newer_run ++ older_run) [] 20 6) as (pairs & _ & _ & Hops).
  - exists [newer_run; older_run]. split; [apply two_children_over|done].
  - intros a b u s k u' k' Ha Hb Hsa Hsb _. unfold newer_run, older_run in Ha, Hb. cbn [app] in Ha, Hb.
    repeat (apply elem_of_cons in Ha as [->|Ha]; [repeat (apply elem_of_cons in Hb as [->|Hb]; [by vm_compute in Hsa, Hsb; simplify_eq|]); by apply elem_of_nil in Hb|]). by apply elem_of_nil in Ha.
  - cbn. lia.
  - exists pairs. split; [|done]. pose proof (Hops [OpSeekToFirst; OpNext; OpNext]) as H1. vm_compute in H1. destruct pairs as [|p1 [|p2 [|p3 pairs]]]; cbn in H1; by simplify_eq.
Defined.

(** *** An order [past_user_key] was not written for *)

(** Keys in descending order, with the trait's own default separators. *)
Definition ReverseComparator : Comparator := mkComparator (fun a b => bytes_cmp b a) (fun start _ => start) (fun key => key).
#[export] Instance ReverseComparator_laws : ComparatorLaws ReverseComparator.
Proof.
  split; cbn [cmp find_shortest_separator find_short_successor ReverseComparator].
  - apply bytes_cmp_refl.
  - intros a b. apply bytes_cmp_antisym.
  - intros a b d H1 H2. by apply (bytes_cmp_lt_trans d b a).
  - by intros a b d ->%bytes_cmp_eq.
  - intros start limit H. split; [by rewrite bytes_cmp_refl|done].
  - done.
  - intros key. by rewrite bytes_cmp_refl.
Qed.

(** One key deleted nine times, newest first, and a live one after it. *)
Definition deleted_nine_times : list entry :=
  map (fun s => (internal_key [Byte.x62] s Delete, [])) [10; 9; 8; 7; 6; 5; 4; 3; 2]%N ++ [(internal_key [Byte.x61] 1 Put, [Byte.x31])].
Definition at_first : DbIterator ListCursor :=
  mkIter (mkListCursor deleted_nine_times (Some 0%nat)) 20 Forward None [] None None false.

Lemma reverse_cycle fuel : find_next_loop ReverseComparator (Cursor0 := ListCursorOps ReverseComparator) (8 + fuel) at_first (Some [Byte.x62]) 0 =
  find_next_loop ReverseComparator (Cursor0 := ListCursorOps ReverseComparator) fuel at_first (Some [Byte.x62]) 0.
Proof. vm_compute. reflexivity. Qed.
Lemma reverse_loop fuel : find_next_loop ReverseComparator (Cursor0 := ListCursorOps ReverseComparator) fuel at_first (Some [Byte.x62]) 0 = None.
Proof.
  induction fuel as [fuel IH] using lt_wf_ind. destruct (Nat.lt_ge_cases fuel 8) as [Hlt|Hge].
  - do 8 (destruct fuel as [|fuel]; [by vm_compute|]). lia.
  - replace fuel with (8 + (fuel - 8))%nat by lia. rewrite reverse_cycle. apply IH. lia.
Qed.

(** C40: with a comparator other than the bytewise one, which [Options] accepts,
    a scan may never return: [past_user_key] is then no larger than the key it
    is meant to pass, the seek goes backward, and a key deleted nine times holds
    [seek_to_first] in a cycle whatever the number of steps. *)
Theorem reverse_scan_hangs : ComparatorLaws ReverseComparator /\ run_sorted ReverseComparator deleted_nine_times /\
  forall fuel, it_seek_to_first ReverseComparator (M := ListCursor) (Cursor0 := ListCursorOps ReverseComparator) fuel
    (DbIterator_new (mkListCursor deleted_nine_times None) 20 [] None) = None.
Proof.
  split; [apply _|]. split.
  - split; [repeat constructor|]. repeat constructor; do 3 eexists; (split; [reflexivity|done]).
  - intros fuel. destruct (Nat.lt_ge_cases fuel 9) as [Hlt|Hge].
    + do 9 (destruct fuel as [|fuel]; [by vm_compute|]). lia.
    + replace fuel with (9 + (fuel - 9))%nat by lia. transitivity (find_next_loop ReverseComparator (Cursor0 := ListCursorOps ReverseComparator) (fuel - 9) at_first (Some [Byte.x62]) 0); [by vm_compute|apply reverse_loop].
Qed.
