(* ===== verification/Arena.v ===== *)
(** The bump allocator a memtable keeps its nodes and bytes in
    (esker-engine/src/memtable/arena.rs): elements named by a 32-bit offset, in
    chunks that double in size.  The chunks are one address space here, of which
    the first [ch_reserved] chunks exist; an element never written is zero.
    Offsets and lengths are kept in 64 bits by the code and stay below [2^33], so
    they are plain numbers. *)

From stdpp Require Import prelude gmap.
From Stdlib Require Import NArith Lia.
From S2P Require Import Prelude.

(** [first_shift] and [slots] are fixed for an arena; [ch_reserved] is how many
    entries of the directory are filled, which happens in order. *)
Record Chunks (T : Type) := mkChunks {
  ch_mem : gmap N T;
  ch_reserved : N;
  ch_next : N;
  ch_first_shift : N;
  ch_slots : N;
}.
Arguments mkChunks {T}.
Arguments ch_mem {T}.
Arguments ch_reserved {T}.
Arguments ch_next {T}.
Arguments ch_first_shift {T}.
Arguments ch_slots {T}.

Section Chunks.
Context {T : Type} (zero : T).

Definition Chunks_new (first_shift : N) : Chunks T := mkChunks ∅ 0 0 first_shift (32 - first_shift).

Definition ch_capacity (a : Chunks T) : N := 2 ^ (ch_first_shift a + ch_slots a) - 2 ^ ch_first_shift a.
Definition chunk_of (a : Chunks T) (offset : N) : N := N.log2 (offset + 2 ^ ch_first_shift a) - ch_first_shift a.
Definition chunk_start (a : Chunks T) (index : N) : N := 2 ^ (ch_first_shift a + index) - 2 ^ ch_first_shift a.
Definition chunk_len (a : Chunks T) (index : N) : N := 2 ^ (ch_first_shift a + index).
Definition ch_used (a : Chunks T) : N := ch_next a.

(** Where [count] elements fit: the place and its chunk.  Each round goes on to
    the next chunk, so [slots] rounds are enough. *)
Fixpoint alloc_loop (fuel : nat) (a : Chunks T) (count start : N) : option (N * N) :=
  match fuel with
  | O => None
  | S fuel =>
      if (ch_capacity a <=? start)%N then None else
      let index := chunk_of a start in
      let end_ := (chunk_start a index + chunk_len a index)%N in
      if (start + count <=? end_)%N then Some (start, index) else alloc_loop fuel a count end_
  end.
Definition reserve_chunk (a : Chunks T) (index : N) : Chunks T :=
  mkChunks (ch_mem a) (N.max (ch_reserved a) (index + 1)) (ch_next a) (ch_first_shift a) (ch_slots a).
Definition alloc (a : Chunks T) (count : N) : option (N * Chunks T) :=
  '(start, index) ← alloc_loop (S (N.to_nat (ch_slots a))) a count (ch_next a);
  let a := reserve_chunk a index in
  Some (start, mkChunks (ch_mem a) (ch_reserved a) (start + count)%N (ch_first_shift a) (ch_slots a)).

(** [get]: a slice inside one chunk, or nothing. *)
Definition elem_at (a : Chunks T) (offset : N) : T := default zero (ch_mem a !! offset).
Definition in_chunk (a : Chunks T) (offset len : N) : bool :=
  (offset <? ch_capacity a)%N &&
  (let index := chunk_of a offset in
   (offset - chunk_start a index + len <=? chunk_len a index)%N && (index <? ch_reserved a)%N).
Definition ch_get (a : Chunks T) (offset len : N) : list T :=
  if in_chunk a offset len then (fun i => elem_at a (offset + N.of_nat i)%N) <$> seq 0 (N.to_nat len) else [].

(** [word]: one element; storing to it goes through the same lookup. *)
Definition ch_word (a : Chunks T) (offset : N) : option T := head (ch_get a offset 1).
Definition ch_store (a : Chunks T) (offset : N) (v : T) : Chunks T :=
  if in_chunk a offset 1 then mkChunks (<[offset := v]> (ch_mem a)) (ch_reserved a) (ch_next a) (ch_first_shift a) (ch_slots a) else a.

(** The copy of [alloc_bytes]: consecutive elements from [offset] on. *)
Fixpoint write_mem (mem : gmap N T) (offset : N) (l : list T) : gmap N T :=
  match l with [] => mem | x :: l => <[offset := x]> (write_mem mem (offset + 1) l) end.
Definition alloc_bytes (a : Chunks T) (parts : list (list T)) : option (N * Chunks T) :=
  let total := N.of_nat (length (mjoin parts)) in
  if (2 ^ 32 <=? total)%N then None else
  '(offset, a) ← alloc a total;
  Some (offset, mkChunks (write_mem (ch_mem a) offset (mjoin parts)) (ch_reserved a) (ch_next a) (ch_first_shift a) (ch_slots a)).
End Chunks.

(** ** The address space *)

Section Lemmas.
Context {T : Type} (zero : T).
Implicit Types a : Chunks T.

(** Every chunk below the reserved count exists, and everything handed out lies
    in one that exists. *)
Record arena_ok a : Prop := {
  ok_shift : (ch_first_shift a + ch_slots a <= 32)%N;
  ok_next : (ch_next a <= ch_capacity a)%N;
  ok_reserved : forall offset, (offset < ch_next a)%N -> (chunk_of a offset < ch_reserved a)%N }.

Lemma arena_new_ok shift : (shift <= 32)%N -> arena_ok (@Chunks_new T shift).
Proof. intros Hs. split; cbn; lia. Qed.

Lemma pow2_pos n : (0 < 2 ^ n)%N.
Proof. apply N.neq_0_lt_0, N.pow_nonzero. lia. Qed.

Lemma chunk_of_spec a offset : (chunk_start a (chunk_of a offset) <= offset < chunk_start a (chunk_of a offset) + chunk_len a (chunk_of a offset))%N.
Proof.
  unfold chunk_start, chunk_len, chunk_of. pose proof (pow2_pos (ch_first_shift a)) as Hp. set (x := (offset + 2 ^ ch_first_shift a)%N).
  destruct (N.log2_spec x) as [H1 H2]; [lia|]. assert (ch_first_shift a <= N.log2 x)%N as Hle. { rewrite <- (N.log2_pow2 (ch_first_shift a)) by lia. apply N.log2_le_mono. lia. }
  replace (ch_first_shift a + (N.log2 x - ch_first_shift a))%N with (N.log2 x) by lia. rewrite N.pow_succ_r in H2 by lia. lia.
Qed.
Lemma chunk_of_mono a i j : (i <= j)%N -> (chunk_of a i <= chunk_of a j)%N.
Proof. intros Hij. unfold chunk_of. apply N.sub_le_mono_r, N.log2_le_mono. lia. Qed.
(** Chunks tile the space. *)
Lemma chunk_end a index : (chunk_start a index + chunk_len a index = chunk_start a (index + 1))%N.
Proof.
  unfold chunk_start, chunk_len. pose proof (pow2_pos (ch_first_shift a)). assert (2 ^ ch_first_shift a <= 2 ^ (ch_first_shift a + index))%N by (apply N.pow_le_mono_r; lia).
  replace (ch_first_shift a + (index + 1))%N with (N.succ (ch_first_shift a + index)) by lia. rewrite N.pow_succ_r by lia. lia.
Qed.
Lemma chunk_of_start a index : chunk_of a (chunk_start a index) = index.
Proof.
  unfold chunk_of, chunk_start. assert (2 ^ ch_first_shift a <= 2 ^ (ch_first_shift a + index))%N by (apply N.pow_le_mono_r; lia).
  replace (2 ^ (ch_first_shift a + index) - 2 ^ ch_first_shift a + 2 ^ ch_first_shift a)%N with (2 ^ (ch_first_shift a + index))%N by lia. rewrite N.log2_pow2 by lia. lia.
Qed.
Lemma chunk_of_inside a index offset : (chunk_start a index <= offset < chunk_start a index + chunk_len a index)%N -> chunk_of a offset = index.
Proof.
  intros [H1 H2]. unfold chunk_of, chunk_start, chunk_len in *. pose proof (pow2_pos (ch_first_shift a)).
  assert (2 ^ ch_first_shift a <= 2 ^ (ch_first_shift a + index))%N by (apply N.pow_le_mono_r; lia).
  rewrite (N.log2_unique (offset + 2 ^ ch_first_shift a) (ch_first_shift a + index)); [lia..|]. rewrite N.pow_succ_r by lia. lia.
Qed.
Lemma capacity_start a : ch_capacity a = chunk_start a (ch_slots a).
Proof. done. Qed.
Lemma capacity_bound a : arena_ok a -> (ch_capacity a < 2 ^ 32)%N.
Proof. intros [Hs _ _]. unfold ch_capacity. pose proof (pow2_pos (ch_first_shift a)). assert (2 ^ (ch_first_shift a + ch_slots a) <= 2 ^ 32)%N by (apply N.pow_le_mono_r; lia). pose proof (pow2_pos (ch_first_shift a + ch_slots a)). lia. Qed.
Lemma chunk_below_slots a offset : (offset < ch_capacity a)%N -> (chunk_of a offset < ch_slots a)%N.
Proof.
  intros Hlt. apply N.nle_gt. intros Hge. rewrite capacity_start in Hlt. pose proof (chunk_of_spec a offset) as [H1 _].
  assert (chunk_start a (ch_slots a) <= chunk_start a (chunk_of a offset))%N; [|lia]. unfold chunk_start. apply N.sub_le_mono_r, N.pow_le_mono_r; lia.
Qed.

(** ** Allocation *)

Lemma alloc_loop_Some fuel a count start off index : alloc_loop fuel a count start = Some (off, index) ->
  (start <= off < ch_capacity a)%N /\ index = chunk_of a off /\ (off + count <= chunk_start a (index + 1))%N.
Proof.
  revert start. induction fuel as [|fuel IH]; intros start; [done|]. cbn. destruct (N.leb_spec (ch_capacity a) start) as [|Hlt]; [done|]. rewrite chunk_end.
  destruct (N.leb_spec (start + count) (chunk_start a (chunk_of a start + 1))) as [Hle|Hgt].
  - intros [= <- <-]. split; [lia|done].
  - intros H%IH. pose proof (chunk_of_spec a start) as Hc. rewrite chunk_end in Hc. destruct H as (H1 & H2 & H3). split; [lia|done].
Qed.
(** The rounds are enough: nothing further on would have fit either. *)
Lemma alloc_loop_None fuel a count start : (N.to_nat (ch_slots a) < fuel + N.to_nat (chunk_of a start))%nat -> alloc_loop fuel a count start = None ->
  forall off, (start <= off < ch_capacity a)%N -> (chunk_start a (chunk_of a off + 1) < off + count)%N.
Proof.
  revert start. induction fuel as [|fuel IH]; intros start Hfuel; cbn.
  - intros _ off Hoff. pose proof (chunk_of_mono a start off ltac:(lia)). pose proof (chunk_below_slots a off ltac:(lia)). lia.
  - destruct (N.leb_spec (ch_capacity a) start) as [|Hlt]; [lia|]. rewrite chunk_end. destruct (N.leb_spec (start + count) (chunk_start a (chunk_of a start + 1))) as [Hle|Hgt]; [done|].
    intros Hl off Hoff. destruct (N.lt_ge_cases off (chunk_start a (chunk_of a start + 1))) as [Hin|Hout].
    + pose proof (chunk_of_spec a start) as Hc. rewrite chunk_end in Hc. assert (chunk_of a off = chunk_of a start) as -> by (apply chunk_of_inside; rewrite chunk_end; lia). lia.
    + apply (IH (chunk_start a (chunk_of a start + 1))%N); [rewrite chunk_of_start; lia|done|lia].
Qed.

(** [a'] has everything [a] had. *)
Record arena_grows a a' : Prop := {
  grows_shift : ch_first_shift a' = ch_first_shift a;
  grows_slots : ch_slots a' = ch_slots a;
  grows_reserved : (ch_reserved a <= ch_reserved a')%N;
  grows_next : (ch_next a <= ch_next a')%N }.
Lemma arena_grows_refl a : arena_grows a a.
Proof. by split. Qed.
Lemma arena_grows_trans a b c : arena_grows a b -> arena_grows b c -> arena_grows a c.
Proof. intros [H1 H2 H3 H4] [H1' H2' H3' H4']. split; [congruence|congruence|lia|lia]. Qed.

Lemma grows_same a a' offset : arena_grows a a' -> chunk_of a' offset = chunk_of a offset /\ ch_capacity a' = ch_capacity a.
Proof. intros [H1 H2 _ _]. unfold chunk_of, ch_capacity. by rewrite H1, H2. Qed.
Lemma grows_in_chunk a a' offset len : arena_grows a a' -> in_chunk a offset len = true -> in_chunk a' offset len = true.
Proof.
  intros Hg. destruct (grows_same a a' offset Hg) as [Hc Hcap]. destruct Hg as [H1 H2 H3 _]. unfold in_chunk. rewrite Hcap, Hc. unfold chunk_start, chunk_len. rewrite H1.
  rewrite !andb_true_iff, !N.ltb_lt, !N.leb_le. intros (? & ? & ?). split_and!; [done..|lia].
Qed.

Lemma alloc_spec a count off a' : arena_ok a -> alloc a count = Some (off, a') ->
  arena_ok a' /\ arena_grows a a' /\ ch_mem a' = ch_mem a /\ (ch_next a <= off)%N /\ ch_next a' = (off + count)%N /\ in_chunk a' off count = true.
Proof.
  intros [Hs Hn Hr] Ha. unfold alloc in Ha. destruct (alloc_loop _ a count (ch_next a)) as [[start index]|] eqn:El; [|done]. cbn in Ha. injection Ha as <- <-.
  apply alloc_loop_Some in El as ((H1 & H2) & -> & H3). assert (chunk_start a (chunk_of a start + 1) <= ch_capacity a)%N as Hend.
  { rewrite capacity_start. unfold chunk_start. apply N.sub_le_mono_r, N.pow_le_mono_r; [lia|]. pose proof (chunk_below_slots a start H2). lia. }
  pose proof (chunk_of_spec a start) as Hc. rewrite chunk_end in Hc. split_and!; cbn; try done; try lia.
  - split; cbn; [done|unfold ch_capacity in *; cbn; lia|]. intros o Ho. match goal with |- (?c < _)%N => change c with (chunk_of a o) end.
    destruct (N.lt_ge_cases o (chunk_start a (chunk_of a start))) as [Hlt|Hge]; [pose proof (chunk_of_mono a o start ltac:(lia)); lia|].
    rewrite (chunk_of_inside a (chunk_of a start) o); [lia|]. rewrite chunk_end. lia.
  - split; cbn; [done|done|lia|lia].
  - unfold in_chunk. unfold ch_capacity, chunk_of, chunk_start, chunk_len in *. cbn. rewrite !andb_true_iff, !N.ltb_lt, !N.leb_le. fold (chunk_of a start) in *.
    pose proof (chunk_end a (chunk_of a start)) as He. unfold chunk_start, chunk_len in He. split_and!; [done|lia|lia].
Qed.

(** ** Reading back *)

Lemma write_mem_lookup (mem : gmap N T) off (l : list T) o : write_mem mem off l !! o =
  if decide (off <= o < off + N.of_nat (length l))%N then l !! N.to_nat (o - off) else mem !! o.
Proof.
  revert off. induction l as [|x l IH]; intros off; cbn [write_mem length]; [by rewrite decide_False by lia|]. destruct (decide (o = off)) as [->|Hne].
  - rewrite lookup_insert_eq, decide_True by lia. by rewrite N.sub_diag.
  - rewrite lookup_insert_ne, IH by done. destruct (decide (off + 1 <= o < off + 1 + N.of_nat (length l))%N) as [Hin|Hout].
    + rewrite decide_True by lia. replace (N.to_nat (o - off)) with (S (N.to_nat (o - (off + 1)))) by lia. done.
    + rewrite decide_False by lia. done.
Qed.
Lemma in_chunk_sub a off len o l : in_chunk a off len = true -> (off <= o < off + len)%N -> (o + l <= off + len)%N -> in_chunk a o l = true.
Proof.
  unfold in_chunk. rewrite !andb_true_iff, !N.ltb_lt, !N.leb_le. intros (Hcap & Hlen & Hres) Ho Hl. pose proof (chunk_of_spec a off) as Hc.
  assert (chunk_of a o = chunk_of a off) as -> by (apply chunk_of_inside; lia). split_and!; [|lia|done].
  pose proof (chunk_below_slots a off Hcap) as Hs. rewrite capacity_start. assert (chunk_start a (chunk_of a off + 1) <= chunk_start a (ch_slots a))%N by (unfold chunk_start; apply N.sub_le_mono_r, N.pow_le_mono_r; lia).
  rewrite <- chunk_end in *. lia.
Qed.
Lemma get_length a off len : in_chunk a off len = true -> length (ch_get zero a off len) = N.to_nat len.
Proof. intros Hi. unfold ch_get. by rewrite Hi, length_fmap, length_seq. Qed.
Lemma get_lookup a off len i : in_chunk a off len = true -> (i < N.to_nat len)%nat -> ch_get zero a off len !! i = Some (elem_at zero a (off + N.of_nat i)).
Proof. intros Hi Hlt. unfold ch_get. by rewrite Hi, list_lookup_fmap, lookup_seq_lt by done. Qed.
Lemma get_zero a off : ch_get zero a off 0 = [].
Proof. unfold ch_get. by destruct (in_chunk a off 0). Qed.
(** A slice is its first part and the rest. *)
Lemma get_split a off k v : in_chunk a off (k + v) = true -> ch_get zero a off (k + v) = ch_get zero a off k ++ ch_get zero a (off + k) v.
Proof.
  intros Hi. destruct (decide (v = 0)%N) as [->|Hv]; [by rewrite N.add_0_r, get_zero, app_nil_r|]. destruct (decide (k = 0)%N) as [->|Hk]; [by rewrite get_zero, N.add_0_r, N.add_0_l|].
  assert (in_chunk a off k = true) as H1 by (apply (in_chunk_sub a off (k + v)); [done|lia..]). assert (in_chunk a (off + k) v = true) as H2 by (apply (in_chunk_sub a off (k + v)); [done|lia..]).
  apply list_eq. intros i. destruct (Nat.lt_ge_cases i (N.to_nat (k + v))) as [Hlt|Hge].
  2: { rewrite !lookup_ge_None_2; [done|rewrite length_app, !get_length by done; lia|rewrite get_length by done; lia]. }
  rewrite get_lookup by done. destruct (Nat.lt_ge_cases i (N.to_nat k)) as [Hlt'|Hge'].
  - by rewrite lookup_app_l, get_lookup by (done || rewrite get_length by done; lia).
  - rewrite lookup_app_r, get_length, get_lookup by (done || rewrite ?get_length by done; lia). do 2 f_equal. lia.
Qed.
Lemma word_eq a off : in_chunk a off 1 = true -> ch_word zero a off = Some (elem_at zero a off).
Proof. intros Hi. unfold ch_word, ch_get. rewrite Hi. transitivity (Some (elem_at zero a (off + 0)%N)); [done|by rewrite N.add_0_r]. Qed.

Lemma store_spec a off v : in_chunk a off 1 = true ->
  arena_grows a (ch_store a off v) /\ arena_grows (ch_store a off v) a /\ ch_mem (ch_store a off v) = <[off := v]> (ch_mem a) /\ (arena_ok a -> arena_ok (ch_store a off v)).
Proof. intros Hi. unfold ch_store. rewrite Hi. cbn. split_and!; [by split|by split|done|]. intros [H1 H2 H3]. by split. Qed.

Lemma get_eq a a' off len : in_chunk a off len = true -> in_chunk a' off len = true ->
  (forall o, (off <= o < off + len)%N -> ch_mem a' !! o = ch_mem a !! o) -> ch_get zero a' off len = ch_get zero a off len.
Proof.
  intros Hi Hi' Hm. unfold ch_get. rewrite Hi, Hi'. apply list_fmap_ext. intros i x Hx. apply lookup_seq in Hx as [-> Hx]. unfold elem_at. rewrite Hm by lia. done.
Qed.

Lemma alloc_bytes_Some a (parts : list (list T)) off a' : arena_ok a -> alloc_bytes a parts = Some (off, a') ->
  arena_ok a' /\ arena_grows a a' /\ in_chunk a' off (N.of_nat (length (mjoin parts))) = true /\ ch_get zero a' off (N.of_nat (length (mjoin parts))) = mjoin parts /\
  (ch_next a <= off)%N /\ ch_next a' = (off + N.of_nat (length (mjoin parts)))%N /\
  forall o len, in_chunk a o len = true -> (o + len <= ch_next a)%N -> ch_get zero a' o len = ch_get zero a o len.
Proof.
  intros Hok. unfold alloc_bytes. destruct (_ <=? _)%N; [done|]. destruct (alloc a (N.of_nat (length (mjoin parts)))) as [[off0 a0]|] eqn:Ea; [|done]. cbn. intros [= <- <-].
  destruct (alloc_spec a _ off0 a0 Hok Ea) as (Hok' & Hg & Hm & Hoff & Hnext & Hin). split_and!; [by destruct Hok' as [H1 H2 H3]|by destruct Hg as [G1 G2 G3 G4]|done| |done|done|].
  - unfold ch_get. change (in_chunk _ off0 _) with (in_chunk a0 off0 (N.of_nat (length (mjoin parts)))). rewrite Hin, Nat2N.id. apply list_eq. intros i. rewrite list_lookup_fmap.
    destruct (decide (i < length (mjoin parts))%nat) as [Hi|Hi]; [|rewrite !lookup_ge_None_2; [done|lia|rewrite length_seq; lia]]. rewrite lookup_seq_lt by done. cbn. unfold elem_at. cbn.
    rewrite write_mem_lookup, decide_True by lia. replace (N.to_nat (off0 + N.of_nat i - off0)) with i by lia. by destruct (lookup_lt_is_Some_2 (mjoin parts) i Hi) as [x ->].
  - intros o len Hi Hle. apply get_eq; [done|by eapply (grows_in_chunk a a0)|]. intros o' Ho'. cbn. rewrite write_mem_lookup, decide_False by lia. by rewrite Hm.
Qed.
End Lemmas.

(** What the memtable's arena hands out is its own and stays as written.
    Bytes copied in are read back as they were, from one slice that lies inside
    one chunk and below [2^32]; everything handed out before is read as before,
    since the new place starts past it; and the arena refuses only when no chunk
    from here on has room. *)
Theorem arena_keeps_bytes (a : Chunks Byte.byte) (parts : list bytes) :
  arena_ok a ->
  match alloc_bytes a parts with
  | Some (off, a') =>
      arena_ok a' /\ ch_get Byte.x00 a' off (N.of_nat (length (mjoin parts))) = mjoin parts /\
      (ch_next a <= off)%N /\ (off + N.of_nat (length (mjoin parts)) < 2 ^ 32)%N /\
      forall o len, in_chunk a o len = true -> (o + len <= ch_next a)%N -> ch_get Byte.x00 a' o len = ch_get Byte.x00 a o len
  | None => (2 ^ 32 <= N.of_nat (length (mjoin parts)))%N \/
      forall off, (ch_next a <= off < ch_capacity a)%N -> (chunk_start a (chunk_of a off + 1) < off + N.of_nat (length (mjoin parts)))%N
  end.
Proof.
  intros Hok. destruct (alloc_bytes a parts) as [[off a']|] eqn:Ea.
  - destruct (alloc_bytes_Some Byte.x00 a parts off a' Hok Ea) as (Hok' & _ & _ & Hget & Hoff & Hnext & Hold). split_and!; [done..| |done].
    pose proof (capacity_bound a' Hok'). pose proof (ok_next _ Hok'). rewrite Hnext in *. lia.
  - unfold alloc_bytes in Ea. destruct (N.leb_spec (2 ^ 32) (N.of_nat (length (mjoin parts)))) as [|Hlen]; [by left|]. right.
    destruct (alloc a _) as [[off a']|] eqn:El; [done|]. unfold alloc in El. destruct (alloc_loop _ a _ (ch_next a)) as [[start index]|] eqn:Ell; [done|]. eapply alloc_loop_None; [|done]. lia.
Qed.

Lemma arena_keeps_bytes_witness : exists off a', alloc_bytes (@Chunks_new Byte.byte 1) [[Byte.x01; Byte.x02]; [Byte.x03]] = Some (off, a') /\
  (off, ch_get Byte.x00 a' off 3) = (2%N, [Byte.x01; Byte.x02; Byte.x03]) /\ arena_ok a'.
Proof.
  pose proof (arena_keeps_bytes (Chunks_new 1) [[Byte.x01; Byte.x02]; [Byte.x03]] (arena_new_ok 1 ltac:(vm_compute; discriminate))) as H.
  destruct (alloc_bytes _ _) as [[off a']|] eqn:E; [|vm_compute in E; discriminate]. destruct H as (Hok & Hget & _). exists off, a'. split; [done|]. split; [|done].
  change (N.of_nat (length (mjoin [[Byte.x01; Byte.x02]; [Byte.x03]]))) with 3%N in Hget. rewrite Hget. vm_compute in E. injection E as <- _. reflexivity.
Defined.
