(* ===== verification/SkipList.v ===== *)
(** The memtable's store (esker-engine/src/memtable/skiplist.rs): a skip list
    whose nodes are words of one arena and whose keys and values are bytes of
    another.  A node is the offset of its header; its forward pointers follow the
    header.  The atomic accesses are sequentially consistent here. *)

From stdpp Require Import prelude sorting gmap.
From Stdlib Require Import NArith Lia.
From S2P Require Import Prelude Rng DbFormat Lsm Cursor Arena.

Definition MAX_HEIGHT : nat := 16.
Definition BRANCHING : N := 4.
Definition HEADER : N := 4.
Definition NIL : N := 0.
Definition HEAD : N := 1.
Definition BYTES_SHIFT : N := 12.
Definition WORDS_SHIFT : N := 10.

Record SkipList := mkSkip {
  sl_bytes : Chunks Byte.byte;
  sl_words : Chunks N;
  sl_height : nat;
  sl_len : nat;
  sl_rng : Pcg32;
}.

(** [new]: word zero is spent and the head follows. *)
Definition SkipList_new (seed : N) : SkipList :=
  let words := Chunks_new WORDS_SHIFT in
  let words := from_option snd words (alloc words 1) in
  let words := from_option snd words (alloc words (HEADER + N.of_nat MAX_HEIGHT)) in
  mkSkip (Chunks_new BYTES_SHIFT) words 1 0 (Pcg32_from_seed seed).

(** ** Reading a node *)

Definition sl_header (s : SkipList) (node : N) : list N := ch_get 0%N (sl_words s) node HEADER.
Definition sat32 (x : N) : N := N.min x (2 ^ 32 - 1).
Definition sl_next (s : SkipList) (node : N) (level : nat) : N :=
  default NIL (ch_word 0%N (sl_words s) (sat32 (sat32 (node + HEADER) + N.of_nat level))).
Definition sl_key (s : SkipList) (node : N) : bytes :=
  match sl_header s node with
  | offset :: key_len :: _ :: _ :: _ => ch_get Byte.x00 (sl_bytes s) offset key_len
  | _ => []
  end.
Definition sl_value (s : SkipList) (node : N) : bytes :=
  match sl_header s node with
  | offset :: key_len :: value_len :: _ :: _ => ch_get Byte.x00 (sl_bytes s) (sat32 (offset + key_len)) value_len
  | _ => []
  end.

(** ** Searching *)

Section Search.
Context (user : Comparator).

Definition sl_top (s : SkipList) : nat := (Nat.max (sl_height s) 1 - 1)%nat.
Definition is_before (s : SkipList) (key : bytes) (node : N) : bool :=
  negb (node =? NIL)%N && bool_decide (internal_cmp user (sl_key s node) key = Lt).
Definition not_after (s : SkipList) (key : bytes) (node : N) : bool :=
  negb (node =? NIL)%N && bool_decide (internal_cmp user (sl_key s node) key <> Gt).
Definition not_nil (node : N) : bool := negb (node =? NIL)%N.

(** The loop the four searches share: forward while [ok] holds of the next node,
    else down a level, noting where; at level zero the node reached and the one
    after it.  [None] when [fuel] rounds were not enough. *)
Fixpoint descend (fuel : nat) (s : SkipList) (ok : N -> bool) (node : N) (level : nat) (prev : list N) : option (N * N * list N) :=
  match fuel with
  | O => None
  | S fuel =>
      let next := sl_next s node level in
      if ok next then descend fuel s ok next level prev else
      let prev := <[level := node]> prev in
      match level with
      | O => Some (node, next, prev)
      | S level => descend fuel s ok node level prev
      end
  end.
(** As many rounds as nodes, and one more, at each level. *)
Definition rounds (s : SkipList) : nat := (MAX_HEIGHT * S (sl_len s))%nat.
Definition search (s : SkipList) (ok : N -> bool) : N * N * list N :=
  default (HEAD, NIL, []) (descend (rounds s) s ok HEAD (sl_top s) (replicate MAX_HEIGHT HEAD)).

Definition find_ge (s : SkipList) (key : bytes) : N * list N := let '(_, next, prev) := search s (is_before s key) in (next, prev).
Definition find_lt (s : SkipList) (key : bytes) : N := (search s (is_before s key)).1.1.
Definition find_le (s : SkipList) (key : bytes) : N := (search s (not_after s key)).1.1.
Definition nil_if_head (node : N) : N := if (node =? HEAD)%N then NIL else node.
Definition sl_first (s : SkipList) : N := sl_next s HEAD 0.
Definition sl_last (s : SkipList) : N := nil_if_head (search s not_nil).1.1.
Definition sl_seek (s : SkipList) (key : bytes) : N := (find_ge s key).1.
Definition sl_seek_for_prev (s : SkipList) (key : bytes) : N := nil_if_head (find_le s key).
Definition sl_after (s : SkipList) (node : N) : N := if (node =? NIL)%N then NIL else sl_next s node 0.
Definition sl_before (s : SkipList) (node : N) : N := if (node =? NIL)%N then NIL else nil_if_head (find_lt s (sl_key s node)).

(** ** Writing *)

Fixpoint draw_height_loop (n : nat) (height : nat) (rng : Pcg32) : nat * Pcg32 :=
  match n with
  | O => (height, rng)
  | S n =>
      let '(r, rng) := next_u32 rng in
      if (r mod BRANCHING =? 0)%N then draw_height_loop n (S height) rng else (height, rng)
  end.
Definition draw_height (rng : Pcg32) : nat * Pcg32 := draw_height_loop (MAX_HEIGHT - 1) 1 rng.

Definition with_words (s : SkipList) (words : Chunks N) : SkipList := mkSkip (sl_bytes s) words (sl_height s) (sl_len s) (sl_rng s).
Definition store_word (s : SkipList) (offset v : N) : SkipList := with_words s (ch_store (sl_words s) offset v).
Definition link_word (node : N) (level : nat) : N := (sat32 (node + HEADER) + N.of_nat level)%N.

(** One level of [publish]: the new node's own pointer, then the one that
    reaches it. *)
Definition own_link (s : SkipList) (node previous : N) (level : nat) : SkipList := store_word s (link_word node level) (sl_next s previous level).
Definition reach_link (s : SkipList) (node previous : N) (level : nat) : SkipList := store_word s (link_word previous level) node.
Fixpoint publish_loop (n : nat) (s : SkipList) (node : N) (prev : list N) (level : nat) : SkipList :=
  match n with
  | O => s
  | S n =>
      let previous := nth level prev HEAD in
      publish_loop n (reach_link (own_link s node previous level) node previous level) node prev (S level)
  end.
Definition publish (s : SkipList) (node : N) (height : nat) (prev : list N) : SkipList := publish_loop height s node prev 0.

(** Everything of [insert] before [publish]: the bytes, the search, the node and
    its header. *)
Definition prepare (s : SkipList) (head tail value : bytes) : SkipList * option (N * nat * list N) :=
  match alloc_bytes (sl_bytes s) [head; tail; value] with
  | None => (s, None)
  | Some (offset, bytes) =>
      let s := mkSkip bytes (sl_words s) (sl_height s) (sl_len s) (sl_rng s) in
      let key_len := N.of_nat (length head + length tail) in
      let value_len := N.of_nat (length value) in
      if (2 ^ 32 <=? key_len)%N || (2 ^ 32 <=? value_len)%N then (s, None) else
      let key := ch_get Byte.x00 bytes offset key_len in
      let was := Nat.max (sl_height s) 1 in
      let prev := (find_ge s key).2 in
      let '(height, rng) := draw_height (sl_rng s) in
      let s := mkSkip bytes (sl_words s) (sl_height s) (sl_len s) rng in
      match alloc (sl_words s) (HEADER + N.of_nat height) with
      | None => (s, None)
      | Some (node, words) =>
          let s := mkSkip bytes words (if (was <? height)%nat then height else sl_height s) (sl_len s) rng in
          match sl_header s node with
          | _ :: _ :: _ :: _ :: _ =>
              let s := store_word s node offset in
              let s := store_word s (node + 1) key_len in
              let s := store_word s (node + 2) value_len in
              let s := store_word s (node + 3) (N.of_nat height) in
              (s, Some (node, height, prev))
          | _ => (s, None)
          end
      end
  end.
Definition sl_insert (s : SkipList) (head tail value : bytes) : SkipList * bool :=
  match prepare s head tail value with
  | (s, None) => (s, false)
  | (s, Some (node, height, prev)) =>
      let s := publish s node height prev in
      (mkSkip (sl_bytes s) (sl_words s) (sl_height s) (S (sl_len s)) (sl_rng s), true)
  end.
End Search.

(** ** Chains of forward pointers *)

Section Chains.
Context (nxt : N -> nat -> N).

(** The nodes from [n] on at a level, to the end. *)
Fixpoint path (l : nat) (n : N) (nodes : list N) : Prop :=
  match nodes with
  | [] => nxt n l = NIL
  | m :: nodes => nxt n l = m /\ m <> NIL /\ path l m nodes
  end.
Definition endpoint (nodes : list N) : N := default HEAD (last nodes).

(** Each level is a chain from the head, its nodes also on the level below. *)
Record linked (chains : nat -> list N) : Prop := {
  lk_path l : (l < MAX_HEIGHT)%nat -> path l HEAD (chains l);
  lk_nodup l : NoDup (HEAD :: chains l);
  lk_sub l : chains (S l) ⊆ chains l }.

Lemma path_next l n P R : path l n (P ++ R) -> nxt (default n (last P)) l = hd NIL R.
Proof using.
  revert n. induction P as [|m P IH]; intros n.
  - destruct R as [|r R]; cbn; [done|by intros (-> & _)].
  - cbn [app path]. intros (_ & _ & Hp%IH). rewrite <- Hp. f_equal. rewrite last_cons. by destruct (last P).
Qed.
Lemma path_not_nil l n nodes : path l n nodes -> NIL ∉ nodes.
Proof using. revert n. induction nodes as [|m nodes IH]; intros n; cbn; [intros _ ?%elem_of_nil; done|]. intros (_ & Hm & Hp) [Heq|Hin]%elem_of_cons; [by subst m|by apply (IH m Hp)]. Qed.
Lemma endpoint_snoc P n : endpoint (P ++ [n]) = n.
Proof using. unfold endpoint. by rewrite last_snoc. Qed.
Lemma endpoint_cases P : endpoint P = HEAD /\ P = [] \/ exists P', P = P' ++ [endpoint P].
Proof using. destruct P as [|n P _] using rev_ind; [by left|]. right. exists P. by rewrite endpoint_snoc. Qed.
Lemma endpoint_elem P : endpoint P ∈ HEAD :: P.
Proof using. destruct (endpoint_cases P) as [[-> _]|[P' E]]; [left|]. right. rewrite E at 2. set_solver. Qed.
(** Without repetition, a chain is cut in one way at a given node. *)
Lemma split_endpoint A B A' B' : A ++ B = A' ++ B' -> NoDup (HEAD :: A ++ B) -> endpoint A = endpoint A' -> A = A' /\ B = B'.
Proof using.
  intros E Hnd He. assert (length A = length A') as Hlen; [|by apply app_inj_1].
  assert (forall P Q, A ++ B = P ++ Q -> (HEAD :: A ++ B) !! length P = Some (endpoint P)) as Hat.
  { intros P Q ->. destruct P as [|n P _] using rev_ind; [done|]. rewrite length_app, Nat.add_1_r, endpoint_snoc. cbn. rewrite <- app_assoc. by apply list_lookup_middle. }
  eapply NoDup_lookup; [exact Hnd|by apply (Hat A B)|]. rewrite He. by apply (Hat A' B').
Qed.
Lemma sub_levels chains l l' : linked chains -> (l <= l')%nat -> chains l' ⊆ chains l.
Proof using. intros Hl. induction 1 as [|l' _ IH]; [done|]. etrans; [apply (lk_sub _ Hl)|done]. Qed.

(** *** Linking one node at one level *)

Definition relink (p : N) (l : nat) (n : N) : N -> nat -> N := fun m l' => if decide (m = p /\ l' = l) then n else nxt m l'.
End Chains.

Lemma path_ext nxt nxt' l n nodes : (forall m, m ∈ n :: nodes -> nxt' m l = nxt m l) -> path nxt l n nodes -> path nxt' l n nodes.
Proof.
  revert n. induction nodes as [|m nodes IH]; intros n He; cbn; [by rewrite He by left|]. rewrite He by left. intros (? & ? & Hp). split_and!; [done..|]. apply IH; [|done]. intros x Hx. apply He. by right.
Qed.

(** The new node's pointer written, then the one that reaches it. *)
Lemma path_insert nxt nxt' l n P R node : path nxt l n (P ++ R) -> NoDup (n :: P ++ R) -> node <> NIL ->
  nxt' (default n (last P)) l = node -> nxt' node l = hd NIL R -> (forall m, m ∈ n :: P ++ R -> m <> default n (last P) -> nxt' m l = nxt m l) ->
  path nxt' l n (P ++ node :: R).
Proof.
  revert n. induction P as [|m P IH]; intros n Hp Hnd Hnode Hreach Hown Hext.
  - cbn in *. split_and!; [done..|]. apply NoDup_cons in Hnd as [Hn Hnd]. destruct R as [|r R]; [done|]. cbn in Hp, Hown |- *. destruct Hp as (_ & Hr & Hp). split_and!; [done..|].
    eapply path_ext; [|exact Hp]. intros x Hx. apply Hext; [by right|]. intros ->. by apply Hn.
  - cbn [app] in *. destruct Hp as (Hm & Hmn & Hp). apply NoDup_cons in Hnd as [Hn Hnd]. rewrite last_cons in Hreach, Hext.
    assert (default n (match last P with Some y => Some y | None => Some m end) = default m (last P)) as E by by destruct (last P). rewrite E in Hreach, Hext.
    cbn [path]. split_and!; [|done|].
    + rewrite Hext; [done|left|]. intros ->. apply Hn. destruct (last P) as [y|] eqn:El; cbn; [|left]. right. apply elem_of_app. left. by apply last_Some_elem_of.
    + apply IH; try done. intros x Hx. apply Hext. by right.
Qed.

(** *** The search *)

Section Descend.
Context (s : SkipList) (chains : nat -> list N) (Hl : linked (sl_next s) chains) (ok : N -> bool) (A B : nat -> list N).
Context (Hsplit : forall l, (l < MAX_HEIGHT)%nat -> chains l = A l ++ B l) (Hok : forall l n, (l < MAX_HEIGHT)%nat -> n ∈ A l -> ok n = true) (Hno : forall l n, (l < MAX_HEIGHT)%nat -> n ∈ NIL :: B l -> ok n = false).
Context (bound : nat) (Hbound : forall l, (l < MAX_HEIGHT)%nat -> (length (chains l) <= bound)%nat).

(** A node of a level that satisfies [ok] lies in the first part below. *)
Lemma down_split l : (S l < MAX_HEIGHT)%nat -> exists P Q, A l = P ++ Q /\ endpoint (A (S l)) = endpoint P.
Proof using All.
  intros Hlt. destruct (endpoint_cases (A (S l))) as [[E _]|[P' E]]; [exists [], (A l); by rewrite E|].
  assert (endpoint (A (S l)) ∈ A (S l)) as Hin by (rewrite E at 2; set_solver). assert (endpoint (A (S l)) ∈ chains l) as Hin'.
  { apply (lk_sub _ _ Hl). rewrite Hsplit by done. set_solver. }
  rewrite Hsplit in Hin' by lia. apply elem_of_app in Hin' as [Hin'|Hin']; [|specialize (Hok (S l) _ Hlt Hin); rewrite (Hno l) in Hok by (lia || by right); done].
  apply list_elem_of_split in Hin' as (P & Q & EA). exists (P ++ [endpoint (A (S l))]), Q. split; [by rewrite <- app_assoc|by rewrite endpoint_snoc].
Qed.

Lemma descend_spec fuel level P Q prev : (level < MAX_HEIGHT)%nat -> A level = P ++ Q -> (length Q + 1 + level * S bound <= fuel)%nat ->
  exists prev', descend fuel s ok (endpoint P) level prev = Some (endpoint (A 0%nat), hd NIL (B 0%nat), prev') /\ length prev' = length prev /\
    (forall l, (l <= level)%nat -> (l < length prev)%nat -> prev' !! l = Some (endpoint (A l))) /\ (forall l, (level < l)%nat -> prev' !! l = prev !! l).
Proof using All.
  revert level P Q prev. induction fuel as [|fuel IH]; intros level P Q prev Hlev HA Hfuel; [lia|]. cbn [descend].
  pose proof (lk_path _ _ Hl level Hlev) as Hp. rewrite (Hsplit level Hlev), HA, <- app_assoc in Hp. apply path_next in Hp. fold (endpoint P) in Hp. rewrite Hp.
  destruct Q as [|q Q]; cbn [app hd].
  - rewrite app_nil_r in HA. assert (ok (hd NIL (B level)) = false) as -> by (apply (Hno level); [done|]; destruct (B level); [left|right; left]).
    destruct level as [|level].
    + exists (<[0%nat := endpoint P]> prev). rewrite HA. split_and!; [done|by rewrite length_insert| |].
      * intros l Hle Hlt. replace l with 0%nat in * by lia. rewrite list_lookup_insert_eq by done. by rewrite HA.
      * intros l Hlt. by rewrite list_lookup_insert_ne by lia.
    + destruct (down_split level Hlev) as (P' & Q' & HA' & HE). rewrite <- HA, HE. pose proof (Hbound level ltac:(lia)) as Hb. rewrite Hsplit, HA', !length_app in Hb by lia.
      destruct (IH level P' Q' (<[S level := endpoint P']> prev) ltac:(lia) HA') as (prev' & Hd & Hlen & Hlow & Hhigh); [cbn in Hfuel; lia|].
      exists prev'. rewrite length_insert in *. split_and!; [done|done| |].
      * intros l Hle Hlt. destruct (decide (l = S level)) as [->|]; [|apply Hlow; lia]. rewrite Hhigh by lia. rewrite list_lookup_insert_eq by done. by rewrite <- HE.
      * intros l Hlt. rewrite Hhigh by lia. by rewrite list_lookup_insert_ne by lia.
  - rewrite (Hok level q Hlev) by (rewrite HA; set_solver). rewrite <- (endpoint_snoc P q). apply (IH level (P ++ [q]) Q); [done|by rewrite <- app_assoc|cbn in Hfuel; lia].
Qed.
End Descend.

(** ** Nodes in the arena *)

Definition word_at (s : SkipList) (offset : N) : N := elem_at 0%N (sl_words s) offset.

(** The nodes handed out, each with its height, in the order of allocation: no
    two share a word. *)
Record layout (s : SkipList) (blocks : list (N * nat)) : Prop := {
  ly_words : arena_ok (sl_words s);
  ly_bytes : arena_ok (sl_bytes s);
  ly_sorted : StronglySorted (fun a b => a.1 + 4 + N.of_nat a.2 <= b.1)%N blocks;
  ly_block n h : (n, h) ∈ blocks -> in_chunk (sl_words s) n (4 + N.of_nat h) = true /\ (0 < n)%N /\ (n + 4 + N.of_nat h <= ch_next (sl_words s))%N;
  ly_head : (HEAD, MAX_HEIGHT) ∈ blocks }.

(** A node's entry lies in the bytes handed out. *)
Definition holds (s : SkipList) (n : N) (kv : bytes * bytes) : Prop :=
  exists offset, word_at s n = offset /\ word_at s (n + 1) = N.of_nat (length kv.1) /\ word_at s (n + 2) = N.of_nat (length kv.2) /\
    in_chunk (sl_bytes s) offset (N.of_nat (length kv.1) + N.of_nat (length kv.2)) = true /\
    (offset + N.of_nat (length kv.1) + N.of_nat (length kv.2) <= ch_next (sl_bytes s))%N /\
    ch_get Byte.x00 (sl_bytes s) offset (N.of_nat (length kv.1) + N.of_nat (length kv.2)) = kv.1 ++ kv.2.

Section Layout.
Context (s : SkipList) (blocks : list (N * nat)) (Hly : layout s blocks).

Lemma block_unique n h h' : (n, h) ∈ blocks -> (n, h') ∈ blocks -> h = h'.
Proof using Hly.
  intros H1 H2. pose proof (ly_sorted _ _ Hly) as Hs. apply list_elem_of_split in H1 as (l1 & l2 & ->). apply elem_of_app in H2 as [H2|H2].
  - apply list_elem_of_split in H2 as (l3 & l4 & ->). rewrite <- app_assoc in Hs. apply StronglySorted_app_1_r, StronglySorted_inv in Hs as [_ Hs].
    rewrite Forall_forall in Hs. specialize (Hs (n, h) ltac:(set_solver)). cbn in Hs. lia.
  - apply elem_of_cons in H2 as [[= ->]|H2]; [done|]. apply StronglySorted_app_1_r, StronglySorted_inv in Hs as [_ Hs]. rewrite Forall_forall in Hs. specialize (Hs (n, h') H2). cbn in Hs. lia.
Qed.
Lemma block_apart n h m h' : (n, h) ∈ blocks -> (m, h') ∈ blocks -> n <> m -> (n + 4 + N.of_nat h <= m \/ m + 4 + N.of_nat h' <= n)%N.
Proof using Hly.
  intros H1 H2 Hne. pose proof (ly_sorted _ _ Hly) as Hs. apply list_elem_of_split in H1 as (l1 & l2 & ->). apply elem_of_app in H2 as [H2|H2].
  - right. apply list_elem_of_split in H2 as (l3 & l4 & ->). rewrite <- app_assoc in Hs. apply StronglySorted_app_1_r, StronglySorted_inv in Hs as [_ Hs].
    rewrite Forall_forall in Hs. by specialize (Hs (n, h) ltac:(set_solver)).
  - left. apply elem_of_cons in H2 as [[= -> _]|H2]; [done|]. apply StronglySorted_app_1_r, StronglySorted_inv in Hs as [_ Hs]. rewrite Forall_forall in Hs. by specialize (Hs (m, h') H2).
Qed.

Lemma block_small n h : (n, h) ∈ blocks -> (n + 4 + N.of_nat h < 2 ^ 32)%N.
Proof using Hly. intros Hb. destruct (ly_block _ _ Hly n h Hb) as (_ & _ & Hn). pose proof (capacity_bound _ (ly_words _ _ Hly)). pose proof (ok_next _ (ly_words _ _ Hly)). lia. Qed.

(** A pointer of a node is one word of its block. *)
Lemma link_address n h l : (n, h) ∈ blocks -> (l < h)%nat -> link_word n l = (n + 4 + N.of_nat l)%N /\ in_chunk (sl_words s) (n + 4 + N.of_nat l) 1 = true.
Proof using Hly.
  intros Hb Hl. pose proof (block_small n h Hb). destruct (ly_block _ _ Hly n h Hb) as (Hin & _). split; [unfold link_word, sat32, HEADER; lia|].
  apply (in_chunk_sub _ n (4 + N.of_nat h)); [done|lia..].
Qed.
Lemma next_word n h l : (n, h) ∈ blocks -> (l < h)%nat -> sl_next s n l = word_at s (n + 4 + N.of_nat l).
Proof using Hly.
  intros Hb Hl. pose proof (block_small n h Hb). destruct (link_address n h l Hb Hl) as [_ Hi]. unfold sl_next.
  replace (sat32 (sat32 (n + HEADER) + N.of_nat l)) with (n + 4 + N.of_nat l)%N by (unfold sat32, HEADER; lia). by rewrite word_eq by done.
Qed.
Lemma header_words n h : (n, h) ∈ blocks -> sl_header s n = [word_at s n; word_at s (n + 1); word_at s (n + 2); word_at s (n + 3)].
Proof using Hly.
  intros Hb. destruct (ly_block _ _ Hly n h Hb) as (Hin & _). assert (in_chunk (sl_words s) n 4 = true) as Hi by (apply (in_chunk_sub _ n (4 + N.of_nat h)); [done|lia..]).
  unfold sl_header, HEADER, ch_get. rewrite Hi. unfold word_at. change (seq 0 (N.to_nat 4)) with [0; 1; 2; 3]%nat. cbn [fmap list_fmap].
  change (N.of_nat 0) with 0%N. change (N.of_nat 1) with 1%N. change (N.of_nat 2) with 2%N. change (N.of_nat 3) with 3%N. by rewrite N.add_0_r.
Qed.

Lemma holds_entry n h kv : (n, h) ∈ blocks -> holds s n kv -> sl_key s n = kv.1 /\ sl_value s n = kv.2.
Proof using Hly.
  intros Hb (offset & H0 & H1 & H2 & Hin & Hle & Hget). unfold sl_key, sl_value. rewrite (header_words n h Hb), H0, H1, H2.
  pose proof (capacity_bound _ (ly_bytes _ _ Hly)). pose proof (ok_next _ (ly_bytes _ _ Hly)).
  replace (sat32 (offset + N.of_nat (length kv.1))) with (offset + N.of_nat (length kv.1))%N by (unfold sat32; lia).
  rewrite (get_split Byte.x00) in Hget by done. apply app_inj_1 in Hget as [-> ->]; [done|].
  destruct (decide (length kv.1 = 0)%nat) as [E|E]; [rewrite E; by rewrite get_zero|]. rewrite get_length; [lia|].
  apply (in_chunk_sub _ offset (N.of_nat (length kv.1) + N.of_nat (length kv.2))); [done|lia..].
Qed.
End Layout.

(** ** What a list holds *)

Section Invariant.
Context (user : Comparator) `{!ComparatorLaws user}.

(** [chains]: the nodes of each level.  [ent]: the entry of each node. *)
Record sl_inv (s : SkipList) (blocks : list (N * nat)) (chains : nat -> list N) (ent : N -> entry) : Prop := {
  iv_layout : layout s blocks;
  iv_linked : linked (sl_next s) chains;
  iv_height n l : n ∈ chains l -> exists h, (n, h) ∈ blocks /\ (l < h)%nat;
  iv_holds n : n ∈ chains 0%nat -> holds s n (ent n);
  iv_sorted l : StronglySorted (fun a b => key_le user (ent a).1 (ent b).1) (chains l);
  iv_wf n : n ∈ chains 0%nat -> wellformed (ent n).1;
  iv_top l : (sl_height s <= l)%nat -> chains l = [];
  iv_bound : (1 <= sl_height s <= MAX_HEIGHT)%nat }.

Lemma inv_entry s blocks chains ent l n : sl_inv s blocks chains ent -> n ∈ chains l -> sl_key s n = (ent n).1 /\ sl_value s n = (ent n).2 /\ wellformed (ent n).1.
Proof using.
  intros Hi Hn. assert (n ∈ chains 0%nat) as Hn0 by (eapply (sub_levels (sl_next s) chains 0 l); [apply Hi|lia|done]). destruct (iv_height _ _ _ _ Hi n 0 Hn0) as (h & Hb & _).
  destruct (holds_entry s blocks (iv_layout _ _ _ _ Hi) n h (ent n) Hb (iv_holds _ _ _ _ Hi n Hn0)). split_and!; [done..|]. by apply Hi.
Qed.

(** A level split by a property of keys that only the first nodes have. *)
Definition fore (ent : N -> entry) (P : bytes -> Prop) `{!forall k, Decision (P k)} (chain : list N) : list N := filter (fun n => P (ent n).1) chain.
Definition aft (ent : N -> entry) (P : bytes -> Prop) `{!forall k, Decision (P k)} (chain : list N) : list N := filter (fun n => ~ P (ent n).1) chain.
Definition lower (P : bytes -> Prop) : Prop := forall a b, wellformed a -> wellformed b -> key_le user a b -> P b -> P a.

Lemma chain_split s blocks chains ent (P : bytes -> Prop) `{!forall k, Decision (P k)} l : sl_inv s blocks chains ent -> lower P -> chains l = fore ent P (chains l) ++ aft ent P (chains l).
Proof using.
  intros Hi HP. destruct (split_downward _ (fun n => P (ent n).1) (chains l) (iv_sorted _ _ _ _ Hi l)) as (l1 & l2 & E & H1 & H2 & H3).
  { intros a b Ha Hb Hle. apply HP; [by eapply inv_entry..|done]. }
  unfold fore, aft. rewrite E at 1. f_equal; [by rewrite H1|]. rewrite E, filter_app, (filter_none _ l1), (filter_all _ l2); [done|by apply Forall_forall|apply Forall_forall; intros x Hx Hn; by apply Hn, H2].
Qed.

Lemma chain_length s blocks chains ent l : sl_inv s blocks chains ent -> (length (chains l) <= length (chains 0%nat))%nat.
Proof using.
  intros Hi. apply submseteq_length, NoDup_submseteq.
  - pose proof (lk_nodup _ _ (iv_linked _ _ _ _ Hi) l) as Hn. by apply NoDup_cons in Hn as [_ Hn].
  - intros n Hn. eapply (sub_levels (sl_next s) chains 0 l); [apply Hi|lia|done].
Qed.

Lemma search_spec s blocks chains ent (ok : N -> bool) (P : bytes -> Prop) `{!forall k, Decision (P k)} : sl_inv s blocks chains ent -> sl_len s = length (chains 0%nat) -> lower P ->
  ok NIL = false -> (forall n, n ∈ chains 0%nat -> ok n = bool_decide (P (ent n).1)) ->
  exists prev, search s ok = (endpoint (fore ent P (chains 0%nat)), hd NIL (aft ent P (chains 0%nat)), prev) /\
    forall l, (l < MAX_HEIGHT)%nat -> nth l prev HEAD = endpoint (fore ent P (chains l)).
Proof using.
  intros Hi Hlen HP Hnil Hok. unfold search. assert (sl_top s < sl_height s)%nat as Htop by (pose proof (iv_bound _ _ _ _ Hi); unfold sl_top; lia).
  assert (forall l n, n ∈ chains l -> ok n = bool_decide (P (ent n).1)) as Hok' by (intros l n Hn; apply Hok; eapply (sub_levels (sl_next s) chains 0 l); [apply Hi|lia|done]).
  destruct (descend_spec s chains (iv_linked _ _ _ _ Hi) ok (fun l => fore ent P (chains l)) (fun l => aft ent P (chains l))) with (bound := length (chains 0%nat)) (fuel := rounds s) (level := sl_top s)
    (P := @nil N) (Q := fore ent P (chains (sl_top s))) (prev := replicate MAX_HEIGHT HEAD) as (prev & Hd & Hlp & Hlow & Hhigh).
  - intros l _. by eapply chain_split.
  - intros l n _ [HPn Hn]%list_elem_of_filter. rewrite (Hok' l n Hn). by apply bool_decide_eq_true.
  - intros l n _ [->|[HPn Hn]%list_elem_of_filter]%elem_of_cons; [done|]. rewrite (Hok' l n Hn). by apply bool_decide_eq_false.
  - intros l _. by eapply chain_length.
  - pose proof (iv_bound _ _ _ _ Hi). lia.
  - done.
  - pose proof (chain_length s blocks chains ent (sl_top s) Hi) as Hc. pose proof (length_filter (fun n => P (ent n).1) (chains (sl_top s))) as Hf. fold (fore ent P (chains (sl_top s))) in Hf. pose proof (iv_bound _ _ _ _ Hi).
    unfold rounds. rewrite Hlen. assert (sl_top s <= 15)%nat by (unfold MAX_HEIGHT in *; lia). unfold MAX_HEIGHT. nia.
  - exists prev. change (endpoint []) with HEAD in Hd. rewrite Hd. split; [done|]. intros l Hl. rewrite length_replicate in *. destruct (Nat.le_gt_cases l (sl_top s)) as [Hle|Hgt].
    + erewrite nth_lookup_Some; [done|]. by apply Hlow.
    + rewrite (iv_top _ _ _ _ Hi l) by (unfold sl_top in *; lia). erewrite nth_lookup_Some; [done|]. rewrite Hhigh by done. by apply lookup_replicate_2.
Qed.
End Invariant.

(** ** Writing words *)

Lemma store_layout s blocks o v : layout s blocks -> in_chunk (sl_words s) o 1 = true ->
  layout (store_word s o v) blocks /\ forall x, word_at (store_word s o v) x = if decide (x = o) then v else word_at s x.
Proof.
  intros [H1 H2 H3 H4 H5] Hi. destruct (store_spec (sl_words s) o v Hi) as (Hg & Hg' & Hm & Hok). split.
  - split; cbn; [by apply Hok|done|done| |done]. intros n h Hb. destruct (H4 n h Hb) as (Hin & Hn & Hle). split_and!; [by eapply grows_in_chunk|done|]. pose proof (grows_next _ _ Hg). lia.
  - intros x. unfold word_at, elem_at. cbn. rewrite Hm. destruct (decide (x = o)) as [->|Hne]; [by rewrite lookup_insert_eq|by rewrite lookup_insert_ne].
Qed.
Lemma holds_same s s' n kv : sl_bytes s' = sl_bytes s -> (forall o, (n <= o < n + 3)%N -> word_at s' o = word_at s o) -> holds s n kv -> holds s' n kv.
Proof. intros Hb Hw (offset & H0 & H1 & H2 & H). exists offset. rewrite Hb, !Hw by lia. done. Qed.

(** The pointers and entries of some nodes, unchanged. *)
Record same_nodes (s s' : SkipList) (blocks : list (N * nat)) : Prop := {
  same_next n h l : (n, h) ∈ blocks -> (l < h)%nat -> sl_next s' n l = sl_next s n l;
  same_holds n h kv : (n, h) ∈ blocks -> holds s n kv -> holds s' n kv }.
Lemma same_nodes_trans s s' s'' blocks : same_nodes s s' blocks -> same_nodes s' s'' blocks -> same_nodes s s'' blocks.
Proof. intros [H1 H2] [H1' H2']. split; [intros n h l Hb Hl; rewrite (H1' n h), (H1 n h); done|eauto]. Qed.

(** Words outside a node leave it alone. *)
Lemma same_words s s' blocks : layout s blocks -> layout s' blocks -> sl_bytes s' = sl_bytes s ->
  (forall n h o, (n, h) ∈ blocks -> (n <= o < n + 4 + N.of_nat h)%N -> word_at s' o = word_at s o) -> same_nodes s s' blocks.
Proof.
  intros Hl Hl' Hb Hw. split.
  - intros n h l Hn Hlt. rewrite (next_word s' blocks Hl' n h l), (next_word s blocks Hl n h l) by done. apply (Hw n h); [done|lia].
  - intros n h kv Hn. apply holds_same; [done|]. intros o Ho. apply (Hw n h); [done|lia].
Qed.

Lemma StronglySorted_impl_in {A} (R R' : A -> A -> Prop) l : (forall a b, a ∈ l -> b ∈ l -> R a b -> R' a b) -> StronglySorted R l -> StronglySorted R' l.
Proof.
  intros Himp Hs. induction Hs as [|x l Hs IH Hall]; constructor; [apply IH; intros a b Ha Hb; apply Himp; by right|]. rewrite Forall_forall in Hall |- *. intros y Hy. apply Himp; [left|by right|by apply Hall].
Qed.
Lemma holds_entry_bytes (b : Chunks Byte.byte) offset (key value : bytes) : in_chunk b offset (N.of_nat (length key) + N.of_nat (length value)) = true ->
  ch_get Byte.x00 b offset (N.of_nat (length key) + N.of_nat (length value)) = key ++ value -> ch_get Byte.x00 b offset (N.of_nat (length key)) = key.
Proof.
  intros Hin Hget. rewrite (get_split Byte.x00) in Hget by done. apply app_inj_1 in Hget as [-> _]; [done|].
  destruct (decide (length key = 0)%nat) as [E|E]; [rewrite E; by rewrite get_zero|]. rewrite get_length; [lia|]. eapply in_chunk_sub; [done|lia..].
Qed.

Section InvStep.
Context (user : Comparator) `{!ComparatorLaws user}.

(** Nothing the chains name has changed. *)
Lemma inv_same s s' blocks blocks' chains ent : sl_inv user s blocks chains ent -> layout s' blocks' -> blocks ⊆ blocks' -> same_nodes s s' blocks ->
  (sl_height s <= sl_height s' <= MAX_HEIGHT)%nat -> sl_inv user s' blocks' chains ent.
Proof using.
  intros Hi Hl Hsub Hsame Hh. assert (forall n l, n ∈ HEAD :: chains l -> (l < MAX_HEIGHT)%nat -> exists h, (n, h) ∈ blocks /\ (l < h)%nat) as Hblk.
  { intros n l [->|Hn]%elem_of_cons Hlt; [exists MAX_HEIGHT; split; [apply Hi|done]|by apply Hi]. }
  split; [done|split| | | | | |].
  - intros l Hlt. eapply path_ext; [|by apply (lk_path _ _ (iv_linked _ _ _ _ _ Hi))]. intros m Hm. destruct (Hblk m l Hm Hlt) as (h & Hb & Hlh). by apply (same_next _ _ _ Hsame m h).
  - apply Hi.
  - apply Hi.
  - intros n l Hn. destruct (iv_height _ _ _ _ _ Hi n l Hn) as (h & Hb & Hlt). exists h. split; [by apply Hsub|done].
  - intros n Hn. destruct (iv_height _ _ _ _ _ Hi n 0 Hn) as (h & Hb & _). eapply (same_holds _ _ _ Hsame); [done|by apply Hi].
  - apply Hi.
  - apply Hi.
  - intros l Hle. apply Hi. lia.
  - pose proof (iv_bound _ _ _ _ _ Hi). lia.
Qed.

(** *** The two stores that link a node at one level *)

Lemma own_link_spec s blocks chains ent node h p l : sl_inv user s blocks chains ent -> (node, h) ∈ blocks -> (l < h)%nat -> node ∉ HEAD :: chains l ->
  let s' := own_link s node p l in
  sl_inv user s' blocks chains ent /\ sl_next s' node l = sl_next s p l /\
  (forall n h' l', (n, h') ∈ blocks -> (l' < h')%nat -> (n, l') <> (node, l) -> sl_next s' n l' = sl_next s n l') /\ (forall n h' kv, (n, h') ∈ blocks -> holds s n kv -> holds s' n kv).
Proof using.
  intros Hi Hb Hl Hn s'. pose proof (iv_layout _ _ _ _ _ Hi) as Hly. destruct (link_address s blocks Hly node h l Hb Hl) as [Ha Hin].
  destruct (store_layout s blocks (node + 4 + N.of_nat l) (sl_next s p l) Hly Hin) as [Hly' Hw]. rewrite <- Ha in Hly', Hw. fold (own_link s node p l) in Hly', Hw. fold s' in Hly', Hw. rewrite Ha in Hw.
  assert (forall n h' l', (n, h') ∈ blocks -> (l' < h')%nat -> (n, l') <> (node, l) -> sl_next s' n l' = sl_next s n l') as Hnext.
  { intros n h' l' Hb' Hl' Hne. rewrite (next_word s' blocks Hly' n h' l'), (next_word s blocks Hly n h' l'), Hw by done. rewrite decide_False; [done|]. intros Heq.
    destruct (decide (n = node)) as [->|Hnn]; [apply Hne; f_equal; lia|]. destruct (block_apart s blocks Hly n h' node h Hb' Hb Hnn); lia. }
  assert (forall n h' kv, (n, h') ∈ blocks -> holds s n kv -> holds s' n kv) as Hhold.
  { intros n h' kv Hb'. apply holds_same; [done|]. intros o Ho. rewrite Hw, decide_False; [done|]. intros ->. destruct (decide (n = node)) as [->|Hnn]; [lia|]. destruct (block_apart s blocks Hly n h' node h Hb' Hb Hnn); lia. }
  split_and!; [|rewrite (next_word s' blocks Hly' node h l), Hw by done; by rewrite decide_True|done|done].
  destruct Hi as [Hi1 Hi2 Hi3 Hi4 Hi5 Hi6 Hi7 Hi8]. split; try done; [split; [|apply Hi2..]|].
  - intros l' Hl'. eapply path_ext; [|by apply Hi2]. intros m Hm. destruct (decide (m = HEAD)) as [->|Hmh].
    + apply (Hnext HEAD MAX_HEIGHT); [apply Hly|done|]. intros [= <- <-]. apply Hn. left.
    + apply elem_of_cons in Hm as [|Hm]; [done|]. destruct (Hi3 m l' Hm) as (h' & Hb' & Hlt). apply (Hnext m h'); [done..|]. intros [= -> ->]. apply Hn. by right.
  - intros n Hn'. destruct (Hi3 n 0%nat Hn') as (h' & Hb' & _). by eapply Hhold, Hi4.
Qed.

Definition at_level (chains : nat -> list N) (l : nat) (chain : list N) : nat -> list N := fun l' => if decide (l' = l) then chain else chains l'.

Lemma reach_link_spec s blocks chains ent node h l A B : sl_inv user s blocks chains ent -> (node, h) ∈ blocks -> (l < h)%nat -> (l < sl_height s)%nat -> node ∉ HEAD :: chains l ->
  (forall l', l = S l' -> node ∈ chains l') -> holds s node (ent node) -> wellformed (ent node).1 -> chains l = A ++ B -> sl_next s node l = hd NIL B ->
  (forall a, a ∈ A -> key_le user (ent a).1 (ent node).1) -> (forall b, b ∈ B -> key_le user (ent node).1 (ent b).1) ->
  let s' := reach_link s node (endpoint A) l in
  sl_inv user s' blocks (at_level chains l (A ++ node :: B)) ent /\ (forall n h' kv, (n, h') ∈ blocks -> holds s n kv -> holds s' n kv) /\ sl_height s' = sl_height s /\
  (forall n h' l', (n, h') ∈ blocks -> (l' < h')%nat -> (n, l') <> (endpoint A, l) -> sl_next s' n l' = sl_next s n l').
Proof using All.
  intros Hi Hb Hl Hlh Hn Hbelow Hhold Hwf Hch Hown HA HB s'. pose proof (iv_layout _ _ _ _ _ Hi) as Hly. pose proof (iv_linked _ _ _ _ _ Hi) as Hlk.
  assert (exists hp, (endpoint A, hp) ∈ blocks /\ (l < hp)%nat) as (hp & Hbp & Hlp).
  { destruct (endpoint_cases A) as [[-> _]|[A' E]]; [exists MAX_HEIGHT; split; [apply Hly|pose proof (iv_bound _ _ _ _ _ Hi); lia]|]. apply (iv_height _ _ _ _ _ Hi). rewrite Hch. apply elem_of_app. left. rewrite E at 2. apply elem_of_app. right. left. }
  destruct (link_address s blocks Hly (endpoint A) hp l Hbp Hlp) as [Ha Hin]. destruct (store_layout s blocks (endpoint A + 4 + N.of_nat l) node Hly Hin) as [Hly' Hw].
  rewrite <- Ha in Hly', Hw. fold (reach_link s node (endpoint A) l) in Hly', Hw. fold s' in Hly', Hw. rewrite Ha in Hw.
  assert (forall n h' l', (n, h') ∈ blocks -> (l' < h')%nat -> (n, l') <> (endpoint A, l) -> sl_next s' n l' = sl_next s n l') as Hnext.
  { intros n h' l' Hb' Hl' Hne. rewrite (next_word s' blocks Hly' n h' l'), (next_word s blocks Hly n h' l'), Hw by done. rewrite decide_False; [done|]. intros Heq.
    destruct (decide (n = endpoint A)) as [->|Hnn]; [apply Hne; f_equal; lia|]. destruct (block_apart s blocks Hly n h' _ hp Hb' Hbp Hnn); lia. }
  assert (forall n h' kv, (n, h') ∈ blocks -> holds s n kv -> holds s' n kv) as Hholds.
  { intros n h' kv Hb'. apply holds_same; [done|]. intros o Ho. rewrite Hw, decide_False; [done|]. intros ->. destruct (decide (n = endpoint A)) as [->|Hnn]; [lia|]. destruct (block_apart s blocks Hly n h' _ hp Hb' Hbp Hnn); lia. }
  assert (node <> NIL) as Hnil by (destruct (ly_block _ _ Hly node h Hb) as (_ & ? & _); unfold NIL; lia).
  assert (forall m l', m ∈ HEAD :: chains l' -> (l' < MAX_HEIGHT)%nat -> (m, l') <> (endpoint A, l) -> sl_next s' m l' = sl_next s m l') as Hsame.
  { intros m l' [->|Hm]%elem_of_cons Hlt Hne; [apply (Hnext _ MAX_HEIGHT); [apply Hly|done..]|]. destruct (iv_height _ _ _ _ _ Hi m l' Hm) as (hm & Hbm & Hlm). by apply (Hnext _ hm). }
  split_and!; [|done|done|done]. split; [done| | | | | | |apply Hi].
  - split.
    + intros l' Hl'. unfold at_level. destruct (decide (l' = l)) as [->|Hne]; [|eapply path_ext; [|by apply Hlk]; intros m Hm; apply Hsame; [done..|congruence]].
      apply (path_insert (sl_next s) (sl_next s') l HEAD A B node); try done.
      * rewrite <- Hch. by apply Hlk.
      * rewrite <- Hch. apply Hlk.
      * fold (endpoint A). rewrite (next_word s' blocks Hly' _ hp l), Hw by done. by rewrite decide_True.
      * rewrite (Hnext node h); [done..|]. intros [= E]. apply Hn. rewrite Hch, E. pose proof (endpoint_elem A). set_solver.
      * intros m Hm Hne. apply Hsame; [by rewrite Hch|done|]. fold (endpoint A) in Hne. congruence.
    + intros l'. unfold at_level. destruct (decide (l' = l)) as [->|Hne]; [|apply Hlk]. pose proof (lk_nodup _ _ Hlk l) as Hnd. rewrite Hch in Hnd, Hn. rewrite <- Permutation_middle. rewrite Permutation_swap. by constructor.
    + intros l'. unfold at_level. pose proof (lk_sub _ _ Hlk l') as Hsub. destruct (decide (S l' = l)) as [<-|Hne].
      * rewrite decide_False by lia. specialize (Hbelow l' eq_refl). rewrite Hch in Hsub. set_solver.
      * destruct (decide (l' = l)) as [->|]; [|done]. rewrite Hch in Hsub. set_solver.
  - intros n l'. unfold at_level. destruct (decide (l' = l)) as [->|]; [|by apply Hi]. rewrite elem_of_app, elem_of_cons. intros [Hm|[->|Hm]]; [|by exists h|]; apply (iv_height _ _ _ _ _ Hi); rewrite Hch; set_solver.
  - intros n Hm. assert (n = node \/ n ∈ chains 0%nat) as [->|Hm']; [|by eapply Hholds|].
    { unfold at_level in Hm. destruct (decide (0%nat = l)) as [<-|]; [|by right]. rewrite Hch. set_solver. }
    destruct (iv_height _ _ _ _ _ Hi n 0 Hm') as (hn & Hbn & _). by eapply Hholds, Hi.
  - intros l'. unfold at_level. destruct (decide (l' = l)) as [->|]; [|apply Hi]. pose proof (iv_sorted _ _ _ _ _ Hi l) as Hs. rewrite Hch in Hs.
    apply StronglySorted_app in Hs as (Hab & Hsa & Hsb). apply StronglySorted_app. split_and!; [|done|constructor; [done|by apply Forall_forall]].
    intros a b Ha' [->|Hb']%elem_of_cons; [by apply HA|by apply Hab].
  - intros n Hm. unfold at_level in Hm. destruct (decide (0%nat = l)) as [<-|]; [|by apply Hi]. rewrite elem_of_app, elem_of_cons in Hm. destruct Hm as [Hm|[->|Hm]]; [|done|]; apply (iv_wf _ _ _ _ _ Hi); rewrite Hch; set_solver.
  - intros l' Hle. unfold at_level. rewrite decide_False by (cbn in Hle; lia). by apply Hi.
Qed.

(** *** Publishing a node, level by level *)

(** Linked below [l] and nowhere else; from [l] on, where it goes is known. *)
Record pending (s : SkipList) (blocks : list (N * nat)) (chains : nat -> list N) (ent : N -> entry) (node : N) (h : nat) (prev : list N) (l : nat) : Prop := {
  pd_block : (node, h) ∈ blocks;
  pd_height : (h <= sl_height s)%nat;
  pd_holds : holds s node (ent node);
  pd_wf : wellformed (ent node).1;
  pd_below l' : (l' < l)%nat -> node ∈ chains l';
  pd_above l' : (l <= l')%nat -> node ∉ HEAD :: chains l';
  pd_place l' : (l <= l' < h)%nat -> exists A B, chains l' = A ++ B /\ nth l' prev HEAD = endpoint A /\
    (forall a, a ∈ A -> internal_cmp user (ent a).1 (ent node).1 = Lt) /\ (forall b, b ∈ B -> key_le user (ent node).1 (ent b).1) }.

Lemma pending_own s blocks chains ent node h prev l : sl_inv user s blocks chains ent -> pending s blocks chains ent node h prev l -> (l < h)%nat ->
  let s' := own_link s node (nth l prev HEAD) l in
  sl_inv user s' blocks chains ent /\ pending s' blocks chains ent node h prev l /\ exists A B, chains l = A ++ B /\ nth l prev HEAD = endpoint A /\ sl_next s' node l = hd NIL B.
Proof using All.
  intros Hi [H1 H2 H3 H4 H5 H6 H7] Hl s'. destruct (own_link_spec s blocks chains ent node h (nth l prev HEAD) l Hi H1 Hl (H6 l ltac:(lia))) as (Hi' & Hown & _ & Hhold).
  fold s' in Hi', Hown, Hhold. split_and!; [done|split; try done; by eapply Hhold|]. destruct (H7 l ltac:(lia)) as (A & B & Hch & Hp & _). exists A, B. split_and!; [done..|].
  rewrite Hown, Hp. pose proof (lk_path _ _ (iv_linked _ _ _ _ _ Hi) l) as Hpath. rewrite Hch in Hpath. apply (path_next (sl_next s) l HEAD A B), Hpath. pose proof (iv_bound _ _ _ _ _ Hi). lia.
Qed.

Lemma pending_reach s blocks chains ent node h prev l A B : sl_inv user s blocks chains ent -> pending s blocks chains ent node h prev l -> (l < h)%nat ->
  chains l = A ++ B -> nth l prev HEAD = endpoint A -> sl_next s node l = hd NIL B ->
  let s' := reach_link s node (nth l prev HEAD) l in
  sl_inv user s' blocks (at_level chains l (A ++ node :: B)) ent /\ pending s' blocks (at_level chains l (A ++ node :: B)) ent node h prev (S l).
Proof using All.
  intros Hi [H1 H2 H3 H4 H5 H6 H7] Hl Hch Hp Hown s'. destruct (H7 l ltac:(lia)) as (A' & B' & Hch' & Hp' & HA & HB).
  assert (A' = A /\ B' = B) as [-> ->]. { rewrite Hch' in Hch. rewrite Hp' in Hp. pose proof (lk_nodup _ _ (iv_linked _ _ _ _ _ Hi) l) as Hnd. rewrite Hch' in Hnd. by apply (split_endpoint A' B' A B). }
  subst s'. rewrite Hp. destruct (reach_link_spec s blocks chains ent node h l A B) as (Hi' & Hhold & Hh & _); try done; [lia|by apply H6|intros l' ->; apply H5; lia|by intros a Ha; unfold key_le; rewrite HA|].
  split; [done|]. split; [done|by rewrite Hh|by eapply Hhold|done|..]; unfold at_level.
  - intros l' Hl'. destruct (decide (l' = l)) as [->|]; [set_solver|]. apply H5. lia.
  - intros l' Hl'. rewrite decide_False by lia. apply H6. lia.
  - intros l' Hl'. rewrite decide_False by lia. apply H7. lia.
Qed.

Lemma publish_spec n s blocks chains ent node h prev l : sl_inv user s blocks chains ent -> pending s blocks chains ent node h prev l -> (l + n = h)%nat ->
  exists chains', let s' := publish_loop n s node prev l in
    sl_inv user s' blocks chains' ent /\ sl_len s' = sl_len s /\ (forall l', (l' < l)%nat -> chains' l' = chains l') /\
    (forall l', (l <= l' < h)%nat -> exists A B, chains l' = A ++ B /\ nth l' prev HEAD = endpoint A /\ chains' l' = A ++ node :: B).
Proof using All.
  revert s chains l. induction n as [|n IH]; intros s chains l Hi Hp Hn; cbn [publish_loop].
  - exists chains. split_and!; try done. intros l' Hl'. lia.
  - destruct (pending_own s blocks chains ent node h prev l Hi Hp ltac:(lia)) as (Hi1 & Hp1 & A & B & Hch & He & Hown).
    destruct (pending_reach _ blocks chains ent node h prev l A B Hi1 Hp1 ltac:(lia) Hch He Hown) as (Hi2 & Hp2).
    destruct (IH _ _ (S l) Hi2 Hp2 ltac:(lia)) as (chains' & Hi' & Hlen & Hlow & Hhigh). exists chains'. split_and!; [done|done| |].
    + intros l' Hl'. rewrite Hlow by lia. unfold at_level. by rewrite decide_False by lia.
    + intros l' Hl'. destruct (decide (l' = l)) as [->|Hne].
      * exists A, B. split_and!; [done..|]. rewrite Hlow by lia. unfold at_level. by rewrite decide_True.
      * destruct (Hhigh l' ltac:(lia)) as (A' & B' & HA & HB & HC). unfold at_level in HA. rewrite decide_False in HA by done. by exists A', B'.
Qed.

(** *** Preparing it *)

Lemma draw_height_bounds rng : (1 <= (draw_height rng).1 <= MAX_HEIGHT)%nat.
Proof using.
  assert (forall n h r, (h <= (draw_height_loop n h r).1 <= h + n)%nat) as H.
  { induction n as [|n IH]; intros h r; cbn [draw_height_loop]; [cbn; lia|]. destruct (next_u32 r) as [x r']. destruct (_ =? 0)%N; [|cbn; lia]. pose proof (IH (S h) r'). lia. }
  pose proof (H (MAX_HEIGHT - 1)%nat 1%nat rng). unfold draw_height. unfold MAX_HEIGHT in *. lia.
Qed.

(** Fresh bytes. *)
Lemma bytes_layout s blocks parts offset b : layout s blocks -> alloc_bytes (sl_bytes s) parts = Some (offset, b) ->
  let s' := mkSkip b (sl_words s) (sl_height s) (sl_len s) (sl_rng s) in layout s' blocks /\ same_nodes s s' blocks.
Proof using.
  intros Hly Ha s'. destruct (alloc_bytes_Some Byte.x00 _ _ _ _ (ly_bytes _ _ Hly) Ha) as (Hok & Hg & _ & _ & _ & _ & Hold). destruct Hly as [H1 H2 H3 H4 H5]. split; [by split|]. split; [done|].
  intros n h kv Hn (o & E0 & E1 & E2 & Hin & Hle & Hget). exists o. split_and!; [done..|by eapply grows_in_chunk| |by rewrite Hold by (done || lia)]. pose proof (grows_next _ _ Hg). cbn. lia.
Qed.
(** A fresh node. *)
Lemma node_layout s blocks h node w height rng : layout s blocks -> alloc (sl_words s) (HEADER + N.of_nat h) = Some (node, w) ->
  let s' := mkSkip (sl_bytes s) w height (sl_len s) rng in layout s' (blocks ++ [(node, h)]) /\ same_nodes s s' blocks /\ forall n h', (n, h') ∈ blocks -> (n + 4 + N.of_nat h' <= node)%N.
Proof using.
  intros Hly Ha s'. destruct (alloc_spec _ _ _ _ (ly_words _ _ Hly) Ha) as (Hok & Hg & Hm & Hoff & Hnext & Hin). unfold HEADER in *.
  assert (forall n h', (n, h') ∈ blocks -> (n + 4 + N.of_nat h' <= node)%N) as Hbefore by (intros n h' Hb; destruct (ly_block _ _ Hly n h' Hb) as (_ & _ & ?); lia).
  assert (layout s' (blocks ++ [(node, h)])) as Hly'.
  { destruct Hly as [H1 H2 H3 H4 H5]. split; [done|done| | |apply elem_of_app; by left].
    - apply StronglySorted_app. split_and!; [|done|repeat constructor]. intros [n h'] b Hb ->%list_elem_of_singleton. by apply Hbefore.
    - intros n h' [Hb|Hb]%elem_of_app; [destruct (H4 n h' Hb) as (Hi & Hp & Hle); split_and!; [by eapply grows_in_chunk|done|pose proof (grows_next _ _ Hg); cbn; lia]|].
      apply list_elem_of_singleton in Hb as [= -> ->]. split_and!; [done|specialize (Hbefore _ _ H5); lia|cbn; lia]. }
  split_and!; [done| |done]. assert (layout s' blocks) as Hly2. { destruct Hly' as [H1 H2 H3 H4 H5]. split; [done|done|by apply StronglySorted_app_1_l in H3|intros n h' Hb; apply H4; apply elem_of_app; by left|apply Hly]. }
  apply same_words; [done..|]. intros n h' o _ _. unfold word_at, elem_at. cbn. by rewrite Hm.
Qed.
(** Its header. *)
Lemma header_layout s blocks node h w0 w1 w2 w3 : layout s (blocks ++ [(node, h)]) -> (forall n h', (n, h') ∈ blocks -> (n + 4 + N.of_nat h' <= node)%N) -> (HEAD, MAX_HEIGHT) ∈ blocks ->
  let s' := store_word (store_word (store_word (store_word s node w0) (node + 1) w1) (node + 2) w2) (node + 3) w3 in
  layout s' (blocks ++ [(node, h)]) /\ same_nodes s s' blocks /\ word_at s' node = w0 /\ word_at s' (node + 1) = w1 /\ word_at s' (node + 2) = w2.
Proof using.
  intros Hly Hbefore Hhead s'. assert ((node, h) ∈ blocks ++ [(node, h)]) as Hb by (apply elem_of_app; right; left).
  assert (forall s0 o, layout s0 (blocks ++ [(node, h)]) -> (node <= o < node + 4)%N -> in_chunk (sl_words s0) o 1 = true) as Hin.
  { intros s0 o Hl Ho. destruct (ly_block _ _ Hl node h Hb) as (Hi & _). apply (in_chunk_sub _ node (4 + N.of_nat h)); [done|lia..]. }
  destruct (store_layout s _ node w0 Hly) as [L0 W0]; [apply Hin; [done|lia]|]. destruct (store_layout _ _ (node + 1) w1 L0) as [L1 W1]; [apply Hin; [done|lia]|].
  destruct (store_layout _ _ (node + 2) w2 L1) as [L2 W2]; [apply Hin; [done|lia]|]. destruct (store_layout _ _ (node + 3) w3 L2) as [L3 W3]; [apply Hin; [done|lia]|]. fold s' in L3, W3.
  assert (forall x, (x < node)%N -> word_at s' x = word_at s x) as Hlow by (intros x Hx; by rewrite W3, decide_False, W2, decide_False, W1, decide_False, W0, decide_False by lia).
  assert (forall s0, layout s0 (blocks ++ [(node, h)]) -> layout s0 blocks) as Hsub.
  { intros s0 [H1 H2 H3 H4 H5]. split; [done|done|by apply StronglySorted_app_1_l in H3|intros n h' Hn; apply H4; apply elem_of_app; by left|].
    done. }
  split_and!; [done| | | |].
  - apply same_words; [by apply Hsub|by apply Hsub|done|]. intros n h' o Hn Ho. apply Hlow. specialize (Hbefore n h' Hn). lia.
  - by rewrite W3, decide_False, W2, decide_False, W1, decide_False, W0, decide_True by lia.
  - by rewrite W3, decide_False, W2, decide_False, W1, decide_True by lia.
  - by rewrite W3, decide_False, W2, decide_True by lia.
Qed.

Lemma before_lower key : wellformed key -> lower user (fun k => internal_cmp user k key = Lt).
Proof using All. intros Hk a b Ha Hb Hle Hlt. by apply (key_le_lt_trans user a b key). Qed.
Lemma is_before_spec s blocks chains ent key n : sl_inv user s blocks chains ent -> n ∈ chains 0%nat -> is_before user s key n = bool_decide (internal_cmp user (ent n).1 key = Lt).
Proof using.
  intros Hi Hn. destruct (inv_entry user s blocks chains ent 0 n Hi Hn) as (Hk & _ & _). unfold is_before. rewrite Hk.
  assert (n <> NIL) as Hne. { destruct (iv_height _ _ _ _ _ Hi n 0 Hn) as (h & Hb & _). destruct (ly_block _ _ (iv_layout _ _ _ _ _ Hi) n h Hb) as (_ & ? & _). unfold NIL. lia. }
  apply N.eqb_neq in Hne. by rewrite Hne.
Qed.

Lemma find_ge_spec s blocks chains ent key : sl_inv user s blocks chains ent -> sl_len s = length (chains 0%nat) -> wellformed key ->
  let P := fun k => internal_cmp user k key = Lt in
  exists prev, find_ge user s key = (hd NIL (aft ent P (chains 0%nat)), prev) /\ find_lt user s key = endpoint (fore ent P (chains 0%nat)) /\
    forall l, (l < MAX_HEIGHT)%nat -> nth l prev HEAD = endpoint (fore ent P (chains l)).
Proof using All.
  intros Hi Hlen Hk P. destruct (search_spec user s blocks chains ent (is_before user s key) P Hi Hlen (before_lower key Hk)) as (prev & Hs & Hp); [done|intros n Hn; by eapply is_before_spec|].
  exists prev. unfold find_ge, find_lt. rewrite Hs. done.
Qed.

(** Entries matter only for the nodes on the list. *)
Lemma inv_ent s blocks chains ent ent' : sl_inv user s blocks chains ent -> (forall n, n ∈ chains 0%nat -> ent' n = ent n) -> sl_inv user s blocks chains ent'.
Proof using.
  intros Hi He. assert (forall l n, n ∈ chains l -> ent' n = ent n) as He' by (intros l n Hn; apply He; eapply (sub_levels (sl_next s) chains 0 l); [apply Hi|lia|done]).
  destruct Hi as [H1 H2 H3 H4 H5 H6 H7 H8]. split; try done; [intros n Hn; rewrite (He n Hn); by apply H4| |intros n Hn; rewrite (He n Hn); by apply H6].
  intros l. eapply (StronglySorted_impl_in _ _ (chains l)); [|apply H5]. intros a b Ha Hb Hab. by rewrite (He' l a Ha), (He' l b Hb).
Qed.

Lemma prepare_spec s blocks chains ent head tail value : sl_inv user s blocks chains ent -> sl_len s = length (chains 0%nat) -> wellformed (head ++ tail) ->
  match prepare user s head tail value with
  | (s', None) => sl_inv user s' blocks chains ent /\ sl_len s' = sl_len s
  | (s', Some (node, h, prev)) => exists ent', (forall n, n ∈ chains 0%nat -> ent' n = ent n) /\ ent' node = (head ++ tail, value) /\
      sl_inv user s' (blocks ++ [(node, h)]) chains ent' /\ pending s' (blocks ++ [(node, h)]) chains ent' node h prev 0 /\ sl_len s' = sl_len s /\ (1 <= h)%nat
  end.
Proof using All.
  intros Hi Hlen Hwf. unfold prepare. pose proof (iv_layout _ _ _ _ _ Hi) as Hly. pose proof (iv_bound _ _ _ _ _ Hi) as Hbd.
  destruct (alloc_bytes (sl_bytes s) [head; tail; value]) as [[offset b]|] eqn:Eb; [|done].
  destruct (bytes_layout s blocks _ offset b Hly Eb) as [Hly1 Hsame1]. set (s1 := mkSkip b (sl_words s) _ _ _) in *.
  assert (sl_inv user s1 blocks chains ent) as Hi1 by (apply (inv_same s s1 blocks blocks); [done..|cbn; lia]). destruct (_ || _); [done|].
  destruct (alloc_bytes_Some Byte.x00 _ _ _ _ (ly_bytes _ _ Hly) Eb) as (_ & _ & Hbin & Hbget & _ & Hbnext & _).
  assert (mjoin [head; tail; value] = (head ++ tail) ++ value) as Ej by (cbn; by rewrite app_nil_r, app_assoc). rewrite Ej in *. rewrite length_app, Nat2N.inj_add in Hbin, Hbget, Hbnext.
  assert (ch_get Byte.x00 b offset (N.of_nat (length head + length tail)) = head ++ tail) as ->.
  { rewrite <- length_app. apply (holds_entry_bytes b offset (head ++ tail) value); done. }
  destruct (find_ge_spec s1 blocks chains ent (head ++ tail) Hi1 Hlen Hwf) as (prev & -> & _ & Hprev). cbn [snd].
  pose proof (draw_height_bounds (sl_rng s1)) as Hh. destruct (draw_height (sl_rng s1)) as [h rng]. cbn [fst] in Hh. set (s2 := mkSkip b (sl_words s1) _ _ rng).
  destruct (alloc (sl_words s2) (HEADER + N.of_nat h)) as [[node w]|] eqn:Ew; [|split; [apply (inv_same s1 s2 blocks blocks); [done|by destruct Hly1|done|by split|cbn; lia]|done]].
  set (height := if (Nat.max (sl_height s1) 1 <? h)%nat then h else sl_height s2). assert (sl_height s <= height <= MAX_HEIGHT /\ h <= height)%nat as [Hheight Hhh].
  { unfold height. change (sl_height s1) with (sl_height s). change (sl_height s2) with (sl_height s). destruct (Nat.ltb_spec (Nat.max (sl_height s) 1) h); lia. }
  destruct (node_layout s1 blocks h node w height rng Hly1 Ew) as (Hly3 & Hsame3 & Hbefore). set (s3 := mkSkip (sl_bytes s1) w height (sl_len s1) rng) in *.
  change (mkSkip b w height (sl_len s2) rng) with s3. rewrite (header_words s3 _ Hly3 node h) by (apply elem_of_app; right; left).
  destruct (header_layout s3 blocks node h offset (N.of_nat (length head + length tail)) (N.of_nat (length value)) (N.of_nat h) Hly3 Hbefore (ly_head _ _ Hly)) as (Hly4 & Hsame4 & W0 & W1 & W2).
  set (s4 := store_word _ _ _) in *. assert (node ∉ HEAD :: chains 0%nat) as Hfresh.
  { intros [->|Hn]%elem_of_cons; [specialize (Hbefore _ _ (ly_head _ _ Hly)); unfold HEAD in *; lia|]. destruct (iv_height _ _ _ _ _ Hi node 0 Hn) as (h' & Hb' & _). specialize (Hbefore _ _ Hb'). lia. }
  assert (forall l, chains l ⊆ chains 0%nat) as Hsub by (intros l; eapply (sub_levels (sl_next s)); [apply Hi|lia]).
  set (ent' := fun n => if decide (n = node) then (head ++ tail, value) else ent n). assert (forall n, n ∈ chains 0%nat -> ent' n = ent n) as He by (intros n Hn; unfold ent'; rewrite decide_False; [done|set_solver]).
  assert (ent' node = (head ++ tail, value)) as Hen by (unfold ent'; by rewrite decide_True). exists ent'. split_and!; [done|done| | |done|lia].
  - apply (inv_ent _ _ _ ent); [|done]. apply (inv_same s1 s4 blocks); [done|done|set_solver|by eapply same_nodes_trans|]. cbn. done.
  - split; rewrite ?Hen; cbn [fst snd]; [apply elem_of_app; right; left|done| |done|intros l' Hl'; lia|intros l' _; specialize (Hsub l'); set_solver|].
    + exists offset. cbn [fst snd]. rewrite length_app. split_and!; [done..|rewrite <- length_app; done|cbn; rewrite <- length_app; lia|rewrite <- length_app; done].
    + intros l' Hl'. exists (fore ent (fun k => internal_cmp user k (head ++ tail) = Lt) (chains l')), (aft ent (fun k => internal_cmp user k (head ++ tail) = Lt) (chains l')).
      split_and!; [eapply chain_split; [exact Hi|by apply before_lower]|apply Hprev; lia| |]; intros n [HP Hn]%list_elem_of_filter; specialize (Hsub l' n Hn); rewrite (He n Hsub); [done|]. by apply not_lt_le.
Qed.
End InvStep.

(** ** The list as a sorted run *)

Section Run.
Context (user : Comparator) `{!ComparatorLaws user}.

(** The entries of the bottom level, in order. *)
Definition sl_holds (s : SkipList) (run : list entry) : Prop :=
  exists blocks chains ent, sl_inv user s blocks chains ent /\ sl_len s = length (chains 0%nat) /\ run = ent <$> chains 0%nat.

Definition first_words : Chunks N := mkChunks ∅ 1 21 10 22.
Lemma new_words seed : sl_words (SkipList_new seed) = first_words.
Proof using. vm_compute. reflexivity. Qed.
Lemma first_words_ok : arena_ok first_words.
Proof using.
  split; [by vm_compute|by vm_compute|]. intros o Ho. rewrite (chunk_of_inside first_words 0 o); [done|]. change (chunk_start first_words 0) with 0%N. change (chunk_len first_words 0) with 1024%N.
  change (ch_next first_words) with 21%N in Ho. lia.
Qed.
Lemma new_inv seed : sl_inv user (SkipList_new seed) [(HEAD, MAX_HEIGHT)] (fun _ => []) (fun _ => ([], [])).
Proof using.
  split.
  - split; rewrite ?new_words.
    + apply first_words_ok.
    + apply (arena_new_ok BYTES_SHIFT). by vm_compute.
    + repeat constructor.
    + intros n h [= -> ->]%list_elem_of_singleton. split_and!; by vm_compute.
    + left.
  - split; [|intros l; constructor; [by intros ?%elem_of_nil|constructor]|done]. intros l Hl. cbn [path]. unfold sl_next. rewrite new_words.
    unfold MAX_HEIGHT in Hl. do 16 (destruct l as [|l]; [by vm_compute|]). lia.
  - by intros n l ?%elem_of_nil.
  - by intros n ?%elem_of_nil.
  - intros l. constructor.
  - by intros n ?%elem_of_nil.
  - done.
  - cbn. unfold MAX_HEIGHT. lia.
Qed.
Lemma new_holds seed : sl_holds (SkipList_new seed) [].
Proof using All. eexists _, _, _. split; [apply new_inv|done]. Qed.

Lemma holds_facts s run : sl_holds s run -> Forall (fun e : entry => wellformed e.1) run /\ StronglySorted (towards user Forward) run.
Proof using.
  intros (blocks & chains & ent & Hi & _ & ->). split; [apply Forall_fmap, Forall_forall; intros n Hn; by apply Hi|]. pose proof (iv_sorted _ _ _ _ _ Hi 0) as Hs. induction Hs as [|n l Hs IH Hall]; constructor; [done|].
  apply Forall_fmap. eapply Forall_impl; [exact Hall|]. done.
Qed.

Lemma fmap_fore (ent : N -> entry) (P : bytes -> Prop) `{!forall k, Decision (P k)} chain : ent <$> fore ent P chain = filter (fun e : entry => P e.1) (ent <$> chain).
Proof using. unfold fore. induction chain as [|n chain IH]; [done|]. rewrite filter_cons, fmap_cons, filter_cons. destruct (decide _); [|done]. rewrite fmap_cons. by rewrite IH. Qed.
Lemma fmap_aft (ent : N -> entry) (P : bytes -> Prop) `{!forall k, Decision (P k)} chain : ent <$> aft ent P chain = filter (fun e : entry => ~ P e.1) (ent <$> chain).
Proof using. unfold aft. induction chain as [|n chain IH]; [done|]. rewrite filter_cons, fmap_cons, filter_cons. destruct (decide _); [|done]. rewrite fmap_cons. by rewrite IH. Qed.

Lemma insert_holds s run head tail value : sl_holds s run -> wellformed (head ++ tail) ->
  let '(s', landed) := sl_insert user s head tail value in
  sl_holds s' (if landed then filter (fun e : entry => internal_cmp user e.1 (head ++ tail) = Lt) run ++ (head ++ tail, value) :: filter (fun e : entry => internal_cmp user e.1 (head ++ tail) <> Lt) run else run).
Proof using All.
  intros (blocks & chains & ent & Hi & Hlen & ->) Hwf. unfold sl_insert. pose proof (prepare_spec user s blocks chains ent head tail value Hi Hlen Hwf) as Hp.
  destruct (prepare user s head tail value) as [s1 [[[node h] prev]|]]; [|destruct Hp as [Hi' Hl']; exists blocks, chains, ent; by rewrite Hl'].
  destruct Hp as (ent' & He & Hen & Hi1 & Hpd & Hl1 & Hh). destruct (publish_spec user h s1 _ chains ent' node h prev 0 Hi1 Hpd eq_refl) as (chains' & Hi2 & Hl2 & _ & Hch).
  destruct (Hch 0%nat ltac:(lia)) as (A & B & HAB & HpA & HC). destruct (pd_place _ _ _ _ _ _ _ _ _ Hpd 0 ltac:(lia)) as (A' & B' & HAB' & HpA' & HA & HB).
  destruct (split_endpoint A' B' A B) as [-> ->]; [by rewrite <- HAB', <- HAB|rewrite <- HAB'; apply Hi1|by rewrite <- HpA', <- HpA|]. rewrite Hen in HA, HB. cbn [fst] in HA, HB.
  exists (blocks ++ [(node, h)]), chains', ent'. split_and!.
  - destruct Hi2 as [I1 I2 I3 I4 I5 I6 I7 I8]. split; try done. by destruct I1.
  - cbn. unfold publish. rewrite Hl2, HC, Hl1, Hlen, HAB, !length_app. cbn. lia.
  - rewrite HC, (fmap_app ent' A), fmap_cons, Hen, HAB. assert (forall n, n ∈ A ++ B -> ent' n = ent n) as He' by (intros n Hn; apply He; by rewrite HAB).
    assert (ent' <$> A = ent <$> A /\ ent' <$> B = ent <$> B) as [EA EB] by (split; apply list_fmap_ext; intros i x Hx; apply He', elem_of_app; [left|right]; by eapply list_elem_of_lookup_2). rewrite EA, EB. rewrite fmap_app, !filter_app.
    rewrite (filter_all _ (ent <$> A)), (filter_none _ (ent <$> B)), (filter_none _ (ent <$> A)), (filter_all _ (ent <$> B)); [by rewrite app_nil_r| | | |]; apply Forall_fmap, Forall_forall; intros n Hn; cbn; rewrite <- (He' n) by (apply elem_of_app; auto).
    + apply not_lt_le; [done|]. by apply HB.
    + intros Hnot. apply Hnot. by apply HA.
    + specialize (HB n Hn). apply not_lt_le in HB; [|done]. done.
    + by apply HA.
Qed.
End Run.
