(* ===== verification/SkipListSteps.v ===== *)
(** Readers beside a writer (esker-engine/src/memtable/skiplist.rs): the stores of
    [publish] and the loads of a search as separate steps, in any interleaving of
    one writer, which the mutex of [insert] makes sure of, and one reader. *)

From stdpp Require Import prelude sorting relations.
From Stdlib Require Import NArith Lia.
From S2P Require Import Prelude Endian DbFormat Lsm Cursor Arena SkipList.

(** The writer between inserts, before a node's own pointer at a level and
    between that store and the one that reaches the node. *)
Inductive Writing := Resting | Owning (node : N) (height : nat) (prev : list N) (level : nat) | Reaching (node : N) (height : nat) (prev : list N) (level : nat).
(** A [find_ge] that has not begun, that stands at a node and a level, and that
    has returned. *)
Inductive Reading := Waiting | At (node : N) (level : nat) | Returned (found : N).

Record world := mkWorld { w_list : SkipList; w_writer : Writing; w_reader : Reading }.

Section Steps.
Context (user : Comparator) (key : bytes).

Definition published (s : SkipList) : SkipList := mkSkip (sl_bytes s) (sl_words s) (sl_height s) (S (sl_len s)) (sl_rng s).

(** [prepare] writes words no pointer reaches yet, and the height; it is one
    step. *)
Inductive writer_step : world -> world -> Prop :=
| step_prepare s r head tail value s' node h prev :
    wellformed (head ++ tail) -> prepare user s head tail value = (s', Some (node, h, prev)) ->
    writer_step (mkWorld s Resting r) (mkWorld s' (Owning node h prev 0) r)
| step_refuse s r head tail value s' :
    wellformed (head ++ tail) -> prepare user s head tail value = (s', None) ->
    writer_step (mkWorld s Resting r) (mkWorld s' Resting r)
| step_own s r node h prev l : (l < h)%nat ->
    writer_step (mkWorld s (Owning node h prev l) r) (mkWorld (own_link s node (nth l prev HEAD) l) (Reaching node h prev l) r)
| step_reach s r node h prev l :
    writer_step (mkWorld s (Reaching node h prev l) r) (mkWorld (reach_link s node (nth l prev HEAD) l) (Owning node h prev (S l)) r)
| step_publish s r node h prev :
    writer_step (mkWorld s (Owning node h prev h) r) (mkWorld (published s) Resting r).

Inductive reader_step : world -> world -> Prop :=
| step_begin s w : reader_step (mkWorld s w Waiting) (mkWorld s w (At HEAD (sl_top s)))
| step_forward s w node level : is_before user s key (sl_next s node level) = true ->
    reader_step (mkWorld s w (At node level)) (mkWorld s w (At (sl_next s node level) level))
| step_down s w node level : is_before user s key (sl_next s node (S level)) = false ->
    reader_step (mkWorld s w (At node (S level))) (mkWorld s w (At node level))
| step_return s w node : is_before user s key (sl_next s node 0) = false ->
    reader_step (mkWorld s w (At node 0)) (mkWorld s w (Returned (sl_next s node 0))).

Definition step (a b : world) : Prop := writer_step a b \/ reader_step a b.

(** The bottom level as a reader would walk it, one node more than counted
    while an insert is under way. *)
Fixpoint walk (fuel : nat) (s : SkipList) (node : N) : list N :=
  match fuel with
  | O => []
  | S fuel => let next := sl_next s node 0 in if (next =? NIL)%N then [] else next :: walk fuel s next
  end.
Definition bottom (s : SkipList) : list N := walk (S (S (sl_len s))) s HEAD.

Definition world_new (seed : N) : world := mkWorld (SkipList_new seed) Resting Waiting.

(** ** Invariant *)

Context `{!ComparatorLaws user} (Hkey : wellformed key).

Definition writer_ok (s : SkipList) (blocks : list (N * nat)) (chains : nat -> list N) (ent : N -> entry) (w : Writing) : Prop :=
  match w with
  | Resting => sl_len s = length (chains 0%nat)
  | Owning node h prev l => pending user s blocks chains ent node h prev l /\ (1 <= h)%nat /\ (l <= h)%nat /\ length (chains 0%nat) = (sl_len s + if decide (l = 0) then 0 else 1)%nat
  | Reaching node h prev l => pending user s blocks chains ent node h prev l /\ (1 <= h)%nat /\ (l < h)%nat /\ length (chains 0%nat) = (sl_len s + if decide (l = 0) then 0 else 1)%nat /\
      exists A B, chains l = A ++ B /\ nth l prev HEAD = endpoint A /\ sl_next s node l = hd NIL B
  end.
Definition reader_ok (chains : nat -> list N) (ent : N -> entry) (r : Reading) : Prop :=
  match r with
  | At node level => (level < MAX_HEIGHT)%nat /\ (node = HEAD \/ node ∈ chains level /\ internal_cmp user (ent node).1 key = Lt)
  | _ => True
  end.
Definition world_ok (w : world) (chains : nat -> list N) (ent : N -> entry) : Prop :=
  exists blocks, sl_inv user (w_list w) blocks chains ent /\ writer_ok (w_list w) blocks chains ent (w_writer w) /\ reader_ok chains ent (w_reader w).

Lemma new_world_ok seed : world_ok (world_new seed) (fun _ => []) (fun _ => ([], [])).
Proof using ComparatorLaws0. exists [(HEAD, MAX_HEIGHT)]. split; [apply new_inv|done]. Qed.

Lemma inv_published s blocks chains ent : sl_inv user s blocks chains ent -> sl_inv user (published s) blocks chains ent.
Proof using. intros [H1 H2 H3 H4 H5 H6 H7 H8]. split; try done. by destruct H1. Qed.

(** The reader keeps its footing while the chains grow. *)
Lemma reader_ok_grow chains chains' ent ent' r : (forall l, chains l ⊆ chains' l) -> (forall l n, n ∈ chains l -> ent' n = ent n) -> reader_ok chains ent r -> reader_ok chains' ent' r.
Proof using. intros Hsub He. destruct r as [|node level|]; [done| |done]. intros (Hl & [->|[Hin Hlt]]); split; [done|by left|done|right]. split; [by apply Hsub|by rewrite (He level)]. Qed.

Lemma writer_step_ok w w' chains ent : writer_step w w' -> world_ok w chains ent ->
  exists chains' ent', world_ok w' chains' ent' /\ w_reader w' = w_reader w /\ (forall l, chains l ⊆ chains' l) /\ (forall l n, n ∈ chains l -> ent' n = ent n).
Proof using All.
  intros Hs (blocks & Hi & Hw & Hr). assert (forall l, chains l ⊆ chains 0%nat) as Hsub by (intros l; eapply (sub_levels (sl_next (w_list w))); [apply Hi|lia]).
  destruct Hs as [s r head tail value s' node h prev Hwf Hp|s r head tail value s' Hwf Hp|s r node h prev l Hl|s r node h prev l|s r node h prev]; cbn [w_list w_writer w_reader] in *.
  - pose proof (prepare_spec user s blocks chains ent head tail value Hi Hw Hwf) as H. rewrite Hp in H. destruct H as (ent' & He & _ & Hi' & Hpd & Hlen & Hh).
    assert (forall l n, n ∈ chains l -> ent' n = ent n) as He' by (intros l n Hn; by apply He, (Hsub l)). exists chains, ent'. split_and!; [|done|done|done]. exists (blocks ++ [(node, h)]). cbn in *.
    split_and!; [done|done|done|lia|rewrite Hlen, Hw, ?decide_True by done; cbn; lia|by eapply (reader_ok_grow chains chains ent)].
  - pose proof (prepare_spec user s blocks chains ent head tail value Hi Hw Hwf) as H. rewrite Hp in H. destruct H as (Hi' & Hlen). exists chains, ent. split_and!; [|done..]. exists blocks. cbn in *. by rewrite Hlen.
  - destruct Hw as (Hpd & Hh & _ & Hlen). destruct (pending_own user s blocks chains ent node h prev l Hi Hpd Hl) as (Hi' & Hpd' & HAB). exists chains, ent. split_and!; [|done..]. exists blocks. by split_and!.
  - destruct Hw as (Hpd & Hh & Hl & Hlen & A & B & Hch & Hp & Hown). destruct (pending_reach user s blocks chains ent node h prev l A B Hi Hpd Hl Hch Hp Hown) as (Hi' & Hpd').
    assert (forall l', chains l' ⊆ at_level chains l (A ++ node :: B) l') as Hgrow by (intros l'; unfold at_level; destruct (decide (l' = l)) as [->|]; [rewrite Hch; set_solver|done]).
    exists (at_level chains l (A ++ node :: B)), ent. split_and!; [|done|done|done]. exists blocks. cbn. split_and!; [done|done|done|lia| |by eapply reader_ok_grow].
    change (sl_len (reach_link s node (nth l prev HEAD) l)) with (sl_len s). rewrite (decide_False (P := S l = 0%nat)) by lia. unfold at_level. destruct (decide (0%nat = l)) as [<-|Hne].
    + rewrite decide_True in Hlen by done. rewrite Hch in Hlen. rewrite length_app in *. cbn [length]. lia.
    + rewrite decide_False in Hlen by done. lia.
  - destruct Hw as (Hpd & Hh & _ & Hlen). exists chains, ent. split_and!; [|done..]. exists blocks. cbn. split_and!; [by apply inv_published| |done]. rewrite decide_False in Hlen by lia. lia.
Qed.

Lemma next_node s blocks chains ent node level : sl_inv user s blocks chains ent -> (level < MAX_HEIGHT)%nat -> node = HEAD \/ node ∈ chains level ->
  exists A B, chains level = A ++ B /\ endpoint A = node /\ sl_next s node level = hd NIL B.
Proof using.
  intros Hi Hl Hn. pose proof (lk_path _ _ (iv_linked _ _ _ _ _ Hi) level Hl) as Hp. destruct Hn as [->|Hn]; [exists [], (chains level); split_and!; [done..|]; by apply (path_next _ _ _ [] (chains level))|].
  apply list_elem_of_split in Hn as (A & B & E). exists (A ++ [node]), B. rewrite E, <- app_assoc. split_and!; [done|apply endpoint_snoc|]. rewrite E in Hp. replace (A ++ node :: B) with ((A ++ [node]) ++ B) in Hp by by rewrite <- app_assoc.
  apply path_next in Hp. by rewrite last_snoc in Hp.
Qed.

Lemma reader_step_ok w w' chains ent : reader_step w w' -> world_ok w chains ent -> world_ok w' chains ent /\ w_list w' = w_list w.
Proof using All.
  intros Hs (blocks & Hi & Hw & Hr). destruct Hs as [s w|s w node level Hb|s w node level Hb|s w node Hb]; cbn [w_list w_writer w_reader] in *; (split; [|done]); exists blocks; (split_and!; [done..|]).
  - pose proof (iv_bound _ _ _ _ _ Hi). split; [unfold sl_top; lia|by left].
  - destruct Hr as [Hl Hn]. destruct (next_node s blocks chains ent node level Hi Hl) as (A & B & Hch & _ & Hnx); [tauto|]. rewrite Hnx in *. destruct B as [|b B]; [done|]. cbn in *.
    assert (b ∈ chains level) as Hin by (rewrite Hch; set_solver). split; [done|]. right. split; [done|].
    assert (b ∈ chains 0%nat) as Hin0 by (eapply (sub_levels (sl_next s)); [apply Hi| |done]; lia). rewrite (is_before_spec user s blocks chains ent key b Hi Hin0) in Hb. by apply bool_decide_eq_true in Hb.
  - destruct Hr as [Hl [->|[Hin Hlt]]]; [split; [lia|by left]|]. split; [lia|]. right. split; [by apply (lk_sub _ _ (iv_linked _ _ _ _ _ Hi))|done].
  - done.
Qed.

Lemma step_ok w w' chains ent : step w w' -> world_ok w chains ent ->
  exists chains' ent', world_ok w' chains' ent' /\ (forall l, chains l ⊆ chains' l) /\ (forall l n, n ∈ chains l -> ent' n = ent n).
Proof using All.
  intros [Hs|Hs] Hw; [destruct (writer_step_ok w w' chains ent Hs Hw) as (chains' & ent' & ? & _ & ? & ?); by exists chains', ent'|].
  destruct (reader_step_ok w w' chains ent Hs Hw). by exists chains, ent.
Qed.
Lemma steps_ok w w' chains ent : rtc step w w' -> world_ok w chains ent ->
  exists chains' ent', world_ok w' chains' ent' /\ (forall l, chains l ⊆ chains' l) /\ (forall l n, n ∈ chains l -> ent' n = ent n).
Proof using All.
  intros Hs. revert chains ent. induction Hs as [w|w w1 w' H1 _ IH]; intros chains ent Hw; [by exists chains, ent|].
  destruct (step_ok w w1 chains ent H1 Hw) as (c1 & e1 & Hw1 & Hsub1 & He1). destruct (IH c1 e1 Hw1) as (c2 & e2 & Hw2 & Hsub2 & He2). exists c2, e2. split_and!; [done| |].
  - intros l. etrans; [apply Hsub1|apply Hsub2].
  - intros l n Hn. rewrite (He2 l) by by apply Hsub1. by apply (He1 l).
Qed.

Lemma walk_chain fuel s n nodes : path (sl_next s) 0 n nodes -> (length nodes < fuel)%nat -> walk fuel s n = nodes.
Proof using.
  revert n nodes. induction fuel as [|fuel IH]; intros n nodes Hp Hlen; [lia|]. cbn. destruct nodes as [|m nodes]; cbn in Hp; [by rewrite Hp|]. destruct Hp as (-> & Hm & Hp). apply N.eqb_neq in Hm. rewrite Hm.
  f_equal. apply IH; [done|cbn in Hlen; lia].
Qed.
Lemma bottom_chain w chains ent : world_ok w chains ent -> bottom (w_list w) = chains 0%nat.
Proof using.
  intros (blocks & Hi & Hw & _). apply walk_chain; [apply Hi; unfold MAX_HEIGHT; lia|]. destruct (w_writer w); cbn in Hw; [lia|destruct Hw as (_ & _ & _ & ->); destruct (decide _); lia|destruct Hw as (_ & _ & _ & -> & _); destruct (decide _); lia].
Qed.

(** What a search returns, at the load it returns on. *)
Lemma return_first w w' chains ent r : reader_step w w' -> w_reader w' = Returned r -> world_ok w chains ent ->
  r = hd NIL (filter (fun n => is_before user (w_list w') key n = false) (chains 0%nat)).
Proof using All.
  intros Hs Hr (blocks & Hi & _ & Hok). destruct Hs as [s w|s w node level Hb|s w node level Hb|s w node Hb]; try done. cbn [w_list w_reader] in *. injection Hr as <-. destruct Hok as [_ Hn].
  destruct (next_node s blocks chains ent node 0 Hi) as (A & B & Hch & He & Hnx); [unfold MAX_HEIGHT; lia|tauto|]. rewrite Hnx in *. rewrite Hch, filter_app, filter_none.
  - destruct B as [|b B]; [done|]. cbn [hd] in *. by rewrite filter_cons_True.
  - apply Forall_forall. intros a Ha Hnot. rewrite (is_before_spec user s blocks chains ent key a Hi) in Hnot by (rewrite Hch; set_solver). apply bool_decide_eq_false in Hnot. apply Hnot.
    destruct (endpoint_cases A) as [[_ ->]|[A' EA]]; [by apply elem_of_nil in Ha|]. rewrite He in EA.
    assert (node <> HEAD) as Hne. { intros ->. pose proof (lk_nodup _ _ (iv_linked _ _ _ _ _ Hi) 0) as Hnd. apply NoDup_cons in Hnd as [Hnd _]. apply Hnd. rewrite Hch, EA. set_solver. }
    destruct Hn as [->|[Hin Hlt]]; [done|]. rewrite EA in Ha. apply elem_of_app in Ha as [Ha|Ha]; [|by apply list_elem_of_singleton in Ha as ->].
    apply (key_le_lt_trans user _ (ent node).1); [apply (inv_entry user s blocks chains ent 0); [done|rewrite Hch, EA; set_solver]|by apply (inv_entry user s blocks chains ent 0)|done| |done].
    pose proof (iv_sorted _ _ _ _ _ Hi 0) as Hs. rewrite Hch, EA, <- app_assoc in Hs. apply StronglySorted_app in Hs as (Hs & _ & _). apply Hs; [done|left].
Qed.

(** *** A reader left alone returns *)

Lemma descend_steps fuel s w node level prev n' next prev' : descend fuel s (is_before user s key) node level prev = Some (n', next, prev') ->
  exists k, (k <= fuel)%nat /\ nsteps reader_step k (mkWorld s w (At node level)) (mkWorld s w (Returned next)).
Proof using.
  revert node level prev. induction fuel as [|fuel IH]; intros node level prev; [done|]. cbn [descend]. destruct (is_before user s key (sl_next s node level)) eqn:Hb.
  - intros (k & Hk & Hs)%IH. exists (S k). split; [lia|]. by econstructor; [apply step_forward|].
  - destruct level as [|level].
    + intros [= _ <- _]. exists 1%nat. split; [lia|]. econstructor; [by apply step_return|constructor].
    + intros (k & Hk & Hs)%IH. exists (S k). split; [lia|]. by econstructor; [apply step_down|].
Qed.

Lemma reader_finishes s w node level chains ent : world_ok (mkWorld s w (At node level)) chains ent ->
  exists k found, (k <= MAX_HEIGHT * (sl_len s + 2))%nat /\ nsteps reader_step k (mkWorld s w (At node level)) (mkWorld s w (Returned found)).
Proof using All.
  intros Hok. assert (length (chains 0%nat) <= sl_len s + 1)%nat as Hlen.
  { destruct Hok as (blocks & Hi & Hw & _). cbn in Hw. destruct w; cbn in Hw; [lia|destruct Hw as (_ & _ & _ & ->); destruct (decide _); lia|destruct Hw as (_ & _ & _ & -> & _); destruct (decide _); lia]. }
  destruct Hok as (blocks & Hi & _ & Hl & Hn). cbn [w_list w_reader] in *. set (P := fun k => internal_cmp user k key = Lt).
  assert (exists P1 Q, fore ent P (chains level) = P1 ++ Q /\ node = endpoint P1) as (P1 & Q & HA & ->).
  { destruct Hn as [->|[Hin Hlt]]; [by exists [], (fore ent P (chains level))|]. assert (node ∈ fore ent P (chains level)) as Hf by (by apply list_elem_of_filter).
    apply list_elem_of_split in Hf as (A & B & E). exists (A ++ [node]), B. rewrite endpoint_snoc, <- app_assoc. done. }
  assert (forall l n, n ∈ chains l -> is_before user s key n = bool_decide (P (ent n).1)) as Hbef by (intros l n Hn'; eapply is_before_spec; [done|]; eapply (sub_levels (sl_next s)); [apply Hi| |done]; lia).
  destruct (descend_spec s chains (iv_linked _ _ _ _ _ Hi) (is_before user s key) (fun l => fore ent P (chains l)) (fun l => aft ent P (chains l))) with (bound := length (chains 0%nat)) (fuel := (MAX_HEIGHT * (sl_len s + 2))%nat) (level := level)
    (P := P1) (Q := Q) (prev := @nil N) as (prev' & Hd & _).
  - intros l _. eapply chain_split; [done|by apply before_lower].
  - intros l n _ [HP Hn']%list_elem_of_filter. rewrite (Hbef l n Hn'). by apply bool_decide_eq_true.
  - intros l n _ [->|[HP Hn']%list_elem_of_filter]%elem_of_cons; [done|]. rewrite (Hbef l n Hn'). by apply bool_decide_eq_false.
  - intros l _. by eapply chain_length.
  - done.
  - done.
  - pose proof (chain_length user s blocks chains ent level Hi) as Hc. pose proof (length_filter (fun n => P (ent n).1) (chains level)) as Hf. fold (fore ent P (chains level)) in Hf. rewrite HA, length_app in Hf.
    assert (level <= 15)%nat by (unfold MAX_HEIGHT in *; lia). unfold MAX_HEIGHT. nia.
  - destruct (descend_steps _ s w _ _ _ _ _ _ Hd) as (k & Hk & Hs). by exists k, (hd NIL (aft ent P (chains 0%nat))).
Qed.
End Steps.

(** C23: a search that runs beside an insert is exact at the moment it returns.
    In every interleaving of the loads of [find_ge] with the stores of any number
    of inserts, the bottom level stays sorted and only gains nodes, so what was
    there before the search began is still there, and the node returned is the
    first of the bottom level, as it is at the returning load, that is not before
    the key. *)
Theorem find_ge_linearizes (user : Comparator) `{!ComparatorLaws user} (key : bytes) (seed : N) (w0 w1 w2 : world) (found : N) :
  wellformed key -> rtc (step user key) (world_new seed) w0 -> rtc (step user key) w0 w1 -> reader_step user key w1 w2 -> w_reader w2 = Returned found ->
  bottom (w_list w0) ⊆ bottom (w_list w2) /\
  StronglySorted (fun a b => key_le user (sl_key (w_list w2) a) (sl_key (w_list w2) b)) (bottom (w_list w2)) /\
  found = hd NIL (filter (fun n => is_before user (w_list w2) key n = false) (bottom (w_list w2))).
Proof.
  intros Hk H0 H1 H2 Hf. destruct (steps_ok user key Hk _ _ _ _ H0 (new_world_ok user key seed)) as (c0 & e0 & Hw0 & _ & _). destruct (steps_ok user key Hk _ _ _ _ H1 Hw0) as (c1 & e1 & Hw1 & Hsub & _).
  destruct (reader_step_ok user key Hk w1 w2 c1 e1 H2 Hw1) as [Hw2 Hs2]. rewrite (bottom_chain user key w0 c0 e0 Hw0), (bottom_chain user key w2 c1 e1 Hw2). split_and!; [apply Hsub| |by eapply return_first].
  destruct Hw2 as (blocks & Hi & _). eapply StronglySorted_impl_in; [|apply (iv_sorted _ _ _ _ _ Hi 0)]. intros a b Ha Hb. by destruct (inv_entry user _ blocks c1 e1 0 a Hi Ha) as (-> & _), (inv_entry user _ blocks c1 e1 0 b Hi Hb) as (-> & _).
Qed.

(** A search always gets through.  Whatever the writer has done and wherever
    in the middle of an insert it has stopped, a search under way returns within
    sixteen times the number of nodes and two loads of its own. *)
Theorem find_ge_returns (user : Comparator) `{!ComparatorLaws user} (key : bytes) (seed : N) (s : SkipList) (w : Writing) (node : N) (level : nat) :
  wellformed key -> rtc (step user key) (world_new seed) (mkWorld s w (At node level)) ->
  exists k found, (k <= MAX_HEIGHT * (sl_len s + 2))%nat /\ nsteps (reader_step user key) k (mkWorld s w (At node level)) (mkWorld s w (Returned found)).
Proof.
  intros Hk H. destruct (steps_ok user key Hk _ _ _ _ H (new_world_ok user key seed)) as (c & e & Hw & _ & _). by apply (reader_finishes user key Hk s w node level c e).
Qed.

(** ** A schedule to run *)

Inductive Act := Prepare (head tail value : bytes) | Write | Read.
Section Schedule.
Context (user : Comparator) (key : bytes).

Definition act (a : Act) (w : world) : option world :=
  let '(mkWorld s wr rd) := w in
  match a, wr, rd with
  | Prepare head tail value, Resting, _ =>
      match prepare user s head tail value with
      | (s', Some (node, h, prev)) => Some (mkWorld s' (Owning node h prev 0) rd)
      | (s', None) => Some (mkWorld s' Resting rd)
      end
  | Write, Owning node h prev l, _ =>
      if (l <? h)%nat then Some (mkWorld (own_link s node (nth l prev HEAD) l) (Reaching node h prev l) rd)
      else if (l =? h)%nat then Some (mkWorld (published s) Resting rd) else None
  | Write, Reaching node h prev l, _ => Some (mkWorld (reach_link s node (nth l prev HEAD) l) (Owning node h prev (S l)) rd)
  | Read, _, Waiting => Some (mkWorld s wr (At HEAD (sl_top s)))
  | Read, _, At node level =>
      let next := sl_next s node level in
      if is_before user s key next then Some (mkWorld s wr (At next level)) else
      match level with O => Some (mkWorld s wr (Returned next)) | S level => Some (mkWorld s wr (At node level)) end
  | _, _, _ => None
  end.
Definition act_ok (a : Act) : Prop := match a with Prepare head tail _ => wellformed (head ++ tail) | _ => True end.
Definition schedule (acts : list Act) (w : world) : option world := foldl (fun w a => w ← w; act a w) (Some w) acts.

Lemma read_step w w' : act Read w = Some w' -> reader_step user key w w'.
Proof using.
  destruct w as [s wr rd]. cbn [act]. destruct rd as [|node level|]; [destruct wr; intros [= <-]; constructor| |by destruct wr].
  destruct (is_before user s key (sl_next s node level)) eqn:Hb; [destruct wr; intros [= <-]; by constructor|]. destruct level; destruct wr; intros [= <-]; by constructor.
Qed.
Lemma act_step a w w' : act_ok a -> act a w = Some w' -> step user key w w'.
Proof using.
  destruct w as [s wr rd]. intros Hok. destruct a as [head tail value| |]; cbn [act].
  - destruct wr; try done. destruct (prepare user s head tail value) as [s' [[[node h] prev]|]] eqn:Ep; intros [= <-]; left; [by eapply step_prepare|by eapply step_refuse].
  - destruct wr as [|node h prev l|node h prev l]; [done| |intros [= <-]; left; constructor]. destruct (Nat.ltb_spec l h); [intros [= <-]; left; by constructor|]. destruct (Nat.eqb_spec l h) as [->|]; [|done]. intros [= <-]. left. constructor.
  - intros Hr. right. by apply read_step.
Qed.
Lemma schedule_steps acts w w' : Forall act_ok acts -> schedule acts w = Some w' -> rtc (step user key) w w'.
Proof using.
  unfold schedule. revert w. induction acts as [|a acts IH]; intros w Hok Hs; [by injection Hs as ->|]. apply Forall_cons in Hok as [Ha Hok]. cbn in Hs. destruct (act a w) as [w1|] eqn:Ea.
  - eapply rtc_l; [by eapply act_step|by apply IH].
  - exfalso. clear -Hs. induction acts as [|a' acts IH]; [done|]. cbn in Hs. done.
Qed.
End Schedule.

(** An insert half way through while a search runs. *)
Definition some_key : bytes := internal_key [Byte.x62] 9 Put.
Definition first_acts : list Act := [Prepare [Byte.x61] (le_bytes 8 (pack_tag 1 Put)) [Byte.x01]; Write; Write; Write; Prepare [Byte.x63] (le_bytes 8 (pack_tag 2 Put)) [Byte.x02]].
Definition later_acts : list Act := [Read; Read; Write; Write].
Lemma acts_ok : Forall act_ok first_acts /\ Forall act_ok later_acts.
Proof. split; repeat constructor; cbn [act_ok]; [exists [Byte.x61], 1%N, Put|exists [Byte.x63], 2%N, Put]; split; done. Qed.

Definition half_way : world := default (world_new 7) (schedule BytewiseComparator some_key first_acts (world_new 7)).
Definition searching : world := default half_way (schedule BytewiseComparator some_key later_acts half_way).
Definition returned : world := default searching (act BytewiseComparator some_key Read searching).
Lemma half_way_reached : rtc (step BytewiseComparator some_key) (world_new 7) half_way.
Proof. apply (schedule_steps _ _ first_acts); [apply acts_ok|vm_compute; reflexivity]. Qed.
Lemma searching_reached : rtc (step BytewiseComparator some_key) half_way searching.
Proof. apply (schedule_steps _ _ later_acts); [apply acts_ok|vm_compute; reflexivity]. Qed.
Lemma some_key_wf : wellformed some_key.
Proof. by exists [Byte.x62], 9%N, Put. Qed.

Lemma find_ge_linearizes_witness :
  bottom (w_list half_way) = [21%N] /\ bottom (w_list returned) = [21%N; 26%N] /\ w_reader returned = Returned 26 /\
  26%N = hd NIL (filter (fun n => is_before BytewiseComparator (w_list returned) some_key n = false) (bottom (w_list returned))).
Proof.
  split; [vm_compute; reflexivity|]. split; [vm_compute; reflexivity|]. split; [vm_compute; reflexivity|].
  apply (find_ge_linearizes BytewiseComparator some_key 7 half_way searching returned 26).
  - apply some_key_wf.
  - apply half_way_reached.
  - apply searching_reached.
  - apply read_step. vm_compute. reflexivity.
  - vm_compute. reflexivity.
Defined.
Lemma find_ge_returns_witness :
  exists k found, (k <= MAX_HEIGHT * (sl_len (w_list searching) + 2))%nat /\
    nsteps (reader_step BytewiseComparator some_key) k (mkWorld (w_list searching) (w_writer searching) (At 21 0)) (mkWorld (w_list searching) (w_writer searching) (Returned found)).
Proof.
  apply (find_ge_returns BytewiseComparator some_key 7).
  - apply some_key_wf.
  - transitivity half_way; [apply half_way_reached|]. assert (searching = mkWorld (w_list searching) (w_writer searching) (At 21 0)) as E by (vm_compute; reflexivity). rewrite <- E. apply searching_reached.
Defined.
