(* ===== verification/MemTable.v ===== *)
(** The memtable (esker-engine/src/memtable.rs): the skip list of internal keys
    with the range tombstones beside it, its point read and its cursor. *)

From stdpp Require Import prelude sorting.
From Stdlib Require Import NArith Lia.
From S2P Require Import Prelude Endian DbFormat RangeDel Lsm Cursor Arena SkipList.

Definition ENTRY_OVERHEAD : N := 64.

Inductive Lookup := Found (value : bytes) (seqno : N) | Deleted.

(** A lock poisoned by a panic is not modelled. *)
Record MemTable := mkMemTable {
  mt_store : SkipList;
  mt_range_tombstones : RangeTombstones;
  mt_approximate_size : N;
}.
Inductive MemTableFull := ArenaFull.

Section MemTable.
Context (user : Comparator).

Definition MemTable_with_seed (seed : N) : MemTable := mkMemTable (SkipList_new seed) [] 0.

Definition mt_add (mt : MemTable) (seqno : N) (kind : EntryKind) (key value : bytes) : MemTable * result MemTableFull unit :=
  let tag := le_bytes 8 (pack_tag seqno kind) in
  let charge := (N.of_nat (length key + length tag + length value) + ENTRY_OVERHEAD)%N in
  let '(store, landed) := sl_insert user (mt_store mt) key tag value in
  if landed then
    (mkMemTable store (mt_range_tombstones mt) (mt_approximate_size mt + charge), Ok tt)
  else (mkMemTable store (mt_range_tombstones mt) (mt_approximate_size mt), Err ArenaFull).
Definition mt_add_range (mt : MemTable) (seqno : N) (begin_ end_ : bytes) : MemTable :=
  let charge := (N.of_nat (length begin_ + length end_) + ENTRY_OVERHEAD)%N in
  mkMemTable (mt_store mt) (rts_push user (mt_range_tombstones mt) (mkTombstone begin_ end_ seqno)) (mt_approximate_size mt + charge).
Definition has_range_tombstones (mt : MemTable) : bool := negb (bool_decide (mt_range_tombstones mt = [])).

Definition mt_get (mt : MemTable) (user_key : bytes) (snapshot : N) : option Lookup :=
  let position := sl_seek user (mt_store mt) (lookup_key user_key snapshot) in
  if (position =? NIL)%N then None else
  let internal := sl_key (mt_store mt) position in
  if negb (bool_decide (cmp user (extract_user_key internal) user_key = Eq)) then None else
  match split_internal_key internal with
  | Some (_, seqno, Put) => Some (Found (sl_value (mt_store mt) position) seqno)
  | Some (_, _, _) => Some Deleted
  | None => None
  end.

Definition mt_len (mt : MemTable) : nat := sl_len (mt_store mt).
Definition mt_is_empty (mt : MemTable) : bool := (mt_len mt =? 0)%nat && negb (has_range_tombstones mt).

(** [MemTableIter]: the table and a position in its store. *)
Record MemTableIter := mkMemIter { mi_table : MemTable; mi_position : N }.
Definition mt_iter (mt : MemTable) : MemTableIter := mkMemIter mt NIL.
Definition mi_store (c : MemTableIter) : SkipList := mt_store (mi_table c).
Definition mi_move (c : MemTableIter) (position : N) : MemTableIter := mkMemIter (mi_table c) position.
#[local] Instance MemTableIterOps : Cursor MemTableIter := {
  cur_valid c := not_nil (mi_position c);
  cur_key c := sl_key (mi_store c) (mi_position c);
  cur_value c := sl_value (mi_store c) (mi_position c);
  cur_seek target c := mi_move c (sl_seek user (mi_store c) target);
  cur_seek_for_prev target c := mi_move c (sl_seek_for_prev user (mi_store c) target);
  cur_seek_to_first c := mi_move c (sl_first (mi_store c));
  cur_seek_to_last c := mi_move c (sl_last (mi_store c));
  cur_next c := mi_move c (sl_after (mi_store c) (mi_position c));
  cur_prev c := mi_move c (sl_before user (mi_store c) (mi_position c));
  cur_error _ := false }.

Context `{!ComparatorLaws user}.

(** ** Where the cursor stands *)

Definition mi_over (c : MemTableIter) (run : list entry) : Prop := sl_holds user (mi_store c) run /\ run_sorted user run.
Definition mi_at (d : Direction) (c : MemTableIter) (run rest : list entry) : Prop :=
  run_sorted user run /\ exists blocks chains ent, sl_inv user (mi_store c) blocks chains ent /\ sl_len (mi_store c) = length (chains 0%nat) /\ run = ent <$> chains 0%nat /\
  exists P R, chains 0%nat = P ++ R /\
  match d with
  | Forward => mi_position c = hd NIL R /\ rest = ent <$> R
  | Reverse => mi_position c = nil_if_head (endpoint P) /\ rest = reverse (ent <$> P)
  end.

Lemma chain_nodes s blocks chains ent n : sl_inv user s blocks chains ent -> n ∈ chains 0%nat -> n <> NIL /\ n <> HEAD.
Proof using All.
  intros Hi Hn. split; [intros ->; by eapply (path_not_nil (sl_next s) 0 HEAD (chains 0%nat)); [apply Hi; unfold MAX_HEIGHT; lia|]|].
  intros ->. pose proof (lk_nodup _ _ (iv_linked _ _ _ _ _ Hi) 0) as Hnd. by apply NoDup_cons in Hnd as [Hnd _].
Qed.
Lemma hd_chain s blocks chains ent P R : sl_inv user s blocks chains ent -> chains 0%nat = P ++ R -> not_nil (hd NIL R) = negb (bool_decide (R = [])).
Proof using All.
  intros Hi Hch. destruct R as [|r R]; [done|]. destruct (chain_nodes _ _ _ _ r Hi) as [Hr _]; [rewrite Hch; set_solver|]. unfold not_nil. apply N.eqb_neq in Hr. cbn. by rewrite Hr.
Qed.
Lemma end_chain s blocks chains ent P R : sl_inv user s blocks chains ent -> chains 0%nat = P ++ R ->
  nil_if_head (endpoint P) = default NIL (last P).
Proof using All.
  intros Hi Hch. destruct P as [|p P _] using rev_ind; [done|]. rewrite endpoint_snoc, last_snoc. destruct (chain_nodes _ _ _ _ p Hi) as [_ Hp]; [rewrite Hch; set_solver|].
  unfold nil_if_head. apply N.eqb_neq in Hp. by rewrite Hp.
Qed.

(** The bottom level in strict order: what lies on either side of a node. *)
Lemma strict_split (ent : N -> entry) P r R : run_sorted user (ent <$> P ++ r :: R) ->
  fore ent (fun k => internal_cmp user k (ent r).1 = Lt) (P ++ r :: R) = P.
Proof using All.
  intros [Hs _]. rewrite fmap_app, fmap_cons in Hs. unfold fore. rewrite filter_app, filter_all, filter_cons, decide_False, filter_none; [by rewrite app_nil_r|..].
  - apply Forall_forall. intros n Hn. apply StronglySorted_app_1_r, StronglySorted_inv in Hs as [_ Hs]. rewrite Forall_fmap, Forall_forall in Hs. specialize (Hs n Hn). unfold compose, entry_before in Hs. rewrite (internal_cmp_antisym user), Hs. done.
  - by rewrite internal_cmp_refl.
  - apply Forall_forall. intros n Hn. apply StronglySorted_app in Hs as (Hs & _ & _). apply Hs; [by apply list_elem_of_fmap_2|left].
Qed.

(** Standing before [R], or on the last of [P], of the bottom level. *)
Lemma at_before c blocks chains ent P R : sl_inv user (mi_store c) blocks chains ent -> sl_len (mi_store c) = length (chains 0%nat) -> run_sorted user (ent <$> chains 0%nat) ->
  chains 0%nat = P ++ R -> mi_at Forward (mi_move c (hd NIL R)) (ent <$> chains 0%nat) (ent <$> R).
Proof using. intros Hi Hlen Hr Hch. split; [done|]. exists blocks, chains, ent. split_and!; [done..|]. by exists P, R. Qed.
Lemma at_last c blocks chains ent P R : sl_inv user (mi_store c) blocks chains ent -> sl_len (mi_store c) = length (chains 0%nat) -> run_sorted user (ent <$> chains 0%nat) ->
  chains 0%nat = P ++ R -> mi_at Reverse (mi_move c (nil_if_head (endpoint P))) (ent <$> chains 0%nat) (reverse (ent <$> P)).
Proof using. intros Hi Hlen Hr Hch. split; [done|]. exists blocks, chains, ent. split_and!; [done..|]. by exists P, R. Qed.

Lemma after_spec s blocks chains ent P r R : sl_inv user s blocks chains ent -> chains 0%nat = P ++ r :: R -> sl_after s r = hd NIL R.
Proof using All.
  intros Hi Hch. unfold sl_after. destruct (chain_nodes _ _ _ _ r Hi) as [Hr _]; [rewrite Hch; set_solver|]. apply N.eqb_neq in Hr. rewrite Hr.
  pose proof (lk_path _ _ (iv_linked _ _ _ _ _ Hi) 0 ltac:(unfold MAX_HEIGHT; lia)) as Hp. rewrite Hch in Hp. replace (P ++ r :: R) with ((P ++ [r]) ++ R) in Hp by by rewrite <- app_assoc.
  apply path_next in Hp. by rewrite last_snoc in Hp.
Qed.
Lemma before_spec s blocks chains ent P r R : sl_inv user s blocks chains ent -> sl_len s = length (chains 0%nat) -> run_sorted user (ent <$> chains 0%nat) ->
  chains 0%nat = P ++ r :: R -> sl_before user s r = nil_if_head (endpoint P).
Proof using All.
  intros Hi Hlen Hs Hch. assert (r ∈ chains 0%nat) as Hin by (rewrite Hch; set_solver). unfold sl_before. destruct (chain_nodes _ _ _ _ r Hi Hin) as [Hr _]. apply N.eqb_neq in Hr. rewrite Hr.
  destruct (inv_entry user s blocks chains ent 0 r Hi Hin) as (-> & _ & Hw). destruct (find_ge_spec user s blocks chains ent (ent r).1 Hi Hlen Hw) as (_ & _ & -> & _). rewrite Hch in Hs |- *. by rewrite strict_split.
Qed.

(** Past one node of a strict order. *)
Lemma run_past (ent : N -> entry) P r R : run_sorted user (ent <$> P ++ r :: R) ->
  visits user Forward (fun x => internal_cmp user x.1 (ent r).1 = Gt) (ent <$> P ++ r :: R) (ent <$> R) /\
  visits user Reverse (fun x => internal_cmp user x.1 (ent r).1 = Lt) (ent <$> P ++ r :: R) (reverse (ent <$> P)).
Proof using All.
  intros Hr. pose proof Hr as [Hs _]. rewrite fmap_app, fmap_cons in *. apply StronglySorted_app in Hs as (Hab & Hsa & Hsb). apply StronglySorted_inv in Hsb as [_ Hsb]. rewrite Forall_forall in Hsb.
  assert (forall a, a ∈ ent <$> P -> internal_cmp user a.1 (ent r).1 = Lt) as Hlt by (intros a Ha; apply Hab; [done|left]).
  assert (forall b, b ∈ ent <$> R -> internal_cmp user b.1 (ent r).1 = Gt) as Hgt by (intros b Hb; rewrite (internal_cmp_antisym user), (Hsb b Hb); done).
  pose proof (visits_along user Forward (fun x : entry => internal_cmp user x.1 (ent r).1 = Gt) _ Hr) as V1. pose proof (visits_along user Reverse (fun x : entry => internal_cmp user x.1 (ent r).1 = Lt) _ Hr) as V2. cbn [along] in V1, V2.
  rewrite filter_app, filter_none, filter_cons, decide_False, filter_all in V1; [|by apply Forall_forall|by rewrite internal_cmp_refl|apply Forall_forall; intros a Ha; by rewrite Hlt].
  rewrite filter_app, filter_all, filter_cons, decide_False, filter_none, app_nil_r in V2; [|apply Forall_forall; intros a Ha; by rewrite Hgt|by rewrite internal_cmp_refl|by apply Forall_forall]. done.
Qed.

Lemma le_lower key : wellformed key -> lower user (fun k => internal_cmp user k key <> Gt).
Proof using All. intros Hk a b Ha Hb Hle Hbk. by apply (key_le_trans user a b key). Qed.
Lemma not_after_spec s blocks chains ent key n : sl_inv user s blocks chains ent -> n ∈ chains 0%nat -> not_after user s key n = bool_decide (internal_cmp user (ent n).1 key <> Gt).
Proof using All.
  intros Hi Hn. destruct (inv_entry user s blocks chains ent 0 n Hi Hn) as (Hk & _ & _). unfold not_after. rewrite Hk. destruct (chain_nodes _ _ _ _ n Hi Hn) as [Hne _]. apply N.eqb_neq in Hne. by rewrite Hne.
Qed.

#[local] Program Instance MemTableIterLaws : CursorLaws user MemTableIter := { cur_over := mi_over; cur_at := mi_at }.
Next Obligation. intros c run [_ [_ Hw]]. done. Qed.
Next Obligation. intros d c run rest (Hr & blocks & chains & ent & Hi & Hlen & -> & _). split; [|done]. by exists blocks, chains, ent. Qed.
Next Obligation.
  intros d c run rest (Hr & blocks & chains & ent & Hi & Hlen & -> & P & R & Hch & Hd) e He. rewrite Hch, fmap_app. apply elem_of_app. destruct d, Hd as [_ ->]; [by right|left]. by rewrite elem_of_reverse in He.
Qed.
Next Obligation. done. Qed.
Next Obligation.
  intros d c run rest (Hr & blocks & chains & ent & Hi & Hlen & -> & P & R & Hch & Hd). cbn. destruct d, Hd as [-> ->].
  - rewrite (hd_chain _ _ _ _ P R Hi Hch). by destruct R.
  - rewrite (end_chain _ _ _ _ P R Hi Hch). destruct P as [|p P _] using rev_ind; [done|]. rewrite last_snoc, fmap_app, reverse_app. cbn. destruct (chain_nodes _ _ _ _ p Hi) as [Hp _]; [rewrite Hch; set_solver|]. unfold not_nil. apply N.eqb_neq in Hp. by rewrite Hp.
Qed.
Next Obligation.
  intros d c run e rest (Hr & blocks & chains & ent & Hi & Hlen & -> & P & R & Hch & Hd). cbn. destruct d, Hd as [-> Hrest].
  - destruct R as [|r R]; [done|]. injection Hrest as -> _. destruct (inv_entry user _ blocks chains ent 0 r Hi) as (? & ? & _); [rewrite Hch; set_solver|done].
  - rewrite (end_chain _ _ _ _ P R Hi Hch). destruct P as [|p P _] using rev_ind; [done|]. rewrite fmap_app, reverse_app in Hrest. injection Hrest as -> _. rewrite last_snoc. destruct (inv_entry user _ blocks chains ent 0 p Hi) as (? & ? & _); [rewrite Hch; set_solver|done].
Qed.
Next Obligation.
  intros c run rest (Hr & blocks & chains & ent & Hi & Hlen & -> & P & R & Hch & Hp & ->). cbn. rewrite Hp. destruct R as [|r R]; [by apply (at_before c blocks chains ent P [])|]. cbn [hd fmap list_fmap tail].
  rewrite (after_spec _ _ _ _ P r R Hi Hch). apply (at_before c blocks chains ent (P ++ [r]) R); [done..|by rewrite <- app_assoc].
Qed.
Next Obligation.
  intros c run rest (Hr & blocks & chains & ent & Hi & Hlen & -> & P & R & Hch & Hp & ->). cbn. rewrite Hp, (end_chain _ _ _ _ P R Hi Hch). destruct P as [|p P _] using rev_ind; [by apply (at_last c blocks chains ent [] R)|].
  rewrite last_snoc, fmap_app, reverse_app. change (default NIL (Some p)) with p. change (tail (reverse (ent <$> [p]) ++ reverse (ent <$> P))) with (reverse (ent <$> P)). rewrite <- app_assoc in Hch. rewrite (before_spec _ _ _ _ P p R Hi Hlen Hr Hch). by apply (at_last c blocks chains ent P ([p] ++ R)).
Qed.
Next Obligation.
  intros c run target [(blocks & chains & ent & Hi & Hlen & ->) Hr] Ht. exists (ent <$> aft ent (fun k => internal_cmp user k target = Lt) (chains 0%nat)). split; [|rewrite fmap_aft; by apply (visits_along user Forward)]. cbn. unfold sl_seek. destruct (find_ge_spec user _ blocks chains ent target Hi Hlen Ht) as (prev & -> & _ & _). cbn [fst].
  eapply (at_before c blocks chains ent); [done..|]. eapply chain_split; [exact Hi|by apply before_lower].
Qed.
Next Obligation.
  intros c run target [(blocks & chains & ent & Hi & Hlen & ->) Hr] Ht. exists (reverse (ent <$> fore ent (fun k => internal_cmp user k target <> Gt) (chains 0%nat))). split; [|rewrite fmap_fore; by apply (visits_along user Reverse)]. cbn. unfold sl_seek_for_prev, find_le.
  destruct (search_spec user _ blocks chains ent (not_after user (mi_store c) target) (fun k => internal_cmp user k target <> Gt) Hi Hlen (le_lower target Ht)) as (prev & -> & _); [done|intros n Hn; by eapply not_after_spec|]. cbn [fst].
  eapply (at_last c blocks chains ent); [done..|]. eapply chain_split; [exact Hi|by apply le_lower].
Qed.
Next Obligation.
  intros c run [(blocks & chains & ent & Hi & Hlen & ->) Hr]. exists (ent <$> chains 0%nat). split; [|split; [by apply sorted_towards|by rewrite filter_all by by apply Forall_forall]]. cbn. unfold sl_first.
  pose proof (lk_path _ _ (iv_linked _ _ _ _ _ Hi) 0 ltac:(unfold MAX_HEIGHT; lia)) as Hp. apply (path_next (sl_next (mi_store c)) 0 HEAD [] (chains 0%nat)) in Hp. cbn in Hp. rewrite Hp. by apply (at_before c blocks chains ent []).
Qed.
Next Obligation.
  intros c run [(blocks & chains & ent & Hi & Hlen & ->) Hr]. exists (along Reverse (fun _ => True) (ent <$> chains 0%nat)). split; [|by apply visits_along]. cbn. rewrite filter_all by by apply Forall_forall. unfold sl_last.
  destruct (search_spec user _ blocks chains ent not_nil (fun _ => True) Hi Hlen) as (prev & -> & _); [by intros a b|done| |].
  - intros n Hn. destruct (chain_nodes _ _ _ _ n Hi Hn) as [Hne _]. unfold not_nil. apply N.eqb_neq in Hne. by rewrite Hne.
  - cbn [fst]. unfold fore. rewrite filter_all by by apply Forall_forall. apply (at_last c blocks chains ent _ []); [done..|]. by rewrite app_nil_r.
Qed.
Next Obligation.
  intros c run (Hr & blocks & chains & ent & Hi & Hlen & -> & P & R & Hch & Hp & Hrest). destruct P as [|p P _] using rev_ind; [|by rewrite fmap_app, reverse_app in Hrest]. cbn. rewrite Hp. by apply (at_last c blocks chains ent [] R).
Qed.
Next Obligation.
  intros c run (Hr & blocks & chains & ent & Hi & Hlen & -> & P & R & Hch & Hp & Hrest). destruct R as [|r R]; [|done]. cbn. rewrite Hp. by apply (at_before c blocks chains ent P []).
Qed.
Next Obligation.
  intros c run e rest (Hr & blocks & chains & ent & Hi & Hlen & -> & P & R & Hch & Hp & Hrest) _. destruct P as [|p P _] using rev_ind; [done|]. rewrite fmap_app, reverse_app in Hrest. injection Hrest as -> _.
  rewrite (end_chain _ _ _ _ _ R Hi Hch), last_snoc in Hp. cbn in Hp |- *. rewrite Hp. pose proof Hch as Hch'. rewrite <- app_assoc in Hch'. rewrite (after_spec _ _ _ _ P p R Hi Hch').
  exists (ent <$> R). split; [by apply (at_before c blocks chains ent (P ++ [p]) R)|]. rewrite Hch' in Hr |- *. by apply (run_past ent P p R).
Qed.
Next Obligation.
  intros c run e rest (Hr & blocks & chains & ent & Hi & Hlen & -> & P & R & Hch & Hp & Hrest) _. destruct R as [|r R]; [done|]. injection Hrest as -> _. cbn in Hp |- *. rewrite Hp, (before_spec _ _ _ _ P r R Hi Hlen Hr Hch).
  exists (reverse (ent <$> P)). split; [by apply (at_last c blocks chains ent P (r :: R))|]. rewrite Hch in Hr |- *. by apply (run_past ent P r R).
Qed.
End MemTable.

(** ** What a table that took some writes answers *)

Section Spec.
Context (user : Comparator) `{!ComparatorLaws user}.

Definition answer (v : option version) : option Lookup :=
  match v with Some (s, Put, value) => Some (Found value s) | Some (_, _, _) => Some Deleted | None => None end.

Lemma run_seek_aft (ent : N -> entry) chain target : run_seek user (ent <$> chain) target = head (ent <$> aft ent (fun k => internal_cmp user k target = Lt) chain).
Proof using.
  unfold aft. induction chain as [|n chain IH]; [done|]. rewrite fmap_cons, filter_cons. cbn [run_seek]. case_bool_decide as H; [by rewrite decide_False by (intros Hn; by apply Hn)|by rewrite decide_True].
Qed.

(** The point read: one seek finds the newest version visible at the snapshot. *)
Lemma mt_get_spec mt run key snapshot : sl_holds user (mt_store mt) run -> run_sorted user run -> (snapshot <= MAX_SEQNO)%N ->
  mt_get user mt key snapshot = answer (newest (versions_of user run key snapshot)).
Proof using All.
  intros Hh Hr Hs. rewrite run_newest by done. assert (wellformed (lookup_key key snapshot)) as Hwl by (exists key, snapshot, DeleteRange; by rewrite lookup_key_eq).
  destruct Hh as (blocks & chains & ent & Hi & Hlen & ->). unfold mt_get, sl_seek.
  destruct (find_ge_spec user _ blocks chains ent _ Hi Hlen Hwl) as (prev & -> & _). cbn [fst]. rewrite run_seek_aft.
  assert (forall n, n ∈ aft ent (fun k => internal_cmp user k (lookup_key key snapshot) = Lt) (chains 0%nat) -> n ∈ chains 0%nat /\ internal_cmp user (ent n).1 (lookup_key key snapshot) <> Lt) as Hsub by (by intros n [? ?]%list_elem_of_filter).
  destruct (aft ent _ _) as [|r R]; [done|]. destruct (Hsub r ltac:(left)) as [Hin Hge]. cbn [hd fmap list_fmap head mbind option_bind].
  destruct (chain_nodes user _ _ _ _ r Hi Hin) as [Hnil _]. apply N.eqb_neq in Hnil. rewrite Hnil. destruct (inv_entry user _ blocks chains ent 0 r Hi Hin) as (-> & -> & (u & sq & k & Ee & Hsq)).
  destruct (ent r) as [ek ev]. cbn [fst snd] in *. subst ek. rewrite extract_user_internal, (proj2 (split_internal_key_spec _ u sq k)), version_of_key by done. case_bool_decide as Hu; cbn [negb andb]; [|done].
  apply not_lt_le in Hge; [|done]. apply lookup_key_seek in Hge; [|done..]. destruct Hge as [Hlt|[_ Hle]]; [rewrite cmp_antisym, Hu in Hlt; done|]. apply N.leb_le in Hle. rewrite Hle. by destruct k.
Qed.

(** The writes of a table, in the order they come. *)
Definition write : Type := N * EntryKind * bytes * bytes.
Definition write_entry (w : write) : entry := let '(seqno, kind, key, value) := w in (internal_key key seqno kind, value).
Fixpoint mt_fill (mt : MemTable) (ws : list write) : result MemTableFull MemTable :=
  match ws with
  | [] => Ok mt
  | (seqno, kind, key, value) :: ws => match mt_add user mt seqno kind key value with (mt, Ok _) => mt_fill mt ws | (_, Err e) => Err e end
  end.

Lemma insert_sorted_run run key value : run_sorted user run -> wellformed key -> Forall (fun e : entry => internal_cmp user e.1 key <> Eq) run ->
  run_sorted user (filter (fun e : entry => internal_cmp user e.1 key = Lt) run ++ (key, value) :: filter (fun e : entry => internal_cmp user e.1 key <> Lt) run).
Proof using All.
  intros [Hs Hw] Hk Hne. rewrite Forall_forall in Hne. assert (forall b, b ∈ filter (fun e : entry => internal_cmp user e.1 key <> Lt) run -> internal_cmp user key b.1 = Lt) as Hgt.
  { intros b [Hb Hin]%list_elem_of_filter. rewrite (internal_cmp_antisym user b.1). specialize (Hne b Hin). by destruct (internal_cmp user b.1 key). }
  split.
  - apply StronglySorted_app. split_and!; [|by apply sorted_filter|constructor; [by apply sorted_filter|by apply Forall_forall]].
    intros a b [Ha Hin]%list_elem_of_filter [->|Hb]%elem_of_cons; [done|]. unfold entry_before. rewrite Forall_forall in Hw. apply (key_lt_le_trans user _ key); [by apply Hw|done| |done|unfold key_le; by rewrite (Hgt b Hb)].
    apply list_elem_of_filter in Hb as [_ Hb]. by apply Hw.
  - rewrite Forall_forall in Hw. apply Forall_app. split; [|constructor; [done|]]; apply Forall_forall; intros e [_ He]%list_elem_of_filter; by apply Hw.
Qed.

Lemma fill_holds mt ws mt' run : mt_fill mt ws = Ok mt' -> sl_holds user (mt_store mt) run -> run_sorted user run ->
  Forall (fun w : write => (w.1.1.1 <= MAX_SEQNO)%N) ws -> uniq user (run ++ (write_entry <$> ws)) ->
  exists run', sl_holds user (mt_store mt') run' /\ run_sorted user run' /\ run' ≡ₚ run ++ (write_entry <$> ws).
Proof using All.
  revert mt run. induction ws as [|[[[seqno kind] key] value] ws IH]; intros mt run Hf Hh Hr Hsq Hu; cbn in Hf.
  { injection Hf as <-. exists run. by rewrite app_nil_r. }
  apply Forall_cons in Hsq as [Hs Hsq]. cbn in Hs. unfold mt_add in Hf. assert (wellformed (key ++ le_bytes 8 (pack_tag seqno kind))) as Hk by (exists key, seqno, kind; by rewrite internal_key_eq).
  pose proof (insert_holds user (mt_store mt) run key (le_bytes 8 (pack_tag seqno kind)) value Hh Hk) as Hi. destruct (sl_insert user (mt_store mt) key _ value) as [store []]; [|done].
  rewrite <- internal_key_eq in Hi, Hk. match type of Hi with sl_holds _ _ ?r => set (run1 := r) in Hi end. assert (run1 ≡ₚ (internal_key key seqno kind, value) :: run) as Hp.
  { unfold run1. rewrite <- Permutation_middle. constructor. apply filter_app_complement. }
  assert (run1 ++ (write_entry <$> ws) ≡ₚ run ++ (write_entry <$> (seqno, kind, key, value) :: ws)) as Hp' by (rewrite Hp, fmap_cons, <- Permutation_middle; done).
  destruct (IH _ run1 Hf Hi) as (run' & Hh' & Hr' & Hp2); [|done|by eapply uniq_perm; [|symmetry; exact Hp'|done]|].
  - apply insert_sorted_run; [done..|]. apply Forall_forall. intros e (i & He)%list_elem_of_lookup Heq. assert (i = length run) as ->.
    { apply (Hu i (length run) e (write_entry (seqno, kind, key, value))); [by apply lookup_app_l_Some|rewrite lookup_app_r, Nat.sub_diag by done; done|done]. }
    apply lookup_lt_Some in He. lia.
  - exists run'. split_and!; [done..|]. by rewrite Hp2, Hp'.
Qed.
End Spec.

(** C22: a memtable is the sorted run of its writes.  After any sequence of
    [add]s that the arena took, with internal keys that differ, [get] answers
    with the newest version visible at the snapshot, tombstones included, and its
    cursor, turned around and re-seeked at will, cannot be told from one over
    the sorted run: the nodes, heights and pointers of the skip list and the
    chunks of its arenas do not show. *)
Theorem memtable_refines (user : Comparator) `{!ComparatorLaws user} (seed : N) (ws : list write) (mt : MemTable) :
  mt_fill user (MemTable_with_seed seed) ws = Ok mt ->
  Forall (fun w : write => (w.1.1.1 <= MAX_SEQNO)%N) ws -> uniq user (write_entry <$> ws) ->
  exists run, run ≡ₚ write_entry <$> ws /\ run_sorted user run /\
    (forall key snapshot, (snapshot <= MAX_SEQNO)%N -> mt_get user mt key snapshot = answer (newest (versions_of user run key snapshot))) /\
    (forall op ops, positions op = true -> Forall (fun op => from_option wellformed True (op_target op)) (op :: ops) ->
      observations (Cursor0 := MemTableIterOps user) (op :: ops) (mt_iter mt) = observations (Cursor0 := ListCursorOps user) (op :: ops) (mkListCursor run None)).
Proof.
  intros Hf Hs Hu. destruct (fill_holds user _ ws mt [] Hf) as (run & Hh & Hr & Hp); [by apply new_holds|split; constructor|done|done|]. exists run. split_and!; [done|done| |].
  - intros key snapshot Hsn. by apply mt_get_spec.
  - intros op ops Hop Hops. apply (cursor_simulation user (CursorLaws0 := MemTableIterLaws user) (CursorLaws1 := ListCursorLaws user) run run); try done. by apply sorted_uniq.
Qed.

Definition some_writes : list write := [(1%N, Put, [Byte.x62], [Byte.x01]); (2%N, Put, [Byte.x61], [Byte.x02]); (3%N, Delete, [Byte.x62], [])].
Lemma some_writes_uniq : uniq BytewiseComparator (write_entry <$> some_writes).
Proof.
  apply (uniq_distinct BytewiseComparator). repeat (constructor; [|repeat (constructor; [by vm_compute|]); constructor]). constructor.
Qed.
Lemma memtable_refines_witness : exists mt run, mt_fill BytewiseComparator (MemTable_with_seed 7) some_writes = Ok mt /\ run ≡ₚ write_entry <$> some_writes /\
  mt_get BytewiseComparator mt [Byte.x62] 2 = answer (newest (versions_of BytewiseComparator run [Byte.x62] 2)) /\
  mt_get BytewiseComparator mt [Byte.x62] 2 = Some (Found [Byte.x01] 1) /\ mt_get BytewiseComparator mt [Byte.x62] 3 = Some Deleted.
Proof.
  destruct (mt_fill BytewiseComparator (MemTable_with_seed 7) some_writes) as [mt|e] eqn:Ef; [|vm_compute in Ef; discriminate].
  destruct (memtable_refines BytewiseComparator 7 some_writes mt Ef) as (run & Hp & _ & Hget & _).
  - repeat constructor; by vm_compute.
  - apply some_writes_uniq.
  - exists mt, run. split; [reflexivity|]. split; [exact Hp|]. split; [apply Hget; vm_compute; discriminate|]. vm_compute in Ef. injection Ef as <-. split; vm_compute; reflexivity.
Defined.
