(* ===== verification/Block.v ===== *)
(** The block, the unit every table is built from (esker-engine/src/sst/block.rs):
    the builder with its prefix compression and restart points, the parser of
    the trailer and the cursor.  The cursor works on whatever bytes it is given;
    over a block the builder made it is a cursor over the entries added. *)

From stdpp Require Import prelude sorting.
From Stdlib Require Import NArith ZArith Lia.
From S2P Require Import Prelude Varint Endian DbFormat RangeDel Lsm Cursor.

Definition RESTART_ENTRY_SIZE : nat := 4.
Definition max_u32 : N := 4294967295.
Definition fits_u32 (n : nat) : bool := (N.of_nat n <=? max_u32)%N.

Inductive SstError := SstCorruption | SstInvalid | SstIo.

(** ** Building *)

Record BlockBuilder := mkBB {
  bb_restart_interval : nat;
  bb_buffer : bytes;
  bb_restarts : list N;
  bb_counter : nat;
  bb_last_key : bytes;
  bb_entries : nat;
  bb_finished : bool }.

Definition BlockBuilder_new (restart_interval : nat) : BlockBuilder := mkBB (Nat.max restart_interval 1) [] [0%N] 0 [] 0 false.

Fixpoint shared_prefix_len (a b : bytes) : nat :=
  match a, b with
  | x :: a, y :: b => if Byte.eqb x y then S (shared_prefix_len a b) else 0%nat
  | _, _ => 0%nat
  end.

Definition bb_add (key value : bytes) (b : BlockBuilder) : result SstError BlockBuilder :=
  if negb (fits_u32 (length key)) then Err SstInvalid else
  if negb (fits_u32 (length value)) then Err SstInvalid else
  let? group :=
    (if (bb_counter b <? bb_restart_interval b)%nat then Ok (bb_restarts b, bb_counter b, shared_prefix_len (bb_last_key b) key)
     else if fits_u32 (length (bb_buffer b)) then Ok (bb_restarts b ++ [N.of_nat (length (bb_buffer b))], 0%nat, 0%nat)
     else Err SstInvalid) in
  let '(restarts, counter, shared) := group in
  let buffer := put_u32 (N.of_nat shared) (bb_buffer b) in
  let buffer := put_u32 (N.of_nat (length key - shared)) buffer in
  let buffer := put_u32 (N.of_nat (length value)) buffer in
  Ok (mkBB (bb_restart_interval b) (buffer ++ drop shared key ++ value) restarts (counter + 1) key (bb_entries b + 1) (bb_finished b)).

Definition bb_size_estimate (b : BlockBuilder) : nat := (length (bb_buffer b) + (length (bb_restarts b) + 1) * RESTART_ENTRY_SIZE)%nat.
Definition bb_is_empty (b : BlockBuilder) : bool := (bb_entries b =? 0)%nat.
Definition bb_finish (b : BlockBuilder) : BlockBuilder :=
  let array := mjoin (le_bytes 4 <$> bb_restarts b) in
  let count := if fits_u32 (length (bb_restarts b)) then N.of_nat (length (bb_restarts b)) else max_u32 in
  mkBB (bb_restart_interval b) (bb_buffer b ++ array ++ le_bytes 4 count) (bb_restarts b) (bb_counter b) (bb_last_key b) (bb_entries b) true.
Definition bb_reset (b : BlockBuilder) : BlockBuilder := mkBB (bb_restart_interval b) [] [0%N] 0 [] 0 false.

(** ** Parsing *)

Record Block := mkBlock { blk_data : bytes; blk_restart_offset : nat; blk_num_restarts : nat }.

Definition read_u32 (data : bytes) (offset : nat) : N := le_value (take 4 (drop offset data)).
Definition slice (data : bytes) (from to : nat) : bytes := take (to - from) (drop from data).

Definition Block_new (data : bytes) : result SstError Block :=
  let len := length data in
  if (len <? RESTART_ENTRY_SIZE)%nat then Err SstCorruption else
  let num_restarts := N.to_nat (read_u32 data (len - RESTART_ENTRY_SIZE)) in
  if (num_restarts =? 0)%nat then Err SstCorruption else
  let array_bytes := (num_restarts * RESTART_ENTRY_SIZE + RESTART_ENTRY_SIZE)%nat in
  if (len <? array_bytes)%nat then Err SstCorruption else
  Ok (mkBlock data (len - array_bytes) num_restarts).

Record EntryHeader := mkHeader { eh_shared : nat; eh_key_delta : nat * nat; eh_value : nat * nat; eh_next : nat }.

(** ** The cursor *)

(** [bi_status]: whether corruption was met. *)
Record BlockIter := mkIter {
  bi_block : Block;
  bi_current : nat;
  bi_restart_index : nat;
  bi_key : bytes;
  bi_value : nat * nat;
  bi_status : bool }.

Definition blk_iter (b : Block) : BlockIter := mkIter b (blk_restart_offset b) (blk_num_restarts b) [] (0, 0)%nat false.

Section Iter.
Context (order : bytes -> bytes -> comparison).

Definition bi_limit (it : BlockIter) : nat := blk_restart_offset (bi_block it).
Definition bi_restarts (it : BlockIter) : nat := blk_num_restarts (bi_block it).
Definition bi_data (it : BlockIter) : bytes := blk_data (bi_block it).
Definition bi_valid (it : BlockIter) : bool := (bi_current it <? bi_limit it)%nat.
Definition bi_value_bytes (it : BlockIter) : bytes := slice (bi_data it) (bi_value it).1 (bi_value it).2.

Definition restart_point (b : Block) (index : nat) : nat := N.to_nat (read_u32 (blk_data b) (blk_restart_offset b + index * RESTART_ENTRY_SIZE)).
Definition invalidate (it : BlockIter) : BlockIter := mkIter (bi_block it) (bi_limit it) (bi_restarts it) [] (0, 0)%nat (bi_status it).
Definition bi_fail (it : BlockIter) : BlockIter := mkIter (bi_block it) (bi_limit it) (bi_restarts it) [] (0, 0)%nat true.

Definition decode_at (b : Block) (offset : nat) : option EntryHeader :=
  let limit := blk_restart_offset b in
  if (limit <? offset)%nat then None else
  let bytes := slice (blk_data b) offset limit in
  match get_u32 bytes with
  | Err _ => None
  | Ok (shared, n1) =>
      match get_u32 (drop n1 bytes) with
      | Err _ => None
      | Ok (non_shared, n2) =>
          match get_u32 (drop (n1 + n2) bytes) with
          | Err _ => None
          | Ok (value_len, n3) =>
              let key_start := (offset + (n1 + n2 + n3))%nat in
              let value_start := (key_start + N.to_nat non_shared)%nat in
              let next := (value_start + N.to_nat value_len)%nat in
              if (limit <? next)%nat then None else
              Some (mkHeader (N.to_nat shared) (key_start, value_start) (value_start, next) next)
          end
      end
  end.

Definition parse_current (it : BlockIter) : BlockIter * bool :=
  if (bi_limit it <=? bi_current it)%nat then (invalidate it, false) else
  match decode_at (bi_block it) (bi_current it) with
  | None => (bi_fail it, false)
  | Some header =>
      if (length (bi_key it) <? eh_shared header)%nat then (bi_fail it, false) else
      let delta := slice (bi_data it) (eh_key_delta header).1 (eh_key_delta header).2 in
      (mkIter (bi_block it) (bi_current it) (bi_restart_index it) (take (eh_shared header) (bi_key it) ++ delta) (eh_value header) (bi_status it), true)
  end.

Definition seek_to_restart (index : nat) (it : BlockIter) : BlockIter * bool :=
  if (bi_restarts it <=? index)%nat then (invalidate it, false) else
  let offset := restart_point (bi_block it) index in
  if (bi_limit it <? offset)%nat then (bi_fail it, false) else
  parse_current (mkIter (bi_block it) offset index [] (bi_value it) (bi_status it)).
Definition bi_seek_to_first (it : BlockIter) : BlockIter := (seek_to_restart 0 it).1.

(** The scans of [seek_to_last] and [prev]: on to the entry whose successor is
    at or past [target].  An entry takes at least a byte, so a scan ends within
    as many rounds as the block has bytes. *)
Fixpoint scan_to (fuel target : nat) (it : BlockIter) : BlockIter :=
  match fuel with
  | O => it
  | S fuel =>
      match decode_at (bi_block it) (bi_current it) with
      | None => bi_fail it
      | Some header =>
          if (target <=? eh_next header)%nat then it else
          match parse_current (mkIter (bi_block it) (eh_next header) (bi_restart_index it) (bi_key it) (bi_value it) (bi_status it)) with
          | (it, true) => scan_to fuel target it
          | (it, false) => it
          end
      end
  end.
Definition bi_rounds (it : BlockIter) : nat := S (bi_limit it).
Definition bi_seek_to_last (it : BlockIter) : BlockIter :=
  match seek_to_restart (bi_restarts it - 1) it with
  | (it, false) => it
  | (it, true) => scan_to (bi_rounds it) (bi_limit it) it
  end.

(** The group that holds [current], from group [index] on. *)
Fixpoint group_of (n index : nat) (b : Block) (current : nat) : nat :=
  match n with
  | O => index
  | S n => if (index + 1 <? blk_num_restarts b)%nat && (restart_point b (index + 1) <=? current)%nat then group_of n (index + 1) b current else index
  end.
Definition bi_next (it : BlockIter) : BlockIter :=
  if negb (bi_valid it) then it else
  match decode_at (bi_block it) (bi_current it) with
  | None => bi_fail it
  | Some header =>
      let index := group_of (bi_restarts it) (bi_restart_index it) (bi_block it) (eh_next header) in
      (parse_current (mkIter (bi_block it) (eh_next header) index (bi_key it) (bi_value it) (bi_status it))).1
  end.

(** The last group at or below [index] that starts before [target]. *)
Fixpoint group_before (index : nat) (b : Block) (target : nat) : nat :=
  match index with
  | O => 0%nat
  | S below => if (target <=? restart_point b index)%nat then group_before below b target else index
  end.
Definition bi_prev (it : BlockIter) : BlockIter :=
  if negb (bi_valid it) then it else
  let target := bi_current it in
  let index := group_before (bi_restart_index it) (bi_block it) target in
  if (target <=? restart_point (bi_block it) index)%nat then invalidate it else
  match seek_to_restart index it with
  | (it, false) => it
  | (it, true) => scan_to (bi_rounds it) target it
  end.

(** The binary search of [seek]: [None] on corruption. *)
Fixpoint search_restarts (fuel : nat) (b : Block) (target : bytes) (low high : nat) : option nat :=
  match fuel with
  | O => Some low
  | S fuel =>
      if negb (low + 1 <? high)%nat then Some low else
      let mid := (low + (high - low) / 2)%nat in
      let offset := restart_point b mid in
      if (blk_restart_offset b <? offset)%nat then None else
      match decode_at b offset with
      | None => None
      | Some header =>
          if decide (order (slice (blk_data b) (eh_key_delta header).1 (eh_key_delta header).2) target = Lt)
          then search_restarts fuel b target mid high else search_restarts fuel b target low mid
      end
  end.
Fixpoint scan_seek (fuel : nat) (target : bytes) (it : BlockIter) : BlockIter :=
  match fuel with
  | O => it
  | S fuel => if bi_valid it && bool_decide (order (bi_key it) target = Lt) then scan_seek fuel target (bi_next it) else it
  end.
Definition bi_seek (target : bytes) (it : BlockIter) : BlockIter :=
  match search_restarts (bi_restarts it) (bi_block it) target 0 (bi_restarts it) with
  | None => bi_fail it
  | Some low =>
      match seek_to_restart low it with
      | (it, false) => it
      | (it, true) => scan_seek (bi_rounds it) target it
      end
  end.
Definition bi_seek_for_prev (target : bytes) (it : BlockIter) : BlockIter :=
  let it := bi_seek target it in
  if bi_status it then it else
  if negb (bi_valid it) then
    let it := bi_seek_to_last it in
    if bi_valid it && bool_decide (order (bi_key it) target = Gt) then invalidate it else it
  else if decide (order (bi_key it) target = Gt) then bi_prev it else it.
End Iter.

(** ** What the builder writes *)

Record piece := mkPiece { pc_shared : nat; pc_entry : entry }.
Definition piece_bytes (p : piece) : bytes :=
  put_u32 (N.of_nat (pc_shared p)) [] ++ put_u32 (N.of_nat (length (pc_entry p).1 - pc_shared p)) [] ++ put_u32 (N.of_nat (length (pc_entry p).2)) [] ++
  drop (pc_shared p) (pc_entry p).1 ++ (pc_entry p).2.
Definition region (l : list piece) : bytes := mjoin (piece_bytes <$> l).
Definition place (l : list piece) (i : nat) : nat := length (region (take i l)).

(** Each key shares what it says with the key before it. *)
Fixpoint chained (before : bytes) (l : list piece) : Prop :=
  match l with
  | [] => True
  | p :: l =>
      (pc_shared p <= length before)%nat /\ take (pc_shared p) before = take (pc_shared p) (pc_entry p).1 /\ (pc_shared p <= length (pc_entry p).1)%nat /\
      fits_u32 (length (pc_entry p).1) = true /\ fits_u32 (length (pc_entry p).2) = true /\ chained (pc_entry p).1 l
  end.

Lemma get_put_len n rest : fits_u32 n = true -> get_u32 (put_u32 (N.of_nat n) [] ++ rest) = Ok (N.of_nat n, length (put_u32 (N.of_nat n) [])).
Proof.
  intros Hn%N.leb_le. unfold max_u32 in Hn. unfold get_u32, put_u32. assert (N.of_nat n < two64)%N by (unfold two64; lia). rewrite get_put_u64 by done. cbn [rbind].
  rewrite (proj2 (N.ltb_lt _ _)) by lia. by rewrite put_u64_length.
Qed.
Lemma fits_iff n : fits_u32 n = true <-> (N.of_nat n <= 4294967295)%N.
Proof. apply N.leb_le. Qed.
Lemma fits_le n m : (m <= n)%nat -> fits_u32 n = true -> fits_u32 m = true.
Proof. unfold fits_u32. rewrite !N.leb_le. lia. Qed.

Lemma region_app l l' : region (l ++ l') = region l ++ region l'.
Proof. unfold region. by rewrite fmap_app, join_app. Qed.
Lemma region_split l i p : l !! i = Some p -> region l = region (take i l) ++ piece_bytes p ++ region (drop (S i) l).
Proof. intros Hi. rewrite <- (take_drop_middle l i p Hi) at 1. by rewrite region_app. Qed.
Lemma place_S l i p : l !! i = Some p -> place l (S i) = (place l i + length (piece_bytes p))%nat.
Proof. intros Hi. unfold place. rewrite (take_S_r _ _ _ Hi), region_app, length_app. unfold region at 2. cbn. by rewrite app_nil_r. Qed.
Lemma piece_pos p : (3 <= length (piece_bytes p))%nat.
Proof.
  unfold piece_bytes, put_u32. rewrite !length_app. assert (forall v, 1 <= length (put_u64 v []))%nat as H by (intros v; pose proof (put_u64_nonempty v); destruct (put_u64 v []); [done|cbn; lia]).
  pose proof (H (N.of_nat (pc_shared p))). pose proof (H (N.of_nat (length (pc_entry p).1 - pc_shared p))). pose proof (H (N.of_nat (length (pc_entry p).2))). lia.
Qed.
Lemma place_lt l i j : (i < j)%nat -> (j <= length l)%nat -> (place l i < place l j)%nat.
Proof.
  intros Hij Hj. induction j as [|j IH]; [lia|]. destruct (lookup_lt_is_Some_2 l j ltac:(lia)) as [p Hp]. rewrite (place_S l j p Hp). pose proof (piece_pos p).
  destruct (decide (i = j)) as [->|]; [lia|]. specialize (IH ltac:(lia) ltac:(lia)). lia.
Qed.
Lemma place_all l i : (length l <= i)%nat -> place l i = length (region l).
Proof. intros Hi. unfold place. by rewrite take_ge. Qed.
Lemma place_le l i j : (i <= j)%nat -> (j <= length l)%nat -> (place l i <= place l j)%nat.
Proof. intros Hij Hj. destruct (decide (i = j)) as [->|]; [done|]. pose proof (place_lt l i j). lia. Qed.
Lemma place_inj l i j : (i <= length l)%nat -> (j <= length l)%nat -> place l i = place l j -> i = j.
Proof. intros Hi Hj E. destruct (Nat.lt_trichotomy i j) as [H|[H|H]]; [|done|]; pose proof (place_lt l _ _ H); lia. Qed.
Lemma place_end l i : (i < length l)%nat -> (place l i < length (region l))%nat.
Proof. intros Hi. rewrite <- (place_all l (length l)) by done. by apply place_lt. Qed.

Lemma chained_lookup before l i p : chained before l -> l !! i = Some p ->
  let key := match i with O => before | S j => from_option (fun q => (pc_entry q).1) [] (l !! j) end in
  (pc_shared p <= length key)%nat /\ take (pc_shared p) key = take (pc_shared p) (pc_entry p).1 /\ (pc_shared p <= length (pc_entry p).1)%nat /\
  fits_u32 (length (pc_entry p).1) = true /\ fits_u32 (length (pc_entry p).2) = true.
Proof.
  revert before i. induction l as [|q l IH]; intros before i; [done|]. cbn. intros (H1 & H2 & H3 & H4 & H5 & Hc) Hi. destruct i as [|i]; cbn in *; [by simplify_eq|].
  specialize (IH (pc_entry q).1 i Hc Hi). destruct i; [done|exact IH].
Qed.

(** A block holds the pieces: their bytes, then the restart array with the
    places of the pieces [starts] counts. *)
Record block_holds (b : Block) (l : list piece) (starts : list nat) : Prop := {
  bh_data : take (blk_restart_offset b) (blk_data b) = region l;
  bh_limit : blk_restart_offset b = length (region l);
  bh_chained : chained [] l;
  bh_num : blk_num_restarts b = length starts;
  bh_first : head starts = Some 0%nat;
  bh_sorted : StronglySorted lt starts;
  bh_point g i : starts !! g = Some i -> restart_point b g = place l i;
  bh_start g i : starts !! g = Some i -> (i < length l)%nat \/ (i = 0%nat /\ l = []);
  bh_whole g i p : starts !! g = Some i -> l !! i = Some p -> pc_shared p = 0%nat }.

Section Holds.
Context (b : Block) (l : list piece) (starts : list nat) (Hb : block_holds b l starts).

Lemma slice_region i p from to : l !! i = Some p -> (to <= length (piece_bytes p))%nat ->
  slice (blk_data b) (place l i + from) (place l i + to) = slice (piece_bytes p) from to.
Proof using Hb.
  intros Hi Hto. unfold slice. replace (place l i + to - (place l i + from))%nat with (to - from)%nat by lia. destruct (decide (to <= from)%nat); [by replace (to - from)%nat with 0%nat by lia|].
  pose proof (bh_data _ _ _ Hb) as Hd. rewrite (region_split l i p Hi) in Hd. fold (place l i) in *. rewrite <- (take_drop (blk_restart_offset b) (blk_data b)), Hd, <- !app_assoc.
  unfold place. rewrite drop_app_add, drop_app_le by lia. apply take_app_le. rewrite length_drop. lia.
Qed.
Lemma slice_tail i p : l !! i = Some p -> slice (blk_data b) (place l i) (blk_restart_offset b) = piece_bytes p ++ region (drop (S i) l).
Proof using Hb.
  intros Hi. pose proof (bh_data _ _ _ Hb) as Hd. unfold slice. rewrite <- skipn_firstn_comm, Hd, (region_split l i p Hi). unfold place. by rewrite drop_app_length.
Qed.
Lemma header_length p : (pc_shared p <= length (pc_entry p).1)%nat ->
  length (piece_bytes p) = (length (put_u32 (N.of_nat (pc_shared p)) []) + (length (put_u32 (N.of_nat (length (pc_entry p).1 - pc_shared p)) []) + length (put_u32 (N.of_nat (length (pc_entry p).2)) []))
    + (length (pc_entry p).1 - pc_shared p) + length (pc_entry p).2)%nat.
Proof using. intros H. unfold piece_bytes. rewrite !length_app, length_drop. lia. Qed.
(** The header of a piece, read back. *)
Lemma decode_piece i p : l !! i = Some p -> exists h, decode_at b (place l i) = Some h /\ eh_shared h = pc_shared p /\ eh_next h = place l (S i) /\
  slice (blk_data b) (eh_key_delta h).1 (eh_key_delta h).2 = drop (pc_shared p) (pc_entry p).1 /\ slice (blk_data b) (eh_value h).1 (eh_value h).2 = (pc_entry p).2.
Proof using Hb.
  intros Hi. destruct (chained_lookup [] l i p (bh_chained _ _ _ Hb) Hi) as (_ & _ & Hs & Hk & Hv). unfold decode_at. cbv zeta. pose proof (bh_limit _ _ _ Hb) as Hlim.
  pose proof (place_end l i (lookup_lt_Some _ _ _ Hi)). rewrite (proj2 (Nat.ltb_ge _ _)) by lia. rewrite (slice_tail i p Hi). unfold piece_bytes at 1 2 3.
  set (a := put_u32 (N.of_nat (pc_shared p)) []). set (c := put_u32 (N.of_nat (length (pc_entry p).1 - pc_shared p)) []). set (d := put_u32 (N.of_nat (length (pc_entry p).2)) []).
  rewrite <- !app_assoc. rewrite (get_put_len (pc_shared p)) by by eapply fits_le. fold a. rewrite drop_app_length, (get_put_len (length (pc_entry p).1 - pc_shared p)) by (eapply fits_le; [|exact Hk]; lia). fold c.
  rewrite drop_app_add, drop_app_length, (get_put_len (length (pc_entry p).2)) by done. fold d. rewrite !Nat2N.id. pose proof (header_length p Hs) as Hlen. fold a c d in Hlen.
  assert (place l i + (length a + length c + length d) + (length (pc_entry p).1 - pc_shared p) + length (pc_entry p).2 = place l (S i))%nat as Hnext by (rewrite (place_S l i p Hi); lia).
  rewrite Hnext. assert (place l (S i) <= blk_restart_offset b)%nat by (rewrite (bh_limit _ _ _ Hb), <- (place_all l (length l)) by done; apply place_le; [apply lookup_lt_Some in Hi; lia|done]).
  rewrite (proj2 (Nat.ltb_ge _ _)) by done. eexists. split; [reflexivity|]. cbn [eh_shared eh_next eh_key_delta eh_value fst snd]. split_and!; [done|done| |].
  - rewrite <- (Nat.add_assoc (place l i)), (slice_region i p) by (done || lia). unfold slice, piece_bytes. fold a c d. rewrite !app_assoc. rewrite <- (app_assoc ((a ++ c) ++ d)).
    replace (length a + length c + length d)%nat with (length ((a ++ c) ++ d)) by (rewrite !length_app; lia). rewrite drop_app_length. apply take_app_length'. rewrite length_drop. lia.
  - rewrite <- Hnext, <- !(Nat.add_assoc (place l i)), (slice_region i p) by (done || lia). unfold slice, piece_bytes. fold a c d. rewrite !app_assoc.
    rewrite drop_app_length' by (rewrite !length_app, length_drop; lia). apply take_ge. lia.
Qed.

(** Standing on piece [i], in restart group [g]. *)
Definition group_holds (g i : nat) : Prop :=
  (exists start, starts !! g = Some start /\ (start <= i)%nat) /\ forall g' start, starts !! g' = Some start -> (g < g')%nat -> (i < start)%nat.
Definition stands (i g : nat) (p : piece) (it : BlockIter) : Prop :=
  exists v, it = mkIter b (place l i) g (pc_entry p).1 v false /\ l !! i = Some p /\ slice (blk_data b) v.1 v.2 = (pc_entry p).2.
Definition on_piece (i : nat) (it : BlockIter) : Prop := exists g p, stands i g p it /\ group_holds g i.
Definition off_block : BlockIter := mkIter b (blk_restart_offset b) (blk_num_restarts b) [] (0, 0)%nat false.

Lemma stands_valid i g p it : stands i g p it -> bi_valid it = true.
Proof using Hb. intros (v & -> & Hi & _). unfold bi_valid, bi_limit. cbn. rewrite (bh_limit _ _ _ Hb). apply Nat.ltb_lt, place_end. by eapply lookup_lt_Some. Qed.

Lemma parse_on i g p key v : l !! i = Some p -> (pc_shared p <= length key)%nat -> take (pc_shared p) key = take (pc_shared p) (pc_entry p).1 ->
  exists it, parse_current (mkIter b (place l i) g key v false) = (it, true) /\ stands i g p it.
Proof using Hb.
  intros Hi Hlen Htake. destruct (decode_piece i p Hi) as (h & Hd & Hs & _ & Hk & Hv). unfold parse_current, bi_limit, bi_data. cbn [bi_block bi_current bi_key bi_restart_index bi_status].
  pose proof (place_end l i (lookup_lt_Some _ _ _ Hi)). rewrite (bh_limit _ _ _ Hb), (proj2 (Nat.leb_gt _ _)), Hd, Hs, (proj2 (Nat.ltb_ge _ _)), Hk, Htake, take_drop by done. eexists. split; [reflexivity|]. by exists (eh_value h).
Qed.
Lemma parse_end g key v : parse_current (mkIter b (blk_restart_offset b) g key v false) = (off_block, false).
Proof using. unfold parse_current, bi_limit. cbn [bi_block bi_current]. by rewrite Nat.leb_refl. Qed.
(** The piece after one the cursor stands on continues its key. *)
Lemma parse_next i g p v : l !! i = Some p -> (S i < length l)%nat -> exists q it,
  parse_current (mkIter b (place l (S i)) g (pc_entry p).1 v false) = (it, true) /\ stands (S i) g q it.
Proof using Hb.
  intros Hi Hlt. destruct (lookup_lt_is_Some_2 l (S i) Hlt) as [q Hq]. destruct (chained_lookup [] l (S i) q (bh_chained _ _ _ Hb) Hq) as (H1 & H2 & _). cbn in H1, H2. rewrite Hi in H1, H2. cbn in H1, H2.
  destruct (parse_on (S i) g q (pc_entry p).1 v Hq H1 H2) as (it & ? & ?). by exists q, it.
Qed.

Lemma starts_lt g g' i i' : starts !! g = Some i -> starts !! g' = Some i' -> (g < g')%nat -> (i < i')%nat.
Proof using Hb.
  intros Hg Hg' Hlt. pose proof (bh_sorted _ _ _ Hb) as Hs. rewrite <- (take_drop_middle _ _ _ Hg) in Hs. apply StronglySorted_app_1_r, StronglySorted_inv in Hs as [_ Hs]. rewrite Forall_forall in Hs.
  apply Hs. apply list_elem_of_lookup. exists (g' - S g)%nat. rewrite lookup_drop. by replace (S g + (g' - S g))%nat with g' by lia.
Qed.
Lemma start_group g i : starts !! g = Some i -> group_holds g i.
Proof using Hb. intros Hg. split; [by exists i|]. intros g' i' Hg' Hlt. by eapply starts_lt. Qed.
Lemma start_le g i : starts !! g = Some i -> (place l i <= blk_restart_offset b)%nat.
Proof using Hb. intros Hg. rewrite (bh_limit _ _ _ Hb), <- (place_all l (length l)) by done. apply place_le; [|done]. destruct (bh_start _ _ _ Hb g i Hg) as [|[-> _]]; lia. Qed.

Lemma restart_on g i p it : bi_block it = b -> bi_status it = false -> starts !! g = Some i -> l !! i = Some p -> exists it', seek_to_restart g it = (it', true) /\ stands i g p it'.
Proof using Hb.
  intros Hblk Hst Hg Hi. unfold seek_to_restart, bi_restarts, bi_limit. rewrite Hblk, Hst, (bh_num _ _ _ Hb), (proj2 (Nat.leb_gt _ _)) by by eapply lookup_lt_Some. rewrite (bh_point _ _ _ Hb g i Hg).
  pose proof (start_le g i Hg). rewrite (proj2 (Nat.ltb_ge _ _)) by done. apply parse_on; [done|..]; by rewrite (bh_whole _ _ _ Hb g i p Hg Hi); cbn; (lia || rewrite take_0).
Qed.
Lemma restart_none g it : bi_block it = b -> bi_status it = false -> l = [] -> (g < length starts)%nat -> seek_to_restart g it = (off_block, false).
Proof using Hb.
  intros Hblk Hst Hl Hlt. destruct (lookup_lt_is_Some_2 starts g Hlt) as [i Hg]. unfold seek_to_restart, bi_restarts, bi_limit. rewrite Hblk, Hst, (bh_num _ _ _ Hb), (proj2 (Nat.leb_gt _ _)) by done. rewrite (bh_point _ _ _ Hb g i Hg).
  destruct (bh_start _ _ _ Hb g i Hg) as [Hi|[-> _]]; [rewrite Hl in Hi; cbn in Hi; lia|]. pose proof (bh_limit _ _ _ Hb) as Hlim. rewrite Hl in Hlim. cbn in Hlim. unfold place. rewrite take_0. cbn [region fmap list_fmap mjoin list_join length].
  rewrite (proj2 (Nat.ltb_ge _ _)) by lia. rewrite <- Hlim. apply parse_end.
Qed.
Lemma starts_nonempty : (0 < length starts)%nat.
Proof using Hb. pose proof (bh_first _ _ _ Hb). destruct starts; [done|cbn; lia]. Qed.
Lemma starts_zero : starts !! 0%nat = Some 0%nat.
Proof using Hb. pose proof (bh_first _ _ _ Hb). by destruct starts. Qed.

(** A scan stops on the piece before the one at [target]. *)
Lemma scan_on fuel i j g p it : stands i g p it -> (i < j)%nat -> (j <= length l)%nat -> (j - i <= fuel)%nat ->
  exists q, stands (j - 1) g q (scan_to fuel (place l j) it).
Proof using Hb.
  revert i p it. induction fuel as [|fuel IH]; intros i p it Hst Hij Hj Hfuel; [lia|]. pose proof Hst as (v & -> & Hi & Hv). destruct (decode_piece i p Hi) as (h & Hd & _ & Hn & _). cbn [scan_to bi_block bi_current bi_restart_index bi_key bi_value bi_status]. rewrite Hd, Hn.
  destruct (Nat.leb_spec (place l j) (place l (S i))) as [Hle|Hgt].
  - assert (j = S i) as ->. { destruct (decide (S i < j)%nat); [|lia]. pose proof (place_lt l (S i) j). lia. } exists p. replace (S i - 1)%nat with i by lia. exact Hst.
  - assert (S i < j)%nat as Hij'. { destruct (decide (S i = j)) as [<-|]; lia. }
    destruct (parse_next i g p v Hi ltac:(lia)) as (q & it' & -> & Hq). destruct (IH (S i) q it' Hq Hij' Hj ltac:(lia)) as (r & Hr). by exists r.
Qed.

Lemma group_of_spec n g current i : (exists start, starts !! g = Some start /\ (start <= i)%nat) -> current = place l i -> (i <= length l)%nat -> (length starts - g <= n)%nat ->
  group_holds (group_of n g b current) i.
Proof using Hb.
  intros Hg -> Hi. revert g Hg. induction n as [|n IH]; intros g (start & Hg & Hle) Hn; [apply lookup_lt_Some in Hg; lia|]. cbn [group_of]. rewrite (bh_num _ _ _ Hb).
  destruct (Nat.ltb_spec (g + 1) (length starts)) as [Hlt|Hge]; cbn [andb].
  2: { split; [by exists start|]. intros g' i' Hg' ?. apply lookup_lt_Some in Hg'. lia. }
  destruct (lookup_lt_is_Some_2 starts (g + 1) Hlt) as [s' Hs']. rewrite (bh_point _ _ _ Hb _ _ Hs').
  assert (s' <= length l)%nat as Hsl by (destruct (bh_start _ _ _ Hb _ _ Hs') as [|[-> _]]; lia). destruct (Nat.leb_spec (place l s') (place l i)) as [Hp|Hp].
  - apply IH; [|lia]. exists s'. split; [done|]. destruct (decide (s' <= i)%nat); [done|]. pose proof (place_lt l i s'). lia.
  - split; [by exists start|]. intros g' i' Hg' Hgt. assert (i < s')%nat by (destruct (decide (i < s')%nat); [done|]; pose proof (place_le l s' i); lia).
    destruct (decide (g' = g + 1)%nat) as [->|]; [by simplify_eq|]. pose proof (starts_lt (g + 1) g' s' i' Hs' Hg'). lia.
Qed.

Lemma next_on i it : on_piece i it -> if (S i <? length l)%nat then on_piece (S i) (bi_next it) else bi_next it = off_block.
Proof using Hb.
  intros (g & p & Hst & Hg). unfold bi_next. rewrite (stands_valid i g p it Hst). cbn [negb]. destruct Hst as (v & -> & Hi & Hv). cbn [bi_block bi_current bi_restart_index bi_key bi_value bi_status].
  destruct (decode_piece i p Hi) as (h & -> & _ & -> & _). assert (i < length l)%nat as Hlt by by eapply lookup_lt_Some.
  assert (group_holds (group_of (bi_restarts (mkIter b (place l i) g (pc_entry p).1 v false)) g b (place l (S i))) (S i)) as Hg'.
  { apply group_of_spec; [|done|done|]. { destruct Hg as [(start & ? & ?) _]. exists start. split; [done|lia]. } unfold bi_restarts. cbn. rewrite (bh_num _ _ _ Hb). lia. }
  destruct (Nat.ltb_spec (S i) (length l)) as [Hn|Hn].
  - destruct (parse_next i (group_of (bi_restarts (mkIter b (place l i) g (pc_entry p).1 v false)) g b (place l (S i))) p v Hi Hn) as (q & it' & -> & Hq). by eexists _, q.
  - rewrite (place_all l (S i)), <- (bh_limit _ _ _ Hb) by lia. by rewrite parse_end.
Qed.

Lemma group_before_spec g i : (exists start, starts !! g = Some start) -> (forall g' start, starts !! g' = Some start -> (g < g')%nat -> (i <= start)%nat) -> (0 < i <= length l)%nat ->
  exists start, starts !! group_before g b (place l i) = Some start /\ (start < i)%nat /\
    forall g' start', starts !! g' = Some start' -> (group_before g b (place l i) < g')%nat -> (i <= start')%nat.
Proof using Hb.
  intros Hg Hab Hi. induction g as [|g IH]; cbn [group_before].
  { exists 0%nat. rewrite starts_zero. split_and!; [done|lia|done]. }
  destruct Hg as [start Hg]. rewrite (bh_point _ _ _ Hb _ _ Hg). assert (start <= length l)%nat as Hsl by (destruct (bh_start _ _ _ Hb _ _ Hg) as [|[-> _]]; lia).
  destruct (Nat.leb_spec (place l i) (place l start)) as [Hp|Hp].
  - apply IH; [apply lookup_lt_is_Some_2; apply lookup_lt_Some in Hg; lia|]. intros g' s' Hg' Hlt. destruct (decide (g' = S g)) as [->|]; [|by apply (Hab g'); [|lia]]. simplify_eq.
    destruct (decide (i <= start)%nat); [done|]. pose proof (place_lt l start i). lia.
  - exists start. split_and!; [done| |done]. destruct (decide (start < i)%nat); [done|]. pose proof (place_le l i start). lia.
Qed.

Lemma place_ge i : (i <= length l)%nat -> (i <= place l i)%nat.
Proof using. induction i as [|i IH]; intros Hi; [lia|]. destruct (lookup_lt_is_Some_2 l i ltac:(lia)) as [p Hp]. rewrite (place_S l i p Hp). pose proof (piece_pos p). specialize (IH ltac:(lia)). lia. Qed.
Lemma enough i j it : bi_block it = b -> (j <= length l)%nat -> (j - i <= bi_rounds it)%nat.
Proof using Hb. intros Hblk Hj. unfold bi_rounds, bi_limit. rewrite Hblk, (bh_limit _ _ _ Hb), <- (place_all l (length l)) by done. pose proof (place_ge (length l) ltac:(done)). lia. Qed.

Lemma prev_on i it : on_piece i it -> match i with O => bi_prev it = off_block | S i => on_piece i (bi_prev it) end.
Proof using Hb.
  intros (g & p & Hst & (start & Hg & Hle) & Hab). unfold bi_prev. rewrite (stands_valid i g p it Hst). cbn [negb]. destruct Hst as (v & -> & Hi & Hv). cbn [bi_block bi_current bi_restart_index].
  assert (i < length l)%nat as Hlt by by eapply lookup_lt_Some. destruct i as [|i].
  - destruct g as [|g]; [|pose proof (starts_lt 0 (S g) 0 start starts_zero Hg); lia]. cbn [group_before]. rewrite (bh_point _ _ _ Hb _ _ starts_zero). by rewrite Nat.leb_refl.
  - destruct (group_before_spec g (S i)) as (s0 & Hg0 & Hs0 & Hab0); [by exists start|intros g' s' Hg' Hgt; specialize (Hab g' s' Hg' Hgt); lia|lia|]. set (g0 := group_before _ _ _) in *.
    rewrite (bh_point _ _ _ Hb _ _ Hg0). pose proof (place_lt l s0 (S i)). rewrite (proj2 (Nat.leb_gt _ _)) by lia.
    destruct (lookup_lt_is_Some_2 l s0 ltac:(lia)) as [q Hq]. destruct (restart_on g0 s0 q (mkIter b (place l (S i)) g (pc_entry p).1 v false) eq_refl eq_refl Hg0 Hq) as (it' & -> & Hst').
    destruct (scan_on (bi_rounds it') s0 (S i) g0 q it' Hst' ltac:(lia) ltac:(lia)) as (r & Hr). { destruct Hst' as (? & -> & _). by apply enough; [|lia]. }
    replace (S i - 1)%nat with i in Hr by lia. exists g0, r. split; [done|]. split; [exists s0; split; [done|lia]|]. intros g' s' Hg' Hgt. specialize (Hab0 g' s' Hg' Hgt). lia.
Qed.

Definition at_block (it : BlockIter) : Prop := bi_block it = b /\ bi_status it = false.
Lemma first_on it : at_block it -> if decide (l = []) then bi_seek_to_first it = off_block else on_piece 0 (bi_seek_to_first it).
Proof using Hb.
  intros [Hblk Hst]. unfold bi_seek_to_first. case_decide as Hl; [by rewrite (restart_none 0 it Hblk Hst Hl starts_nonempty)|].
  destruct (lookup_lt_is_Some_2 l 0) as [p Hp]; [by destruct l; [|apply Nat.lt_0_succ]|]. destruct (restart_on 0 0 p it Hblk Hst starts_zero Hp) as (it' & -> & Hs). exists 0%nat, p. split; [done|]. apply start_group, starts_zero.
Qed.
Lemma last_on it : at_block it -> if decide (l = []) then bi_seek_to_last it = off_block else on_piece (length l - 1) (bi_seek_to_last it).
Proof using Hb.
  intros [Hblk Hst]. unfold bi_seek_to_last, bi_restarts. rewrite Hblk, (bh_num _ _ _ Hb). pose proof starts_nonempty. case_decide as Hl; [by rewrite (restart_none (length starts - 1) it Hblk Hst Hl ltac:(lia))|].
  destruct (lookup_lt_is_Some_2 starts (length starts - 1) ltac:(lia)) as [i Hg]. destruct (bh_start _ _ _ Hb _ _ Hg) as [Hi|[_ ?]]; [|done]. destruct (lookup_lt_is_Some_2 l i Hi) as [p Hp].
  destruct (restart_on _ i p it Hblk Hst Hg Hp) as (it' & -> & Hs). assert (bi_limit it' = place l (length l)) as -> by (destruct Hs as (? & -> & _); unfold bi_limit; cbn; rewrite place_all by done; apply Hb).
  destruct (scan_on (bi_rounds it') i (length l) _ p it' Hs ltac:(lia) ltac:(lia)) as (q & Hq). { destruct Hs as (? & -> & _). by apply enough. }
  eexists _, q. split; [exact Hq|]. split; [exists i; split; [done|lia]|]. intros g' s' Hg' Hgt. apply lookup_lt_Some in Hg'. lia.
Qed.

(** *** Seeking *)

Context (order : bytes -> bytes -> comparison) (target : bytes).
Definition is_below (i : nat) : Prop := exists p, l !! i = Some p /\ order (pc_entry p).1 target = Lt.
Context (Hdown : forall i j, (i <= j)%nat -> is_below j -> is_below i).

Lemma search_restarts_spec fuel low high : (low < high <= length starts)%nat -> (high - low <= S fuel)%nat -> (low = 0%nat \/ exists i, starts !! low = Some i /\ is_below i) ->
  exists low', search_restarts order fuel b target low high = Some low' /\ (low' < length starts)%nat /\ (low' = 0%nat \/ exists i, starts !! low' = Some i /\ is_below i).
Proof using Hb.
  revert low high. induction fuel as [|fuel IH]; intros low high Hlh Hf Hlow; cbn [search_restarts]; [exists low; split; [done|split; [lia|done]]|].
  destruct (Nat.ltb_spec (low + 1) high) as [Hlt|Hge]; cbn [negb]; [|exists low; split; [done|split; [lia|done]]].
  set (mid := (low + (high - low) / 2)%nat). assert (low < mid < high)%nat as Hmid by (unfold mid; pose proof (Nat.div_lt (high - low) 2); pose proof (Nat.div_le_lower_bound (high - low) 2 1); lia). clearbody mid.
  destruct (lookup_lt_is_Some_2 starts mid ltac:(lia)) as [i Hg]. rewrite (bh_point _ _ _ Hb _ _ Hg). pose proof (start_le mid i Hg). rewrite (proj2 (Nat.ltb_ge _ _)) by done.
  destruct (bh_start _ _ _ Hb _ _ Hg) as [Hi|[-> _]]; [|pose proof (starts_lt 0 mid 0 0 starts_zero Hg); lia]. destruct (lookup_lt_is_Some_2 l i Hi) as [p Hp].
  destruct (decode_piece i p Hp) as (h & -> & _ & _ & Hk & _). rewrite Hk, (bh_whole _ _ _ Hb _ _ _ Hg Hp), drop_0. case_decide as Hlt'.
  - apply IH; [lia..|]. right. exists i. split; [done|]. by exists p.
  - apply IH; [lia..|done].
Qed.

Lemma on_key i it : on_piece i it -> exists p, l !! i = Some p /\ bi_key it = (pc_entry p).1 /\ bi_value_bytes it = (pc_entry p).2 /\ bi_valid it = true /\ at_block it.
Proof using Hb. intros (g & p & Hs & _). exists p. rewrite (stands_valid _ _ _ _ Hs). destruct Hs as (v & -> & Hi & Hv). done. Qed.
Definition lands (k : nat) (it : BlockIter) : Prop := if (k <? length l)%nat then on_piece k it else it = off_block.
Lemma off_invalid : bi_valid off_block = false.
Proof using. unfold bi_valid, bi_limit. cbn. apply Nat.ltb_irrefl. Qed.

Lemma scan_seek_spec fuel i it : lands i it -> (i <= length l)%nat -> (length l - i < fuel)%nat ->
  exists k, (i <= k <= length l)%nat /\ (forall j, (i <= j < k)%nat -> is_below j) /\ ~ is_below k /\ lands k (scan_seek order fuel target it).
Proof using Hb.
  revert i it. induction fuel as [|fuel IH]; intros i it Hon Hi Hf; [lia|]. cbn [scan_seek]. unfold lands in Hon. destruct (Nat.ltb_spec i (length l)) as [Hlt|Hge].
  - destruct (on_key i it Hon) as (p & Hp & -> & _ & -> & _). cbn [andb]. case_bool_decide as Ho.
    + destruct (IH (S i) (bi_next it)) as (k & Hk & Hbel & Hn & Hl); [unfold lands; by apply next_on|lia|lia|]. exists k. split_and!; [lia|lia| |done|done].
      intros j Hj. destruct (decide (j = i)) as [->|]; [by exists p|apply Hbel; lia].
    + exists i. split_and!; [lia|lia|intros; lia| |unfold lands; by rewrite (proj2 (Nat.ltb_lt _ _))]. intros (q & Hq & ?). by simplify_eq.
  - subst it. rewrite off_invalid. cbn [andb]. exists i. split_and!; [lia|lia|intros; lia| |unfold lands; by rewrite (proj2 (Nat.ltb_ge _ _))]. intros (q & Hq%lookup_lt_Some & _). lia.
Qed.

Lemma seek_on it : at_block it -> exists k, (k <= length l)%nat /\ (forall j, (j < k)%nat -> is_below j) /\ ~ is_below k /\ lands k (bi_seek order target it).
Proof using All.
  intros [Hblk Hst]. unfold bi_seek, bi_restarts. rewrite Hblk, (bh_num _ _ _ Hb). pose proof starts_nonempty.
  destruct (search_restarts_spec (length starts) 0 (length starts)) as (low & -> & Hlow & Hbel); [lia|lia|by left|]. destruct (lookup_lt_is_Some_2 starts low Hlow) as [i Hg].
  destruct (decide (l = [])) as [Hl|Hl].
  { rewrite (restart_none low it Hblk Hst Hl Hlow). exists 0%nat. rewrite Hl. split_and!; [done|intros; lia| |unfold lands; by rewrite Hl]. intros (p & Hp & _). by rewrite Hl in Hp. }
  destruct (bh_start _ _ _ Hb _ _ Hg) as [Hi|[_ ?]]; [|done]. destruct (lookup_lt_is_Some_2 l i Hi) as [p Hp]. destruct (restart_on low i p it Hblk Hst Hg Hp) as (it' & -> & Hs).
  destruct (scan_seek_spec (bi_rounds it') i it') as (k & Hk & Hjs & Hn & Hl'); [unfold lands; rewrite (proj2 (Nat.ltb_lt _ _)) by done; exists low, p; split; [done|by apply start_group]|lia| |].
  { destruct Hs as (? & -> & _). unfold bi_rounds, bi_limit. cbn. rewrite (bh_limit _ _ _ Hb), <- (place_all l (length l)) by done. pose proof (place_ge (length l) ltac:(done)). lia. }
  exists k. split_and!; [lia| |done|done]. intros j Hj. destruct (decide (i <= j)%nat); [apply Hjs; lia|].
  destruct Hbel as [->|(i' & Hi' & Hbel)]; [rewrite starts_zero in Hg; simplify_eq; lia|]. simplify_eq. apply (Hdown j i'); [lia|done].
Qed.
End Holds.

(** ** A cursor over the entries *)

Lemma rposition_is {A} (f : A -> bool) l i x : l !! i = Some x -> f x = true -> (forall j y, l !! j = Some y -> (i < j)%nat -> f y = false) -> rposition f l = Some i.
Proof.
  intros Hi Hx Hab. pose proof (rposition_spec f l) as Hr. destruct (rposition f l) as [k|]; [|by rewrite (Hr i x Hi) in Hx]. destruct Hr as [(y & Hy & Hfy) Hr].
  destruct (Nat.lt_trichotomy i k) as [H|[->|H]]; [by rewrite (Hab k y Hy H) in Hfy|done|by rewrite (Hr i x Hi H) in Hx].
Qed.
Lemma rposition_no {A} (f : A -> bool) l : (forall j y, l !! j = Some y -> f y = false) -> rposition f l = None.
Proof. intros Hn. pose proof (rposition_spec f l) as Hr. destruct (rposition f l) as [k|]; [|done]. destruct Hr as [(y & Hy & Hfy) _]. by rewrite (Hn k y Hy) in Hfy. Qed.

Section BlockCursor.
Context (user : Comparator) `{!ComparatorLaws user}.

#[local] Instance BlockIterOps : Cursor BlockIter := {
  cur_valid := bi_valid;
  cur_key := bi_key;
  cur_value := bi_value_bytes;
  cur_seek := bi_seek (internal_cmp user);
  cur_seek_for_prev := bi_seek_for_prev (internal_cmp user);
  cur_seek_to_first := bi_seek_to_first;
  cur_seek_to_last := bi_seek_to_last;
  cur_next := bi_next;
  cur_prev := bi_prev;
  cur_error := bi_status }.

Definition bi_follows (it : BlockIter) (lc : ListCursor) : Prop :=
  exists b l starts, block_holds b l starts /\ run_sorted user (pc_entry <$> l) /\ lc_entries lc = pc_entry <$> l /\
    match lc_position lc with Some i => on_piece b l starts i it | None => it = off_block b end.

Lemma follows_at it lc : bi_follows it lc -> exists b l starts, block_holds b l starts /\ run_sorted user (pc_entry <$> l) /\ lc_entries lc = pc_entry <$> l /\ at_block b it.
Proof using.
  intros (b & l & starts & Hb & Hr & He & Hp). exists b, l, starts. split_and!; [done..|]. destruct (lc_position lc) as [i|]; [by destruct (on_key b l starts Hb i it Hp) as (_ & _ & _ & _ & _ & ?)|by rewrite Hp].
Qed.
Lemma follows_lands b l starts k it lc : block_holds b l starts -> run_sorted user (pc_entry <$> l) -> lands b l starts k it -> lc_entries lc = pc_entry <$> l ->
  lc_position lc = (if (k <? length l)%nat then Some k else None) -> bi_follows it lc.
Proof using. intros Hb Hr Hk He Hp. exists b, l, starts. split_and!; [done..|]. rewrite Hp. unfold lands in Hk. by destruct (k <? length l)%nat. Qed.

Lemma below_down l target i j : run_sorted user (pc_entry <$> l) -> wellformed target -> (i <= j)%nat -> is_below l (internal_cmp user) target j -> is_below l (internal_cmp user) target i.
Proof using All.
  intros Hr Ht Hij (q & Hq & Hlt). destruct (lookup_lt_is_Some_2 l i) as [p Hp]; [apply lookup_lt_Some in Hq; lia|]. exists p. split; [done|].
  assert ((pc_entry <$> l) !! i = Some (pc_entry p) /\ (pc_entry <$> l) !! j = Some (pc_entry q)) as [Hi Hj] by (rewrite !list_lookup_fmap, Hp, Hq; done).
  apply (key_le_lt_trans user _ (pc_entry q).1); [exact (lookup_wf user _ i _ Hr Hi)|exact (lookup_wf user _ j _ Hr Hj)|done|exact (lookup_le user _ i j _ _ Hr Hi Hj Hij)|done].
Qed.

(** Where a seek lands is where the list has the first entry not below. *)
Lemma seek_find l target k : (k <= length l)%nat -> (forall j, (j < k)%nat -> is_below l (internal_cmp user) target j) -> ~ is_below l (internal_cmp user) target k ->
  fst <$> list_find (fun e : entry => internal_cmp user e.1 target <> Lt) (pc_entry <$> l) = if (k <? length l)%nat then Some k else None.
Proof using.
  intros Hk Hbel Hn. destruct (Nat.ltb_spec k (length l)) as [Hlt|Hge].
  - destruct (lookup_lt_is_Some_2 l k Hlt) as [p Hp]. rewrite (proj2 (list_find_Some (fun e : entry => internal_cmp user e.1 target <> Lt) (pc_entry <$> l) k (pc_entry p))); [done|]. split_and!.
    + by rewrite list_lookup_fmap, Hp.
    + intros E. apply Hn. by exists p.
    + intros j e Hj Hlt' Hge. destruct (Hbel j Hlt') as (q & Hq & Ho). rewrite list_lookup_fmap, Hq in Hj. cbn in Hj. injection Hj as <-. exact (Hge Ho).
  - rewrite (proj2 (list_find_None _ _)); [done|]. apply Forall_lookup. intros j e Hj Hge'. assert (j < length l)%nat as Hj' by (apply lookup_lt_Some in Hj; by rewrite length_fmap in Hj).
    destruct (Hbel j ltac:(lia)) as (q & Hq & Ho). rewrite list_lookup_fmap, Hq in Hj. cbn in Hj. injection Hj as <-. exact (Hge' Ho).
Qed.

Lemma bi_seek_follows it lc target : bi_follows it lc -> wellformed target -> bi_follows (bi_seek (internal_cmp user) target it) (cur_seek (Cursor := ListCursorOps user) target lc).
Proof using All.
  intros Hf Ht. destruct (follows_at it lc Hf) as (b & l & starts & Hb & Hr & He & Hat). destruct (seek_on b l starts Hb (internal_cmp user) target) with (it := it) as (k & Hk & Hbel & Hn & Hl); [intros i j Hij; by apply below_down|done|].
  apply (follows_lands b l starts k); [done|done|exact Hl|exact He|]. cbn. rewrite He. by apply seek_find.
Qed.

Lemma lands_status b l starts k it : block_holds b l starts -> lands b l starts k it -> at_block b it.
Proof using. intros Hb. unfold lands. destruct (k <? length l)%nat; [|by intros ->]. intros Hp. by destruct (on_key b l starts Hb k it Hp) as (_ & _ & _ & _ & _ & ?). Qed.

Lemma bi_seek_for_prev_follows it lc target : bi_follows it lc -> wellformed target ->
  bi_follows (bi_seek_for_prev (internal_cmp user) target it) (cur_seek_for_prev (Cursor := ListCursorOps user) target lc).
Proof using All.
  intros Hf Ht. destruct (follows_at it lc Hf) as (b & l & starts & Hb & Hr & He & Hat). destruct (seek_on b l starts Hb (internal_cmp user) target) with (it := it) as (k & Hk & Hbel & Hn & Hl); [intros i j Hij; by apply below_down|done|].
  unfold bi_seek_for_prev. pose proof (lands_status b l starts k _ Hb Hl) as Hat'. set (it1 := bi_seek _ _ _) in *. clearbody it1. destruct Hat' as [Hblk ->].
  exists b, l, starts. split_and!; [done..|exact He|]. cbn [cur_seek_for_prev ListCursorOps lc_position]. rewrite He. unfold lands in Hl. destruct (Nat.ltb_spec k (length l)) as [Hlt|Hge].
  - destruct (on_key b l starts Hb k it1 Hl) as (p & Hp & -> & _ & -> & _). cbn [negb]. assert ((pc_entry <$> l) !! k = Some (pc_entry p)) as Hkp by by rewrite list_lookup_fmap, Hp.
    destruct (decide (internal_cmp user (pc_entry p).1 target = Gt)) as [Hgt|Hngt].
    + pose proof (prev_on b l starts Hb k it1 Hl) as Hprev. assert (forall j y, (pc_entry <$> l) !! j = Some y -> (k <= j)%nat -> bool_decide (internal_cmp user y.1 target <> Gt) = false) as Hab.
      { intros j y Hj Hkj. apply bool_decide_eq_false. intros Hy. apply Hy. rewrite internal_cmp_antisym by done. rewrite (key_lt_le_trans user target (pc_entry p).1); [done|done|exact (lookup_wf user _ k _ Hr Hkp)|exact (lookup_wf user _ j _ Hr Hj)| |exact (lookup_le user _ k j _ _ Hr Hkp Hj Hkj)]. by rewrite internal_cmp_antisym, Hgt. }
      destruct k as [|k]; [by rewrite rposition_no by (intros; apply (Hab j); [done|lia])|]. destruct (Hbel k ltac:(lia)) as (q & Hq & Ho).
      rewrite (rposition_is _ _ k (pc_entry q)); [done|by rewrite list_lookup_fmap, Hq|by rewrite bool_decide_true by by rewrite Ho|]. intros j y Hj Hkj. apply (Hab j); [done|lia].
    + rewrite (rposition_is _ _ k (pc_entry p)); [done|done|by rewrite bool_decide_true|]. intros j y Hj Hkj. apply bool_decide_eq_false. intros Hy. apply Hy.
      rewrite internal_cmp_antisym by done. rewrite (key_le_lt_trans user target (pc_entry p).1); [done|done|exact (lookup_wf user _ k _ Hr Hkp)|exact (lookup_wf user _ j _ Hr Hj)| |exact (sorted_lookup user _ k j _ _ Hr Hkp Hj Hkj)].
      apply not_lt_le; [done|]. intros E. apply Hn. by exists p.
  - subst it1. rewrite off_invalid. cbn [negb]. assert (k = length l) as -> by lia. pose proof (last_on b l starts Hb (off_block b) (conj eq_refl eq_refl)) as Hlast. case_decide as Hnil.
    + rewrite Hlast, off_invalid. cbn [andb]. by rewrite Hnil.
    + destruct (on_key b l starts Hb _ _ Hlast) as (p & Hp & -> & _ & -> & _). cbn [andb]. destruct (Hbel (length l - 1)%nat) as (q & Hq & Ho); [apply lookup_lt_Some in Hp; lia|]. rewrite Hp in Hq. injection Hq as <-.
      rewrite bool_decide_false by by rewrite Ho. rewrite (rposition_is _ _ (length l - 1) (pc_entry p)); [done|by rewrite list_lookup_fmap, Hp|by rewrite bool_decide_true by by rewrite Ho|].
      intros j y Hj%lookup_lt_Some Hlt. rewrite length_fmap in Hj. lia.
Qed.

Lemma bi_follows_list : Follows user bi_follows (Hops := BlockIterOps).
Proof using All.
  split.
  - by intros it lc (b & l & starts & _ & Hr & -> & _).
  - intros it lc Hf. by destruct (follows_at it lc Hf) as (b & l & starts & _ & _ & _ & _ & ?).
  - intros it lc (b & l & starts & Hb & _ & _ & Hp). change (cur_valid it) with (bi_valid it). destruct (lc_position lc) as [i|]; [by destruct (on_key b l starts Hb i it Hp) as (_ & _ & _ & _ & -> & _)|by rewrite Hp, off_invalid].
  - intros it lc e (b & l & starts & Hb & _ & He & Hp). unfold lc_entry. destruct (lc_position lc) as [i|]; [|done]. cbn [mbind option_bind]. rewrite He, list_lookup_fmap. destruct (on_key b l starts Hb i it Hp) as (p & -> & Hk & Hv & _). by intros [= <-].
  - intros it lc (b & l & starts & Hb & Hr & He & Hp). exists b, l, starts. split_and!; [done..|]. cbn. destruct (lc_position lc) as [i|]; cbn; [|rewrite Hp; unfold bi_next; by rewrite off_invalid].
    pose proof (next_on b l starts Hb i it Hp) as Hn. rewrite He, length_fmap. destruct (Nat.ltb_spec (S i) (length l)) as [H|H]; [by rewrite decide_True|rewrite decide_False by lia; done].
  - intros it lc (b & l & starts & Hb & Hr & He & Hp). exists b, l, starts. split_and!; [done..|]. cbn. destruct (lc_position lc) as [i|]; cbn; [|rewrite Hp; unfold bi_prev; by rewrite off_invalid].
    pose proof (prev_on b l starts Hb i it Hp) as Hn. by destruct i.
  - intros. by apply bi_seek_follows.
  - intros. by apply bi_seek_for_prev_follows.
  - intros it lc Hf. destruct (follows_at it lc Hf) as (b & l & starts & Hb & Hr & He & Hat). exists b, l, starts. split_and!; [done..|]. cbn. pose proof (first_on b l starts Hb it Hat) as Hn. rewrite He.
    case_decide as Hl; [by rewrite decide_True by by rewrite Hl|]. rewrite decide_False; [done|]. by intros ?%fmap_nil_inv.
  - intros it lc Hf. destruct (follows_at it lc Hf) as (b & l & starts & Hb & Hr & He & Hat). exists b, l, starts. split_and!; [done..|]. cbn. pose proof (last_on b l starts Hb it Hat) as Hn. rewrite He, length_fmap.
    case_decide as Hl; [by rewrite decide_True by by rewrite Hl|]. rewrite decide_False; [done|]. by intros ?%fmap_nil_inv.
Qed.
End BlockCursor.

(** ** The builder's block *)

Lemma place_app l l' i : (i <= length l)%nat -> place (l ++ l') i = place l i.
Proof. intros Hi. unfold place. by rewrite take_app_le. Qed.
Lemma shared_spec a c : (shared_prefix_len a c <= length a)%nat /\ (shared_prefix_len a c <= length c)%nat /\ take (shared_prefix_len a c) a = take (shared_prefix_len a c) c.
Proof.
  revert c. induction a as [|x a IH]; intros [|y c]; cbn; try (split_and!; (lia || done)). destruct (Byte.eqb x y) eqn:E; cbn; [|split_and!; (lia || done)].
  apply Byte.byte_dec_bl in E as ->. destruct (IH c) as (? & ? & H). split_and!; [lia..|by rewrite H].
Qed.

Record bb_holds (b : BlockBuilder) (l : list piece) (starts : list nat) : Prop := {
  bbh_buffer : bb_buffer b = region l;
  bbh_chained : chained [] l;
  bbh_last : bb_last_key b = from_option (fun p => (pc_entry p).1) [] (last l);
  bbh_entries : bb_entries b = length l;
  bbh_counter : l = [] -> bb_counter b = 0%nat;
  bbh_interval : (0 < bb_restart_interval b)%nat;
  bbh_first : head starts = Some 0%nat;
  bbh_sorted : StronglySorted lt starts;
  bbh_restarts : bb_restarts b = (fun i => N.of_nat (place l i)) <$> starts;
  bbh_start i : i ∈ starts -> (i < length l)%nat \/ (i = 0%nat /\ l = []);
  bbh_fits i : i ∈ starts -> fits_u32 (place l i) = true;
  bbh_whole i p : i ∈ starts -> l !! i = Some p -> pc_shared p = 0%nat }.

Lemma new_builder interval : bb_holds (BlockBuilder_new interval) [] [0%nat].
Proof.
  split; cbn [BlockBuilder_new bb_buffer bb_last_key bb_entries bb_counter bb_restart_interval bb_restarts]; try done.
  - lia.
  - constructor; constructor.
  - intros i ->%list_elem_of_singleton. by right.
  - by intros i ->%list_elem_of_singleton.
Qed.
Lemma reset_builder b l starts : bb_holds b l starts -> bb_holds (bb_reset b) [] [0%nat].
Proof. intros Hb. destruct (new_builder (bb_restart_interval b)). split; try done. cbn. apply Hb. Qed.

Lemma chained_snoc before l p : chained before l ->
  (let key := from_option (fun p => (pc_entry p).1) before (last l) in (pc_shared p <= length key)%nat /\ take (pc_shared p) key = take (pc_shared p) (pc_entry p).1) ->
  (pc_shared p <= length (pc_entry p).1)%nat -> fits_u32 (length (pc_entry p).1) = true -> fits_u32 (length (pc_entry p).2) = true -> chained before (l ++ [p]).
Proof.
  intros Hc Hs H1 H2 H3. revert before Hc Hs. induction l as [|q l IH]; intros before Hc Hs; cbn in *; [split_and!; try done; by destruct Hs|]. destruct Hc as (? & ? & ? & ? & ? & Hc). split_and!; try done.
  apply IH; [done|]. destruct l as [|r l]; [exact Hs|]. rewrite last_cons_cons in Hs. destruct (last (r :: l)) eqn:E; [exact Hs|by apply last_None in E].
Qed.

(** One more piece, in the group at hand or as the first of a new one. *)
Lemma piece_added b l starts key value shared starts' restarts counter : bb_holds b l starts -> fits_u32 (length key) = true -> fits_u32 (length value) = true ->
  restarts = (fun i => N.of_nat (place (l ++ [mkPiece shared (key, value)]) i)) <$> starts' ->
  (starts' = starts /\ (l = [] -> shared = 0%nat) \/ starts' = starts ++ [length l] /\ l <> [] /\ fits_u32 (length (region l)) = true /\ shared = 0%nat) ->
  (shared <= length (bb_last_key b))%nat -> (shared <= length key)%nat -> take shared (bb_last_key b) = take shared key ->
  bb_holds (mkBB (bb_restart_interval b) (put_u32 (N.of_nat (length value)) (put_u32 (N.of_nat (length key - shared)) (put_u32 (N.of_nat shared) (bb_buffer b))) ++ drop shared key ++ value) restarts (counter + 1) key (bb_entries b + 1) (bb_finished b))
    (l ++ [mkPiece shared (key, value)]) starts'.
Proof.
  intros Hb Hk Hv Hrs Hst Hs1 Hs2 Hs3. split; cbn [bb_buffer bb_last_key bb_entries bb_counter bb_restart_interval bb_restarts].
  - rewrite (bbh_buffer _ _ _ Hb). rewrite region_app. change (region [mkPiece shared (key, value)]) with (piece_bytes (mkPiece shared (key, value)) ++ []). rewrite app_nil_r. unfold piece_bytes, put_u32, put_u64. cbn [pc_shared pc_entry fst snd]. by rewrite !app_nil_l, <- !app_assoc.
  - apply chained_snoc; [apply Hb| |done..]. cbn. by rewrite <- (bbh_last _ _ _ Hb).
  - by rewrite last_snoc.
  - by rewrite (bbh_entries _ _ _ Hb), length_app.
  - by destruct l.
  - apply Hb.
  - destruct Hst as [[-> _]|[-> _]]; [apply Hb|]. rewrite head_app. pose proof (bbh_first _ _ _ Hb). by destruct starts.
  - destruct Hst as [[-> _]|(-> & Hl & _)]; [apply Hb|]. apply StronglySorted_app. split_and!; [|apply Hb|repeat constructor]. intros x1 x2 Hx1 ->%list_elem_of_singleton. by destruct (bbh_start _ _ _ Hb x1 Hx1) as [|[_ ?]].
  - done.
  - rewrite length_app. cbn. intros i Hi. left. destruct Hst as [[-> _]|[-> _]]; [|apply elem_of_app in Hi as [Hi| ->%list_elem_of_singleton]; [|lia]]; destruct (bbh_start _ _ _ Hb i Hi) as [|[-> _]]; lia.
  - intros i Hi. assert (i ∈ starts -> fits_u32 (place (l ++ [mkPiece shared (key, value)]) i) = true) as Hold.
    { intros Hi'. rewrite place_app by (destruct (bbh_start _ _ _ Hb i Hi') as [|[-> _]]; lia). by apply (bbh_fits _ _ _ Hb). }
    destruct Hst as [[-> _]|(-> & _ & Hf & _)]; [by apply Hold|]. apply elem_of_app in Hi as [Hi| ->%list_elem_of_singleton]; [by apply Hold|]. rewrite place_app by done. by rewrite place_all.
  - intros i p Hi Hp. destruct (decide (i < length l)%nat) as [Hlt|Hge].
    + rewrite lookup_app_l in Hp by done. apply (bbh_whole _ _ _ Hb i p); [|done]. destruct Hst as [[-> _]|[-> _]]; [done|]. apply elem_of_app in Hi as [Hi| ->%list_elem_of_singleton]; [done|lia].
    + rewrite lookup_app_r in Hp by lia. apply list_lookup_singleton_Some in Hp as [_ <-]. cbn. destruct Hst as [[-> Hnil]|(_ & _ & _ & ->)]; [|done]. apply Hnil. destruct (bbh_start _ _ _ Hb i Hi) as [|[_ ?]]; [lia|done].
Qed.

Lemma add_holds b l starts key value b' : bb_holds b l starts -> bb_add key value b = Ok b' ->
  exists shared starts', bb_holds b' (l ++ [mkPiece shared (key, value)]) starts'.
Proof.
  intros Hb. unfold bb_add. destruct (fits_u32 (length key)) eqn:Hk; cbn [negb]; [|done]. destruct (fits_u32 (length value)) eqn:Hv; cbn [negb]; [|done].
  destruct (shared_spec (bb_last_key b) key) as (S1 & S2 & S3). destruct (Nat.ltb_spec (bb_counter b) (bb_restart_interval b)) as [Hc|Hc].
  - cbn [rbind]. intros [= <-]. exists (shared_prefix_len (bb_last_key b) key), starts. apply (piece_added b l starts); try done.
    + rewrite (bbh_restarts _ _ _ Hb). apply list_fmap_ext. intros g i Hi%list_elem_of_lookup_2. by rewrite place_app by (destruct (bbh_start _ _ _ Hb i Hi) as [|[-> _]]; lia).
    + left. split; [done|]. intros ->. by rewrite (bbh_last _ _ _ Hb).
  - assert (l <> []) as Hl. { intros Hl. pose proof (bbh_interval _ _ _ Hb). rewrite (bbh_counter _ _ _ Hb Hl) in Hc. lia. }
    destruct (fits_u32 (length (bb_buffer b))) eqn:Hfit; [|done]. rewrite (bbh_buffer _ _ _ Hb) in Hfit |- *. cbn [rbind]. intros [= <-]. exists 0%nat, (starts ++ [length l]).
    rewrite <- (bbh_buffer _ _ _ Hb). apply (piece_added b l starts key value 0 (starts ++ [length l]) _ 0); [done..| |by right|lia|lia|by rewrite !take_0]. rewrite fmap_app, (bbh_restarts _ _ _ Hb). f_equal.
    + apply list_fmap_ext. intros g i Hi%list_elem_of_lookup_2. by rewrite place_app by (destruct (bbh_start _ _ _ Hb i Hi) as [|[-> _]]; lia).
    + cbn. rewrite place_app, place_all by done. by rewrite (bbh_buffer _ _ _ Hb).
Qed.

Lemma chunk_lookup rs g r rest : rs !! g = Some r -> take 4 (drop (g * 4) (mjoin (le_bytes 4 <$> rs) ++ rest)) = le_bytes 4 r.
Proof.
  revert g. induction rs as [|x rs IH]; intros g Hg; [done|]. rewrite fmap_cons. cbn [mjoin list_join]. rewrite <- app_assoc. destruct g as [|g]; cbn in Hg.
  - injection Hg as ->. rewrite Nat.mul_0_l, drop_0. apply take_app_length'. by rewrite le_bytes_length.
  - replace (S g * 4)%nat with (length (le_bytes 4 x) + g * 4)%nat by (rewrite le_bytes_length; lia). rewrite drop_app_add. by apply IH.
Qed.
Lemma chunks_length (rs : list N) : length (mjoin (le_bytes 4 <$> rs)) = (length rs * 4)%nat.
Proof. induction rs as [|x rs IH]; [done|]. rewrite fmap_cons. change (length (le_bytes 4 x ++ mjoin (le_bytes 4 <$> rs)) = (S (length rs) * 4)%nat). rewrite length_app, le_bytes_length, IH. lia. Qed.

Lemma starts_ge starts g i : StronglySorted lt starts -> starts !! g = Some i -> (g <= i)%nat.
Proof.
  intros Hs. revert i. induction g as [|g IH]; intros i Hg; [lia|]. destruct (lookup_lt_is_Some_2 starts g) as [j Hj]; [apply lookup_lt_Some in Hg; lia|]. specialize (IH j Hj).
  rewrite <- (take_drop_middle _ _ _ Hj) in Hs. apply StronglySorted_app_1_r, StronglySorted_inv in Hs as [_ Hs]. rewrite Forall_forall in Hs.
  assert (j < i)%nat; [|lia]. apply Hs. apply list_elem_of_lookup. exists 0%nat. rewrite lookup_drop. by rewrite Nat.add_0_r.
Qed.
Lemma place_ge3 l i : (i <= length l)%nat -> (3 * i <= place l i)%nat.
Proof. induction i as [|i IH]; intros Hi; [lia|]. destruct (lookup_lt_is_Some_2 l i ltac:(lia)) as [p Hp]. rewrite (place_S l i p Hp). pose proof (piece_pos p). specialize (IH ltac:(lia)). lia. Qed.

Lemma restarts_fit b l starts : bb_holds b l starts -> fits_u32 (length starts) = true.
Proof.
  intros Hb. assert (0 < length starts)%nat as Hne by (pose proof (bbh_first _ _ _ Hb); destruct starts; [done|cbn; lia]).
  destruct (lookup_lt_is_Some_2 starts (length starts - 1) ltac:(lia)) as [i Hi]. pose proof (starts_ge _ _ _ (bbh_sorted _ _ _ Hb) Hi) as Hge. apply list_elem_of_lookup_2 in Hi.
  pose proof (bbh_fits _ _ _ Hb i Hi) as Hf. assert (i <= length l)%nat as Hil by (destruct (bbh_start _ _ _ Hb i Hi) as [|[-> _]]; lia). pose proof (place_ge3 l i Hil) as H3. clear -Hf Hge H3 Hne. apply fits_iff in Hf. apply fits_iff. lia.
Qed.

(** What [finish] returns parses as a block that holds the entries added. *)
Lemma finish_holds b l starts : bb_holds b l starts -> exists blk, Block_new (bb_buffer (bb_finish b)) = Ok blk /\ block_holds blk l starts.
Proof.
  intros Hb. pose proof (restarts_fit b l starts Hb) as Hfit. cbn [bb_finish bb_buffer]. assert (length (bb_restarts b) = length starts) as Hlen by by rewrite (bbh_restarts _ _ _ Hb), length_fmap.
  rewrite Hlen, Hfit, (bbh_buffer _ _ _ Hb). set (array := mjoin (le_bytes 4 <$> bb_restarts b)). set (count := le_bytes 4 (N.of_nat (length starts))).
  assert (length array = (length starts * 4)%nat) as Ha by (unfold array; by rewrite chunks_length, Hlen). assert (length count = 4%nat) as Hc by apply le_bytes_length.
  assert (0 < length starts)%nat as Hne by (pose proof (bbh_first _ _ _ Hb); destruct starts; [done|cbn; lia]).
  apply fits_iff in Hfit. unfold Block_new, RESTART_ENTRY_SIZE. rewrite !length_app, Ha, Hc.
  assert (read_u32 (region l ++ array ++ count) (length (region l) + (length starts * 4 + 4) - 4) = N.of_nat (length starts)) as ->.
  { unfold read_u32. rewrite app_assoc, drop_app_length' by (rewrite length_app; lia). rewrite take_ge by lia. apply le_value_bytes. change (256 ^ N.of_nat 4)%N with 4294967296%N. lia. }
  rewrite Nat2N.id, !(proj2 (Nat.ltb_ge _ _)), (proj2 (Nat.eqb_neq _ _)) by lia. eexists. split; [reflexivity|]. replace (length (region l) + (length starts * 4 + 4) - (length starts * 4 + 4))%nat with (length (region l)) by lia.
  split; cbn [blk_data blk_restart_offset blk_num_restarts]; try apply Hb; try done.
  - apply take_app_length.
  - intros g i Hg. unfold restart_point, read_u32, RESTART_ENTRY_SIZE. cbn [blk_data blk_restart_offset]. rewrite drop_app_add. unfold array. rewrite (chunk_lookup _ g (N.of_nat (place l i))) by by rewrite (bbh_restarts _ _ _ Hb), list_lookup_fmap, Hg.
    pose proof (bbh_fits _ _ _ Hb i (list_elem_of_lookup_2 _ _ _ Hg)) as Hf. apply fits_iff in Hf. rewrite le_value_bytes by (change (256 ^ N.of_nat 4)%N with 4294967296%N; lia). apply Nat2N.id.
  - intros g i Hg. apply (bbh_start _ _ _ Hb). by eapply list_elem_of_lookup_2.
  - intros g i p Hg. apply (bbh_whole _ _ _ Hb). by eapply list_elem_of_lookup_2.
Qed.

(** ** A block from start to end *)

Fixpoint bb_fill (b : BlockBuilder) (entries : list entry) : result SstError BlockBuilder :=
  match entries with
  | [] => Ok b
  | (key, value) :: entries => let? b := bb_add key value b in bb_fill b entries
  end.
Lemma fill_pieces b l starts entries b' : bb_holds b l starts -> bb_fill b entries = Ok b' ->
  exists l' starts', bb_holds b' (l ++ l') starts' /\ pc_entry <$> l' = entries.
Proof.
  revert b l starts. induction entries as [|[key value] entries IH]; intros b l starts Hb Hf; cbn in Hf.
  - injection Hf as <-. exists [], starts. by rewrite app_nil_r.
  - destruct (bb_add key value b) as [b1|] eqn:Ha; [|done]. cbn in Hf. destruct (add_holds b l starts key value b1 Hb Ha) as (shared & starts1 & Hb1).
    destruct (IH b1 _ starts1 Hb1 Hf) as (l' & starts' & Hb' & He). exists (mkPiece shared (key, value) :: l'), starts'. rewrite <- app_assoc in Hb'. split; [done|]. by rewrite fmap_cons, He.
Qed.
(** Nothing is refused below four gigabytes. *)
Definition entries_size (entries : list entry) : nat := foldr (fun (e : entry) n => 30 + length e.1 + length e.2 + n)%nat 0%nat entries.
Lemma add_total key value b : fits_u32 (length key) = true -> fits_u32 (length value) = true -> fits_u32 (length (bb_buffer b)) = true ->
  exists b', bb_add key value b = Ok b' /\ (length (bb_buffer b') <= length (bb_buffer b) + 30 + length key + length value)%nat.
Proof.
  intros Hk Hv Hb. unfold bb_add. rewrite Hk, Hv, Hb. cbn [negb]. assert (forall n out, length (put_u32 n out) <= length out + 10)%nat as Hput. { intros n out. unfold put_u32, put_u64. rewrite length_app. pose proof (put_loop_length_le MAX_LEN_U64 n). unfold MAX_LEN_U64 in *. lia. }
  assert (forall shared, (length (put_u32 (N.of_nat (length value)) (put_u32 (N.of_nat (length key - shared)) (put_u32 (N.of_nat shared) (bb_buffer b))) ++ drop shared key ++ value) <= length (bb_buffer b) + 30 + length key + length value)%nat) as Hall.
  { intros shared. rewrite !length_app, length_drop. pose proof (Hput (N.of_nat (length value)) (put_u32 (N.of_nat (length key - shared)) (put_u32 (N.of_nat shared) (bb_buffer b)))).
    pose proof (Hput (N.of_nat (length key - shared)) (put_u32 (N.of_nat shared) (bb_buffer b))). pose proof (Hput (N.of_nat shared) (bb_buffer b)). lia. }
  destruct (_ <? _)%nat; cbn [rbind]; eexists; (split; [reflexivity|apply Hall]).
Qed.
Lemma fill_total entries b : fits_u32 (length (bb_buffer b) + entries_size entries) = true -> exists b', bb_fill b entries = Ok b'.
Proof.
  revert b. induction entries as [|[key value] entries IH]; intros b Hf; [by exists b|]. cbn [entries_size foldr fst snd] in Hf. fold (entries_size entries) in Hf.
  destruct (add_total key value b) as (b1 & Ha & Hlen); [eapply fits_le; [|exact Hf]; lia..|]. cbn [bb_fill]. rewrite Ha. cbn [rbind]. apply IH. eapply fits_le; [|exact Hf]. lia.
Qed.
Lemma block_follows user b l starts : block_holds b l starts -> run_sorted user (pc_entry <$> l) -> bi_follows user (blk_iter b) (mkListCursor (pc_entry <$> l) None).
Proof. intros Hb Hr. by exists b, l, starts. Qed.

(** A block is the sorted run of what was added to it.  Whatever the restart
    interval, a block built from entries in order parses, and its cursor, turned
    around and re-seeked at will, cannot be told from one over the list of the
    entries: the shared prefixes, the restart points, the binary search and the
    re-scan that a step back needs do not show. *)
Theorem block_refines (user : Comparator) `{!ComparatorLaws user} (interval : nat) (entries : list entry) (b : BlockBuilder) :
  bb_fill (BlockBuilder_new interval) entries = Ok b -> run_sorted user entries ->
  exists blk, Block_new (bb_buffer (bb_finish b)) = Ok blk /\
    forall op ops, positions op = true -> Forall (fun op => from_option wellformed True (op_target op)) (op :: ops) ->
      observations (Cursor0 := BlockIterOps user) (op :: ops) (blk_iter blk) = observations (Cursor0 := ListCursorOps user) (op :: ops) (mkListCursor entries None).
Proof.
  intros Hf Hr. destruct (fill_pieces _ [] _ entries b (new_builder interval) Hf) as (l & starts & Hb & <-). destruct (finish_holds _ _ _ Hb) as (blk & Hblk & Hh). exists blk. split; [done|].
  intros op ops Hop Hops. pose proof (block_follows user blk l starts Hh Hr) as Hfo.
  apply (cursor_simulation user (CursorLaws0 := FollowLaws user (Hops := BlockIterOps user) (bi_follows user) (bi_follows_list user)) (CursorLaws1 := ListCursorLaws user) (pc_entry <$> l) (pc_entry <$> l)); try done.
  - by apply sorted_uniq.
  - by eexists.
Qed.

Lemma block_refines_witness : exists b blk, bb_fill (BlockBuilder_new 2) both_runs = Ok b /\ Block_new (bb_buffer (bb_finish b)) = Ok blk /\ blk_num_restarts blk = 3%nat /\
  observations (Cursor0 := BlockIterOps BytewiseComparator) [OpSeek (internal_key [Byte.x61] 4 Put); OpNext; OpPrev; OpPrev; OpSeekToLast; OpPrev] (blk_iter blk) =
  [Some (internal_key [Byte.x61] 4 Put, [Byte.x04]); Some (internal_key [Byte.x62] 6 Delete, []); Some (internal_key [Byte.x61] 4 Put, [Byte.x04]);
   Some (internal_key [Byte.x61] 7 Put, [Byte.x07]); Some (internal_key [Byte.x63] 3 Put, [Byte.x03]); Some (internal_key [Byte.x62] 2 Put, [Byte.x02])].
Proof.
  destruct (bb_fill (BlockBuilder_new 2) both_runs) as [b|] eqn:Ef; [|vm_compute in Ef; discriminate].
  destruct (block_refines BytewiseComparator 2 both_runs b Ef both_sorted) as (blk & Hblk & Hobs). exists b, blk. split; [reflexivity|]. split; [exact Hblk|]. split.
  - vm_compute in Ef. injection Ef as <-. vm_compute in Hblk. injection Hblk as <-. reflexivity.
  - rewrite Hobs; [vm_compute; reflexivity|reflexivity|]. constructor; [by exists [Byte.x61], 4%N, Put|]. repeat constructor.
Defined.

(** ** Any bytes *)

Lemma get_u32_pos buf v n : get_u32 buf = Ok (v, n) -> (0 < n)%nat.
Proof.
  unfold get_u32. destruct (get_u64 buf) as [[w m]|] eqn:E; [|done]. cbn. destruct (w <? 4294967296)%N; [|done]. intros [= _ <-]. apply get_u64_canonical in E as [_ E].
  destruct m; [|lia]. rewrite take_0 in E. by destruct (put_u64_nonempty w).
Qed.
Lemma decode_grows b offset h : decode_at b offset = Some h -> (offset < eh_next h <= blk_restart_offset b)%nat.
Proof.
  unfold decode_at. destruct (Nat.ltb_spec (blk_restart_offset b) offset) as [|Ho]; [done|]. cbv zeta. destruct (get_u32 _) as [[shared n1]|] eqn:E1; [|done]. destruct (get_u32 (drop n1 _)) as [[non n2]|] eqn:E2; [|done].
  destruct (get_u32 (drop (n1 + n2) _)) as [[vl n3]|] eqn:E3; [|done]. destruct (Nat.ltb_spec (blk_restart_offset b) (offset + (n1 + n2 + n3) + N.to_nat non + N.to_nat vl)) as [|Hn]; [done|].
  intros [= <-]. cbn [eh_next]. apply get_u32_pos in E1. lia.
Qed.
Lemma parse_place it it' ok : parse_current it = (it', ok) -> bi_block it' = bi_block it /\ (ok = true -> bi_current it' = bi_current it) /\ (ok = false -> bi_current it' = bi_limit it).
Proof. unfold parse_current. repeat case_match; intros [= <- <-]; done. Qed.
Lemma next_block it : bi_block (bi_next it) = bi_block it.
Proof. unfold bi_next. destruct (negb _); [done|]. destruct (decode_at _ _); [|done]. destruct (parse_current _) as [it' ok] eqn:E. by apply parse_place in E as [Hb _]. Qed.
Lemma next_grows it : bi_valid it = true -> (bi_current it < bi_current (bi_next it))%nat.
Proof.
  intros Hv. unfold bi_next. rewrite Hv. cbn [negb]. apply Nat.ltb_lt in Hv. destruct (decode_at _ _) as [h|] eqn:E; [|done]. apply decode_grows in E as [? ?].
  destruct (parse_current _) as [it' ok] eqn:Ep. apply parse_place in Ep as (_ & Ht & Hf). cbn [fst]. destruct ok; [rewrite Ht by done; cbn; lia|rewrite Hf by done; exact Hv].
Qed.

Lemma scan_fuel n m target it : (bi_limit it - bi_current it < n)%nat -> scan_to (n + m) target it = scan_to n target it.
Proof.
  revert it. induction n as [|n IH]; intros it Hn; [lia|]. cbn [scan_to Nat.add]. destruct (decode_at _ _) as [h|] eqn:E; [|done]. case_match; [done|]. apply decode_grows in E as [? ?].
  destruct (parse_current _) as [it' ok] eqn:Ep. apply parse_place in Ep as (Hb & Ht & _). destruct ok; [|done]. apply IH. unfold bi_limit in *. rewrite Hb, (Ht eq_refl). cbn. lia.
Qed.
Lemma scan_seek_fuel order n m target it : (bi_limit it - bi_current it < n)%nat -> scan_seek order (n + m) target it = scan_seek order n target it.
Proof.
  revert it. induction n as [|n IH]; intros it Hn; [lia|]. cbn [scan_seek Nat.add]. destruct (bi_valid it) eqn:Hv; cbn [andb]; [|done]. case_bool_decide; [|done]. apply IH.
  pose proof (next_grows it Hv). apply Nat.ltb_lt in Hv. unfold bi_limit in *. rewrite next_block. lia.
Qed.
Lemma search_fuel order n m b target low high : (high - low <= S n)%nat -> search_restarts order (n + m) b target low high = search_restarts order n b target low high.
Proof.
  revert low high. induction n as [|n IH]; intros low high Hn; cbn [search_restarts Nat.add].
  - destruct m; [done|]. cbn [search_restarts]. by destruct (Nat.ltb_spec (low + 1) high); [lia|].
  - destruct (Nat.ltb_spec (low + 1) high) as [Hlt|]; cbn [negb]; [|done]. assert (low < low + (high - low) / 2 < high)%nat by (pose proof (Nat.div_lt (high - low) 2); pose proof (Nat.div_le_lower_bound (high - low) 2 1); lia).
    repeat case_match; try done; apply IH; lia.
Qed.
Lemma group_fuel n m index b current : (blk_num_restarts b - index <= n)%nat -> group_of (n + m) index b current = group_of n index b current.
Proof.
  revert index. induction n as [|n IH]; intros index Hn; cbn [group_of Nat.add].
  - destruct m; [done|]. cbn [group_of]. by destruct (Nat.ltb_spec (index + 1) (blk_num_restarts b)); [lia|].
  - destruct (Nat.ltb_spec (index + 1) (blk_num_restarts b)) as [Hlt|]; cbn [andb]; [|done]. case_match; [apply IH; lia|done].
Qed.

(** A block cursor stops on any bytes.  Whatever a block holds, damaged or
    not, every loop of the cursor (the scan to the end of a group, the scan of a
    seek, the binary search over the restart points and the search for the group
    of an entry) ends within the rounds it is given: more rounds change nothing. *)
Theorem block_loops_stop (order : bytes -> bytes -> comparison) (it : BlockIter) (target : bytes) (n : nat) :
  (forall place, scan_to (bi_rounds it + n) place it = scan_to (bi_rounds it) place it) /\
  scan_seek order (bi_rounds it + n) target it = scan_seek order (bi_rounds it) target it /\
  search_restarts order (bi_restarts it + n) (bi_block it) target 0 (bi_restarts it) = search_restarts order (bi_restarts it) (bi_block it) target 0 (bi_restarts it) /\
  (forall index current, group_of (bi_restarts it + n) index (bi_block it) current = group_of (bi_restarts it) index (bi_block it) current).
Proof.
  split_and!; [intros place; apply scan_fuel|apply scan_seek_fuel|apply search_fuel|intros index current; apply group_fuel]; unfold bi_rounds, bi_restarts; lia.
Qed.
