(* ===== verification/SstFormat.v ===== *)
(** The framing of a table's blocks (esker-engine/src/sst/footer.rs): handles,
    the footer and the trailer with its checksum and compression code.  The
    compressor is an argument; what is asked of it is stated as laws. *)

From stdpp Require Import prelude.
From Stdlib Require Import NArith ZArith Lia.
From S2P Require Import Prelude Varint Endian Crc32c Block.

(** ** Sizes and codes (lib.rs, options.rs) *)

Definition SST_MAGIC : bytes := [Byte.x45; Byte.x53; Byte.x4b; Byte.x45; Byte.x52; Byte.x53; Byte.x53; Byte.x54; Byte.x31].
Definition SST_FOOTER_SIZE : nat := 48.
Definition SST_FORMAT_VERSION : N := 1.
Definition BLOCK_TRAILER_SIZE : nat := 5.
Definition MAX_TABLE_SIZE : N := N.shiftl 1 35.
Definition HANDLE_REGION : nat := SST_FOOTER_SIZE - 4 - length SST_MAGIC.
Definition MAX_UNCOMPRESSED_BLOCK : N := 256 * 1024 * 1024.

Inductive Compression := NoCompression | Lz4.
#[export] Instance Compression_eq_dec : EqDecision Compression.
Proof. solve_decision. Defined.
Definition Compression_as_u8 (c : Compression) : byte := match c with NoCompression => Byte.x00 | Lz4 => Byte.x01 end.
Definition Compression_from_u8 (b : byte) : option Compression :=
  match b2n b with 0%N => Some NoCompression | 1%N => Some Lz4 | _ => None end.

(** ** Handles *)

Record BlockHandle := mkHandle { bh_offset : N; bh_size : N }.
#[export] Instance BlockHandle_eq_dec : EqDecision BlockHandle.
Proof. solve_decision. Defined.
Definition BlockHandle_NONE : BlockHandle := mkHandle 0 0.
Definition handle_is_none (h : BlockHandle) : bool := (bh_offset h =? 0)%N && (bh_size h =? 0)%N.
(** An overflow of the sum wraps, as it does in a release build. *)
Definition total_len (h : BlockHandle) : N := wadd (bh_size h) (N.of_nat BLOCK_TRAILER_SIZE).
Definition handle_encode_to (h : BlockHandle) (out : bytes) : bytes := put_u64 (bh_size h) (put_u64 (bh_offset h) out).
Definition handle_decode_from (buf : bytes) : result SstError (BlockHandle * nat) :=
  match get_u64 buf with
  | Err _ => Err SstCorruption
  | Ok (offset, n1) =>
      match get_u64 (drop n1 buf) with
      | Err _ => Err SstCorruption
      | Ok (size, n2) => Ok (mkHandle offset size, (n1 + n2)%nat)
      end
  end.

(** ** The footer *)

Record Footer := mkFooter { ft_index : BlockHandle; ft_filter : BlockHandle; ft_properties : BlockHandle; ft_version : N }.
Definition Footer_new (index filter properties : BlockHandle) : Footer := mkFooter index filter properties SST_FORMAT_VERSION.
Definition footer_encode (f : Footer) : result SstError bytes :=
  let handles := handle_encode_to (ft_properties f) (handle_encode_to (ft_filter f) (handle_encode_to (ft_index f) [])) in
  if (HANDLE_REGION <? length handles)%nat then Err SstInvalid else
  Ok (handles ++ replicate (HANDLE_REGION - length handles) Byte.x00 ++ le_bytes 4 (ft_version f) ++ SST_MAGIC).
Definition footer_decode (data : bytes) : result SstError Footer :=
  if negb (length data =? SST_FOOTER_SIZE)%nat then Err SstCorruption else
  if negb (bool_decide (drop (HANDLE_REGION + 4) data = SST_MAGIC)) then Err SstCorruption else
  let version := le_value (take 4 (drop HANDLE_REGION data)) in
  if negb (version =? SST_FORMAT_VERSION)%N then Err SstCorruption else
  let region := take HANDLE_REGION data in
  let? (index, n1) := handle_decode_from region in
  let? (filter, n2) := handle_decode_from (drop n1 region) in
  let? (properties, _) := handle_decode_from (drop (n1 + n2) region) in
  Ok (mkFooter index filter properties version).

(** ** Frames *)

(** [lz4_flex::block]: [compress] and [decompress], the latter told the size
    of the output. *)
Record Codec := mkCodec { cd_compress : bytes -> bytes; cd_decompress : bytes -> N -> option bytes }.
(** The round trip, and the bound on the ratio the format has. *)
Class CodecLaws (codec : Codec) : Prop := {
  codec_roundtrip data : cd_decompress codec (cd_compress codec data) (N.of_nat (length data)) = Some data;
  codec_ratio data : (N.of_nat (length data) <= 256 * N.of_nat (length (cd_compress codec data)) + 1024)%N }.

Definition max_plausible_raw_len (compressed_len : nat) : N := sat_add (N.min (N.of_nat compressed_len * 256) u64_max) 1024.

Section Frames.
Context (codec : Codec).

Definition encode_block (payload : bytes) (compression : Compression) : bytes :=
  let stored :=
    match compression with
    | NoCompression => None
    | Lz4 =>
        let candidate := put_u64 (N.min (N.of_nat (length payload)) u64_max) [] ++ cd_compress codec payload in
        if (length candidate <? length payload - length payload / 8)%nat then Some candidate else None
    end in
  let '(kind, body) := match stored with Some candidate => (Lz4, candidate) | None => (NoCompression, payload) end in
  let out := body ++ [Compression_as_u8 kind] in
  out ++ le_bytes 4 (checksum out).

Definition decode_block (raw : bytes) : result SstError bytes :=
  if (length raw <? BLOCK_TRAILER_SIZE)%nat then Err SstCorruption else
  let checked := take (length raw - 4) raw in
  let stored_crc := le_value (drop (length raw - 4) raw) in
  if negb (checksum checked =? stored_crc)%N then Err SstCorruption else
  let body := take (length checked - 1) checked in
  match drop (length checked - 1) checked with
  | [] => Err SstCorruption
  | kind_byte :: _ =>
      match Compression_from_u8 kind_byte with
      | None => Err SstCorruption
      | Some NoCompression => Ok body
      | Some Lz4 =>
          match get_u64 body with
          | Err _ => Err SstCorruption
          | Ok (raw_len, consumed) =>
              let compressed := drop consumed body in
              if (MAX_UNCOMPRESSED_BLOCK <? raw_len)%N || (max_plausible_raw_len (length compressed) <? raw_len)%N then Err SstCorruption else
              match cd_decompress codec compressed raw_len with Some data => Ok data | None => Err SstCorruption end
          end
      end
  end.
End Frames.

(** ** Lemmas *)

Definition handle_ok (h : BlockHandle) : Prop := (bh_offset h < two64)%N /\ (bh_size h < two64)%N.
Lemma handle_roundtrip h rest : handle_ok h -> handle_decode_from (handle_encode_to h [] ++ rest) = Ok (h, length (handle_encode_to h [])).
Proof.
  intros [Ho Hs]. unfold handle_decode_from, handle_encode_to. rewrite (put_u64_app (bh_size h)). rewrite <- app_assoc, get_put_u64, drop_app_length, get_put_u64, length_app by done. by destruct h.
Qed.
Lemma handle_app h out : handle_encode_to h out = out ++ handle_encode_to h [].
Proof. unfold handle_encode_to, put_u64. by rewrite app_nil_l, app_assoc. Qed.

(** A handle inside a table of the size the builder allows takes ten bytes at
    most. *)
Lemma handle_short h : (bh_offset h < MAX_TABLE_SIZE)%N -> (bh_size h < MAX_TABLE_SIZE)%N -> (length (handle_encode_to h []) <= 10)%nat.
Proof.
  intros Ho Hs. change MAX_TABLE_SIZE with (2 ^ (7 * N.of_nat 5))%N in *. assert (forall v, (v < 2 ^ (7 * N.of_nat 5))%N -> (length (put_u64 v []) <= 5)%nat) as H.
  { intros v Hv. rewrite put_u64_length by (eapply N.lt_trans; [exact Hv|by vm_compute]). apply encoded_len_le; [done|lia]. }
  unfold handle_encode_to. rewrite (put_u64_app (bh_size h)), length_app. pose proof (H _ Ho). pose proof (H _ Hs). lia.
Qed.

Definition footer_fits (f : Footer) : Prop := Forall (fun h => (bh_offset h < MAX_TABLE_SIZE)%N /\ (bh_size h < MAX_TABLE_SIZE)%N) [ft_index f; ft_filter f; ft_properties f].
Lemma fits_ok h : (bh_offset h < MAX_TABLE_SIZE)%N /\ (bh_size h < MAX_TABLE_SIZE)%N -> handle_ok h.
Proof. intros [Ho Hs]. split; (eapply N.lt_trans; [eassumption|by vm_compute]). Qed.

(** The fixed size always has room, and the reader finds what was written. *)
Lemma footer_roundtrip f : footer_fits f -> ft_version f = SST_FORMAT_VERSION -> exists data, footer_encode f = Ok data /\ length data = SST_FOOTER_SIZE /\ footer_decode data = Ok f.
Proof.
  intros Hfit Hv. unfold footer_fits in Hfit. rewrite !Forall_cons in Hfit. destruct Hfit as (Hi & Hf & Hp & _). unfold footer_encode.
  rewrite (handle_app (ft_properties f)), (handle_app (ft_filter f)), <- app_assoc. set (a := handle_encode_to (ft_index f) []). set (b := handle_encode_to (ft_filter f) []). set (c := handle_encode_to (ft_properties f) []).
  pose proof (handle_short _ (proj1 Hi) (proj2 Hi)) as La. pose proof (handle_short _ (proj1 Hf) (proj2 Hf)) as Lb. pose proof (handle_short _ (proj1 Hp) (proj2 Hp)) as Lc. fold a in La. fold b in Lb. fold c in Lc.
  assert (length (a ++ b ++ c) <= HANDLE_REGION)%nat as Hlen by (rewrite !length_app; change HANDLE_REGION with 35%nat; lia). rewrite (proj2 (Nat.ltb_ge _ _)) by done. eexists. split; [reflexivity|].
  set (handles := a ++ b ++ c) in *. set (pad := replicate (HANDLE_REGION - length handles) Byte.x00). assert (length (handles ++ pad) = HANDLE_REGION) as Hreg by (rewrite length_app; unfold pad; rewrite length_replicate; lia).
  rewrite app_assoc. set (region := handles ++ pad) in *. assert (length (region ++ le_bytes 4 (ft_version f) ++ SST_MAGIC) = SST_FOOTER_SIZE) as Hall by (rewrite !length_app, Hreg, le_bytes_length; reflexivity). split; [done|].
  unfold footer_decode. rewrite Hall. cbn [negb Nat.eqb]. rewrite Nat.eqb_refl. cbn [negb]. rewrite <- drop_drop, <- Hreg, drop_app_length, take_app_length, take_app_length' by (symmetry; apply le_bytes_length).
  rewrite drop_app_length' by (symmetry; apply le_bytes_length). rewrite bool_decide_true by done. cbn [negb]. rewrite Hv, le_value_bytes by (by vm_compute). rewrite N.eqb_refl. cbn [negb].
  unfold region, handles. rewrite <- !app_assoc. unfold a at 1 2 3, b at 1 2, c at 1. rewrite (handle_roundtrip _ _ (fits_ok _ Hi)). cbn [rbind]. rewrite drop_app_length, (handle_roundtrip _ _ (fits_ok _ Hf)). cbn [rbind].
  rewrite drop_app_add, drop_app_length, (handle_roundtrip _ _ (fits_ok _ Hp)). cbn [rbind]. rewrite <- Hv. by destruct f.
Qed.

(** *** Frames *)

Lemma take_checked (out : bytes) (crc : N) : take (length (out ++ le_bytes 4 crc) - 4) (out ++ le_bytes 4 crc) = out /\ drop (length (out ++ le_bytes 4 crc) - 4) (out ++ le_bytes 4 crc) = le_bytes 4 crc.
Proof. rewrite length_app, le_bytes_length. replace (length out + 4 - 4)%nat with (length out) by lia. by rewrite take_app_length, drop_app_length. Qed.
Lemma take_body (body : bytes) (x : byte) : take (length (body ++ [x]) - 1) (body ++ [x]) = body /\ drop (length (body ++ [x]) - 1) (body ++ [x]) = [x].
Proof. rewrite length_app. cbn. replace (length body + 1 - 1)%nat with (length body) by lia. by rewrite take_app_length, drop_app_length. Qed.
Lemma from_as_u8 c : Compression_from_u8 (Compression_as_u8 c) = Some c.
Proof. by destruct c. Qed.

Section FrameLaws.
Context (codec : Codec).
(** A frame with a good checksum is judged by its code and its body. *)
Lemma decode_frame body kind : decode_block codec ((body ++ [Compression_as_u8 kind]) ++ le_bytes 4 (checksum (body ++ [Compression_as_u8 kind]))) =
  match kind with
  | NoCompression => Ok body
  | Lz4 =>
      match get_u64 body with
      | Err _ => Err SstCorruption
      | Ok (raw_len, consumed) =>
          let compressed := drop consumed body in
          if (MAX_UNCOMPRESSED_BLOCK <? raw_len)%N || (max_plausible_raw_len (length compressed) <? raw_len)%N then Err SstCorruption else
          match cd_decompress codec compressed raw_len with Some data => Ok data | None => Err SstCorruption end
      end
  end.
Proof using.
  unfold decode_block. set (out := body ++ [Compression_as_u8 kind]). assert (length out = length body + 1)%nat as Ho by (unfold out; by rewrite length_app).
  assert ((length (out ++ le_bytes 4 (checksum out)) <? BLOCK_TRAILER_SIZE)%nat = false) as -> by (apply Nat.ltb_ge; rewrite length_app, le_bytes_length; unfold BLOCK_TRAILER_SIZE; lia).
  destruct (take_checked out (checksum out)) as [-> ->]. rewrite le_value_bytes by apply checksum_lt. rewrite N.eqb_refl. cbn [negb]. unfold out.
  destruct (take_body body (Compression_as_u8 kind)) as [-> ->]. rewrite from_as_u8. by destruct kind.
Qed.

Context `{!CodecLaws codec}.
Lemma frame_roundtrip payload compression : (N.of_nat (length payload) <= MAX_UNCOMPRESSED_BLOCK)%N \/ compression = NoCompression ->
  decode_block codec (encode_block codec payload compression) = Ok payload.
Proof using All.
  intros Hsize. unfold encode_block. destruct compression; [apply decode_frame|]. destruct Hsize as [Hsize|]; [|done]. destruct (length _ <? _)%nat; [|apply decode_frame]. rewrite decode_frame.
  assert (N.of_nat (length payload) < two64)%N as H64 by (eapply N.le_lt_trans; [exact Hsize|by vm_compute]). rewrite N.min_l by (unfold u64_max; unfold two64 in H64; lia). rewrite get_put_u64, drop_app_length by done. cbv zeta.
  rewrite (proj2 (N.ltb_ge _ _)) by done. rewrite (proj2 (N.ltb_ge _ _)); [cbn [orb]; by rewrite codec_roundtrip|].
  pose proof (codec_ratio payload) as Hr. unfold max_plausible_raw_len, sat_add. unfold two64 in H64. unfold u64_max. lia.
Qed.
(** A frame damaged in four bytes in a row, all of the checked part or all of
    the checksum, is refused. *)
Lemma frame_damage p x y s crc : length x = length y -> (length x <= 4)%nat -> x <> y -> (1 <= length (p ++ x ++ s))%nat ->
  checksum (p ++ x ++ s) = crc -> decode_block codec ((p ++ y ++ s) ++ le_bytes 4 crc) = Err SstCorruption.
Proof using.
  intros Hl H4 Hne Hlen Hcrc. unfold decode_block. destruct (take_checked (p ++ y ++ s) crc) as [-> ->]. rewrite le_value_bytes by (rewrite <- Hcrc; apply checksum_lt).
  rewrite length_app, le_bytes_length. assert (length (p ++ y ++ s) = length (p ++ x ++ s)) as Hsame by (rewrite !length_app; lia). unfold BLOCK_TRAILER_SIZE. rewrite (proj2 (Nat.ltb_ge _ _)) by lia.
  rewrite (proj2 (N.eqb_neq _ _)); [done|]. rewrite <- Hcrc. intros E. revert E. apply update_detects; [done|done|by rewrite <- Hl|done].
Qed.
Lemma crc_damage out crc : (1 <= length out)%nat -> (crc < two32)%N -> checksum out <> crc -> decode_block codec (out ++ le_bytes 4 crc) = Err SstCorruption.
Proof using.
  intros Hlen Hcrc Hne. unfold decode_block. destruct (take_checked out crc) as [-> ->]. rewrite le_value_bytes by exact Hcrc. rewrite length_app, le_bytes_length. unfold BLOCK_TRAILER_SIZE. rewrite (proj2 (Nat.ltb_ge _ _)) by lia.
  by rewrite (proj2 (N.eqb_neq _ _)).
Qed.
End FrameLaws.

(** What a table stores of a block is exactly the block or an error.  A block
    of at most 256 MiB, compressed or not, is read back byte for byte; the same
    frame with up to four consecutive bytes of its payload or compression code
    changed, or with another checksum, is refused as corrupt. *)
Theorem frame_exact (codec : Codec) `{!CodecLaws codec} (payload : bytes) (compression : Compression) :
  (N.of_nat (length payload) <= MAX_UNCOMPRESSED_BLOCK)%N ->
  let frame := encode_block codec payload compression in
  decode_block codec frame = Ok payload /\
  (forall p x y s, take (length frame - 4) frame = p ++ x ++ s -> length x = length y -> (length x <= 4)%nat -> x <> y ->
    decode_block codec (p ++ y ++ s ++ drop (length frame - 4) frame) = Err SstCorruption) /\
  (forall crc, (crc < two32)%N -> le_bytes 4 crc <> drop (length frame - 4) frame -> decode_block codec (take (length frame - 4) frame ++ le_bytes 4 crc) = Err SstCorruption).
Proof.
  intros Hsize. cbv zeta. split; [apply (frame_roundtrip codec); by left|]. assert (exists body, encode_block codec payload compression = body ++ le_bytes 4 (checksum body) /\ (1 <= length body)%nat) as (body & -> & Hne).
  { unfold encode_block. destruct (match compression with Lz4 => _ | _ => _ end) as [c|]; (eexists; split; [reflexivity|]; rewrite length_app; cbn; lia). }
  destruct (take_checked body (checksum body)) as [-> ->]. split.
  - intros p x y s Hbody Hl H4 Hd. rewrite Hbody in Hne |- *. replace (p ++ y ++ s ++ le_bytes 4 (checksum (p ++ x ++ s))) with ((p ++ y ++ s) ++ le_bytes 4 (checksum (p ++ x ++ s))) by by rewrite <- !app_assoc. by apply (frame_damage codec p x y s).
  - intros crc Hcrc Hd. apply crc_damage; [done|done|]. intros E. by rewrite E in Hd.
Qed.

(** A codec that keeps everything. *)
Definition plain_codec : Codec := mkCodec id (fun data _ => Some data).
#[export] Instance plain_laws : CodecLaws plain_codec.
Proof. split; [done|]. intros data. cbn. lia. Qed.
Lemma frame_exact_witness : let frame := encode_block plain_codec [Byte.x61; Byte.x62; Byte.x63] Lz4 in
  decode_block plain_codec frame = Ok [Byte.x61; Byte.x62; Byte.x63] /\ decode_block plain_codec ([Byte.x61] ++ [Byte.x78] ++ [Byte.x63; Byte.x00] ++ drop 4 frame) = Err SstCorruption.
Proof.
  destruct (frame_exact plain_codec [Byte.x61; Byte.x62; Byte.x63] Lz4) as (H1 & H2 & _); [vm_compute; discriminate|]. split; [exact H1|].
  apply (H2 [Byte.x61] [Byte.x62] [Byte.x78] [Byte.x63; Byte.x00]); [vm_compute; reflexivity|reflexivity|cbn; lia|discriminate].
Defined.

(** A block of more than 256 MiB that compresses is written and cannot be
    read.  Nothing bounds a value below the four gigabytes of its length field,
    and a block holds at least one entry; when LZ4 saves an eighth of such a block
    it is stored compressed, and the reader takes its length for corruption. *)
Theorem oversized_block_unreadable (codec : Codec) (payload : bytes) :
  (MAX_UNCOMPRESSED_BLOCK < N.of_nat (length payload) < two64)%N -> (10 + length (cd_compress codec payload) < length payload - length payload / 8)%nat ->
  decode_block codec (encode_block codec payload Lz4) = Err SstCorruption.
Proof.
  intros [Hbig H64] Hsmall. unfold encode_block. rewrite N.min_l by (unfold u64_max; unfold two64 in H64; lia). rewrite length_app, put_u64_length by done.
  assert (encoded_len_u64 (N.of_nat (length payload)) <= 10)%nat by (apply encoded_len_le; [by apply u64_fuel|lia]). rewrite (proj2 (Nat.ltb_lt _ _)) by lia.
  rewrite decode_frame, get_put_u64 by done. cbv zeta. by rewrite (proj2 (N.ltb_lt _ _)).
Qed.
Lemma oversized_block_unreadable_witness : exists payload, length payload = N.to_nat 300000000 /\
  decode_block (mkCodec (fun data => take (length data / 2) data) (fun data _ => Some data)) (encode_block (mkCodec (fun data => take (length data / 2) data) (fun data _ => Some data)) payload Lz4) = Err SstCorruption.
Proof.
  exists (replicate (N.to_nat 300000000) Byte.x00). split; [apply length_replicate|]. apply oversized_block_unreadable.
  - rewrite length_replicate, N2Nat.id. split; reflexivity.
  - cbn [cd_compress]. rewrite length_take, length_replicate. set (n := N.to_nat 300000000). assert (N.of_nat n = 300000000%N) as Hn by apply N2Nat.id. clearbody n. assert (300000000 <= Z.of_nat n)%Z as Hz by lia. clear Hn. pose proof (Nat.div_mod_eq n 2). pose proof (Nat.mod_upper_bound n 2). pose proof (Nat.div_mod_eq n 8). pose proof (Nat.mod_upper_bound n 8). lia.
Defined.
