(* ===== verification/Bloom.v ===== *)
(** The Bloom filter of a table (esker-engine/src/sst/filter.rs) over the hash
    of esker-base/src/hash.rs, with the prefix extractor the engine builds it
    with (dbformat.rs). *)

From stdpp Require Import prelude.
From Stdlib Require Import NArith ZArith Lia.
From S2P Require Import Prelude Block DbFormat.

(** ** The hash *)

Definition wmul (a b : N) : N := ((a * b) mod two64)%N.
Definition FNV_OFFSET_BASIS : N := 0xCBF29CE484222325.
Definition FNV_PRIME : N := 0x100000001B3.
Definition fnv1a64_from (state : N) (data : bytes) : N := foldl (fun hash byte => wmul (N.lxor hash (b2n byte)) FNV_PRIME) state data.
Definition fnv1a64 (data : bytes) : N := fnv1a64_from FNV_OFFSET_BASIS data.
Definition mix64 (value : N) : N :=
  let x := N.lxor value (N.shiftr value 30) in
  let x := wmul x 0xBF58476D1CE4E5B9 in
  let x := N.lxor x (N.shiftr x 27) in
  let x := wmul x 0x94D049BB133111EB in
  N.lxor x (N.shiftr x 31).
Definition hash64 (data : bytes) : N := mix64 (fnv1a64 data).

(** ** The filter *)

Definition MIN_BITS : N := 64.
Definition MAX_PROBES : N := 30.

(** The bytes a filter hashes for a key, [None] for a key it does not filter. *)
Definition filter_key (extractor : option PrefixExtractor) (key : bytes) : option bytes :=
  match extractor with
  | None => Some key
  | Some e => if pe_in_domain e key then Some (pe_prefix e key) else None
  end.

Record BloomBuilder := mkBloom { blm_bits_per_key : N; blm_hashes : list N }.
Definition BloomBuilder_new (bits_per_key : N) : BloomBuilder := mkBloom bits_per_key [].
Definition blm_add (key : bytes) (b : BloomBuilder) : BloomBuilder := mkBloom (blm_bits_per_key b) (blm_hashes b ++ [hash64 key]).

(** [u8::try_from(k).unwrap_or(MAX_PROBES).clamp(1, MAX_PROBES)]. *)
Definition probes_for (bits_per_key : N) : N :=
  let k := (wmul bits_per_key 69 / 100)%N in
  let k := if (k <? 256)%N then k else MAX_PROBES in
  N.max 1 (N.min k MAX_PROBES).

Definition rotate_left32 (h : N) : N := N.lor (N.shiftl h 32 mod two64) (N.shiftr h 32).
(** The positions [each_probe] visits. *)
Fixpoint probe_positions (probes : nat) (h delta bits : N) : list N :=
  match probes with
  | O => []
  | S probes => (h mod bits)%N :: probe_positions probes (wadd h delta) delta bits
  end.
Definition each_probe (hash : N) (probes : N) (bits : N) : list N := probe_positions (N.to_nat probes) hash (rotate_left32 hash) bits.

Definition set_bit (array : bytes) (position : N) : bytes :=
  alter (fun byte => n2b (N.lor (b2n byte) (N.shiftl 1 (position mod 8)))) (N.to_nat (position / 8)) array.
Definition paint (array : bytes) (hash probes bits : N) : bytes := foldl set_bit array (each_probe hash probes bits).
Definition blm_finish (b : BloomBuilder) : bytes :=
  let probes := probes_for (blm_bits_per_key b) in
  let bits := N.max (N.min (N.of_nat (length (blm_hashes b)) * blm_bits_per_key b) u64_max) MIN_BITS in
  let size := ((bits + 7) / 8)%N in
  let bits := (size * 8)%N in
  foldl (fun array hash => paint array hash probes bits) (replicate (N.to_nat size) Byte.x00) (blm_hashes b) ++ [n2b probes].

Record BloomFilter := mkFilter { bf_array : bytes; bf_probes : N; bf_bits : N }.
Definition BloomFilter_parse (data : bytes) : result SstError BloomFilter :=
  match last data with
  | None => Err SstCorruption
  | Some probes => let array := take (length data - 1) data in Ok (mkFilter array (b2n probes) (N.of_nat (length array) * 8))
  end.
Definition test_bit (array : bytes) (position : N) : bool :=
  match array !! N.to_nat (position / 8) with Some byte => N.testbit (b2n byte) (position mod 8) | None => false end.
Definition bf_may_contain (key : bytes) (f : BloomFilter) : bool :=
  if (bf_bits f =? 0)%N || (bf_probes f =? 0)%N || (MAX_PROBES <? bf_probes f)%N then true
  else forallb (test_bit (bf_array f)) (each_probe (hash64 key) (bf_probes f) (bf_bits f)).

(** ** No key is lost *)

Lemma test_set array position q : (position < N.of_nat (length array) * 8)%N -> test_bit (set_bit array position) q = test_bit array q || (q =? position)%N.
Proof.
  intros Hp. unfold test_bit, set_bit. assert (N.to_nat (position / 8) < length array)%nat as Hlt by (pose proof (N.Div0.div_lt_upper_bound position 8 (N.of_nat (length array))); lia).
  destruct (decide (N.to_nat (q / 8) = N.to_nat (position / 8))) as [E|Hne].
  - rewrite E, list_lookup_alter_eq. destruct (lookup_lt_is_Some_2 array _ Hlt) as [b Hb]. rewrite Hb. cbn [fmap option_fmap option_map]. assert (q / 8 = position / 8)%N as E' by lia.
    pose proof (b2n_lt b). rewrite b2n_n2b_small.
    + rewrite N.lor_spec, N.shiftl_1_l, N.pow2_bits_eqb. f_equal. pose proof (N.div_mod q 8). pose proof (N.div_mod position 8). destruct (N.eqb_spec q position) as [->|Hq]; [apply N.eqb_refl|]. apply N.eqb_neq. intros Em. lia.
    + apply (lor_lt_pow2 _ _ 8); [done|]. rewrite N.shiftl_1_l. apply N.pow_lt_mono_r; [done|]. by apply N.mod_lt.
  - rewrite list_lookup_alter_ne by congruence. assert ((q =? position)%N = false) as -> by (apply N.eqb_neq; intros ->; done). by rewrite orb_false_r.
Qed.
Lemma set_bit_length array position : length (set_bit array position) = length array.
Proof. apply length_alter. Qed.
Lemma positions_lt probes h delta bits : (0 < bits)%N -> Forall (fun p => p < bits)%N (probe_positions probes h delta bits).
Proof. intros Hb. revert h. induction probes as [|probes IH]; intros h; constructor; [apply N.mod_lt; lia|apply IH]. Qed.

Lemma paint_positions positions array q : Forall (fun p => p < N.of_nat (length array) * 8)%N positions ->
  length (foldl set_bit array positions) = length array /\ test_bit (foldl set_bit array positions) q = test_bit array q || existsb (N.eqb q) positions.
Proof.
  revert array. induction positions as [|p positions IH]; intros array Hp; cbn; [by rewrite orb_false_r|]. apply Forall_cons in Hp as [Hp Hps].
  destruct (IH (set_bit array p)) as [Hl Ht]; [by rewrite set_bit_length|]. rewrite Hl, Ht, set_bit_length, test_set by done. by rewrite orb_assoc.
Qed.
(** Every position of every hash is set, and stays set. *)
Lemma painted_bits hashes array probes bits : bits = (N.of_nat (length array) * 8)%N -> (0 < bits)%N ->
  let painted := foldl (fun array hash => paint array hash probes bits) array hashes in
  length painted = length array /\ (forall q, test_bit array q = true -> test_bit painted q = true) /\ forall hash, hash ∈ hashes -> forallb (test_bit painted) (each_probe hash probes bits) = true.
Proof.
  intros -> Hpos. cbv zeta. set (bits := (N.of_nat (length array) * 8)%N) in *. assert (bits = (N.of_nat (length array) * 8)%N) as Hb by done. clearbody bits. revert array Hb. induction hashes as [|h hashes IH]; intros array Hb; cbn [foldl]; [split_and!; [done..|]; intros hash ?%elem_of_nil; done|].
  assert (Forall (fun p => p < N.of_nat (length array) * 8)%N (each_probe h probes bits)) as Hps by (rewrite <- Hb; by apply positions_lt).
  assert (length (paint array h probes bits) = length array) as Hl by by apply (paint_positions _ _ 0%N). destruct (IH (paint array h probes bits)) as (IH1 & IH2 & IH3); [by rewrite Hl|]. split_and!.
  - by rewrite IH1.
  - intros q Hq. apply IH2. unfold paint. rewrite (proj2 (paint_positions _ array q Hps)). by rewrite Hq.
  - intros hash [->|Hin]%elem_of_cons; [|by apply IH3]. apply forallb_forall. intros q Hq. apply IH2. unfold paint. rewrite (proj2 (paint_positions _ array q Hps)). apply orb_true_intro. right. apply existsb_exists. exists q. split; [done|apply N.eqb_refl].
Qed.

Definition blm_fill (extractor : option PrefixExtractor) (keys : list bytes) (b : BloomBuilder) : BloomBuilder :=
  foldl (fun b key => match filter_key extractor key with Some data => blm_add data b | None => b end) b keys.
Lemma fill_hashes extractor keys b key data : key ∈ keys -> filter_key extractor key = Some data -> hash64 data ∈ blm_hashes (blm_fill extractor keys b).
Proof.
  assert (forall ks b h, h ∈ blm_hashes b -> h ∈ blm_hashes (blm_fill extractor ks b)) as Hmono.
  { induction ks as [|k ks IH]; intros b0 h Hh; [done|]. cbn. apply IH. destruct (filter_key extractor k); [|done]. cbn. set_solver. }
  revert b. induction keys as [|k keys IH]; intros b Hin Hf; [by apply elem_of_nil in Hin|]. cbn. apply elem_of_cons in Hin as [->|Hin]; [|by apply IH]. apply Hmono. rewrite Hf. cbn. set_solver.
Qed.
Lemma probes_range n : (1 <= probes_for n <= 30)%N.
Proof. unfold probes_for, MAX_PROBES. cbv zeta. lia. Qed.

Lemma filter_finds b data f : hash64 data ∈ blm_hashes b -> BloomFilter_parse (blm_finish b) = Ok f -> bf_may_contain data f = true.
Proof.
  intros Hin. unfold BloomFilter_parse, blm_finish. cbv zeta. set (probes := probes_for _). set (bits := N.max _ _). set (size := ((bits + 7) / 8)%N). rewrite last_snoc. set (painted := foldl _ _ _).
  assert (1 <= size)%N as Hsize by (unfold size; apply N.div_le_lower_bound; [done|]; unfold bits, MIN_BITS; lia).
  destruct (painted_bits (blm_hashes b) (replicate (N.to_nat size) Byte.x00) probes (size * 8)) as (Hl & _ & Hall); [by rewrite length_replicate, N2Nat.id|lia|]. fold painted in Hl, Hall. rewrite length_replicate in Hl.
  rewrite length_app. cbn [length]. replace (length painted + 1 - 1)%nat with (length painted) by lia. rewrite take_app_length. intros [= <-]. unfold bf_may_contain. cbn [bf_array bf_probes bf_bits].
  pose proof (probes_range (blm_bits_per_key b)) as Hp. fold probes in Hp. rewrite b2n_n2b_small by lia. rewrite Hl, N2Nat.id. destruct (_ || _); [done|]. by apply Hall.
Qed.

(** C29: a filter never denies a key that is there.  Whatever the density and the
    prefix extractor, the filter block built over a table's keys parses, and
    answers that the table may contain every one of the keys, hashing for the
    probe the bytes that were hashed when it was built. *)
Theorem bloom_no_false_negative (extractor : option PrefixExtractor) (bits_per_key : N) (keys : list bytes) : exists f,
  BloomFilter_parse (blm_finish (blm_fill extractor keys (BloomBuilder_new bits_per_key))) = Ok f /\
  Forall (fun key => match filter_key extractor key with Some data => bf_may_contain data f | None => true end = true) keys.
Proof.
  set (b := blm_fill extractor keys (BloomBuilder_new bits_per_key)). destruct (BloomFilter_parse (blm_finish b)) as [f|e] eqn:Ef.
  - exists f. split; [done|]. apply Forall_forall. intros key Hin. destruct (filter_key extractor key) as [data|] eqn:Ek; [|done]. apply (filter_finds b data f); [by apply (fill_hashes extractor keys _ key)|done].
  - unfold BloomFilter_parse, blm_finish in Ef. cbv zeta in Ef. by rewrite last_snoc in Ef.
Qed.
