(* ===== verification/SstProps.v ===== *)
(** The properties block of a table (esker-engine/src/sst/props.rs): names and
    values in a block with a restart point at every entry. *)

From Stdlib Require Import Strings.String.
From stdpp Require Import prelude.
From Stdlib Require Import NArith ZArith Lia.
From S2P Require Import Prelude Varint Utf8 Lsm Block SstFormat.

(** ** Names *)

Inductive PropName :=
  | BLOOM_BITS_PER_KEY | COMPARATOR | COMPRESSION | DATA_BLOCK_COUNT | DATA_SIZE | ENTRY_COUNT | FILTER_SIZE | FORMAT_VERSION | INDEX_SIZE
  | KEY_LARGEST | KEY_SMALLEST | PREFIX_EXTRACTOR | RANGE_DEL_COUNT | RANGE_DEL_OFFSET | RANGE_DEL_SIZE | RAW_KEY_BYTES | RAW_VALUE_BYTES
  | SEQNO_LARGEST | SEQNO_SMALLEST.
Definition prop_bytes (n : PropName) : bytes :=
  list_byte_of_string (match n with
  | BLOOM_BITS_PER_KEY => "esker.bloom.bits_per_key" | COMPARATOR => "esker.comparator" | COMPRESSION => "esker.compression"
  | DATA_BLOCK_COUNT => "esker.data.block_count" | DATA_SIZE => "esker.data.size" | ENTRY_COUNT => "esker.entry_count"
  | FILTER_SIZE => "esker.filter.size" | FORMAT_VERSION => "esker.format_version" | INDEX_SIZE => "esker.index.size"
  | KEY_LARGEST => "esker.key.largest" | KEY_SMALLEST => "esker.key.smallest" | PREFIX_EXTRACTOR => "esker.prefix_extractor"
  | RANGE_DEL_COUNT => "esker.range_del.count" | RANGE_DEL_OFFSET => "esker.range_del.offset" | RANGE_DEL_SIZE => "esker.range_del.size"
  | RAW_KEY_BYTES => "esker.raw_key_bytes" | RAW_VALUE_BYTES => "esker.raw_value_bytes" | SEQNO_LARGEST => "esker.seqno.largest"
  | SEQNO_SMALLEST => "esker.seqno.smallest" end)%string.
Definition prop_names : list PropName :=
  [BLOOM_BITS_PER_KEY; COMPARATOR; COMPRESSION; DATA_BLOCK_COUNT; DATA_SIZE; ENTRY_COUNT; FILTER_SIZE; FORMAT_VERSION; INDEX_SIZE;
   KEY_LARGEST; KEY_SMALLEST; PREFIX_EXTRACTOR; RANGE_DEL_COUNT; RANGE_DEL_OFFSET; RANGE_DEL_SIZE; RAW_KEY_BYTES; RAW_VALUE_BYTES;
   SEQNO_LARGEST; SEQNO_SMALLEST].
Definition prop_of_bytes (key : bytes) : option PropName := snd <$> list_find (fun n => prop_bytes n = key) prop_names.

(** ** The record *)

Record TableProperties := mkProps {
  tp_entry_count : N;
  tp_data_block_count : N;
  tp_raw_key_bytes : N;
  tp_raw_value_bytes : N;
  tp_data_size : N;
  tp_index_size : N;
  tp_filter_size : N;
  tp_smallest_key : bytes;
  tp_largest_key : bytes;
  tp_smallest_seqno : N;
  tp_largest_seqno : N;
  tp_format_version : N;
  tp_comparator_name : bytes;
  tp_prefix_extractor_name : option bytes;
  tp_bloom_bits_per_key : N;
  tp_range_del_offset : N;
  tp_range_del_size : N;
  tp_range_del_count : N;
  tp_compression : Compression;
  tp_file_size : N }.
(** [Default]: the default compression is LZ4. *)
Definition TableProperties_default : TableProperties := mkProps 0 0 0 0 0 0 0 [] [] 0 0 0 [] None 0 0 0 0 Lz4 0.

(** [TableProperties { file_size, ..props }]. *)
Definition with_file_size (size : N) (p : TableProperties) : TableProperties :=
  mkProps (tp_entry_count p) (tp_data_block_count p) (tp_raw_key_bytes p) (tp_raw_value_bytes p) (tp_data_size p) (tp_index_size p) (tp_filter_size p) (tp_smallest_key p) (tp_largest_key p)
    (tp_smallest_seqno p) (tp_largest_seqno p) (tp_format_version p) (tp_comparator_name p) (tp_prefix_extractor_name p) (tp_bloom_bits_per_key p) (tp_range_del_offset p) (tp_range_del_size p)
    (tp_range_del_count p) (tp_compression p) size.

Definition u64_value (n : N) : bytes := put_u64 n [].
(** What [encode] adds to the block, in order. *)
Definition props_entries (p : TableProperties) : list entry :=
  [(prop_bytes BLOOM_BITS_PER_KEY, u64_value (tp_bloom_bits_per_key p));
   (prop_bytes COMPARATOR, tp_comparator_name p);
   (prop_bytes COMPRESSION, u64_value (b2n (Compression_as_u8 (tp_compression p))));
   (prop_bytes DATA_BLOCK_COUNT, u64_value (tp_data_block_count p));
   (prop_bytes DATA_SIZE, u64_value (tp_data_size p));
   (prop_bytes ENTRY_COUNT, u64_value (tp_entry_count p));
   (prop_bytes FILTER_SIZE, u64_value (tp_filter_size p));
   (prop_bytes FORMAT_VERSION, u64_value (tp_format_version p));
   (prop_bytes INDEX_SIZE, u64_value (tp_index_size p));
   (prop_bytes KEY_LARGEST, tp_largest_key p);
   (prop_bytes KEY_SMALLEST, tp_smallest_key p);
   (prop_bytes PREFIX_EXTRACTOR, default [] (tp_prefix_extractor_name p))] ++
  (if (0 <? tp_range_del_count p)%N
   then [(prop_bytes RANGE_DEL_COUNT, u64_value (tp_range_del_count p)); (prop_bytes RANGE_DEL_OFFSET, u64_value (tp_range_del_offset p));
         (prop_bytes RANGE_DEL_SIZE, u64_value (tp_range_del_size p))]
   else []) ++
  [(prop_bytes RAW_KEY_BYTES, u64_value (tp_raw_key_bytes p));
   (prop_bytes RAW_VALUE_BYTES, u64_value (tp_raw_value_bytes p));
   (prop_bytes SEQNO_LARGEST, u64_value (tp_largest_seqno p));
   (prop_bytes SEQNO_SMALLEST, u64_value (tp_smallest_seqno p))].
Definition props_encode (p : TableProperties) : result SstError bytes :=
  let? builder := bb_fill (BlockBuilder_new 1) (props_entries p) in
  Ok (bb_buffer (bb_finish builder)).

(** ** Reading *)

Definition read_u64 (value : bytes) : result SstError N := match get_u64 value with Ok (v, _) => Ok v | Err _ => Err SstCorruption end.
Definition read_string (value : bytes) : result SstError bytes := if valid_utf8 value then Ok value else Err SstCorruption.

Definition props_set (key value : bytes) (p : TableProperties) : result SstError TableProperties :=
  let '(mkProps count blocks raw_key raw_value data index filter smallest largest low high version comparator extractor bloom rd_offset rd_size rd_count compression size) := p in
  match prop_of_bytes key with
  | None => Ok p
  | Some BLOOM_BITS_PER_KEY => let? v := read_u64 value in Ok (mkProps count blocks raw_key raw_value data index filter smallest largest low high version comparator extractor v rd_offset rd_size rd_count compression size)
  | Some COMPARATOR => let? v := read_string value in Ok (mkProps count blocks raw_key raw_value data index filter smallest largest low high version v extractor bloom rd_offset rd_size rd_count compression size)
  | Some COMPRESSION =>
      let? code := read_u64 value in
      match (if (code <? 256)%N then Compression_from_u8 (n2b code) else None) with
      | None => Err SstCorruption
      | Some v => Ok (mkProps count blocks raw_key raw_value data index filter smallest largest low high version comparator extractor bloom rd_offset rd_size rd_count v size)
      end
  | Some DATA_BLOCK_COUNT => let? v := read_u64 value in Ok (mkProps count v raw_key raw_value data index filter smallest largest low high version comparator extractor bloom rd_offset rd_size rd_count compression size)
  | Some DATA_SIZE => let? v := read_u64 value in Ok (mkProps count blocks raw_key raw_value v index filter smallest largest low high version comparator extractor bloom rd_offset rd_size rd_count compression size)
  | Some ENTRY_COUNT => let? v := read_u64 value in Ok (mkProps v blocks raw_key raw_value data index filter smallest largest low high version comparator extractor bloom rd_offset rd_size rd_count compression size)
  | Some FILTER_SIZE => let? v := read_u64 value in Ok (mkProps count blocks raw_key raw_value data index v smallest largest low high version comparator extractor bloom rd_offset rd_size rd_count compression size)
  | Some FORMAT_VERSION =>
      let? v := read_u64 value in
      if (v <? 4294967296)%N then Ok (mkProps count blocks raw_key raw_value data index filter smallest largest low high v comparator extractor bloom rd_offset rd_size rd_count compression size)
      else Err SstCorruption
  | Some INDEX_SIZE => let? v := read_u64 value in Ok (mkProps count blocks raw_key raw_value data v filter smallest largest low high version comparator extractor bloom rd_offset rd_size rd_count compression size)
  | Some KEY_LARGEST => Ok (mkProps count blocks raw_key raw_value data index filter smallest value low high version comparator extractor bloom rd_offset rd_size rd_count compression size)
  | Some KEY_SMALLEST => Ok (mkProps count blocks raw_key raw_value data index filter value largest low high version comparator extractor bloom rd_offset rd_size rd_count compression size)
  | Some PREFIX_EXTRACTOR =>
      let? named := read_string value in
      Ok (mkProps count blocks raw_key raw_value data index filter smallest largest low high version comparator (if decide (named = []) then None else Some named) bloom rd_offset rd_size rd_count compression size)
  | Some RANGE_DEL_COUNT => let? v := read_u64 value in Ok (mkProps count blocks raw_key raw_value data index filter smallest largest low high version comparator extractor bloom rd_offset rd_size v compression size)
  | Some RANGE_DEL_OFFSET => let? v := read_u64 value in Ok (mkProps count blocks raw_key raw_value data index filter smallest largest low high version comparator extractor bloom v rd_size rd_count compression size)
  | Some RANGE_DEL_SIZE => let? v := read_u64 value in Ok (mkProps count blocks raw_key raw_value data index filter smallest largest low high version comparator extractor bloom rd_offset v rd_count compression size)
  | Some RAW_KEY_BYTES => let? v := read_u64 value in Ok (mkProps count blocks v raw_value data index filter smallest largest low high version comparator extractor bloom rd_offset rd_size rd_count compression size)
  | Some RAW_VALUE_BYTES => let? v := read_u64 value in Ok (mkProps count blocks raw_key v data index filter smallest largest low high version comparator extractor bloom rd_offset rd_size rd_count compression size)
  | Some SEQNO_LARGEST => let? v := read_u64 value in Ok (mkProps count blocks raw_key raw_value data index filter smallest largest low v version comparator extractor bloom rd_offset rd_size rd_count compression size)
  | Some SEQNO_SMALLEST => let? v := read_u64 value in Ok (mkProps count blocks raw_key raw_value data index filter smallest largest v high version comparator extractor bloom rd_offset rd_size rd_count compression size)
  end.

(** The [while iter.valid()] loop; an entry takes at least a byte. *)
Fixpoint props_loop (fuel : nat) (it : BlockIter) (p : TableProperties) : result SstError TableProperties :=
  match fuel with
  | O => Ok p
  | S fuel =>
      if bi_valid it then let? p := props_set (bi_key it) (bi_value_bytes it) p in props_loop fuel (bi_next it) p
      else if bi_status it then Err SstCorruption else Ok p
  end.
Definition props_decode (payload : bytes) : result SstError TableProperties :=
  let? block := Block_new payload in
  let it := bi_seek_to_first (blk_iter block) in
  props_loop (bi_rounds it) it TableProperties_default.

(** ** The round trip *)

Fixpoint props_apply (entries : list entry) (p : TableProperties) : result SstError TableProperties :=
  match entries with
  | [] => Ok p
  | (key, value) :: entries => let? p := props_set key value p in props_apply entries p
  end.
Lemma props_apply_app l l' p : props_apply (l ++ l') p = (let? p := props_apply l p in props_apply l' p).
Proof. revert p. induction l as [|[k v] l IH]; intros p; [done|]. cbn. destruct (props_set k v p); [apply IH|done]. Qed.

Lemma props_walk b l starts fuel i it p : block_holds b l starts -> lands b l starts i it -> (i <= length l)%nat -> (length l - i < fuel)%nat ->
  props_loop fuel it p = props_apply (pc_entry <$> drop i l) p.
Proof.
  intros Hb. revert i it p. induction fuel as [|fuel IH]; intros i it p Hl Hi Hf; [lia|]. cbn [props_loop]. unfold lands in Hl. destruct (Nat.ltb_spec i (length l)) as [Hlt|Hge].
  - destruct (on_key b l starts Hb i it Hl) as (q & Hq & -> & -> & -> & _). rewrite (drop_S _ _ _ Hq), fmap_cons. cbn [props_apply]. destruct (pc_entry q) as [k v]. cbn [fst snd].
    destruct (props_set k v p) as [p'|]; [|done]. cbn [rbind]. apply IH; [unfold lands; by apply next_on|lia|lia].
  - subst it. rewrite off_invalid. cbn. by rewrite drop_ge.
Qed.
Lemma props_decode_block payload b l starts : Block_new payload = Ok b -> block_holds b l starts -> props_decode payload = props_apply (pc_entry <$> l) TableProperties_default.
Proof.
  intros Hn Hb. unfold props_decode. rewrite Hn. cbn [rbind]. pose proof (first_on b l starts Hb (blk_iter b) (conj eq_refl eq_refl)) as Hfirst. rewrite (props_walk b l starts _ 0); [by rewrite drop_0|done| |lia|].
  - unfold lands. case_decide as E; [by rewrite E|]. rewrite (proj2 (Nat.ltb_lt _ _)); [done|]. destruct l; [done|cbn; lia].
  - assert (bi_block (bi_seek_to_first (blk_iter b)) = b) as Hblk. { case_decide; [by rewrite Hfirst|]. by destruct (on_key b l starts Hb 0 _ Hfirst) as (_ & _ & _ & _ & _ & ? & _). }
    unfold bi_rounds, bi_limit. rewrite Hblk, (bh_limit _ _ _ Hb), <- (place_all l (length l)) by done. pose proof (place_ge l (length l) ltac:(done)). lia.
Qed.

(** Numbers of their width, text that is text, names that are there, and
    nothing said of a block of tombstones that does not exist. *)
Record props_ok (p : TableProperties) : Prop := {
  po_numbers : Forall (fun n => n < two64)%N [tp_entry_count p; tp_data_block_count p; tp_raw_key_bytes p; tp_raw_value_bytes p; tp_data_size p; tp_index_size p; tp_filter_size p;
    tp_smallest_seqno p; tp_largest_seqno p; tp_bloom_bits_per_key p; tp_range_del_offset p; tp_range_del_size p; tp_range_del_count p];
  po_version : (tp_format_version p < 4294967296)%N;
  po_comparator : valid_utf8 (tp_comparator_name p) = true;
  po_extractor : from_option (fun n => valid_utf8 n = true /\ n <> []) True (tp_prefix_extractor_name p);
  po_range_del : tp_range_del_count p = 0%N -> tp_range_del_offset p = 0%N /\ tp_range_del_size p = 0%N;
  po_file_size : tp_file_size p = 0%N }.

Lemma prop_of_name n : prop_of_bytes (prop_bytes n) = Some n.
Proof. by destruct n; vm_compute. Qed.
Lemma read_u64_value n : (n < two64)%N -> read_u64 (u64_value n) = Ok n.
Proof. intros Hn. unfold read_u64, u64_value. rewrite <- (app_nil_r (put_u64 n [])). by rewrite get_put_u64. Qed.
Lemma read_string_value s : valid_utf8 s = true -> read_string s = Ok s.
Proof. unfold read_string. by intros ->. Qed.
Lemma read_compression c : (b2n (Compression_as_u8 c) < two64)%N /\ (b2n (Compression_as_u8 c) <? 256)%N = true /\ Compression_from_u8 (n2b (b2n (Compression_as_u8 c))) = Some c.
Proof. by destruct c; vm_compute. Qed.

#[local] Arguments prop_bytes _ : simpl never.
#[local] Arguments u64_value _ : simpl never.
#[local] Arguments prop_of_bytes _ : simpl never.
#[local] Arguments b2n _ : simpl never.
Ltac props_step := cbn [props_apply props_set rbind]; rewrite prop_of_name; rewrite ?read_u64_value by done; rewrite ?read_string_value by done; cbn [rbind].
Lemma props_applied p : props_ok p -> props_apply (props_entries p) TableProperties_default = Ok p.
Proof.
  intros [Hn Hver Hcmp Hex Hrd Hfs]. unfold props_entries. destruct p as [count blocks raw_key raw_value data index filter smallest largest low high version comparator extractor bloom rd_offset rd_size rd_count compression size]. cbn [tp_entry_count tp_data_block_count tp_raw_key_bytes tp_raw_value_bytes tp_data_size tp_index_size tp_filter_size tp_smallest_key tp_largest_key tp_smallest_seqno tp_largest_seqno tp_format_version tp_comparator_name tp_prefix_extractor_name tp_bloom_bits_per_key tp_range_del_offset tp_range_del_size tp_range_del_count tp_compression tp_file_size] in *.
  rewrite !Forall_cons in Hn. destruct Hn as (H1 & H2 & H3 & H4 & H5 & H6 & H7 & H8 & H9 & H10 & H11 & H12 & H13 & _). subst size.
  assert (version < two64)%N by (unfold two64; lia). unfold TableProperties_default.
  destruct (read_compression compression) as (C1 & C2 & C3). cbn [app]. props_step. props_step. props_step. rewrite C2, C3. do 5 props_step. rewrite (proj2 (N.ltb_lt version _)) by done. do 3 props_step.
  assert (valid_utf8 (default [] extractor) = true /\ (if decide (default [] extractor = []) then None else Some (default [] extractor)) = extractor) as [X1 X2].
  { destruct extractor as [n|]; [|done]. cbn in *. destruct Hex. by rewrite decide_False. }
  props_step. rewrite X2. destruct (N.ltb_spec 0 rd_count) as [Hlt|Hge]; cbn [app].
  - by do 7 props_step.
  - destruct Hrd as [-> ->]; [lia|]. replace rd_count with 0%N by lia. by do 4 props_step.
Qed.

(** The space the variable parts take. *)
Definition props_size (p : TableProperties) : nat :=
  (length (tp_smallest_key p) + length (tp_largest_key p) + length (tp_comparator_name p) + length (default [] (tp_prefix_extractor_name p)))%nat.
Lemma prop_bytes_length n : (length (prop_bytes n) <= 24)%nat.
Proof. apply Nat.leb_le. by destruct n; vm_compute. Qed.
Lemma u64_value_length n : (length (u64_value n) <= 10)%nat.
Proof. unfold u64_value, put_u64. apply (put_loop_length_le MAX_LEN_U64). Qed.
Lemma props_entries_size p : (entries_size (props_entries p) <= 1300 + props_size p)%nat.
Proof.
  unfold props_entries, props_size. destruct (0 <? tp_range_del_count p)%N; cbn [app entries_size foldr fst snd];
    repeat match goal with |- context [length (prop_bytes ?n)] => let H := fresh in pose proof (prop_bytes_length n) as H; generalize dependent (length (prop_bytes n)); intros end;
    repeat match goal with |- context [length (u64_value ?n)] => let H := fresh in pose proof (u64_value_length n) as H; generalize dependent (length (u64_value n)); intros end; lia.
Qed.

(** What a table records about itself is read back.  Properties whose numbers
    have their width and whose names are text encode to a block, and decoding it
    gives the same record. *)
Theorem props_roundtrip (p : TableProperties) : props_ok p -> fits_u32 (1300 + props_size p) = true ->
  exists payload, props_encode p = Ok payload /\ props_decode payload = Ok p.
Proof.
  intros Hok Hsize. destruct (fill_total (props_entries p) (BlockBuilder_new 1)) as (b & Hb); [eapply fits_le; [|exact Hsize]; apply props_entries_size|].
  unfold props_encode. rewrite Hb. eexists. split; [reflexivity|]. destruct (fill_pieces _ [] _ _ b (new_builder 1) Hb) as (l & starts & Hl & He). destruct (finish_holds _ _ _ Hl) as (blk & Hblk & Hh).
  rewrite (props_decode_block _ blk _ _ Hblk Hh), app_nil_l, He. by apply props_applied.
Qed.
