(* ===== verification/TableBuild.v ===== *)
(** The table builder (esker-engine/src/sst/builder.rs): data blocks cut by
    size, then the tombstones, the filter, the index, the properties and the
    footer.  An error ends the builder: every caller drops it. *)

From stdpp Require Import prelude sorting.
From Stdlib Require Import NArith ZArith Lia.
From S2P Require Import Prelude Utf8 Varint Endian Crc32c DbFormat EngineFs RangeDel Lsm Block SstFormat Bloom SstProps.

(** The comparator comes with its [name]. *)
Record TableOptions := mkTableOptions {
  to_block_size : nat;
  to_restart_interval : nat;
  to_bloom_bits_per_key : N;
  to_prefix_extractor : option PrefixExtractor;
  to_compression : Compression;
  to_comparator : Comparator;
  to_comparator_name : bytes }.

Record TableBuilder (F : Type) := mkTB {
  tb_options : TableOptions;
  tb_file : F;
  tb_data_block : BlockBuilder;
  tb_index_block : BlockBuilder;
  tb_filter : option BloomBuilder;
  tb_offset : N;
  tb_props : TableProperties;
  tb_last_key : bytes;
  tb_range_tombstones : RangeTombstones }.
Arguments mkTB {F}.
Arguments tb_options {F}.
Arguments tb_file {F}.
Arguments tb_data_block {F}.
Arguments tb_index_block {F}.
Arguments tb_filter {F}.
Arguments tb_offset {F}.
Arguments tb_props {F}.
Arguments tb_last_key {F}.
Arguments tb_range_tombstones {F}.

Section Builder.
Context (codec : Codec) {E F : Type} `{!WritableFile E F}.

Definition write_block (file : F) (offset : N) (payload : bytes) (compression : Compression) : result SstError (BlockHandle * F * N) :=
  let framed := encode_block codec payload compression in
  let handle := mkHandle offset (N.of_nat (length framed - BLOCK_TRAILER_SIZE)) in
  match wf_append file framed with
  | (Err _, _) => Err SstIo
  | (Ok _, file) =>
      let offset := wadd offset (N.of_nat (length framed)) in
      if (MAX_TABLE_SIZE <? offset)%N then Err SstInvalid else Ok (handle, file, offset)
  end.

Definition TableBuilder_new (options : TableOptions) (file : F) : TableBuilder F :=
  mkTB options file (BlockBuilder_new (to_restart_interval options)) (BlockBuilder_new (to_restart_interval options))
    (if (0 <? to_bloom_bits_per_key options)%N then Some (BloomBuilder_new (to_bloom_bits_per_key options)) else None) 0
    (mkProps 0 0 0 0 0 0 0 [] [] 0 0 SST_FORMAT_VERSION (to_comparator_name options) (pe_name <$> to_prefix_extractor options)
       (to_bloom_bits_per_key options) 0 0 0 (to_compression options) 0)
    [] [].

Definition set_seqno_range (smallest largest : N) (t : TableBuilder F) : TableBuilder F :=
  let p := tb_props t in
  mkTB (tb_options t) (tb_file t) (tb_data_block t) (tb_index_block t) (tb_filter t) (tb_offset t)
    (mkProps (tp_entry_count p) (tp_data_block_count p) (tp_raw_key_bytes p) (tp_raw_value_bytes p) (tp_data_size p) (tp_index_size p) (tp_filter_size p)
       (tp_smallest_key p) (tp_largest_key p) smallest largest (tp_format_version p) (tp_comparator_name p) (tp_prefix_extractor_name p)
       (tp_bloom_bits_per_key p) (tp_range_del_offset p) (tp_range_del_size p) (tp_range_del_count p) (tp_compression p) (tp_file_size p))
    (tb_last_key t) (tb_range_tombstones t).
Definition set_range_tombstones (tombstones : RangeTombstones) (t : TableBuilder F) : TableBuilder F :=
  mkTB (tb_options t) (tb_file t) (tb_data_block t) (tb_index_block t) (tb_filter t) (tb_offset t) (tb_props t) (tb_last_key t) tombstones.

Definition flush_data_block (t : TableBuilder F) : result SstError (TableBuilder F) :=
  if bb_is_empty (tb_data_block t) then Ok t else
  let separator := bb_last_key (tb_data_block t) in
  let payload := bb_buffer (bb_finish (tb_data_block t)) in
  let? (handle, file, offset) := write_block (tb_file t) (tb_offset t) payload (to_compression (tb_options t)) in
  let p := tb_props t in
  let props :=
    mkProps (tp_entry_count p) (wadd (tp_data_block_count p) 1) (tp_raw_key_bytes p) (tp_raw_value_bytes p) (wadd (tp_data_size p) (total_len handle)) (tp_index_size p) (tp_filter_size p)
      (tp_smallest_key p) (tp_largest_key p) (tp_smallest_seqno p) (tp_largest_seqno p) (tp_format_version p) (tp_comparator_name p) (tp_prefix_extractor_name p)
      (tp_bloom_bits_per_key p) (tp_range_del_offset p) (tp_range_del_size p) (tp_range_del_count p) (tp_compression p) (tp_file_size p) in
  let? index := bb_add separator (handle_encode_to handle []) (tb_index_block t) in
  Ok (mkTB (tb_options t) file (bb_reset (tb_data_block t)) index (tb_filter t) offset props (tb_last_key t) (tb_range_tombstones t)).

Definition tb_add (key value : bytes) (t : TableBuilder F) : result SstError (TableBuilder F) :=
  let p := tb_props t in
  if (0 <? tp_entry_count p)%N && negb (bool_decide (cmp (to_comparator (tb_options t)) (tb_last_key t) key = Lt)) then Err SstInvalid else
  let filter :=
    match tb_filter t, filter_key (to_prefix_extractor (tb_options t)) key with
    | Some filter, Some data => Some (blm_add data filter)
    | filter, _ => filter
    end in
  let? data_block := bb_add key value (tb_data_block t) in
  let props :=
    mkProps (wadd (tp_entry_count p) 1) (tp_data_block_count p) (wadd (tp_raw_key_bytes p) (N.of_nat (length key))) (wadd (tp_raw_value_bytes p) (N.of_nat (length value))) (tp_data_size p)
      (tp_index_size p) (tp_filter_size p) (if (tp_entry_count p =? 0)%N then key else tp_smallest_key p) (tp_largest_key p) (tp_smallest_seqno p) (tp_largest_seqno p) (tp_format_version p)
      (tp_comparator_name p) (tp_prefix_extractor_name p) (tp_bloom_bits_per_key p) (tp_range_del_offset p) (tp_range_del_size p) (tp_range_del_count p) (tp_compression p) (tp_file_size p) in
  let t := mkTB (tb_options t) (tb_file t) data_block (tb_index_block t) filter (tb_offset t) props key (tb_range_tombstones t) in
  if (to_block_size (tb_options t) <=? bb_size_estimate data_block)%nat then flush_data_block t else Ok t.

(** The blocks after the data, each at the end of the file as it is by then. *)
Definition write_tombstones (t : TableBuilder F) : result SstError (BlockHandle * N * F * N) :=
  if decide (tb_range_tombstones t = []) then Ok (mkHandle 0 0, 0%N, tb_file t, tb_offset t) else
  let? (handle, file, offset) := write_block (tb_file t) (tb_offset t) (rts_encode (tb_range_tombstones t)) NoCompression in
  Ok (handle, N.of_nat (length (tb_range_tombstones t)), file, offset).
Definition write_filter (t : TableBuilder F) (file : F) (offset : N) : result SstError (BlockHandle * F * N) :=
  match tb_filter t with
  | Some bloom => if (0 <? tp_entry_count (tb_props t))%N then write_block file offset (blm_finish bloom) NoCompression else Ok (BlockHandle_NONE, file, offset)
  | None => Ok (BlockHandle_NONE, file, offset)
  end.
Definition tb_finish (t : TableBuilder F) : result SstError (TableProperties * F) :=
  let? t := flush_data_block t in
  let? (range_del, count, file, offset) := write_tombstones t in
  let? (filter, file, offset) := write_filter t file offset in
  let? (index, file, offset) := write_block file offset (bb_buffer (bb_finish (tb_index_block t))) (to_compression (tb_options t)) in
  let p := tb_props t in
  let props :=
    mkProps (tp_entry_count p) (tp_data_block_count p) (tp_raw_key_bytes p) (tp_raw_value_bytes p) (tp_data_size p) (total_len index) (if handle_is_none filter then 0%N else total_len filter)
      (tp_smallest_key p) (tb_last_key t) (tp_smallest_seqno p) (tp_largest_seqno p) (tp_format_version p) (tp_comparator_name p) (tp_prefix_extractor_name p)
      (tp_bloom_bits_per_key p) (bh_offset range_del) (bh_size range_del) count (tp_compression p) (tp_file_size p) in
  let? payload := props_encode props in
  let? (handle, file, offset) := write_block file offset payload NoCompression in
  let? footer := footer_encode (Footer_new index filter handle) in
  match wf_append file footer with
  | (Err _, _) => Err SstIo
  | (Ok _, file) =>
      match wf_sync_data file with
      | (Err _, _) => Err SstIo
      | (Ok _, file) => Ok (with_file_size (wadd offset (N.of_nat (length footer))) props, file)
      end
  end.

Fixpoint tb_fill (t : TableBuilder F) (entries : list entry) : result SstError (TableBuilder F) :=
  match entries with
  | [] => Ok t
  | (key, value) :: entries => let? t := tb_add key value t in tb_fill t entries
  end.
End Builder.

(** ** What a table file holds *)

Section Image.
Context (codec : Codec).

(** The block a handle names reads back as [payload]. *)
Definition stored (data : bytes) (handle : BlockHandle) (payload : bytes) : Prop :=
  (bh_offset handle + bh_size handle + N.of_nat BLOCK_TRAILER_SIZE <= N.of_nat (length data))%N /\
  decode_block codec (take (N.to_nat (bh_size handle) + BLOCK_TRAILER_SIZE) (drop (N.to_nat (bh_offset handle)) data)) = Ok payload.
Definition handle_fits (handle : BlockHandle) : Prop := (bh_offset handle < MAX_TABLE_SIZE)%N /\ (bh_size handle < MAX_TABLE_SIZE)%N.
(** A payload that parses as a block of these entries. *)
Definition block_of (payload : bytes) (entries : list entry) : Prop :=
  exists blk l starts, Block_new payload = Ok blk /\ block_holds blk l starts /\ pc_entry <$> l = entries.
(** An index entry: the last key of its block and where the block is. *)
Definition indexed (data : bytes) (e : entry) (run : list entry) : Prop :=
  last run.*1 = Some e.1 /\ exists handle payload, e.2 = handle_encode_to handle [] /\ handle_fits handle /\ stored data handle payload /\ block_of payload run.

Lemma stored_app data more handle payload : stored data handle payload -> stored (data ++ more) handle payload.
Proof.
  intros [Hlen Hd]. split; [rewrite length_app; lia|]. unfold BLOCK_TRAILER_SIZE in *. rewrite drop_app_le by lia. rewrite take_app_le; [done|]. rewrite length_drop. lia.
Qed.
Lemma indexed_app data more e run : indexed data e run -> indexed (data ++ more) e run.
Proof. intros (Hl & handle & payload & He & Hf & Hs & Hb). split; [done|]. exists handle, payload. split_and!; try done. by apply stored_app. Qed.

Lemma frame_length payload compression : (BLOCK_TRAILER_SIZE <= length (encode_block codec payload compression) <= length payload + BLOCK_TRAILER_SIZE)%nat /\
  (compression = NoCompression -> length (encode_block codec payload compression) = (length payload + BLOCK_TRAILER_SIZE)%nat).
Proof.
  unfold encode_block, BLOCK_TRAILER_SIZE. destruct compression; [rewrite !length_app, le_bytes_length; cbn; lia|]. destruct (Nat.ltb_spec (length (put_u64 (N.min (N.of_nat (length payload)) u64_max) [] ++ cd_compress codec payload)) (length payload - length payload / 8)) as [H|H];
    rewrite !length_app, le_bytes_length; rewrite ?length_app in H; cbn [length]; split; (lia || done).
Qed.
End Image.

(** A file whose operations succeed. *)
Class ReliableFile (E F : Type) `{!WritableFile E F} : Prop := {
  append_works f data : exists f', wf_append f data = (Ok tt, f');
  sync_works f : exists f', wf_sync_data f = (Ok tt, f') }.
#[export] Instance MemReliableFile : ReliableFile False FileData.
Proof. split; intros; by eexists. Qed.

Section BuilderLaws.
Context (codec : Codec) `{!CodecLaws codec} {E F : Type} `{Hops : !WritableFile E F} `{!WritableFileLaws E F} `{!ReliableFile E F}.

Record written (file : F) (payload : bytes) (handle : BlockHandle) (file' : F) : Prop := {
  wr_bytes : exists frame, wf_bytes file' = wf_bytes file ++ frame /\ (length frame <= length payload + BLOCK_TRAILER_SIZE)%nat;
  wr_stored : stored codec (wf_bytes file') handle payload;
  wr_offset : bh_offset handle = N.of_nat (length (wf_bytes file));
  wr_size : (bh_size handle <= N.of_nat (length payload))%N }.
Lemma table_limit : (MAX_TABLE_SIZE < two64)%N.
Proof using. by vm_compute. Qed.
Lemma write_block_spec file payload compression : (N.of_nat (length (wf_bytes file) + length payload + BLOCK_TRAILER_SIZE) <= MAX_TABLE_SIZE)%N ->
  (N.of_nat (length payload) <= MAX_UNCOMPRESSED_BLOCK)%N \/ compression = NoCompression ->
  exists handle file', write_block codec file (N.of_nat (length (wf_bytes file))) payload compression = Ok (handle, file', N.of_nat (length (wf_bytes file'))) /\ written file payload handle file' /\
    (compression = NoCompression -> bh_size handle = N.of_nat (length payload)).
Proof using All.
  intros Hlim Hsize. unfold write_block. cbv zeta. destruct (frame_length codec payload compression) as [Hlen Heq]. pose proof (frame_roundtrip codec payload compression Hsize) as Hrt. set (frame := encode_block codec payload compression) in *. clearbody frame.
  destruct (append_works file frame) as (file' & Ha). destruct (append_ok _ _ _ Ha) as [Hb _]. rewrite Ha. pose proof table_limit as Hmax. unfold BLOCK_TRAILER_SIZE in *. rewrite wadd_small by lia.
  assert (N.of_nat (length (wf_bytes file)) + N.of_nat (length frame) = N.of_nat (length (wf_bytes file')))%N as -> by (rewrite Hb, length_app; lia).
  rewrite (proj2 (N.ltb_ge _ _)) by (rewrite Hb, length_app; lia). eexists _, file'. split; [reflexivity|]. split; [split|].
  - exists frame. split; [done|unfold BLOCK_TRAILER_SIZE; lia].
  - split; cbn [bh_offset bh_size]; [rewrite Hb, length_app; unfold BLOCK_TRAILER_SIZE; lia|]. rewrite !Nat2N.id, Hb, drop_app_length, take_ge; [done|unfold BLOCK_TRAILER_SIZE; lia].
  - done.
  - cbn. lia.
  - cbn. intros Hc. rewrite (Heq Hc). lia.
Qed.

(** *** Sizes *)

Lemma entries_size_app l l' : entries_size (l ++ l') = (entries_size l + entries_size l')%nat.
Proof using. unfold entries_size. induction l as [|e l IH]; [done|]. cbn [app foldr]. rewrite IH. lia. Qed.
Lemma entries_size_count l : (30 * length l <= entries_size l)%nat.
Proof using. induction l as [|e l IH]; [done|]. cbn [entries_size foldr length]. fold (entries_size l). lia. Qed.
Lemma entries_size_key e l : e ∈ l -> (30 + length e.1 + length e.2 <= entries_size l)%nat.
Proof using. induction l as [|x l IH]; [by intros ?%elem_of_nil|]. cbn [entries_size foldr]. fold (entries_size l). intros [->|H]%elem_of_cons; [lia|]. specialize (IH H). lia. Qed.
Lemma finish_size b l starts : bb_holds b l starts -> (length (bb_buffer (bb_finish b)) <= length (bb_buffer b) + 4 * length l + 8)%nat.
Proof using.
  intros Hb. cbn [bb_finish bb_buffer]. rewrite !length_app, chunks_length, le_bytes_length. rewrite (bbh_restarts _ _ _ Hb), length_fmap. assert (length starts <= length l + 1)%nat; [|lia].
  destruct (decide (length starts = 0%nat)) as [->|Hne]; [lia|]. destruct (lookup_lt_is_Some_2 starts (length starts - 1)) as [i Hi]; [lia|].
  pose proof (starts_ge _ _ _ (bbh_sorted _ _ _ Hb) Hi). destruct (bbh_start _ _ _ Hb i (list_elem_of_lookup_2 _ _ _ Hi)) as [|[-> _]]; lia.
Qed.
Lemma filter_size b : (blm_bits_per_key b <= 1024)%N -> (9 <= length (blm_finish b))%nat /\ (N.of_nat (length (blm_finish b)) <= 128 * N.of_nat (length (blm_hashes b)) + 10)%N.
Proof using.
  intros Hbits. unfold blm_finish. cbv zeta. set (bits := N.max _ _). set (size := ((bits + 7) / 8)%N). rewrite length_app. cbn [length].
  assert (1 <= size)%N as Hsize by (unfold size; apply N.div_le_lower_bound; [done|]; unfold bits, MIN_BITS; lia).
  destruct (painted_bits (blm_hashes b) (replicate (N.to_nat size) Byte.x00) (probes_for (blm_bits_per_key b)) (size * 8)) as (-> & _ & _); [rewrite length_replicate; lia|lia|].
  rewrite length_replicate. unfold size. pose proof (N.Div0.mul_div_le (bits + 7) 8). pose proof (N.mul_succ_div_gt (bits + 7) 8). 
  assert (bits <= 1024 * N.of_nat (length (blm_hashes b)) + 64)%N by (unfold bits, MIN_BITS; nia). split; [unfold bits, MIN_BITS in *; lia|lia].
Qed.

(** *** The builder *)

Definition small (entries : list entry) : Prop := (N.of_nat (entries_size entries) <= 67108864)%N.
Lemma small_app l l' : small (l ++ l') -> small l /\ small l'.
Proof using. unfold small. rewrite entries_size_app. lia. Qed.

Record props_shape (options : TableOptions) (entries : list entry) (p : TableProperties) : Prop := {
  ps_count : tp_entry_count p = N.of_nat (length entries);
  ps_numbers : Forall (fun n => n < two64)%N [tp_data_block_count p; tp_raw_key_bytes p; tp_raw_value_bytes p; tp_data_size p; tp_smallest_seqno p; tp_largest_seqno p];
  ps_smallest : (length (tp_smallest_key p) <= entries_size entries)%nat;
  ps_version : tp_format_version p = SST_FORMAT_VERSION;
  ps_comparator : tp_comparator_name p = to_comparator_name options;
  ps_extractor : tp_prefix_extractor_name p = (pe_name <$> to_prefix_extractor options);
  ps_bloom : tp_bloom_bits_per_key p = to_bloom_bits_per_key options;
  ps_file_size : tp_file_size p = 0%N }.

Context (options : TableOptions).

(** The blocks written and the entries still in the buffer. *)
Record tb_holds (t : TableBuilder F) (runs : list (list entry)) (cur : list entry) : Prop := {
  tbh_options : tb_options t = options;
  tbh_offset : tb_offset t = N.of_nat (length (wf_bytes (tb_file t)));
  tbh_bytes : (length (wf_bytes (tb_file t)) <= 2 * entries_size (mjoin runs))%nat;
  tbh_data : exists l starts, bb_holds (tb_data_block t) l starts /\ pc_entry <$> l = cur;
  tbh_buffer : (length (bb_buffer (tb_data_block t)) <= entries_size cur)%nat;
  tbh_index : exists l starts, bb_holds (tb_index_block t) l starts /\ Forall2 (indexed codec (wf_bytes (tb_file t))) (pc_entry <$> l) runs;
  tbh_index_buffer : (length (bb_buffer (tb_index_block t)) <= 2 * entries_size (mjoin runs))%nat;
  tbh_filter : tb_filter t = if (0 <? to_bloom_bits_per_key options)%N then Some (blm_fill (to_prefix_extractor options) (mjoin runs ++ cur).*1 (BloomBuilder_new (to_bloom_bits_per_key options))) else None;
  tbh_last : tb_last_key t = from_option fst [] (last (mjoin runs ++ cur));
  tbh_props : props_shape options (mjoin runs ++ cur) (tb_props t) }.

Lemma builder_new_holds file : wf_bytes file = [] -> tb_holds (TableBuilder_new options file) [] [].
Proof using.
  intros Hf. split; cbn [TableBuilder_new tb_options tb_file tb_offset tb_data_block tb_index_block tb_filter tb_last_key tb_range_tombstones tb_props]; try done.
  - by rewrite Hf.
  - by rewrite Hf.
  - eexists [], _. split; [apply new_builder|done].
  - eexists [], _. split; [apply new_builder|constructor].
  - split; try done. repeat constructor.
Qed.

Lemma runs_count data index runs : Forall2 (indexed codec data) index runs -> (30 * length index <= entries_size (mjoin runs))%nat.
Proof using.
  induction 1 as [|e run index runs (Hl & _) _ IH]; [done|]. change (mjoin (run :: runs)) with (run ++ mjoin runs). rewrite entries_size_app. pose proof (entries_size_count run). cbn [length]. assert (1 <= length run)%nat by (destruct run; [done|cbn; lia]). lia.
Qed.
Lemma last_size (run : list entry) key : last run.*1 = Some key -> (30 + length key <= entries_size run)%nat.
Proof using. intros Hl. apply last_Some_elem_of, list_elem_of_fmap in Hl as (e & -> & He). apply entries_size_key in He. lia. Qed.

Lemma small_u32 n : (N.of_nat n <= 268435456)%N -> fits_u32 n = true.
Proof using. intros Hn. apply fits_iff. lia. Qed.
(** An entry added to a block: the space it takes is bounded. *)
Lemma add_spec b l starts key value : bb_holds b l starts -> (N.of_nat (length (bb_buffer b) + length key + length value) <= 268435456)%N ->
  exists b' p starts', bb_add key value b = Ok b' /\ bb_holds b' (l ++ [p]) starts' /\ pc_entry p = (key, value) /\ (length (bb_buffer b') <= length (bb_buffer b) + 30 + length key + length value)%nat.
Proof using.
  intros Hb Hlen. destruct (add_total key value b) as (b' & Ha & Hl); [apply small_u32; lia..|]. destruct (add_holds b l starts key value b' Hb Ha) as (shared & starts' & Hb'). by exists b', (mkPiece shared (key, value)), starts'.
Qed.
Lemma finish_block_of b l starts : bb_holds b l starts -> block_of (bb_buffer (bb_finish b)) (pc_entry <$> l).
Proof using. intros Hb. destruct (finish_holds b l starts Hb) as (blk & Hn & Hh). by exists blk, l, starts. Qed.
Lemma last_key_of b l starts : bb_holds b l starts -> l <> [] -> last (pc_entry <$> l).*1 = Some (bb_last_key b).
Proof using. intros Hb Hne. rewrite (bbh_last _ _ _ Hb). rewrite <- list_fmap_compose, fmap_last. destruct (last l) eqn:El; [done|]. by apply last_None in El. Qed.
Lemma handle_within file payload handle file' : written file payload handle file' -> (N.of_nat (length (wf_bytes file) + length payload) < MAX_TABLE_SIZE)%N -> handle_fits handle.
Proof using. intros Hw Hlt. split; [rewrite (wr_offset _ _ _ _ Hw)|pose proof (wr_size _ _ _ _ Hw)]; lia. Qed.

Lemma table_limits : (MAX_UNCOMPRESSED_BLOCK = 268435456 /\ MAX_TABLE_SIZE = 34359738368)%N.
Proof using. done. Qed.

Lemma flush_spec t runs cur : tb_holds t runs cur -> cur <> [] -> small (mjoin runs ++ cur) ->
  exists t', flush_data_block codec t = Ok t' /\ tb_holds t' (runs ++ [cur]) [].
Proof using All.
  intros Ht Hne Hsmall. destruct (tbh_data _ _ _ Ht) as (l & starts & Hb & Hcur). destruct (tbh_index _ _ _ Ht) as (li & si & Hbi & Hix). pose proof (entries_size_count cur) as Hcount. assert (length l = length cur) as Hlen by by rewrite <- Hcur, length_fmap.
  assert (1 <= length cur)%nat as Hpos by (destruct cur; [done|cbn; lia]). pose proof (finish_size _ _ _ Hb) as Hfs. pose proof (tbh_buffer _ _ _ Ht) as Hbuf. pose proof (tbh_bytes _ _ _ Ht) as Hbytes. pose proof (tbh_index_buffer _ _ _ Ht) as Hib.
  unfold small in Hsmall. rewrite entries_size_app in Hsmall. pose proof (finish_block_of _ _ _ Hb) as Hpayload. pose proof (last_key_of _ _ _ Hb) as Hlast. rewrite Hcur in Hpayload, Hlast. specialize (Hlast ltac:(intros ->; cbn in Hlen; lia)). pose proof (last_size _ _ Hlast) as Hls.
  unfold flush_data_block. unfold bb_is_empty. rewrite (bbh_entries _ _ _ Hb), (proj2 (Nat.eqb_neq _ _)) by lia. set (payload := bb_buffer (bb_finish (tb_data_block t))) in *. destruct table_limits as [Hunc Hmax]. cbv zeta.
  destruct (write_block_spec (tb_file t) payload (to_compression (tb_options t))) as (handle & file' & Hw & Hwr & _); [unfold BLOCK_TRAILER_SIZE; lia|left; lia|]. rewrite (tbh_offset _ _ _ Ht), Hw. cbn [rbind].
  assert (handle_fits handle) as Hfit by (apply (handle_within _ _ _ _ Hwr); lia). pose proof (handle_short handle (proj1 Hfit) (proj2 Hfit)) as Hshort.
  destruct (add_spec (tb_index_block t) li si (bb_last_key (tb_data_block t)) (handle_encode_to handle []) Hbi) as (index & p & si' & Ha & Hbi' & Hp & Hgrow); [lia|]. rewrite Ha. cbn [rbind]. eexists. split; [reflexivity|].
  destruct (wr_bytes _ _ _ _ Hwr) as (frame & Hbytes' & Hframe). unfold BLOCK_TRAILER_SIZE in Hframe.
  assert (mjoin (runs ++ [cur]) = mjoin runs ++ cur) as Hjoin by (rewrite join_app; cbn [mjoin list_join]; by rewrite app_nil_r).
  split; cbn [tb_options tb_file tb_offset tb_data_block tb_index_block tb_filter tb_last_key tb_range_tombstones tb_props]; rewrite ?app_nil_r, ?Hjoin, ?entries_size_app; try apply Ht.
  - done.
  - rewrite Hbytes', length_app. lia.
  - eexists [], _. split; [by eapply reset_builder|done].
  - cbn. lia.
  - eexists _, si'. split; [exact Hbi'|]. rewrite fmap_app. apply Forall2_app.
    + rewrite Hbytes'. eapply Forall2_impl; [exact Hix|]. intros. by apply indexed_app.
    + constructor; [|constructor]. rewrite Hp. split; [exact Hlast|]. exists handle, payload. split_and!; try done. apply Hwr.
  - lia.
  - destruct (tbh_props _ _ _ Ht). split; try done. rewrite !Forall_cons in *. split_and!; try tauto; try apply wadd_lt. 
Qed.

Definition in_order (entries : list entry) : Prop := StronglySorted (fun a b : entry => cmp (to_comparator options) a.1 b.1 = Lt) entries.

Lemma fill_snoc extractor keys key b : blm_fill extractor (keys ++ [key]) b = match filter_key extractor key with Some data => blm_add data (blm_fill extractor keys b) | None => blm_fill extractor keys b end.
Proof using. unfold blm_fill. by rewrite foldl_app. Qed.
Lemma tb_add_spec t runs cur (e : entry) : tb_holds t runs cur -> small (mjoin runs ++ cur ++ [e]) -> in_order (mjoin runs ++ cur ++ [e]) ->
  exists t' runs' cur', tb_add codec e.1 e.2 t = Ok t' /\ tb_holds t' runs' cur' /\ mjoin runs' ++ cur' = mjoin runs ++ cur ++ [e].
Proof using All.
  destruct e as [key value]. cbn [fst snd]. intros Ht Hsmall Hord. destruct (tbh_data _ _ _ Ht) as (l & starts & Hb & Hcur). pose proof (tbh_buffer _ _ _ Ht) as Hbuf. pose proof (tbh_props _ _ _ Ht) as Hps. assert (small (mjoin runs ++ (cur ++ [(key, value)]))) as Hsmall' by done. unfold small in Hsmall. rewrite !entries_size_app in Hsmall.
  change (entries_size [(key, value)]) with (30 + length key + length value + 0)%nat in Hsmall. pose proof (entries_size_count (mjoin runs ++ cur)) as Hcount. rewrite entries_size_app in Hcount. assert (N.of_nat (length (mjoin runs ++ cur)) + 1 < two64)%N as Hsafe by (unfold two64; lia). unfold tb_add. cbv zeta. rewrite (ps_count _ _ _ Hps), (tbh_options _ _ _ Ht), (tbh_last _ _ _ Ht), (tbh_filter _ _ _ Ht).
  assert ((0 <? N.of_nat (length (mjoin runs ++ cur)))%N && negb (bool_decide (cmp (to_comparator options) (from_option fst [] (last (mjoin runs ++ cur))) key = Lt)) = false) as ->.
  { destruct (last (mjoin runs ++ cur)) as [e|] eqn:El; [|apply last_None in El; by rewrite El]. cbn [from_option]. rewrite bool_decide_true; [apply andb_false_r|]. unfold in_order in Hord. rewrite app_assoc in Hord. apply StronglySorted_app in Hord as (Hx & _ & _). apply (Hx e (key, value)); [by apply last_Some_elem_of|by left]. }
  destruct (add_spec (tb_data_block t) l starts key value Hb) as (b' & p & starts' & Ha & Hb' & Hp & Hgrow); [lia|]. rewrite Ha. cbn [rbind].
  match goal with |- context [mkTB ?o ?f ?d ?i ?fl ?off ?pr ?k ?ts] => set (t1 := mkTB o f d i fl off pr k ts) end.
  assert (tb_holds t1 runs (cur ++ [(key, value)])) as Ht1.
  { split; cbn [t1 tb_options tb_file tb_offset tb_data_block tb_index_block tb_filter tb_last_key tb_range_tombstones tb_props]; try apply Ht.
    - done.
    - exists (l ++ [p]), starts'. split; [done|]. rewrite fmap_app, Hcur. cbn. by rewrite Hp.
    - rewrite entries_size_app. change (entries_size [(key, value)]) with (30 + length key + length value + 0)%nat. lia.
    - destruct (0 <? to_bloom_bits_per_key options)%N; [|done]. rewrite app_assoc, (fmap_app _ (mjoin runs ++ cur)). change ([(key, value)].*1) with [key]. rewrite fill_snoc. by destruct (filter_key (to_prefix_extractor options) key).
    - by rewrite app_assoc, last_snoc.
    - rewrite app_assoc. destruct Hps as [Hc Hn Hs Hv Hcm He Hbl Hfs]. split; cbn; try done.
      + rewrite wadd_small by exact Hsafe. rewrite (length_app (mjoin runs ++ cur)), Nat2N.inj_add. done.
      + rewrite !Forall_cons in *. split_and!; try tauto; apply wadd_lt.
      + rewrite entries_size_app. change (entries_size [(key, value)]) with (30 + length key + length value + 0)%nat. destruct (_ =? 0)%N; lia. }
  assert (cur ++ [(key, value)] <> []) as Hne by by destruct cur. cbn [t1 tb_options]. fold t1. destruct (_ <=? _)%nat.
  - destruct (flush_spec t1 runs (cur ++ [(key, value)]) Ht1 Hne Hsmall') as (t' & Hf & Ht'). exists t', (runs ++ [cur ++ [(key, value)]]), []. split_and!; [done..|]. rewrite join_app. cbn [mjoin list_join]. by rewrite !app_nil_r.
  - by exists t1, runs, (cur ++ [(key, value)]).
Qed.
Lemma tb_fill_spec entries t runs cur : tb_holds t runs cur -> small (mjoin runs ++ cur ++ entries) -> in_order (mjoin runs ++ cur ++ entries) ->
  exists t' runs' cur', tb_fill codec t entries = Ok t' /\ tb_holds t' runs' cur' /\ mjoin runs' ++ cur' = mjoin runs ++ cur ++ entries.
Proof using All.
  revert t runs cur. induction entries as [|e entries IH]; intros t runs cur Ht Hsmall Hord; [exists t, runs, cur; by rewrite !app_nil_r|].
  assert (mjoin runs ++ cur ++ e :: entries = (mjoin runs ++ cur ++ [e]) ++ entries) as Hsplit by by rewrite <- !app_assoc. rewrite Hsplit in Hsmall, Hord |- *.
  destruct (tb_add_spec t runs cur e Ht) as (t1 & runs1 & cur1 & Ha & Ht1 & H1); [exact (proj1 (small_app _ _ Hsmall))|exact (StronglySorted_app_1_l _ _ _ Hord)|].
  assert (tb_fill codec t (e :: entries) = (let? t := tb_add codec e.1 e.2 t in tb_fill codec t entries)) as -> by by destruct e. rewrite Ha. cbn [rbind]. rewrite <- H1 in Hsmall, Hord |- *. rewrite <- !app_assoc in Hsmall, Hord |- *. by apply IH.
Qed.

(** *** The end of the file *)

Record options_ok : Prop := {
  oo_comparator : valid_utf8 (to_comparator_name options) = true;
  oo_extractor : from_option (fun x => valid_utf8 (pe_name x) = true /\ pe_name x <> []) True (to_prefix_extractor options);
  oo_names : (N.of_nat (length (to_comparator_name options) + length (from_option pe_name [] (to_prefix_extractor options))) <= 65536)%N;
  oo_bits : (to_bloom_bits_per_key options <= 1024)%N }.

(** The parts of a finished table. *)
Record table_image (data : bytes) (props : TableProperties) (footer : Footer) (index : list entry) (runs : list (list entry)) (tombstones : RangeTombstones) : Prop := {
  im_length : (N.of_nat (length data) < two64)%N;
  im_footer : exists front tail, data = front ++ tail /\ length tail = SST_FOOTER_SIZE /\ footer_decode tail = Ok footer;
  im_props : exists payload, stored codec data (ft_properties footer) payload /\ props_decode payload = Ok props;
  im_names : tp_comparator_name props = to_comparator_name options /\ tp_prefix_extractor_name props = (pe_name <$> to_prefix_extractor options);
  im_index : exists payload, stored codec data (ft_index footer) payload /\ block_of payload index;
  im_runs : Forall2 (indexed codec data) index runs;
  im_filter : handle_is_none (ft_filter footer) = true \/ exists bits, stored codec data (ft_filter footer) (blm_finish (blm_fill (to_prefix_extractor options) (mjoin runs).*1 (BloomBuilder_new bits)));
  im_tombstones : tp_range_del_count props = N.of_nat (length tombstones) /\ (tombstones = [] \/ stored codec data (mkHandle (tp_range_del_offset props) (tp_range_del_size props)) (rts_encode tombstones)) }.

Definition extends (file file' : F) (n : nat) : Prop := exists more, wf_bytes file' = wf_bytes file ++ more /\ (length more <= n)%nat.
Lemma extends_stored file file' n handle payload : extends file file' n -> stored codec (wf_bytes file) handle payload -> stored codec (wf_bytes file') handle payload.
Proof using. intros (more & -> & _). apply stored_app. Qed.
Lemma extends_length file file' n : extends file file' n -> (length (wf_bytes file) <= length (wf_bytes file') <= length (wf_bytes file) + n)%nat.
Proof using. intros (more & -> & Hm). rewrite length_app. lia. Qed.
Lemma extends_indexed file file' n index runs : extends file file' n -> Forall2 (indexed codec (wf_bytes file)) index runs -> Forall2 (indexed codec (wf_bytes file')) index runs.
Proof using. intros (more & -> & _) H. eapply Forall2_impl; [exact H|]. intros. by apply indexed_app. Qed.

Lemma setters_hold t runs cur low high tombstones : tb_holds t runs cur -> (low < two64)%N -> (high < two64)%N -> tb_holds (set_range_tombstones tombstones (set_seqno_range low high t)) runs cur.
Proof using.
  intros Ht Hl Hh. split; try apply Ht. cbn [set_range_tombstones set_seqno_range tb_props]. destruct (tbh_props _ _ _ Ht). split; try done. rewrite !Forall_cons in *. cbn. tauto.
Qed.
Lemma flush_any t runs cur : tb_holds t runs cur -> small (mjoin runs ++ cur) ->
  exists t' runs', flush_data_block codec t = Ok t' /\ tb_holds t' runs' [] /\ mjoin runs' = mjoin runs ++ cur /\ tb_range_tombstones t' = tb_range_tombstones t.
Proof using All.
  intros Ht Hs. destruct (decide (cur = [])) as [->|Hne].
  - exists t, runs. rewrite app_nil_r. split_and!; try done. destruct (tbh_data _ _ _ Ht) as (l & starts & Hb & Hcur). apply fmap_nil_inv in Hcur as ->. unfold flush_data_block, bb_is_empty. by rewrite (bbh_entries _ _ _ Hb).
  - destruct (flush_spec t runs cur Ht Hne Hs) as (t' & Hf & Ht'). exists t', (runs ++ [cur]). split_and!; [done|done|rewrite join_app; cbn [mjoin list_join]; by rewrite app_nil_r|].
    revert Hf. unfold flush_data_block. destruct (bb_is_empty _); [by intros [= <-]|]. destruct (write_block _ _ _ _ _) as [[[h f] o]|]; [|done]. cbn [rbind]. destruct (bb_add _ _ _); [|done]. cbn [rbind]. by intros [= <-].
Qed.

Lemma tombstones_spec t : (N.of_nat (length (wf_bytes (tb_file t)) + length (rts_encode (tb_range_tombstones t)) + BLOCK_TRAILER_SIZE) < MAX_TABLE_SIZE)%N -> tb_offset t = N.of_nat (length (wf_bytes (tb_file t))) ->
  exists handle file', write_tombstones codec t = Ok (handle, N.of_nat (length (tb_range_tombstones t)), file', N.of_nat (length (wf_bytes file'))) /\ handle_fits handle /\
    extends (tb_file t) file' (length (rts_encode (tb_range_tombstones t)) + BLOCK_TRAILER_SIZE) /\ (tb_range_tombstones t = [] /\ handle = mkHandle 0 0 \/ tb_range_tombstones t <> [] /\ stored codec (wf_bytes file') handle (rts_encode (tb_range_tombstones t))).
Proof using All.
  intros Hlen Ho. unfold write_tombstones. rewrite Ho. destruct (decide _) as [->|Hne].
  - exists (mkHandle 0 0), (tb_file t). split_and!; [done|done| |by left]. exists []. rewrite app_nil_r. split; [done|cbn; lia].
  - destruct (write_block_spec (tb_file t) (rts_encode (tb_range_tombstones t)) NoCompression) as (handle & file' & -> & Hw & _); [lia|by right|]. cbn [rbind]. exists handle, file'. unfold BLOCK_TRAILER_SIZE in *.
    split_and!; [done|apply (handle_within _ _ _ _ Hw); lia|apply Hw|right; split; [done|apply Hw]].
Qed.
Lemma filter_spec t file : (N.of_nat (length (wf_bytes file)) + 128 * N.of_nat (length (from_option blm_hashes [] (tb_filter t))) + 20 < MAX_TABLE_SIZE)%N -> from_option (fun b => blm_bits_per_key b <= 1024)%N True (tb_filter t) ->
  exists handle file' n, write_filter codec t file (N.of_nat (length (wf_bytes file))) = Ok (handle, file', N.of_nat (length (wf_bytes file'))) /\ handle_fits handle /\
    extends file file' n /\ (N.of_nat n <= 128 * N.of_nat (length (from_option blm_hashes [] (tb_filter t))) + 20)%N /\ (handle = BlockHandle_NONE \/ exists bloom, tb_filter t = Some bloom /\ handle_is_none handle = false /\ stored codec (wf_bytes file') handle (blm_finish bloom)).
Proof using All.
  intros Hlen Hbits. unfold write_filter. assert (exists handle file' n, Ok (BlockHandle_NONE, file, N.of_nat (length (wf_bytes file))) = Ok (E := SstError) (handle, file', N.of_nat (length (wf_bytes file'))) /\ handle_fits handle /\
    extends file file' n /\ (N.of_nat n <= 128 * N.of_nat (length (from_option blm_hashes [] (tb_filter t))) + 20)%N /\ (handle = BlockHandle_NONE \/ exists bloom, tb_filter t = Some bloom /\ handle_is_none handle = false /\ stored codec (wf_bytes file') handle (blm_finish bloom))) as Hnone.
  { exists BlockHandle_NONE, file, 0%nat. split_and!; [done|done| |lia|by left]. exists []. by rewrite app_nil_r. }
  destruct (tb_filter t) as [bloom|]; [|done]. destruct (0 <? _)%N; [|done]. clear Hnone. cbn [from_option] in *. destruct (filter_size bloom Hbits) as [H9 Hsz].
  destruct (write_block_spec file (blm_finish bloom) NoCompression) as (handle & file' & -> & Hw & Hsame); [unfold BLOCK_TRAILER_SIZE; lia|by right|]. exists handle, file', (length (blm_finish bloom) + BLOCK_TRAILER_SIZE)%nat. unfold BLOCK_TRAILER_SIZE in *.
  split_and!; [done|apply (handle_within _ _ _ _ Hw); lia|apply Hw|lia|]. right. exists bloom. split_and!; [done| |apply Hw]. unfold handle_is_none. rewrite (Hsame eq_refl). rewrite (proj2 (N.eqb_neq (N.of_nat _) 0)) by lia. apply andb_false_r.
Qed.

Lemma bb_fill_spec entries b l starts : bb_holds b l starts -> (N.of_nat (length (bb_buffer b) + entries_size entries) <= 268435456)%N ->
  exists b' l' starts', bb_fill b entries = Ok b' /\ bb_holds b' (l ++ l') starts' /\ pc_entry <$> l' = entries /\ (length (bb_buffer b') <= length (bb_buffer b) + entries_size entries)%nat.
Proof using.
  revert b l starts. induction entries as [|[key value] entries IH]; intros b l starts Hb Hlen; [exists b, [], starts; rewrite app_nil_r; split_and!; [done..|cbn; lia]|].
  cbn [entries_size foldr fst snd] in Hlen |- *. fold (entries_size entries) in *. destruct (add_spec b l starts key value Hb) as (b1 & p & starts1 & Ha & Hb1 & Hp & Hg); [lia|].
  destruct (IH b1 (l ++ [p]) starts1 Hb1) as (b2 & l2 & starts2 & Hf & Hb2 & Hl2 & Hg2); [lia|]. exists b2, (p :: l2), starts2. cbn [bb_fill]. rewrite Ha. cbn [rbind]. rewrite <- app_assoc in Hb2. split_and!; [done|done|by rewrite fmap_cons, Hp, Hl2|lia].
Qed.
Lemma props_written p : props_ok p -> (N.of_nat (props_size p) <= 201326592)%N ->
  exists payload, props_encode p = Ok payload /\ props_decode payload = Ok p /\ (length payload <= 2 * (1300 + props_size p) + 8)%nat.
Proof using.
  intros Hok Hsize. pose proof (props_entries_size p) as Hes. destruct (bb_fill_spec (props_entries p) _ _ _ (new_builder 1)) as (b & l & starts & Hb & Hh & Hl & Hg); [cbn [BlockBuilder_new bb_buffer length]; lia|].
  cbn [app] in Hh. unfold props_encode. rewrite Hb. cbn [rbind]. eexists. split; [reflexivity|]. destruct (finish_holds _ _ _ Hh) as (blk & Hblk & Hbh). split.
  - rewrite (props_decode_block _ blk _ _ Hblk Hbh), Hl. by apply props_applied.
  - pose proof (finish_size _ _ _ Hh) as Hfs. pose proof (entries_size_count (props_entries p)) as Hc. rewrite <- Hl, length_fmap in Hc. rewrite Hl in Hc. cbn [BlockBuilder_new bb_buffer length] in Hg. lia.
Qed.

Lemma fill_count extractor keys b : (length (blm_hashes (blm_fill extractor keys b)) <= length (blm_hashes b) + length keys)%nat /\ blm_bits_per_key (blm_fill extractor keys b) = blm_bits_per_key b.
Proof using.
  revert b. induction keys as [|key keys IH]; intros b; [cbn; lia|]. cbn [blm_fill foldl length]. fold (blm_fill extractor keys). destruct (filter_key extractor key) as [data|].
  - destruct (IH (blm_add data b)) as [H1 H2]. fold (blm_fill extractor keys (blm_add data b)). rewrite H2. split; [|done]. cbn [blm_add blm_hashes] in H1. rewrite length_app in H1. cbn in H1. lia.
  - destruct (IH b) as [H1 H2]. fold (blm_fill extractor keys b). rewrite H2. split; [lia|done].
Qed.
Lemma last_key_size (entries : list entry) : (length (from_option fst [] (last entries)) <= entries_size entries)%nat.
Proof using. destruct (last entries) as [e|] eqn:El; [|cbn; lia]. apply last_Some_elem_of, entries_size_key in El. cbn. lia. Qed.

Lemma props_fit t runs index_size filter_size range_del count : tb_holds t runs [] -> small (mjoin runs) -> options_ok -> (index_size < two64)%N -> (filter_size < two64)%N -> handle_fits range_del -> (count < two64)%N ->
  (count = 0%N -> range_del = mkHandle 0 0) ->
  let p := tb_props t in
  let props := mkProps (tp_entry_count p) (tp_data_block_count p) (tp_raw_key_bytes p) (tp_raw_value_bytes p) (tp_data_size p) index_size filter_size (tp_smallest_key p) (tb_last_key t) (tp_smallest_seqno p) (tp_largest_seqno p)
      (tp_format_version p) (tp_comparator_name p) (tp_prefix_extractor_name p) (tp_bloom_bits_per_key p) (bh_offset range_del) (bh_size range_del) count (tp_compression p) (tp_file_size p) in
  props_ok props /\ (N.of_nat (props_size props) <= 201326592)%N.
Proof using.
  intros Ht Hsmall [Hcn Hen Hnames Hbits] Hi Hf [Ho Hs] Hc Hz p props. destruct (tbh_props _ _ _ Ht) as [Hcount Hnum Hsk Hver Hcmp Hext Hbloom Hfs]. rewrite app_nil_r in Hcount, Hsk. unfold small in Hsmall. pose proof (entries_size_count (mjoin runs)) as Hec.
  pose proof table_limit as Hlim. rewrite !Forall_cons in Hnum. destruct Hnum as (N1 & N2 & N3 & N4 & N5 & N6 & _). fold p in Hcount, Hsk, Hver, Hcmp, Hext, Hbloom, Hfs, N1, N2, N3, N4, N5, N6. split; [split|].
  - cbn. rewrite Hcount, Hbloom. repeat (apply Forall_cons; split); try done; unfold two64 in *; lia.
  - cbn. by rewrite Hver.
  - cbn. by rewrite Hcmp.
  - cbn. rewrite Hext. by destruct (to_prefix_extractor options).
  - cbn. intros H. by rewrite (Hz H).
  - done.
  - unfold props_size. cbn [props tp_smallest_key tp_largest_key tp_comparator_name tp_prefix_extractor_name]. rewrite Hcmp, Hext, (tbh_last _ _ _ Ht), app_nil_r. pose proof (last_key_size (mjoin runs)) as Hlk.
    assert (length (default [] (pe_name <$> to_prefix_extractor options)) = length (from_option pe_name [] (to_prefix_extractor options))) as -> by by destruct (to_prefix_extractor options). lia.
Qed.

Lemma tb_finish_spec t runs cur : tb_holds t runs cur -> small (mjoin runs ++ cur) -> options_ok -> (N.of_nat (length (rts_encode (tb_range_tombstones t))) <= 67108864)%N -> (N.of_nat (length (tb_range_tombstones t)) < two64)%N ->
  exists props file footer index runs', tb_finish codec t = Ok (with_file_size (N.of_nat (length (wf_bytes file))) props, file) /\ mjoin runs' = mjoin runs ++ cur /\
    table_image (wf_bytes file) props footer index runs' (tb_range_tombstones t) /\ wf_synced file = length (wf_bytes file).
Proof using All.
  intros Ht Hsmall Hoo Hts Htc. destruct (flush_any t runs cur Ht Hsmall) as (t1 & runs1 & Hflush & Ht1 & Hjoin & Hsame). unfold tb_finish. rewrite Hflush. cbn [rbind]. rewrite <- Hsame in Hts, Htc |- *. rewrite <- Hjoin in Hsmall |- *. clear t Ht Hflush Hsame Hjoin.
  destruct table_limits as [Hunc Hmax]. unfold small in Hsmall. pose proof (tbh_bytes _ _ _ Ht1) as Hbytes. pose proof (entries_size_count (mjoin runs1)) as Hcount.
  destruct (tombstones_spec t1) as (rd & f1 & -> & Hrd & He1 & Hrds); [unfold BLOCK_TRAILER_SIZE; lia|apply Ht1|]. cbn [rbind]. pose proof (extends_length _ _ _ He1) as Hl1.
  pose proof (tbh_filter _ _ _ Ht1) as Hfil. rewrite app_nil_r in Hfil. set (bloom := blm_fill _ _ _) in Hfil. destruct (fill_count (to_prefix_extractor options) (mjoin runs1).*1 (BloomBuilder_new (to_bloom_bits_per_key options))) as [Hhash Hbits]. fold bloom in Hhash, Hbits. rewrite length_fmap in Hhash. cbn [BloomBuilder_new blm_hashes blm_bits_per_key length] in Hhash, Hbits.
  assert (length (from_option blm_hashes [] (tb_filter t1)) <= length (mjoin runs1))%nat as Hn by (rewrite Hfil; destruct (0 <? _)%N; [exact Hhash|apply Nat.le_0_l]).
  destruct (filter_spec t1 f1) as (fh & f2 & n & -> & Hfh & He2 & Hn2 & Hfs); [unfold BLOCK_TRAILER_SIZE in *; lia|rewrite Hfil; destruct (0 <? _)%N; [|done]; cbn [from_option]; rewrite Hbits; apply Hoo|]. cbn [rbind]. pose proof (extends_length _ _ _ He2) as Hl2.
  destruct (tbh_index _ _ _ Ht1) as (li & si & Hbi & Hix). pose proof (finish_size _ _ _ Hbi) as His. pose proof (tbh_index_buffer _ _ _ Ht1) as Hib. pose proof (runs_count _ _ _ Hix) as Hic. rewrite length_fmap in Hic.
  destruct (write_block_spec f2 (bb_buffer (bb_finish (tb_index_block t1))) (to_compression (tb_options t1))) as (ih & f3 & -> & Hw3 & _); [unfold BLOCK_TRAILER_SIZE in *; lia|left; lia|]. cbn [rbind].
  pose proof (wr_bytes _ _ _ _ Hw3) as He3. pose proof (extends_length _ _ _ He3) as Hl3. cbv zeta.
  match goal with |- context [props_encode ?p] => set (props := p) end. assert (props_ok props /\ (N.of_nat (props_size props) <= 201326592)%N) as [Hok Hps].
  { apply (props_fit t1 runs1); try done; [apply wadd_lt|destruct (handle_is_none fh); [done|apply wadd_lt]|]. intros Hz. destruct Hrds as [[_ ->]|[Hne _]]; [done|]. destruct Hne. destruct (tb_range_tombstones t1); [done|cbn in Hz; lia]. }
  destruct (props_written props Hok Hps) as (payload & -> & Hdec & Hpl). cbn [rbind]. destruct (write_block_spec f3 payload NoCompression) as (ph & f4 & -> & Hw4 & _); [unfold BLOCK_TRAILER_SIZE in *; lia|by right|]. cbn [rbind].
  pose proof (wr_bytes _ _ _ _ Hw4) as He4. pose proof (extends_length _ _ _ He4) as Hl4. unfold BLOCK_TRAILER_SIZE in *.
  destruct (footer_roundtrip (Footer_new ih fh ph)) as (tail & -> & Htail & Hfd); [|done|]. { repeat constructor; try apply Hfh; try (apply (handle_within _ _ _ _ Hw3); lia); apply (handle_within _ _ _ _ Hw4); lia. }
  cbn [rbind]. destruct (append_works f4 tail) as (f5 & Ha). rewrite Ha. destruct (append_ok _ _ _ Ha) as [Hb5 _]. destruct (sync_works f5) as (f6 & Hsy). rewrite Hsy. destruct (sync_data_ok _ _ Hsy) as [Hb6 Hs6].
  assert (extends f4 f6 48) as He5 by (exists tail; rewrite Hb6; split; [done|by rewrite Htail]). rewrite wadd_small by (rewrite Htail; pose proof table_limit; unfold SST_FOOTER_SIZE; lia).
  exists props, f6, (Footer_new ih fh ph), (pc_entry <$> li), runs1. split_and!.
  - by rewrite Hb6, Hb5, length_app, Nat2N.inj_add.
  - done.
  - split.
    + pose proof (extends_length _ _ _ He5). pose proof table_limit. lia.
    + exists (wf_bytes f4), tail. by rewrite Hb6.
    + exists payload. split; [|done]. eapply extends_stored; [exact He5|]. apply Hw4.
    + split; apply (tbh_props _ _ _ Ht1).
    + eexists. split; [|by eapply finish_block_of]. eapply extends_stored; [exact He5|]. eapply extends_stored; [exact He4|]. apply Hw3.
    + eapply extends_indexed; [exact He5|]. eapply extends_indexed; [exact He4|]. eapply extends_indexed; [exact He3|]. eapply extends_indexed; [exact He2|]. eapply extends_indexed; [exact He1|done].
    + destruct Hfs as [->|(b & Hb & Hnn & Hst)]; [by left|right]. exists (to_bloom_bits_per_key options). rewrite Hfil in Hb. destruct (0 <? _)%N; [|done]. injection Hb as <-. do 3 (eapply extends_stored; [eassumption|]). exact Hst.
    + split; [done|]. destruct Hrds as [[-> _]|[_ Hst]]; [by left|right]. cbn [props tp_range_del_offset tp_range_del_size]. destruct rd. do 4 (eapply extends_stored; [eassumption|]). exact Hst.
  - by rewrite Hs6, Hb6.
Qed.
End BuilderLaws.
