(* ===== verification/TableRead.v ===== *)
(** Reading a table (esker-engine/src/sst/reader.rs): opening it, the lookup of
    one key and the cursor over an index and the data block it points at.  The
    block cache is an argument: what it hands out for an offset of this file. *)

From stdpp Require Import prelude sorting.
From Stdlib Require Import NArith ZArith Lia.
From S2P Require Import Prelude Varint Endian Crc32c DbFormat EngineFs RangeDel Lsm Cursor Block SstFormat Bloom SstProps TableBuild.

Record OpenTable (F : Type) := mkTable {
  ot_file : F;
  ot_file_size : N;
  ot_options : TableOptions;
  ot_cached : N -> option bytes;
  ot_index : Block;
  ot_filter : option BloomFilter;
  ot_range_tombstones : RangeTombstones;
  ot_props : TableProperties }.
Arguments mkTable {F}.
Arguments ot_file {F}.
Arguments ot_file_size {F}.
Arguments ot_options {F}.
Arguments ot_cached {F}.
Arguments ot_index {F}.
Arguments ot_filter {F}.
Arguments ot_range_tombstones {F}.
Arguments ot_props {F}.

(** [TableIter]; [ti_status] says whether an error was recorded. *)
Record TableIter (F : Type) := mkTableIter {
  ti_inner : OpenTable F;
  ti_index_iter : BlockIter;
  ti_data_iter : option BlockIter;
  ti_status : bool }.
Arguments mkTableIter {F}.
Arguments ti_inner {F}.
Arguments ti_index_iter {F}.
Arguments ti_data_iter {F}.
Arguments ti_status {F}.

Section Reader.
Context (codec : Codec) {E F : Type} `{!RandomAccessFile E F}.

(** [BlockSource::read]; inserting into the cache is the cache's affair. *)
Definition source_read (file : F) (file_size : N) (cached : N -> option bytes) (handle : BlockHandle) : result SstError bytes :=
  match cached (bh_offset handle) with
  | Some data => Ok data
  | None =>
      let last := (bh_offset handle + total_len handle)%N in
      if (u64_max <? last)%N || (file_size <? last)%N then Err SstCorruption else
      match read_exact_at file (N.to_nat (bh_offset handle)) (N.to_nat (last - bh_offset handle)) with
      | Err _ => Err SstIo
      | Ok raw => decode_block codec raw
      end
  end.
Definition read_parsed (file : F) (file_size : N) (cached : N -> option bytes) (handle : BlockHandle) : result SstError Block :=
  let? data := source_read file file_size cached handle in Block_new data.

Definition table_open (file : F) (options : TableOptions) (cached : N -> option bytes) : result SstError (OpenTable F) :=
  match raf_size file with
  | Err _ => Err SstIo
  | Ok file_size =>
      if (file_size <? N.of_nat SST_FOOTER_SIZE)%N then Err SstCorruption else
      match read_exact_at file (N.to_nat (file_size - N.of_nat SST_FOOTER_SIZE)) SST_FOOTER_SIZE with
      | Err _ => Err SstIo
      | Ok footer_bytes =>
          let? footer := footer_decode footer_bytes in
          let? payload := source_read file file_size cached (ft_properties footer) in
          let? props := props_decode payload in
          if negb (bool_decide (tp_comparator_name props = to_comparator_name options)) then Err SstInvalid else
          let? filter :=
            (if handle_is_none (ft_filter footer) then Ok None
             else if decide (tp_prefix_extractor_name props = (pe_name <$> to_prefix_extractor options))
             then let? data := source_read file file_size cached (ft_filter footer) in let? filter := BloomFilter_parse data in Ok (Some filter)
             else Ok None) in
          let? index := read_parsed file file_size cached (ft_index footer) in
          let? tombstones :=
            (if (tp_range_del_count props =? 0)%N then Ok []
             else
               let? payload := source_read file file_size cached (mkHandle (tp_range_del_offset props) (tp_range_del_size props)) in
               match rts_decode (to_comparator options) payload with
               | Err _ => Err SstCorruption
               | Ok tombstones => if negb (N.of_nat (length tombstones) =? tp_range_del_count props)%N then Err SstCorruption else Ok tombstones
               end) in
          Ok (mkTable file file_size options cached index filter tombstones (with_file_size file_size props))
      end
  end.

Definition table_may_contain (t : OpenTable F) (key : bytes) : bool :=
  match ot_filter t with
  | None => true
  | Some filter => match filter_key (to_prefix_extractor (ot_options t)) key with Some data => bf_may_contain data filter | None => true end
  end.
Definition read_parsed_block (t : OpenTable F) (handle : BlockHandle) : result SstError Block := read_parsed (ot_file t) (ot_file_size t) (ot_cached t) handle.

Definition table_order (t : OpenTable F) : bytes -> bytes -> comparison := cmp (to_comparator (ot_options t)).

Definition table_get (t : OpenTable F) (key : bytes) : result SstError (option bytes) :=
  if negb (table_may_contain t key) then Ok None else
  let index_iter := bi_seek (table_order t) key (blk_iter (ot_index t)) in
  if bi_status index_iter then Err SstCorruption else
  if negb (bi_valid index_iter) then Ok None else
  let? (handle, _) := handle_decode_from (bi_value_bytes index_iter) in
  let? block := read_parsed_block t handle in
  let iter := bi_seek (table_order t) key (blk_iter block) in
  if bi_status iter then Err SstCorruption else
  Ok (if bi_valid iter && bool_decide (table_order t (bi_key iter) key = Eq) then Some (bi_value_bytes iter) else None).

Definition table_iter (t : OpenTable F) : TableIter F := mkTableIter t (blk_iter (ot_index t)) None false.
Definition ti_valid (it : TableIter F) : bool := from_option bi_valid false (ti_data_iter it).
Definition ti_key (it : TableIter F) : bytes := from_option bi_key [] (ti_data_iter it).
Definition ti_value (it : TableIter F) : bytes := from_option bi_value_bytes [] (ti_data_iter it).
Definition ti_error (it : TableIter F) : bool := ti_status it || bi_status (ti_index_iter it) || from_option bi_status false (ti_data_iter it).
Definition ti_with_index (it : TableIter F) (index : BlockIter) : TableIter F := mkTableIter (ti_inner it) index (ti_data_iter it) (ti_status it).
Definition ti_with_data (it : TableIter F) (data : option BlockIter) : TableIter F := mkTableIter (ti_inner it) (ti_index_iter it) data (ti_status it).
Definition ti_fail (it : TableIter F) : TableIter F := mkTableIter (ti_inner it) (ti_index_iter it) None true.

Definition open_current_block (it : TableIter F) : TableIter F :=
  if negb (bi_valid (ti_index_iter it)) then ti_with_data it None else
  match handle_decode_from (bi_value_bytes (ti_index_iter it)) with
  | Err _ => ti_fail it
  | Ok (handle, _) =>
      match read_parsed_block (ti_inner it) handle with
      | Ok block => ti_with_data it (Some (blk_iter block))
      | Err _ => ti_fail it
      end
  end.
(** The index cursor moves on in every round, so its rounds are enough. *)
Fixpoint skip_forward_loop (fuel : nat) (it : TableIter F) : TableIter F :=
  match fuel with
  | O => it
  | S fuel =>
      if ti_valid it then it else
      if ti_status it || negb (bi_valid (ti_index_iter it)) then ti_with_data it None else
      let it := open_current_block (ti_with_index it (bi_next (ti_index_iter it))) in
      skip_forward_loop fuel (ti_with_data it (bi_seek_to_first <$> ti_data_iter it))
  end.
Fixpoint skip_backward_loop (fuel : nat) (it : TableIter F) : TableIter F :=
  match fuel with
  | O => it
  | S fuel =>
      if ti_valid it then it else
      if ti_status it || negb (bi_valid (ti_index_iter it)) then ti_with_data it None else
      let it := open_current_block (ti_with_index it (bi_prev (ti_index_iter it))) in
      skip_backward_loop fuel (ti_with_data it (bi_seek_to_last <$> ti_data_iter it))
  end.
Definition ti_rounds (it : TableIter F) : nat := S (bi_rounds (ti_index_iter it)).
Definition skip_forward (it : TableIter F) : TableIter F := skip_forward_loop (ti_rounds it) it.
Definition skip_backward (it : TableIter F) : TableIter F := skip_backward_loop (ti_rounds it) it.

Definition ti_seek_to_first (it : TableIter F) : TableIter F :=
  let it := open_current_block (ti_with_index it (bi_seek_to_first (ti_index_iter it))) in
  skip_forward (ti_with_data it (bi_seek_to_first <$> ti_data_iter it)).
Definition ti_seek_to_last (it : TableIter F) : TableIter F :=
  let it := open_current_block (ti_with_index it (bi_seek_to_last (ti_index_iter it))) in
  skip_backward (ti_with_data it (bi_seek_to_last <$> ti_data_iter it)).
Definition ti_seek (target : bytes) (it : TableIter F) : TableIter F :=
  let it := open_current_block (ti_with_index it (bi_seek (table_order (ti_inner it)) target (ti_index_iter it))) in
  skip_forward (ti_with_data it (bi_seek (table_order (ti_inner it)) target <$> ti_data_iter it)).
Definition ti_next (it : TableIter F) : TableIter F :=
  if negb (ti_valid it) then it else skip_forward (ti_with_data it (bi_next <$> ti_data_iter it)).
Definition ti_prev (it : TableIter F) : TableIter F :=
  if negb (ti_valid it) then it else skip_backward (ti_with_data it (bi_prev <$> ti_data_iter it)).
Definition ti_seek_for_prev (target : bytes) (it : TableIter F) : TableIter F :=
  let it := ti_seek target it in
  if ti_status it then it else
  if negb (ti_valid it) then
    let it := ti_seek_to_last it in
    if ti_valid it && bool_decide (table_order (ti_inner it) (ti_key it) target = Gt) then ti_with_data it None else it
  else if decide (table_order (ti_inner it) (ti_key it) target = Gt) then ti_prev it else it.
End Reader.

(** ** The cursor of a table *)

Section TableCursor.
Context (codec : Codec) {E F : Type} `{!RandomAccessFile E F} (user : Comparator) `{!ComparatorLaws user}.

#[local] Instance TableIterOps : Cursor (TableIter F) := {
  cur_valid := ti_valid;
  cur_key := ti_key;
  cur_value := ti_value;
  cur_seek := ti_seek codec;
  cur_seek_for_prev := ti_seek_for_prev codec;
  cur_seek_to_first := ti_seek_to_first codec;
  cur_seek_to_last := ti_seek_to_last codec;
  cur_next := ti_next codec;
  cur_prev := ti_prev codec;
  cur_error := ti_error }.

(** An open table whose index names, for every block, its last key and a handle
    that reads back as the block. *)
Record table_ready (t : OpenTable F) (index : list entry) (runs : list (list entry)) : Prop := {
  ready_order : table_order t = internal_cmp user;
  ready_sorted : run_sorted user (mjoin runs);
  ready_index : bi_follows user (blk_iter (ot_index t)) (mkListCursor index None);
  ready_length : length index = length runs;
  ready_block i e run : index !! i = Some e -> runs !! i = Some run -> last run.*1 = Some e.1 /\
    exists handle n block, handle_decode_from e.2 = Ok (handle, n) /\ read_parsed_block codec t handle = Ok block /\ bi_follows user (blk_iter block) (mkListCursor run None) }.

(** The place of a block's first entry in the whole run. *)
Definition flat (runs : list (list entry)) (i : nat) : nat := length (mjoin (take i runs)).
Lemma flat_S runs i run : runs !! i = Some run -> flat runs (S i) = (flat runs i + length run)%nat.
Proof using. intros Hi. unfold flat. rewrite (take_S_r _ _ _ Hi), join_app, length_app. cbn. by rewrite app_nil_r. Qed.
Lemma flat_all runs i : (length runs <= i)%nat -> flat runs i = length (mjoin runs).
Proof using. intros Hi. unfold flat. by rewrite take_ge. Qed.
Lemma flat_lookup runs i run q : runs !! i = Some run -> (q < length run)%nat -> mjoin runs !! (flat runs i + q)%nat = run !! q.
Proof using.
  intros Hi Hq. rewrite <- (take_drop_middle runs i run Hi), join_app. cbn [mjoin list_join]. rewrite take_drop_middle by done. fold (flat runs i). unfold flat. rewrite lookup_app_r by lia.
  replace (length (mjoin (take i runs)) + q - length (mjoin (take i runs)))%nat with q by lia. apply lookup_app_l. exact Hq.
Qed.
Lemma flat_le runs i j : (i <= j)%nat -> (flat runs i <= flat runs j)%nat.
Proof using.
  intros Hij. unfold flat. replace (take j runs) with (take i runs ++ take (j - i) (drop i runs)). { rewrite join_app, length_app. lia. }
  rewrite <- (take_drop i (take j runs)). rewrite take_take, Nat.min_l by done. f_equal. by rewrite <- skipn_firstn_comm.
Qed.
Lemma flat_bound runs i run : runs !! i = Some run -> (flat runs i + length run <= length (mjoin runs))%nat.
Proof using. intros Hi. rewrite <- (flat_S _ _ _ Hi), <- (flat_all runs (length runs)) by done. apply flat_le. apply lookup_lt_Some in Hi. lia. Qed.

Section Ready.
Context (t : OpenTable F) (index : list entry) (runs : list (list entry)) (Hr : table_ready t index runs).

Lemma run_of i : (i < length index)%nat -> exists (e : entry) (run : list entry), index !! i = Some e /\ runs !! i = Some run /\ last run.*1 = Some e.1 /\ run <> [].
Proof using Hr.
  intros Hi. destruct (lookup_lt_is_Some_2 index i Hi) as [e He]. destruct (lookup_lt_is_Some_2 runs i) as [run Hrun]; [by rewrite <- (ready_length _ _ _ Hr)|].
  exists e, run. destruct (ready_block _ _ _ Hr i e run He Hrun) as [Hl _]. split_and!; [done..|]. by intros ->.
Qed.

Definition on_index (it : TableIter F) (pos : option nat) : Prop :=
  ti_inner it = t /\ ti_status it = false /\ bi_follows user (ti_index_iter it) (mkListCursor index pos).
Definition on_data (run : list entry) (it : TableIter F) (pos : option nat) : Prop :=
  exists data, ti_data_iter it = Some data /\ bi_follows user data (mkListCursor run pos).
Definition ti_follows (it : TableIter F) (lc : ListCursor) : Prop :=
  lc_entries lc = mjoin runs /\
  match lc_position lc with
  | None => ti_data_iter it = None /\ exists pos, on_index it pos
  | Some p => exists i run q, runs !! i = Some run /\ (q < length run)%nat /\ p = (flat runs i + q)%nat /\ on_index it (Some i) /\ on_data run it (Some q)
  end.
Lemma follows_index it lc : ti_follows it lc -> exists pos, on_index it pos.
Proof using. intros [_ H]. destruct (lc_position lc) as [p|]; [destruct H as (i & run & q & _ & _ & _ & H & _); eauto|apply H]. Qed.

Lemma follows_valid it pos entries : bi_follows user it (mkListCursor entries pos) -> bi_valid it = bool_decide (is_Some pos).
Proof using ComparatorLaws0. apply (fo_valid user (Hops := BlockIterOps user) _ (bi_follows_list user)). Qed.
Lemma data_valid run it pos : on_data run it pos -> ti_valid it = bool_decide (is_Some pos).
Proof using ComparatorLaws0. intros (data & Hd & Hf). unfold ti_valid. rewrite Hd. by apply (follows_valid _ _ run). Qed.

Lemma open_on it i run : on_index it (Some i) -> runs !! i = Some run -> exists block, open_current_block codec it = ti_with_data it (Some block) /\ bi_follows user block (mkListCursor run None).
Proof using Hr ComparatorLaws0.
  intros (Ht & Hst & Hf) Hrun. unfold open_current_block. rewrite (follows_valid _ _ _ Hf), bool_decide_true by eauto. cbn [negb].
  destruct (lookup_lt_is_Some_2 index i) as [e He]; [rewrite (ready_length _ _ _ Hr); by eapply lookup_lt_Some|]. destruct (ready_block _ _ _ Hr i e run He Hrun) as (_ & handle & n & block & Hd & Hb & Hbf).
  destruct (fo_entry user (Hops := BlockIterOps user) _ (bi_follows_list user) _ _ e Hf) as [_ Hv]; [unfold lc_entry; exact He|]. change (cur_value (ti_index_iter it)) with (bi_value_bytes (ti_index_iter it)) in Hv. rewrite Hv, Hd, Ht, Hb. by eexists.
Qed.
Lemma open_off it : on_index it None -> open_current_block codec it = ti_with_data it None.
Proof using ComparatorLaws0. intros (Ht & Hst & Hf). unfold open_current_block. by rewrite (follows_valid _ _ _ Hf). Qed.

Lemma follows_bound it entries q : bi_follows user it (mkListCursor entries (Some q)) -> (q < length entries)%nat.
Proof using.
  intros (b & l & starts & Hb & _ & He & Hp). cbn in He, Hp. destruct (on_key b l starts Hb q it Hp) as (p & Hl & _). rewrite He, length_fmap. by eapply lookup_lt_Some.
Qed.
(** Moving the index cursor, then opening the block it names. *)
Lemma index_moves it pos pos' (move : BlockIter -> BlockIter) : on_index it pos -> bi_follows user (move (ti_index_iter it)) (mkListCursor index pos') -> on_index (ti_with_index it (move (ti_index_iter it))) pos'.
Proof using. intros (Ht & Hst & _) Hf. done. Qed.
Lemma enter it i run (move : BlockIter -> BlockIter) pos : on_index it (Some i) -> runs !! i = Some run ->
  (forall block, bi_follows user block (mkListCursor run None) -> bi_follows user (move block) (mkListCursor run pos)) ->
  let it := open_current_block codec it in on_index (ti_with_data it (move <$> ti_data_iter it)) (Some i) /\ on_data run (ti_with_data it (move <$> ti_data_iter it)) pos.
Proof using Hr ComparatorLaws0. intros Hi Hrun Hm. destruct (open_on it i run Hi Hrun) as (block & -> & Hb). cbn. split; [exact Hi|]. eexists. split; [reflexivity|]. by apply Hm. Qed.
Lemma leave it (move : BlockIter -> BlockIter) : on_index it None ->
  let it := open_current_block codec it in on_index (ti_with_data it (move <$> ti_data_iter it)) None /\ ti_data_iter (ti_with_data it (move <$> ti_data_iter it)) = None.
Proof using ComparatorLaws0. intros Hi. rewrite (open_off it Hi). done. Qed.

Lemma index_valid it pos : on_index it pos -> bi_valid (ti_index_iter it) = bool_decide (is_Some pos).
Proof using ComparatorLaws0. intros (_ & _ & Hf). by apply (follows_valid _ _ index). Qed.
Lemma index_next it i : on_index it (Some i) -> on_index (ti_with_index it (bi_next (ti_index_iter it))) (if decide (S i < length index)%nat then Some (S i) else None).
Proof using ComparatorLaws0. intros Hi. apply (index_moves it (Some i)); [done|]. destruct Hi as (_ & _ & Hf). exact (fo_next user (Hops := BlockIterOps user) _ (bi_follows_list user) _ _ Hf). Qed.
Lemma index_prev it i : on_index it (Some i) -> on_index (ti_with_index it (bi_prev (ti_index_iter it))) (match i with O => None | S i => Some i end).
Proof using ComparatorLaws0. intros Hi. apply (index_moves it (Some i)); [done|]. destruct Hi as (_ & _ & Hf). exact (fo_prev user (Hops := BlockIterOps user) _ (bi_follows_list user) _ _ Hf). Qed.

Lemma stand_on it i run q : runs !! i = Some run -> on_index it (Some i) -> on_data run it (Some q) -> ti_follows it (mkListCursor (mjoin runs) (Some (flat runs i + q)%nat)).
Proof using. intros Hrun Hi Hd. split; [done|]. exists i, run, q. split_and!; try done. destruct Hd as (data & _ & Hf). by apply follows_bound in Hf. Qed.
Lemma stand_off it pos : on_index it pos -> ti_data_iter it = None -> ti_follows it (mkListCursor (mjoin runs) None).
Proof using. intros Hi Hd. split; [done|]. split; [done|]. by exists pos. Qed.

Lemma skip_none fuel it : on_index it None -> ti_data_iter it = None ->
  skip_forward_loop codec fuel it = it /\ skip_backward_loop codec fuel it = it.
Proof using ComparatorLaws0.
  intros Hi Hd. assert (ti_with_data it None = it) as Hsame by (unfold ti_with_data; rewrite <- Hd; by destruct it). destruct fuel as [|fuel]; [done|]. cbn [skip_forward_loop skip_backward_loop].
  unfold ti_valid. rewrite Hd. cbn [from_option]. rewrite (index_valid _ _ Hi), orb_true_r. by rewrite Hsame.
Qed.
Lemma first_of block run : run <> [] -> bi_follows user block (mkListCursor run None) -> bi_follows user (bi_seek_to_first block) (mkListCursor run (Some 0%nat)).
Proof using ComparatorLaws0. intros Hne Hf. pose proof (fo_first user (Hops := BlockIterOps user) _ (bi_follows_list user) _ _ Hf) as H. cbn in H. by rewrite decide_False in H by done. Qed.
Lemma last_of block run : run <> [] -> bi_follows user block (mkListCursor run None) -> bi_follows user (bi_seek_to_last block) (mkListCursor run (Some (length run - 1)%nat)).
Proof using ComparatorLaws0. intros Hne Hf. pose proof (fo_last user (Hops := BlockIterOps user) _ (bi_follows_list user) _ _ Hf) as H. cbn in H. by rewrite decide_False in H by done. Qed.

(** A block that has nothing left to give is left for the next one. *)
Lemma skip_forward_spec it i run pos : on_index it (Some i) -> runs !! i = Some run -> on_data run it pos ->
  ti_follows (skip_forward codec it)
    (mkListCursor (mjoin runs) (match pos with Some q => Some (flat runs i + q)%nat | None => if decide (S i < length index)%nat then Some (flat runs (S i)) else None end)).
Proof using Hr ComparatorLaws0.
  intros Hi Hrun Hd. unfold skip_forward, ti_rounds, bi_rounds. cbn [skip_forward_loop]. rewrite (data_valid _ _ _ Hd). destruct pos as [q|]; cbn [bool_decide]; [rewrite bool_decide_true by eauto; by apply (stand_on _ i run)|].
  rewrite bool_decide_false by (by intros [? ?]). rewrite (index_valid _ _ Hi). rewrite (proj1 (proj2 Hi)), bool_decide_true by eauto. cbn [orb negb]. pose proof (index_next it i Hi) as Hn. destruct (decide _) as [Hlt|Hge].
  - destruct (run_of (S i) Hlt) as (e & run' & _ & Hrun' & _ & Hne). destruct (enter _ (S i) run' bi_seek_to_first (Some 0%nat) Hn Hrun') as [Hi' Hd']; [intros; by apply first_of|].
    rewrite (data_valid _ _ _ Hd'), bool_decide_true by eauto. rewrite <- (Nat.add_0_r (flat runs (S i))). by apply (stand_on _ (S i) run').
  - destruct (leave _ bi_seek_to_first Hn) as [Hi' Hd']. change (if ti_valid ?a then ?a else ?b) with (skip_forward_loop codec (S (bi_limit (ti_index_iter it))) a). rewrite (proj1 (skip_none _ _ Hi' Hd')). by apply (stand_off _ None).
Qed.
Lemma skip_backward_spec it i run pos : on_index it (Some i) -> runs !! i = Some run -> on_data run it pos ->
  ti_follows (skip_backward codec it)
    (mkListCursor (mjoin runs) (match pos with Some q => Some (flat runs i + q)%nat | None => match i with O => None | S _ => Some (flat runs i - 1)%nat end end)).
Proof using Hr ComparatorLaws0.
  intros Hi Hrun Hd. unfold skip_backward, ti_rounds, bi_rounds. cbn [skip_backward_loop]. rewrite (data_valid _ _ _ Hd). destruct pos as [q|]; cbn [bool_decide]; [rewrite bool_decide_true by eauto; by apply (stand_on _ i run)|].
  rewrite bool_decide_false by (by intros [? ?]). rewrite (index_valid _ _ Hi). rewrite (proj1 (proj2 Hi)), bool_decide_true by eauto. cbn [orb negb]. pose proof (index_prev it i Hi) as Hn. destruct i as [|i].
  - destruct (leave _ bi_seek_to_last Hn) as [Hi' Hd']. change (if ti_valid ?a then ?a else ?b) with (skip_backward_loop codec (S (bi_limit (ti_index_iter it))) a). rewrite (proj2 (skip_none _ _ Hi' Hd')). by apply (stand_off _ None).
  - destruct (run_of i) as (e & run' & _ & Hrun' & _ & Hne); [rewrite (ready_length _ _ _ Hr); apply lookup_lt_Some in Hrun; lia|]. destruct (enter _ i run' bi_seek_to_last (Some (length run' - 1)%nat) Hn Hrun') as [Hi' Hd']; [intros; by apply last_of|].
    rewrite (data_valid _ _ _ Hd'), bool_decide_true by eauto. assert (flat runs (S i) - 1 = flat runs i + (length run' - 1))%nat as -> by (rewrite (flat_S _ _ _ Hrun'); destruct run'; [done|cbn; lia]). by apply (stand_on _ i run').
Qed.

(** *** Moves *)

Lemma flat_pos i : (i < length index)%nat -> (flat runs i < length (mjoin runs))%nat.
Proof using Hr.
  intros Hi. destruct (run_of i Hi) as (e & run & _ & Hrun & _ & Hne). pose proof (flat_bound runs i run Hrun). destruct run; [done|]. cbn in *. lia.
Qed.
Lemma flat_index i run : runs !! i = Some run -> (i < length index)%nat.
Proof using Hr. intros Hrun. rewrite (ready_length _ _ _ Hr). by eapply lookup_lt_Some. Qed.

Lemma ti_next_follows it lc : ti_follows it lc -> ti_follows (ti_next codec it) (cur_next (Cursor := ListCursorOps user) lc).
Proof using Hr ComparatorLaws0.
  destruct lc as [entries pos]. intros [He Hp]. cbn in He, Hp. subst entries. unfold ti_next. destruct pos as [p|]; cycle 1.
  - destruct Hp as [Hd (pos & Hi)]. unfold ti_valid. rewrite Hd. by apply (stand_off it pos).
  - destruct Hp as (i & run & q & Hrun & Hq & -> & Hi & Hd). rewrite (data_valid _ _ _ Hd), bool_decide_true by eauto. cbn [negb]. destruct Hd as (data & Hd & Hf). rewrite Hd. cbn [fmap option_fmap option_map].
    pose proof (fo_next user (Hops := BlockIterOps user) _ (bi_follows_list user) _ _ Hf) as Hn. cbn in Hn. pose proof (flat_bound runs i run Hrun) as Hbound.
    pose proof (skip_forward_spec (ti_with_data it (Some (bi_next data))) i run _ Hi Hrun (ex_intro _ (bi_next data) (conj eq_refl Hn))) as H. cbn [cur_next ListCursorOps lc_entries lc_position mbind option_bind].
    destruct (decide (S q < length run)%nat) as [Hlt|Hge].
    + rewrite decide_True by (eapply Nat.lt_le_trans; [|exact Hbound]; lia). by rewrite Nat.add_succ_r in H.
    + rewrite (flat_S _ _ _ Hrun) in H. replace (flat runs i + length run)%nat with (S (flat runs i + q)) in H by lia. destruct (decide (S i < length index)%nat) as [Hlt|Hlast].
      * pose proof (flat_pos (S i) Hlt) as Hpos. rewrite (flat_S _ _ _ Hrun) in Hpos. rewrite decide_True by (eapply Nat.le_lt_trans; [|exact Hpos]; lia). done.
      * rewrite decide_False; [done|]. intros Hlt. rewrite <- (flat_all runs (S i)), (flat_S _ _ _ Hrun) in Hlt by (rewrite <- (ready_length _ _ _ Hr); lia). lia.
Qed.
Lemma ti_prev_follows it lc : ti_follows it lc -> ti_follows (ti_prev codec it) (cur_prev (Cursor := ListCursorOps user) lc).
Proof using Hr ComparatorLaws0.
  destruct lc as [entries pos]. intros [He Hp]. cbn in He, Hp. subst entries. unfold ti_prev. destruct pos as [p|]; cycle 1.
  - destruct Hp as [Hd (pos & Hi)]. unfold ti_valid. rewrite Hd. by apply (stand_off it pos).
  - destruct Hp as (i & run & q & Hrun & Hq & -> & Hi & Hd). rewrite (data_valid _ _ _ Hd), bool_decide_true by eauto. cbn [negb]. destruct Hd as (data & Hd & Hf). rewrite Hd. cbn [fmap option_fmap option_map].
    pose proof (fo_prev user (Hops := BlockIterOps user) _ (bi_follows_list user) _ _ Hf) as Hn. cbn in Hn.
    pose proof (skip_backward_spec (ti_with_data it (Some (bi_prev data))) i run _ Hi Hrun (ex_intro _ (bi_prev data) (conj eq_refl Hn))) as H. cbn [cur_prev ListCursorOps lc_entries lc_position mbind option_bind].
    destruct q as [|q]; [|by rewrite Nat.add_succ_r]. rewrite Nat.add_0_r. destruct i as [|i]; [done|].
    destruct (run_of i) as (e & run' & _ & Hrun' & _ & Hne); [pose proof (flat_index _ _ Hrun); lia|]. destruct (flat runs (S i)) as [|n] eqn:Ef; [rewrite (flat_S _ _ _ Hrun') in Ef; destruct run'; [done|cbn in Ef; lia]|].
    by replace (S n - 1)%nat with n in H by lia.
Qed.

Lemma ti_first_follows it lc : ti_follows it lc -> ti_follows (ti_seek_to_first codec it) (cur_seek_to_first (Cursor := ListCursorOps user) lc).
Proof using Hr ComparatorLaws0.
  intros Hf. destruct (follows_index it lc Hf) as (pos & Hi). destruct Hf as [He _]. cbn [cur_seek_to_first ListCursorOps]. rewrite He. unfold ti_seek_to_first.
  pose proof (index_moves it pos _ bi_seek_to_first Hi (fo_first user (Hops := BlockIterOps user) _ (bi_follows_list user) _ _ (proj2 (proj2 Hi)))) as Hm. cbn in Hm.
  destruct (decide (index = [])) as [Hnil|Hne].
  - rewrite decide_True by (pose proof (ready_length _ _ _ Hr) as Hl; rewrite Hnil in Hl; by destruct runs). destruct (leave _ bi_seek_to_first Hm) as [Hi' Hd']. unfold skip_forward. rewrite (proj1 (skip_none _ _ Hi' Hd')). by apply (stand_off _ None).
  - assert (0 < length index)%nat as Hlt by (destruct index; [done|cbn; lia]). destruct (run_of 0%nat Hlt) as (e & run & _ & Hrun & _ & Hrne). rewrite decide_False by (intros H; pose proof (flat_pos 0 Hlt) as Hp; rewrite H in Hp; cbn in Hp; lia).
    destruct (enter _ 0%nat run bi_seek_to_first (Some 0%nat) Hm Hrun) as [Hi' Hd']; [intros; by apply first_of|]. exact (skip_forward_spec _ 0%nat run (Some 0%nat) Hi' Hrun Hd').
Qed.
Lemma ti_last_follows it lc : ti_follows it lc -> ti_follows (ti_seek_to_last codec it) (cur_seek_to_last (Cursor := ListCursorOps user) lc).
Proof using Hr ComparatorLaws0.
  intros Hf. destruct (follows_index it lc Hf) as (pos & Hi). destruct Hf as [He _]. cbn [cur_seek_to_last ListCursorOps]. rewrite He. unfold ti_seek_to_last.
  pose proof (index_moves it pos _ bi_seek_to_last Hi (fo_last user (Hops := BlockIterOps user) _ (bi_follows_list user) _ _ (proj2 (proj2 Hi)))) as Hm. cbn in Hm.
  destruct (decide (index = [])) as [Hnil|Hne].
  - rewrite decide_True by (pose proof (ready_length _ _ _ Hr) as Hl; rewrite Hnil in Hl; by destruct runs). destruct (leave _ bi_seek_to_last Hm) as [Hi' Hd']. unfold skip_backward. rewrite (proj2 (skip_none _ _ Hi' Hd')). by apply (stand_off _ None).
  - assert (0 < length index)%nat as Hlt by (destruct index; [done|cbn; lia]). destruct (run_of (length index - 1)%nat ltac:(lia)) as (e & run & _ & Hrun & _ & Hrne). rewrite decide_False by (intros H; pose proof (flat_pos 0 Hlt) as Hp; rewrite H in Hp; cbn in Hp; lia).
    destruct (enter _ _ run bi_seek_to_last (Some (length run - 1)%nat) Hm Hrun) as [Hi' Hd']; [intros; by apply last_of|]. pose proof (skip_backward_spec _ _ run (Some _) Hi' Hrun Hd') as H. cbn in H.
    pose proof (flat_S _ _ _ Hrun) as Hend. rewrite flat_all in Hend by (rewrite <- (ready_length _ _ _ Hr); lia). rewrite Hend. clear Hend. assert (0 < length run)%nat as Hpos by (clear -Hrne; destruct run; [congruence|cbn; lia]).
    replace (flat runs (length index - 1) + length run - 1)%nat with (flat runs (length index - 1) + (length run - 1))%nat by lia. exact H.
Qed.

(** *** Seeks *)

Lemma last_entry i e run : index !! i = Some e -> runs !! i = Some run -> exists x, mjoin runs !! (flat runs i + (length run - 1))%nat = Some x /\ run !! (length run - 1)%nat = Some x /\ x.1 = e.1.
Proof using Hr.
  intros He Hrun. destruct (ready_block _ _ _ Hr i e run He Hrun) as [Hl _]. rewrite last_lookup, length_fmap, list_lookup_fmap in Hl.
  apply fmap_Some in Hl as (x & Hx & Hk). exists x. rewrite Nat.sub_1_r. split; [|split; [exact Hx|by symmetry]]. rewrite (flat_lookup runs i run); [exact Hx|done|]. by eapply lookup_lt_Some.
Qed.
(** Every entry of the blocks before the one the index stops at is below. *)
Lemma blocks_below target i j x : wellformed target -> (forall k e, (k < i)%nat -> index !! k = Some e -> internal_cmp user e.1 target = Lt) -> (i <= length index)%nat ->
  mjoin runs !! j = Some x -> (j < flat runs i)%nat -> internal_cmp user x.1 target = Lt.
Proof using Hr ComparatorLaws0.
  intros Ht Hbelow Hi Hx Hj. destruct i as [|i]; [by apply Nat.nlt_0_r in Hj|]. destruct (run_of i Hi) as (e & run & He & Hrun & _ & _). destruct (last_entry i e run He Hrun) as (y & Hy & Hyr & Hk).
  apply lookup_lt_Some in Hyr. rewrite (flat_S _ _ _ Hrun) in Hj. apply (key_le_lt_trans user _ y.1); [exact (lookup_wf user _ _ _ (ready_sorted _ _ _ Hr) Hx)|exact (lookup_wf user _ _ _ (ready_sorted _ _ _ Hr) Hy)|done| |rewrite Hk; apply (Hbelow i); [lia|exact He]].
  apply (lookup_le user (mjoin runs) j (flat runs i + (length run - 1))%nat); [exact (ready_sorted _ _ _ Hr)|done|done|lia].
Qed.
(** The index leads to the block of the first entry at or past the target. *)
Lemma find_block target : wellformed target ->
  let P := fun e : entry => internal_cmp user e.1 target <> Lt in
  (list_find P index = None /\ list_find P (mjoin runs) = None) \/
  exists i e run q x, list_find P index = Some (i, e) /\ runs !! i = Some run /\ list_find P run = Some (q, x) /\ list_find P (mjoin runs) = Some ((flat runs i + q)%nat, x).
Proof using Hr ComparatorLaws0.
  intros Ht P. assert (forall e : entry, ~ P e -> internal_cmp user e.1 target = Lt) as HnP by (intros e Hn; unfold P in Hn; destruct (internal_cmp user e.1 target); [by destruct Hn|done|by destruct Hn]).
  destruct (list_find P index) as [[i e]|] eqn:Ei.
  - right. apply list_find_Some in Ei as (Hei & Hge & Hlow). destruct (lookup_lt_is_Some_2 runs i) as [run Hrun]; [rewrite <- (ready_length _ _ _ Hr); by eapply lookup_lt_Some|].
    destruct (last_entry i e run Hei Hrun) as (y & Hy & Hyr & Hk). destruct (list_find P run) as [[q x]|] eqn:Eq; cycle 1.
    { apply list_find_None in Eq. rewrite Forall_lookup in Eq. destruct (Eq _ _ Hyr). unfold P. by rewrite Hk. }
    exists i, e, run, q, x. split_and!; [done..|]. apply list_find_Some in Eq as (Hq & HPx & Hqlow). apply list_find_Some. pose proof (lookup_lt_Some _ _ _ Hq). split_and!; [by rewrite (flat_lookup runs i run)|done|].
    intros j z Hz Hj HPz. destruct (Nat.lt_ge_cases j (flat runs i)) as [Hlt|Hle].
    + apply HPz. apply (blocks_below target i j); [done| |apply lookup_lt_Some in Hei; lia|done|done]. intros k e1 Hk1 He1. exact (HnP _ (Hlow k e1 He1 Hk1)).
    + apply (Hqlow (j - flat runs i)%nat z); [|lia|done]. rewrite <- (flat_lookup runs i run) by (done || lia). by replace (flat runs i + (j - flat runs i))%nat with j by lia.
  - left. split; [done|]. apply list_find_None in Ei. rewrite Forall_lookup in Ei. apply list_find_None, Forall_lookup. intros j z Hz HPz. apply HPz.
    apply (blocks_below target (length index) j); [done|intros k e1 _ He1; exact (HnP _ (Ei k e1 He1))|done|done|rewrite flat_all by (by rewrite (ready_length _ _ _ Hr)); by eapply lookup_lt_Some].
Qed.

Lemma open_inner it : ti_inner (open_current_block codec it) = ti_inner it.
Proof using. unfold open_current_block. destruct (negb _); [done|]. destruct (handle_decode_from _) as [[h n]|]; [|done]. by destruct (read_parsed_block _ _ _). Qed.
Lemma block_seek it entries pos target : bi_follows user it (mkListCursor entries pos) -> wellformed target ->
  bi_follows user (bi_seek (internal_cmp user) target it) (mkListCursor entries (fst <$> list_find (fun e : entry => internal_cmp user e.1 target <> Lt) entries)).
Proof using ComparatorLaws0. intros Hf Ht. exact (fo_seek user (Hops := BlockIterOps user) _ (bi_follows_list user) _ _ target Hf Ht). Qed.
Lemma ti_seek_follows it lc target : ti_follows it lc -> wellformed target -> ti_follows (ti_seek codec target it) (cur_seek (Cursor := ListCursorOps user) target lc).
Proof using Hr ComparatorLaws0.
  intros Hf Ht. destruct (follows_index it lc Hf) as (pos & Hi). destruct Hf as [He _]. cbn [cur_seek ListCursorOps]. rewrite He. unfold ti_seek. rewrite open_inner. cbn [ti_with_index ti_inner]. rewrite (proj1 Hi), (ready_order _ _ _ Hr).
  pose proof (index_moves it pos _ (bi_seek (internal_cmp user) target) Hi (block_seek _ _ _ target (proj2 (proj2 Hi)) Ht)) as Hm.
  destruct (find_block target Ht) as [[En ->]|(i & e & run & q & x & Ei & Hrun & Eq & ->)].
  - rewrite En in Hm. destruct (leave _ (bi_seek (internal_cmp user) target) Hm) as [Hi' Hd']. unfold skip_forward. rewrite (proj1 (skip_none _ _ Hi' Hd')). by apply (stand_off _ None).
  - rewrite Ei in Hm. destruct (enter _ i run (bi_seek (internal_cmp user) target) (Some q) Hm Hrun) as [Hi' Hd'].
    { intros block Hb. pose proof (block_seek _ _ _ target Hb Ht) as H. by rewrite Eq in H. }
    exact (skip_forward_spec _ i run (Some q) Hi' Hrun Hd').
Qed.

(** One key looked up: the first entry at or past it, if it is that key. *)
Lemma table_get_spec key : wellformed key -> table_may_contain t key = true ->
  table_get codec t key = Ok (match list_find (fun e : entry => internal_cmp user e.1 key <> Lt) (mjoin runs) with Some (_, x) => if bool_decide (internal_cmp user x.1 key = Eq) then Some x.2 else None | None => None end).
Proof using Hr ComparatorLaws0.
  intros Hk Hm. unfold table_get. rewrite Hm, (ready_order _ _ _ Hr). cbn [negb]. pose proof (block_seek _ _ _ key (ready_index _ _ _ Hr) Hk) as Hf. set (it := bi_seek (internal_cmp user) key (blk_iter (ot_index t))) in *. clearbody it.
  pose proof (fo_readable user (Hops := BlockIterOps user) _ (bi_follows_list user) _ _ Hf) as Hst. cbn in Hst. rewrite Hst, (follows_valid _ _ _ Hf). destruct (find_block key Hk) as [[En ->]|(i & e & run & q & x & Ei & Hrun & Eq & ->)].
  - rewrite En. done.
  - rewrite Ei in *. cbn [fmap option_fmap option_map fst] in Hf |- *. rewrite bool_decide_true by eauto. cbn [negb]. apply list_find_Some in Ei as (He & _). destruct (fo_entry user (Hops := BlockIterOps user) _ (bi_follows_list user) _ _ e Hf He) as [_ Hv]. change (cur_value it) with (bi_value_bytes it) in Hv.
    destruct (ready_block _ _ _ Hr i e run He Hrun) as (_ & handle & n & block & Hd & Hb & Hbf). rewrite Hv, Hd. cbn [rbind]. rewrite Hb. cbn [rbind]. pose proof (block_seek _ _ _ key Hbf Hk) as Hdf. rewrite Eq in Hdf. cbn [fmap option_fmap option_map fst] in Hdf.
    set (data := bi_seek (internal_cmp user) key (blk_iter block)) in *. clearbody data. pose proof (fo_readable user (Hops := BlockIterOps user) _ (bi_follows_list user) _ _ Hdf) as Hdst. cbn in Hdst. rewrite Hdst, (follows_valid _ _ _ Hdf), bool_decide_true by eauto. cbn [andb].
    apply list_find_Some in Eq as (Hq & _). destruct (fo_entry user (Hops := BlockIterOps user) _ (bi_follows_list user) _ _ x Hdf Hq) as [Hkey Hval]. change (cur_key data) with (bi_key data) in Hkey. change (cur_value data) with (bi_value_bytes data) in Hval. by rewrite Hkey, Hval.
Qed.

(** [seek_for_prev] on a list, by way of [seek]. *)
Lemma seek_back_by_seek entries target : run_sorted user entries -> wellformed target ->
  rposition (fun e : entry => bool_decide (internal_cmp user e.1 target <> Gt)) entries =
  match list_find (fun e : entry => internal_cmp user e.1 target <> Lt) entries with
  | None => if decide (entries = []) then None else Some (length entries - 1)%nat
  | Some (k, x) => if decide (internal_cmp user x.1 target = Gt) then match k with O => None | S k => Some k end else Some k
  end.
Proof using ComparatorLaws0.
  intros Hs Ht. destruct (list_find _ entries) as [[k x]|] eqn:Ek.
  - apply list_find_Some in Ek as (Hk & Hge & Hlow). assert (forall j y, entries !! j = Some y -> (j < k)%nat -> internal_cmp user y.1 target = Lt) as Hlt.
    { intros j y Hj Hjk. pose proof (Hlow j y Hj Hjk) as Hn. destruct (internal_cmp user y.1 target); [by destruct Hn|done|by destruct Hn]. }
    assert (forall j y, entries !! j = Some y -> (k < j)%nat -> bool_decide (internal_cmp user y.1 target <> Gt) = false) as Hafter.
    { intros j y Hj Hkj. apply bool_decide_eq_false. intros Hy. apply Hy. rewrite internal_cmp_antisym by done. rewrite (key_le_lt_trans user target x.1 y.1); [done|done|exact (lookup_wf user _ _ _ Hs Hk)|exact (lookup_wf user _ _ _ Hs Hj)|by apply not_lt_le|exact (sorted_lookup user _ _ _ _ _ Hs Hk Hj Hkj)]. }
    destruct (decide _) as [Hgt|Hngt]; [|apply (rposition_is _ _ k x); [done|by apply bool_decide_eq_true|done]].
    assert (forall j y, entries !! j = Some y -> (k <= j)%nat -> bool_decide (internal_cmp user y.1 target <> Gt) = false) as Hfrom.
    { intros j y Hj Hkj. destruct (decide (j = k)) as [->|]; [|apply (Hafter j); [done|lia]]. assert (y = x) as -> by (by injection (eq_trans (eq_sym Hj) Hk)). apply bool_decide_eq_false. intros Hn. by apply Hn. }
    destruct k as [|k]; [apply rposition_no; intros j y Hj; apply (Hfrom j); [done|lia]|]. destruct (lookup_lt_is_Some_2 entries k) as [z Hz]; [apply lookup_lt_Some in Hk; lia|].
    apply (rposition_is _ _ k z); [done|apply bool_decide_eq_true; by rewrite (Hlt k z Hz) by lia|]. intros j y Hj Hkj. apply (Hfrom j); [done|lia].
  - apply list_find_None in Ek. rewrite Forall_lookup in Ek. destruct (decide _) as [->|Hne]; [done|]. destruct (lookup_lt_is_Some_2 entries (length entries - 1)%nat) as [z Hz]; [destruct entries; [done|cbn; lia]|].
    apply (rposition_is _ _ _ z); [done| |intros j y Hj Hlt; apply lookup_lt_Some in Hj; lia]. apply bool_decide_eq_true. pose proof (Ek _ _ Hz) as Hn. destruct (internal_cmp user z.1 target); [done|done|by destruct Hn].
Qed.

Lemma follows_status it lc : ti_follows it lc -> ti_inner it = t /\ ti_status it = false /\ ti_valid it = bool_decide (is_Some (lc_position lc)).
Proof using ComparatorLaws0.
  intros Hf. destruct (follows_index it lc Hf) as (pos & H1 & H2 & _). split_and!; [done..|]. destruct Hf as [_ Hp]. destruct (lc_position lc) as [p|].
  - destruct Hp as (i & run & q & _ & _ & _ & _ & Hd). rewrite (data_valid _ _ _ Hd). by rewrite !bool_decide_true by eauto.
  - unfold ti_valid. by rewrite (proj1 Hp).
Qed.
Lemma follows_entry it lc e : ti_follows it lc -> lc_entry lc = Some e -> ti_key it = e.1 /\ ti_value it = e.2.
Proof using ComparatorLaws0.
  intros [He Hp] Hlc. unfold lc_entry in Hlc. destruct (lc_position lc) as [p|]; [|done]. destruct Hp as (i & run & q & Hrun & Hq & -> & _ & data & Hd & Hf). cbn [mbind option_bind] in Hlc. rewrite He, (flat_lookup runs i run) in Hlc by done.
  unfold ti_key, ti_value. rewrite Hd. exact (fo_entry user (Hops := BlockIterOps user) _ (bi_follows_list user) _ _ e Hf Hlc).
Qed.

Lemma ti_seek_for_prev_follows it lc target : ti_follows it lc -> wellformed target ->
  ti_follows (ti_seek_for_prev codec target it) (cur_seek_for_prev (Cursor := ListCursorOps user) target lc).
Proof using Hr ComparatorLaws0.
  intros Hf Ht. pose proof (ti_seek_follows it lc target Hf Ht) as Hs. destruct Hf as [He _]. unfold ti_seek_for_prev. set (it1 := ti_seek codec target it) in *. clearbody it1.
  destruct (follows_status it1 _ Hs) as (Hin & Hst & Hv). rewrite Hst, Hv. cbn [cur_seek_for_prev cur_seek ListCursorOps lc_entries lc_position] in *. rewrite He in *. rewrite (seek_back_by_seek (mjoin runs) target (ready_sorted _ _ _ Hr) Ht).
  destruct (list_find _ (mjoin runs)) as [[k x]|] eqn:Ek; cbn [fmap option_fmap option_map fst] in *.
  - rewrite bool_decide_true by eauto. cbn [negb]. rewrite Hin, (ready_order _ _ _ Hr). apply list_find_Some in Ek as (Hk & _). destruct (follows_entry it1 _ x Hs Hk) as [-> _].
    destruct (decide (internal_cmp user x.1 target = Gt)) as [Hgt|Hle]; [exact (ti_prev_follows it1 _ Hs)|exact Hs].
  - rewrite bool_decide_false by (by intros [? ?]). cbn [negb]. pose proof (ti_last_follows it1 _ Hs) as Hl. cbn [cur_seek_to_last ListCursorOps lc_entries] in Hl. set (it2 := ti_seek_to_last codec it1) in *. clearbody it2.
    destruct (follows_status it2 _ Hl) as (Hin2 & Hst2 & Hv2). cbn [lc_position] in Hv2. rewrite Hv2. destruct (decide (mjoin runs = [])) as [Hnil|Hne]; [exact Hl|]. rewrite bool_decide_true by eauto. cbn [andb].
    rewrite Hin2, (ready_order _ _ _ Hr). destruct (lookup_lt_is_Some_2 (mjoin runs) (length (mjoin runs) - 1)%nat) as [z Hz]; [destruct (mjoin runs); [done|cbn; lia]|].
    destruct (follows_entry it2 _ z Hl Hz) as [-> _]. apply list_find_None in Ek. rewrite Forall_lookup in Ek. rewrite bool_decide_false; [exact Hl|]. intros Hgt. apply (Ek _ _ Hz). by rewrite Hgt.
Qed.

Lemma ti_follows_list : Follows user ti_follows (Hops := TableIterOps).
Proof using Hr ComparatorLaws0.
  split.
  - intros it lc [-> _]. exact (ready_sorted _ _ _ Hr).
  - intros it lc Hf. destruct (follows_index it lc Hf) as (pos & _ & Hst & Hi). change (cur_error it) with (ti_error it). unfold ti_error. rewrite Hst. pose proof (fo_readable user (Hops := BlockIterOps user) _ (bi_follows_list user) _ _ Hi) as H. cbn in H. rewrite H. cbn [orb].
    destruct Hf as [_ Hp]. destruct (lc_position lc) as [p|]; [|by rewrite (proj1 Hp)]. destruct Hp as (i & run & q & _ & _ & _ & _ & data & -> & Hd). exact (fo_readable user (Hops := BlockIterOps user) _ (bi_follows_list user) _ _ Hd).
  - intros it lc Hf. by destruct (follows_status it lc Hf) as (_ & _ & ?).
  - apply follows_entry.
  - apply ti_next_follows.
  - apply ti_prev_follows.
  - intros it lc target. apply ti_seek_follows.
  - intros it lc target. apply ti_seek_for_prev_follows.
  - apply ti_first_follows.
  - apply ti_last_follows.
Qed.
Lemma iter_follows : ti_follows (table_iter t) (mkListCursor (mjoin runs) None).
Proof using Hr. split; [done|]. split; [done|]. exists None. split_and!; [done..|exact (ready_index _ _ _ Hr)]. Qed.
End Ready.
End TableCursor.

(** ** Opening what was built *)

Section Open.
Context (codec : Codec) {E F : Type} `{Hops : !RandomAccessFile E F} `{!RandomAccessFileLaws E F} (user : Comparator) `{!ComparatorLaws user}.

(** The cache hands out what reading the block would give, or nothing. *)
Definition cache_coherent (data : bytes) (cached : N -> option bytes) : Prop :=
  forall handle payload, stored codec data handle payload -> cached (bh_offset handle) = None \/ cached (bh_offset handle) = Some payload.

Lemma source_read_stored file cached handle payload : (N.of_nat (length (raf_bytes file)) < two64)%N -> cache_coherent (raf_bytes file) cached -> stored codec (raf_bytes file) handle payload ->
  source_read codec file (N.of_nat (length (raf_bytes file))) cached handle = Ok payload.
Proof using All.
  intros Hlen Hc Hs. unfold source_read. destruct (Hc _ _ Hs) as [-> | ->]; [|done]. destruct Hs as [Hin Hd]. unfold total_len. unfold BLOCK_TRAILER_SIZE in *. rewrite wadd_small by lia. cbv zeta.
  rewrite !(proj2 (N.ltb_ge _ _)) by (unfold u64_max; unfold two64 in Hlen; lia). cbn [orb]. replace (N.to_nat (bh_offset handle + (bh_size handle + N.of_nat 5) - bh_offset handle)) with (N.to_nat (bh_size handle) + 5)%nat by lia.
  rewrite read_exact_spec by lia. exact Hd.
Qed.

Lemma sorted_parts runs i run : run_sorted user (mjoin runs) -> runs !! i = Some run -> run_sorted user run.
Proof using.
  intros [Hs Hw] Hrun. rewrite <- (take_drop_middle _ _ _ Hrun), join_app in Hs, Hw. change (mjoin (run :: drop (S i) runs)) with (run ++ mjoin (drop (S i) runs)) in Hs, Hw.
  split; [by apply StronglySorted_app_1_r, StronglySorted_app_1_l in Hs|]. by apply Forall_app in Hw as [_ [Hw _]%Forall_app].
Qed.
Lemma index_sorted data index runs : Forall2 (indexed codec data) index runs -> run_sorted user (mjoin runs) -> run_sorted user index.
Proof using.
  assert (forall e run, indexed codec data e run -> exists x, x ∈ run /\ x.1 = e.1) as Hkey by (intros e run [Hl _]; apply last_Some_elem_of, list_elem_of_fmap in Hl as (x & Hx & Hin); by exists x).
  induction 1 as [|e run index runs Hi Hix IH]; intros [Hs Hw]; [split; constructor|]. change (mjoin (run :: runs)) with (run ++ mjoin runs) in Hs, Hw. apply StronglySorted_app in Hs as (Hab & Hs1 & Hs2). apply Forall_app in Hw as [Hw1 Hw2].
  destruct IH as [IHs IHw]; [done|]. destruct (Hkey e run Hi) as (x & Hx & Hxe). rewrite Forall_forall in Hw1. split.
  - constructor; [done|]. apply Forall_forall. intros e' (j & Hj)%list_elem_of_lookup. destruct (Forall2_lookup_l _ _ _ _ _ Hix Hj) as (run' & Hrun' & Hi'). destruct (Hkey e' run' Hi') as (y & Hy & Hye).
    unfold entry_before. rewrite <- Hxe, <- Hye. apply (Hab x y Hx). apply list_elem_of_join. exists run'. split; [done|by eapply list_elem_of_lookup_2].
  - constructor; [rewrite <- Hxe; by apply Hw1|done].
Qed.
Lemma block_of_follows payload entries : block_of payload entries -> run_sorted user entries -> exists blk, Block_new payload = Ok blk /\ bi_follows user (blk_iter blk) (mkListCursor entries None).
Proof using. intros (blk & l & starts & Hn & Hb & <-) Hs. exists blk. split; [done|]. by eapply block_follows. Qed.

(** What [may_contain] asks of a filter, for every key of the table. *)
Definition filter_admits (options : TableOptions) (filter : option BloomFilter) (entries : list entry) : Prop :=
  forall e, e ∈ entries -> match filter with
    | None => true
    | Some filter => match filter_key (to_prefix_extractor options) e.1 with Some data => bf_may_contain data filter | None => true end
    end = true.
Lemma bloom_admits options bits entries : exists filter,
  (let? filter := BloomFilter_parse (blm_finish (blm_fill (to_prefix_extractor options) entries.*1 (BloomBuilder_new bits))) in Ok (Some filter)) = Ok filter /\ filter_admits options filter entries.
Proof using.
  destruct (BloomFilter_parse _) as [f|] eqn:Ep; cycle 1. { revert Ep. unfold BloomFilter_parse, blm_finish. cbv zeta. by rewrite last_snoc. }
  exists (Some f). split; [done|]. intros e He. destruct (filter_key _ e.1) as [data|] eqn:Ek; [|done]. eapply filter_finds; [|exact Ep]. eapply fill_hashes; [|exact Ek]. apply list_elem_of_fmap. by exists e.
Qed.

(** Opening, up to the tombstones. *)
Lemma open_steps options file cached props footer index runs tombstones : table_image codec options (raf_bytes file) props footer index runs tombstones -> cache_coherent (raf_bytes file) cached -> run_sorted user index ->
  exists filter iblk, filter_admits options filter (mjoin runs) /\ bi_follows user (blk_iter iblk) (mkListCursor index None) /\
    table_open codec file options cached =
    (let? read := (if decide (tombstones = []) then Ok [] else match rts_decode (to_comparator options) (rts_encode tombstones) with Err _ => Err SstCorruption | Ok read => if negb (N.of_nat (length read) =? N.of_nat (length tombstones))%N then Err SstCorruption else Ok read end) in
     Ok (mkTable file (N.of_nat (length (raf_bytes file))) options cached iblk filter read (with_file_size (N.of_nat (length (raf_bytes file))) props))).
Proof using All.
  intros Him Hc Hixs. pose proof (im_length _ _ _ _ _ _ _ _ Him) as Hlen. set (data := raf_bytes file) in *. 
  assert (forall handle payload, stored codec data handle payload -> source_read codec file (N.of_nat (length data)) cached handle = Ok payload) as Hread by (intros; by apply source_read_stored).
  destruct (im_footer _ _ _ _ _ _ _ _ Him) as (front & tail & Hdata & Htail & Hft). destruct (im_props _ _ _ _ _ _ _ _ Him) as (pp & Hpp & Hpd). destruct (im_names _ _ _ _ _ _ _ _ Him) as [Hcn Hpn].
  destruct (im_index _ _ _ _ _ _ _ _ Him) as (ip & Hip & Hib). destruct (block_of_follows ip index Hib Hixs) as (iblk & Hiblk & Hif). destruct (im_tombstones _ _ _ _ _ _ _ _ Him) as [Htc Hst].
  unfold table_open. rewrite size_bytes. fold data. assert (length data = length front + 48)%nat as Hdl by (rewrite Hdata, length_app, Htail; done). unfold SST_FOOTER_SIZE in *. rewrite (proj2 (N.ltb_ge _ _)) by lia.
  replace (N.to_nat (N.of_nat (length data) - N.of_nat 48)) with (length front) by lia. assert (take 48 (drop (length front) data) = tail) as Htl by (rewrite Hdata, drop_app_length; apply take_ge; lia).
  rewrite read_exact_spec by (fold data; lia). fold data. rewrite Htl, Hft. cbn [rbind]. rewrite (Hread _ _ Hpp). cbn [rbind]. rewrite Hpd. cbn [rbind]. rewrite Hcn, bool_decide_true by done. cbn [negb].
  match goal with |- context [(if handle_is_none ?h then ?a else ?b)] => assert (exists filter, (if handle_is_none h then a else b) = Ok filter /\ filter_admits options filter (mjoin runs)) as (filter & -> & Hfil) end.
  { destruct (im_filter _ _ _ _ _ _ _ _ Him) as [->|(bits & Hfs)]; [by exists None|]. destruct (handle_is_none _); [by exists None|]. rewrite Hpn, decide_True by done. rewrite (Hread _ _ Hfs). cbn [rbind]. apply bloom_admits. }
  exists filter, iblk. split_and!; [done|done|]. cbn [rbind]. unfold read_parsed. rewrite (Hread _ _ Hip). cbn [rbind]. rewrite Hiblk. cbn [rbind]. rewrite Htc. f_equal. destruct (decide (tombstones = [])) as [->|Hne]; [done|].
  rewrite (proj2 (N.eqb_neq _ _)) by (destruct tombstones; [done|cbn; lia]). destruct Hst as [Hnil|Hst]; [by destruct (Hne Hnil)|]. by rewrite (Hread _ _ Hst).
Qed.
Lemma open_image options file cached props footer index runs tombstones : table_image codec options (raf_bytes file) props footer index runs tombstones -> cache_coherent (raf_bytes file) cached ->
  to_comparator options = InternalKeyComparator user -> run_sorted user (mjoin runs) -> rts_valid (to_comparator options) tombstones ->
  exists t, table_open codec file options cached = Ok t /\ table_ready codec user t index runs /\ ot_range_tombstones t = tombstones /\ ot_props t = with_file_size (N.of_nat (length (raf_bytes file))) props /\ ot_options t = options /\
    forall e, e ∈ mjoin runs -> table_may_contain t e.1 = true.
Proof using All.
  intros Him Hc Hcmp Hsort Hts. pose proof (im_runs _ _ _ _ _ _ _ _ Him) as Hruns. pose proof (index_sorted _ _ _ Hruns Hsort) as Hixs. destruct (open_steps _ _ _ _ _ _ _ _ Him Hc Hixs) as (filter & iblk & Hfil & Hif & ->).
  rewrite (proj2 (rts_codec (to_comparator options) _ tombstones)) by done. rewrite N.eqb_refl. cbn [negb].
  assert ((if decide (tombstones = []) then Ok [] else Ok tombstones) = Ok (E := SstError) tombstones) as -> by by destruct (decide (tombstones = [])) as [->|].
  cbn [rbind]. eexists. split; [reflexivity|]. split_and!; [|done|done|done|exact Hfil].
  split; cbn [ot_options ot_index]; try done.
  - unfold table_order. cbn [ot_options]. by rewrite Hcmp.
  - by eapply Forall2_length.
  - intros i e run He Hrun. destruct (Forall2_lookup_lr _ _ _ _ _ _ Hruns He Hrun) as (Hl & handle & payload & Heq & Hfit & Hs & Hbo). split; [done|]. destruct (block_of_follows payload run Hbo (sorted_parts _ _ _ Hsort Hrun)) as (blk & Hblk & Hbf).
    exists handle, (length (handle_encode_to handle [])), blk. rewrite Heq. split_and!; [|unfold read_parsed_block, read_parsed; cbn [ot_file ot_file_size ot_cached]; by rewrite (source_read_stored file cached handle payload (im_length _ _ _ _ _ _ _ _ Him) Hc Hs)|done].
    rewrite <- (app_nil_r (handle_encode_to handle [])) at 1. apply handle_roundtrip. by apply fits_ok.
Qed.
(** The bytes decide the tombstones, whatever the order asked of them. *)
Definition any_order : Comparator := mkComparator (fun _ _ => Lt) (fun start _ => start) id.
Lemma valid_any c ts : rts_valid c ts -> rts_valid any_order ts.
Proof using.
  intros (Hv & _ & Hl). split_and!; [eapply Forall_impl; [exact Hv|]; intros t (_ & H); by split| |done]. generalize (@None RangeTombstone). clear Hv Hl. induction ts as [|t ts IH]; intros previous; [done|]. cbn. split; [by destruct previous|apply IH].
Qed.
Lemma rts_encode_inj c c' ts ts' : rts_valid c ts -> rts_valid c' ts' -> rts_encode ts = rts_encode ts' -> ts = ts'.
Proof using.
  intros Hv Hv' Heq. pose proof (proj2 (rts_codec any_order (rts_encode ts) ts) (conj (valid_any _ _ Hv) eq_refl)) as H1. pose proof (proj2 (rts_codec any_order (rts_encode ts) ts') (conj (valid_any _ _ Hv') Heq)) as H2. congruence.
Qed.
(** Tombstones the comparator of the table does not order end the opening. *)
Lemma open_refused c options file cached props footer index runs tombstones : table_image codec options (raf_bytes file) props footer index runs tombstones -> cache_coherent (raf_bytes file) cached ->
  run_sorted user (mjoin runs) -> rts_valid c tombstones -> ~ rts_valid (to_comparator options) tombstones -> table_open codec file options cached = Err SstCorruption.
Proof using All.
  intros Him Hc Hsort Hv Hts. pose proof (index_sorted _ _ _ (im_runs _ _ _ _ _ _ _ _ Him) Hsort) as Hixs. destruct (open_steps _ _ _ _ _ _ _ _ Him Hc Hixs) as (filter & iblk & _ & _ & ->). rewrite decide_False by (intros ->; apply Hts; by repeat split).
  destruct (rts_decode _ _) as [read|] eqn:Er; [|done]. destruct Hts. apply rts_codec in Er as [Hr He]. by rewrite (rts_encode_inj _ _ _ _ Hv Hr He).
Qed.
End Open.

Section Lookup.
Context (user : Comparator) `{!ComparatorLaws user}.
Lemma find_present entries e : run_sorted user entries -> e ∈ entries -> exists k, list_find (fun x : entry => internal_cmp user x.1 e.1 <> Lt) entries = Some (k, e).
Proof using All.
  intros Hs (k & Hk)%list_elem_of_lookup. exists k. apply list_find_Some. split_and!; [done|by rewrite internal_cmp_refl|]. intros j y Hj Hlt Hy. apply Hy. exact (sorted_lookup user _ _ _ _ _ Hs Hj Hk Hlt).
Qed.
Context (codec : Codec) {E F : Type} `{!RandomAccessFile E F} (t : OpenTable F) (index : list entry) (runs : list (list entry)) (Hr : table_ready codec user t index runs) (Hm : forall e, e ∈ mjoin runs -> table_may_contain t e.1 = true).
Lemma get_present e : e ∈ mjoin runs -> table_get codec t e.1 = Ok (Some e.2).
Proof using All.
  intros He. pose proof (ready_sorted _ _ _ _ _ Hr) as Hs. rewrite (table_get_spec codec user t index runs Hr); [|destruct Hs as [_ Hw]; rewrite Forall_forall in Hw; by apply Hw|by apply Hm].
  destruct (find_present _ e Hs He) as (k & ->). by rewrite bool_decide_true by by rewrite internal_cmp_refl.
Qed.
Lemma get_absent key : wellformed key -> (forall e, e ∈ mjoin runs -> internal_cmp user e.1 key <> Eq) -> table_get codec t key = Ok None.
Proof using All.
  intros Hk Hno. destruct (table_may_contain t key) eqn:Em; [|unfold table_get; by rewrite Em]. rewrite (table_get_spec codec user t index runs Hr) by done. destruct (list_find _ _) as [[k x]|] eqn:Ef; [|done].
  apply list_find_Some in Ef as (Hx & _). rewrite bool_decide_false; [done|]. apply Hno. by eapply list_elem_of_lookup_2.
Qed.
End Lookup.

(** What a builder that is fed a sorted run leaves behind. *)
Lemma build_image (codec : Codec) `{!CodecLaws codec} {E W} `{!WritableFile E W} `{!WritableFileLaws E W} `{!ReliableFile E W} (user : Comparator) (options : TableOptions) (entries : list entry) (tombstones : RangeTombstones) (low high : N) (w0 : W) :
  to_comparator options = InternalKeyComparator user -> options_ok options -> wf_bytes w0 = [] -> run_sorted user entries -> small entries -> (low < two64)%N -> (high < two64)%N ->
  (N.of_nat (length (rts_encode tombstones)) <= 67108864)%N -> (N.of_nat (length tombstones) < two64)%N ->
  exists t props w footer index runs, tb_fill codec (TableBuilder_new options w0) entries = Ok t /\
    tb_finish codec (set_range_tombstones tombstones (set_seqno_range low high t)) = Ok (with_file_size (N.of_nat (length (wf_bytes w))) props, w) /\
    mjoin runs = entries /\ table_image codec options (wf_bytes w) props footer index runs tombstones /\ wf_synced w = length (wf_bytes w).
Proof.
  intros Hcmp Hoo Hw0 Hs Hsmall Hlow Hhigh Htsize Hcount.
  destruct (tb_fill_spec codec options entries _ [] [] (builder_new_holds codec options w0 Hw0)) as (t & runs & cur & Hfill & Ht & Hjoin); [done|unfold in_order; rewrite Hcmp; exact (proj1 Hs)|]. cbn [mjoin list_join app] in Hjoin.
  pose proof (setters_hold codec options t runs cur low high tombstones Ht Hlow Hhigh) as Ht'. destruct (tb_finish_spec codec options _ runs cur Ht') as (props & w & footer & index & runs' & Hfin & Hjoin' & Him & Hsync); [by rewrite Hjoin|done..|].
  rewrite Hjoin in Hjoin'. by exists t, props, w, footer, index, runs'.
Qed.

(** C6: within the format's bounds a table reads back as what was put into it.
    The bounds: all entries together, at 30 bytes over key and value each, and
    the encoded tombstones are at most 64 MiB (a block over 256 MiB may not read
    back: [oversized_block_unreadable]); at most 1024 filter bits per key; valid
    UTF-8 names of at most 64 KiB; tombstones valid in the order of the table's
    own comparator (else [range_tombstones_unreadable]); a new file whose writes
    succeed; a codec that inverts itself.  Then entries added in order become a
    file that is synced as a whole; opened again, through whatever cache answers
    truthfully, it has the properties and tombstones it was given, finds every
    key that was added and no other, and its cursor cannot be told from one over
    the list of entries, wherever the blocks were cut and whether or not they
    were compressed. *)
Theorem table_roundtrip (codec : Codec) `{!CodecLaws codec} {E W} `{!WritableFile E W} `{!WritableFileLaws E W} `{!ReliableFile E W} {E' R} `{!RandomAccessFile E' R} `{!RandomAccessFileLaws E' R}
    (user : Comparator) `{!ComparatorLaws user} (options : TableOptions) (entries : list entry) (tombstones : RangeTombstones) (low high : N) (w0 : W) :
  to_comparator options = InternalKeyComparator user -> options_ok options -> wf_bytes w0 = [] ->
  run_sorted user entries -> small entries -> (low < two64)%N -> (high < two64)%N ->
  rts_valid (to_comparator options) tombstones -> (N.of_nat (length (rts_encode tombstones)) <= 67108864)%N ->
  exists t props w, tb_fill codec (TableBuilder_new options w0) entries = Ok t /\
    tb_finish codec (set_range_tombstones tombstones (set_seqno_range low high t)) = Ok (props, w) /\ wf_synced w = length (wf_bytes w) /\
    forall (r : R) cached, raf_bytes r = wf_bytes w -> cache_coherent codec (wf_bytes w) cached ->
    exists table, table_open codec r options cached = Ok table /\ ot_props table = props /\ ot_range_tombstones table = tombstones /\
      (forall e, e ∈ entries -> table_get codec table e.1 = Ok (Some e.2)) /\
      (forall key, wellformed key -> (forall e, e ∈ entries -> internal_cmp user e.1 key <> Eq) -> table_get codec table key = Ok None) /\
      forall op ops, positions op = true -> Forall (fun op => from_option wellformed True (op_target op)) (op :: ops) ->
        observations (Cursor0 := TableIterOps codec) (op :: ops) (table_iter table) = observations (Cursor0 := ListCursorOps user) (op :: ops) (mkListCursor entries None).
Proof.
  intros Hcmp Hoo Hw0 Hs Hsmall Hlow Hhigh Hts Htsize.
  destruct (build_image codec user options entries tombstones low high w0) as (t & props & w & footer & index & runs' & Hfill & Hfin & Hjoin' & Him & Hsync); try done; [apply Hts|].
  exists t, (with_file_size (N.of_nat (length (wf_bytes w))) props), w. split_and!; [done|exact Hfin|done|]. intros r cached Hr Hc. rewrite <- Hr in Him, Hc |- *. rewrite <- Hjoin' in Hs |- *.
  destruct (open_image codec user options r cached props footer index runs' tombstones Him Hc Hcmp Hs Hts) as (table & Ho & Hready & Hrt & Hp & _ & Hm). exists table. split_and!; [done..| | |].
  - intros e He. by eapply get_present.
  - intros key Hk Hno. by eapply get_absent.
  - intros op ops Hop Hops. pose proof (iter_follows codec user table index runs' Hready) as Hf.
    apply (cursor_simulation user (CursorLaws0 := FollowLaws user (Hops := TableIterOps codec) _ (ti_follows_list codec user table index runs' Hready)) (CursorLaws1 := ListCursorLaws user) (mjoin runs') (mjoin runs')); try done.
    + by apply sorted_uniq.
    + by eexists.
Qed.

(** C38: a table reads its range tombstones with the comparator of its own keys,
    which are internal, while a tombstone's bounds are user keys.  When that
    comparator does not order them, the table is written and synced without
    complaint and no attempt to open it succeeds. *)
Theorem range_tombstones_unreadable (codec : Codec) `{!CodecLaws codec} {E W} `{!WritableFile E W} `{!WritableFileLaws E W} `{!ReliableFile E W} {E' R} `{!RandomAccessFile E' R} `{!RandomAccessFileLaws E' R}
    (user : Comparator) `{!ComparatorLaws user} (options : TableOptions) (entries : list entry) (tombstones : RangeTombstones) (low high : N) (w0 : W) :
  to_comparator options = InternalKeyComparator user -> options_ok options -> wf_bytes w0 = [] ->
  run_sorted user entries -> small entries -> (low < two64)%N -> (high < two64)%N ->
  rts_valid user tombstones -> (N.of_nat (length (rts_encode tombstones)) <= 67108864)%N -> ~ rts_valid (InternalKeyComparator user) tombstones ->
  exists t props w, tb_fill codec (TableBuilder_new options w0) entries = Ok t /\
    tb_finish codec (set_range_tombstones tombstones (set_seqno_range low high t)) = Ok (props, w) /\ wf_synced w = length (wf_bytes w) /\
    forall (r : R) cached, raf_bytes r = wf_bytes w -> cache_coherent codec (wf_bytes w) cached -> table_open codec r options cached = Err SstCorruption.
Proof.
  intros Hcmp Hoo Hw0 Hs Hsmall Hlow Hhigh Hts Htsize Hno.
  destruct (build_image codec user options entries tombstones low high w0) as (t & props & w & footer & index & runs & Hfill & Hfin & Hjoin & Him & Hsync); try done; [apply Hts|].
  exists t, (with_file_size (N.of_nat (length (wf_bytes w))) props), w. split_and!; [done..|]. intros r cached Hr Hc. rewrite <- Hr in Him, Hc. rewrite <- Hjoin in Hs. eapply (open_refused codec user user); [done..|by rewrite Hcmp].
Qed.

(** A small table: two blocks and a filter. *)
Definition sample_options : TableOptions := mkTableOptions 40 2 10 None Lz4 (InternalKeyComparator BytewiseComparator) [Byte.x65].
Lemma sample_ok : options_ok sample_options.
Proof. split; try done; by vm_compute. Qed.
Definition short_tombstone : RangeTombstone := mkTombstone [Byte.x61] [Byte.x63] 5.
Lemma short_valid : rts_valid (InternalKeyComparator BytewiseComparator) [short_tombstone].
Proof. split_and!; [repeat constructor; by vm_compute|done|by vm_compute]. Qed.

Lemma sample_blocks :
  match (let? t := tb_fill plain_codec (TableBuilder_new sample_options FileData_default) both_runs in tb_finish plain_codec (set_range_tombstones [short_tombstone] (set_seqno_range 1 7 t))) with
  | Ok (props, _) => tp_data_block_count props
  | Err _ => 0%N
  end = 2%N.
Proof. by vm_compute. Qed.

Lemma table_roundtrip_witness : exists props w table,
  (let? t := tb_fill plain_codec (TableBuilder_new sample_options FileData_default) both_runs in tb_finish plain_codec (set_range_tombstones [short_tombstone] (set_seqno_range 1 7 t))) = Ok (props, w) /\
  tp_data_block_count props = 2%N /\ table_open plain_codec w sample_options (fun _ => None) = Ok table /\ ot_range_tombstones table = [short_tombstone] /\
  observations (Cursor0 := TableIterOps plain_codec) [OpSeek (internal_key [Byte.x61] 4 Put); OpNext; OpPrev; OpSeekToLast; OpNext] (table_iter table) =
  [Some (internal_key [Byte.x61] 4 Put, [Byte.x04]); Some (internal_key [Byte.x62] 6 Delete, []); Some (internal_key [Byte.x61] 4 Put, [Byte.x04]);
   Some (internal_key [Byte.x63] 3 Put, [Byte.x03]); None].
Proof.
  destruct (table_roundtrip plain_codec (R := FileData) BytewiseComparator sample_options both_runs [short_tombstone] 1 7 FileData_default) as (t & props & w & Hfill & Hfin & _ & Hopen);
    [reflexivity|apply sample_ok|reflexivity|apply both_sorted|by vm_compute|reflexivity|reflexivity|apply short_valid|by vm_compute|].
  destruct (Hopen w (fun _ => None) eq_refl) as (table & Ho & _ & Hts & _ & _ & Hobs); [by left|]. exists props, w, table. rewrite Hfill. cbn [rbind]. split_and!; [exact Hfin| |exact Ho|exact Hts|].
  - pose proof sample_blocks as Hblocks. rewrite Hfill in Hblocks. cbn [rbind] in Hblocks. rewrite Hfin in Hblocks. exact Hblocks.
  - clear -Hobs. refine (eq_trans (Hobs (OpSeek (internal_key [Byte.x61] 4 Put)) [OpNext; OpPrev; OpSeekToLast; OpNext] eq_refl _) _); [constructor; [by exists [Byte.x61], 4%N, Put|]; repeat constructor|]. vm_compute. reflexivity.
Defined.

(** Two keys a byte apart, eight bytes each. *)
Definition long_tombstone : RangeTombstone :=
  mkTombstone [Byte.x75; Byte.x73; Byte.x65; Byte.x72; Byte.x30; Byte.x30; Byte.x30; Byte.x31] [Byte.x75; Byte.x73; Byte.x65; Byte.x72; Byte.x30; Byte.x30; Byte.x30; Byte.x32] 5.
Lemma range_tombstones_unreadable_witness : exists t props w, rts_valid BytewiseComparator [long_tombstone] /\
  tb_fill plain_codec (TableBuilder_new sample_options FileData_default) both_runs = Ok t /\
  tb_finish plain_codec (set_range_tombstones [long_tombstone] (set_seqno_range 1 7 t)) = Ok (props, w) /\ table_open plain_codec w sample_options (fun _ => None) = Err SstCorruption.
Proof.
  assert (rts_valid BytewiseComparator [long_tombstone]) as Hv by (split_and!; [repeat constructor; by vm_compute|done|by vm_compute]).
  destruct (range_tombstones_unreadable plain_codec (R := FileData) BytewiseComparator sample_options both_runs [long_tombstone] 1 7 FileData_default) as (t & props & w & Hfill & Hfin & _ & Hopen);
    [reflexivity|apply sample_ok|reflexivity|apply both_sorted|by vm_compute|reflexivity|reflexivity|exact Hv|by vm_compute| |].
  - intros (Hvalid & _). apply Forall_inv in Hvalid as (Hlt & _). by vm_compute in Hlt.
  - exists t, props, w. split_and!; [exact Hv|exact Hfill|exact Hfin|]. apply Hopen; [reflexivity|by left].
Defined.

(** ** Any bytes *)

Lemma limit_invalid it : bi_current it = bi_limit it -> bi_valid it = false.
Proof. unfold bi_valid. intros ->. apply Nat.ltb_irrefl. Qed.
Lemma seek_restart_place index it it' ok : seek_to_restart index it = (it', ok) -> bi_block it' = bi_block it /\ (ok = true -> bi_current it' = restart_point (bi_block it) index) /\ (ok = false -> bi_valid it' = false).
Proof.
  unfold seek_to_restart. destruct (_ <=? _)%nat; [intros [= <- <-]; split_and!; [done..|intros _; by apply limit_invalid]|]. destruct (_ <? _)%nat; [intros [= <- <-]; split_and!; [done..|intros _; by apply limit_invalid]|].
  intros Hp. apply parse_place in Hp as (Hb & Ht & Hf). split_and!; [done|done|]. intros Hok. apply limit_invalid. rewrite (Hf Hok). unfold bi_limit. by rewrite Hb.
Qed.
Lemma scan_below fuel target it : (bi_current it < target)%nat -> bi_block (scan_to fuel target it) = bi_block it /\ (bi_valid (scan_to fuel target it) = true -> (bi_current (scan_to fuel target it) < target)%nat).
Proof.
  revert it. induction fuel as [|fuel IH]; intros it Hlt; [done|]. cbn [scan_to]. destruct (decode_at _ _) as [h|] eqn:Ed; [|split; [done|]; by rewrite limit_invalid].
  destruct (Nat.leb_spec target (eh_next h)) as [|Hn]; [done|]. destruct (parse_current _) as [it' ok] eqn:Ep. apply parse_place in Ep as (Hb & Ht & Hf). destruct ok.
  - destruct (IH it') as [Hb' Hc']; [rewrite Ht by done; exact Hn|]. by rewrite Hb', Hb.
  - split; [done|]. rewrite limit_invalid; [done|]. rewrite (Hf eq_refl). unfold bi_limit. by rewrite Hb.
Qed.
(** A step back that finds an entry finds an earlier one. *)
Lemma prev_shrinks it : bi_block (bi_prev it) = bi_block it /\ (bi_valid it = true -> bi_valid (bi_prev it) = true -> (bi_current (bi_prev it) < bi_current it)%nat).
Proof.
  unfold bi_prev. destruct (bi_valid it) eqn:Hv; cbn [negb]; [|done]. cbv zeta. destruct (Nat.leb_spec (bi_current it) (restart_point (bi_block it) (group_before (bi_restart_index it) (bi_block it) (bi_current it)))) as [Hle|Hgt].
  - split; [done|]. by rewrite (limit_invalid (invalidate it)).
  - destruct (seek_to_restart _ it) as [it' ok] eqn:Es. apply seek_restart_place in Es as (Hb & Ht & Hf). destruct ok.
    + destruct (scan_below (bi_rounds it') (bi_current it) it') as [Hb' Hc']; [by rewrite Ht|]. by rewrite Hb', Hb.
    + split; [done|]. by rewrite Hf.
Qed.

Section Stop.
Context (codec : Codec) {E F : Type} `{!RandomAccessFile E F}.
Lemma open_index (it : TableIter F) : ti_index_iter (open_current_block codec it) = ti_index_iter it.
Proof using. unfold open_current_block. destruct (negb _); [done|]. destruct (handle_decode_from _) as [[h n]|]; [|done]. by destruct (read_parsed_block _ _ _). Qed.
Lemma skip_forward_fuel n m (it : TableIter F) : (bi_limit (ti_index_iter it) - bi_current (ti_index_iter it) < n)%nat -> skip_forward_loop codec (n + m) it = skip_forward_loop codec n it.
Proof using.
  revert it. induction n as [|n IH]; intros it Hn; [lia|]. cbn [skip_forward_loop Nat.add]. destruct (ti_valid it); [done|]. destruct (ti_status it); [done|]. cbn [orb]. destruct (bi_valid (ti_index_iter it)) eqn:Hv; cbn [negb]; [|done].
  apply IH. cbn [ti_with_data ti_index_iter]. rewrite open_index. cbn [ti_with_index ti_index_iter]. pose proof (next_grows _ Hv). apply Nat.ltb_lt in Hv. unfold bi_limit in *. rewrite next_block. lia.
Qed.
Lemma skip_backward_fuel n m (it : TableIter F) : (if bi_valid (ti_index_iter it) then S (bi_current (ti_index_iter it)) < n else 0 < n)%nat -> skip_backward_loop codec (n + m) it = skip_backward_loop codec n it.
Proof using.
  revert it. induction n as [|n IH]; intros it Hn; [by destruct (bi_valid _); apply Nat.nlt_0_r in Hn|]. cbn [skip_backward_loop Nat.add]. destruct (ti_valid it); [done|]. destruct (ti_status it); [done|]. cbn [orb]. destruct (bi_valid (ti_index_iter it)) eqn:Hv; cbn [negb]; [|done].
  apply IH. cbn [ti_with_data ti_index_iter]. rewrite open_index. cbn [ti_with_index ti_index_iter]. destruct (prev_shrinks (ti_index_iter it)) as [_ Hp]. destruct (bi_valid (bi_prev (ti_index_iter it))); [specialize (Hp Hv eq_refl); lia|lia].
Qed.
End Stop.

(** A table cursor stops on any file.  Whatever the blocks hold and whichever
    of them can be read, the loops that look for the next or the previous block
    with something to give end within the rounds they are given. *)
Theorem table_loops_stop (codec : Codec) {E F} `{!RandomAccessFile E F} (it : TableIter F) (n : nat) :
  skip_forward_loop codec (ti_rounds it + n) it = skip_forward codec it /\ skip_backward_loop codec (ti_rounds it + n) it = skip_backward codec it.
Proof.
  split; [apply skip_forward_fuel|apply skip_backward_fuel]; unfold ti_rounds, bi_rounds; [lia|]. destruct (bi_valid (ti_index_iter it)) eqn:Hv; [apply Nat.ltb_lt in Hv|]; lia.
Qed.

(** ** A damaged block in the middle *)

Section Skipped.
Context (codec : Codec) {E F : Type} `{!RandomAccessFile E F}.

(** A block cursor that gives nothing leaves no trace, whatever it recorded. *)
Lemma skip_forgets (it : TableIter F) d : bi_valid d = false ->
  skip_forward codec (ti_with_data it (Some d)) = skip_forward codec (ti_with_data it None) /\
  skip_backward codec (ti_with_data it (Some d)) = skip_backward codec (ti_with_data it None).
Proof using.
  intros Hd. unfold skip_forward, skip_backward, ti_rounds. cbn [ti_with_data ti_index_iter].
  split; [cbn [skip_forward_loop]|cbn [skip_backward_loop]]; unfold ti_valid; cbn [ti_with_data ti_data_iter from_option]; by rewrite Hd.
Qed.

Lemma opened_status (it : TableIter F) b : ti_data_iter (open_current_block codec it) = Some b -> ti_status (open_current_block codec it) = ti_status it.
Proof using.
  unfold open_current_block. destruct (negb _); [done|]. destruct (handle_decode_from _) as [[h n]|]; [|done]. by destruct (read_parsed_block _ _ _).
Qed.
Lemma opened_none (it : TableIter F) : bi_valid (ti_index_iter it) = false -> open_current_block codec it = ti_with_data it None.
Proof using. unfold open_current_block. by intros ->. Qed.

(** What the loops do next: the index cursor has moved to [index]. *)
Lemma skip_ends (it : TableIter F) : ti_valid it = false -> ti_status it = false -> bi_valid (ti_index_iter it) = true ->
  (let index := bi_next (ti_index_iter it) in bi_valid index = false -> skip_forward codec it = ti_with_data (ti_with_index it index) None) /\
  (let index := bi_prev (ti_index_iter it) in bi_valid index = false -> skip_backward codec it = ti_with_data (ti_with_index it index) None).
Proof using.
  intros Hv Hs Hi. split; intros index Hx; unfold skip_forward, skip_backward, ti_rounds, bi_rounds;
    cbn [skip_forward_loop skip_backward_loop]; rewrite Hv, Hs, Hi; cbn [orb negb]; fold index; rewrite opened_none by done;
    unfold ti_valid; cbn [ti_with_data ti_with_index ti_data_iter ti_index_iter ti_inner ti_status from_option option_fmap option_map]; by rewrite Hx, orb_true_r.
Qed.
Lemma skip_lands (it : TableIter F) b : ti_valid it = false -> ti_status it = false -> bi_valid (ti_index_iter it) = true ->
  (let next := open_current_block codec (ti_with_index it (bi_next (ti_index_iter it))) in
   ti_data_iter next = Some b -> bi_valid (bi_seek_to_first b) = true -> skip_forward codec it = ti_with_data next (Some (bi_seek_to_first b))) /\
  (let prev := open_current_block codec (ti_with_index it (bi_prev (ti_index_iter it))) in
   ti_data_iter prev = Some b -> bi_valid (bi_seek_to_last b) = true -> skip_backward codec it = ti_with_data prev (Some (bi_seek_to_last b))).
Proof using.
  intros Hv Hs Hi. split; intros near Hb Hx; unfold skip_forward, skip_backward, ti_rounds, bi_rounds;
    cbn [skip_forward_loop skip_backward_loop]; rewrite Hv, Hs, Hi; cbn [orb negb]; fold near; rewrite Hb; cbn [fmap option_fmap option_map];
    unfold ti_valid; cbn [ti_with_data ti_data_iter from_option]; by rewrite Hx.
Qed.
End Skipped.

(** C39: a damaged block is passed over in silence.  Take a table cursor whose block
    cursor met corruption, recorded it and has nothing to give.  Skipping on, in
    either direction, does exactly what it would have done had the block held
    nothing: the record of the corruption is dropped.  So when the index ends
    there, the walk ends as at the end of a sound table, and when the next block
    has an entry the cursor stands on it, and in both cases, as long as the index
    itself is sound, no error is reported. *)
Theorem corrupt_block_skipped (codec : Codec) {E F} `{!RandomAccessFile E F} (it : TableIter F) (d b : BlockIter) :
  let at_damage := ti_with_data it (Some d) in let index := ti_index_iter it in
  bi_status d = true -> bi_valid d = false ->
  ti_error at_damage = true /\
  skip_forward codec at_damage = skip_forward codec (ti_with_data it None) /\
  skip_backward codec at_damage = skip_backward codec (ti_with_data it None) /\
  (ti_status it = false -> bi_valid index = true ->
    (bi_status (bi_next index) = false ->
      (bi_valid (bi_next index) = false -> ti_valid (skip_forward codec at_damage) = false /\ ti_error (skip_forward codec at_damage) = false) /\
      (ti_data_iter (open_current_block codec (ti_with_index it (bi_next index))) = Some b -> bi_valid (bi_seek_to_first b) = true -> bi_status (bi_seek_to_first b) = false ->
        ti_data_iter (skip_forward codec at_damage) = Some (bi_seek_to_first b) /\ ti_error (skip_forward codec at_damage) = false)) /\
    (bi_status (bi_prev index) = false ->
      (bi_valid (bi_prev index) = false -> ti_valid (skip_backward codec at_damage) = false /\ ti_error (skip_backward codec at_damage) = false) /\
      (ti_data_iter (open_current_block codec (ti_with_index it (bi_prev index))) = Some b -> bi_valid (bi_seek_to_last b) = true -> bi_status (bi_seek_to_last b) = false ->
        ti_data_iter (skip_backward codec at_damage) = Some (bi_seek_to_last b) /\ ti_error (skip_backward codec at_damage) = false))).
Proof.
  intros at_damage index Hs Hv. destruct (skip_forgets codec it d Hv) as [Hf Hb]. split_and!; [|exact Hf|exact Hb|].
  { unfold ti_error, at_damage. cbn. by rewrite Hs, orb_true_r. }
  intros Hst Hi. destruct (skip_ends codec at_damage Hv Hst Hi) as [Fe Be]. destruct (skip_lands codec at_damage b Hv Hst Hi) as [Fl Bl].
  change (ti_index_iter at_damage) with index in *.
  assert (forall ix, open_current_block codec (ti_with_index at_damage ix) = open_current_block codec (ti_with_index it ix)) as Ho by done.
  rewrite !Ho in Fl, Bl. split; intros Hix; split.
  - intros Hx. rewrite (Fe Hx). unfold ti_error, ti_valid. cbn. by rewrite Hst, Hix.
  - intros Hd Hx He. rewrite (Fl Hd Hx). unfold ti_error. cbn [ti_with_data ti_data_iter ti_status ti_index_iter from_option].
    rewrite (opened_status codec _ b Hd), open_index. cbn [ti_with_index ti_status ti_index_iter]. by rewrite Hst, Hix, He.
  - intros Hx. rewrite (Be Hx). unfold ti_error, ti_valid. cbn. by rewrite Hst, Hix.
  - intros Hd Hx He. rewrite (Bl Hd Hx). unfold ti_error. cbn [ti_with_data ti_data_iter ti_status ti_index_iter from_option].
    rewrite (opened_status codec _ b Hd), open_index. cbn [ti_with_index ti_status ti_index_iter]. by rewrite Hst, Hix, He.
Qed.

(** One entry to a block, each frame 26 bytes.  The second block's only entry is
    changed to claim five bytes of a key there is none before, and the frame is
    checksummed anew. *)
Definition narrow_options : TableOptions := mkTableOptions 1 1 0 None NoCompression (InternalKeyComparator BytewiseComparator) [Byte.x65].
Definition damage (data : bytes) : bytes :=
  take 26 data ++ encode_block plain_codec (Byte.x05 :: drop 1 (take 21 (drop 26 data))) NoCompression ++ drop 52 data.
Definition damaged_table : result SstError (OpenTable FileData) :=
  let? t := tb_fill plain_codec (TableBuilder_new narrow_options FileData_default) both_runs in
  let? (_, file) := tb_finish plain_codec t in
  table_open plain_codec (mkFileData (damage (fd_bytes file)) 0) narrow_options (fun _ => None).
(** The cursor as [next] leaves it on the second block, before it skips on. *)
Definition at_second (table : OpenTable FileData) : TableIter FileData :=
  let it := ti_seek_to_first plain_codec (table_iter table) in
  open_current_block plain_codec (ti_with_index it (bi_next (ti_index_iter it))).
Definition damaged_facts (it : TableIter FileData) : option (bool * bool * bool * bool * (bool * bool)) :=
  match ti_data_iter it, ti_data_iter (open_current_block plain_codec (ti_with_index it (bi_next (ti_index_iter it)))) with
  | Some d, Some b => Some (bi_status (bi_seek_to_first d), bi_valid (bi_seek_to_first d), ti_status it || bi_status (bi_next (ti_index_iter it)), bi_valid (ti_index_iter it),
      (bi_valid (bi_seek_to_first b) && bool_decide (bi_key (bi_seek_to_first b) = internal_key [Byte.x62] 6 Delete), bi_status (bi_seek_to_first b)))
  | _, _ => None
  end.
Lemma damaged_here : exists it, (rmap at_second damaged_table) = Ok it /\ damaged_facts it = Some (true, false, false, true, (true, false)).
Proof.
  assert (match rmap at_second damaged_table with Ok it => damaged_facts it = Some (true, false, false, true, (true, false)) | Err _ => False end) as H by by vm_compute.
  destruct (rmap at_second damaged_table) as [it|]; [|done]. by exists it.
Qed.

(** The whole walk over that table: every entry but the damaged block's. *)
Example damaged_walk :
  match damaged_table with
  | Ok table =>
      let walk := (fun n => Nat.iter n (ti_next plain_codec) (ti_seek_to_first plain_codec (table_iter table))) <$> [0; 1; 2; 3; 4]%nat in
      observe (Cursor0 := TableIterOps plain_codec) <$> walk = (Some <$> take 1 both_runs ++ drop 2 both_runs) ++ [None] /\ ti_error <$> walk = replicate 5 false
  | Err _ => False
  end.
Proof. by vm_compute. Qed.

Lemma corrupt_block_skipped_witness : exists it d, (rmap at_second damaged_table) = Ok it /\
  let at_damage := ti_with_data it (Some d) in
  ti_error at_damage = true /\ ti_error (skip_forward plain_codec at_damage) = false /\
  ti_key (skip_forward plain_codec at_damage) = internal_key [Byte.x62] 6 Delete.
Proof.
  destruct damaged_here as (it & Ht & H0). exists it. unfold damaged_facts in H0.
  destruct (ti_data_iter it) as [d|] eqn:Hd; [|discriminate].
  destruct (ti_data_iter (open_current_block plain_codec (ti_with_index it (bi_next (ti_index_iter it))))) as [b|] eqn:Hb; [|discriminate].
  apply Some_inj in H0. rewrite !pair_equal_spec in H0. destruct H0 as ((((H1 & H2) & H3) & H4) & H5 & H6). apply orb_false_iff in H3 as [H3 H3']. apply andb_true_iff in H5 as [H5 Hk]. apply bool_decide_eq_true in Hk.
  exists (bi_seek_to_first d). split; [exact Ht|]. cbv zeta.
  destruct (corrupt_block_skipped plain_codec it (bi_seek_to_first d) b H1 H2) as (He & _ & _ & Hgo).
  destruct (Hgo H3 H4) as [Hfwd _]. destruct (Hfwd H3') as [_ Hland]. destruct (Hland Hb H5 H6) as [Hdata Herr].
  split; [exact He|]. split; [exact Herr|]. unfold ti_key. rewrite Hdata. exact Hk.
Defined.
