(* ===== verification/TableCache.v ===== *)
(** The table cache (esker-engine/src/db/table_cache.rs): open readers by file
    number, evicted least recently used.  The map and the order of use are two
    views of one set; the order is what the cache is specified by. *)

From stdpp Require Import prelude gmap sorting.
From Stdlib Require Import NArith Lia.
From S2P Require Import Prelude.

(** ** The order of use *)

(** A [BTreeMap] from ticks to file numbers, as its ascending entries. *)
Definition Recency : Type := list (N * N).
Fixpoint rec_insert (tick number : N) (m : Recency) : Recency :=
  match m with
  | [] => [(tick, number)]
  | (t, n) :: m =>
      match N.compare tick t with
      | Lt => (tick, number) :: (t, n) :: m
      | Eq => (tick, number) :: m
      | Gt => (t, n) :: rec_insert tick number m
      end
  end.
Definition rec_remove (tick : N) (m : Recency) : Recency := filter (fun e : N * N => e.1 <> tick) m.

(** ** The cache *)

(** [Open]: a reader and its key in the order of use. *)
Record OpenReader (R : Type) := mkOpen { op_reader : R; op_used_at : N }.
Arguments mkOpen {R}.
Arguments op_reader {R}.
Arguments op_used_at {R}.
Record CacheState (R : Type) := mkCacheState { cs_open : gmap N (OpenReader R); cs_recency : Recency }.
Arguments mkCacheState {R}.
Arguments cs_open {R}.
Arguments cs_recency {R}.
Record TableCache (R : Type) := mkCache {
  tc_capacity : nat;
  tc_state : CacheState R;
  tc_clock : N;
  tc_hits : N;
  tc_misses : N;
  tc_evictions : N }.
Arguments mkCache {R}.
Arguments tc_capacity {R}.
Arguments tc_state {R}.
Arguments tc_clock {R}.
Arguments tc_hits {R}.
Arguments tc_misses {R}.
Arguments tc_evictions {R}.

Section Cache.
Context {R E : Type}.
Implicit Types (c : TableCache R).

Definition TableCache_new (capacity : nat) : TableCache R := mkCache (Nat.max capacity 1) (mkCacheState ∅ []) 0 0 0 0.
Definition tc_with (c : TableCache R) (state : CacheState R) (clock : N) : TableCache R :=
  mkCache (tc_capacity c) state clock (tc_hits c) (tc_misses c) (tc_evictions c).

(** A tick is taken whether or not the reader is there. *)
Definition tc_touch (number : N) (c : TableCache R) : option R * TableCache R :=
  let tick := tc_clock c in
  let clock := wadd tick 1 in
  match cs_open (tc_state c) !! number with
  | None => (None, tc_with c (tc_state c) clock)
  | Some entry =>
      (Some (op_reader entry),
       tc_with c (mkCacheState (<[number := mkOpen (op_reader entry) tick]> (cs_open (tc_state c))) (rec_insert tick number (rec_remove (op_used_at entry) (cs_recency (tc_state c))))) clock)
  end.
Definition tc_insert (number : N) (reader : R) (c : TableCache R) : TableCache R :=
  let tick := tc_clock c in
  tc_with c (mkCacheState (<[number := mkOpen reader tick]> (cs_open (tc_state c))) (rec_insert tick number (cs_recency (tc_state c)))) (wadd tick 1).

Definition tc_drop (tick victim : N) (c : TableCache R) : TableCache R :=
  mkCache (tc_capacity c) (mkCacheState (delete victim (cs_open (tc_state c))) (rec_remove tick (cs_recency (tc_state c)))) (tc_clock c) (tc_hits c) (tc_misses c) (wadd (tc_evictions c) 1).
(** Every round drops a reader, so the readers open are rounds enough. *)
Fixpoint evict_loop (fuel : nat) (keep : N) (c : TableCache R) : TableCache R :=
  match fuel with
  | O => c
  | S fuel =>
      if (size (cs_open (tc_state c)) <=? tc_capacity c)%nat then c else
      match cs_recency (tc_state c) with
      | [] => c
      | (tick, victim) :: others =>
          if (victim =? keep)%N
          then match others with [] => c | (next_tick, next) :: _ => evict_loop fuel keep (tc_drop next_tick next c) end
          else evict_loop fuel keep (tc_drop tick victim c)
      end
  end.
Definition evict_until_within_capacity (keep : N) (c : TableCache R) : TableCache R := evict_loop (size (cs_open (tc_state c))) keep c.

(** The two halves of [get], each under the lock; the file is opened between
    them. *)
Definition get_cached (number : N) (c : TableCache R) : option R * TableCache R :=
  match tc_touch number c with
  | (Some reader, c) => (Some reader, mkCache (tc_capacity c) (tc_state c) (tc_clock c) (wadd (tc_hits c) 1) (tc_misses c) (tc_evictions c))
  | (None, c) => (None, mkCache (tc_capacity c) (tc_state c) (tc_clock c) (tc_hits c) (wadd (tc_misses c) 1) (tc_evictions c))
  end.
Definition get_opened (number : N) (reader : R) (c : TableCache R) : R * TableCache R :=
  match tc_touch number c with
  | (Some existing, c) => (existing, c)
  | (None, c) => (reader, evict_until_within_capacity number (tc_insert number reader c))
  end.
Definition tc_get (open : N -> result E R) (number : N) (c : TableCache R) : result E R * TableCache R :=
  match get_cached number c with
  | (Some reader, c) => (Ok reader, c)
  | (None, c) =>
      match open number with
      | Err e => (Err e, c)
      | Ok reader => let '(reader, c) := get_opened number reader c in (Ok reader, c)
      end
  end.
Definition tc_evict (number : N) (c : TableCache R) : TableCache R :=
  match cs_open (tc_state c) !! number with
  | None => c
  | Some entry => tc_with c (mkCacheState (delete number (cs_open (tc_state c))) (rec_remove (op_used_at entry) (cs_recency (tc_state c)))) (tc_clock c)
  end.
Definition tc_len (c : TableCache R) : nat := size (cs_open (tc_state c)).
End Cache.

(** ** Two views of one set *)

Section Laws.
Context {R E : Type}.
Implicit Types (c : TableCache R).

(** The file numbers, least recently used first. *)
Definition tc_numbers (c : TableCache R) : list N := (cs_recency (tc_state c)).*2.
Record tc_ok (c : TableCache R) : Prop := {
  ok_capacity : (0 < tc_capacity c)%nat;
  ok_sorted : StronglySorted N.lt (cs_recency (tc_state c)).*1;
  ok_clock : Forall (fun e : N * N => e.1 < tc_clock c)%N (cs_recency (tc_state c));
  ok_agree number tick : (tick, number) ∈ cs_recency (tc_state c) <-> op_used_at <$> cs_open (tc_state c) !! number = Some tick }.
(** The readers, without the bookkeeping. *)
Definition tc_reader (c : TableCache R) (number : N) : option R := op_reader <$> cs_open (tc_state c) !! number.

Lemma rec_insert_last tick number m : Forall (fun e : N * N => e.1 < tick)%N m -> rec_insert tick number m = m ++ [(tick, number)].
Proof using. induction 1 as [|[t n] m Ht _ IH]; [done|]. cbn in *. rewrite (proj2 (N.compare_gt_iff tick t)) by done. by rewrite IH. Qed.
Lemma sorted_snoc ticks (tick : N) : StronglySorted N.lt ticks -> Forall (fun t => t < tick)%N ticks -> StronglySorted N.lt (ticks ++ [tick]).
Proof using. intros Hs Hf. apply StronglySorted_app. split_and!; [|done|repeat constructor]. intros a b Ha ->%list_elem_of_singleton. rewrite Forall_forall in Hf. by apply Hf. Qed.
Lemma ticks_filter (P : N * N -> Prop) `{!forall e, Decision (P e)} m : StronglySorted N.lt m.*1 -> StronglySorted N.lt (filter P m).*1.
Proof using.
  induction m as [|e m IH]; intros Hs; [constructor|]. apply StronglySorted_inv in Hs as [Hs Hall]. rewrite filter_cons. destruct (decide (P e)); [|by apply IH]. cbn. constructor; [by apply IH|].
  apply Forall_forall. intros t (x & -> & Hx)%list_elem_of_fmap. apply list_elem_of_filter in Hx as [_ Hx]. rewrite Forall_forall in Hall. apply Hall, list_elem_of_fmap. by exists x.
Qed.

Section Ok.
Context (c : TableCache R) (Hc : tc_ok c).
Lemma agree_number t t' n : (t, n) ∈ cs_recency (tc_state c) -> (t', n) ∈ cs_recency (tc_state c) -> t = t'.
Proof using Hc. rewrite !(ok_agree _ Hc). congruence. Qed.
Lemma sorted_nodup (m : list N) : StronglySorted N.lt m -> NoDup m.
Proof using. induction 1 as [|t m _ IH Hall]; constructor; [|done]. intros Hin. rewrite Forall_forall in Hall. pose proof (Hall t Hin). lia. Qed.
Lemma agree_tick t n n' : (t, n) ∈ cs_recency (tc_state c) -> (t, n') ∈ cs_recency (tc_state c) -> n = n'.
Proof using Hc.
  intros (i & Hi)%list_elem_of_lookup (j & Hj)%list_elem_of_lookup. pose proof (sorted_nodup _ (ok_sorted _ Hc)) as Hnd. assert (i = j) as ->; [|congruence].
  apply (NoDup_lookup _ i j t Hnd); rewrite list_lookup_fmap; [by rewrite Hi|by rewrite Hj].
Qed.
Lemma numbers_nodup : NoDup (tc_numbers c).
Proof using Hc.
  unfold tc_numbers. apply NoDup_fmap_2_strong; [|eapply NoDup_fmap_1, sorted_nodup, (ok_sorted _ Hc)]. intros [t n] [t' n'] Hx Hy Hn. cbn in Hn. subst n'. by rewrite (agree_number t t' n).
Qed.
Lemma number_open n : n ∈ tc_numbers c <-> is_Some (cs_open (tc_state c) !! n).
Proof using Hc.
  unfold tc_numbers. rewrite list_elem_of_fmap. split.
  - intros ([t n'] & -> & Hin). apply (ok_agree _ Hc) in Hin. cbn. by apply fmap_Some in Hin as (e & -> & _).
  - intros [e He]. exists (op_used_at e, n). split; [done|]. apply (ok_agree _ Hc). by rewrite He.
Qed.
Lemma len_numbers : tc_len c = length (tc_numbers c).
Proof using Hc.
  unfold tc_len. rewrite <- size_dom. rewrite <- (size_list_to_set (C := gset N) (tc_numbers c) numbers_nodup). apply set_size_proper. intros n. rewrite elem_of_dom, elem_of_list_to_set. symmetry. apply number_open.
Qed.
End Ok.

(** One reader taken out, one put in as the latest. *)
Definition tc_without (number tick : N) (c : TableCache R) : TableCache R := tc_with c (mkCacheState (delete number (cs_open (tc_state c))) (rec_remove tick (cs_recency (tc_state c)))) (tc_clock c).
Lemma remove_elem tick m (e : N * N) : e ∈ rec_remove tick m <-> e.1 <> tick /\ e ∈ m.
Proof using. unfold rec_remove. by rewrite list_elem_of_filter. Qed.
Lemma filter_numbers (P : N * N -> Prop) (Q : N -> Prop) `{!forall e, Decision (P e)} `{!forall n, Decision (Q n)} m : (forall e, e ∈ m -> P e <-> Q e.2) -> (filter P m).*2 = filter Q m.*2.
Proof using.
  induction m as [|e m IH]; intros HPQ; [done|]. rewrite fmap_cons, !filter_cons. assert (P e <-> Q e.2) as He by (apply HPQ; by left). rewrite <- IH by (intros x Hx; apply HPQ; by right).
  by destruct (decide (P e)), (decide (Q e.2)); try tauto.
Qed.
Lemma without_spec c number e : tc_ok c -> cs_open (tc_state c) !! number = Some e ->
  tc_ok (tc_without number (op_used_at e) c) /\ tc_numbers (tc_without number (op_used_at e) c) = filter (fun n => n <> number) (tc_numbers c).
Proof using.
  intros Hc He. assert ((op_used_at e, number) ∈ cs_recency (tc_state c)) as Hin by (apply (ok_agree _ Hc); by rewrite He). split; [split|].
  - apply Hc.
  - apply ticks_filter, Hc.
  - apply Forall_forall. intros x [_ Hx]%remove_elem. pose proof (ok_clock _ Hc) as Hf. rewrite Forall_forall in Hf. by apply Hf.
  - intros n t. cbn. rewrite remove_elem, (ok_agree _ Hc). cbn. destruct (decide (n = number)) as [->|Hne].
    + rewrite lookup_delete_eq, He. cbn. split; [by intros [Hn [= <-]]|done].
    + rewrite lookup_delete_ne by done. split; [tauto|]. intros Ht. split; [|done]. intros ->. apply Hne. apply (agree_tick c Hc (op_used_at e)); [by apply (ok_agree _ Hc)|done].
  - unfold tc_numbers. cbn. apply filter_numbers. intros [t n] Hx. cbn. split; intros Hne Heq; apply Hne.
    + subst n. by apply (agree_number c Hc t (op_used_at e) number).
    + subst t. by apply (agree_tick c Hc (op_used_at e)).
Qed.
Lemma append_spec c number reader : tc_ok c -> cs_open (tc_state c) !! number = None -> (tc_clock c + 1 < two64)%N -> tc_ok (tc_insert number reader c) /\ tc_numbers (tc_insert number reader c) = tc_numbers c ++ [number].
Proof using.
  intros Hc Hn Hclk. unfold tc_insert, tc_numbers. cbn. rewrite (rec_insert_last _ _ _ (ok_clock _ Hc)). split; [split; cbn|by rewrite fmap_app].
  - apply Hc.
  - rewrite fmap_app. apply sorted_snoc; [apply Hc|]. apply Forall_fmap, (ok_clock _ Hc).
  - rewrite wadd_small by done. apply Forall_app. split; [eapply Forall_impl; [apply Hc|]; cbn; intros; lia|]. constructor; [cbn; lia|constructor].
  - intros n t. rewrite elem_of_app, list_elem_of_singleton, (ok_agree _ Hc). destruct (decide (n = number)) as [->|Hne].
    + rewrite lookup_insert_eq, Hn. cbn. split; [intros [?|[= ->]]; done|intros [= ->]; by right].
    + rewrite lookup_insert_ne by done. split; [intros [?|[= _ ?]]; [done|by destruct Hne]|by left].
Qed.

Definition lru_touch (number : N) (l : list N) : list N := if decide (number ∈ l) then filter (fun n => n <> number) l ++ [number] else l.
Lemma touch_spec c number : tc_ok c -> (tc_clock c + 1 < two64)%N -> let c' := (tc_touch number c).2 in
  (tc_touch number c).1 = tc_reader c number /\ tc_ok c' /\ tc_numbers c' = lru_touch number (tc_numbers c) /\ tc_clock c' = (tc_clock c + 1)%N /\ tc_capacity c' = tc_capacity c /\ (forall n, tc_reader c' n = tc_reader c n).
Proof using.
  intros Hc Hclk. unfold tc_touch, lru_touch, tc_reader. destruct (cs_open (tc_state c) !! number) as [e|] eqn:He; cbn [fst snd]; rewrite wadd_small by done.
  - rewrite decide_True by (apply (number_open c Hc); by exists e). destruct (without_spec c number e Hc He) as [Hw Hwn]. pose proof (append_spec (tc_without number (op_used_at e) c) number (op_reader e) Hw) as Ha. cbn in Ha. rewrite lookup_delete_eq in Ha. specialize (Ha eq_refl Hclk).
    unfold tc_insert, tc_without, tc_with in Ha. cbn in Ha. rewrite insert_delete_eq, wadd_small in Ha by done. rewrite <- Hwn. split_and!; [done|apply Ha|apply Ha|done|done|].
    intros n. cbn. destruct (decide (n = number)) as [->|Hne]; [by rewrite lookup_insert_eq, He|by rewrite lookup_insert_ne].
  - rewrite decide_False by (intros [x Hx]%(number_open c Hc); congruence). split_and!; try done. destruct Hc as [H1 H2 H3 H4]. split; try done. cbn. eapply Forall_impl; [exact H3|]. cbn. intros. lia.
Qed.

Lemma ok_same c c' : tc_ok c -> tc_capacity c' = tc_capacity c -> tc_state c' = tc_state c -> tc_clock c' = tc_clock c -> tc_ok c'.
Proof using. intros [H1 H2 H3 H4] E1 E2 E3. split; rewrite ?E1, ?E2, ?E3; done. Qed.
Definition sub_readers (c' c : TableCache R) : Prop := forall n r, tc_reader c' n = Some r -> tc_reader c n = Some r.
Lemma drop_spec c tick victim others : tc_ok c -> cs_recency (tc_state c) = (tick, victim) :: others ->
  tc_ok (tc_drop tick victim c) /\ tc_numbers (tc_drop tick victim c) = others.*2 /\ sub_readers (tc_drop tick victim c) c.
Proof using.
  intros Hc Hr. assert ((tick, victim) ∈ cs_recency (tc_state c)) as Hin by (rewrite Hr; left). apply (ok_agree _ Hc), fmap_Some in Hin as (e & He & ->). destruct (without_spec c victim e Hc He) as [Hw Hn]. split_and!.
  - by apply (ok_same _ _ Hw).
  - change (tc_numbers (tc_drop (op_used_at e) victim c)) with (tc_numbers (tc_without victim (op_used_at e) c)). rewrite Hn. pose proof (numbers_nodup c Hc) as Hnd. unfold tc_numbers in *. rewrite Hr, fmap_cons in *. cbn [snd] in *. apply NoDup_cons in Hnd as [Hnot _].
    rewrite filter_cons_False by (by intros H; apply H). apply filter_all, Forall_forall. intros x Hx ->. done.
  - intros n r. unfold tc_reader. cbn. destruct (decide (n = victim)) as [->|Hne]; [by rewrite lookup_delete_eq|by rewrite lookup_delete_ne].
Qed.
Lemma evict_loop_spec fuel keep c pre : tc_ok c -> tc_numbers c = pre ++ [keep] -> (length (tc_numbers c) - tc_capacity c <= fuel)%nat -> let c' := evict_loop fuel keep c in
  tc_ok c' /\ tc_numbers c' = drop (length (tc_numbers c) - tc_capacity c) (tc_numbers c) /\ sub_readers c' c /\ tc_clock c' = tc_clock c /\ tc_capacity c' = tc_capacity c.
Proof using.
  revert c pre. induction fuel as [|fuel IH]; intros c pre Hc Hn Hf; cbn [evict_loop].
  - replace (length (tc_numbers c) - tc_capacity c)%nat with 0%nat by lia. split_and!; try done; by intros n r.
  - pose proof (len_numbers c Hc) as Hlen. unfold tc_len in Hlen. rewrite Hlen. destruct (Nat.leb_spec (length (tc_numbers c)) (tc_capacity c)) as [Hle|Hgt].
    { replace (length (tc_numbers c) - tc_capacity c)%nat with 0%nat by lia. split_and!; try done; by intros n r. }
    pose proof (ok_capacity _ Hc) as Hcap. destruct pre as [|v pre]; [rewrite Hn in Hgt; cbn in Hgt; lia|]. destruct (cs_recency (tc_state c)) as [|[tick victim] others] eqn:Er; [by unfold tc_numbers in Hn; rewrite Er in Hn|].
    assert (victim = v /\ others.*2 = pre ++ [keep]) as [-> Ho] by (unfold tc_numbers in Hn; rewrite Er in Hn; cbn in Hn; by injection Hn). pose proof (numbers_nodup c Hc) as Hnd. rewrite Hn in Hnd. apply NoDup_cons in Hnd as [Hnot _].
    assert (v <> keep) as Hne by (intros ->; apply Hnot, elem_of_app; right; by left). rewrite (proj2 (N.eqb_neq _ _)) by done. destruct (drop_spec c tick v others Hc Er) as (Hc1 & Hn1 & Hs1). rewrite Ho in Hn1.
    destruct (IH (tc_drop tick v c) pre Hc1 Hn1) as (Hok & Hnum & Hsub & Hclk & Hcapa). { rewrite Hn1. rewrite Hn in Hf. cbn in *. lia. }
    split_and!; [done| |intros n r Hr; by apply Hs1, Hsub|done|done]. rewrite Hnum, Hn1, Hn. cbn [tc_drop tc_capacity]. rewrite Hn in Hgt. change ((v :: pre) ++ [keep]) with (v :: (pre ++ [keep])) in *. cbn [length] in *.
    replace (S (length (pre ++ [keep])) - tc_capacity c)%nat with (S (length (pre ++ [keep]) - tc_capacity c)) by lia. done.
Qed.

(** *** Steps under the lock *)

(** The threads interleave as they like between these. *)
Inductive CacheOp := Lookup (number : N) | Publish (number : N) (reader : R) | Forget (number : N).
Definition cache_step (op : CacheOp) (c : TableCache R) : TableCache R :=
  match op with
  | Lookup number => (get_cached number c).2
  | Publish number reader => (get_opened number reader c).2
  | Forget number => tc_evict number c
  end.
(** A queue of file numbers, the next to go first. *)
Definition lru_step (capacity : nat) (op : CacheOp) (l : list N) : list N :=
  match op with
  | Lookup number => lru_touch number l
  | Publish number _ => if decide (number ∈ l) then lru_touch number l else drop (S (length l) - capacity) (l ++ [number])
  | Forget number => filter (fun n => n <> number) l
  end.

Lemma get_opened_spec c number reader : tc_ok c -> (tc_clock c + 2 < two64)%N -> let c' := (get_opened number reader c).2 in
  tc_ok c' /\ tc_numbers c' = lru_step (tc_capacity c) (Publish number reader) (tc_numbers c) /\ (tc_clock c' <= tc_clock c + 2)%N /\ tc_capacity c' = tc_capacity c /\
  (get_opened number reader c).1 = default reader (tc_reader c number) /\ (forall n r, tc_reader c' n = Some r -> tc_reader c n = Some r \/ n = number /\ r = reader).
Proof using.
  intros Hc Hclk. unfold get_opened. destruct (touch_spec c number Hc ltac:(lia)) as (Hres & Hok & Hnum & Hck & Hcap & Hrd). destruct (tc_touch number c) as [[existing|] c1] eqn:Et; cbn [fst snd] in *.
  - rewrite <- Hres. assert (number ∈ tc_numbers c) as Hin by (apply (number_open c Hc); unfold tc_reader in Hres; symmetry in Hres; apply fmap_Some in Hres as (e & He & _); by exists e).
    cbn [lru_step]. rewrite decide_True by done. split_and!; try done; [lia|]. intros n r Hr. left. by rewrite <- Hrd.
  - assert (number ∉ tc_numbers c) as Hnin by (intros [e He]%(number_open c Hc); unfold tc_reader in Hres; by rewrite He in Hres). cbn [lru_step]. rewrite decide_False by done. unfold lru_touch in Hnum. rewrite decide_False in Hnum by done.
    assert (cs_open (tc_state c1) !! number = None) as Hnone. { destruct (cs_open (tc_state c1) !! number) eqn:Eo; [|done]. destruct Hnin. rewrite <- Hnum. apply (number_open c1 Hok). by eexists. }
    destruct (append_spec c1 number reader Hok Hnone ltac:(lia)) as [Hok2 Hnum2]. rewrite Hnum in Hnum2. unfold evict_until_within_capacity.
    destruct (evict_loop_spec (size (cs_open (tc_state (tc_insert number reader c1)))) number (tc_insert number reader c1) (tc_numbers c) Hok2 Hnum2) as (Hok3 & Hnum3 & Hsub & Hck3 & Hcap3).
    { change (size (cs_open (tc_state (tc_insert number reader c1)))) with (tc_len (tc_insert number reader c1)). rewrite (len_numbers _ Hok2). lia. }
    split_and!; try done.
    + rewrite Hnum3, Hnum2, length_app. cbn [length tc_insert tc_with tc_capacity]. by rewrite Hcap, Nat.add_1_r.
    + rewrite Hck3. cbn [tc_insert tc_with tc_clock]. rewrite wadd_small by lia. lia.
    + by rewrite Hcap3.
    + by rewrite <- Hres.
    + intros n r Hr. apply Hsub in Hr. unfold tc_reader in Hr |- *. cbn in Hr. destruct (decide (n = number)) as [->|Hne]; [rewrite lookup_insert_eq in Hr; right; by injection Hr as <-|]. rewrite lookup_insert_ne in Hr by done. left. specialize (Hrd n). unfold tc_reader in Hrd. by rewrite <- Hrd.
Qed.
Lemma get_cached_spec c number : tc_ok c -> (tc_clock c + 1 < two64)%N -> let c' := (get_cached number c).2 in
  (get_cached number c).1 = tc_reader c number /\ tc_ok c' /\ tc_numbers c' = lru_touch number (tc_numbers c) /\ tc_clock c' = (tc_clock c + 1)%N /\ tc_capacity c' = tc_capacity c /\ (forall n, tc_reader c' n = tc_reader c n).
Proof using.
  intros Hc Hclk. unfold get_cached. destruct (touch_spec c number Hc Hclk) as (Hres & Hok & Hnum & Hck & Hcap & Hrd). destruct (tc_touch number c) as [[existing|] c1]; cbn [fst snd] in *; (split_and!; [done|by apply (ok_same c1)|done..]).
Qed.
Lemma evict_spec c number : tc_ok c -> tc_ok (tc_evict number c) /\ tc_numbers (tc_evict number c) = filter (fun n => n <> number) (tc_numbers c) /\ tc_clock (tc_evict number c) = tc_clock c /\ tc_capacity (tc_evict number c) = tc_capacity c /\ sub_readers (tc_evict number c) c.
Proof using.
  intros Hc. unfold tc_evict. destruct (cs_open (tc_state c) !! number) as [e|] eqn:He.
  - destruct (without_spec c number e Hc He) as [Hw Hn]. split_and!; [exact Hw|exact Hn|done|done|]. intros n r. unfold tc_reader. cbn. destruct (decide (n = number)) as [->|Hne]; [by rewrite lookup_delete_eq|by rewrite lookup_delete_ne].
  - split_and!; try done; [|by intros n r]. rewrite filter_all; [done|]. apply Forall_forall. intros x Hx ->. apply (number_open c Hc) in Hx as [e Hx]. congruence.
Qed.

(** One step: the invariant is kept and the queue moves as it should. *)
Definition op_reader_of (op : CacheOp) (number : N) : option R := match op with Publish n r => if decide (n = number) then Some r else None | _ => None end.
Lemma cache_step_spec op c : tc_ok c -> (tc_clock c + 2 < two64)%N -> let c' := cache_step op c in
  tc_ok c' /\ tc_numbers c' = lru_step (tc_capacity c) op (tc_numbers c) /\ (tc_clock c' <= tc_clock c + 2)%N /\ tc_capacity c' = tc_capacity c /\
  (forall n r, tc_reader c' n = Some r -> tc_reader c n = Some r \/ op_reader_of op n = Some r).
Proof using.
  intros Hc Hclk. destruct op as [number|number reader|number]; cbn [cache_step lru_step].
  - destruct (get_cached_spec c number Hc ltac:(lia)) as (_ & Hok & Hnum & Hck & Hcap & Hrd). split_and!; try done; [lia|]. intros n r Hr. left. by rewrite <- Hrd.
  - destruct (get_opened_spec c number reader Hc Hclk) as (Hok & Hnum & Hck & Hcap & _ & Hrd). split_and!; try done. intros n r [Hr|[-> ->]]%Hrd; [by left|right]. cbn. by rewrite decide_True.
  - destruct (evict_spec c number Hc) as (Hok & Hnum & Hck & Hcap & Hsub). split_and!; try done; [lia|]. intros n r Hr. left. by apply Hsub.
Qed.
Definition cache_run (ops : list CacheOp) (c : TableCache R) : TableCache R := foldl (fun c op => cache_step op c) c ops.
Lemma cache_run_spec (P : N -> R -> Prop) ops c : tc_ok c -> (tc_clock c + 2 * N.of_nat (length ops) < two64)%N -> (forall n r, tc_reader c n = Some r -> P n r) -> Forall (fun op => forall n r, op_reader_of op n = Some r -> P n r) ops ->
  let c' := cache_run ops c in
  tc_ok c' /\ tc_numbers c' = foldl (fun l op => lru_step (tc_capacity c) op l) (tc_numbers c) ops /\ (tc_clock c' <= tc_clock c + 2 * N.of_nat (length ops))%N /\ tc_capacity c' = tc_capacity c /\ (forall n r, tc_reader c' n = Some r -> P n r).
Proof using.
  revert c. induction ops as [|op ops IH]; intros c Hc Hclk HP Hops; [cbn; split_and!; try done; lia|]. cbn [length cache_run foldl] in *. fold (cache_run ops (cache_step op c)). apply Forall_cons in Hops as [Hop Hops].
  destruct (cache_step_spec op c Hc ltac:(lia)) as (Hok & Hnum & Hck & Hcap & Hrd). destruct (IH (cache_step op c) Hok) as (Hok' & Hnum' & Hck' & Hcap' & HP'); [lia|intros n r [Hr|Hr]%Hrd; [by apply HP|by apply Hop]|done|].
  rewrite Hcap, Hnum in Hnum'. split_and!; [done|done|lia|by rewrite Hcap'|done].
Qed.
Lemma cache_new_ok capacity : tc_ok (TableCache_new capacity).
Proof using. split; cbn; [lia|constructor|constructor|]. intros n t. rewrite lookup_empty. split; [by intros ?%elem_of_nil|done]. Qed.
Lemma lru_within capacity ops l : (0 < capacity)%nat -> (length l <= capacity)%nat -> (length (foldl (fun l op => lru_step capacity op l) l ops) <= capacity)%nat.
Proof using.
  intros Hcap. revert l. induction ops as [|op ops IH]; intros l Hl; [done|]. cbn. apply IH. assert (forall n, length (lru_touch n l) <= capacity)%nat as Ht.
  { intros n. unfold lru_touch. destruct (decide (n ∈ l)) as [Hin|]; [|done]. rewrite length_app. cbn. assert (length (filter (fun m => m <> n) l) < length l)%nat; [|lia]. apply length_filter_lt with n; [done|]. by intros H; apply H. }
  destruct op as [number|number reader|number]; cbn [lru_step]; [apply Ht| |etrans; [apply length_filter|done]]. destruct (decide (number ∈ l)); [apply Ht|]. rewrite length_drop, length_app. cbn. lia.
Qed.
End Laws.
Arguments CacheOp : clear implicits.

(** The map and the order of use never disagree.  Every step a thread takes
    under the lock, a lookup, a publication or a deletion, keeps the invariant:
    an open reader's last tick is a key of the order of use that names it and the
    other way around, ticks are in order and behind the clock, and the capacity
    is not zero. *)
Theorem cache_well_formed {R : Type} (op : CacheOp R) (c : TableCache R) :
  tc_ok c -> (tc_clock c + 2 < two64)%N -> tc_ok (cache_step op c) /\ tc_len (cache_step op c) = length (tc_numbers (cache_step op c)).
Proof. intros Hc Hclk. destruct (cache_step_spec op c Hc Hclk) as (Hok & _). split; [done|]. by apply len_numbers. Qed.

(** C25: the cache is an exact least-recently-used queue.  After any interleaving
    of steps the readers open, in the order of use, are those of a queue that
    moves a number to its end when it is used and drops numbers from its front
    when it is full; there are never more than the capacity. *)
Theorem cache_is_lru {R : Type} (capacity : nat) (ops : list (CacheOp R)) :
  (2 * N.of_nat (length ops) < two64)%N ->
  let c := cache_run ops (TableCache_new capacity) in
  tc_numbers c = foldl (fun l op => lru_step (Nat.max capacity 1) op l) [] ops /\ tc_len c = length (tc_numbers c) /\ (tc_len c <= Nat.max capacity 1)%nat.
Proof.
  intros Hclk c. destruct (cache_run_spec (fun _ _ => True) ops (TableCache_new capacity) (cache_new_ok capacity)) as (Hok & Hnum & _ & _ & _); [cbn; lia|done|by apply Forall_true|]. fold c in Hok, Hnum.
  pose proof (len_numbers c Hok) as Hlen. split_and!; [exact Hnum|done|]. rewrite Hlen, Hnum. apply lru_within; cbn; lia.
Qed.

(** The cache changes nothing but the cost.  Whatever was looked up, opened
    and forgotten before, by however many threads, [get] answers with what
    opening the file would, and a reader it answers with is the last to be
    evicted. *)
Theorem cache_transparent {R E : Type} (open : N -> result E R) (capacity : nat) (ops : list (CacheOp R)) (number : N) :
  (2 * N.of_nat (length ops) + 3 < two64)%N -> Forall (fun op => match op with Publish n r => open n = Ok r | _ => True end) ops ->
  let '(answer, c) := tc_get open number (cache_run ops (TableCache_new capacity)) in
  answer = open number /\ tc_ok c /\ (is_ok answer = true -> last (tc_numbers c) = Some number).
Proof.
  intros Hclk Hops. destruct (cache_run_spec (fun n r => open n = Ok r) ops (TableCache_new capacity) (cache_new_ok capacity)) as (Hok & _ & Hck & _ & HP); [cbn; lia|done| |].
  { eapply Forall_impl; [exact Hops|]. intros [n|n r|n] Hop n' r'; cbn; [done| |done]. case_decide as H; [|done]. subst n'. by intros [= <-]. }
  set (c := cache_run ops _) in *. clearbody c. cbn in Hck. unfold tc_get. destruct (get_cached_spec c number Hok ltac:(lia)) as (Hres & Hok1 & Hnum1 & Hck1 & Hcap1 & Hrd1). destruct (get_cached number c) as [[reader|] c1]; cbn [fst snd] in *.
  - split_and!; [symmetry; by apply HP|done|]. intros _. rewrite Hnum1. unfold lru_touch. rewrite decide_True; [apply last_snoc|]. apply (number_open c Hok). unfold tc_reader in Hres. symmetry in Hres. apply fmap_Some in Hres as (e & He & _). by exists e.
  - destruct (open number) as [reader|e] eqn:Eo; [|by split_and!]. destruct (get_opened_spec c1 number reader Hok1 ltac:(lia)) as (Hok2 & Hnum2 & _ & _ & Hans & _). rewrite Hrd1, <- Hres in Hans. destruct (get_opened number reader c1) as [r c2]. cbn [fst snd default] in *. subst r.
    split_and!; [done|done|]. intros _. rewrite Hnum2. cbn [lru_step]. assert (number ∉ tc_numbers c1) as Hnin by (intros [e He]%(number_open c1 Hok1); specialize (Hrd1 number); unfold tc_reader in Hrd1, Hres; rewrite He, <- Hres in Hrd1; done).
    rewrite decide_False by done. rewrite drop_app_le; [by rewrite last_snoc|]. pose proof (ok_capacity _ Hok1). lia.
Qed.

(** Two readers fit; the third pushes out the one used longest ago. *)
Definition three_files : list (CacheOp N) := [Lookup 1; Publish 1 10%N; Lookup 2; Publish 2 20%N; Lookup 1; Lookup 3; Publish 3 30%N].
Lemma cache_well_formed_witness : tc_ok (cache_run three_files (TableCache_new 2)) /\ tc_numbers (cache_step (Forget 1) (cache_run three_files (TableCache_new 2))) = [3%N].
Proof.
  split; [|by vm_compute]. unfold three_files, cache_run. cbn [foldl].
  apply cache_well_formed; [|by vm_compute]. do 6 (apply cache_step_spec; [|by vm_compute]). apply cache_new_ok.
Defined.
Lemma cache_is_lru_witness : tc_numbers (cache_run three_files (TableCache_new 2)) = [1%N; 3%N].
Proof. destruct (cache_is_lru 2 three_files) as (-> & _ & _); [by vm_compute|]. by vm_compute. Defined.
Lemma cache_transparent_witness : exists c, tc_get (fun n => if (n <? 4)%N then Ok (10 * n)%N else Err tt) 2 (cache_run three_files (TableCache_new 2)) = (Ok 20%N, c) /\ tc_numbers c = [3%N; 2%N].
Proof.
  pose proof (cache_transparent (fun n => if (n <? 4)%N then Ok (10 * n)%N else Err tt) 2 three_files 2) as H. destruct (tc_get _ 2 _) as [answer c] eqn:Eg. destruct H as [-> _]; [by vm_compute|repeat constructor|].
  exists c. split; [done|]. vm_compute in Eg. by injection Eg as <-.
Defined.
