(* ===== verification/DbRead.v ===== *)
(** Point reads (esker-engine/src/db/read.rs): the walk over the memtables, the
    files of L0 and one file of each deeper level, newest first, collecting range
    tombstones on the way.  A table is what the table cache hands out: its range
    tombstones, its bloom filter and a cursor. *)

From stdpp Require Import prelude sorting.
From Stdlib Require Import NArith Lia.
From S2P Require Import Prelude DbFormat RangeDel Lsm Cursor Levels LevelCursor SkipList MemTable.

Record TableReader (C : Type) := mkReader { tr_tombstones : RangeTombstones; tr_may_contain : bytes -> bool; tr_iter : C }.
Arguments mkReader {C}.
Arguments tr_tombstones {C}.
Arguments tr_may_contain {C}.
Arguments tr_iter {C}.

Inductive ReadError := TableUnreadable (number : N) | CorruptTag (number : N).

(** A column family as a read takes hold of it: [immutable] newest last. *)
Record CfState := mkCf { cfs_active : MemTable; cfs_immutable : list MemTable; cfs_version : CfVersion }.

Section Read.
Context (user : Comparator) {C : Type} `{!Cursor C} (table_get : N -> option (TableReader C)).

Definition file_covers (file : FileMeta) (key : bytes) : bool :=
  bool_decide (cmp user key (extract_user_key (fm_smallest file)) <> Lt) && bool_decide (cmp user key (extract_user_key (fm_largest file)) <> Gt).

(** [consult]: one memtable, its own tombstones taken first. *)
Definition consult (table : MemTable) (key : bytes) (snapshot : N) (tombstones : RangeTombstones) : option Lookup * RangeTombstones :=
  let tombstones := if has_range_tombstones table then rts_extend user tombstones (mt_range_tombstones table) else tombstones in
  match mt_get user table key snapshot with
  | Some (Found value seqno) => (Some (if rts_hides user tombstones key seqno snapshot then Deleted else Found value seqno), tombstones)
  | other => (other, tombstones)
  end.

(** [search_table]; [collect] is the [TombstoneScan]'s. *)
Definition search_table (file : FileMeta) (target key : bytes) (snapshot : N) (tombstones : RangeTombstones) (collect : bool) : result ReadError (option Lookup * RangeTombstones) :=
  match table_get (fm_number file) with
  | None => Err (TableUnreadable (fm_number file))
  | Some reader =>
      let tombstones := if collect && negb (bool_decide (tr_tombstones reader = [])) then rts_extend user tombstones (tr_tombstones reader) else tombstones in
      if negb (tr_may_contain reader target) then Ok (None, tombstones) else
      let iter := cur_seek target (tr_iter reader) in
      if cur_error iter then Err (TableUnreadable (fm_number file)) else
      if negb (cur_valid iter) then Ok (None, tombstones) else
      if negb (bool_decide (cmp user (extract_user_key (cur_key iter)) key = Eq)) then Ok (None, tombstones) else
      match split_internal_key (cur_key iter) with
      | Some (_, seqno, Put) => Ok (Some (if rts_hides user tombstones key seqno snapshot then Deleted else Found (cur_value iter) seqno), tombstones)
      | Some (_, _, _) => Ok (Some Deleted, tombstones)
      | None => Err (CorruptTag (fm_number file))
      end
  end.

(** The files of L0, newest first. *)
Fixpoint search_l0 (files : list FileMeta) (target key : bytes) (snapshot : N) (tombstones : RangeTombstones) : result ReadError (option Lookup * RangeTombstones) :=
  match files with
  | [] => Ok (None, tombstones)
  | file :: files =>
      if negb (file_covers file key) then search_l0 files target key snapshot tombstones else
      let? r := search_table file target key snapshot tombstones true in
      match r with (Some found, ts) => Ok (Some found, ts) | (None, ts) => search_l0 files target key snapshot ts end
  end.
(** The deeper levels: the one file of each that can hold the key. *)
Fixpoint search_deeper (levels : list (list FileMeta)) (target key : bytes) (snapshot : N) (tombstones : RangeTombstones) : result ReadError (option Lookup) :=
  match levels with
  | [] => Ok None
  | files :: levels =>
      let index := partition_by (fun file => bool_decide (internal_cmp user (fm_largest file) target = Lt)) files in
      match files !! index with
      | None => search_deeper levels target key snapshot tombstones
      | Some file =>
          if negb (file_covers file key) then search_deeper levels target key snapshot tombstones else
          let? r := search_table file target key snapshot tombstones false in
          match r with (Some found, _) => Ok (Some found) | (None, ts) => search_deeper levels target key snapshot ts end
      end
  end.
Definition search_levels (v : CfVersion) (key : bytes) (snapshot : N) (tombstones : RangeTombstones) : result ReadError (option Lookup) :=
  let target := lookup_key key snapshot in
  let? r := search_l0 (cf_files v 0) target key snapshot tombstones in
  match r with (Some found, _) => Ok (Some found) | (None, ts) => search_deeper (drop 1 v) target key snapshot ts end.

Fixpoint consult_all (tables : list MemTable) (key : bytes) (snapshot : N) (tombstones : RangeTombstones) : option Lookup * RangeTombstones :=
  match tables with
  | [] => (None, tombstones)
  | table :: tables =>
      match consult table key snapshot tombstones with (Some found, ts) => (Some found, ts) | (None, ts) => consult_all tables key snapshot ts end
  end.
Definition db_lookup (cf : CfState) (key : bytes) (snapshot : N) : result ReadError (option Lookup) :=
  match consult_all (cfs_active cf :: reverse (cfs_immutable cf)) key snapshot [] with
  | (Some found, _) => Ok (Some found)
  | (None, ts) => search_levels (cfs_version cf) key snapshot ts
  end.
Definition lookup_value (found : Lookup) : option bytes := match found with Found value _ => Some value | Deleted => None end.
(** [get_at]; pinning the sequence number is the snapshot list's. *)
Definition db_get_at (cf : CfState) (key : bytes) (seqno : N) : result ReadError (option bytes) :=
  let? found := db_lookup cf key seqno in Ok (found ≫= lookup_value).
End Read.

(** ** The sources of a read, newest first *)

(** What one memtable, one file of L0 or one deeper level holds. *)
Definition source : Type := list entry * list RangeTombstone.

Section Walk.
Context (user : Comparator) `{!ComparatorLaws user} (key : bytes) (snapshot : N) (Hsn : (snapshot <= MAX_SEQNO)%N).

Definition settled_by (ts : RangeTombstones) (v : version) : Lookup :=
  match v with (s, Put, value) => if rts_hides user ts key s snapshot then Deleted else Found value s | _ => Deleted end.
Fixpoint walk_answer (ts : RangeTombstones) (sources : list source) : option Lookup :=
  match sources with
  | [] => None
  | (run, own) :: sources =>
      match newest (versions_of user run key snapshot) with
      | Some v => Some (settled_by (ts ++ own) v)
      | None => walk_answer (ts ++ own) sources
      end
  end.

(** Sets that hide the same versions of the key. *)
Definition same_hides (ts ts' : RangeTombstones) : Prop := forall s, rts_hides user ts key s snapshot = rts_hides user ts' key s snapshot.
Lemma same_hides_elem ts ts' : (forall t, rt_contains user t key = true -> t ∈ ts <-> t ∈ ts') -> same_hides ts ts'.
Proof using. intros H s. apply eq_true_iff_eq. rewrite !rts_hides_spec. split; intros (t & Ht & Hc & Hs); exists t; (split; [by apply H|done]). Qed.
Lemma settled_same ts ts' v : same_hides ts ts' -> settled_by ts v = settled_by ts' v.
Proof using. intros H. destruct v as [[s k] value]. unfold settled_by. by destruct k; rewrite ?H. Qed.
Lemma same_hides_app ts ts' own : same_hides ts ts' -> same_hides (ts ++ own) (ts' ++ own).
Proof using. intros H s. specialize (H s). unfold rts_hides in *. by rewrite !existsb_app, H. Qed.
Lemma walk_same ts ts' sources : same_hides ts ts' -> walk_answer ts sources = walk_answer ts' sources.
Proof using.
  revert ts ts'. induction sources as [|[run own] sources IH]; intros ts ts' H; [done|]. cbn. pose proof (same_hides_app ts ts' own H) as H'. destruct (newest _) as [v|]; [by rewrite (settled_same _ _ v H')|by apply IH].
Qed.
Lemma walk_app ts l l' : walk_answer ts (l ++ l') = match walk_answer ts l with Some found => Some found | None => walk_answer (ts ++ mjoin l.*2) l' end.
Proof using.
  revert ts. induction l as [|[run own] l IH]; intros ts; cbn; [by rewrite app_nil_r|]. destruct (newest _); [done|]. rewrite IH. by rewrite app_assoc.
Qed.

(** Newer sources first: their versions are newer, and no tombstone of an older
    one hides them. *)
Definition newer_source (a b : source) : Prop :=
  (forall v v', v ∈ versions_of user a.1 key snapshot -> v' ∈ versions_of user b.1 key snapshot -> (ver_seqno v' <= ver_seqno v)%N) /\
  (forall v t, v ∈ versions_of user a.1 key snapshot -> t ∈ b.2 -> rt_contains user t key = true -> (rt_seqno t <= ver_seqno v)%N).

Lemma walk_visible ts sources : StronglySorted newer_source sources ->
  walk_answer ts sources ≫= lookup_value = judge user (ts ++ mjoin sources.*2) key snapshot (newest (versions_of user (mjoin sources.*1) key snapshot)).
Proof using All.
  intros Hs. revert ts. induction Hs as [|[run own] sources Hs IH Hall]; intros ts; [done|]. rewrite Forall_forall in Hall. cbn [walk_answer fmap list_fmap fst snd mjoin list_join]. rewrite versions_of_app, newest_app.
  2: { intros v v' Hv (e & (r & He & Hr)%list_elem_of_join & Hv')%elem_of_versions_of. apply list_elem_of_fmap in Hr as (src & -> & Hsrc). apply (proj1 (Hall src Hsrc) v v' Hv). apply elem_of_versions_of. by exists e. }
  destruct (newest (versions_of user run key snapshot)) as [v|] eqn:Ev; [|by rewrite IH, app_assoc]. apply newest_elem in Ev as [Hv _]. cbn [mbind option_bind]. rewrite app_assoc.
  assert (rts_hides user ((ts ++ own) ++ mjoin sources.*2) key (ver_seqno v) snapshot = rts_hides user (ts ++ own) key (ver_seqno v) snapshot) as Hh.
  { apply eq_true_iff_eq. rewrite !rts_hides_spec. split; intros (t & Ht & Hc & Hseq); exists t; (split; [|done]); [|set_solver]. apply elem_of_app in Ht as [Ht|(l & Ht & Hl)%list_elem_of_join]; [done|].
    apply list_elem_of_fmap in Hl as (src & -> & Hsrc). pose proof (proj2 (Hall src Hsrc) v t Hv Ht Hc). lia. }
  destruct v as [[s k] value]. cbn in Hh. unfold settled_by, judge. destruct k; [done| |done].
  etrans; [|exact (f_equal (fun b : bool => if b then None else Some value) (eq_sym Hh))]. destruct (rts_hides user (ts ++ own) key s snapshot); reflexivity.
Qed.

(** ** One source at a time *)

Lemma consult_spec table run ts : sl_holds user (mt_store table) run -> run_sorted user run ->
  exists ts', consult user table key snapshot ts = (settled_by (ts ++ mt_range_tombstones table) <$> newest (versions_of user run key snapshot), ts') /\ same_hides ts' (ts ++ mt_range_tombstones table).
Proof using All.
  intros Hh Hr. unfold consult. rewrite (mt_get_spec user table run key snapshot Hh Hr Hsn). set (ts' := if has_range_tombstones table then _ else _).
  assert (same_hides ts' (ts ++ mt_range_tombstones table)) as Hsame.
  { apply same_hides_elem. intros t _. unfold ts', has_range_tombstones. case_bool_decide as E; cbn [negb]; [rewrite E; set_solver|]. rewrite extend_elem by done. set_solver. }
  exists ts'. destruct (newest _) as [v|]; [|done]. cbn. rewrite <- (settled_same _ _ v Hsame). destruct v as [[s k] value]. by destruct k.
Qed.
Lemma consult_all_spec tables sources ts : Forall2 (fun table src => sl_holds user (mt_store table) src.1 /\ run_sorted user src.1 /\ mt_range_tombstones table = src.2) tables sources ->
  exists ts', consult_all user tables key snapshot ts = (walk_answer ts sources, ts') /\ (walk_answer ts sources = None -> same_hides ts' (ts ++ mjoin sources.*2)).
Proof using All.
  intros H. revert ts. induction H as [|table [run own] tables sources (Hh & Hr & Ho) _ IH]; intros ts; [exists ts; split; [done|]; intros _ s; cbn; by rewrite app_nil_r|]. cbn [fst snd] in *. subst own.
  destruct (consult_spec table run ts Hh Hr) as (ts1 & Hc & Hs1). cbn [consult_all walk_answer]. rewrite Hc. destruct (newest _) as [v|]; cbn [fmap option_fmap option_map]; [by exists ts1|].
  destruct (IH ts1) as (ts2 & -> & Hs2). rewrite (walk_same ts1 _ sources Hs1) in *. exists ts2. split; [done|]. intros Hn s. rewrite (Hs2 Hn s). cbn. rewrite app_assoc. by apply same_hides_app.
Qed.

Context {C : Type} `{!Cursor C} `{!CursorLaws user C} (table_get : N -> option (TableReader C)).

(** A table as a file of the version names it: its filter never denies a key it
    holds. *)
Record table_holds (file : FileMeta) (src : source) (reader : TableReader C) : Prop := {
  th_get : table_get (fm_number file) = Some reader;
  th_over : cur_over (tr_iter reader) src.1;
  th_sorted : run_sorted user src.1;
  th_tombstones : tr_tombstones reader = src.2;
  th_filter : forall k s e, e ∈ src.1 -> cmp user (extract_user_key e.1) k = Eq -> tr_may_contain reader (lookup_key k s) = true }.

Lemma search_table_spec file run own reader ts collect : table_holds file (run, own) reader -> (collect = false -> own = []) ->
  exists ts', search_table user table_get file (lookup_key key snapshot) key snapshot ts collect = Ok (settled_by (ts ++ own) <$> newest (versions_of user run key snapshot), ts') /\ same_hides ts' (ts ++ own).
Proof using All.
  intros [Hg Ho Hr Ht Hf] Hc. cbn [fst snd] in *. unfold search_table. rewrite Hg, Ht. set (ts' := if collect && _ then _ else _). assert (same_hides ts' (ts ++ own)) as Hsame.
  { apply same_hides_elem. intros t _. unfold ts'. destruct collect; [|rewrite (Hc eq_refl); set_solver]. cbn [andb]. case_bool_decide as E; cbn [negb]; [rewrite E; set_solver|]. rewrite extend_elem by done. set_solver. }
  exists ts'. rewrite run_newest by done. assert (wellformed (lookup_key key snapshot)) as Hwl by (exists key, snapshot, DeleteRange; by rewrite lookup_key_eq).
  destruct (cur_seek_law (tr_iter reader) run _ Ho Hwl) as (rest & Hat & Hv). apply (visits_exact user Forward _ run rest Hr) in Hv. cbn [along] in Hv.
  assert (run_seek user run (lookup_key key snapshot) = head rest) as Hseek. { subst rest. clear. induction run as [|e run IH]; [done|]. cbn [run_seek]. rewrite filter_cons. case_bool_decide as H; [rewrite decide_False by (intros Hn; by apply Hn); done|by rewrite decide_True]. }
  rewrite Hseek. rewrite (cur_at_readable _ _ _ _ Hat), (cur_at_valid _ _ _ _ Hat). destruct rest as [|e rest]; [cbn; destruct (tr_may_contain _ _); done|]. destruct (cur_at_head _ _ _ _ _ Hat) as [Hk Hval]. rewrite Hk, Hval.
  assert (e ∈ run /\ internal_cmp user e.1 (lookup_key key snapshot) <> Lt) as [Hin Hge] by (assert (e ∈ e :: rest) as He by left; rewrite Hv in He; apply list_elem_of_filter in He; tauto).
  clear Hk Hval Hat. destruct Hr as [_ Hw]. rewrite Forall_forall in Hw. destruct (Hw e Hin) as (u & sq & k & Ee & Hsq). specialize (Hf key snapshot e Hin). destruct e as [ek ev]. cbn [fst snd] in *. subst ek. rewrite extract_user_internal in Hf |- *.
  cbn [head mbind option_bind]. rewrite version_of_key, (proj2 (split_internal_key_spec _ u sq k)) by done. rewrite (bool_decide_false (_ :: _ = [])) by done. cbn [negb]. case_bool_decide as Hu; cbn [negb andb]; [rewrite Hf by done; cbn [negb]|by destruct (tr_may_contain _ _)].
  apply not_lt_le in Hge; [|done]. apply lookup_key_seek in Hge; [|done..]. destruct Hge as [Hlt|[_ Hle]]; [rewrite cmp_antisym, Hu in Hlt; done|]. apply N.leb_le in Hle. rewrite Hle. cbn [fmap option_fmap option_map]. rewrite <- (settled_same _ _ (sq, k, ev) Hsame). by destruct k.
Qed.

(** A file of L0: its bounds span its keys and the ranges it deletes. *)
Record l0_holds (file : FileMeta) (src : source) : Prop := {
  l0_table : exists reader, table_holds file src reader;
  l0_keys e k : e ∈ src.1 -> cmp user (extract_user_key e.1) k = Eq -> file_covers user file k = true;
  l0_ranges t k : t ∈ src.2 -> rt_contains user t k = true -> file_covers user file k = true }.

Lemma search_l0_spec files sources ts : Forall2 l0_holds files sources ->
  exists ts', search_l0 user table_get files (lookup_key key snapshot) key snapshot ts = Ok (walk_answer ts sources, ts') /\ (walk_answer ts sources = None -> same_hides ts' (ts ++ mjoin sources.*2)).
Proof using All.
  intros H. revert ts. induction H as [|file [run own] files sources [[reader Ht] Hk Hr] _ IH]; intros ts; [exists ts; split; [done|]; intros _ s; cbn; by rewrite app_nil_r|]. cbn [search_l0 walk_answer].
  destruct (file_covers user file key) eqn:Hcov; cbn [negb].
  - destruct (search_table_spec file run own reader ts true Ht ltac:(done)) as (ts1 & -> & Hs1). cbn [rbind fst snd]. destruct (newest _) as [v|]; cbn [fmap option_fmap option_map]; [by exists ts1|].
    destruct (IH ts1) as (ts2 & -> & Hs2). rewrite (walk_same ts1 _ sources Hs1) in *. exists ts2. split; [done|]. intros Hn s. rewrite (Hs2 Hn s). cbn. rewrite app_assoc. by apply same_hides_app.
  - assert (versions_of user run key snapshot = []) as ->.
    { destruct (versions_of user run key snapshot) as [|v vs] eqn:Ev; [done|]. assert (v ∈ versions_of user run key snapshot) as (e & He & Hv)%elem_of_versions_of by (rewrite Ev; left). unfold version_of in Hv.
      destruct (split_internal_key e.1) as [[[u s] k]|] eqn:Es; [|done]. cbn in Hv. case_bool_decide as Hu; [|done]. rewrite (split_user _ _ _ _ Es) in Hu. by rewrite (Hk e key He Hu) in Hcov. }
    cbn [newest]. assert (same_hides ts (ts ++ own)) as Hs1. { apply same_hides_elem. intros t Hc. rewrite elem_of_app. split; [by left|]. intros [|Ht']; [done|]. by rewrite (Hr t key Ht' Hc) in Hcov. }
    destruct (IH ts) as (ts2 & -> & Hs2). rewrite (walk_same ts _ sources Hs1) in *. exists ts2. split; [done|]. intros Hn s. rewrite (Hs2 Hn s). cbn. rewrite app_assoc. by apply same_hides_app.
Qed.

(** A deeper level: files apart, each as its table says, its largest key the
    last one written. *)
Record level_holds (files : list FileMeta) (src : source) : Prop := {
  lh_none : src.2 = [];
  lh_runs : exists runs, src.1 = mjoin runs /\ level_runs user (fun n => tr_iter <$> table_get n) files runs /\
    Forall2 (fun file run => (exists reader, table_holds file (run, []) reader) /\ exists e, last run = Some e /\ e.1 = fm_largest file) files runs }.

Lemma run_seek_app l l' t : (forall e, e ∈ l -> internal_cmp user e.1 t = Lt) -> run_seek user (l ++ l') t = run_seek user l' t.
Proof using. induction l as [|e l IH]; intros Hl; [done|]. cbn. rewrite bool_decide_true by (apply Hl; left). apply IH. intros x Hx. apply Hl. by right. Qed.
Lemma run_seek_here l l' t e : last l = Some e -> internal_cmp user e.1 t <> Lt -> run_seek user (l ++ l') t = run_seek user l t.
Proof using.
  intros Hl Ht. apply last_Some in Hl as [l0 ->]. clear -Ht. induction l0 as [|x l0 IH]; cbn; [by rewrite bool_decide_false|]. case_bool_decide; [apply IH|done].
Qed.
Lemma run_seek_none l t : (forall e, e ∈ l -> internal_cmp user e.1 t = Lt) -> run_seek user l t = None.
Proof using. intros Hl. rewrite <- (app_nil_r l). by rewrite run_seek_app. Qed.

(** The one file that can answer answers for the level. *)
Lemma level_newest files runs (target := lookup_key key snapshot) : level_runs user (fun n => tr_iter <$> table_get n) files runs ->
  Forall2 (fun file run => (exists reader, table_holds file (run, []) reader) /\ exists e, last run = Some e /\ e.1 = fm_largest file) files runs ->
  let index := partition_by (fun file => bool_decide (internal_cmp user (fm_largest file) target = Lt)) files in
  match files !! index with
  | None => newest (versions_of user (mjoin runs) key snapshot) = None
  | Some file => exists run reader, runs !! index = Some run /\ table_holds file (run, []) reader /\ newest (versions_of user (mjoin runs) key snapshot) = newest (versions_of user run key snapshot) /\
      (file_covers user file key = false -> newest (versions_of user run key snapshot) = None)
  end.
Proof using All.
  intros Hl Ht index. assert (wellformed target) as Hwl by (exists key, snapshot, DeleteRange; split; [apply lookup_key_eq|done]). rewrite run_newest by (done || by eapply level_sorted). fold target.
  destruct (files !! index) as [file|] eqn:Ef.
  - destruct (Forall2_lookup_l _ _ _ _ _ Ht Ef) as (run & Hrun & (reader & Hth) & e & Hlast & Hlarge). exists run, reader. assert (internal_cmp user e.1 target <> Lt) as Hge by (rewrite Hlarge; by apply partition_by_at, bool_decide_eq_false in Ef).
    rewrite run_newest by (done || apply Hth). fold target. split_and!; [done|done| |].
    + rewrite <- (take_drop_middle _ _ _ Hrun), join_app. cbn [mjoin list_join]. rewrite run_seek_app; [by rewrite (run_seek_here run _ target e)|]. intros x (j & r & Hj & Hr & Hx)%elem_of_join_take. by eapply (before_target user _ files runs target j r).
    + intros Hcov. destruct (run_seek user run target) as [x|] eqn:Ex; [|done]. cbn. assert (x ∈ run) as Hx. { clear -Ex. induction run as [|y run IH]; [done|]. cbn in Ex. case_bool_decide; [right; by apply IH|]. injection Ex as ->. left. }
      destruct (run_bounds user _ files runs index run x Hl Hrun Hx) as (f & Hf & Hfr & Hw & Hle & _). rewrite Ef in Hf. injection Hf as <-. destruct (fr_smallest _ _ _ _ Hfr) as (us & ss & ks & Es & Hss). destruct (fr_largest _ _ _ _ Hfr) as (ul & sl & kl & El & Hsl).
      destruct Hw as (u & s & k & Ee & Hs). destruct x as [xk xv]. cbn [fst] in *. subst xk. rewrite version_of_key by done. case_bool_decide as Hu; [|done]. exfalso. rewrite Es in Hle. unfold key_le in Hle. rewrite internal_cmp_keys in Hle by done. unfold version_cmp in Hle.
      rewrite Hlarge, El in Hge. apply not_lt_le in Hge; [|done]. unfold key_le in Hge. unfold target in Hge. rewrite lookup_key_seek in Hge by done.
      unfold file_covers in Hcov. rewrite Es, El, !extract_user_internal in Hcov. apply andb_false_iff in Hcov as [Hcov|Hcov]; apply bool_decide_eq_false in Hcov; apply Hcov.
      * intros Hlt. rewrite <- (cmp_eq_l u key us Hu) in Hlt. rewrite cmp_antisym, Hlt in Hle. done.
      * destruct Hge as [->|[-> _]]; done.
  - rewrite run_seek_none; [done|]. intros x (r & Hx & (j & Hj)%list_elem_of_lookup)%list_elem_of_join. eapply (before_target user _ files runs target j r); [done..|]. apply lookup_ge_None in Ef. apply lookup_lt_Some in Hj. refine (Nat.lt_le_trans _ _ _ _ Ef). by rewrite (Forall2_length _ _ _ Ht).
Qed.

Lemma search_deeper_spec levels sources ts : Forall2 level_holds levels sources ->
  search_deeper user table_get levels (lookup_key key snapshot) key snapshot ts = Ok (walk_answer ts sources).
Proof using All.
  intros H. revert ts. induction H as [|files [run own] levels sources [Hn (runs & Hr & Hl & Ht)] _ IH]; intros ts; [done|]. cbn [fst snd] in *. subst own run. cbn [search_deeper walk_answer].
  pose proof (level_newest files runs Hl Ht) as Hlev. cbn zeta in Hlev. set (index := partition_by _ _) in *. assert (same_hides (ts ++ []) ts) as Hsame by (intros s; by rewrite app_nil_r).
  destruct (files !! index) as [file|]; [|rewrite Hlev, (walk_same _ _ sources Hsame); apply IH]. destruct Hlev as (run & reader & _ & Hth & Hnew & Hcov). rewrite Hnew.
  destruct (file_covers user file key) eqn:Hc; cbn [negb]; [|rewrite (Hcov eq_refl), (walk_same _ _ sources Hsame); apply IH].
  destruct (search_table_spec file run [] reader ts false Hth ltac:(done)) as (ts1 & -> & Hs1). cbn [rbind fst snd]. clear Hnew Hcov. destruct (newest (versions_of user run key snapshot)) as [v|]; cbn [fmap option_fmap option_map]; [reflexivity|]. rewrite IH. f_equal. by apply walk_same.
Qed.
End Walk.

Section Get.
Context (user : Comparator) `{!ComparatorLaws user} {C : Type} `{!Cursor C} `{!CursorLaws user C} (table_get : N -> option (TableReader C)).

(** What a column family holds, source by source. *)
Record cf_holds (cf : CfState) (mems l0 deeper : list source) : Prop := {
  ch_mems : Forall2 (fun table src => sl_holds user (mt_store table) src.1 /\ run_sorted user src.1 /\ mt_range_tombstones table = src.2)
    (cfs_active cf :: reverse (cfs_immutable cf)) mems;
  ch_l0 : Forall2 (l0_holds user table_get) (cf_files (cfs_version cf) 0) l0;
  ch_deeper : Forall2 (level_holds user table_get) (drop 1 (cfs_version cf)) deeper }.

Lemma db_lookup_spec cf mems l0 deeper key snapshot : (snapshot <= MAX_SEQNO)%N -> cf_holds cf mems l0 deeper ->
  db_lookup user table_get cf key snapshot = Ok (walk_answer user key snapshot [] (mems ++ l0 ++ deeper)).
Proof using All.
  intros Hsn [Hm H0 Hd]. unfold db_lookup, search_levels. destruct (consult_all_spec user key snapshot Hsn _ mems [] Hm) as (ts & -> & Hs). rewrite walk_app. destruct (walk_answer user key snapshot [] mems) as [found|]; [done|].
  specialize (Hs eq_refl). destruct (search_l0_spec user key snapshot Hsn table_get _ l0 ts H0) as (ts1 & -> & Hs1). cbn [rbind]. refine (eq_trans _ (f_equal Ok (walk_same user key snapshot ts _ (l0 ++ deeper) Hs))). rewrite walk_app.
  destruct (walk_answer user key snapshot ts l0) as [found|]; [reflexivity|]. rewrite (search_deeper_spec user key snapshot Hsn table_get _ deeper ts1 Hd). f_equal. apply walk_same. by apply Hs1.
Qed.
End Get.

(** C5: a point read finds what the column family holds.  Over memtables, files
    of L0 and deeper levels that are in the order they were written, with bounds
    that span what the files hold and filters that never deny a key that is
    there, the walk reports no error and answers with the newest version visible
    at the snapshot, or with nothing when that is a deletion, when a range
    tombstone of any source hides it or when there is none: stopping at the first
    source that has the key, one file per deeper level, the bounds checks and the
    filters lose nothing. *)
Theorem get_visible (user : Comparator) `{!ComparatorLaws user} {C : Type} `{!Cursor C} `{!CursorLaws user C} (table_get : N -> option (TableReader C))
    (cf : CfState) (mems l0 deeper : list source) (key : bytes) (snapshot : N) :
  let sources := mems ++ l0 ++ deeper in
  (snapshot <= MAX_SEQNO)%N -> cf_holds user table_get cf mems l0 deeper -> StronglySorted (newer_source user key snapshot) sources ->
  db_get_at user table_get cf key snapshot = Ok (visible_value user (mjoin sources.*1) (mjoin sources.*2) key snapshot).
Proof.
  intros sources Hsn Hcf Hs. unfold db_get_at. rewrite (db_lookup_spec user table_get cf mems l0 deeper key snapshot Hsn Hcf). cbn [rbind]. f_equal. fold sources. by rewrite walk_visible.
Qed.

(** A column family with an entry in the memtable, a file of L0 that deletes a
    range and two files below it. *)
Definition l0_file : FileMeta := mkFile 3 1 (internal_key [Byte.x61] 8 Put) (internal_key [Byte.x64] 7 DeleteRange) 7 8 Local.
Definition l0_source : source := ([(internal_key [Byte.x61] 8 Put, [Byte.x08])], [mkTombstone [Byte.x63] [Byte.x64] 7]).
Definition three_tables (number : N) : option (TableReader ListCursor) :=
  if (number =? 3)%N then Some (mkReader l0_source.2 (fun _ => true) (mkListCursor l0_source.1 None))
  else (fun iter => mkReader [] (fun _ => true) iter) <$> two_tables number.
Definition some_cf (table : MemTable) : CfState := mkCf table [] [[l0_file]; [level_file 1 low_run; level_file 2 high_run]].

Lemma some_l0_holds : l0_holds BytewiseComparator (Cursor0 := ListCursorOps BytewiseComparator) (CursorLaws0 := ListCursorLaws BytewiseComparator) three_tables l0_file l0_source.
Proof.
  split.
  - eexists. split; [reflexivity|split; [sorted_run|reflexivity]|sorted_run|reflexivity|done].
  - intros e k He Hk. apply list_elem_of_singleton in He as ->. change (bytes_cmp [Byte.x61] k = Eq) in Hk. apply bytes_cmp_eq in Hk as <-. by vm_compute.
  - intros t k Ht Hk. apply list_elem_of_singleton in Ht as ->. unfold rt_contains in Hk. apply andb_prop in Hk as [Hlo%bool_decide_eq_true Hhi%bool_decide_eq_true]. unfold file_covers. rewrite !bool_decide_true; [done| |].
    + change (cmp BytewiseComparator k [Byte.x64] <> Gt). cbn [rt_end] in Hhi. by rewrite Hhi.
    + cbn [rt_begin] in Hlo. pose proof (cmp_lt_le_trans BytewiseComparator [Byte.x61] [Byte.x63] k eq_refl Hlo) as Hlt. change (cmp BytewiseComparator k [Byte.x61] <> Lt). by rewrite cmp_antisym, Hlt.
Qed.
Lemma some_level_holds :
  level_holds BytewiseComparator (Cursor0 := ListCursorOps BytewiseComparator) (CursorLaws0 := ListCursorLaws BytewiseComparator) three_tables [level_file 1 low_run; level_file 2 high_run] (both_runs, []).
Proof.
  split; [reflexivity|]. exists [low_run; high_run]. split; [reflexivity|]. split.
  - destruct two_tables_runs as [H Ha]. split; [|exact Ha]. inversion_clear H as [|???? H1 H']. inversion_clear H' as [|???? H2 _]. constructor; [|constructor; [|constructor]].
    + destruct H1 as [H1 ?????]. split; [exact H1|done..].
    + destruct H2 as [H2 ?????]. split; [exact H2|done..].
  - constructor; [|constructor; [|constructor]]; (split; [eexists; split; [reflexivity|split; [sorted_run|reflexivity]|sorted_run|reflexivity|done]|by eexists]).
Qed.
Lemma get_visible_witness : exists table, mt_fill BytewiseComparator (MemTable_with_seed 7) [(9%N, Put, [Byte.x62], [Byte.x09])] = Ok table /\
  db_get_at (Cursor0 := ListCursorOps BytewiseComparator) BytewiseComparator three_tables (some_cf table) [Byte.x63] 5 = Ok (Some [Byte.x03]) /\
  db_get_at (Cursor0 := ListCursorOps BytewiseComparator) BytewiseComparator three_tables (some_cf table) [Byte.x63] 9 = Ok None.
Proof.
  destruct (mt_fill BytewiseComparator (MemTable_with_seed 7) [(9%N, Put, [Byte.x62], [Byte.x09])]) as [table|e] eqn:Ef; [|vm_compute in Ef; discriminate].
  destruct (fill_holds BytewiseComparator _ _ table [] Ef) as (run & Hh & Hr & Hp); [apply (new_holds BytewiseComparator)|split; constructor|by repeat constructor|apply (uniq_distinct BytewiseComparator); repeat constructor|].
  apply Permutation_singleton_r in Hp as ->. exists table. split; [reflexivity|].
  assert (mt_range_tombstones table = []) as Ht by (vm_compute in Ef; injection Ef as <-; reflexivity).
  assert (cf_holds BytewiseComparator (Cursor0 := ListCursorOps BytewiseComparator) (CursorLaws0 := ListCursorLaws BytewiseComparator) three_tables (some_cf table)
    [(write_entry <$> [(9%N, Put, [Byte.x62], [Byte.x09])], [])] [l0_source] [(both_runs, [])]) as Hcf.
  { split; [constructor; [|constructor]|constructor; [apply some_l0_holds|constructor]|constructor; [apply some_level_holds|constructor]]. split; [exact Hh|]. split; [exact Hr|exact Ht]. }
  clear Ef. split.
  - rewrite (get_visible BytewiseComparator (CursorLaws0 := ListCursorLaws BytewiseComparator) three_tables (some_cf table) _ _ _ [Byte.x63] 5 ltac:(vm_compute; discriminate) Hcf); [vm_compute; reflexivity|].
    repeat constructor; intros v; set_solver.
  - rewrite (get_visible BytewiseComparator (CursorLaws0 := ListCursorLaws BytewiseComparator) three_tables (some_cf table) _ _ _ [Byte.x63] 9 ltac:(vm_compute; discriminate) Hcf); [vm_compute; reflexivity|].
    repeat constructor; intros v; set_solver.
Defined.
