(* ===== verification/DbTables.v ===== *)
(** The tables behind the read path: a table that was built and is opened again
    (TableBuild, TableRead) is what [DbRead] asks of a table and [LevelCursor] of
    a file, so their theorems hold of the files the engine writes. *)

From stdpp Require Import prelude sorting.
From Stdlib Require Import NArith ZArith Lia.
From S2P Require Import Prelude Endian DbFormat EngineFs RangeDel Lsm Levels Cursor LevelCursor Block SstFormat Bloom SstProps TableBuild TableRead DbRead.

Section Tables.
Context (codec : Codec) {E F : Type} `{Hops : !RandomAccessFile E F} (user : Comparator) `{!ComparatorLaws user}.

Definition table_follows (it : TableIter F) (lc : ListCursor) : Prop :=
  exists t index runs, table_ready codec user t index runs /\ ti_follows user t index runs it lc.
Lemma table_follows_list : Follows user table_follows (Hops := TableIterOps codec).
Proof using All.
  split.
  - intros it lc (t & index & runs & Hr & Hf). by apply (fo_sorted user _ (ti_follows_list codec user t index runs Hr) it).
  - intros it lc (t & index & runs & Hr & Hf). by apply (fo_readable user _ (ti_follows_list codec user t index runs Hr) it lc).
  - intros it lc (t & index & runs & Hr & Hf). by apply (fo_valid user _ (ti_follows_list codec user t index runs Hr) it lc).
  - intros it lc e (t & index & runs & Hr & Hf). by apply (fo_entry user _ (ti_follows_list codec user t index runs Hr) it lc).
  - intros it lc (t & index & runs & Hr & Hf). exists t, index, runs. split; [done|]. by apply (fo_next user _ (ti_follows_list codec user t index runs Hr) it lc).
  - intros it lc (t & index & runs & Hr & Hf). exists t, index, runs. split; [done|]. by apply (fo_prev user _ (ti_follows_list codec user t index runs Hr) it lc).
  - intros it lc target (t & index & runs & Hr & Hf) Ht. exists t, index, runs. split; [done|]. by apply (fo_seek user _ (ti_follows_list codec user t index runs Hr) it lc).
  - intros it lc target (t & index & runs & Hr & Hf) Ht. exists t, index, runs. split; [done|]. by apply (fo_seek_for_prev user _ (ti_follows_list codec user t index runs Hr) it lc).
  - intros it lc (t & index & runs & Hr & Hf). exists t, index, runs. split; [done|]. by apply (fo_first user _ (ti_follows_list codec user t index runs Hr) it lc).
  - intros it lc (t & index & runs & Hr & Hf). exists t, index, runs. split; [done|]. by apply (fo_last user _ (ti_follows_list codec user t index runs Hr) it lc).
Qed.
#[local] Instance TableIterLaws : CursorLaws (Cursor0 := TableIterOps codec) user (TableIter F) := FollowLaws user (Hops := TableIterOps codec) table_follows table_follows_list.

(** [TableCache::get] as the read path sees it: the table of a file number. *)
Definition reader_of (t : OpenTable F) : TableReader (TableIter F) := mkReader (ot_range_tombstones t) (table_may_contain t) (table_iter t).
Definition open_number (options : TableOptions) (files : N -> option F) (cached : N -> N -> option bytes) (number : N) : option (TableReader (TableIter F)) :=
  match files number with
  | None => None
  | Some file => match table_open codec file options (cached number) with Ok t => Some (reader_of t) | Err _ => None end
  end.

(** The filter of the engine's extractor looks at the user key alone. *)
Lemma internal_length u s k : (length (internal_key u s k) <? TAG_LEN)%nat = false.
Proof using. apply Nat.ltb_ge. unfold internal_key, append_internal_key. rewrite !length_app, le_bytes_length. unfold TAG_LEN. lia. Qed.
Lemma filter_key_user inner u s k s' k' : filter_key (Some (InternalPrefixExtractor inner)) (internal_key u s k) = filter_key (Some (InternalPrefixExtractor inner)) (internal_key u s' k').
Proof using. unfold filter_key, InternalPrefixExtractor. cbn [pe_in_domain pe_prefix]. by rewrite !extract_user_internal, !internal_length. Qed.

Lemma opened_holds options inner files cached file file_meta props footer index runs tombstones `{!RandomAccessFileLaws E F} : (forall a b, cmp user a b = Eq -> a = b) -> to_prefix_extractor options = Some (InternalPrefixExtractor inner) ->
  to_comparator options = InternalKeyComparator user -> files (fm_number file_meta) = Some file -> table_image codec options (raf_bytes file) props footer index runs tombstones -> cache_coherent codec (raf_bytes file) (cached (fm_number file_meta)) ->
  run_sorted user (mjoin runs) -> rts_valid (to_comparator options) tombstones ->
  exists reader, table_holds (Cursor0 := TableIterOps codec) (CursorLaws0 := TableIterLaws) user (open_number options files cached) file_meta (mjoin runs, tombstones) reader.
Proof using ComparatorLaws0.
  intros Heq Hext Hcmp Hfile Him Hc Hs Hts. destruct (open_image codec user options file (cached (fm_number file_meta)) props footer index runs tombstones Him Hc Hcmp Hs Hts) as (t & Ho & Hready & Hrt & _ & Hopt & Hm).
  exists (reader_of t). split; cbn [fst snd reader_of tr_tombstones tr_may_contain tr_iter]; [|..|done|].
  - unfold open_number. by rewrite Hfile, Ho.
  - exists (mkListCursor (mjoin runs) None). split; [|by split]. exists t, index, runs. split; [done|]. by apply (iter_follows codec user).
  - done.
  - intros k s e He Hk. destruct Hs as [_ Hw]. rewrite Forall_forall in Hw. destruct (Hw e He) as (u & sq & kind & Ee & _). rewrite Ee, extract_user_internal in Hk. apply Heq in Hk as ->. specialize (Hm e He). rewrite Ee in Hm.
    revert Hm. unfold table_may_contain. rewrite Hopt, Hext, lookup_key_eq. by rewrite (filter_key_user inner k sq kind s DeleteRange).
Qed.
End Tables.

(** C21: within the bounds of [table_roundtrip], the tables the engine writes are
    the tables its read path asks for.  The bounds: entries and encoded
    tombstones of at most 64 MiB each, at most 1024 filter bits per key and
    names of 64 KiB, tombstones valid in the order of the table's internal
    comparator (which bounds of eight bytes and more need not be:
    [range_tombstones_unreadable]), a user comparator whose [Eq] means equal
    bytes, and a new file whose writes succeed.  With the engine's own prefix
    extractor over the user key, a table built from a sorted run, found again
    under its file number, is then a source as [get] and the level cursors
    require it: its cursor is a lawful cursor over the run, its tombstones are
    those it was given, and its filter never denies a lookup of a user key that
    has an entry, whatever the snapshot. *)
Theorem built_tables_serve (codec : Codec) `{!CodecLaws codec} {E W} `{!WritableFile E W} `{!WritableFileLaws E W} `{!ReliableFile E W} {E' R} `{!RandomAccessFile E' R} `{!RandomAccessFileLaws E' R}
    (user : Comparator) `{!ComparatorLaws user} (options : TableOptions) (inner : option PrefixExtractor) (entries : list entry) (tombstones : RangeTombstones) (low high : N) (w0 : W) :
  (forall a b, cmp user a b = Eq -> a = b) -> to_prefix_extractor options = Some (InternalPrefixExtractor inner) ->
  to_comparator options = InternalKeyComparator user -> options_ok options -> wf_bytes w0 = [] ->
  run_sorted user entries -> small entries -> (low < two64)%N -> (high < two64)%N ->
  rts_valid (to_comparator options) tombstones -> (N.of_nat (length (rts_encode tombstones)) <= 67108864)%N ->
  exists t props w, tb_fill codec (TableBuilder_new options w0) entries = Ok t /\
    tb_finish codec (set_range_tombstones tombstones (set_seqno_range low high t)) = Ok (props, w) /\
    forall (files : N -> option R) cached file r, files (fm_number file) = Some r -> raf_bytes r = wf_bytes w -> cache_coherent codec (raf_bytes r) (cached (fm_number file)) ->
    exists reader, table_holds (Cursor0 := TableIterOps codec) (CursorLaws0 := TableIterLaws codec user) user (open_number codec options files cached) file (entries, tombstones) reader.
Proof.
  intros Heq Hext Hcmp Hoo Hw0 Hs Hsmall Hlow Hhigh Hts Htsize.
  destruct (build_image codec user options entries tombstones low high w0) as (t & props & w & footer & index & runs & Hfill & Hfin & Hjoin & Him & _); try done; [apply Hts|].
  exists t, (with_file_size (N.of_nat (length (wf_bytes w))) props), w. split_and!; [done..|]. intros files cached file r Hr Hbytes Hc. rewrite <- Hjoin in Hs |- *. rewrite <- Hbytes in Him. by eapply opened_holds.
Qed.

Definition engine_options : TableOptions := mkTableOptions 40 2 10 (Some (InternalPrefixExtractor None)) Lz4 (InternalKeyComparator BytewiseComparator) [Byte.x65].
Lemma engine_ok : options_ok engine_options.
Proof. split; try done; by vm_compute. Qed.
Lemma built_tables_serve_witness : exists t props w reader,
  tb_fill plain_codec (TableBuilder_new engine_options FileData_default) both_runs = Ok t /\ tb_finish plain_codec (set_range_tombstones [short_tombstone] (set_seqno_range 1 7 t)) = Ok (props, w) /\
  open_number plain_codec engine_options (fun _ => Some w) (fun _ _ => None) 1 = Some reader /\ tr_tombstones reader = [short_tombstone] /\ tr_may_contain reader (lookup_key [Byte.x62] 9) = true.
Proof.
  destruct (built_tables_serve plain_codec (R := FileData) BytewiseComparator engine_options None both_runs [short_tombstone] 1 7 FileData_default) as (t & props & w & Hfill & Hfin & Hserve);
    [intros a b Hab; by apply bytes_cmp_eq|reflexivity|reflexivity|apply engine_ok|reflexivity|apply both_sorted|by vm_compute|reflexivity|reflexivity|apply short_valid|by vm_compute|].
  destruct (Hserve (fun _ => Some w) (fun _ _ => None) (level_file 1 both_runs) w eq_refl eq_refl) as (reader & [Hget _ _ Hts Hfil]); [by left|].
  exists t, props, w, reader. split_and!; [exact Hfill|exact Hfin|exact Hget|exact Hts|]. apply (Hfil [Byte.x62] 9%N (internal_key [Byte.x62] 6 Delete, [])); [by right; right; left|by vm_compute].
Defined.
