(* ===== verification/Compaction.v ===== *)
(** One compaction (esker-engine/src/compaction/job.rs): the rules that decide
    which entries of the merged inputs survive, and the loop that applies them
    to a sorted run and writes what is left. *)

From stdpp Require Import prelude sorting.
From Stdlib Require Import NArith ZArith Lia.
From S2P Require Import Prelude DbFormat RangeDel Lsm.

(** ** The rules *)

Inductive FilterDecision := Keep | Remove.
#[export] Instance FilterDecision_eq_dec : EqDecision FilterDecision.
Proof. solve_decision. Defined.

(** [CompactionFilter::filter]: level, user key, value and the range question. *)
Definition CompactionFilter : Type := nat -> bytes -> bytes -> (bytes -> bytes -> bool) -> FilterDecision.

Record CompactionStats := mkStats {
  entries_read : N;
  entries_written : N;
  dropped_shadowed : N;
  dropped_tombstones : N;
  dropped_by_filter : N;
  dropped_by_range : N;
  files_written : N;
}.
Definition CompactionStats_default : CompactionStats := mkStats 0 0 0 0 0 0 0.

Record CompactionJob := mkJob {
  job_floor : N;
  job_level : nat;
  job_target_file_size : N;
  job_filter : option CompactionFilter;
  job_is_bottom : bytes -> bool;
  job_nothing_below : bytes -> bytes -> bool;
  job_tombstones : RangeTombstones;
}.

(** [CompactionOutput]: where the survivors go. *)
Class CompactionOutput (O E : Type) := {
  out_add : bytes -> bytes -> O -> result E O;
  current_file_size : O -> N;
  finish_file : O -> result E (bool * O) }.

Inductive CompactionError (E : Type) :=
| NoDecodableTag (position : N)
| OutputFailed (error : E)
| InputFailed (error : E).
Arguments NoDecodableTag {E} _.
Arguments OutputFailed {E} _.
Arguments InputFailed {E} _.

Definition count_read (s : CompactionStats) := mkStats (entries_read s + 1) (entries_written s) (dropped_shadowed s) (dropped_tombstones s) (dropped_by_filter s) (dropped_by_range s) (files_written s).
Definition count_written (s : CompactionStats) := mkStats (entries_read s) (entries_written s + 1) (dropped_shadowed s) (dropped_tombstones s) (dropped_by_filter s) (dropped_by_range s) (files_written s).
Definition count_shadowed (s : CompactionStats) := mkStats (entries_read s) (entries_written s) (dropped_shadowed s + 1) (dropped_tombstones s) (dropped_by_filter s) (dropped_by_range s) (files_written s).
Definition count_tombstone (s : CompactionStats) := mkStats (entries_read s) (entries_written s) (dropped_shadowed s) (dropped_tombstones s + 1) (dropped_by_filter s) (dropped_by_range s) (files_written s).
Definition count_filtered (s : CompactionStats) := mkStats (entries_read s) (entries_written s) (dropped_shadowed s) (dropped_tombstones s) (dropped_by_filter s + 1) (dropped_by_range s) (files_written s).
Definition count_ranged (s : CompactionStats) := mkStats (entries_read s) (entries_written s) (dropped_shadowed s) (dropped_tombstones s) (dropped_by_filter s) (dropped_by_range s + 1) (files_written s).
Definition count_file (finished : bool) (s : CompactionStats) :=
  if finished then mkStats (entries_read s) (entries_written s) (dropped_shadowed s) (dropped_tombstones s) (dropped_by_filter s) (dropped_by_range s) (files_written s + 1) else s.

Section Job.
Context (user : Comparator) (job : CompactionJob).

(** What becomes of one entry, given the sequence number of the entry before it
    for the same user key: the kind to write it under, or nothing. *)
Definition job_emit (user_key : bytes) (seqno : N) (kind : EntryKind) (value : bytes) (previous_seqno : N)
    (stats : CompactionStats) : option EntryKind * CompactionStats :=
  if negb (bool_decide (job_tombstones job = [])) &&
     match newest_covering user (job_tombstones job) user_key (job_floor job) with
     | Some covering => (seqno <? covering)%N
     | None => false
     end
  then (None, count_ranged stats)
  else if (previous_seqno <=? job_floor job)%N then (None, count_shadowed stats)
  else if bool_decide (kind = Delete \/ kind = DeleteRange) && (seqno <=? job_floor job)%N && job_is_bottom job user_key
  then (None, count_tombstone stats)
  else if bool_decide (kind = Put) && (seqno <=? job_floor job)%N &&
     match job_filter job with
     | Some filter => bool_decide (filter (job_level job) user_key value (job_nothing_below job) = Remove)
     | None => false
     end
  then (if job_is_bottom job user_key then None else Some Delete, count_filtered stats)
  else (Some kind, stats).

Context {O E : Type} `{!CompactionOutput O E}.

Record JobState := mkJobState {
  js_stats : CompactionStats;
  js_current_user : option bytes;
  js_previous_seqno : N;
  js_output : O;
}.

Definition same_user (user_key : bytes) (current : option bytes) : bool :=
  match current with Some current => bool_decide (cmp user user_key current = Eq) | None => false end.

(** The body of the loop. *)
Definition job_step (st : JobState) (e : entry) : result (CompactionError E) JobState :=
  let stats := count_read (js_stats st) in
  match split_internal_key e.1 with
  | None => Err (NoDecodableTag (entries_read stats))
  | Some (user_key, seqno, kind) =>
      let new_key := negb (same_user user_key (js_current_user st)) in
      let current := if new_key then Some user_key else js_current_user st in
      let previous_seqno := if new_key then u64_max else js_previous_seqno st in
      let '(emit, stats) := job_emit user_key seqno kind e.2 previous_seqno stats in
      match emit with
      | None => Ok (mkJobState stats current seqno (js_output st))
      | Some emit =>
          let? cut :=
            if (job_target_file_size job <=? current_file_size (js_output st))%N
            then rmap_err OutputFailed (finish_file (js_output st)) else Ok (false, js_output st) in
          let '(finished, output) := cut in
          let? output := rmap_err OutputFailed
            (if decide (emit = kind) then out_add e.1 e.2 output else out_add (internal_key user_key seqno emit) [] output) in
          Ok (mkJobState (count_written (count_file finished stats)) current seqno output)
      end
  end.

Fixpoint job_loop (st : JobState) (input : list entry) : result (CompactionError E) JobState :=
  match input with
  | [] => Ok st
  | e :: input => let? st := job_step st e in job_loop st input
  end.

(** [run]: the cursor yields [input] and then its status. *)
Definition job_run (input : list entry) (status : result E unit) (output : O) : result (CompactionError E) (CompactionStats * O) :=
  let? st := job_loop (mkJobState CompactionStats_default None u64_max output) input in
  let? _ := rmap_err InputFailed status in
  let? last := rmap_err OutputFailed (finish_file (js_output st)) in
  let '(finished, output) := last in
  Ok (count_file finished (js_stats st), output).
End Job.

(** ** What survives *)

(** The entries written, as a function of the input alone. *)
Section Survivors.
Context (user : Comparator) (job : CompactionJob).

Definition emitted (e : entry) (user_key : bytes) (seqno : N) (kind : EntryKind) (emit : option EntryKind) : list entry :=
  match emit with
  | None => []
  | Some emit => [if decide (emit = kind) then e else (internal_key user_key seqno emit, [])]
  end.
Fixpoint survivors (current : option bytes) (previous : N) (input : list entry) : list entry :=
  match input with
  | [] => []
  | e :: input =>
      match split_internal_key e.1 with
      | None => []
      | Some (u, s, k) =>
          let same := same_user user u current in
          emitted e u s k (job_emit user job u s k e.2 (if same then previous else u64_max) CompactionStats_default).1 ++
          survivors (if same then current else Some u) s input
      end
  end.
End Survivors.

Section SurvivorLemmas.
Context (user : Comparator) `{!ComparatorLaws user} (job : CompactionJob).

(** After an entry of [u], the current key is [u]'s. *)
Lemma same_user_step u key current :
  same_user user key (if same_user user u current then current else Some u) = bool_decide (cmp user u key = Eq).
Proof using All.
  destruct (same_user user u current) eqn:E.
  - destruct current as [c|]; [|done]. cbn in *. apply bool_decide_eq_true in E. apply bool_decide_ext.
    rewrite (cmp_eq_l u c) by done. by apply cmp_eq_sym.
  - cbn. apply bool_decide_ext. by apply cmp_eq_sym.
Qed.
Lemma same_user_congr u key current : cmp user u key = Eq -> same_user user u current = same_user user key current.
Proof using All. intros E. destruct current as [c|]; [|done]. cbn. by rewrite (cmp_eq_l u key). Qed.

(** What a rule decides depends on the entry before only through the floor. *)
Lemma emit_shadow u s k v previous stats : (previous <= job_floor job)%N -> (job_emit user job u s k v previous stats).1 = None.
Proof using. intros H. unfold job_emit. destruct (_ && _); [done|]. by rewrite (proj2 (N.leb_le _ _)). Qed.
Lemma emit_fresh u s k v previous previous' stats stats' : (job_floor job < previous)%N -> (job_floor job < previous')%N ->
  (job_emit user job u s k v previous stats).1 = (job_emit user job u s k v previous' stats').1.
Proof using.
  intros H H'. unfold job_emit. rewrite (proj2 (N.leb_gt previous _)), (proj2 (N.leb_gt previous' _)) by done.
  by repeat match goal with |- context [if ?b then _ else _] => destruct b end.
Qed.
Lemma emit_kind u s k v previous stats k' : (job_emit user job u s k v previous stats).1 = Some k' -> k' = k \/ k = Put /\ k' = Delete.
Proof using.
  unfold job_emit. do 3 (match goal with |- context [if ?b then (None, _) else _] => destruct b; [done|] end).
  destruct (bool_decide (k = Put) && _ && _) eqn:E; cbn; [|intros [= <-]; by left].
  destruct (job_is_bottom job u); [done|]. intros [= <-]. right. apply andb_true_iff in E as [[E _]%andb_true_iff _]. by apply bool_decide_eq_true in E.
Qed.

(** A version no older than the floor is written as it is. *)
Lemma emit_recent u s k v previous stats : (job_floor job < s)%N -> (job_floor job < previous)%N ->
  (job_emit user job u s k v previous stats).1 = Some k.
Proof using.
  intros Hs Hp. unfold job_emit. rewrite (proj2 (N.leb_gt previous _)), (proj2 (N.leb_gt s _)) by done.
  rewrite !andb_false_r. cbn [andb]. destruct (newest_covering user (job_tombstones job) u (job_floor job)) as [m|] eqn:Em; [|by rewrite andb_false_r].
  destruct (N.ltb_spec s m) as [Hm|]; [|by rewrite andb_false_r].
  assert (rts_hides user (job_tombstones job) u s (job_floor job) = true) as Hh by (apply newest_covering_hides; eauto).
  apply rts_hides_spec in Hh as (t & _ & _ & ?). lia.
Qed.

(** What becomes of a version that nothing newer shadows. *)
Definition fate (u : bytes) (v : version) : option version :=
  let '(s, k, value) := v in
  match (job_emit user job u s k value u64_max CompactionStats_default).1 with
  | None => None
  | Some k' => Some (s, k', if decide (k' = k) then value else [])
  end.

Lemma emitted_versions u s k value emit key snapshot : (s <= MAX_SEQNO)%N ->
  versions_of user (emitted (internal_key u s k, value) u s k emit) key snapshot =
  match emit with
  | Some k' => if bool_decide (cmp user u key = Eq) && (s <=? snapshot)%N then [(s, k', if decide (k' = k) then value else [])] else []
  | None => []
  end.
Proof using.
  intros Hs. destruct emit as [k'|]; [|done]. unfold emitted. rewrite versions_of_cons.
  destruct (decide (k' = k)) as [->|]; rewrite version_of_key by done; by destruct (_ && _).
Qed.

(** Where a survivor came from. *)
Lemma survivors_origin current previous input o : Forall (fun e : entry => wellformed e.1) input -> o ∈ survivors user job current previous input ->
  exists e u s k k', e ∈ input /\ e.1 = internal_key u s k /\ o.1 = internal_key u s k' /\ (s <= MAX_SEQNO)%N /\ (kind_as_u8 k' <= kind_as_u8 k)%N.
Proof using.
  intros Hw. revert current previous; induction Hw as [|[key v] input Hw _ IH]; intros current previous; cbn [survivors]; [by intros ?%not_elem_of_nil|].
  cbn [fst snd] in *. destruct (wellformed_split _ Hw) as (u & s & k & -> & Hs & ->). rewrite elem_of_app. intros [Ho|Ho].
  - destruct (job_emit _ _ _ _ _ _ _ _).1 as [k'|] eqn:Ek; cbn in Ho; [|by apply not_elem_of_nil in Ho]. apply list_elem_of_singleton in Ho as ->.
    exists (internal_key u s k, v), u, s, k, k'. split; [left|]. apply emit_kind in Ek. destruct (decide (k' = k)) as [->|]; [done|].
    destruct Ek as [|[-> ->]]; done.
  - apply IH in Ho as (e & u' & s' & k1 & k2 & ? & ?). exists e, u', s', k1, k2. split; [by right|done].
Qed.

(** Nothing of a key survives once the run is past it. *)
Lemma survivors_later current previous input key snapshot : Forall (fun e : entry => wellformed e.1) input ->
  Forall (fun e : entry => cmp user key (extract_user_key e.1) = Lt) input ->
  versions_of user (survivors user job current previous input) key snapshot = [].
Proof using All.
  intros Hw Hlt. apply later_keys_none; [done|]. apply Forall_forall. intros o Ho.
  apply survivors_origin in Ho as (e & u & s & k & k' & He & Ee & Eo & _ & _); [|done].
  rewrite Forall_forall in Hlt. specialize (Hlt e He). rewrite Eo, extract_user_internal. by rewrite Ee, extract_user_internal in Hlt.
Qed.

Lemma run_after u s k v input key : run_sorted user ((internal_key u s k, v) :: input) -> (s <= MAX_SEQNO)%N -> cmp user key u = Lt ->
  Forall (fun e : entry => cmp user key (extract_user_key e.1) = Lt) input.
Proof using All.
  intros Hr Hs Hlt. apply run_sorted_cons in Hr as ([_ Hw] & _ & Hall). apply Forall_forall. intros e He.
  rewrite Forall_forall in Hw, Hall. apply (cmp_lt_le_trans user key u); [done|]. by apply (before_user_le user u s k); [|apply Hw|apply Hall].
Qed.

(** Once the floor is passed, nothing more of this key is written. *)
Lemma survivors_past_floor current previous input key snapshot : run_sorted user input ->
  Forall (fun e : entry => cmp user key (extract_user_key e.1) <> Gt) input ->
  Forall (fun v => (ver_seqno v <= job_floor job)%N) (versions_of user input key MAX_SEQNO) ->
  same_user user key current = true -> (previous <= job_floor job)%N ->
  versions_of user (survivors user job current previous input) key snapshot = [].
Proof using All.
  revert current previous; induction input as [|[ikey v] input IH]; intros current previous Hrun Hge Hver Hsame Hprev; [done|].
  pose proof (run_sorted_cons _ _ _ Hrun) as (Hr & Hw & _). apply Forall_cons in Hge as [Hge0 Hge]. cbn [survivors fst snd] in *.
  destruct (wellformed_split _ Hw) as (u & s & k & -> & Hs & ->). rewrite extract_user_internal in Hge0.
  rewrite versions_of_cons, version_of_key in Hver by done. rewrite versions_of_app, emitted_versions by done.
  destruct (cmp user u key) eqn:Ec; cbn [bool_decide decide decide_rel] in Hver.
  - rewrite (same_user_congr u key), Hsame, emit_shadow by done. cbn [app].
    rewrite bool_decide_true, (proj2 (N.leb_le _ _)) in Hver by done. apply Forall_cons in Hver as [Hver0 Hver].
    by apply IH.
  - rewrite cmp_antisym, Ec in Hge0. done.
  - rewrite bool_decide_false by done. cbn [andb]. assert (cmp user key u = Lt) as Hlt by by rewrite cmp_antisym, Ec.
    rewrite survivors_later; [by destruct (job_emit _ _ _ _ _ _ _ _).1|apply Hr|by eapply run_after].
Qed.

(** No version is invented. *)
Lemma survivors_seqno current previous input key snapshot v : Forall (fun e : entry => wellformed e.1) input ->
  v ∈ versions_of user (survivors user job current previous input) key snapshot ->
  exists v', v' ∈ versions_of user input key snapshot /\ ver_seqno v' = ver_seqno v.
Proof using.
  intros Hw (o & Ho & Ev)%elem_of_versions_of. apply survivors_origin in Ho as ([ikey v0] & u & s & k & k' & He & Ee & Eo & Hs & _); [|done].
  destruct o as [okey v1]. cbn [fst] in *. subst. rewrite version_of_key in Ev by done.
  destruct (bool_decide (cmp user u key = Eq) && (s <=? snapshot)%N) eqn:E; [|done]. injection Ev as <-. exists (s, k, v0).
  split; [|done]. apply elem_of_versions_of. exists (internal_key u s k, v0). split; [done|]. by rewrite version_of_key, E.
Qed.

(** The rest of a run after a version of the key. *)
Lemma run_rest u s k v input key : run_sorted user ((internal_key u s k, v) :: input) -> (s <= MAX_SEQNO)%N -> cmp user u key = Eq ->
  Forall (fun e : entry => cmp user key (extract_user_key e.1) <> Gt) input /\
  forall snapshot, Forall (fun v => (ver_seqno v <= s)%N) (versions_of user input key snapshot).
Proof using All.
  intros Hrun Hs Ec. pose proof (run_sorted_cons _ _ _ Hrun) as ([_ Hw] & _ & Hall). split.
  - apply Forall_forall. intros e He. rewrite Forall_forall in Hw, Hall. rewrite <- (cmp_eq_l u key) by done.
    by apply (before_user_le user u s k); [|apply Hw|apply Hall].
  - intros snapshot. pose proof (run_versions_sorted user _ key MAX_SEQNO Hrun) as Hd.
    rewrite versions_of_cons, version_of_key, bool_decide_true, (proj2 (N.leb_le _ _)) in Hd by done. cbn [andb] in Hd.
    apply StronglySorted_inv in Hd as [_ Hd]. apply Forall_forall. intros v' ([ikey v0] & He & Ev)%elem_of_versions_of.
    rewrite Forall_forall in Hd. rewrite Forall_forall in Hw. specialize (Hw _ He). destruct (wellformed_split _ Hw) as (u' & s' & k' & Ek & Hs' & _). cbn [fst] in Ek. subst ikey.
    rewrite version_of_key in Ev by done. destruct (bool_decide (cmp user u' key = Eq)) eqn:Eu; [|done]. destruct (s' <=? snapshot)%N; [|done]. injection Ev as <-.
    apply (Hd (s', k', v0)). apply elem_of_versions_of. exists (internal_key u' s' k', v0). split; [done|]. by rewrite version_of_key, Eu, (proj2 (N.leb_le _ _)).
Qed.

(** The newest version a reader may see meets its fate, and nothing older of
    the key takes its place. *)
Lemma survivors_newest current previous input key snapshot : run_sorted user input ->
  (job_floor job <= snapshot)%N -> (snapshot <= MAX_SEQNO)%N -> (same_user user key current = true -> (snapshot < previous)%N) ->
  let kept := newest (versions_of user (survivors user job current previous input) key snapshot) in
  match newest (versions_of user input key snapshot) with
  | None => kept = None
  | Some v => exists u, cmp user u key = Eq /\ kept = fate u v
  end.
Proof using All.
  revert current previous; induction input as [|[ikey v] input IH]; intros current previous Hrun Hfl Hsn Hprev; [done|].
  pose proof (run_sorted_cons _ _ _ Hrun) as (Hr & Hw & _). pose proof (run_versions_sorted user _ key snapshot Hrun) as Hdesc.
  cbn [survivors fst snd] in *. destruct (wellformed_split _ Hw) as (u & s & k & -> & Hs & ->).
  rewrite versions_of_cons, version_of_key in Hdesc |- * by done. rewrite versions_of_app, emitted_versions by done.
  set (previous' := if same_user user u current then previous else u64_max).
  destruct (bool_decide (cmp user u key = Eq) && (s <=? snapshot)%N) eqn:Ev.
  - apply andb_true_iff in Ev as [Ec%bool_decide_eq_true Hle%N.leb_le]. rewrite (newest_head (_ :: _)) by done. cbn [head]. exists u. split; [done|].
    assert (job_floor job < previous')%N as Hp.
    { unfold previous'. rewrite (same_user_congr u key) by done. destruct (same_user user key current); [specialize (Hprev eq_refl); lia|].
      unfold MAX_SEQNO, u64_max in *. lia. }
    destruct (run_rest _ _ _ _ _ _ Hrun Hs Ec) as [Hge Hver]. destruct (N.le_gt_cases s (job_floor job)) as [Hold|Hnew].
    + rewrite survivors_past_floor; [|done|done| |rewrite same_user_step; by apply bool_decide_eq_true|done].
      2:{ eapply Forall_impl; [apply Hver|]. cbn. lia. }
      rewrite app_nil_r. unfold fate. rewrite (emit_fresh u s k v previous' u64_max _ CompactionStats_default); [by destruct (job_emit _ _ _ _ _ _ _ _).1|done|].
      unfold MAX_SEQNO, u64_max in *. lia.
    + rewrite emit_recent by done. rewrite newest_app.
      * unfold fate. rewrite emit_recent; [done|done|]. unfold MAX_SEQNO, u64_max in *. lia.
      * intros v1 v2 ->%list_elem_of_singleton (v3 & Hv3 & <-)%survivors_seqno; [|apply Hr].
        specialize (Hver snapshot). rewrite Forall_forall in Hver. apply (Hver v3 Hv3).
  - destruct (job_emit _ _ _ _ _ _ _ _).1; cbn [app]; (apply IH; [done|done|done|]); rewrite same_user_step;
      intros Ec; rewrite Ec in Ev; cbn in Ev; by apply N.leb_gt in Ev.
Qed.

(** What is written is a sorted run again. *)
Lemma survivors_sorted current previous input : run_sorted user input -> run_sorted user (survivors user job current previous input).
Proof using All.
  revert current previous; induction input as [|[ikey v] input IH]; intros current previous Hrun; [split; constructor|].
  pose proof (run_sorted_cons _ _ _ Hrun) as (Hr & Hw & Hall). cbn [survivors fst snd] in *.
  destruct (wellformed_split _ Hw) as (u & s & k & -> & Hs & ->).
  set (previous' := if same_user user u current then previous else u64_max). set (current' := if same_user user u current then current else Some u).
  destruct (job_emit _ _ _ _ _ _ previous' _).1 as [k'|] eqn:Ek; [|by apply IH].
  destruct (IH current' s Hr) as [Hs' Hw']. assert (exists v', emitted (internal_key u s k, v) u s k (Some k') = [(internal_key u s k', v')]) as [v' ->].
  { unfold emitted. destruct (decide (k' = k)) as [->|]; eauto. }
  cbn [app].
  split; constructor; [done| |by exists u, s, k'|done]. apply Forall_forall. intros o Ho. unfold entry_before. cbn [fst].
  pose proof Ho as (e & u1 & s1 & k1 & k2 & He & Ee & Eo & Hs1 & Hk)%survivors_origin; [|apply Hr].
  rewrite Forall_forall in Hall. specialize (Hall e He). unfold entry_before in Hall. cbn [fst] in Hall. rewrite Ee in Hall. rewrite Eo.
  rewrite internal_cmp_keys in Hall |- * by done. unfold version_cmp in *. destruct (cmp user u u1) eqn:Ec; [|done..].
  destruct (N.le_gt_cases s (job_floor job)) as [Hold|Hnew].
  - destruct (run_rest u s k v input u Hrun Hs (cmp_refl u)) as [Hge Hver].
    assert (versions_of user (survivors user job current' s input) u MAX_SEQNO = []) as Hnone.
    { apply survivors_past_floor; [done|done| |unfold current'; rewrite same_user_step; by apply bool_decide_eq_true, cmp_refl|done].
      eapply Forall_impl; [apply Hver|]. cbn. lia. }
    exfalso. destruct o as [okey ov]. cbn [fst] in Eo. subst okey. 
    enough ((s1, k2, ov) ∈ versions_of user (survivors user job current' s input) u MAX_SEQNO) as X by (rewrite Hnone in X; by apply not_elem_of_nil in X).
    apply elem_of_versions_of. exists (internal_key u1 s1 k2, ov). split; [done|]. rewrite version_of_key by done.
    rewrite bool_decide_true by by apply cmp_eq_sym. by rewrite (proj2 (N.leb_le _ _)).
  - assert (k' = k) as ->.
    { destruct (N.le_gt_cases previous' (job_floor job)) as [Hp|Hp]; [by rewrite emit_shadow in Ek|]. rewrite emit_recent in Ek by done. by injection Ek. }
    destruct (N.compare s1 s); [|done..]. rewrite N.compare_lt_iff in Hall |- *. lia.
Qed.
End SurvivorLemmas.

(** ** The loop writes the survivors *)

(** What an output promises: the entries it has been given, kept in order in
    the files it has finished and the one it has open. *)
Class CompactionOutputLaws (O E : Type) `{!CompactionOutput O E} := {
  out_ok : O -> Prop;
  out_written : O -> list entry;
  out_finished : O -> list entry;
  out_add_law key value o o' : out_ok o -> out_add key value o = Ok o' -> out_ok o' /\ out_written o' = out_written o ++ [(key, value)];
  finish_law o b o' : out_ok o -> finish_file o = Ok (b, o') -> out_ok o' /\ out_written o' = out_written o /\ out_finished o' = out_written o' }.

(** An output on a file system that does not fail takes keys in order. *)
Class CompactionOutputTotal (user : Comparator) (O E : Type) `{!CompactionOutput O E} `{!CompactionOutputLaws O E} : Prop := {
  out_add_total key value o : out_ok o -> Forall (fun e : entry => internal_cmp user e.1 key = Lt) (out_written o) ->
    exists o', out_add key value o = Ok o';
  finish_total o : out_ok o -> exists b o', finish_file o = Ok (b, o') }.

Section Loop.
Context (user : Comparator) (job : CompactionJob) {O E : Type} `{Hout : !CompactionOutput O E} `{Hlaws : !CompactionOutputLaws O E}.

Lemma emit_stats u s k v previous stats stats' : (job_emit user job u s k v previous stats).1 = (job_emit user job u s k v previous stats').1.
Proof using. unfold job_emit. by repeat match goal with |- context [if ?b then _ else _] => destruct b end. Qed.

Lemma rmap_err_ok {E1 E2 A} (f : E1 -> E2) (m : result E1 A) a : rmap_err f m = Ok a -> m = Ok a.
Proof using. destruct m; [by intros [= ->]|done]. Qed.

(** Where an emitted entry goes: a full file is finished first. *)
Definition write_entry (o : O) (stats : CompactionStats) (e : entry) (u : bytes) (s : N) (k emit : EntryKind) : result (CompactionError E) (CompactionStats * O) :=
  let? cut :=
    if (job_target_file_size job <=? current_file_size o)%N
    then rmap_err OutputFailed (finish_file o) else Ok (false, o) in
  let '(finished, output) := cut in
  let? output := rmap_err OutputFailed
    (if decide (emit = k) then out_add e.1 e.2 output else out_add (internal_key u s emit) [] output) in
  Ok (count_written (count_file finished stats), output).

Lemma job_step_eq (st : JobState) e u s k : split_internal_key e.1 = Some (u, s, k) ->
  let same := same_user user u (js_current_user st) in
  let previous := if same then js_previous_seqno st else u64_max in
  let current := if same then js_current_user st else Some u in
  job_step user job (E := E) st e =
  match (job_emit user job u s k e.2 previous (count_read (js_stats st))).1 with
  | None => Ok (mkJobState (job_emit user job u s k e.2 previous (count_read (js_stats st))).2 current s (js_output st))
  | Some emit =>
      let? out := write_entry (js_output st) (job_emit user job u s k e.2 previous (count_read (js_stats st))).2 e u s k emit in
      Ok (mkJobState out.1 current s out.2)
  end.
Proof using.
  intros Es. unfold job_step, write_entry. rewrite Es. destruct (same_user user u (js_current_user st)); cbn [negb].
  all: destruct (job_emit user job u s k e.2 _ _) as [[emit|] stats]; cbn [fst snd]; [|done].
  all: destruct (if (_ <=? _)%N then _ else _) as [[fin o1]|]; cbn [rbind]; [|done]; by destruct (rmap_err _ _).
Qed.

Lemma write_entry_law o stats e u s k emit stats' o' : out_ok o -> write_entry o stats e u s k emit = Ok (stats', o') ->
  out_ok o' /\ out_written o' = out_written o ++ emitted e u s k (Some emit).
Proof using Hlaws.
  intros Hok Hw. unfold write_entry in Hw. destruct (if (_ <=? _)%N then _ else _) as [[fin o1]|] eqn:Ecut in Hw; [|done]. cbn [rbind] in Hw.
  assert (out_ok o1 /\ out_written o1 = out_written o) as [Hok1 Ew].
  { destruct (_ <=? _)%N; [apply rmap_err_ok in Ecut; by apply finish_law in Ecut as (? & ? & _)|by injection Ecut as _ <-]. }
  destruct (rmap_err _ _) as [o2|] eqn:Eadd in Hw; [|done]. injection Hw as _ <-. apply rmap_err_ok in Eadd.
  unfold emitted. rewrite <- Ew. destruct (decide (emit = k)); apply out_add_law in Eadd; try done. by destruct e.
Qed.

Lemma job_loop_written input st st' : out_ok (js_output st) -> job_loop user job (E := E) st input = Ok st' ->
  out_ok (js_output st') /\
  out_written (js_output st') = out_written (js_output st) ++ survivors user job (js_current_user st) (js_previous_seqno st) input.
Proof using Hlaws.
  revert st; induction input as [|e input IH]; intros st Hok; cbn [job_loop survivors]; [intros [= ->]; by rewrite app_nil_r|].
  destruct (split_internal_key e.1) as [[[u s] k]|] eqn:Es; [|unfold job_step; by rewrite Es].
  rewrite (job_step_eq _ _ _ _ _ Es). cbn zeta. set (same := same_user user u (js_current_user st)). set (prev := if same then js_previous_seqno st else u64_max).
  rewrite (emit_stats u s k e.2 prev CompactionStats_default (count_read (js_stats st))).
  destruct (job_emit user job u s k e.2 prev (count_read (js_stats st))) as [[emit|] stats]; cbn [fst snd].
  - destruct (write_entry (js_output st) stats e u s k emit) as [[stats1 o1]|] eqn:Ew; [|done]. cbn [rbind fst snd].
    apply write_entry_law in Ew as [Hok1 Ew]; [|done]. intros Hl. apply IH in Hl as [? ->]; [|done]. cbn [js_output js_current_user js_previous_seqno].
    split; [done|]. by rewrite Ew, app_assoc.
  - cbn [rbind]. intros Hl. by apply IH in Hl.
Qed.

Lemma job_run_written input status o stats o' : out_ok o -> job_run user job (E := E) input status o = Ok (stats, o') ->
  out_finished o' = out_written o ++ survivors user job None u64_max input.
Proof using Hlaws.
  intros Hok. unfold job_run. destruct (job_loop _ _ _ _) as [st|] eqn:El; [|done]. cbn [rbind]. destruct (rmap_err _ status); [|done]. cbn [rbind].
  destruct (rmap_err _ (finish_file _)) as [[b o1]|] eqn:Ef; [|done]. cbn [rbind]. intros [= <- <-].
  apply job_loop_written in El as [Hok' El]; [|done]. apply rmap_err_ok, finish_law in Ef as (_ & Ew & ->); [|done]. by rewrite Ew, El.
Qed.

(** With sorted input and an output that does not fail, the job finishes. *)
Lemma write_entry_total `{!CompactionOutputTotal user O E} o stats e u s k emit rest : out_ok o -> e.1 = internal_key u s k ->
  StronglySorted (entry_before user) (out_written o ++ emitted e u s k (Some emit) ++ rest) -> exists out, write_entry o stats e u s k emit = Ok out.
Proof using Hlaws.
  intros Hok Ee Hs. unfold write_entry.
  assert (exists fin o1, (if (job_target_file_size job <=? current_file_size o)%N then rmap_err (@OutputFailed E) (finish_file o) else Ok (false, o)) = Ok (fin, o1) /\
    out_ok o1 /\ out_written o1 = out_written o) as (fin & o1 & -> & Hok1 & Ew).
  { destruct (_ <=? _)%N; [|by exists false, o]. destruct (finish_total o Hok) as (b & o1 & E1). rewrite E1. apply finish_law in E1 as (? & ? & _); [|done]. by exists b, o1. }
  cbn [rbind]. rewrite <- Ew in Hs. set (key := if decide (emit = k) then e.1 else internal_key u s emit).
  assert (Forall (fun e0 : entry => internal_cmp user e0.1 key = Lt) (out_written o1)) as Hall.
  { apply Forall_forall. intros e0 He0. unfold emitted in Hs. subst key.
    pose proof (StronglySorted_app_1_elem_of _ _ _ e0 (if decide (emit = k) then e else (internal_key u s emit, [])) Hs He0 ltac:(left)) as Hb.
    unfold entry_before in Hb. by destruct (decide (emit = k)). }
  subst key. destruct (decide (emit = k)).
  - destruct (out_add_total e.1 e.2 o1 Hok1 Hall) as [o2 ->]. by eexists.
  - destruct (out_add_total (internal_key u s emit) [] o1 Hok1 Hall) as [o2 ->]. by eexists.
Qed.

Lemma job_loop_total `{!CompactionOutputTotal user O E} input st : out_ok (js_output st) -> Forall (fun e : entry => wellformed e.1) input ->
  StronglySorted (entry_before user) (out_written (js_output st) ++ survivors user job (js_current_user st) (js_previous_seqno st) input) ->
  exists st', job_loop user job (E := E) st input = Ok st'.
Proof using Hlaws.
  intros Hok Hw. revert st Hok; induction Hw as [|e input Hw _ IH]; intros st Hok Hs; cbn [job_loop survivors] in *; [by eexists|].
  destruct (wellformed_split _ Hw) as (u & s & k & Ee & _ & Es). rewrite Es in Hs. rewrite (job_step_eq _ _ _ _ _ Es). cbn zeta.
  revert Hs. set (same := same_user user u (js_current_user st)). set (prev := if same then js_previous_seqno st else u64_max).
  rewrite (emit_stats u s k e.2 prev CompactionStats_default (count_read (js_stats st))).
  destruct (job_emit user job u s k e.2 prev (count_read (js_stats st))) as [[emit|] stats]; cbn [fst snd]; intros Hs.
  - destruct (write_entry_total (js_output st) stats e u s k emit _ Hok Ee Hs) as [[stats1 o1] Ew]. rewrite Ew. cbn [rbind fst snd].
    apply write_entry_law in Ew as [Hok1 Ew]; [|done]. apply IH; [done|]. cbn [js_output js_current_user js_previous_seqno]. by rewrite Ew, <- app_assoc.
  - cbn [rbind]. by apply IH.
Qed.

Lemma job_run_total `{!ComparatorLaws user} `{!CompactionOutputTotal user O E} input o : out_ok o -> out_written o = [] -> run_sorted user input ->
  exists stats o', job_run user job (E := E) input (Ok tt) o = Ok (stats, o') /\ out_finished o' = survivors user job None u64_max input.
Proof using Hlaws.
  intros Hok Hempty Hrun. assert (exists stats o', job_run user job (E := E) input (Ok tt) o = Ok (stats, o')) as (stats & o' & E').
  { unfold job_run. destruct (job_loop_total input (mkJobState CompactionStats_default None u64_max o)) as [st El]; [done|apply Hrun| |].
    { cbn. rewrite Hempty. by apply (survivors_sorted user job None u64_max input). }
    rewrite El. cbn [rbind rmap_err]. apply job_loop_written in El as [Hok' _]; [|done]. destruct (finish_total _ Hok') as (b & o1 & ->). cbn. by eexists _, _. }
  exists stats, o'. split; [done|]. apply job_run_written in E'; [|done]. by rewrite E', Hempty.
Qed.
End Loop.

(** ** Reads do not notice *)

Section Preserve.
Context (user : Comparator) `{!ComparatorLaws user} (job : CompactionJob) (key : bytes) (snapshot : N).

(** Every version of the key in [l] is at least as new as every one in [l']. *)
Definition newer_than (l l' : list entry) : Prop :=
  forall v v', v ∈ versions_of user l key snapshot -> v' ∈ versions_of user l' key snapshot -> (ver_seqno v' <= ver_seqno v)%N.

(** No tombstone being discharged would hide a version outside the inputs. *)
Definition sealed (l : list entry) : Prop :=
  forall d v, d ∈ job_tombstones job -> rt_contains user d key = true -> v ∈ versions_of user l key snapshot -> (rt_seqno d <= ver_seqno v)%N.

(** What the filter was asked about and refused. *)
Definition filtered (value : bytes) : Prop :=
  exists filter u, job_filter job = Some filter /\ cmp user u key = Eq /\ filter (job_level job) u value (job_nothing_below job) = Remove.

Lemma judge_discharged tombstones v : Forall (fun d => (rt_seqno d <= snapshot)%N) (job_tombstones job) ->
  (forall d, d ∈ job_tombstones job -> rt_contains user d key = true -> (rt_seqno d <= ver_seqno v)%N) ->
  judge user (tombstones ++ job_tombstones job) key snapshot (Some v) = judge user tombstones key snapshot (Some v).
Proof using.
  intros Hd Hs. destruct v as [[s k] value]. cbn. destruct k; try done. unfold rts_hides. rewrite existsb_app.
  enough (rts_hides user (job_tombstones job) key s snapshot = false) as H by (unfold rts_hides in H; by rewrite H, orb_false_r).
  apply not_true_is_false. intros (d & Hin & Hc & ? & ?)%rts_hides_spec. specialize (Hs d Hin Hc). cbn in Hs. lia.
Qed.

Lemma covered_hides u s : cmp user u key = Eq ->
  negb (bool_decide (job_tombstones job = [])) && match newest_covering user (job_tombstones job) u (job_floor job) with Some c => (s <? c)%N | None => false end =
  rts_hides user (job_tombstones job) key s (job_floor job).
Proof using All.
  intros Ec. assert (rts_hides user (job_tombstones job) u s (job_floor job) = rts_hides user (job_tombstones job) key s (job_floor job)) as <-.
  { unfold rts_hides. induction (job_tombstones job) as [|d ds IH]; [done|]. cbn. by rewrite IH, (contains_congr user d u key). }
  apply eq_true_iff_eq. rewrite <- newest_covering_hides. split.
  - intros [_ H]%andb_true_iff. destruct (newest_covering _ _ _ _) as [m|]; [|done]. exists m. by rewrite <- N.ltb_lt.
  - intros (m & E & H). rewrite E. apply andb_true_iff. split; [|by apply N.ltb_lt]. apply negb_true_iff, bool_decide_eq_false. intros En. by rewrite En in E.
Qed.

(** The things a fate can be. *)
Lemma fate_cases u s k value : cmp user u key = Eq -> (job_floor job <= MAX_SEQNO)%N ->
  let hidden := rts_hides user (job_tombstones job) key s (job_floor job) in
  fate user job u (s, k, value) = Some (s, k, value) /\ hidden = false \/
  fate user job u (s, k, value) = None /\ hidden = true \/
  hidden = false /\ (k <> Put \/ k = Put /\ filtered value) /\
    (fate user job u (s, k, value) = None /\ job_is_bottom job u = true \/ fate user job u (s, k, value) = Some (s, Delete, [])).
Proof using All.
  intros Ec Hfl. unfold fate, job_emit. rewrite covered_hides by done. cbn zeta.
  destruct (rts_hides user (job_tombstones job) key s (job_floor job)); [cbn; auto|].
  rewrite (proj2 (N.leb_gt _ _)) by (unfold MAX_SEQNO, u64_max in *; lia).
  destruct (bool_decide (k = Delete \/ k = DeleteRange) && _ && _) eqn:Et.
  { apply andb_true_iff in Et as [[Ek _]%andb_true_iff Hb]. apply bool_decide_eq_true in Ek. right; right. split; [done|]. split; [left; by destruct Ek as [->| ->]|by left]. }
  destruct (bool_decide (k = Put) && _ && _) eqn:Ef; [|left; cbn; by rewrite decide_True].
  apply andb_true_iff in Ef as [[Ek _]%andb_true_iff Hf]. apply bool_decide_eq_true in Ek as ->. right; right. split; [done|]. split.
  - right. split; [done|]. destruct (job_filter job) as [filter|] eqn:E; [|done]. apply bool_decide_eq_true in Hf. by exists filter, u.
  - destruct (job_is_bottom job u); [by left|by right].
Qed.

Lemma newest_app_rel l l' : newer_than l l' -> newest (versions_of user (l ++ l') key snapshot) =
  match newest (versions_of user l key snapshot) with Some v => Some v | None => newest (versions_of user l' key snapshot) end.
Proof using. intros H. rewrite versions_of_app. by apply newest_app. Qed.
Lemma newer_than_app_r l l1 l2 : newer_than l l1 -> newer_than l l2 -> newer_than l (l1 ++ l2).
Proof using. intros H1 H2 v v' Hv. rewrite versions_of_app, elem_of_app. intros [|]; [by apply H1|by apply H2]. Qed.

(** A version that would be hidden by a discharged tombstone has none below. *)
Lemma sealed_below input below v : newer_than input below -> sealed below -> newest (versions_of user input key snapshot) = Some v ->
  rts_hides user (job_tombstones job) key (ver_seqno v) (job_floor job) = true -> newest (versions_of user below key snapshot) = None.
Proof using.
  intros Hn Hs Hv (d & Hd & Hc & ? & ?)%rts_hides_spec. apply newest_elem in Hv as [Hv _].
  destruct (newest (versions_of user below key snapshot)) as [v'|] eqn:E; [|done]. apply newest_elem in E as [E _].
  specialize (Hs d v' Hd Hc E). specialize (Hn v v' Hv E). lia.
Qed.

Lemma preserve_read input above below tombstones : run_sorted user input ->
  Forall (fun d => (rt_seqno d <= job_floor job)%N) (job_tombstones job) -> (job_floor job <= snapshot)%N -> (snapshot <= MAX_SEQNO)%N ->
  newer_than above input -> newer_than above below -> newer_than input below -> sealed above -> sealed below ->
  (forall u, cmp user u key = Eq -> job_is_bottom job u = true -> versions_of user input key snapshot <> [] -> versions_of user below key snapshot = []) ->
  let kept := survivors user job None u64_max input in
  let before := visible_value user (above ++ input ++ below) (tombstones ++ job_tombstones job) key snapshot in
  let after := visible_value user (above ++ kept ++ below) tombstones key snapshot in
  after = before \/ after = None /\ exists value, before = Some value /\ filtered value.
Proof using All.
  intros Hrun Hdis Hfl Hsn Hai Hab Hib Hsa Hsb Hbot kept before after.
  assert (newer_than above kept /\ newer_than kept below) as [Hak Hkb].
  { split; intros v v' Hv Hv'; [apply survivors_seqno in Hv' as (w & Hw & <-); [by apply Hai|apply Hrun]|].
    apply survivors_seqno in Hv as (w & Hw & <-); [by apply Hib|apply Hrun]. }
  assert (Forall (fun d => (rt_seqno d <= snapshot)%N) (job_tombstones job)) as Hdis' by (eapply Forall_impl; [exact Hdis|cbn; lia]).
  subst before after. unfold visible_value. rewrite !newest_app_rel by (done || by apply newer_than_app_r).
  destruct (newest (versions_of user above key snapshot)) as [v|] eqn:Ea.
  { left. apply newest_elem in Ea as [Ea _]. rewrite judge_discharged; [done|done|]. intros d Hd Hc. by apply Hsa. }
  pose proof (survivors_newest user job None u64_max input key snapshot Hrun Hfl Hsn) as Hk. cbn zeta in Hk. fold kept in Hk.
  destruct (newest (versions_of user input key snapshot)) as [v|] eqn:Ei.
  2:{ rewrite Hk by done. left. destruct (newest (versions_of user below key snapshot)) as [v|] eqn:Eb; [|done].
      apply newest_elem in Eb as [Eb _]. rewrite judge_discharged; [done|done|]. intros d Hd Hc. by apply Hsb. }
  destruct Hk as (u & Ec & Hk); [done|]. destruct v as [[s k] value]. pose proof (fate_cases u s k value Ec ltac:(lia)) as Hcases. rewrite <- Hk in Hcases. clear Hk.
  destruct Hcases as [[Hk Hhid]|[[Hk Hhid]|(Hhid & Hkind & Hk)]].
  - rewrite Hk. left. rewrite judge_discharged; [done|done|]. intros d Hd Hc. cbn. apply N.le_ngt. intros Hlt.
    rewrite Forall_forall in Hdis. specialize (Hdis d Hd). apply not_true_iff_false in Hhid. apply Hhid, rts_hides_spec. by exists d.
  - rewrite Hk, (sealed_below input below (s, k, value)) by done. left. cbn. destruct k; try done.
    apply rts_hides_spec in Hhid as (d & Hd & Hc & Hlt & Hle). enough (rts_hides user (tombstones ++ job_tombstones job) key s snapshot = true) as -> by done.
    apply rts_hides_spec. exists d. rewrite elem_of_app. split; [by right|]. split; [done|lia].
  - assert (judge user tombstones key snapshot match newest (versions_of user kept key snapshot) with Some v => Some v | None => newest (versions_of user below key snapshot) end = None) as ->.
    { destruct Hk as [[-> Hb]| ->]; [|done]. rewrite (Hbot u Ec Hb); [done|]. intros E. by rewrite E in Ei. }
    destruct Hkind as [Hkind|[-> Hf]]; [left; destruct k; [done|by destruct Hkind|done]|]. cbn.
    destruct (rts_hides user (tombstones ++ job_tombstones job) key s snapshot); [by left|]. right. split; [done|]. by exists value.
Qed.
End Preserve.
