(* ===== verification/TableWriter.v ===== *)
(** The files a compaction writes (esker-engine/src/db/compact.rs,
    [TableWriter]): one table at a time, each described by the [FileMeta] that
    the version edit will name. *)

From stdpp Require Import prelude sorting.
From Stdlib Require Import NArith ZArith Lia.
From S2P Require Import Prelude DbFormat RangeDel Lsm Levels Compaction.

(** What [TableBuilder] promises its callers. *)
Class TableSink (T E : Type) := {
  sink_new : result E T;
  sink_add : bytes -> bytes -> T -> result E T;
  sink_size : T -> N;
  (** Given the range of sequence numbers; answers with the file's size. *)
  sink_finish : N -> N -> T -> result E N }.
Class TableSinkLaws (T E : Type) `{!TableSink T E} := {
  sink_entries : T -> list entry;
  sink_new_law t : sink_new = Ok t -> sink_entries t = [];
  sink_add_law key value t t' : sink_add key value t = Ok t' -> sink_entries t' = sink_entries t ++ [(key, value)] }.
Class TableSinkTotal (user : Comparator) (T E : Type) `{!TableSink T E} `{!TableSinkLaws T E} : Prop := {
  sink_new_total : exists t, sink_new = Ok t;
  sink_add_total key value t : Forall (fun e : entry => internal_cmp user e.1 key = Lt) (sink_entries t) ->
    exists t', sink_add key value t = Ok t';
  sink_finish_total low high t : exists size, sink_finish low high t = Ok size }.

(** ** The writer *)

(** [tw_next] is the version set's next file number, [tw_pending] its register
    of files being written, and [tw_tables] what the finished files hold. *)
Record TableWriter (T : Type) := mkTableWriter {
  tw_next : N;
  tw_pending : list N;
  tw_builder : option (N * T);
  tw_smallest : option bytes;
  tw_largest : bytes;
  tw_smallest_seqno : N;
  tw_largest_seqno : N;
  tw_finished : list FileMeta;
  tw_held : list N;
  tw_tables : list T;
}.
Arguments mkTableWriter {T} _ _ _ _ _ _ _ _ _ _.
Arguments tw_next {T} _.
Arguments tw_pending {T} _.
Arguments tw_builder {T} _.
Arguments tw_smallest {T} _.
Arguments tw_largest {T} _.
Arguments tw_smallest_seqno {T} _.
Arguments tw_largest_seqno {T} _.
Arguments tw_finished {T} _.
Arguments tw_held {T} _.
Arguments tw_tables {T} _.

Section Writer.
Context {T E : Type} `{Hsink : !TableSink T E}.

Definition TableWriter_new (next : N) (pending : list N) : TableWriter T :=
  mkTableWriter next pending None None [] u64_max 0 [] [] [].

(** The first half of [add]: a file is opened when none is. *)
Definition tw_open (w : TableWriter T) : result E (N * T * TableWriter T) :=
  match tw_builder w with
  | Some (number, builder) => Ok (number, builder, w)
  | None =>
      let number := tw_next w in
      let? builder := sink_new in
      Ok (number, builder,
          mkTableWriter (tw_next w + 1) (tw_pending w ++ [number]) (Some (number, builder)) None [] u64_max 0
            (tw_finished w) (tw_held w ++ [number]) (tw_tables w))
  end.
Definition tw_add (key value : bytes) (w : TableWriter T) : result E (TableWriter T) :=
  let? opened := tw_open w in
  let '(number, builder, w) := opened in
  let smallest := Some (default key (tw_smallest w)) in
  let '(low, high) :=
    match extract_tag key with
    | Some tag => (N.min (tw_smallest_seqno w) (tag_seqno tag), N.max (tw_largest_seqno w) (tag_seqno tag))
    | None => (tw_smallest_seqno w, tw_largest_seqno w)
    end in
  let? builder := sink_add key value builder in
  Ok (mkTableWriter (tw_next w) (tw_pending w) (Some (number, builder)) smallest key low high (tw_finished w) (tw_held w) (tw_tables w)).

Definition tw_current_file_size (w : TableWriter T) : N :=
  match tw_builder w with Some (_, builder) => sink_size builder | None => 0%N end.

Definition tw_finish_file (w : TableWriter T) : result E (bool * TableWriter T) :=
  match tw_builder w with
  | None => Ok (false, w)
  | Some (number, builder) =>
      match tw_smallest w with
      | None =>
          Ok (false, mkTableWriter (tw_next w) (filter (.≠ number) (tw_pending w)) None None (tw_largest w)
                       (tw_smallest_seqno w) (tw_largest_seqno w) (tw_finished w) (tw_held w) (tw_tables w))
      | Some smallest =>
          let? size := sink_finish (tw_smallest_seqno w) (tw_largest_seqno w) builder in
          let meta := mkFile number size smallest (tw_largest w) (tw_smallest_seqno w) (tw_largest_seqno w) Local in
          Ok (true, mkTableWriter (tw_next w) (tw_pending w) None None [] (tw_smallest_seqno w) (tw_largest_seqno w)
                      (tw_finished w ++ [meta]) (tw_held w) (tw_tables w ++ [builder]))
      end
  end.

#[export] Instance TableWriterOutput : CompactionOutput (TableWriter T) E :=
  { out_add := tw_add; current_file_size := tw_current_file_size; finish_file := tw_finish_file }.
End Writer.

(** ** What the metadata says *)

Definition entry_seqnos (l : list entry) : list N := omap (fun e : entry => tag_seqno <$> extract_tag e.1) l.
Definition seqno_low (l : list entry) : N := foldl N.min u64_max (entry_seqnos l).
Definition seqno_high (l : list entry) : N := foldl N.max 0%N (entry_seqnos l).

(** First key, last key and the range of the sequence numbers. *)
Definition describes (meta : FileMeta) (l : list entry) : Prop :=
  fst <$> head l = Some (fm_smallest meta) /\ fst <$> last l = Some (fm_largest meta) /\
  fm_smallest_seqno meta = seqno_low l /\ fm_largest_seqno meta = seqno_high l.

Section WriterLaws.
Context {T E : Type} `{Hsink : !TableSink T E} `{Hsl : !TableSinkLaws T E}.

Definition open_entries (w : TableWriter T) : list entry := match tw_builder w with Some (_, b) => sink_entries b | None => [] end.
Definition closed_entries (w : TableWriter T) : list entry := mjoin (sink_entries <$> tw_tables w).

Definition tw_ok (w : TableWriter T) : Prop :=
  Forall2 (fun meta t => describes meta (sink_entries t)) (tw_finished w) (tw_tables w) /\
  match tw_builder w with
  | None => True
  | Some (_, b) =>
      tw_smallest w = fst <$> head (sink_entries b) /\
      tw_smallest_seqno w = seqno_low (sink_entries b) /\ tw_largest_seqno w = seqno_high (sink_entries b) /\
      (sink_entries b <> [] -> fst <$> last (sink_entries b) = Some (tw_largest w))
  end.

Lemma seqnos_snoc l key value : entry_seqnos (l ++ [(key, value)]) = entry_seqnos l ++ match extract_tag key with Some tag => [tag_seqno tag] | None => [] end.
Proof using. unfold entry_seqnos. rewrite omap_app. cbn. by destruct (extract_tag key). Qed.

Lemma tw_open_law w number b w' : tw_ok w -> tw_open w = Ok (number, b, w') ->
  tw_ok w' /\ tw_builder w' = Some (number, b) /\ open_entries w' = open_entries w /\ tw_tables w' = tw_tables w /\ tw_finished w' = tw_finished w.
Proof using All.
  intros Hok. unfold tw_open. destruct (tw_builder w) as [[n b0]|] eqn:Eb; [by intros [= <- <- <-]|].
  destruct sink_new as [b0|] eqn:En; [|done]. cbn. intros [= <- <- <-]. apply sink_new_law in En. destruct Hok as [Hf _].
  unfold open_entries. cbn. rewrite Eb, En. split_and!; try done. split; [done|]. cbn. by rewrite En.
Qed.

Lemma tw_add_law key value w w' : tw_ok w -> tw_add key value w = Ok w' ->
  tw_ok w' /\ tw_tables w' = tw_tables w /\ open_entries w' = open_entries w ++ [(key, value)].
Proof using All.
  intros Hok. unfold tw_add. destruct (tw_open w) as [[[number b] w1]|] eqn:Eo; [|done]. cbn [rbind].
  apply tw_open_law in Eo as ([Hf Hb] & Ebuilder & Eopen & Etab & Efin); [|done]. rewrite Ebuilder in Hb. destruct Hb as (Hs & Hlo & Hhi & _).
  assert (open_entries w = sink_entries b) as Eb by by rewrite <- Eopen; unfold open_entries; rewrite Ebuilder.
  rewrite Eb. rewrite Hs, Hlo, Hhi.
  destruct (match extract_tag key with Some tag => _ | None => _ end) as [low high] eqn:Er.
  destruct (sink_add key value b) as [b'|] eqn:Ea; [|done]. cbn [rbind]. intros [= <-]. apply sink_add_law in Ea. unfold open_entries. cbn.
  split_and!; [|done|done]. split; [done|]. cbn. rewrite Ea. unfold seqno_low, seqno_high in *. rewrite seqnos_snoc, !foldl_app, last_snoc.
  split_and!; [|destruct (extract_tag key); by injection Er as <- <-|destruct (extract_tag key); by injection Er as <- <-|done].
  by destruct (sink_entries b).
Qed.

Lemma tw_finish_law b w w' : tw_ok w -> tw_finish_file w = Ok (b, w') ->
  tw_ok w' /\ tw_builder w' = None /\ closed_entries w' = closed_entries w ++ open_entries w.
Proof using All.
  intros [Hf Hb]. unfold tw_finish_file, closed_entries, open_entries. destruct (tw_builder w) as [[number t]|] eqn:Eb.
  2:{ intros [= <- <-]. unfold tw_ok. rewrite Eb, app_nil_r. done. }
  destruct Hb as (Hs & Hlo & Hhi & Hl). rewrite Hs. destruct (sink_entries t) as [|[k0 v0] l] eqn:Et; cbn [head fmap option_fmap option_map fst].
  { intros [= <- <-]. cbn. rewrite app_nil_r. done. }
  destruct (sink_finish _ _ t) as [size|]; [|done]. cbn. intros [= <- <-]. cbn. split_and!; [|done|by rewrite fmap_app, join_app; cbn; rewrite Et, app_nil_r].
  split; [|done]. cbn. apply Forall2_app; [done|]. constructor; [|done]. rewrite Et. split_and!; cbn; [done|by apply Hl|done|done].
Qed.

#[export] Program Instance TableWriterLaws : CompactionOutputLaws (TableWriter T) E := {
  out_ok := tw_ok;
  out_written w := closed_entries w ++ open_entries w;
  out_finished := closed_entries }.
Next Obligation.
  intros key value w w' Hok E1. apply tw_add_law in E1 as (? & Et & ->); [|done]. split; [done|]. unfold closed_entries. by rewrite Et, app_assoc.
Qed.
Next Obligation.
  intros w b w' Hok E1. apply tw_finish_law in E1 as (? & Eb & Ec); [|done]. 
  assert (open_entries w' = []) as Ho by (unfold open_entries; by rewrite Eb). by rewrite Ho, app_nil_r.
Qed.
End WriterLaws.

Section WriterTotal.
Context (user : Comparator) {T E : Type} `{Hsink : !TableSink T E} `{Hsl : !TableSinkLaws T E} `{Hst : !TableSinkTotal user T E}.

#[export] Instance TableWriterTotal : CompactionOutputTotal user (TableWriter T) E.
Proof using Hst.
  split.
  - intros key value w Hok Hall. cbn. unfold tw_add. assert (exists opened, tw_open w = Ok opened) as [[[number b] w1] Eo].
    { unfold tw_open. destruct (tw_builder w) as [[n b]|]; [by eexists|]. destruct (sink_new_total (user := user)) as [t ->]. by eexists. }
    rewrite Eo. cbn [rbind]. apply tw_open_law in Eo as (_ & Eb & Eopen & _); [|done].
    destruct (match extract_tag key with Some tag => _ | None => _ end) as [low high].
    destruct (sink_add_total (user := user) key value b) as [b' ->]; [|by eexists].
    apply Forall_app in Hall as [_ Hall]. rewrite <- Eopen in Hall. unfold open_entries in Hall. by rewrite Eb in Hall.
  - intros w _. cbn. unfold tw_finish_file. destruct (tw_builder w) as [[number b]|]; [|by eexists _, _].
    destruct (tw_smallest w); [|by eexists _, _]. destruct (sink_finish_total (user := user) (tw_smallest_seqno w) (tw_largest_seqno w) b) as [size ->]. by eexists _, _.
Qed.
End WriterTotal.

(** ** The files of one compaction *)

Section Files.
Context (user : Comparator) `{!ComparatorLaws user}.

(** Consecutive pieces of a sorted run do not overlap. *)
Lemma pieces_disjoint level metas (pieces : list (list entry)) : Forall2 describes metas pieces -> StronglySorted (entry_before user) (mjoin pieces) ->
  check_disjoint user level metas = Ok tt.
Proof using.
  intros Hd. induction Hd as [|a l metas pieces Ha Hd IH]; [done|]. intros Hs.
  change (mjoin (l :: pieces)) with (l ++ mjoin pieces) in Hs. specialize (IH (StronglySorted_app_1_r _ _ _ Hs)).
  destruct Hd as [|b l' metas pieces Hb Hd]; [done|]. cbn [check_disjoint].
  destruct Ha as (_ & Ha & _), Hb as (Hb & _). destruct (last l) as [x|] eqn:Ex; [|done]. destruct l' as [|y l']; [done|].
  apply last_Some in Ex as [l0 ->]. cbn in Ha, Hb. injection Ha as Ha. injection Hb as Hb.
  rewrite bool_decide_true; [done|]. rewrite <- Ha, <- Hb.
  apply (StronglySorted_app_1_elem_of _ _ _ x y Hs); [apply elem_of_app; right; left|left].
Qed.

Context {T E : Type} `{Hsink : !TableSink T E} `{Hsl : !TableSinkLaws T E} `{Hst : !TableSinkTotal user T E}.

Lemma job_run_files job input next pending : run_sorted user input ->
  exists stats w, job_run user job input (Ok tt) (TableWriter_new next pending) = Ok (stats, w) /\
    Forall2 describes (tw_finished w) (sink_entries <$> tw_tables w) /\ mjoin (sink_entries <$> tw_tables w) = survivors user job None u64_max input.
Proof using All.
  intros Hrun. assert (out_ok (O := TableWriter T) (E := E) (TableWriter_new next pending)) as Hnew by by split.
  destruct (job_run_total user job input (TableWriter_new next pending) Hnew eq_refl Hrun) as (stats & w & Er & Ew).
  exists stats, w. split; [done|]. split; [|done]. apply Forall2_fmap_r.
  unfold job_run in Er. destruct (job_loop _ _ _ _) as [st|] eqn:El; [|done]. cbn [rbind rmap_err] in Er.
  destruct (job_loop_written user job input (mkJobState CompactionStats_default None u64_max (TableWriter_new next pending)) st Hnew El) as [Hok _]. destruct (finish_file (js_output st)) as [[b w1]|] eqn:Ef; [|done]. cbn [rbind rmap_err] in Er. injection Er as _ ->.
  destruct (finish_law _ _ _ Hok Ef) as ([Hf _] & _). done.
Qed.
End Files.

(** A table held in memory, which refuses a key out of order as
    [TableBuilder::add] does. *)
Inductive MemTableError := KeyOutOfOrder.
Definition MemTableSink : Type := list entry.
Definition MemTableSink_add (user : Comparator) (key value : bytes) (t : MemTableSink) : result MemTableError MemTableSink :=
  match last t with
  | Some e => if bool_decide (internal_cmp user e.1 key = Lt) then Ok (t ++ [(key, value)]) else Err KeyOutOfOrder
  | None => Ok (t ++ [(key, value)])
  end.
Definition MemTableSink_size (t : MemTableSink) : N := foldr N.add 0%N ((fun e : entry => N.of_nat (length e.1 + length e.2)) <$> t).

#[export] Instance MemSink : TableSink MemTableSink MemTableError :=
  { sink_new := Ok []; sink_add := MemTableSink_add BytewiseComparator; sink_size := MemTableSink_size; sink_finish _ _ t := Ok (MemTableSink_size t) }.
#[export] Program Instance MemSinkLaws : TableSinkLaws MemTableSink MemTableError := { sink_entries t := t }.
Next Obligation. by intros t [= <-]. Qed.
Next Obligation. intros key value t t'. cbn. unfold MemTableSink_add. destruct (last t); [case_bool_decide; [|done]|]; by intros [= <-]. Qed.
#[export] Instance MemSinkTotal : TableSinkTotal BytewiseComparator MemTableSink MemTableError.
Proof.
  split; [by eexists| |by eexists]. intros key value t Hall. cbn in *. unfold MemTableSink_add. destruct (last t) as [e|] eqn:El; [|by eexists].
  apply last_Some in El as [l ->]. rewrite Forall_forall in Hall. rewrite bool_decide_true; [by eexists|]. apply Hall, elem_of_app. right. left.
Qed.

(** ** The claims *)

(** C3: reads do not notice a compaction.  Run over a sorted input and
    an output that does not fail, the job finishes and writes a sorted run; and
    for every key and every reader at or above the floor, what the reader finds
    in the newer sources, the files written and the older sources, with the
    discharged tombstones gone, is what it found before, unless the compaction
    filter refused that very value, which then reads as deleted.  It asks that
    the three groups of sources are ordered by age for the key, that a tombstone
    dropped at the bottom has nothing below it, and that no discharged
    tombstone, all at or below the floor, hides anything outside the inputs. *)
Theorem compaction_preserves user `{!ComparatorLaws user} {T E} `{!TableSink T E} `{!TableSinkLaws T E} `{!TableSinkTotal user T E}
    job input next pending above below tombstones key snapshot : run_sorted user input ->
  can_discharge (job_tombstones job) (job_floor job) = true -> (job_floor job <= snapshot)%N -> (snapshot <= MAX_SEQNO)%N ->
  newer_than user key snapshot above input -> newer_than user key snapshot above below -> newer_than user key snapshot input below ->
  sealed user job key snapshot above -> sealed user job key snapshot below ->
  (forall u, cmp user u key = Eq -> job_is_bottom job u = true -> versions_of user input key snapshot <> [] -> versions_of user below key snapshot = []) ->
  exists stats w, job_run user job input (Ok tt) (TableWriter_new next pending) = Ok (stats, w) /\
    let written := mjoin (sink_entries <$> tw_tables w) in
    let before := visible_value user (above ++ input ++ below) (tombstones ++ job_tombstones job) key snapshot in
    let after := visible_value user (above ++ written ++ below) tombstones key snapshot in
    run_sorted user written /\ (after = before \/ after = None /\ exists value, before = Some value /\ filtered user job key value).
Proof.
  intros Hrun Hdis Hfl Hsn Hai Hab Hib Hsa Hsb Hbot. destruct (job_run_files user job input next pending Hrun) as (stats & w & Er & _ & Ew).
  exists stats, w. split; [done|]. cbn zeta. rewrite Ew. split; [by apply survivors_sorted|]. apply preserve_read; try done.
  unfold can_discharge in Hdis. apply Forall_forall. intros d Hd. rewrite forallb_forall in Hdis. apply N.leb_le, Hdis. by apply list_elem_of_In.
Qed.

(** The files of a compaction are a partition of what it wrote.  Over a
    sorted input the job finishes; the entries that survive are the tables it
    wrote, one after the other; each file's metadata names the first and the
    last key of its table and the range of its sequence numbers; and the files
    pass the version builder's check that a level below L0 does not overlap. *)
Theorem compaction_files user `{!ComparatorLaws user} {T E} `{!TableSink T E} `{!TableSinkLaws T E} `{!TableSinkTotal user T E}
    job input next pending level : run_sorted user input ->
  exists stats w, job_run user job input (Ok tt) (TableWriter_new next pending) = Ok (stats, w) /\
    Forall2 describes (tw_finished w) (sink_entries <$> tw_tables w) /\
    mjoin (sink_entries <$> tw_tables w) = survivors user job None u64_max input /\
    check_disjoint user level (tw_finished w) = Ok tt.
Proof.
  intros Hrun. destruct (job_run_files user job input next pending Hrun) as (stats & w & Er & Hd & Ew). exists stats, w.
  split_and!; [done..|]. eapply pieces_disjoint; [done|]. rewrite Ew. by apply survivors_sorted.
Qed.

(** ** A compaction of two keys *)

Definition key_a : bytes := [Byte.x61].
Definition key_b : bytes := [Byte.x62].
Definition sample_input : list entry :=
  [(internal_key key_a 7 Put, [Byte.x07]); (internal_key key_a 4 Put, [Byte.x04]); (internal_key key_a 2 Put, [Byte.x02]);
   (internal_key key_b 3 Delete, [])].
Definition sample_job : CompactionJob :=
  mkJob 5 0 10 None (fun u => bool_decide (u = key_b)) (fun _ _ => false) [mkTombstone [Byte.x00] [Byte.x61] 1].

Lemma sample_sorted : run_sorted BytewiseComparator sample_input.
Proof. sorted_run. Qed.

Definition sample_run : result (CompactionError MemTableError) (CompactionStats * TableWriter MemTableSink) :=
  job_run BytewiseComparator sample_job sample_input (Ok tt) (TableWriter_new 10 []).

Lemma compaction_preserves_witness : exists stats w, sample_run = Ok (stats, w) /\
  tw_tables w = [[(internal_key key_a 7 Put, [Byte.x07])]; [(internal_key key_a 4 Put, [Byte.x04])]] /\
  visible_value BytewiseComparator ([] ++ mjoin (sink_entries <$> tw_tables w) ++ [(internal_key key_a 1 Put, [Byte.x01])]) [] key_a 6 = Some [Byte.x04].
Proof.
  destruct (compaction_preserves BytewiseComparator sample_job sample_input 10 [] [] [(internal_key key_a 1 Put, [Byte.x01])] [] key_a 6 sample_sorted)
    as (stats & w & Er & _ & H).
  - by vm_compute.
  - by vm_compute.
  - by vm_compute.
  - by intros v v' Hv%elem_of_nil.
  - by intros v v' Hv%elem_of_nil.
  - intros v v' Hv Hv'. vm_compute in Hv, Hv'. apply list_elem_of_singleton in Hv' as ->. apply elem_of_cons in Hv as [->|Hv]; [by vm_compute|]. by apply list_elem_of_singleton in Hv as ->.
  - by intros d v _ _ Hv%elem_of_nil.
  - intros d v Hd. vm_compute in Hd. apply list_elem_of_singleton in Hd as ->. by intros Hc%bool_decide_eq_true || by vm_compute.
  - intros u Eu Hb. apply bool_decide_eq_true in Hb as ->. by vm_compute in Eu.
  - exists stats, w. assert (sample_run = Ok (stats, w)) as Es by exact Er. split; [done|]. clear Er. vm_compute in Es. injection Es as <- <-. split; [done|]. 
    destruct H as [H|[_ (v & _ & f & u & Hf & _)]]; [etrans; [exact H|by vm_compute]|done].
Defined.

Lemma compaction_files_witness : exists stats w, sample_run = Ok (stats, w) /\ check_disjoint BytewiseComparator 1 (tw_finished w) = Ok tt.
Proof.
  destruct (compaction_files BytewiseComparator sample_job sample_input 10 [] 1 sample_sorted) as (stats & w & Er & _ & _ & Hc). by exists stats, w.
Defined.
