(* ===== verification/PdRecord.v ===== *)
(** What the placement driver stores and what it writes into its Raft log:
    the records of [esker-pd/src/record.rs] and the commands of
    [esker-pd/src/command.rs], with their encoders and strict decoders.

    [Stored] is the interface of a format: an encoder, a decoder and the values
    a build can hold.  [StoredLaws] says the decoder accepts exactly what the
    encoder writes of those values; every record and the command discharge it. *)

From Stdlib Require Import Strings.String Strings.Byte.
From stdpp Require Import prelude.
From Stdlib Require Import NArith ZArith Lia.
From S2P Require Import Prelude Varint Endian Utf8 ProtoCodec.

(** ** [error.rs] *)

(** The prose the variants carry is not kept. *)
Inductive PdError :=
  | PdEngine
  | PdCorrupt (what : string)
  | PdNotBootstrapped
  | PdClusterMismatch (expected actual : N)
  | PdNotLeader (leader_id : N) (leader_address : bytes)
  | PdInvalid
  | PdInternal.

(** ** The records *)

Definition RECORD_VERSION : byte := x01.

Record ClusterRecord := mkCluster { cr_cluster_id : N; cr_first_region_id : N; cr_created_ms : N }.
Record AllocRecord := mkAlloc { ar_allocated_end : N }.
Record TsoRecord := mkTso { tr_high_water_ms : N }.
Record StoreStats := mkStats {
  ss_capacity : N;
  ss_available : N;
  ss_region_count : N;
  ss_leader_count : N;
  ss_applied_bytes : N;
}.
Definition StoreStats_default : StoreStats := mkStats 0 0 0 0 0.
Record StoreRecord := mkStore {
  sr_store_id : N;
  sr_address : bytes;
  sr_started_ms : N;
  sr_last_heartbeat_ms : N;
  sr_stats : StoreStats;
}.
Record RegionRecord := mkRegionRecord {
  rr_region : Region;
  rr_leader_peer_id : N;
  rr_term : N;
  rr_approximate_size : N;
  rr_applied_index : N;
  rr_last_heartbeat_ms : N;
}.
Definition RegionRecord_new (region : Region) (now_ms : N) : RegionRecord := mkRegionRecord region 0 0 0 0 now_ms.

Record ColumnarWish := mkWish { cw_start_key : bytes; cw_end_key : bytes; cw_replicas : byte }.
Record ColumnarRecord := mkColumnar { cl_wishes : list ColumnarWish }.

Inductive EventKind := EvAddPeer | EvRemovePeer | EvTransferLeader | EvAddLearner.
Inductive EventOutcome := EvIssued | EvDone | EvCancelled | EvTimedOut.
Definition event_kind_as_u8 (k : EventKind) : byte :=
  match k with EvAddPeer => x01 | EvRemovePeer => x02 | EvTransferLeader => x03 | EvAddLearner => x04 end.
Definition event_kind_from_u8 (b : byte) : option EventKind :=
  match b with x01 => Some EvAddPeer | x02 => Some EvRemovePeer | x03 => Some EvTransferLeader | x04 => Some EvAddLearner | _ => None end.
Definition outcome_as_u8 (o : EventOutcome) : byte :=
  match o with EvIssued => x01 | EvDone => x02 | EvCancelled => x03 | EvTimedOut => x04 end.
Definition outcome_from_u8 (b : byte) : option EventOutcome :=
  match b with x01 => Some EvIssued | x02 => Some EvDone | x03 => Some EvCancelled | x04 => Some EvTimedOut | _ => None end.
Record OperatorEvent := mkEvent {
  oe_at_ms : N;
  oe_region_id : N;
  oe_kind : EventKind;
  oe_outcome : EventOutcome;
  oe_store_id : N;
  oe_peer_id : N;
}.
Definition HISTORY_CAPACITY : nat := 64.
Record HistoryRecord := mkHistory { hr_events : list OperatorEvent }.

(** [HistoryRecord::push]: the oldest events make room. *)
Definition history_push (h : HistoryRecord) (event : OperatorEvent) : HistoryRecord :=
  let events :=
    if decide (HISTORY_CAPACITY <= length (hr_events h))
    then drop (length (hr_events h) - HISTORY_CAPACITY + 1) (hr_events h)
    else hr_events h in
  mkHistory (events ++ [event]).

(** [overlaps]: two half-open ranges share a key; an empty end is the end of
    the key space. *)
Definition ranges_overlap (a_start a_end b_start b_end : bytes) : bool :=
  let a_before_b := negb (bytes_is_empty a_end) && bytes_leb a_end b_start in
  let b_before_a := negb (bytes_is_empty b_end) && bytes_leb b_end a_start in
  negb a_before_b && negb b_before_a.

Definition wanted_for (self : ColumnarRecord) (start stop : bytes) : N :=
  foldr N.max 0%N
    ((fun w => b2n (cw_replicas w)) <$>
     List.filter (fun w => ranges_overlap start stop (cw_start_key w) (cw_end_key w)) (cl_wishes self)).

(** ** Their encoders *)

Definition rec_start (out : Encoder) : Encoder := out |> put_u8 RECORD_VERSION.

Definition cluster_encode (self : ClusterRecord) : bytes :=
  [] |> rec_start |> put_varint (cr_cluster_id self) |> put_varint (cr_first_region_id self) |> put_varint (cr_created_ms self).
Definition alloc_encode (self : AllocRecord) : bytes := [] |> rec_start |> put_varint (ar_allocated_end self).
Definition tso_encode (self : TsoRecord) : bytes := [] |> rec_start |> put_varint (tr_high_water_ms self).
Definition store_encode (self : StoreRecord) : bytes :=
  let stats := sr_stats self in
  [] |> rec_start |> put_varint (sr_store_id self) |> put_str (sr_address self)
     |> put_varint (sr_started_ms self) |> put_varint (sr_last_heartbeat_ms self)
     |> put_varint (ss_capacity stats) |> put_varint (ss_available stats) |> put_varint (ss_region_count stats)
     |> put_varint (ss_leader_count stats) |> put_varint (ss_applied_bytes stats).

Definition encode_region (region : Region) (out : Encoder) : Encoder :=
  foldl (fun out peer => out |> put_varint (pe_store_id peer) |> put_varint (pe_peer_id peer) |> put_u8 (role_as_u8 (pe_role peer)))
    (out |> put_varint (rg_id region) |> put_bytes (rg_start_key region) |> put_bytes (rg_end_key region)
         |> put_varint (ep_conf_ver (rg_epoch region)) |> put_varint (ep_version (rg_epoch region))
         |> put_varint (N.of_nat (length (rg_peers region))))
    (rg_peers region).
Definition region_encode (self : RegionRecord) : bytes :=
  [] |> rec_start |> encode_region (rr_region self) |> put_varint (rr_leader_peer_id self) |> put_varint (rr_term self)
     |> put_varint (rr_approximate_size self) |> put_varint (rr_applied_index self) |> put_varint (rr_last_heartbeat_ms self).

Definition columnar_encode (self : ColumnarRecord) : bytes :=
  foldl (fun out w => out |> put_bytes (cw_start_key w) |> put_bytes (cw_end_key w) |> put_u8 (cw_replicas w))
    ([] |> rec_start |> put_varint (N.of_nat (length (cl_wishes self)))) (cl_wishes self).

Definition put_event (event : OperatorEvent) (out : Encoder) : Encoder :=
  out |> put_varint (oe_at_ms event) |> put_varint (oe_region_id event) |> put_u8 (event_kind_as_u8 (oe_kind event))
      |> put_u8 (outcome_as_u8 (oe_outcome event)) |> put_varint (oe_store_id event) |> put_varint (oe_peer_id event).
Definition history_encode (self : HistoryRecord) : bytes :=
  foldl (fun out event => out |> put_event event)
    ([] |> rec_start |> put_varint (N.of_nat (length (hr_events self)))) (hr_events self).

Definition encode_range_entry (region_id : N) : bytes := [] |> rec_start |> put_varint region_id.

(** ** Their decoders *)

(** [.map_err(field(WHAT))]. *)
Definition fld {A} (what : string) (get : Decoder -> result DecodeError (A * Decoder)) (d : Decoder) : result PdError (A * Decoder) :=
  rmap_err (fun _ => PdCorrupt what) (get d).

Definition rec_open (what : string) (bs : bytes) : result PdError Decoder :=
  let? (version, input) := fld what (get_u8 "record.version") (Decoder_new bs) in
  if decide (version = RECORD_VERSION) then Ok input else Err (PdCorrupt what).
Definition rec_close (what : string) (input : Decoder) : result PdError unit :=
  rmap_err (fun _ => PdCorrupt what) (de_finish input).

(** [open(WHAT, bytes)?], the fields, [close(WHAT, input)?]. *)
Definition sealed {A} (what : string) (fields : Decoder -> result PdError (A * Decoder)) (bs : bytes) : result PdError A :=
  let? input := rec_open what bs in
  let? (record, input) := fields input in
  let? _ := rec_close what input in
  Ok record.

(** [get_count] and the [for] loop that pushes what it counts. *)
Definition get_many {A} (what field : string) (get : Decoder -> result PdError (A * Decoder)) (d : Decoder) : result PdError (list A * Decoder) :=
  let? (count, d) := fld what (get_count field) d in get_list get count d.

Definition cluster_decode (bs : bytes) : result PdError ClusterRecord :=
  let? record := sealed "cluster" (fun d =>
    let? (cluster_id, d) := fld "cluster" (get_varint "cluster.id") d in
    let? (first_region_id, d) := fld "cluster" (get_varint "cluster.first_region") d in
    let? (created_ms, d) := fld "cluster" (get_varint "cluster.created_ms") d in
    Ok (mkCluster cluster_id first_region_id created_ms, d)) bs in
  if (cr_cluster_id record =? 0)%N then Err (PdCorrupt "cluster") else Ok record.
Definition alloc_decode : bytes -> result PdError AllocRecord :=
  sealed "alloc" (fun d => let? (allocated_end, d) := fld "alloc" (get_varint "alloc.end") d in Ok (mkAlloc allocated_end, d)).
Definition tso_decode : bytes -> result PdError TsoRecord :=
  sealed "tso" (fun d => let? (high_water_ms, d) := fld "tso" (get_varint "tso.high_water_ms") d in Ok (mkTso high_water_ms, d)).

Definition store_decode : bytes -> result PdError StoreRecord :=
  sealed "store" (fun d =>
    let? (store_id, d) := fld "store" (get_varint "store.id") d in
    let? (address, d) := fld "store" (get_str "store.address") d in
    let? (started_ms, d) := fld "store" (get_varint "store.started_ms") d in
    let? (last_heartbeat_ms, d) := fld "store" (get_varint "store.last_beat") d in
    let? (capacity, d) := fld "store" (get_varint "store.capacity") d in
    let? (available, d) := fld "store" (get_varint "store.available") d in
    let? (region_count, d) := fld "store" (get_varint "store.regions") d in
    let? (leader_count, d) := fld "store" (get_varint "store.leaders") d in
    let? (applied_bytes, d) := fld "store" (get_varint "store.applied_bytes") d in
    Ok (mkStore store_id address started_ms last_heartbeat_ms (mkStats capacity available region_count leader_count applied_bytes), d)).

Definition decode_peer (what : string) (d : Decoder) : result PdError (Peer * Decoder) :=
  let? (store_id, d) := fld what (get_varint "peer.store_id") d in
  let? (peer_id, d) := fld what (get_varint "peer.peer_id") d in
  let? (b, d) := fld what (get_u8 "peer.role") d in
  match role_from_u8 b with
  | Some role => Ok (mkPeer store_id peer_id role, d)
  | None => Err (PdCorrupt what)
  end.
Definition decode_region (what : string) (d : Decoder) : result PdError (Region * Decoder) :=
  let? (id, d) := fld what (get_varint "region.id") d in
  let? (start_key, d) := fld what (get_bytes "region.start") d in
  let? (end_key, d) := fld what (get_bytes "region.end") d in
  let? (conf_ver, d) := fld what (get_varint "region.conf_ver") d in
  let? (version, d) := fld what (get_varint "region.version") d in
  let? (peers, d) := get_many what "region.peers" (decode_peer what) d in
  Ok (mkRegion id start_key end_key peers (mkEpoch conf_ver version), d).
Definition region_decode : bytes -> result PdError RegionRecord :=
  sealed "region" (fun d =>
    let? (region, d) := decode_region "region" d in
    let? (leader_peer_id, d) := fld "region" (get_varint "region.leader") d in
    let? (term, d) := fld "region" (get_varint "region.term") d in
    let? (approximate_size, d) := fld "region" (get_varint "region.size") d in
    let? (applied_index, d) := fld "region" (get_varint "region.applied") d in
    let? (last_heartbeat_ms, d) := fld "region" (get_varint "region.last_beat") d in
    Ok (mkRegionRecord region leader_peer_id term approximate_size applied_index last_heartbeat_ms, d)).

Definition decode_wish (d : Decoder) : result PdError (ColumnarWish * Decoder) :=
  let? (start_key, d) := fld "columnar" (get_bytes "columnar.start_key") d in
  let? (end_key, d) := fld "columnar" (get_bytes "columnar.end_key") d in
  let? (replicas, d) := fld "columnar" (get_u8 "columnar.replicas") d in
  Ok (mkWish start_key end_key replicas, d).
Definition columnar_decode : bytes -> result PdError ColumnarRecord :=
  sealed "columnar" (fun d => let? (wishes, d) := get_many "columnar" "columnar.len" decode_wish d in Ok (mkColumnar wishes, d)).

Definition get_event (what : string) (d : Decoder) : result PdError (OperatorEvent * Decoder) :=
  let? (at_ms, d) := fld what (get_varint "event.at_ms") d in
  let? (region_id, d) := fld what (get_varint "event.region_id") d in
  let? (kind, d) := fld what (get_u8 "event.kind") d in
  let? (outcome, d) := fld what (get_u8 "event.outcome") d in
  match event_kind_from_u8 kind with
  | None => Err (PdCorrupt what)
  | Some kind =>
      match outcome_from_u8 outcome with
      | None => Err (PdCorrupt what)
      | Some outcome =>
          let? (store_id, d) := fld what (get_varint "event.store_id") d in
          let? (peer_id, d) := fld what (get_varint "event.peer_id") d in
          Ok (mkEvent at_ms region_id kind outcome store_id peer_id, d)
      end
  end.
Definition history_decode (bs : bytes) : result PdError HistoryRecord :=
  let? record := sealed "history" (fun d =>
    let? (events, d) := get_many "history" "history.count" (get_event "history") d in Ok (mkHistory events, d)) bs in
  if decide (HISTORY_CAPACITY < length (hr_events record)) then Err (PdCorrupt "history") else Ok record.

Definition decode_range_entry : bytes -> result PdError N :=
  sealed "range index" (fun d => let? (region_id, d) := fld "range index" (get_varint "index.region_id") d in Ok (region_id, d)).

(** ** [command.rs] *)

Definition COMMAND_VERSION : byte := x01.

Inductive Command :=
  | TakeOffice (term now_ms : N)
  | Bootstrap (store_id : N) (address : bytes) (base_id cluster_id now_ms : N)
  | ReserveIds (end_ : N)
  | AdvanceTso (mark : N)
  | StoreBeat (store_id : N) (stats : StoreStats) (now_ms : N)
  | RegionBeat (record : RegionRecord)
  | Columnar (wishes : list ColumnarWish)
  | History (event : OperatorEvent).

Definition command_encode (self : Command) : bytes :=
  let out := [] |> put_u8 COMMAND_VERSION in
  match self with
  | TakeOffice term now_ms => out |> put_u8 x01 |> put_varint term |> put_varint now_ms
  | Bootstrap store_id address base_id cluster_id now_ms =>
      out |> put_u8 x02 |> put_varint store_id |> put_str address |> put_varint base_id |> put_fixed64 cluster_id |> put_varint now_ms
  | ReserveIds end_ => out |> put_u8 x03 |> put_fixed64 end_
  | AdvanceTso mark => out |> put_u8 x04 |> put_varint mark
  | StoreBeat store_id stats now_ms =>
      out |> put_u8 x05 |> put_varint store_id |> put_varint (ss_capacity stats) |> put_varint (ss_available stats)
          |> put_varint (ss_region_count stats) |> put_varint (ss_leader_count stats) |> put_varint (ss_applied_bytes stats)
          |> put_varint now_ms
  | RegionBeat record => out |> put_u8 x06 |> put_bytes (region_encode record)
  | Columnar wishes => out |> put_u8 x07 |> put_bytes (columnar_encode (mkColumnar wishes))
  | History event => out |> put_u8 x08 |> put_event event
  end.

(** The fields of a command, after its kind byte. *)
Definition command_fields (kind : byte) (d : Decoder) : result PdError (Command * Decoder) :=
  let what := "pd command"%string in
  match kind with
  | x01 =>
      let? (term, d) := fld what (get_varint "take_office.term") d in
      let? (now_ms, d) := fld what (get_varint "take_office.now_ms") d in
      Ok (TakeOffice term now_ms, d)
  | x02 =>
      let? (store_id, d) := fld what (get_varint "bootstrap.store_id") d in
      let? (address, d) := fld what (get_str "bootstrap.address") d in
      let? (base_id, d) := fld what (get_varint "bootstrap.base_id") d in
      let? (cluster_id, d) := fld what (get_fixed64 "bootstrap.cluster_id") d in
      let? (now_ms, d) := fld what (get_varint "bootstrap.now_ms") d in
      Ok (Bootstrap store_id address base_id cluster_id now_ms, d)
  | x03 => let? (end_, d) := fld what (get_fixed64 "reserve_ids.end") d in Ok (ReserveIds end_, d)
  | x04 => let? (mark, d) := fld what (get_varint "advance_tso.mark") d in Ok (AdvanceTso mark, d)
  | x05 =>
      let? (store_id, d) := fld what (get_varint "store_beat.store_id") d in
      let? (capacity, d) := fld what (get_varint "store_beat.capacity") d in
      let? (available, d) := fld what (get_varint "store_beat.available") d in
      let? (region_count, d) := fld what (get_varint "store_beat.region_count") d in
      let? (leader_count, d) := fld what (get_varint "store_beat.leader_count") d in
      let? (applied_bytes, d) := fld what (get_varint "store_beat.applied_bytes") d in
      let? (now_ms, d) := fld what (get_varint "store_beat.now_ms") d in
      Ok (StoreBeat store_id (mkStats capacity available region_count leader_count applied_bytes) now_ms, d)
  | x06 =>
      let? (bs, d) := fld what (get_bytes "region_beat.record") d in
      let? record := region_decode bs in
      Ok (RegionBeat record, d)
  | x07 =>
      let? (bs, d) := fld what (get_bytes "columnar.record") d in
      let? record := columnar_decode bs in
      Ok (Columnar (cl_wishes record), d)
  | x08 => let? (event, d) := get_event what d in Ok (History event, d)
  | _ => Err (PdCorrupt what)
  end.

Definition command_decode (bs : bytes) : result PdError Command :=
  let what := "pd command"%string in
  let? (version, input) := fld what (get_u8 "command.version") (Decoder_new bs) in
  if decide (version <> COMMAND_VERSION) then Err (PdCorrupt what) else
  let? (kind, input) := fld what (get_u8 "command.kind") input in
  let? (command, input) := command_fields kind input in
  let? _ := rmap_err (fun _ => PdCorrupt what) (de_finish input) in
  Ok command.

(** ** The interface *)

Class Stored (A : Type) := {
  st_encode : A -> bytes;
  st_decode : bytes -> result PdError A;
  st_ok : A -> Prop;
}.
Class StoredLaws (A : Type) `{Stored A} := {
  st_exact : forall bs a, st_decode bs = Ok a <-> st_ok a /\ bs = st_encode a;
}.

(** The values a build can hold: [u64] fields, texts that are UTF-8, lists no
    longer than the address space. *)
Definition u64_ok (l : list N) : Prop := Forall (fun n => n < two64)%N l.
Arguments u64_ok : simpl never.

Definition cluster_ok (r : ClusterRecord) : Prop :=
  u64_ok [cr_cluster_id r; cr_first_region_id r; cr_created_ms r] /\ cr_cluster_id r <> 0%N.
Definition stats_ok (s : StoreStats) : Prop :=
  u64_ok [ss_capacity s; ss_available s; ss_region_count s; ss_leader_count s; ss_applied_bytes s].
Definition store_ok (r : StoreRecord) : Prop :=
  u64_ok [sr_store_id r; sr_started_ms r; sr_last_heartbeat_ms r] /\ stats_ok (sr_stats r) /\
  len64 (sr_address r) /\ valid_utf8 (sr_address r) = true.
Definition peer_ok (p : Peer) : Prop := u64_ok [pe_store_id p; pe_peer_id p].
Definition region_ok (r : Region) : Prop :=
  u64_ok [rg_id r; ep_conf_ver (rg_epoch r); ep_version (rg_epoch r)] /\
  len64 (rg_start_key r) /\ len64 (rg_end_key r) /\ len64 (rg_peers r) /\ Forall peer_ok (rg_peers r).
Definition region_record_ok (r : RegionRecord) : Prop :=
  region_ok (rr_region r) /\
  u64_ok [rr_leader_peer_id r; rr_term r; rr_approximate_size r; rr_applied_index r; rr_last_heartbeat_ms r].
Definition wish_ok (w : ColumnarWish) : Prop := len64 (cw_start_key w) /\ len64 (cw_end_key w).
Definition columnar_ok (r : ColumnarRecord) : Prop := len64 (cl_wishes r) /\ Forall wish_ok (cl_wishes r).
Definition event_ok (e : OperatorEvent) : Prop := u64_ok [oe_at_ms e; oe_region_id e; oe_store_id e; oe_peer_id e].
Definition history_ok (h : HistoryRecord) : Prop := length (hr_events h) <= HISTORY_CAPACITY /\ Forall event_ok (hr_events h).
Definition command_ok (c : Command) : Prop :=
  match c with
  | TakeOffice term now_ms => u64_ok [term; now_ms]
  | Bootstrap store_id address base_id cluster_id now_ms =>
      u64_ok [store_id; base_id; cluster_id; now_ms] /\ len64 address /\ valid_utf8 address = true
  | ReserveIds end_ => u64_ok [end_]
  | AdvanceTso mark => u64_ok [mark]
  | StoreBeat store_id stats now_ms => u64_ok [store_id; now_ms] /\ stats_ok stats
  | RegionBeat record => region_record_ok record /\ len64 (region_encode record)
  | Columnar wishes => columnar_ok (mkColumnar wishes) /\ len64 (columnar_encode (mkColumnar wishes))
  | History event => event_ok event
  end.

#[export] Instance ClusterStored : Stored ClusterRecord := { st_encode := cluster_encode; st_decode := cluster_decode; st_ok := cluster_ok }.
#[export] Instance AllocStored : Stored AllocRecord :=
  { st_encode := alloc_encode; st_decode := alloc_decode; st_ok := fun r => u64_ok [ar_allocated_end r] }.
#[export] Instance TsoStored : Stored TsoRecord :=
  { st_encode := tso_encode; st_decode := tso_decode; st_ok := fun r => u64_ok [tr_high_water_ms r] }.
#[export] Instance StoreStored : Stored StoreRecord := { st_encode := store_encode; st_decode := store_decode; st_ok := store_ok }.
#[export] Instance RegionStored : Stored RegionRecord :=
  { st_encode := region_encode; st_decode := region_decode; st_ok := region_record_ok }.
#[export] Instance ColumnarStored : Stored ColumnarRecord :=
  { st_encode := columnar_encode; st_decode := columnar_decode; st_ok := columnar_ok }.
#[export] Instance HistoryStored : Stored HistoryRecord :=
  { st_encode := history_encode; st_decode := history_decode; st_ok := history_ok }.
#[export] Instance CommandStored : Stored Command := { st_encode := command_encode; st_decode := command_decode; st_ok := command_ok }.

(** ** Fields, one after another *)

(** [get] reads the values of [ok] off their encoding and accepts nothing else. *)
Definition faithful {A} (get : Decoder -> result PdError (A * Decoder)) (enc : A -> bytes) (ok : A -> Prop) : Prop :=
  (forall v, ok v -> reads get (enc v) v) /\
  (forall d v d', get d = Ok (v, d') -> consumed d (enc v) d' /\ ok v).

Lemma u64_ok_cons n l : u64_ok (n :: l) <-> (n < two64)%N /\ u64_ok l.
Proof. apply (Forall_cons (fun n => n < two64)%N). Qed.
Lemma u64_ok_nil : u64_ok [].
Proof. constructor. Qed.
#[export] Hint Resolve u64_ok_nil : codec.

Lemma reads_fld {A} what (get : Decoder -> result DecodeError (A * Decoder)) o v : reads get o v -> reads (fld what get) o v.
Proof. apply (reads_map_err (fun _ => PdCorrupt what)). Qed.
#[export] Hint Resolve reads_fld : codec.

Lemma fld_ok {A} what (get : Decoder -> result DecodeError (A * Decoder)) d x : fld what get d = Ok x -> get d = Ok x.
Proof. apply map_err_ok. Qed.

Lemma sealed_exact {A} what (get : Decoder -> result PdError (A * Decoder)) enc ok bs v :
  faithful get enc ok -> sealed what get bs = Ok v <-> ok v /\ bs = RECORD_VERSION :: enc v.
Proof.
  intros [Hr Hc]. unfold sealed, rec_open, rec_close. split.
  - intros (input & H & H3)%rbind_ok. apply rbind_ok in H as ([ver d] & H1%fld_ok & H2). case_decide as Hver; [|done]. injection H2 as [= <-]. subst ver.
    apply rbind_ok in H3 as ([r d'] & H3 & H4). apply rbind_ok in H4 as ([] & H4%map_err_ok & [= <-]).
    apply u8_consumed in H1. apply Hc in H3 as [H3 Ho]. split; [done|].
    eapply (consumed_finish _ _ _ (consumed_trans _ _ _ _ _ H1 H3)) in H4. done.
  - intros [Ho ->].
    change (RECORD_VERSION :: enc v) with ([RECORD_VERSION] ++ enc v).
    pose proof (reads_fld what _ _ _ (reads_u8 "record.version" RECORD_VERSION) [] (enc v)) as H1. cbn [app length Nat.add] in H1.
    unfold Decoder_new. cbn [app]. rewrite H1. cbn [rbind]. rewrite decide_True by done. cbn [rbind].
    pose proof (Hr v Ho [RECORD_VERSION] []) as H2. rewrite app_nil_r in H2. cbn [app length Nat.add] in H2 |- *. rewrite H2. cbn [rbind].
    rewrite finish_reads; [done|]. apply drop_ge. cbn. lia.
Qed.

Lemma many_faithful {A} what field (get : Decoder -> result PdError (A * Decoder)) enc ok :
  faithful get enc ok -> (forall v, enc v <> []) ->
  faithful (get_many what field get) (fun l => put_u64 (N.of_nat (length l)) [] ++ concat (enc <$> l)) (fun l => len64 l /\ Forall ok l).
Proof.
  intros [Hr Hc] Hne. split.
  - intros l [Hl Hf]. apply (reads_count (fun _ => PdCorrupt what)); [done|]. intros x Hx. split; [done|]. apply Hr.
    by apply (proj1 (Forall_forall _ _) Hf).
  - intros d l d'. unfold get_many. intros ([n d1] & H1%fld_ok & H2)%rbind_ok. apply count_consumed in H1 as [H1 Hn].
    apply (list_consumed get enc ok) in H2 as (H2 & Hf & <-); [|done]. split; [by eapply consumed_trans|done].
Qed.

(** ** The formats *)

Lemma put_bytes_app v out : put_bytes v out = out ++ bytes_enc v.
Proof. unfold put_bytes, put_varint, bytes_enc. by rewrite put_u64_app, <- app_assoc. Qed.
Lemma foldl_put {A} (f : Encoder -> A -> Encoder) (enc : A -> bytes) out l :
  (forall out x, f out x = out ++ enc x) -> foldl f out l = out ++ concat (enc <$> l).
Proof.
  intros Hf. revert out; induction l as [|x l IH]; intros out; cbn; [by rewrite app_nil_r|]. by rewrite IH, Hf, <- app_assoc.
Qed.

#[local] Arguments put_u64 : simpl never.
#[local] Arguments bytes_enc : simpl never.
#[local] Arguments columnar_encode : simpl never.
#[local] Arguments region_encode : simpl never.
#[local] Arguments le_bytes : simpl never.
#[local] Arguments len64 : simpl never.

(** Spell a chain of puts out as one concatenation. *)
Ltac put_norm :=
  unfold rec_start, put_str, put_u8, put_fixed64, put_varint; rewrite ?put_bytes_app;
  repeat rewrite (put_u64_app _ (_ ++ _)); repeat rewrite <- app_assoc; cbn [app].

(** Both halves of [faithful] for a decoder that reads field after field. *)
Ltac peel_fields := repeat (progress (repeat match goal with H : fld _ _ _ = Ok _ |- _ => apply fld_ok in H end; peel)).
Ltac split_ok := cbn; rewrite ?u64_ok_cons; intros; destruct_and?.
Ltac join_ok := cbn; rewrite ?u64_ok_cons; repeat split; eauto with codec.
Ltac read_fields := repeat read_next; apply reads_last; eauto 10 with codec.

Definition cluster_enc (r : ClusterRecord) : bytes :=
  put_u64 (cr_cluster_id r) [] ++ put_u64 (cr_first_region_id r) [] ++ put_u64 (cr_created_ms r) [].
Definition store_enc (r : StoreRecord) : bytes :=
  put_u64 (sr_store_id r) [] ++ bytes_enc (sr_address r) ++ put_u64 (sr_started_ms r) [] ++ put_u64 (sr_last_heartbeat_ms r) [] ++
  put_u64 (ss_capacity (sr_stats r)) [] ++ put_u64 (ss_available (sr_stats r)) [] ++ put_u64 (ss_region_count (sr_stats r)) [] ++
  put_u64 (ss_leader_count (sr_stats r)) [] ++ put_u64 (ss_applied_bytes (sr_stats r)) [].
Definition peer_enc (p : Peer) : bytes := put_u64 (pe_store_id p) [] ++ put_u64 (pe_peer_id p) [] ++ [role_as_u8 (pe_role p)].
Definition many_enc {A} (enc : A -> bytes) (l : list A) : bytes := put_u64 (N.of_nat (length l)) [] ++ concat (enc <$> l).
Definition region_enc (r : Region) : bytes :=
  put_u64 (rg_id r) [] ++ bytes_enc (rg_start_key r) ++ bytes_enc (rg_end_key r) ++
  put_u64 (ep_conf_ver (rg_epoch r)) [] ++ put_u64 (ep_version (rg_epoch r)) [] ++ many_enc peer_enc (rg_peers r).
Definition region_record_enc (r : RegionRecord) : bytes :=
  region_enc (rr_region r) ++ put_u64 (rr_leader_peer_id r) [] ++ put_u64 (rr_term r) [] ++ put_u64 (rr_approximate_size r) [] ++
  put_u64 (rr_applied_index r) [] ++ put_u64 (rr_last_heartbeat_ms r) [].
Definition wish_enc (w : ColumnarWish) : bytes := bytes_enc (cw_start_key w) ++ bytes_enc (cw_end_key w) ++ [cw_replicas w].
Definition event_enc (e : OperatorEvent) : bytes :=
  put_u64 (oe_at_ms e) [] ++ put_u64 (oe_region_id e) [] ++ [event_kind_as_u8 (oe_kind e)] ++ [outcome_as_u8 (oe_outcome e)] ++
  put_u64 (oe_store_id e) [] ++ put_u64 (oe_peer_id e) [].

Lemma cluster_encode_eq r : cluster_encode r = RECORD_VERSION :: cluster_enc r.
Proof. unfold cluster_encode, cluster_enc. by put_norm. Qed.
Lemma store_encode_eq r : store_encode r = RECORD_VERSION :: store_enc r.
Proof. unfold store_encode, store_enc. by put_norm. Qed.
Lemma encode_region_eq r out : encode_region r out = out ++ region_enc r.
Proof.
  unfold encode_region, region_enc, many_enc. rewrite (foldl_put _ peer_enc).
  - put_norm. rewrite (put_u64_app _ out). by put_norm.
  - intros out' x. unfold peer_enc. put_norm. rewrite (put_u64_app _ out'). by put_norm.
Qed.
Lemma region_encode_eq r : region_encode r = RECORD_VERSION :: region_record_enc r.
Proof. unfold region_encode, region_record_enc. rewrite encode_region_eq. by put_norm. Qed.
Lemma columnar_encode_eq r : columnar_encode r = RECORD_VERSION :: many_enc wish_enc (cl_wishes r).
Proof.
  unfold columnar_encode, many_enc. rewrite (foldl_put _ wish_enc); [by put_norm|]. intros out x. unfold wish_enc. by put_norm.
Qed.
Lemma put_event_eq e out : put_event e out = out ++ event_enc e.
Proof. unfold put_event, event_enc. put_norm. rewrite (put_u64_app _ out). by put_norm. Qed.
Lemma history_encode_eq r : history_encode r = RECORD_VERSION :: many_enc event_enc (hr_events r).
Proof. unfold history_encode, many_enc. rewrite (foldl_put _ event_enc); [by put_norm|]. intros out x. apply put_event_eq. Qed.

Lemma peer_faithful what : faithful (decode_peer what) peer_enc peer_ok.
Proof.
  split.
  - intros [s p r]. unfold decode_peer, peer_ok. split_ok. unfold peer_enc; cbn. do 2 read_next.
    rewrite <- (app_nil_r [_]). read_next. rewrite role_roundtrip. apply reads_ret.
  - intros d v d'. unfold decode_peer. intros H. peel_fields. destruct (role_from_u8 _) eqn:R; [|done].
    peel_fields. apply role_from_some in R as ->. unfold peer_ok. split; [unfold peer_enc; cbn; chain|join_ok].
Qed.

Lemma event_kind_roundtrip k : event_kind_from_u8 (event_kind_as_u8 k) = Some k.
Proof. by destruct k. Qed.
Lemma event_kind_from_some b k : event_kind_from_u8 b = Some k -> b = event_kind_as_u8 k.
Proof. destruct b; cbn; try done; by intros [= <-]. Qed.
Lemma outcome_roundtrip o : outcome_from_u8 (outcome_as_u8 o) = Some o.
Proof. by destruct o. Qed.
Lemma outcome_from_some b o : outcome_from_u8 b = Some o -> b = outcome_as_u8 o.
Proof. destruct b; cbn; try done; by intros [= <-]. Qed.

Lemma event_faithful what : faithful (get_event what) event_enc event_ok.
Proof.
  split.
  - intros [a r k o s p]. unfold get_event, event_ok. split_ok. unfold event_enc; cbn [oe_at_ms oe_region_id oe_kind oe_outcome oe_store_id oe_peer_id].
    do 4 read_next. rewrite event_kind_roundtrip, outcome_roundtrip. read_fields.
  - intros d v d'. unfold get_event. intros H. peel_fields.
    destruct (event_kind_from_u8 _) eqn:K; [|done]. destruct (outcome_from_u8 _) eqn:O; [|done]. peel_fields.
    apply event_kind_from_some in K as ->. apply outcome_from_some in O as ->. unfold event_ok. split; [unfold event_enc; cbn [oe_at_ms oe_region_id oe_kind oe_outcome oe_store_id oe_peer_id]; chain|join_ok].
Qed.

Lemma wish_faithful : faithful decode_wish wish_enc wish_ok.
Proof.
  split.
  - intros [s e r]. unfold decode_wish, wish_ok. split_ok. unfold wish_enc; cbn. read_fields.
  - intros d v d'. unfold decode_wish. intros H. peel_fields. unfold wish_ok. split; [unfold wish_enc; cbn; chain|join_ok].
Qed.

Lemma put_u64_app_ne n l : put_u64 n [] ++ l <> [].
Proof. pose proof (put_u64_nonempty n). by destruct (put_u64 n []). Qed.

Lemma peers_faithful what field : faithful (get_many what field (decode_peer what)) (many_enc peer_enc) (fun l => len64 l /\ Forall peer_ok l).
Proof. apply many_faithful; [apply peer_faithful|]. intros v. apply put_u64_app_ne. Qed.
Lemma events_faithful what field : faithful (get_many what field (get_event what)) (many_enc event_enc) (fun l => len64 l /\ Forall event_ok l).
Proof. apply many_faithful; [apply event_faithful|]. intros v. apply put_u64_app_ne. Qed.
Lemma wishes_faithful what field : faithful (get_many what field decode_wish) (many_enc wish_enc) (fun l => len64 l /\ Forall wish_ok l).
Proof.
  apply many_faithful; [apply wish_faithful|]. intros v. unfold wish_enc, bytes_enc. rewrite <- app_assoc. apply put_u64_app_ne.
Qed.

Lemma region_faithful what : faithful (decode_region what) region_enc region_ok.
Proof.
  split.
  - intros [i s e ps [c v]]. unfold decode_region, region_ok. split_ok. unfold region_enc; cbn [rg_id rg_start_key rg_end_key rg_peers rg_epoch ep_conf_ver ep_version].
    do 5 read_next. apply (reads_last _ (fun peers => mkRegion i s e peers (mkEpoch c v))). by apply peers_faithful.
  - intros d v d'. unfold decode_region. intros H. peel_fields.
    match goal with H : get_many _ _ _ _ = Ok _ |- _ => apply peers_faithful in H as (? & ? & ?) end.
    unfold region_ok. split; [unfold region_enc; cbn; chain|join_ok].
Qed.

Lemma mapped_faithful {A B} (get : Decoder -> result PdError (A * Decoder)) enc ok (f : A -> B) (g : B -> A) :
  faithful get enc ok -> (forall b, f (g b) = b) -> (forall a, g (f a) = a) ->
  faithful (fun d => let? (x, d) := get d in Ok (f x, d)) (fun b => enc (g b)) (fun b => ok (g b)).
Proof.
  intros [Hr Hc] Hfg Hgf. split.
  - intros b Hb. rewrite <- (Hfg b) at 2. by apply reads_last, Hr.
  - intros d v d'. intros ([a d1] & H & [= <- <-])%rbind_ok. rewrite Hgf. by apply Hc.
Qed.

#[export] Instance AllocLaws : StoredLaws AllocRecord.
Proof.
  split. intros bs a. cbn. unfold alloc_decode.
  rewrite (sealed_exact _ _ (fun r => put_u64 (ar_allocated_end r) []) (fun r => u64_ok [ar_allocated_end r])); [done|]. split.
  - intros [n]. split_ok. read_fields.
  - intros d v d' H. peel_fields. join_ok.
Qed.
#[export] Instance TsoLaws : StoredLaws TsoRecord.
Proof.
  split. intros bs a. cbn. unfold tso_decode.
  rewrite (sealed_exact _ _ (fun r => put_u64 (tr_high_water_ms r) []) (fun r => u64_ok [tr_high_water_ms r])); [done|]. split.
  - intros [n]. split_ok. read_fields.
  - intros d v d' H. peel_fields. join_ok.
Qed.
Lemma range_entry_exact bs n : decode_range_entry bs = Ok n <-> (n < two64)%N /\ bs = encode_range_entry n.
Proof.
  unfold decode_range_entry. rewrite (sealed_exact _ _ (fun r => put_u64 r []) (fun r => r < two64)%N); [done|]. split.
  - intros m Hm. apply (reads_last _ id). eauto with codec.
  - intros d v d' H. peel_fields. done.
Qed.

#[export] Instance ClusterLaws : StoredLaws ClusterRecord.
Proof.
  split. intros bs a. cbn. unfold cluster_decode, cluster_ok.
  set (fields := fun d : Decoder => _).
  assert (faithful fields cluster_enc (fun r => u64_ok [cr_cluster_id r; cr_first_region_id r; cr_created_ms r])) as F.
  { subst fields. split.
    - intros [i f c]. split_ok. unfold cluster_enc; cbn. read_fields.
    - intros d v d' H. peel_fields. split; [unfold cluster_enc; cbn; chain|join_ok]. }
  rewrite rbind_ok, cluster_encode_eq. split.
  - intros (r & H & G). destruct (N.eqb_spec (cr_cluster_id r) 0); [done|]. injection G as [= ->].
    apply (sealed_exact _ _ _ _ _ _ F) in H as [? ?]. done.
  - intros [[Ho Hz] ->]. exists a. rewrite (sealed_exact _ _ _ _ _ _ F). split; [done|]. by rewrite (proj2 (N.eqb_neq _ _) Hz).
Qed.

#[export] Instance StoreLaws : StoredLaws StoreRecord.
Proof.
  split. intros bs a. cbn. unfold store_decode. rewrite store_encode_eq. apply sealed_exact. split.
  - intros [i ad st lh [c av rc lc ab]]. unfold store_ok, stats_ok. split_ok. unfold store_enc; cbn.
    do 8 read_next. apply (reads_last _ (fun x => mkStore i ad st lh (mkStats c av rc lc x))). eauto with codec.
  - intros d v d' H. peel_fields. unfold store_ok, stats_ok. split; [unfold store_enc; cbn; chain|join_ok].
Qed.

#[export] Instance RegionLaws : StoredLaws RegionRecord.
Proof.
  split. intros bs a. cbn. unfold region_decode. rewrite region_encode_eq. apply sealed_exact. split.
  - intros [r l t sz ai lh]. unfold region_record_ok. split_ok. unfold region_record_enc. cbn [rr_region rr_leader_peer_id rr_term rr_approximate_size rr_applied_index rr_last_heartbeat_ms].
    eapply reads_bind; [by apply region_faithful|cbn beta]. read_fields.
  - intros d v d' H. peel_fields.
    match goal with H : decode_region _ _ = Ok _ |- _ => apply region_faithful in H as [? ?] end.
    unfold region_record_ok. split; [unfold region_record_enc; cbn [rr_region rr_leader_peer_id rr_term rr_approximate_size rr_applied_index rr_last_heartbeat_ms]; chain|].
    split; [done|join_ok].
Qed.

#[export] Instance ColumnarLaws : StoredLaws ColumnarRecord.
Proof.
  split. intros bs a. cbn. unfold columnar_decode. rewrite columnar_encode_eq.
  apply (sealed_exact _ _ (fun r => many_enc wish_enc (cl_wishes r)) columnar_ok).
  apply (mapped_faithful _ _ _ mkColumnar cl_wishes (wishes_faithful "columnar" "columnar.len")); [by intros []|done].
Qed.

#[export] Instance HistoryLaws : StoredLaws HistoryRecord.
Proof.
  split. intros bs a. cbn. unfold history_decode, history_ok.
  pose proof (mapped_faithful _ _ _ mkHistory hr_events (events_faithful "history" "history.count") ltac:(by intros []) ltac:(done)) as F.
  rewrite rbind_ok, history_encode_eq. split.
  - intros (r & H & G). case_decide; [done|]. injection G as [= ->].
    apply (sealed_exact _ _ _ _ _ _ F) in H as [[? ?] ?]. split; [|done]. split; [lia|done].
  - intros [[Hl Hf] ->]. exists a. rewrite (sealed_exact _ _ _ _ _ _ F). split.
    + split; [split; [|done]|done]. unfold len64, two64, HISTORY_CAPACITY in *. lia.
    + rewrite decide_False; [done|lia].
Qed.

(** ** The command *)

Definition command_kind (c : Command) : byte :=
  match c with
  | TakeOffice _ _ => x01 | Bootstrap _ _ _ _ _ => x02 | ReserveIds _ => x03 | AdvanceTso _ => x04
  | StoreBeat _ _ _ => x05 | RegionBeat _ => x06 | Columnar _ => x07 | History _ => x08
  end.
Definition command_enc (c : Command) : bytes :=
  match c with
  | TakeOffice term now_ms => put_u64 term [] ++ put_u64 now_ms []
  | Bootstrap store_id address base_id cluster_id now_ms =>
      put_u64 store_id [] ++ bytes_enc address ++ put_u64 base_id [] ++ le_bytes 8 cluster_id ++ put_u64 now_ms []
  | ReserveIds end_ => le_bytes 8 end_
  | AdvanceTso mark => put_u64 mark []
  | StoreBeat store_id s now_ms =>
      put_u64 store_id [] ++ put_u64 (ss_capacity s) [] ++ put_u64 (ss_available s) [] ++ put_u64 (ss_region_count s) [] ++
      put_u64 (ss_leader_count s) [] ++ put_u64 (ss_applied_bytes s) [] ++ put_u64 now_ms []
  | RegionBeat record => bytes_enc (region_encode record)
  | Columnar wishes => bytes_enc (columnar_encode (mkColumnar wishes))
  | History event => event_enc event
  end.

Lemma command_encode_eq c : command_encode c = [COMMAND_VERSION; command_kind c] ++ command_enc c.
Proof. destruct c; cbn [command_encode command_kind command_enc]; rewrite ?put_event_eq; put_norm; done. Qed.

Lemma region_decode_exact bs r : region_decode bs = Ok r <-> region_record_ok r /\ bs = region_encode r.
Proof. exact (st_exact bs r). Qed.
Lemma columnar_decode_exact bs r : columnar_decode bs = Ok r <-> columnar_ok r /\ bs = columnar_encode r.
Proof. exact (st_exact bs r). Qed.
Lemma cluster_decode_exact bs r : cluster_decode bs = Ok r <-> cluster_ok r /\ bs = cluster_encode r.
Proof. exact (st_exact bs r). Qed.
Lemma store_decode_exact bs r : store_decode bs = Ok r <-> store_ok r /\ bs = store_encode r.
Proof. exact (st_exact bs r). Qed.
Lemma history_decode_exact bs r : history_decode bs = Ok r <-> history_ok r /\ bs = history_encode r.
Proof. exact (st_exact bs r). Qed.
Lemma alloc_decode_exact bs r : alloc_decode bs = Ok r <-> u64_ok [ar_allocated_end r] /\ bs = alloc_encode r.
Proof. exact (st_exact bs r). Qed.
Lemma tso_decode_exact bs r : tso_decode bs = Ok r <-> u64_ok [tr_high_water_ms r] /\ bs = tso_encode r.
Proof. exact (st_exact bs r). Qed.

Lemma command_reads c : command_ok c -> reads (command_fields (command_kind c)) (command_enc c) c.
Proof.
  destruct c as [|s a b i n|e|m|s [c0 a0 r0 l0 b0] n|r|w|e]; unfold command_ok, stats_ok; split_ok; unfold command_fields.
  - read_fields.
  - do 4 read_next. apply (reads_last _ (Bootstrap s a b i)). eauto with codec.
  - read_fields.
  - read_fields.
  - do 6 read_next. apply (reads_last _ (StoreBeat s (mkStats c0 a0 r0 l0 b0))). eauto with codec.
  - rewrite <- (app_nil_r (bytes_enc _)). read_next. rewrite (proj2 (region_decode_exact (region_encode r) r) ltac:(done)). apply reads_ret.
  - rewrite <- (app_nil_r (bytes_enc _)). read_next.
    rewrite (proj2 (columnar_decode_exact (columnar_encode (mkColumnar w)) (mkColumnar w)) ltac:(done)). apply reads_ret.
  - apply (reads_last _ History). by apply event_faithful.
Qed.

Lemma command_consumed k d c d' : command_fields k d = Ok (c, d') -> consumed d (command_enc c) d' /\ k = command_kind c /\ command_ok c.
Proof.
  destruct k; try done; unfold command_fields; intros H; peel_fields.
  1,2,3,4,5: unfold command_ok, stats_ok; split; [cbn; chain|]; split; [done|join_ok].
  - match goal with H : region_decode _ = Ok _ |- _ => apply region_decode_exact in H as [? ->] end. done.
  - apply rbind_ok in H0 as ([w] & [Hr ->]%columnar_decode_exact & [= <- <-]). done.
  - match goal with H : get_event _ _ = Ok _ |- _ => apply event_faithful in H as [? ?] end. done.
Qed.

#[export] Instance CommandLaws : StoredLaws Command.
Proof.
  split. intros bs c. cbn. unfold command_decode. rewrite command_encode_eq. split.
  - intros ([ver d1] & H1%fld_ok%u8_consumed & H)%rbind_ok. case_decide as Hv; [done|]. subst ver.
    apply rbind_ok in H as ([k d2] & H2%fld_ok%u8_consumed & H). apply rbind_ok in H as ([c' d3] & H3 & H).
    apply rbind_ok in H as ([] & H%map_err_ok & [= ->]). apply command_consumed in H3 as (H3 & -> & Ho). split; [done|].
    by eapply (consumed_finish _ _ _ (consumed_trans _ _ _ _ _ (consumed_trans _ _ _ _ _ H1 H2) H3)) in H.
  - intros [Ho ->]. set (body := [COMMAND_VERSION; command_kind c] ++ command_enc c).
    pose proof (reads_fld "pd command" _ _ _ (reads_u8 "command.version" COMMAND_VERSION) [] (command_kind c :: command_enc c)) as H1.
    pose proof (reads_fld "pd command" _ _ _ (reads_u8 "command.kind" (command_kind c)) [COMMAND_VERSION] (command_enc c)) as H2.
    pose proof (command_reads c Ho [COMMAND_VERSION; command_kind c] []) as H3. rewrite app_nil_r in H3.
    cbn [app length Nat.add] in H1, H2, H3. unfold Decoder_new, body. cbn [app].
    rewrite H1. cbn [rbind]. rewrite decide_False by tauto. rewrite H2. cbn [rbind]. rewrite H3. cbn [rbind].
    rewrite finish_reads; [done|]. apply drop_ge. cbn. lia.
Qed.

(** C28: The placement driver's log and its records: a decoder returns a value
    exactly on the bytes its encoder writes for that value. *)
Theorem pd_formats_exact bs :
  (forall c, command_decode bs = Ok c <-> command_ok c /\ bs = command_encode c) /\
  (forall r, region_decode bs = Ok r <-> region_record_ok r /\ bs = region_encode r) /\
  (forall r, store_decode bs = Ok r <-> store_ok r /\ bs = store_encode r) /\
  (forall r, cluster_decode bs = Ok r <-> cluster_ok r /\ bs = cluster_encode r) /\
  (forall r, history_decode bs = Ok r <-> history_ok r /\ bs = history_encode r) /\
  (forall r, columnar_decode bs = Ok r <-> columnar_ok r /\ bs = columnar_encode r) /\
  (forall r, alloc_decode bs = Ok r <-> u64_ok [ar_allocated_end r] /\ bs = alloc_encode r) /\
  (forall r, tso_decode bs = Ok r <-> u64_ok [tr_high_water_ms r] /\ bs = tso_encode r).
Proof. split_and!; intros r; exact (st_exact bs r). Qed.
