(* ===== verification/PdRouting.v ===== *)
(** The placement driver's routing table: its key space
    ([esker-pd/src/keys.rs]) and the region and store records over it
    ([esker-pd/src/routing.rs]), with the split of a region the table learns of
    from heartbeats ([esker-store/src/apply.rs], [split_region]).

    The database is its contents, an ordered map; reading it does not fail. *)

From Stdlib Require Import Strings.String Strings.Byte.
From stdpp Require Import prelude sorting.
From Stdlib Require Import NArith ZArith Lia.
From S2P Require Import Prelude Varint Endian ProtoCodec PdRecord BTree.

(** ** [keys.rs] *)

Definition PREFIX : byte := x6d.
Definition CLUSTER : byte := x63.
Definition ALLOC : byte := x61.
Definition HISTORY : byte := x68.
Definition RANGE : byte := x6b.
Definition REGION : byte := x72.
Definition STORE : byte := x73.
Definition TSO : byte := x74.
Definition COLUMNAR : byte := x6c.
Definition TAG_BOUNDED : byte := x01.
Definition TAG_UNBOUNDED : byte := x02.

Definition cluster_key : bytes := [PREFIX; CLUSTER].
Definition alloc_key : bytes := [PREFIX; ALLOC].
Definition history_key : bytes := [PREFIX; HISTORY].
Definition columnar_key : bytes := [PREFIX; COLUMNAR].
Definition tso_key : bytes := [PREFIX; TSO].
Definition id_key (kind : byte) (id : N) : bytes := PREFIX :: kind :: be_bytes 8 id.
Definition store_key (store_id : N) : bytes := id_key STORE store_id.
Definition region_key (region_id : N) : bytes := id_key REGION region_id.
Definition key_prefix (kind : byte) : bytes := [PREFIX; kind].
Definition range_key (end_key : bytes) : bytes :=
  if bytes_is_empty end_key then [PREFIX; RANGE; TAG_UNBOUNDED] else [PREFIX; RANGE; TAG_BOUNDED] ++ end_key.
Definition range_seek_key (key : bytes) : bytes := [PREFIX; RANGE; TAG_BOUNDED] ++ key ++ [x00].
Definition end_key_in_range_key (key : bytes) : option (option bytes) :=
  match key with
  | p :: k :: t :: rest =>
      if decide (p <> PREFIX \/ k <> RANGE) then None
      else if decide (t = TAG_BOUNDED) then Some (Some rest)
      else if decide (t = TAG_UNBOUNDED /\ rest = []) then Some None
      else None
  | _ => None
  end.
Definition id_in_key (kind : byte) (key : bytes) : option N :=
  match key with
  | p :: k :: rest => if decide (length rest = 8 /\ p = PREFIX /\ k = kind) then Some (be_value rest) else None
  | _ => None
  end.

(** ** The database *)

Definition Db : Type := btree bytes.
Inductive BatchOp :=
  | BPut (key value : bytes)
  | BDelete (key : bytes)
  | BDeleteRange (start stop : bytes).
Definition WriteBatch : Type := list BatchOp.
Definition db_op (db : Db) (op : BatchOp) : Db :=
  match op with
  | BPut key value => bt_insert key value db
  | BDelete key => bt_remove key db
  | BDeleteRange start stop => List.filter (fun e => negb (bytes_leb start e.1 && bytes_ltb e.1 stop)) db
  end.
(** [Db::write]: a batch lands whole. *)
Definition db_write (batch : WriteBatch) (db : Db) : Db := foldl db_op db batch.
(** [iter.seek(key)]: the entries from the first one at or past [key]. *)
Definition db_seek (key : bytes) (db : Db) : Db := List.filter (fun e => bytes_leb key e.1) db.
Definition starts_with (key p : bytes) : bool := bool_decide (take (length p) key = p).

(** ** [routing.rs] *)

Definition accepts (stored : RegionRecord) (epoch : Epoch) (term : N) : bool :=
  if is_stale_against epoch (rg_epoch (rr_region stored)) then false
  else if decide (epoch = rg_epoch (rr_region stored)) then (rr_term stored <=? term)%N
  else true.

Definition stage_store (batch : WriteBatch) (record : StoreRecord) : WriteBatch :=
  batch ++ [BPut (store_key (sr_store_id record)) (store_encode record)].

Definition stage_region (batch : WriteBatch) (record : RegionRecord) (previous : option RegionRecord) : WriteBatch :=
  let batch :=
    match previous with
    | Some previous =>
        if decide (rg_end_key (rr_region previous) <> rg_end_key (rr_region record))
        then batch ++ [BDelete (range_key (rg_end_key (rr_region previous)))] else batch
    | None => batch
    end in
  batch ++ [BPut (region_key (rg_id (rr_region record))) (region_encode record);
            BPut (range_key (rg_end_key (rr_region record))) (encode_range_entry (rg_id (rr_region record)))].

(** [db.get(key)] and the decoder. *)
Definition read_pd_record {A} (decode : bytes -> result PdError A) (db : Db) (key : bytes) : result PdError (option A) :=
  match bt_get key db with
  | None => Ok None
  | Some bs => let? record := decode bs in Ok (Some record)
  end.
Definition read_region (db : Db) (region_id : N) : result PdError (option RegionRecord) := read_pd_record region_decode db (region_key region_id).
Definition read_store (db : Db) (store_id : N) : result PdError (option StoreRecord) := read_pd_record store_decode db (store_key store_id).

Definition lookup (db : Db) (key : bytes) : result PdError (option RegionRecord) :=
  match db_seek (range_seek_key key) db with
  | [] => Ok None
  | (found, value) :: _ =>
      if negb (starts_with found (key_prefix RANGE)) then Ok None else
      let? region_id := decode_range_entry value in
      let? record := read_region db region_id in
      match record with
      | None => Ok None
      | Some record => if region_contains (rr_region record) key then Ok (Some record) else Ok None
      end
  end.

(** The [while] of [scan_ranges] over the entries the iterator stands before. *)
Fixpoint scan_ranges_loop (db : Db) (limit : nat) (entries : list (bytes * bytes)) (out : list RegionRecord) : result PdError (list RegionRecord) :=
  match entries with
  | [] => Ok out
  | (k, v) :: entries =>
      if negb (starts_with k (key_prefix RANGE) && bool_decide (length out < limit)) then Ok out else
      let? region_id := decode_range_entry v in
      let? record := read_region db region_id in
      scan_ranges_loop db limit entries (match record with Some record => out ++ [record] | None => out end)
  end.
Definition scan_ranges (db : Db) (start_key : bytes) (limit : nat) : result PdError (list RegionRecord) :=
  if decide (limit = 0) then Ok [] else scan_ranges_loop db limit (db_seek (range_seek_key start_key) db) [].

Fixpoint scan_loop {A} (decode : bytes -> result PdError A) (kind : byte) (entries : list (bytes * bytes)) (out : list A) : result PdError (list A) :=
  match entries with
  | [] => Ok out
  | (k, v) :: entries =>
      if starts_with k (key_prefix kind)
      then let? record := decode v in scan_loop decode kind entries (out ++ [record])
      else Ok out
  end.
Definition regions (db : Db) : result PdError (list RegionRecord) := scan_loop region_decode REGION (db_seek (key_prefix REGION) db) [].
Definition stores (db : Db) : result PdError (list StoreRecord) := scan_loop store_decode STORE (db_seek (key_prefix STORE) db) [].

Definition is_down (store : StoreRecord) (now_ms max_down_ms : N) : bool :=
  (max_down_ms <? sat_sub now_ms (sr_last_heartbeat_ms store))%N.
Definition down_stores (all : list StoreRecord) (now_ms max_down_ms : N) : list N :=
  sr_store_id <$> List.filter (fun store => is_down store now_ms max_down_ms) all.

(** ** A split, as the stores carry it out ([esker-store], [split_region]) *)

Definition peer_le (a b : Peer) : Prop := (pe_peer_id a <= pe_peer_id b)%N.
#[export] Instance peer_le_dec a b : Decision (peer_le a b) := decide (pe_peer_id a <= pe_peer_id b)%N.

Inductive SplitError := SplitPeerIds | SplitId.
Definition split_region (parent : Region) (split_key : bytes) (new_region_id : N) (new_peer_ids : list N) : result SplitError (Region * Region) :=
  if decide (length new_peer_ids <> length (rg_peers parent)) then Err SplitPeerIds
  else if decide (new_region_id = 0%N \/ new_region_id = rg_id parent \/ 0%N ∈ new_peer_ids) then Err SplitId
  else
    let peers := merge_sort peer_le (rg_peers parent) in
    let child_peers := zip_with (fun peer peer_id => mkPeer (pe_store_id peer) peer_id (pe_role peer)) peers new_peer_ids in
    let epoch := mkEpoch (ep_conf_ver (rg_epoch parent)) (ep_version (rg_epoch parent) +% 1) in
    Ok (mkRegion (rg_id parent) (rg_start_key parent) split_key (rg_peers parent) epoch,
        mkRegion new_region_id split_key (rg_end_key parent) child_peers epoch).

(** ** Order *)

Lemma bytes_ltb_lt a b : bytes_ltb a b = true <-> bytes_cmp a b = Lt.
Proof. unfold bytes_ltb. by destruct (bytes_cmp a b). Qed.
Lemma bytes_leb_ltb a b : bytes_leb a b = negb (bytes_ltb b a).
Proof. unfold bytes_leb, bytes_ltb. rewrite (bytes_cmp_antisym a b). by destruct (bytes_cmp a b). Qed.
Lemma bytes_leb_ge a b : bytes_leb a b = true <-> bytes_cmp b a <> Lt.
Proof. rewrite bytes_leb_ltb, negb_true_iff, <- not_true_iff_false, bytes_ltb_lt. done. Qed.
Lemma bytes_lt_le_trans a b c : bytes_cmp a b = Lt -> bytes_cmp c b <> Lt -> bytes_cmp a c = Lt.
Proof.
  intros H1 H2. destruct (bytes_cmp b c) eqn:E.
  - apply bytes_cmp_eq in E as <-. done.
  - by eapply bytes_cmp_lt_trans.
  - rewrite bytes_cmp_antisym, E in H2. done.
Qed.
Lemma bytes_le_lt_trans a b c : bytes_cmp b a <> Lt -> bytes_cmp b c = Lt -> bytes_cmp a c = Lt.
Proof.
  intros H1 H2. destruct (bytes_cmp a b) eqn:E.
  - apply bytes_cmp_eq in E as ->. done.
  - by eapply bytes_cmp_lt_trans.
  - rewrite bytes_cmp_antisym, E in H1. done.
Qed.

(** [key ++ 0x00] is the immediate successor of [key]. *)
Lemma bytes_succ a b : bytes_leb (a ++ [x00]) b = bytes_ltb a b.
Proof.
  unfold bytes_leb, bytes_ltb. revert b; induction a as [|x a IH]; intros [|y b]; cbn [app bytes_cmp]; try done.
  - destruct (N.compare_spec (b2n x00) (b2n y)) as [| |H]; [by destruct b|done|]. change (b2n x00) with 0%N in H. lia.
  - destruct (N.compare_spec (b2n x) (b2n y)); [apply IH|done..].
Qed.

(** ** Keys *)

Lemma range_key_seek key e : bytes_leb (range_seek_key key) (range_key e) = bytes_is_empty e || bytes_ltb key e.
Proof.
  unfold range_seek_key, range_key. destruct e as [|b e]; [done|]. cbn [bytes_is_empty orb].
  unfold bytes_leb. rewrite bytes_cmp_app. rewrite <- bytes_succ. done.
Qed.
Lemma range_key_inj e e' : range_key e = range_key e' -> e = e'.
Proof. unfold range_key. destruct e, e'; cbn; congruence. Qed.
Lemma region_key_inj a b : (a < two64)%N -> (b < two64)%N -> region_key a = region_key b -> a = b.
Proof.
  intros Ha Hb E. apply (f_equal (drop 2)) in E. change (be_bytes 8 a = be_bytes 8 b) in E. rewrite <- (be_value_bytes 8 a), <- (be_value_bytes 8 b) by done. by rewrite E.
Qed.
Lemma range_key_kind e : starts_with (range_key e) (key_prefix RANGE) = true.
Proof. unfold range_key. by destruct e. Qed.
Lemma region_key_kind i : starts_with (region_key i) (key_prefix RANGE) = false.
Proof. done. Qed.
Lemma region_range_ne i e : region_key i <> range_key e.
Proof. unfold range_key. by destruct e. Qed.

(** Index keys are ordered by end key, the empty one last. *)
Lemma range_key_cmp e e' : bytes_cmp (range_key e) (range_key e') = Lt <->
  e <> [] /\ (e' = [] \/ bytes_cmp e e' = Lt).
Proof.
  unfold range_key. destruct e as [|b e], e' as [|b' e']; cbn [bytes_is_empty].
  - split; [done|]. by intros [? _].
  - split; [done|]. by intros [? _].
  - split; [by split; [|left]|done].
  - rewrite bytes_cmp_app. split; [by split; [|right]|]. by intros [_ [|]].
Qed.

(** ** Writing *)

Lemma db_op_sorted db op : bt_sorted db -> (forall a b, op <> BDeleteRange a b) -> bt_sorted (db_op db op).
Proof. intros Hs Hr. destruct op; cbn; eauto with esker. by destruct (Hr start stop). Qed.

(** ** The table *)

(** A stored region. *)
Definition region_at (db : Db) (r : RegionRecord) : Prop :=
  bt_get (region_key (rg_id (rr_region r))) db = Some (region_encode r) /\ region_record_ok r.
Definition indexed (db : Db) (r : RegionRecord) : Prop :=
  bt_get (range_key (rg_end_key (rr_region r))) db = Some (encode_range_entry (rg_id (rr_region r))).

(** Every record decodes and is stored under its own id, and every index entry
    names a stored region that ends where the entry says. *)
Record table_ok (db : Db) : Prop := {
  tk_sorted : bt_sorted db;
  tk_records : forall i v, (i < two64)%N -> bt_get (region_key i) db = Some v ->
    exists r, v = region_encode r /\ region_record_ok r /\ rg_id (rr_region r) = i;
  tk_index : forall k v, bt_get k db = Some v -> starts_with k (key_prefix RANGE) = true ->
    exists r, region_at db r /\ k = range_key (rg_end_key (rr_region r)) /\ v = encode_range_entry (rg_id (rr_region r));
}.

Definition share (a b : Region) : Prop := exists key, region_contains a key = true /\ region_contains b key = true.
(** A range that is not empty. *)
Definition proper (r : Region) : Prop := region_contains r (rg_start_key r) = true.

(** A table that is a partition with every region in its index. *)
Record routed (db : Db) : Prop := {
  rt_table : table_ok db;
  rt_indexed : forall r, region_at db r -> indexed db r;
  rt_disjoint : forall r r', region_at db r -> region_at db r' -> rg_id (rr_region r) <> rg_id (rr_region r') ->
    ~ share (rr_region r) (rr_region r');
  rt_proper : forall r, region_at db r -> proper (rr_region r);
}.

Lemma region_ok_id r : region_record_ok r -> (rg_id (rr_region r) < two64)%N.
Proof. intros [[H _] _]. by apply u64_ok_cons in H as [? _]. Qed.

Lemma read_region_at db i : table_ok db -> (i < two64)%N ->
  (exists r, read_region db i = Ok (Some r) /\ region_at db r /\ rg_id (rr_region r) = i) \/
  (read_region db i = Ok None /\ bt_get (region_key i) db = None).
Proof.
  intros Ht Hi. unfold read_region, read_pd_record. destruct (bt_get (region_key i) db) as [v|] eqn:G; [|by right].
  destruct (tk_records db Ht i v Hi G) as (r & -> & Ho & Hid). left. exists r.
  rewrite (proj2 (region_decode_exact _ r)) by done. split; [done|]. split; [|done]. split; [by rewrite Hid|done].
Qed.

Lemma read_region_stored db r : region_at db r -> read_region db (rg_id (rr_region r)) = Ok (Some r).
Proof. intros [G Ho]. unfold read_region, read_pd_record. rewrite G. by rewrite (proj2 (region_decode_exact _ r)). Qed.

Lemma region_at_inj db r r' : region_at db r -> region_at db r' -> rg_id (rr_region r) = rg_id (rr_region r') -> r = r'.
Proof. intros H%read_region_stored H'%read_region_stored E. rewrite E, H' in H. congruence. Qed.

(** ** Looking a key up *)

Lemma db_seek_elem key db e : e ∈ db_seek key db <-> e ∈ db /\ bytes_leb key e.1 = true.
Proof. unfold db_seek. rewrite !list_elem_of_In, List.filter_In. done. Qed.

Lemma db_seek_sorted key db : bt_sorted db -> bt_sorted (db_seek key db).
Proof.
  induction db as [|[k v] db IH]; cbn [db_seek List.filter bt_sorted]; [done|].
  intros [Hk Hs]. cbn [fst]. destruct (bytes_leb key k); cbn [bt_sorted]; [|by apply IH].
  split; [|by apply IH]. intros e [He _]%db_seek_elem. by apply Hk.
Qed.

Lemma db_seek_head key db k v rest : bt_sorted db -> db_seek key db = (k, v) :: rest ->
  bt_get k db = Some v /\ bytes_leb key k = true /\
  (forall k' v', bt_get k' db = Some v' -> bytes_leb key k' = true -> k' = k \/ bytes_cmp k k' = Lt).
Proof.
  intros Hs E. pose proof (db_seek_sorted key db Hs) as Hs'. rewrite E in Hs'. destruct Hs' as [Hk _].
  assert ((k, v) ∈ db_seek key db) as [He Hl]%db_seek_elem by (rewrite E; left).
  split; [by apply bt_get_elem|]. split; [done|]. intros k' v' G Hl'.
  assert ((k', v') ∈ db_seek key db) as He' by (apply db_seek_elem; split; [by apply bt_get_elem|done]).
  rewrite E in He'. apply elem_of_cons in He' as [[= -> ->]|He']; [by left|]. right. by apply (Hk (k', v')).
Qed.

(** What a lookup can answer in any table: nothing, or a stored region that is
    in the index and contains the key. *)
Lemma lookup_sound db key : table_ok db ->
  lookup db key = Ok None \/
  exists r, lookup db key = Ok (Some r) /\ region_at db r /\ indexed db r /\ region_contains (rr_region r) key = true.
Proof.
  intros Ht. unfold lookup. destruct (db_seek (range_seek_key key) db) as [|[k v] rest] eqn:E; [by left|].
  apply db_seek_head in E as (G & _ & _); [|by apply Ht].
  destruct (starts_with k (key_prefix RANGE)) eqn:P; cbn [negb]; [|by left].
  destruct (tk_index db Ht k v G P) as (r & Hr & -> & ->).
  rewrite (proj2 (range_entry_exact _ (rg_id (rr_region r)))) by (split; [apply region_ok_id, Hr|done]). cbn [rbind].
  rewrite read_region_stored by done. cbn [rbind]. destruct (region_contains _ key) eqn:C; [|by left].
  right. exists r. done.
Qed.

Lemma contains_iff r key : region_contains r key = true <->
  bytes_cmp key (rg_start_key r) <> Lt /\ (rg_end_key r = [] \/ bytes_cmp key (rg_end_key r) = Lt).
Proof.
  unfold region_contains. rewrite andb_true_iff, orb_true_iff, bytes_leb_ge, bytes_ltb_lt.
  destruct (rg_end_key r); cbn; intuition congruence.
Qed.

(** Two disjoint regions that end past a key only one of them contains: the
    one that contains it ends first. *)
Lemma ends_first r r' key : region_contains r key = true -> proper r' -> ~ share r r' ->
  rg_end_key r' = [] \/ bytes_cmp key (rg_end_key r') = Lt ->
  rg_end_key r <> [] /\ (rg_end_key r' = [] \/ bytes_cmp (rg_end_key r) (rg_end_key r') = Lt).
Proof.
  intros C P D E'. pose proof C as [C1 C2]%contains_iff. pose proof P as [_ P2]%contains_iff.
  assert (bytes_cmp key (rg_start_key r') = Lt) as Hbelow.
  { destruct (bytes_cmp key (rg_start_key r')) eqn:E; [| done |]; destruct D; exists key; (split; [done|]);
      apply contains_iff; (split; [congruence|done]). }
  assert (~ (rg_end_key r = [] \/ bytes_cmp (rg_start_key r') (rg_end_key r) = Lt)) as Hout.
  { intros H. apply D. exists (rg_start_key r'). split; [|done]. apply contains_iff. split; [|done]. intros H'.
    apply C1. by eapply bytes_cmp_lt_trans. }
  split; [tauto|]. destruct P2 as [->|P2]; [by left|right].
  eapply bytes_le_lt_trans; [|exact P2]. tauto.
Qed.

Lemma between_prefix p a b k : bytes_leb (p ++ a) k = true -> bytes_cmp k (p ++ b) = Lt -> take (length p) k = p.
Proof.
  unfold bytes_leb. revert k; induction p as [|x p IH]; intros k; [done|]. destruct k as [|y k]; [done|].
  cbn [app bytes_cmp length take]. destruct (N.compare_spec (b2n x) (b2n y)) as [E|L|L]; [| |done].
  - apply b2n_inj in E as ->. rewrite N.compare_refl. intros H1 H2. f_equal. by apply IH.
  - rewrite (proj2 (N.compare_gt_iff (b2n y) (b2n x))) by done. done.
Qed.

(** The index entry of the region that contains a key is the first one at or
    past the key. *)
Lemma index_first db r key k v : routed db -> region_at db r -> region_contains (rr_region r) key = true ->
  bt_get k db = Some v -> bytes_leb (range_seek_key key) k = true -> bytes_cmp k (range_key (rg_end_key (rr_region r))) <> Lt.
Proof.
  intros Hr Ha C G Hl Hlt. pose proof (rt_table db Hr) as Ht.
  assert (starts_with k (key_prefix RANGE) = true) as P.
  { unfold starts_with. apply bool_decide_eq_true. unfold range_key in Hlt. destruct (bytes_is_empty _);
      exact (between_prefix (key_prefix RANGE) _ _ k Hl Hlt). }
  destruct (tk_index db Ht k v G P) as (r' & Ha' & -> & _).
  rewrite range_key_seek, orb_true_iff, bytes_ltb_lt in Hl.
  assert (rg_id (rr_region r) <> rg_id (rr_region r')) as Hne.
  { intros Eid. rewrite (region_at_inj db r r' Ha Ha' Eid) in Hlt. by rewrite bytes_cmp_refl in Hlt. }
  pose proof (ends_first (rr_region r) (rr_region r') key C (rt_proper db Hr r' Ha') (rt_disjoint db Hr r r' Ha Ha' Hne)) as Hor.
  assert (bytes_cmp (range_key (rg_end_key (rr_region r))) (range_key (rg_end_key (rr_region r'))) = Lt) as Hlt'.
  { apply range_key_cmp, Hor. destruct Hl as [Hl|Hl]; [left|by right]. by destruct (rg_end_key (rr_region r')). }
  rewrite bytes_cmp_antisym, Hlt' in Hlt. done.
Qed.

(** In a partition every stored region answers for its keys. *)
Lemma lookup_complete db r key : routed db -> region_at db r -> region_contains (rr_region r) key = true ->
  lookup db key = Ok (Some r).
Proof.
  intros Hr Ha C. pose proof (rt_table db Hr) as Ht. pose proof (rt_indexed db Hr r Ha) as Hi.
  pose proof C as [C1 C2]%contains_iff.
  assert (bytes_leb (range_seek_key key) (range_key (rg_end_key (rr_region r))) = true) as Hs.
  { rewrite range_key_seek, orb_true_iff, bytes_ltb_lt. destruct C2 as [->|]; [by left|by right]. }
  unfold lookup. destruct (db_seek (range_seek_key key) db) as [|[k v] rest] eqn:E.
  - assert ((range_key (rg_end_key (rr_region r)), encode_range_entry (rg_id (rr_region r))) ∈ db_seek (range_seek_key key) db) as He.
    { apply db_seek_elem. split; [|done]. apply bt_get_elem; [by apply Ht|done]. }
    rewrite E in He. by apply elem_of_nil in He.
  - apply db_seek_head in E as (G & Hl & Hmin); [|by apply Ht].
    destruct (Hmin _ _ Hi Hs) as [<-|Hlt]; [|by destruct (index_first db r key k v Hr Ha C G Hl)].
    rewrite Hi in G. injection G as [= <-]. rewrite range_key_kind. cbn [negb].
    rewrite (proj2 (range_entry_exact _ (rg_id (rr_region r)))) by (split; [apply region_ok_id, Ha|done]). cbn [rbind].
    rewrite read_region_stored by done. cbn [rbind]. by rewrite C.
Qed.

(** ** A heartbeat that was accepted *)

(** The database after a beat: [stage_region] against the record held. *)
Definition beat (db : Db) (record : RegionRecord) (previous : option RegionRecord) : Db := db_write (stage_region [] record previous) db.

Section Beat.
Context (db : Db) (record : RegionRecord) (previous : option RegionRecord).
Context (Hok : region_record_ok record) (Hs : bt_sorted db).

Lemma beat_sorted : bt_sorted (beat db record previous).
Proof using Hs.
  unfold beat, stage_region, db_write. destruct previous; [case_decide|]; cbn; eauto 10 with esker.
Qed.

Lemma beat_get k : bt_get k (beat db record previous) =
  if decide (k = range_key (rg_end_key (rr_region record))) then Some (encode_range_entry (rg_id (rr_region record)))
  else if decide (k = region_key (rg_id (rr_region record))) then Some (region_encode record)
  else if decide (Some k = (fun p => range_key (rg_end_key (rr_region p))) <$> previous) then None
  else bt_get k db.
Proof using Hs.
  unfold beat, stage_region, db_write. destruct previous as [p|]; [case_decide as D|]; cbn [app foldl db_op fmap option_fmap option_map];
    rewrite !bt_get_insert by eauto with esker; repeat case_decide; simplify_eq; try done.
  - rewrite bt_get_remove by done. by rewrite decide_True.
  - rewrite bt_get_remove by done. rewrite decide_False by congruence. done.
  - congruence.
Qed.

Lemma beat_region i : (i < two64)%N -> bt_get (region_key i) (beat db record previous) =
  if decide (i = rg_id (rr_region record)) then Some (region_encode record) else bt_get (region_key i) db.
Proof using Hok Hs.
  intros Hi. rewrite beat_get, decide_False by apply region_range_ne.
  destruct (decide (i = _)) as [->|Hne]; [by rewrite decide_True|].
  rewrite decide_False by (intros E; apply Hne, region_key_inj; [done|by apply region_ok_id|done]).
  rewrite decide_False; [done|]. destruct previous; cbn; [|done]. intros [= E]. by apply region_range_ne in E.
Qed.

Lemma beat_index e : bt_get (range_key e) (beat db record previous) =
  if decide (e = rg_end_key (rr_region record)) then Some (encode_range_entry (rg_id (rr_region record)))
  else if decide (Some e = (fun p => rg_end_key (rr_region p)) <$> previous) then None
  else bt_get (range_key e) db.
Proof using Hs.
  rewrite beat_get. destruct (decide (e = _)) as [->|Hne]; [by rewrite decide_True|].
  rewrite decide_False by (by intros ?%range_key_inj). rewrite decide_False by (intros E; symmetry in E; by apply region_range_ne in E).
  destruct previous as [p|]; cbn; [|done]. destruct (decide (Some e = _)) as [[= ->]|Hp]; [by rewrite decide_True|].
  rewrite decide_False; [done|]. intros [= E%range_key_inj]. congruence.
Qed.

End Beat.

Lemma beat_region_at db record previous r : region_record_ok record -> bt_sorted db ->
  region_at (beat db record previous) r <->
  (if decide (rg_id (rr_region r) = rg_id (rr_region record)) then r = record else region_at db r).
Proof.
  intros Ho Hs. unfold region_at. split.
  - intros [G Hr]. rewrite beat_region in G by (done || by apply region_ok_id). case_decide; [|done].
    injection G as [= G]. pose proof (proj2 (region_decode_exact _ r) (conj Hr eq_refl)) as D.
    rewrite <- G, (proj2 (region_decode_exact _ record)) in D by done. congruence.
  - intros H. case_decide as E.
    + subst r. rewrite beat_region by (done || by apply region_ok_id). by rewrite decide_True.
    + destruct H as [G Hr]. rewrite beat_region by (done || by apply region_ok_id). by rewrite decide_False.
Qed.

(** An accepted beat keeps the index sound, whatever order beats arrive in. *)
Lemma beat_table_ok db record previous : table_ok db -> region_record_ok record ->
  read_region db (rg_id (rr_region record)) = Ok previous -> table_ok (beat db record previous).
Proof.
  intros Ht Ho Hp. pose proof (tk_sorted db Ht) as Hs. split.
  - by apply beat_sorted.
  - intros i v Hi. rewrite beat_region by done. case_decide as E.
    + intros [= <-]. by exists record.
    + by apply Ht.
  - intros k v G P. rewrite beat_get in G by done. case_decide as E1.
    + injection G as [= <-]. exists record. split; [|done]. apply beat_region_at; [done..|]. by rewrite decide_True.
    + case_decide as E2; [subst k; by rewrite region_key_kind in P|]. case_decide as E3; [done|].
      destruct (tk_index db Ht k v G P) as (r & Ha & -> & ->). exists r. split; [|done].
      apply beat_region_at; [done..|]. rewrite decide_False; [done|]. intros Eid.
      apply read_region_stored in Ha. rewrite Eid, Hp in Ha. injection Ha as [= ->]. by destruct E3.
Qed.

Lemma same_end_share a b : proper a -> proper b -> rg_end_key a = rg_end_key b -> share a b.
Proof.
  intros Pa Pb E. apply contains_iff in Pa as [_ Pa], Pb as [_ Pb].
  destruct (bytes_cmp (rg_start_key a) (rg_start_key b)) eqn:C.
  1, 2: exists (rg_start_key b); rewrite !contains_iff; (split; (split; [|congruence])); [rewrite bytes_cmp_antisym, C; done|by rewrite bytes_cmp_refl].
  exists (rg_start_key a). rewrite !contains_iff. split; (split; [|congruence]); [by rewrite bytes_cmp_refl|by rewrite C].
Qed.

(** A beat that keeps the records a partition keeps the table routed. *)
Lemma beat_routed db record previous : routed db -> region_record_ok record -> proper (rr_region record) ->
  read_region db (rg_id (rr_region record)) = Ok previous ->
  (forall r, region_at db r -> rg_id (rr_region r) <> rg_id (rr_region record) -> ~ share (rr_region r) (rr_region record)) ->
  routed (beat db record previous).
Proof.
  intros Hr Ho Hpr Hp Hd. pose proof (rt_table db Hr) as Ht. pose proof (tk_sorted db Ht) as Hs. split.
  - by apply beat_table_ok.
  - intros r Ha%beat_region_at; [|done..]. unfold indexed. rewrite beat_index by done. case_decide as Eid.
    + subst r. by rewrite decide_True.
    + rewrite decide_False by (intros E; apply (Hd r Ha Eid), same_end_share; [by apply (rt_proper db Hr)|done..]).
      destruct previous as [p|]; cbn; [|by apply (rt_indexed db Hr)]. rewrite decide_False; [by apply (rt_indexed db Hr)|].
      intros [= E]. destruct (read_region_at db (rg_id (rr_region record)) Ht ltac:(by apply region_ok_id)) as [(p' & Hp' & Ha' & Eid')|[Hp' _]];
        rewrite Hp in Hp'; [|done]. injection Hp' as [= ->]. rewrite <- Eid' in Eid.
      apply (rt_disjoint db Hr r p' Ha Ha' Eid), same_end_share; [by apply (rt_proper db Hr)..|done].
  - intros r r' Ha%beat_region_at Ha'%beat_region_at Hne; [|done..]. repeat case_decide; subst; try done; eauto.
    + intros (k & ? & ?). eapply Hd; [exact Ha'|congruence|]. by exists k.
    + by apply (rt_disjoint db Hr).
  - intros r Ha%beat_region_at; [|done..]. case_decide; [by subst|]. by apply (rt_proper db Hr).
Qed.
