(* ===== verification/PdMachine.v ===== *)
(** The placement driver's replicated state machine,
    [esker-pd/src/machine.rs]: what a committed command does to the records and
    to their in-memory mirrors, the snapshot of them, and the two ways
    [PdCore::discharge] ([esker-pd/src/driver.rs]) applies a run of committed
    entries. *)

From Stdlib Require Import Strings.String Strings.Byte.
From stdpp Require Import prelude sorting.
From Stdlib Require Import NArith ZArith Lia.
From S2P Require Import Prelude Varint Endian Utf8 ProtoCodec PdRecord BTree PdRouting.

(** ** The state machine *)

Record Bootstrapped := mkBootstrapped { bo_cluster_id : N; bo_region : option Region }.
Inductive Upsert := Applied | Stale.
Inductive Answer :=
  | ADone
  | ABootstrapped (done : Bootstrapped)
  | AUpserted (upsert : Upsert).

Record AppliedState := mkApplied {
  as_cluster : option ClusterRecord;
  as_allocated_end : N;
  as_high_water_ms : N;
  as_history : HistoryRecord;
  as_columnar : ColumnarRecord;
}.

(** [Machine::load]: the five singleton records. *)
Definition machine_load (db : Db) : result PdError AppliedState :=
  let? cluster := read_pd_record cluster_decode db cluster_key in
  let? alloc := read_pd_record alloc_decode db alloc_key in
  let? tso := read_pd_record tso_decode db tso_key in
  let? history := read_pd_record history_decode db history_key in
  let? columnar := read_pd_record columnar_decode db columnar_key in
  Ok (mkApplied cluster (from_option ar_allocated_end 0%N alloc) (from_option tr_high_water_ms 0%N tso)
        (default (mkHistory []) history) (default (mkColumnar []) columnar)).

Definition store_record (db : Db) (store_id : N) (address : bytes) (now_ms : N) : result PdError StoreRecord :=
  let? existing := read_store db store_id in
  Ok (mkStore store_id address now_ms now_ms (from_option sr_stats StoreStats_default existing)).

Definition machine_bootstrap (db : Db) (applied : AppliedState) (batch : WriteBatch) (store_id : N) (address : bytes)
    (base_id cluster_id now_ms : N) : result PdError (AppliedState * WriteBatch * Answer) :=
  let? store := store_record db store_id address now_ms in
  match as_cluster applied with
  | Some cluster => Ok (applied, stage_store batch store, ABootstrapped (mkBootstrapped (cr_cluster_id cluster) None))
  | None =>
      let region := Region_bootstrap base_id store_id (base_id +% 1) in
      let cluster := mkCluster cluster_id (rg_id region) now_ms in
      let batch := batch ++ [BPut cluster_key (cluster_encode cluster)] in
      let batch := stage_store batch store in
      let batch := stage_region batch (RegionRecord_new region now_ms) None in
      Ok (mkApplied (Some cluster) (as_allocated_end applied) (as_high_water_ms applied) (as_history applied) (as_columnar applied),
          batch, ABootstrapped (mkBootstrapped cluster_id (Some region)))
  end.

(** [Machine::apply]: reads [db], moves the mirrors, stages into [batch]. *)
Definition apply_command (db : Db) (applied : AppliedState) (command : Command) (batch : WriteBatch)
    : result PdError (AppliedState * WriteBatch * Answer) :=
  match command with
  | TakeOffice _ _ => Ok (applied, batch, ADone)
  | Bootstrap store_id address base_id cluster_id now_ms =>
      machine_bootstrap db applied batch store_id address base_id cluster_id now_ms
  | ReserveIds end_ =>
      let allocated_end := N.max (as_allocated_end applied) end_ in
      Ok (mkApplied (as_cluster applied) allocated_end (as_high_water_ms applied) (as_history applied) (as_columnar applied),
          batch ++ [BPut alloc_key (alloc_encode (mkAlloc allocated_end))], ADone)
  | AdvanceTso mark =>
      let high_water_ms := N.max (as_high_water_ms applied) mark in
      Ok (mkApplied (as_cluster applied) (as_allocated_end applied) high_water_ms (as_history applied) (as_columnar applied),
          batch ++ [BPut tso_key (tso_encode (mkTso high_water_ms))], ADone)
  | StoreBeat store_id stats now_ms =>
      let? existing := read_store db store_id in
      match existing with
      | None => Ok (applied, batch, ADone)
      | Some existing =>
          Ok (applied, stage_store batch (mkStore (sr_store_id existing) (sr_address existing) (sr_started_ms existing) now_ms stats), ADone)
      end
  | RegionBeat record =>
      let? previous := read_region db (rg_id (rr_region record)) in
      if from_option (fun held => negb (accepts held (rg_epoch (rr_region record)) (rr_term record))) false previous
      then Ok (applied, batch, AUpserted Stale)
      else Ok (applied, stage_region batch record previous, AUpserted Applied)
  | Columnar wishes =>
      Ok (mkApplied (as_cluster applied) (as_allocated_end applied) (as_high_water_ms applied) (as_history applied) (mkColumnar wishes),
          batch ++ [BPut columnar_key (columnar_encode (mkColumnar wishes))], ADone)
  | History event =>
      let history := history_push (as_history applied) event in
      Ok (mkApplied (as_cluster applied) (as_allocated_end applied) (as_high_water_ms applied) history (as_columnar applied),
          batch ++ [BPut history_key (history_encode history)], ADone)
  end.

(** ** Applying a run of committed entries

    [PdCore::discharge] applies each entry in a batch of its own when the
    [Ready] carries messages, and stages all of them into the one batch that
    persists the [Ready] when it carries none. *)

(** [PdCore::stage_apply] for a [Normal] entry that carries a command: an
    error of [Machine::apply] is the entry's outcome and stops nothing. *)
Definition stage_apply (db : Db) (applied : AppliedState) (command : Command) (batch : WriteBatch)
    : AppliedState * WriteBatch * result PdError Answer :=
  match apply_command db applied command batch with
  | Ok (applied, batch, answer) => (applied, batch, Ok answer)
  | Err e => (applied, batch, Err e)
  end.

(** With messages to send: [PdCore::apply] entry by entry. *)
Fixpoint apply_each (cs : list Command) (db : Db) (applied : AppliedState) : Db * AppliedState * list (result PdError Answer) :=
  match cs with
  | [] => (db, applied, [])
  | c :: cs =>
      let '(applied, batch, outcome) := stage_apply db applied c [] in
      let '(db, applied, outcomes) := apply_each cs (db_write batch db) applied in
      (db, applied, outcome :: outcomes)
  end.

(** Alone: every entry staged into [batch] before the one write. *)
Fixpoint stage_all (cs : list Command) (db : Db) (applied : AppliedState) (batch : WriteBatch)
    : AppliedState * WriteBatch * list (result PdError Answer) :=
  match cs with
  | [] => (applied, batch, [])
  | c :: cs =>
      let '(applied, batch, outcome) := stage_apply db applied c batch in
      let '(applied, batch, outcomes) := stage_all cs db applied batch in
      (applied, batch, outcome :: outcomes)
  end.
Definition apply_together (cs : list Command) (db : Db) (applied : AppliedState) : Db * AppliedState * list (result PdError Answer) :=
  let '(applied, batch, outcomes) := stage_all cs db applied [] in
  (db_write batch db, applied, outcomes).

(** One [Ready] after another, as far as the state machine sees it: whether it
    carries no messages, and the commands of its committed entries.  A [Ready]
    that installs a snapshot is [machine_install]. *)
Fixpoint discharge_readies (readies : list (bool * list Command)) (db : Db) (applied : AppliedState) : Db * AppliedState * list (result PdError Answer) :=
  match readies with
  | [] => (db, applied, [])
  | (alone, cs) :: readies =>
      let '(db, applied, outcomes) := if alone : bool then apply_together cs db applied else apply_each cs db applied in
      let '(db, applied, later) := discharge_readies readies db applied in
      (db, applied, outcomes ++ later)
  end.

(** ** Snapshots *)

Definition SNAPSHOT_VERSION : byte := x01.
(** The default column family, pair by pair. *)
Definition machine_snapshot (db : Db) : bytes :=
  let pairs := foldl (fun out e => out |> put_bytes e.1 |> put_bytes e.2) [] db in
  [] |> put_u8 SNAPSHOT_VERSION |> put_varint (N.of_nat (length db)) |> put_bytes pairs.

Definition get_pair (d : Decoder) : result PdError ((bytes * bytes) * Decoder) :=
  let? (key, d) := fld "pd snapshot" (get_bytes "snapshot.key") d in
  let? (value, d) := fld "pd snapshot" (get_bytes "snapshot.value") d in
  Ok ((key, value), d).
Definition machine_install (data : bytes) (batch : WriteBatch) : result PdError WriteBatch :=
  let what := "pd snapshot"%string in
  let? (version, input) := fld what (get_u8 "snapshot.version") (Decoder_new data) in
  if decide (version <> SNAPSHOT_VERSION) then Err (PdCorrupt what) else
  let? (count, input) := fld what (get_count "snapshot.count") input in
  let? (body, input) := fld what (get_bytes "snapshot.pairs") input in
  let? _ := rmap_err (fun _ => PdCorrupt what) (de_finish input) in
  let batch := batch ++ [BDeleteRange [PREFIX] [n2b (b2n PREFIX + 1)]] in
  let? (pairs, input) := get_list get_pair count (Decoder_new body) in
  let? _ := rmap_err (fun _ => PdCorrupt what) (de_finish input) in
  Ok (batch ++ ((fun p => BPut p.1 p.2) <$> pairs)).

(** ** What a batch touches *)

Definition op_touches (k : bytes) (op : BatchOp) : Prop :=
  match op with BPut k' _ | BDelete k' => k' = k | BDeleteRange _ _ => True end.

Lemma db_write_app b b' db : db_write (b ++ b') db = db_write b' (db_write b db).
Proof. apply foldl_app. Qed.

Lemma db_write_untouched k batch db : bt_sorted db -> Forall (fun op => ~ op_touches k op) batch ->
  bt_sorted (db_write batch db) /\ bt_get k (db_write batch db) = bt_get k db.
Proof.
  intros Hs Hb. revert db Hs; induction Hb as [|op batch Hop _ IH]; intros db Hs; [done|].
  destruct op as [k' v|k'|a b]; cbn in Hop; [| |tauto]; cbn [db_write foldl db_op].
  - destruct (IH (bt_insert k' v db)) as [? E]; [eauto with esker|]. split; [done|].
    etrans; [exact E|]. rewrite bt_get_insert by done. by rewrite decide_False by congruence.
  - destruct (IH (bt_remove k' db)) as [? E]; [eauto with esker|]. split; [done|].
    etrans; [exact E|]. rewrite bt_get_remove by done. by rewrite decide_False by congruence.
Qed.

(** The singleton records have two-byte keys, every other key is longer. *)
Definition long_ops (batch : WriteBatch) : Prop :=
  Forall (fun op => match op with BPut k _ | BDelete k => 2 < length k | BDeleteRange _ _ => False end) batch.
Lemma long_untouched k batch : length k = 2 -> long_ops batch -> Forall (fun op => ~ op_touches k op) batch.
Proof. intros Hk Hb. eapply Forall_impl; [exact Hb|]. intros [k' v|k'|a b]; cbn; [intros H E; subst; lia..|done]. Qed.

Lemma range_key_long e : 2 < length (range_key e).
Proof. unfold range_key. destruct e; cbn; lia. Qed.
Lemma stage_store_long r : long_ops (stage_store [] r).
Proof. repeat constructor. Qed.
Lemma stage_region_long r previous : long_ops (stage_region [] r previous).
Proof.
  unfold stage_region. destruct previous; [case_decide|]; cbn; repeat constructor; try apply range_key_long; cbn; lia.
Qed.
Lemma stage_store_app b r : stage_store b r = b ++ stage_store [] r.
Proof. done. Qed.
Lemma stage_region_app b r previous : stage_region b r previous = b ++ stage_region [] r previous.
Proof. unfold stage_region. destruct previous; [case_decide|]; cbn; by rewrite <- ?app_assoc. Qed.

(** ** The mirrors are the records *)

Definition mirrors (db : Db) (st : AppliedState) : Prop := machine_load db = Ok st.

Record applied_ok (st : AppliedState) : Prop := {
  ao_cluster : from_option cluster_ok True (as_cluster st);
  ao_counters : u64_ok [as_allocated_end st; as_high_water_ms st];
  ao_history : history_ok (as_history st);
  ao_columnar : columnar_ok (as_columnar st);
}.

Lemma read_pd_record_untouched {A} (decode : bytes -> result PdError A) db batch k : bt_sorted db -> length k = 2 -> long_ops batch ->
  read_pd_record decode (db_write batch db) k = read_pd_record decode db k.
Proof.
  intros Hs Hk Hl. unfold read_pd_record. by destruct (db_write_untouched k batch db Hs (long_untouched k batch Hk Hl)) as [_ ->].
Qed.

Lemma mirrors_long db batch st : bt_sorted db -> long_ops batch -> mirrors db st -> mirrors (db_write batch db) st.
Proof. intros Hs Hl. unfold mirrors, machine_load. by rewrite !read_pd_record_untouched. Qed.

(** Writing one singleton changes what is read of it and of nothing else. *)
Lemma read_pd_record_put {A} (decode : bytes -> result PdError A) db k v k' : bt_sorted db ->
  read_pd_record decode (db_write [BPut k v] db) k' =
  if decide (k' = k) then (let? r := decode v in Ok (Some r)) else read_pd_record decode db k'.
Proof. intros Hs. unfold read_pd_record, db_write. cbn. rewrite bt_get_insert by done. by case_decide. Qed.

Lemma history_push_ok h e : history_ok h -> event_ok e -> history_ok (history_push h e).
Proof.
  intros [Hl Hf] He. unfold history_push, history_ok, HISTORY_CAPACITY in *. cbn [hr_events].
  case_decide; rewrite length_app, ?length_drop, Forall_app, Forall_singleton; (split; [cbn; lia|]); split; try done.
  by apply Forall_drop.
Qed.

(** Commands a leader proposes: the cluster id it mints is not zero, and the
    service refuses a heartbeat before there is a cluster. *)
Definition served (st : AppliedState) (c : Command) : Prop :=
  command_ok c /\
  match c with
  | Bootstrap _ _ _ cluster_id _ => cluster_id <> 0%N
  | RegionBeat _ => as_cluster st <> None
  | _ => True
  end.

Lemma max_lt a b m : (a < m -> b < m -> N.max a b < m)%N.
Proof. lia. Qed.

(** What [machine_load] read, field by field. *)
Lemma mirrors_iff db st : mirrors db st <-> exists c a t h l,
  read_pd_record cluster_decode db cluster_key = Ok c /\ read_pd_record alloc_decode db alloc_key = Ok a /\
  read_pd_record tso_decode db tso_key = Ok t /\ read_pd_record history_decode db history_key = Ok h /\
  read_pd_record columnar_decode db columnar_key = Ok l /\
  st = mkApplied c (from_option ar_allocated_end 0%N a) (from_option tr_high_water_ms 0%N t) (default (mkHistory []) h) (default (mkColumnar []) l).
Proof.
  unfold mirrors, machine_load. rewrite rbind_ok. setoid_rewrite rbind_ok. setoid_rewrite rbind_ok. setoid_rewrite rbind_ok. setoid_rewrite rbind_ok.
  split.
  - intros (c & ? & a & ? & t & ? & h & ? & l & ? & [= <-]). naive_solver.
  - intros (c & a & t & h & l & ? & ? & ? & ? & ? & ->). naive_solver.
Qed.

(** One singleton written, its mirror moved with it. *)
Ltac singleton db st H :=
  apply (mirrors_iff db st) in H as (c0 & a0 & t0 & h0 & l0 & ? & ? & ? & ? & ? & ->);
  apply mirrors_iff; rewrite !read_pd_record_put by done;
  repeat first [rewrite decide_False by done | rewrite decide_True by done].

Lemma mirrors_cluster db st r : bt_sorted db -> mirrors db st -> cluster_ok r ->
  mirrors (db_write [BPut cluster_key (cluster_encode r)] db)
    (mkApplied (Some r) (as_allocated_end st) (as_high_water_ms st) (as_history st) (as_columnar st)).
Proof. intros Hs H Ho. singleton db st H. rewrite (proj2 (cluster_decode_exact _ r)) by done. naive_solver. Qed.
Lemma mirrors_alloc db st n : bt_sorted db -> mirrors db st -> (n < two64)%N ->
  mirrors (db_write [BPut alloc_key (alloc_encode (mkAlloc n))] db)
    (mkApplied (as_cluster st) n (as_high_water_ms st) (as_history st) (as_columnar st)).
Proof.
  intros Hs H Ho. singleton db st H. assert (u64_ok [n]) as Hn by (by repeat constructor).
  rewrite (proj2 (alloc_decode_exact _ (mkAlloc n))) by done.
  exists c0, (Some (mkAlloc n)), t0, h0, l0. done.
Qed.
Lemma mirrors_tso db st n : bt_sorted db -> mirrors db st -> (n < two64)%N ->
  mirrors (db_write [BPut tso_key (tso_encode (mkTso n))] db)
    (mkApplied (as_cluster st) (as_allocated_end st) n (as_history st) (as_columnar st)).
Proof.
  intros Hs H Ho. singleton db st H. assert (u64_ok [n]) as Hn by (by repeat constructor).
  rewrite (proj2 (tso_decode_exact _ (mkTso n))) by done.
  exists c0, a0, (Some (mkTso n)), h0, l0. done.
Qed.
Lemma mirrors_history db st r : bt_sorted db -> mirrors db st -> history_ok r ->
  mirrors (db_write [BPut history_key (history_encode r)] db)
    (mkApplied (as_cluster st) (as_allocated_end st) (as_high_water_ms st) r (as_columnar st)).
Proof. intros Hs H Ho. singleton db st H. rewrite (proj2 (history_decode_exact _ r)) by done. exists c0, a0, t0, (Some r), l0. done. Qed.
Lemma mirrors_columnar db st r : bt_sorted db -> mirrors db st -> columnar_ok r ->
  mirrors (db_write [BPut columnar_key (columnar_encode r)] db)
    (mkApplied (as_cluster st) (as_allocated_end st) (as_high_water_ms st) (as_history st) r).
Proof. intros Hs H Ho. singleton db st H. rewrite (proj2 (columnar_decode_exact _ r)) by done. exists c0, a0, t0, h0, (Some r). done. Qed.

(** ** Records beside the routing table *)

(** Two databases with the same regions and the same index. *)
Definition same_routes (db db' : Db) : Prop :=
  bt_sorted db' /\
  (forall i, bt_get (region_key i) db' = bt_get (region_key i) db) /\
  (forall k, starts_with k (key_prefix RANGE) = true -> bt_get k db' = bt_get k db).

Lemma same_routes_region_at db db' r : same_routes db db' -> region_at db' r <-> region_at db r.
Proof. intros (_ & Hr & _). unfold region_at. by rewrite Hr. Qed.

Lemma same_routes_table db db' : same_routes db db' -> table_ok db -> table_ok db'.
Proof.
  intros Hsame Ht. pose proof Hsame as (Hs & Hr & Hi). split; [done| |].
  - intros i v Hlt. rewrite Hr. by apply Ht.
  - intros k v G P. rewrite Hi in G by done. destruct (tk_index db Ht k v G P) as (r & Ha & ? & ?). exists r.
    by rewrite same_routes_region_at.
Qed.

Lemma same_routes_routed db db' : same_routes db db' -> routed db -> routed db'.
Proof.
  intros Hsame Hr. pose proof Hsame as (_ & _ & Hi). split.
  - by apply (same_routes_table db), Hr.
  - intros r Ha%(same_routes_region_at db); [|done]. unfold indexed. rewrite Hi by apply range_key_kind. by apply Hr.
  - intros r r' Ha%(same_routes_region_at db) Ha'%(same_routes_region_at db); [|done..]. by apply Hr.
  - intros r Ha%(same_routes_region_at db); [|done]. by apply Hr.
Qed.

(** Puts to keys outside the table. *)
Definition beside (op : BatchOp) : Prop :=
  match op with BPut k _ => starts_with k (key_prefix RANGE) = false /\ starts_with k (key_prefix REGION) = false | _ => False end.

Lemma beside_same batch db : bt_sorted db -> Forall beside batch -> same_routes db (db_write batch db).
Proof.
  intros Hs Hb.
  assert (forall k, starts_with k (key_prefix RANGE) = true \/ starts_with k (key_prefix REGION) = true ->
    bt_sorted (db_write batch db) /\ bt_get k (db_write batch db) = bt_get k db) as E.
  { intros k Hk. apply db_write_untouched; [done|]. eapply Forall_impl; [exact Hb|].
    intros [k' v|k'|a b]; cbn; [|done..]. intros [H1 H2] ->. destruct Hk; congruence. }
  split; [|split].
  - apply (E (range_key [])). by left.
  - intros i. apply E. by right.
  - intros k Hk. apply E. by left.
Qed.

Lemma stage_store_beside r : Forall beside (stage_store [] r).
Proof. repeat constructor. Qed.

(** Store records, each under its own id. *)
Definition stores_ok (db : Db) : Prop :=
  forall i v, (i < two64)%N -> bt_get (store_key i) db = Some v -> exists r, v = store_encode r /\ store_ok r /\ sr_store_id r = i.
Definition not_store (op : BatchOp) : Prop :=
  match op with BPut k _ | BDelete k => starts_with k (key_prefix STORE) = false | BDeleteRange _ _ => False end.

Lemma stores_ok_beside batch db : bt_sorted db -> Forall not_store batch -> stores_ok db -> stores_ok (db_write batch db).
Proof.
  intros Hs Hb Ho i v Hi. destruct (db_write_untouched (store_key i) batch db Hs) as [_ ->]; [|by apply Ho].
  eapply Forall_impl; [exact Hb|]. intros [k x|k|a b]; cbn; [by intros H ->..|done].
Qed.

Lemma store_key_inj a b : (a < two64)%N -> (b < two64)%N -> store_key a = store_key b -> a = b.
Proof.
  intros Ha Hb E. apply (f_equal (drop 2)) in E. change (be_bytes 8 a = be_bytes 8 b) in E.
  rewrite <- (be_value_bytes 8 a), <- (be_value_bytes 8 b) by done. by rewrite E.
Qed.
Lemma store_ok_id r : store_ok r -> (sr_store_id r < two64)%N.
Proof. intros [H _]. by apply u64_ok_cons in H as [? _]. Qed.

Lemma stores_ok_put db r : bt_sorted db -> store_ok r -> stores_ok db -> stores_ok (db_write (stage_store [] r) db).
Proof.
  intros Hs Hr Ho i v Hi. unfold db_write, stage_store. cbn [app foldl db_op]. rewrite bt_get_insert by done.
  case_decide as E; [|by apply Ho]. intros [= <-]. exists r. split; [done|]. split; [done|].
  symmetry. apply store_key_inj; [done|by apply store_ok_id|done].
Qed.

Lemma read_store_ok db i : stores_ok db -> (i < two64)%N ->
  exists o, read_store db i = Ok o /\ from_option (fun r => store_ok r /\ sr_store_id r = i) True o.
Proof.
  intros Ho Hi. unfold read_store, read_pd_record. destruct (bt_get (store_key i) db) as [v|] eqn:G; [|by exists None].
  destruct (Ho i v Hi G) as (r & -> & Hr & Hid). exists (Some r). by rewrite (proj2 (store_decode_exact _ r)).
Qed.

Lemma stage_region_not_store r previous : Forall not_store (stage_region [] r previous).
Proof.
  assert (forall e, starts_with (range_key e) (key_prefix STORE) = false) as Hk by (intros []; done).
  unfold stage_region. destruct previous; [case_decide|]; cbn [app]; repeat constructor; cbn; try done; apply Hk.
Qed.

(** ** The machine's invariant *)

(** The mirrors are the records, every record decodes, the table's index is
    sound, and there are no regions before there is a cluster. *)
Record machine_ok (db : Db) (st : AppliedState) : Prop := {
  mo_mirrors : mirrors db st;
  mo_applied : applied_ok st;
  mo_table : table_ok db;
  mo_stores : stores_ok db;
  mo_empty : as_cluster st = None -> forall i, (i < two64)%N -> bt_get (region_key i) db = None;
}.

(** A step that writes beside the table. *)
Lemma machine_ok_beside db st batch st' : machine_ok db st -> Forall beside batch -> stores_ok (db_write batch db) ->
  mirrors (db_write batch db) st' -> applied_ok st' -> as_cluster st' = as_cluster st -> machine_ok (db_write batch db) st'.
Proof.
  intros Hm Hb Hst Hmi Ha Hc. pose proof (beside_same batch db (tk_sorted db (mo_table _ _ Hm)) Hb) as Hsame. split; [done..| |done|].
  - by apply (same_routes_table db), Hm.
  - rewrite Hc. intros E i Hi. destruct Hsame as (_ & -> & _). by apply (mo_empty _ _ Hm).
Qed.

(** A singleton written beside the table. *)
Lemma machine_ok_singleton db st k v st' : machine_ok db st ->
  starts_with k (key_prefix RANGE) = false -> starts_with k (key_prefix REGION) = false -> starts_with k (key_prefix STORE) = false ->
  mirrors (db_write [BPut k v] db) st' -> applied_ok st' -> as_cluster st' = as_cluster st -> machine_ok (db_write [BPut k v] db) st'.
Proof.
  intros Hm H1 H2 H3. apply machine_ok_beside; [done|by repeat constructor|].
  apply stores_ok_beside; [apply Hm|by repeat constructor|apply Hm].
Qed.

(** A store record written. *)
Lemma machine_ok_store db st r : machine_ok db st -> store_ok r -> machine_ok (db_write (stage_store [] r) db) st.
Proof.
  intros Hm Hr. pose proof (tk_sorted db (mo_table _ _ Hm)) as Hs. apply (machine_ok_beside db st); [done|apply stage_store_beside| | |apply Hm|done].
  - apply stores_ok_put; [done..|apply Hm].
  - apply mirrors_long; [done|apply stage_store_long|apply Hm].
Qed.

(** A region record written against the one held. *)
Lemma machine_ok_region db st r previous : machine_ok db st -> as_cluster st <> None -> region_record_ok r ->
  read_region db (rg_id (rr_region r)) = Ok previous -> machine_ok (beat db r previous) st.
Proof.
  intros Hm Hc Hr Hp. pose proof (tk_sorted db (mo_table _ _ Hm)) as Hs. split; [|apply Hm| | |done].
  - apply mirrors_long; [done|apply stage_region_long|apply Hm].
  - apply beat_table_ok; [apply Hm|done..].
  - apply stores_ok_beside; [done|apply stage_region_not_store|apply Hm].
Qed.

(** ** Every command applies *)

Lemma store_record_ok db id address now_ms : stores_ok db -> u64_ok [id; now_ms] -> len64 address -> valid_utf8 address = true ->
  exists r, store_record db id address now_ms = Ok r /\ store_ok r /\ sr_store_id r = id.
Proof.
  intros Ho [Hi [Hn _]%u64_ok_cons]%u64_ok_cons Hl Hv. destruct (read_store_ok db id Ho Hi) as (o & E & Hr).
  unfold store_record. rewrite E. cbn [rbind]. eexists. split; [done|]. split; [|done].
  repeat split; cbn; try done; [by repeat constructor|]. destruct o as [r|]; cbn; [apply Hr|by repeat constructor].
Qed.

Lemma region_bootstrap_ok base id now_ms : u64_ok [base; id; now_ms] -> region_record_ok (RegionRecord_new (Region_bootstrap base id (base +% 1)) now_ms).
Proof.
  intros (H1 & (H2 & (H3 & _)%u64_ok_cons)%u64_ok_cons)%u64_ok_cons. pose proof (wadd_lt base 1).
  repeat split; cbn; by repeat constructor.
Qed.

Lemma machine_bootstrap_first db st id address base cluster_id now_ms :
  machine_ok db st -> as_cluster st = None -> served st (Bootstrap id address base cluster_id now_ms) ->
  exists st' batch r, machine_bootstrap db st [] id address base cluster_id now_ms =
    Ok (st', batch, ABootstrapped (mkBootstrapped cluster_id (Some (Region_bootstrap base id (base +% 1))))) /\
    machine_ok (db_write batch db) st' /\ as_cluster st' = Some (mkCluster cluster_id base now_ms) /\
    as_allocated_end st' = as_allocated_end st /\ as_high_water_ms st' = as_high_water_ms st /\
    db_write batch db = beat (db_write (stage_store [] r) (db_write [BPut cluster_key (cluster_encode (mkCluster cluster_id base now_ms))] db))
      (RegionRecord_new (Region_bootstrap base id (base +% 1)) now_ms) None.
Proof.
  intros Hm Hc [(Hu & Hl & Hv) Hz]. pose proof (tk_sorted db (mo_table _ _ Hm)) as Hs.
  pose proof Hu as (Hi & (Hb & (Hcl & (Hn & _)%u64_ok_cons)%u64_ok_cons)%u64_ok_cons)%u64_ok_cons.
  destruct (store_record_ok db id address now_ms (mo_stores _ _ Hm) ltac:(by repeat constructor) Hl Hv) as (r & Er & Hr & _).
  set (cluster := mkCluster cluster_id base now_ms). assert (cluster_ok cluster) as Hco by (split; [by repeat constructor|done]).
  set (st' := mkApplied (Some cluster) (as_allocated_end st) (as_high_water_ms st) (as_history st) (as_columnar st)).
  unfold machine_bootstrap. rewrite Er, Hc. cbn [rbind]. exists st'. eexists _, r. split; [done|].
  rewrite stage_region_app, stage_store_app, !db_write_app. change (db_write [] db) with db.
  change (mkCluster cluster_id _ now_ms) with cluster. split; [|done].
  set (db1 := db_write [_] db). assert (machine_ok db1 st') as Hm1.
  { pose proof (beside_same [BPut cluster_key (cluster_encode cluster)] db Hs ltac:(by repeat constructor)) as Hsame. split.
    - by apply mirrors_cluster; [|apply Hm|].
    - destruct (mo_applied _ _ Hm). by split.
    - by apply (same_routes_table db), Hm.
    - apply stores_ok_beside; [done|by repeat constructor|apply Hm].
    - done. }
  pose proof (machine_ok_store db1 st' r Hm1 Hr) as Hm2. apply machine_ok_region; [done..| |].
  - apply region_bootstrap_ok. by repeat constructor.
  - unfold read_region, read_pd_record. cbn [rg_id rr_region RegionRecord_new Region_bootstrap].
    destruct (beside_same (stage_store [] r) db1 (tk_sorted _ (mo_table _ _ Hm1)) (stage_store_beside r)) as (_ & -> & _).
    destruct (beside_same [BPut cluster_key (cluster_encode cluster)] db Hs ltac:(by repeat constructor)) as (_ & E & _).
    unfold db1. rewrite E. by rewrite (mo_empty _ _ Hm Hc).
Qed.

(** One committed command, from a state that is well formed. *)
Lemma apply_command_ok db st c : machine_ok db st -> served st c ->
  exists st' batch ans, apply_command db st c [] = Ok (st', batch, ans) /\ machine_ok (db_write batch db) st' /\
    as_allocated_end st' = N.max (as_allocated_end st) (match c with ReserveIds e => e | _ => 0 end)%N /\
    as_high_water_ms st' = N.max (as_high_water_ms st) (match c with AdvanceTso mark => mark | _ => 0 end)%N /\
    (as_cluster st <> None -> as_cluster st' = as_cluster st).
Proof.
  intros Hm Hc. pose proof (tk_sorted db (mo_table _ _ Hm)) as Hs. destruct (mo_applied _ _ Hm) as [Ac An Ah Al].
  pose proof An as (An1 & (An2 & _)%u64_ok_cons)%u64_ok_cons. pose proof (mo_mirrors _ _ Hm) as Hmi.
  destruct c as [term now|id address base cid now|e|mark|id stats now|r|ws|ev]; cbn [apply_command].
  - eexists _, _, _. split; [done|]. by rewrite !N.max_0_r.
  - destruct (as_cluster st) as [cl|] eqn:Ecl.
    + destruct Hc as [(Hu & Hl & Hv) _]. pose proof Hu as (Hi & (_ & (_ & (Hn & _)%u64_ok_cons)%u64_ok_cons)%u64_ok_cons)%u64_ok_cons.
      destruct (store_record_ok db id address now (mo_stores _ _ Hm) ltac:(by repeat constructor) Hl Hv) as (r & Er & Hr & _).
      unfold machine_bootstrap. rewrite Er, Ecl. cbn [rbind]. eexists _, _, _. split; [done|]. rewrite !N.max_0_r.
      split; [by apply machine_ok_store|done].
    + destruct (machine_bootstrap_first db st id address base cid now Hm Ecl Hc) as (st' & b & r & E & Hm' & _ & E1 & E2 & _).
      eexists _, _, _. split; [exact E|]. by rewrite !N.max_0_r.
  - destruct Hc as [(He & _)%u64_ok_cons _]. eexists _, _, _. split; [done|]. cbn [app as_allocated_end as_high_water_ms as_cluster].
    rewrite N.max_0_r. split; [|done]. apply (machine_ok_singleton db st); [done..| | |done].
    + apply mirrors_alloc; [done..|]. by apply max_lt.
    + split; [done| |done..]. repeat constructor; [by apply max_lt|done].
  - destruct Hc as [(He & _)%u64_ok_cons _]. eexists _, _, _. split; [done|]. cbn [app as_allocated_end as_high_water_ms as_cluster].
    rewrite N.max_0_r. split; [|done]. apply (machine_ok_singleton db st); [done..| | |done].
    + apply mirrors_tso; [done..|]. by apply max_lt.
    + split; [done| |done..]. repeat constructor; [done|by apply max_lt].
  - destruct Hc as [[(Hi & (Hn & _)%u64_ok_cons)%u64_ok_cons Hst] _]. destruct (read_store_ok db id (mo_stores _ _ Hm) Hi) as (o & E & Ho).
    rewrite E. cbn [rbind]. destruct o as [r|]; (eexists _, _, _; split; [done|]); rewrite !N.max_0_r; (split; [|done]); [|done].
    apply machine_ok_store; [done|]. destruct Ho as [(Hu & _ & Hl & Hv) _].
    pose proof Hu as (? & (? & _)%u64_ok_cons)%u64_ok_cons. repeat split; cbn; try done. by repeat constructor.
  - destruct Hc as [[Hr _] Hcl]. destruct (read_region_at db (rg_id (rr_region r)) (mo_table _ _ Hm) (region_ok_id r Hr)) as [(p & E & _)|[E _]];
      rewrite E; cbn [rbind from_option]; [destruct (negb _)|]; (eexists _, _, _; split; [done|]); rewrite !N.max_0_r; (split; [|done]);
      [done|by apply machine_ok_region..].
  - destruct Hc as [[Hw _] _]. eexists _, _, _. split; [done|]. cbn [app as_allocated_end as_high_water_ms as_cluster].
    rewrite !N.max_0_r. split; [|done]. apply (machine_ok_singleton db st); [done..|by apply mirrors_columnar|by split|done].
  - destruct Hc as [Hev _]. eexists _, _, _. split; [done|]. cbn [app as_allocated_end as_high_water_ms as_cluster].
    rewrite !N.max_0_r. split; [|done]. pose proof (history_push_ok _ ev Ah Hev).
    apply (machine_ok_singleton db st); [done..|by apply mirrors_history|by split|done].
Qed.
