(* ===== verification/PdTable.v ===== *)
(** What the placement driver's log leaves behind, applied entry by entry: every
    command a leader proposes applies, the first region routes every key, and what the two orders of a split's heartbeats do
    to the routing table.  Over [esker-pd/src/machine.rs], [routing.rs] and the
    apply loop of [driver.rs]. *)

From Stdlib Require Import Strings.String Strings.Byte.
From stdpp Require Import prelude sorting.
From Stdlib Require Import NArith ZArith Lia.
From S2P Require Import Prelude Varint Endian Utf8 ProtoCodec PdRecord BTree PdRouting PdMachine.

(** ** Logs *)

(** The state before the first command. *)
Definition applied_empty : AppliedState := mkApplied None 0 0 (mkHistory []) (mkColumnar []).

(** A log a leader proposes; [clustered] says a [Bootstrap] came earlier. *)
Fixpoint log_served (clustered : bool) (cs : list Command) : Prop :=
  match cs with
  | [] => True
  | c :: cs =>
      command_ok c /\
      match c with
      | Bootstrap _ _ _ cluster_id _ => cluster_id <> 0%N /\ log_served true cs
      | RegionBeat _ => clustered = true /\ log_served clustered cs
      | _ => log_served clustered cs
      end
  end.

(** The largest mark a log asks for. *)
Definition ids_mark (c : Command) : N := match c with ReserveIds e => e | _ => 0 end.
Definition tso_mark (c : Command) : N := match c with AdvanceTso mark => mark | _ => 0 end.
Definition most (mark : Command -> N) (cs : list Command) (start : N) : N := foldl (fun n c => N.max n (mark c)) start cs.

Lemma machine_ok_empty : machine_ok [] applied_empty.
Proof.
  split; [done|by repeat constructor| |by intros ? ? ?|by intros].
  split; [constructor|by intros ? ? ?|by intros ? ? ?].
Qed.

Lemma bootstrap_clusters db st id address base cluster_id now_ms st' b a :
  machine_bootstrap db st [] id address base cluster_id now_ms = Ok (st', b, a) -> as_cluster st' <> None.
Proof.
  unfold machine_bootstrap. destruct (store_record _ _ _ _) as [r|]; [|done]. cbn [rbind].
  destruct (as_cluster st) eqn:E; intros [= <- <- <-]; cbn; congruence.
Qed.

(** Whether a cluster has been bootstrapped by the end of a log. *)
Definition next_clustered (clustered : bool) (c : Command) : bool := match c with Bootstrap _ _ _ _ _ => true | _ => clustered end.
Definition clusters (clustered : bool) (cs : list Command) : bool := foldl next_clustered clustered cs.
Lemma log_served_cons cl c cs : log_served cl (c :: cs) <->
  command_ok c /\ match c with Bootstrap _ _ _ cluster_id _ => cluster_id <> 0%N | RegionBeat _ => cl = true | _ => True end /\ log_served (next_clustered cl c) cs.
Proof. destruct c; cbn; tauto. Qed.
Lemma log_served_app cl cs cs' : log_served cl (cs ++ cs') <-> log_served cl cs /\ log_served (clusters cl cs) cs'.
Proof.
  revert cl. induction cs as [|c cs IH]; intros cl; [cbn; tauto|].
  cbn [app]. rewrite !log_served_cons, IH. unfold clusters. cbn [foldl]. tauto.
Qed.

Lemma apply_each_ok cs : forall db st clustered, machine_ok db st -> (clustered = true -> as_cluster st <> None) ->
  log_served clustered cs ->
  exists db' st' outs, apply_each cs db st = (db', st', outs) /\ Forall (fun o => is_ok o = true) outs /\ machine_ok db' st' /\
    as_allocated_end st' = most ids_mark cs (as_allocated_end st) /\
    as_high_water_ms st' = most tso_mark cs (as_high_water_ms st) /\
    (clusters clustered cs = true -> as_cluster st' <> None).
Proof.
  induction cs as [|c cs IH]; intros db st cl Hm Hcl Hs; [by exists db, st, []|].
  apply log_served_cons in Hs as (Hok & Hc0 & Hs).
  assert (served st c) as Hc by (split; [done|]; destruct c; try done; by apply Hcl).
  destruct (apply_command_ok db st c Hm Hc) as (st1 & b & a & E & Hm1 & E1 & E2 & E3). cbn [apply_each]. unfold stage_apply. rewrite E.
  assert (next_clustered cl c = true -> as_cluster st1 <> None) as Hcl1.
  { destruct c; cbn [next_clustered]; try (intros Q; rewrite E3; by apply Hcl). intros _. by apply bootstrap_clusters in E. }
  destruct (IH _ st1 _ Hm1 Hcl1 Hs) as (db' & st' & outs & -> & Ho & Hm' & F1 & F2 & F3).
  exists db', st', (Ok a :: outs). split; [done|]. split; [by constructor|]. split; [done|]. split; [by rewrite F1, E1|]. split; [by rewrite F2, E2|done].
Qed.

(** ** The first region *)

Lemma routed_empty db : table_ok db -> (forall i, (i < two64)%N -> bt_get (region_key i) db = None) -> routed db.
Proof.
  intros Ht He. assert (forall r, ~ region_at db r) as Hn by (intros r [G Hr]; by rewrite He in G by by apply region_ok_id).
  split; [done|intros r Hr|intros r r' Hr|intros r Hr]; by destruct (Hn r).
Qed.

Lemma whole_contains base id peer key : region_contains (Region_bootstrap base id peer) key = true.
Proof. by destruct key. Qed.

(** The table after the first [Bootstrap]. *)
Lemma bootstrap_routed db st id address base cluster_id now_ms :
  machine_ok db st -> as_cluster st = None -> served st (Bootstrap id address base cluster_id now_ms) ->
  let region := Region_bootstrap base id (base +% 1) in
  exists st' batch, machine_bootstrap db st [] id address base cluster_id now_ms =
      Ok (st', batch, ABootstrapped (mkBootstrapped cluster_id (Some region))) /\
    as_cluster st' = Some (mkCluster cluster_id base now_ms) /\ machine_ok (db_write batch db) st' /\
    routed (db_write batch db) /\ region_at (db_write batch db) (RegionRecord_new region now_ms).
Proof.
  intros Hm Hc Hv region.
  destruct (machine_bootstrap_first db st id address base cluster_id now_ms Hm Hc Hv) as (st' & b & r & E & Hm' & Ec & _ & _ & Eb).
  pose proof Hv as [[Hu _] _]. pose proof Hu as (Hi & (Hb & (Hcl & (Hn & _)%u64_ok_cons)%u64_ok_cons)%u64_ok_cons)%u64_ok_cons.
  exists st', b. split; [exact E|]. split; [done|]. split; [done|]. rewrite Eb, <- db_write_app. set (ops := _ ++ stage_store [] r).
  assert (region_record_ok (RegionRecord_new region now_ms)) as Hro by (apply region_bootstrap_ok; by repeat constructor).
  assert (same_routes db (db_write ops db)) as S.
  { apply beside_same; [apply Hm|]. apply Forall_app. split; [by repeat constructor|apply stage_store_beside]. }
  split; [|apply beat_region_at; [done|apply S|by rewrite decide_True]].
  apply beat_routed; [apply (same_routes_routed db); [done|]; apply routed_empty; [apply Hm|by apply Hm]|done|apply whole_contains| |].
  - destruct S as (_ & S & _). unfold read_region, read_pd_record. rewrite S. by rewrite (mo_empty _ _ Hm Hc) by by apply region_ok_id.
  - intros x [G Hx]%(same_routes_region_at _ _ _ S). by rewrite (mo_empty _ _ Hm Hc) in G by by apply region_ok_id.
Qed.

(** Before there is a cluster a [Bootstrap] creates it: the answer carries the
    cluster id and the first region, the mirrors hold the cluster, and from then
    on every key is routed to that region.  A later [Bootstrap] of any store
    answers the same cluster id and creates no region. *)
Theorem bootstrap_routes db st id address base cluster_id now_ms :
  machine_ok db st -> as_cluster st = None -> served st (Bootstrap id address base cluster_id now_ms) ->
  let region := Region_bootstrap base id (base +% 1) in
  exists st' batch, apply_command db st (Bootstrap id address base cluster_id now_ms) [] =
      Ok (st', batch, ABootstrapped (mkBootstrapped cluster_id (Some region))) /\
    as_cluster st' = Some (mkCluster cluster_id base now_ms) /\
    routed (db_write batch db) /\
    (forall key, lookup (db_write batch db) key = Ok (Some (RegionRecord_new region now_ms))) /\
    (forall id' address' base' cluster_id' now_ms', served st' (Bootstrap id' address' base' cluster_id' now_ms') ->
      exists batch', apply_command (db_write batch db) st' (Bootstrap id' address' base' cluster_id' now_ms') [] =
        Ok (st', batch', ABootstrapped (mkBootstrapped cluster_id None))).
Proof.
  intros Hm Hc Hv region.
  destruct (bootstrap_routed db st id address base cluster_id now_ms Hm Hc Hv) as (st' & b & E & Ec & Hm' & Hr & Ha).
  exists st', b. split; [exact E|]. split; [done|]. split; [done|]. split.
  - intros key. apply lookup_complete; [done..|apply whole_contains].
  - intros id' address' base' cluster_id' now' [(Hu' & Hl & Hval) _].
    pose proof Hu' as (Hi' & (_ & (_ & (Hn' & _)%u64_ok_cons)%u64_ok_cons)%u64_ok_cons)%u64_ok_cons.
    destruct (store_record_ok _ id' address' now' (mo_stores _ _ Hm') ltac:(by repeat constructor) Hl Hval) as (r' & Er & _).
    cbn [apply_command]. unfold machine_bootstrap. rewrite Er. cbn [rbind]. rewrite Ec. by eexists.
Qed.

Lemma bootstrap_routes_witness : exists st' batch,
  apply_command [] applied_empty (Bootstrap 7 [x68] 1 9 5) [] = Ok (st', batch, ABootstrapped (mkBootstrapped 9 (Some (Region_bootstrap 1 7 2)))) /\
  forall key, lookup (db_write batch []) key = Ok (Some (RegionRecord_new (Region_bootstrap 1 7 2) 5)).
Proof.
  destruct (bootstrap_routes [] applied_empty 7 [x68] 1 9 5) as (st' & b & E & _ & _ & H & _).
  - apply machine_ok_empty.
  - done.
  - repeat split; try done; by repeat constructor.
  - by exists st', b.
Defined.

(** ** A split in the routing table *)

(** A run of committed entries that begins with an accepted region beat. *)
Lemma apply_each_beat db st r previous cs : read_region db (rg_id (rr_region r)) = Ok previous ->
  from_option (fun held => accepts held (rg_epoch (rr_region r)) (rr_term r)) true previous = true ->
  apply_each (RegionBeat r :: cs) db st =
  let '(db', st', outs) := apply_each cs (beat db r previous) st in (db', st', Ok (AUpserted Applied) :: outs).
Proof.
  intros E Ha. cbn [apply_each]. unfold stage_apply. cbn [apply_command]. rewrite E. cbn [rbind].
  destruct previous as [p|]; cbn [from_option] in *; [rewrite Ha|]; done.
Qed.

(** A parent [P] stored in a routed table, the two halves [RP] and [RC] the
    stores report after splitting it at [sk], and the room in its epoch. *)
Record splitting (db : Db) (P RP RC : RegionRecord) (sk : bytes) (id : N) (ids : list N) : Prop := {
  sp_routed : routed db;
  sp_parent : region_at db P;
  sp_split : split_region (rr_region P) sk id ids = Ok (rr_region RP, rr_region RC);
  sp_inside : region_contains (rr_region P) sk = true;
  sp_proper : rg_start_key (rr_region P) <> sk;
  sp_fresh : read_region db id = Ok None;
  sp_left : region_record_ok RP;
  sp_right : region_record_ok RC;
  sp_room : (ep_version (rg_epoch (rr_region P)) < u64_max)%N;
}.

Section Splitting.
Context (db : Db) (P RP RC : RegionRecord) (sk : bytes) (id : N) (ids : list N).
Context (S : splitting db P RP RC sk id ids).

Lemma split_fields :
  rg_id (rr_region RP) = rg_id (rr_region P) /\ rg_start_key (rr_region RP) = rg_start_key (rr_region P) /\ rg_end_key (rr_region RP) = sk /\
  rg_id (rr_region RC) = id /\ rg_start_key (rr_region RC) = sk /\ rg_end_key (rr_region RC) = rg_end_key (rr_region P) /\
  id <> rg_id (rr_region P) /\
  rg_epoch (rr_region RP) = mkEpoch (ep_conf_ver (rg_epoch (rr_region P))) (ep_version (rg_epoch (rr_region P)) +% 1).
Proof using S.
  pose proof (sp_split _ _ _ _ _ _ _ S) as H. unfold split_region in H. case_decide; [done|]. case_decide as D; [done|].
  injection H as [= <- <-]. cbn. repeat split; try done. intros E. apply D. by right; left.
Qed.

Lemma split_keys : bytes_cmp (rg_start_key (rr_region P)) sk = Lt /\ (rg_end_key (rr_region P) = [] \/ bytes_cmp sk (rg_end_key (rr_region P)) = Lt).
Proof using S.
  pose proof (sp_inside _ _ _ _ _ _ _ S) as [H1 H2]%contains_iff. split; [|done]. rewrite bytes_cmp_antisym in H1.
  destruct (bytes_cmp (rg_start_key (rr_region P)) sk) eqn:C; try done. apply bytes_cmp_eq in C. by destruct (sp_proper _ _ _ _ _ _ _ S).
Qed.

(** The halves share the parent's keys out at the split key. *)
Lemma split_contains key :
  region_contains (rr_region RP) key = region_contains (rr_region P) key && bytes_ltb key sk /\
  region_contains (rr_region RC) key = region_contains (rr_region P) key && negb (bytes_ltb key sk).
Proof using S.
  destruct split_fields as (_ & E1 & E2 & _ & E3 & E4 & _). destruct split_keys as [K1 K2].
  assert (sk <> []) as Hne by (intros ->; destruct (rg_start_key (rr_region P)); done).
  split; apply eq_true_iff_eq; rewrite andb_true_iff, ?negb_true_iff, !contains_iff, ?E1, ?E2, ?E3, ?E4.
  - rewrite bytes_ltb_lt. split; [intros [? [?|?]]; [done|]|naive_solver]. split; [|done]. split; [done|].
    destruct K2 as [->|K2]; [by left|right]. eapply bytes_cmp_lt_trans; eauto.
  - rewrite <- not_true_iff_false, bytes_ltb_lt. split; [|naive_solver]. intros [H1 H2]. split; [|done]. split; [|done].
    intros C. apply H1. eapply bytes_cmp_lt_trans; eauto.
Qed.

Lemma split_share r : share r (rr_region RP) \/ share r (rr_region RC) -> share r (rr_region P).
Proof using S.
  intros [(k & ? & H)|(k & ? & H)]; exists k; (split; [done|]); destruct (split_contains k) as [E1 E2]; rewrite ?E1, ?E2 in H; by apply andb_true_iff in H as [? _].
Qed.

Lemma split_apart : ~ share (rr_region RP) (rr_region RC).
Proof using S.
  intros (k & H1 & H2). destruct (split_contains k) as [E1 E2]. rewrite E1 in H1. rewrite E2 in H2. destruct (bytes_ltb k sk); by rewrite ?andb_false_r in *.
Qed.

Lemma split_proper : proper (rr_region RP) /\ proper (rr_region RC).
Proof using S.
  destruct split_fields as (_ & E1 & _ & _ & E3 & _). destruct split_keys as [K1 _]. unfold proper.
  rewrite E1, E3, (proj1 (split_contains _)), (proj2 (split_contains _)), (sp_inside _ _ _ _ _ _ _ S).
  rewrite (rt_proper db (sp_routed _ _ _ _ _ _ _ S) P (sp_parent _ _ _ _ _ _ _ S)). unfold bytes_ltb. by rewrite K1, bytes_cmp_refl.
Qed.

Lemma split_accepts term : accepts P (rg_epoch (rr_region RP)) term = true.
Proof using S.
  destruct split_fields as (_ & _ & _ & _ & _ & _ & _ & ->). pose proof (sp_room _ _ _ _ _ _ _ S) as R. unfold accepts, is_stale_against. cbn.
  rewrite wadd_small by (unfold u64_max, two64 in *; lia). rewrite N.ltb_irrefl.
  destruct (N.ltb_spec (ep_version (rg_epoch (rr_region P)) + 1) (ep_version (rg_epoch (rr_region P)))); [lia|]. cbn.
  rewrite decide_False; [done|]. destruct (rg_epoch (rr_region P)). cbn. intros [=]. lia.
Qed.

Lemma split_sorted : bt_sorted db.
Proof using S. apply (sp_routed _ _ _ _ _ _ _ S). Qed.

Lemma split_no_child r : region_at db r -> rg_id (rr_region r) <> id.
Proof using S. intros H%read_region_stored E. rewrite E, (sp_fresh _ _ _ _ _ _ _ S) in H. done. Qed.

(** The records after both beats, in either order. *)
Definition split_at (db' : Db) : Prop := forall r, region_at db' r <->
  r = RP \/ r = RC \/ (region_at db r /\ rg_id (rr_region r) <> rg_id (rr_region P)).

Lemma split_at_any db' r key : split_at db' -> region_at db' r -> region_contains (rr_region RC) key = true ->
  region_contains (rr_region r) key = true -> r = RC.
Proof using S.
  intros Ha [->|[->|[H Hne]]]%Ha C1 C2; [by destruct split_apart; exists key|done|].
  destruct (rt_disjoint db (sp_routed _ _ _ _ _ _ _ S) r P H (sp_parent _ _ _ _ _ _ _ S) Hne). apply split_share. right. by exists key.
Qed.

(** Parent first. *)
Lemma split_parent_first : let db1 := beat db RP (Some P) in let db2 := beat db1 RC None in
  read_region db (rg_id (rr_region RP)) = Ok (Some P) /\ read_region db1 id = Ok None /\ split_at db2 /\ routed db2.
Proof using S.
  intros db1 db2. destruct split_fields as (Ep & _ & _ & Ec & _ & _ & Hne & _). pose proof S as [Hr Ha _ _ _ Hf Hl Hc _].
  pose proof split_sorted as Hs. pose proof (beat_sorted db RP (Some P) Hs) as Hs1.
  assert (read_region db (rg_id (rr_region RP)) = Ok (Some P)) as R0 by (rewrite Ep; by apply read_region_stored).
  assert (read_region db1 id = Ok None) as R1.
  { revert Hf. unfold read_region, read_pd_record. unfold db1. rewrite beat_region by (done || (rewrite <- Ec; by apply region_ok_id)). by rewrite decide_False by congruence. }
  split; [done|]. split; [done|]. split.
  - intros r. unfold db2, db1. rewrite beat_region_at by done. rewrite Ec. case_decide as E1.
    { split; [by right; left|]. intros [->|[->|[H%split_no_child _]]]; [congruence|done|done]. }
    rewrite beat_region_at by done. rewrite Ep. case_decide as E2.
    + split; [by left|]. intros [->|[->|[_ H]]]; [done|congruence|done].
    + split; [by right; right|]. intros [->|[->|[? _]]]; [congruence|congruence|done].
  - apply beat_routed; [|done|apply split_proper|by rewrite Ec|].
    + apply beat_routed; [done|done|apply split_proper|done|]. intros r H Hn Hsh. rewrite Ep in Hn.
      by apply (rt_disjoint db Hr r P H Ha Hn), split_share; left.
    + intros r H%beat_region_at _ Hsh; [|done..]. rewrite Ep in H. case_decide as Hn; [rewrite H in Hsh; by apply split_apart|].
      by apply (rt_disjoint db Hr r P H Ha Hn), split_share; right.
Qed.

(** Child first. *)
Lemma split_child_first : let db1 := beat db RC None in let db2 := beat db1 RP (Some P) in
  read_region db1 (rg_id (rr_region RP)) = Ok (Some P) /\ split_at db2 /\ table_ok db2 /\ ~ indexed db2 RC /\
  beat db2 RC (Some RC) = beat (beat db RP (Some P)) RC None.
Proof using S.
  intros db1 db2. pose proof split_keys as [K1 K2]. destruct split_fields as (Ep & _ & Es & Ec & _ & Ee & Hne & _). pose proof S as [Hr Ha _ _ _ Hf Hl Hc _].
  pose proof split_sorted as Hs. pose proof (beat_sorted db RC None Hs) as Hs1. pose proof (beat_sorted db1 RP (Some P) Hs1) as Hs2.
  assert (rg_end_key (rr_region P) <> sk) as Hek.
  { intros E. rewrite E in K2. destruct K2 as [->|K2]; [|by rewrite bytes_cmp_refl in K2]. by destruct (rg_start_key (rr_region P)). }
  assert (region_at db1 P) as Ha1 by (apply beat_region_at; [done..|]; by rewrite decide_False by congruence).
  assert (read_region db1 (rg_id (rr_region RP)) = Ok (Some P)) as R1 by (rewrite Ep; by apply read_region_stored).
  split; [done|]. split; [|split; [|split]].
  - intros r. unfold db2, db1. rewrite beat_region_at by done. rewrite Ep. case_decide as E2.
    { split; [by left|]. intros [->|[->|[_ H]]]; [done|congruence|done]. }
    rewrite beat_region_at by done. rewrite Ec. case_decide as E1.
    + split; [by right; left|]. intros [->|[->|[H%split_no_child _]]]; [congruence|done|done].
    + split; [by right; right|]. intros [->|[->|[? _]]]; [congruence|congruence|done].
  - apply beat_table_ok; [|done..]. apply beat_table_ok; [apply Hr|done|by rewrite Ec].
  - unfold indexed, db2. rewrite beat_index by done. rewrite Ee, Es, decide_False by done. by rewrite decide_True.
  - apply bt_ext; [by repeat apply beat_sorted..|]. intros k. unfold db2, db1. rewrite !beat_get by by repeat apply beat_sorted.
    cbn [fmap option_fmap option_map]. rewrite Ep, Es, Ec, Ee. repeat case_decide; simplify_eq; try done.
Qed.
End Splitting.

Lemma accepts_again r : accepts r (rg_epoch (rr_region r)) (rr_term r) = true.
Proof. unfold accepts, is_stale_against. rewrite !N.ltb_irrefl. cbn. rewrite decide_True by done. apply N.leb_refl. Qed.

(** C13: After a split the parent's heartbeat followed by the child's leaves the
    table a partition with every region in its index: each key of the old range
    is routed to the half that holds it, and every other region still answers
    for its own keys. *)
Theorem split_routes db st P RP RC sk id ids : splitting db P RP RC sk id ids ->
  exists db', apply_each [RegionBeat RP; RegionBeat RC] db st = (db', st, [Ok (AUpserted Applied); Ok (AUpserted Applied)]) /\ routed db' /\
    (forall key, region_contains (rr_region P) key = true -> lookup db' key = Ok (Some (if bytes_ltb key sk then RP else RC))) /\
    (forall r key, region_at db r -> rg_id (rr_region r) <> rg_id (rr_region P) -> region_contains (rr_region r) key = true ->
      lookup db' key = Ok (Some r)).
Proof.
  intros S. destruct (split_parent_first _ _ _ _ _ _ _ S) as (R0 & R1 & Ha & Hr).
  destruct (split_fields _ _ _ _ _ _ _ S) as (_ & _ & _ & Ec & _).
  exists (beat (beat db RP (Some P)) RC None). split; [|split; [done|]; split].
  - rewrite (apply_each_beat _ _ _ (Some P)) by (done || eapply split_accepts, S). by rewrite (apply_each_beat _ _ _ None) by (done || by rewrite Ec).
  - intros key C. destruct (split_contains _ _ _ _ _ _ _ S key) as [E1 E2]. rewrite C in E1, E2. cbn [andb] in E1, E2.
    destruct (bytes_ltb key sk); (apply lookup_complete; [done|apply Ha; naive_solver|done]).
  - intros r key H Hne C. apply lookup_complete; [done|apply Ha; naive_solver|done].
Qed.

(** C34: The other order loses the child.  When the child's heartbeat is applied
    before the parent's, the parent's deletes the index entry the child's had
    just taken over: the child's record is stored, yet every lookup of a key in
    its range answers that no region holds it.  The child's next heartbeat
    mends the table into the one the parent-first order leaves. *)
Theorem split_child_lost db st P RP RC sk id ids : splitting db P RP RC sk id ids ->
  exists db', apply_each [RegionBeat RC; RegionBeat RP] db st = (db', st, [Ok (AUpserted Applied); Ok (AUpserted Applied)]) /\
    read_region db' id = Ok (Some RC) /\
    (forall key, region_contains (rr_region RC) key = true -> lookup db' key = Ok None) /\
    (apply_each [RegionBeat RC] db' st).1 = (apply_each [RegionBeat RP; RegionBeat RC] db st).1.
Proof.
  intros S. destruct (split_child_first _ _ _ _ _ _ _ S) as (R1 & Ha & Ht & Hn & Hm). destruct (split_parent_first _ _ _ _ _ _ _ S) as (R0 & R2 & _).
  destruct (split_fields _ _ _ _ _ _ _ S) as (Ep & _ & _ & Ec & _). set (db' := beat (beat db RC None) RP (Some P)) in *.
  assert (read_region db' id = Ok (Some RC)) as Hc by (rewrite <- Ec; apply read_region_stored, Ha; by right; left).
  exists db'. split; [|split; [done|]; split].
  - rewrite (apply_each_beat _ _ _ None) by (done || (rewrite Ec; apply S)).
    by rewrite (apply_each_beat _ _ _ (Some P)) by (done || eapply split_accepts, S).
  - intros key C. destruct (lookup_sound db' key Ht) as [?|(r & _ & Hr & Hi & C')]; [done|].
    rewrite (split_at_any _ _ _ _ _ _ _ S db' r key Ha Hr C C') in Hi. done.
  - rewrite (apply_each_beat _ _ _ (Some RC)) by ((by rewrite Ec) || apply accepts_again). rewrite Hm.
    rewrite (apply_each_beat _ _ _ (Some P)) by (done || eapply split_accepts, S). by rewrite (apply_each_beat _ _ _ None) by (done || by rewrite Ec).
Qed.

(** A cluster of one region split at [m]. *)
Definition split_db : Db := (apply_each [Bootstrap 7 [x68] 1 9 5] [] applied_empty).1.1.
Definition split_parent : RegionRecord := RegionRecord_new (Region_bootstrap 1 7 2) 5.
Definition split_halves : RegionRecord * RegionRecord :=
  match split_region (rr_region split_parent) [x6d] 3 [4%N] with
  | Ok (p, c) => (RegionRecord_new p 6, RegionRecord_new c 6)
  | Err _ => (split_parent, split_parent)
  end.

Lemma split_example : splitting split_db split_parent split_halves.1 split_halves.2 [x6d] 3 [4%N].
Proof.
  destruct (bootstrap_routed [] applied_empty 7 [x68] 1 9 5 machine_ok_empty eq_refl) as (st' & b & E & _ & _ & Hr & Ha);
    [repeat split; try done; by repeat constructor|].
  assert (split_db = db_write b []) as -> by (unfold split_db; cbn [apply_each]; unfold stage_apply; cbn [apply_command]; by rewrite E).
  split; try done; [| |].
  - vm_compute in E. injection E as [= _ <-]. vm_compute. done.
  - repeat split; cbn; by repeat constructor.
  - repeat split; cbn; by repeat constructor.
Qed.

Lemma split_routes_witness : exists db', apply_each [RegionBeat split_halves.1; RegionBeat split_halves.2] split_db applied_empty = (db', applied_empty, [Ok (AUpserted Applied); Ok (AUpserted Applied)]) /\
  lookup db' [x61] = Ok (Some split_halves.1) /\ lookup db' [x7a] = Ok (Some split_halves.2).
Proof.
  destruct (split_routes _ applied_empty _ _ _ _ _ _ split_example) as (db' & E & _ & H & _). exists db'. split; [exact E|].
  split; [exact (H [x61] eq_refl)|exact (H [x7a] eq_refl)].
Defined.

Lemma split_child_lost_witness : exists db', apply_each [RegionBeat split_halves.2; RegionBeat split_halves.1] split_db applied_empty = (db', applied_empty, [Ok (AUpserted Applied); Ok (AUpserted Applied)]) /\
  read_region db' 3 = Ok (Some split_halves.2) /\ lookup db' [x7a] = Ok None.
Proof.
  destruct (split_child_lost _ applied_empty _ _ _ _ _ _ split_example) as (db' & E & R & H & _). exists db'. split; [exact E|].
  split; [exact R|exact (H [x7a] eq_refl)].
Defined.
