(* ===== verification/PdDischarge.v ===== *)
(** The two ways [PdCore::discharge] ([esker-pd/src/driver.rs]) applies a run of
    committed entries, compared: one write per entry, or one write for all of
    them with every command reading the database as it was before the first.
    And the snapshot that replaces the log, which carries the machine whole. *)

From Stdlib Require Import Strings.String Strings.Byte.
From stdpp Require Import prelude sorting.
From Stdlib Require Import NArith ZArith Lia.
From S2P Require Import Prelude Varint Endian Utf8 ProtoCodec PdRecord BTree PdRouting PdMachine PdTable.

#[local] Arguments stage_region : simpl never.

(** ** What a command reads and writes *)

Definition read_keys (c : Command) : list bytes :=
  match c with
  | Bootstrap store_id _ _ _ _ | StoreBeat store_id _ _ => [store_key store_id]
  | RegionBeat record => [region_key (rg_id (rr_region record))]
  | _ => []
  end.
(** The store and region records it may write. *)
Definition write_keys (c : Command) : list bytes :=
  match c with
  | Bootstrap store_id _ base_id _ _ => [store_key store_id; region_key base_id]
  | StoreBeat store_id _ _ => [store_key store_id]
  | RegionBeat record => [region_key (rg_id (rr_region record))]
  | _ => []
  end.

(** No command reads a record an earlier one of the run may have written. *)
Fixpoint independent (cs : list Command) : Prop :=
  match cs with
  | [] => True
  | c :: cs => (forall c' k, c' ∈ cs -> k ∈ write_keys c -> k ∉ read_keys c') /\ independent cs
  end.

Definition record_key (k : bytes) : Prop := (exists i, k = store_key i) \/ (exists i, k = region_key i).

Lemma read_keys_record c k : k ∈ read_keys c -> record_key k.
Proof. destruct c; cbn; try (intros H; by apply elem_of_nil in H); intros ->%list_elem_of_singleton; [left|left|right]; by eexists. Qed.

Lemma record_key_long k : record_key k -> length k <> 2.
Proof. intros [[i ->]|[i ->]]; cbn; lia. Qed.
Lemma record_key_range k e : record_key k -> range_key e <> k.
Proof. intros [[i ->]|[i ->]] E; [by destruct e|symmetry in E; by apply region_range_ne in E]. Qed.

(** A command's outcome depends on the database through the records it reads. *)
Lemma stage_apply_reads db db' st c batch : (forall k, k ∈ read_keys c -> bt_get k db = bt_get k db') ->
  stage_apply db st c batch = stage_apply db' st c batch.
Proof.
  intros H. unfold stage_apply, apply_command, machine_bootstrap, store_record, read_store, read_region, read_pd_record.
  destruct c; try done; cbn in H; by rewrite H by by apply list_elem_of_singleton.
Qed.

(** What it stages does not depend on what is staged already. *)
Lemma stage_apply_app db st c batch : stage_apply db st c batch =
  let '(st', b, out) := stage_apply db st c [] in (st', batch ++ b, out).
Proof.
  unfold stage_apply, apply_command, machine_bootstrap. destruct c; try done; cbn [app]; try by rewrite app_nil_r.
  - destruct (store_record _ _ _ _); cbn [rbind]; [|by rewrite app_nil_r]. destruct (as_cluster st); [done|].
    rewrite stage_region_app, (stage_region_app (stage_store _ _)). unfold stage_store. by rewrite <- !app_assoc.
  - destruct (read_store _ _) as [[r|]|]; cbn [rbind]; by rewrite ?app_nil_r.
  - destruct (read_region _ _) as [p|]; cbn [rbind]; [|by rewrite app_nil_r]. destruct (from_option _ _ _); [by rewrite app_nil_r|].
    by rewrite stage_region_app.
Qed.

Lemma stage_region_untouched k r previous : record_key k -> k <> region_key (rg_id (rr_region r)) ->
  Forall (fun op => ~ op_touches k op) (stage_region [] r previous).
Proof.
  intros Hk Hne. unfold stage_region. destruct previous; [case_decide|]; cbn [app]; repeat constructor; cbn; try congruence; by apply record_key_range.
Qed.

Lemma stage_apply_untouched db st c k : stores_ok db -> command_ok c -> record_key k -> k ∉ write_keys c ->
  Forall (fun op => ~ op_touches k op) (stage_apply db st c []).1.2.
Proof.
  intros Hst Hok Hk Hn. pose proof (record_key_long k Hk) as Hl. unfold stage_apply, apply_command, machine_bootstrap.
  destruct c; cbn in Hn |- *; try (repeat constructor; cbn; by intros <-).
  - destruct (store_record _ _ _ _) as [s|] eqn:E; cbn [rbind]; [|constructor].
    assert (sr_store_id s = store_id) as Es by (unfold store_record in E; destruct (read_store _ _); [|done]; by injection E as [= <-]).
    assert (store_key (sr_store_id s) <> k) by (rewrite Es; set_solver).
    destruct (as_cluster st); cbn [fst snd]; [by repeat constructor|]. rewrite stage_region_app. apply Forall_app. split.
    + repeat constructor; [by intros <-|done].
    + apply stage_region_untouched; [done|]. cbn. set_solver.
  - destruct (read_store _ _) as [[r|]|] eqn:E; cbn [rbind fst snd]; [|constructor..].
    destruct Hok as [[Hi _]%u64_ok_cons _]. destruct (read_store_ok db store_id Hst Hi) as (o & E' & Ho). rewrite E in E'. injection E' as [= <-].
    destruct Ho as [_ Ho]. repeat constructor. cbn. rewrite Ho. set_solver.
  - destruct (read_region _ _) as [p|]; cbn [rbind]; [|constructor]. destruct (from_option _ _ _); cbn [fst snd]; [constructor|].
    apply stage_region_untouched; [done|set_solver].
Qed.

(** What a command stages: keys under PD's prefix, and no range deletions. *)
Definition prefixed (db : Db) : Prop := Forall (fun e => take 1 e.1 = [PREFIX]) db.
Definition plain_op (op : BatchOp) : Prop :=
  match op with BPut k _ => take 1 k = [PREFIX] | BDelete _ => True | BDeleteRange _ _ => False end.

Lemma plain_op_keeps db op : plain_op op -> bt_sorted db -> bt_sorted (db_op db op) /\ (prefixed db -> prefixed (db_op db op)).
Proof.
  intros Hp Hs. split; [apply db_op_sorted; [done|]; by destruct op|]. unfold prefixed. rewrite !Forall_forall. intros H e He.
  destruct op as [k v|k|]; cbn in *; [| |done].
  - apply bt_insert_elem in He as [->|[_ He]]; [done|by apply H|done].
  - apply bt_remove_elem in He as [_ He]; [by apply H|done].
Qed.
Lemma db_write_plain ops db : Forall plain_op ops -> bt_sorted db -> bt_sorted (db_write ops db) /\ (prefixed db -> prefixed (db_write ops db)).
Proof.
  intros H. revert db. induction H as [|op ops Hop _ IH]; intros db Hs; [done|].
  destruct (plain_op_keeps db op Hop Hs) as [Hs' Hp]. destruct (IH (db_op db op) Hs') as [? Hp']. split; [done|]. intros Q. by apply Hp', Hp.
Qed.

Lemma stage_apply_plain db st c : Forall plain_op (stage_apply db st c []).1.2.
Proof.
  assert (forall e, take 1 (range_key e) = [PREFIX]) as Hk by by intros [].
  unfold stage_apply, apply_command, machine_bootstrap. destruct c; cbn; try by repeat constructor.
  - destruct (store_record _ _ _ _); cbn [rbind]; [|constructor]. destruct (as_cluster st); cbn; by repeat constructor.
  - destruct (read_store _ _) as [[r|]|]; cbn; by repeat constructor.
  - destruct (read_region _ _) as [[p|]|]; cbn; [| |constructor]; [destruct (negb _); cbn; [constructor|]|];
      unfold stage_region; [case_decide|]; repeat constructor; apply Hk.
Qed.

Lemma stage_apply_sorted db st c : bt_sorted db -> bt_sorted (db_write (stage_apply db st c []).1.2 db).
Proof. apply db_write_plain, stage_apply_plain. Qed.

Lemma apply_each_prefixed cs : forall db st, bt_sorted db -> prefixed db -> prefixed (apply_each cs db st).1.1.
Proof.
  induction cs as [|c cs IH]; intros db st Hs Hp; [done|]. cbn [apply_each].
  destruct (db_write_plain _ db (stage_apply_plain db st c) Hs) as [Hs' Hp'].
  destruct (stage_apply db st c []) as [[st1 b] out]. specialize (IH (db_write b db) st1 Hs' (Hp' Hp)).
  by destruct (apply_each cs _ _) as [[? ?] ?].
Qed.

(** The run staged into [batch] over [db0] and the run applied over what the
    batch makes of it, while no later command reads what the batch wrote. *)
Lemma stage_all_each cs db0 : stores_ok db0 -> forall db st batch,
  Forall command_ok cs -> independent cs -> bt_sorted db -> db = db_write batch db0 ->
  (forall c k, c ∈ cs -> k ∈ read_keys c -> bt_get k db = bt_get k db0) ->
  (let '(st', b, outs) := stage_all cs db0 st batch in (db_write b db0, st', outs)) = apply_each cs db st.
Proof.
  intros Hst. induction cs as [|c cs IH]; intros db st batch Hok Hin Hs Hdb Hread; [by subst|].
  apply Forall_cons in Hok as [Hc Hok]. destruct Hin as [Hc' Hin]. cbn [stage_all apply_each].
  assert (stage_apply db st c [] = stage_apply db0 st c []) as Er by (apply stage_apply_reads; intros k; apply Hread; by left).
  rewrite stage_apply_app. pose proof (stage_apply_sorted db st c Hs) as Hs'. rewrite Er in Hs' |- *.
  pose proof (stage_apply_untouched db0 st c) as Hu. destruct (stage_apply db0 st c []) as [[st1 b] out]. cbn [fst snd] in *.
  specialize (IH (db_write b db) st1 (batch ++ b) Hok Hin Hs').
  rewrite <- IH; [by destruct (stage_all cs db0 st1 _) as [[? ?] ?]|by rewrite db_write_app, Hdb|].
  intros c' k Hcs Hk. rewrite <- (Hread c' k) by (done || by right). apply db_write_untouched; [done|].
  apply Hu; [done..|by eapply read_keys_record|]. intros Hw. by apply (Hc' c' k).
Qed.

(** When no command of a run reads a record an earlier one of the run may have
    written, folding all of them into one write is the same as applying them one
    by one: the same records, the same mirrors and the same answers.  So the fold
    is right for the group of one that commits each proposal as it makes it. *)
Theorem together_is_each db st cs : machine_ok db st -> Forall command_ok cs -> independent cs ->
  apply_together cs db st = apply_each cs db st.
Proof. intros Hm Hok Hin. apply stage_all_each; try done; apply Hm. Qed.

Lemma together_is_each_witness :
  let cs := [ReserveIds 1000; Bootstrap 7 [x68] 1 9 5; AdvanceTso 3000; StoreBeat 8 StoreStats_default 6] in
  apply_together cs [] applied_empty = apply_each cs [] applied_empty.
Proof.
  intros cs. apply (together_is_each [] applied_empty cs machine_ok_empty).
  - repeat constructor.
  - unfold cs. cbn [independent]. repeat split; intros c' k H Hw Hr; cbn [write_keys] in Hw.
    all: repeat (apply elem_of_cons in H as [->|H]); try by apply elem_of_nil in H.
    all: cbn [read_keys] in Hr; repeat (apply elem_of_cons in Hr as [->|Hr]); try by apply elem_of_nil in Hr.
    all: repeat (apply elem_of_cons in Hw as [Hw|Hw]); try by apply elem_of_nil in Hw.
    all: by vm_compute in Hw.
Defined.

(** ** Any run *)

(** What every run keeps, folded or not: the mirrors are the records, and every
    record and every index entry decodes.  The entries need not name the region
    that ends there. *)
Definition records_ok (db : Db) : Prop := forall i v, (i < two64)%N -> bt_get (region_key i) db = Some v ->
  exists r, v = region_encode r /\ region_record_ok r /\ rg_id (rr_region r) = i.
Record readable (db : Db) (st : AppliedState) : Prop := {
  re_mirrors : mirrors db st;
  re_applied : applied_ok st;
  re_sorted : bt_sorted db;
  re_records : records_ok db;
  re_entries : forall k v, bt_get k db = Some v -> starts_with k (key_prefix RANGE) = true -> exists i, (i < two64)%N /\ v = encode_range_entry i;
  re_stores : stores_ok db;
}.

Lemma machine_ok_readable db st : machine_ok db st -> readable db st.
Proof.
  intros Hm. split; [apply Hm|apply Hm|apply Hm|exact (tk_records db (mo_table _ _ Hm))| |apply Hm]. intros k v G P. destruct (tk_index db (mo_table _ _ Hm) k v G P) as (r & Hr & _ & ->).
  eexists. split; [|done]. apply region_ok_id, Hr.
Qed.

Lemma read_region_records db i : records_ok db -> (i < two64)%N ->
  read_region db i = Ok None \/ exists r, read_region db i = Ok (Some r) /\ region_at db r.
Proof.
  intros Hr Hi. unfold read_region, read_pd_record. destruct (bt_get (region_key i) db) as [v|] eqn:G; [|by left]. right.
  destruct (Hr i v Hi G) as (r & -> & Ho & Hid). exists r. rewrite (proj2 (region_decode_exact _ r)) by done. split; [done|]. split; [by rewrite Hid|done].
Qed.

Lemma lookup_readable db st key : readable db st ->
  lookup db key = Ok None \/ exists r, lookup db key = Ok (Some r) /\ region_at db r /\ region_contains (rr_region r) key = true.
Proof.
  intros Hm. unfold lookup. destruct (db_seek (range_seek_key key) db) as [|[k v] rest] eqn:E; [by left|].
  apply db_seek_head in E as (G & _ & _); [|apply Hm]. destruct (starts_with k (key_prefix RANGE)) eqn:P; cbn [negb]; [|by left].
  destruct (re_entries db st Hm k v G P) as (i & Hi & ->). rewrite (proj2 (range_entry_exact _ i)) by done. cbn [rbind].
  destruct (read_region_records db i (re_records db st Hm) Hi) as [->|(r & -> & Ha)]; cbn [rbind]; [by left|].
  destruct (region_contains (rr_region r) key) eqn:C; [|by left]. right. by exists r.
Qed.

Lemma readable_beside db st batch st' : readable db st -> Forall beside batch -> stores_ok (db_write batch db) ->
  mirrors (db_write batch db) st' -> applied_ok st' -> readable (db_write batch db) st'.
Proof.
  intros Hm Hb Hst Hmi Ha. destruct (beside_same batch db (re_sorted db st Hm) Hb) as (Hs & Hr & Hi). split; [done..| | |done].
  - intros i v Hlt. rewrite Hr. by apply Hm.
  - intros k v G P. rewrite Hi in G by done. by apply (re_entries db st Hm k).
Qed.
Lemma readable_singleton db st k v st' : readable db st ->
  starts_with k (key_prefix RANGE) = false -> starts_with k (key_prefix REGION) = false -> starts_with k (key_prefix STORE) = false ->
  mirrors (db_write [BPut k v] db) st' -> applied_ok st' -> readable (db_write [BPut k v] db) st'.
Proof.
  intros Hm H1 H2 H3. apply (readable_beside db st); [done|by repeat constructor|].
  apply stores_ok_beside; [apply Hm|by repeat constructor|apply Hm].
Qed.
Lemma readable_store db st r : readable db st -> store_ok r -> readable (db_write (stage_store [] r) db) st.
Proof.
  intros Hm Hr. apply (readable_beside db st); [done|apply stage_store_beside| | |apply Hm].
  - apply stores_ok_put; [apply Hm|done|apply Hm].
  - apply mirrors_long; [apply Hm|apply stage_store_long|apply Hm].
Qed.
Lemma readable_region db st r previous : readable db st -> region_record_ok r -> readable (beat db r previous) st.
Proof.
  intros Hm Hr. pose proof (re_sorted db st Hm) as Hs. split; [|apply Hm| | | |].
  - apply mirrors_long; [done|apply stage_region_long|apply Hm].
  - by apply beat_sorted.
  - intros i v Hi. rewrite beat_region by done. case_decide; [|by apply Hm]. intros [= <-]. by exists r.
  - intros k v G P. rewrite beat_get in G by done. case_decide; [injection G as [= <-]; eexists; split; [by apply region_ok_id|done]|].
    case_decide as E; [subst k; by rewrite region_key_kind in P|]. case_decide; [done|]. by apply (re_entries db st Hm k).
  - apply stores_ok_beside; [done|apply stage_region_not_store|apply Hm].
Qed.

(** A command a leader proposes. *)
Definition proposed (c : Command) : Prop :=
  command_ok c /\ match c with Bootstrap _ _ _ cluster_id _ => cluster_id <> 0%N | _ => True end.

(** One command that reads [db0] and whose writes land on [db]. *)
Lemma apply_command_readable db0 db st c : records_ok db0 -> stores_ok db0 -> readable db st -> proposed c ->
  exists st' batch ans, apply_command db0 st c [] = Ok (st', batch, ans) /\ readable (db_write batch db) st' /\
    as_allocated_end st' = N.max (as_allocated_end st) (ids_mark c) /\ as_high_water_ms st' = N.max (as_high_water_ms st) (tso_mark c).
Proof.
  intros Hr0 Hs0 Hm [Hc Hz]. pose proof (re_sorted db st Hm) as Hs. destruct (re_applied db st Hm) as [Ac An Ah Al].
  pose proof An as (An1 & (An2 & _)%u64_ok_cons)%u64_ok_cons. pose proof (re_mirrors db st Hm) as Hmi.
  destruct c as [term now|id address base cid now|e|mark|id stats now|r|ws|ev]; cbn [apply_command ids_mark tso_mark].
  - eexists _, _, _. split; [done|]. by rewrite !N.max_0_r.
  - destruct Hc as (Hu & Hl & Hv). pose proof Hu as (Hi & (Hb & (Hcl & (Hn & _)%u64_ok_cons)%u64_ok_cons)%u64_ok_cons)%u64_ok_cons.
    destruct (store_record_ok db0 id address now Hs0 ltac:(by repeat constructor) Hl Hv) as (r & Er & Hr & _).
    unfold machine_bootstrap. rewrite Er. cbn [rbind]. destruct (as_cluster st) as [cl|] eqn:Ecl; (eexists _, _, _; split; [done|]); rewrite !N.max_0_r;
      (split; [|done]); [by apply readable_store|].
    rewrite stage_region_app, stage_store_app, !db_write_app. change (db_write [] db) with db.
    apply readable_region; [|apply region_bootstrap_ok; by repeat constructor]. apply readable_store; [|done].
    apply (readable_singleton db st); [done..| |].
    + apply mirrors_cluster; [done..|]. split; [by repeat constructor|done].
    + split; [|done..]. split; [by repeat constructor|done].
  - apply u64_ok_cons in Hc as (He & _). eexists _, _, _. split; [done|]. cbn [app as_allocated_end as_high_water_ms].
    rewrite N.max_0_r. split; [|done]. apply (readable_singleton db st); [done..| |].
    + apply mirrors_alloc; [done..|]. by apply max_lt.
    + split; [done| |done..]. repeat constructor; [by apply max_lt|done].
  - apply u64_ok_cons in Hc as (He & _). eexists _, _, _. split; [done|]. cbn [app as_allocated_end as_high_water_ms].
    rewrite N.max_0_r. split; [|done]. apply (readable_singleton db st); [done..| |].
    + apply mirrors_tso; [done..|]. by apply max_lt.
    + split; [done| |done..]. repeat constructor; [done|by apply max_lt].
  - destruct Hc as [(Hi & (Hn & _)%u64_ok_cons)%u64_ok_cons Hst]. destruct (read_store_ok db0 id Hs0 Hi) as (o & E & Ho).
    rewrite E. cbn [rbind]. destruct o as [r|]; (eexists _, _, _; split; [done|]); rewrite !N.max_0_r; (split; [|done]); [|done].
    apply readable_store; [done|]. destruct Ho as [(Hu & _ & Hl & Hv) _].
    pose proof Hu as (? & (? & _)%u64_ok_cons)%u64_ok_cons. repeat split; cbn; try done. by repeat constructor.
  - destruct Hc as [Hr _]. destruct (read_region_records db0 (rg_id (rr_region r)) Hr0 (region_ok_id r Hr)) as [E|(p & E & _)];
      rewrite E; cbn [rbind from_option]; [|destruct (negb _)]; (eexists _, _, _; split; [done|]); rewrite !N.max_0_r; (split; [|done]);
      [by apply readable_region|done|by apply readable_region].
  - destruct Hc as [Hw _]. eexists _, _, _. split; [done|]. cbn [app as_allocated_end as_high_water_ms].
    rewrite !N.max_0_r. split; [|done]. apply (readable_singleton db st); [done..|by apply mirrors_columnar|by split].
  - eexists _, _, _. split; [done|]. cbn [app as_allocated_end as_high_water_ms].
    rewrite !N.max_0_r. split; [|done]. pose proof (history_push_ok _ ev Ah Hc).
    apply (readable_singleton db st); [done..|by apply mirrors_history|by split].
Qed.

(** What a run is known to have done: [cs] from [st] to [st']. *)
Definition ran (cs : list Command) (st st' : AppliedState) (outs : list (result PdError Answer)) : Prop :=
  Forall (fun o => is_ok o = true) outs /\ as_allocated_end st' = most ids_mark cs (as_allocated_end st) /\
  as_high_water_ms st' = most tso_mark cs (as_high_water_ms st).

Lemma stage_all_readable cs db0 : records_ok db0 -> stores_ok db0 -> forall st batch, readable (db_write batch db0) st -> Forall proposed cs ->
  exists st' b outs, stage_all cs db0 st batch = (st', b, outs) /\ readable (db_write b db0) st' /\ ran cs st st' outs.
Proof.
  intros Hr0 Hs0. induction cs as [|c cs IH]; intros st batch Hm Hp; [by exists st, batch, []|].
  apply Forall_cons in Hp as [Hc Hp]. cbn [stage_all]. rewrite stage_apply_app. unfold stage_apply.
  destruct (apply_command_readable db0 _ st c Hr0 Hs0 Hm Hc) as (st1 & b & a & -> & Hm1 & E1 & E2). rewrite <- db_write_app in Hm1.
  destruct (IH st1 (batch ++ b) Hm1 Hp) as (st' & b' & outs & -> & Hm' & Ho & F1 & F2). exists st', b', (Ok a :: outs).
  split; [done|]. split; [done|]. split; [by constructor|]. by rewrite F1, F2, E1, E2.
Qed.
Lemma apply_each_readable cs : forall db st, readable db st -> Forall proposed cs ->
  exists db' st' outs, apply_each cs db st = (db', st', outs) /\ readable db' st' /\ ran cs st st' outs.
Proof.
  induction cs as [|c cs IH]; intros db st Hm Hp; [by exists db, st, []|].
  apply Forall_cons in Hp as [Hc Hp]. cbn [apply_each]. unfold stage_apply.
  destruct (apply_command_readable db db st c (re_records _ _ Hm) (re_stores _ _ Hm) Hm Hc) as (st1 & b & a & -> & Hm1 & E1 & E2).
  destruct (IH _ st1 Hm1 Hp) as (db' & st' & outs & -> & Hm' & Ho & F1 & F2). exists db', st', (Ok a :: outs).
  split; [done|]. split; [done|]. split; [by constructor|]. by rewrite F1, F2, E1, E2.
Qed.
Lemma discharge_readable readies : forall db st, readable db st -> Forall proposed (concat readies.*2) ->
  exists db' st' outs, discharge_readies readies db st = (db', st', outs) /\ readable db' st' /\ ran (concat readies.*2) st st' outs.
Proof.
  induction readies as [|[alone cs] readies IH]; intros db st Hm Hp; [by exists db, st, []|].
  cbn [fmap list_fmap concat snd] in *. apply Forall_app in Hp as [Hc Hp]. cbn [discharge_readies].
  assert (exists db1 st1 outs, (if alone then apply_together cs db st else apply_each cs db st) = (db1, st1, outs) /\ readable db1 st1 /\ ran cs st st1 outs)
    as (db1 & st1 & outs1 & -> & Hm1 & Ho1 & E1 & E2).
  { destruct alone; [|by apply apply_each_readable]. unfold apply_together.
    destruct (stage_all_readable cs db (re_records _ _ Hm) (re_stores _ _ Hm) st [] Hm Hc) as (st1 & b & outs & -> & H1 & H2). by eauto 10. }
  destruct (IH db1 st1 Hm1 Hp) as (db' & st' & outs & -> & Hm' & Ho & F1 & F2). exists db', st', (outs1 ++ outs).
  split; [done|]. split; [done|]. split; [by apply Forall_app|]. unfold most in *. by rewrite !foldl_app, F1, F2, E1, E2.
Qed.

(** Folding independent runs only is applying the whole log entry by entry. *)
Lemma apply_each_app cs cs' db st : apply_each (cs ++ cs') db st =
  let '(db, st, outs) := apply_each cs db st in let '(db, st, outs') := apply_each cs' db st in (db, st, outs ++ outs').
Proof.
  revert db st. induction cs as [|c cs IH]; intros db st; cbn [app apply_each]; [by destruct (apply_each cs' db st) as [[? ?] ?]|].
  destruct (stage_apply db st c []) as [[st1 b] out]. rewrite IH. destruct (apply_each cs _ st1) as [[db2 st2] outs].
  by destruct (apply_each cs' db2 st2) as [[? ?] ?].
Qed.
Lemma log_served_proposed cl cs : log_served cl cs -> Forall proposed cs.
Proof.
  revert cl. induction cs as [|c cs IH]; intros cl; [by constructor|]. intros (Hc & Hm & Hs)%log_served_cons.
  constructor; [split; [done|by destruct c]|by eapply IH].
Qed.
Lemma discharge_is_each readies : Forall (fun e => e.1 = true -> independent e.2) readies ->
  forall db st cl, machine_ok db st -> (cl = true -> as_cluster st <> None) -> log_served cl (concat readies.*2) ->
  discharge_readies readies db st = apply_each (concat readies.*2) db st.
Proof.
  induction 1 as [|[alone cs] readies Hin _ IH]; intros db st cl Hm Hcl Hs; [done|].
  cbn [fmap list_fmap concat fst snd] in *. apply log_served_app in Hs as [Hc Hs]. cbn [discharge_readies]. rewrite apply_each_app.
  assert ((if alone then apply_together cs db st else apply_each cs db st) = apply_each cs db st) as ->.
  { destruct alone; [|done]. apply together_is_each; [done| |by apply Hin]. eapply Forall_impl; [by eapply log_served_proposed|]. by intros c []. }
  destruct (apply_each_ok cs db st cl Hm Hcl Hc) as (db1 & st1 & outs & -> & _ & Hm1 & _ & _ & Hcl1). by rewrite (IH db1 st1 _ Hm1 Hcl1 Hs).
Qed.

(** C9: however the driver discharges it, every log a leader proposes applies
    without an error.  Cut the log into runs, one for each [Ready], and apply each
    run entry by entry or, where the [Ready] has no messages, folded into one
    write: from an empty placement driver every command succeeds, the mirrors
    are what a restart would load, the id counter and the timestamp mark are the
    largest the log asked for, so neither ever falls, and a lookup never fails:
    it answers nothing, or a stored region that contains the key.  When no folded
    run has a command that reads a record an earlier one of the run may have
    written, the region a lookup answers is also the one the index names for its end
    ([together_forgets_guard] shows a folded run that breaks this). *)
Theorem pd_log_applies readies : log_served false (concat readies.*2) ->
  exists db st outs, discharge_readies readies [] applied_empty = (db, st, outs) /\ Forall (fun o => is_ok o = true) outs /\ machine_load db = Ok st /\
    as_allocated_end st = most ids_mark (concat readies.*2) 0 /\ as_high_water_ms st = most tso_mark (concat readies.*2) 0 /\
    (forall key, lookup db key = Ok None \/ exists r, lookup db key = Ok (Some r) /\ region_at db r /\ region_contains (rr_region r) key = true) /\
    (Forall (fun e => e.1 = true -> independent e.2) readies -> forall key r, lookup db key = Ok (Some r) -> indexed db r).
Proof.
  intros Hs. destruct (discharge_readable readies [] applied_empty (machine_ok_readable _ _ machine_ok_empty) (log_served_proposed _ _ Hs))
    as (db & st & outs & E & Hm & Ho & E1 & E2).
  exists db, st, outs. split_and!; [done..|apply Hm|done|done|intros key; by apply (lookup_readable db st)|].
  intros Hin key r Hl. rewrite (discharge_is_each readies Hin [] applied_empty false machine_ok_empty ltac:(done) Hs) in E.
  destruct (apply_each_ok _ [] applied_empty false machine_ok_empty ltac:(done) Hs) as (db1 & st1 & outs1 & E' & _ & Hm1 & _).
  rewrite E' in E. injection E as -> -> ->. destruct (lookup_sound db key (mo_table _ _ Hm1)) as [Hn|(r' & Hr & _ & Hi & _)]; [congruence|].
  rewrite Hl in Hr. by injection Hr as ->.
Qed.

Lemma pd_log_applies_witness :
  let readies := [(false, [TakeOffice 1 5; ReserveIds 1000]); (true, [Bootstrap 7 [x68] 1 9 5; AdvanceTso 3000]);
                  (true, [StoreBeat 7 StoreStats_default 6; RegionBeat (RegionRecord_new (Region_bootstrap 1 7 2) 8)]); (true, [AdvanceTso 2000])] in
  exists db st outs, discharge_readies readies [] applied_empty = (db, st, outs) /\ as_allocated_end st = 1000%N /\ as_high_water_ms st = 3000%N /\
    forall key r, lookup db key = Ok (Some r) -> indexed db r.
Proof.
  intros readies. destruct (pd_log_applies readies) as (db & st & outs & E & _ & _ & E1 & E2 & _ & Hi).
  - cbn. repeat split; try done; by repeat constructor.
  - exists db, st, outs. split; [exact E|]. split; [exact E1|]. split; [exact E2|]. apply Hi. clear.
    repeat constructor; intros; try discriminate; try (intros H1; by apply elem_of_nil in H1).
    all: cbn in *; repeat match goal with H : _ ∈ [] |- _ => by apply elem_of_nil in H | H : _ ∈ _ :: _ |- _ => apply elem_of_cons in H as [->|H] end.
    all: intros Hk; cbn in Hk; repeat match goal with H : _ ∈ [] |- _ => by apply elem_of_nil in H | H : _ ∈ _ :: _ |- _ => apply elem_of_cons in H as [H|H] end; by vm_compute in Hk.
Defined.

(** ** Runs that are not independent *)

(** C35: a run folded into one write does not keep the epoch guard.  Let a record of
    a region be held, and let a run bring a newer heartbeat of it and then one the
    newer one outdates, both acceptable against the record held.  Applied one by one
    the second is answered as stale and the newer record stays.  Folded, the second
    is judged against the record from before the run: it is answered as applied and
    replaces the newer one.  And when the newer one ended elsewhere than the other two,
    its index entry stays behind, naming a region that does not end there. *)
Theorem together_forgets_guard db st held newer older : bt_sorted db -> region_record_ok newer -> region_record_ok older ->
  let id := rg_id (rr_region held) in rg_id (rr_region newer) = id -> rg_id (rr_region older) = id -> read_region db id = Ok (Some held) ->
  accepts held (rg_epoch (rr_region newer)) (rr_term newer) = true -> accepts held (rg_epoch (rr_region older)) (rr_term older) = true ->
  accepts newer (rg_epoch (rr_region older)) (rr_term older) = false ->
  let run := [RegionBeat newer; RegionBeat older] in
  exists each_db together_db,
    apply_each run db st = (each_db, st, [Ok (AUpserted Applied); Ok (AUpserted Stale)]) /\ read_region each_db id = Ok (Some newer) /\
    apply_together run db st = (together_db, st, [Ok (AUpserted Applied); Ok (AUpserted Applied)]) /\ read_region together_db id = Ok (Some older) /\
    (rg_end_key (rr_region newer) <> rg_end_key (rr_region older) -> rg_end_key (rr_region newer) <> rg_end_key (rr_region held) ->
     bt_get (range_key (rg_end_key (rr_region newer))) together_db = Some (encode_range_entry id) /\ ~ table_ok together_db).
Proof.
  intros Hs Hn Ho id En Eo Hr An Ao Ano run. exists (beat db newer (Some held)), (beat (beat db newer (Some held)) older (Some held)).
  pose proof (beat_sorted db newer (Some held) Hs) as Hs1.
  assert (read_region (beat db newer (Some held)) id = Ok (Some newer)) as R1.
  { rewrite <- En. apply read_region_stored, beat_region_at; [done..|]. by rewrite decide_True. }
  assert (region_at (beat (beat db newer (Some held)) older (Some held)) older) as Hat by (apply beat_region_at; [done..|]; by rewrite decide_True).
  split_and!; [|exact R1| |rewrite <- Eo; by apply read_region_stored|].
  - cbn [run apply_each]. unfold stage_apply. cbn [apply_command]. rewrite En, Hr. cbn [rbind from_option]. rewrite An. cbn [negb].
    cbn [apply_command]. rewrite Eo. fold (beat db newer (Some held)). rewrite R1. cbn [rbind from_option]. rewrite Ano. done.
  - unfold apply_together. cbn [run stage_all]. unfold stage_apply. cbn [apply_command]. rewrite En, Hr. cbn [rbind from_option]. rewrite An. cbn [negb].
    rewrite Eo, Hr. cbn [rbind from_option]. rewrite Ao. cbn [negb]. rewrite stage_region_app, db_write_app. done.
  - intros D1 D2. assert (bt_get (range_key (rg_end_key (rr_region newer))) (beat (beat db newer (Some held)) older (Some held)) = Some (encode_range_entry id)) as G.
    { rewrite beat_index by done. rewrite decide_False by done. cbn [fmap option_fmap option_map]. rewrite decide_False by congruence.
      rewrite beat_index by done. by rewrite decide_True, En. }
    split; [exact G|]. intros Ht. destruct (tk_index _ Ht _ _ G (range_key_kind _)) as (r & Ha & Ek & Ei). apply range_key_inj in Ek.
    assert (rg_id (rr_region r) = id) as Eid.
    { assert (decode_range_entry (encode_range_entry id) = Ok id) as D by (apply range_entry_exact; split; [rewrite <- En; by apply region_ok_id|done]).
      rewrite Ei, (proj2 (range_entry_exact _ (rg_id (rr_region r)))) in D by (split; [apply region_ok_id, Ha|done]). congruence. }
    apply D1. rewrite Ek. f_equal. f_equal. eapply region_at_inj; [exact Ha|exact Hat|congruence].
Qed.

(** A region, and two of its heartbeats: the newer moved its end to [t]. *)
Definition fold_region (version : N) (stop : bytes) : RegionRecord :=
  RegionRecord_new (mkRegion 1 [] stop [mkPeer 7 2 Voter] (mkEpoch 1 version)) 6.
Definition fold_db : Db := (apply_each [Bootstrap 7 [x68] 1 9 5] [] applied_empty).1.1.
Lemma together_forgets_guard_witness : exists together_db,
  apply_together [RegionBeat (fold_region 3 [x74]); RegionBeat (fold_region 2 [x6d])] fold_db applied_empty = (together_db, applied_empty, [Ok (AUpserted Applied); Ok (AUpserted Applied)]) /\
  read_region together_db 1 = Ok (Some (fold_region 2 [x6d])) /\ ~ table_ok together_db.
Proof.
  assert (forall v stop, (v < two64)%N -> len64 stop -> region_record_ok (fold_region v stop)) as Hok by (intros v stop Hv Hl; repeat split; cbn; try done; by repeat constructor).
  destruct (together_forgets_guard fold_db applied_empty (RegionRecord_new (Region_bootstrap 1 7 2) 5) (fold_region 3 [x74]) (fold_region 2 [x6d]))
    as (each_db & together_db & _ & _ & E & R & Hlost); [| | |reflexivity|reflexivity|by vm_compute|by vm_compute|by vm_compute|by vm_compute|].
  - unfold fold_db. destruct (apply_each_ok [Bootstrap 7 [x68] 1 9 5] [] applied_empty false machine_ok_empty ltac:(done)) as (db & st & outs & -> & _ & Hm & _);
      [by repeat split; repeat constructor|apply Hm].
  - by apply Hok.
  - by apply Hok.
  - exists together_db. split; [exact E|]. split; [exact R|]. apply Hlost; discriminate.
Defined.

(** ** Snapshots *)

Definition puts (l : list (bytes * bytes)) : WriteBatch := (fun p => BPut p.1 p.2) <$> l.
Definition pair_enc (e : bytes * bytes) : bytes := bytes_enc e.1 ++ bytes_enc e.2.

Lemma bt_get_cons k v (m : Db) k' : bt_sorted ((k, v) :: m) -> bt_get k' ((k, v) :: m) = if decide (k' = k) then Some v else bt_get k' m.
Proof.
  intros [Hlt Hs]. cbn [bt_get]. destruct (bytes_cmp k' k) eqn:C.
  - apply bytes_cmp_eq in C. by rewrite decide_True.
  - rewrite decide_False by (intros ->; by rewrite bytes_cmp_refl in C). destruct (bt_get k' m) as [w|] eqn:G; [|done].
    apply bt_get_elem in G; [|done]. specialize (Hlt _ G). cbn in Hlt. by rewrite bytes_cmp_antisym, C in Hlt.
  - by rewrite decide_False by (intros ->; by rewrite bytes_cmp_refl in C).
Qed.

(** Putting a map's pairs rebuilds it. *)
Lemma puts_get (l : Db) : forall m : Db, bt_sorted l -> bt_sorted m -> bt_sorted (db_write (puts l) m) /\
  forall k, bt_get k (db_write (puts l) m) = match bt_get k l with Some v => Some v | None => bt_get k m end.
Proof.
  induction l as [|[k v] l IH]; intros m Hl Hm; [done|]. destruct (IH (bt_insert k v m)) as [Hs Hg]; [apply Hl|eauto with esker|].
  split; [exact Hs|]. intros k'. etrans; [exact (Hg k')|]. rewrite bt_get_cons by done. rewrite bt_get_insert by done.
  case_decide as E; [|done]. subst. destruct (bt_get k l) as [w|] eqn:G; [|done]. apply bt_get_elem in G; [|apply Hl].
  destruct Hl as [Hl _]. specialize (Hl _ G). cbn in Hl. by rewrite bytes_cmp_refl in Hl.
Qed.
Lemma puts_rebuild (l : Db) : bt_sorted l -> db_write (puts l) [] = l.
Proof.
  intros Hl. destruct (puts_get l [] Hl I) as [Hs Hg]. apply bt_ext; [done..|]. intros k. rewrite Hg. by destruct (bt_get k l).
Qed.

(** Everything under the prefix is everything there is. *)
Lemma delete_prefixed db : prefixed db -> db_op db (BDeleteRange [PREFIX] [n2b (b2n PREFIX + 1)]) = [].
Proof.
  intros H. cbn [db_op]. induction H as [|[k v] db Hk _ IH]; [done|]. cbn [List.filter fst].
  destruct k as [|b k]; [done|]. cbn in Hk. injection Hk as [= ->].
  assert (bytes_leb [PREFIX] (PREFIX :: k) && bytes_ltb (PREFIX :: k) [n2b (b2n PREFIX + 1)] = true) as -> by by destruct k. exact IH.
Qed.

Lemma snapshot_bytes db : machine_snapshot db = [SNAPSHOT_VERSION] ++ put_u64 (N.of_nat (length db)) [] ++ bytes_enc (concat (pair_enc <$> (db : list (bytes * bytes)))).
Proof.
  unfold machine_snapshot. rewrite (foldl_put _ pair_enc); [|intros; rewrite !put_bytes_app; by rewrite <- app_assoc].
  rewrite put_bytes_app. unfold put_varint, put_u8. rewrite put_u64_app. by rewrite <- app_assoc.
Qed.

Lemma bytes_enc_len bs : length bs <= length (bytes_enc bs).
Proof. unfold bytes_enc. rewrite length_app. lia. Qed.
Lemma concat_part {A} (enc : A -> bytes) (l : list A) x : x ∈ l -> length (enc x) <= length (concat (enc <$> l)).
Proof. induction 1 as [|x y l _ IH]; cbn; rewrite length_app; lia. Qed.

Lemma snapshot_pairs db : len64 (machine_snapshot db) -> len64 (concat (pair_enc <$> (db : list (bytes * bytes)))) /\ len64 db /\
  length db <= length (bytes_enc (concat (pair_enc <$> (db : list (bytes * bytes))))) /\ forall e, e ∈ db -> reads get_pair (pair_enc e) e.
Proof.
  unfold len64. rewrite snapshot_bytes. set (body := concat (pair_enc <$> (db : list (bytes * bytes)))). intros Hl. rewrite !length_app in Hl.
  pose proof (bytes_enc_len body) as Hb.
  assert (length db <= length body) as Hd.
  { apply concat_long. intros [k v] _. unfold pair_enc, bytes_enc. rewrite <- app_assoc. apply put_u64_app_ne. }
  split; [lia|]. split; [lia|]. split; [lia|]. intros [k v] He. pose proof (concat_part pair_enc db _ He) as Hp. fold body in Hp.
  unfold pair_enc in *. cbn [fst snd] in *. rewrite length_app in Hp. pose proof (bytes_enc_len k). pose proof (bytes_enc_len v).
  assert (len64 k) by (unfold len64; lia). assert (len64 v) by (unfold len64; lia).
  unfold get_pair. eapply reads_bind; [by apply reads_fld, reads_bytes|]. cbn beta iota. by apply (reads_last _ (pair k)), reads_fld, reads_bytes.
Qed.

Lemma installs_snapshot db batch : len64 (machine_snapshot db) ->
  machine_install (machine_snapshot db) batch =
  Ok (batch ++ [BDeleteRange [PREFIX] [n2b (b2n PREFIX + 1)]] ++ puts db).
Proof.
  intros Hl. destruct (snapshot_pairs db Hl) as (Hb & Hd & Hc & Hp). rewrite snapshot_bytes. set (body := concat (pair_enc <$> (db : list (bytes * bytes)))) in *.
  unfold machine_install, Decoder_new, fld. set (n := put_u64 _ []).
  pose proof (reads_u8 "snapshot.version" SNAPSHOT_VERSION [] (n ++ bytes_enc body)) as R1.
  cbn [length app Nat.add] in R1 |- *. rewrite R1. cbn [rmap_err rbind].
  rewrite decide_False by (by intros H). pose proof (get_count_at "snapshot.count" (length db) [SNAPSHOT_VERSION] (bytes_enc body) Hd Hc) as R2.
  fold n in R2. cbn [length Nat.add app] in R2 |- *. rewrite R2. cbn [rmap_err rbind].
  pose proof (reads_bytes "snapshot.pairs" body Hb (SNAPSHOT_VERSION :: n) []) as R3. rewrite app_nil_r in R3. cbn [length app Nat.add] in R3.
  rewrite R3. cbn [rmap_err rbind]. rewrite finish_reads; [|by apply drop_ge; cbn; rewrite length_app; lia]. cbn [rmap_err rbind].
  destruct (reads_whole (get_list get_pair (length db)) body db (reads_list get_pair pair_enc db Hp)) as (d & Rl & Rf).
  unfold Decoder_new in Rl. rewrite Rl. cbn [rbind]. rewrite Rf. cbn [rmap_err rbind]. by rewrite <- app_assoc.
Qed.

(** C16: A snapshot carries the state machine whole.  Take any two placement
    drivers and the logs that led to them: the snapshot of the first installs
    over the second, and leaves exactly the first one's records, none of the
    second's, and the first one's mirrors for the reload that follows. *)
Theorem snapshot_replaces cs db st outs cs' db' st' outs' :
  log_served false cs -> apply_each cs [] applied_empty = (db, st, outs) -> apply_each cs' [] applied_empty = (db', st', outs') ->
  len64 (machine_snapshot db) ->
  exists batch, machine_install (machine_snapshot db) [] = Ok batch /\ db_write batch db' = db /\ machine_load (db_write batch db') = Ok st.
Proof.
  intros Hs E E' Hl. rewrite installs_snapshot by done. cbn [app]. eexists. split; [done|].
  destruct (apply_each_ok cs [] applied_empty false machine_ok_empty ltac:(done) Hs) as (db1 & st1 & outs1 & E1 & _ & Hm & _).
  rewrite E in E1. injection E1 as [= <- <- <-].
  assert (db_write (BDeleteRange [PREFIX] [n2b (b2n PREFIX + 1)] :: puts db) db' = db) as ->; [|split; [done|apply Hm]].
  pose proof (apply_each_prefixed cs' [] applied_empty I ltac:(constructor)) as Hp. rewrite E' in Hp.
  change (db_write (puts db) (db_op db' (BDeleteRange [PREFIX] [n2b (b2n PREFIX + 1)])) = db).
  rewrite delete_prefixed by done. apply puts_rebuild, Hm.
Qed.

Lemma snapshot_replaces_witness :
  let cs := [Bootstrap 7 [x68] 1 9 5; ReserveIds 1000] in let cs' := [Bootstrap 8 [x69] 2 4 5; RegionBeat (fold_region 3 [x74])] in
  exists batch, machine_install (machine_snapshot (apply_each cs [] applied_empty).1.1) [] = Ok batch /\
    db_write batch (apply_each cs' [] applied_empty).1.1 = (apply_each cs [] applied_empty).1.1.
Proof.
  intros cs cs'. destruct (apply_each cs [] applied_empty) as [[db st] outs] eqn:E. destruct (apply_each cs' [] applied_empty) as [[db' st'] outs'] eqn:E'.
  destruct (snapshot_replaces cs db st outs cs' db' st' outs') as (batch & H1 & H2 & _).
  - cbn. repeat split; try done; by repeat constructor.
  - exact E.
  - exact E'.
  - assert (db = (apply_each cs [] applied_empty).1.1) as -> by (by rewrite E). vm_compute. reflexivity.
  - exists batch. split; [exact H1|exact H2].
Defined.
