(* ===== verification/PdTso.v ===== *)
(** The placement driver's timestamp oracle and id allocator: [esker-pd/src/tso.rs],
    [alloc.rs], the timestamp layout of [lib.rs], and the group of members that
    hand timestamps out ([Pd::tso], [Pd::leading], [commit_tso] of
    [pd/mod.rs]), a leader that has been replaced and has not noticed among them. *)

From Stdlib Require Import Strings.String Strings.Byte.
From stdpp Require Import prelude sorting gmap.
From Stdlib Require Import NArith ZArith Lia.
From S2P Require Import Prelude PdRecord.

Local Open Scope N_scope.

(** ** The layout ([lib.rs]) *)

Definition TSO_LOGICAL_BITS : N := 18.
Definition TSO_MAX_LOGICAL : N := N.shiftl 1 TSO_LOGICAL_BITS - 1.
Definition TSO_SAVE_INTERVAL_MS : N := 3000.
(** [<<] on [u64] drops the bits past the width. *)
Definition shl64 (v n : N) : N := N.shiftl v n mod two64.
Definition compose_ts (physical_ms logical : N) : N := N.lor (shl64 physical_ms TSO_LOGICAL_BITS) (N.land logical TSO_MAX_LOGICAL).
Definition decompose_ts (ts : N) : N * N := (N.shiftr ts TSO_LOGICAL_BITS, N.land ts TSO_MAX_LOGICAL).

(** ** The oracle ([tso.rs]) *)

Definition LOGICAL_SPACE : N := TSO_MAX_LOGICAL + 1.
Definition MAX_PHYSICAL_MS : N := N.shiftl 1 (64 - TSO_LOGICAL_BITS) - 1.
Definition checked_add64 (a b : N) : option N := if a + b <? two64 then Some (a + b) else None.

Record Oracle := mkOracle {
  or_physical_ms : N;
  or_logical : N;
  or_high_water_ms : N;
  or_save_interval_ms : N;
}.

Definition oracle_load (record : option TsoRecord) (now_ms save_interval_ms : N) : Oracle :=
  let high_water_ms := from_option tr_high_water_ms 0 record in
  mkOracle (N.max now_ms high_water_ms) 0 high_water_ms (N.max save_interval_ms 1).

(** [Oracle::allocate]; the oracle is returned as the errors leave it, and with
    it the mark [persist] was asked to make durable. *)
Definition oracle_allocate (o : Oracle) (count now_ms : N) (persist : N -> result PdError unit) : Oracle * option N * result PdError N :=
  if count =? 0 then (o, None, Err PdInvalid)
  else if LOGICAL_SPACE <? count then (o, None, Err PdInvalid)
  else
    let o := if or_physical_ms o <? now_ms then mkOracle now_ms 0 (or_high_water_ms o) (or_save_interval_ms o) else o in
    match
      (if LOGICAL_SPACE <? or_logical o + count then
         match checked_add64 (or_physical_ms o) 1 with
         | None => None
         | Some physical_ms => Some (mkOracle physical_ms 0 (or_high_water_ms o) (or_save_interval_ms o))
         end
       else Some o)
    with
    | None => (o, None, Err PdInternal)
    | Some o =>
        if MAX_PHYSICAL_MS <? or_physical_ms o then (o, None, Err PdInternal)
        else
          let hand_out (o : Oracle) := (mkOracle (or_physical_ms o) (or_logical o + count) (or_high_water_ms o) (or_save_interval_ms o),
                                        compose_ts (or_physical_ms o) (or_logical o)) in
          if or_high_water_ms o <=? or_physical_ms o then
            match checked_add64 (or_physical_ms o) (or_save_interval_ms o) with
            | None => (o, None, Err PdInternal)
            | Some mark =>
                match persist mark with
                | Err e => (o, Some mark, Err e)
                | Ok _ =>
                    let '(o, start) := hand_out (mkOracle (or_physical_ms o) (or_logical o) mark (or_save_interval_ms o)) in
                    (o, Some mark, Ok start)
                end
            end
          else let '(o, start) := hand_out o in (o, None, Ok start)
    end.

(** ** The allocator ([alloc.rs]) *)

Definition ALLOC_BATCH : N := 1000.
Record Allocator := mkAllocator { al_next : N; al_allocated_end : N; al_batch : N }.

Definition allocator_load (record : option AllocRecord) (batch : N) : Allocator :=
  let allocated_end := from_option ar_allocated_end 0 record in
  mkAllocator (allocated_end +% 1) allocated_end (N.max batch 1).

Definition div_ceil (a b : N) : N := if a mod b =? 0 then a / b else a / b + 1.
Definition sat_mul (a b : N) : N := N.min (a * b) u64_max.
Definition allocator_allocate (a : Allocator) (count : N) (reserve : N -> result PdError unit) : Allocator * option N * result PdError N :=
  if count =? 0 then (a, None, Err PdInvalid)
  else if al_next a =? 0 then (a, None, Err PdInternal)
  else match checked_add64 (al_next a) (count - 1) with
  | None => (a, None, Err PdInternal)
  | Some last =>
      let hand_out (a : Allocator) := mkAllocator (last +% 1) (al_allocated_end a) (al_batch a) in
      if al_allocated_end a <? last then
        let batches := div_ceil (last - al_allocated_end a) (al_batch a) in
        let end_ := sat_add (al_allocated_end a) (sat_mul batches (al_batch a)) in
        match reserve end_ with
        | Err e => (a, Some end_, Err e)
        | Ok _ => (hand_out (mkAllocator (al_next a) end_ (al_batch a)), Some end_, Ok (al_next a))
        end
      else (hand_out a, None, Ok (al_next a))
  end.

(** ** The group that hands numbers out *)

(** What [Pd] asks of the oracle and of the allocator: rebuilt from a committed
    mark, handing out runs that the mark covers, persisting before it crosses
    it.  The laws say where the next run starts, what the mark held in memory
    is, and which numbers a mark covers. *)
Class Dispenser (D : Type) := {
  dp_load : N -> N -> D;
  dp_allocate : D -> N -> N -> (N -> result PdError unit) -> D * option N * result PdError N;
  dp_next : D -> N;
  dp_mark : D -> N;
  dp_cover : N -> N;
  dp_ok : D -> Prop;
}.

(** What an answer, or a refusal, leaves. *)
Definition dispensed {D} `{Dispenser D} (o : D) (count : N) (persist : N -> result PdError unit) (o' : D) (asked : option N) (r : result PdError N) : Prop :=
  dp_ok o' /\ dp_next o <= dp_next o' /\ dp_mark o <= dp_mark o' /\
  match r with
  | Ok start =>
      1 <= count /\ dp_next o <= start /\ start + count = dp_next o' /\ dp_next o' <= dp_cover (D := D) (dp_mark o') /\ start + count <= two64 /\
      match asked with
      | Some mark => dp_mark o' = mark /\ mark < two64 /\ exists u, persist mark = Ok u
      | None => dp_mark o' = dp_mark o
      end
  | Err _ => dp_mark o' = dp_mark o /\ forall mark, asked = Some mark -> exists e, persist mark = Err e
  end.

Class DispenserLaws (D : Type) `{Dispenser D} := {
  dp_cover_le : forall a b, a <= b -> dp_cover (D := D) a <= dp_cover (D := D) b;
  dp_load_ok : forall mark clock, mark < two64 -> dp_ok (dp_load (D := D) mark clock) /\ dp_mark (dp_load (D := D) mark clock) = mark /\
    dp_cover (D := D) mark <= dp_next (dp_load (D := D) mark clock);
  dp_allocate_ok : forall (o : D) count clock persist, dp_ok o ->
    let '(o', asked, r) := dp_allocate o count clock persist in dispensed o count persist o' asked r;
}.

(** ** The group *)

(** The committed mark, the member whose proposals commit, what each member
    that believes it serves holds, and what was handed out, latest first. *)
Record Group (D : Type) := mkGroup {
  gr_mark : N;
  gr_leader : nat;
  gr_dispensers : gmap nat D;
  gr_issued : list (N * N);
}.
Arguments mkGroup {D}.
Arguments gr_mark {D}.
Arguments gr_leader {D}.
Arguments gr_dispensers {D}.
Arguments gr_issued {D}.

Inductive GroupEvent :=
  | TakesOffice (member : nat) (clock_ms : N)
  | Asks (member : nat) (count clock_ms : N) (commits : bool)
  | Commits (mark : N)
  | StepsDown (member : nat).

Definition event_ok (e : GroupEvent) : Prop := match e with Commits mark => mark < two64 | _ => True end.

(** [commit_tso], and [reserve]: a proposal succeeds for the leader alone, when it commits in
    time. *)
Definition commit_tso {D} (g : Group D) (m : nat) (commits : bool) (high_water_ms : N) : result PdError unit :=
  if bool_decide (m = gr_leader g) && commits then Ok tt else Err PdInternal.

Section Group.
Context {D : Type} `{!Dispenser D}.
Notation Group := (Group D).
Notation cover := (dp_cover (D := D)).

Definition group_new : Group := mkGroup 0 0 ∅ [].

(** A member's term begins; [Pd::tso] or [Pd::alloc_id] is called on it; a
    mark whose proposer was told it failed commits after all; a member notices
    it does not lead.  The mark the machine keeps is the maximum it was asked
    for. *)
Definition group_step (g : Group) (e : GroupEvent) : Group * option (result PdError N) :=
  match e with
  | TakesOffice m clock_ms =>
      (mkGroup (gr_mark g) m (<[m := dp_load (gr_mark g) clock_ms]> (gr_dispensers g)) (gr_issued g), None)
  | Asks m count clock_ms commits =>
      match gr_dispensers g !! m with
      | None => (g, Some (Err (PdNotLeader 0 [])))
      | Some o =>
          let '(o', asked, r) := dp_allocate o count clock_ms (commit_tso g m commits) in
          let mark := match asked with Some mark => if is_ok (commit_tso g m commits mark) then N.max (gr_mark g) mark else gr_mark g | None => gr_mark g end in
          (mkGroup mark (gr_leader g) (<[m := o']> (gr_dispensers g))
             (match r with Ok start => (start, count) :: gr_issued g | Err _ => gr_issued g end), Some r)
      end
  | Commits mark => (mkGroup (N.max (gr_mark g) mark) (gr_leader g) (gr_dispensers g) (gr_issued g), None)
  | StepsDown m => (mkGroup (gr_mark g) (gr_leader g) (delete m (gr_dispensers g)) (gr_issued g), None)
  end.
Definition group_run (es : list GroupEvent) : Group := foldl (fun g e => (group_step g e).1) group_new es.

(** Runs of timestamps that share none. *)
Definition apart (a b : N * N) : Prop := a.1 + a.2 <= b.1 \/ b.1 + b.2 <= a.1.

(** Below everything member [m] may yet hand out, or past it when it does not lead. *)
Definition outside (g : Group) (m : nat) (o : D) (lo hi : N) : Prop :=
  hi <= dp_next o \/ (m <> gr_leader g /\ cover (dp_mark o) <= lo).

Record group_ok (g : Group) : Prop := {
  go_mark : gr_mark g < two64;
  go_dispensers : forall m o, gr_dispensers g !! m = Some o -> dp_ok o /\ dp_mark o <= gr_mark g;
  go_issued : forall r, r ∈ gr_issued g -> r.1 + r.2 <= cover (gr_mark g);
  go_apart : forall i j a b, i <> j -> gr_issued g !! i = Some a -> gr_issued g !! j = Some b -> apart a b;
  go_outside : forall m o r, gr_dispensers g !! m = Some o -> r ∈ gr_issued g -> outside g m o r.1 (r.1 + r.2);
  go_windows : forall m m' o o', m <> m' -> gr_dispensers g !! m = Some o -> gr_dispensers g !! m' = Some o' ->
    (m <> gr_leader g /\ cover (dp_mark o) <= dp_next o') \/ (m' <> gr_leader g /\ cover (dp_mark o') <= dp_next o);
}.

Context `{!DispenserLaws D}.

Lemma group_ok_takes g m clock : group_ok g -> group_ok (group_step g (TakesOffice m clock)).1.
Proof.
  intros [H0 H1 H2 H3 H4 H5]. cbn. set (o := dp_load (gr_mark g) clock). destruct (dp_load_ok (gr_mark g) clock H0) as (Ho & Hh & Hn). fold o in Ho, Hh, Hn.
  assert (forall m' o', gr_dispensers g !! m' = Some o' -> cover (dp_mark o') <= dp_next o) as Hbelow.
  { intros m' o' E. etrans; [|exact Hn]. apply dp_cover_le. by apply (H1 m' o'). }
  split; cbn [gr_dispensers gr_issued gr_mark gr_leader]; [done| |done|done| |].
  - intros m' o' [[<- <-]|[_ E]]%lookup_insert_Some; [split; [done|lia]|by eapply H1].
  - intros m' o' r [[<- <-]|[Hne E]]%lookup_insert_Some Hr; [left; etrans; [by apply H2|done]|].
    destruct (H4 m' o' r E Hr) as [?|[_ ?]]; [by left|right]. split; [by intros ->|done].
  - intros a b oa ob Hab [[<- <-]|[Ha Ea]]%lookup_insert_Some [[<- <-]|[Hb Eb]]%lookup_insert_Some; [done|right|left|].
    + split; [by intros ->|by eapply Hbelow].
    + split; [by intros ->|by eapply Hbelow].
    + destruct (H5 a b oa ob Hab Ea Eb) as [[_ ?]|[_ ?]]; [left|right]; (split; [by intros ->|done]).
Qed.

Lemma group_ok_steps_down g m : group_ok g -> group_ok (group_step g (StepsDown m)).1.
Proof.
  intros [H0 H1 H2 H3 H4 H5]. cbn. split; cbn; [done| |done|done| |].
  - intros m' o [_ E]%lookup_delete_Some. by eapply H1.
  - intros m' o r [_ E]%lookup_delete_Some. by apply H4.
  - intros a b oa ob Hab [_ Ea]%lookup_delete_Some [_ Eb]%lookup_delete_Some. by apply (H5 a b).
Qed.

Lemma group_ok_commits g mark : mark < two64 -> group_ok g -> group_ok (group_step g (Commits mark)).1.
Proof.
  intros Hmark [H0 H1 H2 H3 H4 H5]. split; cbn; [lia| | |done..].
  - intros m o E. destruct (H1 m o E). split; [done|lia].
  - intros r Hr. etrans; [by apply H2|]. apply dp_cover_le. lia.
Qed.

(** An oracle moves on, and its mark with it when it leads. *)
Lemma group_ok_moved g m o o' mark : group_ok g -> gr_dispensers g !! m = Some o -> dp_ok o' -> dp_next o <= dp_next o' ->
  gr_mark g <= mark -> mark < two64 -> dp_mark o' <= mark -> (m <> gr_leader g -> dp_mark o' = dp_mark o) ->
  group_ok (mkGroup mark (gr_leader g) (<[m := o']> (gr_dispensers g)) (gr_issued g)).
Proof.
  intros [H0 H1 H2 H3 H4 H5] Em Ho Hn Hmk Hm64 Hh Hnl. split; cbn [gr_dispensers gr_issued gr_mark gr_leader]; [done| | |done| |].
  - intros m' x [[<- <-]|[_ E]]%lookup_insert_Some; [done|]. destruct (H1 m' x E). split; [done|lia].
  - intros r Hr. etrans; [by apply H2|]. by apply dp_cover_le.
  - intros m' x r [[<- <-]|[_ E]]%lookup_insert_Some Hr; [|by apply (H4 m' x r)].
    destruct (H4 m o r Em Hr) as [?|[Hne ?]]; [left; lia|right]. by rewrite Hnl.
  - intros a b oa ob Hab [[<- <-]|[Ha Ea]]%lookup_insert_Some [[<- <-]|[Hb Eb]]%lookup_insert_Some; [done|..|by apply (H5 a b)].
    + destruct (H5 m b o ob Hab Em Eb) as [[Hne ?]|[? ?]]; [left; by rewrite Hnl|right]. split; [done|lia].
    + destruct (H5 a m oa o Hab Ea Em) as [[? ?]|[Hne ?]]; [left; split; [done|lia]|right]. by rewrite Hnl.
Qed.

(** A run handed out outside every window. *)
Lemma group_ok_push g r : group_ok g -> r.1 + r.2 <= cover (gr_mark g) -> (forall r', r' ∈ gr_issued g -> apart r r') ->
  (forall m o, gr_dispensers g !! m = Some o -> outside g m o r.1 (r.1 + r.2)) ->
  group_ok (mkGroup (gr_mark g) (gr_leader g) (gr_dispensers g) (r :: gr_issued g)).
Proof.
  intros [H0 H1 H2 H3 H4 H5] Hm Ha Ho. split; cbn; [done|done| | | |done].
  - intros r' [->|Hr]%elem_of_cons; [done|by apply H2].
  - intros [|i] [|j] a b Hij; cbn; [done|..].
    + intros [= ->] Hb%list_elem_of_lookup_2. by apply Ha.
    + intros Hb%list_elem_of_lookup_2 [= ->]. destruct (Ha a Hb); [by right|by left].
    + apply H3. congruence.
  - intros m o r' E [->|Hr]%elem_of_cons; [by apply Ho|by apply (H4 m o)].
Qed.

Lemma group_ok_asks g m count clock commits : group_ok g -> group_ok (group_step g (Asks m count clock commits)).1.
Proof.
  intros Hg. cbn [group_step]. destruct (gr_dispensers g !! m) as [o|] eqn:Em; [|done]. destruct (go_dispensers g Hg m o Em) as [Ho Hm].
  set (commit := commit_tso g m commits). pose proof (dp_allocate_ok o count clock commit Ho) as Ha.
  assert (forall mark, is_ok (commit mark) = true -> m = gr_leader g) as Hlead.
  { intros mark. unfold commit, commit_tso. destruct (bool_decide (m = gr_leader g)) eqn:B; [by apply bool_decide_eq_true in B|done]. }
  destruct (dp_allocate o count clock commit) as [[o' asked] r]. set (mark := match asked with Some _ => _ | None => _ end).
  destruct Ha as (Ho' & Hn & Hh & Hr). cbn [fst].
  pose proof (go_mark g Hg) as H0.
  assert (gr_mark g <= mark /\ mark < two64 /\ dp_mark o' <= mark /\ (m <> gr_leader g -> dp_mark o' = dp_mark o)) as (Hmk & Hm64 & Hhm & Hnl).
  { subst mark. destruct r as [start|e]; [destruct Hr as (_ & _ & _ & _ & _ & Hr)|destruct Hr as [Hr Hk]].
    - destruct asked as [mk|]; [|lia]. destruct Hr as [<- [Hk [u Hu]]]. pose proof (Hlead (dp_mark o')) as L. rewrite Hu in L |- *. cbn in L |- *.
      split; [lia|]. split; [lia|]. split; [lia|]. intros ?. by destruct L.
    - destruct asked as [mk|]; [|lia]. destruct (Hk mk eq_refl) as [e' ->]. cbn. lia. }
  pose proof (group_ok_moved g m o o' mark Hg Em Ho' Hn Hmk Hm64 Hhm Hnl) as Hg'. destruct r as [start|e]; [|exact Hg'].
  destruct Hr as (_ & Hs & Hsum & Hend & _). apply (group_ok_push _ (start, count) Hg'); cbn [gr_mark gr_issued gr_dispensers fst snd].
  - etrans; [|by apply (dp_cover_le (dp_mark o') mark)]. lia.
  - intros r' Hr'. destruct (go_outside g Hg m o r' Em Hr') as [?|[Hne ?]]; [right; cbn; lia|left; cbn]. rewrite Hnl in Hend by done. lia.
  - intros m' x [[<- <-]|[Hne E]]%lookup_insert_Some; [left; lia|].
    destruct (go_windows g Hg m m' o x Hne Em E) as [[Hl ?]|[? ?]]; [left; rewrite Hnl in Hend by done; lia|right; cbn; split; [done|lia]].
Qed.

Lemma group_run_ok es : Forall event_ok es -> group_ok (group_run es).
Proof.
  unfold group_run. assert (group_ok group_new) as H by (split; cbn; [done|intros ? ? ?| |intros ? ? ? ? ? ?|intros ? ? ? ?|intros ? ? ? ? ? ?]; set_solver).
  revert H. generalize group_new. intros g Hg Hes. revert g Hg. induction Hes as [|e es He _ IH]; intros g Hg; [done|]. apply IH.
  destruct e; [by apply group_ok_takes|by apply group_ok_asks|by apply group_ok_commits|by apply group_ok_steps_down].
Qed.

Lemma group_run_apart es i j a b n : Forall event_ok es -> i <> j ->
  gr_issued (group_run es) !! i = Some a -> gr_issued (group_run es) !! j = Some b -> ~ (a.1 <= n < a.1 + a.2 /\ b.1 <= n < b.1 + b.2).
Proof. intros Hes Hij Ha Hb [? ?]. destruct (go_apart _ (group_run_ok es Hes) i j a b Hij Ha Hb); lia. Qed.

(** Only the member that leads is asked. *)
Fixpoint led (g : Group) (es : list GroupEvent) : Prop :=
  match es with
  | [] => True
  | e :: es => match e with Asks m _ _ _ => m = gr_leader g | _ => True end /\ led (group_step g e).1 es
  end.

(** Each run of [issued] lies above the ones handed out before it. *)
Definition rising (issued : list (N * N)) : Prop := StronglySorted (fun later earlier => earlier.1 + earlier.2 <= later.1) issued.

Lemma group_step_rising g m count clock commits : group_ok g -> m = gr_leader g -> rising (gr_issued g) ->
  rising (gr_issued (group_step g (Asks m count clock commits)).1).
Proof.
  intros Hg Hm Hr. cbn [group_step]. destruct (gr_dispensers g !! m) as [o|] eqn:Em; [|done].
  pose proof (dp_allocate_ok o count clock (commit_tso g m commits) (proj1 (go_dispensers g Hg m o Em))) as Ha.
  destruct (dp_allocate _ _ _ _) as [[o' asked] [start|e]]; cbn; [|done]. destruct Ha as (_ & _ & _ & _ & Hs & _).
  constructor; [done|]. apply Forall_forall. intros r Hin. cbn. destruct (go_outside g Hg m o r Em Hin) as [?|[? _]]; [lia|done].
Qed.

Lemma group_run_rising es : Forall event_ok es -> led group_new es -> rising (gr_issued (group_run es)).
Proof.
  unfold group_run. intros Hes. pose proof (group_run_ok [] ltac:(constructor)) as Hg. change (group_run []) with group_new in Hg.
  assert (rising (gr_issued group_new)) as Hr by constructor. revert Hg Hr. generalize group_new.
  induction Hes as [|e es He _ IH]; intros g Hg Hr Hl; [done|]. destruct Hl as [Hm Hl]. apply IH; [..|exact Hl].
  - destruct e; [by apply group_ok_takes|by apply group_ok_asks|by apply group_ok_commits|by apply group_ok_steps_down].
  - destruct e; [done|by apply group_step_rising|done|done].
Qed.

(** What a member is answered. *)
Definition answered (g : Group) (m : nat) (count clock_ms : N) (commits : bool) : option N :=
  match (group_step g (Asks m count clock_ms commits)).2 with Some (Ok start) => Some start | _ => None end.

(** Member [m] was replaced by [m'] and has not taken office since: what it
    holds stays below [K], and [m'] starts at [K] or past it. *)
Record deposed (m m' : nat) (K : N) (g : Group) : Prop := {
  de_ok : group_ok g;
  de_leader : m <> gr_leader g;
  de_mark : K <= cover (gr_mark g);
  de_old : forall o, gr_dispensers g !! m = Some o -> cover (dp_mark o) <= K;
  de_new : forall o, gr_dispensers g !! m' = Some o -> K <= dp_next o;
}.

Lemma deposed_takes g m m' clock : group_ok g -> m <> m' -> deposed m m' (cover (gr_mark g)) (group_step g (TakesOffice m' clock)).1.
Proof.
  intros Hg Hne. split; [by apply group_ok_takes|done|done|..]; cbn [group_step fst gr_dispensers].
  - intros o [[-> _]|[_ E]]%lookup_insert_Some; [done|]. apply dp_cover_le. by apply (go_dispensers g Hg m).
  - intros o [[_ <-]|[Hn _]]%lookup_insert_Some; [|done]. by apply dp_load_ok, Hg.
Qed.

(** A member that does not lead has no mark of its own made durable. *)
Lemma follower_keeps_mark (g : Group) m (o : D) count clock commits : dp_ok o -> m <> gr_leader g ->
  let '(o', asked, r) := dp_allocate o count clock (commit_tso g m commits) in dp_mark o' = dp_mark o.
Proof.
  intros Ho Hne. pose proof (dp_allocate_ok o count clock (commit_tso g m commits) Ho) as Ha.
  destruct (dp_allocate _ _ _ _) as [[o' asked] [start|e]]; [|by destruct Ha as (_ & _ & _ & -> & _)].
  destruct Ha as (_ & _ & _ & _ & _ & _ & _ & _ & Hasked). destruct asked as [mark|]; [|done].
  destruct Hasked as (_ & _ & u & Hu). unfold commit_tso in Hu. by rewrite bool_decide_false in Hu.
Qed.

Lemma deposed_step g m m' K e : deposed m m' K g -> event_ok e -> (forall clock, e <> TakesOffice m clock) -> deposed m m' K (group_step g e).1.
Proof.
  intros [Hg Hl Hk Ho Hn] He Hno. destruct e as [x clock|x count clock commits|mark|x].
  - assert (x <> m) as Hx by (intros ->; by destruct (Hno clock)).
    split; [by apply group_ok_takes|done|done|..]; cbn [group_step fst gr_dispensers].
    + intros o [[-> _]|[_ E]]%lookup_insert_Some; [done|by apply Ho].
    + intros o [[_ <-]|[_ E]]%lookup_insert_Some; [|by apply Hn]. etrans; [exact Hk|]. by apply dp_load_ok, Hg.
  - pose proof (group_ok_asks g x count clock commits Hg) as Hg'. cbn [group_step] in Hg' |- *.
    destruct (gr_dispensers g !! x) as [o|] eqn:Ex; [|done]. destruct (go_dispensers g Hg x o Ex) as [Hox _].
    pose proof (follower_keeps_mark g x o count clock commits Hox) as Hkeep.
    pose proof (dp_allocate_ok o count clock (commit_tso g x commits) Hox) as Ha.
    destruct (dp_allocate _ _ _ _) as [[o' asked] r]. destruct Ha as (_ & Hnext & _). cbn [fst] in Hg' |- *.
    split; [exact Hg'|done|..]; cbn [gr_dispensers gr_mark].
    + etrans; [exact Hk|]. apply dp_cover_le. destruct asked; [|lia]. destruct (is_ok _); lia.
    + intros y [[-> <-]|[_ E]]%lookup_insert_Some; [|by apply Ho]. rewrite Hkeep by done. by apply Ho.
    + intros y [[-> <-]|[_ E]]%lookup_insert_Some; [|by apply Hn]. specialize (Hn o Ex). lia.
  - split; [by apply group_ok_commits|done|..]; cbn; [|done..]. etrans; [exact Hk|]. apply dp_cover_le. lia.
  - split; [by apply group_ok_steps_down|done|done|..]; cbn; intros o [_ E]%lookup_delete_Some; [by apply Ho|by apply Hn].
Qed.
Lemma deposed_run es : forall g m m' K, deposed m m' K g -> Forall event_ok es -> (forall clock, TakesOffice m clock ∉ es) ->
  deposed m m' K (foldl (fun g e => (group_step g e).1) g es).
Proof.
  induction es as [|e es IH]; intros g m m' K Hd Hes Hno; [done|]. apply Forall_cons in Hes as [He Hes]. cbn [foldl]. apply IH; [|done|].
  - apply deposed_step; [done..|]. intros clock ->. apply (Hno clock). by left.
  - intros clock Hin. apply (Hno clock). by right.
Qed.

Lemma deposed_answers g m m' K count clock commits start : deposed m m' K g ->
  (answered g m count clock commits = Some start -> start + count <= K) /\ (answered g m' count clock commits = Some start -> K <= start).
Proof.
  intros [Hg Hl Hk Ho Hn]. unfold answered. cbn [group_step]. split.
  - destruct (gr_dispensers g !! m) as [o|] eqn:Em; [|done]. destruct (go_dispensers g Hg m o Em) as [Hox _].
    pose proof (follower_keeps_mark g m o count clock commits Hox Hl) as Hkeep. pose proof (dp_allocate_ok o count clock (commit_tso g m commits) Hox) as Ha.
    destruct (dp_allocate _ _ _ _) as [[o' asked] [s|e]]; [|done]. cbn [snd]. intros [= ->]. destruct Ha as (_ & _ & _ & _ & _ & Hsum & Hend & _).
    rewrite Hkeep in Hend. specialize (Ho o eq_refl). lia.
  - destruct (gr_dispensers g !! m') as [o|] eqn:Em; [|done]. destruct (go_dispensers g Hg m' o Em) as [Hox _].
    pose proof (dp_allocate_ok o count clock (commit_tso g m' commits) Hox) as Ha.
    destruct (dp_allocate _ _ _ _) as [[o' asked] [s|e]]; [|done]. cbn [snd]. intros [= ->]. destruct Ha as (_ & _ & _ & _ & Hs & _).
    specialize (Hn o eq_refl). lia.
Qed.

(** The successor answers, and the member it replaced answers later. *)
Lemma deposed_below es mid mid' m m' clock count' clock' commits' successor count clock'' commits'' old :
  Forall event_ok (es ++ mid ++ mid') -> m <> m' -> (forall k, TakesOffice m k ∉ mid ++ mid') ->
  let before := es ++ TakesOffice m' clock :: mid in let after := before ++ Asks m' count' clock' commits' :: mid' in
  answered (group_run before) m' count' clock' commits' = Some successor -> answered (group_run after) m count clock'' commits'' = Some old ->
  old + count <= successor.
Proof.
  rewrite !Forall_app. intros (He & Hm1 & Hm2) Hne Hno before after. unfold after, before, group_run. rewrite !foldl_app. cbn [foldl].
  fold (group_run es). pose proof (deposed_takes _ m m' clock (group_run_ok es He) Hne) as Hd.
  apply (deposed_run mid) in Hd; [|done|intros k Hk; apply (Hno k), elem_of_app; by left].
  set (g1 := foldl _ _ mid) in *. intros H1. apply (deposed_answers _ _ _ _ _ _ _ _ Hd) in H1.
  pose proof (deposed_step g1 m m' _ (Asks m' count' clock' commits') Hd I ltac:(done)) as Hd2.
  apply (deposed_run mid') in Hd2; [|done|intros k Hk; apply (Hno k), elem_of_app; by right].
  intros H2. apply (deposed_answers _ _ _ _ _ _ _ _ Hd2) in H2. lia.
Qed.
End Group.

(** ** The layout orders *)

Definition ts_of (physical_ms logical : N) : N := physical_ms * LOGICAL_SPACE + logical.

Lemma compose_ts_of p l : p <= MAX_PHYSICAL_MS -> l < LOGICAL_SPACE -> compose_ts p l = ts_of p l /\ ts_of p l < two64.
Proof.
  intros Hp Hl. unfold compose_ts, shl64, ts_of.
  change TSO_LOGICAL_BITS with 18. change TSO_MAX_LOGICAL with (N.ones 18). change LOGICAL_SPACE with (2 ^ 18) in *.
  change MAX_PHYSICAL_MS with (2 ^ 46 - 1) in Hp. rewrite N.land_ones, (N.mod_small l) by done. rewrite N.shiftl_mul_pow2.
  assert (p * 2 ^ 18 + l < two64) as Hlt by (unfold two64; change (2 ^ 18) with 262144 in *; change (2 ^ 46) with 70368744177664 in *; lia).
  rewrite N.mod_small by lia. split; [|done]. rewrite <- N.shiftl_mul_pow2.
  symmetry. rewrite <- N.lxor_lor, <- N.add_nocarry_lxor; try done.
  all: apply N.bits_inj_0; intros n; rewrite N.land_spec; destruct (N.lt_ge_cases n 18) as [H|H].
  all: try (rewrite N.shiftl_spec_low by done; done).
  all: rewrite (N.bits_above_log2 l); [by rewrite andb_false_r|]; destruct (N.eq_dec l 0) as [->|]; [cbn; lia|]; apply N.log2_lt_pow2; [lia|];
    eapply N.lt_le_trans; [exact Hl|]; apply N.pow_le_mono_r; lia.
Qed.

(** ** One allocation *)

(** The least timestamp the oracle may still hand out. *)
Definition or_next (o : Oracle) : N := ts_of (or_physical_ms o) (or_logical o).
Definition oracle_ok (o : Oracle) : Prop := or_logical o <= LOGICAL_SPACE /\ 1 <= or_save_interval_ms o.

Lemma space_pos : 0 < LOGICAL_SPACE.
Proof. done. Qed.
Lemma ts_of_later p l p' : l <= LOGICAL_SPACE -> p < p' -> ts_of p l <= ts_of p' 0.
Proof. pose proof space_pos. unfold ts_of. intros. nia. Qed.
Lemma ts_of_le p p' : p <= p' -> ts_of p 0 <= ts_of p' 0.
Proof. unfold ts_of. intros. nia. Qed.

(** The oracle [Pd::leading] rebuilds on a new term: from the applied mark, at
    the reading [office_clock] picks. *)
Definition leading_oracle (applied_mark clock_ms save_interval_ms : N) : Oracle :=
  oracle_load (if 0 <? applied_mark then Some (mkTso applied_mark) else None) clock_ms save_interval_ms.

(** The oracle of a group with the given save interval. *)
#[export] Instance oracle_dispenser (save_interval_ms : N) : Dispenser Oracle := {
  dp_load mark clock := leading_oracle mark clock save_interval_ms;
  dp_allocate := oracle_allocate;
  dp_next := or_next;
  dp_mark := or_high_water_ms;
  dp_cover mark := ts_of mark 0;
  dp_ok := oracle_ok;
}.

Lemma hand_out_ok p l hw save count : 1 <= count -> l + count <= LOGICAL_SPACE -> p <= MAX_PHYSICAL_MS -> p < hw ->
  let o := mkOracle p l hw save in let o' := mkOracle p (l + count) hw save in let start := compose_ts p l in
  or_next o <= start /\ start + count = or_next o' /\ or_next o' <= ts_of hw 0 /\ start + count <= two64.
Proof.
  intros Hc Hl Hp Hh. cbn. destruct (compose_ts_of p l Hp ltac:(lia)) as [-> Hlt]. unfold or_next. cbn.
  split; [lia|]. split; [unfold ts_of; lia|]. split; [by apply ts_of_later|].
  unfold ts_of. change LOGICAL_SPACE with 262144 in *. change MAX_PHYSICAL_MS with 70368744177663 in *. unfold two64. lia.
Qed.

(** The clock's move and the roll into the next millisecond keep the position. *)
Definition follow (o : Oracle) (now_ms : N) : Oracle :=
  if or_physical_ms o <? now_ms then mkOracle now_ms 0 (or_high_water_ms o) (or_save_interval_ms o) else o.
Lemma follow_ok o now_ms : oracle_ok o -> let o' := follow o now_ms in
  oracle_ok o' /\ or_next o <= or_next o' /\ or_high_water_ms o' = or_high_water_ms o /\ or_save_interval_ms o' = or_save_interval_ms o.
Proof.
  intros [Hl Hs]. unfold follow. destruct (N.ltb_spec (or_physical_ms o) now_ms) as [H|H]; cbn; [|done].
  split; [by split; [cbn; pose proof space_pos; lia|]|]. split; [by apply ts_of_later|done].
Qed.

Lemma refused {D} `{Dispenser D} (o : D) count persist o' asked e : dp_ok o' -> dp_next o <= dp_next o' -> dp_mark o' = dp_mark o ->
  (forall mark, asked = Some mark -> exists e, persist mark = Err e) -> dispensed o count persist o' asked (Err e).
Proof. intros Ho Hn Hm Hp. unfold dispensed. split_and!; try done. lia. Qed.

(** The millisecond the run fits in. *)
Lemma roll_ok o count o' : oracle_ok o -> count <= LOGICAL_SPACE ->
  (if LOGICAL_SPACE <? or_logical o + count then
     match checked_add64 (or_physical_ms o) 1 with
     | None => None
     | Some physical_ms => Some (mkOracle physical_ms 0 (or_high_water_ms o) (or_save_interval_ms o))
     end
   else Some o) = Some o' ->
  oracle_ok o' /\ or_next o <= or_next o' /\ or_high_water_ms o' = or_high_water_ms o /\ or_logical o' + count <= LOGICAL_SPACE.
Proof.
  intros Ho Hc. destruct (N.ltb_spec LOGICAL_SPACE (or_logical o + count)) as [Hlt|Hle].
  - unfold checked_add64. destruct (or_physical_ms o + 1 <? two64); [|done]. intros [= <-]. unfold oracle_ok, or_next.
    cbn [or_physical_ms or_logical or_high_water_ms or_save_interval_ms].
    pose proof (ts_of_later (or_physical_ms o) (or_logical o) (or_physical_ms o + 1) (proj1 Ho) ltac:(lia)). pose proof (proj2 Ho). lia.
  - intros [= <-]. by split_and!.
Qed.

Lemma oracle_allocate_ok save_interval_ms o count now_ms persist : oracle_ok o ->
  let '(o', asked, r) := oracle_allocate o count now_ms persist in
  dispensed (H := oracle_dispenser save_interval_ms) o count persist o' asked r.
Proof.
  intros Ho. unfold oracle_allocate. destruct (N.eqb_spec count 0) as [|Hc]; [by apply refused|].
  destruct (N.ltb_spec LOGICAL_SPACE count) as [|Hc']; [by apply refused|].
  fold (follow o now_ms). pose proof (follow_ok o now_ms Ho) as (Ho1 & Hn1 & Hh1 & _). set (o1 := follow o now_ms) in *.
  match goal with |- context [match ?X with Some _ => _ | None => _ end] => destruct X as [o2|] eqn:E end; [|by apply refused].
  apply roll_ok in E as (Ho2 & Hn2 & Hh2 & Hl2); [|done..].
  assert (or_next o <= or_next o2) as Hn by lia. rewrite Hh1 in Hh2. clear Hn1 Hn2.
  destruct (N.ltb_spec MAX_PHYSICAL_MS (or_physical_ms o2)) as [|Hp]; [by apply refused|].
  destruct (N.leb_spec (or_high_water_ms o2) (or_physical_ms o2)) as [Hw|Hw].
  - unfold checked_add64. destruct (N.ltb_spec (or_physical_ms o2 + or_save_interval_ms o2) two64) as [Hlt|]; [|by apply refused].
    destruct (persist _) as [u|e] eqn:Ep; [|apply refused; [done..|]; intros mark [= <-]; by exists e]. destruct Ho2 as [Hl Hs].
    destruct (hand_out_ok (or_physical_ms o2) (or_logical o2) (or_physical_ms o2 + or_save_interval_ms o2) (or_save_interval_ms o2) count) as (A & B & C & Dd);
      [lia|done|done|lia|]. unfold dispensed. cbn [dp_ok dp_next dp_mark dp_cover oracle_dispenser]. unfold oracle_ok, or_next in *.
    cbn [or_physical_ms or_logical or_high_water_ms or_save_interval_ms] in *. split_and!; try lia. by exists u.
  - destruct Ho2 as [Hl Hs]. destruct (hand_out_ok (or_physical_ms o2) (or_logical o2) (or_high_water_ms o2) (or_save_interval_ms o2) count) as (A & B & C & Dd);
      [lia|done|done|done|]. unfold dispensed. cbn [dp_ok dp_next dp_mark dp_cover oracle_dispenser]. unfold oracle_ok, or_next in *.
    cbn [or_physical_ms or_logical or_high_water_ms or_save_interval_ms] in *. split_and!; lia.
Qed.

Lemma leading_oracle_ok mark clock save_interval_ms : let o := leading_oracle mark clock save_interval_ms in
  oracle_ok o /\ or_high_water_ms o = mark /\ ts_of mark 0 <= or_next o.
Proof.
  cbn. unfold leading_oracle, oracle_load, oracle_ok, or_next. cbn [or_logical or_save_interval_ms or_high_water_ms or_physical_ms].
  assert (from_option tr_high_water_ms 0 (if 0 <? mark then Some (mkTso mark) else None) = mark) as ->.
  { destruct (N.ltb_spec 0 mark); cbn; lia. }
  split; [pose proof space_pos; lia|]. split; [done|]. apply ts_of_le. lia.
Qed.

#[export] Instance oracle_laws save_interval_ms : DispenserLaws Oracle (H := oracle_dispenser save_interval_ms).
Proof.
  split.
  - apply ts_of_le.
  - intros mark clock _. apply leading_oracle_ok.
  - apply oracle_allocate_ok.
Qed.

(** ** The allocator *)

Definition leading_allocator (applied_end batch : N) : Allocator :=
  allocator_load (if 0 <? applied_end then Some (mkAlloc applied_end) else None) batch.

(** The next id, with the exhausted allocator's [0] past the last one. *)
Definition al_next_id (a : Allocator) : N := if al_next a =? 0 then two64 else al_next a.
Definition allocator_ok (a : Allocator) : Prop := al_next a < two64 /\ al_allocated_end a < two64 /\ 1 <= al_batch a.

#[export] Instance allocator_dispenser (batch : N) : Dispenser Allocator := {
  dp_load mark _ := leading_allocator mark batch;
  dp_allocate a count _ := allocator_allocate a count;
  dp_next := al_next_id;
  dp_mark := al_allocated_end;
  dp_cover mark := mark + 1;
  dp_ok := allocator_ok;
}.

Lemma wadd_next v : v < two64 -> (if v +% 1 =? 0 then two64 else v +% 1) = v + 1.
Proof.
  intros Hv. destruct (N.eq_dec v u64_max) as [->|Hne]; [done|]. rewrite wadd_small by (unfold u64_max, two64 in *; lia).
  destruct (N.eqb_spec (v + 1) 0); lia.
Qed.

Lemma div_ceil_le a b : 1 <= b -> a <= div_ceil a b * b.
Proof.
  intros Hb. unfold div_ceil. pose proof (N.div_mod a b ltac:(lia)) as E. pose proof (N.mod_lt a b ltac:(lia)).
  destruct (N.eqb_spec (a mod b) 0); nia.
Qed.

(** A reservation covers the ids asked for. *)
Lemma reservation_covers end_ last batch : 1 <= batch -> last < two64 -> end_ <= last ->
  last <= sat_add end_ (sat_mul (div_ceil (last - end_) batch) batch) < two64.
Proof.
  intros Hb Hl He. pose proof (div_ceil_le (last - end_) batch Hb). unfold sat_add, sat_mul, u64_max, two64 in *. lia.
Qed.

Lemma allocator_allocate_ok batch a count clock persist : allocator_ok a ->
  let '(a', asked, r) := dp_allocate (Dispenser := allocator_dispenser batch) a count clock persist in
  dispensed (H := allocator_dispenser batch) a count persist a' asked r.
Proof.
  intros Ha. cbn [dp_allocate allocator_dispenser]. unfold allocator_allocate. destruct (N.eqb_spec count 0) as [|Hc]; [by apply refused|].
  destruct (N.eqb_spec (al_next a) 0) as [|Hn]; [by apply refused|].
  unfold checked_add64. destruct (N.ltb_spec (al_next a + (count - 1)) two64) as [Hl|]; [|by apply refused].
  set (last := al_next a + (count - 1)) in *. pose proof (wadd_next last Hl) as Hnext. pose proof (wadd_lt last 1) as Hlt.
  assert (al_next_id a = al_next a) as Hid by (unfold al_next_id; by destruct (N.eqb_spec (al_next a) 0)).
  destruct Ha as (Ha1 & Ha2 & Ha3).
  destruct (N.ltb_spec (al_allocated_end a) last) as [Hend|Hend].
  - pose proof (reservation_covers (al_allocated_end a) last (al_batch a) Ha3 Hl ltac:(lia)) as [Hr1 Hr2].
    set (e := sat_add _ _) in *. destruct (persist e) as [u|er] eqn:Ep; [|apply refused; [done..|]; intros mark [= <-]; by exists er].
    unfold dispensed. cbn [dp_ok dp_next dp_mark dp_cover allocator_dispenser]. rewrite Hid. unfold allocator_ok, al_next_id. cbn [al_next al_allocated_end al_batch].
    rewrite Hnext. split_and!; try lia. by exists u.
  - unfold dispensed. cbn [dp_ok dp_next dp_mark dp_cover allocator_dispenser]. rewrite Hid. unfold allocator_ok, al_next_id. cbn [al_next al_allocated_end al_batch].
    rewrite Hnext. split_and!; lia.
Qed.

#[export] Instance allocator_laws batch : DispenserLaws Allocator (H := allocator_dispenser batch).
Proof.
  split.
  - cbn. lia.
  - intros mark clock Hm. cbn [dp_load dp_ok dp_mark dp_next dp_cover allocator_dispenser]. unfold leading_allocator, allocator_load.
    assert (from_option ar_allocated_end 0 (if 0 <? mark then Some (mkAlloc mark) else None) = mark) as -> by (destruct (N.ltb_spec 0 mark); cbn; lia).
    unfold allocator_ok, al_next_id. cbn [al_next al_allocated_end al_batch]. rewrite wadd_next by done. pose proof (wadd_lt mark 1). lia.
  - apply allocator_allocate_ok.
Qed.

(** ** Timestamps and ids *)

Definition tso_group (save_interval_ms : N) (es : list GroupEvent) : Group Oracle := @group_run Oracle (oracle_dispenser save_interval_ms) es.
Definition ids_group (batch : N) (es : list GroupEvent) : Group Allocator := @group_run Allocator (allocator_dispenser batch) es.

(** C8: No timestamp and no id is ever handed out twice, whatever happens to the
    group: members taking office in any order, clocks that jump or stand still,
    proposals that fail, or fail and commit later, an id space that runs out, and
    leaders that have been replaced and keep answering from the window they hold. *)
Theorem numbers_never_repeat save_interval_ms batch es i j a b n : Forall event_ok es -> i <> j ->
  (gr_issued (tso_group save_interval_ms es) !! i = Some a /\ gr_issued (tso_group save_interval_ms es) !! j = Some b) \/
  (gr_issued (ids_group batch es) !! i = Some a /\ gr_issued (ids_group batch es) !! j = Some b) ->
  ~ (a.1 <= n < a.1 + a.2 /\ b.1 <= n < b.1 + b.2).
Proof.
  intros Hes Hij [[Ha Hb]|[Ha Hb]].
  - exact (@group_run_apart Oracle (oracle_dispenser save_interval_ms) (oracle_laws save_interval_ms) es i j a b n Hes Hij Ha Hb).
  - exact (@group_run_apart Allocator (allocator_dispenser batch) (allocator_laws batch) es i j a b n Hes Hij Ha Hb).
Qed.

(** A failover: member 2 takes office while member 1 has not noticed. *)
Definition failover : list GroupEvent :=
  [TakesOffice 1 1000; Asks 1 10 1000 true; TakesOffice 2 900; Asks 2 10 950 true; Asks 1 5 1001 true].

Lemma numbers_never_repeat_witness : ~ (262144000 <= 262144009 < 262144010 /\ 1048576000 <= 262144009 < 1048576010).
Proof.
  apply (numbers_never_repeat 3000 1000 failover 2 1 (262144000, 10) (1048576000, 10) 262144009).
  - repeat constructor.
  - lia.
  - left. split; vm_compute; reflexivity.
Defined.

(** C15: While the member that is asked is the one that leads, every timestamp is
    above all those handed out before it, across restarts, failovers and clocks
    that go backwards, and so is every id. *)
Theorem numbers_rise save_interval_ms batch es : Forall event_ok es ->
  (@led Oracle (oracle_dispenser save_interval_ms) group_new es -> rising (gr_issued (tso_group save_interval_ms es))) /\
  (@led Allocator (allocator_dispenser batch) group_new es -> rising (gr_issued (ids_group batch es))).
Proof.
  intros Hes. split; intros Hl.
  - exact (@group_run_rising Oracle (oracle_dispenser save_interval_ms) (oracle_laws save_interval_ms) es Hes Hl).
  - exact (@group_run_rising Allocator (allocator_dispenser batch) (allocator_laws batch) es Hes Hl).
Qed.

Lemma numbers_rise_witness : rising (gr_issued (tso_group 3000 [TakesOffice 1 1000; Asks 1 10 1000 true; TakesOffice 2 900; Asks 2 10 950 true])).
Proof.
  apply (numbers_rise 3000 1000).
  - repeat constructor.
  - vm_compute. repeat split.
Defined.

(** Numbers left in the window a member holds. *)
Definition oracle_room (o : Oracle) (count now_ms : N) : Prop :=
  let o := follow o now_ms in 1 <= count /\ or_logical o + count <= LOGICAL_SPACE /\ or_physical_ms o <= MAX_PHYSICAL_MS /\ or_physical_ms o < or_high_water_ms o.
Definition allocator_room (a : Allocator) (count : N) : Prop :=
  1 <= count /\ 1 <= al_next a /\ al_next a + (count - 1) <= al_allocated_end a /\ al_allocated_end a < two64.

Lemma oracle_answers save_interval_ms g m o count clock commits : gr_dispensers g !! m = Some o -> oracle_room o count clock ->
  is_Some (answered (Dispenser0 := oracle_dispenser save_interval_ms) g m count clock commits).
Proof.
  intros Hm (H1 & H2 & H3 & H4). unfold answered. cbn [group_step]. rewrite Hm. cbn [dp_allocate oracle_dispenser]. unfold oracle_allocate.
  fold (follow o clock). set (o1 := follow o clock) in *. rewrite (proj2 (N.eqb_neq _ _)), (proj2 (N.ltb_ge LOGICAL_SPACE count)) by lia. cbv zeta.
  rewrite (proj2 (N.ltb_ge LOGICAL_SPACE (or_logical o1 + count))), (proj2 (N.ltb_ge MAX_PHYSICAL_MS _)), (proj2 (N.leb_gt _ _)) by lia. by eexists.
Qed.
Lemma allocator_answers batch g m a count clock commits : gr_dispensers g !! m = Some a -> allocator_room a count ->
  is_Some (answered (Dispenser0 := allocator_dispenser batch) g m count clock commits).
Proof.
  intros Hm (H1 & H2 & H3 & H4). unfold answered. cbn [group_step]. rewrite Hm. cbn [dp_allocate allocator_dispenser]. unfold allocator_allocate, checked_add64.
  rewrite (proj2 (N.eqb_neq count 0)), (proj2 (N.eqb_neq (al_next a) 0)), (proj2 (N.ltb_lt _ two64)), (proj2 (N.ltb_ge (al_allocated_end a) _)) by lia. by eexists.
Qed.

(** C36: a leader that has been replaced and has not noticed takes timestamps
    backwards.  After any history let [m'] take office, and let [m], which serves
    and does not take office again, be asked after [m'] has answered, whatever
    else happens in between.  While the window [m] holds has room it answers, without a
    word to the log and whether or not its proposals would commit; and every timestamp
    it answers lies below the one its successor handed out before.  So nothing
    repeats, but a caller that had a timestamp from the successor is handed a
    smaller one afterwards.  Ids do the same. *)
Theorem deposed_leader_goes_back save_interval_ms batch es mid mid' m m' clock count' clock' commits' successor count clock'' commits'' :
  Forall event_ok (es ++ mid ++ mid') -> m <> m' -> (forall k, TakesOffice m k ∉ mid ++ mid') ->
  let before := es ++ TakesOffice m' clock :: mid in let after := before ++ Asks m' count' clock' commits' :: mid' in
  (answered (Dispenser0 := oracle_dispenser save_interval_ms) (tso_group save_interval_ms before) m' count' clock' commits' = Some successor ->
   forall o, gr_dispensers (tso_group save_interval_ms after) !! m = Some o ->
   let late := answered (Dispenser0 := oracle_dispenser save_interval_ms) (tso_group save_interval_ms after) m count clock'' commits'' in
   (oracle_room o count clock'' -> is_Some late) /\ forall old, late = Some old -> old + count <= successor) /\
  (answered (Dispenser0 := allocator_dispenser batch) (ids_group batch before) m' count' clock' commits' = Some successor ->
   forall a, gr_dispensers (ids_group batch after) !! m = Some a ->
   let late := answered (Dispenser0 := allocator_dispenser batch) (ids_group batch after) m count clock'' commits'' in
   (allocator_room a count -> is_Some late) /\ forall old, late = Some old -> old + count <= successor).
Proof.
  intros Hes Hne Hno before after. split; intros Hs o Hm late; (split; [intros Hroom|intros old Hold]).
  - by eapply oracle_answers.
  - by eapply (deposed_below (Dispenser0 := oracle_dispenser save_interval_ms) es mid mid' m m').
  - by eapply allocator_answers.
  - by eapply (deposed_below (Dispenser0 := allocator_dispenser batch) es mid mid' m m').
Qed.

Lemma deposed_leader_goes_back_witness : exists old, old + 5 <= compose_ts 4000 0 /\
  answered (Dispenser0 := oracle_dispenser 3000) (tso_group 3000 (take 4 failover)) 1 5 1001 false = Some old.
Proof.
  destruct (deposed_leader_goes_back 3000 1000 [TakesOffice 1 1000; Asks 1 10 1000 true] [] [] 1 2 900 10 950 true (compose_ts 4000 0) 5 1001 false) as [Ht _].
  - repeat constructor.
  - discriminate.
  - intros k Hk. by apply elem_of_nil in Hk.
  - destruct (Ht eq_refl (mkOracle 1000 10 4000 3000) eq_refl) as [Hroom Hbelow].
    destruct Hroom as [old Hold]; [by vm_compute|]. exists old. split; [exact (Hbelow old Hold)|exact Hold].
Defined.

