(* ===== verification/PdSafepoint.v ===== *)
(** The garbage-collection safepoint the placement driver publishes:
    [esker-pd/src/safepoint.rs], and [Pd::report_and_read_safepoint] of
    [pd/mod.rs] that feeds it. *)

From Stdlib Require Import Strings.String Strings.Byte.
From stdpp Require Import prelude gmap.
From Stdlib Require Import NArith ZArith Lia.
From S2P Require Import Prelude PdRecord PdTso.

Local Open Scope N_scope.

(** ** The registry *)

Record Reporter := mkReporter { re_oldest : option N; re_heard : N }.
Record Safepoints := mkSafepoints {
  sp_retention_ms : N;
  sp_ttl_ms : N;
  sp_reporters : gmap N Reporter;
  sp_published : N;
}.

(** [ms.checked_shl(18).unwrap_or(u64::MAX)]: [checked_shl] refuses a shift of
    the width or more and nothing else, so the bits past the top are dropped. *)
Definition checked_shl64 (v n : N) : option N := if n <? 64 then Some (shl64 v n) else None.
Definition as_ts (ms : N) : N := default u64_max (checked_shl64 ms TSO_LOGICAL_BITS).

Definition safepoints_new (retention_ms ttl_ms : N) : Safepoints := mkSafepoints retention_ms ttl_ms ∅ 0.
Definition report (s : Safepoints) (reporter : N) (oldest : option N) (now : N) : Safepoints :=
  mkSafepoints (sp_retention_ms s) (sp_ttl_ms s) (<[reporter := mkReporter oldest now]> (sp_reporters s)) (sp_published s).
Definition forget (s : Safepoints) (reporter : N) : Safepoints :=
  mkSafepoints (sp_retention_ms s) (sp_ttl_ms s) (delete reporter (sp_reporters s)) (sp_published s).

(** What a reporter pins: its oldest read, or the instant it spoke. *)
Definition word (r : Reporter) : N := default (re_heard r) (re_oldest r).
Definition live (ttl now : N) (r : Reporter) : bool := sat_sub now (re_heard r) <=? ttl.
(** [Iterator::min]. *)
Definition iter_min (l : list N) : option N :=
  match l with [] => None | x :: l => Some (foldl N.min x l) end.

Definition safepoint (s : Safepoints) (now : N) : Safepoints * N :=
  let ttl := as_ts (sp_ttl_ms s) in
  let reporters := filter (fun e => live ttl now e.2 = true) (sp_reporters s) in
  let s := mkSafepoints (sp_retention_ms s) (sp_ttl_ms s) reporters (sp_published s) in
  if decide (reporters = ∅) then (s, sp_published s)
  else
    let window := sat_sub now (as_ts (sp_retention_ms s)) in
    let oldest := iter_min ((fun e => word e.2) <$> map_to_list reporters) in
    let computed := from_option (fun oldest => N.min window oldest) window oldest in
    let published := N.max (sp_published s) computed in
    (mkSafepoints (sp_retention_ms s) (sp_ttl_ms s) reporters published, published).

(** [report_and_read_safepoint], with the timestamp [self.tso(1)] answered. *)
Definition report_and_read_safepoint (s : Safepoints) (reporter : N) (oldest_read : option N) (now : N) : Safepoints * N :=
  let s := if reporter =? 0 then s else report s reporter oldest_read now in
  safepoint s now.

(** ** The safepoint *)

Lemma iter_min_le l x : x ∈ l -> exists m, iter_min l = Some m /\ m <= x.
Proof.
  intros Hx. destruct l as [|y l]; [by apply elem_of_nil in Hx|]. cbn. eexists. split; [done|].
  assert (forall l y, foldl N.min y l <= y /\ forall x, x ∈ l -> foldl N.min y l <= x) as H.
  { clear. induction l as [|z l IH]; intros y; cbn; [split; [lia|]; intros x Hx; by apply elem_of_nil in Hx|].
    destruct (IH (N.min y z)) as [H1 H2]. split; [lia|]. intros x [->|Hx]%elem_of_cons; [lia|by apply H2]. }
  destruct (H l y) as [H1 H2]. apply elem_of_cons in Hx as [->|Hx]; [done|by apply H2].
Qed.
Lemma iter_min_some l : l <> [] -> exists m, iter_min l = Some m.
Proof. destruct l; [done|]. intros _. by eexists. Qed.

(** Nobody the registry remembers is ahead of what was published. *)
Definition holds (s : Safepoints) : Prop := forall id r, sp_reporters s !! id = Some r -> sp_published s <= word r.

Lemma safepoint_ok s now : holds s -> let '(s', p) := safepoint s now in
  holds s' /\ sp_published s' = p /\ sp_published s <= p /\
  (forall id r, sp_reporters s' !! id = Some r <-> sp_reporters s !! id = Some r /\ live (as_ts (sp_ttl_ms s)) now r = true) /\
  p <= N.max (sp_published s) (sat_sub now (as_ts (sp_retention_ms s))) /\
  (sp_reporters s' = ∅ -> p = sp_published s).
Proof.
  intros Hh. unfold safepoint. set (rs := filter _ _).
  assert (forall id r, rs !! id = Some r <-> sp_reporters s !! id = Some r /\ live (as_ts (sp_ttl_ms s)) now r = true) as Hrs
    by (intros id r; apply (map_lookup_filter_Some (fun e : N * Reporter => live (as_ts (sp_ttl_ms s)) now e.2 = true))).
  case_decide as He; cbn [sp_reporters sp_published sp_retention_ms].
  - split_and!; try done; [|lia]. intros id r [H _]%Hrs. by apply (Hh id).
  - set (l := _ <$> map_to_list rs). assert (l <> []) as Hl.
    { unfold l. intros E%fmap_nil_inv. apply He. by apply map_to_list_empty_iff. }
    destruct (iter_min_some l Hl) as [m Em]. rewrite Em. cbn [from_option]. split_and!; try done; [|lia|lia].
    intros id r H. cbn in H |- *. assert (word r ∈ l) as Hw by (apply list_elem_of_fmap; exists (id, r); split; [done|by apply elem_of_map_to_list]).
    destruct (iter_min_le l _ Hw) as (m' & Em' & Hm). rewrite Em in Em'. injection Em' as [= <-].
    apply Hrs in H as [H _]. pose proof (Hh id r H). lia.
Qed.

(** C17: A published safepoint never passes a reader.  While reports are not
    older than what was published, each answer is at least the last one, at most
    what the retention window allows or what was published already, and at most
    the oldest read, or the last word, of every reporter heard within its time
    to live, the one that just spoke included.  With nobody left it does not move. *)
Theorem safepoint_spares_readers s reporter oldest now : holds s ->
  (reporter <> 0 -> sp_published s <= word (mkReporter oldest now)) ->
  let '(s', p) := report_and_read_safepoint s reporter oldest now in
  holds s' /\ sp_published s' = p /\ sp_published s <= p /\
  p <= N.max (sp_published s) (sat_sub now (as_ts (sp_retention_ms s))) /\
  (reporter <> 0 -> p <= word (mkReporter oldest now)) /\
  (forall id r, id <> reporter -> sp_reporters s !! id = Some r -> live (as_ts (sp_ttl_ms s)) now r = true -> p <= word r) /\
  (sp_reporters s' = ∅ -> p = sp_published s).
Proof.
  intros Hh Hw. unfold report_and_read_safepoint. set (s1 := if reporter =? 0 then s else report s reporter oldest now).
  assert (holds s1 /\ sp_published s1 = sp_published s /\ sp_ttl_ms s1 = sp_ttl_ms s /\ sp_retention_ms s1 = sp_retention_ms s /\
    (reporter <> 0 -> sp_reporters s1 !! reporter = Some (mkReporter oldest now)) /\
    forall id r, id <> reporter -> sp_reporters s !! id = Some r -> sp_reporters s1 !! id = Some r) as (H1 & E1 & E2 & E3 & E4 & E5).
  { subst s1. destruct (N.eqb_spec reporter 0) as [->|Hne]; [by split_and!|]. split_and!; try done; unfold holds, report; cbn [sp_reporters sp_published].
    - intros id r [[<- <-]|[_ H]]%lookup_insert_Some; cbn; [by apply Hw|by apply (Hh id)].
    - intros _. apply lookup_insert_eq.
    - intros id r Hid H. by rewrite lookup_insert_ne. }
  pose proof (safepoint_ok s1 now H1) as H. destruct (safepoint s1 now) as [s' p]. destruct H as (Hh' & Ep & Hle & Hrs & Hwin & Hempty).
  rewrite E1, ?E2, ?E3 in *. split_and!; try done.
  - intros Hne. rewrite <- Ep. apply (Hh' reporter), Hrs. split; [by apply E4|]. unfold live, sat_sub. cbn. apply N.leb_le. lia.
  - intros id r Hid H Hl. rewrite <- Ep. apply (Hh' id), Hrs. split; [by apply E5|done].
Qed.

Lemma safepoint_spares_readers_witness :
  let s := mkSafepoints 1000 5000 {[ 1 := mkReporter (Some (compose_ts 9000 3)) (compose_ts 9500 0) ]} (compose_ts 8500 0) in
  let '(s', p) := report_and_read_safepoint s 2 None (compose_ts 12000 0) in p <= compose_ts 9000 3 /\ p = compose_ts 9000 3.
Proof.
  intros s. pose proof (safepoint_spares_readers s 2 None (compose_ts 12000 0)) as H.
  destruct (report_and_read_safepoint s 2 None (compose_ts 12000 0)) as [s' p] eqn:E.
  assert (p = compose_ts 9000 3) as -> by (apply (f_equal snd) in E; rewrite <- (E : _ = p); vm_compute; reflexivity).
  split; [|reflexivity]. destruct H as (_ & _ & _ & _ & _ & H & _).
  - intros id r Hr. unfold s in Hr. cbn [sp_reporters] in Hr. apply lookup_singleton_Some in Hr as [_ <-]. vm_compute. discriminate.
  - intros _. vm_compute. discriminate.
  - apply (H 1 (mkReporter (Some (compose_ts 9000 3)) (compose_ts 9500 0))); [discriminate|vm_compute; reflexivity..].
Defined.

(** The retention window is not saturated where it overflows: 2^46 milliseconds
    become none, and what was to be kept for two thousand years is given up at
    once. *)
Lemma retention_overflows : as_ts (2 ^ 46) = 0 /\
  (report_and_read_safepoint (safepoints_new (2 ^ 46) 5000) 1 None (compose_ts 9500 0)).2 = compose_ts 9500 0.
Proof. vm_compute. done. Qed.
